(* ===== verification/_CoqProject ===== *)
-Q . S2P
Prelude.v
Encoding.v
Trajectory.v
F64.v
F64Bits.v
Errors.v
JsonScan.v
JsonScanSpec.v
TraceValidation.v
TraceCanonical.v
TraceValidationSpec.v
TraceBudgetSpec.v
TraceSpec.v
WireJson.v
Replay.v
ReplayAuthority.v
ReplaySpec.v
AuthoritySpec.v
Core.v
GraphNode.v
Tarjan.v
GraphTraverse.v
TraverseSpec.v
PolicyGraph.v
Composition.v
CodexEvent.v
CodexFraming.v
CodexStream.v
CodexStreamSpec.v
CodexMapping.v
CodexMappingSpec.v
CodexReceipt.v
CodexReceiptSpec.v
CodexBundle.v
GraphCycle.v
BinaryDiagnostics.v
GraphDiagnostics.v
Observable.v
KernelChecks.v
Synthetic.v
NonVacuity.v
GraphParadox.v
Extract.v
CoreGraph.v
RustHookCore.v
PythonHookCore.v
TypeScriptCore.v
Mechanism.v
Rules.v
Coalitions.v
RuleDiagnostics.v
PerClaimRules.v
RustEq.v
Clock.v
ProtocolData.v
ProtocolState.v
Spectral.v
ExactSpectral.v
GraphSpectral.v
GraphAudit.v
Compiled.v
LedgerStore.v
Ledger.v
LedgerSpec.v
LedgerVerify.v
LedgerTamper.v
LedgerAudit.v
Compiler.v
Sacrifice.v
Monitor.v
SacrificeSpec.v
GraphSacrifices.v
Paradox.v
ProtocolTransitions.v
Supervision.v
ProtocolSafety.v
Witnesses.v
ProtocolWitnesses.v
CompilerWitnesses.v
TrajectoryWitnesses.v
