(* ===== verification/Prelude.v ===== *)
(** * Legitimacy: compiling governance rules, with their evidence

    ** The program

    The Rust crate under src/src turns a governing rule into checkable evidence.
    There are two kinds of rule.  An allocation rule divides an estate between
    claimants (lib.rs, rules.rs); a governance graph permits, denies or escalates
    claims as they travel along its edges (graph/).  Axiom checkers perturb the
    claims and compare outcomes (axioms/, mechanism.rs, paradox.rs); the compiler
    and the sacrifice compiler collect their verdicts (compiler.rs, sacrifice.rs);
    certificates are issued for reproducible outcomes (certificate.rs); everything
    that is produced is appended to a hash-chained SQLite ledger (ledger.rs,
    ledger/chain/).  The protocol (protocol/) runs a governance graph through the
    states declared, compiled, measured, live, supervised, drifting, amending and
    re-compiled, and the monitor (monitor.rs) compares reported magnitudes with
    the bounds that were declared.  Apart from rules, the trajectory checker
    (trajectory/) validates a recorded run of an agent against its raw records,
    digests and chains it, binds it to a signed receipt and classifies it under
    a graph policy (policy/graph_parser.rs).

    ** Shared files

    - [Prelude]: results and the [?] operator, loops that may leave early, ordered
      sets of strings, decimal printing, list lemmas, tactics and hints.
    - [F64], [F64Bits]: Rust's [f64], bit for bit (one NaN).
    - [RustEq]: derived [PartialEq], which is coarser and finer than equality.
    - [Errors], [Core]: error values; claims, estates, allocations (lib.rs).

    ** Governance graphs

    - [GraphNode]: graph/{node,edge,builder}.rs.  [evaluate_node] dispatches to
      the gate combinations, thresholds, peer comparisons and content filters.
    - [Tarjan], [GraphCycle]: graph/cycle.rs.  The cycle search reports exactly the
      strongly connected components of the nodes on a cycle, in at most a unit
      of fuel per node and edge.
    - [GraphTraverse], [TraverseSpec]: graph/traverse.rs.  [traverse] implements
      a declarative relation between claims and final decisions, its errors are
      exactly the documented ones, and its result depends on neither the order
      of claims and edges nor on edge transforms.
    - [BinaryDiagnostics], [GraphDiagnostics], [Mechanism]:
      axioms/diagnostics/binary.rs, axioms/diagnostics/graph/, mechanism.rs.
      A check is admissible exactly when no perturbation of its family changes
      what it may not change, and a rejection carries the perturbation.
    - [Observable], [KernelChecks], [NonVacuity]: axioms/kernel/.
      Observable determinacy enumerates all topological orders; the theorems show
      which of the kernel checks can fail at all.
    - [GraphParadox]: paradox/graph.rs.  The appended review is reported exactly
      when it turns an escalation into a denial; the two tie-broken orders
      always agree; the feedback probe is exact on the cycles it iterates.
    - [ExactSpectral]: spectral/{mod,critical,coarse_grain}.rs, over machine-integer
      rationals that are a parameter and whose arithmetic panics when it
      overflows: a computation is an option, and [None] is a panic.  The
      coarse-graining of a graph ends, in a trajectory or in an overflow; a gap in
      the exact profile is exactly a violation, and the reported cut is the least
      among all the cuts it enumerates.
    - [GraphSpectral]: extract/spectral.rs.  On a valid graph the report fails only
      when its exact arithmetic overflows, where the source panics; otherwise it
      counts exactly the weakly connected components.
    - [Synthetic], [GraphAudit]: extract/audit.rs, the synthetic claims, and the report
      with its observed traces.  The protocol state and the recommendations of
      a report are exactly those that its checks determine; an observed trace,
      once normalized, has every field that the graph's nodes read.

    ** Extraction

    - [Extract]: extract/mod.rs (records of an extraction) and extract/boundary.rs.
      The depth-first search for ungoverned dependencies always ends (its fuel
      counts every name it can push) and reports exactly the reachable names.
    - [CoreGraph], [RustHookCore], [PythonHookCore], [TypeScriptCore]: the graphs
      of extract/{rust_hook_core,python_hook_core,typescript_approval_core}_graph.rs
      from a recognized program.  Extraction succeeds exactly on the stated
      programs and builds the stated graph, with the error stated otherwise.  What
      the traversal of a Rust graph decides follows from the recognized literals,
      defaults and registrations; that running the hooks decides the same is left
      open, as docs/extractor-boundary.md leaves it.

    ** Allocation rules

    - [Rules]: rules.rs, rules/divisor.rs and [Rule] of lib.rs.
      Every evaluated allocation is complete, finite and non-negative; a divisor
      method hands out exactly the house.
    - [Coalitions], [RuleDiagnostics], [PerClaimRules]: axioms/diagnostics/{consistency,solidarity,monotonicity}.rs.
      The coalition iterators (Gosper's method on 64-bit masks, index vectors from
      64 claims on) visit each coalition once; the checks are exact.  The
      consistency check reduces the estate to the survivors' shares, where its
      documentation subtracts the removed shares.
    - [Compiled], [Compiler]: CompiledRule and certificates of
      lib.rs, compiler.rs, certificate.rs.
    - [Sacrifice], [SacrificeSpec], [GraphSacrifices]: sacrifice.rs, through the
      interface [SacrificeCompileTarget] that rules and graphs implement.
    - [Monitor]: factor.rs, monitor.rs.  [Paradox]: paradox.rs.

    ** Evidence ledger

    - [LedgerStore], [Ledger]: ledger.rs and ledger/chain/.  An operation is a
      function of a state and error monad whose statements may fail; changes
      made before a failure remain, unless a transaction is rolled back.
      [LedgerStore] ends with the rules for reasoning about such operations.
    - [LedgerSpec], [LedgerVerify], [LedgerTamper], [LedgerAudit]: rows are only
      appended, a ledger that the operations wrote verifies if the database gives
      back the floats that were stored (SQLite turns -0.0 into 0.0), two verified
      ledgers with equal heads hold equal rows or two of the texts hashed for them
      collide, and a recorded certificate is the first that an audit lists.

    ** Protocol

    - [Clock], [Spectral]: timestamps and the spectral monitoring interval of
      protocol/transitions.rs.
    - [ProtocolData], [ProtocolState]: protocol/{state,formats}.rs.
    - [ProtocolTransitions], [Supervision]: protocol/{transitions,supervision}.rs.
    - [Supervision], [ProtocolSafety]: the transitions as a step relation with
      its reachable states: undeclared violations never compile, the ledger only
      grows and stays linked, every governing graph can be traversed, constant
      interventions give one decision to every claim, and rollback restores the
      declared graph whatever came before.

    ** Graph policies

    - [PolicyGraph]: policy/graph_parser.rs.  A decoded policy
      loads exactly when it is well formed, and the graph it becomes is valid.

    ** Trajectories

    - [Encoding]: unsigned 64-bit integers with checked operations,
      UTF-8, and length-prefixed strings, which can be told apart when appended.
    - [Trajectory]: the data, the limits and the framed digests of
      trajectory/mod.rs.  [JsonScan], [JsonScanSpec]: duplicate_json.rs.  The scan
      accepts exactly the documents without repeated keys within the budgets.
    - [TraceValidation]: validation.rs and the bounded writer of interchange.rs.
      [TraceBudgetSpec], [TraceValidationSpec], [TraceSpec]: what the incremental
      budgets and the memoized locator digests decide, as predicates of a trace.
    - [TraceCanonical]: canonical.rs; equal digests have equal traces or the two
      inputs of the digest collide.  Here and below a collision is between two
      values that the compared runs hashed ([Trajectory.collides]): a digest of
      bounded length always collides somewhere, and not there by any law.
    - [WireJson], [Replay], [ReplaySpec]: replay.rs.  A replay candidate is
      a hash chain over the events; its final head commits to the trace, and its
      JSON line reads back as the same candidate.
    - [ReplayAuthority], [AuthoritySpec]: authority.rs.  A receipt that was issued
      verifies; a replay that verifies was issued, if signatures cannot be forged.
    - [Composition]: composition.rs.  The one policy that loads,
      and the class of every validated trace under it.

    ** Codex capture (trajectory/codex_exec_v0/)

    The adapter that turns the JSON lines of a recorded agent run, and the receipt
    that authorizes them, into a trace.
    - [CodexEvent]: event.rs, event_wire.rs, error.rs, the decoding of a record.
    - [CodexFraming]: framing.rs.  The scan over chunks of the
      capture is a split at line feeds; a capture is framed exactly when it is
      well formed and each line passes the bounded scan.
    - [CodexStream], [CodexStreamSpec]: fsm.rs.  The automaton accepts exactly the
      runs whose items have legal histories, named in order, in one turn.
    - [CodexMapping], [CodexMappingSpec]: the pinned source bindings of mod.rs and
      source_bindings.rs, and mapping.rs.  The events of an accepted run satisfy every rule of trace validation but the resource budgets.
    - [CodexReceipt], [CodexReceiptSpec]: receipt*.rs.  The canonical bytes of an
      authority determine it, so that its commitment does.
    - [CodexBundle]: bundle.rs, the whole path.  The commitment
      that a context expects fixes the capture and the authority of an
      adaptation; a legal run with a fixture receipt adapts within the budgets.

    ** Witnesses

    [Witnesses], [ProtocolWitnesses], [CompilerWitnesses] and [TrajectoryWitnesses] run the definitions on
    concrete inputs and apply each conditional theorem to them.

    ** Parameters

    What the crate takes from third-party code is an argument of the definitions
    that use it: the regex crate ([RegexEngine]), serde_json and SHA-256
    ([StableHash], [RuleHash], [LedgerCodec], [DirectiveJson]), the formatting of
    messages ([Rendering]), the clock and the outcome of SQL statements
    ([LedgerEnv]), the iteration order of a HashMap ([HashOrder]),
    the exact rationals of num_rational ([RationalOps], laws [RationalOrder]); for
    trajectories SHA-256 ([Sha256]), the reader and the printer of serde_json
    ([JsonStream], [JsonText], [TraceSerializer]; a read document keeps what the
    scan sees of it, up to the place where it breaks), Ed25519 ([Ed25519]) and
    toml ([GraphToml], [CompositionToml]); the bytes of the sources that the build
    includes in the adapter are [CompiledSources], and the nonce of the operating
    system's random source is an argument.  Assumed laws
    are hypotheses of the theorems that need them ([CodecLaws]: two encodings of
    distinct contents differ, digests have no separator in them; [Sha256Laws]:
    a digest is 64 lower-case hexadecimal digits; [JsonLaws]: printed text
    nested below the reader's recursion limit reads back; [Ed25519Laws]: a
    signature verifies under its key), and the witness
    files give concrete instances.

    ** Fuel and bounds

    Loops that are not structural run on fuel: [strong_connect] one unit per node
    and edge (shown enough by [detect_cycles_total]), [topological_order] one unit
    per node and edge, the enumeration of topological orders one unit per node.
    The cycle iteration, the Jacobi sweeps and the divisor loops are bounded in
    the source and recurse on what is left of the bound.  The coalition iterators
    are collected on fuel [2 ^ n], the number of coalitions.  Integers that wrap
    or saturate in the source do so in the model (coalition masks, calendar
    arithmetic, indices); seat counts and lengths are natural numbers.

    ** Not modelled

    The parsing of TOML and the rule policies and .claude directories of policy/,
    the decoding of a trace from its JSON document (derived serde code), the line
    of a verified replay, the recognition of programs in extract/ (syn and
    tree-sitter syntax trees, heuristics over source text) and the corpus files
    of its reports, the wire formats of receipts and bundles, the sanitizer and
    the lineage of trajectory/codex_exec_v0, capture and supervision of child
    processes (there and in executed_composition), the numerical experiments of
    spectral/ over fixed families of graphs, the command line and the audit agent, log output.  Text that only people read is kept as
    the parts a [format!] call joins ([Message]). *)

From stdpp Require Export base tactics list gmap strings sorting fin_maps pretty.
From Stdlib Require Export Lia ZArith.
From Stdlib Require Import Ascii.
From stdpp Require Import options.

(* ------------------------------------------------------------------ *)
(** ** Results

    Rust's [Result<T, E>] and its [?] operator: [x ← e; k] stops at the first
    error, exactly as [let x = e?; k] does. *)

Inductive Result (E A : Type) : Type :=
  | Ok (a : A)
  | Err (e : E).
Arguments Ok {E A} a.
Arguments Err {E A} e.

Global Instance Result_ret {E} : MRet (Result E) := λ A, Ok.
Global Instance Result_bind {E} : MBind (Result E) :=
  λ A B k r, match r with Ok a => k a | Err e => Err e end.
Global Instance Result_fmap {E} : FMap (Result E) :=
  λ A B f r, match r with Ok a => Ok (f a) | Err e => Err e end.

(** [Result::is_ok] *)
Definition is_ok {E A} (r : Result E A) : bool :=
  match r with Ok _ => true | Err _ => false end.

(** [Option::ok_or] *)
Definition ok_or {E A} (o : option A) (e : E) : Result E A :=
  match o with Some a => Ok a | None => Err e end.

(** [Result::map_err] *)
Definition map_err {E E' A} (f : E → E') (r : Result E A) : Result E' A :=
  match r with Ok a => Ok a | Err e => Err (f e) end.

(** [if c { return Err(e) }] *)
Definition ensure {E} (c : bool) (e : E) : Result E unit :=
  if c then Ok () else Err e.

(** [xs.iter().map(f).collect::<Result<Vec<_>, _>>()] *)
Fixpoint try_map {E A B} (f : A → Result E B) (l : list A) : Result E (list B) :=
  match l with
  | [] => Ok []
  | x :: l => y ← f x; ys ← try_map f l; Ok (y :: ys)
  end.

(** [for x in xs { f(x)?; }] *)
Fixpoint try_iter {E A} (f : A → Result E unit) (l : list A) : Result E unit :=
  match l with
  | [] => Ok ()
  | x :: l => _ ← f x; try_iter f l
  end.

(** A loop over [xs] that threads a state and may leave with an error. *)
Fixpoint try_fold {E S A} (f : S → A → Result E S) (s : S) (l : list A) : Result E S :=
  match l with
  | [] => Ok s
  | x :: l => s' ← f s x; try_fold f s' l
  end.

(** A loop over [xs] that either goes on with a new state or leaves with a
    [return] value. *)
Inductive Flow (S R : Type) : Type :=
  | Continue (s : S)
  | Break (r : R).
Arguments Continue {S R} s.
Arguments Break {S R} r.

Fixpoint try_loop {E S R A} (f : S → A → Result E (Flow S R)) (s : S) (l : list A)
    : Result E (Flow S R) :=
  match l with
  | [] => Ok (Continue s)
  | x :: l =>
      fl ← f s x;
      match fl with
      | Continue s' => try_loop f s' l
      | Break r => Ok (Break r)
      end
  end.

(** A search that stops at its first finding. *)
Definition found {E A} (r : Result E (Flow () A)) : Result E (option A) :=
  fl ← r; Ok (match fl with Continue _ => None | Break a => Some a end).

(* ------------------------------------------------------------------ *)
(** ** Tactics and hint databases *)

(** The development's rewrite and resolution databases. *)
Create HintDb legit.
Create HintDb legit_order.
Create Rewrite HintDb legit.

(** Invert every bind whose outcome is known. *)
Ltac invert_bind :=
  match goal with
  | H : mbind _ ?r = Ok _ |- _ =>
      let E := fresh "Hr" in
      destruct r eqn:E; cbn [mbind Result_bind] in H; [| discriminate H]
  | H : fmap _ ?r = Ok _ |- _ =>
      let E := fresh "Hr" in
      destruct r eqn:E; cbn [fmap Result_fmap] in H; [| discriminate H]
  | H : Ok _ = Ok _ |- _ => injection H; clear H; intros; subst
  | H : Err _ = Ok _ |- _ => discriminate H
  | H : Ok _ = Err _ |- _ => discriminate H
  | H : ensure ?b _ = Ok _ |- _ =>
      let E := fresh "Hc" in
      destruct b eqn:E; cbn [ensure] in H; [| discriminate H]
  | H : ok_or ?o _ = Ok _ |- _ =>
      let E := fresh "Ho" in
      destruct o eqn:E; cbn [ok_or] in H; [| discriminate H]
  | H : map_err _ ?r = Ok _ |- _ =>
      let E := fresh "Hr" in
      destruct r eqn:E; cbn [map_err] in H; [| discriminate H]
  end.
Ltac invert_binds := repeat invert_bind.

(** Invert the outermost bind of one hypothesis, naming its outcome. *)
Ltac destruct_bind H E :=
  match type of H with
  | mbind _ ?r = Ok _ => destruct r eqn:E; cbn [mbind Result_bind] in H; [| discriminate H]
  end.

(** Case analysis on the scrutinee of a match in a hypothesis. *)
Ltac case_match_in H :=
  match type of H with
  | context [match ?x with _ => _ end] => let E := fresh "E" in destruct x eqn:E
  end.

(* ------------------------------------------------------------------ *)
(** ** Generic lemmas on result loops *)

Section result_loops.
Context {E A B : Type}.
Implicit Types f : A → Result E B.

Lemma try_map_Ok_Forall2 f l k :
  try_map f l = Ok k ↔ Forall2 (λ x y, f x = Ok y) l k.
Proof.
  revert k. induction l as [|x l IH]; intros k; simpl.
  - split; [intros; invert_binds; constructor | inversion 1; done].
  - split.
    + intros H. invert_binds. constructor; [done | by apply IH].
    + inversion 1 as [|? y ? ys Hx Hl]; subst. rewrite Hx; simpl.
      by rewrite (proj2 (IH ys) Hl).
Qed.

Lemma try_map_length f l k : try_map f l = Ok k → length k = length l.
Proof. intros H%try_map_Ok_Forall2. symmetry. by eapply Forall2_length. Qed.

Lemma try_map_total f l :
  (∀ x, x ∈ l → ∃ y, f x = Ok y) → ∃ k, try_map f l = Ok k.
Proof.
  induction l as [|x l IH]; intros Hall; [by eexists|].
  destruct (Hall x) as [y Hy]; [set_solver|].
  destruct IH as [k Hk]; [set_solver|].
  exists (y :: k). simpl. by rewrite Hy; simpl; rewrite Hk.
Qed.

Lemma try_map_pure (g : A → B) l : try_map (λ x, Ok (g x) : Result E B) l = Ok (g <$> l).
Proof. induction l as [|x l IH]; simpl; [done|]. by rewrite IH. Qed.

Lemma try_map_ext f g l :
  (∀ x, x ∈ l → f x = g x) → try_map f l = try_map g l.
Proof.
  induction l as [|x l IH]; intros Hfg; simpl; [done|].
  rewrite (Hfg x) by set_solver. rewrite IH by set_solver. done.
Qed.

Lemma try_map_elem_of f l k x :
  try_map f l = Ok k → x ∈ l → ∃ y, f x = Ok y ∧ y ∈ k.
Proof.
  intros H%try_map_Ok_Forall2 Hx.
  apply list_elem_of_lookup in Hx as [i Hi].
  destruct (Forall2_lookup_l _ _ _ _ _ H Hi) as (y & Hk & Hf).
  exists y. split; [done|]. by eapply list_elem_of_lookup_2.
Qed.

Lemma try_map_elem_of_inv f l k y :
  try_map f l = Ok k → y ∈ k → ∃ x, x ∈ l ∧ f x = Ok y.
Proof.
  intros H%try_map_Ok_Forall2 Hy.
  apply list_elem_of_lookup in Hy as [i Hi].
  destruct (Forall2_lookup_r _ _ _ _ _ H Hi) as (x & Hl & Hf).
  exists x. split; [by eapply list_elem_of_lookup_2|done].
Qed.

Lemma try_iter_Ok (f : A → Result E unit) l :
  try_iter f l = Ok () ↔ Forall (λ x, f x = Ok ()) l.
Proof.
  induction l as [|x l IH]; simpl; [split; [constructor|done]|].
  rewrite Forall_cons, <-IH.
  destruct (f x) as [[]|e]; simpl; split; [by eauto|by intros [_ ?]|done|by intros [? _]].
Qed.

Lemma try_fold_app {S} (f : S → A → Result E S) s l1 l2 :
  try_fold f s (l1 ++ l2) = (s' ← try_fold f s l1; try_fold f s' l2).
Proof.
  revert s. induction l1 as [|x l1 IH]; intros s; simpl; [done|].
  destruct (f s x); simpl; [apply IH|done].
Qed.

(** Invariant rule for state-threading loops. *)
Lemma try_fold_inv {S} (f : S → A → Result E S) (I : list A → S → Prop) s l s' :
  I [] s →
  (∀ done x t t', I done t → x ∈ l → f t x = Ok t' → I (done ++ [x]) t') →
  try_fold f s l = Ok s' → I l s'.
Proof.
  intros Hs Hstep Hf.
  enough (∀ pre t, I pre t → try_fold f t l = Ok s' → I (pre ++ l) s') as Hgo.
  { by apply (Hgo [] s). }
  clear Hs Hf s. revert Hstep. induction l as [|x l IH]; intros Hstep pre t Ht Hf; simpl in *.
  - invert_binds. by rewrite app_nil_r.
  - invert_binds. rewrite cons_middle, app_assoc. eapply IH; [|eapply Hstep|done]; eauto; set_solver.
Qed.

(** The same rule, classifying the errors the loop may return. *)
Lemma try_fold_cases {S} (f : S → A → Result E S) (I : list A → S → Prop) (Bad : E → Prop) s l :
  I [] s →
  (∀ done x rest t, l = done ++ x :: rest → I done t →
     (∃ t', f t x = Ok t' ∧ I (done ++ [x]) t') ∨ (∃ e, f t x = Err e ∧ Bad e)) →
  (∃ s', try_fold f s l = Ok s' ∧ I l s') ∨ (∃ e, try_fold f s l = Err e ∧ Bad e).
Proof.
  intros Hs Hstep.
  enough (∀ l2 l1 t, I l1 t → l = l1 ++ l2 →
            (∃ s', try_fold f t l2 = Ok s' ∧ I (l1 ++ l2) s') ∨
            (∃ e, try_fold f t l2 = Err e ∧ Bad e)) as Hgo.
  { by apply (Hgo l [] s). }
  clear Hs s. induction l2 as [|x l2 IH]; intros l1 t Ht Hl; simpl.
  - left. exists t. by rewrite app_nil_r.
  - destruct (Hstep l1 x l2 t Hl Ht) as [(t' & -> & Ht')|(e & -> & He)];
      cbn [mbind Result_bind]; [|right; eauto].
    rewrite cons_middle, app_assoc in Hl |- *. by apply IH.
Qed.

(** A loop whose body never fails. *)
Lemma try_fold_total {S} (f : S → A → Result E S) (I : list A → S → Prop) s l :
  I [] s →
  (∀ done x t, I done t → x ∈ l → ∃ t', f t x = Ok t' ∧ I (done ++ [x]) t') →
  ∃ s', try_fold f s l = Ok s' ∧ I l s'.
Proof.
  intros Hs Hstep. destruct (try_fold_cases f I (λ _, False) s l Hs) as [?|(? & _ & [])]; [|done].
  intros done x rest t -> Ht. left. apply Hstep; [done|]. set_solver.
Qed.

(** A loop that runs to its end continued at every element. *)
Lemma try_loop_Continue {S R} (f : S → A → Result E (Flow S R)) s l s' :
  try_loop f s l = Ok (Continue s') →
  ∀ x, x ∈ l → ∃ t t', f t x = Ok (Continue t').
Proof.
  revert s. induction l as [|x l IH]; intros s Hs y Hy; [by apply not_elem_of_nil in Hy|].
  cbn [try_loop] in Hs. destruct (f s x) as [[t|r]|e] eqn:Hf; cbn [mbind Result_bind] in Hs; try done.
  apply elem_of_cons in Hy as [->|Hy]; [eauto|by eapply IH].
Qed.

(** A loop that returns did so at one of its elements. *)
Lemma try_loop_Break {S R} (f : S → A → Result E (Flow S R)) s l r :
  try_loop f s l = Ok (Break r) → ∃ x t, x ∈ l ∧ f t x = Ok (Break r).
Proof.
  revert s. induction l as [|x l IH]; intros s Hs; [done|].
  cbn [try_loop] in Hs. destruct (f s x) as [[t|r']|e] eqn:Hf; cbn [mbind Result_bind] in Hs; try done.
  - destruct (IH _ Hs) as (y & t' & Hy & Hb). exists y, t'. split; [by right|done].
  - injection Hs as ->. exists x, s. split; [left|done].
Qed.

(** A loop that fails did so at one of its elements. *)
Lemma try_loop_Err {S R} (f : S → A → Result E (Flow S R)) s l e :
  try_loop f s l = Err e → ∃ x t, x ∈ l ∧ f t x = Err e.
Proof.
  revert s. induction l as [|x l IH]; intros s Hs; [done|].
  cbn [try_loop] in Hs. destruct (f s x) as [[t|r]|e'] eqn:Hf; cbn [mbind Result_bind] in Hs; try done.
  - destruct (IH _ Hs) as (y & t' & Hy & Hb). exists y, t'. split; [by right|done].
  - injection Hs as ->. exists x, s. split; [left|done].
Qed.

(** A search over a list, without state. *)
Lemma found_exact {R} (f : () → A → Result E (Flow () R)) l r :
  found (try_loop f () l) = Ok r →
  match r with
  | None => ∀ x, x ∈ l → f () x = Ok (Continue ())
  | Some b => ∃ x, x ∈ l ∧ f () x = Ok (Break b)
  end.
Proof.
  unfold found. intros H. destruct (try_loop f () l) as [a|] eqn:Hl; [|done].
  injection H as <-. destruct a as [[]|b].
  - intros x Hx. destruct (try_loop_Continue _ _ _ _ Hl x Hx) as ([] & [] & Hf). exact Hf.
  - destruct (try_loop_Break _ _ _ _ Hl) as (x & [] & Hx & Hf). eauto.
Qed.

Lemma found_Err {R} (f : () → A → Result E (Flow () R)) l e :
  found (try_loop f () l) = Err e → ∃ x, x ∈ l ∧ f () x = Err e.
Proof.
  unfold found. intros H. destruct (try_loop f () l) as [a|e'] eqn:Hl; [done|]. injection H as ->.
  destruct (try_loop_Err _ _ _ _ Hl) as (x & [] & Hx). eauto.
Qed.

(** A loop that counts: a measure that every continuing step raises by [k]. *)
Lemma try_loop_add {S R} (f : S → A → Result E (Flow S R)) (μ : S → nat) k s l s' :
  (∀ t x t', f t x = Ok (Continue t') → μ t' = μ t + k) →
  try_loop f s l = Ok (Continue s') → μ s' = μ s + length l * k.
Proof.
  intros Hf. revert s. induction l as [|x l IH]; intros s Hs; cbn [try_loop] in Hs.
  { injection Hs as ->. simpl. lia. }
  destruct (f s x) as [[t|r]|e] eqn:Hx; cbn [mbind Result_bind] in Hs; try done.
  rewrite (IH _ Hs), (Hf _ _ _ Hx). simpl. lia.
Qed.

Lemma try_loop_count {S R} (f : S → A → Result E (Flow S R)) (μ : S → nat) s l s' :
  (∀ t x t', f t x = Ok (Continue t') → μ t' = Datatypes.S (μ t)) →
  try_loop f s l = Ok (Continue s') → μ s' = μ s + length l.
Proof.
  intros Hf Hl. rewrite (try_loop_add f μ 1 _ _ _ ltac:(intros; erewrite Hf by done; lia) Hl). lia.
Qed.

(** A measure no continuing step changes. *)
Lemma try_loop_same {S R T} (f : S → A → Result E (Flow S R)) (μ : S → T) s l s' :
  (∀ t x t', f t x = Ok (Continue t') → μ t' = μ t) →
  try_loop f s l = Ok (Continue s') → μ s' = μ s.
Proof.
  intros Hf. revert s. induction l as [|x l IH]; intros s Hs; cbn [try_loop] in Hs.
  { by injection Hs as ->. }
  destruct (f s x) as [[t|r]|e] eqn:Hx; cbn [mbind Result_bind] in Hs; try done.
  by rewrite (IH _ Hs), (Hf _ _ _ Hx).
Qed.
End result_loops.

(* ------------------------------------------------------------------ *)
(** ** Lists *)

Lemma list_filter_all {A} (P : A → Prop) `{!∀ x, Decision (P x)} (l : list A) :
  Forall P l → filter P l = l.
Proof.
  induction 1 as [|x l Hx _ IH]; [done|]. by rewrite filter_cons_True, IH.
Qed.

(** [l.iter().enumerate()] *)
Definition enumerate {A} (l : list A) : list (nat * A) := zip (seq 0 (length l)) l.

Lemma elem_of_enumerate {A} (l : list A) i x : (i, x) ∈ enumerate l ↔ l !! i = Some x.
Proof.
  unfold enumerate. rewrite list_elem_of_lookup. setoid_rewrite lookup_zip_with_Some. split.
  - intros (k & a & b & [= <- <-] & Ha & Hb). by apply lookup_seq in Ha as [-> _].
  - intros Hx. exists i, i, x. split_and!; [done| |done].
    apply lookup_seq. split; [done|]. by eapply lookup_lt_Some.
Qed.

Lemma lookup_enumerate {A} (l : list A) i : enumerate l !! i = pair i <$> l !! i.
Proof.
  unfold enumerate. destruct (l !! i) as [x|] eqn:Hx; simpl.
  - apply lookup_zip_with_Some. exists i, x. split_and!; [done| |done].
    apply lookup_seq. split; [done|]. by eapply lookup_lt_Some.
  - apply lookup_ge_None in Hx. apply lookup_ge_None. rewrite length_zip_with, length_seq. lia.
Qed.

Lemma length_enumerate {A} (l : list A) : length (enumerate l) = length l.
Proof. unfold enumerate. rewrite length_zip_with, length_seq. lia. Qed.

Lemma enumerate_snoc {A} (l : list A) x : enumerate (l ++ [x]) = enumerate l ++ [(length l, x)].
Proof.
  unfold enumerate. rewrite length_app, Nat.add_1_r, seq_S.
  rewrite (zip_with_app pair _ [_] l [x]) by apply length_seq. done.
Qed.

Lemma enumerate_snd {A} (l : list A) : (enumerate l).*2 = l.
Proof. unfold enumerate. apply snd_zip. by rewrite length_seq. Qed.

Lemma enumerate_fst {A} (l : list A) : (enumerate l).*1 = seq 0 (length l).
Proof. unfold enumerate. apply fst_zip. by rewrite length_seq. Qed.

(** Inclusions of lists by their shape. *)
Create HintDb incl.

Lemma incl_refl {A} (l : list A) : l ⊆ l.
Proof. done. Qed.

Lemma incl_cons {A} (x : A) l k : l ⊆ k → l ⊆ x :: k.
Proof. intros Hl y Hy. right. by apply Hl. Qed.

Lemma incl_one {A} (x : A) l : x ∈ l → [x] ⊆ l.
Proof. by intros Hx y ->%list_elem_of_singleton. Qed.

Lemma incl_app_left {A} (l k m : list A) : l ⊆ k → l ⊆ k ++ m.
Proof. intros Hl y Hy. apply elem_of_app. left. by apply Hl. Qed.

Lemma incl_app_right {A} (l k m : list A) : l ⊆ m → l ⊆ k ++ m.
Proof. intros Hl y Hy. apply elem_of_app. right. by apply Hl. Qed.

#[export] Hint Resolve incl_refl incl_cons incl_one incl_app_left incl_app_right list_elem_of_here
  list_elem_of_further : incl.

(* ------------------------------------------------------------------ *)
(** ** Ordered maps and sets keyed by strings

    Rust's [BTreeMap<String, V>] and [HashMap<String, V>] are [gmap string V];
    what distinguishes a [BTreeMap] is that it is iterated in the byte order of
    its keys, which [btree_iter] gives.  [String.le] compares bytes, as Rust's
    [Ord] for [str] does. *)

Definition key_le {V} (p q : string * V) : Prop := String.le p.1 q.1.
Global Instance key_le_dec {V} (p q : string * V) : Decision (key_le p q).
Proof. unfold key_le. apply _. Defined.
Global Instance key_le_total {V} : Total (@key_le V).
Proof. intros p q. unfold key_le. apply (total String.le). Qed.
Global Instance key_le_trans {V} : Transitive (@key_le V).
Proof. intros p q r. unfold key_le. apply transitivity. Qed.

(** [BTreeMap::iter] *)
Definition btree_iter {V} (m : gmap string V) : list (string * V) :=
  merge_sort key_le (map_to_list m).

(** [BTreeMap::keys] *)
Definition btree_keys {V} (m : gmap string V) : list string := (btree_iter m).*1.

(** [BTreeMap::values] *)
Definition btree_values {V} (m : gmap string V) : list V := (btree_iter m).*2.

(** [BTreeSet::iter] *)
Definition bset_iter (s : gset string) : list string := merge_sort String.le (elements s).

(** [Vec::<String>::sort] *)
Definition sort_strings (l : list string) : list string := merge_sort String.le l.

Section btree.
Context {V : Type}.
Implicit Types m : gmap string V.

Lemma btree_iter_perm m : btree_iter m ≡ₚ map_to_list m.
Proof. apply merge_sort_Permutation. Qed.

Lemma elem_of_btree_iter m k v : (k, v) ∈ btree_iter m ↔ m !! k = Some v.
Proof. by rewrite btree_iter_perm, elem_of_map_to_list. Qed.

Lemma NoDup_btree_keys m : NoDup (btree_keys m).
Proof. unfold btree_keys. rewrite btree_iter_perm. apply NoDup_fst_map_to_list. Qed.

Lemma elem_of_btree_keys m k : k ∈ btree_keys m ↔ is_Some (m !! k).
Proof.
  unfold btree_keys. rewrite list_elem_of_fmap. split.
  - intros ([k' v] & -> & H%elem_of_btree_iter). by exists v.
  - intros [v H]. exists (k, v). by rewrite elem_of_btree_iter.
Qed.

Lemma length_btree_keys m : length (btree_keys m) = size m.
Proof.
  unfold btree_keys. rewrite length_fmap, btree_iter_perm. apply length_map_to_list.
Qed.

(** Of one more name than a map has keys, some name is not a key. *)
Lemma fresh_among (m : gmap string V) (f : nat → string) :
  (∀ i j, f i = f j → i = j) → ∃ i, i ∈ seq 0 (S (size m)) ∧ m !! f i = None.
Proof.
  intros Hf. destruct (decide (Exists (λ i, m !! f i = None) (seq 0 (S (size m))))) as [Hex|Hnex];
    [by apply Exists_exists in Hex|exfalso].
  rewrite <-Forall_Exists_neg, Forall_forall in Hnex.
  assert (NoDup (f <$> seq 0 (S (size m)))) as Hnd by (apply NoDup_fmap_2; [exact Hf|apply NoDup_seq]).
  assert (length (f <$> seq 0 (S (size m))) ≤ length (btree_keys m)) as Hle.
  { apply submseteq_length, NoDup_submseteq; [done|].
    intros k (i & -> & Hi)%list_elem_of_fmap. apply elem_of_btree_keys.
    specialize (Hnex i Hi). destruct (m !! f i); [eauto|done]. }
  rewrite length_fmap, length_seq, length_btree_keys in Hle. lia.
Qed.

Lemma elem_of_btree_values m v : v ∈ btree_values m ↔ ∃ k, m !! k = Some v.
Proof.
  unfold btree_values. rewrite list_elem_of_fmap. split.
  - intros ([k v'] & -> & H%elem_of_btree_iter). by exists k.
  - intros [k H]. exists (k, v). by rewrite elem_of_btree_iter.
Qed.

Lemma btree_keys_sorted m : StronglySorted String.le (btree_keys m).
Proof.
  unfold btree_keys, btree_iter.
  pose proof (StronglySorted_merge_sort key_le (map_to_list m)) as Hs.
  induction Hs as [|p l _ IH Hp]; csimpl; constructor; [done|].
  rewrite Forall_fmap. by eapply Forall_impl.
Qed.

Lemma btree_iter_sorted m : StronglySorted key_le (btree_iter m).
Proof. apply StronglySorted_merge_sort; apply _. Qed.
End btree.

Lemma elem_of_bset_iter (s : gset string) k : k ∈ bset_iter s ↔ k ∈ s.
Proof. unfold bset_iter. by rewrite merge_sort_Permutation, elem_of_elements. Qed.

Lemma NoDup_bset_iter (s : gset string) : NoDup (bset_iter s).
Proof. unfold bset_iter. rewrite merge_sort_Permutation. apply NoDup_elements. Qed.

Lemma size_list_to_set_le (l : list string) : size (list_to_set l : gset string) ≤ length l.
Proof.
  induction l as [|x l IH]; [done|]. change (list_to_set (x :: l)) with ({[x]} ∪ list_to_set l : gset string).
  rewrite size_union_alt, size_singleton.
  assert (size (list_to_set l ∖ {[x]} : gset string) ≤ size (list_to_set l : gset string))
    by (apply subseteq_size; set_solver). simpl. lia.
Qed.

Lemma bset_iter_nil (s : gset string) : bset_iter s = [] ↔ s = ∅.
Proof.
  split; [|by intros ->].
  intros H. apply leibniz_equiv, elements_empty_iff.
  apply Permutation_nil_r. rewrite <-H. unfold bset_iter. by rewrite merge_sort_Permutation.
Qed.

Lemma sort_strings_perm l : sort_strings l ≡ₚ l.
Proof. apply merge_sort_Permutation. Qed.

Lemma elem_of_sort_strings l k : k ∈ sort_strings l ↔ k ∈ l.
Proof. by rewrite sort_strings_perm. Qed.

#[export] Hint Rewrite @elem_of_btree_iter @elem_of_btree_keys @elem_of_btree_values
  elem_of_bset_iter elem_of_sort_strings : legit.
#[export] Hint Resolve NoDup_btree_keys NoDup_bset_iter : legit.

(* ------------------------------------------------------------------ *)
(** ** Strings

    A Rust [String] is its UTF-8 bytes.  [str::trim] strips the characters with
    the Unicode property White_Space; a string is blank when nothing is left. *)

(** Drop one leading White_Space character, if there is one. *)
Definition strip_white (s : string) : option string :=
  match s with
  | String c s1 =>
      let n := nat_of_ascii c in
      if decide (9 ≤ n ≤ 13 ∨ n = 32) then Some s1
      else match s1 with
      | String c1 s2 =>
          let n1 := nat_of_ascii c1 in
          if decide (n = 194 ∧ (n1 = 133 ∨ n1 = 160)) then Some s2
          else match s2 with
          | String c2 s3 =>
              let n2 := nat_of_ascii c2 in
              if decide ((n = 225 ∧ n1 = 154 ∧ n2 = 128)
                         ∨ (n = 226 ∧ n1 = 128 ∧ (128 ≤ n2 ≤ 138 ∨ n2 = 168 ∨ n2 = 169 ∨ n2 = 175))
                         ∨ (n = 226 ∧ n1 = 129 ∧ n2 = 159)
                         ∨ (n = 227 ∧ n1 = 128 ∧ n2 = 128))
              then Some s3 else None
          | EmptyString => None
          end
      | EmptyString => None
      end
  | EmptyString => None
  end.

Fixpoint is_blank_fuel (fuel : nat) (s : string) : bool :=
  match s with
  | EmptyString => true
  | String _ _ =>
      match fuel with
      | O => false
      | S fuel =>
          match strip_white s with
          | Some s' => is_blank_fuel fuel s'
          | None => false
          end
      end
  end.

(** [s.trim().is_empty()]; every step drops at least one byte, so the length of
    the string is enough fuel. *)
Definition is_blank (s : string) : bool := is_blank_fuel (String.length s) s.

(** [s.trim_start()], with the same fuel. *)
Fixpoint trim_start_fuel (fuel : nat) (s : string) : string :=
  match fuel with
  | O => s
  | S fuel => match strip_white s with Some s' => trim_start_fuel fuel s' | None => s end
  end.
Definition trim_start (s : string) : string := trim_start_fuel (String.length s) s.

(** [str::starts_with] *)
Definition starts_with (s p : string) : bool := String.prefix p s.

(** [String::from_utf8] literals joined with a separator ([slice::join]). *)
Definition join (sep : string) (l : list string) : string := String.concat sep l.

(** Decimal rendering of an unsigned integer. *)
Definition show_nat (n : nat) : string := pretty (N.of_nat n).
