(* ===== verification/Encoding.v ===== *)
(** * Machine words and byte strings

    A [u64] is an integer with a proof of its range, unique so that equality is
    that of the integers; [usize] is 64 bits wide, as on the supported targets,
    and a [usize] counter is an integer that [checked_add] keeps in range.  A
    byte string ([Vec<u8>], [&[u8]], the UTF-8 bytes of a [String]) is a
    [string].  An encoder that [delimits] its values can be followed by
    anything: reading the concatenation back is unambiguous. *)

From S2P Require Import Prelude.
From Stdlib Require Import Ascii Bool.
From stdpp Require Import options.

(* ------------------------------------------------------------------ *)
(** ** Words *)

Definition in_u64 (z : Z) : bool := (0 <=? z)%Z && (z <? 2 ^ 64)%Z.

Record u64 := mk_u64 { u64_val : Z; u64_ok : in_u64 u64_val = true }.

Lemma u64_eq (x y : u64) : u64_val x = u64_val y → x = y.
Proof.
  destruct x as [x Hx], y as [y Hy]; simpl. intros ->. f_equal. apply (proof_irrel _ _).
Qed.

Global Instance u64_eq_dec : EqDecision u64.
Proof.
  refine (λ x y, cast_if (decide (u64_val x = u64_val y))).
  - by apply u64_eq.
  - by intros ->.
Defined.

Lemma u64_range (x : u64) : (0 ≤ u64_val x < 2 ^ 64)%Z.
Proof.
  pose proof (u64_ok x) as H. unfold in_u64 in H.
  apply andb_true_iff in H as [?%Z.leb_le ?%Z.ltb_lt]. done.
Qed.

(** [u64::try_from] of an integer of any type. *)
Definition u64_try_from (z : Z) : option u64 :=
  match bool_dec (in_u64 z) true with
  | left H => Some (mk_u64 z H)
  | right _ => None
  end.

Lemma u64_try_from_Some z x : u64_try_from z = Some x ↔ u64_val x = z.
Proof.
  unfold u64_try_from. destruct (bool_dec _ _) as [H|H]; split.
  - by intros [= <-].
  - intros <-. f_equal. by apply u64_eq.
  - done.
  - intros <-. by pose proof (u64_ok x).
Qed.

Lemma u64_try_from_total z : (0 ≤ z < 2 ^ 64)%Z → ∃ x, u64_try_from z = Some x ∧ u64_val x = z.
Proof.
  intros Hz. unfold u64_try_from. destruct (bool_dec _ _) as [H|H].
  - by eexists.
  - destruct H. unfold in_u64. apply andb_true_iff. by rewrite Z.leb_le, Z.ltb_lt.
Qed.

(** A [u64] literal of the source. *)
Definition u64_lit (z : Z) : u64 := default (mk_u64 0 eq_refl) (u64_try_from z).

(** [usize::try_from(x)] on a 64-bit target. *)
Definition usize_try_from (x : u64) : option Z :=
  if (u64_val x <? 2 ^ 64)%Z then Some (u64_val x) else None.

Lemma usize_try_from_val x : usize_try_from x = Some (u64_val x).
Proof. unfold usize_try_from. pose proof (u64_range x). by rewrite (proj2 (Z.ltb_lt _ _)) by lia. Qed.

(** [a.checked_add(b)] of [usize] and of [u64]. *)
Definition checked_add (a b : Z) : option Z :=
  if (a + b <? 2 ^ 64)%Z then Some (a + b)%Z else None.

Lemma checked_add_Some a b c : checked_add a b = Some c ↔ c = (a + b)%Z ∧ (a + b < 2 ^ 64)%Z.
Proof.
  unfold checked_add. destruct (Z.ltb_spec (a + b) (2 ^ 64)); split.
  - by intros [= <-].
  - by intros [-> _].
  - done.
  - intros [_ ?]. lia.
Qed.

(** The length of a slice or a string in bytes. *)
Definition byte_len (s : string) : Z := Z.of_nat (String.length s).
Definition vec_len {A} (l : list A) : Z := Z.of_nat (length l).

(* ------------------------------------------------------------------ *)
(** ** Byte strings *)

Lemma string_app_cons c (s t : string) : String c s +:+ t = String c (s +:+ t).
Proof. done. Qed.

Lemma string_app_nil_l (s : string) : "" +:+ s = s.
Proof. done. Qed.

Lemma string_app_assoc (s t u : string) : (s +:+ t) +:+ u = s +:+ (t +:+ u).
Proof. induction s as [|c s IH]; [done|]. by rewrite !string_app_cons, IH. Qed.

Lemma string_app_nil_r (s : string) : s +:+ "" = s.
Proof. induction s as [|c s IH]; [done|]. by rewrite string_app_cons, IH. Qed.

Lemma string_app_length (s t : string) :
  String.length (s +:+ t) = String.length s + String.length t.
Proof. induction s as [|c s IH]; [done|]. rewrite string_app_cons. simpl. by rewrite IH. Qed.

(** Concatenations split in one way at a known length. *)
Lemma string_app_inj (s s' t t' : string) :
  String.length s = String.length s' → s +:+ t = s' +:+ t' → s = s' ∧ t = t'.
Proof.
  revert s'. induction s as [|c s IH]; intros [|c' s'] Hl H; try done.
  injection Hl as Hl. injection H as -> H. by destruct (IH s' Hl H) as [-> ->].
Qed.

Definition ascii_of_Z (z : Z) : ascii := ascii_of_N (Z.to_N (z mod 256)).

Lemma ascii_of_Z_inj x y : ascii_of_Z x = ascii_of_Z y → (x mod 256 = y mod 256)%Z.
Proof.
  intros H%(f_equal N_of_ascii). unfold ascii_of_Z in H.
  pose proof (Z.mod_pos_bound x 256). pose proof (Z.mod_pos_bound y 256).
  rewrite !N_ascii_embedding in H by lia. lia.
Qed.

(** The [n] low bytes of an integer, the most significant first. *)
Fixpoint be_bytes (n : nat) (z : Z) : string :=
  match n with
  | O => ""
  | S n => String (ascii_of_Z (z / 256 ^ Z.of_nat n)) (be_bytes n z)
  end.

(** [x.to_be_bytes()] *)
Definition u64_be_bytes (z : Z) : string := be_bytes 8 z.

Example u64_be_bytes_258 : u64_be_bytes 258 = String "000" (String "000" (String "000" (String "000"
  (String "000" (String "000" (String "001" (String "002" ""))))))).
Proof. reflexivity. Qed.

Lemma be_bytes_length n z : String.length (be_bytes n z) = n.
Proof. induction n as [|n IH]; simpl; [done|]. by rewrite IH. Qed.

Lemma be_bytes_inj n x y :
  be_bytes n x = be_bytes n y → (x mod 256 ^ Z.of_nat n = y mod 256 ^ Z.of_nat n)%Z.
Proof.
  induction n as [|n IH]; intros H; simpl in H; [by rewrite !Z.mod_1_r|].
  injection H as Hc%ascii_of_Z_inj Hr%IH.
  rewrite Nat2Z.inj_succ, Z.pow_succ_r by lia.
  rewrite (Z.mul_comm 256), !Z.rem_mul_r by lia. by rewrite Hr, Hc.
Qed.

Lemma u64_be_bytes_inj x y :
  (0 ≤ x < 2 ^ 64)%Z → (0 ≤ y < 2 ^ 64)%Z → u64_be_bytes x = u64_be_bytes y → x = y.
Proof.
  intros Hx Hy H%be_bytes_inj. change (256 ^ Z.of_nat 8)%Z with (2 ^ 64)%Z in H.
  by rewrite !Z.mod_small in H by lia.
Qed.

(** The byte after the first [n]: [s.get(start..end)] is a [get_range]. *)
Fixpoint drop_bytes (n : nat) (s : string) : string :=
  match n, s with
  | O, s => s
  | S n, String _ s => drop_bytes n s
  | S _, EmptyString => ""
  end.
Fixpoint take_bytes (n : nat) (s : string) : string :=
  match n, s with
  | S n, String c s => String c (take_bytes n s)
  | _, _ => ""
  end.

Lemma take_drop_bytes n s : take_bytes n s +:+ drop_bytes n s = s.
Proof.
  revert s. induction n as [|n IH]; intros [|c s]; [done..|].
  cbn [take_bytes drop_bytes]. by rewrite string_app_cons, IH.
Qed.

Lemma take_bytes_length n s : n ≤ String.length s → String.length (take_bytes n s) = n.
Proof. revert s. induction n as [|n IH]; intros [|c s] H; simpl in *; try lia. f_equal. apply IH. lia. Qed.

Lemma drop_bytes_length n s : String.length (drop_bytes n s) = String.length s - n.
Proof. revert s. induction n as [|n IH]; intros [|c s]; simpl; auto. Qed.

(** [bytes.get(start..end)]: nothing when the range is inverted or out of bounds. *)
Definition get_range (s : string) (start end_ : Z) : option string :=
  if (start <=? end_)%Z && (end_ <=? byte_len s)%Z
  then Some (take_bytes (Z.to_nat (end_ - start)) (drop_bytes (Z.to_nat start) s))
  else None.

(** A located range is a factor of the bytes at its offset. *)
Lemma get_range_Some s start end_ r :
  (0 ≤ start)%Z →
  get_range s start end_ = Some r ↔
  ∃ before after, s = before +:+ (r +:+ after) ∧
    byte_len before = start ∧ byte_len r = (end_ - start)%Z.
Proof.
  intros Hs. unfold get_range, byte_len. split.
  - destruct (Z.leb_spec start end_), (Z.leb_spec end_ (Z.of_nat (String.length s)));
      simpl; try done. intros [= <-].
    exists (take_bytes (Z.to_nat start) s),
      (drop_bytes (Z.to_nat (end_ - start)) (drop_bytes (Z.to_nat start) s)).
    rewrite !take_drop_bytes. split; [done|].
    rewrite !take_bytes_length; rewrite ?drop_bytes_length; lia.
  - intros (b & a & -> & Hb & Hr). rewrite !string_app_length, !Nat2Z.inj_add.
    rewrite (proj2 (Z.leb_le start end_)), (proj2 (Z.leb_le end_ _)) by lia. simpl.
    f_equal.
    assert (Hd : drop_bytes (Z.to_nat start) (b +:+ (r +:+ a)) = r +:+ a).
    { apply (string_app_inj (take_bytes (Z.to_nat start) (b +:+ (r +:+ a))) b).
      - rewrite take_bytes_length; rewrite ?string_app_length; lia.
      - by rewrite take_drop_bytes. }
    rewrite Hd.
    apply (string_app_inj (take_bytes (Z.to_nat (end_ - start)) (r +:+ a)) r
             (drop_bytes (Z.to_nat (end_ - start)) (r +:+ a)) a).
    + rewrite take_bytes_length; rewrite ?string_app_length; lia.
    + by rewrite take_drop_bytes.
Qed.

(* ------------------------------------------------------------------ *)
(** ** Characters of a byte string *)

Definition bytes_of (s : string) : list ascii := String.list_ascii_of_string s.

Lemma bytes_of_app s t : bytes_of (s +:+ t) = bytes_of s ++ bytes_of t.
Proof. induction s as [|c s IH]; [done|]. rewrite string_app_cons. cbn. f_equal. exact IH. Qed.

(** [s.strip_prefix(p)] *)
Fixpoint strip_prefix (p s : string) : option string :=
  match p, s with
  | EmptyString, s => Some s
  | String c p, String d s => if decide (c = d) then strip_prefix p s else None
  | String _ _, EmptyString => None
  end.

Lemma strip_prefix_Some p s t : strip_prefix p s = Some t ↔ s = p +:+ t.
Proof.
  revert s. induction p as [|c p IH]; intros s; simpl; [naive_solver|].
  destruct s as [|d s]; simpl; [naive_solver|].
  rewrite string_app_cons. case_decide; [subst; rewrite IH; naive_solver|naive_solver].
Qed.

(** [lo..=hi] on the code of a byte. *)
Definition byte_in (lo hi : nat) (c : ascii) : bool :=
  (lo <=? nat_of_ascii c) && (nat_of_ascii c <=? hi).
Definition is_ascii_digit : ascii → bool := byte_in 48 57.
Definition is_ascii_lowercase : ascii → bool := byte_in 97 122.
Definition is_ascii_uppercase : ascii → bool := byte_in 65 90.

(** One of the characters of a literal. *)
Definition one_of (chars : string) (c : ascii) : bool := bool_decide (c ∈ bytes_of chars).

(** [value.bytes().all(f)] and [value.bytes().enumerate().all(f)]. *)
Definition bytes_all (f : ascii → bool) (s : string) : bool := forallb f (bytes_of s).
Definition bytes_enumerate_all (f : nat → ascii → bool) (s : string) : bool :=
  forallb (λ p, f p.1 p.2) (enumerate (bytes_of s)).

(** [value.chars().count()]: the bytes that do not continue a character. *)
Definition char_count (s : string) : Z :=
  vec_len (filter (λ c, byte_in 128 191 c = false) (bytes_of s)).

(** [std::str::from_utf8] succeeds: shortest encodings of scalar values only. *)
Definition continues (c : ascii) : bool := byte_in 128 191 c.

Fixpoint utf8_valid (s : string) : bool :=
  match s with
  | EmptyString => true
  | String a s =>
      if byte_in 0 127 a then utf8_valid s
      else
        match s with
        | EmptyString => false
        | String b s =>
            if byte_in 194 223 a then continues b && utf8_valid s
            else
              match s with
              | EmptyString => false
              | String c s =>
                  if byte_in 224 224 a then byte_in 160 191 b && continues c && utf8_valid s
                  else if byte_in 225 236 a || byte_in 238 239 a then continues b && continues c && utf8_valid s
                  else if byte_in 237 237 a then byte_in 128 159 b && continues c && utf8_valid s
                  else
                    match s with
                    | EmptyString => false
                    | String d s =>
                        (if byte_in 240 240 a then byte_in 144 191 b
                         else if byte_in 241 243 a then continues b
                         else byte_in 244 244 a && byte_in 128 143 b)
                        && continues c && continues d && utf8_valid s
                    end
              end
        end
  end.

(* ------------------------------------------------------------------ *)
(** ** Totals *)

Section totals.
Context {A : Type} (f : A → Z).

Fixpoint sum_of (l : list A) : Z :=
  match l with [] => 0%Z | x :: l => (f x + sum_of l)%Z end.

Fixpoint max_of (l : list A) : Z :=
  match l with [] => 0%Z | x :: l => (f x `max` max_of l)%Z end.
End totals.

Lemma sum_of_nonneg {A} (f : A → Z) l : (∀ x, x ∈ l → 0 ≤ f x)%Z → (0 ≤ sum_of f l)%Z.
Proof.
  induction l as [|x l IH]; intros Hf; simpl; [lia|].
  pose proof (Hf x ltac:(set_solver)). pose proof (IH ltac:(set_solver)). lia.
Qed.

Lemma max_of_nonneg {A} (f : A → Z) l : (0 ≤ max_of f l)%Z.
Proof. induction l as [|x l IH]; simpl; lia. Qed.

Lemma byte_len_nonneg s : (0 ≤ byte_len s)%Z.
Proof. unfold byte_len. lia. Qed.

Lemma vec_len_cons {A} (x : A) l : vec_len (x :: l) = (1 + vec_len l)%Z.
Proof. unfold vec_len. simpl. lia. Qed.

Lemma vec_len_app {A} (l k : list A) : vec_len (l ++ k) = (vec_len l + vec_len k)%Z.
Proof. unfold vec_len. rewrite length_app. lia. Qed.

Lemma sum_of_app {A} (f : A → Z) l k : sum_of f (l ++ k) = (sum_of f l + sum_of f k)%Z.
Proof. induction l as [|x l IH]; simpl; lia. Qed.

Lemma forallb_Forall_true {A} (f : A → bool) l : forallb f l = true ↔ Forall (λ x, f x = true) l.
Proof.
  induction l as [|x l IH]; simpl; [split; auto|]. by rewrite andb_true_iff, Forall_cons, IH.
Qed.

(* ------------------------------------------------------------------ *)
(** * Delimited encodings

    The canonical byte formats of src/trajectory/ are concatenations of
    fixed-width and length-prefixed pieces.  [Delimited enc P] says that the
    encoding of a value that satisfies [P] (its lengths fit a [u64]) can be read
    back from the front of any byte string; instances build up along the
    formats, and [peel] takes equal encodings apart piece by piece. *)

Class Delimited {A} (enc : A → string) (P : A → Prop) : Prop :=
  delimited : ∀ x y s t, P x → P y → enc x +:+ s = enc y +:+ t → x = y ∧ s = t.

Lemma delimited_inj {A} (enc : A → string) P `{!Delimited enc P} x y :
  P x → P y → enc x = enc y → x = y.
Proof.
  intros Hx Hy H. apply (delimited x y "" "" Hx Hy). by rewrite H.
Qed.

(* ------------------------------------------------------------------ *)
(** ** Pieces (src/trajectory/canonical.rs: put_u64, put_len, put_string) *)

(** What [put_u64] appends. *)
Definition put_u64 (value : u64) : string := u64_be_bytes (u64_val value).

Lemma put_u64_inj x y : put_u64 x = put_u64 y → x = y.
Proof. intros H. apply u64_eq, u64_be_bytes_inj; eauto using u64_range. Qed.

(** What [put_len] appends; a [usize] fits a [u64]. *)
Definition put_len (value : Z) : string := u64_be_bytes value.

(** What [put_string] appends. *)
Definition put_string (value : string) : string := put_len (byte_len value) +:+ value.

Definition fits_len (n : Z) : Prop := (n < 2 ^ 64)%Z.
Definition fits (s : string) : Prop := fits_len (byte_len s).

Lemma be_bytes_delimits n x y s t :
  be_bytes n x +:+ s = be_bytes n y +:+ t → be_bytes n x = be_bytes n y ∧ s = t.
Proof. apply string_app_inj. by rewrite !be_bytes_length. Qed.

Global Instance put_u64_delimited : Delimited put_u64 (λ _, True).
Proof.
  intros x y s t _ _ [H ->]%be_bytes_delimits. split; [|done].
  apply u64_eq, u64_be_bytes_inj; eauto using u64_range.
Qed.

Lemma put_len_delimits m n s t :
  (0 ≤ m)%Z → (0 ≤ n)%Z → fits_len m → fits_len n →
  put_len m +:+ s = put_len n +:+ t → m = n ∧ s = t.
Proof.
  unfold fits_len. intros Hm Hn Hm' Hn' [H ->]%be_bytes_delimits. split; [|done].
  by apply u64_be_bytes_inj.
Qed.

Global Instance put_string_delimited : Delimited put_string fits.
Proof.
  intros x y s t Hx Hy H. unfold put_string in H. rewrite !string_app_assoc in H.
  unfold byte_len in H. apply put_len_delimits in H as [Hl H]; [|lia|lia|done|done].
  apply string_app_inj in H; [done|lia].
Qed.

(* ------------------------------------------------------------------ *)
(** ** Sequences *)

(** The pieces of a sequence, one after the other. *)
Definition put_all {A} (enc : A → string) (l : list A) : string :=
  foldr (λ x out, enc x +:+ out) "" l.

Lemma put_all_cons {A} (enc : A → string) x l : put_all enc (x :: l) = enc x +:+ put_all enc l.
Proof. done. Qed.

Lemma put_all_app {A} (enc : A → string) l k : put_all enc (l ++ k) = put_all enc l +:+ put_all enc k.
Proof.
  induction l as [|x l IH]; [done|]. cbn [app]. by rewrite !put_all_cons, string_app_assoc, IH.
Qed.

Section sequences.
Context {A : Type} (enc : A → string).

(** Equally many delimited pieces are read back together; the hypothesis is
    about the elements only, for nested induction. *)
Lemma put_all_delimits l k s t :
  Forall (λ x, ∀ y s t, y ∈ k → enc x +:+ s = enc y +:+ t → x = y ∧ s = t) l →
  length l = length k → put_all enc l +:+ s = put_all enc k +:+ t → l = k ∧ s = t.
Proof.
  revert k. induction l as [|x l IH]; intros [|y k] Hall Hl H; try done.
  rewrite !put_all_cons, !string_app_assoc in H.
  apply Forall_cons in Hall as [Hx Hall].
  apply Hx in H as [-> H]; [|set_solver].
  injection Hl as Hl. destruct (IH k) as [-> ->]; [|done..|done].
  eapply Forall_impl; [exact Hall|]. intros z Hz y' ? ? Hy'. apply Hz. by right.
Qed.

(** A length-prefixed sequence. *)
Definition put_list (l : list A) : string := put_len (vec_len l) +:+ put_all enc l.

Lemma put_list_delimits l k s t :
  fits_len (vec_len l) → fits_len (vec_len k) →
  Forall (λ x, ∀ y s t, y ∈ k → enc x +:+ s = enc y +:+ t → x = y ∧ s = t) l →
  put_list l +:+ s = put_list k +:+ t → l = k ∧ s = t.
Proof.
  intros Hl Hk Hall H. unfold put_list in H. rewrite !string_app_assoc in H.
  unfold vec_len in *. apply put_len_delimits in H as [Hlen H]; [|lia|lia|done|done].
  apply put_all_delimits in H; [done|done|lia].
Qed.

Global Instance put_list_delimited P :
  Delimited enc P → Delimited put_list (λ l, fits_len (vec_len l) ∧ Forall P l).
Proof.
  intros Henc l k s t [Hl HPl] [Hk HPk] H. apply put_list_delimits in H; [done|done|done|].
  eapply Forall_impl; [exact HPl|]. intros x Hx y s' t' Hy.
  apply Henc; [done|]. by eapply (proj1 (Forall_forall P k)).
Qed.
End sequences.

(* ------------------------------------------------------------------ *)
(** ** Records and tags *)

Lemma tag_delimits c d s t : String c s = String d t → c = d ∧ s = t.
Proof. intros H. by injection H. Qed.

(** Take one piece off an equation between two encodings. *)
Ltac peel H :=
  rewrite ?string_app_assoc, ?string_app_cons, ?string_app_nil_l in H;
  let Heq := fresh "Heq" in
  lazymatch type of H with
  | String _ _ = String _ _ => apply tag_delimits in H as [Heq H]; try discriminate Heq
  | _ => apply delimited in H as [Heq H]; [| |]
  end.
