(* ===== verification/Trajectory.v ===== *)
(** * The trajectory contract: data and digests (src/trajectory/mod.rs)

    A trace of events, each with the evidence for its normalized fields, the
    declarations it is validated against, and the framed SHA-256 digests.
    SHA-256 is the parameter [Sha256].  A [BTreeMap] that is only iterated, the
    object of a normalized value, is the list of its entries in key order. *)

From S2P Require Import Prelude Encoding.
From Stdlib Require Import Ascii.
From stdpp Require Import options.

(* ------------------------------------------------------------------ *)
(** ** Limits *)

Definition MAX_TRACE_JSON_INPUT_BYTES_V0 : Z := 8 * 1024 * 1024.
Definition MAX_TRACE_COMPACT_JSON_BYTES_V0 : Z := 8 * 1024 * 1024.
Definition MAX_JSON_KEYS_PER_OBJECT_V0 : Z := 1024.
Definition MAX_JSON_KEY_BYTES_PER_OBJECT_V0 : Z := 64 * 1024.
Definition MAX_RAW_CAPTURE_BYTES_V0 : Z := 64 * 1024 * 1024.
Definition MAX_RAW_RECORD_BYTES_V0 : Z := 8 * 1024 * 1024.
Definition MAX_RAW_RECORDS_V0 : Z := 10000.
Definition MAX_EVENTS_V0 : Z := 10000.
Definition MAX_PAYLOAD_FIELDS_PER_OBJECT_V0 : Z := 256.
Definition MAX_PAYLOAD_FIELDS_TOTAL_V0 : Z := 50000.
Definition MAX_PAYLOAD_CONTENT_BYTES_TOTAL_V0 : Z := 8 * 1024 * 1024.
Definition MAX_NORMALIZED_NODES_V0 : Z := 100000.
Definition MAX_NORMALIZED_DEPTH_V0 : Z := 32.
Definition MAX_NORMALIZED_ARRAY_ITEMS_V0 : Z := 1024.
Definition MAX_EVIDENCE_LOCATORS_V0 : Z := 100000.
Definition MAX_DERIVATION_INPUTS_V0 : Z := 1024.
Definition MAX_DISTINCT_CITED_BYTES_V0 : Z := 16 * 1024 * 1024.
Definition MAX_IDENTIFIER_BYTES_V0 : Z := 128.
Definition MAX_NORMALIZED_STRING_SCALARS_V0 : Z := 16384.
Definition MAX_NORMALIZED_STRING_BYTES_V0 : Z := 65536.
Definition MAX_INTEGER_DIGITS_V0 : Z := 1024.
Definition MAX_EVIDENCE_REASON_BYTES_V0 : Z := 1024.

(* ------------------------------------------------------------------ *)
(** ** Data *)

Record ArtifactBindingV0 := mkBinding {
  ab_identity : string;
  ab_version : string;
  ab_hash : string;
}.

Record RawCaptureSealV0 := mkSeal {
  rs_record_count : u64;
  rs_digest : string;
}.

Record SourceLocatorV0 := mkLocator {
  sl_record_index : u64;
  sl_byte_offset : u64;
  sl_byte_length : u64;
  sl_digest : string;
}.

Inductive EvidenceV0 :=
  | CitesRawRange (locator : SourceLocatorV0)
  | DeclaredDerivationBinding (rule : ArtifactBindingV0) (source_inputs : list SourceLocatorV0)
  | Unavailable (reason : string).

Record EvidencedV0 (T : Type) := mkEvidenced {
  ev_value : option T;
  ev_evidence : EvidenceV0;
}.
Arguments mkEvidenced {T}.
Arguments ev_value {T}.
Arguments ev_evidence {T}.

Inductive NormalizedEventKindV0 :=
  | ActionRequest | ActionResult | Observation | MessageEvent | Lifecycle.

Definition kind_label (kind : NormalizedEventKindV0) : string :=
  match kind with
  | ActionRequest => "action-request"
  | ActionResult => "action-result"
  | Observation => "observation"
  | MessageEvent => "message"
  | Lifecycle => "lifecycle"
  end.

Inductive NormalizedValueV0 :=
  | VNull
  | VBoolean (b : bool)
  | VInteger (digits : string)
  | VString (s : string)
  | VArray (values : list NormalizedValueV0)
  | VObject (entries : list (string * NormalizedValueV0)).

Record RawRecordReferenceV0 := mkRawRef {
  rr_record_index : u64;
  rr_digest : string;
}.

Record AgentActionEventV0 := mkEvent {
  ae_event_id : EvidencedV0 string;
  ae_sequence_index : EvidencedV0 u64;
  ae_kind : EvidencedV0 NormalizedEventKindV0;
  ae_source_item_id : option (EvidencedV0 string);
  ae_raw_record : RawRecordReferenceV0;
  ae_payload : gmap string (EvidencedV0 NormalizedValueV0);
}.

Record TrajectoryTraceV0 := mkTrace {
  tt_schema : ArtifactBindingV0;
  tt_run_id : EvidencedV0 string;
  tt_adapter : ArtifactBindingV0;
  tt_policy : ArtifactBindingV0;
  tt_raw_capture : RawCaptureSealV0;
  tt_events : list AgentActionEventV0;
}.

Global Instance ArtifactBindingV0_eq_dec : EqDecision ArtifactBindingV0.
Proof. solve_decision. Defined.
Global Instance RawCaptureSealV0_eq_dec : EqDecision RawCaptureSealV0.
Proof. solve_decision. Defined.
Global Instance SourceLocatorV0_eq_dec : EqDecision SourceLocatorV0.
Proof. solve_decision. Defined.

(** [ArtifactBindingV0] is a key of ordered sets. *)
Global Instance ArtifactBindingV0_countable : Countable ArtifactBindingV0.
Proof.
  refine (inj_countable' (λ b, (ab_identity b, ab_version b, ab_hash b))
            (λ '(i, v, h), mkBinding i v h) _).
  by intros [].
Defined.

(** Declarations a trace is validated against. *)
Record TrajectoryValidationContextV0 := mkDeclarations {
  vc_adapter : ArtifactBindingV0;
  vc_policy : ArtifactBindingV0;
  vc_raw_capture : RawCaptureSealV0;
  vc_allowed_derivations : gset ArtifactBindingV0;
}.

(* ------------------------------------------------------------------ *)
(** ** Digests *)

(** SHA-256 of a byte string, in lowercase hexadecimal (the sha2 crate). *)
Class Sha256 := sha256_lower_hex : string → string.

(** An input of the first list and an input of the second one are different and
    have the same digest.  The lists are what two runs fed to the hasher: it is
    not enough that some two strings collide. *)
Definition collides `{Sha256} (xs ys : list string) : Prop :=
  ∃ x y, x ∈ xs ∧ y ∈ ys ∧ x ≠ y ∧ sha256_lower_hex x = sha256_lower_hex y.

Lemma collides_incl `{Sha256} xs ys xs' ys' : xs ⊆ xs' → ys ⊆ ys' → collides xs ys → collides xs' ys'.
Proof. intros Hx Hy (x & y & ? & ? & ? & ?). exists x, y. auto. Qed.

Lemma collides_sym `{Sha256} xs ys : collides xs ys → collides ys xs.
Proof. intros (x & y & ? & ? & ? & ?). by exists y, x. Qed.

Lemma collides_one `{Sha256} x y : x ≠ y → sha256_lower_hex x = sha256_lower_hex y → collides [x] [y].
Proof. intros Hne Heq. exists x, y. by rewrite !list_elem_of_singleton. Qed.

(** A digest in lowercase hexadecimal: what sha2 documents of its output. *)
Definition lower_hex (c : ascii) : bool :=
  let n := nat_of_ascii c in (48 <=? n) && (n <=? 57) || (97 <=? n) && (n <=? 102).

Class Sha256Laws `{Sha256} : Prop := {
  sha256_length : ∀ s, String.length (sha256_lower_hex s) = 64;
  sha256_digits : ∀ s, forallb lower_hex (String.list_ascii_of_string (sha256_lower_hex s)) = true;
}.

Definition HASH_ENVELOPE_V0 : string := "legitimacy.trajectory.hash.v0" +:+ String "000" "".
Definition ARTIFACT_DOMAIN_V0 : string := "legitimacy.trajectory.artifact.v0".
Definition RAW_CAPTURE_DOMAIN_V0 : string := "legitimacy.trajectory.raw-capture.v0".
Definition RAW_RECORD_DOMAIN_V0 : string := "legitimacy.trajectory.raw-record.v0".
Definition SOURCE_LOCATOR_DOMAIN_V0 : string := "legitimacy.trajectory.source-locator.v0".
Definition TRACE_DOMAIN_V0 : string := "legitimacy.trajectory.trace.v0".

(** What one [hash_frame] feeds to the hasher. *)
Definition hash_frame (bytes : string) : string := u64_be_bytes (byte_len bytes) +:+ bytes.

(** Everything [framed_sha256] feeds to the hasher. *)
Definition hash_frames (domain : string) (components : list string) : string :=
  HASH_ENVELOPE_V0 +:+ hash_frame domain +:+ u64_be_bytes (vec_len components) +:+
  put_all hash_frame components.

Section digests.
Context `{Sha256}.

Definition framed_sha256 (domain : string) (components : list string) : string :=
  "sha256:" +:+ sha256_lower_hex (hash_frames domain components).

Definition artifact_digest_v0 (bytes : string) : string := framed_sha256 ARTIFACT_DOMAIN_V0 [bytes].
Definition raw_record_digest_v0 (bytes : string) : string := framed_sha256 RAW_RECORD_DOMAIN_V0 [bytes].
Definition source_locator_digest_v0 (bytes : string) : string :=
  framed_sha256 SOURCE_LOCATOR_DOMAIN_V0 [bytes].

Definition raw_capture_seal_v0 (raw_records : list string) : RawCaptureSealV0 :=
  mkSeal (u64_lit (vec_len raw_records)) (framed_sha256 RAW_CAPTURE_DOMAIN_V0 raw_records).
End digests.

(* ------------------------------------------------------------------ *)
(** ** Framing is unambiguous *)

Lemma hash_frame_put_string s : hash_frame s = put_string s.
Proof. done. Qed.

(** Every component, and the number of components, fits in 64 bits. *)
Definition frames_fit (domain : string) (components : list string) : Prop :=
  fits domain ∧ fits_len (vec_len components) ∧ Forall fits components.

Lemma hash_frames_inj d d' cs cs' :
  frames_fit d cs → frames_fit d' cs' → hash_frames d cs = hash_frames d' cs' → d = d' ∧ cs = cs'.
Proof.
  intros (Hd & Hn & Hcs) (Hd' & Hn' & Hcs') Heq.
  unfold hash_frames in Heq. apply string_app_inj in Heq as [_ Heq]; [|done].
  change (put_string d +:+ put_list put_string cs = put_string d' +:+ put_list put_string cs') in Heq.
  apply delimited in Heq as [-> Heq]; [|done..].
  split; [done|]. by apply (delimited_inj (put_list put_string) _ cs cs').
Qed.

(** Equal digests are digests of the same components, or SHA-256 collides on
    what the two computations hashed. *)
Lemma framed_sha256_inj `{Sha256} d d' cs cs' :
  frames_fit d cs → frames_fit d' cs' →
  framed_sha256 d cs = framed_sha256 d' cs' → (d = d' ∧ cs = cs') ∨ collides [hash_frames d cs] [hash_frames d' cs'].
Proof.
  intros Hf Hf' Heq. apply string_app_inj in Heq as [_ Heq]; [|done].
  destruct (decide (hash_frames d cs = hash_frames d' cs')) as [Hh|Hh].
  - left. by apply hash_frames_inj.
  - right. by apply collides_one.
Qed.
