(* ===== verification/F64.v ===== *)
(** * IEEE-754 binary64 arithmetic, as Rust's [f64]

    The values and the operations are the Standard Library's [SpecFloat] at
    precision 53 and exponent bound 1024: correctly rounded (ties to even)
    addition, multiplication, division and square root, signed zeros,
    infinities and one NaN (payloads and the sign of a NaN are not observable
    in the modelled code).  Comparisons are those of [PartialOrd] and
    [PartialEq] for [f64]; [f64_total_cmp] is [f64::total_cmp]. *)

From S2P Require Import Prelude.
From Stdlib Require Import Floats.SpecFloat.
From stdpp Require Import options.

Abbreviation f64 := spec_float.

Local Abbreviation prec := 53%Z.
Local Abbreviation emax := 1024%Z.

Definition f64_add (x y : f64) : f64 := SFadd prec emax x y.
Definition f64_sub (x y : f64) : f64 := SFsub prec emax x y.
Definition f64_mul (x y : f64) : f64 := SFmul prec emax x y.
Definition f64_div (x y : f64) : f64 := SFdiv prec emax x y.
Definition f64_sqrt (x : f64) : f64 := SFsqrt prec emax x.
Definition f64_neg (x : f64) : f64 := SFopp x.
Definition f64_abs (x : f64) : f64 := SFabs x.

(** [n as f64] for an integer [n]. *)
Definition f64_of_Z (n : Z) : f64 := binary_normalize prec emax n 0 false.
Definition f64_of_nat (n : nat) : f64 := f64_of_Z (Z.of_nat n).

(** The decimal literal [n/d]: correctly rounded when [n] and [d] are exact. *)
Definition f64_lit (n d : Z) : f64 := f64_div (f64_of_Z n) (f64_of_Z d).

Definition f64_infinity : f64 := S754_infinity false.
Definition f64_neg_infinity : f64 := S754_infinity true.
Definition f64_zero : f64 := S754_zero false.
Definition f64_one : f64 := S754_finite false 4503599627370496 (-52).

Definition f64_is_nan (x : f64) : bool :=
  match x with S754_nan => true | _ => false end.
Definition f64_is_finite (x : f64) : bool :=
  match x with S754_zero _ | S754_finite _ _ _ => true | _ => false end.

(** [PartialEq] and [PartialOrd]: every comparison with a NaN is false. *)
Definition f64_eqb (x y : f64) : bool := SFeqb x y.
Definition f64_ltb (x y : f64) : bool := SFltb x y.
Definition f64_leb (x y : f64) : bool := SFleb x y.

(** [f64::min] and [f64::max]: a NaN operand is ignored. *)
Definition f64_min (x y : f64) : f64 :=
  if f64_is_nan x then y else if f64_is_nan y then x
  else if f64_ltb y x then y else x.
Definition f64_max (x y : f64) : f64 :=
  if f64_is_nan x then y else if f64_is_nan y then x
  else if f64_ltb x y then y else x.

(** [f64::clamp] for [lo <= hi], neither a NaN. *)
Definition f64_clamp (x lo hi : f64) : f64 :=
  let x := if f64_ltb x lo then lo else x in
  if f64_ltb hi x then hi else x.

(** [iter().sum::<f64>()]: the fold starts from [-0.0]. *)
Definition f64_sum (l : list f64) : f64 := foldl f64_add (S754_zero true) l.

(** [f64::total_cmp] as a relation "less than or equal": -inf < ... < -0 < +0 <
    ... < +inf < NaN. *)
Definition f64_total_le (x y : f64) : bool :=
  match x, y with
  | _, S754_nan => true
  | S754_nan, _ => false
  | S754_zero sx, S754_zero sy => sx || negb sy
  | _, _ => f64_leb x y
  end.

Definition f64_total_rel (x y : f64) : Prop := f64_total_le x y = true.
Global Instance f64_total_rel_dec : RelDecision f64_total_rel.
Proof. intros x y. unfold f64_total_rel. apply _. Defined.

(** [v.sort_by(|l, r| l.total_cmp(r))] *)
Definition f64_sort (l : list f64) : list f64 := merge_sort f64_total_rel l.

(** [f64::to_bits], with the quiet NaN Rust calls [f64::NAN]. *)
Definition f64_to_bits (x : f64) : Z :=
  let sign (s : bool) : Z := if s then (2 ^ 63)%Z else 0%Z in
  match x with
  | S754_zero s => sign s
  | S754_infinity s => sign s + 2047 * 2 ^ 52
  | S754_nan => 2047 * 2 ^ 52 + 2 ^ 51
  | S754_finite s m e =>
      if (Z.pos m <? 2 ^ 52)%Z then sign s + Z.pos m
      else sign s + (e + 1075) * 2 ^ 52 + (Z.pos m - 2 ^ 52)
  end%Z.

(** [x as u64]: saturating truncation, NaN to 0. *)
Definition f64_to_u64 (x : f64) : Z :=
  match x with
  | S754_zero _ | S754_nan => 0
  | S754_infinity s => if s then 0 else 2 ^ 64 - 1
  | S754_finite s m e =>
      if s then 0 else Z.min (2 ^ 64 - 1) (Z.shiftl (Z.pos m) e)
  end%Z.

Global Instance f64_eq_dec : EqDecision f64.
Proof. solve_decision. Defined.

(* ------------------------------------------------------------------ *)
(** ** The comparisons are a total preorder away from NaN *)

Ltac f64_cases :=
  unfold f64_eqb, f64_ltb, f64_leb, SFeqb, SFltb, SFleb in *;
  repeat match goal with
  | x : f64 |- _ => destruct x as [[]|[]| |[] ? ?]
  end; simpl in *.

Lemma f64_leb_refl x : f64_is_nan x = false → f64_leb x x = true.
Proof.
  intros Hx. f64_cases; try done;
    rewrite Z.compare_refl; change (Pos.compare_cont Eq ?m ?m) with (Pos.compare m m);
    by rewrite Pos.compare_refl.
Qed.

(** Comparing two finite values of the same sign is lexicographic on exponent
    and mantissa. *)
Definition lex_compare (m1 : positive) (e1 : Z) (m2 : positive) (e2 : Z) : comparison :=
  match Z.compare e1 e2 with Lt => Lt | Gt => Gt | Eq => Pos.compare m1 m2 end.

Lemma SFcompare_finite s1 m1 e1 s2 m2 e2 :
  SFcompare (S754_finite s1 m1 e1) (S754_finite s2 m2 e2) =
  Some match s1, s2 with
       | true, false => Lt
       | false, true => Gt
       | false, false => lex_compare m1 e1 m2 e2
       | true, true => CompOpp (lex_compare m1 e1 m2 e2)
       end.
Proof.
  unfold lex_compare, Pos.compare. destruct s1, s2; simpl; try done.
  by destruct (Z.compare e1 e2).
Qed.

Lemma lex_compare_spec m1 e1 m2 e2 :
  match lex_compare m1 e1 m2 e2 with
  | Lt => (e1 < e2)%Z ∨ (e1 = e2 ∧ (m1 < m2)%positive)
  | Eq => e1 = e2 ∧ m1 = m2
  | Gt => (e2 < e1)%Z ∨ (e1 = e2 ∧ (m2 < m1)%positive)
  end.
Proof.
  unfold lex_compare. destruct (Z.compare_spec e1 e2); [|by left|by left].
  destruct (Pos.compare_spec m1 m2); auto.
Qed.

Ltac f64_lex :=
  unfold f64_eqb, f64_ltb, f64_leb, SFeqb, SFltb, SFleb in *;
  repeat match goal with
  | x : f64 |- _ => destruct x as [[]|[]| |[] ? ?]
  end;
  rewrite ?SFcompare_finite in *; simpl in *; try done;
  repeat match goal with
  | |- context [lex_compare ?a ?b ?c ?d] =>
      pose proof (lex_compare_spec a b c d); destruct (lex_compare a b c d)
  | H : context [lex_compare ?a ?b ?c ?d] |- _ =>
      pose proof (lex_compare_spec a b c d); destruct (lex_compare a b c d)
  end; simpl in *; try done; try (exfalso; lia).

Lemma f64_leb_trans x y z : f64_leb x y = true → f64_leb y z = true → f64_leb x z = true.
Proof. intros H1 H2. f64_lex. Qed.

Lemma f64_leb_total x y :
  f64_is_nan x = false → f64_is_nan y = false → f64_leb x y = true ∨ f64_leb y x = true.
Proof. intros H1 H2. f64_lex; auto. Qed.

Lemma f64_ltb_leb x y : f64_ltb x y = true → f64_leb x y = true.
Proof. intros H. f64_lex. Qed.

Lemma f64_ltb_irrefl x : f64_ltb x x = false.
Proof. f64_lex. Qed.

Lemma f64_ltb_not_leb x y : f64_ltb x y = true → f64_leb y x = false.
Proof. intros H. f64_lex. Qed.

Lemma f64_not_leb_ltb x y :
  f64_is_nan x = false → f64_is_nan y = false → f64_leb x y = false → f64_ltb y x = true.
Proof. intros Hx Hy H. f64_lex. Qed.

Lemma f64_leb_not_nan x y : f64_leb x y = true → f64_is_nan x = false ∧ f64_is_nan y = false.
Proof. intros H. destruct x, y; done. Qed.

Lemma f64_finite_not_nan x : f64_is_finite x = true → f64_is_nan x = false.
Proof. by destruct x. Qed.

#[export] Hint Resolve f64_leb_refl f64_finite_not_nan f64_ltb_leb : legit_order.

(** [==] identifies the two zeros and nothing else. *)
Lemma f64_eqb_true x y :
  f64_eqb x y = true →
  x = y ∨ (∃ s s', x = S754_zero s ∧ y = S754_zero s').
Proof.
  intros H.
  destruct x as [s|s| |s m e], y as [s'|s'| |s' m' e']; try done;
    try (by destruct s); try (by destruct s'); [by eauto| |].
  1: by destruct s, s'; auto.
  unfold f64_eqb, SFeqb in H. rewrite SFcompare_finite in H.
  pose proof (lex_compare_spec m e m' e') as Hl.
  destruct s, s', (lex_compare m e m' e'); simpl in *; try done; destruct Hl; subst; auto.
Qed.

Lemma f64_eqb_refl x : f64_is_nan x = false → f64_eqb x x = true.
Proof. intros H. f64_lex. Qed.

Lemma f64_eqb_sym x y : f64_eqb x y = f64_eqb y x.
Proof. f64_lex. Qed.

Lemma f64_eqb_trans x y z : f64_eqb x y = true → f64_eqb y z = true → f64_eqb x z = true.
Proof. intros H1 H2. f64_lex. Qed.

Lemma f64_eqb_leb x y : f64_eqb x y = true → f64_leb x y = true.
Proof. intros H. f64_lex. Qed.

(* ------------------------------------------------------------------ *)
(** ** Arithmetic facts the rules rely on *)

(** Dividing a finite non-zero value by itself gives exactly one. *)
Lemma f64_div_self s m e : f64_div (S754_finite s m e) (S754_finite s m e) = f64_one.
Proof.
  unfold f64_div, SFdiv, SFdiv_core_binary.
  set (d := Zdigits2 (Z.pos m)).
  replace (d + e - (d + e))%Z with 0%Z by lia.
  replace (e - e)%Z with 0%Z by lia.
  change (Z.min (fexp prec emax 0) 0) with (-53)%Z.
  change (0 - -53)%Z with 53%Z. cbv iota beta.
  rewrite Z.shiftl_mul_pow2 by lia.
  assert (Z.div_eucl (Z.pos m * 2 ^ 53) (Z.pos m) = (2 ^ 53, 0)%Z) as ->.
  { pose proof (Z_div_mod (Z.pos m * 2 ^ 53) (Z.pos m) ltac:(lia)) as Hd.
    destruct (Z.div_eucl _ _) as [q r]. destruct Hd as [Heq Hr].
    assert (q = 2 ^ 53)%Z as -> by nia. f_equal. nia. }
  unfold new_location, new_location_even, new_location_odd. simpl Z.eqb.
  destruct (Z.even (Z.pos m)); rewrite xorb_nilpotent; vm_compute; reflexivity.
Qed.

Lemma digits2_pos_shift p n :
  Z.pos (digits2_pos (Pos.iter xO p n)) = (Z.pos (digits2_pos p) + Z.pos n)%Z.
Proof.
  induction n as [|n IH] using Pos.peano_ind; [simpl; lia|].
  rewrite Pos.iter_succ. simpl digits2_pos. rewrite Pos2Z.inj_succ, IH. lia.
Qed.

Lemma digits2_pos_bound p : (2 ^ (Z.pos (digits2_pos p) - 1) ≤ Z.pos p)%Z.
Proof.
  induction p as [p IH|p IH|]; simpl digits2_pos; [..|done];
    rewrite Pos2Z.inj_succ;
    replace (Z.succ (Z.pos (digits2_pos p)) - 1)%Z with (1 + (Z.pos (digits2_pos p) - 1))%Z by lia;
    rewrite Z.pow_add_r by lia; lia.
Qed.

(** Integers of at most 53 bits convert exactly: the result is finite and positive. *)
Lemma f64_of_pos_finite p :
  (Z.pos p < 2 ^ 53)%Z → ∃ m e, f64_of_Z (Z.pos p) = S754_finite false m e.
Proof.
  intros Hp. unfold f64_of_Z, binary_normalize, binary_round.
  set (d := Z.pos (digits2_pos p)).
  assert (1 ≤ d ≤ 53)%Z as Hd.
  { split; [lia|]. pose proof (digits2_pos_bound p) as Hb. fold d in Hb.
    assert (d - 1 < 53)%Z; [|lia].
    apply (Z.pow_lt_mono_r_iff 2); lia. }
  assert (fexp prec emax (d + 0) = d - 53)%Z as Hf.
  { unfold fexp, emin. lia. }
  rewrite Hf. unfold shl_align. rewrite Z.sub_0_r.
  assert (∀ q, Z.pos (digits2_pos q) = 53%Z → ∃ m e,
    binary_round_aux prec emax false (Z.pos q) (d - 53) loc_Exact = S754_finite false m e) as Hr.
  { intros q Hq. unfold binary_round_aux, shr_fexp.
    assert (fexp prec emax (Zdigits2 (Z.pos q) + (d - 53)) - (d - 53) = 0)%Z as H0.
    { simpl Zdigits2. rewrite Hq. unfold fexp, emin. lia. }
    rewrite H0. cbv [shr shr_record_of_loc shr_m loc_of_shr_record round_nearest_even].
    rewrite H0. simpl shr_m.
    destruct (Z.leb_spec (d - 53) (1024 - 53)); [eauto|lia]. }
  destruct (d - 53)%Z as [|n|n] eqn:Hn; [apply Hr; lia|lia|].
  apply Hr. rewrite digits2_pos_shift. fold d. lia.
Qed.

(** [n as f64 / n as f64] is one for every non-zero count below 2^53. *)
Lemma f64_ratio_self n :
  (0 < Z.of_nat n < 2 ^ 53)%Z → f64_div (f64_of_nat n) (f64_of_nat n) = f64_one.
Proof.
  intros [H0 H1]. unfold f64_of_nat. destruct (Z.of_nat n) as [|p|p] eqn:Hn; try lia.
  destruct (f64_of_pos_finite p H1) as (m & e & ->). apply f64_div_self.
Qed.
