(* ===== verification/F64Bits.v ===== *)
(** * Bit patterns, exact scaling and integer parts of [f64]

    [f64::from_bits], [f64::floor], [2.0_f64.powi(n)] and [f64::MIN_POSITIVE] on
    the values of [F64], with the facts the rules rely on: the bit pattern
    determines the value, a product with a power of two is exact when its
    result is representable, and rounding keeps the sign and is never a NaN. *)

From S2P Require Import Prelude F64.
From Stdlib Require Import Floats.SpecFloat.
From stdpp Require Import options.
Local Open Scope Z_scope.

Local Abbreviation prec := 53%Z.
Local Abbreviation emax := 1024%Z.

(** The values an [f64] can hold: the canonical ones. *)
Definition f64_valid (x : f64) : bool := valid_binary prec emax x.

(** [f64::from_bits]; the payloads of NaNs are not kept. *)
Definition f64_from_bits (bits : Z) : f64 :=
  let sign := Z.testbit bits 63 in
  let exponent := Z.land (Z.shiftr bits 52) 2047 in
  let fraction := Z.land bits (2 ^ 52 - 1) in
  if exponent =? 0 then
    match fraction with Z.pos m => S754_finite sign m (-1074) | _ => S754_zero sign end
  else if exponent =? 2047 then
    (if fraction =? 0 then S754_infinity sign else S754_nan)
  else S754_finite sign (Z.to_pos (2 ^ 52 + fraction)) (exponent - 1075).

(** [f64::MIN_POSITIVE], the smallest positive normal value. *)
Definition f64_MIN_POSITIVE : f64 := S754_finite false 4503599627370496 (-1074).

(** [2.0_f64.powi(n)] *)
Definition f64_powi_two (n : Z) : f64 := binary_normalize prec emax 1 n false.

(** [f64::floor] *)
Definition f64_floor (x : f64) : f64 :=
  match x with
  | S754_finite s m e =>
      if 0 <=? e then x
      else binary_normalize prec emax (Z.shiftr (if s then Z.neg m else Z.pos m) (- e)) 0 s
  | _ => x
  end.

(* ------------------------------------------------------------------ *)
(** ** Digits and canonical mantissas *)

Lemma digits2_pos_mul_pow2 m j :
  0 ≤ j → Zdigits2 (Z.pos m * 2 ^ j) = Z.pos (digits2_pos m) + j.
Proof.
  intros Hj. destruct j as [|j|j]; [|clear Hj|lia].
  - rewrite Z.pow_0_r, Z.mul_1_r. simpl. lia.
  - rewrite <-Z.shiftl_mul_pow2 by lia. change (Z.shiftl (Z.pos m) (Z.pos j)) with
      (Pos.iter (Z.mul 2) (Z.pos m) j).
    assert (Pos.iter (Z.mul 2) (Z.pos m) j = Z.pos (Pos.iter xO m j)) as ->.
    { induction j as [|j IH] using Pos.peano_ind; [done|]. by rewrite !Pos.iter_succ, IH. }
    simpl Zdigits2. apply digits2_pos_shift.
Qed.

Lemma digits2_pos_upper p : Z.pos p < 2 ^ Z.pos (digits2_pos p).
Proof.
  induction p as [p IH|p IH|]; simpl digits2_pos; [..|done];
    rewrite Pos2Z.inj_succ, Z.pow_succ_r by lia; lia.
Qed.

Lemma bounded_spec m e :
  bounded prec emax m e = true ↔
  (Z.pos (digits2_pos m) = 53 ∧ -1074 ≤ e ∨ Z.pos (digits2_pos m) ≤ 53 ∧ e = -1074) ∧ e ≤ 971.
Proof.
  unfold bounded, canonical_mantissa, fexp, emin.
  rewrite andb_true_iff, Z.eqb_eq, Z.leb_le. lia.
Qed.

Lemma bounded_mantissa m e : bounded prec emax m e = true → Z.pos m < 2 ^ 53.
Proof.
  intros Hb%bounded_spec. pose proof (digits2_pos_upper m).
  pose proof (Z.pow_le_mono_r 2 (Z.pos (digits2_pos m)) 53). lia.
Qed.

Lemma bounded_normal m e :
  bounded prec emax m e = true → 2 ^ 52 ≤ Z.pos m → Z.pos (digits2_pos m) = 53.
Proof.
  intros Hb%bounded_spec Hm. pose proof (digits2_pos_upper m).
  destruct (decide (Z.pos (digits2_pos m) ≤ 52)); [|lia].
  pose proof (Z.pow_le_mono_r 2 (Z.pos (digits2_pos m)) 52). lia.
Qed.

Lemma bounded_subnormal m e :
  bounded prec emax m e = true → Z.pos m < 2 ^ 52 → e = -1074 ∧ Z.pos (digits2_pos m) ≤ 52.
Proof.
  intros Hb%bounded_spec Hm. pose proof (digits2_pos_bound m).
  destruct (decide (Z.pos (digits2_pos m) ≤ 52)); [lia|].
  pose proof (Z.pow_le_mono_r 2 52 (Z.pos (digits2_pos m) - 1)). lia.
Qed.

(* ------------------------------------------------------------------ *)
(** ** Rounding *)

Lemma iter_pos_iter {A} (f : A → A) n x : iter_pos f n x = Pos.iter f x n.
Proof.
  revert x. induction n as [n IH|n IH|]; intros x; simpl; rewrite ?IH; [|done..].
  rewrite <-!Pos.iter_add, Pos.iter_swap. done.
Qed.

Lemma shr_1_exact m :
  shr_1 {| shr_m := 2 * m; shr_r := false; shr_s := false |} =
  {| shr_m := m; shr_r := false; shr_s := false |}.
Proof. by destruct m. Qed.

Lemma shr_exact m e n :
  0 ≤ n →
  shr {| shr_m := m * 2 ^ n; shr_r := false; shr_s := false |} e n =
  ({| shr_m := m; shr_r := false; shr_s := false |}, e + n).
Proof.
  intros Hn. destruct n as [|n|n]; [|clear Hn|lia]; unfold shr.
  - by rewrite Z.pow_0_r, Z.mul_1_r, Z.add_0_r.
  - rewrite iter_pos_iter. f_equal.
    revert m. induction n as [|n IH] using Pos.peano_ind; intros m.
    + rewrite Z.pow_1_r, Z.mul_comm. apply shr_1_exact.
    + rewrite Pos.iter_succ_r, Pos2Z.inj_succ, Z.pow_succ_r by lia.
      rewrite (Z.mul_assoc m 2), (Z.mul_comm m 2), <-Z.mul_assoc, shr_1_exact. apply IH.
Qed.

(** Rounding is the identity on what is representable, however it is scaled. *)
Lemma binary_round_aux_exact s m e n :
  bounded prec emax m e = true → 0 ≤ n →
  binary_round_aux prec emax s (Z.pos m * 2 ^ n) (e - n) loc_Exact = S754_finite s m e.
Proof.
  intros Hb Hn. pose proof Hb as [Hc He]%andb_prop. apply Z.eqb_eq in Hc. apply Z.leb_le in He.
  unfold binary_round_aux, shr_fexp. rewrite digits2_pos_mul_pow2 by done.
  replace (Z.pos (digits2_pos m) + n + (e - n)) with (Z.pos (digits2_pos m) + e) by lia.
  rewrite Hc. replace (e - (e - n)) with n by lia. cbn [shr_record_of_loc].
  rewrite shr_exact by done. cbn [shr_m loc_of_shr_record round_nearest_even].
  replace (e - n + n) with e by lia. cbn [Zdigits2]. rewrite Hc, Z.sub_diag. cbn [shr shr_record_of_loc shr_m].
  by rewrite (proj2 (Z.leb_le _ _) He).
Qed.

Lemma f64_mul_pow2 s m e m' e' s' n j :
  bounded prec emax m' e' = true → 0 ≤ n → Z.pos m * 2 ^ 52 = Z.pos m' * 2 ^ n → e + j = e' - n →
  f64_mul (S754_finite s m e) (S754_finite s' 4503599627370496 j) =
  S754_finite (xorb s s') m' e'.
Proof.
  intros Hb Hn Hm He. unfold f64_mul, SFmul. rewrite He, Pos2Z.inj_mul.
  change (Z.pos 4503599627370496) with (2 ^ 52). rewrite Hm. by apply binary_round_aux_exact.
Qed.

Lemma f64_powi_two_normal n :
  -1022 ≤ n ≤ 1023 → f64_powi_two n = S754_finite false 4503599627370496 (n - 52).
Proof.
  intros Hn. unfold f64_powi_two, binary_normalize, binary_round, fexp, emin.
  change (Z.pos (digits2_pos 1)) with 1.
  replace (Z.max (1 + n - prec) (3 - emax - prec)) with (n - 52) by lia.
  unfold shl_align. replace (n - 52 - n) with (-52) by lia.
  change (Z.pos (Pos.iter xO 1%positive 52)) with (Z.pos 4503599627370496 * 2 ^ 0).
  rewrite <-(Z.sub_0_r (n - 52)) at 1. apply binary_round_aux_exact; [|done].
  apply bounded_spec. change (Z.pos (digits2_pos 4503599627370496)) with 53. lia.
Qed.

(** Rounding a magnitude gives a zero, a finite value or an infinity of its sign. *)
Definition signed (s : bool) (x : f64) : Prop :=
  x = S754_zero s ∨ x = S754_infinity s ∨ ∃ m e, x = S754_finite s m e.

Lemma shr_1_nonneg r : 0 ≤ shr_m r → 0 ≤ shr_m (shr_1 r).
Proof. destruct r as [[|[]|[]] ??]; simpl; lia. Qed.

Lemma shr_nonneg r e n : 0 ≤ shr_m r → 0 ≤ shr_m (shr r e n).1.
Proof.
  intros Hr. destruct n as [|n|n]; simpl; [done| |done]. rewrite iter_pos_iter.
  induction n as [|n IH] using Pos.peano_ind; [by apply shr_1_nonneg|].
  rewrite Pos.iter_succ. by apply shr_1_nonneg.
Qed.

Lemma binary_round_aux_signed s m e l :
  0 ≤ m → signed s (binary_round_aux prec emax s m e l).
Proof.
  intros Hm. unfold binary_round_aux.
  assert (0 ≤ shr_m (shr_fexp prec emax m e l).1) as H1.
  { apply shr_nonneg. destruct l as [|[]]; done. }
  destruct (shr_fexp _ _ m e l) as [mrs e']. cbn [fst] in H1.
  set (m' := round_nearest_even _ _).
  assert (0 ≤ m') as H2.
  { unfold m', round_nearest_even. destruct (loc_of_shr_record mrs) as [|[]]; try done; [|lia].
    destruct (Z.even _); lia. }
  pose proof (shr_nonneg (shr_record_of_loc m' loc_Exact) e'
    (fexp prec emax (Zdigits2 m' + e') - e') H2) as H3.
  unfold shr_fexp. destruct (shr _ _ _) as [mrs' e'']. cbn [fst] in H3.
  destruct (shr_m mrs') as [|p|p]; [by left| |lia].
  destruct (e'' <=? emax - prec); [right; right; eauto|right; by left].
Qed.

Lemma signed_not_nan s x : signed s x → f64_is_nan x = false.
Proof. intros [->|[->|(m & e & ->)]]; done. Qed.

(** A quotient of positive values is a zero, a positive value or an infinity. *)
Lemma f64_div_signed s m e y :
  signed false y → signed s (f64_div (S754_finite s m e) y).
Proof.
  intros [->|[->|(m' & e' & ->)]]; unfold f64_div, SFdiv; rewrite ?xorb_false_r;
    [right; by left|by left|].
  unfold SFdiv_core_binary. set (k := match _ with Z.pos _ => _ | _ => _ end).
  assert (0 ≤ k) as Hk.
  { unfold k. destruct (_ - _); try lia. rewrite Z.shiftl_nonneg. lia. }
  pose proof (Z_div_mod k (Z.pos m') ltac:(lia)) as Hd.
  destruct (Z.div_eucl _ _) as [q r]. destruct Hd as [Heq Hr].
  apply binary_round_aux_signed. destruct (decide (0 ≤ q)); [done|nia].
Qed.

Lemma f64_of_nat_signed n : signed false (f64_of_nat n).
Proof.
  unfold f64_of_nat, f64_of_Z, binary_normalize. destruct (Z.of_nat n) as [|p|p] eqn:Hn; [by left| |lia].
  unfold binary_round. destruct (shl_align _ _ _) as [m e]. by apply binary_round_aux_signed.
Qed.

(** Negative infinity is below everything else, also with an epsilon added. *)
Lemma f64_ltb_neg_infinity x eps :
  signed false x → f64_is_finite eps = true → f64_ltb (f64_add f64_neg_infinity eps) x = true.
Proof. intros [->|[->|(m & e & ->)]] He; destruct eps; done. Qed.

(* ------------------------------------------------------------------ *)
(** ** Integers *)

Lemma f64_of_pos_exact p :
  Z.pos p < 2 ^ 53 →
  f64_of_Z (Z.pos p) =
    S754_finite false (Pos.iter xO p (Z.to_pos (53 - Z.pos (digits2_pos p)))) (Z.pos (digits2_pos p) - 53)
  ∧ Z.pos (digits2_pos p) < 53 ∨
  f64_of_Z (Z.pos p) = S754_finite false p 0 ∧ Z.pos (digits2_pos p) = 53.
Proof.
  intros Hp. pose proof (digits2_pos_bound p) as Hd.
  assert (Z.pos (digits2_pos p) ≤ 53) as Hd53.
  { assert (Z.pos (digits2_pos p) - 1 < 53); [|lia]. apply (Z.pow_lt_mono_r_iff 2); lia. }
  unfold f64_of_Z, binary_normalize, binary_round, fexp, emin.
  replace (Z.max (Z.pos (digits2_pos p) + 0 - prec) (3 - emax - prec))
    with (Z.pos (digits2_pos p) - 53) by lia.
  unfold shl_align. rewrite Z.sub_0_r.
  destruct (decide (Z.pos (digits2_pos p) = 53)) as [Heq|Hne]; [right|left]; (split; [|lia]).
  - rewrite Heq. cbn [Z.sub Z.add Z.opp Z.pos_sub]. change (53 - 53) with 0. cbv iota beta.
    pose proof (binary_round_aux_exact false p 0 0) as He. rewrite Z.mul_1_r in He.
    apply He; [|done]. apply bounded_spec. lia.
  - destruct (Z.pos (digits2_pos p) - 53) as [|n|n] eqn:Hn; [lia|lia|].
    replace (53 - Z.pos (digits2_pos p)) with (Z.pos n) by lia. cbn [Z.to_pos].
    set (q := Pos.iter xO p n).
    replace (Z.pos q) with (Z.pos q * 2 ^ 0) by lia.
    rewrite <-(Z.sub_0_r (Z.neg n)) at 1.
    apply binary_round_aux_exact; [|done]. apply bounded_spec.
    unfold q. rewrite digits2_pos_shift. lia.
Qed.

Lemma iter_xO_pow2 p n : Z.pos (Pos.iter xO p n) = Z.pos p * 2 ^ Z.pos n.
Proof.
  induction n as [|n IH] using Pos.peano_ind; [simpl; lia|].
  rewrite Pos.iter_succ, Pos2Z.inj_succ, Z.pow_succ_r by lia. lia.
Qed.

(** An integer below 2^53 survives the conversion to [f64] and back. *)
Lemma f64_to_u64_of_Z z : 0 ≤ z < 2 ^ 53 → f64_to_u64 (f64_of_Z z) = z.
Proof.
  intros [H0 H1]. destruct z as [|p|p]; [done| |lia].
  destruct (f64_of_pos_exact p H1) as [[-> Hd]|[-> Hd]]; unfold f64_to_u64.
  - destruct (53 - Z.pos (digits2_pos p)) as [|n|n] eqn:Hn; [lia| |lia]. cbn [Z.to_pos].
    replace (Z.pos (digits2_pos p) - 53) with (- Z.pos n) by lia.
    rewrite Z.shiftl_opp_r, Z.shiftr_div_pow2, iter_xO_pow2, Z.div_mul by lia. lia.
  - rewrite Z.shiftl_0_r. lia.
Qed.

(** [x.floor() as u64] is the integer part of a finite positive value, up to
    the saturation of the cast. *)
Lemma f64_floor_to_u64 m e :
  bounded prec emax m e = true →
  f64_to_u64 (f64_floor (S754_finite false m e)) = Z.min (2 ^ 64 - 1) (Z.shiftl (Z.pos m) e).
Proof.
  intros Hb. unfold f64_floor. destruct (Z.leb_spec 0 e) as [He|He]; [done|].
  pose proof (bounded_mantissa _ _ Hb) as Hm.
  assert (0 ≤ Z.shiftr (Z.pos m) (- e) < 2 ^ 53) as Hr.
  { rewrite Z.shiftr_div_pow2 by lia. split; [apply Z.div_pos; lia|].
    apply Z.div_lt_upper_bound; [lia|]. pose proof (Z.pow_pos_nonneg 2 (- e)). nia. }
  change (binary_normalize prec emax ?z 0 false) with (f64_of_Z z).
  rewrite f64_to_u64_of_Z by done. rewrite <-(Z.opp_involutive e) at 2.
  rewrite Z.shiftl_opp_r. lia.
Qed.

(* ------------------------------------------------------------------ *)
(** ** Bit patterns *)

Lemma testbit_63_small z : 0 ≤ z < 2 ^ 63 → Z.testbit z 63 = false.
Proof.
  intros Hz. destruct (decide (z = 0)) as [->|Hne]; [done|].
  apply Z.bits_above_log2; [lia|]. apply Z.log2_lt_pow2; lia.
Qed.

Lemma testbit_63_high z : 0 ≤ z < 2 ^ 63 → Z.testbit (2 ^ 63 + z) 63 = true.
Proof.
  intros Hz. rewrite <-(Z.mod_small z (2 ^ 63)) by lia.
  rewrite Z.add_nocarry_lxor; [|apply Z.bits_inj'; intros n Hn; rewrite Z.bits_0, Z.land_spec,
    Z.pow2_bits_eqb by lia; destruct (Z.eqb_spec 63 n) as [<-|]; [|done];
    rewrite Z.mod_pow2_bits_high by lia; done].
  rewrite Z.lxor_spec, Z.pow2_bits_true, Z.mod_pow2_bits_high by lia. done.
Qed.

(** Exponent and fraction of a pattern built from its three fields. *)
Lemma bits_fields s e f :
  0 ≤ e < 2048 → 0 ≤ f < 2 ^ 52 →
  let bits := (if s : bool then 2 ^ 63 else 0) + e * 2 ^ 52 + f in
  Z.testbit bits 63 = s ∧ Z.land (Z.shiftr bits 52) 2047 = e ∧ Z.land bits (2 ^ 52 - 1) = f.
Proof.
  intros He Hf bits. assert (0 ≤ e * 2 ^ 52 + f < 2 ^ 63) as Hb by lia. split_and!.
  - unfold bits. destruct s; [rewrite <-Z.add_assoc; by apply testbit_63_high|].
    by apply testbit_63_small.
  - change 2047 with (Z.ones 11). rewrite Z.land_ones, Z.shiftr_div_pow2 by lia.
    replace bits with (f + ((if s then 2048 else 0) + e) * 2 ^ 52) by (unfold bits; destruct s; lia).
    rewrite Z.div_add, Z.div_small by lia. destruct s; [|by rewrite Z.mod_small; lia].
    replace (0 + (2048 + e)) with (e + 1 * 2 ^ 11) by lia. rewrite Z.mod_add by lia.
    by rewrite Z.mod_small by lia.
  - change (2 ^ 52 - 1) with (Z.ones 52). rewrite Z.land_ones by lia.
    replace bits with (f + ((if s then 2048 else 0) + e) * 2 ^ 52) by (unfold bits; destruct s; lia).
    rewrite Z.mod_add by lia. by apply Z.mod_small.
Qed.

Lemma f64_from_to_bits x : f64_valid x = true → f64_from_bits (f64_to_bits x) = x.
Proof.
  intros Hv. destruct x as [s|s| |s m e]; [by destruct s|by destruct s|done|].
  cbn [f64_to_bits]. destruct (Z.ltb_spec (Z.pos m) (2 ^ 52)) as [Hm|Hm].
  - destruct (bounded_subnormal _ _ Hv Hm) as [-> _].
    destruct (bits_fields s 0 (Z.pos m)) as (Hs & He & Hf); [lia|lia|].
    unfold f64_from_bits. rewrite Z.mul_0_l, Z.add_0_r in Hs, He, Hf. by rewrite Hs, He, Hf.
  - pose proof (bounded_normal _ _ Hv Hm) as Hd. pose proof (bounded_mantissa _ _ Hv) as Hm'.
    apply bounded_spec in Hv.
    destruct (bits_fields s (e + 1075) (Z.pos m - 2 ^ 52)) as (Hs & He & Hf); [lia|lia|].
    unfold f64_from_bits. rewrite Hs, He, Hf.
    rewrite (proj2 (Z.eqb_neq (e + 1075) 0)) by lia.
    rewrite (proj2 (Z.eqb_neq (e + 1075) 2047)) by lia.
    f_equal; [|lia]. replace (2 ^ 52 + (Z.pos m - 2 ^ 52)) with (Z.pos m) by lia. done.
Qed.

(* ------------------------------------------------------------------ *)
(** * Rounding respects representable bounds

    A correctly rounded result stays on the same side of every representable
    value as the exact one.  What the axiom checks need of it: adding a
    non-negative value does not decrease, subtracting one does not increase. *)


(* ------------------------------------------------------------------ *)
(** ** Shifting right is division *)

(** [r] represents [m / 2^n]: its mantissa is the quotient, and the round and
    sticky bits are clear exactly when the division is exact. *)
Definition represents (r : shr_record) (m n : Z) : Prop :=
  shr_m r = m / 2 ^ n ∧ (m mod 2 ^ n = 0 ↔ shr_r r = false ∧ shr_s r = false).

Lemma shr_1_represents r m n : 0 ≤ m → 0 ≤ n → represents r m n → represents (shr_1 r) m (n + 1).
Proof.
  intros Hm Hn [Hq Hrs]. pose proof (Z.pow_pos_nonneg 2 n) as Hp.
  assert (2 ^ (n + 1) = 2 ^ n * 2) as Hpow by (rewrite Z.pow_add_r by lia; lia).
  destruct r as [q r s]. cbn [shr_m shr_r shr_s] in *.
  assert (0 ≤ q) by (rewrite Hq; apply Z.div_pos; lia).
  pose proof (Z.mod_pos_bound m (2 ^ n) ltac:(lia)) as Hb.
  assert (m / 2 ^ (n + 1) = q / 2) as Hd by (rewrite Hpow, <-Z.div_div, Hq; lia).
  assert (m mod 2 ^ (n + 1) = m mod 2 ^ n + 2 ^ n * (q mod 2)) as Hmod
    by (rewrite Hpow, Z.rem_mul_r, Hq by lia; lia).
  unfold represents. rewrite Hd, Hmod.
  assert (∀ r' : bool, q mod 2 = (if r' then 1 else 0) →
    (m mod 2 ^ n + 2 ^ n * (q mod 2) = 0 ↔ r' = false ∧ r || s = false)) as Hiff.
  { intros r' ->. rewrite orb_false_iff, <-Hrs. destruct r'; split; try lia; by intros []. }
  destruct q as [|[p|p|]|p]; [..|lia]; cbn [shr_1 shr_m shr_r shr_s]; (split; [|apply Hiff]).
  - done.
  - done.
  - rewrite Pos2Z.inj_xI. apply (Z.div_unique_pos _ _ _ 1); lia.
  - rewrite Pos2Z.inj_xI, Z.add_comm, Z.mul_comm, Z.mod_add by lia. done.
  - rewrite Pos2Z.inj_xO. apply (Z.div_unique_pos _ _ _ 0); lia.
  - rewrite Pos2Z.inj_xO, Z.mul_comm, Z.mod_mul by lia. done.
  - done.
  - done.
Qed.

Lemma shr_represents m e n :
  0 ≤ m → 0 ≤ n →
  represents (shr {| shr_m := m; shr_r := false; shr_s := false |} e n).1 m n ∧
  (shr {| shr_m := m; shr_r := false; shr_s := false |} e n).2 = e + n.
Proof.
  intros Hm Hn. assert (represents {| shr_m := m; shr_r := false; shr_s := false |} m 0) as H0.
  { split; cbn [shr_m shr_r shr_s]; [by rewrite Z.pow_0_r, Z.div_1_r|by rewrite Z.pow_0_r, Z.mod_1_r]. }
  destruct n as [|n|n]; [by rewrite Z.add_0_r| |lia]. split; [|done]. cbn [shr fst].
  rewrite iter_pos_iter. induction n as [|n IH] using Pos.peano_ind.
  - by apply (shr_1_represents _ _ 0).
  - rewrite Pos.iter_succ, Pos2Z.inj_succ, <-Z.add_1_r. apply shr_1_represents; [done|lia|apply IH; lia].
Qed.

(** Rounding a represented quotient to even gives the floor or the ceiling, and
    the quotient itself when it is exact. *)
Lemma round_represents r m n :
  0 ≤ m → represents r m n →
  let q := round_nearest_even (shr_m r) (loc_of_shr_record r) in
  m / 2 ^ n ≤ q ≤ m / 2 ^ n + 1 ∧ (m mod 2 ^ n = 0 → q = m / 2 ^ n).
Proof.
  intros Hm [Hq Hrs]. destruct r as [k r s]. cbn [shr_m shr_r shr_s] in *. rewrite <-Hq.
  destruct r, s; cbn [loc_of_shr_record round_nearest_even]; try (destruct (Z.even k));
    (split; [lia|]); intros H0; try done; by apply Hrs in H0 as [? ?].
Qed.

(* ------------------------------------------------------------------ *)
(** ** The result of rounding *)

Lemma fexp_mono a b : a ≤ b → fexp prec emax a ≤ fexp prec emax b.
Proof. unfold fexp, emin. lia. Qed.

Lemma Zdigits2_bounds m : 0 < m → 2 ^ (Zdigits2 m - 1) ≤ m < 2 ^ Zdigits2 m.
Proof. intros Hm. destruct m as [|p|p]; [lia| |lia]. split; [apply digits2_pos_bound|apply digits2_pos_upper]. Qed.

Lemma Zdigits2_mono a b : 0 < a → a ≤ b → Zdigits2 a ≤ Zdigits2 b.
Proof.
  intros Ha Hab. pose proof (Zdigits2_bounds a Ha). pose proof (Zdigits2_bounds b ltac:(lia)).
  assert (Zdigits2 a - 1 < Zdigits2 b); [|lia].
  apply (Z.pow_lt_mono_r_iff 2); [lia| |lia].
  destruct b as [|p|p]; simpl; lia.
Qed.

Lemma Zdigits2_le a n : 0 ≤ n → 0 < a → a < 2 ^ n → Zdigits2 a ≤ n.
Proof.
  intros Hn Ha Hl. pose proof (Zdigits2_bounds a Ha).
  assert (Zdigits2 a - 1 < n); [|lia]. apply (Z.pow_lt_mono_r_iff 2); lia.
Qed.

Lemma binary_round_aux_cases s m e :
  0 < m → e ≤ fexp prec emax (Zdigits2 m + e) →
  let e1 := fexp prec emax (Zdigits2 m + e) in
  ∃ q, m / 2 ^ (e1 - e) ≤ q ≤ m / 2 ^ (e1 - e) + 1 ∧
    (m mod 2 ^ (e1 - e) = 0 → q = m / 2 ^ (e1 - e)) ∧ q ≤ 2 ^ 53 ∧
    (q = 0 ∧ binary_round_aux prec emax s m e loc_Exact = S754_zero s ∨
     ∃ q' e', binary_round_aux prec emax s m e loc_Exact =
         (if e' <=? 971 then S754_finite s q' e' else S754_infinity s) ∧
       (Z.pos q' = q ∧ e' = e1 ∨ q = 2 ^ 53 ∧ Z.pos q' = 2 ^ 52 ∧ e' = e1 + 1)).
Proof.
  intros Hm He e1. unfold binary_round_aux, shr_fexp. fold e1. cbn [shr_record_of_loc].
  destruct (shr_represents m e (e1 - e) ltac:(lia) ltac:(lia)) as [Hr Hr2].
  destruct (shr _ e (e1 - e)) as [r e1']. cbn [fst snd] in *.
  replace e1' with e1 in * by lia. clear Hr2 e1'.
  pose proof (round_represents r m (e1 - e) ltac:(lia) Hr) as [Hq Hexact].
  set (q := round_nearest_even _ _) in *.
  assert (m / 2 ^ (e1 - e) < 2 ^ 53) as Hq53.
  { apply Z.div_lt_upper_bound; [apply Z.pow_pos_nonneg; lia|].
    rewrite <-Z.pow_add_r by lia. pose proof (Zdigits2_bounds m Hm) as [_ Hd].
    eapply Z.lt_le_trans; [exact Hd|]. apply Z.pow_le_mono_r; [lia|].
    unfold e1, fexp, emin. lia. }
  assert (0 ≤ m / 2 ^ (e1 - e)) as Hq0 by (apply Z.div_pos; [lia|apply Z.pow_pos_nonneg; lia]).
  exists q. split_and!; [lia|lia|done|lia|].
  destruct (decide (q = 0)) as [Hz|Hnz].
  { left. split; [done|]. rewrite Hz. destruct (fexp _ _ _ - _) as [|p|p]; cbn [shr]; try done.
    rewrite iter_pos_iter. assert (∀ p, Pos.iter shr_1 {| shr_m := 0; shr_r := false; shr_s := false |} p =
      {| shr_m := 0; shr_r := false; shr_s := false |}) as ->; [|done].
    clear. induction p as [|p IH] using Pos.peano_ind; [done|]. by rewrite Pos.iter_succ, IH. }
  right. destruct (decide (q = 2 ^ 53)) as [H53|H53].
  - rewrite H53. change (Zdigits2 (2 ^ 53)) with 54.
    assert (fexp prec emax (54 + e1) - e1 = 1) as ->.
    { unfold e1, fexp, emin in *. lia. }
    exists 4503599627370496%positive, (e1 + 1). split; [|right; done]. cbn [shr iter_pos].
    change (shr_m (shr_1 _)) with 4503599627370496. cbv iota. done.
  - assert (0 < q < 2 ^ 53) as Hqr by lia. destruct q as [|p|p]; [lia| |lia].
    assert (fexp prec emax (Zdigits2 (Z.pos p) + e1) - e1 ≤ 0) as Hle.
    { pose proof (Zdigits2_le (Z.pos p) 53 ltac:(lia) ltac:(lia) ltac:(lia)).
      unfold e1, fexp, emin in *. lia. }
    exists p, e1. split; [|left; done].
    destruct (fexp _ _ _ - e1) as [|k|k]; [done|lia|done].
Qed.

(** A canonical value is above the rounding of anything it is above. *)
Lemma round_upper m e mb eb :
  bounded prec emax mb eb = true → 0 < m →
  e ≤ fexp prec emax (Zdigits2 m + e) → e ≤ eb → m ≤ Z.pos mb * 2 ^ (eb - e) →
  f64_leb (binary_round_aux prec emax false m e loc_Exact) (S754_finite false mb eb) = true.
Proof.
  intros Hb Hm He Hee Hle. pose proof (bounded_mantissa _ _ Hb) as Hmb.
  pose proof Hb as [Hc Heb]%andb_prop. apply Z.eqb_eq in Hc. apply Z.leb_le in Heb.
  destruct (binary_round_aux_cases false m e Hm He) as (q & Hq & Hex & Hq53 & Hres).
  set (e1 := fexp prec emax (Zdigits2 m + e)) in *.
  assert (e1 ≤ eb) as He1.
  { rewrite <-Hc. apply fexp_mono.
    pose proof (Zdigits2_mono _ _ Hm Hle) as Hd. rewrite digits2_pos_mul_pow2 in Hd by lia. lia. }
  assert (q ≤ Z.pos mb * 2 ^ (eb - e1)) as Hqb.
  { pose proof (Z.pow_pos_nonneg 2 (e1 - e)) as Hp.
    assert (2 ^ (eb - e) = 2 ^ (eb - e1) * 2 ^ (e1 - e)) as Hpow by (rewrite <-Z.pow_add_r; [f_equal; lia|lia..]).
    rewrite Hpow, Z.mul_assoc in Hle. set (B := Z.pos mb * 2 ^ (eb - e1)) in *.
    pose proof (Z.div_mod m (2 ^ (e1 - e)) ltac:(lia)) as Hdm.
    pose proof (Z.mod_pos_bound m (2 ^ (e1 - e)) ltac:(lia)).
    destruct (decide (m mod 2 ^ (e1 - e) = 0)) as [H0|H0]; [rewrite (Hex H0); nia|].
    assert (m / 2 ^ (e1 - e) < B) by nia. lia. }
  destruct Hres as [[_ ->]|(q' & e' & -> & Hcase)]; [done|].
  assert (e' < eb ∨ e' = eb ∧ (q' ≤ mb)%positive) as Hlex.
  { destruct Hcase as [[Hq' ->]|(Hq' & Hq2 & ->)].
    - destruct (decide (e1 = eb)) as [->|]; [right|left; lia].
      rewrite Z.sub_diag, Z.pow_0_r in Hqb. split; [done|lia].
    - destruct (decide (e1 = eb)) as [->|]; [rewrite Z.sub_diag, Z.pow_0_r in Hqb; lia|].
      destruct (decide (e1 + 1 = eb)) as [<-|]; [right|left; lia]. split; [done|].
      replace (e1 + 1 - e1) with 1 in Hqb by lia. lia. }
  rewrite (proj2 (Z.leb_le e' 971)) by lia.
  unfold f64_leb, SFleb. rewrite SFcompare_finite.
  pose proof (lex_compare_spec q' e' mb eb) as Hl. destruct (lex_compare _ _ _ _); try done. lia.
Qed.

(** A canonical value is below the rounding of anything it is below. *)
Lemma round_lower m e mb eb :
  bounded prec emax mb eb = true →
  e ≤ fexp prec emax (Zdigits2 m + e) → e ≤ eb → Z.pos mb * 2 ^ (eb - e) ≤ m →
  f64_leb (S754_finite false mb eb) (binary_round_aux prec emax false m e loc_Exact) = true.
Proof.
  intros Hb He Hee Hle. pose proof (Z.pow_pos_nonneg 2 (eb - e)).
  pose proof Hb as [Hc Heb]%andb_prop. apply Z.eqb_eq in Hc.
  assert (0 < m) as Hm by nia.
  destruct (binary_round_aux_cases false m e Hm He) as (q & Hq & Hex & Hq53 & Hres).
  set (e1 := fexp prec emax (Zdigits2 m + e)) in *.
  assert (eb ≤ e1) as He1.
  { rewrite <-Hc at 1. apply fexp_mono.
    pose proof (Zdigits2_mono (Z.pos mb * 2 ^ (eb - e)) m ltac:(lia) Hle) as Hd. rewrite digits2_pos_mul_pow2 in Hd by lia. lia. }
  assert (e1 = eb → Z.pos mb ≤ q) as Hqb.
  { intros ->. assert (Z.pos mb ≤ m / 2 ^ (eb - e)); [|lia]. apply Z.div_le_lower_bound; lia. }
  assert (q ≠ 0) as Hq0.
  { pose proof (Z.pow_pos_nonneg 2 (e1 - e)). intros ->.
    destruct (decide (e1 = eb)) as [->|Hne]; [specialize (Hqb eq_refl); lia|].
    assert (0 < m / 2 ^ (e1 - e)); [|lia]. apply Z.div_str_pos. split; [lia|].
    pose proof (Zdigits2_bounds m Hm) as [Hd _]. eapply Z.le_trans; [|exact Hd].
    apply Z.pow_le_mono_r; [lia|]. unfold e1, fexp, emin in *. apply bounded_spec in Hb. lia. }
  destruct Hres as [[? _]|(q' & e' & -> & Hcase)]; [done|].
  destruct (Z.leb_spec e' 971); [|done].
  assert (eb < e' ∨ e' = eb ∧ (mb ≤ q')%positive) as Hlex.
  { destruct Hcase as [[Hq' ->]|(Hq' & Hq2 & ->)]; [|left; lia].
    destruct (decide (e1 = eb)) as [->|]; [right|left; lia]. specialize (Hqb eq_refl). split; [done|lia]. }
  unfold f64_leb, SFleb. rewrite SFcompare_finite.
  pose proof (lex_compare_spec mb eb q' e') as Hl. destruct (lex_compare _ _ _ _); try done. lia.
Qed.

(* ------------------------------------------------------------------ *)
(** ** Addition and subtraction *)

Lemma shl_align_mul m e e' : e' ≤ e → Z.pos (fst (shl_align m e e')) = Z.pos m * 2 ^ (e - e').
Proof.
  intros He. unfold shl_align. destruct (e' - e) as [|p|p] eqn:Hp; cbn [fst]; [|lia|].
  - replace (e - e') with 0 by lia. lia.
  - replace (e - e') with (Z.pos p) by lia. apply iter_xO_pow2.
Qed.

Lemma binary_round_eq s p e0 :
  ∃ m e, binary_round prec emax s p e0 = binary_round_aux prec emax s m e loc_Exact ∧
    e ≤ e0 ∧ m = Z.pos p * 2 ^ (e0 - e) ∧ 0 < m ∧ e ≤ fexp prec emax (Zdigits2 m + e).
Proof.
  unfold binary_round. set (f := fexp prec emax (Z.pos (digits2_pos p) + e0)).
  pose proof (shl_align_mul p e0 f) as Hm. unfold shl_align in *.
  destruct (f - e0) as [|k|k] eqn:Hk; cbn [fst] in *.
  1, 2: exists (Z.pos p), e0; rewrite Z.sub_diag; split_and!; [done|lia|lia|lia|];
    change (Zdigits2 (Z.pos p)) with (Z.pos (digits2_pos p)); fold f; lia.
  exists (Z.pos (Pos.iter xO p k)), f. specialize (Hm ltac:(lia)).
  split_and!; [done|lia|done|lia|]. rewrite Hm, digits2_pos_mul_pow2 by lia.
  replace (Z.pos (digits2_pos p) + (e0 - f) + f) with (Z.pos (digits2_pos p) + e0) by lia. done.
Qed.

(** Representable, finite, not negative: what a share is. *)
Definition nonneg (x : f64) : Prop :=
  f64_valid x = true ∧ f64_is_finite x = true ∧ f64_leb f64_zero x = true.

Lemma nonneg_inv x : nonneg x →
  (∃ s, x = S754_zero s) ∨ ∃ m e, x = S754_finite false m e ∧ bounded prec emax m e = true.
Proof. intros (Hv & Hf & Hle). destruct x as [s| | |[] m e]; try done; eauto. Qed.

Lemma f64_add_ge x t : nonneg x → signed false t → f64_leb x (f64_add x t) = true.
Proof.
  intros [[s ->]|(m & e & -> & Hb)]%nonneg_inv [->|[->|(mt & et & ->)]]; try (by destruct s); try done.
  { apply f64_leb_refl. done. }
  unfold f64_add, SFadd, binary_normalize. cbn [cond_Zopp].
  set (ez := Z.min e et). rewrite !shl_align_mul by lia.
  destruct (_ + _) as [|p|p] eqn:Hp.
  1, 3: pose proof (Z.pow_pos_nonneg 2 (e - ez)); pose proof (Z.pow_pos_nonneg 2 (et - ez)); nia.
  destruct (binary_round_eq false p ez) as (m' & e' & -> & He' & Hm' & Hpos & Hf).
  apply round_lower; [done|done|lia|]. rewrite Hm', <-Hp.
  replace (e - e') with ((e - ez) + (ez - e')) by lia. rewrite Z.pow_add_r by lia.
  pose proof (Z.pow_pos_nonneg 2 (ez - e')). pose proof (Z.pow_pos_nonneg 2 (et - ez)). nia.
Qed.

Lemma f64_sub_le x t : nonneg x → signed false t → f64_leb (f64_sub x t) x = true.
Proof.
  intros [[s ->]|(m & e & -> & Hb)]%nonneg_inv [->|[->|(mt & et & ->)]]; try (by destruct s); try done.
  { apply f64_leb_refl. done. }
  unfold f64_sub, SFsub, binary_normalize. cbn [cond_Zopp].
  set (ez := Z.min e et). rewrite !shl_align_mul by lia.
  destruct (_ - _) as [|p|p] eqn:Hp; [done| |].
  - destruct (binary_round_eq false p ez) as (m' & e' & -> & He' & Hm' & Hpos & Hf).
    apply round_upper; [done|lia|done|lia|]. rewrite Hm', <-Hp.
    replace (e - e') with ((e - ez) + (ez - e')) by lia. rewrite Z.pow_add_r by lia.
    pose proof (Z.pow_pos_nonneg 2 (ez - e')). pose proof (Z.pow_pos_nonneg 2 (et - ez)). nia.
  - destruct (binary_round_eq true p ez) as (m' & e' & -> & _ & _ & Hpos & _).
    destruct (binary_round_aux_signed true m' e' loc_Exact ltac:(lia)) as [->|[->|(q & k & ->)]]; done.
Qed.

Lemma f64_add_signed x y : signed false x → signed false y → signed false (f64_add x y).
Proof.
  intros [->|[->|(m & e & ->)]] [->|[->|(mt & et & ->)]]; try (by left); try (by right; left);
    try (by right; right; eauto).
  unfold f64_add, SFadd, binary_normalize. cbn [cond_Zopp].
  destruct (_ + _) as [|p|p] eqn:Hp; [by left| |lia].
  destruct (binary_round_eq false p (Z.min e et)) as (m' & e' & -> & _ & _ & Hpos & _).
  apply binary_round_aux_signed. lia.
Qed.

Lemma f64_mul_signed m e y : signed false y → signed false (f64_mul (S754_finite false m e) y).
Proof.
  intros [->|[->|(mt & et & ->)]]; [by left|by right; left|].
  unfold f64_mul, SFmul. by apply binary_round_aux_signed.
Qed.

Lemma f64_abs_signed x : f64_is_nan x = false → signed false (f64_abs x).
Proof. destruct x; intros H; try done; [by left|by right; left|by right; right; eauto]. Qed.

Lemma f64_sub_self x : f64_is_finite x = true → ∃ s, f64_sub x x = S754_zero s.
Proof.
  destruct x as [[]| | |s m e]; intros H; try done; [by exists false|by exists false|].
  exists false. unfold f64_sub, SFsub. by rewrite Z.sub_diag.
Qed.

Lemma f64_not_ltb_signed_zero t s : signed false t → f64_ltb t (S754_zero s) = false.
Proof. intros [->|[->|(m & e & ->)]]; done. Qed.

(** [clamp] to the unit interval gives a share or a NaN. *)
Lemma f64_clamp_unit_nonneg x :
  f64_valid x = true → f64_is_finite (f64_clamp x f64_zero f64_one) = true →
  nonneg (f64_clamp x f64_zero f64_one).
Proof.
  intros Hv. unfold f64_clamp, nonneg.
  destruct (f64_ltb x f64_zero) eqn:Hx; [by vm_compute|].
  destruct (f64_ltb f64_one x) eqn:H1; [by vm_compute|].
  intros Hf. split_and!; [done|done|]. by destruct x as [[]|[]| |[] ? ?].
Qed.
