(* ===== verification/Errors.v ===== *)
(** * Error values (src/error.rs)

    [LegitimacyError] with the constructors of the source.  Text a constructor
    carries is a [Message]: the sequence of literal parts and rendered values a
    [format!] call concatenates, before rendering.  The error values of
    third-party crates (regex, serde_json, toml, rusqlite, std::io) that a
    constructor wraps are left out of it. *)

From S2P Require Import Prelude F64.
From stdpp Require Import options.

Inductive Piece : Type :=
  | Txt (s : string)          (* literal text, or a string printed with {} *)
  | Num (x : f64)             (* {} of a float *)
  | Num0 (x : f64)            (* {:.0} of a float *)
  | Num2 (x : f64)            (* {:.2} of a float *)
  | Num4 (x : f64)            (* {:.4} of a float *)
  | Num6 (x : f64)            (* {:.6} of a float *)
  | NumDebug (x : f64)        (* {:?} of a float *)
  | Int (n : Z)               (* {} of an integer *)
  | Names (l : list string)   (* {:?} of a list of names *)
  | NameSet (l : list string). (* {:?} of a set of names, in order *)

Abbreviation Message := (list Piece).

Inductive LegitimacyError : Type :=
  | InvalidPositiveStrength (value : f64)
  | InvalidEstateTotal (value : f64)
  | InvalidClaimStrength (claimant_id : string) (strength : f64)
  | InvalidClaimantId (claimant_id : string)
  | DuplicateClaimantId (claimant_id : string)
  | AllocationMissingClaimant (claimant_id : string)
  | InvalidAllocationValue (claimant_id : string) (value : f64)
  | AllocationUnknownClaimant (claimant_id : string)
  | AllocationExceedsEstate (total_allocated estate_total : f64)
  | MissingAllocationShare (claimant_id context : string)
  | RuleNotAdmissible (rule_name rule_version : string)
  | CertificationRuleMismatch
      (compiled_rule_name compiled_rule_version rule_name rule_version : string)
  | CertifiedOutcomeMismatch
      (rule_name rule_version claimant_id : string) (expected actual : f64)
  | PolicyRead (path : string)
  | PolicyToml (context : string)
  | InvalidPolicy (context : string) (message : Message)
  | InvalidNodeId (value : string)
  | DuplicateNodeId (node_id : string)
  | InvalidEdgeReference (node_id : string)
  | UnsupportedNodeType (node_id node_type : string)
  | InvalidGovernanceStrength (claimant_id : string) (strength : f64)
  | InvalidGate (gate : string) (message : Message)
  | InvalidRegex (pattern : string)
  | ConflictingClaimFeed (node_id claimant_id : string)
  | NoEntryNodes
  | CycleError (cycle : list string)
  | Io (context : string)
  | Json (context : string)
  | Serialize (context : string)
  | Sqlite (context : string)
  | SystemClock
  | InvalidInput (message : Message).

Definition invalid_input (message : Message) : LegitimacyError := InvalidInput message.
Definition invalid_policy (context : string) (message : Message) : LegitimacyError :=
  InvalidPolicy context message.
Definition missing_allocation_share (claimant_id context : string) : LegitimacyError :=
  MissingAllocationShare claimant_id context.

(** The result type of the library's fallible functions. *)
Abbreviation LResult := (Result LegitimacyError).
