(* ===== verification/JsonScan.v ===== *)
(** * Bounded scan of untrusted JSON (src/trajectory/duplicate_json.rs)

    The scanner walks a document as serde_json's streaming deserializer hands it
    out.  A [JsonNode] is what the deserializer delivers from one position on:
    it may break off, with a syntax error, inside a value, where the next
    element or key should be, or between a key and its value.  The document is
    the parameter [JsonStream].  The [RefCell] counters are threaded state,
    which an error leaves as it is: only [budget_exceeded] is read after one. *)

From S2P Require Import Prelude Encoding Trajectory F64 Errors.
From stdpp Require Import options.

Inductive JsonNode :=
  | JNull
  | JBool (b : bool)
  | JInteger (z : Z)              (* visit_i64 and visit_u64 *)
  | JNumber (x : f64)             (* visit_f64 *)
  | JString (s : string)
  | JArray (items : list JsonNode) (closed : bool)
  | JObject (entries : list (string * JsonNode)) (rest : JsonRest)
  | JBroken                       (* no value can be read here *)
with JsonRest :=
  | RClosed                       (* the closing brace *)
  | RBrokenKey                    (* a syntax error instead of a key *)
  | RBrokenValue (key : string).  (* a key without a value *)

(** A document: its root, and whether only white space follows. *)
Record JsonDocument := mkDocument {
  jd_root : JsonNode;
  jd_ended : bool;
}.

(** [serde_json::Deserializer::from_slice] *)
Class JsonStream := json_stream : string → JsonDocument.

Inductive JsonRootKind := RootObject | RootNonObject.
Global Instance JsonRootKind_eq_dec : EqDecision JsonRootKind.
Proof. solve_decision. Defined.

Record JsonScanLimits := mkLimits {
  max_depth : u64;
  max_nodes : u64;
  max_total_keys : u64;
  max_decoded_string_bytes : u64;
}.

(** [usize::MAX] in every field. *)
Definition unbounded : JsonScanLimits :=
  let usize_max := u64_lit (2 ^ 64 - 1) in mkLimits usize_max usize_max usize_max usize_max.

Record ScanState := mkScan {
  sc_limits : JsonScanLimits;
  sc_nodes : Z;
  sc_total_keys : Z;
  sc_decoded_string_bytes : Z;
}.

(** A scan fails with [budget_exceeded] set or not. *)
Inductive ScanError := BudgetError | InvalidError.
Abbreviation ScanResult := (Result ScanError).

Definition ScanState_new (limits : JsonScanLimits) : ScanState := mkScan limits 0 0 0.

Definition enter_node (st : ScanState) (depth : Z) : ScanResult ScanState :=
  if (u64_val (max_depth (sc_limits st)) <? depth)%Z then Err BudgetError
  else
    nodes ← ok_or (checked_add (sc_nodes st) 1) BudgetError;
    if (u64_val (max_nodes (sc_limits st)) <? nodes)%Z then Err BudgetError
    else Ok (mkScan (sc_limits st) nodes (sc_total_keys st) (sc_decoded_string_bytes st)).

Definition add_string (st : ScanState) (bytes : Z) : ScanResult ScanState :=
  decoded ← ok_or (checked_add (sc_decoded_string_bytes st) bytes) BudgetError;
  if (u64_val (max_decoded_string_bytes (sc_limits st)) <? decoded)%Z then Err BudgetError
  else Ok (mkScan (sc_limits st) (sc_nodes st) (sc_total_keys st) decoded).

Definition add_key (st : ScanState) (bytes : Z) : ScanResult ScanState :=
  total_keys ← ok_or (checked_add (sc_total_keys st) 1) BudgetError;
  if (u64_val (max_total_keys (sc_limits st)) <? total_keys)%Z then Err BudgetError
  else add_string (mkScan (sc_limits st) (sc_nodes st) total_keys (sc_decoded_string_bytes st)) bytes.

Definition next_depth (depth : Z) : ScanResult Z := ok_or (checked_add depth 1) BudgetError.

(** The keys of the object being read: the set, their number and their bytes. *)
Record ObjectState := mkObject {
  ob_keys : gset string;
  ob_key_count : Z;
  ob_key_bytes : Z;
}.

(** The part of the loop of [visit_map] before the value is read. *)
Definition visit_key (st : ScanState) (ob : ObjectState) (key : string)
    : ScanResult (ScanState * ObjectState) :=
  if bool_decide (key ∈ ob_keys ob) then Err InvalidError
  else
    key_count ← ok_or (checked_add (ob_key_count ob) 1) BudgetError;
    if (MAX_JSON_KEYS_PER_OBJECT_V0 <? key_count)%Z then Err BudgetError
    else
      key_bytes ← ok_or (checked_add (ob_key_bytes ob) (byte_len key)) BudgetError;
      if (MAX_JSON_KEY_BYTES_PER_OBJECT_V0 <? key_bytes)%Z then Err BudgetError
      else
        st ← add_key st (byte_len key);
        Ok (st, mkObject ({[key]} ∪ ob_keys ob) key_count key_bytes).

(** The loops of [visit_seq] and [visit_map], given the scan of a value. *)
Section visitor.
Variable scan : ScanState → Z → JsonNode → ScanResult (ScanState * JsonRootKind).

Definition visit_seq (depth : Z) (closed : bool) : ScanState → list JsonNode → ScanResult ScanState :=
  fix loop st items :=
    match items with
    | [] => if closed then Ok st else Err InvalidError
    | item :: items => r ← scan st depth item; loop r.1 items
    end.

Definition visit_map (depth : Z) (rest : JsonRest)
    : ScanState → ObjectState → list (string * JsonNode) → ScanResult ScanState :=
  fix loop st ob entries :=
    match entries with
    | [] =>
        match rest with
        | RClosed => Ok st
        | RBrokenKey => Err InvalidError
        | RBrokenValue key => _ ← visit_key st ob key; _ ← next_depth depth; Err InvalidError
        end
    | (key, value) :: entries =>
        r ← visit_key st ob key;
        depth ← next_depth depth;
        v ← scan r.1 depth value;
        loop v.1 r.2 entries
    end.
End visitor.

(** [ScanSeed::deserialize] and the methods of [StreamingJsonVisitor]. *)
Fixpoint scan_node (st : ScanState) (depth : Z) (node : JsonNode) {struct node}
    : ScanResult (ScanState * JsonRootKind) :=
  st ← enter_node st depth;
  match node with
  | JNull | JBool _ | JInteger _ => Ok (st, RootNonObject)
  | JNumber x => if f64_is_finite x then Ok (st, RootNonObject) else Err InvalidError
  | JString s => st ← add_string st (byte_len s); Ok (st, RootNonObject)
  | JArray items closed =>
      depth ← next_depth depth;
      st ← visit_seq scan_node depth closed st items;
      Ok (st, RootNonObject)
  | JObject entries rest =>
      st ← visit_map scan_node depth rest st (mkObject ∅ 0 0) entries;
      Ok (st, RootObject)
  | JBroken => Err InvalidError
  end.

Section scan.
Context `{JsonStream}.

(** The scan of a whole document; the error keeps whether a budget was exceeded. *)
Definition scan_json_with_limits (input : string) (limits : JsonScanLimits)
    : ScanResult JsonRootKind :=
  let document := json_stream input in
  r ← scan_node (ScanState_new limits) 1 (jd_root document);
  if jd_ended document then Ok r.2 else Err InvalidError.

(** Either error becomes the JSON error of the context. *)
Definition reject_duplicate_json_keys (input : string) (context : string)
    : LResult JsonRootKind :=
  match scan_json_with_limits input unbounded with
  | Ok kind => Ok kind
  | Err _ => Err (Json context)
  end.
End scan.
