(* ===== verification/JsonScanSpec.v ===== *)
(** * What the JSON scan accepts

    A document is accepted exactly when it is complete (no syntax error, no
    duplicate key, finite numbers) and in budget (depth, nodes, keys, decoded
    bytes, and the keys of each object); an error that is not a budget error
    means that it is not complete, a budget error that it is not in budget. *)

From S2P Require Import Prelude Encoding Trajectory F64 Errors JsonScan.
From stdpp Require Import options.

(** Induction that reaches the nodes inside lists. *)
Section json_ind.
Variable P : JsonNode → Prop.
Hypothesis (H0 : P JNull) (Hb : ∀ b, P (JBool b)) (Hi : ∀ z, P (JInteger z)) (HN : ∀ x, P (JNumber x)) (Hs : ∀ s, P (JString s)) (HB : P JBroken)
  (HA : ∀ items closed, Forall P items → P (JArray items closed))
  (HO : ∀ entries rest, Forall (λ kv, P kv.2) entries → P (JObject entries rest)).
Fixpoint JsonNode_nested_ind (node : JsonNode) : P node :=
  match node with
  | JNull => H0
  | JBool b => Hb b
  | JInteger z => Hi z
  | JNumber x => HN x
  | JString s => Hs s
  | JArray items closed =>
      HA items closed ((fix go l := match l return Forall P l with
        | [] => Forall_nil_2 _
        | x :: l => Forall_cons_2 _ x l (JsonNode_nested_ind x) (go l)
        end) items)
  | JObject entries rest =>
      HO entries rest ((fix go l := match l return Forall (λ kv, P kv.2) l with
        | [] => Forall_nil_2 _
        | (k, x) :: l => Forall_cons_2 _ (k, x) l (JsonNode_nested_ind x) (go l)
        end) entries)
  | JBroken => HB
  end.
End json_ind.

(* ------------------------------------------------------------------ *)
(** ** Completeness and use of resources *)

(** The keys delivered for an object, the one without a value included. *)
Definition rest_keys (rest : JsonRest) : list string :=
  match rest with RBrokenValue key => [key] | _ => [] end.

Fixpoint complete (node : JsonNode) : bool :=
  match node with
  | JNull | JBool _ | JInteger _ | JString _ => true
  | JNumber x => f64_is_finite x
  | JArray items closed => closed && forallb complete items
  | JObject entries rest =>
      match rest with RClosed => true | _ => false end
      && bool_decide (NoDup entries.*1) && forallb (λ kv, complete kv.2) entries
  | JBroken => false
  end.

Fixpoint node_count (node : JsonNode) : Z :=
  1 + match node with
      | JArray items _ => sum_of node_count items
      | JObject entries _ => sum_of (λ kv, node_count kv.2) entries
      | _ => 0
      end.

Fixpoint key_count (node : JsonNode) : Z :=
  match node with
  | JArray items _ => sum_of key_count items
  | JObject entries rest =>
      sum_of (λ kv, 1 + key_count kv.2)%Z entries + sum_of (λ _, 1%Z) (rest_keys rest)
  | _ => 0
  end.

Fixpoint string_bytes (node : JsonNode) : Z :=
  match node with
  | JString s => byte_len s
  | JArray items _ => sum_of string_bytes items
  | JObject entries rest =>
      sum_of (λ kv, byte_len kv.1 + string_bytes kv.2)%Z entries + sum_of byte_len (rest_keys rest)
  | _ => 0
  end.

(** Levels of nodes below and including this one, and levels the scanner counts
    on entering a non-empty container. *)
Fixpoint levels (node : JsonNode) : Z :=
  1 + match node with
      | JArray items _ => max_of levels items
      | JObject entries _ => max_of (λ kv, levels kv.2) entries
      | _ => 0
      end.
Fixpoint nesting (node : JsonNode) : Z :=
  match node with
  | JArray items _ => 1 + max_of nesting items
  | JObject entries rest =>
      max_of (λ kv, 1 + nesting kv.2)%Z entries `max` max_of (λ _, 1%Z) (rest_keys rest)
  | _ => 0
  end.

(** The limits on the keys of each object. *)
Fixpoint objects_small (node : JsonNode) : bool :=
  match node with
  | JArray items _ => forallb objects_small items
  | JObject entries rest =>
      let keys := entries.*1 ++ rest_keys rest in
      (vec_len keys <=? MAX_JSON_KEYS_PER_OBJECT_V0)%Z
      && (sum_of byte_len keys <=? MAX_JSON_KEY_BYTES_PER_OBJECT_V0)%Z
      && forallb (λ kv, objects_small kv.2) entries
  | _ => true
  end.

(** The limits leave room, in a state and at a depth, for so many levels,
    nested containers, nodes, keys and bytes. *)
Definition room (st : ScanState) (depth lv ns n k b : Z) : Prop :=
  (depth + lv - 1 ≤ u64_val (max_depth (sc_limits st)) ∧ depth + ns < 2 ^ 64 ∧
   sc_nodes st + n ≤ u64_val (max_nodes (sc_limits st)) ∧
   sc_total_keys st + k ≤ u64_val (max_total_keys (sc_limits st)) ∧
   sc_decoded_string_bytes st + b ≤ u64_val (max_decoded_string_bytes (sc_limits st)))%Z.

Definition in_budget (st : ScanState) (depth : Z) (node : JsonNode) : Prop :=
  room st depth (levels node) (nesting node) (node_count node) (key_count node) (string_bytes node) ∧
  objects_small node = true.

(** The counters after a node. *)
Definition advance (st : ScanState) (node : JsonNode) : ScanState :=
  mkScan (sc_limits st) (sc_nodes st + node_count node) (sc_total_keys st + key_count node)
    (sc_decoded_string_bytes st + string_bytes node).

Definition root_kind (node : JsonNode) : JsonRootKind :=
  match node with JObject _ _ => RootObject | _ => RootNonObject end.

Lemma usage_nonneg node :
  (1 ≤ node_count node ∧ 0 ≤ key_count node ∧ 0 ≤ string_bytes node ∧ 1 ≤ levels node ∧ 0 ≤ nesting node)%Z.
Proof.
  induction node as [| | | | | |items closed IH|entries rest IH] using JsonNode_nested_ind;
    simpl; try (split_and!; lia || apply byte_len_nonneg).
  - rewrite Forall_forall in IH.
    pose proof (max_of_nonneg levels items). pose proof (max_of_nonneg nesting items).
    pose proof (sum_of_nonneg node_count items ltac:(intros x Hx; destruct (IH x Hx); lia)).
    pose proof (sum_of_nonneg key_count items ltac:(intros x Hx; destruct (IH x Hx); lia)).
    pose proof (sum_of_nonneg string_bytes items ltac:(intros x Hx; destruct (IH x Hx); lia)).
    lia.
  - rewrite Forall_forall in IH.
    pose proof (max_of_nonneg (λ kv : string * JsonNode, levels kv.2) entries).
    pose proof (max_of_nonneg (λ kv : string * JsonNode, 1 + nesting kv.2)%Z entries).
    pose proof (sum_of_nonneg (λ kv : string * JsonNode, node_count kv.2) entries
                  ltac:(intros x Hx; destruct (IH x Hx); lia)).
    pose proof (sum_of_nonneg (λ kv : string * JsonNode, 1 + key_count kv.2)%Z entries
                  ltac:(intros x Hx; destruct (IH x Hx); lia)).
    pose proof (sum_of_nonneg (λ kv : string * JsonNode, byte_len kv.1 + string_bytes kv.2)%Z entries
                  ltac:(intros x Hx; destruct (IH x Hx); pose proof (byte_len_nonneg x.1); lia)).
    destruct rest as [| |key]; simpl; try pose proof (byte_len_nonneg key); lia.
Qed.

(* ------------------------------------------------------------------ *)
(** ** The counters *)

(** Every limited addition of the scanner. *)
Definition limited_add (a b limit : Z) : ScanResult Z :=
  x ← ok_or (checked_add a b) BudgetError;
  if (limit <? x)%Z then Err BudgetError else Ok x.

Lemma limited_add_cases a b (limit : u64) :
  (limited_add a b (u64_val limit) = Ok (a + b)%Z ∧ (a + b ≤ u64_val limit)%Z) ∨
  (limited_add a b (u64_val limit) = Err BudgetError ∧ (u64_val limit < a + b)%Z).
Proof.
  unfold limited_add, checked_add. pose proof (u64_range limit).
  destruct (Z.ltb_spec (a + b) (2 ^ 64)); simpl; [|right; split; [done|lia]].
  destruct (Z.ltb_spec (u64_val limit) (a + b)); [right|left]; done.
Qed.

Definition bump (st : ScanState) (n k b : Z) : ScanState :=
  mkScan (sc_limits st) (sc_nodes st + n) (sc_total_keys st + k) (sc_decoded_string_bytes st + b).

Lemma advance_bump st node : advance st node = bump st (node_count node) (key_count node) (string_bytes node).
Proof. done. Qed.

Lemma bump_0 st : bump st 0 0 0 = st.
Proof. destruct st. unfold bump; simpl. f_equal; lia. Qed.

Lemma bump_bump st n k b n' k' b' : bump (bump st n k b) n' k' b' = bump st (n + n') (k + k') (b + b').
Proof. unfold bump; simpl. f_equal; lia. Qed.

Lemma enter_node_cases st depth :
  (enter_node st depth = Ok (bump st 1 0 0) ∧
     (depth ≤ u64_val (max_depth (sc_limits st)))%Z ∧
     (sc_nodes st + 1 ≤ u64_val (max_nodes (sc_limits st)))%Z) ∨
  (enter_node st depth = Err BudgetError ∧
     ((u64_val (max_depth (sc_limits st)) < depth)%Z ∨
      (u64_val (max_nodes (sc_limits st)) < sc_nodes st + 1)%Z)).
Proof.
  unfold enter_node. destruct (Z.ltb_spec (u64_val (max_depth (sc_limits st))) depth); [right; eauto|].
  destruct (limited_add_cases (sc_nodes st) 1 (max_nodes (sc_limits st))) as [[Ha ?]|[Ha ?]];
    unfold limited_add in Ha; destruct (ok_or _ _) as [x|e]; cbn [mbind Result_bind] in *;
    try case_match; simplify_eq; [left|right; eauto..].
  split; [|lia]. unfold bump. by rewrite !Z.add_0_r.
Qed.

Lemma add_string_cases st n :
  (add_string st n = Ok (bump st 0 0 n) ∧
     (sc_decoded_string_bytes st + n ≤ u64_val (max_decoded_string_bytes (sc_limits st)))%Z) ∨
  (add_string st n = Err BudgetError ∧
     (u64_val (max_decoded_string_bytes (sc_limits st)) < sc_decoded_string_bytes st + n)%Z).
Proof.
  unfold add_string.
  destruct (limited_add_cases (sc_decoded_string_bytes st) n (max_decoded_string_bytes (sc_limits st)))
    as [[Ha ?]|[Ha ?]];
    unfold limited_add in Ha; destruct (ok_or _ _) as [x|e]; cbn [mbind Result_bind] in *;
    try case_match; simplify_eq; [left|right; eauto..].
  split; [|lia]. unfold bump. by rewrite !Z.add_0_r.
Qed.

Lemma add_key_cases st n :
  (add_key st n = Ok (bump st 0 1 n) ∧
     (sc_total_keys st + 1 ≤ u64_val (max_total_keys (sc_limits st)))%Z ∧
     (sc_decoded_string_bytes st + n ≤ u64_val (max_decoded_string_bytes (sc_limits st)))%Z) ∨
  (add_key st n = Err BudgetError ∧
     ((u64_val (max_total_keys (sc_limits st)) < sc_total_keys st + 1)%Z ∨
      (u64_val (max_decoded_string_bytes (sc_limits st)) < sc_decoded_string_bytes st + n)%Z)).
Proof.
  unfold add_key.
  destruct (limited_add_cases (sc_total_keys st) 1 (max_total_keys (sc_limits st))) as [[Ha ?]|[Ha ?]];
    unfold limited_add in Ha; destruct (ok_or _ _) as [x|e]; cbn [mbind Result_bind] in *;
    try case_match; simplify_eq; [|right; eauto..].
  destruct (add_string_cases (mkScan (sc_limits st) (sc_nodes st) (sc_total_keys st + 1)
              (sc_decoded_string_bytes st)) n) as [[-> ?]|[-> ?]]; simpl in *; [left|right; eauto].
  split; [|lia]. unfold bump; simpl. f_equal. f_equal; lia.
Qed.

Lemma next_depth_cases depth :
  (next_depth depth = Ok (depth + 1)%Z ∧ (depth + 1 < 2 ^ 64)%Z) ∨
  (next_depth depth = Err BudgetError ∧ (2 ^ 64 ≤ depth + 1)%Z).
Proof.
  unfold next_depth, checked_add. destruct (Z.ltb_spec (depth + 1) (2 ^ 64)); [left|right]; done.
Qed.

(** The object being read when [before] are the keys already accepted. *)
Definition object_after (before : list string) : ObjectState :=
  mkObject (list_to_set before) (vec_len before) (sum_of byte_len before).

Definition keys_small (keys : list string) : Prop :=
  (vec_len keys ≤ MAX_JSON_KEYS_PER_OBJECT_V0 ∧ sum_of byte_len keys ≤ MAX_JSON_KEY_BYTES_PER_OBJECT_V0)%Z.

Lemma object_after_cons key before :
  mkObject ({[key]} ∪ list_to_set before) (vec_len before + 1) (sum_of byte_len before + byte_len key) =
  object_after (key :: before).
Proof. unfold object_after. rewrite vec_len_cons. simpl. f_equal; lia. Qed.

Lemma visit_key_cases st before key :
  (visit_key st (object_after before) key =
     Ok (bump st 0 1 (byte_len key), object_after (key :: before)) ∧
   (key ∉ before) ∧ keys_small (key :: before) ∧
   (sc_total_keys st + 1 ≤ u64_val (max_total_keys (sc_limits st)))%Z ∧
   (sc_decoded_string_bytes st + byte_len key ≤ u64_val (max_decoded_string_bytes (sc_limits st)))%Z) ∨
  (visit_key st (object_after before) key = Err BudgetError ∧
     (¬ keys_small (key :: before) ∨
      (u64_val (max_total_keys (sc_limits st)) < sc_total_keys st + 1)%Z ∨
      (u64_val (max_decoded_string_bytes (sc_limits st)) < sc_decoded_string_bytes st + byte_len key)%Z)) ∨
  (visit_key st (object_after before) key = Err InvalidError ∧ key ∈ before).
Proof.
  unfold visit_key. case_bool_decide as Hin; simpl in Hin; rewrite elem_of_list_to_set in Hin.
  { right; right. done. }
  pose proof (limited_add_cases (vec_len before) 1 (u64_lit MAX_JSON_KEYS_PER_OBJECT_V0)) as H1.
  pose proof (limited_add_cases (sum_of byte_len before) (byte_len key)
                (u64_lit MAX_JSON_KEY_BYTES_PER_OBJECT_V0)) as H2.
  change (u64_val (u64_lit MAX_JSON_KEYS_PER_OBJECT_V0)) with MAX_JSON_KEYS_PER_OBJECT_V0 in H1.
  change (u64_val (u64_lit MAX_JSON_KEY_BYTES_PER_OBJECT_V0)) with MAX_JSON_KEY_BYTES_PER_OBJECT_V0 in H2.
  unfold keys_small. rewrite vec_len_cons. cbn [sum_of].
  cbn [ob_key_count ob_key_bytes ob_keys object_after]. unfold limited_add in H1, H2.
  destruct (ok_or (checked_add (vec_len before) 1) _) as [n|e];
    cbn [mbind Result_bind] in *; [|right; left; destruct H1 as [[]|[]]; simplify_eq; split; [done|lia]].
  destruct (Z.ltb_spec MAX_JSON_KEYS_PER_OBJECT_V0 n);
    [right; left; destruct H1 as [[]|[]]; simplify_eq; split; [done|lia]|].
  destruct H1 as [[[= ->] ?]|[]]; [|done].
  destruct (ok_or (checked_add (sum_of byte_len before) (byte_len key)) _) as [m|e];
    cbn [mbind Result_bind] in *; [|right; left; destruct H2 as [[]|[]]; simplify_eq; split; [done|lia]].
  destruct (Z.ltb_spec MAX_JSON_KEY_BYTES_PER_OBJECT_V0 m);
    [right; left; destruct H2 as [[]|[]]; simplify_eq; split; [done|lia]|].
  destruct H2 as [[[= ->] ?]|[]]; [|done].
  destruct (add_key_cases st (byte_len key)) as [(-> & ? & ?)|(-> & ?)]; cbn [mbind Result_bind];
    [left|right; left; split; [done|lia]].
  rewrite object_after_cons. split_and!; try done; lia.
Qed.

(* ------------------------------------------------------------------ *)
(** ** The scan is exact *)

(** What the outcome of a scan says: [ok] and [room] of what was scanned. *)
Definition decides {A} (r : ScanResult A) (ok in_room : Prop) (result : A) : Prop :=
  match r with
  | Ok a => ok ∧ in_room ∧ a = result
  | Err BudgetError => ¬ in_room
  | Err InvalidError => ¬ ok
  end.

(** The counters are within the limits. *)
Definition counted (st : ScanState) : Prop :=
  (sc_nodes st ≤ u64_val (max_nodes (sc_limits st)) ∧
   sc_total_keys st ≤ u64_val (max_total_keys (sc_limits st)) ∧
   sc_decoded_string_bytes st ≤ u64_val (max_decoded_string_bytes (sc_limits st)))%Z.

Definition node_decides (node : JsonNode) : Prop :=
  ∀ st depth, counted st → decides (scan_node st depth node) (complete node = true) (in_budget st depth node)
    (advance st node, root_kind node).

(** Both the state and the depth are within the limits. *)
Definition within (st : ScanState) (depth : Z) : Prop := room st depth 0 0 0 0 0.

Definition seq_room (st : ScanState) (depth : Z) (items : list JsonNode) : Prop :=
  room st depth (max_of levels items) (max_of nesting items)
    (sum_of node_count items) (sum_of key_count items) (sum_of string_bytes items) ∧
  forallb objects_small items = true.

Lemma visit_seq_decides st depth closed items :
  within st depth → Forall node_decides items →
  decides (visit_seq scan_node depth closed st items)
    (closed = true ∧ forallb complete items = true) (seq_room st depth items)
    (bump st (sum_of node_count items) (sum_of key_count items) (sum_of string_bytes items)).
Proof.
  intros Hw Hall. revert st Hw. induction Hall as [|node items Hn Hall IH]; intros st Hw.
  { simpl. destruct closed; simpl; [|by intros []]. by rewrite bump_0. }
  cbn [visit_seq]. specialize (Hn st depth ltac:(unfold counted, within, room in *; lia)).
  pose proof (usage_nonneg node) as (? & ? & ? & ? & ?).
  assert (Hs : (0 ≤ max_of levels items ∧ 0 ≤ max_of nesting items)%Z) by (split; apply max_of_nonneg).
  assert (0 ≤ sum_of node_count items ∧ 0 ≤ sum_of key_count items ∧ 0 ≤ sum_of string_bytes items)%Z
    as (? & ? & ?) by (split_and!; apply sum_of_nonneg; intros x _; pose proof (usage_nonneg x); lia).
  destruct (scan_node st depth node) as [[st' kind]|[]]; simpl in Hn |- *.
  - destruct Hn as (Hc & [Hr Ho] & [= -> _]). rewrite advance_bump.
    unfold within, seq_room, room, in_budget in *; simpl in *.
    specialize (IH (bump st (node_count node) (key_count node) (string_bytes node)) ltac:(simpl; lia)).
    destruct (visit_seq _ _ _ _ items) as [st''|[]]; simpl in IH |- *.
    + destruct IH as ((-> & ->) & (? & ->) & ->). rewrite Hc, Ho, bump_bump. split_and!; done || lia.
    + intros [? Hos]. rewrite Ho in Hos. apply IH. split; [lia|done].
    + intros [? Hcs]. rewrite Hc in Hcs. by apply IH.
  - unfold seq_room, in_budget, room in *; simpl in *. intros [? [? ?]%andb_true_iff]. apply Hn. split; [lia|done].
  - simpl. intros [_ [? ?]%andb_true_iff]. done.
Qed.

Definition keys_room (before keys : list string) : Prop :=
  (vec_len before + vec_len keys ≤ MAX_JSON_KEYS_PER_OBJECT_V0 ∧
   sum_of byte_len before + sum_of byte_len keys ≤ MAX_JSON_KEY_BYTES_PER_OBJECT_V0)%Z.

Definition map_room (st : ScanState) (depth : Z) (before : list string)
    (entries : list (string * JsonNode)) (rest : JsonRest) : Prop :=
  room st depth (1 + max_of (λ kv, levels kv.2) entries)
    (max_of (λ kv, 1 + nesting kv.2)%Z entries `max` max_of (λ _, 1%Z) (rest_keys rest))
    (sum_of (λ kv, node_count kv.2) entries)
    (sum_of (λ kv, 1 + key_count kv.2)%Z entries + sum_of (λ _, 1%Z) (rest_keys rest))
    (sum_of (λ kv, byte_len kv.1 + string_bytes kv.2)%Z entries + sum_of byte_len (rest_keys rest)) ∧
  keys_room before (entries.*1 ++ rest_keys rest) ∧
  forallb (λ kv, objects_small kv.2) entries = true.

Definition map_ok (before : list string) (entries : list (string * JsonNode)) (rest : JsonRest) : Prop :=
  rest = RClosed ∧ NoDup entries.*1 ∧ (∀ key, key ∈ entries.*1 → key ∉ before) ∧
  forallb (λ kv, complete kv.2) entries = true.

Definition after_map (st : ScanState) (entries : list (string * JsonNode)) : ScanState :=
  bump st (sum_of (λ kv, node_count kv.2) entries) (sum_of (λ kv, 1 + key_count kv.2)%Z entries)
    (sum_of (λ kv, byte_len kv.1 + string_bytes kv.2)%Z entries).

Lemma visit_map_end st depth before rest :
  room st depth 1 0 0 0 0 → keys_small before →
  decides (visit_map scan_node depth rest st (object_after before) [])
    (map_ok before [] rest) (map_room st depth before [] rest) st.
Proof.
  intros Hw Hk. destruct rest as [| |key]; simpl.
  - unfold map_ok, map_room, keys_room, keys_small, room, vec_len in *; simpl.
    split_and!; try done; try lia; [constructor|set_solver].
  - by intros [].
  - destruct (visit_key_cases st before key) as [(-> & _)|[(-> & Hr)|(-> & _)]]; simpl.
    + destruct (next_depth_cases depth) as [[-> ?]|[-> ?]]; simpl; [by intros []|].
      unfold map_room, room; simpl. lia.
    + unfold map_room, keys_room, keys_small, room, vec_len in *; simpl in *. lia.
    + by intros [].
Qed.

(** The totals of a list of entries are not negative. *)
Lemma entries_nonneg (entries : list (string * JsonNode)) :
  (0 ≤ sum_of (λ kv, node_count kv.2) entries ∧ 0 ≤ sum_of (λ kv, 1 + key_count kv.2) entries ∧
   0 ≤ sum_of (λ kv, byte_len kv.1 + string_bytes kv.2) entries ∧
   0 ≤ max_of (λ kv, levels kv.2) entries ∧ 0 ≤ max_of (λ kv, 1 + nesting kv.2) entries)%Z.
Proof.
  split_and!; try apply max_of_nonneg; apply sum_of_nonneg; intros x _;
    pose proof (usage_nonneg x.2); pose proof (byte_len_nonneg x.1); lia.
Qed.

Lemma keys_nonneg (keys : list string) :
  (0 ≤ vec_len keys ∧ 0 ≤ sum_of byte_len keys ∧ 0 ≤ sum_of (λ _, 1) keys ∧ 0 ≤ max_of (λ _, 1) keys)%Z.
Proof.
  split_and!; [unfold vec_len; lia|apply sum_of_nonneg..|apply max_of_nonneg];
    intros x _; [apply byte_len_nonneg|lia].
Qed.

(** [simpl] unfolds the projection of the keys. *)
Ltac refold_keys entries :=
  change (list_fmap (string * JsonNode)%type string fst entries) with (entries.*1) in *.

Lemma visit_map_decides st depth before entries rest :
  room st depth 1 0 0 0 0 → keys_small before → Forall (λ kv, node_decides kv.2) entries →
  decides (visit_map scan_node depth rest st (object_after before) entries)
    (map_ok before entries rest) (map_room st depth before entries rest) (after_map st entries).
Proof.
  intros Hw Hk Hall. revert st before Hw Hk.
  induction Hall as [|[key node] entries Hn Hall IH]; intros st before Hw Hk.
  { unfold after_map; simpl. rewrite bump_0. by apply visit_map_end. }
  cbn [visit_map]. pose proof (usage_nonneg node) as (? & ? & ? & ? & ?).
  pose proof (entries_nonneg entries) as (? & ? & ? & ? & ?). pose proof (byte_len_nonneg key).
  pose proof (keys_nonneg (entries.*1 ++ rest_keys rest)) as (? & ? & _ & _).
  pose proof (keys_nonneg (rest_keys rest)) as (_ & ? & ? & ?).
  destruct (visit_key_cases st before key) as [(-> & Hnew & Hk' & ? & ?)|[(-> & Hr)|(-> & Hold)]];
    cbn [mbind Result_bind fst snd].
  2: { cbn [decides]. unfold map_room, room, keys_room, keys_small in *. simpl in *. refold_keys entries. rewrite !vec_len_cons in *. lia. }
  2: { cbn [decides]. intros (_ & _ & Hnb & _). apply (Hnb key); [simpl; set_solver|done]. }
  destruct (next_depth_cases depth) as [[-> ?]|[-> ?]]; cbn [mbind Result_bind fst snd].
  2: { cbn [decides]. unfold map_room, room; simpl. lia. }
  specialize (Hn (bump st 0 1 (byte_len key)) (depth + 1)%Z
    ltac:(unfold counted, room in *; simpl; lia)). cbn [snd] in Hn.
  destruct (scan_node _ _ node) as [[st' kind]|[]]; cbn [mbind Result_bind fst snd decides] in Hn |- *.
  - destruct Hn as (Hc & [Hr Ho] & [= -> _]). rewrite advance_bump, bump_bump.
    unfold room in *; simpl in *.
    specialize (IH (bump st (0 + node_count node) (1 + key_count node) (byte_len key + string_bytes node))
      (key :: before) ltac:(unfold room; simpl; lia) Hk').
    destruct (visit_map _ _ _ _ _ entries) as [st''|[]]; cbn [mbind Result_bind fst snd decides] in IH |- *.
    + destruct IH as ((-> & Hnd & Hnb & Hcs) & ((? & ? & ? & ? & ?) & [? ?] & Hos) & ->).
      unfold after_map. rewrite bump_bump. unfold map_ok, map_room, room, keys_room in *; simpl in *. refold_keys entries.
      rewrite Hc, Ho, !vec_len_cons in *. split_and!; try done; try lia.
      * constructor; [|done]. intros Hin. apply (Hnb key Hin). by left.
      * intros k [->|Hk2]%elem_of_cons; [done|]. intros Hb. apply (Hnb k Hk2). by right.
    + intros ((? & ? & ? & ? & ?) & [Hv Hs] & [_ Hos]%andb_true_iff). apply IH.
      unfold map_room, room, keys_room in *. simpl in *. refold_keys entries. rewrite !vec_len_cons in *.
      split_and!; done || lia.
    + intros (-> & [? ?]%NoDup_cons & Hnb & [_ Hcs]%andb_true_iff). apply IH.
      split_and!; try done. intros k Hin [->|Hk2]%elem_of_cons; [done|]. apply (Hnb k); [by right|done].
  - intros ((? & ? & ? & ? & ?) & _ & [Ho _]%andb_true_iff). apply Hn.
    unfold in_budget, room in *; simpl in *. split; [lia|done].
  - intros (_ & _ & _ & [Hc _]%andb_true_iff). done.
Qed.

Lemma not_in_budget_entered st depth node :
  (u64_val (max_depth (sc_limits st)) < depth ∨ u64_val (max_nodes (sc_limits st)) < sc_nodes st + 1)%Z →
  ¬ in_budget st depth node.
Proof. pose proof (usage_nonneg node). unfold in_budget, room. lia. Qed.

Lemma entered_room st depth :
  counted st → (depth ≤ u64_val (max_depth (sc_limits st)))%Z →
  (sc_nodes st + 1 ≤ u64_val (max_nodes (sc_limits st)))%Z → room (bump st 1 0 0) depth 1 0 0 0 0.
Proof. pose proof (u64_range (max_depth (sc_limits st))). unfold counted, room. simpl. lia. Qed.

Lemma array_decides items closed : Forall node_decides items → node_decides (JArray items closed).
Proof.
  intros Hall st depth Hst. cbn [scan_node].
  destruct (enter_node_cases st depth) as [(-> & ? & ?)|(-> & ?)]; cbn [mbind Result_bind];
    [|by apply not_in_budget_entered].
  pose proof (entered_room st depth ltac:(done) ltac:(done) ltac:(done)) as Hw.
  destruct (next_depth_cases depth) as [[-> ?]|[-> ?]]; cbn [mbind Result_bind].
  2: { cbn [decides]. unfold in_budget, room. simpl. pose proof (max_of_nonneg nesting items). lia. }
  pose proof (visit_seq_decides (bump st 1 0 0) (depth + 1) closed items) as Hs.
  unfold within, room in *; simpl in *. specialize (Hs ltac:(lia) Hall).
  destruct (visit_seq _ _ _ _ items) as [st'|[]]; cbn [mbind Result_bind decides] in Hs |- *.
  - destruct Hs as ([-> Hc] & [(? & ? & ? & ? & ?) Ho] & ->). unfold in_budget, room; simpl in *.
    split_and!; try done; try lia. rewrite advance_bump, bump_bump. by simpl.
  - unfold in_budget, seq_room, room in *; simpl in *. intros [? Ho]. apply Hs. split; [lia|done].
  - simpl. intros [? ?]%andb_true_iff. by apply Hs.
Qed.

Lemma object_decides entries rest :
  Forall (λ kv, node_decides kv.2) entries → node_decides (JObject entries rest).
Proof.
  intros Hall st depth Hst. cbn [scan_node].
  destruct (enter_node_cases st depth) as [(-> & ? & ?)|(-> & ?)]; cbn [mbind Result_bind];
    [|by apply not_in_budget_entered].
  pose proof (entered_room st depth ltac:(done) ltac:(done) ltac:(done)) as Hw.
  pose proof (visit_map_decides (bump st 1 0 0) depth [] entries rest Hw ltac:(done) Hall) as Hs.
  change (object_after []) with (mkObject ∅ 0 0) in Hs.
  assert (Hr : in_budget st depth (JObject entries rest) ↔ map_room (bump st 1 0 0) depth [] entries rest).
  { unfold in_budget, map_room, keys_room, room; simpl. refold_keys entries.
    change (vec_len (@nil string)) with 0%Z. rewrite !andb_true_iff, !Z.leb_le.
    split; [intros ((? & ? & ? & ? & ?) & [? ?] & ?)|intros ((? & ? & ? & ? & ?) & [? ?] & ?)];
      split_and!; done || lia. }
  assert (Hc : complete (JObject entries rest) = true ↔ map_ok [] entries rest).
  { unfold map_ok; simpl. refold_keys entries. rewrite !andb_true_iff, bool_decide_eq_true.
    split; [intros [[??]?]|intros (-> & ? & _ & ?)]; [|done].
    destruct rest; try done. split_and!; try done. set_solver. }
  destruct (visit_map _ _ _ _ _ entries) as [st'|[]]; cbn [mbind Result_bind decides] in Hs |- *.
  - rewrite Hr, Hc. destruct Hs as (Hok & ? & ->). split_and!; try done.
    unfold after_map. rewrite advance_bump, bump_bump. destruct Hok as (-> & _). simpl.
    by rewrite !Z.add_0_r, !Z.add_0_l.
  - by rewrite Hr.
  - by rewrite Hc.
Qed.

Lemma scan_node_decides node : node_decides node.
Proof.
  induction node as [|b|z|x|s| |items closed IH|entries rest IH] using JsonNode_nested_ind.
  1-6: intros st depth Hst; cbn [scan_node];
    destruct (enter_node_cases st depth) as [(-> & ? & ?)|(-> & ?)]; cbn [mbind Result_bind];
    [|by apply not_in_budget_entered].
  1-6: pose proof (entered_room st depth ltac:(done) ltac:(done) ltac:(done)) as Hw.
  1-3: unfold decides, in_budget, room, advance, bump in *; simpl in *; rewrite !Z.add_0_r in *;
    split_and!; try done; lia.
  - destruct (f64_is_finite x) eqn:Hx; simpl; rewrite Hx; [|done].
    unfold in_budget, room, advance, bump in *; simpl in *. rewrite !Z.add_0_r in *.
    split_and!; try done; lia.
  - destruct (add_string_cases (bump st 1 0 0) (byte_len s)) as [[-> ?]|[-> ?]];
      cbn [mbind Result_bind decides]; [|unfold in_budget, room; simpl in *; lia].
    rewrite bump_bump. unfold in_budget, room, advance, bump in *; simpl in *.
    rewrite !Z.add_0_r, ?Z.add_0_l in *. split_and!; try done; lia.
  - done.
  - by apply array_decides.
  - by apply object_decides.
Qed.

(* ------------------------------------------------------------------ *)
(** ** Documents *)

Section documents.
Context `{JsonStream}.

(** Complete, and followed by nothing. *)
Definition complete_document (document : JsonDocument) : Prop :=
  complete (jd_root document) = true ∧ jd_ended document = true.

Definition document_in_budget (document : JsonDocument) (limits : JsonScanLimits) : Prop :=
  in_budget (ScanState_new limits) 1 (jd_root document).

Lemma scan_json_cases input limits :
  let document := json_stream input in
  (∀ kind, scan_json_with_limits input limits = Ok kind ↔
     complete_document document ∧ document_in_budget document limits ∧
     kind = root_kind (jd_root document)) ∧
  (complete_document document → ¬ document_in_budget document limits →
     scan_json_with_limits input limits = Err BudgetError) ∧
  (¬ complete_document document → document_in_budget document limits →
     scan_json_with_limits input limits = Err InvalidError).
Proof.
  intros document. unfold scan_json_with_limits, complete_document, document_in_budget.
  fold document.
  assert (counted (ScanState_new limits)) as Hc.
  { unfold counted; simpl. pose proof (u64_range (max_nodes limits)).
    pose proof (u64_range (max_total_keys limits)).
    pose proof (u64_range (max_decoded_string_bytes limits)). lia. }
  pose proof (scan_node_decides (jd_root document) _ 1%Z Hc) as Hs.
  destruct (scan_node _ _ _) as [[st kind]|[]]; simpl in *.
  - destruct Hs as (Hcomplete & Hroom & [= _ ->]). destruct (jd_ended document); simpl.
    + naive_solver.
    + naive_solver.
  - split_and!; [|done|naive_solver]. intros kind. split; [done|naive_solver].
  - split_and!; [|naive_solver|done]. intros kind. split; [done|naive_solver].
Qed.

(** Looser limits accept as much. *)
Lemma scan_json_looser input limits limits' kind :
  (u64_val (max_depth limits) ≤ u64_val (max_depth limits') ∧ u64_val (max_nodes limits) ≤ u64_val (max_nodes limits') ∧
   u64_val (max_total_keys limits) ≤ u64_val (max_total_keys limits') ∧
   u64_val (max_decoded_string_bytes limits) ≤ u64_val (max_decoded_string_bytes limits'))%Z →
  scan_json_with_limits input limits = Ok kind → scan_json_with_limits input limits' = Ok kind.
Proof.
  intros Hl (Hc & Hb & Hk)%scan_json_cases. apply scan_json_cases. split_and!; [done| |done].
  unfold document_in_budget, in_budget, room in *. cbn [ScanState_new sc_limits sc_nodes sc_total_keys sc_decoded_string_bytes] in *.
  split; [|tauto]. destruct Hb as [Hb _]. lia.
Qed.

(** C24: the bounded scan of untrusted JSON accepts a document, with the kind of
    its root, exactly when it is complete (no syntax error, no duplicate key at
    any depth, no infinite number, nothing after it) and within every limit; a
    complete document can only be rejected with a budget error, and a document
    within the limits only with a syntax error. *)
Theorem json_scan_exact input limits :
  let document := json_stream input in
  (∀ kind, scan_json_with_limits input limits = Ok kind ↔
     complete_document document ∧ document_in_budget document limits ∧
     kind = root_kind (jd_root document)) ∧
  (complete_document document → ¬ document_in_budget document limits →
     scan_json_with_limits input limits = Err BudgetError) ∧
  (¬ complete_document document → document_in_budget document limits →
     scan_json_with_limits input limits = Err InvalidError).
Proof. apply scan_json_cases. Qed.
End documents.
