(* ===== verification/TraceValidation.v ===== *)
(** * Validation of a trajectory trace (src/trajectory/{validation,interchange}.rs)

    The resource budget, the bound on the official JSON export, and the checks
    of bindings, digests, evidence, sequence and payload.  Counters are [usize]s
    threaded through; [raw_records[index]] is in range after the budget, which
    asks for as many records as events.  serde_json's serializer is the sequence
    of writes it makes and whether it then succeeds ([TraceSerializer]). *)

From S2P Require Import Prelude Encoding Trajectory F64 Errors JsonScan.
From Stdlib Require Import Ascii.
From stdpp Require Import options.

Definition invalid {A} (message : Message) : LResult A := Err (invalid_input message).

(* ------------------------------------------------------------------ *)
(** ** The bounded writer (interchange.rs) *)

Record BoundedWriter := mkWriter {
  bw_inner : string;
  bw_written : Z;
  bw_limit : Z;
  bw_limit_exceeded : bool;
}.

Definition BoundedWriter_new (limit : Z) : BoundedWriter := mkWriter "" 0 limit false.

(** [write]: whether it succeeded, and the writer after it.  The inner writers
    of the source, a vector and a sink, accept every byte. *)
Definition BoundedWriter_write (w : BoundedWriter) (bytes : string) : bool * BoundedWriter :=
  match checked_add (bw_written w) (byte_len bytes) with
  | None => (false, mkWriter (bw_inner w) (bw_written w) (bw_limit w) true)
  | Some next =>
      if (bw_limit w <? next)%Z
      then (false, mkWriter (bw_inner w) (bw_written w) (bw_limit w) true)
      else (true, mkWriter (bw_inner w +:+ bytes) next (bw_limit w) (bw_limit_exceeded w))
  end.

(** The writes of a serializer, up to the first one that fails. *)
Fixpoint write_all (w : BoundedWriter) (writes : list string) : bool * BoundedWriter :=
  match writes with
  | [] => (true, w)
  | bytes :: writes =>
      let '(ok, w) := BoundedWriter_write w bytes in
      if ok then write_all w writes else (false, w)
  end.

Class TraceSerializer := serialize_trace : TrajectoryTraceV0 → list string * bool.

Definition serialize_bounded_compact_json `{TraceSerializer} (trace : TrajectoryTraceV0)
    : LResult string :=
  let '(writes, succeeds) := serialize_trace trace in
  let '(ok, output) := write_all (BoundedWriter_new MAX_TRACE_COMPACT_JSON_BYTES_V0) writes in
  if bw_limit_exceeded output then
    invalid [Txt "trajectory trace official compact JSON exceeds v0 byte limit of ";
             Int MAX_TRACE_COMPACT_JSON_BYTES_V0]
  else if ok && succeeds then Ok (bw_inner output)
  else Err (Serialize "official compact trajectory JSON").

Definition validate_compact_json_size `{TraceSerializer} (trace : TrajectoryTraceV0) : LResult () :=
  _ ← serialize_bounded_compact_json trace; Ok ().

(* ------------------------------------------------------------------ *)
(** ** Sizes *)

Definition check_short_string (name value : string) (max_bytes : Z) (kind : string) : LResult () :=
  if (max_bytes <? byte_len value)%Z then
    invalid [Txt name; Txt " exceeds v0 "; Txt kind; Txt " byte limit of "; Int max_bytes]
  else Ok ().

Definition check_binding_sizes (name : string) (binding : ArtifactBindingV0) : LResult () :=
  _ ← check_short_string (name +:+ " identity") (ab_identity binding) 128 "artifact binding";
  _ ← check_short_string (name +:+ " version") (ab_version binding) 64 "artifact binding";
  check_short_string (name +:+ " hash") (ab_hash binding) 71 "digest".

Definition check_identifier_size (name : string) (value : option string) : LResult () :=
  if match value with Some value => (MAX_IDENTIFIER_BYTES_V0 <? byte_len value)%Z | None => false end then
    invalid [Txt name; Txt " exceeds v0 identifier byte limit of "; Int MAX_IDENTIFIER_BYTES_V0]
  else Ok ().

(* ------------------------------------------------------------------ *)
(** ** The resource budget *)

Abbreviation LocatorRange := (Z * Z * Z)%type.

Definition locator_range (locator : SourceLocatorV0) : LocatorRange :=
  (u64_val (sl_record_index locator), u64_val (sl_byte_offset locator),
   u64_val (sl_byte_length locator)).

Record PayloadBudget := mkBudget {
  payload_fields : Z;
  payload_content_bytes : Z;
  normalized_nodes : Z;
  evidence_locators : Z;
  distinct_ranges : gset LocatorRange;
  distinct_cited_bytes : Z;
}.

Definition PayloadBudget_default : PayloadBudget := mkBudget 0 0 0 0 ∅ 0.

Definition add_content_bytes (budget : PayloadBudget) (bytes : Z) : LResult PayloadBudget :=
  n ← ok_or (checked_add (payload_content_bytes budget) bytes)
        (invalid_input [Txt "payload content byte count overflow"]);
  if (MAX_PAYLOAD_CONTENT_BYTES_TOTAL_V0 <? n)%Z then
    invalid [Txt "payload content bytes exceed v0 total limit of ";
             Int MAX_PAYLOAD_CONTENT_BYTES_TOTAL_V0]
  else Ok (mkBudget (payload_fields budget) n (normalized_nodes budget)
             (evidence_locators budget) (distinct_ranges budget) (distinct_cited_bytes budget)).

Definition add_field (budget : PayloadBudget) (key_bytes : Z) : LResult PayloadBudget :=
  n ← ok_or (checked_add (payload_fields budget) 1)
        (invalid_input [Txt "payload field count overflow"]);
  if (MAX_PAYLOAD_FIELDS_TOTAL_V0 <? n)%Z then
    invalid [Txt "payload field count exceeds v0 total limit of "; Int MAX_PAYLOAD_FIELDS_TOTAL_V0]
  else
    add_content_bytes
      (mkBudget n (payload_content_bytes budget) (normalized_nodes budget)
         (evidence_locators budget) (distinct_ranges budget) (distinct_cited_bytes budget))
      key_bytes.

Definition add_locator (budget : PayloadBudget) (locator : SourceLocatorV0) : LResult PayloadBudget :=
  _ ← check_short_string "source-locator digest" (sl_digest locator) 71 "digest";
  n ← ok_or (checked_add (evidence_locators budget) 1)
        (invalid_input [Txt "evidence locator count overflow"]);
  if (MAX_EVIDENCE_LOCATORS_V0 <? n)%Z then
    invalid [Txt "evidence locator count exceeds v0 limit of "; Int MAX_EVIDENCE_LOCATORS_V0]
  else
    let range := locator_range locator in
    if bool_decide (range ∈ distinct_ranges budget) then
      Ok (mkBudget (payload_fields budget) (payload_content_bytes budget)
            (normalized_nodes budget) n (distinct_ranges budget) (distinct_cited_bytes budget))
    else
      cited ← ok_or (checked_add (distinct_cited_bytes budget) (u64_val (sl_byte_length locator)))
                (invalid_input [Txt "distinct cited byte count overflow"]);
      if (MAX_DISTINCT_CITED_BYTES_V0 <? cited)%Z then
        invalid [Txt "distinct cited bytes exceed v0 limit of "; Int MAX_DISTINCT_CITED_BYTES_V0]
      else
        Ok (mkBudget (payload_fields budget) (payload_content_bytes budget)
              (normalized_nodes budget) n ({[range]} ∪ distinct_ranges budget) cited).

Definition add_evidence (budget : PayloadBudget) (evidence : EvidenceV0) : LResult PayloadBudget :=
  match evidence with
  | CitesRawRange locator => add_locator budget locator
  | DeclaredDerivationBinding rule source_inputs =>
      _ ← check_binding_sizes "derivation rule" rule;
      if (MAX_DERIVATION_INPUTS_V0 <? vec_len source_inputs)%Z then
        invalid [Txt "derivation source input count exceeds v0 limit of ";
                 Int MAX_DERIVATION_INPUTS_V0]
      else try_fold add_locator budget source_inputs
  | Unavailable reason =>
      if (MAX_EVIDENCE_REASON_BYTES_V0 <? byte_len reason)%Z then
        invalid [Txt "unavailable evidence reason exceeds v0 byte limit of ";
                 Int MAX_EVIDENCE_REASON_BYTES_V0]
      else Ok budget
  end.

(** [add_normalized_value] up to its [match]. *)
Definition add_node (budget : PayloadBudget) (depth : Z) : LResult PayloadBudget :=
  if (MAX_NORMALIZED_DEPTH_V0 <? depth)%Z then
    invalid [Txt "normalized value depth exceeds v0 limit of "; Int MAX_NORMALIZED_DEPTH_V0]
  else
    n ← ok_or (checked_add (normalized_nodes budget) 1)
          (invalid_input [Txt "normalized node count overflow"]);
    if (MAX_NORMALIZED_NODES_V0 <? n)%Z then
      invalid [Txt "normalized node count exceeds v0 limit of "; Int MAX_NORMALIZED_NODES_V0]
    else
      Ok (mkBudget (payload_fields budget) (payload_content_bytes budget) n
            (evidence_locators budget) (distinct_ranges budget) (distinct_cited_bytes budget)).

Definition child_depth (depth : Z) : LResult Z :=
  ok_or (checked_add depth 1) (invalid_input [Txt "normalized value depth overflow"]).

Fixpoint add_normalized_value (budget : PayloadBudget) (value : NormalizedValueV0) (depth : Z)
    {struct value} : LResult PayloadBudget :=
  budget ← add_node budget depth;
  match value with
  | VArray values =>
      if (MAX_NORMALIZED_ARRAY_ITEMS_V0 <? vec_len values)%Z then
        invalid [Txt "normalized array size exceeds v0 limit of ";
                 Int MAX_NORMALIZED_ARRAY_ITEMS_V0]
      else
        depth ← child_depth depth;
        try_fold (λ budget value, add_normalized_value budget value depth) budget values
  | VObject values =>
      if (MAX_PAYLOAD_FIELDS_PER_OBJECT_V0 <? vec_len values)%Z then
        invalid [Txt "normalized object field count exceeds v0 per-object limit of ";
                 Int MAX_PAYLOAD_FIELDS_PER_OBJECT_V0]
      else
        depth ← child_depth depth;
        try_fold (λ budget '(field_name, value),
          _ ← check_short_string "normalized object field name" field_name 128 "artifact name";
          budget ← add_field budget (byte_len field_name);
          add_normalized_value budget value depth) budget values
  | VInteger value =>
      if (MAX_INTEGER_DIGITS_V0 + 1 <? byte_len value)%Z then
        invalid [Txt "normalized integer exceeds v0 digit limit of "; Int MAX_INTEGER_DIGITS_V0]
      else add_content_bytes budget (byte_len value)
  | VString value =>
      if (MAX_NORMALIZED_STRING_BYTES_V0 <? byte_len value)%Z then
        invalid [Txt "normalized string exceeds v0 byte limit of ";
                 Int MAX_NORMALIZED_STRING_BYTES_V0]
      else add_content_bytes budget (byte_len value)
  | VNull | VBoolean _ => Ok budget
  end.

(** One field of the payload. *)
Definition add_payload_field (budget : PayloadBudget)
    (entry : string * EvidencedV0 NormalizedValueV0) : LResult PayloadBudget :=
  let '(field_name, field) := entry in
  _ ← check_short_string "payload field name" field_name 128 "artifact name";
  budget ← add_field budget (byte_len field_name);
  budget ← add_evidence budget (ev_evidence field);
  match ev_value field with
  | Some value => add_normalized_value budget value 1
  | None => Ok budget
  end.

(** One iteration of the budget's loop over the events. *)
Definition add_event (budget : PayloadBudget) (event : AgentActionEventV0) : LResult PayloadBudget :=
  if (MAX_PAYLOAD_FIELDS_PER_OBJECT_V0 <? Z.of_nat (size (ae_payload event)))%Z then
    invalid [Txt "event payload field count exceeds v0 per-object limit of ";
             Int MAX_PAYLOAD_FIELDS_PER_OBJECT_V0]
  else
    budget ← add_evidence budget (ev_evidence (ae_event_id event));
    budget ← add_evidence budget (ev_evidence (ae_sequence_index event));
    budget ← add_evidence budget (ev_evidence (ae_kind event));
    _ ← check_short_string "raw-record digest" (rr_digest (ae_raw_record event)) 71 "digest";
    _ ← check_identifier_size "event_id" (ev_value (ae_event_id event));
    budget ←
      match ae_source_item_id event with
      | Some source_item_id =>
          budget ← add_evidence budget (ev_evidence source_item_id);
          _ ← check_identifier_size "source_item_id" (ev_value source_item_id);
          Ok budget
      | None => Ok budget
      end;
    try_fold add_payload_field budget (btree_iter (ae_payload event)).

(** One iteration of the budget's loop over the raw records. *)
Definition add_raw_record (raw_capture_bytes : Z) (record : string) : LResult Z :=
  if (MAX_RAW_RECORD_BYTES_V0 <? byte_len record)%Z then
    invalid [Txt "raw record bytes exceed v0 per-record limit of "; Int MAX_RAW_RECORD_BYTES_V0]
  else
    n ← ok_or (checked_add raw_capture_bytes (byte_len record))
          (invalid_input [Txt "raw capture byte count overflow"]);
    if (MAX_RAW_CAPTURE_BYTES_V0 <? n)%Z then
      invalid [Txt "raw capture bytes exceed v0 limit of "; Int MAX_RAW_CAPTURE_BYTES_V0]
    else Ok n.

Definition capture_mismatch : Message :=
  [Txt "sealed raw capture bytes or record count do not match the declaration"].

Definition validate_resource_budget (trace : TrajectoryTraceV0) (raw_records : list string)
    (declarations : TrajectoryValidationContextV0) : LResult () :=
  if (MAX_RAW_RECORDS_V0 <? vec_len raw_records)%Z then
    invalid [Txt "raw record count exceeds v0 limit of "; Int MAX_RAW_RECORDS_V0]
  else if (MAX_EVENTS_V0 <? vec_len (tt_events trace))%Z then
    invalid [Txt "event count exceeds v0 limit of "; Int MAX_EVENTS_V0]
  else
    _ ← try_fold add_raw_record 0%Z raw_records;
    raw_record_count ← ok_or (u64_try_from (vec_len raw_records))
                         (invalid_input [Txt "raw record count exceeds u64"]);
    if decide (raw_record_count = rs_record_count (tt_raw_capture trace)) then
      if decide (tt_events trace = []) then
        invalid [Txt "trajectory must contain at least one event"]
      else if decide (length (tt_events trace) = length raw_records) then
        _ ← check_binding_sizes "schema" (tt_schema trace);
        _ ← check_binding_sizes "adapter" (tt_adapter trace);
        _ ← check_binding_sizes "policy" (tt_policy trace);
        _ ← check_binding_sizes "declared adapter" (vc_adapter declarations);
        _ ← check_binding_sizes "declared policy" (vc_policy declarations);
        _ ← check_short_string "declared raw-capture digest" (rs_digest (tt_raw_capture trace)) 71 "digest";
        _ ← check_short_string "declared raw-capture digest" (rs_digest (vc_raw_capture declarations)) 71 "digest";
        budget ← add_evidence PayloadBudget_default (ev_evidence (tt_run_id trace));
        _ ← check_identifier_size "run_id" (ev_value (tt_run_id trace));
        _ ← try_fold add_event budget (tt_events trace);
        Ok ()
      else invalid [Txt "each sealed raw record must have exactly one normalized event"]
    else invalid capture_mismatch.

(* ------------------------------------------------------------------ *)
(** ** Names, versions, identifiers and digests *)

Definition name_byte (index : nat) (byte : ascii) : bool :=
  is_ascii_lowercase byte || is_ascii_digit byte || one_of ".-_" byte && (0 <? index).

Definition ascii_name (value : string) : bool :=
  negb (String.eqb value "") && (byte_len value <=? 128)%Z && bytes_enumerate_all name_byte value.

Definition validate_ascii_name (name value : string) : LResult () :=
  if negb (ascii_name value) then invalid [Txt name; Txt " must be 1..128 lowercase ASCII name characters"]
  else Ok ().

Definition version_byte (byte : ascii) : bool :=
  is_ascii_lowercase byte || is_ascii_uppercase byte || is_ascii_digit byte || one_of ".-_+" byte.

Definition ascii_version (value : string) : bool :=
  negb (String.eqb value "") && (byte_len value <=? 64)%Z && bytes_all version_byte value.

Definition validate_ascii_version (name value : string) : LResult () :=
  if negb (ascii_version value) then invalid [Txt name; Txt " must be 1..64 restricted printable ASCII characters"]
  else Ok ().

Definition identifier_byte (index : nat) (byte : ascii) : bool :=
  is_ascii_uppercase byte || is_ascii_lowercase byte || is_ascii_digit byte
  || one_of "._:@/+-" byte && (0 <? index).

Definition identifier (value : string) : bool :=
  negb (String.eqb value "") && (byte_len value <=? MAX_IDENTIFIER_BYTES_V0)%Z
  && negb (String.eqb value "unknown") && bytes_enumerate_all identifier_byte value.

Definition validate_identifier (name value : string) : LResult () :=
  if negb (identifier value) then
    invalid [Txt name; Txt " must be 1.."; Int MAX_IDENTIFIER_BYTES_V0;
             Txt " bytes in the v0 printable ASCII identity profile and must not equal 'unknown'"]
  else Ok ().

Definition validate_payload_key (value : string) : LResult () :=
  validate_ascii_name "payload field name" value.

Definition hex_byte (byte : ascii) : bool := is_ascii_digit byte || byte_in 97 102 byte.

Definition validate_digest (name value : string) : LResult () :=
  match strip_prefix "sha256:" value with
  | None => invalid [Txt name; Txt " must use 'sha256:' spelling"]
  | Some hex =>
      if negb (byte_len hex =? 64)%Z || negb (bytes_all hex_byte hex) then
        invalid [Txt name; Txt " must contain exactly 64 lowercase hexadecimal digits"]
      else Ok ()
  end.

Definition validate_binding (name : string) (binding : ArtifactBindingV0) : LResult () :=
  _ ← validate_ascii_name (name +:+ " identity") (ab_identity binding);
  _ ← validate_ascii_version (name +:+ " version") (ab_version binding);
  validate_digest (name +:+ " hash") (ab_hash binding).

(* ------------------------------------------------------------------ *)
(** ** Evidence *)

Record ValidationState := mkValidation {
  locator_digests : gmap LocatorRange string;
  locator_hashes : Z;
}.

Definition ValidationState_default : ValidationState := mkValidation ∅ 0.

(** The bytes a locator cites. *)
Definition locate (locator : SourceLocatorV0) (raw_records : list string) : LResult string :=
  record_index ← ok_or (usize_try_from (sl_record_index locator))
                   (invalid_input [Txt "source locator record index exceeds usize"]);
  record ← ok_or (raw_records !! Z.to_nat record_index)
             (invalid_input [Txt "source locator record index "; Int (u64_val (sl_record_index locator));
                             Txt " is outside the sealed capture"]);
  start ← ok_or (usize_try_from (sl_byte_offset locator))
            (invalid_input [Txt "source locator byte offset exceeds usize"]);
  length ← ok_or (usize_try_from (sl_byte_length locator))
             (invalid_input [Txt "source locator byte length exceeds usize"]);
  end_ ← ok_or (checked_add start length)
           (invalid_input [Txt "source locator byte range overflows usize"]);
  ok_or (get_range record start end_)
    (invalid_input [Txt "source locator byte range is outside the sealed record"]).

Section validation.
Context `{Sha256}.

Definition validate_locator (locator : SourceLocatorV0) (raw_records : list string)
    (state : ValidationState) : LResult ValidationState :=
  _ ← validate_digest "source-locator digest" (sl_digest locator);
  if (u64_val (sl_byte_length locator) =? 0)%Z then
    invalid [Txt "source locator byte_length must be nonzero"]
  else
    let range := locator_range locator in
    '(actual_digest, state) ←
      match locator_digests state !! range with
      | Some digest => Ok (digest, state)
      | None =>
          located ← locate locator raw_records;
          let digest := source_locator_digest_v0 located in
          hashes ← ok_or (checked_add (locator_hashes state) 1)
                     (invalid_input [Txt "locator hash count overflow"]);
          Ok (digest, mkValidation (<[range := digest]> (locator_digests state)) hashes)
      end;
    if decide (sl_digest locator = actual_digest) then Ok state
    else invalid [Txt "source locator digest does not match the sealed bytes"].

(** The loop over the inputs of a derivation; the ranges seen are the set. *)
Definition validate_input (name : string) (raw_records : list string)
    (acc : ValidationState * gset LocatorRange) (locator : SourceLocatorV0)
    : LResult (ValidationState * gset LocatorRange) :=
  let '(state, unique_inputs) := acc in
  state ← validate_locator locator raw_records state;
  if bool_decide (locator_range locator ∈ unique_inputs) then
    invalid [Txt "field '"; Txt name; Txt "' derivation repeats a source input"]
  else Ok (state, {[locator_range locator]} ∪ unique_inputs).

Definition validate_evidence (name : string) (evidence : EvidenceV0) (raw_records : list string)
    (declarations : TrajectoryValidationContextV0) (state : ValidationState)
    : LResult ValidationState :=
  match evidence with
  | CitesRawRange locator => validate_locator locator raw_records state
  | DeclaredDerivationBinding rule source_inputs =>
      _ ← validate_binding "derivation rule" rule;
      if negb (bool_decide (rule ∈ vc_allowed_derivations declarations)) then
        invalid [Txt "field '"; Txt name; Txt "' uses an undeclared derivation rule binding"]
      else if bool_decide (source_inputs = []) then
        invalid [Txt "field '"; Txt name; Txt "' derivation has no declared source inputs"]
      else
        '(state, _) ← try_fold (validate_input name raw_records) (state, ∅) source_inputs;
        Ok state
  | Unavailable reason =>
      if is_blank reason then
        invalid [Txt "field '"; Txt name; Txt "' unavailable evidence requires a reason"]
      else invalid [Txt "load-bearing field '"; Txt name; Txt "' has unavailable evidence"]
  end.

Definition validate_required_field {T} (name : string) (field : EvidencedV0 T)
    (raw_records : list string) (declarations : TrajectoryValidationContextV0)
    (state : ValidationState) : LResult (T * ValidationState) :=
  state ← validate_evidence name (ev_evidence field) raw_records declarations state;
  value ← ok_or (ev_value field)
            (invalid_input [Txt "load-bearing field '"; Txt name; Txt "' is missing a normalized value"]);
  Ok (value, state).

(* ------------------------------------------------------------------ *)
(** ** Normalized values *)

(** The decimal digits of an integer and whether it is canonical. *)
Definition integer_digits (value : string) : string := default value (strip_prefix "-" value).

Definition canonical_integer (value : string) : bool :=
  let digits := integer_digits value in
  negb (String.eqb digits "") && bytes_all is_ascii_digit digits
  && negb ((1 <? byte_len digits)%Z && starts_with digits "0") && negb (String.eqb value "-0").

Definition validate_integer (value path : string) : LResult () :=
  let digits := integer_digits value in
  if (MAX_INTEGER_DIGITS_V0 <? byte_len digits)%Z then
    invalid [Txt path; Txt " integer exceeds v0 digit limit of "; Int MAX_INTEGER_DIGITS_V0]
  else if negb (canonical_integer value) then
    invalid [Txt path; Txt " integer must be canonical base-10 with no leading zero"]
  else Ok ().

Fixpoint validate_normalized_value (value : NormalizedValueV0) (path : string) {struct value}
    : LResult () :=
  match value with
  | VInteger value => validate_integer value path
  | VString value =>
      if (MAX_NORMALIZED_STRING_SCALARS_V0 <? char_count value)%Z then
        invalid [Txt path; Txt " string exceeds v0 scalar limit of ";
                 Int MAX_NORMALIZED_STRING_SCALARS_V0]
      else Ok ()
  | VArray values =>
      _ ← try_fold (λ index value,
        _ ← validate_normalized_value value (path +:+ "[" +:+ show_nat index +:+ "]");
        Ok (S index)) 0 values;
      Ok ()
  | VObject values =>
      try_fold (λ _ '(key, value),
        _ ← validate_payload_key key;
        validate_normalized_value value (path +:+ "." +:+ key)) () values
  | VNull | VBoolean _ => Ok ()
  end.

(* ------------------------------------------------------------------ *)
(** ** The trace *)

Definition validate_payload_field (raw_records : list string)
    (declarations : TrajectoryValidationContextV0) (state : ValidationState)
    (entry : string * EvidencedV0 NormalizedValueV0) : LResult ValidationState :=
  let '(field_name, field) := entry in
  _ ← validate_payload_key field_name;
  '(value, state) ← validate_required_field ("payload." +:+ field_name) field raw_records declarations state;
  _ ← validate_normalized_value value ("payload." +:+ field_name);
  Ok state.

(** One iteration of the loop over the events: the identities seen so far and
    the locator cache are threaded. *)
Definition validate_event (raw_records : list string)
    (declarations : TrajectoryValidationContextV0) (acc : gset string * ValidationState)
    (indexed : nat * AgentActionEventV0) : LResult (gset string * ValidationState) :=
  let '(event_ids, state) := acc in
  let '(index, event) := indexed in
  expected_index ← ok_or (u64_try_from (Z.of_nat index)) (invalid_input [Txt "event count exceeds u64"]);
  '(event_id, state) ← validate_required_field "event_id" (ae_event_id event) raw_records declarations state;
  _ ← validate_identifier "event_id" event_id;
  if bool_decide (event_id ∈ event_ids) then
    invalid [Txt "duplicate event identity '"; Txt event_id; Txt "'"]
  else
    let event_ids := {[event_id]} ∪ event_ids in
    '(sequence_index, state) ←
      validate_required_field "sequence_index" (ae_sequence_index event) raw_records declarations state;
    if negb (bool_decide (sequence_index = expected_index)) then
      invalid [Txt "event '"; Txt event_id; Txt "' sequence index "; Int (u64_val sequence_index);
               Txt " is not contiguous source position "; Int (u64_val expected_index)]
    else
      '(_, state) ← validate_required_field "kind" (ae_kind event) raw_records declarations state;
      state ←
        match ae_source_item_id event with
        | Some source_item_id =>
            '(value, state) ←
              validate_required_field "source_item_id" source_item_id raw_records declarations state;
            _ ← validate_identifier "source_item_id" value;
            Ok state
        | None => Ok state
        end;
      if negb (bool_decide (rr_record_index (ae_raw_record event) = expected_index)) then
        invalid [Txt "event '"; Txt event_id; Txt "' raw record index ";
                 Int (u64_val (rr_record_index (ae_raw_record event)));
                 Txt " does not match source position "; Int (u64_val expected_index)]
      else
        _ ← validate_digest "raw-record digest" (rr_digest (ae_raw_record event));
        if negb (bool_decide (rr_digest (ae_raw_record event) = raw_record_digest_v0 (raw_records !!! index)))
        then
          invalid [Txt "event '"; Txt event_id;
                   Txt "' raw-record digest does not match sealed record "; Int (Z.of_nat index)]
        else
          state ← try_fold (validate_payload_field raw_records declarations) state
                    (btree_iter (ae_payload event));
          Ok (event_ids, state).

Context `{JsonStream, TraceSerializer}.
(** The schema file that is compiled into the crate. *)
Context (TRAJECTORY_SCHEMA_BYTES_V0 : string).

Definition trajectory_schema_binding_v0 : ArtifactBindingV0 :=
  mkBinding "legitimacy.trajectory.trace" "0" (artifact_digest_v0 TRAJECTORY_SCHEMA_BYTES_V0).

(** One raw record is a JSON object without duplicate keys. *)
Definition validate_raw_record (indexed : nat * string) : LResult () :=
  let '(index, raw_record) := indexed in
  root_kind ← reject_duplicate_json_keys raw_record "sealed raw record";
  if decide (root_kind = RootObject) then Ok ()
  else invalid [Txt "raw record "; Int (Z.of_nat index); Txt " must be a JSON object"].

Definition validate_trace (trace : TrajectoryTraceV0) (raw_records : list string)
    (declarations : TrajectoryValidationContextV0) : LResult () :=
  _ ← validate_resource_budget trace raw_records declarations;
  _ ← validate_compact_json_size trace;
  _ ← validate_binding "schema" (tt_schema trace);
  _ ← validate_binding "adapter" (tt_adapter trace);
  _ ← validate_binding "policy" (tt_policy trace);
  _ ← validate_binding "declared adapter" (vc_adapter declarations);
  _ ← validate_binding "declared policy" (vc_policy declarations);
  if negb (bool_decide (tt_schema trace = trajectory_schema_binding_v0)) then
    invalid [Txt "schema identity, version, or hash mismatch"]
  else if negb (bool_decide (tt_adapter trace = vc_adapter declarations)) then
    invalid [Txt "adapter identity, version, or hash mismatch"]
  else if negb (bool_decide (tt_policy trace = vc_policy declarations)) then
    invalid [Txt "policy identity, version, or hash mismatch"]
  else
    _ ← validate_digest "declared raw-capture digest" (rs_digest (tt_raw_capture trace));
    _ ← validate_digest "declared raw-capture digest" (rs_digest (vc_raw_capture declarations));
    if negb (bool_decide (tt_raw_capture trace = vc_raw_capture declarations)) then
      invalid [Txt "trace raw-capture seal does not match the declared seal"]
    else
      _ ← try_iter validate_raw_record (enumerate raw_records);
      if negb (bool_decide (tt_raw_capture trace = raw_capture_seal_v0 raw_records)) then
        invalid capture_mismatch
      else
        '(run_id, state) ←
          validate_required_field "run_id" (tt_run_id trace) raw_records declarations
            ValidationState_default;
        _ ← validate_identifier "run_id" run_id;
        _ ← try_fold (validate_event raw_records declarations) (∅, state) (enumerate (tt_events trace));
        Ok ().

(** [TrajectoryTraceV0::validate]; the token [ValidatedTrajectoryTraceV0] is the
    trace, of which [validate_trace] is known to succeed. *)
Definition validated (trace : TrajectoryTraceV0) : Prop :=
  ∃ raw_records declarations, validate_trace trace raw_records declarations = Ok ().

(** [serde_json::from_slice] at the wire type of a trace. *)
Context (parse_trace : string → option TrajectoryTraceV0).

Definition from_json_slice (input : string) : LResult TrajectoryTraceV0 :=
  if (MAX_TRACE_JSON_INPUT_BYTES_V0 <? byte_len input)%Z then
    invalid [Txt "trajectory trace JSON input exceeds v0 byte limit of "; Int MAX_TRACE_JSON_INPUT_BYTES_V0]
  else
    _ ← reject_duplicate_json_keys input "trajectory trace";
    ok_or (parse_trace input) (Json "trajectory trace").
End validation.
