(* ===== verification/TraceCanonical.v ===== *)
(** * Canonical bytes of a trace (src/trajectory/canonical.rs)

    The encoders give the bytes they append.  The encoding of a trace whose
    lengths fit in 64 bits is delimited, piece by piece, so two traces with the
    same canonical bytes are equal, and the digest of a trace commits to it. *)

From S2P Require Import Prelude Encoding Trajectory.
From Stdlib Require Import Ascii.
From stdpp Require Import options.

Definition TRACE_CANONICAL_MAGIC_V0 : string :=
  "legitimacy.trajectory.trace.canonical.v0" +:+ String "000" "".

(** [output.push(n)]: one byte. *)
Definition push (n : nat) : string := String (ascii_of_nat n) "".

Definition encode_binding (binding : ArtifactBindingV0) : string :=
  put_string (ab_identity binding) +:+ put_string (ab_version binding) +:+ put_string (ab_hash binding).

Definition encode_locator (locator : SourceLocatorV0) : string :=
  put_u64 (sl_record_index locator) +:+ put_u64 (sl_byte_offset locator) +:+
  put_u64 (sl_byte_length locator) +:+ put_string (sl_digest locator).

Definition encode_evidence (evidence : EvidenceV0) : string :=
  match evidence with
  | CitesRawRange locator => push 0 +:+ encode_locator locator
  | DeclaredDerivationBinding rule source_inputs =>
      push 1 +:+ encode_binding rule +:+ put_list encode_locator source_inputs
  | Unavailable reason => push 2 +:+ put_string reason
  end.

Definition encode_evidenced {T} (encode_value : T → string) (field : EvidencedV0 T) : string :=
  match ev_value field with
  | Some value => push 1 +:+ encode_value value
  | None => push 0
  end +:+ encode_evidence (ev_evidence field).

Fixpoint encode_normalized_value (value : NormalizedValueV0) : string :=
  match value with
  | VNull => push 0
  | VBoolean b => push 1 +:+ push (if b then 1 else 0)
  | VInteger digits => push 2 +:+ put_string digits
  | VString s => push 3 +:+ put_string s
  | VArray values => push 4 +:+ put_list encode_normalized_value values
  | VObject values =>
      push 5 +:+ put_list (λ kv, put_string kv.1 +:+ encode_normalized_value kv.2) values
  end.

Definition encode_entry (entry : string * EvidencedV0 NormalizedValueV0) : string :=
  put_string entry.1 +:+ encode_evidenced encode_normalized_value entry.2.

Definition encode_source_item (item : option (EvidencedV0 string)) : string :=
  match item with
  | Some value => push 1 +:+ encode_evidenced put_string value
  | None => push 0
  end.

Definition canonical_event_bytes (event : AgentActionEventV0) : string :=
  encode_evidenced put_string (ae_event_id event) +:+
  encode_evidenced put_u64 (ae_sequence_index event) +:+
  encode_evidenced (λ kind, put_string (kind_label kind)) (ae_kind event) +:+
  encode_source_item (ae_source_item_id event) +:+
  put_u64 (rr_record_index (ae_raw_record event)) +:+
  put_string (rr_digest (ae_raw_record event)) +:+
  put_list encode_entry (btree_iter (ae_payload event)).

Definition canonical_header_bytes (trace : TrajectoryTraceV0) : string :=
  TRACE_CANONICAL_MAGIC_V0 +:+
  encode_binding (tt_schema trace) +:+
  encode_evidenced put_string (tt_run_id trace) +:+
  encode_binding (tt_adapter trace) +:+
  encode_binding (tt_policy trace) +:+
  put_u64 (rs_record_count (tt_raw_capture trace)) +:+
  put_string (rs_digest (tt_raw_capture trace)) +:+
  put_len (vec_len (tt_events trace)).

Definition canonical_event_components (trace : TrajectoryTraceV0) : list string :=
  canonical_event_bytes <$> tt_events trace.

Definition canonical_bytes (trace : TrajectoryTraceV0) : string :=
  canonical_header_bytes trace +:+ put_all id (canonical_event_components trace).

Definition trajectory_digest `{Sha256} (trace : TrajectoryTraceV0) : string :=
  framed_sha256 TRACE_DOMAIN_V0 [canonical_bytes trace].

(* ------------------------------------------------------------------ *)
(** ** Lengths *)

(** Every string and every sequence of a value fits in memory. *)
Definition binding_fits (b : ArtifactBindingV0) : Prop :=
  fits (ab_identity b) ∧ fits (ab_version b) ∧ fits (ab_hash b).
Definition locator_fits (l : SourceLocatorV0) : Prop := fits (sl_digest l).
Definition evidence_fits (e : EvidenceV0) : Prop :=
  match e with
  | CitesRawRange locator => locator_fits locator
  | DeclaredDerivationBinding rule inputs =>
      binding_fits rule ∧ fits_len (vec_len inputs) ∧ Forall locator_fits inputs
  | Unavailable reason => fits reason
  end.
Definition evidenced_fits {T} (value_fits : T → Prop) (field : EvidencedV0 T) : Prop :=
  match ev_value field with Some value => value_fits value | None => True end ∧
  evidence_fits (ev_evidence field).

Inductive value_fits : NormalizedValueV0 → Prop :=
  | VNull_fits : value_fits VNull
  | VBoolean_fits b : value_fits (VBoolean b)
  | VInteger_fits s : fits s → value_fits (VInteger s)
  | VString_fits s : fits s → value_fits (VString s)
  | VArray_fits l : fits_len (vec_len l) → Forall value_fits l → value_fits (VArray l)
  | VObject_fits l :
      fits_len (vec_len l) → Forall (λ kv, fits kv.1) l → Forall value_fits l.*2 →
      value_fits (VObject l).

Definition entry_fits (entry : string * EvidencedV0 NormalizedValueV0) : Prop :=
  fits entry.1 ∧ evidenced_fits value_fits entry.2.

Record event_fits (e : AgentActionEventV0) : Prop := {
  ef_event_id : evidenced_fits fits (ae_event_id e);
  ef_sequence_index : evidenced_fits (λ _, True) (ae_sequence_index e);
  ef_kind : evidenced_fits (λ _, True) (ae_kind e);
  ef_source_item : match ae_source_item_id e with Some v => evidenced_fits fits v | None => True end;
  ef_digest : fits (rr_digest (ae_raw_record e));
  ef_payload : fits_len (vec_len (btree_iter (ae_payload e))) ∧
    Forall entry_fits (btree_iter (ae_payload e));
}.

Record trace_fits (t : TrajectoryTraceV0) : Prop := {
  tf_schema : binding_fits (tt_schema t);
  tf_run_id : evidenced_fits fits (tt_run_id t);
  tf_adapter : binding_fits (tt_adapter t);
  tf_policy : binding_fits (tt_policy t);
  tf_digest : fits (rs_digest (tt_raw_capture t));
  tf_events : fits_len (vec_len (tt_events t)) ∧ Forall event_fits (tt_events t);
}.

(* ------------------------------------------------------------------ *)
(** ** The encoders are delimited *)

Lemma encode_binding_delimited : Delimited encode_binding binding_fits.
Proof.
  intros [i v h] [i' v' h'] s t (? & ? & ?) (? & ? & ?) He; simpl in *. unfold encode_binding in He; simpl in He.
  peel He; [|done..]. peel He; [|done..]. peel He; [|done..]. by subst.
Qed.
#[export] Existing Instance encode_binding_delimited.

Lemma encode_locator_delimited : Delimited encode_locator locator_fits.
Proof.
  intros [a b c d] [a' b' c' d'] s t Hx Hy He. unfold encode_locator, locator_fits in *; simpl in *.
  do 4 (peel He; [|done..]). by subst.
Qed.
#[export] Existing Instance encode_locator_delimited.

Lemma encode_evidence_delimited : Delimited encode_evidence evidence_fits.
Proof.
  intros [l|r i|u] [l'|r' i'|u'] s t Hx Hy He; unfold encode_evidence, push in He; simpl in *;
    peel He; clear Heq.
  - peel He; [|done..]. by subst.
  - destruct Hx as (? & ? & ?), Hy as (? & ? & ?).
    peel He; [|done..]. peel He; [|done..]. by subst.
  - peel He; [|done..]. by subst.
Qed.
#[export] Existing Instance encode_evidence_delimited.

Lemma encode_evidenced_delimited {T} (enc : T → string) P :
  Delimited enc P → Delimited (encode_evidenced enc) (evidenced_fits P).
Proof.
  intros Henc [v e] [v' e'] s t [Hv Hf] [Hv' Hf'] He. unfold encode_evidenced, push in He; simpl in *.
  destruct v as [v|], v' as [v'|]; rewrite ?string_app_assoc in He; peel He; clear Heq.
  - apply Henc in He as [-> He]; [|done..]. peel He; [|done..]. by subst.
  - peel He; [|done..]. by subst.
Qed.
#[export] Existing Instance encode_evidenced_delimited.

Lemma kind_label_delimited : Delimited (λ kind, put_string (kind_label kind)) (λ _, True).
Proof.
  intros x y s t _ _ He. peel He; [|by destruct x|by destruct y].
  split; [|done]. by destruct x, y.
Qed.
#[export] Existing Instance kind_label_delimited.

(** Induction that reaches the values inside arrays and objects. *)
Section value_ind.
Variable P : NormalizedValueV0 → Prop.
Hypothesis (HN : P VNull) (HB : ∀ b, P (VBoolean b)) (HI : ∀ s, P (VInteger s)) (HS : ∀ s, P (VString s))
  (HA : ∀ l, Forall P l → P (VArray l)) (HO : ∀ l, Forall (λ kv, P kv.2) l → P (VObject l)).
Fixpoint NormalizedValue_nested_ind (v : NormalizedValueV0) : P v :=
  match v with
  | VNull => HN
  | VBoolean b => HB b
  | VInteger s => HI s
  | VString s => HS s
  | VArray l =>
      HA l ((fix go l := match l return Forall P l with
        | [] => Forall_nil_2 _
        | x :: l => Forall_cons_2 _ x l (NormalizedValue_nested_ind x) (go l)
        end) l)
  | VObject l =>
      HO l ((fix go l := match l return Forall (λ kv, P kv.2) l with
        | [] => Forall_nil_2 _
        | (k, x) :: l => Forall_cons_2 _ (k, x) l (NormalizedValue_nested_ind x) (go l)
        end) l)
  end.
End value_ind.

Lemma VObject_fits_inv l :
  value_fits (VObject l) →
  fits_len (vec_len l) ∧ Forall (λ kv, fits kv.1 ∧ value_fits kv.2) l.
Proof.
  inversion 1 as [| | | | |? Hl Hk Hv]; subst. split; [done|].
  rewrite Forall_fmap in Hv. apply Forall_forall. intros kv Hin.
  split; [exact (proj1 (Forall_forall _ _) Hk kv Hin)|exact (proj1 (Forall_forall _ _) Hv kv Hin)].
Qed.

Lemma encode_normalized_value_delimited : Delimited encode_normalized_value value_fits.
Proof.
  intros x. induction x as [|b|i|u|l IH|l IH] using NormalizedValue_nested_ind;
    intros y s t Hx Hy He; destruct y; cbn [encode_normalized_value] in He; unfold push in He;
    peel He; clear Heq.
  - done.
  - peel He. split; [|done]. by destruct b, b0.
  - inversion Hx; inversion Hy; subst. peel He; [|done..]. by subst.
  - inversion Hx; inversion Hy; subst. peel He; [|done..]. by subst.
  - inversion Hx; inversion Hy; subst. apply put_list_delimits in He as [-> ->]; [done..|].
    rewrite Forall_forall in *. intros v Hv y s' t' Hy'. apply IH; auto.
  - apply VObject_fits_inv in Hx as [Hl Hx], Hy as [Hl' Hy].
    apply put_list_delimits in He as [-> ->]; [done..|].
    rewrite Forall_forall in *. intros [k v] Hv [k' v'] s' t' Hy' Heq.
    destruct (Hx _ Hv), (Hy _ Hy'). cbn [fst snd] in *.
    peel Heq; [|done..]. destruct (IH (k, v) Hv v' _ _ ltac:(done) ltac:(done) Heq) as [Hvv ->].
    simpl in Hvv. by subst.
Qed.
#[export] Existing Instance encode_normalized_value_delimited.

Lemma encode_entry_delimited : Delimited encode_entry entry_fits.
Proof.
  intros [k v] [k' v'] s t [??] [??] He. unfold encode_entry in He; simpl in *.
  peel He; [|done..]. peel He; [|done..]. by subst.
Qed.
#[export] Existing Instance encode_entry_delimited.

Lemma encode_source_item_delimited :
  Delimited encode_source_item (λ i, match i with Some v => evidenced_fits fits v | None => True end).
Proof.
  intros [v|] [v'|] s t Hx Hy He; unfold encode_source_item, push in He; peel He; clear Heq; [|done].
  peel He; [|done..]. by subst.
Qed.
#[export] Existing Instance encode_source_item_delimited.

(** A [BTreeMap] is determined by its entries in key order. *)
Lemma btree_iter_inj {V} (m m' : gmap string V) : btree_iter m = btree_iter m' → m = m'.
Proof.
  intros He. apply map_to_list_inj. by rewrite <-!btree_iter_perm, He.
Qed.

Lemma canonical_event_bytes_delimited : Delimited canonical_event_bytes event_fits.
Proof.
  intros [a b c d [r g] p] [a' b' c' d' [r' g'] p'] s t [] [] He.
  unfold canonical_event_bytes in He; simpl in *. do 7 (peel He; [|done..]). subst.
  by rewrite (btree_iter_inj p p').
Qed.
#[export] Existing Instance canonical_event_bytes_delimited.

Lemma canonical_bytes_put_list t :
  canonical_bytes t =
  TRACE_CANONICAL_MAGIC_V0 +:+ (encode_binding (tt_schema t) +:+
  (encode_evidenced put_string (tt_run_id t) +:+ (encode_binding (tt_adapter t) +:+
  (encode_binding (tt_policy t) +:+ (put_u64 (rs_record_count (tt_raw_capture t)) +:+
  (put_string (rs_digest (tt_raw_capture t)) +:+
  (put_list canonical_event_bytes (tt_events t) +:+ ""))))))).
Proof.
  unfold canonical_bytes, canonical_header_bytes, put_list, canonical_event_components.
  rewrite !string_app_assoc, string_app_nil_r. repeat f_equal.
  induction (tt_events t) as [|e l IH]; [done|]. by rewrite fmap_cons, !put_all_cons, IH.
Qed.

(** Traces with the same canonical bytes are equal. *)
Lemma canonical_bytes_inj t t' :
  trace_fits t → trace_fits t' → canonical_bytes t = canonical_bytes t' → t = t'.
Proof.
  intros [] [] He. rewrite !canonical_bytes_put_list in He.
  apply string_app_inj in He as [_ He]; [|done].
  destruct t as [a b c d [r g] l], t' as [a' b' c' d' [r' g'] l']; simpl in *.
  do 7 (peel He; [|done..]). by subst.
Qed.
