(* ===== verification/TraceValidationSpec.v ===== *)
(** * What a validated trace is

    The validation accepts exactly the traces that are within the budget,
    carry the declared bindings and seal, and whose every load-bearing field
    cites bytes that are there; the cache of locator digests changes nothing.
    Every length of an accepted trace fits in 64 bits, so its canonical bytes,
    and its digest, commit to it. *)

From S2P Require Import Prelude Encoding Trajectory F64 Errors JsonScan TraceValidation TraceCanonical.
From stdpp Require Import options.

(* ------------------------------------------------------------------ *)
(** ** Names and digests *)

Definition valid_digest (value : string) : Prop :=
  ∃ hex, value = "sha256:" +:+ hex ∧ byte_len hex = 64%Z ∧ bytes_all hex_byte hex = true.

Definition valid_binding (b : ArtifactBindingV0) : Prop :=
  ascii_name (ab_identity b) = true ∧ ascii_version (ab_version b) = true ∧ valid_digest (ab_hash b).

Lemma validate_ascii_name_Ok name value : validate_ascii_name name value = Ok () ↔ ascii_name value = true.
Proof. unfold validate_ascii_name. by destruct (ascii_name value). Qed.

Lemma validate_ascii_version_Ok name value :
  validate_ascii_version name value = Ok () ↔ ascii_version value = true.
Proof. unfold validate_ascii_version. by destruct (ascii_version value). Qed.

Lemma validate_identifier_Ok name value : validate_identifier name value = Ok () ↔ identifier value = true.
Proof. unfold validate_identifier. by destruct (identifier value). Qed.

Lemma validate_digest_Ok name value : validate_digest name value = Ok () ↔ valid_digest value.
Proof.
  unfold validate_digest, valid_digest. destruct (strip_prefix "sha256:" value) as [hex|] eqn:Hp.
  - apply strip_prefix_Some in Hp as ->.
    destruct (Z.eqb_spec (byte_len hex) 64), (bytes_all hex_byte hex) eqn:Hb; simpl; split; try done.
    + by exists hex.
    + intros (h & [_ ->]%string_app_inj & ? & ?); congruence.
    + intros (h & [_ ->]%string_app_inj & ? & ?); congruence.
    + intros (h & [_ ->]%string_app_inj & ? & ?); congruence.
  - split; [done|]. intros (h & Hv & _). apply strip_prefix_Some in Hv. congruence.
Qed.

(** A step of [do; rest] succeeds when both do. *)
Lemma unit_bind_Ok {A} (r : LResult ()) (k : LResult A) a :
  (_ ← r; k) = Ok a ↔ r = Ok () ∧ k = Ok a.
Proof. destruct r as [[]|e]; simpl; naive_solver. Qed.

Lemma validate_binding_Ok name b : validate_binding name b = Ok () ↔ valid_binding b.
Proof.
  unfold validate_binding, valid_binding.
  by rewrite !unit_bind_Ok, validate_ascii_name_Ok, validate_ascii_version_Ok, validate_digest_Ok.
Qed.

(* ------------------------------------------------------------------ *)
(** ** Locators *)

(** The bytes a locator cites are those of a record at its offset. *)
Lemma locate_Ok l raw_records bytes :
  locate l raw_records = Ok bytes ↔
  (u64_val (sl_byte_offset l) + u64_val (sl_byte_length l) < 2 ^ 64)%Z ∧
  ∃ record before after,
    raw_records !! Z.to_nat (u64_val (sl_record_index l)) = Some record ∧
    record = before +:+ (bytes +:+ after) ∧
    byte_len before = u64_val (sl_byte_offset l) ∧ byte_len bytes = u64_val (sl_byte_length l).
Proof.
  unfold locate. rewrite !usize_try_from_val. cbn [ok_or mbind Result_bind].
  pose proof (u64_range (sl_byte_offset l)).
  destruct (raw_records !! _) as [record|] eqn:Hr; cbn [ok_or mbind Result_bind]; [|naive_solver].
  destruct (checked_add _ _) as [end_|] eqn:Hc; cbn [ok_or mbind Result_bind].
  - apply checked_add_Some in Hc as [-> ?].
    destruct (get_range _ _ _) as [r|] eqn:Hg; cbn [ok_or]; split.
    + intros [= <-]. apply get_range_Some in Hg as (b & a & -> & ? & ?); [|lia].
      split; [done|]. exists (b +:+ (r +:+ a)), b, a. split_and!; try done; lia.
    + intros (_ & ? & b & a & [= <-] & -> & Hb & Hl). f_equal.
      assert (Some r = Some bytes) as [= ->]; [|done]. rewrite <-Hg.
      apply get_range_Some; [lia|]. exists b, a. split_and!; try done; lia.
    + done.
    + intros (_ & ? & b & a & [= <-] & -> & Hb & Hl).
      enough (get_range (b +:+ (bytes +:+ a)) (u64_val (sl_byte_offset l))
        (u64_val (sl_byte_offset l) + u64_val (sl_byte_length l)) = Some bytes) by congruence.
      apply get_range_Some; [lia|]. exists b, a. split_and!; try done; lia.
  - split; [done|]. intros [? _]. unfold checked_add in Hc. case_match eqn:Hlt; [done|].
    apply Z.ltb_ge in Hlt. lia.
Qed.

(** Locators of the same range cite the same bytes. *)
Lemma locate_range l l' raw_records bytes :
  locator_range l = locator_range l' → locate l raw_records = Ok bytes → locate l' raw_records = Ok bytes.
Proof.
  unfold locator_range. intros [= Hi Ho Hl] H. rewrite locate_Ok in *. by rewrite <-Hi, <-Ho, <-Hl.
Qed.

Section evidence.
Context `{Sha256} (raw_records : list string) (declarations : TrajectoryValidationContextV0).

(** A locator cites bytes of the capture and carries their digest. *)
Definition locator_ok (l : SourceLocatorV0) : Prop :=
  valid_digest (sl_digest l) ∧ u64_val (sl_byte_length l) ≠ 0%Z ∧
  ∃ bytes, locate l raw_records = Ok bytes ∧ sl_digest l = source_locator_digest_v0 bytes.

Definition evidence_ok (e : EvidenceV0) : Prop :=
  match e with
  | CitesRawRange locator => locator_ok locator
  | DeclaredDerivationBinding rule inputs =>
      valid_binding rule ∧ rule ∈ vc_allowed_derivations declarations ∧ inputs ≠ [] ∧
      NoDup (locator_range <$> inputs) ∧ Forall locator_ok inputs
  | Unavailable _ => False
  end.

Definition field_ok {T} (field : EvidencedV0 T) (value : T) : Prop :=
  evidence_ok (ev_evidence field) ∧ ev_value field = Some value.

(** The locators an evidence carries. *)
Definition locators_of (e : EvidenceV0) : list SourceLocatorV0 :=
  match e with
  | CitesRawRange locator => [locator]
  | DeclaredDerivationBinding _ inputs => inputs
  | Unavailable _ => []
  end.

(** The cache holds digests of cited bytes. *)
Definition cache_sound (state : ValidationState) : Prop :=
  ∀ l digest, locator_digests state !! locator_range l = Some digest →
    ∃ bytes, locate l raw_records = Ok bytes ∧ digest = source_locator_digest_v0 bytes.

(** What a successful step does to the state after at most [n] locators. *)
Definition caches (n : Z) (state state' : ValidationState) : Prop :=
  cache_sound state' ∧ (locator_hashes state' ≤ locator_hashes state + n)%Z.

Lemma caches_trans n m s s' s'' : caches n s s' → caches m s' s'' → caches (n + m) s s''.
Proof. unfold caches. intros [? ?] [? ?]. split; [done|lia]. Qed.

(** The outcome of a check that threads the cache: success exactly when [ok],
    after at most [n] locators. *)
Definition checks (r : LResult ValidationState) (state : ValidationState) (n : Z) (ok : Prop) : Prop :=
  match r with
  | Ok state' => ok ∧ caches n state state'
  | Err _ => ¬ ok
  end.

Global Instance checks_proper r state n : Proper (iff ==> iff) (checks r state n).
Proof. intros P Q HPQ. unfold checks. destruct r; by rewrite HPQ. Qed.

(** A state from which [n] more locators can be checked. *)
Definition ready (n : Z) (state : ValidationState) : Prop :=
  cache_sound state ∧ (locator_hashes state + n < 2 ^ 64)%Z.

Lemma ready_after n m s s' : ready (n + m) s → caches n s s' → ready m s'.
Proof. unfold ready, caches. intros [? ?] [? ?]. split; [done|lia]. Qed.

Lemma ready_le n m s : (m ≤ n)%Z → ready n s → ready m s.
Proof. unfold ready. intros ? [? ?]. split; [done|lia]. Qed.

Lemma validate_locator_checks l state :
  ready 1 state → checks (validate_locator l raw_records state) state 1 (locator_ok l).
Proof.
  intros [Hs Hh]. unfold validate_locator.
  destruct (validate_digest _ _) as [[]|e] eqn:Hd; cbn [mbind Result_bind].
  2: { simpl. intros (Hv & _). apply (validate_digest_Ok "source-locator digest") in Hv. congruence. }
  apply validate_digest_Ok in Hd.
  destruct (Z.eqb_spec (u64_val (sl_byte_length l)) 0) as [Hz|Hz]; [by intros (_ & ? & _)|].
  destruct (locator_digests state !! locator_range l) as [digest|] eqn:Hl; cbn [mbind Result_bind].
  - destruct (Hs l digest Hl) as (bytes & Hb & ->). case_decide as Hdig; simpl.
    + split; [by split_and!; [..|exists bytes]|]. split; [done|lia].
    + intros (_ & _ & bytes' & Hb' & ?). congruence.
  - destruct (locate l raw_records) as [bytes|e] eqn:Hb; cbn [mbind Result_bind].
    2: { simpl. intros (_ & _ & bytes & ? & _). congruence. }
    rewrite (proj2 (checked_add_Some (locator_hashes state) 1 (locator_hashes state + 1))) by lia.
    cbn [ok_or mbind Result_bind]. case_decide as Hdig; simpl.
    + split; [by split_and!; [..|exists bytes]|]. split; [|simpl; lia].
      intros l' digest' Hl'. simpl in Hl'. apply lookup_insert_Some in Hl' as [[Hr <-]|[_ Hl']].
      * exists bytes. split; [by apply (locate_range l)|done].
      * by apply Hs.
    + intros (_ & _ & bytes' & Hb' & ?). congruence.
Qed.

(** The inputs of a derivation: all sound, with distinct ranges not seen before. *)
Definition inputs_ok (seen : gset LocatorRange) (inputs : list SourceLocatorV0) : Prop :=
  Forall locator_ok inputs ∧ NoDup (locator_range <$> inputs) ∧
  Forall (λ l, locator_range l ∉ seen) inputs.

Lemma inputs_ok_cons seen l inputs :
  inputs_ok seen (l :: inputs) ↔
  locator_ok l ∧ (locator_range l ∉ seen) ∧ inputs_ok ({[locator_range l]} ∪ seen) inputs.
Proof.
  unfold inputs_ok. rewrite fmap_cons, NoDup_cons, !Forall_cons.
  assert (Forall (λ l', locator_range l' ∉ {[locator_range l]} ∪ seen) inputs ↔
    (locator_range l ∉ locator_range <$> inputs) ∧ Forall (λ l', locator_range l' ∉ seen) inputs) as ->;
    [|naive_solver].
  rewrite !Forall_forall. split.
  - intros Hf. split.
    + intros (l' & Heq & Hin)%list_elem_of_fmap. apply (Hf l' Hin). rewrite Heq. set_solver.
    + intros l' Hin ?. apply (Hf l' Hin). set_solver.
  - intros [Hn Hf] l' Hin [Heq%elem_of_singleton|?]%elem_of_union; [|by apply (Hf l')].
    apply Hn. rewrite <-Heq. by apply list_elem_of_fmap_2.
Qed.

Lemma validate_inputs_checks name inputs state seen :
  ready (vec_len inputs) state →
  match try_fold (validate_input name raw_records) (state, seen) inputs with
  | Ok (state', _) => inputs_ok seen inputs ∧ caches (vec_len inputs) state state'
  | Err _ => ¬ inputs_ok seen inputs
  end.
Proof.
  revert state seen. induction inputs as [|l inputs IH]; intros state seen Hr.
  { simpl. split; [split_and!; constructor|]. unfold caches, ready, vec_len in *. simpl. split; [apply Hr|lia]. }
  assert (vec_len (l :: inputs) = (1 + vec_len inputs)%Z) as Hlen by (unfold vec_len; simpl; lia).
  rewrite Hlen in Hr |- *. cbn [try_fold validate_input].
  pose proof (inputs_ok_cons seen l inputs) as Hcons.
  pose proof (validate_locator_checks l state
    ltac:(eapply ready_le; [|exact Hr]; unfold vec_len; lia)) as Hl.
  destruct (validate_locator l raw_records state) as [state1|e]; cbn [mbind Result_bind checks] in *.
  2: { tauto. }
  destruct Hl as [Hok Hc]. case_bool_decide as Hseen; cbn [mbind Result_bind invalid]; [tauto|].
  specialize (IH state1 ({[locator_range l]} ∪ seen) (ready_after _ _ _ _ Hr Hc)).
  destruct (try_fold _ _ inputs) as [[state2 seen']|e]; [|tauto].
  destruct IH as [? ?]. split; [tauto|]. by eapply caches_trans.
Qed.

Lemma validate_evidence_checks name e state :
  ready (vec_len (locators_of e)) state →
  checks (validate_evidence name e raw_records declarations state) state (vec_len (locators_of e))
    (evidence_ok e).
Proof.
  intros Hr. destruct e as [l|rule inputs|reason]; simpl.
  - by apply validate_locator_checks.
  - destruct (validate_binding _ _) as [[]|e] eqn:Hb; cbn [mbind Result_bind].
    2: { simpl. intros (Hv & _). apply (validate_binding_Ok "derivation rule") in Hv. congruence. }
    apply validate_binding_Ok in Hb. case_bool_decide as Hrule; simpl; [|by intros (_ & ? & _)].
    case_bool_decide as Hne; simpl; [by intros (_ & _ & ? & _)|].
    pose proof (validate_inputs_checks name inputs state ∅ Hr) as Hi.
    assert (Forall (λ l, locator_range l ∉ (∅ : gset LocatorRange)) inputs) as He
      by (apply Forall_forall; set_solver).
    destruct (try_fold _ _ _) as [[state' ?]|e]; simpl.
    + by destruct Hi as [(? & ? & _) ?].
    + intros (_ & _ & _ & ? & ?). by apply Hi.
  - by destruct (is_blank reason); intros [].
Qed.

(** A field: its outcome with its value. *)
Lemma validate_required_field_checks {T} name (field : EvidencedV0 T) state :
  ready (vec_len (locators_of (ev_evidence field))) state →
  match validate_required_field name field raw_records declarations state with
  | Ok (v, state') => field_ok field v ∧ caches (vec_len (locators_of (ev_evidence field))) state state'
  | Err _ => ∀ v, ¬ field_ok field v
  end.
Proof.
  intros Hr. unfold validate_required_field, field_ok.
  pose proof (validate_evidence_checks name (ev_evidence field) state Hr) as He.
  destruct (validate_evidence _ _ _ _ _) as [state'|e]; cbn [mbind Result_bind] in *.
  - destruct (ev_value field) as [v|]; cbn [ok_or mbind Result_bind]; [naive_solver|].
    by intros v [_ ?].
  - by intros v [? _].
Qed.

(* ------------------------------------------------------------------ *)
(** ** Payloads and events *)

(** A normalized value in canonical form. *)
Fixpoint value_ok (v : NormalizedValueV0) : bool :=
  match v with
  | VNull | VBoolean _ => true
  | VInteger digits =>
      (byte_len (integer_digits digits) <=? MAX_INTEGER_DIGITS_V0)%Z && canonical_integer digits
  | VString s => (char_count s <=? MAX_NORMALIZED_STRING_SCALARS_V0)%Z
  | VArray values => forallb value_ok values
  | VObject entries => forallb (λ kv, ascii_name kv.1 && value_ok kv.2) entries
  end.

Lemma validate_integer_Ok s path :
  validate_integer s path = Ok () ↔
  (byte_len (integer_digits s) <=? MAX_INTEGER_DIGITS_V0)%Z && canonical_integer s = true.
Proof.
  unfold validate_integer. rewrite andb_true_iff, Z.leb_le.
  destruct (Z.ltb_spec MAX_INTEGER_DIGITS_V0 (byte_len (integer_digits s))); [split; [done|lia]|].
  destruct (canonical_integer s); simpl; split; try done; naive_solver.
Qed.

Lemma validate_array_Ok values path index :
  Forall (λ v, ∀ path, validate_normalized_value v path = Ok () ↔ value_ok v = true) values →
  (_ ← try_fold (λ index value,
        _ ← validate_normalized_value value (path +:+ "[" +:+ show_nat index +:+ "]");
        Ok (S index)) index values; Ok ()) = (Ok () : LResult ()) ↔ forallb value_ok values = true.
Proof.
  intros Hall. revert index. induction Hall as [|v values Hv Hall IH]; intros index; [done|].
  cbn [try_fold forallb]. rewrite andb_true_iff, <-(Hv (path +:+ "[" +:+ show_nat index +:+ "]")).
  destruct (validate_normalized_value v _) as [[]|e]; cbn [mbind Result_bind]; [|naive_solver].
  rewrite IH. naive_solver.
Qed.

Lemma validate_object_Ok entries path :
  Forall (λ kv : string * NormalizedValueV0,
    ∀ path, validate_normalized_value kv.2 path = Ok () ↔ value_ok kv.2 = true) entries →
  try_fold (λ _ '(key, value),
        _ ← validate_payload_key key;
        validate_normalized_value value (path +:+ "." +:+ key)) () entries = Ok () ↔
  forallb (λ kv, ascii_name kv.1 && value_ok kv.2) entries = true.
Proof.
  induction 1 as [|[k v] entries Hv Hall IH]; [done|].
  cbn [try_fold forallb fst snd] in *. rewrite !andb_true_iff, <-(Hv (path +:+ "." +:+ k)).
  rewrite <-(validate_ascii_name_Ok "payload field name"), <-IH. unfold validate_payload_key.
  destruct (validate_ascii_name _ k) as [[]|e]; cbn [mbind Result_bind]; [|naive_solver].
  destruct (validate_normalized_value v _) as [[]|e]; cbn [mbind Result_bind]; naive_solver.
Qed.

Lemma validate_normalized_value_Ok v path : validate_normalized_value v path = Ok () ↔ value_ok v = true.
Proof.
  revert path. induction v as [|b|i|u|l IH|l IH] using NormalizedValue_nested_ind; intros path;
    cbn [validate_normalized_value value_ok]; [done|done| | |by apply validate_array_Ok|by apply validate_object_Ok].
  - apply validate_integer_Ok.
  - destruct (Z.ltb_spec MAX_NORMALIZED_STRING_SCALARS_V0 (char_count u));
      [rewrite (proj2 (Z.leb_gt _ _)) by done; done|rewrite (proj2 (Z.leb_le _ _)) by done; done].
Qed.

Definition entry_ok (entry : string * EvidencedV0 NormalizedValueV0) : Prop :=
  ascii_name entry.1 = true ∧ ∃ v, field_ok entry.2 v ∧ value_ok v = true.

(** How many locators a part of the trace carries. *)
Definition count_field {T} (field : EvidencedV0 T) : Z := vec_len (locators_of (ev_evidence field)).
Definition count_entry (entry : string * EvidencedV0 NormalizedValueV0) : Z := count_field entry.2.
Definition count_source_item (item : option (EvidencedV0 string)) : Z :=
  match item with Some f => count_field f | None => 0%Z end.
Definition count_event (e : AgentActionEventV0) : Z :=
  count_field (ae_event_id e) + count_field (ae_sequence_index e) + count_field (ae_kind e) +
  count_source_item (ae_source_item_id e) + sum_of count_entry (btree_iter (ae_payload e)).

Lemma count_field_nonneg {T} (f : EvidencedV0 T) : (0 ≤ count_field f)%Z.
Proof. unfold count_field, vec_len. lia. Qed.

Lemma count_source_item_nonneg i : (0 ≤ count_source_item i)%Z.
Proof. destruct i; simpl; [apply count_field_nonneg|lia]. Qed.

Lemma count_entries_nonneg l : (0 ≤ sum_of count_entry l)%Z.
Proof. apply sum_of_nonneg. intros. apply count_field_nonneg. Qed.

(** Discharge the side condition that enough room is left for more locators. *)
Ltac still_ready := unfold ready, caches, count_field in *; split; [tauto|lia].

Lemma validate_payload_checks entries state :
  ready (sum_of count_entry entries) state →
  checks (try_fold (validate_payload_field raw_records declarations) state entries) state
    (sum_of count_entry entries) (Forall entry_ok entries).
Proof.
  revert state. induction entries as [|[k f] entries IH]; intros state Hr.
  { simpl. split; [constructor|]. split; [apply Hr|lia]. }
  cbn [try_fold validate_payload_field sum_of] in *. rewrite Forall_cons. unfold entry_ok at 1. cbn [fst snd].
  pose proof (count_field_nonneg f). pose proof (count_entries_nonneg entries).
  change (count_entry (k, f)) with (count_field f) in *.
  rewrite <-(validate_ascii_name_Ok "payload field name"). unfold validate_payload_key.
  destruct (validate_ascii_name _ k) as [[]|e]; cbn [mbind Result_bind checks]; [|naive_solver].
  pose proof (validate_required_field_checks ("payload." +:+ k) f state
                ltac:(still_ready)) as Hf.
  destruct (validate_required_field _ _ _ _ _) as [[v state1]|e]; cbn [mbind Result_bind checks]; [|naive_solver].
  destruct Hf as [Hf Hc].
  pose proof (validate_normalized_value_Ok v ("payload." +:+ k)) as Hv.
  destruct (validate_normalized_value v _) as [[]|e]; cbn [mbind Result_bind checks].
  2: { intros [(_ & v' & Hf' & Hv') _]. destruct Hf as [_ Hf], Hf' as [_ Hf'].
       rewrite Hf in Hf'. injection Hf' as <-. by apply Hv in Hv'. }
  specialize (IH state1 ltac:(still_ready)).
  destruct (try_fold _ state1 entries) as [state2|e]; cbn [checks] in *; [|naive_solver].
  destruct IH as [Hall Hc']. split; [|by eapply caches_trans].
  split; [|done]. split; [done|]. exists v. split; [done|]. by apply Hv.
Qed.

(** Everything about an event but the freshness of its identity. *)
Record event_ok (index : nat) (e : AgentActionEventV0) : Prop := {
  ev_id_ok : ∃ id, field_ok (ae_event_id e) id ∧ identifier id = true;
  ev_sequence_ok : ∃ sequence, field_ok (ae_sequence_index e) sequence ∧ u64_val sequence = Z.of_nat index;
  ev_kind_ok : ∃ kind, field_ok (ae_kind e) kind;
  ev_source_ok :
    match ae_source_item_id e with
    | Some item => ∃ value, field_ok item value ∧ identifier value = true
    | None => True
    end;
  ev_record_ok : u64_val (rr_record_index (ae_raw_record e)) = Z.of_nat index;
  ev_digest_ok : valid_digest (rr_digest (ae_raw_record e)) ∧
    rr_digest (ae_raw_record e) = raw_record_digest_v0 (raw_records !!! index);
  ev_payload_ok : Forall entry_ok (btree_iter (ae_payload e));
}.

Definition event_fresh (seen : gset string) (e : AgentActionEventV0) : Prop :=
  ∀ id, ev_value (ae_event_id e) = Some id → id ∉ seen.

Lemma validate_source_checks item state :
  ready (count_source_item item) state →
  checks
    (match item with
     | Some source_item_id =>
         '(value, state) ←
           validate_required_field "source_item_id" source_item_id raw_records declarations state;
         _ ← validate_identifier "source_item_id" value;
         Ok state
     | None => Ok state
     end) state (count_source_item item)
    (match item with Some i => ∃ value, field_ok i value ∧ identifier value = true | None => True end).
Proof.
  intros Hr. destruct item as [item|]; simpl; [|split; [done|]; split; [apply Hr|lia]].
  pose proof (validate_required_field_checks "source_item_id" item state Hr) as Hf.
  destruct (validate_required_field _ _ _ _ _) as [[v state1]|e]; cbn [mbind Result_bind checks]; [|naive_solver].
  destruct Hf as [Hf Hc]. pose proof (validate_identifier_Ok "source_item_id" v) as Hi.
  destruct (validate_identifier _ v) as [[]|e]; cbn [mbind Result_bind checks].
  - split; [|done]. exists v. split; [done|]. by apply Hi.
  - intros (v' & Hf' & Hv'). destruct Hf as [_ Hf], Hf' as [_ Hf'].
    rewrite Hf in Hf'. injection Hf' as <-. by apply Hi in Hv'.
Qed.

(** A field has at most one value. *)
Lemma field_ok_value {T} (f : EvidencedV0 T) v v' : field_ok f v → field_ok f v' → v = v'.
Proof. intros [_ Hv] [_ Hv']. congruence. Qed.

(** Go on after a field, or leave because the field is what is wrong. *)
Ltac field_step name f state state' v Hf Hc :=
  pose proof (validate_required_field_checks name f state ltac:(still_ready)) as Hf;
  destruct (validate_required_field name f raw_records declarations state) as [[v state']|?];
  cbn [mbind Result_bind]; [destruct Hf as [Hf Hc]; change (vec_len (locators_of (ev_evidence f))) with (count_field f) in Hc|].

Lemma validate_event_checks index e seen state :
  ready (count_event e) state → (Z.of_nat index < 2 ^ 64)%Z →
  match validate_event raw_records declarations (seen, state) (index, e) with
  | Ok (seen', state') =>
      (event_ok index e ∧ event_fresh seen e) ∧ caches (count_event e) state state' ∧
      ∃ id, ev_value (ae_event_id e) = Some id ∧ seen' = {[id]} ∪ seen
  | Err _ => ¬ (event_ok index e ∧ event_fresh seen e)
  end.
Proof.
  intros Hr Hidx. unfold validate_event, count_event in *.
  destruct (u64_try_from_total (Z.of_nat index)) as (expected & -> & Hex); [lia|].
  cbn [ok_or mbind Result_bind].
  pose proof (count_field_nonneg (ae_event_id e)). pose proof (count_field_nonneg (ae_sequence_index e)).
  pose proof (count_field_nonneg (ae_kind e)). pose proof (count_source_item_nonneg (ae_source_item_id e)).
  pose proof (count_entries_nonneg (btree_iter (ae_payload e))).
  field_step "event_id" (ae_event_id e) state s1 eid Hid Hc1; [|intros [[(? & ? & _)] _]; by eapply Hid].
  pose proof (validate_identifier_Ok "event_id" eid) as Hiok.
  destruct (validate_identifier _ eid) as [[]|?]; cbn [mbind Result_bind].
  2: { intros [[(id' & Hid' & Hi)] _]. rewrite (field_ok_value _ _ _ Hid' Hid) in Hi. by apply Hiok in Hi. }
  apply proj1 in Hiok. specialize (Hiok eq_refl).
  case_bool_decide as Hseen; cbn [invalid].
  { intros [_ Hfresh]. apply (Hfresh eid); [apply Hid|done]. }
  field_step "sequence_index" (ae_sequence_index e) s1 s2 sq Hsq Hc2; [|intros [[_ (? & ? & _)] _]; by eapply Hsq].
  case_bool_decide as Hseq; cbn [negb invalid].
  2: { intros [[_ (sq' & Hsq' & Hv)] _]. rewrite (field_ok_value _ _ _ Hsq' Hsq) in Hv.
       apply Hseq, u64_eq. congruence. }
  field_step "kind" (ae_kind e) s2 s3 kd Hkd Hc3; [|intros [[_ _ (? & ?)] _]; by eapply Hkd].
  pose proof (validate_source_checks (ae_source_item_id e) s3 ltac:(still_ready)) as Hsrc.
  match goal with |- context [match ae_source_item_id e with Some _ => _ | None => Ok s3 end] =>
    destruct (match ae_source_item_id e with Some _ => _ | None => Ok s3 end) as [s4|?] end;
    cbn [mbind Result_bind checks] in *; [destruct Hsrc as [Hsrc Hc4]|intros [[_ _ _ ?] _]; tauto].
  case_bool_decide as Hrec; cbn [negb invalid].
  2: { intros [[_ _ _ _ Hv] _]. apply Hrec, u64_eq. congruence. }
  pose proof (validate_digest_Ok "raw-record digest" (rr_digest (ae_raw_record e))) as Hdg.
  destruct (validate_digest _ _) as [[]|?]; cbn [mbind Result_bind].
  2: { intros [[_ _ _ _ _ [Hv _]] _]. by apply Hdg in Hv. }
  case_bool_decide as Hrd; cbn [negb invalid].
  2: { by intros [[_ _ _ _ _ [_ Hv]] _]. }
  pose proof (validate_payload_checks (btree_iter (ae_payload e)) s4 ltac:(still_ready)) as Hp.
  destruct (try_fold _ s4 _) as [s5|?]; cbn [mbind Result_bind checks] in *.
  2: { intros [[_ _ _ _ _ _ Hv] _]. tauto. }
  destruct Hp as [Hp Hc5]. split_and!.
  - split; try done.
    + by exists eid.
    + exists sq. split; [done|]. congruence.
    + by exists kd.
    + congruence.
    + split; [|done]. by apply Hdg.
  - intros id' Hid'. destruct Hid as [_ Hv]. by simplify_eq.
  - unfold caches in *. split; [tauto|lia].
  - exists eid. split; [apply Hid|done].
Qed.

(** The identities of the events of a trace, in order. *)
Definition event_ids (events : list AgentActionEventV0) : list (option string) :=
  (λ e, ev_value (ae_event_id e)) <$> events.

Lemma validate_events_checks start events seen state :
  ready (sum_of count_event events) state → (Z.of_nat start + vec_len events < 2 ^ 64)%Z →
  is_ok (try_fold (validate_event raw_records declarations) (seen, state)
           (zip (seq start (length events)) events)) = true ↔
  (∀ i e, events !! i = Some e → event_ok (start + i) e) ∧ NoDup (event_ids events) ∧
  Forall (event_fresh seen) events.
Proof.
  revert start seen state. induction events as [|e events IH]; intros start seen state Hr Hlen.
  { simpl. split; [|done]. intros _. split_and!; [done|constructor..]. }
  rewrite vec_len_cons in Hlen. assert (0 ≤ vec_len events)%Z by (unfold vec_len; lia).
  assert (0 ≤ sum_of count_event events)%Z.
  { apply sum_of_nonneg. intros x _. unfold count_event.
    pose proof (count_field_nonneg (ae_event_id x)). pose proof (count_field_nonneg (ae_sequence_index x)).
    pose proof (count_field_nonneg (ae_kind x)). pose proof (count_source_item_nonneg (ae_source_item_id x)).
    pose proof (count_entries_nonneg (btree_iter (ae_payload x))). lia. }
  cbn [length seq zip try_fold sum_of] in *. cbn [zip_with] in *. cbn [try_fold].
  pose proof (validate_event_checks start e seen state ltac:(still_ready) ltac:(lia)) as He.
  assert (Hhead : (∀ i e', (e :: events) !! i = Some e' → event_ok (start + i) e') ↔
    event_ok start e ∧ ∀ i e', events !! i = Some e' → event_ok (S start + i) e').
  { split.
    - intros Hall. split; [rewrite <-(Nat.add_0_r start); by apply (Hall 0)|].
      intros i e' Hi. replace (S start + i) with (start + S i) by lia. by apply (Hall (S i)).
    - intros [Hz Hall] [|i] e' Hi; [injection Hi as <-; by rewrite Nat.add_0_r|].
      replace (start + S i) with (S start + i) by lia. by apply Hall. }
  rewrite Hhead. unfold event_ids at 1. rewrite fmap_cons, NoDup_cons, Forall_cons. fold (event_ids events).
  destruct (validate_event _ _ _ _) as [[seen' state']|?]; cbn [mbind Result_bind is_ok]; [|naive_solver].
  destruct He as ([Hok Hfresh] & Hc & id & Hid & ->).
  rewrite (IH (S start) _ state') by (still_ready || lia).
  assert (Forall (event_fresh ({[id]} ∪ seen)) events ↔
    (ev_value (ae_event_id e) ∉ event_ids events) ∧ Forall (event_fresh seen) events) as ->; [|naive_solver].
  rewrite Hid, !Forall_forall. unfold event_fresh, event_ids. rewrite list_elem_of_fmap. split.
  - intros Hf. split.
    + intros (e' & Heq & Hin). apply (Hf e' Hin id); [done|set_solver].
    + intros e' Hin id' Hid' ?. apply (Hf e' Hin id' Hid'). set_solver.
  - intros [Hn Hf] e' Hin id' Hid' [->%elem_of_singleton|?]%elem_of_union; [|by apply (Hf e' Hin id')].
    apply Hn. by exists e'.
Qed.
End evidence.
