(* ===== verification/TraceBudgetSpec.v ===== *)
(** * The resource budget of a trace is exact

    Every step of the budget is charged with what it uses: payload fields,
    content bytes, normalized nodes and cited locators.  [charges] says that a
    step succeeds exactly when its own limits hold and the totals stay within
    the limits; it composes, so the whole budget is the conjunction of the
    local limits with bounds on the totals of the trace. *)

From S2P Require Import Prelude Encoding Trajectory F64 Errors JsonScan TraceValidation TraceCanonical TraceValidationSpec.
From stdpp Require Import options.

(* ------------------------------------------------------------------ *)
(** ** What a step uses *)

Record Use := mkUse {
  u_fields : Z;
  u_content : Z;
  u_nodes : Z;
  u_locators : list SourceLocatorV0;
}.

Definition use_zero : Use := mkUse 0 0 0 [].
Definition use_plus (u v : Use) : Use :=
  mkUse (u_fields u + u_fields v) (u_content u + u_content v) (u_nodes u + u_nodes v)
    (u_locators u ++ u_locators v).

Fixpoint use_sum {A} (f : A → Use) (l : list A) : Use :=
  match l with [] => use_zero | x :: l => use_plus (f x) (use_sum f l) end.

Definition use_nonneg (u : Use) : Prop :=
  (0 ≤ u_fields u ∧ 0 ≤ u_content u ∧ 0 ≤ u_nodes u)%Z.

(** The bytes of a set of distinct ranges. *)
Definition cited_bytes (ranges : gset LocatorRange) : Z := sum_of (λ r, r.2) (elements ranges).

Definition ranges_of (l : list SourceLocatorV0) : gset LocatorRange := list_to_set (locator_range <$> l).

(** The counters after a use. *)
Definition spend (b : PayloadBudget) (u : Use) : PayloadBudget :=
  let ranges := distinct_ranges b ∪ ranges_of (u_locators u) in
  mkBudget (payload_fields b + u_fields u) (payload_content_bytes b + u_content u)
    (normalized_nodes b + u_nodes u) (evidence_locators b + vec_len (u_locators u)) ranges
    (cited_bytes ranges).

(** The counters are within the limits, and the cited bytes are those of the ranges. *)
Definition within_limits (b : PayloadBudget) : Prop :=
  (payload_fields b ≤ MAX_PAYLOAD_FIELDS_TOTAL_V0 ∧
   payload_content_bytes b ≤ MAX_PAYLOAD_CONTENT_BYTES_TOTAL_V0 ∧
   normalized_nodes b ≤ MAX_NORMALIZED_NODES_V0 ∧
   evidence_locators b ≤ MAX_EVIDENCE_LOCATORS_V0 ∧
   distinct_cited_bytes b ≤ MAX_DISTINCT_CITED_BYTES_V0)%Z.

Definition accounted (b : PayloadBudget) : Prop := distinct_cited_bytes b = cited_bytes (distinct_ranges b).

(** A step succeeds exactly when [local] holds and the use can be afforded. *)
Definition charges (r : LResult PayloadBudget) (b : PayloadBudget) (local : Prop) (u : Use) : Prop :=
  match r with
  | Ok b' => local ∧ within_limits (spend b u) ∧ b' = spend b u
  | Err _ => ¬ (local ∧ within_limits (spend b u))
  end.

Lemma sum_of_perm {A} (f : A → Z) l k : l ≡ₚ k → sum_of f l = sum_of f k.
Proof. induction 1; simpl; lia. Qed.

Lemma cited_bytes_insert r ranges :
  r ∉ ranges → cited_bytes ({[r]} ∪ ranges) = (r.2 + cited_bytes ranges)%Z.
Proof.
  intros Hr. unfold cited_bytes. rewrite (sum_of_perm _ _ (r :: elements ranges)); [done|].
  by apply elements_union_singleton.
Qed.

Lemma cited_bytes_union ranges l :
  (cited_bytes ranges ≤ cited_bytes (ranges ∪ ranges_of l))%Z.
Proof.
  revert ranges. induction l as [|x l IH]; intros ranges.
  - unfold ranges_of; simpl. rewrite union_empty_r_L. lia.
  - unfold ranges_of in *. rewrite fmap_cons. simpl.
    replace (ranges ∪ ({[locator_range x]} ∪ list_to_set (locator_range <$> l)))
      with (({[locator_range x]} ∪ ranges) ∪ list_to_set (locator_range <$> l)) by set_solver.
    etrans; [|apply IH]. destruct (decide (locator_range x ∈ ranges)).
    + replace ({[locator_range x]} ∪ ranges) with ranges by set_solver. lia.
    + rewrite cited_bytes_insert by done. simpl. pose proof (u64_range (sl_byte_length x)). lia.
Qed.

Lemma spend_zero b : accounted b → spend b use_zero = b.
Proof.
  intros Ha. destruct b as [f c n e d cb]. unfold accounted, spend, ranges_of, vec_len in *; simpl in *.
  rewrite union_empty_r_L, !Z.add_0_r. by rewrite Ha.
Qed.

Lemma spend_plus b u v : spend (spend b u) v = spend b (use_plus u v).
Proof.
  unfold spend; simpl.
  assert (distinct_ranges b ∪ ranges_of (u_locators u) ∪ ranges_of (u_locators v) =
    distinct_ranges b ∪ ranges_of (u_locators u ++ u_locators v)) as ->.
  { unfold ranges_of. rewrite fmap_app. set_solver. }
  rewrite vec_len_app. f_equal; lia.
Qed.

Lemma accounted_spend b u : accounted (spend b u).
Proof. done. Qed.

Lemma within_limits_less b u v :
  use_nonneg v → within_limits (spend b (use_plus u v)) → within_limits (spend b u).
Proof.
  rewrite <-spend_plus. unfold use_nonneg, within_limits. simpl.
  pose proof (cited_bytes_union (distinct_ranges b ∪ ranges_of (u_locators u)) (u_locators v)).
  unfold vec_len. lia.
Qed.

Lemma use_plus_zero_l u : use_plus use_zero u = u.
Proof. by destruct u. Qed.

Lemma use_plus_zero_r u : use_plus u use_zero = u.
Proof. destruct u. unfold use_plus; simpl. by rewrite !Z.add_0_r, app_nil_r. Qed.

Lemma use_plus_assoc u v w : use_plus u (use_plus v w) = use_plus (use_plus u v) w.
Proof. unfold use_plus; simpl. rewrite app_assoc. f_equal; lia. Qed.

Lemma use_nonneg_plus u v : use_nonneg u → use_nonneg v → use_nonneg (use_plus u v).
Proof. unfold use_nonneg. simpl. lia. Qed.

Lemma use_nonneg_sum {A} (f : A → Use) l : Forall (λ x, use_nonneg (f x)) l → use_nonneg (use_sum f l).
Proof. induction 1; simpl; [done|]. by apply use_nonneg_plus. Qed.

#[export] Hint Resolve use_nonneg_plus : legit.

(* ------------------------------------------------------------------ *)
(** ** Composition *)

Global Instance charges_proper r b : Proper (iff ==> (=) ==> iff) (charges r b).
Proof. intros P Q HPQ u v ->. unfold charges. destruct r; by rewrite HPQ. Qed.

Lemma charges_nothing b : accounted b → within_limits b → charges (Ok b) b True use_zero.
Proof. intros Ha Hw. unfold charges. by rewrite spend_zero. Qed.

(** A check that uses nothing. *)
Lemma charges_check (r : LResult ()) b local (k : LResult PayloadBudget) localk u :
  (r = Ok () ↔ local) → charges k b localk u → charges (_ ← r; k) b (local ∧ localk) u.
Proof.
  intros Hr Hk. destruct r as [[]|e]; simpl.
  - unfold charges in *. destruct k; naive_solver.
  - intros [[? _] _]. by apply Hr in H.
Qed.

Lemma charges_bind r b local u (k : PayloadBudget → LResult PayloadBudget) local' u' :
  charges r b local u → use_nonneg u' →
  (accounted (spend b u) → within_limits (spend b u) → charges (k (spend b u)) (spend b u) local' u') →
  charges (r ≫= k) b (local ∧ local') (use_plus u u').
Proof.
  intros Hr Hn Hk. destruct r as [b'|e]; cbn [mbind Result_bind charges] in *.
  - destruct Hr as (Hl & Hw & ->). specialize (Hk (accounted_spend b u) Hw).
    unfold charges in *. destruct (k (spend b u)) as [b''|e]; rewrite spend_plus in Hk; naive_solver.
  - intros [[? _] Hw]. apply Hr. split; [done|]. by eapply within_limits_less.
Qed.

Lemma charges_fold {A} (f : PayloadBudget → A → LResult PayloadBudget) (local : A → Prop) (u : A → Use) l b :
  accounted b → within_limits b → Forall (λ x, use_nonneg (u x)) l →
  Forall (λ x, ∀ b, accounted b → within_limits b → charges (f b x) b (local x) (u x)) l →
  charges (try_fold f b l) b (Forall local l) (use_sum u l).
Proof.
  intros Ha Hw Hn Hf. revert b Ha Hw. induction Hf as [|x l Hx Hf IH]; intros b Ha Hw.
  - cbn [try_fold use_sum]. assert (Forall local [] ↔ True) as -> by (split; auto).
    by apply charges_nothing.
  - apply Forall_cons in Hn as [Hnx Hn]. cbn [try_fold use_sum]. rewrite Forall_cons.
    apply charges_bind; [by apply Hx|by apply use_nonneg_sum|]. auto.
Qed.

(* ------------------------------------------------------------------ *)
(** ** The counters *)

(** The additions of the budget, all of one shape. *)
Lemma counter_cases (n k limit : Z) (e : LegitimacyError) :
  (limit < 2 ^ 64)%Z →
  match ok_or (checked_add n k) e with
  | Ok m => m = (n + k)%Z
  | Err _ => (limit < n + k)%Z
  end.
Proof.
  intros Hl. destruct (checked_add n k) as [m|] eqn:Hc; simpl.
  - by apply checked_add_Some in Hc as [-> _].
  - unfold checked_add in Hc. case_match eqn:Hlt; [done|]. apply Z.ltb_ge in Hlt. lia.
Qed.

Definition use_content (n : Z) : Use := mkUse 0 n 0 [].
Definition use_field (n : Z) : Use := mkUse 1 n 0 [].
Definition use_node : Use := mkUse 0 0 1 [].
Definition use_locator (l : SourceLocatorV0) : Use := mkUse 0 0 0 [l].

Lemma spend_no_locators b f c n :
  accounted b →
  spend b (mkUse f c n []) =
  mkBudget (payload_fields b + f) (payload_content_bytes b + c) (normalized_nodes b + n)
    (evidence_locators b) (distinct_ranges b) (distinct_cited_bytes b).
Proof.
  intros Ha. unfold spend, ranges_of, vec_len; simpl. by rewrite union_empty_r_L, Z.add_0_r, <-Ha.
Qed.

Lemma add_content_bytes_charges b n :
  accounted b → within_limits b → charges (add_content_bytes b n) b True (use_content n).
Proof.
  intros Ha Hw. unfold add_content_bytes, use_content.
  pose proof (counter_cases (payload_content_bytes b) n MAX_PAYLOAD_CONTENT_BYTES_TOTAL_V0
    (invalid_input [Txt "payload content byte count overflow"]) ltac:(done)) as Hc.
  destruct (ok_or _ _) as [m|e]; cbn [mbind Result_bind charges]; rewrite ?spend_no_locators by done.
  - subst m. destruct (Z.ltb_spec MAX_PAYLOAD_CONTENT_BYTES_TOTAL_V0 (payload_content_bytes b + n));
      cbn [invalid charges]; rewrite spend_no_locators by done; unfold within_limits in *; simpl.
    + lia.
    + rewrite !Z.add_0_r. split_and!; done || lia.
  - unfold within_limits; simpl. lia.
Qed.

Lemma add_field_charges b n :
  accounted b → within_limits b → (0 ≤ n)%Z → charges (add_field b n) b True (use_field n).
Proof.
  intros Ha Hw Hn. unfold add_field.
  pose proof (counter_cases (payload_fields b) 1 MAX_PAYLOAD_FIELDS_TOTAL_V0
    (invalid_input [Txt "payload field count overflow"]) ltac:(done)) as Hc.
  unfold use_field.
  destruct (ok_or _ _) as [m|e]; cbn [mbind Result_bind charges]; [|rewrite spend_no_locators by done; unfold within_limits; simpl; lia].
  subst m. destruct (Z.ltb_spec MAX_PAYLOAD_FIELDS_TOTAL_V0 (payload_fields b + 1)).
  - cbn [invalid charges]. rewrite spend_no_locators by done. unfold within_limits; simpl. lia.
  - pose proof (add_content_bytes_charges
      (mkBudget (payload_fields b + 1) (payload_content_bytes b) (normalized_nodes b)
         (evidence_locators b) (distinct_ranges b) (distinct_cited_bytes b)) n) as Hk.
    unfold charges in *. unfold use_content in Hk.
    rewrite spend_no_locators in Hk by done. rewrite spend_no_locators by done.
    simpl in *. rewrite !Z.add_0_r in *. apply Hk; [done|]. unfold within_limits in *; simpl. lia.
Qed.

Lemma check_short_string_Ok name value n kind :
  check_short_string name value n kind = Ok () ↔ (byte_len value ≤ n)%Z.
Proof.
  unfold check_short_string, invalid. destruct (Z.ltb_spec n (byte_len value)); split; try done; lia.
Qed.

Lemma add_node_charges b depth :
  accounted b → within_limits b →
  charges (add_node b depth) b (depth ≤ MAX_NORMALIZED_DEPTH_V0)%Z use_node.
Proof.
  intros Ha Hw. unfold add_node, use_node.
  destruct (Z.ltb_spec MAX_NORMALIZED_DEPTH_V0 depth); [cbn [invalid charges]; lia|].
  pose proof (counter_cases (normalized_nodes b) 1 MAX_NORMALIZED_NODES_V0
    (invalid_input [Txt "normalized node count overflow"]) ltac:(done)) as Hc.
  destruct (ok_or _ _) as [m|e]; cbn [mbind Result_bind charges];
    [|rewrite spend_no_locators by done; unfold within_limits; simpl; lia].
  subst m. destruct (Z.ltb_spec MAX_NORMALIZED_NODES_V0 (normalized_nodes b + 1));
    cbn [invalid charges]; rewrite spend_no_locators by done; unfold within_limits in *; simpl.
  - lia.
  - rewrite !Z.add_0_r. split_and!; done || lia.
Qed.

Definition locator_small (l : SourceLocatorV0) : Prop := (byte_len (sl_digest l) ≤ 71)%Z.

Lemma add_locator_charges b l :
  accounted b → within_limits b → charges (add_locator b l) b (locator_small l) (use_locator l).
Proof.
  intros Ha Hw. unfold add_locator, locator_small.
  pose proof (check_short_string_Ok "source-locator digest" (sl_digest l) 71 "digest") as Hs.
  destruct (check_short_string _ _ _ _) as [[]|e]; cbn [mbind Result_bind charges]; [|naive_solver].
  apply proj1 in Hs. specialize (Hs eq_refl).
  pose proof (counter_cases (evidence_locators b) 1 MAX_EVIDENCE_LOCATORS_V0
    (invalid_input [Txt "evidence locator count overflow"]) ltac:(done)) as Hc.
  assert (ranges_of [l] = {[locator_range l]}) as Hl by (unfold ranges_of; set_solver).
  assert (vec_len [l] = 1%Z) as H1 by done.
  destruct (ok_or _ _) as [m|e]; cbn [mbind Result_bind];
    [|cbn [charges]; unfold within_limits, spend, use_locator; simpl; rewrite H1; lia].
  subst m. destruct (Z.ltb_spec MAX_EVIDENCE_LOCATORS_V0 (evidence_locators b + 1)).
  { cbn [invalid charges]. unfold within_limits, spend, use_locator; simpl. rewrite H1. lia. }
  case_bool_decide as Hin.
  - unfold charges, spend, use_locator; simpl. rewrite Hl, H1, !Z.add_0_r.
    replace (distinct_ranges b ∪ {[locator_range l]}) with (distinct_ranges b) by set_solver.
    rewrite <-Ha. unfold within_limits in *; simpl. split_and!; done || lia.
  - pose proof (counter_cases (distinct_cited_bytes b) (u64_val (sl_byte_length l))
      MAX_DISTINCT_CITED_BYTES_V0 (invalid_input [Txt "distinct cited byte count overflow"]) ltac:(done)) as Hc2.
    assert (cited_bytes (distinct_ranges b ∪ {[locator_range l]}) =
      (distinct_cited_bytes b + u64_val (sl_byte_length l))%Z) as Hcited.
    { rewrite union_comm_L, cited_bytes_insert by done. rewrite Ha. simpl. lia. }
    destruct (ok_or _ _) as [m|e]; cbn [mbind Result_bind];
      [subst m; destruct (Z.ltb_spec MAX_DISTINCT_CITED_BYTES_V0 (distinct_cited_bytes b + u64_val (sl_byte_length l)))|];
      cbn [invalid charges]; unfold within_limits, spend, use_locator in *; simpl; rewrite Hl, H1, Hcited;
      [lia| |lia].
    rewrite !Z.add_0_r, (union_comm_L (distinct_ranges b)). split_and!; done || lia.
Qed.

(* ------------------------------------------------------------------ *)
(** ** Evidence *)

Definition binding_small (b : ArtifactBindingV0) : Prop :=
  (byte_len (ab_identity b) ≤ 128 ∧ byte_len (ab_version b) ≤ 64 ∧ byte_len (ab_hash b) ≤ 71)%Z.

Lemma check_binding_sizes_Ok name b : check_binding_sizes name b = Ok () ↔ binding_small b.
Proof. unfold check_binding_sizes, binding_small. by rewrite !unit_bind_Ok, !check_short_string_Ok. Qed.

Definition evidence_small (e : EvidenceV0) : Prop :=
  match e with
  | CitesRawRange l => locator_small l
  | DeclaredDerivationBinding rule inputs =>
      binding_small rule ∧ (vec_len inputs ≤ MAX_DERIVATION_INPUTS_V0)%Z ∧ Forall locator_small inputs
  | Unavailable reason => (byte_len reason ≤ MAX_EVIDENCE_REASON_BYTES_V0)%Z
  end.

Definition use_evidence (e : EvidenceV0) : Use := mkUse 0 0 0 (locators_of e).

Lemma use_sum_locators inputs : use_sum use_locator inputs = mkUse 0 0 0 inputs.
Proof. induction inputs as [|l inputs IH]; [done|]. simpl. rewrite IH. done. Qed.

(** A limit tested before going on. *)
Lemma charges_limit (n limit : Z) (msg : Message) b local (k : LResult PayloadBudget) u :
  charges k b local u →
  charges (if (limit <? n)%Z then invalid msg else k) b ((n ≤ limit)%Z ∧ local) u.
Proof.
  intros Hk. destruct (Z.ltb_spec limit n); cbn [invalid charges].
  - lia.
  - unfold charges in *. destruct k; naive_solver.
Qed.

Lemma add_evidence_charges b e :
  accounted b → within_limits b → charges (add_evidence b e) b (evidence_small e) (use_evidence e).
Proof.
  intros Ha Hw. destruct e as [l|rule inputs|reason]; cbn [add_evidence evidence_small].
  - by apply add_locator_charges.
  - apply charges_check; [apply check_binding_sizes_Ok|]. apply charges_limit.
    unfold use_evidence; simpl. rewrite <-use_sum_locators.
    apply charges_fold; [done..| |]; apply Forall_forall; intros l _; [done|].
    intros b' ? ?. by apply add_locator_charges.
  - assert ((byte_len reason ≤ MAX_EVIDENCE_REASON_BYTES_V0)%Z ↔
      (byte_len reason ≤ MAX_EVIDENCE_REASON_BYTES_V0)%Z ∧ True) as -> by tauto.
    apply charges_limit. by apply charges_nothing.
Qed.

(* ------------------------------------------------------------------ *)
(** ** Normalized values *)

Fixpoint value_small (depth : Z) (v : NormalizedValueV0) : bool :=
  (depth <=? MAX_NORMALIZED_DEPTH_V0)%Z &&
  match v with
  | VNull | VBoolean _ => true
  | VInteger digits => (byte_len digits <=? MAX_INTEGER_DIGITS_V0 + 1)%Z
  | VString s => (byte_len s <=? MAX_NORMALIZED_STRING_BYTES_V0)%Z
  | VArray values =>
      (vec_len values <=? MAX_NORMALIZED_ARRAY_ITEMS_V0)%Z && forallb (value_small (depth + 1)) values
  | VObject entries =>
      (vec_len entries <=? MAX_PAYLOAD_FIELDS_PER_OBJECT_V0)%Z &&
      forallb (λ kv, (byte_len kv.1 <=? 128)%Z && value_small (depth + 1) kv.2) entries
  end.

Fixpoint use_value (v : NormalizedValueV0) : Use :=
  use_plus use_node
    match v with
    | VNull | VBoolean _ => use_zero
    | VInteger s | VString s => use_content (byte_len s)
    | VArray values => use_sum use_value values
    | VObject entries =>
        use_sum (λ kv, use_plus (use_field (byte_len kv.1)) (use_value kv.2)) entries
    end.

Lemma use_value_nonneg v : use_nonneg (use_value v).
Proof.
  induction v as [|b|i|u|l IH|l IH] using NormalizedValue_nested_ind; cbn [use_value];
    apply use_nonneg_plus; try done.
  - unfold use_nonneg, use_content; simpl. pose proof (byte_len_nonneg i). lia.
  - unfold use_nonneg, use_content; simpl. pose proof (byte_len_nonneg u). lia.
  - by apply use_nonneg_sum.
  - apply use_nonneg_sum. eapply Forall_impl; [exact IH|]. intros [k v] Hv.
    apply use_nonneg_plus; [|done]. unfold use_nonneg, use_field; simpl.
    pose proof (byte_len_nonneg k). lia.
Qed.

Lemma use_field_nonneg k : use_nonneg (use_field (byte_len k)).
Proof. unfold use_nonneg; simpl. pose proof (byte_len_nonneg k). lia. Qed.

Lemma use_content_nonneg s : use_nonneg (use_content (byte_len s)).
Proof. unfold use_nonneg; simpl. pose proof (byte_len_nonneg s). lia. Qed.
#[export] Hint Resolve use_value_nonneg use_field_nonneg use_content_nonneg : legit.

Definition value_charges (v : NormalizedValueV0) : Prop := ∀ b depth,
  accounted b → within_limits b →
  charges (add_normalized_value b v depth) b (value_small depth v = true) (use_value v).

Lemma child_depth_small depth : (depth ≤ MAX_NORMALIZED_DEPTH_V0)%Z → child_depth depth = Ok (depth + 1)%Z.
Proof.
  intros Hd. unfold child_depth. rewrite (proj2 (checked_add_Some depth 1 (depth + 1))); [done|].
  unfold MAX_NORMALIZED_DEPTH_V0 in Hd. lia.
Qed.

(** A node followed by its content, when the depth allows it. *)
Lemma node_charges b depth (k : PayloadBudget → LResult PayloadBudget) local u :
  accounted b → within_limits b → use_nonneg u →
  ((depth ≤ MAX_NORMALIZED_DEPTH_V0)%Z → ∀ b', accounted b' → within_limits b' → charges (k b') b' local u) →
  charges (budget ← add_node b depth; k budget) b ((depth ≤ MAX_NORMALIZED_DEPTH_V0)%Z ∧ local)
    (use_plus use_node u).
Proof.
  intros Ha Hw Hn Hk. destruct (decide (depth ≤ MAX_NORMALIZED_DEPTH_V0)%Z) as [Hd|Hd].
  - apply charges_bind; [by apply add_node_charges|done|]. auto.
  - unfold add_node. rewrite (proj2 (Z.ltb_lt _ _)) by lia. simpl. naive_solver.
Qed.

Lemma value_content_charges b s limit msg :
  accounted b → within_limits b →
  charges (if (limit <? byte_len s)%Z then invalid msg else add_content_bytes b (byte_len s)) b
    ((byte_len s <=? limit)%Z = true) (use_content (byte_len s)).
Proof.
  intros Ha Hw. assert ((byte_len s <=? limit)%Z = true ↔ (byte_len s ≤ limit)%Z ∧ True) as ->
    by (rewrite Z.leb_le; tauto).
  apply charges_limit. by apply add_content_bytes_charges.
Qed.

Lemma array_charges values b depth :
  accounted b → within_limits b → (depth ≤ MAX_NORMALIZED_DEPTH_V0)%Z → Forall value_charges values →
  charges
    (if (MAX_NORMALIZED_ARRAY_ITEMS_V0 <? vec_len values)%Z then
       invalid [Txt "normalized array size exceeds v0 limit of "; Int MAX_NORMALIZED_ARRAY_ITEMS_V0]
     else
       depth ← child_depth depth;
       try_fold (λ budget value, add_normalized_value budget value depth) b values) b
    ((vec_len values <=? MAX_NORMALIZED_ARRAY_ITEMS_V0)%Z && forallb (value_small (depth + 1)) values = true)
    (use_sum use_value values).
Proof.
  intros Ha Hw Hd Hall. rewrite andb_true_iff, Z.leb_le, forallb_Forall_true.
  apply charges_limit. rewrite child_depth_small by done. cbn [mbind Result_bind].
  apply charges_fold; [done..| |].
  - apply Forall_forall. auto with legit.
  - eapply Forall_impl; [exact Hall|]. intros v Hv b' ? ?. by apply Hv.
Qed.

Lemma object_entry_charges k v b depth :
  accounted b → within_limits b → value_charges v →
  charges
    (_ ← check_short_string "normalized object field name" k 128 "artifact name";
     budget ← add_field b (byte_len k);
     add_normalized_value budget v depth) b
    ((byte_len k <=? 128)%Z && value_small depth v = true)
    (use_plus (use_field (byte_len k)) (use_value v)).
Proof.
  intros Ha Hw Hv. rewrite andb_true_iff, Z.leb_le.
  apply charges_check; [apply check_short_string_Ok|].
  assert (value_small depth v = true ↔ True ∧ value_small depth v = true) as -> by tauto.
  apply charges_bind; [apply add_field_charges; auto using byte_len_nonneg|auto with legit|].
  intros ? ?. by apply Hv.
Qed.

Lemma object_charges entries b depth :
  accounted b → within_limits b → (depth ≤ MAX_NORMALIZED_DEPTH_V0)%Z →
  Forall (λ kv, value_charges kv.2) entries →
  charges
    (if (MAX_PAYLOAD_FIELDS_PER_OBJECT_V0 <? vec_len entries)%Z then
       invalid [Txt "normalized object field count exceeds v0 per-object limit of ";
                Int MAX_PAYLOAD_FIELDS_PER_OBJECT_V0]
     else
       depth ← child_depth depth;
       try_fold (λ budget '(field_name, value),
         _ ← check_short_string "normalized object field name" field_name 128 "artifact name";
         budget ← add_field budget (byte_len field_name);
         add_normalized_value budget value depth) b entries) b
    ((vec_len entries <=? MAX_PAYLOAD_FIELDS_PER_OBJECT_V0)%Z &&
     forallb (λ kv, (byte_len kv.1 <=? 128)%Z && value_small (depth + 1) kv.2) entries = true)
    (use_sum (λ kv, use_plus (use_field (byte_len kv.1)) (use_value kv.2)) entries).
Proof.
  intros Ha Hw Hd Hall. rewrite andb_true_iff, Z.leb_le, forallb_Forall_true.
  apply charges_limit. rewrite child_depth_small by done. cbn [mbind Result_bind].
  apply charges_fold; [done..| |].
  - apply Forall_forall. auto with legit.
  - eapply Forall_impl; [exact Hall|]. intros [k v] Hv b' ? ?. by apply object_entry_charges.
Qed.

Lemma add_normalized_value_charges v : value_charges v.
Proof.
  induction v as [|c|i|u|l IH|l IH] using NormalizedValue_nested_ind; intros b depth Ha Hw;
    cbn [add_normalized_value value_small use_value]; rewrite andb_true_iff, Z.leb_le;
    (apply node_charges; [done..| |]); auto using use_nonneg_sum with legit.
  - done.
  - intros _ b' ? ?. assert (true = true ↔ True) as -> by tauto. by apply charges_nothing.
  - done.
  - intros _ b' ? ?. assert (true = true ↔ True) as -> by tauto. by apply charges_nothing.
  - intros _ b' ? ?. by apply value_content_charges.
  - intros _ b' ? ?. by apply value_content_charges.
  - apply use_nonneg_sum, Forall_forall. auto with legit.
  - intros ? b' ? ?. by apply array_charges.
  - apply use_nonneg_sum, Forall_forall. auto with legit.
  - intros ? b' ? ?. by apply object_charges.
Qed.

(* ------------------------------------------------------------------ *)
(** ** Entries, events and the trace *)

Definition entry_small (entry : string * EvidencedV0 NormalizedValueV0) : Prop :=
  (byte_len entry.1 ≤ 128)%Z ∧ evidence_small (ev_evidence entry.2) ∧
  match ev_value entry.2 with Some v => value_small 1 v = true | None => True end.

Definition use_entry (entry : string * EvidencedV0 NormalizedValueV0) : Use :=
  use_plus (use_field (byte_len entry.1))
    (use_plus (use_evidence (ev_evidence entry.2))
       match ev_value entry.2 with Some v => use_value v | None => use_zero end).

Lemma use_entry_nonneg entry : use_nonneg (use_entry entry).
Proof.
  unfold use_entry. apply use_nonneg_plus; [auto with legit|]. apply use_nonneg_plus; [done|].
  destruct (ev_value entry.2); [auto with legit|done].
Qed.
#[export] Hint Resolve use_entry_nonneg : legit.

Lemma add_payload_field_charges b entry :
  accounted b → within_limits b → charges (add_payload_field b entry) b (entry_small entry) (use_entry entry).
Proof.
  intros Ha Hw. destruct entry as [k [v e]]. unfold entry_small, use_entry; cbn [fst snd ev_value ev_evidence].
  apply charges_check; [apply check_short_string_Ok|].
  match goal with |- charges _ _ ?L _ => assert (L ↔ True ∧ L) as -> by tauto end.
  apply charges_bind; [apply add_field_charges; auto using byte_len_nonneg| |].
  { apply use_nonneg_plus; [done|]. destruct v; [auto with legit|done]. }
  intros Ha1 Hw1. apply charges_bind; [by apply add_evidence_charges|destruct v; [auto with legit|done]|].
  intros Ha2 Hw2. destruct v as [v|]; [by apply add_normalized_value_charges|by apply charges_nothing].
Qed.

Definition identifier_small (value : option string) : Prop :=
  match value with Some v => (byte_len v ≤ MAX_IDENTIFIER_BYTES_V0)%Z | None => True end.

Lemma check_identifier_size_Ok name value : check_identifier_size name value = Ok () ↔ identifier_small value.
Proof.
  unfold check_identifier_size, identifier_small, invalid. destruct value as [v|]; [|done].
  destruct (Z.ltb_spec MAX_IDENTIFIER_BYTES_V0 (byte_len v)); split; try done; lia.
Qed.

Definition source_small (item : option (EvidencedV0 string)) : Prop :=
  match item with
  | Some f => evidence_small (ev_evidence f) ∧ identifier_small (ev_value f)
  | None => True
  end.
Definition use_source (item : option (EvidencedV0 string)) : Use :=
  match item with Some f => use_evidence (ev_evidence f) | None => use_zero end.

Definition event_small (e : AgentActionEventV0) : Prop :=
  (Z.of_nat (size (ae_payload e)) ≤ MAX_PAYLOAD_FIELDS_PER_OBJECT_V0)%Z ∧
  evidence_small (ev_evidence (ae_event_id e)) ∧ evidence_small (ev_evidence (ae_sequence_index e)) ∧
  evidence_small (ev_evidence (ae_kind e)) ∧ (byte_len (rr_digest (ae_raw_record e)) ≤ 71)%Z ∧
  identifier_small (ev_value (ae_event_id e)) ∧ source_small (ae_source_item_id e) ∧
  Forall entry_small (btree_iter (ae_payload e)).

Definition use_event (e : AgentActionEventV0) : Use :=
  use_plus (use_evidence (ev_evidence (ae_event_id e)))
    (use_plus (use_evidence (ev_evidence (ae_sequence_index e)))
       (use_plus (use_evidence (ev_evidence (ae_kind e)))
          (use_plus (use_source (ae_source_item_id e))
             (use_sum use_entry (btree_iter (ae_payload e)))))).

Lemma use_source_nonneg i : use_nonneg (use_source i).
Proof. by destruct i. Qed.

Lemma use_entries_nonneg l : use_nonneg (use_sum use_entry l).
Proof. apply use_nonneg_sum, Forall_forall. auto with legit. Qed.

Lemma use_evidence_nonneg e : use_nonneg (use_evidence e).
Proof. done. Qed.
#[export] Hint Resolve use_source_nonneg use_entries_nonneg use_evidence_nonneg : legit.

Lemma use_event_nonneg e : use_nonneg (use_event e).
Proof. unfold use_event. auto 10 with legit. Qed.
#[export] Hint Resolve use_event_nonneg : legit.

Lemma add_event_charges b e :
  accounted b → within_limits b → charges (add_event b e) b (event_small e) (use_event e).
Proof.
  intros Ha Hw. unfold add_event, event_small, use_event. apply charges_limit.
  apply charges_bind; [by apply add_evidence_charges|auto 10 with legit|]. intros Ha1 Hw1.
  apply charges_bind; [by apply add_evidence_charges|auto 10 with legit|]. intros Ha2 Hw2.
  apply charges_bind; [by apply add_evidence_charges|auto 10 with legit|]. intros Ha3 Hw3.
  apply charges_check; [apply check_short_string_Ok|].
  apply charges_check; [apply check_identifier_size_Ok|].
  apply charges_bind; [|auto with legit|].
  - destruct (ae_source_item_id e) as [item|]; cbn [source_small use_source]; [|by apply charges_nothing].
    rewrite <-(use_plus_zero_r (use_evidence (ev_evidence item))).
    apply charges_bind; [by apply add_evidence_charges|done|]. intros ? ?.
    assert (identifier_small (ev_value item) ↔ identifier_small (ev_value item) ∧ True) as -> by tauto.
    apply charges_check; [apply check_identifier_size_Ok|by apply charges_nothing].
  - intros Ha4 Hw4. apply charges_fold; [done..| |].
    + apply Forall_forall. auto with legit.
    + apply Forall_forall. intros entry _ b' ? ?. by apply add_payload_field_charges.
Qed.

(** The raw records: each is small, and so is their total. *)
Lemma add_raw_record_cases n r :
  match add_raw_record n r with
  | Ok m => (byte_len r ≤ MAX_RAW_RECORD_BYTES_V0 ∧ m = n + byte_len r ∧ m ≤ MAX_RAW_CAPTURE_BYTES_V0)%Z
  | Err _ => ¬ (byte_len r ≤ MAX_RAW_RECORD_BYTES_V0 ∧ n + byte_len r ≤ MAX_RAW_CAPTURE_BYTES_V0)%Z
  end.
Proof.
  unfold add_raw_record, invalid.
  destruct (Z.ltb_spec MAX_RAW_RECORD_BYTES_V0 (byte_len r)); [lia|].
  pose proof (counter_cases n (byte_len r) MAX_RAW_CAPTURE_BYTES_V0
    (invalid_input [Txt "raw capture byte count overflow"]) ltac:(done)) as Hc.
  destruct (ok_or _ _) as [m|e]; cbn [mbind Result_bind]; [subst m|lia].
  destruct (Z.ltb_spec MAX_RAW_CAPTURE_BYTES_V0 (n + byte_len r)); lia.
Qed.

Lemma add_raw_records_Ok n records :
  (0 ≤ n ≤ MAX_RAW_CAPTURE_BYTES_V0)%Z →
  is_ok (try_fold add_raw_record n records) = true ↔
  Forall (λ r, byte_len r ≤ MAX_RAW_RECORD_BYTES_V0)%Z records ∧
  (n + sum_of byte_len records ≤ MAX_RAW_CAPTURE_BYTES_V0)%Z.
Proof.
  revert n. induction records as [|r records IH]; intros n Hn; cbn [try_fold sum_of].
  { rewrite Z.add_0_r. split; [intros _; split; [by apply Forall_nil|lia]|done]. }
  pose proof (byte_len_nonneg r). pose proof (sum_of_nonneg byte_len records (λ x _, byte_len_nonneg x)).
  rewrite Forall_cons. pose proof (add_raw_record_cases n r) as Hr.
  destruct (add_raw_record n r) as [m|e]; cbn [mbind Result_bind is_ok]; [|split; [done|lia]].
  destruct Hr as (? & -> & ?). rewrite IH by lia. rewrite <-Z.add_assoc. naive_solver.
Qed.

Definition use_trace (trace : TrajectoryTraceV0) : Use :=
  use_plus (use_evidence (ev_evidence (tt_run_id trace))) (use_sum use_event (tt_events trace)).

(** The totals of a trace, as the limits bound them. *)
Record totals_bounded (u : Use) : Prop := {
  tb_fields : (u_fields u ≤ MAX_PAYLOAD_FIELDS_TOTAL_V0)%Z;
  tb_content : (u_content u ≤ MAX_PAYLOAD_CONTENT_BYTES_TOTAL_V0)%Z;
  tb_nodes : (u_nodes u ≤ MAX_NORMALIZED_NODES_V0)%Z;
  tb_locators : (vec_len (u_locators u) ≤ MAX_EVIDENCE_LOCATORS_V0)%Z;
  tb_cited : (cited_bytes (ranges_of (u_locators u)) ≤ MAX_DISTINCT_CITED_BYTES_V0)%Z;
}.

Lemma within_limits_totals u : within_limits (spend PayloadBudget_default u) ↔ totals_bounded u.
Proof.
  unfold within_limits, spend; simpl. rewrite union_empty_l_L. split.
  - intros (? & ? & ? & ? & ?). by split.
  - by intros [].
Qed.

(** Everything the budget asks for. *)
Record budget_respected (trace : TrajectoryTraceV0) (raw_records : list string)
    (declarations : TrajectoryValidationContextV0) : Prop := {
  br_record_count : (vec_len raw_records ≤ MAX_RAW_RECORDS_V0)%Z;
  br_event_count : (vec_len (tt_events trace) ≤ MAX_EVENTS_V0)%Z;
  br_records : Forall (λ r, byte_len r ≤ MAX_RAW_RECORD_BYTES_V0)%Z raw_records;
  br_capture : (sum_of byte_len raw_records ≤ MAX_RAW_CAPTURE_BYTES_V0)%Z;
  br_seal : u64_val (rs_record_count (tt_raw_capture trace)) = vec_len raw_records;
  br_nonempty : tt_events trace ≠ [];
  br_lengths : length (tt_events trace) = length raw_records;
  br_bindings : binding_small (tt_schema trace) ∧ binding_small (tt_adapter trace) ∧
    binding_small (tt_policy trace) ∧ binding_small (vc_adapter declarations) ∧
    binding_small (vc_policy declarations);
  br_digests : (byte_len (rs_digest (tt_raw_capture trace)) ≤ 71)%Z ∧
    (byte_len (rs_digest (vc_raw_capture declarations)) ≤ 71)%Z;
  br_run_id : evidence_small (ev_evidence (tt_run_id trace)) ∧ identifier_small (ev_value (tt_run_id trace));
  br_events : Forall event_small (tt_events trace);
  br_totals : totals_bounded (use_trace trace);
}.

(** The part of the budget that is charged. *)
Lemma trace_charges trace :
  charges
    (budget ← add_evidence PayloadBudget_default (ev_evidence (tt_run_id trace));
     _ ← check_identifier_size "run_id" (ev_value (tt_run_id trace));
     try_fold add_event budget (tt_events trace)) PayloadBudget_default
    (evidence_small (ev_evidence (tt_run_id trace)) ∧ identifier_small (ev_value (tt_run_id trace)) ∧
     Forall event_small (tt_events trace)) (use_trace trace).
Proof.
  assert (accounted PayloadBudget_default) as Ha by done.
  assert (within_limits PayloadBudget_default) as Hw by done.
  apply charges_bind; [by apply add_evidence_charges| |].
  - apply use_nonneg_sum, Forall_forall. auto with legit.
  - intros ? ?. apply charges_check; [apply check_identifier_size_Ok|].
    apply charges_fold; [done..| |]; apply Forall_forall; intros e _; [auto with legit|].
    intros b ? ?. by apply add_event_charges.
Qed.

(** The budget is exact. *)
Lemma validate_resource_budget_Ok trace raw_records declarations :
  validate_resource_budget trace raw_records declarations = Ok () ↔
  budget_respected trace raw_records declarations.
Proof.
  unfold validate_resource_budget, invalid. transitivity (
    (vec_len raw_records ≤ MAX_RAW_RECORDS_V0)%Z ∧ (vec_len (tt_events trace) ≤ MAX_EVENTS_V0)%Z ∧
    is_ok (try_fold add_raw_record 0%Z raw_records) = true ∧
    u64_val (rs_record_count (tt_raw_capture trace)) = vec_len raw_records ∧
    tt_events trace ≠ [] ∧ length (tt_events trace) = length raw_records ∧
    (binding_small (tt_schema trace) ∧ binding_small (tt_adapter trace) ∧
     binding_small (tt_policy trace) ∧ binding_small (vc_adapter declarations) ∧
     binding_small (vc_policy declarations)) ∧
    ((byte_len (rs_digest (tt_raw_capture trace)) ≤ 71)%Z ∧
     (byte_len (rs_digest (vc_raw_capture declarations)) ≤ 71)%Z) ∧
    (evidence_small (ev_evidence (tt_run_id trace)) ∧ identifier_small (ev_value (tt_run_id trace)) ∧
     Forall event_small (tt_events trace)) ∧ within_limits (spend PayloadBudget_default (use_trace trace))).
  2: { rewrite add_raw_records_Ok, within_limits_totals by done. rewrite Z.add_0_l. split.
       - intros (? & ? & [??] & ? & ? & ? & ? & ? & (?&?&?) & ?). by split.
       - intros []. split_and!; tauto. }
  destruct (Z.ltb_spec MAX_RAW_RECORDS_V0 (vec_len raw_records)); [split; [done|lia]|].
  destruct (Z.ltb_spec MAX_EVENTS_V0 (vec_len (tt_events trace))); [split; [done|lia]|].
  destruct (try_fold add_raw_record 0%Z raw_records) as [n|e]; cbn [mbind Result_bind is_ok];
    [|split; [done|intros (_ & _ & ? & _); done]].
  destruct (u64_try_from_total (vec_len raw_records)) as (count & -> & Hcount).
  { unfold MAX_RAW_RECORDS_V0, vec_len in *. lia. }
  cbn [ok_or mbind Result_bind].
  case_decide as Hseal.
  2: { split; [done|]. intros (_ & _ & _ & Hs & _). destruct Hseal. apply u64_eq. congruence. }
  case_decide as Hne; [split; [done|naive_solver]|].
  case_decide as Hlen; [|split; [done|naive_solver]].
  rewrite !unit_bind_Ok, !check_binding_sizes_Ok, !check_short_string_Ok.
  pose proof (trace_charges trace) as Hc.
  assert (∀ (r : LResult PayloadBudget), (_ ← r; Ok ()) = Ok () ↔ is_ok r = true) as Hunit
    by (intros []; simpl; split; done).
  match goal with |- context [?r = Ok ()] =>
    lazymatch r with mbind _ _ =>
    assert (r = Ok () ↔ is_ok (budget ← add_evidence PayloadBudget_default (ev_evidence (tt_run_id trace));
     _ ← check_identifier_size "run_id" (ev_value (tt_run_id trace));
     try_fold add_event budget (tt_events trace)) = true) as -> end end.
  { destruct (add_evidence _ _) as [b|e]; cbn [mbind Result_bind is_ok]; [|done].
    destruct (check_identifier_size _ _) as [[]|e]; cbn [mbind Result_bind is_ok]; [|done].
    by rewrite Hunit. }
  unfold charges in Hc. destruct (mbind _ _) as [b|e]; cbn [is_ok] in *.
  - split; [intros; split_and!; try done; try tauto; congruence|tauto].
  - assert (false = true ↔ False) as -> by done. tauto.
Qed.

(** C19: the resource budget accepts a trace exactly when every count, every
    size and every total of it respects its limit: records and events, bytes
    of raw records, names, digests and reasons, payload fields and content,
    nodes, depth and width of normalized values, cited locators, and the bytes
    of the distinct ranges that are cited. *)
Theorem resource_budget_exact trace raw_records declarations :
  validate_resource_budget trace raw_records declarations = Ok () ↔
  budget_respected trace raw_records declarations.
Proof. apply validate_resource_budget_Ok. Qed.
