(* ===== verification/TraceSpec.v ===== *)
(** * Validated traces

    [validate_trace] accepts exactly the traces that respect the budget and
    carry sound bindings, seals, evidence and events; and the official digest
    of a validated trace commits to the trace. *)

From S2P Require Import Prelude Encoding Trajectory F64 Errors JsonScan TraceValidation TraceCanonical TraceValidationSpec TraceBudgetSpec.
From stdpp Require Import options.

(* ------------------------------------------------------------------ *)
(** ** The lengths of a trace within the budget *)

Lemma fits_small s n : (byte_len s ≤ n)%Z → (n < 2 ^ 64)%Z → fits s.
Proof. unfold fits, fits_len. lia. Qed.

Lemma binding_small_fits b : binding_small b → binding_fits b.
Proof. intros (? & ? & ?). split_and!; by eapply fits_small. Qed.

Lemma locator_small_fits l : locator_small l → locator_fits l.
Proof. intros ?. by eapply fits_small. Qed.

Lemma evidence_small_fits e : evidence_small e → evidence_fits e.
Proof.
  destruct e as [l|rule inputs|reason]; simpl.
  - apply locator_small_fits.
  - intros (? & Hl & Hf). split_and!; [by apply binding_small_fits| |].
    + unfold fits_len, MAX_DERIVATION_INPUTS_V0 in *. lia.
    + eapply Forall_impl; [exact Hf|]. apply locator_small_fits.
  - intros ?. by eapply fits_small.
Qed.

Lemma value_small_fits v depth : value_small depth v = true → value_fits v.
Proof.
  revert depth. induction v as [|b|i|u|l IH|l IH] using NormalizedValue_nested_ind; intros depth;
    cbn [value_small]; rewrite !andb_true_iff.
  - constructor.
  - constructor.
  - intros [_ H%Z.leb_le]. constructor. by eapply fits_small.
  - intros [_ H%Z.leb_le]. constructor. by eapply fits_small.
  - intros [_ [Hl%Z.leb_le Hf%forallb_Forall_true]]. constructor.
    + unfold fits_len, MAX_NORMALIZED_ARRAY_ITEMS_V0 in *. lia.
    + rewrite Forall_forall in *. intros v Hv. by eapply IH, Hf.
  - intros [_ [Hl%Z.leb_le Hf%forallb_Forall_true]]. constructor.
    + unfold fits_len, MAX_PAYLOAD_FIELDS_PER_OBJECT_V0 in *. lia.
    + eapply Forall_impl; [exact Hf|]. intros [k v] [Hk%Z.leb_le _]%andb_true_iff. by eapply fits_small.
    + apply Forall_fmap. rewrite Forall_forall in *. intros [k v] Hin.
      pose proof (Hf _ Hin) as [_ Hv]%andb_true_iff. by eapply (IH (k, v)).
Qed.

Lemma evidenced_small_fits {T} (P : T → Prop) (f : EvidencedV0 T) :
  evidence_small (ev_evidence f) → (∀ v, ev_value f = Some v → P v) → evidenced_fits P f.
Proof.
  intros He Hv. split; [|by apply evidence_small_fits]. destruct (ev_value f); auto.
Qed.

Lemma identifier_small_fits value : identifier_small value → ∀ v, value = Some v → fits v.
Proof. intros Hs v ->. by eapply fits_small. Qed.

Lemma event_small_fits e : event_small e → event_fits e.
Proof.
  intros (Hsize & Hid & Hseq & Hkind & Hdig & Hids & Hsrc & Hpay). split.
  - by apply evidenced_small_fits; [|apply identifier_small_fits].
  - by apply evidenced_small_fits.
  - by apply evidenced_small_fits.
  - destruct (ae_source_item_id e); [|done]. destruct Hsrc.
    by apply evidenced_small_fits; [|apply identifier_small_fits].
  - by eapply fits_small.
  - split.
    + pose proof (length_btree_keys (ae_payload e)) as Hl. unfold btree_keys in Hl.
      rewrite length_fmap in Hl. unfold fits_len, vec_len, MAX_PAYLOAD_FIELDS_PER_OBJECT_V0 in *. lia.
    + eapply Forall_impl; [exact Hpay|]. intros [k f] (Hk & He & Hv). split; [by eapply fits_small|].
      apply evidenced_small_fits; [done|]. intros v Hfv. cbn [snd] in *. rewrite Hfv in Hv.
      by eapply value_small_fits.
Qed.

Lemma budget_fits trace raw_records declarations :
  budget_respected trace raw_records declarations → trace_fits trace.
Proof.
  intros []. destruct br_bindings as (? & ? & ? & _), br_digests as [? _], br_run_id as [? ?].
  split; try by apply binding_small_fits.
  - by apply evidenced_small_fits; [|apply identifier_small_fits].
  - by eapply fits_small.
  - split; [unfold fits_len, MAX_EVENTS_V0 in *; lia|].
    eapply Forall_impl; [exact br_events|]. apply event_small_fits.
Qed.

(* ------------------------------------------------------------------ *)
(** ** The validation is exact *)

(** The locators that are validated are those that are charged. *)
Lemma use_entry_locators entry : u_locators (use_entry entry) = locators_of (ev_evidence entry.2) ++
  match ev_value entry.2 with Some v => u_locators (use_value v) | None => [] end.
Proof. destruct entry as [k [[v|] e]]; done. Qed.

Lemma count_use_event e : (count_event e ≤ vec_len (u_locators (use_event e)))%Z.
Proof.
  unfold count_event, use_event; simpl. rewrite !vec_len_app.
  assert (count_source_item (ae_source_item_id e) = vec_len (u_locators (use_source (ae_source_item_id e)))) as ->.
  { by destruct (ae_source_item_id e). }
  assert (∀ l, sum_of count_entry l ≤ vec_len (u_locators (use_sum use_entry l)))%Z as Hl.
  { induction l as [|entry l IH]; [done|]. cbn [sum_of use_sum use_plus u_locators].
    rewrite vec_len_app, use_entry_locators, vec_len_app. unfold count_entry at 1, count_field.
    unfold vec_len in *. lia. }
  specialize (Hl (btree_iter (ae_payload e))). unfold count_field. lia.
Qed.

Lemma count_use_events l : (sum_of count_event l ≤ vec_len (u_locators (use_sum use_event l)))%Z.
Proof.
  induction l as [|e l IH]; [done|]. cbn [sum_of use_sum].
  pose proof (count_use_event e). cbn [use_plus u_locators]. rewrite vec_len_app. lia.
Qed.

Section trace.
Context `{Sha256, JsonStream, TraceSerializer} (TRAJECTORY_SCHEMA_BYTES_V0 : string).

Abbreviation validates := (validate_trace TRAJECTORY_SCHEMA_BYTES_V0).

(** What a validated trace is. *)
Record trace_valid (trace : TrajectoryTraceV0) (raw_records : list string)
    (declarations : TrajectoryValidationContextV0) : Prop := {
  tv_budget : budget_respected trace raw_records declarations;
  tv_export : validate_compact_json_size trace = Ok ();
  tv_bindings : valid_binding (tt_schema trace) ∧ valid_binding (tt_adapter trace) ∧
    valid_binding (tt_policy trace);
  tv_schema : tt_schema trace = trajectory_schema_binding_v0 TRAJECTORY_SCHEMA_BYTES_V0;
  tv_adapter : tt_adapter trace = vc_adapter declarations;
  tv_policy : tt_policy trace = vc_policy declarations;
  tv_seal : valid_digest (rs_digest (tt_raw_capture trace)) ∧
    tt_raw_capture trace = vc_raw_capture declarations ∧
    tt_raw_capture trace = raw_capture_seal_v0 raw_records;
  tv_records : Forall (λ record,
    reject_duplicate_json_keys record "sealed raw record" = Ok RootObject) raw_records;
  tv_run_id : ∃ run_id, field_ok raw_records declarations (tt_run_id trace) run_id ∧ identifier run_id = true;
  tv_events : ∀ index e, tt_events trace !! index = Some e → event_ok raw_records declarations index e;
  tv_distinct : NoDup (event_ids (tt_events trace));
}.

Lemma validate_raw_records_Ok raw_records start :
  try_iter validate_raw_record (zip (seq start (length raw_records)) raw_records) = Ok () ↔
  Forall (λ record, reject_duplicate_json_keys record "sealed raw record" = Ok RootObject) raw_records.
Proof.
  revert start. induction raw_records as [|r raw_records IH]; intros start; [by split; [constructor|]|].
  cbn [length seq zip zip_with try_iter]. rewrite unit_bind_Ok, Forall_cons.
  change (zip_with pair (seq (S start) (length raw_records)) raw_records)
    with (zip (seq (S start) (length raw_records)) raw_records).
  rewrite IH. apply and_iff_compat_r. unfold validate_raw_record.
  destruct (reject_duplicate_json_keys r _) as [kind|e]; cbn [mbind Result_bind]; [|split; done].
  case_decide; split; try done; congruence.
Qed.

(** The checks of the run identity and the events, after the budget. *)
Lemma validate_events_Ok trace raw_records declarations :
  budget_respected trace raw_records declarations →
  ('(run_id, state) ←
     validate_required_field "run_id" (tt_run_id trace) raw_records declarations ValidationState_default;
   _ ← validate_identifier "run_id" run_id;
   _ ← try_fold (validate_event raw_records declarations) (∅, state) (enumerate (tt_events trace));
   Ok ()) = Ok () ↔
  (∃ run_id, field_ok raw_records declarations (tt_run_id trace) run_id ∧ identifier run_id = true) ∧
  (∀ index e, tt_events trace !! index = Some e → event_ok raw_records declarations index e) ∧
  NoDup (event_ids (tt_events trace)).
Proof.
  intros Hb.
  assert (count_field (tt_run_id trace) + sum_of count_event (tt_events trace) ≤ MAX_EVIDENCE_LOCATORS_V0)%Z as Hn.
  { destruct Hb. destruct br_totals. unfold use_trace in tb_locators. simpl in tb_locators.
    rewrite vec_len_app in tb_locators. pose proof (count_use_events (tt_events trace)).
    unfold count_field. lia. }
  assert (vec_len (tt_events trace) < 2 ^ 64)%Z as Hlen.
  { destruct Hb. unfold MAX_EVENTS_V0 in *. lia. }
  assert (0 ≤ sum_of count_event (tt_events trace))%Z.
  { apply sum_of_nonneg. intros e _. unfold count_event.
    pose proof (count_field_nonneg (ae_event_id e)). pose proof (count_field_nonneg (ae_sequence_index e)).
    pose proof (count_field_nonneg (ae_kind e)). pose proof (count_source_item_nonneg (ae_source_item_id e)).
    pose proof (count_entries_nonneg (btree_iter (ae_payload e))). lia. }
  pose proof (validate_required_field_checks raw_records declarations "run_id" (tt_run_id trace)
    ValidationState_default) as Hf.
  change (vec_len (locators_of (ev_evidence (tt_run_id trace)))) with (count_field (tt_run_id trace)) in Hf.
  specialize (Hf ltac:(split; [done|unfold MAX_EVIDENCE_LOCATORS_V0 in *; simpl; lia])).
  destruct (validate_required_field _ _ _ _ _) as [[run_id state]|e]; cbn [mbind Result_bind].
  2: { split; [done|]. intros [(run_id & ? & _) _]. by destruct (Hf run_id). }
  destruct Hf as [Hf [Hs Hh]]. rewrite unit_bind_Ok, validate_identifier_Ok.
  pose proof (validate_events_checks raw_records declarations 0 (tt_events trace) ∅ state
    ltac:(split; [done|unfold MAX_EVIDENCE_LOCATORS_V0 in *; simpl in Hh; lia]) ltac:(simpl; lia)) as He.
  assert (Forall (event_fresh ∅) (tt_events trace)) as Hfresh.
  { apply Forall_forall. intros e _ i _. apply not_elem_of_empty. }
  change (zip (seq 0 (length (tt_events trace))) (tt_events trace)) with (enumerate (tt_events trace)) in He.
  assert (∀ r : LResult (gset string * ValidationState), (_ ← r; Ok ()) = Ok () ↔ is_ok r = true) as Hunit
    by (intros []; simpl; split; done).
  rewrite Hunit, He. split.
  - intros (? & ? & ? & _). split; [by exists run_id|done].
  - intros ((run_id' & Hf' & ?) & ? & ?). by rewrite (field_ok_value _ _ _ _ _ Hf Hf').
Qed.

(** The validation is exact. *)
Lemma validate_trace_Ok trace raw_records declarations :
  validates trace raw_records declarations = Ok () ↔ trace_valid trace raw_records declarations.
Proof.
  unfold validate_trace. rewrite unit_bind_Ok, validate_resource_budget_Ok.
  destruct (validate_compact_json_size trace) as [[]|e] eqn:Hx; cbn [mbind Result_bind].
  2: { split; [by intros []|]. intros []. congruence. }
  rewrite !unit_bind_Ok, !validate_binding_Ok. unfold invalid.
  case_bool_decide as Hs; cbn [negb]; [|split; [naive_solver|by intros []]].
  case_bool_decide as Ha; cbn [negb]; [|split; [naive_solver|by intros []]].
  case_bool_decide as Hp; cbn [negb]; [|split; [naive_solver|by intros []]].
  rewrite !unit_bind_Ok, !validate_digest_Ok.
  case_bool_decide as Hc; cbn [negb].
  2: { split; [naive_solver|]. by intros [_ _ _ _ _ _ (_ & ? & _)]. }
  rewrite unit_bind_Ok. unfold enumerate at 1. rewrite validate_raw_records_Ok.
  case_bool_decide as Hr; cbn [negb].
  2: { split; [naive_solver|]. by intros [_ _ _ _ _ _ (_ & _ & ?)]. }
  split.
  - intros (Hb & ? & ? & ? & ? & ? & ? & ? & ? & He).
    apply validate_events_Ok in He as (? & ? & ?); [|done]. by split.
  - intros []. rewrite <-Ha, <-Hp, <-Hc.
    destruct tv_bindings0 as (? & ? & ?), tv_seal0 as (? & _). split_and!; try done.
    apply validate_events_Ok; done.
Qed.

Lemma valid_budget trace raw_records declarations :
  validates trace raw_records declarations = Ok () → budget_respected trace raw_records declarations.
Proof. by intros []%validate_trace_Ok. Qed.

(** C13: the validation accepts a trace exactly when it respects the resource
    budget and the export limit, its schema, adapter, policy and capture seal
    are the declared ones and the seal is that of the raw records, each raw
    record is a JSON object without duplicate keys, and every load-bearing
    field of the run and of the events cites existing bytes of the capture by
    their digest, with canonical payloads, contiguous indices, the digest of
    its own raw record and a fresh identity for each event. *)
Theorem validate_trace_exact trace raw_records declarations :
  validates trace raw_records declarations = Ok () ↔ trace_valid trace raw_records declarations.
Proof. apply validate_trace_Ok. Qed.

(** What the official digest of a trace hashes. *)
Definition trace_input (trace : TrajectoryTraceV0) : string :=
  hash_frames TRACE_DOMAIN_V0 [canonical_bytes trace].

(** The official digest of a trace within the budget commits to it. *)
Lemma digest_commits trace trace' raw_records raw_records' declarations declarations' :
  budget_respected trace raw_records declarations → budget_respected trace' raw_records' declarations' →
  fits (canonical_bytes trace) → fits (canonical_bytes trace') →
  trajectory_digest trace = trajectory_digest trace' →
  trace = trace' ∨ collides [trace_input trace] [trace_input trace'].
Proof using Type.
  intros Hb Hb' Hf Hf' Hd.
  apply framed_sha256_inj in Hd as [[_ Hc%(f_equal (hd ""))]|?]; [|by right|..].
  - left. apply canonical_bytes_inj; [by eapply budget_fits..|done].
  - split_and!; [done|done|by rewrite Forall_singleton].
  - split_and!; [done|done|by rewrite Forall_singleton].
Qed.

(** C17: the official digest of a validated trace commits to everything in it:
    two validated traces, whatever they were validated against, that have the
    same digest are equal, or their two canonical encodings, as they are hashed,
    are different inputs of SHA-256 with one digest. *)
Theorem trajectory_digest_commits trace trace' raw_records raw_records' declarations declarations' :
  validates trace raw_records declarations = Ok () →
  validates trace' raw_records' declarations' = Ok () →
  fits (canonical_bytes trace) → fits (canonical_bytes trace') →
  trajectory_digest trace = trajectory_digest trace' →
  trace = trace' ∨ collides [trace_input trace] [trace_input trace'].
Proof.
  intros Hv Hv'. apply digest_commits with raw_records raw_records' declarations declarations';
    [by eapply valid_budget|by eapply valid_budget].
Qed.
End trace.
