(* ===== verification/WireJson.v ===== *)
(** * Wire structures in JSON

    serde's derived serialization and strict deserialization of the structs of
    src/trajectory/, over the documents of [JsonScan].  Printing a document is
    the parameter [JsonText]; [JsonLaws] is what serde_json documents of it:
    compact output on one line that reads back as the same document, short of
    the reader's recursion limit. *)

From S2P Require Import Prelude Encoding Trajectory F64 Errors JsonScan JsonScanSpec.
From Stdlib Require Import Ascii.
From stdpp Require Import options.

(** [serde_json::to_vec] of a value that serializes to this document. *)
Class JsonText := json_text : JsonNode → string.

Definition LF : ascii := "010".
Definition CR : ascii := "013".

(** Documents that read back as they are: integers fit a machine word, and
    there is no floating-point number, which serde_json may read inexactly. *)
Fixpoint exact (node : JsonNode) : bool :=
  match node with
  | JNull | JBool _ | JString _ => true
  | JInteger z => (- 2 ^ 63 <=? z)%Z && (z <? 2 ^ 64)%Z
  | JNumber _ | JBroken => false
  | JArray items _ => forallb exact items
  | JObject entries _ => forallb (λ kv, exact kv.2) entries
  end.

(** The recursion limit of serde_json's reader: it refuses to enter that many
    containers inside each other. *)
Definition RECURSION_LIMIT : Z := 128.

Class JsonLaws `{JsonStream, JsonText} : Prop := {
  json_reads_back : ∀ n, complete n = true → exact n = true → (levels n < RECURSION_LIMIT)%Z →
    json_stream (json_text n) = mkDocument n true;
  json_one_line : ∀ n, (LF ∉ bytes_of (json_text n)) ∧ (CR ∉ bytes_of (json_text n));
  json_not_shorter : ∀ n, (string_bytes n ≤ byte_len (json_text n))%Z;
}.

(** [serde_json::from_slice] at a type with this decoder. *)
Definition from_slice `{JsonStream} {A} (decode : JsonNode → option A) (input : string) : option A :=
  let document := json_stream input in
  if jd_ended document then decode (jd_root document) else None.

(* ------------------------------------------------------------------ *)
(** ** Derived decoders *)

Definition decode_string (n : JsonNode) : option string :=
  match n with JString s => Some s | _ => None end.

Definition decode_u64 (n : JsonNode) : option u64 :=
  match n with JInteger z => u64_try_from z | _ => None end.

(** The elements of a sequence, all of them. *)
Fixpoint decode_all {A} (decode : JsonNode → option A) (l : list JsonNode) : option (list A) :=
  match l with
  | [] => Some []
  | n :: l => x ← decode n; xs ← decode_all decode l; Some (x :: xs)
  end.

Definition decode_vec {A} (decode : JsonNode → option A) (n : JsonNode) : option (list A) :=
  match n with JArray items true => decode_all decode items | _ => None end.

(** The value of a field. *)
Fixpoint field_value (name : string) (entries : list (string * JsonNode)) : option JsonNode :=
  match entries with
  | [] => None
  | (k, v) :: entries => if decide (k = name) then Some v else field_value name entries
  end.

(** A struct with [deny_unknown_fields] and no optional field: an object with
    each field once, in any order, and nothing else, or a sequence of as many
    values in declaration order.  The values come back in declaration order. *)
Definition decode_struct (names : list string) (n : JsonNode) : option (list JsonNode) :=
  match n with
  | JObject entries RClosed =>
      if bool_decide (NoDup entries.*1) && forallb (λ k, bool_decide (k ∈ names)) entries.*1
      then mapM (λ name, field_value name entries) names
      else None
  | JArray items true => if decide (length items = length names) then Some items else None
  | _ => None
  end.

(** The derived serialization of a struct: its fields in declaration order. *)
Definition struct_node (names : list string) (values : list JsonNode) : JsonNode :=
  JObject (zip names values) RClosed.

(* ------------------------------------------------------------------ *)
(** ** A serialized struct decodes to its fields *)

Lemma field_value_absent name entries : name ∉ entries.*1 → field_value name entries = None.
Proof.
  induction entries as [|[k v] entries IH]; [done|]. rewrite fmap_cons, not_elem_of_cons.
  intros [Hk Hn]. cbn [field_value fst] in *. rewrite decide_False by congruence. auto.
Qed.

Lemma field_value_zip names values prefix :
  NoDup names → length names = length values → (∀ name, name ∈ names → (name ∉ prefix.*1)) →
  mapM (λ name, field_value name (prefix ++ zip names values)) names = Some values.
Proof.
  revert values prefix. induction names as [|name names IH]; intros [|v values] prefix Hnd Hl Hp; try done.
  apply NoDup_cons in Hnd as [Hn Hnd]. injection Hl as Hl. cbn [mapM].
  assert (field_value name (prefix ++ zip (name :: names) (v :: values)) = Some v) as ->.
  { assert (name ∉ prefix.*1) as Hnp by (apply Hp; by left). clear Hp IH. induction prefix as [|[k w] prefix IH].
    - simpl. by rewrite decide_True by done.
    - rewrite fmap_cons, not_elem_of_cons in Hnp. destruct Hnp as [Hk Hnp]. cbn [app field_value fst] in *.
      rewrite decide_False by congruence. auto. }
  cbn [mbind option_bind].
  specialize (IH values (prefix ++ [(name, v)]) Hnd Hl).
  rewrite <-app_assoc in IH. cbn [app] in IH. change (zip (name :: names) (v :: values)) with ((name, v) :: zip names values).
  rewrite IH; [done|]. intros name' Hin. rewrite fmap_app, elem_of_app. intros [?|?].
  - by apply (Hp name'); [right|].
  - apply list_elem_of_singleton in H as ->. done.
Qed.

Lemma decode_struct_node names values :
  NoDup names → length names = length values →
  decode_struct names (struct_node names values) = Some values.
Proof.
  intros Hnd Hl. unfold struct_node, decode_struct.
  assert ((zip names values).*1 = names) as -> by (apply fst_zip; lia).
  rewrite bool_decide_true by done. simpl.
  assert (forallb (λ k, bool_decide (k ∈ names)) names = true) as ->.
  { apply forallb_Forall_true, Forall_forall. intros k Hk. by apply bool_decide_eq_true. }
  apply (field_value_zip names values []); [done..|]. intros k _. apply not_elem_of_nil.
Qed.

Lemma decode_all_fmap {A} (decode : JsonNode → option A) (encode : A → JsonNode) l :
  Forall (λ x, decode (encode x) = Some x) l → decode_all decode (encode <$> l) = Some l.
Proof.
  induction 1 as [|x l Hx Hl IH]; [done|]. rewrite fmap_cons. cbn [decode_all].
  by rewrite Hx, IH.
Qed.

Lemma decode_u64_val x : decode_u64 (JInteger (u64_val x)) = Some x.
Proof. by apply u64_try_from_Some. Qed.

Lemma exact_u64 (x : u64) : exact (JInteger (u64_val x)) = true.
Proof. pose proof (u64_range x). simpl. apply andb_true_iff. rewrite Z.leb_le, Z.ltb_lt. lia. Qed.

(** What reads back at a type. *)
Lemma from_slice_text `{JsonLaws} {A} (decode : JsonNode → option A) n :
  complete n = true → exact n = true → (levels n < RECURSION_LIMIT)%Z →
  from_slice decode (json_text n) = decode n.
Proof. intros Hn He Hl. unfold from_slice. by rewrite json_reads_back. Qed.

(** A serialized document within the limits passes the scan. *)
Lemma scan_text `{JsonLaws} n limits :
  complete n = true → exact n = true → (levels n < RECURSION_LIMIT)%Z → in_budget (ScanState_new limits) 1 n →
  scan_json_with_limits (json_text n) limits = Ok (root_kind n).
Proof.
  intros Hc He Hl Hb. unfold scan_json_with_limits. rewrite json_reads_back by done. cbn [jd_root jd_ended].
  pose proof (scan_node_decides n (ScanState_new limits) 1%Z) as Hs.
  assert (counted (ScanState_new limits)) as Hcount.
  { unfold counted; simpl. pose proof (u64_range (max_nodes limits)).
    pose proof (u64_range (max_total_keys limits)).
    pose proof (u64_range (max_decoded_string_bytes limits)). lia. }
  specialize (Hs Hcount). destruct (scan_node _ _ _) as [[st kind]|[]]; cbn [decides] in Hs; [|done..].
  destruct Hs as (_ & _ & [= _ ->]). done.
Qed.

(** Fields of a struct do not repeat: it is complete and exact when its values are. *)
Lemma struct_node_complete names values :
  NoDup names → length names = length values → forallb complete values = true →
  complete (struct_node names values) = true.
Proof.
  intros Hnd Hl Hc. cbn [complete struct_node]. change (list_fmap _ _ fst (zip names values)) with ((zip names values).*1).
  rewrite fst_zip by lia. rewrite bool_decide_true by done. simpl.
  clear Hnd. revert values Hl Hc. induction names as [|name names IH]; intros [|v values]; try done.
  intros [= Hl] [Hv Hc]%andb_true_iff. cbn. rewrite Hv. by apply IH.
Qed.

Lemma struct_node_exact names values :
  length names = length values → forallb exact values = true → exact (struct_node names values) = true.
Proof.
  revert values. induction names as [|name names IH]; intros [|v values]; try done.
  intros [= Hl] [Hv Hc]%andb_true_iff. cbn. rewrite Hv. by apply IH.
Qed.
