(* ===== verification/Replay.v ===== *)
(** * Replay candidates (src/trajectory/replay.rs)

    The hash chain over a validated trace, its JSON line, the strict decoding
    of a candidate, and the verification of a supplied candidate and receipt
    against the recomputed chain.  [ReplayDigestV0] is the string it wraps, and
    [ReplayArtifactBindingV0] and [ReplayRawCaptureSealV0], which differ from a
    binding and a seal in that newtype only, are these.  An [expect] of the
    source is [None]: the candidate of a validated trace never meets one. *)

From S2P Require Import Prelude Encoding Trajectory F64 Errors JsonScan JsonScanSpec WireJson TraceValidation TraceCanonical.
From Stdlib Require Import Ascii.
From stdpp Require Import options.

Definition TRAJECTORY_REPLAY_FORMAT_V0 : string := "legitimacy.trajectory.replay".
Definition TRAJECTORY_REPLAY_VERSION_V0 : string := "0".
Definition TRAJECTORY_REPLAY_VERIFICATION_FORMAT_V0 : string := "legitimacy.trajectory.replay-verification".
Definition TRAJECTORY_REPLAY_VERIFICATION_VERSION_V0 : string := "0".
Definition TRAJECTORY_REPLAY_AUTHORITY_ANCHOR_FORMAT_V0 : string :=
  "legitimacy.trajectory.replay-authority-anchor".
Definition TRAJECTORY_REPLAY_AUTHORITY_ANCHOR_VERSION_V0 : string := "0".
Definition EXACT_RAW_RECORD_SET_FORMAT_V0 : string := "legitimacy.trajectory.exact-raw-record-set".
Definition EXACT_RAW_RECORD_SET_VERSION_V0 : string := "0".
Definition TRAJECTORY_DECLARED_VALIDATION_CONTEXT_FORMAT_V0 : string :=
  "legitimacy.trajectory.validation-declarations".
Definition TRAJECTORY_DECLARED_VALIDATION_CONTEXT_VERSION_V0 : string := "0".

Definition MAX_TRAJECTORY_REPLAY_BYTES_V0 : Z := 16 * 1024 * 1024.
Definition MAX_EXACT_RAW_RECORD_SET_JSON_BYTES_V0 : Z := 128 * 1024 * 1024.
Definition MAX_TRAJECTORY_DECLARED_VALIDATION_CONTEXT_JSON_BYTES_V0 : Z := 4 * 1024 * 1024.

Definition REPLAY_GENESIS_DOMAIN_V0 : string := "legitimacy.trajectory.replay.genesis.v0".
Definition REPLAY_CANONICAL_EVENT_DOMAIN_V0 : string := "legitimacy.trajectory.replay.canonical-event.v0".
Definition REPLAY_CHAIN_STEP_DOMAIN_V0 : string := "legitimacy.trajectory.replay.chain-step.v0".

Definition REPLAY_SCAN_LIMITS : JsonScanLimits :=
  mkLimits (u64_lit 8) (u64_lit (8 + MAX_EVENTS_V0 * 8)) (u64_lit (24 + MAX_EVENTS_V0 * 6))
    (u64_lit MAX_TRAJECTORY_REPLAY_BYTES_V0).
Definition RAW_RECORD_SET_SCAN_LIMITS : JsonScanLimits :=
  mkLimits (u64_lit 4) (u64_lit (8 + MAX_RAW_RECORDS_V0)) (u64_lit 16)
    (u64_lit MAX_EXACT_RAW_RECORD_SET_JSON_BYTES_V0).
Definition VALIDATION_CONTEXT_SCAN_LIMITS : JsonScanLimits :=
  mkLimits (u64_lit 6) (u64_lit (32 + MAX_EVENTS_V0 * 4)) (u64_lit (32 + MAX_EVENTS_V0 * 3))
    (u64_lit MAX_TRAJECTORY_DECLARED_VALIDATION_CONTEXT_JSON_BYTES_V0).

Inductive ReplayErrorCodeV0 :=
  | InputTooLarge | JsonFraming | JsonSyntax | JsonShape | UnsupportedFormat
  | CandidateMismatch | AuthorityBindingMismatch | Serialization.

Abbreviation ReplayResultV0 := (Result ReplayErrorCodeV0).

(* ------------------------------------------------------------------ *)
(** ** Data *)

Record ReplayRecordV0 := mkReplayRecord {
  rp_sequence_index : u64;
  rp_event_id : string;
  rp_raw_record_digest : string;
  rp_canonical_event_digest : string;
  rp_previous_head : string;
  rp_resulting_head : string;
}.

Record TrajectoryReplayCandidateV0 := mkCandidate {
  tc_replay_format : string;
  tc_replay_version : string;
  tc_schema : ArtifactBindingV0;
  tc_adapter : ArtifactBindingV0;
  tc_policy : ArtifactBindingV0;
  tc_raw_capture : RawCaptureSealV0;
  tc_trajectory_digest : string;
  tc_record_count : u64;
  tc_genesis_head : string;
  tc_records : list ReplayRecordV0;
  tc_final_head : string;
}.

Record ReplayAuthorityAnchorV0 := mkAnchor {
  an_anchor_format : string;
  an_anchor_version : string;
  an_replay_format : string;
  an_replay_version : string;
  an_schema : ArtifactBindingV0;
  an_adapter : ArtifactBindingV0;
  an_policy : ArtifactBindingV0;
  an_raw_capture : RawCaptureSealV0;
  an_trajectory_digest : string;
  an_record_count : u64;
  an_genesis_head : string;
  an_expected_final_head : string;
}.

Global Instance ReplayRecordV0_eq_dec : EqDecision ReplayRecordV0.
Proof. solve_decision. Defined.
Global Instance TrajectoryReplayCandidateV0_eq_dec : EqDecision TrajectoryReplayCandidateV0.
Proof. solve_decision. Defined.
Global Instance ReplayAuthorityAnchorV0_eq_dec : EqDecision ReplayAuthorityAnchorV0.
Proof. solve_decision. Defined.

(** [ReplayAuthorityAnchorV0::from_replay_candidate] *)
Definition from_replay_candidate (candidate : TrajectoryReplayCandidateV0) : ReplayAuthorityAnchorV0 :=
  mkAnchor TRAJECTORY_REPLAY_AUTHORITY_ANCHOR_FORMAT_V0 TRAJECTORY_REPLAY_AUTHORITY_ANCHOR_VERSION_V0
    TRAJECTORY_REPLAY_FORMAT_V0 TRAJECTORY_REPLAY_VERSION_V0
    (tc_schema candidate) (tc_adapter candidate) (tc_policy candidate) (tc_raw_capture candidate)
    (tc_trajectory_digest candidate) (tc_record_count candidate) (tc_genesis_head candidate)
    (tc_final_head candidate).

(* ------------------------------------------------------------------ *)
(** ** The chain *)

Section chain.
Context `{Sha256}.

(** [trajectory_replay_candidate_v0] up to the genesis head. *)
Definition genesis_head (trace : TrajectoryTraceV0) (trajectory_digest : string) (record_count : u64)
    : string :=
  framed_sha256 REPLAY_GENESIS_DOMAIN_V0
    [TRAJECTORY_REPLAY_FORMAT_V0; TRAJECTORY_REPLAY_VERSION_V0;
     ab_identity (tt_schema trace); ab_version (tt_schema trace); ab_hash (tt_schema trace);
     ab_identity (tt_adapter trace); ab_version (tt_adapter trace); ab_hash (tt_adapter trace);
     ab_identity (tt_policy trace); ab_version (tt_policy trace); ab_hash (tt_policy trace);
     put_u64 (rs_record_count (tt_raw_capture trace)); rs_digest (tt_raw_capture trace);
     trajectory_digest; put_u64 record_count].

(** The head after one record. *)
Definition chain_step (previous_head : string) (sequence_index : u64)
    (event_id raw_record_digest canonical_event_digest : string) : string :=
  framed_sha256 REPLAY_CHAIN_STEP_DOMAIN_V0
    [previous_head; put_u64 sequence_index; event_id; raw_record_digest; canonical_event_digest].

(** One iteration of the loop over the events. *)
Definition replay_record (previous_head : string) (event : AgentActionEventV0) : option ReplayRecordV0 :=
  sequence_index ← ev_value (ae_sequence_index event);
  event_id ← ev_value (ae_event_id event);
  let raw_record_digest := rr_digest (ae_raw_record event) in
  let canonical_event_digest :=
    framed_sha256 REPLAY_CANONICAL_EVENT_DOMAIN_V0 [canonical_event_bytes event] in
  Some (mkReplayRecord sequence_index event_id raw_record_digest canonical_event_digest previous_head
          (chain_step previous_head sequence_index event_id raw_record_digest canonical_event_digest)).

(** The records of the events and the final head. *)
Fixpoint replay_records (previous_head : string) (events : list AgentActionEventV0)
    : option (list ReplayRecordV0 * string) :=
  match events with
  | [] => Some ([], previous_head)
  | event :: events =>
      record ← replay_record previous_head event;
      '(records, final_head) ← replay_records (rp_resulting_head record) events;
      Some (record :: records, final_head)
  end.

Definition trajectory_replay_candidate_v0 (trace : TrajectoryTraceV0)
    : option TrajectoryReplayCandidateV0 :=
  let trajectory_digest := trajectory_digest trace in
  record_count ← u64_try_from (vec_len (tt_events trace));
  let genesis := genesis_head trace trajectory_digest record_count in
  '(records, final_head) ← replay_records genesis (tt_events trace);
  Some (mkCandidate TRAJECTORY_REPLAY_FORMAT_V0 TRAJECTORY_REPLAY_VERSION_V0
          (tt_schema trace) (tt_adapter trace) (tt_policy trace) (tt_raw_capture trace)
          trajectory_digest record_count genesis records final_head).
End chain.

(* ------------------------------------------------------------------ *)
(** ** Strict decoding *)

Definition is_digest (value : string) : bool :=
  match strip_prefix "sha256:" value with
  | Some hex => (byte_len hex =? 64)%Z && bytes_all hex_byte hex
  | None => false
  end.

(** [ReplayDigestV0::parse] *)
Definition parse_digest (value : string) : ReplayResultV0 string :=
  if is_digest value then Ok value else Err JsonShape.

Definition parse_binding (binding : ArtifactBindingV0) : ReplayResultV0 ArtifactBindingV0 :=
  match validate_binding "replay binding" binding with
  | Ok _ => Ok binding
  | Err _ => Err JsonShape
  end.

Definition parse_capture (seal : RawCaptureSealV0) : ReplayResultV0 RawCaptureSealV0 :=
  digest ← parse_digest (rs_digest seal);
  Ok (mkSeal (rs_record_count seal) digest).

(** One record of [try_into_candidate]: [self] is the wire record, a replay
    record before its strings are known to be digests. *)
Definition parse_record (acc : list ReplayRecordV0 * string) (indexed : nat * ReplayRecordV0)
    : ReplayResultV0 (list ReplayRecordV0 * string) :=
  let '(records, expected_previous) := acc in
  let '(index, record) := indexed in
  expected_index ← ok_or (u64_try_from (Z.of_nat index)) JsonShape;
  if negb (bool_decide (rp_sequence_index record = expected_index))
     || negb (is_ok (validate_identifier "replay event ID" (rp_event_id record))) then Err JsonShape
  else
    previous_head ← parse_digest (rp_previous_head record);
    if negb (String.eqb previous_head expected_previous) then Err JsonShape
    else
      resulting_head ← parse_digest (rp_resulting_head record);
      raw_record_digest ← parse_digest (rp_raw_record_digest record);
      canonical_event_digest ← parse_digest (rp_canonical_event_digest record);
      Ok (records ++ [mkReplayRecord (rp_sequence_index record) (rp_event_id record) raw_record_digest
                        canonical_event_digest previous_head resulting_head], resulting_head).

(** [ReplayCandidateWireV0::try_into_candidate]; the wire struct has the fields
    of a candidate, as plain strings. *)
Definition try_into_candidate (wire : TrajectoryReplayCandidateV0)
    : ReplayResultV0 TrajectoryReplayCandidateV0 :=
  if negb (String.eqb (tc_replay_format wire) TRAJECTORY_REPLAY_FORMAT_V0)
     || negb (String.eqb (tc_replay_version wire) TRAJECTORY_REPLAY_VERSION_V0) then Err UnsupportedFormat
  else
    schema ← parse_binding (tc_schema wire);
    adapter ← parse_binding (tc_adapter wire);
    policy ← parse_binding (tc_policy wire);
    raw_capture ← parse_capture (tc_raw_capture wire);
    trajectory_digest ← parse_digest (tc_trajectory_digest wire);
    genesis_head ← parse_digest (tc_genesis_head wire);
    final_head ← parse_digest (tc_final_head wire);
    if bool_decide (tc_records wire = [])
       || (MAX_EVENTS_V0 <? vec_len (tc_records wire))%Z
       || negb (bool_decide (u64_try_from (vec_len (tc_records wire)) = Some (tc_record_count wire)))
       || negb (bool_decide (rs_record_count raw_capture = tc_record_count wire)) then Err JsonShape
    else
      '(records, expected_previous) ← try_fold parse_record ([], genesis_head) (enumerate (tc_records wire));
      if negb (String.eqb expected_previous final_head) then Err JsonShape
      else
        Ok (mkCandidate TRAJECTORY_REPLAY_FORMAT_V0 TRAJECTORY_REPLAY_VERSION_V0 schema adapter policy
              raw_capture trajectory_digest (tc_record_count wire) genesis_head records final_head).

(* ------------------------------------------------------------------ *)
(** ** JSON lines *)

(** The bytes before the last one, and the last one. *)
Fixpoint split_last (s : string) : option (string * ascii) :=
  match s with
  | EmptyString => None
  | String c s =>
      match split_last s with
      | None => Some ("", c)
      | Some (body, last) => Some (String c body, last)
      end
  end.

Section wire.
Context `{JsonStream}.

Definition scan_body (body : string) (scan_limits : JsonScanLimits) : ReplayResultV0 string :=
  match scan_json_with_limits body scan_limits with
  | Ok RootObject => Ok body
  | Ok RootNonObject => Err JsonShape
  | Err BudgetError => Err InputTooLarge
  | Err InvalidError => Err JsonSyntax
  end.

Definition preflight_json_line (input : string) (cap : Z) (scan_limits : JsonScanLimits)
    : ReplayResultV0 string :=
  if (cap <? byte_len input)%Z then Err InputTooLarge
  else
    match split_last input with
    | None => Err JsonFraming
    | Some (body, last) =>
        if negb (bool_decide (last = LF)) || bool_decide (LF ∈ bytes_of body)
           || bool_decide (CR ∈ bytes_of input) then Err JsonFraming
        else scan_body body scan_limits
    end.

Definition preflight_json_object (input : string) (cap : Z) (scan_limits : JsonScanLimits)
    : ReplayResultV0 string :=
  if (cap <? byte_len input)%Z then Err InputTooLarge else scan_body input scan_limits.

Definition binding_fields : list string := ["identity"; "version"; "hash"].
Definition decode_binding (n : JsonNode) : option ArtifactBindingV0 :=
  values ← decode_struct binding_fields n;
  match values with
  | [identity; version; hash] =>
      identity ← decode_string identity; version ← decode_string version; hash ← decode_string hash;
      Some (mkBinding identity version hash)
  | _ => None
  end.

Definition seal_fields : list string := ["record_count"; "digest"].
Definition decode_seal (n : JsonNode) : option RawCaptureSealV0 :=
  values ← decode_struct seal_fields n;
  match values with
  | [record_count; digest] =>
      record_count ← decode_u64 record_count; digest ← decode_string digest;
      Some (mkSeal record_count digest)
  | _ => None
  end.

Definition record_fields : list string :=
  ["sequence_index"; "event_id"; "raw_record_digest"; "canonical_event_digest"; "previous_head";
   "resulting_head"].
Definition decode_record (n : JsonNode) : option ReplayRecordV0 :=
  values ← decode_struct record_fields n;
  match values with
  | [sequence_index; event_id; raw_record_digest; canonical_event_digest; previous_head; resulting_head] =>
      sequence_index ← decode_u64 sequence_index; event_id ← decode_string event_id;
      raw_record_digest ← decode_string raw_record_digest;
      canonical_event_digest ← decode_string canonical_event_digest;
      previous_head ← decode_string previous_head; resulting_head ← decode_string resulting_head;
      Some (mkReplayRecord sequence_index event_id raw_record_digest canonical_event_digest
              previous_head resulting_head)
  | _ => None
  end.

Definition candidate_fields : list string :=
  ["replay_format"; "replay_version"; "schema"; "adapter"; "policy"; "raw_capture";
   "trajectory_digest"; "record_count"; "genesis_head"; "records"; "final_head"].
(** The derived decoder of [ReplayCandidateWireV0]. *)
Definition decode_candidate (n : JsonNode) : option TrajectoryReplayCandidateV0 :=
  values ← decode_struct candidate_fields n;
  match values with
  | [replay_format; replay_version; schema; adapter; policy; raw_capture; trajectory_digest;
     record_count; genesis_head; records; final_head] =>
      replay_format ← decode_string replay_format; replay_version ← decode_string replay_version;
      schema ← decode_binding schema; adapter ← decode_binding adapter; policy ← decode_binding policy;
      raw_capture ← decode_seal raw_capture; trajectory_digest ← decode_string trajectory_digest;
      record_count ← decode_u64 record_count; genesis_head ← decode_string genesis_head;
      records ← decode_vec decode_record records; final_head ← decode_string final_head;
      Some (mkCandidate replay_format replay_version schema adapter policy raw_capture
              trajectory_digest record_count genesis_head records final_head)
  | _ => None
  end.

(** [InspectedTrajectoryReplayCandidateV0::from_json_slice]; the inspected
    candidate is the candidate it wraps. *)
Definition candidate_from_json_slice (input : string) : ReplayResultV0 TrajectoryReplayCandidateV0 :=
  body ← preflight_json_line input MAX_TRAJECTORY_REPLAY_BYTES_V0 REPLAY_SCAN_LIMITS;
  wire ← ok_or (from_slice decode_candidate body) JsonShape;
  try_into_candidate wire.

(** The derived serialization. *)
Definition binding_node (b : ArtifactBindingV0) : JsonNode :=
  struct_node binding_fields [JString (ab_identity b); JString (ab_version b); JString (ab_hash b)].
Definition seal_node (s : RawCaptureSealV0) : JsonNode :=
  struct_node seal_fields [JInteger (u64_val (rs_record_count s)); JString (rs_digest s)].
Definition record_node (r : ReplayRecordV0) : JsonNode :=
  struct_node record_fields
    [JInteger (u64_val (rp_sequence_index r)); JString (rp_event_id r); JString (rp_raw_record_digest r);
     JString (rp_canonical_event_digest r); JString (rp_previous_head r); JString (rp_resulting_head r)].
Definition candidate_node (c : TrajectoryReplayCandidateV0) : JsonNode :=
  struct_node candidate_fields
    [JString (tc_replay_format c); JString (tc_replay_version c); binding_node (tc_schema c);
     binding_node (tc_adapter c); binding_node (tc_policy c); seal_node (tc_raw_capture c);
     JString (tc_trajectory_digest c); JInteger (u64_val (tc_record_count c));
     JString (tc_genesis_head c); JArray (record_node <$> tc_records c) true; JString (tc_final_head c)].

Context `{JsonText}.

Definition serialize_json_line (node : JsonNode) (cap : Z) : ReplayResultV0 string :=
  let bytes := json_text node in
  if (cap <=? byte_len bytes)%Z then Err InputTooLarge else Ok (bytes +:+ String LF "").

(** [TrajectoryReplayCandidateV0::to_json_line] *)
Definition candidate_to_json_line (c : TrajectoryReplayCandidateV0) : ReplayResultV0 string :=
  serialize_json_line (candidate_node c) MAX_TRAJECTORY_REPLAY_BYTES_V0.

(* ------------------------------------------------------------------ *)
(** ** Raw records and declarations *)

(** One record of [ExactRawRecordSetV0::from_json_slice]. *)
Definition take_record (acc : Z * list string) (record : string) : ReplayResultV0 (Z * list string) :=
  let '(total, records) := acc in
  if (MAX_RAW_RECORD_BYTES_V0 <? byte_len record)%Z then Err InputTooLarge
  else
    total ← ok_or (checked_add total (byte_len record)) InputTooLarge;
    if (MAX_RAW_CAPTURE_BYTES_V0 <? total)%Z then Err InputTooLarge
    else Ok (total, records ++ [record]).

Definition record_set_fields : list string := ["record_set_format"; "record_set_version"; "records"].
Definition decode_record_set (n : JsonNode) : option (string * string * list string) :=
  values ← decode_struct record_set_fields n;
  match values with
  | [record_set_format; record_set_version; records] =>
      record_set_format ← decode_string record_set_format;
      record_set_version ← decode_string record_set_version;
      records ← decode_vec decode_string records;
      Some (record_set_format, record_set_version, records)
  | _ => None
  end.

(** [ExactRawRecordSetV0::from_json_slice] *)
Definition records_from_json_slice (input : string) : ReplayResultV0 (list string) :=
  body ← preflight_json_object input MAX_EXACT_RAW_RECORD_SET_JSON_BYTES_V0 RAW_RECORD_SET_SCAN_LIMITS;
  '(format, version, wire_records) ← ok_or (from_slice decode_record_set body) JsonShape;
  if negb (String.eqb format EXACT_RAW_RECORD_SET_FORMAT_V0)
     || negb (String.eqb version EXACT_RAW_RECORD_SET_VERSION_V0) then Err UnsupportedFormat
  else if bool_decide (wire_records = []) || (MAX_RAW_RECORDS_V0 <? vec_len wire_records)%Z
  then Err JsonShape
  else
    '(_, records) ← try_fold take_record (0%Z, []) wire_records;
    Ok records.

Record DeclarationsWire := mkDeclarationsWire {
  dw_format : string;
  dw_version : string;
  dw_adapter : ArtifactBindingV0;
  dw_policy : ArtifactBindingV0;
  dw_raw_capture : RawCaptureSealV0;
  dw_allowed_derivations : list ArtifactBindingV0;
}.

Definition declarations_fields : list string :=
  ["declarations_format"; "declarations_version"; "adapter"; "policy"; "raw_capture"; "allowed_derivations"].
Definition decode_declarations (n : JsonNode) : option DeclarationsWire :=
  values ← decode_struct declarations_fields n;
  match values with
  | [format; version; adapter; policy; raw_capture; allowed] =>
      format ← decode_string format; version ← decode_string version;
      adapter ← decode_binding adapter; policy ← decode_binding policy;
      raw_capture ← decode_seal raw_capture; allowed ← decode_vec decode_binding allowed;
      Some (mkDeclarationsWire format version adapter policy raw_capture allowed)
  | _ => None
  end.

(** [.map_err(|_| JsonShape)] on the validation of a binding. *)
Definition binding_or_shape (name : string) (binding : ArtifactBindingV0) : ReplayResultV0 () :=
  match validate_binding name binding with Ok _ => Ok () | Err _ => Err JsonShape end.

Definition insert_derivation (allowed : gset ArtifactBindingV0) (binding : ArtifactBindingV0)
    : ReplayResultV0 (gset ArtifactBindingV0) :=
  _ ← binding_or_shape "declared derivation" binding;
  if bool_decide (binding ∈ allowed) then Err JsonShape else Ok ({[binding]} ∪ allowed).

(** [DeclaredTrajectoryValidationContextV0::from_json_slice] *)
Definition declarations_from_json_slice (input : string) : ReplayResultV0 TrajectoryValidationContextV0 :=
  body ← preflight_json_object input MAX_TRAJECTORY_DECLARED_VALIDATION_CONTEXT_JSON_BYTES_V0
           VALIDATION_CONTEXT_SCAN_LIMITS;
  wire ← ok_or (from_slice decode_declarations body) JsonShape;
  if negb (String.eqb (dw_format wire) TRAJECTORY_DECLARED_VALIDATION_CONTEXT_FORMAT_V0)
     || negb (String.eqb (dw_version wire) TRAJECTORY_DECLARED_VALIDATION_CONTEXT_VERSION_V0)
  then Err UnsupportedFormat
  else
    _ ← binding_or_shape "declared adapter" (dw_adapter wire);
    _ ← binding_or_shape "declared policy" (dw_policy wire);
    _ ← parse_digest (rs_digest (dw_raw_capture wire));
    let record_count := u64_val (rs_record_count (dw_raw_capture wire)) in
    if (record_count =? 0)%Z || (MAX_RAW_RECORDS_V0 <? record_count)%Z
       || (MAX_EVENTS_V0 <? vec_len (dw_allowed_derivations wire))%Z then Err JsonShape
    else
      allowed ← try_fold insert_derivation ∅ (dw_allowed_derivations wire);
      Ok (mkDeclarations (dw_adapter wire) (dw_policy wire) (dw_raw_capture wire) allowed).
End wire.
