(* ===== verification/ReplayAuthority.v ===== *)
(** * The replay authority (src/trajectory/authority.rs)

    Signed receipts over the complete replay tuple, the pinned trust policy,
    and the verification of a replay against both.  Ed25519 (the ed25519-dalek
    crate) is the parameter [Ed25519]; keys and signatures are byte strings. *)

From S2P Require Import Prelude Encoding Trajectory F64 Errors JsonScan JsonScanSpec WireJson TraceValidation TraceCanonical Replay.
From Stdlib Require Import Ascii.
From stdpp Require Import options.

Definition TRAJECTORY_REPLAY_AUTHORITY_RECEIPT_FORMAT_V0 : string :=
  "legitimacy.trajectory.replay-authority-receipt".
Definition TRAJECTORY_REPLAY_AUTHORITY_RECEIPT_VERSION_V0 : string := "0".
Definition TRAJECTORY_REPLAY_AUTHORITY_TRUST_POLICY_FORMAT_V0 : string :=
  "legitimacy.trajectory.replay-authority-trust-policy".
Definition TRAJECTORY_REPLAY_AUTHORITY_TRUST_POLICY_VERSION_V0 : string := "0".
Definition REPLAY_AUTHORITY_ALGORITHM_ED25519_V0 : string := "ed25519".
Definition MAX_TRAJECTORY_REPLAY_AUTHORITY_RECEIPT_BYTES_V0 : Z := 64 * 1024.
Definition MAX_TRAJECTORY_REPLAY_AUTHORITY_TRUST_POLICY_BYTES_V0 : Z := 16 * 1024.
Definition SIGNATURE_DOMAIN_V0 : string :=
  "legitimacy.trajectory.replay-authority-receipt.signature.v0" +:+ String "000" "".
Definition ED25519_KEY_PREFIX : string := "ed25519:".

Definition RECEIPT_SCAN_LIMITS : JsonScanLimits :=
  mkLimits (u64_lit 5) (u64_lit 96) (u64_lit 96)
    (u64_lit MAX_TRAJECTORY_REPLAY_AUTHORITY_RECEIPT_BYTES_V0).
Definition TRUST_POLICY_SCAN_LIMITS : JsonScanLimits :=
  mkLimits (u64_lit 3) (u64_lit 24) (u64_lit 24)
    (u64_lit MAX_TRAJECTORY_REPLAY_AUTHORITY_TRUST_POLICY_BYTES_V0).

Inductive ReplayAuthorityErrorCodeV0 :=
  | AInputTooLarge | AJsonFraming | AJsonSyntax | AJsonShape | AUnsupportedFormat
  | AInvalidSigningKey | AAuthorityRejected | ASerialization.

Abbreviation AuthorityResultV0 := (Result ReplayAuthorityErrorCodeV0).

Definition map_replay_error (error : ReplayErrorCodeV0) : ReplayAuthorityErrorCodeV0 :=
  match error with
  | InputTooLarge => AInputTooLarge
  | JsonFraming => AJsonFraming
  | JsonSyntax => AJsonSyntax
  | JsonShape | CandidateMismatch | AuthorityBindingMismatch => AJsonShape
  | UnsupportedFormat => AUnsupportedFormat
  | Serialization => ASerialization
  end.

(* ------------------------------------------------------------------ *)
(** ** Hexadecimal keys and signatures *)

Definition HEX : string := "0123456789abcdef".

(** [HEX[n] as char] *)
Definition hex_char (n : Z) : ascii := default "0"%char (bytes_of HEX !! Z.to_nat n).

Definition hex_pair (byte : ascii) : string :=
  let b := Z.of_nat (nat_of_ascii byte) in
  String (hex_char (Z.shiftr b 4)) (String (hex_char (Z.land b 15)) "").

Definition encode_prefixed_hex (bytes : string) : string :=
  ED25519_KEY_PREFIX +:+ put_all hex_pair (bytes_of bytes).

Definition hex_nibble (byte : ascii) : AuthorityResultV0 Z :=
  let b := Z.of_nat (nat_of_ascii byte) in
  if byte_in 48 57 byte then Ok (b - 48)%Z
  else if byte_in 97 102 byte then Ok (b - 97 + 10)%Z
  else Err AJsonShape.

(** The loop over the pairs of digits. *)
Fixpoint decode_pairs (hex : string) : AuthorityResultV0 string :=
  match hex with
  | String a (String b hex) =>
      high ← hex_nibble a; low ← hex_nibble b;
      rest ← decode_pairs hex;
      Ok (String (ascii_of_Z (Z.lor (Z.shiftl high 4) low)) rest)
  | _ => Ok ""
  end.

Definition decode_prefixed_hex (N : Z) (value : string) : AuthorityResultV0 string :=
  hex ← ok_or (strip_prefix ED25519_KEY_PREFIX value) AJsonShape;
  if negb (byte_len hex =? N * 2)%Z then Err AJsonShape else decode_pairs hex.

(* ------------------------------------------------------------------ *)
(** ** Receipts *)

Class Ed25519 := {
  SigningKey : Type;
  VerifyingKey : Type;
  signing_key_from_bytes : string → SigningKey;              (* of 32 bytes *)
  verifying_key : SigningKey → VerifyingKey;
  verifying_key_bytes : VerifyingKey → string;
  verifying_key_from_bytes : string → option VerifyingKey;   (* of 32 bytes *)
  sign : SigningKey → string → string;
  verify_strict : VerifyingKey → string → string → bool;     (* message, signature *)
}.

(** What the crate documents: lengths, and that signatures and keys check out. *)
Class Ed25519Laws `{Ed25519} : Prop := {
  sign_length : ∀ k m, byte_len (sign k m) = 64%Z;
  verifying_key_length : ∀ k, byte_len (verifying_key_bytes k) = 32%Z;
  verifying_key_reads_back : ∀ k, verifying_key_from_bytes (verifying_key_bytes k) = Some k;
  sign_verifies : ∀ k m, verify_strict (verifying_key k) m (sign k m) = true;
}.

Record SignedReplayAuthorityReceiptV0 := mkReceipt {
  sr_receipt_format : string;
  sr_receipt_version : string;
  sr_issuer : string;
  sr_algorithm : string;
  sr_key_id : string;
  sr_authority_epoch : u64;
  sr_anchor : ReplayAuthorityAnchorV0;
  sr_signature : string;
}.

(** [validate_authority_name]: the bytes of an artifact name. *)
Definition validate_authority_name (value : string) : AuthorityResultV0 () :=
  if String.eqb value "" || (128 <? byte_len value)%Z || negb (bytes_enumerate_all name_byte value)
  then Err AJsonShape else Ok ().

Definition signature_message (issuer algorithm key_id : string) (authority_epoch : u64)
    (anchor : ReplayAuthorityAnchorV0) : string :=
  SIGNATURE_DOMAIN_V0 +:+
  put_string TRAJECTORY_REPLAY_AUTHORITY_RECEIPT_FORMAT_V0 +:+
  put_string TRAJECTORY_REPLAY_AUTHORITY_RECEIPT_VERSION_V0 +:+
  put_string issuer +:+ put_string algorithm +:+ put_string key_id +:+ put_u64 authority_epoch +:+
  put_all put_string
    [an_anchor_format anchor; an_anchor_version anchor; an_replay_format anchor; an_replay_version anchor;
     ab_identity (an_schema anchor); ab_version (an_schema anchor); ab_hash (an_schema anchor);
     ab_identity (an_adapter anchor); ab_version (an_adapter anchor); ab_hash (an_adapter anchor);
     ab_identity (an_policy anchor); ab_version (an_policy anchor); ab_hash (an_policy anchor)] +:+
  put_u64 (rs_record_count (an_raw_capture anchor)) +:+
  put_string (rs_digest (an_raw_capture anchor)) +:+
  put_string (an_trajectory_digest anchor) +:+
  put_u64 (an_record_count anchor) +:+
  put_string (an_genesis_head anchor) +:+
  put_string (an_expected_final_head anchor).

(** [SignedReplayAuthorityReceiptV0::signature_message] *)
Definition receipt_message (r : SignedReplayAuthorityReceiptV0) : string :=
  signature_message (sr_issuer r) (sr_algorithm r) (sr_key_id r) (sr_authority_epoch r) (sr_anchor r).

(** A receipt with its decoded signature: decoded, not verified. *)
Record UnverifiedReplayAuthorityReceiptV0 := mkUnverified {
  ur_receipt : SignedReplayAuthorityReceiptV0;
  ur_signature : string;
}.

Section authority.
Context `{Sha256, Ed25519}.

(** [ReplayAuthoritySigningKeyV0::from_bytes] *)
Definition signing_key (bytes : string) : AuthorityResultV0 SigningKey :=
  if (byte_len bytes =? 32)%Z then Ok (signing_key_from_bytes bytes) else Err AInvalidSigningKey.

Definition verification_key_text (key : SigningKey) : string :=
  encode_prefixed_hex (verifying_key_bytes (verifying_key key)).

(** The checks of the request that [issue] makes first. *)
Definition validate_request (issuer key_id : string) (authority_epoch : u64) : AuthorityResultV0 () :=
  _ ← validate_authority_name issuer;
  _ ← validate_authority_name key_id;
  if (u64_val authority_epoch =? 0)%Z then Err AJsonShape else Ok ().

(** [None] is the [expect] that the candidate of a validated trace never meets. *)
Definition issue_trajectory_replay_authority_receipt_v0 (trace : TrajectoryTraceV0) (key : SigningKey)
    (issuer key_id : string) (authority_epoch : u64)
    : option (AuthorityResultV0 SignedReplayAuthorityReceiptV0) :=
  match validate_request issuer key_id authority_epoch with
  | Err e => Some (Err e)
  | Ok _ =>
      recomputed ← trajectory_replay_candidate_v0 trace;
      let receipt signature :=
        mkReceipt TRAJECTORY_REPLAY_AUTHORITY_RECEIPT_FORMAT_V0
          TRAJECTORY_REPLAY_AUTHORITY_RECEIPT_VERSION_V0 issuer
          REPLAY_AUTHORITY_ALGORITHM_ED25519_V0 key_id authority_epoch
          (from_replay_candidate recomputed) signature in
      Some (Ok (receipt (encode_prefixed_hex (sign key (receipt_message (receipt ""))))))
  end.

Record ReplayAuthorityTrustPolicyV0 := mkTrustPolicy {
  tp_issuer : string;
  tp_algorithm : string;
  tp_key_id : string;
  tp_accepted_authority_epoch : u64;
  tp_verification_key : VerifyingKey;
}.

(** The verified receipt is the receipt. *)
Definition verify_replay_authority_receipt_v0 (receipt : UnverifiedReplayAuthorityReceiptV0)
    (policy : ReplayAuthorityTrustPolicyV0) : AuthorityResultV0 SignedReplayAuthorityReceiptV0 :=
  let r := ur_receipt receipt in
  if negb (String.eqb (sr_issuer r) (tp_issuer policy))
     || negb (String.eqb (sr_algorithm r) (tp_algorithm policy))
     || negb (String.eqb (sr_key_id r) (tp_key_id policy))
     || negb (bool_decide (sr_authority_epoch r = tp_accepted_authority_epoch policy))
     || negb (verify_strict (tp_verification_key policy) (receipt_message r) (ur_signature receipt))
  then Err AAuthorityRejected
  else Ok r.

(* ------------------------------------------------------------------ *)
(** ** Strict decoding *)

(** [ReplayAuthorityAnchorWireV0::try_into_anchor]; the wire struct has the
    fields of an anchor, as plain strings. *)
Definition try_into_anchor (wire : ReplayAuthorityAnchorV0) : AuthorityResultV0 ReplayAuthorityAnchorV0 :=
  if negb (String.eqb (an_anchor_format wire) TRAJECTORY_REPLAY_AUTHORITY_ANCHOR_FORMAT_V0)
     || negb (String.eqb (an_anchor_version wire) TRAJECTORY_REPLAY_AUTHORITY_ANCHOR_VERSION_V0)
     || negb (String.eqb (an_replay_format wire) TRAJECTORY_REPLAY_FORMAT_V0)
     || negb (String.eqb (an_replay_version wire) TRAJECTORY_REPLAY_VERSION_V0)
  then Err AUnsupportedFormat
  else
    raw_capture ← map_err map_replay_error (parse_capture (an_raw_capture wire));
    let record_count := an_record_count wire in
    if (u64_val record_count =? 0)%Z || (MAX_EVENTS_V0 <? u64_val record_count)%Z
       || negb (bool_decide (rs_record_count raw_capture = record_count)) then Err AJsonShape
    else
      schema ← map_err map_replay_error (parse_binding (an_schema wire));
      adapter ← map_err map_replay_error (parse_binding (an_adapter wire));
      policy ← map_err map_replay_error (parse_binding (an_policy wire));
      trajectory_digest ← map_err map_replay_error (parse_digest (an_trajectory_digest wire));
      genesis_head ← map_err map_replay_error (parse_digest (an_genesis_head wire));
      expected_final_head ← map_err map_replay_error (parse_digest (an_expected_final_head wire));
      Ok (mkAnchor TRAJECTORY_REPLAY_AUTHORITY_ANCHOR_FORMAT_V0
            TRAJECTORY_REPLAY_AUTHORITY_ANCHOR_VERSION_V0 TRAJECTORY_REPLAY_FORMAT_V0
            TRAJECTORY_REPLAY_VERSION_V0 schema adapter policy raw_capture trajectory_digest
            record_count genesis_head expected_final_head).

(** [ReplayAuthorityReceiptWireV0::try_into_unverified]; the wire struct has
    the fields of a receipt. *)
Definition try_into_unverified (wire : SignedReplayAuthorityReceiptV0)
    : AuthorityResultV0 UnverifiedReplayAuthorityReceiptV0 :=
  if negb (String.eqb (sr_receipt_format wire) TRAJECTORY_REPLAY_AUTHORITY_RECEIPT_FORMAT_V0)
     || negb (String.eqb (sr_receipt_version wire) TRAJECTORY_REPLAY_AUTHORITY_RECEIPT_VERSION_V0)
  then Err AUnsupportedFormat
  else
    _ ← validate_authority_name (sr_issuer wire);
    _ ← validate_authority_name (sr_key_id wire);
    if negb (String.eqb (sr_algorithm wire) REPLAY_AUTHORITY_ALGORITHM_ED25519_V0)
       || (u64_val (sr_authority_epoch wire) =? 0)%Z then Err AUnsupportedFormat
    else
      signature ← decode_prefixed_hex 64 (sr_signature wire);
      anchor ← try_into_anchor (sr_anchor wire);
      Ok (mkUnverified
            (mkReceipt TRAJECTORY_REPLAY_AUTHORITY_RECEIPT_FORMAT_V0
               TRAJECTORY_REPLAY_AUTHORITY_RECEIPT_VERSION_V0 (sr_issuer wire)
               REPLAY_AUTHORITY_ALGORITHM_ED25519_V0 (sr_key_id wire) (sr_authority_epoch wire)
               anchor (sr_signature wire)) signature).

Record TrustPolicyWire := mkTrustPolicyWire {
  tw_format : string;
  tw_version : string;
  tw_issuer : string;
  tw_algorithm : string;
  tw_key_id : string;
  tw_accepted_authority_epoch : u64;
  tw_verification_key : string;
}.

(** [ReplayAuthorityTrustPolicyWireV0::try_into_policy] *)
Definition try_into_policy (wire : TrustPolicyWire) : AuthorityResultV0 ReplayAuthorityTrustPolicyV0 :=
  if negb (String.eqb (tw_format wire) TRAJECTORY_REPLAY_AUTHORITY_TRUST_POLICY_FORMAT_V0)
     || negb (String.eqb (tw_version wire) TRAJECTORY_REPLAY_AUTHORITY_TRUST_POLICY_VERSION_V0)
     || negb (String.eqb (tw_algorithm wire) REPLAY_AUTHORITY_ALGORITHM_ED25519_V0)
  then Err AUnsupportedFormat
  else
    _ ← validate_authority_name (tw_issuer wire);
    _ ← validate_authority_name (tw_key_id wire);
    if (u64_val (tw_accepted_authority_epoch wire) =? 0)%Z then Err AJsonShape
    else
      key_bytes ← decode_prefixed_hex 32 (tw_verification_key wire);
      key ← ok_or (verifying_key_from_bytes key_bytes) AJsonShape;
      Ok (mkTrustPolicy (tw_issuer wire) (tw_algorithm wire) (tw_key_id wire)
            (tw_accepted_authority_epoch wire) key).

(* ------------------------------------------------------------------ *)
(** ** JSON lines *)

Context `{JsonStream}.

Definition anchor_fields : list string :=
  ["anchor_format"; "anchor_version"; "replay_format"; "replay_version"; "schema"; "adapter"; "policy";
   "raw_capture"; "trajectory_digest"; "record_count"; "genesis_head"; "expected_final_head"].
Definition decode_anchor (n : JsonNode) : option ReplayAuthorityAnchorV0 :=
  values ← decode_struct anchor_fields n;
  match values with
  | [anchor_format; anchor_version; replay_format; replay_version; schema; adapter; policy;
     raw_capture; trajectory_digest; record_count; genesis_head; expected_final_head] =>
      anchor_format ← decode_string anchor_format; anchor_version ← decode_string anchor_version;
      replay_format ← decode_string replay_format; replay_version ← decode_string replay_version;
      schema ← decode_binding schema; adapter ← decode_binding adapter; policy ← decode_binding policy;
      raw_capture ← decode_seal raw_capture; trajectory_digest ← decode_string trajectory_digest;
      record_count ← decode_u64 record_count; genesis_head ← decode_string genesis_head;
      expected_final_head ← decode_string expected_final_head;
      Some (mkAnchor anchor_format anchor_version replay_format replay_version schema adapter policy
              raw_capture trajectory_digest record_count genesis_head expected_final_head)
  | _ => None
  end.

Definition receipt_fields : list string :=
  ["receipt_format"; "receipt_version"; "issuer"; "algorithm"; "key_id"; "authority_epoch"; "anchor";
   "signature"].
Definition decode_receipt (n : JsonNode) : option SignedReplayAuthorityReceiptV0 :=
  values ← decode_struct receipt_fields n;
  match values with
  | [receipt_format; receipt_version; issuer; algorithm; key_id; authority_epoch; anchor; signature] =>
      receipt_format ← decode_string receipt_format; receipt_version ← decode_string receipt_version;
      issuer ← decode_string issuer; algorithm ← decode_string algorithm;
      key_id ← decode_string key_id; authority_epoch ← decode_u64 authority_epoch;
      anchor ← decode_anchor anchor; signature ← decode_string signature;
      Some (mkReceipt receipt_format receipt_version issuer algorithm key_id authority_epoch anchor signature)
  | _ => None
  end.

Definition trust_policy_fields : list string :=
  ["trust_policy_format"; "trust_policy_version"; "issuer"; "algorithm"; "key_id";
   "accepted_authority_epoch"; "verification_key"].
Definition decode_trust_policy (n : JsonNode) : option TrustPolicyWire :=
  values ← decode_struct trust_policy_fields n;
  match values with
  | [format; version; issuer; algorithm; key_id; epoch; key] =>
      format ← decode_string format; version ← decode_string version; issuer ← decode_string issuer;
      algorithm ← decode_string algorithm; key_id ← decode_string key_id; epoch ← decode_u64 epoch;
      key ← decode_string key;
      Some (mkTrustPolicyWire format version issuer algorithm key_id epoch key)
  | _ => None
  end.

(** [UnverifiedReplayAuthorityReceiptV0::from_json_slice] *)
Definition receipt_from_json_slice (input : string) : AuthorityResultV0 UnverifiedReplayAuthorityReceiptV0 :=
  body ← map_err map_replay_error
           (preflight_json_line input MAX_TRAJECTORY_REPLAY_AUTHORITY_RECEIPT_BYTES_V0 RECEIPT_SCAN_LIMITS);
  wire ← ok_or (from_slice decode_receipt body) AJsonShape;
  try_into_unverified wire.

(** [ReplayAuthorityTrustPolicyV0::from_json_slice] *)
Definition trust_policy_from_json_slice (input : string) : AuthorityResultV0 ReplayAuthorityTrustPolicyV0 :=
  body ← map_err map_replay_error
           (preflight_json_line input MAX_TRAJECTORY_REPLAY_AUTHORITY_TRUST_POLICY_BYTES_V0
              TRUST_POLICY_SCAN_LIMITS);
  wire ← ok_or (from_slice decode_trust_policy body) AJsonShape;
  try_into_policy wire.

Definition anchor_node (a : ReplayAuthorityAnchorV0) : JsonNode :=
  struct_node anchor_fields
    [JString (an_anchor_format a); JString (an_anchor_version a); JString (an_replay_format a);
     JString (an_replay_version a); binding_node (an_schema a); binding_node (an_adapter a);
     binding_node (an_policy a); seal_node (an_raw_capture a); JString (an_trajectory_digest a);
     JInteger (u64_val (an_record_count a)); JString (an_genesis_head a);
     JString (an_expected_final_head a)].
Definition receipt_node (r : SignedReplayAuthorityReceiptV0) : JsonNode :=
  struct_node receipt_fields
    [JString (sr_receipt_format r); JString (sr_receipt_version r); JString (sr_issuer r);
     JString (sr_algorithm r); JString (sr_key_id r); JInteger (u64_val (sr_authority_epoch r));
     anchor_node (sr_anchor r); JString (sr_signature r)].

Context `{JsonText}.

(** [SignedReplayAuthorityReceiptV0::to_json_line] *)
Definition receipt_to_json_line (r : SignedReplayAuthorityReceiptV0) : AuthorityResultV0 string :=
  map_err map_replay_error
    (serialize_json_line (receipt_node r) MAX_TRAJECTORY_REPLAY_AUTHORITY_RECEIPT_BYTES_V0).

(* ------------------------------------------------------------------ *)
(** ** Verified replays (src/trajectory/replay.rs) *)

Record VerifiedTrajectoryReplayV0 := mkVerified {
  vr_verification_format : string;
  vr_verification_version : string;
  vr_replay : TrajectoryReplayCandidateV0;
  vr_authority_receipt : SignedReplayAuthorityReceiptV0;
}.

(** [None] as in [issue]. *)
Definition verify_trajectory_replay_v0 (trace : TrajectoryTraceV0) (supplied : TrajectoryReplayCandidateV0)
    (authority_receipt : SignedReplayAuthorityReceiptV0)
    : option (ReplayResultV0 VerifiedTrajectoryReplayV0) :=
  recomputed ← trajectory_replay_candidate_v0 trace;
  Some
    (if negb (bool_decide (supplied = recomputed)) then Err CandidateMismatch
     else if negb (bool_decide (sr_anchor authority_receipt = from_replay_candidate recomputed))
     then Err AuthorityBindingMismatch
     else Ok (mkVerified TRAJECTORY_REPLAY_VERIFICATION_FORMAT_V0
                TRAJECTORY_REPLAY_VERIFICATION_VERSION_V0 recomputed authority_receipt)).
End authority.
