(* ===== verification/ReplaySpec.v ===== *)
(** * What replay candidates guarantee

    The candidate of a validated trace exists, is linked from its genesis to
    its final head, and survives its JSON line; a decoded candidate is linked;
    and the tuple an authority signs commits to the whole trace. *)

From S2P Require Import Prelude Encoding Trajectory F64 Errors JsonScan JsonScanSpec WireJson TraceValidation TraceCanonical TraceValidationSpec TraceBudgetSpec TraceSpec Replay.
From Stdlib Require Import Ascii.
From stdpp Require Import options.

(* ------------------------------------------------------------------ *)
(** ** Linked candidates *)

(** Each record starts from the head the one before it left. *)
Inductive linked : string → list ReplayRecordV0 → string → Prop :=
  | linked_nil head : linked head [] head
  | linked_cons record records final :
      linked (rp_resulting_head record) records final →
      linked (rp_previous_head record) (record :: records) final.

(** The strings of a record are digests and its position is its index. *)
Record record_ok (index : nat) (r : ReplayRecordV0) : Prop := {
  ro_index : u64_val (rp_sequence_index r) = Z.of_nat index;
  ro_event_id : identifier (rp_event_id r) = true;
  ro_raw : valid_digest (rp_raw_record_digest r);
  ro_canonical : valid_digest (rp_canonical_event_digest r);
  ro_previous : valid_digest (rp_previous_head r);
  ro_resulting : valid_digest (rp_resulting_head r);
}.

(** What strict decoding asks of a candidate. *)
Record well_formed_candidate (c : TrajectoryReplayCandidateV0) : Prop := {
  wc_format : tc_replay_format c = TRAJECTORY_REPLAY_FORMAT_V0;
  wc_version : tc_replay_version c = TRAJECTORY_REPLAY_VERSION_V0;
  wc_bindings : valid_binding (tc_schema c) ∧ valid_binding (tc_adapter c) ∧ valid_binding (tc_policy c);
  wc_capture : valid_digest (rs_digest (tc_raw_capture c));
  wc_digest : valid_digest (tc_trajectory_digest c);
  wc_heads : valid_digest (tc_genesis_head c) ∧ valid_digest (tc_final_head c);
  wc_nonempty : tc_records c ≠ [];
  wc_count : (vec_len (tc_records c) ≤ MAX_EVENTS_V0)%Z;
  wc_counts : u64_val (tc_record_count c) = vec_len (tc_records c) ∧
    rs_record_count (tc_raw_capture c) = tc_record_count c;
  wc_records : ∀ index r, tc_records c !! index = Some r → record_ok index r;
  wc_linked : linked (tc_genesis_head c) (tc_records c) (tc_final_head c);
}.

Lemma is_digest_valid value : is_digest value = true ↔ valid_digest value.
Proof.
  rewrite <-(validate_digest_Ok ""). unfold is_digest, validate_digest.
  destruct (strip_prefix _ _) as [hex|]; [|done].
  destruct (byte_len hex =? 64)%Z, (bytes_all hex_byte hex); simpl; done.
Qed.

Lemma parse_digest_Ok value d : parse_digest value = Ok d ↔ d = value ∧ valid_digest value.
Proof.
  unfold parse_digest. rewrite <-is_digest_valid. destruct (is_digest value); naive_solver.
Qed.

Lemma parse_digest_valid value : valid_digest value → parse_digest value = Ok value.
Proof. intros. by apply parse_digest_Ok. Qed.

Lemma parse_binding_Ok b b' : parse_binding b = Ok b' ↔ b' = b ∧ valid_binding b.
Proof.
  unfold parse_binding. pose proof (validate_binding_Ok "replay binding" b) as Hv.
  destruct (validate_binding _ b) as [[]|e]; naive_solver.
Qed.

Lemma parse_capture_Ok s s' : parse_capture s = Ok s' ↔ s' = s ∧ valid_digest (rs_digest s).
Proof.
  unfold parse_capture. destruct s as [n d]; simpl. split.
  - destruct (parse_digest d) as [d'|e] eqn:Hd; simpl; [|done].
    apply parse_digest_Ok in Hd as [-> ?]. by intros [= <-].
  - intros [-> Hd]. by rewrite (parse_digest_valid d Hd).
Qed.

Lemma linked_snoc head records middle r :
  linked head records middle → rp_previous_head r = middle →
  linked head (records ++ [r]) (rp_resulting_head r).
Proof.
  induction 1 as [head|record records final Hl IH]; intros Hr; simpl.
  - rewrite <-Hr. constructor. constructor.
  - constructor. auto.
Qed.

(** The loop of [try_into_candidate], as an equivalence. *)
Lemma parse_records_Ok start wire records expected records' final :
  (Z.of_nat start + vec_len wire < 2 ^ 64)%Z →
  try_fold parse_record (records, expected) (zip (seq start (length wire)) wire) = Ok (records', final) ↔
  records' = records ++ wire ∧ linked expected wire final ∧
  (∀ i r, wire !! i = Some r → record_ok (start + i) r).
Proof.
  revert start records expected. induction wire as [|r wire IH]; intros start records expected Hlen.
  { simpl. rewrite app_nil_r. split.
    - intros [= -> ->]. split_and!; [done|constructor|done].
    - intros (-> & Hl & _). by inversion Hl. }
  rewrite vec_len_cons in Hlen. assert (0 ≤ vec_len wire)%Z by (unfold vec_len; lia).
  cbn [length seq zip zip_with try_fold parse_record].
  change (zip_with pair (seq (S start) (length wire)) wire) with (zip (seq (S start) (length wire)) wire).
  destruct (u64_try_from_total (Z.of_nat start)) as (index & -> & Hindex); [lia|]. cbn [ok_or mbind Result_bind].
  assert (Hsplit : (∀ i r', (r :: wire) !! i = Some r' → record_ok (start + i) r') ↔
    record_ok start r ∧ ∀ i r', wire !! i = Some r' → record_ok (S start + i) r').
  { split.
    - intros Hall. split; [rewrite <-(Nat.add_0_r start); by apply (Hall 0)|].
      intros i r' Hi. replace (S start + i) with (start + S i) by lia. by apply (Hall (S i)).
    - intros [Hz Hall] [|i] r' Hi; [injection Hi as <-; by rewrite Nat.add_0_r|].
      replace (start + S i) with (S start + i) by lia. by apply Hall. }
  rewrite Hsplit. split.
  - intros Hrun. destruct_bind Hrun Hstep. case_bool_decide as Hi; [|done]. cbn [negb orb] in Hstep.
    destruct (validate_identifier _ (rp_event_id r)) as [[]|e] eqn:Hid; [|done]. cbn [is_ok negb] in Hstep.
    apply validate_identifier_Ok in Hid. destruct_bind Hstep Hp. apply parse_digest_Ok in Hp as [-> Hp].
    destruct (String.eqb_spec (rp_previous_head r) expected) as [Hpe|?]; [|done]. cbn [negb] in Hstep.
    destruct_bind Hstep Hres. apply parse_digest_Ok in Hres as [-> Hres].
    destruct_bind Hstep Hraw. apply parse_digest_Ok in Hraw as [-> Hraw].
    destruct_bind Hstep Hcan. apply parse_digest_Ok in Hcan as [-> Hcan].
    injection Hstep as <-. apply IH in Hrun as (-> & Hl & Hall); [|lia].
    split_and!; [|rewrite <-Hpe; by constructor|by split; [congruence|..]|done].
    rewrite <-app_assoc. by destruct r.
  - intros (-> & Hl & [Hix Hid Hraw Hcan Hprev Hres] & Hall). inversion Hl; subst.
    rewrite bool_decide_true by (apply u64_eq; congruence).
    rewrite (proj2 (validate_identifier_Ok _ _) Hid). cbn [negb orb is_ok].
    rewrite (parse_digest_valid _ Hprev). cbn [mbind Result_bind]. rewrite String.eqb_refl. cbn [negb].
    rewrite (parse_digest_valid _ Hres). cbn [mbind Result_bind].
    rewrite (parse_digest_valid _ Hraw). cbn [mbind Result_bind].
    rewrite (parse_digest_valid _ Hcan). cbn [mbind Result_bind].
    apply IH; [lia|]. split_and!; [|done..].
    rewrite <-app_assoc. by destruct r.
Qed.

(** Strict decoding returns a candidate as it stands when it is well formed,
    and fails otherwise. *)
Lemma try_into_candidate_Ok wire c :
  try_into_candidate wire = Ok c ↔ c = wire ∧ well_formed_candidate wire.
Proof.
  unfold try_into_candidate. split.
  - intros H. destruct (String.eqb_spec (tc_replay_format wire) TRAJECTORY_REPLAY_FORMAT_V0) as [Hf|]; [|done].
    destruct (String.eqb_spec (tc_replay_version wire) TRAJECTORY_REPLAY_VERSION_V0) as [Hv|]; [|done].
    cbn [negb orb] in H. invert_binds.
    repeat match goal with
    | H : parse_digest _ = Ok _ |- _ => apply parse_digest_Ok in H as [-> ?]
    | H : parse_binding _ = Ok _ |- _ => apply parse_binding_Ok in H as [-> ?]
    | H : parse_capture _ = Ok _ |- _ => apply parse_capture_Ok in H as [-> ?]
    end.
    case_bool_decide as Hne; [done|]. cbn [orb] in H.
    destruct (Z.ltb_spec MAX_EVENTS_V0 (vec_len (tc_records wire))) as [|Hcount]; [done|]. cbn [orb] in H.
    case_bool_decide as Hlen; [|done]. cbn [negb orb] in H. case_bool_decide as Hseal; [|done]. cbn [negb] in H.
    destruct (try_fold _ _ _) as [[records final]|e] eqn:Hfold; cbn [mbind Result_bind] in H; [|done].
    destruct (String.eqb_spec final (tc_final_head wire)) as [->|]; [|done]. cbn [negb] in H.
    apply (parse_records_Ok 0) in Hfold as (-> & Hl & Hall); [|unfold MAX_EVENTS_V0 in *; simpl; lia].
    injection H as <-. apply u64_try_from_Some in Hlen. split; [|by split].
    destruct wire; simpl in *. by subst.
  - intros [-> []]. rewrite wc_format0, wc_version0. cbn [String.eqb]. rewrite !String.eqb_refl. cbn [negb orb].
    destruct wc_bindings0 as (Hs & Ha & Hp), wc_heads0 as [Hg Hfi], wc_counts0 as [Hc1 Hc2].
    rewrite (proj2 (parse_binding_Ok _ _) (conj eq_refl Hs)). cbn [mbind Result_bind].
    rewrite (proj2 (parse_binding_Ok _ _) (conj eq_refl Ha)). cbn [mbind Result_bind].
    rewrite (proj2 (parse_binding_Ok _ _) (conj eq_refl Hp)). cbn [mbind Result_bind].
    rewrite (proj2 (parse_capture_Ok _ _) (conj eq_refl wc_capture0)). cbn [mbind Result_bind].
    rewrite (parse_digest_valid _ wc_digest0), (parse_digest_valid _ Hg), (parse_digest_valid _ Hfi).
    cbn [mbind Result_bind].
    rewrite bool_decide_false by done. rewrite (proj2 (Z.ltb_ge _ _)) by done.
    rewrite (bool_decide_true (u64_try_from _ = _)) by (by apply u64_try_from_Some).
    rewrite (bool_decide_true (rs_record_count _ = _)) by done. cbn [negb orb].
    unfold enumerate. rewrite (proj2 (parse_records_Ok 0 (tc_records wire) [] (tc_genesis_head wire) (tc_records wire)
      (tc_final_head wire) ltac:(unfold MAX_EVENTS_V0 in *; simpl; lia))) by done.
    cbn [mbind Result_bind]. rewrite String.eqb_refl. cbn [negb].
    destruct wire; simpl in *. by subst.
Qed.

(* ------------------------------------------------------------------ *)
(** ** The candidate of a validated trace *)

Lemma framed_sha256_valid `{Sha256Laws} domain components : valid_digest (framed_sha256 domain components).
Proof.
  exists (sha256_lower_hex (hash_frames domain components)). split_and!; [done| |].
  - unfold byte_len. by rewrite sha256_length.
  - exact (sha256_digits (hash_frames domain components)).
Qed.

Section candidate.
Context `{Sha : Sha256, Laws : !Sha256Laws, JsonStream, TraceSerializer} (TRAJECTORY_SCHEMA_BYTES_V0 : string).

(** The event of a validated trace has the values a record is made of. *)
Lemma replay_record_ok raw_records declarations index e head :
  event_ok raw_records declarations index e → valid_digest head →
  ∃ r, replay_record head e = Some r ∧ record_ok index r ∧ rp_previous_head r = head.
Proof using Laws.
  intros [(id & [_ Hid] & Hi) (sq & [_ Hsq] & Hs) _ _ _ [Hd _] _] Hh. unfold replay_record.
  rewrite Hsq, Hid. eexists. split; [done|]. split; [|done].
  split; simpl; try done; apply framed_sha256_valid.
Qed.

Lemma replay_records_ok raw_records declarations start events head :
  (∀ i e, events !! i = Some e → event_ok raw_records declarations (start + i) e) → valid_digest head →
  ∃ records final, replay_records head events = Some (records, final) ∧ length records = length events ∧
    linked head records final ∧ valid_digest final ∧
    (∀ i r, records !! i = Some r → record_ok (start + i) r).
Proof using Laws.
  revert start head. induction events as [|e events IH]; intros start head Hall Hh.
  { exists [], head. split_and!; [done|done|constructor|done|done]. }
  destruct (replay_record_ok raw_records declarations start e head) as (r & Hr & Hok & Hp);
    [rewrite <-(Nat.add_0_r start); by apply (Hall 0)|done|].
  destruct (IH (S start) (rp_resulting_head r)) as (records & final & Hrs & Hlen & Hl & Hf & Hroks).
  { intros i e' Hi. replace (S start + i) with (start + S i) by lia. by apply Hall. }
  { apply Hok. }
  exists (r :: records), final. cbn [replay_records]. rewrite Hr. cbn [mbind option_bind]. rewrite Hrs.
  split_and!; [done|by simpl; rewrite Hlen|rewrite <-Hp; by constructor|done|].
  intros [|i] r' Hi; [injection Hi as <-; by rewrite Nat.add_0_r|].
  replace (start + S i) with (S start + i) by lia. by apply Hroks.
Qed.

(** The source's [expect]s are unreachable: the candidate exists, and it is
    what strict decoding asks for. *)
Lemma candidate_well_formed trace raw_records declarations :
  validate_trace TRAJECTORY_SCHEMA_BYTES_V0 trace raw_records declarations = Ok () →
  ∃ c, trajectory_replay_candidate_v0 trace = Some c ∧ well_formed_candidate c.
Proof using Laws.
  intros Hv%validate_trace_Ok. destruct Hv. destruct tv_budget.
  unfold trajectory_replay_candidate_v0.
  assert (0 ≤ vec_len (tt_events trace) < 2 ^ 64)%Z as Hn by (unfold MAX_EVENTS_V0, vec_len in *; lia).
  destruct (u64_try_from_total _ Hn) as (n & -> & Hnv). cbn [mbind option_bind].
  destruct (replay_records_ok raw_records declarations 0 (tt_events trace)
    (genesis_head trace (trajectory_digest trace) n)) as (records & final & Hrs & Hlen & Hl & Hf & Hroks);
    [done|apply framed_sha256_valid|].
  rewrite Hrs. eexists. split; [done|]. destruct tv_seal as [? _].
  split; cbn [tc_replay_format tc_replay_version tc_schema tc_adapter tc_policy tc_raw_capture
    tc_trajectory_digest tc_record_count tc_genesis_head tc_records tc_final_head];
    try done; try apply framed_sha256_valid; try (split; [apply framed_sha256_valid|done]).
  - by intros ->; destruct (tt_events trace).
  - unfold vec_len in *. by rewrite Hlen.
  - unfold vec_len in *. rewrite Hlen. split; [done|]. apply u64_eq. lia.
Qed.
End candidate.

(* ------------------------------------------------------------------ *)
(** ** JSON lines *)

Lemma split_last_app body c : split_last (body +:+ String c "") = Some (body, c).
Proof. induction body as [|d body IH]; [done|]. rewrite string_app_cons. cbn [split_last]. by rewrite IH. Qed.

Section lines.
Context `{HS : JsonStream, HT : JsonText, HL : !JsonLaws}.

(** A line the serializer wrote passes the framing and the scan. *)
Lemma line_reads_back node cap limits line :
  serialize_json_line node cap = Ok line →
  complete node = true → exact node = true → (levels node < RECURSION_LIMIT)%Z → root_kind node = RootObject →
  in_budget (ScanState_new limits) 1 node →
  line = json_text node +:+ String LF "" ∧ preflight_json_line line cap limits = Ok (json_text node).
Proof using HL.
  unfold serialize_json_line. intros Hs Hc He Hlv Hk Hb.
  destruct (Z.leb_spec cap (byte_len (json_text node))) as [|Hlen]; [done|]. injection Hs as <-.
  split; [done|]. unfold preflight_json_line.
  assert (byte_len (json_text node +:+ String LF "") = byte_len (json_text node) + 1)%Z as Hl.
  { unfold byte_len. rewrite string_app_length. simpl. lia. }
  rewrite (proj2 (Z.ltb_ge _ _)) by lia. rewrite split_last_app.
  destruct (json_one_line node) as [Hlf Hcr].
  rewrite (bool_decide_true (LF = LF)) by done. rewrite (bool_decide_false (LF ∈ _)) by done.
  rewrite bool_decide_false.
  2: { rewrite bytes_of_app, elem_of_app. intros [?|Hin]; [done|].
       by apply list_elem_of_singleton in Hin. }
  cbn [negb orb]. unfold scan_body. by rewrite scan_text, Hk.
Qed.
End lines.

(** The names of the fields of a struct are distinct. *)
Ltac distinct := apply (bool_decide_unpack _); vm_compute; exact I.

Lemma decode_binding_node b : decode_binding (binding_node b) = Some b.
Proof. unfold decode_binding, binding_node. rewrite decode_struct_node; [by destruct b|distinct|done]. Qed.

Lemma decode_seal_node s : decode_seal (seal_node s) = Some s.
Proof.
  unfold decode_seal, seal_node. rewrite decode_struct_node; [|distinct|done].
  cbn [mbind option_bind]. rewrite decode_u64_val. by destruct s.
Qed.

Lemma decode_record_node r : decode_record (record_node r) = Some r.
Proof.
  unfold decode_record, record_node. rewrite decode_struct_node; [|distinct|done].
  cbn [mbind option_bind]. rewrite decode_u64_val. by destruct r.
Qed.

Lemma decode_candidate_node c : decode_candidate (candidate_node c) = Some c.
Proof.
  unfold decode_candidate, candidate_node. rewrite decode_struct_node; [|distinct|done].
  cbn [mbind option_bind decode_string decode_vec]. rewrite !decode_binding_node, decode_seal_node, decode_u64_val.
  rewrite decode_all_fmap; [by destruct c|]. apply Forall_forall. intros r _. apply decode_record_node.
Qed.

(** Bindings, seals and records are complete and exact. *)
Lemma binding_node_whole b : complete (binding_node b) = true ∧ exact (binding_node b) = true.
Proof. split; [apply struct_node_complete; [distinct|done..]|by apply struct_node_exact]. Qed.

Lemma seal_node_whole s : complete (seal_node s) = true ∧ exact (seal_node s) = true.
Proof.
  split; [apply struct_node_complete; [distinct|done..]|apply struct_node_exact; [done|]].
  cbn [forallb]. by rewrite exact_u64.
Qed.

Lemma record_node_whole r : complete (record_node r) = true ∧ exact (record_node r) = true.
Proof.
  split; [apply struct_node_complete; [distinct|done..]|apply struct_node_exact; [done|]].
  cbn [forallb]. by rewrite exact_u64.
Qed.

Lemma records_whole l :
  forallb complete (record_node <$> l) = true ∧ forallb exact (record_node <$> l) = true.
Proof.
  rewrite !forallb_Forall_true, !Forall_fmap. split; apply Forall_forall; intros r _; apply record_node_whole.
Qed.

Lemma candidate_node_whole c : complete (candidate_node c) = true ∧ exact (candidate_node c) = true.
Proof.
  destruct (records_whole (tc_records c)) as [Hc He].
  split; [apply struct_node_complete; [distinct|done|]|apply struct_node_exact; [done|]].
  - cbn [forallb]. rewrite !(λ b, proj1 (binding_node_whole b)), (λ s, proj1 (seal_node_whole s)).
    cbn [complete]. by rewrite Hc.
  - cbn [forallb]. rewrite !(λ b, proj2 (binding_node_whole b)), (λ s, proj2 (seal_node_whole s)), exact_u64.
    cbn [exact]. by rewrite He.
Qed.

(** What the records of a candidate use. *)
Lemma records_use l :
  (sum_of node_count (record_node <$> l) = 7 * vec_len l)%Z ∧
  (sum_of key_count (record_node <$> l) = 6 * vec_len l)%Z ∧
  (max_of levels (record_node <$> l) ≤ 2)%Z ∧ (max_of nesting (record_node <$> l) ≤ 1)%Z ∧
  forallb objects_small (record_node <$> l) = true.
Proof.
  induction l as [|r l (Hn & Hk & Hl & Hd & Ho)]; [done|]. rewrite fmap_cons. cbn [sum_of max_of forallb].
  rewrite vec_len_cons, Hn, Hk, Ho. cbn. split_and!; lia || done.
Qed.

Lemma candidate_levels c : (levels (candidate_node c) < RECURSION_LIMIT)%Z.
Proof.
  destruct (records_use (tc_records c)) as (_ & _ & Hlv & _). unfold RECURSION_LIMIT.
  enough (levels (candidate_node c) = 2 + max_of levels (record_node <$> tc_records c) `max` 1)%Z by lia.
  cbn -[record_node]. pose proof (max_of_nonneg levels (record_node <$> tc_records c)). lia.
Qed.

Lemma candidate_in_budget `{HL : JsonLaws} c :
  (vec_len (tc_records c) ≤ MAX_EVENTS_V0)%Z →
  (byte_len (json_text (candidate_node c)) ≤ MAX_TRAJECTORY_REPLAY_BYTES_V0)%Z →
  in_budget (ScanState_new REPLAY_SCAN_LIMITS) 1 (candidate_node c).
Proof.
  intros Hn Hb. pose proof (json_not_shorter (candidate_node c)) as Hs.
  destruct (records_use (tc_records c)) as (Hnodes & Hkeys & Hlv & Hns & Hobj).
  unfold in_budget, room, ScanState_new. cbn [sc_nodes sc_total_keys sc_decoded_string_bytes sc_limits].
  change (u64_val (max_depth REPLAY_SCAN_LIMITS)) with 8%Z.
  change (u64_val (max_nodes REPLAY_SCAN_LIMITS)) with 80008%Z.
  change (u64_val (max_total_keys REPLAY_SCAN_LIMITS)) with 60024%Z.
  change (u64_val (max_decoded_string_bytes REPLAY_SCAN_LIMITS)) with MAX_TRAJECTORY_REPLAY_BYTES_V0.
  unfold MAX_EVENTS_V0 in Hn. split; [|cbn -[record_node]; by rewrite Hobj].
  assert (node_count (candidate_node c) = 23 + sum_of node_count (record_node <$> tc_records c))%Z as ->
    by (cbn -[record_node]; lia).
  assert (key_count (candidate_node c) = 22 + sum_of key_count (record_node <$> tc_records c))%Z as ->
    by (cbn -[record_node]; lia).
  assert (levels (candidate_node c) = 2 + max_of levels (record_node <$> tc_records c) `max` 1)%Z as ->
    by (cbn -[record_node]; lia).
  assert (nesting (candidate_node c) = 2 + max_of nesting (record_node <$> tc_records c))%Z as ->
    by (cbn -[record_node]; pose proof (max_of_nonneg nesting (record_node <$> tc_records c)); lia).
  lia.
Qed.

(* ------------------------------------------------------------------ *)
(** ** Heads *)

Section heads.
Context `{Sha256}.

Lemma identifier_fits id : identifier id = true → fits id.
Proof using Type.
  unfold identifier. rewrite !andb_true_iff, Z.leb_le. intros [[[_ Hl] _] _].
  by eapply fits_small.
Qed.

Lemma valid_digest_fits d : valid_digest d → fits d.
Proof using Type.
  intros (hex & -> & Hl & _). unfold fits, fits_len, byte_len in *. rewrite string_app_length. simpl. lia.
Qed.

Lemma framed_sha256_fits `{!Sha256Laws} domain components : fits (framed_sha256 domain components).
Proof using Type. apply valid_digest_fits, framed_sha256_valid. Qed.

Lemma put_u64_fits x : fits (put_u64 x).
Proof using Type. unfold fits, fits_len, byte_len, put_u64, u64_be_bytes. by rewrite be_bytes_length. Qed.

(** What a step of the chain hashes fits. *)
Definition step_fits (head : string) (r : ReplayRecordV0) : Prop :=
  fits head ∧ fits (rp_event_id r) ∧ fits (rp_raw_record_digest r) ∧ fits (rp_canonical_event_digest r).

Lemma chain_step_fits head r :
  step_fits head r →
  frames_fit REPLAY_CHAIN_STEP_DOMAIN_V0
    [head; put_u64 (rp_sequence_index r); rp_event_id r; rp_raw_record_digest r; rp_canonical_event_digest r].
Proof using Type.
  intros (? & ? & ? & ?). split_and!; [done|done|]. repeat apply Forall_cons_2; try done; apply put_u64_fits.
Qed.

(** Records whose heads are the steps of the chain. *)
Inductive chained : string → list ReplayRecordV0 → string → Prop :=
  | chained_nil head : chained head [] head
  | chained_snoc start records head r :
      chained start records head → step_fits head r → rp_previous_head r = head →
      rp_resulting_head r = chain_step head (rp_sequence_index r) (rp_event_id r)
        (rp_raw_record_digest r) (rp_canonical_event_digest r) →
      chained start (records ++ [r]) (rp_resulting_head r).

(** What the head after a record hashes. *)
Definition step_input (r : ReplayRecordV0) : string :=
  hash_frames REPLAY_CHAIN_STEP_DOMAIN_V0
    [rp_previous_head r; put_u64 (rp_sequence_index r); rp_event_id r; rp_raw_record_digest r;
     rp_canonical_event_digest r].

(** What the heads of a chain hash: the components of the genesis, the records. *)
Definition chain_inputs (components : list string) (records : list ReplayRecordV0) : list string :=
  hash_frames REPLAY_GENESIS_DOMAIN_V0 components :: (step_input <$> records).

Lemma chain_inputs_snoc cs records r : chain_inputs cs (records ++ [r]) = chain_inputs cs records ++ [step_input r].
Proof using Type. unfold chain_inputs. by rewrite fmap_app. Qed.

(** A genesis head, whose components fit. *)
Definition genesis_fits (head : string) (components : list string) : Prop :=
  head = framed_sha256 REPLAY_GENESIS_DOMAIN_V0 components ∧ frames_fit REPLAY_GENESIS_DOMAIN_V0 components.

(** How a chain ends. *)
Lemma chained_inv start records final :
  chained start records final →
  (records = [] ∧ final = start) ∨
  ∃ records0 head r, records = records0 ++ [r] ∧ chained start records0 head ∧ step_fits head r ∧
    rp_previous_head r = head ∧ final = rp_resulting_head r ∧
    rp_resulting_head r = chain_step head (rp_sequence_index r) (rp_event_id r)
      (rp_raw_record_digest r) (rp_canonical_event_digest r).
Proof using Type. destruct 1 as [|start records head r]; [by left|]. right. by exists records, head, r. Qed.

Lemma cons_inv {A} (x y : A) l k : x :: l = y :: k → x = y ∧ l = k.
Proof using Type. by intros [= -> ->]. Qed.

(** A genesis head is not the head after a step. *)
Lemma genesis_not_step start cs head r :
  genesis_fits start cs → step_fits head r → rp_previous_head r = head →
  start = chain_step head (rp_sequence_index r) (rp_event_id r) (rp_raw_record_digest r)
    (rp_canonical_event_digest r) → collides [hash_frames REPLAY_GENESIS_DOMAIN_V0 cs] [step_input r].
Proof using Type.
  intros [-> Hf] Hs <- Heq. apply framed_sha256_inj in Heq as [[? _]|?]; [done|done|done|by apply chain_step_fits].
Qed.

(** Chains that end in the same head started from the same head, and went
    through the same records. *)
Lemma chained_inj start records final start' records' cs cs' :
  chained start records final → chained start' records' final →
  genesis_fits start cs → genesis_fits start' cs' →
  (start = start' ∧ records = records') ∨ collides (chain_inputs cs records) (chain_inputs cs' records').
Proof using Type.
  intros Hc. revert start' records' cs'.
  induction Hc as [head|start records head r Hc IH Hf Hp Hr]; intros start' records' cs' Hc' Hg Hg';
    apply chained_inv in Hc' as [[-> He]|(records2 & head2 & r2 & -> & Hc2 & Hf2 & Hp2 & He & Hr2)].
  - by left.
  - right. eapply collides_incl; [| |eapply (genesis_not_step head cs head2 r2); [done..|congruence]];
      rewrite ?chain_inputs_snoc; unfold chain_inputs; auto with incl.
  - right. apply collides_sym. eapply collides_incl; [| |eapply (genesis_not_step start' cs' head r); [done..|congruence]];
      rewrite ?chain_inputs_snoc; unfold chain_inputs; auto with incl.
  - assert (Hsame : rp_resulting_head r = rp_resulting_head r2) by done. rewrite Hr, Hr2 in Hsame.
    subst head head2.
    apply framed_sha256_inj in Hsame as [[_ Hsame]|Hcol];
      [|right; eapply collides_incl; [..|exact Hcol]; rewrite chain_inputs_snoc; auto with incl
       |by apply chain_step_fits..].
    apply cons_inv in Hsame as [Hhd [Hi%put_u64_inj [Hid [Hrd [Hcd _]%cons_inv]%cons_inv]%cons_inv]%cons_inv].
    destruct (IH start' records2 cs' ltac:(congruence) Hg Hg') as [[-> ->]|Hcol];
      [|right; eapply collides_incl; [..|exact Hcol]; rewrite chain_inputs_snoc; auto with incl].
    left. split; [done|]. do 2 f_equal. destruct r, r2; simpl in *. congruence.
Qed.

(** The records of the events of a validated trace are chained. *)
Lemma replay_records_chained `{!Sha256Laws} raw_records declarations index before start head events records final :
  (∀ i e, events !! i = Some e → event_ok raw_records declarations (index + i) e) →
  chained start before head → fits head →
  replay_records head events = Some (records, final) → chained start (before ++ records) final.
Proof using Type.
  revert index before head records. induction events as [|e events IH]; intros index before head records Hall Hc Hh.
  { intros [= <- <-]. by rewrite app_nil_r. }
  cbn [replay_records]. unfold replay_record.
  destruct (Hall 0 e eq_refl) as [(id & [_ Hid] & Hi) (sq & [_ Hsq] & _) _ _ _ [Hd _] _].
  rewrite Hsq, Hid. cbn [mbind option_bind].
  set (r := mkReplayRecord _ _ _ _ _ _). destruct (replay_records _ events) as [[rs f]|] eqn:Hrs; [|done].
  intros [= <- <-]. rewrite cons_middle, app_assoc.
  apply (IH (S index) (before ++ [r]) (rp_resulting_head r)); [| | |done].
  - intros i e' He'. replace (S index + i) with (index + S i) by lia. by apply Hall.
  - apply (chained_snoc start before head r); [done| |done..]. split_and!; [done|..].
    + by apply identifier_fits.
    + by apply valid_digest_fits.
    + apply framed_sha256_fits.
  - apply framed_sha256_fits.
Qed.

(** The components of the genesis head of a trace. *)
Definition genesis_components (trace : TrajectoryTraceV0) (count : u64) : list string :=
  [TRAJECTORY_REPLAY_FORMAT_V0; TRAJECTORY_REPLAY_VERSION_V0;
   ab_identity (tt_schema trace); ab_version (tt_schema trace); ab_hash (tt_schema trace);
   ab_identity (tt_adapter trace); ab_version (tt_adapter trace); ab_hash (tt_adapter trace);
   ab_identity (tt_policy trace); ab_version (tt_policy trace); ab_hash (tt_policy trace);
   put_u64 (rs_record_count (tt_raw_capture trace)); rs_digest (tt_raw_capture trace);
   trajectory_digest trace; put_u64 count].

(** Everything that the candidate of a trace hashes to get from the trace to its
    final head: the canonical trace, the genesis and every record. *)
Definition replay_inputs (trace : TrajectoryTraceV0) (c : TrajectoryReplayCandidateV0) : list string :=
  trace_input trace :: chain_inputs (genesis_components trace (tc_record_count c)) (tc_records c).

(** What the genesis head hashes fits. *)
Lemma genesis_head_fits `{!Sha256Laws} trace count :
  binding_fits (tt_schema trace) → binding_fits (tt_adapter trace) → binding_fits (tt_policy trace) →
  fits (rs_digest (tt_raw_capture trace)) →
  genesis_fits (genesis_head trace (trajectory_digest trace) count) (genesis_components trace count).
Proof using Type.
  intros (? & ? & ?) (? & ? & ?) (? & ? & ?) ?. split; [done|]. split_and!; [done|done|].
  do 2 (apply Forall_cons_2; [done|]). do 9 (apply Forall_cons_2; [assumption|]).
  apply Forall_cons_2; [apply put_u64_fits|]. apply Forall_cons_2; [assumption|].
  apply Forall_cons_2; [apply framed_sha256_fits|]. by apply Forall_singleton, put_u64_fits.
Qed.
End heads.

(* ------------------------------------------------------------------ *)
(** ** The properties *)

Section properties.
Context `{Sha : Sha256, Laws : !Sha256Laws, JsonStream, TraceSerializer} (TRAJECTORY_SCHEMA_BYTES_V0 : string).

Abbreviation validates := (validate_trace TRAJECTORY_SCHEMA_BYTES_V0).

(** The candidate of a validated trace is a chain from its genesis. *)
Lemma candidate_chained trace raw_records declarations c :
  validates trace raw_records declarations = Ok () → trajectory_replay_candidate_v0 trace = Some c →
  tc_genesis_head c = genesis_head trace (trajectory_digest trace) (tc_record_count c) ∧
  tc_trajectory_digest c = trajectory_digest trace ∧
  chained (tc_genesis_head c) (tc_records c) (tc_final_head c).
Proof using Laws.
  intros Hv Hc. apply validate_trace_Ok in Hv. unfold trajectory_replay_candidate_v0 in Hc.
  destruct (u64_try_from _) as [n|]; cbn [mbind option_bind] in Hc; [|done].
  destruct (replay_records _ _) as [[records final]|] eqn:Hrs; cbn [mbind option_bind] in Hc; [|done].
  injection Hc as <-. cbn. split_and!; [done..|].
  apply (replay_records_chained raw_records declarations 0 [] _ (genesis_head trace (trajectory_digest trace) n)
    (tt_events trace)); [apply Hv|constructor|apply framed_sha256_fits|done].
Qed.

(** Chains of validated traces with the same final head are of one trace. *)
Lemma head_commits trace trace' raw_records raw_records' declarations declarations' c c' :
  validates trace raw_records declarations = Ok () →
  validates trace' raw_records' declarations' = Ok () →
  fits (canonical_bytes trace) → fits (canonical_bytes trace') →
  trajectory_replay_candidate_v0 trace = Some c → trajectory_replay_candidate_v0 trace' = Some c' →
  tc_final_head c = tc_final_head c' →
  (trace = trace' ∧ c = c') ∨ collides (replay_inputs trace c) (replay_inputs trace' c').
Proof using Laws.
  intros Hv Hv' Hf Hf' Hc Hc' Hh.
  destruct (candidate_chained _ _ _ _ Hv Hc) as (Hg & Hd & Hch).
  destruct (candidate_chained _ _ _ _ Hv' Hc') as (Hg' & Hd' & Hch').
  apply valid_budget in Hv as Hb, Hv' as Hb'.
  pose proof (budget_fits _ _ _ Hb) as [? _ ? ? ? _]. pose proof (budget_fits _ _ _ Hb') as [? _ ? ? ? _].
  pose proof (genesis_head_fits trace (tc_record_count c)) as Hgf.
  pose proof (genesis_head_fits trace' (tc_record_count c')) as Hgf'.
  rewrite Hh in Hch. rewrite <-Hg in Hgf. rewrite <-Hg' in Hgf'.
  destruct (chained_inj _ _ _ _ _ _ _ Hch Hch' ltac:(auto) ltac:(auto)) as [[Heq _]|Hcol];
    [|right; eapply collides_incl; [..|exact Hcol]; unfold replay_inputs; auto with incl].
  destruct Hgf as [Hgf Hgc]; [done..|]. destruct Hgf' as [Hgf' Hgc']; [done..|].
  rewrite Hgf, Hgf' in Heq. apply framed_sha256_inj in Heq as [[_ Heq]|Hcol];
    [|right; eapply collides_incl; [..|exact Hcol]; unfold replay_inputs, chain_inputs; auto with incl|done..].
  apply (f_equal (λ l, l !! 13)) in Heq. cbn in Heq. apply Some_inj in Heq.
  destruct (digest_commits trace trace' raw_records raw_records' declarations declarations')
    as [->|Hcol]; [done..| |right; eapply collides_incl; [..|exact Hcol]; unfold replay_inputs; auto with incl].
  left. split; [done|]. congruence.
Qed.

(** C7: the final head commits to the whole trace: when the replay chains of
    two validated traces end in the same head, the traces are equal, and so are
    their records, or two different inputs among those that the two chains
    hashed (the canonical trace, the genesis, the records) have one digest. *)
Theorem replay_head_commits trace trace' raw_records raw_records' declarations declarations' c c' :
  validates trace raw_records declarations = Ok () →
  validates trace' raw_records' declarations' = Ok () →
  fits (canonical_bytes trace) → fits (canonical_bytes trace') →
  trajectory_replay_candidate_v0 trace = Some c → trajectory_replay_candidate_v0 trace' = Some c' →
  tc_final_head c = tc_final_head c' →
  (trace = trace' ∧ c = c') ∨ collides (replay_inputs trace c) (replay_inputs trace' c').
Proof using Laws. apply head_commits. Qed.

Context `{HT : JsonText, HL : !JsonLaws}.

(** C18: the replay candidate of a validated trace always exists and is well
    formed, and its JSON line, unless it is over the size limit, reads back as
    the same candidate; whatever line is read back is a well-formed candidate,
    linked from its genesis to its final head. *)
Theorem replay_candidate_roundtrip trace raw_records declarations :
  validates trace raw_records declarations = Ok () →
  ∃ c, trajectory_replay_candidate_v0 trace = Some c ∧ well_formed_candidate c ∧
    match candidate_to_json_line c with
    | Ok line => candidate_from_json_slice line = Ok c
    | Err e => e = InputTooLarge ∧
        (MAX_TRAJECTORY_REPLAY_BYTES_V0 ≤ byte_len (json_text (candidate_node c)))%Z
    end ∧
    ∀ line c', candidate_from_json_slice line = Ok c' → well_formed_candidate c'.
Proof using Laws HL.
  intros Hv. destruct (candidate_well_formed _ _ _ _ Hv) as (c & Hc & Hw). exists c. split_and!; [done|done| |].
  - unfold candidate_to_json_line. destruct (serialize_json_line _ _) as [line|e] eqn:Hs.
    + unfold serialize_json_line in Hs. destruct (candidate_node_whole c). pose proof (candidate_levels c).
      destruct (line_reads_back (candidate_node c) MAX_TRAJECTORY_REPLAY_BYTES_V0 REPLAY_SCAN_LIMITS line)
        as [-> Hp]; [done..| |].
      * apply candidate_in_budget; [apply Hw|]. case_match eqn:Hle; [done|]. apply Z.leb_gt in Hle. lia.
      * unfold candidate_from_json_slice. rewrite Hp. cbn [mbind Result_bind].
        rewrite from_slice_text, decode_candidate_node by done. cbn [ok_or mbind Result_bind].
        by apply try_into_candidate_Ok.
    + unfold serialize_json_line in Hs. case_match eqn:Hle; [|done]. injection Hs as <-.
      by apply Z.leb_le in Hle.
  - intros line c' Hr. unfold candidate_from_json_slice in Hr.
    destruct_bind Hr Hp. destruct_bind Hr Hd. by apply try_into_candidate_Ok in Hr as [-> ?].
Qed.
End properties.
