(* ===== verification/AuthoritySpec.v ===== *)
(** * What the replay authority guarantees

    Keys and signatures survive their hexadecimal text, in one spelling only;
    the signed message determines everything in a receipt; a receipt that is
    issued for a validated trace reads back, is accepted under the matching
    trust policy and verifies the replay; and, when signatures of the pinned
    key cannot be forged, a verified replay is one the authority issued. *)

From S2P Require Import Prelude Encoding Trajectory F64 Errors JsonScan JsonScanSpec WireJson TraceValidation TraceCanonical TraceValidationSpec TraceBudgetSpec TraceSpec Replay ReplayAuthority ReplaySpec.
From Stdlib Require Import Ascii.
From stdpp Require Import options.

(* ------------------------------------------------------------------ *)
(** ** Hexadecimal text *)

Lemma hex_nibble_char byte n :
  hex_nibble byte = Ok n ↔ (0 ≤ n < 16)%Z ∧ hex_char n = byte.
Proof.
  split.
  - destruct byte as [[] [] [] [] [] [] [] []]; vm_compute; intros H; try discriminate H;
      injection H as <-; (split; [split; congruence|reflexivity]).
  - intros [Hn <-]. assert (n ∈ seqZ 0 16) as Hin by (apply elem_of_seqZ; lia).
    vm_compute in Hin. repeat (apply elem_of_cons in Hin as [->|Hin]; [reflexivity|]).
    by apply not_elem_of_nil in Hin.
Qed.

Lemma hex_pair_nibbles byte :
  ∃ high low, hex_pair byte = String (hex_char high) (String (hex_char low) "") ∧
    (0 ≤ high < 16)%Z ∧ (0 ≤ low < 16)%Z ∧ ascii_of_Z (Z.lor (Z.shiftl high 4) low) = byte.
Proof.
  exists (Z.shiftr (Z.of_nat (nat_of_ascii byte)) 4), (Z.land (Z.of_nat (nat_of_ascii byte)) 15).
  split; [done|]. destruct byte as [[] [] [] [] [] [] [] []]; vm_compute; intuition congruence.
Qed.

Lemma hex_pair_of_nibbles high low :
  (0 ≤ high < 16)%Z → (0 ≤ low < 16)%Z →
  hex_pair (ascii_of_Z (Z.lor (Z.shiftl high 4) low)) = String (hex_char high) (String (hex_char low) "").
Proof.
  enough (∀ h, h ∈ seqZ 0 16 → ∀ l, l ∈ seqZ 0 16 →
    hex_pair (ascii_of_Z (Z.lor (Z.shiftl h 4) l)) = String (hex_char h) (String (hex_char l) "")) as Hall
    by (intros; apply Hall; apply elem_of_seqZ; lia).
  clear. intros h Hh l Hl. vm_compute in Hh, Hl.
  repeat (apply elem_of_cons in Hh as [->|Hh];
    [repeat (apply elem_of_cons in Hl as [->|Hl]; [reflexivity|]); by apply not_elem_of_nil in Hl|]).
  by apply not_elem_of_nil in Hh.
Qed.

Lemma pairs_length bytes : String.length (put_all hex_pair (bytes_of bytes)) = 2 * String.length bytes.
Proof.
  induction bytes as [|c bytes IH]; [done|].
  change (bytes_of (String c bytes)) with (c :: bytes_of bytes).
  rewrite put_all_cons, string_app_length, IH. simpl. lia.
Qed.

Lemma decode_pairs_encode bytes : decode_pairs (put_all hex_pair (bytes_of bytes)) = Ok bytes.
Proof.
  induction bytes as [|c bytes IH]; [done|].
  change (bytes_of (String c bytes)) with (c :: bytes_of bytes). rewrite put_all_cons.
  destruct (hex_pair_nibbles c) as (h & l & -> & Hh & Hl & Hc).
  rewrite !string_app_cons, string_app_nil_l. cbn [decode_pairs].
  rewrite (proj2 (hex_nibble_char (hex_char h) h)) by done. cbn [mbind Result_bind].
  rewrite (proj2 (hex_nibble_char (hex_char l) l)) by done. cbn [mbind Result_bind].
  rewrite IH. cbn [mbind Result_bind]. by rewrite Hc.
Qed.

Lemma encode_decode_pairs n hex bytes :
  String.length hex = 2 * n → decode_pairs hex = Ok bytes → hex = put_all hex_pair (bytes_of bytes).
Proof.
  revert hex bytes. induction n as [|n IH]; intros hex bytes Hlen Hd.
  { destruct hex; [|done]. by injection Hd as <-. }
  destruct hex as [|a [|b hex]]; simpl in Hlen; try lia. cbn [decode_pairs] in Hd.
  destruct_bind Hd Ha. destruct_bind Hd Hb. destruct_bind Hd Hr. injection Hd as <-.
  apply hex_nibble_char in Ha as [Ha <-], Hb as [Hb <-]. apply IH in Hr as ->; [|lia].
  change (bytes_of (String ?c ?s)) with (c :: bytes_of s). rewrite put_all_cons, hex_pair_of_nibbles by done.
  by rewrite !string_app_cons.
Qed.

(** Decoding accepts exactly the encodings of byte strings of the length. *)
Lemma decode_prefixed_hex_Ok (n : nat) value bytes :
  decode_prefixed_hex (Z.of_nat n) value = Ok bytes ↔
  value = encode_prefixed_hex bytes ∧ byte_len bytes = Z.of_nat n.
Proof.
  unfold decode_prefixed_hex, encode_prefixed_hex. split.
  - destruct (strip_prefix _ value) as [hex|] eqn:Hp; cbn [ok_or mbind Result_bind]; [|done].
    apply strip_prefix_Some in Hp as ->.
    destruct (Z.eqb_spec (byte_len hex) (Z.of_nat n * 2)) as [Hl|]; [|done]. cbn [negb]. intros Hd.
    unfold byte_len in *. assert (String.length hex = 2 * n) as Hlen by lia.
    pose proof (encode_decode_pairs n hex bytes Hlen Hd) as ->. rewrite pairs_length in Hlen.
    split; [done|lia].
  - intros [-> Hl]. rewrite (proj2 (strip_prefix_Some _ _ _) eq_refl). cbn [ok_or mbind Result_bind].
    unfold byte_len in *. rewrite pairs_length. rewrite (proj2 (Z.eqb_eq _ _)) by lia. cbn [negb].
    apply decode_pairs_encode.
Qed.

(* ------------------------------------------------------------------ *)
(** ** The signed message *)

Definition anchor_fits (a : ReplayAuthorityAnchorV0) : Prop :=
  Forall fits [an_anchor_format a; an_anchor_version a; an_replay_format a; an_replay_version a] ∧
  binding_fits (an_schema a) ∧ binding_fits (an_adapter a) ∧ binding_fits (an_policy a) ∧
  fits (rs_digest (an_raw_capture a)) ∧ fits (an_trajectory_digest a) ∧ fits (an_genesis_head a) ∧
  fits (an_expected_final_head a).

Definition receipt_fits (r : SignedReplayAuthorityReceiptV0) : Prop :=
  fits (sr_issuer r) ∧ fits (sr_algorithm r) ∧ fits (sr_key_id r) ∧ anchor_fits (sr_anchor r).

(** The message determines every signed field. *)
Lemma receipt_message_inj r r' :
  receipt_fits r → receipt_fits r' → receipt_message r = receipt_message r' →
  sr_issuer r = sr_issuer r' ∧ sr_algorithm r = sr_algorithm r' ∧ sr_key_id r = sr_key_id r' ∧
  sr_authority_epoch r = sr_authority_epoch r' ∧ sr_anchor r = sr_anchor r'.
Proof.
  destruct r as [f v i al k e [af av rf rv [s1 s2 s3] [a1 a2 a3] [p1 p2 p3] [n d] td rc gh fh] sg].
  destruct r' as [f' v' i' al' k' e' [af' av' rf' rv' [s1' s2' s3'] [a1' a2' a3'] [p1' p2' p3'] [n' d'] td' rc' gh' fh'] sg'].
  unfold receipt_fits, anchor_fits, binding_fits. cbn. rewrite !Forall_cons.
  intros (?&?&?&(?&?&?&?&_)&(?&?&?)&(?&?&?)&(?&?&?)&?&?&?&?) (?&?&?&(?&?&?&?&_)&(?&?&?)&(?&?&?)&(?&?&?)&?&?&?&?) He.
  unfold receipt_message, signature_message in He. cbn -[put_u64 put_string] in He.
  apply string_app_inj in He as [_ He]; [|done].
  do 24 (peel He; [|done..]). apply (delimited_inj put_string fits) in He; [|done..].
  by subst.
Qed.

(* ------------------------------------------------------------------ *)
(** ** Receipts on a line *)

Lemma decode_anchor_node a : decode_anchor (anchor_node a) = Some a.
Proof.
  unfold decode_anchor, anchor_node. rewrite decode_struct_node; [|distinct|done].
  cbn [mbind option_bind decode_string]. rewrite !decode_binding_node, decode_seal_node, decode_u64_val.
  by destruct a.
Qed.

Lemma decode_receipt_node r : decode_receipt (receipt_node r) = Some r.
Proof.
  unfold decode_receipt, receipt_node. rewrite decode_struct_node; [|distinct|done].
  cbn [mbind option_bind decode_string]. rewrite decode_u64_val, decode_anchor_node. by destruct r.
Qed.

Lemma anchor_node_whole a : complete (anchor_node a) = true ∧ exact (anchor_node a) = true.
Proof.
  split; [apply struct_node_complete; [distinct|done|]|apply struct_node_exact; [done|]].
  - cbn [forallb]. by rewrite !(λ b, proj1 (binding_node_whole b)), (λ s, proj1 (seal_node_whole s)).
  - cbn [forallb].
    by rewrite !(λ b, proj2 (binding_node_whole b)), (λ s, proj2 (seal_node_whole s)), exact_u64.
Qed.

Lemma receipt_node_whole r : complete (receipt_node r) = true ∧ exact (receipt_node r) = true.
Proof.
  split; [apply struct_node_complete; [distinct|done|]|apply struct_node_exact; [done|]].
  - cbn [forallb]. by rewrite (λ a, proj1 (anchor_node_whole a)).
  - cbn [forallb]. by rewrite (λ a, proj2 (anchor_node_whole a)), exact_u64.
Qed.

Lemma receipt_in_budget `{HL : JsonLaws} r :
  (byte_len (json_text (receipt_node r)) ≤ MAX_TRAJECTORY_REPLAY_AUTHORITY_RECEIPT_BYTES_V0)%Z →
  in_budget (ScanState_new RECEIPT_SCAN_LIMITS) 1 (receipt_node r).
Proof.
  intros Hb. pose proof (json_not_shorter (receipt_node r)) as Hs.
  unfold in_budget, room, ScanState_new. cbn [sc_nodes sc_total_keys sc_decoded_string_bytes sc_limits].
  change (u64_val (max_depth RECEIPT_SCAN_LIMITS)) with 5%Z.
  change (u64_val (max_nodes RECEIPT_SCAN_LIMITS)) with 96%Z.
  change (u64_val (max_total_keys RECEIPT_SCAN_LIMITS)) with 96%Z.
  change (u64_val (max_decoded_string_bytes RECEIPT_SCAN_LIMITS))
    with MAX_TRAJECTORY_REPLAY_AUTHORITY_RECEIPT_BYTES_V0.
  assert (levels (receipt_node r) = 4%Z) as -> by done.
  assert (nesting (receipt_node r) = 3%Z) as -> by done.
  assert (node_count (receipt_node r) = 32%Z) as -> by done.
  assert (key_count (receipt_node r) = 31%Z) as -> by done.
  split; [lia|done].
Qed.

(** A receipt that serializes reads back, if its strict decoding accepts it. *)
Lemma receipt_line_reads_back `{HL : JsonLaws} r u line :
  try_into_unverified r = Ok u → receipt_to_json_line r = Ok line → receipt_from_json_slice line = Ok u.
Proof.
  intros Hu Hl. unfold receipt_to_json_line in Hl.
  destruct (serialize_json_line _ _) as [line'|e] eqn:Hs; cbn [map_err] in Hl; [|done]. injection Hl as ->.
  destruct (receipt_node_whole r). assert (levels (receipt_node r) < RECURSION_LIMIT)%Z by done.
  destruct (line_reads_back (receipt_node r) MAX_TRAJECTORY_REPLAY_AUTHORITY_RECEIPT_BYTES_V0
    RECEIPT_SCAN_LIMITS line) as [_ Hp]; [done..| |].
  - apply receipt_in_budget. unfold serialize_json_line in Hs. case_match eqn:Hle; [done|].
    apply Z.leb_gt in Hle. lia.
  - unfold receipt_from_json_slice. rewrite Hp. cbn [map_err mbind Result_bind].
    rewrite from_slice_text, decode_receipt_node by done. done.
Qed.

(* ------------------------------------------------------------------ *)
(** ** Issued receipts *)

Lemma parse_capture_valid s : valid_digest (rs_digest s) → parse_capture s = Ok s.
Proof. intros. by apply parse_capture_Ok. Qed.

Lemma parse_binding_valid b : valid_binding b → parse_binding b = Ok b.
Proof. intros. by apply parse_binding_Ok. Qed.

Lemma try_into_anchor_candidate c :
  well_formed_candidate c → try_into_anchor (from_replay_candidate c) = Ok (from_replay_candidate c).
Proof.
  intros []. destruct wc_bindings as (? & ? & ?), wc_heads as [? ?], wc_counts as [Hc Hs].
  unfold try_into_anchor, from_replay_candidate. cbn -[parse_binding parse_capture parse_digest].
  rewrite parse_capture_valid by done. cbn [map_err mbind Result_bind].
  assert (1 ≤ u64_val (tc_record_count c))%Z as Hpos
    by (rewrite Hc; unfold vec_len; destruct (tc_records c); [done|simpl; lia]).
  rewrite (proj2 (Z.eqb_neq _ _)) by lia. rewrite (proj2 (Z.ltb_ge _ _)) by lia.
  rewrite bool_decide_true by done. cbn [orb negb].
  rewrite !parse_binding_valid by done. cbn [map_err mbind Result_bind].
  by rewrite !parse_digest_valid by done.
Qed.

(** Names, bindings and digests that were checked fit. *)
Lemma authority_name_fits value : validate_authority_name value = Ok () → fits value.
Proof.
  unfold validate_authority_name. destruct (Z.ltb_spec 128 (byte_len value)) as [|Hl].
  - by destruct (String.eqb value "").
  - intros _. by eapply fits_small.
Qed.

Lemma valid_binding_fits b : valid_binding b → binding_fits b.
Proof.
  intros (Hn & Hv & Hd). unfold ascii_name, ascii_version in *. rewrite !andb_true_iff, !Z.leb_le in *.
  destruct Hn as [[_ Hn] _], Hv as [[_ Hv] _].
  split_and!; [by eapply fits_small|by eapply fits_small|by apply valid_digest_fits].
Qed.

Lemma candidate_anchor_fits c : well_formed_candidate c → anchor_fits (from_replay_candidate c).
Proof.
  intros []. destruct wc_bindings as (? & ? & ?), wc_heads as [? ?].
  split_and!; simpl; auto using valid_binding_fits, valid_digest_fits. by repeat apply Forall_cons_2.
Qed.

Lemma try_into_anchor_fits wire a : try_into_anchor wire = Ok a → anchor_fits a.
Proof.
  unfold try_into_anchor. intros H. destruct (negb _ || negb _ || negb _ || negb _); [done|].
  destruct_bind H Hc. destruct (_ || _ || negb _); [done|].
  destruct_bind H Hs. destruct_bind H Ha. destruct_bind H Hp. destruct_bind H Ht. destruct_bind H Hg.
  destruct_bind H Hf. injection H as <-.
  assert (∀ (r : ReplayResultV0 string) s, map_err map_replay_error r = Ok s → r = Ok s) as Hd by (by intros [] ? [= ->]).
  assert (∀ (r : ReplayResultV0 ArtifactBindingV0) b, map_err map_replay_error r = Ok b → r = Ok b) as Hb by (by intros [] ? [= ->]).
  assert (∀ (r : ReplayResultV0 RawCaptureSealV0) b, map_err map_replay_error r = Ok b → r = Ok b) as Hcs by (by intros [] ? [= ->]).
  apply Hd, parse_digest_Ok in Ht as [-> ?], Hg as [-> ?], Hf as [-> ?].
  apply Hb, parse_binding_Ok in Hs as [-> ?], Ha as [-> ?], Hp as [-> ?].
  apply Hcs, parse_capture_Ok in Hc as [-> ?].
  split_and!; simpl; auto using valid_binding_fits, valid_digest_fits. by repeat apply Forall_cons_2.
Qed.

Lemma try_into_unverified_fits wire u : try_into_unverified wire = Ok u → receipt_fits (ur_receipt u).
Proof.
  unfold try_into_unverified. intros H. destruct (negb _ || negb _); [done|].
  destruct_bind H Hi. destruct_bind H Hk. destruct (negb _ || _); [done|]. destruct_bind H Hs. destruct_bind H Ha.
  injection H as <-. repeat match goal with x : () |- _ => destruct x end.
  split_and!; simpl; [by apply authority_name_fits|done|by apply authority_name_fits|].
  by eapply try_into_anchor_fits.
Qed.

Section authority.
Context `{Sha : Sha256, Laws : !Sha256Laws, Ed : Ed25519, Stream : JsonStream, TraceSerializer}
  (TRAJECTORY_SCHEMA_BYTES_V0 : string).

Abbreviation validates := (validate_trace TRAJECTORY_SCHEMA_BYTES_V0).

(** The fields of a receipt that was issued for a candidate. *)
Record issued (key : SigningKey) (issuer key_id : string) (epoch : u64) (c : TrajectoryReplayCandidateV0)
    (r : SignedReplayAuthorityReceiptV0) : Prop := {
  is_format : sr_receipt_format r = TRAJECTORY_REPLAY_AUTHORITY_RECEIPT_FORMAT_V0;
  is_version : sr_receipt_version r = TRAJECTORY_REPLAY_AUTHORITY_RECEIPT_VERSION_V0;
  is_issuer : sr_issuer r = issuer;
  is_algorithm : sr_algorithm r = REPLAY_AUTHORITY_ALGORITHM_ED25519_V0;
  is_key_id : sr_key_id r = key_id;
  is_epoch : sr_authority_epoch r = epoch;
  is_anchor : sr_anchor r = from_replay_candidate c;
  is_signature : sr_signature r = encode_prefixed_hex (sign key (receipt_message r));
}.

(** What issuing a receipt for a validated trace gives. *)
Lemma issue_Ok trace raw_records declarations key issuer key_id epoch :
  validates trace raw_records declarations = Ok () →
  validate_request issuer key_id epoch = Ok () →
  ∃ c r, trajectory_replay_candidate_v0 trace = Some c ∧ well_formed_candidate c ∧
    issue_trajectory_replay_authority_receipt_v0 trace key issuer key_id epoch = Some (Ok r) ∧
    issued key issuer key_id epoch c r.
Proof using Laws.
  intros Hv Hr. destruct (candidate_well_formed _ _ _ _ Hv) as (c & Hc & Hw).
  unfold issue_trajectory_replay_authority_receipt_v0. rewrite Hr, Hc. cbn [mbind option_bind].
  eexists c, _. split_and!; [done..|]. by split.
Qed.

(** Issued receipts are accepted by strict decoding. *)
Lemma try_into_unverified_issued `{!Ed25519Laws} key issuer key_id epoch c r :
  validate_request issuer key_id epoch = Ok () → well_formed_candidate c → issued key issuer key_id epoch c r →
  try_into_unverified r = Ok (mkUnverified r (sign key (receipt_message r))).
Proof using Type.
  intros Hr Hw [Hf Hv <- Ha <- <- Hc Hs]. unfold validate_request in Hr. unfold try_into_unverified.
  rewrite Hf, Hv, !String.eqb_refl. cbn [negb orb].
  destruct (validate_authority_name (sr_issuer r)) as [[]|]; cbn [mbind Result_bind] in *; [|done].
  destruct (validate_authority_name (sr_key_id r)) as [[]|]; cbn [mbind Result_bind] in *; [|done].
  rewrite Ha, String.eqb_refl. cbn [negb orb]. destruct (u64_val (sr_authority_epoch r) =? 0)%Z; [done|].
  change 64%Z with (Z.of_nat 64).
  rewrite (proj2 (decode_prefixed_hex_Ok 64 (sr_signature r) (sign key (receipt_message r)))).
  2: { split; [done|]. apply sign_length. }
  cbn [mbind Result_bind]. rewrite Hc, try_into_anchor_candidate by done. cbn [mbind Result_bind].
  rewrite <-Hc, <-Ha. destruct r; simpl in *. by subst.
Qed.

Context `{HT : JsonText, HL : !JsonLaws}.

(** C23: a receipt the authority issues for a validated trace is read back from
    its line (unless the line is over the size limit) with the signature that
    was made, is accepted under the trust policy that pins the authority's
    issuer, key identity, epoch and key, and verifies the replay of the trace. *)
Theorem issued_receipt_verifies `{!Ed25519Laws} trace raw_records declarations key issuer key_id epoch :
  validates trace raw_records declarations = Ok () →
  validate_request issuer key_id epoch = Ok () →
  ∃ c r, trajectory_replay_candidate_v0 trace = Some c ∧
    issue_trajectory_replay_authority_receipt_v0 trace key issuer key_id epoch = Some (Ok r) ∧
    match receipt_to_json_line r with
    | Ok line =>
        ∃ unverified, receipt_from_json_slice line = Ok unverified ∧
          verify_replay_authority_receipt_v0 unverified
            (mkTrustPolicy issuer REPLAY_AUTHORITY_ALGORITHM_ED25519_V0 key_id epoch (verifying_key key)) = Ok r
    | Err e => e = AInputTooLarge
    end ∧
    verify_trajectory_replay_v0 trace c r =
      Some (Ok (mkVerified TRAJECTORY_REPLAY_VERIFICATION_FORMAT_V0 TRAJECTORY_REPLAY_VERIFICATION_VERSION_V0 c r)).
Proof using Laws HL.
  intros Hv Hr. destruct (issue_Ok _ _ _ key _ _ _ Hv Hr) as (c & r & Hc & Hw & Hi & Hrec).
  exists c, r. split_and!; [done|done| |].
  - destruct (receipt_to_json_line r) as [line|e] eqn:Hl.
    + exists (mkUnverified r (sign key (receipt_message r))). split.
      * apply receipt_line_reads_back with r; [|done]. by eapply try_into_unverified_issued.
      * unfold verify_replay_authority_receipt_v0.
        cbn [ur_receipt ur_signature tp_verification_key tp_issuer tp_algorithm tp_key_id tp_accepted_authority_epoch].
        destruct Hrec as [_ _ -> -> -> -> _ _]. by rewrite sign_verifies, !String.eqb_refl, bool_decide_true.
    + unfold receipt_to_json_line, serialize_json_line in Hl. case_match; [|done]. by injection Hl as <-.
  - unfold verify_trajectory_replay_v0. rewrite Hc. cbn [mbind option_bind].
    rewrite bool_decide_true by done. by rewrite (is_anchor _ _ _ _ _ _ Hrec), bool_decide_true.
Qed.

(** What the authority issued: requests that passed, for validated traces. *)
Record Issuance := mkIssuance {
  iss_trace : TrajectoryTraceV0;
  iss_issuer : string;
  iss_key_id : string;
  iss_epoch : u64;
}.

(** A receipt the key made for an entry of the log. *)
Definition made_for (key : SigningKey) (i : Issuance) (r : SignedReplayAuthorityReceiptV0) : Prop :=
  issue_trajectory_replay_authority_receipt_v0 (iss_trace i) key (iss_issuer i) (iss_key_id i) (iss_epoch i)
    = Some (Ok r).

(** The entries are for validated traces whose canonical bytes fit in memory. *)
Definition honest (i : Issuance) : Prop :=
  fits (canonical_bytes (iss_trace i)) ∧
  ∃ raw_records declarations, validates (iss_trace i) raw_records declarations = Ok ().

(** Only messages of the receipts in the log have signatures that check out. *)
Definition unforgeable (verifying : VerifyingKey) (key : SigningKey) (log : list Issuance) : Prop :=
  ∀ message signature, verify_strict verifying message signature = true →
    ∃ i r, i ∈ log ∧ made_for key i r ∧ message = receipt_message r.

(** What accepting a receipt says of it. *)
Lemma accepted_receipt unverified policy receipt :
  verify_replay_authority_receipt_v0 unverified policy = Ok receipt →
  receipt = ur_receipt unverified ∧ sr_issuer receipt = tp_issuer policy ∧ sr_key_id receipt = tp_key_id policy ∧
  sr_authority_epoch receipt = tp_accepted_authority_epoch policy ∧
  verify_strict (tp_verification_key policy) (receipt_message receipt) (ur_signature unverified) = true.
Proof using Type.
  unfold verify_replay_authority_receipt_v0. intros Hv.
  destruct (String.eqb_spec (sr_issuer (ur_receipt unverified)) (tp_issuer policy)); [|done].
  destruct (String.eqb_spec (sr_algorithm (ur_receipt unverified)) (tp_algorithm policy)); [|done].
  destruct (String.eqb_spec (sr_key_id (ur_receipt unverified)) (tp_key_id policy)); [|done].
  cbn [negb orb] in Hv. case_bool_decide; [|done]. cbn [negb orb] in Hv.
  destruct (verify_strict _ _ _) eqn:Hs; [|done]. by injection Hv as <-.
Qed.

(** A receipt in the log of the authority. *)
Lemma made_for_issued key i r raw_records declarations :
  validates (iss_trace i) raw_records declarations = Ok () → made_for key i r →
  ∃ c, trajectory_replay_candidate_v0 (iss_trace i) = Some c ∧ receipt_fits r ∧
    issued key (iss_issuer i) (iss_key_id i) (iss_epoch i) c r.
Proof using Laws.
  intros Hv Hm. unfold made_for in Hm.
  destruct (validate_request (iss_issuer i) (iss_key_id i) (iss_epoch i)) as [[]|e] eqn:Hr.
  2: { unfold issue_trajectory_replay_authority_receipt_v0 in Hm. by rewrite Hr in Hm. }
  destruct (issue_Ok _ _ _ key _ _ _ Hv Hr) as (c & r' & Hc & Hw & Hi & Hrec).
  rewrite Hm in Hi. injection Hi as <-. exists c. split_and!; [done| |done].
  destruct Hrec as [_ _ Hri Hra Hrk _ Han _]. unfold validate_request in Hr.
  destruct (validate_authority_name (iss_issuer i)) as [[]|] eqn:Hni; cbn [mbind Result_bind] in Hr; [|done].
  destruct (validate_authority_name (iss_key_id i)) as [[]|] eqn:Hnk; cbn [mbind Result_bind] in Hr; [|done].
  split_and!.
  - rewrite Hri. by apply authority_name_fits.
  - by rewrite Hra.
  - rewrite Hrk. by apply authority_name_fits.
  - rewrite Han. by apply candidate_anchor_fits.
Qed.

(** C6: when only the receipts of an honest authority's log can carry a valid
    signature of the pinned key, a replay that verifies with a receipt accepted
    under the trust policy is of a trace the authority issued a receipt for, by
    the issuer, key identity and epoch of the policy; or the replay of the trace
    and the replay of a trace in the log hashed two different inputs with one
    digest. *)
Theorem verified_replay_was_issued log key policy line unverified receipt
    trace raw_records declarations supplied verified :
  Forall honest log → unforgeable (tp_verification_key policy) key log →
  receipt_from_json_slice line = Ok unverified →
  verify_replay_authority_receipt_v0 unverified policy = Ok receipt →
  validates trace raw_records declarations = Ok () → fits (canonical_bytes trace) →
  verify_trajectory_replay_v0 trace supplied receipt = Some (Ok verified) →
  (∃ i, i ∈ log ∧ iss_trace i = trace ∧ iss_issuer i = tp_issuer policy ∧
     iss_key_id i = tp_key_id policy ∧ iss_epoch i = tp_accepted_authority_epoch policy) ∨
  (∃ i c ci, i ∈ log ∧ trajectory_replay_candidate_v0 trace = Some c ∧
     trajectory_replay_candidate_v0 (iss_trace i) = Some ci ∧ tc_final_head c = tc_final_head ci ∧
     collides (replay_inputs trace c) (replay_inputs (iss_trace i) ci)).
Proof using Laws.
  intros Hlog Hunf Hline Hver Hv Hf Hreplay.
  destruct (accepted_receipt _ _ _ Hver) as (-> & Hi & Hk & He & Hsig).
  destruct (Hunf _ _ Hsig) as (i & r & Hin & Hmade & Hmsg).
  destruct (proj1 (Forall_forall _ _) Hlog i Hin) as [Hif (irr & ideclarations & Hiv)].
  destruct (made_for_issued _ _ _ _ _ Hiv Hmade) as (ci & Hci & Hrf & Hrec).
  assert (receipt_fits (ur_receipt unverified)) as Huf.
  { unfold receipt_from_json_slice in Hline. destruct_bind Hline Hp. destruct_bind Hline Hd.
    by eapply try_into_unverified_fits. }
  apply receipt_message_inj in Hmsg as (Hmi & _ & Hmk & Hme & Hma); [|done..].
  unfold verify_trajectory_replay_v0 in Hreplay.
  destruct (trajectory_replay_candidate_v0 trace) as [c|] eqn:Hc; cbn [mbind option_bind] in Hreplay; [|done].
  case_bool_decide as Hsup; [|done]. cbn [negb] in Hreplay. case_bool_decide as Hanchor; [|done].
  rewrite (is_anchor _ _ _ _ _ _ Hrec) in Hma. rewrite Hma in Hanchor.
  assert (tc_final_head c = tc_final_head ci) as Hheads
    by (apply (f_equal an_expected_final_head) in Hanchor; by symmetry).
  destruct (head_commits TRAJECTORY_SCHEMA_BYTES_V0 trace (iss_trace i) raw_records irr declarations ideclarations c ci)
    as [[Heq _]|Hcol]; [done..| | |right; exists i, c, ci; by split_and!].
  { done. }
  left. exists i. destruct Hrec as [_ _ Hri _ Hrk Hre _ _]. split_and!; congruence.
Qed.
End authority.
