(* ===== verification/Core.v ===== *)
(** * Core data of the rule pipeline (src/lib.rs)

    Claims, estates, allocations and their validation; verdicts and
    counterexamples; the compiled rule.  Newtypes over [f64]
    ([PositiveStrength], [EstateTotal]) are the [f64] itself with the smart
    constructor as a function; [Allocation] is the map it wraps. *)

From S2P Require Import Prelude F64 Errors.
From stdpp Require Import options.

(** [EPSILON: f64 = 1e-9] *)
Definition EPSILON : f64 := Eval vm_compute in f64_lit 1 1000000000.

(** The test the constructors of strengths and totals share. *)
Definition not_positive_finite (value : f64) : bool :=
  negb (f64_is_finite value) || f64_leb value f64_zero.

Record Claimant := mkClaimant {
  claimant_ident : string;
  claimant_priority_class : string;
  claimant_attributes : gmap string f64;
}.

Definition PositiveStrength_new (value : f64) : LResult f64 :=
  if not_positive_finite value then Err (InvalidPositiveStrength value) else Ok value.

Definition EstateTotal_new (value : f64) : LResult f64 :=
  if not_positive_finite value then Err (InvalidEstateTotal value) else Ok value.

Definition EstateTotal_scale (total scale : f64) : LResult f64 :=
  EstateTotal_new (f64_mul total scale).

Record Estate := mkEstate { estate_total : f64; estate_unit : string }.

Definition Estate_new (total : f64) (unit : string) : LResult Estate :=
  t ← EstateTotal_new total; Ok (mkEstate t unit).

Record Claim := mkClaim {
  claim_id : string;
  claim_strength : f64;
  claim_metrics : gmap string f64;
}.

Definition validate_claimant_id (id : string) : LResult unit :=
  if is_blank id then Err (InvalidClaimantId id) else Ok ().

Definition validate_claim_strength (id : string) (strength : f64) : LResult unit :=
  if not_positive_finite strength then Err (InvalidClaimStrength id strength) else Ok ().

Definition Claim_try_new (id : string) (strength : f64) : LResult Claim :=
  _ ← validate_claimant_id id;
  _ ← validate_claim_strength id strength;
  s ← PositiveStrength_new strength;
  Ok (mkClaim id s ∅).

Definition Claim_new (id : string) (strength : f64) : LResult Claim :=
  Claim_try_new id strength.

Definition Claim_validate (c : Claim) : LResult unit :=
  _ ← validate_claimant_id (claim_id c);
  validate_claim_strength (claim_id c) (claim_strength c).

(** The loop of [Claim::validate_all], with the set of ids seen so far. *)
Fixpoint validate_all_from (seen : gset string) (claims : list Claim) : LResult unit :=
  match claims with
  | [] => Ok ()
  | c :: claims =>
      _ ← Claim_validate c;
      if decide (claim_id c ∈ seen) then Err (DuplicateClaimantId (claim_id c))
      else validate_all_from ({[claim_id c]} ∪ seen) claims
  end.

Definition Claim_validate_all (claims : list Claim) : LResult unit :=
  validate_all_from ∅ claims.

Definition validate_claims (claims : list Claim) (context : string) : LResult unit :=
  Claim_validate_all claims.

Definition Claim_with_metric (c : Claim) (name : string) (value : f64) : Claim :=
  mkClaim (claim_id c) (claim_strength c) (<[name := value]> (claim_metrics c)).

Definition Claim_metric (c : Claim) (name : string) : f64 :=
  match claim_metrics c !! name with Some value => value | None => f64_zero end.

(* ------------------------------------------------------------------ *)
(** ** Allocations *)

Abbreviation Allocation := (gmap string f64).

(** One step of the loop over the entries in [Allocation::validate]. *)
Definition validate_entry (expected : gset string) (kv : string * f64) : LResult unit :=
  let '(id, value) := kv in
  if negb (f64_is_finite value) || f64_ltb value f64_zero
  then Err (InvalidAllocationValue id value)
  else if decide (id ∈ expected) then Ok () else Err (AllocationUnknownClaimant id).

Definition Allocation_validate (a : Allocation) (claims : list Claim) : LResult unit :=
  let expected_ids : gset string := list_to_set (claim_id <$> claims) in
  _ ← try_iter (λ id, match a !! id with
                       | Some _ => Ok ()
                       | None => Err (AllocationMissingClaimant id)
                       end) (bset_iter expected_ids);
  try_iter (validate_entry expected_ids) (btree_iter a).

Definition share_for (a : Allocation) (id context : string) : LResult f64 :=
  ok_or (a !! id) (missing_allocation_share id context).

Definition validate_feasible (a : Allocation) (estate : Estate) : LResult unit :=
  let total_allocated := f64_sum (btree_values a) in
  let estate_total := estate_total estate in
  let tolerance :=
    f64_add (f64_add EPSILON (f64_mul EPSILON (f64_abs total_allocated)))
            (f64_mul EPSILON (f64_abs estate_total)) in
  if f64_is_finite total_allocated && f64_leb (f64_sub total_allocated estate_total) tolerance
  then Ok ()
  else Err (AllocationExceedsEstate total_allocated estate_total).

(** [ValidAllocation] is an allocation that went through [Allocation::validate]. *)
Abbreviation ValidAllocation := (gmap string f64).

Definition try_into_valid (a : Allocation) (claims : list Claim) : LResult ValidAllocation :=
  _ ← Allocation_validate a claims; Ok a.

Definition ValidAllocation_new (a : Allocation) (claims : list Claim) : LResult ValidAllocation :=
  try_into_valid a claims.

(* ------------------------------------------------------------------ *)
(** ** Verdicts *)

Record Counterexample := mkCounterexample {
  description : Message;
  original_claims : list Claim;
  original_estate : Estate;
  original_allocation : ValidAllocation;
  perturbed_claims : list Claim;
  perturbed_estate : Estate;
  perturbed_allocation : ValidAllocation;
  violation : Message;
}.

Inductive Verdict : Type :=
  | Admissible (axiom : string) (perturbations_tested : nat)
  | Rejected (axiom : string) (counterexample : Counterexample).

Definition verdict_admissible (v : Verdict) : bool :=
  match v with Admissible _ _ => true | Rejected _ _ => false end.

(* ------------------------------------------------------------------ *)
(** ** Lemmas *)

Lemma not_positive_finite_false v :
  not_positive_finite v = false ↔ f64_is_finite v = true ∧ f64_ltb f64_zero v = true.
Proof. unfold not_positive_finite. destruct v as [[]|[]| |[] ? ?]; simpl; intuition done. Qed.

Lemma validate_all_from_Ok seen claims :
  validate_all_from seen claims = Ok () ↔
  Forall (λ c, Claim_validate c = Ok ()) claims ∧
  NoDup (claim_id <$> claims) ∧ (∀ c, c ∈ claims → claim_id c ∉ seen).
Proof.
  revert seen. induction claims as [|c claims IH]; intros seen; cbn [validate_all_from fmap list_fmap].
  { split; [|done]. intros _. split_and!; [constructor|constructor|set_solver]. }
  rewrite Forall_cons, NoDup_cons. split.
  - intros H. invert_binds. destruct a. case_decide as Hin; [discriminate|].
    apply IH in H as (Hv & Hnd & Hs).
    assert (claim_id c ∉ claim_id <$> claims) as Hc.
    { intros (c' & Heq & Hc')%list_elem_of_fmap. apply (Hs c' Hc'). set_solver. }
    split_and!; [done|done|done|done|].
    intros c' [->|Hc']%elem_of_cons; [done|]. specialize (Hs c' Hc'). set_solver.
  - intros ((Hc & Hv) & (Hnc & Hnd) & Hs). rewrite Hc; cbn [mbind Result_bind].
    case_decide as Hin; [exfalso; apply (Hs c); set_solver|].
    apply IH. split_and!; [done|done|]. intros c' Hc' [Heq%elem_of_singleton|Hin']%elem_of_union.
    + apply Hnc, list_elem_of_fmap. by exists c'.
    + apply (Hs c'); set_solver.
Qed.

Lemma Allocation_validate_Ok a claims :
  Allocation_validate a claims = Ok () ↔
  dom a = list_to_set (claim_id <$> claims) ∧
  (∀ id v, a !! id = Some v → f64_is_finite v = true ∧ f64_ltb v f64_zero = false).
Proof.
  unfold Allocation_validate. set (ids := list_to_set (claim_id <$> claims) : gset string).
  assert (try_iter (λ id, match a !! id with
                           | Some _ => Ok () | None => Err (AllocationMissingClaimant id) end)
            (bset_iter ids) = Ok () ↔ ids ⊆ dom a) as H1.
  { rewrite try_iter_Ok, Forall_forall. split.
    - intros H id Hid. specialize (H id (proj2 (elem_of_bset_iter _ _) Hid)).
      apply elem_of_dom. destruct (a !! id); done.
    - intros H id Hid%elem_of_bset_iter. apply H, elem_of_dom in Hid as [v Hv]. by rewrite Hv. }
  assert (try_iter (validate_entry ids) (btree_iter a) = Ok () ↔
          dom a ⊆ ids ∧ ∀ id v, a !! id = Some v →
            f64_is_finite v = true ∧ f64_ltb v f64_zero = false) as H2.
  { rewrite try_iter_Ok, Forall_forall.
    assert (∀ id v, validate_entry ids (id, v) = Ok () ↔
      (f64_is_finite v = true ∧ f64_ltb v f64_zero = false) ∧ id ∈ ids) as He.
    { intros id v. unfold validate_entry. destruct (f64_is_finite v), (f64_ltb v f64_zero); simpl;
        try (split; [done|intros [[]]; done]). case_decide; split; try done; by intros []. }
    split.
    - intros H. split.
      + intros id [v Hv]%elem_of_dom. by apply (He id v), H, elem_of_btree_iter.
      + intros id v Hv. by apply (He id v), H, elem_of_btree_iter.
    - intros [Hd Hv] [id v] Hin%elem_of_btree_iter. apply He. split; [by eapply Hv|].
      apply Hd, elem_of_dom. by eexists. }
  destruct (try_iter _ (bset_iter ids)) as [[]|e]; cbn [mbind Result_bind].
  - rewrite H2. split; [intros [??]; split; [set_solver|done]|intros [-> ?]; done].
  - split; [done|]. intros [Heq _]. exfalso. enough (Err e = Ok ()) by done.
    apply H1. by rewrite Heq.
Qed.

Lemma ValidAllocation_new_Ok a claims a' :
  ValidAllocation_new a claims = Ok a' → a' = a ∧ dom a = list_to_set (claim_id <$> claims).
Proof.
  unfold ValidAllocation_new, try_into_valid. intros H. invert_binds. destruct a0.
  by apply Allocation_validate_Ok in Hr as [? _].
Qed.
