(* ===== verification/GraphNode.v ===== *)
(** * Governance graphs and node evaluation
      (src/graph/node.rs, src/graph/edge.rs, src/graph/builder.rs)

    The data of a governance graph, its validation, the builder, and the
    evaluation of one node on a batch of claims.  [NodeId] is the string the
    newtype wraps.  The regex crate is the parameter [RegexEngine]; the process
    wide compiled-regex cache is [cached_content_regex], shown transparent. *)

From S2P Require Import Prelude F64 Errors Core.
From stdpp Require Import options.

(** The regex crate: [Regex::new] and [Regex::is_match]. *)
Class RegexEngine := {
  Regex : Type;
  Regex_new : string → option Regex;
  is_match : Regex → string → bool;
}.

(* ------------------------------------------------------------------ *)
(** ** Data *)

Abbreviation NodeId := string.

Definition NodeId_new (value : string) : LResult NodeId :=
  if is_blank value then Err (InvalidNodeId value) else Ok value.

Inductive Decision : Type := Permit | Deny | Escalate.

Global Instance Decision_eq_dec : EqDecision Decision.
Proof. solve_decision. Defined.

Definition is_permit (d : Decision) : bool := match d with Permit => true | _ => false end.
Definition is_deny (d : Decision) : bool := match d with Deny => true | _ => false end.
Definition is_escalate (d : Decision) : bool := match d with Escalate => true | _ => false end.

(** [{:?}] of a decision. *)
Definition decision_debug (d : Decision) : string :=
  match d with Permit => "Permit" | Deny => "Deny" | Escalate => "Escalate" end.

Inductive Gate : Type :=
  | PrefixMatch (pattern : string) (decision : Decision)
  | ExactMatch (value : string) (decision : Decision)
  | ContentMatch (regex : string) (decision : Decision)
  | ThresholdGate (field : string) (min : f64) (decision : Decision)
  | PeerRelative (field : string) (percentile : f64) (decision : Decision).

Inductive GateLogic : Type := AllMustPass | AnyMustPass | FirstMatch.

Global Instance Gate_eq_dec : EqDecision Gate.
Proof. solve_decision. Defined.
Global Instance GateLogic_eq_dec : EqDecision GateLogic.
Proof. solve_decision. Defined.

Record GovernanceClaim := mkGovernanceClaim {
  gc_claimant_id : string;
  gc_strength : f64;
  gc_priority_class : option string;
  gc_path : option string;
  gc_action : option string;
  gc_content : option string;
  gc_metrics : gmap string f64;
}.

(** [default_governance_strength] *)
Definition default_governance_strength : f64 := f64_one.

Record ClaimDecision := mkClaimDecision {
  cd_claimant_id : string;
  cd_decision : Decision;
}.

Inductive DeclarativeRuleKind : Type :=
  | ProportionalKind
  | Custom (name : string).

Inductive GovernanceNode : Type :=
  | Binary (id : NodeId) (name : string) (gates : list Gate) (default : Decision)
      (combination : GateLogic)
  | Proportional (id : NodeId) (name : string) (rule : DeclarativeRuleKind)
      (priority_classes : list string)
  | Threshold (id : NodeId) (name : string) (threshold : f64) (field : string).

Inductive EdgeTransform : Type :=
  | PassThrough
  | ClaimModification (delta : f64).

Record GovernanceEdge := mkEdge {
  from : NodeId;
  to : NodeId;
  transform : EdgeTransform;
}.

Record GovernanceGraph := mkGraph {
  nodes : gmap NodeId GovernanceNode;
  edges : list GovernanceEdge;
}.

Global Instance DeclarativeRuleKind_eq_dec : EqDecision DeclarativeRuleKind.
Proof. solve_decision. Defined.
Global Instance EdgeTransform_eq_dec : EqDecision EdgeTransform.
Proof. solve_decision. Defined.
Global Instance GovernanceEdge_eq_dec : EqDecision GovernanceEdge.
Proof. solve_decision. Defined.

(** [GovernanceEdge::new] *)
Definition GovernanceEdge_new (from to : NodeId) (transform : EdgeTransform)
    : LResult GovernanceEdge :=
  match transform with
  | ClaimModification delta =>
      if negb (f64_is_finite delta)
      then Err (invalid_input [Txt "claim-modification delta must be finite, got "; Num delta])
      else Ok (mkEdge from to transform)
  | PassThrough => Ok (mkEdge from to transform)
  end.

(* ------------------------------------------------------------------ *)
(** ** Derived equality of claims: [PartialEq] with float comparison *)

Definition metrics_eqb (a b : gmap string f64) : bool :=
  bool_decide (size a = size b) &&
  forallb (λ kv, match b !! kv.1 with Some w => f64_eqb kv.2 w | None => false end)
          (btree_iter a).

Definition claim_eqb (a b : GovernanceClaim) : bool :=
  bool_decide (gc_claimant_id a = gc_claimant_id b)
  && f64_eqb (gc_strength a) (gc_strength b)
  && bool_decide (gc_priority_class a = gc_priority_class b)
  && bool_decide (gc_path a = gc_path b)
  && bool_decide (gc_action a = gc_action b)
  && bool_decide (gc_content a = gc_content b)
  && metrics_eqb (gc_metrics a) (gc_metrics b).

(* ------------------------------------------------------------------ *)
(** ** Validation *)

Definition validate_governance_claim (claim : GovernanceClaim) : LResult unit :=
  if is_blank (gc_claimant_id claim) then Err (InvalidClaimantId (gc_claimant_id claim))
  else if negb (f64_is_finite (gc_strength claim)) || f64_leb (gc_strength claim) f64_zero
  then Err (InvalidGovernanceStrength (gc_claimant_id claim) (gc_strength claim))
  else if match gc_priority_class claim with Some class => is_blank class | None => false end
  then Err (InvalidInput [Txt "claim '"; Txt (gc_claimant_id claim);
                          Txt "' priority_class must be non-empty when provided"])
  else try_iter (λ '(field, value),
         if f64_is_finite value then Ok ()
         else Err (InvalidGate field [Txt "claim '"; Txt (gc_claimant_id claim);
                                      Txt "' has non-finite metric value "; Num value]))
       (btree_iter (gc_metrics claim)).

(** The loop of [validate_governance_claims], with the ids seen so far. *)
Fixpoint validate_governance_claims_from (seen : gset string) (claims : list GovernanceClaim)
    : LResult unit :=
  match claims with
  | [] => Ok ()
  | claim :: claims =>
      _ ← validate_governance_claim claim;
      if decide (gc_claimant_id claim ∈ seen)
      then Err (DuplicateClaimantId (gc_claimant_id claim))
      else validate_governance_claims_from ({[gc_claimant_id claim]} ∪ seen) claims
  end.

Definition validate_governance_claims (claims : list GovernanceClaim) : LResult unit :=
  validate_governance_claims_from ∅ claims.

Definition node_id_for_node (node : GovernanceNode) : NodeId :=
  match node with
  | Binary id _ _ _ _ | Proportional id _ _ _ | Threshold id _ _ _ => id
  end.
Definition node_id (node : GovernanceNode) : NodeId := node_id_for_node node.

Definition node_kind (node : GovernanceNode) : string :=
  match node with
  | Binary _ _ _ _ _ => "Binary"
  | Proportional _ _ _ _ => "Proportional"
  | Threshold _ _ _ _ => "Threshold"
  end.

Definition validate_gate_string (gate value : string) : LResult unit :=
  if is_blank value then Err (InvalidGate gate [Txt "value must be non-empty"]) else Ok ().

Section with_regex.
Context `{RegexEngine}.

(** The regex a pattern compiles to, or the error the source reports. *)
Definition content_regex (pattern : string) : LResult Regex :=
  ok_or (Regex_new pattern) (InvalidRegex pattern).

(** [cached_content_regex] with the cache it reads and extends. *)
Definition cached_content_regex (cache : gmap string Regex) (pattern : string)
    : LResult Regex * gmap string Regex :=
  match cache !! pattern with
  | Some compiled => (Ok compiled, cache)
  | None =>
      match Regex_new pattern with
      | Some compiled => (Ok compiled, <[pattern := compiled]> cache)
      | None => (Err (InvalidRegex pattern), cache)
      end
  end.

Definition validate_gate (gate : Gate) : LResult unit :=
  match gate with
  | PrefixMatch pattern _ => validate_gate_string "PrefixMatch" pattern
  | ExactMatch value _ => validate_gate_string "ExactMatch" value
  | ContentMatch regex _ =>
      _ ← validate_gate_string "ContentMatch" regex;
      _ ← content_regex regex;
      Ok ()
  | ThresholdGate field min _ =>
      _ ← validate_gate_string "ThresholdGate" field;
      if negb (f64_is_finite min)
      then Err (InvalidGate "ThresholdGate" [Txt "min must be finite"])
      else Ok ()
  | PeerRelative field percentile _ =>
      _ ← validate_gate_string "PeerRelative" field;
      if negb (f64_is_finite percentile)
         || negb (f64_leb f64_zero percentile && f64_leb percentile f64_one)
      then Err (InvalidGate "PeerRelative"
                  [Txt "percentile must be within [0, 1], got "; Num percentile])
      else Ok ()
  end.

Definition validate_governance_node (node : GovernanceNode) : LResult unit :=
  match node with
  | Binary _ _ gates _ _ => try_iter validate_gate gates
  | Proportional _ _ _ priority_classes =>
      if existsb is_blank priority_classes
      then Err (InvalidInput [Txt "priority classes must be non-empty"])
      else Ok ()
  | Threshold _ _ threshold field =>
      if negb (f64_is_finite threshold)
      then Err (InvalidInput [Txt "threshold values must be finite"])
      else if is_blank field
      then Err (InvalidInput [Txt "threshold field must be non-empty"])
      else Ok ()
  end.

(** One edge of [validate_governance_graph]. *)
Definition validate_graph_edge (graph : GovernanceGraph) (edge : GovernanceEdge) : LResult unit :=
  _ ← ok_or (nodes graph !! from edge) (InvalidEdgeReference (from edge));
  _ ← ok_or (nodes graph !! to edge) (InvalidEdgeReference (to edge));
  match transform edge with
  | ClaimModification delta =>
      if negb (f64_is_finite delta)
      then Err (invalid_input [Txt "claim-modification delta must be finite, got "; Num delta])
      else Ok ()
  | PassThrough => Ok ()
  end.

Definition validate_governance_graph (graph : GovernanceGraph) : LResult unit :=
  _ ← try_iter (λ '(id, node),
        if decide (id = node_id_for_node node) then validate_governance_node node
        else Err (invalid_input
               [Txt "graph node map key '"; Txt id;
                Txt "' does not match embedded node id '"; Txt (node_id_for_node node); Txt "'"]))
      (btree_iter (nodes graph));
  try_iter (validate_graph_edge graph) (edges graph).

(* ------------------------------------------------------------------ *)
(** ** The builder *)

Record GraphBuilder := mkBuilder {
  b_nodes : gmap NodeId GovernanceNode;
  b_edges : list GovernanceEdge;
}.

Definition GraphBuilder_new : LResult GraphBuilder := Ok (mkBuilder ∅ []).

Definition add_node (self : GraphBuilder) (node : GovernanceNode) : LResult GraphBuilder :=
  _ ← validate_governance_node node;
  let id := node_id node in
  match b_nodes self !! id with
  | Some _ => Err (DuplicateNodeId id)
  | None => Ok (mkBuilder (<[id := node]> (b_nodes self)) (b_edges self))
  end.

Definition add_edge (self : GraphBuilder) (from to : NodeId) (transform : EdgeTransform)
    : LResult GraphBuilder :=
  e ← GovernanceEdge_new from to transform;
  Ok (mkBuilder (b_nodes self) (b_edges self ++ [e])).

Definition build (self : GraphBuilder) : LResult GovernanceGraph :=
  _ ← try_iter (λ edge,
        _ ← ok_or (b_nodes self !! from edge) (InvalidEdgeReference (from edge));
        _ ← ok_or (b_nodes self !! to edge) (InvalidEdgeReference (to edge));
        Ok ()) (b_edges self);
  Ok (mkGraph (b_nodes self) (b_edges self)).

(* ------------------------------------------------------------------ *)
(** ** Evaluation of a node *)

Definition numeric_field (claim : GovernanceClaim) (field : string) : LResult f64 :=
  if decide (field = "strength") then Ok (gc_strength claim)
  else ok_or (gc_metrics claim !! field)
         (InvalidGate field [Txt "claim '"; Txt (gc_claimant_id claim);
                             Txt "' does not provide metric '"; Txt field; Txt "'"]).

Definition peer_relative_rank_at_least_percentile (rank total : nat) (percentile : f64) : bool :=
  f64_leb percentile (f64_div (f64_of_nat rank) (f64_of_nat total)).

Definition evaluate_peer_relative (current : GovernanceClaim) (claims : list GovernanceClaim)
    (field : string) (percentile : f64) : LResult bool :=
  current_value ← numeric_field current field;
  values ← try_map (λ claim, numeric_field claim field) claims;
  let values := f64_sort values in
  let less_or_equal := length (filter (λ value, f64_leb value current_value = true) values) in
  Ok (peer_relative_rank_at_least_percentile less_or_equal (length values) percentile).

Definition gate_matches (gate : Gate) (claim : GovernanceClaim) (claims : list GovernanceClaim)
    : LResult bool :=
  match gate with
  | PrefixMatch pattern _ =>
      Ok match gc_path claim with Some path => starts_with path pattern | None => false end
  | ExactMatch value _ => Ok (bool_decide (gc_action claim = Some value))
  | ContentMatch regex _ =>
      compiled ← content_regex regex;
      Ok match gc_content claim with Some content => is_match compiled content | None => false end
  | ThresholdGate field min _ =>
      v ← numeric_field claim field; Ok (f64_leb min v)
  | PeerRelative field percentile _ => evaluate_peer_relative claim claims field percentile
  end.

Definition gate_decision (gate : Gate) : Decision :=
  match gate with
  | PrefixMatch _ d | ExactMatch _ d | ContentMatch _ d | ThresholdGate _ _ d
  | PeerRelative _ _ d => d
  end.

Fixpoint evaluate_first_match (gates : list Gate) (claim : GovernanceClaim)
    (claims : list GovernanceClaim) (default : Decision) : LResult Decision :=
  match gates with
  | [] => Ok default
  | gate :: gates =>
      m ← gate_matches gate claim claims;
      if m : bool then Ok (gate_decision gate)
      else evaluate_first_match gates claim claims default
  end.

(** The decisions of the matching gates, in gate order. *)
Fixpoint matched_decisions (gates : list Gate) (claim : GovernanceClaim)
    (claims : list GovernanceClaim) : LResult (list Decision) :=
  match gates with
  | [] => Ok []
  | gate :: gates =>
      m ← gate_matches gate claim claims;
      rest ← matched_decisions gates claim claims;
      Ok (if m : bool then gate_decision gate :: rest else rest)
  end.

Definition evaluate_any_must_pass (gates : list Gate) (claim : GovernanceClaim)
    (claims : list GovernanceClaim) (default : Decision) : LResult Decision :=
  matched ← matched_decisions gates claim claims;
  Ok (if existsb is_permit matched then Permit
      else if existsb is_escalate matched then Escalate
      else if existsb is_deny matched then Deny
      else default).

(** The loop of [evaluate_all_must_pass] over the remaining gates, with the
    number of matches and the escalation flag; [total] is [gates.len()]. *)
Fixpoint all_must_pass_loop (total matched_count : nat) (saw_escalate : bool)
    (gates : list Gate) (claim : GovernanceClaim) (claims : list GovernanceClaim)
    (default : Decision) : LResult Decision :=
  match gates with
  | [] =>
      Ok (if bool_decide (matched_count = total) && negb (bool_decide (total = 0))
          then if saw_escalate then Escalate else Permit
          else if saw_escalate then Escalate else default)
  | gate :: gates =>
      m ← gate_matches gate claim claims;
      if m : bool then
        match gate_decision gate with
        | Deny => Ok Deny
        | Escalate => all_must_pass_loop total (S matched_count) true gates claim claims default
        | Permit =>
            all_must_pass_loop total (S matched_count) saw_escalate gates claim claims default
        end
      else all_must_pass_loop total matched_count saw_escalate gates claim claims default
  end.

Definition evaluate_all_must_pass (gates : list Gate) (claim : GovernanceClaim)
    (claims : list GovernanceClaim) (default : Decision) : LResult Decision :=
  all_must_pass_loop (length gates) 0 false gates claim claims default.

(** The decision of one claim at a binary node. *)
Definition binary_decision (gates : list Gate) (default : Decision) (combination : GateLogic)
    (claims : list GovernanceClaim) (claim : GovernanceClaim) : LResult Decision :=
  match combination with
  | FirstMatch => evaluate_first_match gates claim claims default
  | AnyMustPass => evaluate_any_must_pass gates claim claims default
  | AllMustPass => evaluate_all_must_pass gates claim claims default
  end.

Definition evaluate_binary_node (gates : list Gate) (default : Decision)
    (combination : GateLogic) (claims : list GovernanceClaim) : LResult (list ClaimDecision) :=
  try_map (λ claim,
    decision ← binary_decision gates default combination claims claim;
    Ok (mkClaimDecision (gc_claimant_id claim) decision)) claims.

Definition threshold_decision (threshold : f64) (field : string) (claim : GovernanceClaim)
    : LResult Decision :=
  v ← numeric_field claim field; Ok (if f64_leb threshold v then Permit else Deny).

Definition evaluate_threshold_node (threshold : f64) (field : string)
    (claims : list GovernanceClaim) : LResult (list ClaimDecision) :=
  try_map (λ claim,
    decision ← threshold_decision threshold field claim;
    Ok (mkClaimDecision (gc_claimant_id claim) decision)) claims.

Definition evaluate_node_validated (node : GovernanceNode) (claims : list GovernanceClaim)
    : LResult (list ClaimDecision) :=
  match node with
  | Proportional _ _ _ _ => Err (UnsupportedNodeType (node_id node) (node_kind node))
  | Binary _ _ gates default combination =>
      evaluate_binary_node gates default combination claims
  | Threshold _ _ threshold field => evaluate_threshold_node threshold field claims
  end.

Definition evaluate_node (node : GovernanceNode) (claims : list GovernanceClaim)
    : LResult (list ClaimDecision) :=
  _ ← validate_governance_claims claims;
  evaluate_node_validated node claims.

End with_regex.

(* ------------------------------------------------------------------ *)
(** ** Merging batches, ranks *)

(** One claim of [merge_claim_batches]. *)
Definition merge_claim (node_id : NodeId) (merged : gmap string GovernanceClaim)
    (claim : GovernanceClaim) : LResult (gmap string GovernanceClaim) :=
  match merged !! gc_claimant_id claim with
  | Some existing =>
      if claim_eqb existing claim then Ok merged
      else Err (ConflictingClaimFeed node_id (gc_claimant_id claim))
  | None => Ok (<[gc_claimant_id claim := claim]> merged)
  end.

Definition merge_claim_batches (node_id : NodeId) (incoming additional : list GovernanceClaim)
    : LResult (list GovernanceClaim) :=
  merged ← try_fold (merge_claim node_id) ∅ (incoming ++ additional);
  Ok (btree_values merged).

Definition decision_rank (d : Decision) : nat :=
  match d with Deny => 0 | Escalate => 1 | Permit => 2 end.

(* ------------------------------------------------------------------ *)
(** ** Well-formedness *)

(** What [validate_governance_claim] establishes. *)
Record claim_ok (c : GovernanceClaim) : Prop := {
  claim_ok_id : is_blank (gc_claimant_id c) = false;
  claim_ok_strength : f64_is_finite (gc_strength c) = true ∧ f64_ltb f64_zero (gc_strength c) = true;
  claim_ok_metrics : ∀ f v, gc_metrics c !! f = Some v → f64_is_finite v = true;
}.

Lemma validate_governance_claim_ok c : validate_governance_claim c = Ok () → claim_ok c.
Proof.
  unfold validate_governance_claim. intros H.
  destruct (is_blank _) eqn:Hb; [discriminate|].
  change (negb (f64_is_finite (gc_strength c)) || f64_leb (gc_strength c) f64_zero)
    with (not_positive_finite (gc_strength c)) in H.
  destruct (not_positive_finite _) eqn:Hp; [discriminate|].
  apply not_positive_finite_false in Hp.
  destruct (match gc_priority_class c with Some class => is_blank class | None => false end);
    [discriminate|].
  split; [done|done|]. intros f v Hfv. rewrite try_iter_Ok, Forall_forall in H.
  specialize (H (f, v) (proj2 (elem_of_btree_iter _ _ _) Hfv)). simpl in H.
  by destruct (f64_is_finite v).
Qed.

Lemma validate_governance_claims_from_ok seen claims :
  validate_governance_claims_from seen claims = Ok () ↔
  Forall (λ c, validate_governance_claim c = Ok ()) claims ∧
  NoDup (gc_claimant_id <$> claims) ∧ (∀ c, c ∈ claims → gc_claimant_id c ∉ seen).
Proof.
  revert seen.
  induction claims as [|c claims IH]; intros seen;
    cbn [validate_governance_claims_from fmap list_fmap].
  { split; [|done]. intros _. split_and!; [constructor|constructor|set_solver]. }
  rewrite Forall_cons, NoDup_cons. split.
  - intros H. invert_binds. destruct a. case_decide as Hin; [discriminate|].
    apply IH in H as (Hv & Hnd & Hs).
    assert (gc_claimant_id c ∉ gc_claimant_id <$> claims) as Hc.
    { intros (c' & Heq & Hc')%list_elem_of_fmap. apply (Hs c' Hc'). set_solver. }
    split_and!; [done|done|done|done|].
    intros c' [->|Hc']%elem_of_cons; [done|]. specialize (Hs c' Hc'). set_solver.
  - intros ((Hc & Hv) & (Hnc & Hnd) & Hs). rewrite Hc; cbn [mbind Result_bind].
    case_decide as Hin; [exfalso; apply (Hs c); set_solver|].
    apply IH. split_and!; [done|done|].
    intros c' Hc' [Heq%elem_of_singleton|Hin']%elem_of_union.
    + apply Hnc, list_elem_of_fmap. by exists c'.
    + apply (Hs c'); set_solver.
Qed.

Lemma validate_governance_claims_Ok claims :
  validate_governance_claims claims = Ok () ↔
  Forall (λ c, validate_governance_claim c = Ok ()) claims ∧ NoDup (gc_claimant_id <$> claims).
Proof.
  unfold validate_governance_claims. rewrite validate_governance_claims_from_ok.
  split; [intros (?&?&_); done|]. intros [??]. split_and!; [done|done|set_solver].
Qed.

Lemma valid_claims_ok claims c :
  validate_governance_claims claims = Ok () → c ∈ claims → claim_ok c.
Proof.
  intros [H _]%validate_governance_claims_Ok Hc. rewrite Forall_forall in H.
  by apply validate_governance_claim_ok, H.
Qed.

Lemma valid_claims_inj claims c c' :
  NoDup (gc_claimant_id <$> claims) → c ∈ claims → c' ∈ claims →
  gc_claimant_id c = gc_claimant_id c' → c = c'.
Proof.
  intros Hnd [i Hi]%list_elem_of_lookup [j Hj]%list_elem_of_lookup Heq.
  assert (i = j) as ->; [|congruence].
  eapply (NoDup_lookup _ _ _ (gc_claimant_id c) Hnd); rewrite list_lookup_fmap;
    [by rewrite Hi | by rewrite Hj, Heq].
Qed.

(** Valid claims are equal to themselves under the derived [PartialEq]. *)
Lemma metrics_eqb_refl m :
  (∀ f v, m !! f = Some v → f64_is_finite v = true) → metrics_eqb m m = true.
Proof.
  intros Hm. unfold metrics_eqb. rewrite bool_decide_true by done. simpl.
  apply forallb_forall. intros [k v] Hkv%list_elem_of_In%elem_of_btree_iter. simpl.
  rewrite Hkv. apply f64_eqb_refl, f64_finite_not_nan. by eapply Hm.
Qed.

Lemma claim_eqb_refl c : claim_ok c → claim_eqb c c = true.
Proof.
  intros [_ [Hs _] Hm]. unfold claim_eqb. rewrite !bool_decide_true by done.
  rewrite f64_eqb_refl by by apply f64_finite_not_nan. by rewrite metrics_eqb_refl.
Qed.

Section node_facts.
Context `{RegexEngine}.

(** A lookup in the cache is a lookup of what the pattern compiles to. *)
Definition cache_sound (cache : gmap string Regex) : Prop :=
  ∀ p r, cache !! p = Some r → Regex_new p = Some r.

Lemma cached_content_regex_sound cache p :
  cache_sound cache →
  (cached_content_regex cache p).1 = content_regex p ∧
  cache_sound (cached_content_regex cache p).2.
Proof.
  intros Hc. unfold cached_content_regex, content_regex.
  destruct (cache !! p) as [r|] eqn:Hp.
  - simpl. split; [|done]. by rewrite (Hc _ _ Hp).
  - destruct (Regex_new p) as [r|] eqn:Hr; simpl; [|done]. split; [done|].
    intros q r'. rewrite lookup_insert. case_decide; [by intros [= <-]; subst|apply Hc].
Qed.

(** *** Shape of the output *)

Lemma evaluate_node_validated_ids node claims ds :
  evaluate_node_validated node claims = Ok ds →
  cd_claimant_id <$> ds = gc_claimant_id <$> claims.
Proof.
  assert (∀ (f : GovernanceClaim → LResult Decision) l ds,
    try_map (λ c, d ← f c; Ok (mkClaimDecision (gc_claimant_id c) d)) l = Ok ds →
    cd_claimant_id <$> ds = gc_claimant_id <$> l) as Hgen.
  { intros f l ds' Hm%try_map_Ok_Forall2. induction Hm as [|c d l' ds'' Hc _ IH]; [done|].
    invert_binds. csimpl. by f_equal. }
  destruct node; simpl; intros Hev; [|discriminate|]; by eapply Hgen in Hev.
Qed.

Lemma evaluate_node_validated_length node claims ds :
  evaluate_node_validated node claims = Ok ds → length ds = length claims.
Proof.
  intros Hids%evaluate_node_validated_ids.
  apply (f_equal length) in Hids. by rewrite !length_fmap in Hids.
Qed.

(** *** The three gate combinations *)

(** Which gates match, when no gate reports an error. *)
Definition gate_hits (gates : list Gate) (c : GovernanceClaim) (cs : list GovernanceClaim)
    : LResult (list bool) :=
  try_map (λ g, gate_matches g c cs) gates.

(** The decisions of the gates whose flag is set. *)
Definition hit_decisions (gates : list Gate) (hits : list bool) : list Decision :=
  (gate_decision ∘ fst) <$> filter (λ gh, gh.2 = true) (zip gates hits).

Lemma matched_decisions_hits gates c cs :
  matched_decisions gates c cs = (hits ← gate_hits gates c cs; Ok (hit_decisions gates hits)).
Proof.
  induction gates as [|g gates IH]; [done|].
  unfold gate_hits in *. cbn [matched_decisions try_map]. rewrite IH.
  destruct (gate_matches g c cs) as [b|e]; [|done]. cbn [mbind Result_bind].
  destruct (try_map _ gates) as [hits|e]; [|done]. cbn [mbind Result_bind].
  unfold hit_decisions. cbn [zip_with]. rewrite filter_cons.
  by destruct b; [rewrite decide_True by done|rewrite decide_False by done].
Qed.

Lemma evaluate_first_match_Ok gates c cs default r :
  evaluate_first_match gates c cs default = Ok r ↔
  (∃ pre g post, gates = pre ++ g :: post ∧ Forall (λ g', gate_matches g' c cs = Ok false) pre ∧
                 gate_matches g c cs = Ok true ∧ r = gate_decision g) ∨
  (Forall (λ g', gate_matches g' c cs = Ok false) gates ∧ r = default).
Proof.
  induction gates as [|g gates IH]; cbn [evaluate_first_match].
  { split; [intros; invert_binds; by right|].
    intros [(pre & g & post & Heq & _)|[_ ->]]; [by destruct pre|done]. }
  destruct (gate_matches g c cs) as [[]|e] eqn:Hg; cbn [mbind Result_bind].
  - split.
    + intros; invert_binds. left. exists [], g, gates. done.
    + intros [(pre & g' & post & Heq & Hpre & Hg' & ->)|[Hall ->]].
      * destruct pre as [|g'' pre]; simplify_eq/=; [done|].
        apply Forall_cons in Hpre as [? _]. congruence.
      * apply Forall_cons in Hall as [? _]. congruence.
  - rewrite IH. split.
    + intros [(pre & g' & post & -> & Hpre & Hg' & ->)|[Hall ->]].
      * left. exists (g :: pre), g', post. by rewrite Forall_cons.
      * right. by rewrite Forall_cons.
    + intros [(pre & g' & post & Heq & Hpre & Hg' & ->)|[Hall ->]].
      * destruct pre as [|g'' pre]; simplify_eq/=; [congruence|].
        apply Forall_cons in Hpre as [_ Hpre]. left. eauto 10.
      * apply Forall_cons in Hall as [_ Hall]. by right.
  - split; [done|].
    intros [(pre & g' & post & Heq & Hpre & Hg' & ->)|[Hall ->]].
    + destruct pre as [|g'' pre]; simplify_eq/=; [congruence|].
      apply Forall_cons in Hpre as [? _]. congruence.
    + apply Forall_cons in Hall as [? _]. congruence.
Qed.

Lemma evaluate_any_must_pass_rank gates c cs default r :
  evaluate_any_must_pass gates c cs default = Ok r →
  ∃ ms, matched_decisions gates c cs = Ok ms ∧
    (ms = [] → r = default) ∧
    (ms ≠ [] → r ∈ ms ∧ ∀ d, d ∈ ms → decision_rank d ≤ decision_rank r).
Proof.
  unfold evaluate_any_must_pass. intros Hev. invert_binds.
  rename a into ms. exists ms. split; [done|].
  assert (∀ P : Decision → bool, existsb P ms = true ↔ ∃ d, d ∈ ms ∧ P d = true) as Hex.
  { intros P. rewrite existsb_exists. by setoid_rewrite list_elem_of_In. }
  assert (∀ P : Decision → bool, existsb P ms = false → ∀ d, d ∈ ms → P d = false) as Hnex.
  { intros P HP d Hd. destruct (P d) eqn:E; [|done]. rewrite <-HP. symmetry. apply Hex. eauto. }
  destruct (existsb is_permit ms) eqn:Ep.
  { apply Hex in Ep as ([] & Hd & ?); try done. split; [intros ->; by apply not_elem_of_nil in Hd|].
    intros _. split; [done|]. intros [] _; simpl; lia. }
  destruct (existsb is_escalate ms) eqn:Ee.
  { apply Hex in Ee as ([] & Hd & ?); try done. split; [intros ->; by apply not_elem_of_nil in Hd|].
    intros _. split; [done|]. intros [] Hd'; simpl; try lia.
    by specialize (Hnex _ Ep _ Hd'). }
  destruct (existsb is_deny ms) eqn:Ed.
  { apply Hex in Ed as ([] & Hd & ?); try done. split; [intros ->; by apply not_elem_of_nil in Hd|].
    intros _. split; [done|]. intros [] Hd'; simpl; try lia;
      [by specialize (Hnex _ Ep _ Hd')|by specialize (Hnex _ Ee _ Hd')]. }
  split; [done|]. intros Hne. destruct ms as [|[] ms]; done.
Qed.

(** The reference reading of [AllMustPass]. *)
Definition all_must_pass_spec (gates : list Gate) (hits : list bool) (default : Decision)
    : Decision :=
  let ms := hit_decisions gates hits in
  if existsb is_deny ms then Deny
  else if existsb is_escalate ms then Escalate
  else if forallb id hits && negb (bool_decide (gates = [])) then Permit
  else default.

Lemma all_must_pass_loop_spec total n esc gates c cs default hits :
  gate_hits gates c cs = Ok hits →
  all_must_pass_loop total n esc gates c cs default =
  Ok (if existsb is_deny (hit_decisions gates hits) then Deny
      else if esc || existsb is_escalate (hit_decisions gates hits) then Escalate
      else if bool_decide (n + length (filter (λ b, b = true) hits) = total)
              && negb (bool_decide (total = 0)) then Permit
      else default).
Proof.
  revert n esc hits. induction gates as [|g gates IH]; intros n esc hits Hh.
  { unfold gate_hits in Hh. simpl in Hh. invert_binds. simpl. rewrite orb_false_r, Nat.add_0_r.
    by destruct (bool_decide (n = total)), esc, (bool_decide (total = 0)). }
  unfold gate_hits in Hh. cbn [try_map] in Hh. invert_binds.
  rename a into b, a0 into hs. cbn [all_must_pass_loop]. rewrite Hr. cbn [mbind Result_bind].
  unfold hit_decisions. cbn [zip_with]. rewrite !filter_cons.
  destruct b; [rewrite !decide_True by done|rewrite !decide_False by done].
  - csimpl. destruct (gate_decision g) eqn:Hg; simpl.
    + rewrite (IH (S n) esc hs) by done. unfold hit_decisions.
      by rewrite Nat.add_succ_r.
    + done.
    + rewrite (IH (S n) true hs) by done. unfold hit_decisions.
      by destruct (existsb is_deny _), esc.
  - by rewrite (IH n esc hs).
Qed.

Lemma filter_true_full (hits : list bool) :
  bool_decide (length (filter (λ b, b = true) hits) = length hits) = forallb id hits.
Proof.
  induction hits as [|[] hits IH]; [done|..]; rewrite filter_cons;
    [rewrite decide_True by done|rewrite decide_False by done]; simpl.
  - rewrite <-IH. apply bool_decide_ext. lia.
  - apply bool_decide_false. pose proof (length_filter (λ b, b = true) hits). lia.
Qed.

Lemma evaluate_all_must_pass_hits gates c cs default hits :
  gate_hits gates c cs = Ok hits →
  evaluate_all_must_pass gates c cs default = Ok (all_must_pass_spec gates hits default).
Proof.
  intros Hh. unfold evaluate_all_must_pass. rewrite (all_must_pass_loop_spec _ _ _ _ _ _ _ hits Hh).
  unfold all_must_pass_spec. simpl orb.
  rewrite <-(try_map_length _ _ _ Hh), (Nat.add_0_l (length _)), filter_true_full.
  rewrite (try_map_length _ _ _ Hh).
  assert (bool_decide (length gates = 0) = bool_decide (gates = [])) as ->.
  { apply bool_decide_ext. by destruct gates. }
  done.
Qed.

(** *** Nodes whose decision on a claim ignores the other claims *)

Definition gate_local (g : Gate) : bool :=
  match g with PeerRelative _ _ _ => false | _ => true end.

Definition node_local (node : GovernanceNode) : bool :=
  match node with Binary _ _ gates _ _ => forallb gate_local gates | _ => true end.

(** The decision of one claim at a node, given the batch it is evaluated in. *)
Definition node_decision (node : GovernanceNode) (cs : list GovernanceClaim)
    (c : GovernanceClaim) : LResult Decision :=
  match node with
  | Proportional _ _ _ _ => Err (UnsupportedNodeType (node_id node) (node_kind node))
  | Binary _ _ gates default combination => binary_decision gates default combination cs c
  | Threshold _ _ threshold field => threshold_decision threshold field c
  end.

Lemma evaluate_node_validated_Ok node cs ds :
  evaluate_node_validated node cs = Ok ds ↔
  Forall2 (λ c d, node_decision node cs c = Ok (cd_decision d) ∧
                  cd_claimant_id d = gc_claimant_id c) cs ds ∧
  node_kind node ≠ "Proportional".
Proof.
  assert (∀ (f : GovernanceClaim → LResult Decision) l,
    try_map (λ c, d ← f c; Ok (mkClaimDecision (gc_claimant_id c) d)) l = Ok ds ↔
    Forall2 (λ c d, f c = Ok (cd_decision d) ∧ cd_claimant_id d = gc_claimant_id c) l ds) as Hgen.
  { intros f l. rewrite try_map_Ok_Forall2.
    split; intros HF; (eapply Forall2_impl; [exact HF|]); intros c d.
    - intros Hcd; cbv beta in Hcd; invert_binds; by split.
    - destruct d; simpl. by intros [-> ->]. }
  destruct node; simpl.
  - unfold evaluate_binary_node. rewrite Hgen. intuition done.
  - split; [done|]. by intros [_ ?].
  - unfold evaluate_threshold_node. rewrite Hgen. intuition done.
Qed.

Lemma gate_matches_local g c cs cs' :
  gate_local g = true → gate_matches g c cs = gate_matches g c cs'.
Proof. by destruct g. Qed.

Lemma binary_decision_ext gates default comb c cs cs' :
  (∀ g, g ∈ gates → gate_matches g c cs = gate_matches g c cs') →
  binary_decision gates default comb cs c = binary_decision gates default comb cs' c.
Proof.
  intros Hg. destruct comb; simpl.
  - unfold evaluate_all_must_pass. generalize (length gates) as t.
    generalize 0 as n. generalize false as b.
    induction gates as [|g gates IH]; intros b n t; [done|]. cbn [all_must_pass_loop].
    rewrite (Hg g) by set_solver. destruct (gate_matches g c cs') as [[]|e]; simpl; [|apply IH; set_solver|done].
    destruct (gate_decision g); [apply IH; set_solver|done|apply IH; set_solver].
  - unfold evaluate_any_must_pass. f_equal.
    induction gates as [|g gates IH]; [done|]. cbn [matched_decisions].
    rewrite (Hg g) by set_solver. rewrite IH by set_solver. done.
  - induction gates as [|g gates IH]; [done|]. cbn [evaluate_first_match].
    rewrite (Hg g) by set_solver. rewrite IH by set_solver. done.
Qed.

Lemma node_decision_local node c cs cs' :
  node_local node = true → node_decision node cs c = node_decision node cs' c.
Proof.
  destruct node as [id nm gates d comb| |]; simpl; try done. intros Hl.
  apply binary_decision_ext. intros g Hg%list_elem_of_In.
  apply gate_matches_local. by apply (proj1 (forallb_forall gate_local gates) Hl).
Qed.
(** At a node without peer-relative gates, dropping claims from the batch leaves
    the decisions of the others exactly as they were. *)
Lemma local_decisions_subset node claims kept ds ds' :
  node_local node = true →
  evaluate_node_validated node claims = Ok ds →
  evaluate_node_validated node kept = Ok ds' →
  kept ⊆ claims → NoDup (gc_claimant_id <$> claims) →
  ∀ d, d ∈ ds' → d ∈ ds.
Proof.
  intros Hl Hds Hds' Hsub Hnd d Hd.
  apply evaluate_node_validated_Ok in Hds as [Hds _].
  apply evaluate_node_validated_Ok in Hds' as [Hds' _].
  apply list_elem_of_lookup in Hd as [i Hi].
  destruct (Forall2_lookup_r _ _ _ _ _ Hds' Hi) as (c & Hc & Hdec & Hid).
  apply list_elem_of_lookup_2, Hsub, list_elem_of_lookup in Hc as [j Hj].
  destruct (Forall2_lookup_l _ _ _ _ _ Hds Hj) as (d' & Hd' & Hdec' & Hid').
  rewrite (node_decision_local node c kept claims Hl), Hdec' in Hdec.
  assert (d = d') as ->; [|by eapply list_elem_of_lookup_2].
  destruct d, d'; simpl in *; congruence.
Qed.

End node_facts.

(* ------------------------------------------------------------------ *)
(** ** Ranks and numeric gates *)

Lemma decision_rank_inj d d' : decision_rank d = decision_rank d' → d = d'.
Proof. by destruct d, d'. Qed.

Lemma decision_rank_le_2 d : decision_rank d ≤ 2.
Proof. destruct d; simpl; lia. Qed.

Lemma numeric_field_finite c field v :
  claim_ok c → numeric_field c field = Ok v → f64_is_finite v = true.
Proof.
  intros [_ [Hs _] Hm]. unfold numeric_field. case_decide; intros; invert_binds; [done|].
  by eapply Hm.
Qed.

(** *** Merging batches of claims *)

Lemma merge_claim_fold_keys id acc l m :
  (∀ k c, acc !! k = Some c → gc_claimant_id c = k) →
  try_fold (merge_claim id) acc l = Ok m →
  ∀ k c, m !! k = Some c → gc_claimant_id c = k.
Proof.
  intros Hacc. eapply (try_fold_inv _ (λ _ m, ∀ k c, m !! k = Some c → gc_claimant_id c = k));
    [done|].
  intros pre c t t' Ht _ Hstep k c' Hk. unfold merge_claim in Hstep.
  destruct (t !! gc_claimant_id c) eqn:Hc; [destruct (claim_eqb _ _); invert_binds; eauto|].
  invert_binds. rewrite lookup_insert in Hk. case_decide; simplify_eq; eauto.
Qed.

(** The merged map: its entries come from the batch, and every claim of the
    batch has an entry that is equal to it. *)
Lemma merge_claim_fold_spec id l m :
  (∀ c, c ∈ l → claim_ok c) →
  try_fold (merge_claim id) ∅ l = Ok m →
  (∀ k c, m !! k = Some c → c ∈ l ∧ gc_claimant_id c = k) ∧
  (∀ c, c ∈ l → ∃ c', m !! gc_claimant_id c = Some c' ∧ claim_eqb c' c = true).
Proof.
  intros Hok Hf. revert Hf.
  apply (try_fold_inv _ (λ pre m,
    (∀ k c, m !! k = Some c → c ∈ pre ∧ gc_claimant_id c = k) ∧
    (∀ c, c ∈ pre → ∃ c', m !! gc_claimant_id c = Some c' ∧ claim_eqb c' c = true))).
  { split; [intros k c Hk; by rewrite lookup_empty in Hk|]. intros c Hc. by apply not_elem_of_nil in Hc. }
  intros pre c t t' [Ht1 Ht2] Hc Hstep. unfold merge_claim in Hstep.
  destruct (t !! gc_claimant_id c) as [e|] eqn:He.
  - destruct (claim_eqb e c) eqn:Heq; [|discriminate]. invert_binds. split.
    + intros k c' Hk. destruct (Ht1 k c' Hk). split; [set_solver|done].
    + intros c' [Hc'| ->%list_elem_of_singleton]%elem_of_app; [by apply Ht2|by exists e].
  - invert_binds. split.
    + intros k c'. rewrite lookup_insert. case_decide; intros Hk; simplify_eq.
      * split; [set_solver|done].
      * destruct (Ht1 k c' Hk). split; [set_solver|done].
    + intros c' [Hc'| ->%list_elem_of_singleton]%elem_of_app.
      * destruct (Ht2 c' Hc') as (e & Hk & Heq). exists e. split; [|done].
        rewrite lookup_insert_ne; [done|]. intros Heq'. congruence.
      * exists c. rewrite lookup_insert_eq. split; [done|]. by apply claim_eqb_refl, Hok.
Qed.

Lemma btree_values_keys (m : gmap string GovernanceClaim) :
  (∀ k c, m !! k = Some c → gc_claimant_id c = k) → gc_claimant_id <$> btree_values m = btree_keys m.
Proof.
  intros Hm. unfold btree_values, btree_keys. rewrite <-list_fmap_compose.
  apply list_fmap_ext. intros i [k c] Hi. simpl. apply Hm, elem_of_btree_iter.
  by eapply list_elem_of_lookup_2.
Qed.

(** *** Graphs the validator accepts *)

Record graph_wf (g : GovernanceGraph) : Prop := {
  graph_wf_ids : ∀ k n, nodes g !! k = Some n → node_id n = k;
  graph_wf_edges : ∀ e, e ∈ edges g → is_Some (nodes g !! from e) ∧ is_Some (nodes g !! to e);
}.

Section builder_facts.
Context `{RegexEngine}.

Lemma validate_governance_graph_Ok g :
  validate_governance_graph g = Ok () ↔
  (∀ k n, nodes g !! k = Some n → node_id n = k ∧ validate_governance_node n = Ok ()) ∧
  (∀ e, e ∈ edges g → validate_graph_edge g e = Ok ()).
Proof.
  unfold validate_governance_graph.
  match goal with |- context [try_iter ?f (btree_iter (nodes g))] => set (F := f) end.
  assert (∀ k n, F (k, n) = Ok () ↔ node_id n = k ∧ validate_governance_node n = Ok ()) as HF.
  { intros k n. unfold F, node_id. case_decide as Hd.
    - subst k. split; [done|by intros [_ ?]].
    - split; [done|]. intros [Hid _]. by symmetry in Hid. }
  assert (try_iter F (btree_iter (nodes g)) = Ok () ↔
    ∀ k n, nodes g !! k = Some n → node_id n = k ∧ validate_governance_node n = Ok ()) as H1.
  { rewrite try_iter_Ok, Forall_forall. split.
    - intros Hall k n Hk. apply HF, Hall, elem_of_btree_iter, Hk.
    - intros Hall [k n] Hin%elem_of_btree_iter. by apply HF, Hall. }
  rewrite <-H1, <-Forall_forall, <-(try_iter_Ok (validate_graph_edge g)).
  destruct (try_iter F _) as [[]|e]; cbn [mbind Result_bind]; split; try done; by intros [? ?].
Qed.

Lemma validate_graph_edge_Ok g e :
  validate_graph_edge g e = Ok () →
  is_Some (nodes g !! from e) ∧ is_Some (nodes g !! to e).
Proof. unfold validate_graph_edge. intros Hv. invert_binds. by split. Qed.

Lemma validate_governance_graph_wf g : validate_governance_graph g = Ok () → graph_wf g.
Proof.
  intros [Hn He]%validate_governance_graph_Ok. split.
  - intros k n Hk. by apply Hn.
  - intros e Hin. by apply validate_graph_edge_Ok, He.
Qed.

(** The builders reachable through the public interface. *)
Inductive built : GraphBuilder → Prop :=
  | built_new b : GraphBuilder_new = Ok b → built b
  | built_node b n b' : built b → add_node b n = Ok b' → built b'
  | built_edge b f t tr b' : built b → add_edge b f t tr = Ok b' → built b'.

Lemma GovernanceEdge_new_Ok f t tr e :
  GovernanceEdge_new f t tr = Ok e →
  from e = f ∧ to e = t ∧ transform e = tr ∧
  (∀ d, tr = ClaimModification d → f64_is_finite d = true).
Proof.
  unfold GovernanceEdge_new. destruct tr as [|d]; [intros; by invert_binds|].
  destruct (f64_is_finite d) eqn:Hd; simpl; intros; [|discriminate]. invert_binds.
  split_and!; try done. by intros ? [= <-].
Qed.

Lemma built_inv b :
  built b →
  (∀ k n, b_nodes b !! k = Some n → node_id n = k ∧ validate_governance_node n = Ok ()) ∧
  (∀ e d, e ∈ b_edges b → transform e = ClaimModification d → f64_is_finite d = true).
Proof.
  induction 1 as [b Hb|b n b' _ [IHn IHe] Hadd|b f t tr b' _ [IHn IHe] Hadd].
  - unfold GraphBuilder_new in Hb. invert_binds. simpl. split.
    + intros k n Hk. by rewrite lookup_empty in Hk.
    + intros e d He. by apply not_elem_of_nil in He.
  - unfold add_node in Hadd. invert_binds. case_match_in Hadd; [discriminate|].
    invert_binds. simpl. destruct a. split; [|done]. intros k n'. rewrite lookup_insert.
    case_decide; intros Hk; simplify_eq; [done|by apply IHn].
  - unfold add_edge in Hadd. invert_binds. simpl. split; [done|].
    intros e' d [He'| ->%list_elem_of_singleton]%elem_of_app Htr; [by eapply IHe|].
    apply GovernanceEdge_new_Ok in Hr as (_ & _ & <- & Hd). by apply Hd.
Qed.

Lemma build_Ok b g :
  build b = Ok g →
  nodes g = b_nodes b ∧ edges g = b_edges b ∧
  ∀ e, e ∈ b_edges b → is_Some (b_nodes b !! from e) ∧ is_Some (b_nodes b !! to e).
Proof.
  unfold build. intros Hb. invert_binds. destruct a. simpl. split_and!; [done..|].
  rewrite try_iter_Ok, Forall_forall in Hr. intros e He. specialize (Hr e He).
  cbv beta in Hr. invert_binds. by split.
Qed.
End builder_facts.

(* ------------------------------------------------------------------ *)
(** ** Properties *)

Section properties.
Context `{RegexEngine}.

(** A node evaluated on a batch of claims gives exactly one decision per
    claim, in the order of the batch and under the claim's own id. *)
Theorem evaluate_node_aligned node claims ds :
  evaluate_node node claims = Ok ds → cd_claimant_id <$> ds = gc_claimant_id <$> claims.
Proof. unfold evaluate_node. intros Hev. invert_binds. by eapply evaluate_node_validated_ids. Qed.

(** [FirstMatch] returns the decision of the first gate that matches, with
    every earlier gate evaluated without error and not matching, and the default
    when no gate matches. *)
Theorem first_match_takes_first gates c cs default r :
  evaluate_first_match gates c cs default = Ok r ↔
  (∃ pre g post, gates = pre ++ g :: post ∧ Forall (λ g', gate_matches g' c cs = Ok false) pre ∧
                 gate_matches g c cs = Ok true ∧ r = gate_decision g) ∨
  (Forall (λ g', gate_matches g' c cs = Ok false) gates ∧ r = default).
Proof. apply evaluate_first_match_Ok. Qed.

(** [AnyMustPass] returns the best-ranked decision among the matching gates
    (Deny < Escalate < Permit), and the default when none matches. *)
Theorem any_must_pass_is_best gates c cs default r :
  evaluate_any_must_pass gates c cs default = Ok r →
  ∃ ms, matched_decisions gates c cs = Ok ms ∧
    (ms = [] → r = default) ∧
    (ms ≠ [] → r ∈ ms ∧ ∀ d, d ∈ ms → decision_rank d ≤ decision_rank r).
Proof. apply evaluate_any_must_pass_rank. Qed.

(** When every gate evaluates, [AllMustPass] denies if a matching gate
    denies, else escalates if one escalates, else permits if every gate of a
    non-empty list matched, else takes the default: the counting loop with its
    early exit computes this specification. *)
Theorem all_must_pass_correct gates c cs default hits :
  gate_hits gates c cs = Ok hits →
  evaluate_all_must_pass gates c cs default = Ok (all_must_pass_spec gates hits default).
Proof. apply evaluate_all_must_pass_hits. Qed.

(** A threshold node is monotone: raising the field the node reads never
    lowers the rank of the claim's decision. *)
Theorem threshold_monotone t field c c' v v' d d' :
  numeric_field c field = Ok v → numeric_field c' field = Ok v' → f64_leb v v' = true →
  threshold_decision t field c = Ok d → threshold_decision t field c' = Ok d' →
  decision_rank d ≤ decision_rank d'.
Proof.
  unfold threshold_decision. intros -> -> Hv Hd Hd'. simpl in *. simplify_eq.
  destruct (f64_leb t v) eqn:Ht; [|destruct (f64_leb t v'); simpl; lia].
  by rewrite (f64_leb_trans _ _ _ Ht Hv).
Qed.

(** A peer-relative gate with a legal percentile always matches the
    top-ranked claim of a batch of valid claims (of fewer than 2^53 claims):
    the floating-point quotient [rank / total] is then exactly one. *)
Theorem peer_relative_top c claims field percentile v :
  validate_governance_claims claims = Ok () → (Z.of_nat (length claims) < 2 ^ 53)%Z →
  c ∈ claims → validate_gate (PeerRelative field percentile Permit) = Ok () →
  numeric_field c field = Ok v →
  (∀ c', c' ∈ claims → ∃ w, numeric_field c' field = Ok w ∧ f64_leb w v = true) →
  evaluate_peer_relative c claims field percentile = Ok true.
Proof.
  intros Hval Hlen Hc Hg Hv Hall. unfold evaluate_peer_relative. rewrite Hv. simpl.
  destruct (try_map_total (λ c', numeric_field c' field) claims) as [vs Hvs].
  { intros c' Hc'. destruct (Hall c' Hc') as (w & Hw & _). eauto. }
  rewrite Hvs. simpl. f_equal. unfold f64_sort.
  assert (filter (λ value, f64_leb value v = true) (merge_sort f64_total_rel vs)
          = merge_sort f64_total_rel vs) as ->.
  { apply list_filter_all. apply Forall_forall. intros w Hw.
    rewrite merge_sort_Permutation in Hw.
    destruct (try_map_elem_of_inv _ _ _ _ Hvs Hw) as (c' & Hc' & Hw').
    destruct (Hall c' Hc') as (w' & Hw'' & Hle). congruence. }
  unfold peer_relative_rank_at_least_percentile.
  rewrite merge_sort_Permutation, (try_map_length _ _ _ Hvs), f64_ratio_self.
  - cbn in Hg. unfold validate_gate_string in Hg. destruct (is_blank field); [done|]. simpl in Hg.
    destruct (f64_is_finite percentile); [|done]. simpl in Hg.
    destruct (f64_leb f64_zero percentile); [|done]. simpl in Hg.
    by destruct (f64_leb percentile f64_one).
  - split; [|done]. destruct claims; [by apply not_elem_of_nil in Hc|simpl; lia].
Qed.

(** Merging two feeds of valid claims keeps one claim per claimant, in the
    order of their ids; every merged claim is one of the inputs and every input
    is represented by an equal claim. *)
Theorem merge_claim_batches_correct id incoming additional merged :
  (∀ c, c ∈ incoming ++ additional → claim_ok c) →
  merge_claim_batches id incoming additional = Ok merged →
  NoDup (gc_claimant_id <$> merged) ∧
  StronglySorted String.le (gc_claimant_id <$> merged) ∧
  (∀ c, c ∈ merged → c ∈ incoming ++ additional) ∧
  (∀ c, c ∈ incoming ++ additional →
        ∃ c', c' ∈ merged ∧ gc_claimant_id c' = gc_claimant_id c ∧ claim_eqb c' c = true).
Proof.
  intros Hok Hm. unfold merge_claim_batches in Hm. invert_binds. rename a into m.
  destruct (merge_claim_fold_spec _ _ _ Hok Hr) as [H1 H2].
  assert (gc_claimant_id <$> btree_values m = btree_keys m) as Hk.
  { apply btree_values_keys. intros k c Hkc. by apply H1. }
  rewrite Hk. split_and!.
  - apply NoDup_btree_keys.
  - apply btree_keys_sorted.
  - intros c [k Hkc]%elem_of_btree_values. by eapply H1.
  - intros c Hc. destruct (H2 c Hc) as (c' & Hc' & Heq). exists c'. split_and!; [|by eapply H1|done].
    apply elem_of_btree_values. eauto.
Qed.

(** Every graph that leaves the builder passes [validate_governance_graph]:
    node keys agree with embedded ids, every node is valid, edges join existing
    nodes and carry finite deltas. *)
Theorem builder_graph_valid b g :
  built b → build b = Ok g → validate_governance_graph g = Ok ().
Proof.
  intros [Hn He]%built_inv (Hgn & Hge & Hends)%build_Ok.
  apply validate_governance_graph_Ok. rewrite Hgn, Hge. split; [done|].
  intros e Hin. unfold validate_graph_edge. rewrite Hgn.
  destruct (Hends e Hin) as [[n1 ->] [n2 ->]]. simpl.
  destruct (transform e) eqn:Htr; [done|]. by rewrite (He e delta Hin Htr).
Qed.

(** The shared regex cache is transparent: on a cache whose entries are what
    their patterns compile to, a lookup answers what compiling the pattern
    answers, and leaves such a cache. *)
Theorem regex_cache_transparent cache p :
  cache_sound cache →
  (cached_content_regex cache p).1 = content_regex p ∧
  cache_sound (cached_content_regex cache p).2.
Proof. apply cached_content_regex_sound. Qed.
End properties.
