(* ===== verification/Tarjan.v ===== *)
(** * Cycle detection (src/graph/cycle.rs: detect_cycles, strong_connect)

    Tarjan's strongly-connected-components search with its explicit state.  The
    recursion is on fuel; [detect_cycles] gives the search one unit per node
    and per edge, and [detect_cycles_total] shows that this is always enough
    and that none of the source's error returns is ever taken.  The main result
    is [detect_cycles_exact]: the reported lists are exactly the strongly
    connected components of the nodes that are on a cycle, by the invariant
    [components] of the search and the meaning of a lowlink ([low_spec]). *)

From S2P Require Import Prelude F64 Errors Core GraphNode.
From stdpp Require Import options.

Record TarjanState := mkTarjan {
  t_index : nat;
  t_stack : list NodeId;              (* top of the stack first *)
  t_on_stack : gmap NodeId bool;
  t_indices : gmap NodeId nat;
  t_lowlinks : gmap NodeId nat;
  t_cycles : list (list NodeId);      (* most recent first *)
}.

Definition TarjanState_default : TarjanState := mkTarjan 0 [] ∅ ∅ ∅ [].

Definition has_self_loop (id : NodeId) (graph : GovernanceGraph) : bool :=
  existsb (λ e, bool_decide (from e = id) && bool_decide (to e = id)) (edges graph).

(** The targets of the edges that leave a node, in edge order. *)
Definition successors (graph : GovernanceGraph) (id : NodeId) : list NodeId :=
  to <$> filter (λ e, from e = id) (edges graph).

(** The reported error when the search runs out of fuel; it never does. *)
Definition out_of_fuel : LegitimacyError := InvalidInput [Txt "out of fuel"].

(** Push a node that is visited for the first time. *)
Definition open_node (id : NodeId) (s : TarjanState) : TarjanState :=
  mkTarjan (S (t_index s)) (id :: t_stack s) (<[id := true]> (t_on_stack s))
    (<[id := t_index s]> (t_indices s)) (<[id := t_index s]> (t_lowlinks s)) (t_cycles s).

Definition set_lowlink (id : NodeId) (v : nat) (s : TarjanState) : TarjanState :=
  mkTarjan (t_index s) (t_stack s) (t_on_stack s) (t_indices s)
    (<[id := v]> (t_lowlinks s)) (t_cycles s).

(** The [while let Some(..) = stack.pop()] loop: pop up to and including [id]. *)
Fixpoint pop_component (id : NodeId) (stack : list NodeId) (on_stack : gmap NodeId bool)
    (component : list NodeId) : list NodeId * gmap NodeId bool * list NodeId :=
  match stack with
  | [] => ([], on_stack, component)
  | n :: stack =>
      let on_stack := <[n := false]> on_stack in
      let component := component ++ [n] in
      if decide (n = id) then (stack, on_stack, component)
      else pop_component id stack on_stack component
  end.

Definition close_node (graph : GovernanceGraph) (id : NodeId) (s : TarjanState) : TarjanState :=
  if decide (t_lowlinks s !! id = t_indices s !! id) then
    let '(stack, on_stack, component) := pop_component id (t_stack s) (t_on_stack s) [] in
    let cycles :=
      if bool_decide (1 < length component) || has_self_loop id graph
      then sort_strings component :: t_cycles s else t_cycles s in
    mkTarjan (t_index s) stack on_stack (t_indices s) (t_lowlinks s) cycles
  else s.

Fixpoint strong_connect (fuel : nat) (graph : GovernanceGraph) (id : NodeId) (s : TarjanState)
    : LResult TarjanState :=
  match fuel with
  | O => Err out_of_fuel
  | S fuel =>
      s ← try_fold (λ s successor,
            match t_indices s !! successor with
            | None =>
                s ← strong_connect fuel graph successor s;
                successor_lowlink ← ok_or (t_lowlinks s !! successor) (InvalidEdgeReference successor);
                node_lowlink ← ok_or (t_lowlinks s !! id) (InvalidEdgeReference id);
                Ok (set_lowlink id (Nat.min node_lowlink successor_lowlink) s)
            | Some _ =>
                if default false (t_on_stack s !! successor) then
                  successor_index ← ok_or (t_indices s !! successor) (InvalidEdgeReference successor);
                  node_lowlink ← ok_or (t_lowlinks s !! id) (InvalidEdgeReference id);
                  Ok (set_lowlink id (Nat.min node_lowlink successor_index) s)
                else Ok s
            end) (open_node id s) (sort_strings (successors graph id));
      Ok (close_node graph id s)
  end.

(** [Vec<Vec<NodeId>>::sort]: lexicographic order on lists of names. *)
Fixpoint names_leb (a b : list NodeId) : bool :=
  match a, b with
  | [], _ => true
  | _ :: _, [] => false
  | x :: a, y :: b => if decide (x = y) then names_leb a b else String.leb x y
  end.
Definition names_le (a b : list NodeId) : Prop := names_leb a b = true.
Global Instance names_le_dec : RelDecision names_le.
Proof. intros a b. unfold names_le. apply _. Defined.

Global Instance names_le_total : Total names_le.
Proof.
  unfold names_le. intros a. induction a as [|x a IH]; intros [|y b]; simpl; [by left..|by right|].
  destruct (decide (x = y)) as [->|Hne]; [rewrite decide_True by done; apply IH|].
  rewrite decide_False by done. rewrite <-!Is_true_true. apply (total String.le x y).
Qed.

Global Instance names_le_trans : Transitive names_le.
Proof.
  unfold names_le. intros a. induction a as [|x a IH]; intros [|y b] [|z c]; simpl; try done.
  destruct (decide (x = y)) as [->|Hxy].
  - case_decide; [apply IH|done].
  - destruct (decide (y = z)) as [->|Hyz]; [rewrite decide_False by done; intros; assumption|].
    rewrite <-!Is_true_true. intros Hx Hy.
    assert (String.le x z) as Hz.
    { etransitivity; [exact Hx|exact Hy]. }
    case_decide as Heq; [|exact Hz].
    subst. destruct Hxy. by apply (anti_symm String.le).
Qed.

Definition detect_cycles (graph : GovernanceGraph) : LResult (list (list NodeId)) :=
  let fuel := S (size (nodes graph) + length (edges graph)) in
  s ← try_fold (λ s id,
        match t_indices s !! id with
        | None => strong_connect fuel graph id s
        | Some _ => Ok s
        end) TarjanState_default (btree_keys (nodes graph));
  Ok (merge_sort names_le (reverse (t_cycles s))).

Lemma sort_strings_sorted l : StronglySorted String.le (sort_strings l).
Proof. apply StronglySorted_merge_sort; apply _. Qed.

(* ------------------------------------------------------------------ *)
(** ** Paths and cycles *)

Definition edge_rel (g : GovernanceGraph) (u v : NodeId) : Prop := v ∈ successors g u.

Lemma elem_of_successors g u v :
  v ∈ successors g u ↔ ∃ e, e ∈ edges g ∧ from e = u ∧ to e = v.
Proof.
  unfold successors. rewrite list_elem_of_fmap. setoid_rewrite list_elem_of_filter. naive_solver.
Qed.

(** A graph is acyclic when no node reaches itself through at least one edge. *)
Definition acyclic (g : GovernanceGraph) : Prop := ∀ v, ¬ tc (edge_rel g) v v.

(** The nodes that a node on a cycle reaches and is reached by, in order. *)
Definition cyclic_component (g : GovernanceGraph) (c : list NodeId) : Prop :=
  StronglySorted String.le c ∧ NoDup c ∧ ∃ v, tc (edge_rel g) v v ∧
    ∀ u, u ∈ c ↔ rtc (edge_rel g) v u ∧ rtc (edge_rel g) u v.

(** Every node of a graph whose search tree is well-founded is off any cycle. *)
Lemma Acc_no_cycle {A} (R : relation A) v : Acc (flip R) v → ¬ tc R v v.
Proof.
  induction 1 as [v _ IH]. intros Hc.
  inversion Hc as [? ? Hvv|? w ? Hvw Hwv]; subst.
  - apply (IH v Hvv). by apply tc_once.
  - apply (IH w Hvw). eapply tc_r; done.
Qed.

Lemma has_self_loop_true id g : has_self_loop id g = true ↔ edge_rel g id id.
Proof.
  unfold has_self_loop, edge_rel. rewrite existsb_exists, elem_of_successors.
  split.
  - intros (e & He%list_elem_of_In & Hb). apply andb_prop in Hb as [H1 H2].
    apply bool_decide_eq_true in H1, H2. eauto.
  - intros (e & He & <- & Hto). exists e. rewrite <-list_elem_of_In, !bool_decide_true; auto.
Qed.

Lemma pop_component_app id pre post on comp :
  id ∉ pre →
  pop_component id (pre ++ id :: post) on comp =
  (post, foldl (λ m n, <[n := false]> m) on (pre ++ [id]), comp ++ pre ++ [id]).
Proof.
  revert on comp. induction pre as [|n pre IH]; intros on comp Hid; simpl.
  - by rewrite decide_True.
  - rewrite decide_False by set_solver. rewrite IH by set_solver.
    by rewrite <-app_assoc.
Qed.

Lemma foldl_insert_false (l : list NodeId) (m : gmap NodeId bool) k :
  foldl (λ m n, <[n := false]> m) m l !! k = if decide (k ∈ l) then Some false else m !! k.
Proof.
  revert m. induction l as [|n l IH]; intros m; simpl; [done|].
  rewrite IH. destruct (decide (k ∈ l)) as [Hk|Hk].
  - rewrite decide_True by set_solver. done.
  - rewrite lookup_insert. case_decide as Heq; [subst; rewrite decide_True by set_solver; done|].
    rewrite decide_False; [done|set_solver].
Qed.

(* ------------------------------------------------------------------ *)
(** ** The invariant of the search *)

(** Coherence of the maps and the stack: the stack has no duplicates, its nodes
    are exactly those flagged, all of them are indexed, indices decrease from
    the top, and every indexed node has a lowlink. *)
Record coherent (s : TarjanState) : Prop := {
  co_nodup : NoDup (t_stack s);
  co_flag : ∀ v, default false (t_on_stack s !! v) = true ↔ v ∈ t_stack s;
  co_indexed : ∀ v, v ∈ t_stack s → is_Some (t_indices s !! v);
  co_low : dom (t_lowlinks s) = dom (t_indices s);
  co_bound : ∀ v i, t_indices s !! v = Some i → i < t_index s;
  co_order : ∀ pre u post v i j, t_stack s = pre ++ u :: post → v ∈ post →
    t_indices s !! u = Some i → t_indices s !! v = Some j → j < i;
}.

Lemma coherent_default : coherent TarjanState_default.
Proof.
  split; simpl.
  - constructor.
  - intros v. rewrite lookup_empty. simpl. split; [done|]. by intros ?%not_elem_of_nil.
  - by intros v ?%not_elem_of_nil.
  - done.
  - intros v i Hi. by rewrite lookup_empty in Hi.
  - intros pre u post v i j Heq. by destruct pre.
Qed.

(** What a call may change: it adds indices, keeps the old ones and the old
    lowlinks, and leaves the stack it was given under what it pushed. *)
Record extends (s s' : TarjanState) : Prop := {
  ex_indices : t_indices s ⊆ t_indices s';
  ex_low : ∀ v l, t_lowlinks s !! v = Some l → t_lowlinks s' !! v = Some l;
  ex_stack : ∃ top, t_stack s' = top ++ t_stack s ∧ ∀ v, v ∈ top → t_indices s !! v = None;
  ex_cycles : ∃ new, t_cycles s' = new ++ t_cycles s;
}.

Lemma extends_refl s : extends s s.
Proof. split; [done|done|exists []; split; [done|by intros v ?%not_elem_of_nil]|by exists []]. Qed.

Lemma extends_trans s1 s2 s3 : extends s1 s2 → extends s2 s3 → extends s1 s3.
Proof.
  intros [Hi1 Hl1 (t1 & Ht1 & Hn1) (c1 & Hc1)] [Hi2 Hl2 (t2 & Ht2 & Hn2) (c2 & Hc2)]. split.
  - by etrans.
  - auto.
  - exists (t2 ++ t1). rewrite Ht2, Ht1, <-app_assoc. split; [done|].
    intros v [Hv|Hv]%elem_of_app; [|by apply Hn1].
    apply Hn2 in Hv. destruct (t_indices s1 !! v) eqn:E; [|done].
    eapply lookup_weaken in E; [|done]. congruence.
  - exists (c2 ++ c1). by rewrite Hc2, Hc1, <-app_assoc.
Qed.

Lemma open_node_coherent id s :
  coherent s → t_indices s !! id = None → coherent (open_node id s).
Proof.
  intros [Hnd Hfl Hix Hlow Hb Hord] Hid.
  assert (id ∉ t_stack s) as Hns.
  { intros Hin. destruct (Hix _ Hin) as [i Hi]. congruence. }
  split; simpl.
  - by constructor.
  - intros v. rewrite elem_of_cons, lookup_insert. case_decide as Hv; [subst; simpl; intuition|].
    rewrite Hfl. intuition congruence.
  - intros v [->|Hv]%elem_of_cons; [rewrite lookup_insert_eq; eauto|].
    rewrite lookup_insert. case_decide; eauto.
  - rewrite !dom_insert_L. by rewrite Hlow.
  - intros v i. rewrite lookup_insert. case_decide; [intros [= <-]; lia|].
    intros Hi%Hb. lia.
  - intros pre u post v i j Heq Hv Hi Hj.
    destruct pre as [|p pre].
    + injection Heq as <- <-. rewrite lookup_insert_eq in Hi. injection Hi as <-.
      rewrite lookup_insert_ne in Hj by (intros ->; done). by eapply Hb.
    + injection Heq as <- Heq. rewrite Heq in Hns.
      rewrite lookup_insert_ne in Hi by set_solver.
      rewrite lookup_insert_ne in Hj by set_solver. by eapply Hord.
Qed.

Lemma set_lowlink_coherent id v s :
  coherent s → is_Some (t_indices s !! id) → coherent (set_lowlink id v s).
Proof.
  intros [Hnd Hfl Hix Hlow Hb Hord] Hid. split; simpl; try done.
  rewrite dom_insert_L, Hlow. apply elem_of_dom in Hid. set_solver.
Qed.

Lemma close_node_cases g id s top post :
  coherent s → t_stack s = top ++ id :: post →
  id ∉ top ∧
  ((t_lowlinks s !! id ≠ t_indices s !! id ∧ close_node g id s = s) ∨
   (t_lowlinks s !! id = t_indices s !! id ∧
    t_stack (close_node g id s) = post ∧ t_indices (close_node g id s) = t_indices s ∧
    t_lowlinks (close_node g id s) = t_lowlinks s ∧ t_index (close_node g id s) = t_index s ∧
    t_on_stack (close_node g id s) = foldl (λ m n, <[n := false]> m) (t_on_stack s) (top ++ [id]) ∧
    t_cycles (close_node g id s) =
      (if (bool_decide (1 < length (top ++ [id])) || has_self_loop id g)
       then [sort_strings (top ++ [id])] else []) ++ t_cycles s)).
Proof.
  intros Hco Hst.
  assert (id ∉ top) as Hid.
  { pose proof (co_nodup s Hco) as Hnd. rewrite Hst in Hnd. apply NoDup_app in Hnd as (_ & Hd & _).
    intros Hin. apply (Hd _ Hin). set_solver. }
  split; [done|]. unfold close_node. case_decide as Hl; [right|by left].
  rewrite Hst, (pop_component_app _ _ _ _ _ Hid). simpl. split_and!; try done.
  by destruct (_ || _).
Qed.

Lemma close_node_coherent g id s :
  coherent s → (∃ top post, t_stack s = top ++ id :: post) → coherent (close_node g id s).
Proof.
  intros Hco (top & post & Heq). destruct (close_node_cases g id s top post Hco Heq) as (Hnin & [[_ ->]|Hcl]);
    [done|]. destruct Hcl as (_ & Hs & Hi & Hl & Hx & Hon & _).
  destruct Hco as [Hnd Hfl Hix Hlow Hb Hord]. rewrite Heq in Hnd.
  replace (top ++ id :: post) with ((top ++ [id]) ++ post) in Hnd by by rewrite <-app_assoc.
  apply NoDup_app in Hnd as (_ & Hdisj & Hnd).
  split; rewrite ?Hs, ?Hi, ?Hl, ?Hx, ?Hon; try done.
  - intros v. rewrite foldl_insert_false. case_decide as Hv; simpl.
    + split; [done|]. intros Hp. by apply Hdisj in Hv.
    + rewrite Hfl, Heq. set_solver.
  - intros v Hv. apply Hix. rewrite Heq. set_solver.
  - intros pre u post' v i j Hp Hv. apply (Hord (top ++ id :: pre) u post' v i j); [|done].
    rewrite Heq, Hp, <-app_assoc. done.
Qed.

(* ------------------------------------------------------------------ *)
(** ** The search is total and complete *)

Lemma unvisited_size (U d d' : gset NodeId) id :
  d ⊆ d' → id ∈ d' → id ∉ d → id ∈ U → size (U ∖ d') < size (U ∖ d).
Proof. intros. apply subset_size. set_solver. Qed.

Section search.
Context (g : GovernanceGraph) (U : gset NodeId) (n0 : nat).
(** [U] will hold every node of the graph and every target of an edge. *)

(** Everything already closed is off any cycle, as long as none was reported. *)
Definition closed_acc (s : TarjanState) : Prop :=
  t_cycles s = [] → ∀ v, is_Some (t_indices s !! v) → v ∉ t_stack s → Acc (flip (edge_rel g)) v.

(** What was opened since index [n0] has its lowlink at or above [n0]; the
    whole stack was opened since. *)
Record above (s : TarjanState) : Prop := {
  ab_index : n0 ≤ t_index s;
  ab_stack : ∀ v i, v ∈ t_stack s → t_indices s !! v = Some i → n0 ≤ i;
  ab_low : ∀ v i l, t_indices s !! v = Some i → n0 ≤ i → t_lowlinks s !! v = Some l → n0 ≤ l;
}.

Record search_inv (s : TarjanState) : Prop := {
  si_coherent : coherent s;
  si_universe : dom (t_indices s) ⊆ U;
  si_closed : closed_acc s;
  si_above : above s;
}.

(** The state of the loop over the successors of [id], which was opened in [s]. *)
Record loop_inv (id : NodeId) (s : TarjanState) (visited : list NodeId) (t : TarjanState)
    : Prop := {
  li_inv : search_inv t;
  li_extends : extends s t;
  li_stack : ∃ top, t_stack t = top ++ id :: t_stack s;
  li_index : t_indices t !! id = Some (t_index s);
  li_low : ∃ l, t_lowlinks t !! id = Some l ∧ l ≤ t_index s ∧
    (∀ v i, v ∈ visited → v ∈ t_stack s → t_indices t !! v = Some i → l ≤ i);
  li_visited : ∀ v, v ∈ visited → is_Some (t_indices t !! v);
}.

Lemma search_inv_open id s :
  search_inv s → t_indices s !! id = None → id ∈ U → search_inv (open_node id s).
Proof.
  intros [Hco HdU Hcl [Hx Hst Hlow]] Hid HidU. split.
  - by apply open_node_coherent.
  - simpl. rewrite dom_insert_L. set_solver.
  - intros Hc v [i Hi] Hv. simpl in *. rewrite lookup_insert in Hi.
    case_decide; [set_solver|]. apply Hcl; [done|eauto|set_solver].
  - split; simpl; [lia|..].
    + intros v i Hv. rewrite lookup_insert. case_decide; [intros; simplify_eq; lia|].
      apply Hst. set_solver.
    + intros v i l. rewrite !lookup_insert. case_decide; [intros; simplify_eq; lia|]. apply Hlow.
Qed.

Lemma extends_open id s : t_indices s !! id = None → coherent s → extends s (open_node id s).
Proof.
  intros Hid Hco. split; simpl.
  - by apply insert_subseteq.
  - intros v l Hl. rewrite lookup_insert_ne; [done|]. intros <-.
    assert (id ∈ dom (t_indices s)) as []%elem_of_dom; [|congruence].
    rewrite <-(co_low s Hco). by apply elem_of_dom.
  - exists [id]. split; [done|]. by intros v ->%list_elem_of_singleton.
  - by exists [].
Qed.

Lemma loop_inv_open id s :
  search_inv s → t_indices s !! id = None → id ∈ U → loop_inv id s [] (open_node id s).
Proof.
  intros Hs Hid HidU. split.
  - by apply search_inv_open.
  - apply extends_open; [done|]. by apply si_coherent.
  - by exists [].
  - simpl. by rewrite lookup_insert_eq.
  - exists (t_index s). simpl. rewrite lookup_insert_eq. split_and!; [done|done|].
    intros v i Hv. by apply not_elem_of_nil in Hv.
  - intros v Hv. by apply not_elem_of_nil in Hv.
Qed.

(** Lowering the lowlink of the open node, after a successor was dealt with. *)
Lemma loop_inv_lower id s visited t v w l :
  loop_inv id s visited t → search_inv s → t_indices s !! id = None →
  is_Some (t_indices t !! v) → t_lowlinks t !! id = Some l → n0 ≤ w →
  (∀ i, v ∈ t_stack s → t_indices t !! v = Some i → w ≤ i) →
  loop_inv id s (visited ++ [v]) (set_lowlink id (Nat.min l w) t).
Proof.
  intros [[Hco HdU Hcl Hab] Hext Hst Hix Hl Hvis] Hs Hid Hv Hl0 Hw Hwi.
  destruct Hl as (l' & Hl' & Hle & Hlow). assert (l' = l) as -> by congruence.
  assert (n0 ≤ l) as Hln.
  { eapply (ab_low t Hab id); [done| |done]. apply Hs. }
  split.
  - split; simpl; [by apply set_lowlink_coherent; eauto|done|done|].
    destruct Hab as [Hx Hst' Hlo]. split; simpl; [done|done|].
    intros u i l'. rewrite lookup_insert. case_decide; [intros; simplify_eq; lia|]. by apply Hlo.
  - destruct Hext as [H1 H2 H3 H4]. split; simpl; [done| |done|done].
    intros u k Hk. rewrite lookup_insert_ne; [by apply H2|]. intros <-.
    assert (id ∈ dom (t_indices s)) as []%elem_of_dom; [|congruence].
    rewrite <-(co_low s (si_coherent s Hs)). by apply elem_of_dom.
  - done.
  - done.
  - exists (Nat.min l w). simpl. rewrite lookup_insert_eq. split_and!; [done|lia|].
    intros u i [Hu| ->%list_elem_of_singleton]%elem_of_app Hus Hi.
    + specialize (Hlow u i Hu Hus Hi). lia.
    + specialize (Hwi i Hus Hi). lia.
  - intros u [Hu| ->%list_elem_of_singleton]%elem_of_app; simpl; [by apply Hvis|done].
Qed.

(** A successor that is already closed changes nothing. *)
Lemma loop_inv_skip id s visited t v :
  loop_inv id s visited t → is_Some (t_indices t !! v) → v ∉ t_stack t →
  loop_inv id s (visited ++ [v]) t.
Proof.
  intros [Hinv Hext Hst Hix Hl Hvis] Hv Hns. split; try done.
  - destruct Hl as (l & Hl & Hle & Hlow). exists l. split_and!; [done|done|].
    intros u i [Hu| ->%list_elem_of_singleton]%elem_of_app Hus; [by apply Hlow|].
    destruct Hst as (top & Heq). rewrite Heq in Hns. set_solver.
  - intros u [Hu| ->%list_elem_of_singleton]%elem_of_app; [by apply Hvis|done].
Qed.

(** A call made from the loop leaves the loop's invariant, except for the list
    of visited successors. *)
Lemma loop_inv_call id s visited t t' :
  loop_inv id s visited t → extends t t' → search_inv t' → loop_inv id s visited t'.
Proof.
  intros [Hinv Hext (top & Hst) Hix (l & Hl & Hle & Hlow) Hvis] Hext' Hinv'.
  destruct (Hext') as [H1 H2 (top' & Htop' & Hnew) H4]. split; [done| | | | |].
  - by eapply extends_trans.
  - exists (top' ++ top). by rewrite Htop', Hst, <-app_assoc.
  - by eapply lookup_weaken.
  - exists l. split_and!; [by apply H2|done|]. intros v i Hv Hs Hi.
    apply (Hlow v i Hv Hs). destruct (Hvis v Hv) as [j Hj].
    pose proof (lookup_weaken _ _ _ _ Hj H1). congruence.
  - intros v Hv. destruct (Hvis v Hv) as [j Hj]. exists j. by eapply lookup_weaken.
Qed.

(** Closing the node. *)
Lemma loop_inv_close id s t :
  loop_inv id s (sort_strings (successors g id)) t → search_inv s →
  search_inv (close_node g id t) ∧ extends s (close_node g id t) ∧
  t_indices (close_node g id t) !! id = Some (t_index s) ∧
  (t_stack s = [] → t_index s = n0 → t_stack (close_node g id t) = []).
Proof.
  intros [[Hco HdU Hcl Hab] Hext (top0 & Hst) Hix (l & Hl & Hle & Hlow) Hvis] Hs.
  destruct (close_node_cases g id t top0 (t_stack s) Hco Hst) as (Hnin & Hcase). rename Hst into Heq.
  pose proof (close_node_coherent g id t Hco ltac:(eauto)) as Hco'.
  destruct Hcase as [[Hne Hcase]|(Heql & Cst & Cix & Clow & Cidx & Con & Ccyc)].
  { rewrite Hcase. split_and!; try done. intros Hs0 Hn0. exfalso. apply Hne.
    rewrite Hl, Hix. f_equal. assert (n0 ≤ l); [|lia].
    eapply (ab_low t Hab id); [done|lia|done]. }
  rewrite Cix, Cst. split; [split|split; [split|by split]]; rewrite ?Cst, ?Cix, ?Clow, ?Cidx.
  - exact Hco'.
  - exact HdU.
  - (* closed nodes are off any cycle *)
    intros Hc v Hv Hns. rewrite Ccyc in Hc. apply app_eq_nil in Hc as [Hnew Hc].
    rewrite Cix in Hv. rewrite Cst in Hns.
    destruct (bool_decide _) eqn:Hlen; [done|]. simpl in Hnew.
    destruct (has_self_loop id g) eqn:Hself; [done|].
    assert (top0 = []) as ->.
    { apply bool_decide_eq_false in Hlen. rewrite length_app in Hlen. simpl in Hlen.
      destruct top0; [done|simpl in *; lia]. }
    destruct (decide (v = id)) as [->|Hvid]; [|apply Hcl; [done|done|rewrite Heq; set_solver]].
    constructor. intros w Hw. red in Hw. apply Hcl; [done|..].
    + by apply Hvis, elem_of_sort_strings.
    + rewrite Heq. simpl. rewrite not_elem_of_cons. split.
      { intros ->. apply (proj2 (has_self_loop_true id g)) in Hw. congruence. }
      intros Hws.
      destruct (co_indexed s (si_coherent s Hs) w Hws) as [i Hi].
      pose proof (co_bound s (si_coherent s Hs) w i Hi) as Hb.
      pose proof (lookup_weaken _ _ _ _ Hi (ex_indices _ _ Hext)) as Hi'.
      assert (l ≤ i). { apply (Hlow w i); [by apply elem_of_sort_strings|done|done]. }
      rewrite Hl, Hix in Heql. simplify_eq. lia.
  - destruct Hab as [Hx Hst' Hlo]. split; rewrite ?Cst, ?Cix, ?Clow, ?Cidx; [exact Hx| |exact Hlo].
    intros v i Hv. apply Hst'. rewrite Heq, elem_of_app, elem_of_cons. by do 2 right.
  - apply Hext.
  - apply Hext.
  - exists []. split; [done|]. by intros v Hv%not_elem_of_nil.
  - destruct (ex_cycles _ _ Hext) as (new & Hnew). rewrite Ccyc, Hnew, app_assoc. by eexists.
Qed.

(* ------------------------------------------------------------------ *)
(** ** The components found so far *)

(** Indexed and no longer on the stack. *)
Definition closed (s : TarjanState) (v : NodeId) : Prop := is_Some (t_indices s !! v) ∧ v ∉ t_stack s.

(** The invariant of the search proper; [path] are the open calls.  On the
    stack, a node reaches every later one and some open call at or below it;
    edges of visited nodes lead to visited ones and those of closed nodes to
    closed ones; the reported lists are the components of the closed nodes that
    are on a cycle. *)
Record components (path : list NodeId) (s : TarjanState) : Prop := {
  cp_path : ∀ x, x ∈ path → x ∈ t_stack s;
  cp_down : ∀ x y i j, x ∈ t_stack s → y ∈ t_stack s → t_indices s !! x = Some i →
    t_indices s !! y = Some j → i ≤ j → rtc (edge_rel g) x y;
  cp_up : ∀ y j, y ∈ t_stack s → t_indices s !! y = Some j →
    ∃ x i, x ∈ path ∧ t_indices s !! x = Some i ∧ i ≤ j ∧ rtc (edge_rel g) y x;
  cp_indexed : ∀ v w, is_Some (t_indices s !! v) → v ∉ path → edge_rel g v w → is_Some (t_indices s !! w);
  cp_closed : ∀ v w, closed s v → edge_rel g v w → closed s w;
  cp_sound : ∀ c, c ∈ t_cycles s → cyclic_component g c ∧ ∀ u, u ∈ c → closed s u;
  cp_complete : ∀ v, closed s v → tc (edge_rel g) v v → ∃ c, c ∈ t_cycles s ∧ v ∈ c;
  cp_nodup : NoDup (mjoin (t_cycles s));
}.

Lemma components_ext path s t :
  t_stack t = t_stack s → t_indices t = t_indices s → t_cycles t = t_cycles s →
  components path s → components path t.
Proof.
  intros H1 H2 H3 [C1 C2 C3 C4 C5 C6 C7 C8]. unfold closed in *.
  split; unfold closed; rewrite ?H1, ?H2, ?H3; done.
Qed.

Lemma components_reach path s v w :
  components path s → closed s v → rtc (edge_rel g) v w → closed s w.
Proof. intros Hc Hv Hr. induction Hr; [done|]. eauto using cp_closed. Qed.

Lemma components_open path s id :
  components path s → coherent s → t_indices s !! id = None →
  (∀ x, x ∈ path → rtc (edge_rel g) x id) → components (id :: path) (open_node id s).
Proof.
  intros [C1 C2 C3 C4 C5 C6 C7 C8] Hco Hid Hacc.
  assert (∀ v, v ∈ t_stack s → v ≠ id) as Hne.
  { intros v Hv ->. destruct (co_indexed s Hco _ Hv) as [i Hi]. congruence. }
  assert (∀ v, closed (open_node id s) v ↔ closed s v) as Hcl.
  { intros v. unfold closed. simpl. rewrite lookup_insert, not_elem_of_cons. case_decide; subst; [|naive_solver].
    split; [tauto|]. intros [[? ?] _]. congruence. }
  assert (∀ x, x ∈ t_stack s → rtc (edge_rel g) x id) as Hto.
  { intros x Hx. destruct (co_indexed s Hco x Hx) as [j Hj].
    destruct (C3 x j Hx Hj) as (x' & i & Hx' & _ & _ & Hr). etransitivity; [exact Hr|]. by apply Hacc. }
  split; try setoid_rewrite Hcl; simpl.
  - intros x [->|Hx]%elem_of_cons; [left|right; by apply C1].
  - intros x y i j [->|Hx]%elem_of_cons [->|Hy]%elem_of_cons; rewrite !lookup_insert; [done|..].
    + rewrite decide_True, decide_False by (try done; intros <-; by destruct (Hne id)).
      intros [= <-] Hj%(co_bound s Hco) Hle. lia.
    + intros _ _ _. by apply Hto.
    + rewrite !decide_False by (intros <-; by destruct (Hne id)). by apply C2.
  - intros y j [->|Hy]%elem_of_cons Hj; [exists id, j; split_and!; [left|done|done|done]|].
    rewrite lookup_insert_ne in Hj by (intros <-; by destruct (Hne id)).
    destruct (C3 y j Hy Hj) as (x & i & Hx & Hi & Hle & Hr). exists x, i. split_and!; [by right| |done|done].
    rewrite lookup_insert_ne; [done|]. intros <-. congruence.
  - intros v w Hv [Hvid Hvp]%not_elem_of_cons Hvw. rewrite lookup_insert_ne in Hv by done.
    rewrite lookup_insert. case_decide; [eauto|]. by eapply C4.
  - done.
  - exact C6.
  - done.
  - done.
Qed.

(** What the lowlink of [id] says of its state [t] when the loop over its
    successors has visited [visited]. *)
Record scc_loop (id : NodeId) (s : TarjanState) (path : list NodeId) (t : TarjanState) : Prop := {
  sl_components : components (id :: path) t;
  sl_low : ∃ l y, t_lowlinks t !! id = Some l ∧ y ∈ t_stack t ∧ t_indices t !! y = Some l ∧
    rtc (edge_rel g) id y;
  sl_edges : ∀ x w l i, x ∈ t_stack t → x ∉ t_stack s → x ≠ id → edge_rel g x w → w ∈ t_stack s →
    t_lowlinks t !! id = Some l → t_indices t !! w = Some i → l ≤ i;
}.

(** What a finished call from [s] leaves in [t]: [id] is closed, or its lowlink
    is the index of an earlier node it reaches; and no node it left on the
    stack has an edge to a stacked node below that lowlink. *)
Definition low_spec (id : NodeId) (s t : TarjanState) : Prop :=
  ∃ l, t_lowlinks t !! id = Some l ∧
    ((id ∉ t_stack t ∧ l = t_index s) ∨
     (l < t_index s ∧ ∃ y, y ∈ t_stack t ∧ t_indices t !! y = Some l ∧ rtc (edge_rel g) id y)) ∧
    ∀ x w i, x ∈ t_stack t → x ∉ t_stack s → edge_rel g x w → w ∈ t_stack s →
      t_indices t !! w = Some i → l ≤ i.

Lemma scc_loop_open id s path :
  components path s → coherent s → t_indices s !! id = None →
  (∀ x, x ∈ path → rtc (edge_rel g) x id) → scc_loop id s path (open_node id s).
Proof.
  intros Hc Hco Hid Hacc. split; [by apply components_open|..].
  - exists (t_index s), id. simpl. rewrite !lookup_insert_eq. split_and!; [done|left|done|done].
  - intros x w l i [->|Hx]%elem_of_cons; done.
Qed.

(** Lowering the lowlink to the index of a reached node, or not at all. *)
Lemma scc_loop_lower id s path t l w :
  scc_loop id s path t → t_lowlinks t !! id = Some l →
  (w < l → ∃ y, y ∈ t_stack t ∧ t_indices t !! y = Some w ∧ rtc (edge_rel g) id y) →
  scc_loop id s path (set_lowlink id (Nat.min l w) t).
Proof.
  intros [Hc (l' & y & Hl & Hy & Hi & Hr) He] Hl' Hw. assert (l' = l) as -> by congruence. split.
  - by eapply components_ext; [..|exact Hc].
  - exists (Nat.min l w). simpl. rewrite lookup_insert_eq. destruct (decide (w < l)) as [Hlt|Hge].
    + destruct (Hw Hlt) as (y' & Hy' & Hi' & Hr'). exists y'. rewrite Nat.min_r by lia. done.
    + exists y. rewrite Nat.min_l by lia. done.
  - simpl. intros x u l' i. rewrite lookup_insert_eq. intros Hx Hs Hne Hxu Hu [= <-] Hui.
    specialize (He x u l i Hx Hs Hne Hxu Hu Hl Hui). lia.
Qed.

(** A call from the loop: the invariant holds again once the lowlink of [id]
    took in that of the successor. *)
Lemma scc_loop_call id s path t t' v l lv :
  coherent t → scc_loop id s path t → extends s t → extends t t' → components (id :: path) t' → low_spec v t t' →
  edge_rel g id v → t_lowlinks t !! id = Some l → t_lowlinks t' !! v = Some lv → l ≤ t_index t →
  scc_loop id s path (set_lowlink id (Nat.min l lv) t').
Proof.
  intros Hco [Hc (l' & y & Hl & Hy & Hi & Hr) He] Hext Hext' Hc' (lv' & Hlv & Hcase & Hedges) Hv Hl0 Hlv0 Hle.
  assert (l' = l) as -> by congruence. assert (lv' = lv) as -> by congruence.
  destruct (ex_stack _ _ Hext) as (top & Hst & _). destruct (ex_stack _ _ Hext') as (top' & Hst' & _).
  split.
  - by eapply components_ext; [..|exact Hc'].
  - exists (Nat.min l lv). simpl. rewrite lookup_insert_eq.
    assert (∃ y, y ∈ t_stack t' ∧ t_indices t' !! y = Some l ∧ rtc (edge_rel g) id y) as (y' & Hy').
    { exists y. split_and!; [rewrite Hst'; by apply elem_of_app; right|by eapply lookup_weaken, ex_indices|done]. }
    destruct Hcase as [[_ ->]|(_ & z & Hz & Hzi & Hzr)]; [exists y'; by rewrite Nat.min_l|].
    destruct (decide (lv < l)); [|exists y'; by rewrite Nat.min_l by lia].
    exists z. rewrite Nat.min_r by lia. split_and!; [done..|]. by eapply rtc_l.
  - simpl. intros x w l' i Hx Hxs Hne Hxw Hw. rewrite lookup_insert_eq. intros [= <-] Hwi.
    assert (w ∈ t_stack t) as Hwt by (rewrite Hst; by apply elem_of_app; right).
    destruct (decide (x ∈ t_stack t)) as [Hxt|Hxt].
    + assert (t_indices t !! w = Some i) as Hwi'.
      { destruct (co_indexed t Hco w Hwt) as [j Hj].
        pose proof (lookup_weaken _ _ _ _ Hj (ex_indices _ _ Hext')). congruence. }
      specialize (He x w l i Hxt Hxs Hne Hxw Hw Hl Hwi'). lia.
    + specialize (Hedges x w i Hx Hxt Hxw Hwt Hwi). lia.
Qed.

(** Closing [id] with its stack above it: the nodes above form the component of
    [id] when its lowlink is its own index. *)
Section closing.
Context (id : NodeId) (s t : TarjanState) (path top : list NodeId).
Context (Hs : coherent s) (Ht : coherent t) (Hext : extends s t).
Context (Hst : t_stack t = top ++ id :: t_stack s) (Hix : t_indices t !! id = Some (t_index s)).
Context (Hpath : ∀ x, x ∈ path → x ∈ t_stack s) (Hacc : ∀ x, x ∈ path → rtc (edge_rel g) x id).
Context (Hloop : scc_loop id s path t).
Context (Hvis : ∀ v, edge_rel g id v → is_Some (t_indices t !! v)).
Context (l : nat) (Hl : t_lowlinks t !! id = Some l).
Context (Hlow : ∀ v i, edge_rel g id v → v ∈ t_stack s → t_indices t !! v = Some i → l ≤ i).

Lemma below_index v i : v ∈ t_stack s → t_indices t !! v = Some i → i < t_index s.
Proof using Hs Hext.
  intros Hv Hi. destruct (co_indexed s Hs v Hv) as [j Hj].
  pose proof (lookup_weaken _ _ _ _ Hj (ex_indices _ _ Hext)). pose proof (co_bound s Hs v j Hj). congruence.
Qed.

Lemma id_not_below : id ∉ t_stack s.
Proof using Hs Hext Hix. intros Hin. pose proof (below_index id _ Hin Hix). lia. Qed.

Lemma above_index v i : v ∈ top ++ [id] → t_indices t !! v = Some i → t_index s ≤ i.
Proof using Ht Hst Hix.
  intros [Hv| ->%list_elem_of_singleton]%elem_of_app Hi; [|rewrite Hix in Hi; by injection Hi as ->].
  apply list_elem_of_split in Hv as (p1 & p2 & Heq).
  enough (t_index s < i) by lia.
  eapply (co_order t Ht p1 v (p2 ++ id :: t_stack s) id); [by rewrite Hst, Heq, <-app_assoc| |done|done].
  apply elem_of_app. right. left.
Qed.

Lemma elem_of_closing v : v ∈ t_stack t ↔ v ∈ top ++ [id] ∨ v ∈ t_stack s.
Proof using Hst. rewrite Hst, !elem_of_app, elem_of_cons, list_elem_of_singleton. tauto. Qed.

(** All edges into the stack below stay at or above the lowlink. *)
Lemma closing_edges x w i :
  x ∈ t_stack t → x ∉ t_stack s → edge_rel g x w → w ∈ t_stack s → t_indices t !! w = Some i → l ≤ i.
Proof using Hloop Hl Hlow.
  intros Hx Hxs Hxw Hw Hi. destruct (decide (x = id)) as [->|Hne]; [by eapply Hlow|].
  by eapply (sl_edges _ _ _ _ Hloop x w l i).
Qed.

Lemma closing_indexed v w :
  is_Some (t_indices t !! v) → v ∉ path → edge_rel g v w → is_Some (t_indices t !! w).
Proof using Hloop Hvis.
  intros Hv Hvp Hvw. destruct (decide (v = id)) as [->|Hne]; [by apply Hvis|].
  apply (cp_indexed _ _ (sl_components _ _ _ _ Hloop) v w Hv); [|done]. by rewrite not_elem_of_cons.
Qed.

(** The node stays open. *)
Lemma components_stay : l < t_index s → components path t.
Proof using All.
  intros Hlt. pose proof (sl_components _ _ _ _ Hloop) as Hc.
  destruct (sl_low _ _ _ _ Hloop) as (l' & y & Hl' & Hy & Hi & Hr). assert (l' = l) as -> by congruence.
  split; [| |..|by apply (cp_closed _ _ Hc)|by apply (cp_sound _ _ Hc)|by apply (cp_complete _ _ Hc)|by apply (cp_nodup _ _ Hc)].
  - intros x Hx. apply elem_of_closing. by right; apply Hpath.
  - apply Hc.
  - intros u j Hu Hj. destruct (cp_up _ _ Hc u j Hu Hj) as (x & i & [->|Hx]%elem_of_cons & Hxi & Hle & Hux); [|eauto 10].
    destruct (cp_up _ _ Hc y l Hy Hi) as (x & i' & [->|Hx]%elem_of_cons & Hxi' & Hle' & Hyx).
    { rewrite Hix in Hxi'. simplify_eq. lia. }
    exists x, i'. split_and!; [done|done|rewrite Hix in Hxi; simplify_eq; lia|].
    etransitivity; [exact Hux|]. by etransitivity.
  - apply closing_indexed.
Qed.

Lemma id_popped : id ∈ top ++ [id].
Proof using Type. apply elem_of_app. right. left. Qed.

(** What [id] reaches is popped with it or closed already. *)
Lemma popped_reach v : l = t_index s → rtc (edge_rel g) id v → v ∈ top ++ [id] ∨ closed t v.
Proof using All.
  intros Hll Hv. pose proof (sl_components _ _ _ _ Hloop) as Hc. revert v Hv.
  apply rtc_ind_r; [left; apply id_popped|].
  intros x w _ Hxw [Hx|Hx]; [|right; by eapply (cp_closed _ _ Hc)].
  assert (x ∈ t_stack t) as Hxt by (apply elem_of_closing; by left).
  destruct (co_indexed t Ht x Hxt) as [j Hj]. pose proof (above_index x j Hx Hj).
  assert (x ∉ t_stack s) as Hxs by (intros Hin; pose proof (below_index x j Hin Hj); lia).
  assert (is_Some (t_indices t !! w)) as [i Hi].
  { eapply (closing_indexed x); [by eexists| |done]. intros Hin. by apply Hxs, Hpath. }
  destruct (decide (w ∈ t_stack t)) as [[Hw|Hw]%elem_of_closing|Hw]; [by left| |right; split; [by eexists|done]].
  pose proof (closing_edges x w i Hxt Hxs Hxw Hw Hi). pose proof (below_index w i Hw Hi). lia.
Qed.

(** The popped nodes are a whole component. *)
Lemma popped_mutual u : l = t_index s →
  u ∈ top ++ [id] ↔ rtc (edge_rel g) id u ∧ rtc (edge_rel g) u id.
Proof using All.
  intros Hll. pose proof (sl_components _ _ _ _ Hloop) as Hc. split.
  - intros Hu. assert (u ∈ t_stack t) as Hut by (apply elem_of_closing; by left).
    destruct (co_indexed t Ht u Hut) as [j Hj]. pose proof (above_index u j Hu Hj). split.
    + eapply (cp_down _ _ Hc id u); [apply elem_of_closing; left; apply id_popped|done|done|done|done].
    + destruct (cp_up _ _ Hc u j Hut Hj) as (x & i & [->|Hx]%elem_of_cons & _ & _ & Hux); [done|].
      etransitivity; [exact Hux|by apply Hacc].
  - intros [Hiu Hui]. destruct (popped_reach u Hll Hiu) as [?|Hcl]; [done|]. exfalso.
    destruct (components_reach _ _ _ _ Hc Hcl Hui) as [_ []]. apply elem_of_closing. left. apply id_popped.
Qed.

Lemma popped_nodup : NoDup (top ++ [id]).
Proof using Ht Hst.
  pose proof (co_nodup t Ht) as Hnd. rewrite Hst in Hnd.
  replace (top ++ id :: t_stack s) with ((top ++ [id]) ++ t_stack s) in Hnd by by rewrite <-app_assoc.
  by apply NoDup_app in Hnd as (? & _ & _).
Qed.

(** The test of the source for reporting finds the components on a cycle. *)
Lemma popped_cyclic : l = t_index s →
  bool_decide (1 < length (top ++ [id])) || has_self_loop id g = true ↔ tc (edge_rel g) id id.
Proof using All.
  intros Hll. rewrite orb_true_iff, bool_decide_eq_true, has_self_loop_true, length_app. cbn [length]. split.
  - intros [Hlen|He]; [|by apply tc_once].
    assert (∃ u, u ∈ top) as (u & Hu).
    { clear -Hlen. destruct top as [|u l]; [simpl in Hlen; lia|exists u; left]. }
    assert (u ≠ id) as Hne.
    { intros ->. pose proof popped_nodup as Hnd. apply NoDup_app in Hnd as (_ & Hd & _).
      apply (Hd id Hu). by apply list_elem_of_singleton. }
    destruct (proj1 (popped_mutual u Hll)) as [Hiu Hui]; [by apply elem_of_app; left|].
    apply rtc_tc in Hiu as [->|Hiu]; [done|]. by eapply tc_rtc_r.
  - intros Hc. assert (∃ w, edge_rel g id w ∧ rtc (edge_rel g) w id) as (w & He & Hw).
    { inversion Hc as [? ? He|? w ? He Hw]; subst; [by exists id|]. exists w. split; [done|by apply tc_rtc]. }
    destruct (decide (w = id)) as [->|Hne]; [by right|left].
    assert (w ∈ top ++ [id]) as [Hin|?%list_elem_of_singleton]%elem_of_app; [| |done].
    + apply (popped_mutual w Hll). split; [by apply rtc_once|done].
    + clear -Hin. destruct top; [by apply not_elem_of_nil in Hin|simpl; lia].
Qed.

Lemma components_pop t' : l = t_index s →
  t_stack t' = t_stack s → t_indices t' = t_indices t →
  t_cycles t' = (if bool_decide (1 < length (top ++ [id])) || has_self_loop id g
                 then [sort_strings (top ++ [id])] else []) ++ t_cycles t →
  components path t'.
Proof using All.
  intros Hll Hst' Hix' Hcy. pose proof (sl_components _ _ _ _ Hloop) as Hc.
  assert (∀ v, closed t' v ↔ closed t v ∨ v ∈ top ++ [id]) as Hcl.
  { intros v. unfold closed. rewrite Hst', Hix', elem_of_closing. split.
    - intros [Hv Hvs]. destruct (decide (v ∈ top ++ [id])); [by right|left; tauto].
    - intros [[? ?]|Hv]; [tauto|]. destruct (co_indexed t Ht v) as [j Hj]; [apply elem_of_closing; by left|].
      split; [by eexists|]. intros Hin. pose proof (above_index v j Hv Hj). pose proof (below_index v j Hin Hj). lia. }
  assert (∀ v, v ∈ t_stack s → v ∈ t_stack t) as Hsub by (intros v Hv; apply elem_of_closing; by right).
  split.
  - intros x Hx. rewrite Hst'. by apply Hpath.
  - intros x y i j. rewrite Hst', Hix'. intros Hx Hy. by apply (cp_down _ _ Hc); apply Hsub.
  - intros y j. rewrite Hst', Hix'. intros Hy Hj.
    destruct (cp_up _ _ Hc y j (Hsub y Hy) Hj) as (x & i & [->|Hx]%elem_of_cons & Hi & Hle & Hr); [|eauto 10].
    pose proof (below_index y j Hy Hj). rewrite Hix in Hi. simplify_eq. lia.
  - rewrite Hix'. apply closing_indexed.
  - intros v w [Hv|Hv]%Hcl Hvw; apply Hcl; [left; by eapply (cp_closed _ _ Hc)|].
    apply (popped_mutual v Hll) in Hv as [Hiv Hvi].
    destruct (popped_reach w Hll) as [?|?]; [by eapply rtc_r|right|left]; done.
  - intros c. rewrite Hcy. intros [Hin|Hin]%elem_of_app.
    2:{ destruct (cp_sound _ _ Hc c Hin) as [? Hall]. split; [done|]. intros u Hu. apply Hcl. left. by apply Hall. }
    destruct (_ || _) eqn:Hrep; [|by apply not_elem_of_nil in Hin]. apply list_elem_of_singleton in Hin as ->.
    apply (popped_cyclic Hll) in Hrep. split; [split_and!|].
    + apply sort_strings_sorted.
    + rewrite sort_strings_perm. apply popped_nodup.
    + exists id. split; [done|]. intros u. rewrite elem_of_sort_strings. by apply popped_mutual.
    + intros u Hu. rewrite elem_of_sort_strings in Hu. apply Hcl. by right.
  - intros v [Hv|Hv]%Hcl Hcyc; rewrite Hcy.
    + destruct (cp_complete _ _ Hc v Hv Hcyc) as (c & ? & ?). exists c. split; [|done]. apply elem_of_app. right. done.
    + apply (popped_mutual v Hll) in Hv as Hm. destruct Hm as [Hiv Hvi].
      assert (tc (edge_rel g) id id) as Hrep%(popped_cyclic Hll).
      { eapply tc_rtc_l; [exact Hiv|]. by eapply tc_rtc_r. }
      rewrite Hrep. exists (sort_strings (top ++ [id])). split; [left|]. by apply elem_of_sort_strings.
  - rewrite Hcy, join_app. apply NoDup_app. split_and!; [| |apply (cp_nodup _ _ Hc)].
    + destruct (_ || _); [|apply NoDup_nil_2]. simpl. rewrite (right_id_L [] (++)), sort_strings_perm. apply popped_nodup.
    + intros v Hin (c & Hv & Hold)%list_elem_of_join. destruct (cp_sound _ _ Hc _ Hold) as [_ Hall].
      destruct (Hall v Hv) as [_ []]. apply elem_of_closing. left.
      destruct (_ || _); [|by apply not_elem_of_nil in Hin]. simpl in Hin.
      by rewrite (right_id_L [] (++)), elem_of_sort_strings in Hin.
Qed.
End closing.

(** Closing [id] after the loop. *)
Lemma scc_close id s t path :
  loop_inv id s (sort_strings (successors g id)) t → search_inv s → components path s →
  (∀ x, x ∈ path → rtc (edge_rel g) x id) → scc_loop id s path t →
  components path (close_node g id t) ∧ low_spec id s (close_node g id t).
Proof.
  intros [[Hco _ _ _] Hext (top & Hst) Hix (l & Hl & Hle & Hlow) Hvis] Hs Hcs Hacc Hloop.
  pose proof (si_coherent s Hs) as Hcos.
  assert (∀ v, edge_rel g id v → is_Some (t_indices t !! v)) as Hvis'
    by (intros v Hv; apply Hvis; by rewrite elem_of_sort_strings).
  assert (∀ v i, edge_rel g id v → v ∈ t_stack s → t_indices t !! v = Some i → l ≤ i) as Hlow'
    by (intros v i Hv; apply Hlow; by rewrite elem_of_sort_strings).
  pose proof (cp_path _ _ Hcs) as Hpath.
  destruct (close_node_cases g id t top (t_stack s) Hco Hst) as [_ [[Hne ->]|(Heq & Cst & Cix & Clow & _ & _ & Ccy)]].
  - assert (l < t_index s) as Hlt by (destruct (decide (l = t_index s)) as [->|]; [congruence|lia]).
    split; [by eapply components_stay|]. destruct (sl_low _ _ _ _ Hloop) as (l' & y & Hl' & Hy).
    assert (l' = l) as -> by congruence. exists l. split_and!; [done|right; eauto|].
    intros x w i Hx Hxs Hxw Hw Hi. by eapply closing_edges.
  - assert (l = t_index s) as Hll by congruence. split; [by apply (components_pop id s t path top Hcos Hco Hext Hst Hix Hpath Hacc Hloop Hvis' l Hl Hlow')|].
    exists l. rewrite Clow, Cst. split_and!; [done|left|done].
    split; [by apply (id_not_below id s t)|done].
Qed.

Context (HU : ∀ u v, v ∈ successors g u → v ∈ U).

(** What one call needs of the state it starts in: the open calls reach it. *)
Definition call_pre (path : list NodeId) (id : NodeId) (s : TarjanState) : Prop :=
  search_inv s ∧ t_indices s !! id = None ∧ components path s ∧ ∀ x, x ∈ path → rtc (edge_rel g) x id.

(** One call on an unvisited node: with fuel for every unvisited node it
    returns, keeps the invariants, and only adds to what was visited. *)
Lemma strong_connect_spec fuel id s path :
  call_pre path id s → id ∈ U → size (U ∖ dom (t_indices s)) ≤ fuel →
  ∃ s', strong_connect fuel g id s = Ok s' ∧ search_inv s' ∧ extends s s' ∧
        t_indices s' !! id = Some (t_index s) ∧
        (t_stack s = [] → t_index s = n0 → t_stack s' = []) ∧ components path s' ∧ low_spec id s s'.
Proof using HU.
  revert id s path. induction fuel as [|fuel IH]; intros id s path (Hs & Hid & Hcs & Hacc) HidU Hfuel.
  { apply not_elem_of_dom in Hid.
    pose proof (unvisited_size U (dom (t_indices s)) ({[id]} ∪ dom (t_indices s)) id
                  ltac:(set_solver) ltac:(set_solver) Hid HidU). lia. }
  cbn [strong_connect].
  match goal with |- context [try_fold ?F _ _] =>
    destruct (try_fold_total F (λ visited t, loop_inv id s visited t ∧ scc_loop id s path t)
      (open_node id s) (sort_strings (successors g id))) as (t & -> & Ht & Hq) end.
  { split; [by apply loop_inv_open|]. apply scc_loop_open; [done|by apply si_coherent|done|done]. }
  2:{ cbn [mbind Result_bind]. exists (close_node g id t). split; [done|].
      destruct (loop_inv_close id s t Ht Hs) as (H1 & H2 & H3 & H4).
      destruct (scc_close id s t path Ht Hs Hcs Hacc Hq) as [H5 H6]. by split_and!. }
  intros visited v t [Ht Hq] Hv. rewrite elem_of_sort_strings in Hv.
  pose proof (HU _ _ Hv) as HvU. pose proof (li_inv _ _ _ _ Ht) as Hinv.
  destruct (li_low _ _ _ _ Ht) as (l & Hl & Hle & _).
  assert (n0 ≤ t_index s) as Hn0 by apply Hs.
  destruct (t_indices t !! v) as [i|] eqn:Hvi.
  - destruct (default false (t_on_stack t !! v)) eqn:Hon.
    + apply (co_flag t (si_coherent t Hinv)) in Hon.
      cbn [ok_or mbind Result_bind]. rewrite Hl. cbn [ok_or mbind Result_bind].
      eexists. split; [done|]. split.
      * eapply loop_inv_lower; eauto; [|intros; by simplify_eq].
        by eapply (ab_stack t (si_above t Hinv) v).
      * apply scc_loop_lower; [done|done|]. intros _. exists v. split_and!; [done|done|by apply rtc_once].
    + eexists. split; [done|]. split; [|done]. eapply loop_inv_skip; eauto.
      rewrite <-(co_flag t (si_coherent t Hinv)). by rewrite Hon.
  - destruct (IH v t (id :: path)) as (t' & -> & Hinv' & Hext' & Hvi' & _ & Hct & Hlow).
    { split_and!; [done|done|by apply Hq|]. intros x [->|Hx]%elem_of_cons; [by apply rtc_once|].
      eapply rtc_r; [by apply Hacc|done]. }
    { done. }
    { apply not_elem_of_dom in Hid.
      pose proof (unvisited_size U (dom (t_indices s)) (dom (t_indices t)) id) as Hsz.
      rewrite elem_of_dom, (li_index _ _ _ _ Ht) in Hsz.
      pose proof (subseteq_dom _ _ (ex_indices _ _ (li_extends _ _ _ _ Ht))).
      assert (size (U ∖ dom (t_indices t)) < size (U ∖ dom (t_indices s))); [|lia].
      apply Hsz; eauto. }
    cbn [mbind Result_bind].
    pose proof (loop_inv_call _ _ _ _ _ Ht Hext' Hinv') as Ht'.
    destruct Hlow as (lv & Hlv & Hlow). rewrite Hlv. cbn [ok_or mbind Result_bind].
    pose proof (ex_low _ _ Hext' id l Hl) as Hl'. rewrite Hl'. cbn [ok_or mbind Result_bind].
    eexists. split; [done|]. split.
    + eapply loop_inv_lower; eauto.
      * eapply (ab_low t' (si_above t' Hinv') v); [done|apply Hinv|done].
      * intros i Hvs. exfalso.
        destruct (co_indexed s (si_coherent s Hs) v Hvs) as [j Hj].
        pose proof (lookup_weaken _ _ _ _ Hj (ex_indices _ _ (li_extends _ _ _ _ Ht))). congruence.
    + pose proof (co_bound t (si_coherent t Hinv) id _ (li_index _ _ _ _ Ht)).
      eapply (scc_loop_call id s path t t' v l lv); [by apply si_coherent|done|apply Ht|done|done|by exists lv|done|done|done|lia].
Qed.
End search.

(** Every node of the graph and every target of an edge. *)
Definition universe (g : GovernanceGraph) : gset NodeId :=
  dom (nodes g) ∪ list_to_set (to <$> edges g).

Lemma size_universe g : size (universe g) ≤ size (nodes g) + length (edges g).
Proof.
  unfold universe. pose proof (size_union_alt (dom (nodes g)) (list_to_set (to <$> edges g))) as Hs.
  rewrite Hs, size_dom.
  assert (size (list_to_set (to <$> edges g) ∖ dom (nodes g) : gset NodeId)
          ≤ size (list_to_set (to <$> edges g) : gset NodeId)) by (apply subseteq_size; set_solver).
  pose proof (size_list_to_set_le (to <$> edges g)). rewrite length_fmap in *. lia.
Qed.

Lemma universe_successors g u v : v ∈ successors g u → v ∈ universe g.
Proof.
  rewrite elem_of_successors. unfold universe. intros (e & He & _ & <-).
  apply elem_of_union_r, elem_of_list_to_set, list_elem_of_fmap. eauto.
Qed.

(** The state between two top-level calls. *)
Record top_inv (g : GovernanceGraph) (visited : list NodeId) (s : TarjanState) : Prop := {
  ti_coherent : coherent s;
  ti_universe : dom (t_indices s) ⊆ universe g;
  ti_closed : closed_acc g s;
  ti_stack : t_stack s = [];
  ti_visited : ∀ v, v ∈ visited → is_Some (t_indices s !! v);
}.

Lemma top_inv_search g visited s : top_inv g visited s → search_inv g (universe g) (t_index s) s.
Proof.
  intros [Hco HdU Hcl Hst _]. split; [done..|]. split; [done|..].
  - intros v i Hv. rewrite Hst in Hv. by apply not_elem_of_nil in Hv.
  - intros v i l Hi Hle. pose proof (co_bound s Hco v i Hi). lia.
Qed.

Lemma components_default g : components g [] TarjanState_default.
Proof.
  assert (∀ v, ¬ is_Some (t_indices TarjanState_default !! v)) as Hno.
  { intros v [i Hi]. change (t_indices TarjanState_default) with (∅ : gmap NodeId nat) in Hi.
    by rewrite lookup_empty in Hi. }
  split.
  - by intros x ?%not_elem_of_nil.
  - by intros x y i j ?%not_elem_of_nil.
  - by intros y j ?%not_elem_of_nil.
  - by intros v w []%Hno.
  - by intros v w [[]%Hno _].
  - by intros c ?%not_elem_of_nil.
  - by intros v [[]%Hno _].
  - apply NoDup_nil_2.
Qed.

(** The whole search: it returns, every node was visited, the stack is empty. *)
Lemma detect_cycles_search g :
  ∃ s, detect_cycles g = Ok (merge_sort names_le (reverse (t_cycles s))) ∧
       top_inv g (btree_keys (nodes g)) s ∧ components g [] s.
Proof.
  unfold detect_cycles.
  match goal with |- context [try_fold ?F _ _] =>
    destruct (try_fold_total F (λ visited s, top_inv g visited s ∧ components g [] s)
      TarjanState_default (btree_keys (nodes g))) as (s & -> & Hs) end.
  - split; [|apply components_default].
    split; [apply coherent_default|simpl; rewrite dom_empty_L; apply empty_subseteq| |reflexivity|].
    + intros _ v [i Hi] _. change (t_indices TarjanState_default) with (∅ : gmap NodeId nat) in Hi.
      by rewrite lookup_empty in Hi.
    + intros v Hv. by apply not_elem_of_nil in Hv.
  - intros visited v s [Hs Hc] Hv%elem_of_btree_keys.
    destruct (t_indices s !! v) as [i|] eqn:Hvi.
    { eexists. split; [reflexivity|]. split; [|done]. destruct Hs as [H1 H2 H3 H4 Hvis].
      split; [exact H1|exact H2|exact H3|exact H4|].
      intros u [Hu| ->%list_elem_of_singleton]%elem_of_app; [by apply Hvis|by eexists]. }
    destruct (strong_connect_spec g (universe g) (t_index s) (universe_successors g)
                (S (size (nodes g) + length (edges g))) v s [])
      as (s' & Hs' & Hinv & Hext & Hv' & Hst & Hc' & _).
    { split_and!; [by eapply top_inv_search|done|done|by intros x ?%not_elem_of_nil]. }
    { apply elem_of_union_l, elem_of_dom. exact Hv. }
    { pose proof (size_universe g).
      assert (size (universe g ∖ dom (t_indices s)) ≤ size (universe g))
        by (apply subseteq_size; set_solver). lia. }
    exists s'. split; [exact Hs'|]. split; [|exact Hc']. destruct Hs as [Hco HdU Hcl Hst0 Hvis].
    destruct Hinv as [Hi1 Hi2 Hi3 _]. split; [exact Hi1|exact Hi2|exact Hi3|..].
    + apply Hst; [exact Hst0|reflexivity].
    + intros u [Hu| ->%list_elem_of_singleton]%elem_of_app; [|eauto].
      destruct (Hvis u Hu) as [j Hj]. exists j. by eapply lookup_weaken; [|apply Hext].
  - cbn [mbind Result_bind]. eauto.
Qed.

Lemma detect_cycles_empty s : merge_sort names_le (reverse (t_cycles s)) = [] → t_cycles s = [].
Proof.
  intros Hnil. apply Permutation_nil_r. rewrite <-Hnil.
  by rewrite merge_sort_Permutation, reverse_Permutation.
Qed.

Lemma cyclic_component_unique g c c' v :
  cyclic_component g c → cyclic_component g c' → v ∈ c → v ∈ c' → c = c'.
Proof.
  intros (Hs & Hn & x & _ & Hx) (Hs' & Hn' & y & _ & Hy) [Hxv Hvx]%Hx [Hyv Hvy]%Hy.
  apply (StronglySorted_unique String.le); [done..|]. apply NoDup_Permutation; [done..|].
  intros u. rewrite Hx, Hy. split; intros [H1 H2]; split.
  - transitivity v; [done|]. by transitivity x.
  - transitivity x; [done|]. by transitivity v.
  - transitivity v; [done|]. by transitivity y.
  - transitivity y; [done|]. by transitivity v.
Qed.

(** The reported lists are the components on a cycle. *)
Lemma detect_cycles_components g :
  graph_wf g →
  ∃ cycles, detect_cycles g = Ok cycles ∧ StronglySorted names_le cycles ∧ NoDup (mjoin cycles) ∧
    ∀ c, c ∈ cycles ↔ cyclic_component g c.
Proof.
  intros Hwf. destruct (detect_cycles_search g) as (s & Hd & Hs & Hc). eexists. split; [exact Hd|].
  assert (merge_sort names_le (reverse (t_cycles s)) ≡ₚ t_cycles s) as Hp
    by by rewrite merge_sort_Permutation, reverse_Permutation.
  split_and!; [apply StronglySorted_merge_sort; apply _|rewrite Hp; exact (cp_nodup _ _ _ Hc)|].
  intros c. rewrite Hp. split; [intros Hin; by apply (cp_sound _ _ _ Hc c)|].
  intros Hcc. pose proof Hcc as (_ & _ & v & Hv & Hmem).
  destruct (cp_complete _ _ _ Hc v) as (c' & Hc' & Hvc'); [split|done|].
  - apply (ti_visited _ _ _ Hs), elem_of_btree_keys.
    assert (∃ w, edge_rel g v w) as (w & (e & He & <- & _)%elem_of_successors) by (inversion Hv; subst; eauto).
    by apply (graph_wf_edges g Hwf).
  - rewrite (ti_stack _ _ _ Hs). apply not_elem_of_nil.
  - assert (c = c') as ->; [|done]. apply (cyclic_component_unique g c c' v); [done| |by apply Hmem|done].
    by apply (cp_sound _ _ _ Hc c').
Qed.

Lemma detect_cycles_sound g : acyclic g → detect_cycles g = Ok [].
Proof.
  intros Hac. destruct (detect_cycles_search g) as (s & -> & _ & Hc). f_equal.
  destruct (t_cycles s) as [|c cycles] eqn:Hcy; [done|].
  destruct (cp_sound _ _ _ Hc c) as [(_ & _ & v & Hv & _) _]; [rewrite Hcy; left|]. by destruct (Hac v).
Qed.

(** In a graph without reported cycle the search order is well-founded. *)
Lemma detect_cycles_Acc g :
  graph_wf g → detect_cycles g = Ok [] → ∀ v, Acc (flip (edge_rel g)) v.
Proof.
  intros Hwf Hd. destruct (detect_cycles_search g) as (s & Heq & Hs & _).
  rewrite Heq in Hd. injection Hd as Hnil. apply detect_cycles_empty in Hnil.
  assert (∀ v, is_Some (nodes g !! v) → Acc (flip (edge_rel g)) v) as Hn.
  { intros v Hv. apply (ti_closed _ _ _ Hs Hnil).
    - by apply (ti_visited _ _ _ Hs), elem_of_btree_keys.
    - rewrite (ti_stack _ _ _ Hs). apply not_elem_of_nil. }
  intros v. destruct (nodes g !! v) as [n|] eqn:Hv; [apply Hn; eauto|].
  constructor. intros w Hw. red in Hw. apply elem_of_successors in Hw as (e & He & Hf & _).
  apply (graph_wf_edges g Hwf) in He as [[? He] _]. congruence.
Qed.

Lemma detect_cycles_nil_acyclic g : graph_wf g → detect_cycles g = Ok [] → acyclic g.
Proof. intros Hwf Hd v. by apply Acc_no_cycle, detect_cycles_Acc. Qed.

(* ------------------------------------------------------------------ *)
(** ** Properties *)

(** C40: cycle detection always returns: the fuel of the model is enough for
    every graph, well-formed or not, and no error return of the search is ever
    taken. *)
Theorem detect_cycles_total g : ∃ cycles, detect_cycles g = Ok cycles.
Proof. destruct (detect_cycles_search g) as (s & -> & _). eauto. Qed.

(** C21: cycle detection is exact: on a graph whose edges join existing nodes it
    reports, in order and each node at most once, the strongly connected
    components of the nodes on a cycle, all of them and nothing else; so it
    reports nothing if and only if the graph is acyclic. *)
Theorem detect_cycles_exact g :
  graph_wf g →
  ∃ cycles, detect_cycles g = Ok cycles ∧ StronglySorted names_le cycles ∧ NoDup (mjoin cycles) ∧
    (∀ c, c ∈ cycles ↔ cyclic_component g c) ∧ (cycles = [] ↔ acyclic g).
Proof.
  intros Hwf. destruct (detect_cycles_components g Hwf) as (cycles & Hd & Hs & Hn & Hc).
  exists cycles. split_and!; [done..|]. split.
  - intros ->. by apply detect_cycles_nil_acyclic.
  - intros Hac%detect_cycles_sound. congruence.
Qed.
