(* ===== verification/GraphTraverse.v ===== *)
(** * Traversal of an acyclic governance graph (src/graph/traverse.rs)

    Topological order, evaluation of every node on the claims forwarded to it,
    edge transforms, merging of feeds and the final decision of each claim.
    [SharedClaim = Arc<GovernanceClaim>] is the claim: nothing mutates through
    the pointer.  Hash maps are [gmap]s.  The work-list loop of
    [topological_order] is on fuel, one unit per node and per edge. *)

From S2P Require Import Prelude F64 Errors Core GraphNode Tarjan.
From stdpp Require Import options.

Abbreviation SharedClaim := GovernanceClaim.

(** An arithmetic overflow or an out-of-range index panics; the theorems below
    show that none happens. *)
Definition panicked (what : string) : LegitimacyError := InvalidInput [Txt what].

Record TraversalResult := mkTraversalResult {
  entry_nodes : list NodeId;
  node_decisions : gmap NodeId (list ClaimDecision);
  final_decisions : gmap string Decision;
  cycles : list (list NodeId);
}.

(* ------------------------------------------------------------------ *)
(** ** Edges and order *)

Definition incoming_counts (graph : GovernanceGraph) : gmap NodeId nat :=
  let counts := foldl (λ counts id, <[id := 0]> counts) ∅ (btree_keys (nodes graph)) in
  foldl (λ counts edge, <[to edge := S (default 0 (counts !! to edge))]> counts)
    counts (edges graph).

Definition outgoing_edges (graph : GovernanceGraph) : gmap NodeId (list GovernanceEdge) :=
  foldl (λ outgoing edge,
    <[from edge := default [] (outgoing !! from edge) ++ [edge]]> outgoing) ∅ (edges graph).

(** One edge leaving the node just ordered: its target loses one incoming edge
    and is queued when none is left. *)
Definition relax_edge (st : gmap NodeId nat * gset NodeId) (edge : GovernanceEdge)
    : LResult (gmap NodeId nat * gset NodeId) :=
  let '(counts, queue) := st in
  count ← ok_or (counts !! to edge) (InvalidEdgeReference (to edge));
  match count with
  | O => Err (panicked "attempt to subtract with overflow")
  | S count =>
      let counts := <[to edge := count]> counts in
      Ok (counts, if bool_decide (count = 0) then {[to edge]} ∪ queue else queue)
  end.

(** [while let Some(node_id) = queue.pop_first()] *)
Fixpoint topological_loop (fuel : nat) (graph : GovernanceGraph) (counts : gmap NodeId nat)
    (queue : gset NodeId) (order : list NodeId) : LResult (list NodeId) :=
  match bset_iter queue with
  | [] => Ok order
  | id :: _ =>
      match fuel with
      | O => Err out_of_fuel
      | S fuel =>
          st ← try_fold relax_edge (counts, queue ∖ {[id]})
                 (filter (λ edge, from edge = id) (edges graph));
          topological_loop fuel graph st.1 st.2 (order ++ [id])
      end
  end.

Definition topological_order (graph : GovernanceGraph) (incoming_counts : gmap NodeId nat)
    : LResult (list NodeId) :=
  let queue := list_to_set (filter (λ id, default 0 (incoming_counts !! id) = 0)
                              (btree_keys (nodes graph))) in
  order ← topological_loop (size (nodes graph) + length (edges graph)) graph incoming_counts queue [];
  if decide (length order = size (nodes graph)) then Ok order
  else
    cycles ← detect_cycles graph;
    match cycles with
    | cycle :: _ => Err (CycleError cycle)
    | [] => Ok order
    end.

(* ------------------------------------------------------------------ *)
(** ** Transforms and feeds *)

Definition strengthen (claim : GovernanceClaim) (delta : f64) : GovernanceClaim :=
  mkGovernanceClaim (gc_claimant_id claim) (f64_add (gc_strength claim) delta)
    (gc_priority_class claim) (gc_path claim) (gc_action claim) (gc_content claim)
    (gc_metrics claim).

Definition apply_transform_shared (transform : EdgeTransform) (claims : list SharedClaim)
    (decisions : list ClaimDecision) : LResult (list SharedClaim) :=
  match transform with
  | PassThrough => Ok claims
  | ClaimModification delta =>
      try_map (λ '(claim, decision),
        if bool_decide (cd_claimant_id decision = gc_claimant_id claim)
           && is_permit (cd_decision decision) then
          let transformed := strengthen claim delta in
          _ ← validate_governance_claim transformed;
          Ok transformed
        else Ok claim) (zip claims decisions)
  end.

Definition apply_transform (transform : EdgeTransform) (claims : list GovernanceClaim)
    (decisions : list ClaimDecision) : LResult (list GovernanceClaim) :=
  match transform with
  | PassThrough => Ok claims
  | ClaimModification delta =>
      try_map (λ '(claim, decision),
        if bool_decide (cd_claimant_id decision = gc_claimant_id claim)
           && is_permit (cd_decision decision) then
          let transformed := strengthen claim delta in
          _ ← validate_governance_claim transformed;
          Ok transformed
        else Ok claim) (zip claims decisions)
  end.

Definition forwarded_claims (claims : list GovernanceClaim) (decisions : list ClaimDecision)
    : list GovernanceClaim :=
  (filter (λ p, cd_claimant_id p.2 = gc_claimant_id p.1 ∧ cd_decision p.2 = Escalate)
     (zip claims decisions)).*1.

Definition forwarded_shared_claims (claims : list SharedClaim) (decisions : list ClaimDecision)
    : list SharedClaim :=
  (filter (λ p, cd_claimant_id p.2 = gc_claimant_id p.1 ∧ cd_decision p.2 = Escalate)
     (zip claims decisions)).*1.

(** One claim of the second loop of [merge_shared_claim_batches]; the state is
    the batch [incoming] and the position of each claimant in it. *)
Definition merge_shared_claim (node_id : NodeId)
    (st : list SharedClaim * gmap string nat) (claim : SharedClaim)
    : LResult (list SharedClaim * gmap string nat) :=
  let '(incoming, merged) := st in
  match merged !! gc_claimant_id claim with
  | Some index =>
      existing ← ok_or (incoming !! index) (panicked "index out of bounds");
      if claim_eqb existing claim then Ok (incoming, merged)
      else Err (ConflictingClaimFeed node_id (gc_claimant_id claim))
  | None =>
      Ok (incoming ++ [claim], <[gc_claimant_id claim := length incoming]> merged)
  end.

(** The positions of the claimants of a batch. *)
Definition batch_positions (incoming : list SharedClaim) : gmap string nat :=
  foldl (λ merged ic, <[gc_claimant_id ic.2 := ic.1]> merged) ∅
    (zip (seq 0 (length incoming)) incoming).

Definition merge_shared_claim_batches (node_id : NodeId) (incoming additional : list SharedClaim)
    : LResult (list SharedClaim) :=
  st ← try_fold (merge_shared_claim node_id) (incoming, batch_positions incoming) additional;
  Ok st.1.

(* ------------------------------------------------------------------ *)
(** ** Final decisions *)

Definition merge_final_decision (left right : Decision) : Decision :=
  if bool_decide (decision_rank left ≤ decision_rank right) then left else right.

(** One decision of [record_final_decisions]. *)
Definition record_final_decision (has_outgoing : bool) (final_decisions : gmap string Decision)
    (decision : ClaimDecision) : gmap string Decision :=
  if is_escalate (cd_decision decision) && has_outgoing then final_decisions
  else
    let claimant_id := cd_claimant_id decision in
    let merged :=
      match final_decisions !! claimant_id with
      | Some existing => merge_final_decision existing (cd_decision decision)
      | None => cd_decision decision
      end in
    <[claimant_id := merged]> final_decisions.

Definition record_final_decisions (final_decisions : gmap string Decision)
    (decisions : list ClaimDecision) (has_outgoing : bool) : gmap string Decision :=
  foldl (record_final_decision has_outgoing) final_decisions decisions.

(* ------------------------------------------------------------------ *)
(** ** The traversal *)

(** How a node is evaluated on its batch, and how a feed is merged into a queue. *)
Abbreviation EvaluateFn := (GovernanceNode → list SharedClaim → LResult (list ClaimDecision)).
Abbreviation MergeFn := (NodeId → list SharedClaim → list SharedClaim → LResult (list SharedClaim)).

Section traverse.
Context `{RegexEngine}.

(** The mutable state of the main loop of [traverse_claims]. *)
Record TraverseState := mkTraverseState {
  ts_queued : gmap NodeId (list SharedClaim);
  ts_final : gmap string Decision;
  ts_nodes : option (gmap NodeId (list ClaimDecision));
}.

(** Send the forwarded claims along one edge. *)
Definition send_along (merge : MergeFn) (forwarded : list SharedClaim)
    (decisions : list ClaimDecision) (queued : gmap NodeId (list SharedClaim))
    (edge : GovernanceEdge) : LResult (gmap NodeId (list SharedClaim)) :=
  transformed ← apply_transform_shared (transform edge) forwarded decisions;
  merged ← merge (to edge) (default [] (queued !! to edge)) transformed;
  Ok (<[to edge := merged]> queued).

(** One iteration of [for node_id in order]; the source has this loop twice, with
    two evaluators of a node and two merges of a feed. *)
Definition visit_with (evaluate : EvaluateFn) (merge : MergeFn) (graph : GovernanceGraph)
    (outgoing : gmap NodeId (list GovernanceEdge)) (st : TraverseState) (id : NodeId)
    : LResult TraverseState :=
  node ← ok_or (nodes graph !! id) (InvalidEdgeReference id);
  let current_claims := default [] (ts_queued st !! id) in
  let queued := delete id (ts_queued st) in
  decisions ← evaluate node current_claims;
  let has_outgoing :=
    match outgoing !! id with Some edges => negb (bool_decide (edges = [])) | None => false end in
  let final := record_final_decisions (ts_final st) decisions has_outgoing in
  let forwarded := forwarded_shared_claims current_claims decisions in
  let node_decisions := (λ m, <[id := decisions]> m) <$> ts_nodes st in
  queued ← try_fold (send_along merge forwarded decisions) queued (default [] (outgoing !! id));
  Ok (mkTraverseState queued final node_decisions).

Definition visit_node (graph : GovernanceGraph) (outgoing : gmap NodeId (list GovernanceEdge))
    (st : TraverseState) (id : NodeId) : LResult TraverseState :=
  visit_with evaluate_node_validated merge_shared_claim_batches graph outgoing st id.

(** The nodes without an incoming edge, in order. *)
Definition entry_node_list (graph : GovernanceGraph) (counts : gmap NodeId nat) : list NodeId :=
  sort_strings (filter (λ id, default 0 (counts !! id) = 0) (btree_keys (nodes graph))).

Definition traverse_claims (graph : GovernanceGraph) (claims : list GovernanceClaim)
    (capture_node_decisions : bool)
    : LResult (list NodeId * gmap string Decision * option (gmap NodeId (list ClaimDecision))) :=
  _ ← validate_governance_claims claims;
  cycles ← detect_cycles graph;
  match cycles with
  | cycle :: _ => Err (CycleError cycle)
  | [] =>
      let counts := incoming_counts graph in
      let entry_nodes := entry_node_list graph counts in
      if bool_decide (nodes graph = ∅) || bool_decide (entry_nodes = [])
      then Err NoEntryNodes
      else
        order ← topological_order graph counts;
        let queued := foldl (λ queued id, <[id := claims]> queued) ∅ entry_nodes in
        st ← try_fold (visit_node graph (outgoing_edges graph))
               (mkTraverseState queued ∅ (if capture_node_decisions then Some ∅ else None)) order;
        Ok (entry_nodes, ts_final st, ts_nodes st)
  end.

Definition traverse_final_decisions (graph : GovernanceGraph) (claims : list GovernanceClaim)
    : LResult (gmap string Decision) :=
  r ← traverse_claims graph claims false; Ok r.1.2.

Definition traverse (graph : GovernanceGraph) (claims : list GovernanceClaim)
    : LResult TraversalResult :=
  r ← traverse_claims graph claims true;
  Ok (mkTraversalResult r.1.1 (default ∅ r.2) r.1.2 []).

End traverse.

(* ------------------------------------------------------------------ *)
(** ** Counts, outgoing edges *)

(** Number of the edges of a list that lead to [v]. *)
Definition edges_to (es : list GovernanceEdge) (v : NodeId) : nat :=
  length (filter (λ e, to e = v) es).

Lemma edges_to_cons e es v :
  edges_to (e :: es) v = (if decide (to e = v) then 1 else 0) + edges_to es v.
Proof. unfold edges_to. rewrite filter_cons. by case_decide. Qed.

Lemma edges_to_app es es' v : edges_to (es ++ es') v = edges_to es v + edges_to es' v.
Proof. unfold edges_to. by rewrite filter_app, length_app. Qed.

Lemma edges_to_0 es v : edges_to es v = 0 ↔ ∀ e, e ∈ es → to e ≠ v.
Proof.
  induction es as [|e es IH].
  - split; [|done]. intros _ e He. by apply not_elem_of_nil in He.
  - rewrite edges_to_cons. split.
    + intros H e' [->|He']%elem_of_cons; [case_decide; [lia|done]|].
      apply IH; [lia|done].
    + intros H. rewrite decide_False by (apply H; left). apply IH. intros e' He'. apply H. by right.
Qed.

Lemma incoming_counts_lookup g v :
  default 0 (incoming_counts g !! v) = edges_to (edges g) v ∧
  (is_Some (nodes g !! v) → is_Some (incoming_counts g !! v)).
Proof.
  unfold incoming_counts.
  set (c0 := foldl (λ (counts : gmap NodeId nat) (id : NodeId), <[id := 0]> counts) ∅
               (btree_keys (nodes g))).
  assert (∀ l (m : gmap NodeId nat), foldl (λ counts id, <[id := 0]> counts) m l !! v =
            if decide (v ∈ l) then Some 0 else m !! v) as Hc0.
  { induction l as [|x l IH]; intros m; simpl; [done|]. rewrite IH, lookup_insert.
    destruct (decide (x = v)); destruct (decide (v ∈ l)); destruct (decide (v ∈ x :: l)); set_solver. }
  assert (∀ es m, let m' := foldl (λ (counts : gmap NodeId nat) edge,
      <[to edge := S (default 0 (counts !! to edge))]> counts) m es in
    default 0 (m' !! v) = default 0 (m !! v) + edges_to es v ∧
    (is_Some (m !! v) → is_Some (m' !! v))) as Hes.
  { induction es as [|e es IH]; intros m; simpl; [unfold edges_to; simpl; auto|].
    rewrite edges_to_cons.
    destruct (IH (<[to e := S (default 0 (m !! to e))]> m)) as [H1 H2]. rewrite H1. split.
    - rewrite lookup_insert. case_decide; subst; simpl; lia.
    - intros Hm. apply H2. rewrite lookup_insert. case_decide; eauto. }
  destruct (Hes (edges g) c0) as [H1 H2]. rewrite H1. unfold c0 in *. rewrite Hc0 in *.
  rewrite lookup_empty in *. split.
  - by case_decide.
  - intros Hv. apply H2. rewrite decide_True; [eauto|]. by apply elem_of_btree_keys.
Qed.

Lemma incoming_counts_node g v :
  is_Some (nodes g !! v) → incoming_counts g !! v = Some (edges_to (edges g) v).
Proof.
  intros Hv. destruct (incoming_counts_lookup g v) as [H1 H2]. destruct (H2 Hv) as [n Hn].
  rewrite Hn in *. simpl in H1. congruence.
Qed.

Lemma outgoing_edges_lookup g v :
  default [] (outgoing_edges g !! v) = filter (λ e, from e = v) (edges g).
Proof.
  unfold outgoing_edges.
  assert (∀ es (m : gmap NodeId (list GovernanceEdge)),
    default [] (foldl (λ outgoing edge,
      <[from edge := default [] (outgoing !! from edge) ++ [edge]]> outgoing) m es !! v)
    = default [] (m !! v) ++ filter (λ e, from e = v) es) as H.
  { induction es as [|e es IH]; intros m; simpl; [by rewrite app_nil_r|].
    rewrite IH, lookup_insert, filter_cons. case_decide; [subst; simpl|done].
    by rewrite <-app_assoc. }
  by rewrite H, lookup_empty.
Qed.

(* ------------------------------------------------------------------ *)
(** ** The topological order *)

Section topological.
Context (g : GovernanceGraph).

(** Edges into [v] whose source is not ordered yet. *)
Definition pending (order : list NodeId) (v : NodeId) : nat :=
  edges_to (filter (λ e, from e ∉ order) (edges g)) v.

Lemma pending_0 order v :
  pending order v = 0 ↔ ∀ u, edge_rel g u v → u ∈ order.
Proof.
  unfold pending. rewrite edges_to_0. split.
  - intros H u (e & He & <- & <-)%elem_of_successors.
    destruct (decide (from e ∈ order)); [done|]. destruct (H e); [|done].
    by apply list_elem_of_filter.
  - intros H e [Hn He]%list_elem_of_filter <-. apply Hn, H, elem_of_successors. eauto.
Qed.

Lemma pending_snoc order x v :
  x ∉ order →
  pending order v = pending (order ++ [x]) v + edges_to (filter (λ e, from e = x) (edges g)) v.
Proof.
  intros Hx. unfold pending. induction (edges g) as [|e es IH]; [done|].
  rewrite !filter_cons.
  destruct (decide (from e = x)) as [->|Hne].
  - rewrite (decide_True (P := x ∉ order)) by done.
    rewrite (decide_False (P := x ∉ order ++ [x])) by set_solver.
    rewrite !edges_to_cons, IH. lia.
  - destruct (decide (from e ∉ order)).
    + rewrite (decide_True (P := from e ∉ order ++ [x])) by set_solver.
      rewrite !edges_to_cons, IH. lia.
    + rewrite (decide_False (P := from e ∉ order ++ [x])) by set_solver. done.
Qed.

(** The state of the work list after [order], with [extra] edges of the current
    node still to be relaxed. *)
Record kahn (order : list NodeId) (extra : list GovernanceEdge) (counts : gmap NodeId nat)
    (queue : gset NodeId) : Prop := {
  kahn_counts : ∀ v, is_Some (nodes g !! v) →
    counts !! v = Some (pending order v + edges_to extra v);
  kahn_zero : ∀ v, is_Some (nodes g !! v) →
    (v ∈ order ∨ v ∈ queue) ↔ pending order v + edges_to extra v = 0;
  kahn_disj : ∀ v, v ∈ queue → v ∉ order;
  kahn_nodes : ∀ v, v ∈ order ∨ v ∈ queue → is_Some (nodes g !! v);
}.

(** Ordering a queued node: its edges are now to be relaxed. *)
Lemma kahn_pop order counts queue x :
  kahn order [] counts queue → x ∈ queue →
  kahn (order ++ [x]) (filter (λ e, from e = x) (edges g)) counts (queue ∖ {[x]}).
Proof.
  intros [Hc Hz Hd Hn] Hq. assert (x ∉ order) as Hx by auto. split.
  - intros v Hv. rewrite <-pending_snoc by done. rewrite (Hc v Hv). by rewrite Nat.add_0_r.
  - intros v Hv. rewrite <-pending_snoc by done. rewrite <-(Nat.add_0_r (pending order v)).
    change 0 with (edges_to [] v) at 1. rewrite <-(Hz v Hv).
    destruct (decide (v = x)); set_solver.
  - intros v. set_solver.
  - intros v Hv. apply Hn. set_solver.
Qed.

(** A queued node has all its predecessors ordered. *)
Lemma kahn_ready order counts queue v :
  kahn order [] counts queue → is_Some (nodes g !! v) →
  (v ∈ order ∨ v ∈ queue) ↔ ∀ u, edge_rel g u v → u ∈ order.
Proof.
  intros Hk Hv. rewrite (kahn_zero _ _ _ _ Hk v Hv), Nat.add_0_r. apply pending_0.
Qed.

Context (Hwf : graph_wf g).

(** Relaxing one edge: its target is waiting, and is queued with its last edge. *)
Lemma relax_one_spec order e extra counts queue :
  e ∈ edges g → kahn order (e :: extra) counts queue →
  ∃ count, counts !! to e = Some (S count) ∧ to e ∉ queue ∧
    kahn order extra (<[to e := count]> counts) (if bool_decide (count = 0) then {[to e]} ∪ queue else queue).
Proof using Hwf.
  intros Hin [Hc Hz Hd Hn]. destruct (graph_wf_edges g Hwf e Hin) as [_ Hto].
  assert (∀ v, edges_to (e :: extra) v = (if decide (to e = v) then 1 else 0) + edges_to extra v)
    as Hcons by (intros; apply edges_to_cons).
  assert (edges_to (e :: extra) (to e) = S (edges_to extra (to e))) as He.
  { rewrite Hcons. by rewrite decide_True. }
  exists (pending order (to e) + edges_to extra (to e)).
  rewrite (Hc _ Hto), He, Nat.add_succ_r. split; [done|].
  assert ((to e ∉ order) ∧ (to e ∉ queue)) as [Hno Hnq].
  { split; intros Hx; assert (pending order (to e) + edges_to (e :: extra) (to e) = 0)
      by (apply Hz; auto); lia. }
  split; [done|]. split.
  - intros v Hv. rewrite lookup_insert. case_decide; [by subst|].
    rewrite (Hc _ Hv), Hcons, decide_False by done. done.
  - intros v Hv. specialize (Hz v Hv). rewrite Hcons in Hz.
    destruct (decide (to e = v)) as [<-|Hne].
    + case_bool_decide; [set_solver|]. intuition lia.
    + assert (v ∈ (if bool_decide (pending order (to e) + edges_to extra (to e) = 0)
                   then {[to e]} ∪ queue else queue) ↔ v ∈ queue) as ->; [|done].
      case_bool_decide; set_solver.
  - intros v. case_bool_decide; [|apply Hd]. intros [->%elem_of_singleton|Hq]%elem_of_union; auto.
  - intros v. case_bool_decide; [|apply Hn].
    intros [Hv|[->%elem_of_singleton|Hq]%elem_of_union]; auto.
Qed.

(** Relaxing the edges of the node just ordered. *)
Lemma relax_edges_spec order extra counts queue :
  (∀ e, e ∈ extra → e ∈ edges g) → kahn order extra counts queue →
  ∃ counts' queue', try_fold relax_edge (counts, queue) extra = Ok (counts', queue') ∧
    kahn order [] counts' queue'.
Proof using Hwf.
  revert counts queue. induction extra as [|e extra IH]; intros counts queue Hin Hk; simpl.
  { eauto. }
  destruct (relax_one_spec order e extra counts queue) as (count & Hl & _ & Hk'); [apply Hin; left|done|].
  rewrite Hl. cbn [ok_or mbind Result_bind]. apply IH; [|done]. intros e' He'. apply Hin. by right.
Qed.

(** A list in which every predecessor of a node comes before it. *)
Definition topological (order : list NodeId) : Prop :=
  ∀ pre v post u, order = pre ++ v :: post → edge_rel g u v → u ∈ pre.

Lemma topological_snoc order v :
  topological order → (∀ u, edge_rel g u v → u ∈ order) → topological (order ++ [v]).
Proof.
  intros Ht Hv pre w post u Heq Hu.
  destruct post as [|p post _] using rev_ind.
  - apply app_inj_tail in Heq as [-> ->]. by apply Hv.
  - rewrite app_comm_cons, app_assoc in Heq. apply app_inj_tail in Heq as [-> _]. by eapply Ht.
Qed.

Lemma bset_iter_cons (q : gset string) x l : bset_iter q = x :: l → x ∈ q.
Proof. intros Hq. apply elem_of_bset_iter. rewrite Hq. left. Qed.

Lemma topological_loop_spec fuel counts queue order :
  kahn order [] counts queue → NoDup order → topological order →
  size (nodes g) - length order ≤ fuel →
  ∃ order', topological_loop fuel g counts queue order = Ok order' ∧
    NoDup order' ∧ topological order' ∧
    (∀ v, v ∈ order' → is_Some (nodes g !! v)) ∧
    (∀ v, is_Some (nodes g !! v) → (∀ u, edge_rel g u v → u ∈ order') → v ∈ order').
Proof using Hwf.
  revert counts queue order. induction fuel as [|fuel IH]; intros counts queue order Hk Hnd Ht Hf;
    simpl; destruct (bset_iter queue) as [|x l] eqn:Hq.
  1,3: exists order; split_and!; [done..| |]; [intros v Hv; apply (kahn_nodes _ _ _ _ Hk); auto|];
    intros v Hv Hpre; apply bset_iter_nil in Hq as ->;
    destruct (proj2 (kahn_zero _ _ _ _ Hk v Hv)) as [Hin|Hin]; [|done|set_solver];
    rewrite (proj2 (pending_0 order v) Hpre); done.
  - exfalso. apply bset_iter_cons in Hq.
    assert (NoDup (x :: order)) as Hnd'.
    { constructor; [|done]. by apply (kahn_disj _ _ _ _ Hk). }
    assert (length (x :: order) ≤ size (nodes g)); [|simpl in *; lia].
    rewrite <-length_btree_keys. apply submseteq_length, NoDup_submseteq; [done|].
    intros v Hv. apply elem_of_btree_keys, (kahn_nodes _ _ _ _ Hk). set_solver.
  - apply bset_iter_cons in Hq. pose proof (kahn_disj _ _ _ _ Hk x Hq) as Hx.
    destruct (relax_edges_spec (order ++ [x]) (filter (λ e, from e = x) (edges g))
                counts (queue ∖ {[x]})) as (counts' & queue' & -> & Hk').
    { intros e [_ He]%list_elem_of_filter. done. }
    { by apply kahn_pop. }
    cbn [mbind Result_bind fst snd]. apply IH; [done|..].
    + apply NoDup_app. split_and!; [done| |apply NoDup_singleton]. set_solver.
    + apply topological_snoc; [done|].
      apply (kahn_ready _ _ _ _ Hk); [apply (kahn_nodes _ _ _ _ Hk)|]; auto.
    + rewrite length_app. simpl. lia.
Qed.

(** Acyclicity makes the predecessor relation well-founded too: the reversed
    graph is acyclic, and cycle detection succeeds on it. *)
Lemma acyclic_pred_Acc : acyclic g → ∀ v, Acc (edge_rel g) v.
Proof using Hwf.
  intros Hac.
  set (g' := mkGraph (nodes g) ((λ e, mkEdge (to e) (from e) (transform e)) <$> edges g)).
  assert (∀ u v, edge_rel g' u v ↔ edge_rel g v u) as Hrel.
  { intros u v. unfold edge_rel. rewrite !elem_of_successors. simpl. split.
    - intros (e' & (e & -> & He)%list_elem_of_fmap & Hf & Ht). eauto.
    - intros (e & He & Hf & Ht). eexists. rewrite list_elem_of_fmap. split; [exists e; eauto|]. auto. }
  assert (∀ u v, tc (edge_rel g') u v → tc (edge_rel g) v u) as Htc.
  { intros u v. induction 1 as [u v H|u w v H _ IH]; [by apply tc_once, Hrel|].
    eapply tc_r; [done|]. by apply Hrel. }
  assert (graph_wf g') as Hwf'.
  { split; [apply Hwf|]. simpl. intros e' (e & -> & He)%list_elem_of_fmap. simpl.
    destruct (graph_wf_edges g Hwf e He). done. }
  intros v. assert (Acc (flip (edge_rel g')) v) as HA.
  { apply detect_cycles_Acc; [done|]. apply detect_cycles_sound. intros u Hu. by apply (Hac u), Htc. }
  induction HA as [v _ IH]. constructor. intros u Hu. apply IH. by apply Hrel.
Qed.

Lemma kahn_initial :
  kahn [] [] (incoming_counts g)
    (list_to_set (filter (λ id, default 0 (incoming_counts g !! id) = 0) (btree_keys (nodes g)))).
Proof.
  clear Hwf.
  assert (∀ v, pending [] v = edges_to (edges g) v) as Hp0.
  { intros v. unfold pending. f_equal. apply list_filter_all, Forall_forall.
    intros e _. apply not_elem_of_nil. }
  assert (∀ v, v ∈ (list_to_set (filter (λ id, default 0 (incoming_counts g !! id) = 0)
             (btree_keys (nodes g))) : gset NodeId) ↔
           edges_to (edges g) v = 0 ∧ is_Some (nodes g !! v)) as Hq.
  { intros v. rewrite elem_of_list_to_set, list_elem_of_filter, elem_of_btree_keys.
    by rewrite (proj1 (incoming_counts_lookup g v)). }
  split.
  - intros v Hv. rewrite Hp0, Nat.add_0_r. by apply incoming_counts_node.
  - intros v Hv. rewrite Hp0, Nat.add_0_r, Hq. set_solver.
  - intros v _. apply not_elem_of_nil.
  - intros v. rewrite Hq. set_solver.
Qed.

Lemma topological_nil : topological [].
Proof. intros [|] v post u Heq; done. Qed.

Lemma topological_order_ok :
  ∃ order, topological_loop (size (nodes g) + length (edges g)) g (incoming_counts g)
      (list_to_set (filter (λ id, default 0 (incoming_counts g !! id) = 0) (btree_keys (nodes g)))) []
      = Ok order ∧ NoDup order ∧ topological order ∧
    (∀ v, v ∈ order → is_Some (nodes g !! v)) ∧
    (acyclic g → ∀ v, is_Some (nodes g !! v) → v ∈ order).
Proof using Hwf.
  edestruct topological_loop_spec as (order & Ho & Hnd & Ht & Hn & Hc);
    [apply kahn_initial|constructor|apply topological_nil| |].
  2:{ exists order. split_and!; [exact Ho|done..|]. intros Hac v Hv.
    induction (acyclic_pred_Acc Hac v) as [v _ IH]. apply Hc; [done|]. intros u Hu. apply IH; [done|].
    apply elem_of_successors in Hu as (e & He & <- & _). by apply (graph_wf_edges g Hwf). }
  simpl. lia.
Qed.
End topological.

(* ------------------------------------------------------------------ *)
(** ** Feeds along an edge *)

Section feeds.
Context (cs : list GovernanceClaim).

(** A batch: claims of [cs], each at most once. *)
Definition sub_batch (batch : list GovernanceClaim) : Prop :=
  NoDup (gc_claimant_id <$> batch) ∧ batch ⊆ cs.

Definition positions_ok (batch : list GovernanceClaim) (pos : gmap string nat) : Prop :=
  (∀ id i, pos !! id = Some i → ∃ c, batch !! i = Some c ∧ gc_claimant_id c = id) ∧
  (∀ c, c ∈ batch → is_Some (pos !! gc_claimant_id c)).

Lemma positions_ok_snoc batch pos c :
  positions_ok batch pos →
  positions_ok (batch ++ [c]) (<[gc_claimant_id c := length batch]> pos).
Proof.
  intros [H1 H2]. split.
  - intros id i. rewrite lookup_insert. case_decide.
    + intros [= <-]. exists c. by rewrite list_lookup_middle.
    + intros (c' & Hi & Hid)%H1. exists c'. split; [|done]. by apply lookup_app_l_Some.
  - intros c'. rewrite elem_of_app, list_elem_of_singleton, lookup_insert.
    case_decide; [eauto|]. intros [Hc'| ->]; [by apply H2|done].
Qed.

Lemma batch_positions_ok batch : positions_ok batch (batch_positions batch).
Proof.
  unfold batch_positions. induction batch as [|c batch IH] using rev_ind; simpl.
  - split; [intros id i Hi; by rewrite lookup_empty in Hi|]. by intros c ?%not_elem_of_nil.
  - rewrite length_app, seq_app, zip_with_app by by rewrite length_seq.
    rewrite foldl_app. simpl. by apply positions_ok_snoc.
Qed.

Context (Hval : validate_governance_claims cs = Ok ()).

Lemma cs_ok c : c ∈ cs → claim_ok c.
Proof using Hval. by apply valid_claims_ok. Qed.

Lemma cs_nodup : NoDup (gc_claimant_id <$> cs).
Proof using Hval. by apply validate_governance_claims_Ok in Hval as [_ ?]. Qed.

(** Feeds of the same claims never conflict; the merge is the union. *)
Lemma merge_shared_claim_batches_Ok id incoming additional :
  sub_batch incoming → additional ⊆ cs →
  ∃ merged, merge_shared_claim_batches id incoming additional = Ok merged ∧
    sub_batch merged ∧ ∀ c, c ∈ merged ↔ c ∈ incoming ∨ c ∈ additional.
Proof using All.
  intros Hin Hadd. unfold merge_shared_claim_batches.
  destruct (try_fold_total (merge_shared_claim id)
    (λ done st, positions_ok st.1 st.2 ∧ sub_batch st.1 ∧
       ∀ c, c ∈ st.1 ↔ c ∈ incoming ∨ c ∈ done) (incoming, batch_positions incoming) additional)
    as ([m pos] & -> & _ & Hm & Hel).
  - split_and!; simpl; [apply batch_positions_ok|done|]. intros c. rewrite elem_of_nil. tauto.
  - intros done c [m pos] (Hpos & [Hnd Hsub] & Hel) Hc. simpl in *.
    assert (c ∈ cs) as Hccs by auto. destruct (pos !! gc_claimant_id c) as [i|] eqn:Hp.
    + destruct (proj1 Hpos _ _ Hp) as (c' & Hi & Hid). rewrite Hi. cbn [ok_or mbind Result_bind].
      assert (c' ∈ m) as Hc' by by eapply list_elem_of_lookup_2.
      assert (c' = c) as -> by (eapply (valid_claims_inj cs); eauto using cs_nodup).
      rewrite claim_eqb_refl by auto using cs_ok. eexists. split; [done|]. split_and!; [done|done|].
      intros c'. simpl. rewrite Hel. set_solver.
    + eexists. split; [done|]. simpl. split_and!; [by apply positions_ok_snoc| |set_solver].
      split; [|set_solver]. rewrite fmap_app. apply NoDup_app. split_and!; [done| |apply NoDup_singleton].
      intros k (c' & -> & Hc')%list_elem_of_fmap Hk%list_elem_of_singleton.
      destruct (proj2 Hpos c' Hc') as [j Hj]. congruence.
  - exists m. cbn [mbind Result_bind fst]. done.
Qed.

Context (batch : list GovernanceClaim) (ds : list ClaimDecision).
Context (Hbatch : sub_batch batch) (Hids : cd_claimant_id <$> ds = gc_claimant_id <$> batch).

Lemma decisions_NoDup : NoDup (cd_claimant_id <$> ds).
Proof using Hbatch Hids. rewrite Hids. apply Hbatch. Qed.

Lemma decision_unique id d d' :
  mkClaimDecision id d ∈ ds → mkClaimDecision id d' ∈ ds → d = d'.
Proof using Hbatch Hids.
  intros [i Hi]%list_elem_of_lookup [j Hj]%list_elem_of_lookup.
  assert (i = j) as ->; [|congruence].
  eapply (NoDup_lookup _ _ _ id decisions_NoDup); rewrite list_lookup_fmap; [by rewrite Hi|by rewrite Hj].
Qed.

(** Exactly the escalated claims are forwarded. *)
Lemma elem_of_forwarded c :
  c ∈ forwarded_shared_claims batch ds ↔
  c ∈ batch ∧ mkClaimDecision (gc_claimant_id c) Escalate ∈ ds.
Proof using Hbatch Hids.
  unfold forwarded_shared_claims. rewrite list_elem_of_fmap. split.
  - intros ([c' [id d]] & -> & ((Hid & Hd) & Hz)%list_elem_of_filter). simpl in *. subst.
    apply elem_of_zip_l in Hz as ?. apply elem_of_zip_r in Hz as ?. done.
  - intros [Hc Hd]. apply list_elem_of_lookup in Hc as [i Hi].
    assert (∃ d, ds !! i = Some (mkClaimDecision (gc_claimant_id c) d)) as [d Hdi].
    { assert ((cd_claimant_id <$> ds) !! i = Some (gc_claimant_id c)) as Hx.
      { by rewrite Hids, list_lookup_fmap, Hi. }
      rewrite list_lookup_fmap in Hx. destruct (ds !! i) as [[id d]|]; simplify_eq/=. eauto. }
    assert (d = Escalate) as ->.
    { eapply decision_unique; [by eapply list_elem_of_lookup_2|done]. }
    exists (c, mkClaimDecision (gc_claimant_id c) Escalate). split; [done|].
    apply list_elem_of_filter. split; [done|].
    apply list_elem_of_lookup. exists i. by rewrite lookup_zip_with, Hi, Hdi.
Qed.

(** No edge transform changes a forwarded claim: it strengthens permitted
    claims, and none is forwarded. *)
Lemma apply_transform_forwarded tr :
  apply_transform_shared tr (forwarded_shared_claims batch ds) ds =
  Ok (forwarded_shared_claims batch ds).
Proof using Hbatch Hids.
  destruct tr as [|delta]; [done|]. simpl.
  set (fwd := forwarded_shared_claims batch ds).
  assert (length fwd ≤ length ds) as Hlen.
  { unfold fwd, forwarded_shared_claims. rewrite length_fmap.
    etrans; [apply length_filter|]. rewrite length_zip_with. lia. }
  transitivity (try_map (λ p : GovernanceClaim * ClaimDecision,
                  Ok p.1 : LResult GovernanceClaim) (zip fwd ds)).
  - apply try_map_ext. intros [c [id d]] Hz. simpl.
    case_bool_decide as Heq; [simpl; subst id|done].
    apply elem_of_zip_l in Hz as Hc. apply elem_of_zip_r in Hz as Hd.
    apply elem_of_forwarded in Hc as [_ He]. by rewrite (decision_unique _ _ _ Hd He).
  - rewrite try_map_pure. f_equal. by apply fst_zip.
Qed.
End feeds.

(** What the main loop needs of its two parameters. *)
Class FeedMerge (merge : MergeFn) : Prop := merge_is_union :
  ∀ cs id incoming additional,
    validate_governance_claims cs = Ok () → sub_batch cs incoming → additional ⊆ cs →
    ∃ merged, merge id incoming additional = Ok merged ∧
      sub_batch cs merged ∧ ∀ c, c ∈ merged ↔ c ∈ incoming ∨ c ∈ additional.

Class BatchEvaluator `{RegexEngine} (evaluate : EvaluateFn) : Prop := evaluator_agrees :
  ∀ cs node batch,
    validate_governance_claims cs = Ok () → sub_batch cs batch →
    evaluate node batch = evaluate_node_validated node batch.

Global Instance merge_shared_is_union : FeedMerge merge_shared_claim_batches.
Proof. intros cs id incoming additional Hval. by apply merge_shared_claim_batches_Ok. Qed.

Global Instance evaluate_node_validated_evaluator `{RegexEngine} :
  BatchEvaluator evaluate_node_validated.
Proof. by intros cs node batch. Qed.

(** [merge_claim_batches] is a union too. *)
Global Instance merge_claim_batches_is_union : FeedMerge merge_claim_batches.
Proof.
  intros cs id incoming additional Hval [Hnd Hsub] Hadd. unfold merge_claim_batches.
  assert (∀ c, c ∈ incoming ++ additional → c ∈ cs) as Hall by set_solver.
  destruct (try_fold_total (merge_claim id)
    (λ _ m, ∀ k c, m !! k = Some c → c ∈ cs ∧ gc_claimant_id c = k) ∅ (incoming ++ additional))
    as (m & Hm & Hcs).
  - intros k c Hk. by rewrite lookup_empty in Hk.
  - intros pre c m Hm Hc%Hall. unfold merge_claim.
    destruct (m !! gc_claimant_id c) as [e|] eqn:He.
    + destruct (Hm _ _ He) as [Hecs Hid].
      assert (e = c) as -> by (eapply (valid_claims_inj cs); eauto using cs_nodup).
      rewrite claim_eqb_refl by by apply (cs_ok cs Hval). eauto.
    + eexists. split; [done|]. intros k c'. rewrite lookup_insert.
      case_decide; [intros [= <-]; by subst|apply Hm].
  - rewrite Hm. cbn [mbind Result_bind]. exists (btree_values m). split; [done|].
    destruct (merge_claim_fold_spec id (incoming ++ additional) m) as [H1 H2];
      [intros c Hc; by apply (cs_ok cs Hval), Hall|done|].
    assert (∀ c, c ∈ btree_values m ↔ c ∈ incoming ∨ c ∈ additional) as Hel.
    { intros c. rewrite elem_of_btree_values, <-elem_of_app. split; [intros [k Hk]; by apply (H1 k)|].
      intros Hc. destruct (H2 c Hc) as (c' & Hk & _). exists (gc_claimant_id c).
      destruct (H1 _ _ Hk) as [Hc' Hid].
      assert (c' = c) as ->; [|done].
      apply (valid_claims_inj cs); [by apply cs_nodup|by apply Hall|by apply Hall|done]. }
    split; [|done]. split; [|intros c Hc%Hel; set_solver].
    rewrite btree_values_keys; [apply NoDup_btree_keys|]. intros k c Hk. by apply H1.
Qed.

Global Instance evaluate_node_evaluator `{RegexEngine} : BatchEvaluator evaluate_node.
Proof.
  intros cs node batch Hval [Hnd Hsub]. unfold evaluate_node.
  assert (validate_governance_claims batch = Ok ()) as ->; [|done].
  apply validate_governance_claims_Ok in Hval as [Hall _]. apply validate_governance_claims_Ok.
  split; [|done]. rewrite Forall_forall in Hall |- *. auto.
Qed.

(* ------------------------------------------------------------------ *)
(** ** Final decisions: the strictest of the recorded ones *)

(** [o] is the lowest-ranked decision of [S], or nothing when [S] is empty. *)
Definition strictest (S : Decision → Prop) (o : option Decision) : Prop :=
  match o with
  | Some d => S d ∧ ∀ d', S d' → decision_rank d ≤ decision_rank d'
  | None => ∀ d, ¬ S d
  end.

Lemma strictest_ext S S' o : (∀ d, S d ↔ S' d) → strictest S o → strictest S' o.
Proof. intros H. destruct o; simpl; [|naive_solver]. intros [H1 H2]. split; naive_solver. Qed.

Lemma strictest_unique S o o' : strictest S o → strictest S o' → o = o'.
Proof.
  destruct o as [d|], o' as [d'|]; simpl; [|naive_solver..|done].
  intros [H1 H2] [H3 H4]. f_equal. apply decision_rank_inj.
  specialize (H2 _ H3). specialize (H4 _ H1). lia.
Qed.

Lemma strictest_merge S d0 d :
  strictest S (Some d0) → strictest (λ d', S d' ∨ d' = d) (Some (merge_final_decision d0 d)).
Proof.
  intros [H1 H2]. unfold merge_final_decision. case_bool_decide as Hle; simpl.
  - split; [auto|]. intros d' [Hd'| ->]; auto.
  - split; [auto|]. intros d' [Hd'| ->]; [|done]. specialize (H2 _ Hd'). lia.
Qed.

Lemma record_final_decisions_spec S final ds has_outgoing :
  (∀ id, strictest (S id) (final !! id)) →
  ∀ id, strictest (λ d, S id d ∨ (mkClaimDecision id d ∈ ds ∧ (d = Escalate → has_outgoing = false)))
          (record_final_decisions final ds has_outgoing !! id).
Proof.
  unfold record_final_decisions. revert S final.
  induction ds as [|[i d] ds IH]; intros S final HS id; simpl.
  - eapply strictest_ext, HS. intros d. rewrite elem_of_nil. tauto.
  - eapply strictest_ext, (IH (λ id' d', S id' d' ∨
      (id' = i ∧ d' = d ∧ (d = Escalate → has_outgoing = false)))).
    + intros d'. rewrite elem_of_cons. split; [|naive_solver].
      intros [[?|(-> & -> & ?)]|?]; naive_solver.
    + intros id'. unfold record_final_decision. simpl.
      destruct (is_escalate d && has_outgoing) eqn:Hskip.
      * apply andb_true_iff in Hskip as [He ->]. eapply strictest_ext, HS.
        intros d'. split; [auto|]. intros [?|(-> & -> & Hx)]; [done|]. destruct d; try done.
        by specialize (Hx eq_refl).
      * assert (d = Escalate → has_outgoing = false) as Hd.
        { intros ->. by destruct has_outgoing. }
        rewrite lookup_insert. case_decide as Hi.
        -- subst id'. specialize (HS i). destruct (final !! i) as [d0|].
           ++ eapply strictest_ext; [|by apply strictest_merge]. intros d'. naive_solver.
           ++ simpl in *. split; [by right|]. intros d' [Hd'|(_ & -> & _)]; [by destruct (HS d')|done].
        -- eapply strictest_ext, HS. intros d'. naive_solver.
Qed.

(* ------------------------------------------------------------------ *)
(** ** The declarative reading of a traversal *)

Lemma initial_queue_lookup (cs : list GovernanceClaim) (l : list NodeId) v :
  default [] (foldl (λ queued id, <[id := cs]> queued) (∅ : gmap NodeId (list SharedClaim)) l !! v)
  = if decide (v ∈ l) then cs else [].
Proof.
  assert (∀ (m : gmap NodeId (list SharedClaim)),
    foldl (λ queued id, <[id := cs]> queued) m l !! v
    = if decide (v ∈ l) then Some cs else m !! v) as Hm.
  { induction l as [|x l IH]; intros m; simpl; [done|]. rewrite IH, lookup_insert.
    destruct (decide (x = v)), (decide (v ∈ l)), (decide (v ∈ x :: l)); set_solver. }
  rewrite Hm, lookup_empty. by case_decide.
Qed.

Section traverse_facts.
Context `{RegexEngine} (g : GovernanceGraph) (cs : list GovernanceClaim).
Context (evaluate : EvaluateFn) (merge : MergeFn).

Abbreviation NodeDecisions := (gmap NodeId (list ClaimDecision)).

(** Node [u] escalated claimant [id]. *)
Definition escalated (nds : NodeDecisions) (u : NodeId) (id : string) : Prop :=
  ∃ ds, nds !! u = Some ds ∧ mkClaimDecision id Escalate ∈ ds.

(** The claim reaches node [v]: [v] is an entry, or a predecessor escalated it. *)
Definition fed (nds : NodeDecisions) (v : NodeId) (id : string) : Prop :=
  (∀ u, ¬ edge_rel g u v) ∨ ∃ u, edge_rel g u v ∧ escalated nds u id.

(** The batch of [v]: the claims that reach it. *)
Definition batch_of (nds : NodeDecisions) (v : NodeId) (batch : list GovernanceClaim) : Prop :=
  NoDup (gc_claimant_id <$> batch) ∧ ∀ c, c ∈ batch ↔ c ∈ cs ∧ fed nds v (gc_claimant_id c).

(** [d] counts for the final decision of [id]: some node decided it, and an
    escalation counts only where the claim goes no further. *)
Definition recorded (nds : NodeDecisions) (id : string) (d : Decision) : Prop :=
  ∃ u ds, nds !! u = Some ds ∧ mkClaimDecision id d ∈ ds ∧
          (d = Escalate → ∀ v, ¬ edge_rel g u v).

Record traversal_spec (final : gmap string Decision) (nds : NodeDecisions) : Prop := {
  tr_nodes : ∀ v, is_Some (nds !! v) ↔ is_Some (nodes g !! v);
  tr_batch : ∀ v node ds, nodes g !! v = Some node → nds !! v = Some ds →
    ∃ batch, batch_of nds v batch ∧ evaluate_node_validated node batch = Ok ds;
  tr_final : ∀ id, strictest (recorded nds id) (final !! id);
}.

(** The invariant of the main loop after the nodes [visited]. *)
Record visit_inv (capture : bool) (nds : NodeDecisions) (visited : list NodeId)
    (st : TraverseState) : Prop := {
  vi_capture : ts_nodes st = if capture then Some nds else None;
  vi_dom : ∀ v, is_Some (nds !! v) ↔ v ∈ visited;
  vi_batch : ∀ v node ds, nodes g !! v = Some node → nds !! v = Some ds →
    ∃ batch, batch_of nds v batch ∧ evaluate_node_validated node batch = Ok ds;
  vi_queued : ∀ v, is_Some (nodes g !! v) → v ∉ visited →
    batch_of nds v (default [] (ts_queued st !! v));
  vi_final : ∀ id, strictest (recorded nds id) (ts_final st !! id);
}.

Context (Hwf : graph_wf g) (Hval : validate_governance_claims cs = Ok ()).
Context `{!FeedMerge merge} `{!BatchEvaluator evaluate}.

Lemma batch_of_sub nds v batch : batch_of nds v batch → sub_batch cs batch.
Proof. intros [Hnd Hel]. split; [done|]. intros c Hc. by apply Hel. Qed.

(** Recording the decisions of one more node [x]. *)
Lemma escalated_insert nds x ds u id :
  nds !! x = None →
  escalated (<[x := ds]> nds) u id ↔
  escalated nds u id ∨ (u = x ∧ mkClaimDecision id Escalate ∈ ds).
Proof.
  intros Hx. unfold escalated. setoid_rewrite lookup_insert. split.
  - intros (ds' & Hu & Hin). case_decide; [simplify_eq; auto|eauto].
  - intros [(ds' & Hu & Hin)|[-> Hin]].
    + exists ds'. rewrite decide_False; [done|]. intros ->. congruence.
    + exists ds. by rewrite decide_True.
Qed.

Lemma fed_insert nds x ds v id :
  nds !! x = None →
  fed (<[x := ds]> nds) v id ↔
  fed nds v id ∨ (edge_rel g x v ∧ mkClaimDecision id Escalate ∈ ds).
Proof.
  intros Hx. unfold fed. setoid_rewrite escalated_insert; [|done]. split; [|naive_solver].
  intros [?|(u & Hu & [?|[-> ?]])]; naive_solver.
Qed.

Lemma recorded_insert nds x ds id d :
  nds !! x = None →
  recorded (<[x := ds]> nds) id d ↔
  recorded nds id d ∨ (mkClaimDecision id d ∈ ds ∧ (d = Escalate → ∀ v, ¬ edge_rel g x v)).
Proof.
  intros Hx. unfold recorded. setoid_rewrite lookup_insert. split.
  - intros (u & ds' & Hu & Hin & He). case_decide; [simplify_eq; auto|eauto 10].
  - intros [(u & ds' & Hu & Hin & He)|[Hin He]].
    + exists u, ds'. rewrite decide_False; [done|]. intros ->. congruence.
    + exists x, ds. by rewrite decide_True.
Qed.

Lemma batch_of_ext nds nds' v batch :
  (∀ id, fed nds v id ↔ fed nds' v id) → batch_of nds v batch → batch_of nds' v batch.
Proof. intros Hf [Hnd Hel]. split; [done|]. intros c. by rewrite Hel, Hf. Qed.

(** Sending the forwarded claims of [x] along its edges. *)
Lemma send_all_spec x batch ds queued es nds :
  sub_batch cs batch → cd_claimant_id <$> ds = gc_claimant_id <$> batch →
  nds !! x = None → batch_of nds x batch →
  (∀ e, e ∈ es → from e = x) →
  (∀ e, e ∈ es → batch_of nds (to e) (default [] (queued !! to e))) →
  ∃ queued', try_fold (send_along merge (forwarded_shared_claims batch ds) ds) queued es = Ok queued' ∧
    (∀ v, (∀ e, e ∈ es → to e ≠ v) → queued' !! v = queued !! v) ∧
    (∀ v, v ∈ to <$> es →
       sub_batch cs (default [] (queued' !! v)) ∧
       ∀ c, c ∈ default [] (queued' !! v) ↔
         c ∈ default [] (queued !! v) ∨ c ∈ forwarded_shared_claims batch ds).
Proof using All.
  intros Hsub Hids Hx Hbx Hfrom Hto.
  set (fwd := forwarded_shared_claims batch ds).
  assert (fwd ⊆ cs) as Hfwd.
  { intros c Hc. apply Hsub. by eapply (elem_of_forwarded cs batch ds Hsub Hids c). }
  destruct (try_fold_total (send_along merge fwd ds)
    (λ pre q, (∀ v, (∀ e, e ∈ pre → to e ≠ v) → q !! v = queued !! v) ∧
       ∀ v, v ∈ to <$> es → sub_batch cs (default [] (q !! v)) ∧
        ∀ c, c ∈ default [] (q !! v) ↔ c ∈ default [] (queued !! v) ∨ (v ∈ to <$> pre ∧ c ∈ fwd))
    queued es) as (q & Hq & Hkeep & Hres).
  - split; [done|]. intros v (e & -> & He)%list_elem_of_fmap.
    split; [by eapply batch_of_sub, Hto|]. intros c. set_solver.
  - intros pre e q [Hkeep Hpre] He. unfold send_along.
    unfold fwd at 1. rewrite (apply_transform_forwarded cs batch ds Hsub Hids (transform e)).
    cbn [mbind Result_bind]. fold fwd.
    destruct (Hpre (to e)) as [Hs Hel]; [apply list_elem_of_fmap; eauto|].
    destruct (merge_is_union (merge := merge) cs (to e) _ fwd Hval Hs Hfwd) as (m & -> & Hm & Hmel).
    cbn [mbind Result_bind]. eexists. split; [done|]. split.
    + intros v Hv. rewrite lookup_insert. rewrite decide_False by (apply Hv; set_solver).
      apply Hkeep. intros e' He'. apply Hv. set_solver.
    + intros v Hv. rewrite lookup_insert, fmap_app. case_decide as Heq.
      * subst v. simpl. split; [done|]. intros c. rewrite Hmel, Hel. set_solver.
      * destruct (Hpre v Hv) as [Hs' Hel']. split; [done|]. intros c. rewrite Hel'. set_solver.
  - exists q. split_and!; [done|done|]. intros v Hv. destruct (Hres v Hv) as [Hs Hel].
    split; [done|]. intros c. rewrite Hel. naive_solver.
Qed.

(** One iteration of the main loop, at a node whose predecessors were visited. *)
Lemma visit_node_spec capture nds visited st x node :
  visit_inv capture nds visited st → nodes g !! x = Some node → x ∉ visited →
  (∀ v, edge_rel g x v → (v ∉ visited) ∧ v ≠ x) →
  ∃ batch, batch_of nds x batch ∧
  match evaluate_node_validated node batch with
  | Ok ds => ∃ st', visit_with evaluate merge g (outgoing_edges g) st x = Ok st' ∧
                    visit_inv capture (<[x := ds]> nds) (visited ++ [x]) st'
  | Err e => visit_with evaluate merge g (outgoing_edges g) st x = Err e
  end.
Proof using All.
  intros [Hcap Hdom Hbat Hqu Hfin] Hn Hx Hsucc.
  assert (nds !! x = None) as Hnx.
  { destruct (nds !! x) eqn:E; [|done]. destruct Hx. apply Hdom. eauto. }
  pose proof (Hqu x ltac:(eauto) Hx) as Hb. set (batch := default [] (ts_queued st !! x)) in *.
  exists batch. split; [done|]. unfold visit_with. rewrite Hn. cbn [ok_or mbind Result_bind].
  fold batch. rewrite (evaluator_agrees (evaluate := evaluate) cs node batch Hval (batch_of_sub _ _ _ Hb)). destruct (evaluate_node_validated node batch) as [ds|e] eqn:Hev; [|done].
  cbn [mbind Result_bind]. pose proof (evaluate_node_validated_ids _ _ _ Hev) as Hids.
  rewrite outgoing_edges_lookup. set (es := filter (λ e, from e = x) (edges g)).
  assert (∀ v, edge_rel g x v ↔ v ∈ to <$> es) as Hes by done.
  assert (∀ e, e ∈ es → to e ≠ x ∧ (to e ∉ visited) ∧ is_Some (nodes g !! to e)) as Hes'.
  { intros e He. destruct (Hsucc (to e)); [apply Hes, list_elem_of_fmap; eauto|].
    apply list_elem_of_filter in He as [_ He]. by destruct (graph_wf_edges g Hwf e He). }
  destruct (send_all_spec x batch ds (delete x (ts_queued st)) es nds) as (q & -> & Hkeep & Hres);
    [by eapply batch_of_sub|done..| | |].
  { intros e He. by apply list_elem_of_filter in He as [? _]. }
  { intros e He. destruct (Hes' e He) as (H1 & H2 & H3).
    rewrite lookup_delete_ne by done. by apply Hqu. }
  cbn [mbind Result_bind]. eexists. split; [done|]. split; simpl.
  - rewrite Hcap. by destruct capture.
  - intros v. rewrite elem_of_app, list_elem_of_singleton, <-Hdom, lookup_insert.
    case_decide as Hd; [subst; split; [auto|eauto]|]. split; [auto|]. intros [?| ->]; done.
  - intros v node' ds' Hv. rewrite lookup_insert. case_decide as Hd.
    + intros [= <-]. subst v. assert (node' = node) as -> by congruence.
      exists batch. split; [|done]. eapply batch_of_ext, Hb. intros id. rewrite fed_insert by done.
      split; [auto|]. intros [?|[Hxx _]]; [done|]. by destruct (Hsucc x Hxx).
    + intros Hv'. destruct (Hbat v node' ds' Hv Hv') as (b & Hb' & Hev'). exists b. split; [|done].
      eapply batch_of_ext, Hb'. intros id. rewrite fed_insert by done.
      split; [auto|]. intros [?|[Hxv _]]; [done|]. destruct (Hsucc v Hxv) as [[] _]. apply Hdom. eauto.
  - intros v Hv Hvis. assert ((v ∉ visited) ∧ v ≠ x) as [Hv1 Hv2] by set_solver.
    destruct (decide (v ∈ to <$> es)) as [Hve|Hve].
    + destruct (Hres v Hve) as [[Hnd Hsub] Hel]. split; [done|]. intros c. rewrite Hel.
      rewrite lookup_delete_ne by done. destruct (Hqu v Hv Hv1) as [_ Hq]. rewrite Hq.
      rewrite fed_insert by done. rewrite (Hes v).
      rewrite (elem_of_forwarded cs batch ds (batch_of_sub _ _ _ Hb) Hids).
      split; [intros [?|[Hc He]]; [naive_solver|]|].
      * split; [|auto]. by apply (batch_of_sub _ _ _ Hb).
      * intros [Hc [?|[_ He]]]; [auto|]. right. split; [|done].
        assert (gc_claimant_id c ∈ gc_claimant_id <$> batch) as (c' & Hid & Hc')%list_elem_of_fmap.
        { rewrite <-Hids. apply list_elem_of_fmap. eexists. by split; [|exact He]. }
        assert (c = c') as ->; [|done]. eapply (valid_claims_inj cs); [by apply cs_nodup|done| |done].
        by apply (batch_of_sub _ _ _ Hb).
    + rewrite Hkeep; [|intros e He <-; apply Hve, list_elem_of_fmap; eauto].
      rewrite lookup_delete_ne by done. eapply batch_of_ext, (Hqu v Hv Hv1).
      intros id. rewrite fed_insert by done. rewrite (Hes v). naive_solver.
  - intros id. eapply strictest_ext, (record_final_decisions_spec (recorded nds)); [|done].
    intros d. rewrite recorded_insert by done.
    assert ((∀ v, ¬ edge_rel g x v) ↔
      match outgoing_edges g !! x with Some edges => negb (bool_decide (edges = [])) | None => false end
      = false) as Hout.
    { pose proof (outgoing_edges_lookup g x) as Hl. fold es in Hl. setoid_rewrite Hes.
      destruct (outgoing_edges g !! x) as [es'|]; simpl in Hl; subst.
      - destruct es as [|e es]; simpl; [split; [done|]; intros _ v; apply not_elem_of_nil|].
        split; [|done]. intros Hv. destruct (Hv (to e)). left.
      - rewrite <-Hl. split; [done|]. intros _ v. apply not_elem_of_nil. }
    naive_solver.
Qed.

(** The node evaluation a traversal may stop at. *)
Definition evaluation_error (e : LegitimacyError) : Prop :=
  ∃ v node batch, nodes g !! v = Some node ∧ sub_batch cs batch ∧
                  evaluate_node_validated node batch = Err e.

Lemma elem_of_entry_node_list v :
  v ∈ entry_node_list g (incoming_counts g) ↔
  is_Some (nodes g !! v) ∧ ∀ u, ¬ edge_rel g u v.
Proof.
  unfold entry_node_list.
  rewrite elem_of_sort_strings, list_elem_of_filter, elem_of_btree_keys.
  rewrite (proj1 (incoming_counts_lookup g v)), edges_to_0. split.
  - intros [He Hn]. split; [done|]. intros u (e & Hin & _ & Hto)%elem_of_successors.
    by eapply He.
  - intros [Hn He]. split; [|done]. intros e Hin Hto. apply (He (from e)), elem_of_successors. eauto.
Qed.

Lemma visit_inv_initial capture l :
  (∀ v, v ∈ l ↔ v ∈ entry_node_list g (incoming_counts g)) →
  visit_inv capture ∅ []
    (mkTraverseState (foldl (λ queued id, <[id := cs]> queued) ∅ l) ∅
       (if capture then Some ∅ else None)).
Proof using Hval.
  intros Hl. split; simpl; [done|..].
  - intros v. rewrite lookup_empty. split; [by intros []|by intros ?%not_elem_of_nil].
  - intros v node ds _ Hv. by rewrite lookup_empty in Hv.
  - intros v Hv _. rewrite initial_queue_lookup.
    assert (∀ id, fed ∅ v id ↔ v ∈ l) as Hfed.
    { intros id. rewrite Hl, elem_of_entry_node_list. unfold fed. split; [|naive_solver].
      intros [?|(u & _ & ds & Hu & _)]; [done|by rewrite lookup_empty in Hu]. }
    case_decide as He; split; [by apply cs_nodup| |constructor|]; intros c; rewrite Hfed;
      [tauto|]. rewrite elem_of_nil. tauto.
  - intros id. rewrite lookup_empty. simpl. intros d (u & ds & Hu & _). by rewrite lookup_empty in Hu.
Qed.

(** The main loop over a complete topological order. *)
Lemma visit_all_spec capture order st :
  visit_inv capture ∅ [] st → NoDup order → topological g order →
  (∀ v, v ∈ order ↔ is_Some (nodes g !! v)) →
  (∃ st' nds, try_fold (visit_with evaluate merge g (outgoing_edges g)) st order = Ok st' ∧
     ts_nodes st' = (if capture then Some nds else None) ∧ traversal_spec (ts_final st') nds) ∨
  (∃ e, try_fold (visit_with evaluate merge g (outgoing_edges g)) st order = Err e ∧ evaluation_error e).
Proof using All.
  intros Hst Hnd Htop Hall.
  destruct (try_fold_cases (visit_with evaluate merge g (outgoing_edges g))
    (λ visited st, ∃ nds, visit_inv capture nds visited st) evaluation_error st order)
    as [(st' & Hf & nds & Hinv)|(e & Hf & He)]; [eauto| | |by right; eauto].
  - intros pre x rest t Horder [nds Hinv].
    assert (x ∈ order) as Hx by (rewrite Horder; set_solver).
    apply Hall in Hx as [node Hnode].
    rewrite Horder in Hnd. apply NoDup_app in Hnd as (Hnd1 & Hdisj & Hnd2).
    apply NoDup_cons in Hnd2 as [Hxr _].
    assert (x ∉ pre) as Hxp. { intros Hin. apply (Hdisj x Hin). left. }
    destruct (visit_node_spec capture nds pre t x node) as (batch & Hb & Hvis); [done..| |].
    { intros v Hxv. split.
      - intros Hv. apply list_elem_of_split in Hv as (p1 & p2 & ->).
        apply Hxp. rewrite <-app_assoc in Horder. rewrite elem_of_app. left.
        by eapply (Htop p1 v (p2 ++ x :: rest)).
      - intros ->. apply Hxp. by eapply (Htop pre x rest). }
    destruct (evaluate_node_validated node batch) as [ds|e] eqn:Hev.
    + destruct Hvis as (st' & Hst' & Hinv'). left. eauto.
    + right. exists e. split; [done|]. exists x, node, batch. split_and!; [done| |done].
      by eapply batch_of_sub.
  - left. exists st', nds. split; [done|]. split; [apply Hinv|]. destruct Hinv. split; [|done|done].
    intros v. by rewrite vi_dom0, Hall.
Qed.

End traverse_facts.

Section traverse_claims_facts.
Context `{RegexEngine} (g : GovernanceGraph) (cs : list GovernanceClaim).
Context (Hwf : graph_wf g) (Hval : validate_governance_claims cs = Ok ()).

(** What [traverse_claims] does on a well-formed graph and valid claims. *)
Lemma traverse_claims_cases capture :
  (¬ acyclic g ∧ ∃ cycle, traverse_claims g cs capture = Err (CycleError cycle)) ∨
  (acyclic g ∧ nodes g = ∅ ∧ traverse_claims g cs capture = Err NoEntryNodes) ∨
  (acyclic g ∧ nodes g ≠ ∅ ∧
    ((∃ e, traverse_claims g cs capture = Err e ∧ evaluation_error g cs e) ∨
     (∃ final nds, traverse_claims g cs capture =
        Ok (entry_node_list g (incoming_counts g), final, if capture then Some nds else None) ∧
        traversal_spec g cs final nds))).
Proof using All.
  unfold traverse_claims. rewrite Hval. cbn [mbind Result_bind].
  destruct (detect_cycles_search g) as (s & Hd & _). rewrite Hd. cbn [mbind Result_bind].
  destruct (merge_sort names_le (reverse (t_cycles s))) as [|cycle rest] eqn:Hcyc.
  2:{ left. split; [|eauto]. intros Hac%detect_cycles_sound. congruence. }
  right. assert (acyclic g) as Hac.
  { intros v. apply Acc_no_cycle, detect_cycles_Acc; [done|]. by rewrite Hd. }
  case_bool_decide as Hemp; simpl; [by left|]. right. split; [done|]. split; [done|].
  rewrite bool_decide_false.
  2:{ intros Hnil. assert (∃ v, is_Some (nodes g !! v)) as [v Hv].
      { apply map_choose in Hemp as (v & n & Hv). eauto. }
      induction (acyclic_pred_Acc g Hwf Hac v) as [v _ IH].
      destruct (filter (λ e, to e = v) (edges g)) as [|e l] eqn:Hf.
      - assert (v ∈ entry_node_list g (incoming_counts g)) as Hin; [|by rewrite Hnil in Hin; apply not_elem_of_nil in Hin].
        apply elem_of_entry_node_list. split; [done|].
        intros u (e & He & _ & Hto)%elem_of_successors.
        assert (e ∈ filter (λ e, to e = v) (edges g)) as Hin by (by apply list_elem_of_filter).
        rewrite Hf in Hin. by apply not_elem_of_nil in Hin.
      - assert (e ∈ filter (λ e, to e = v) (edges g)) as [Hto He]%list_elem_of_filter by (rewrite Hf; left).
        apply (IH (from e)); [apply elem_of_successors; eauto|].
        by destruct (graph_wf_edges g Hwf e He). }
  cbn [orb]. unfold topological_order.
  destruct (topological_order_ok g Hwf) as (order & -> & Hnd & Htop & Hin & Hall).
  cbn [mbind Result_bind]. rewrite decide_True.
  2:{ rewrite <-length_btree_keys. apply Permutation_length, NoDup_Permutation; [done|apply NoDup_btree_keys|].
      intros v. rewrite elem_of_btree_keys. split; [apply Hin|by apply Hall]. }
  cbn [mbind Result_bind].
  change (visit_node g (outgoing_edges g)) with
    (visit_with evaluate_node_validated merge_shared_claim_batches g (outgoing_edges g)).
  destruct (visit_all_spec g cs evaluate_node_validated merge_shared_claim_batches Hwf Hval
              capture order _ (visit_inv_initial g cs Hval capture _ (λ v, iff_refl _)) Hnd Htop)
    as [(st & nds & -> & Hn & Hsp)|(e & -> & He)].
  - intros v. split; [apply Hin|by apply Hall].
  - right. cbn [mbind Result_bind]. rewrite Hn. eauto.
  - left. eauto.
Qed.
End traverse_claims_facts.
