(* ===== verification/TraverseSpec.v ===== *)
(** * What a traversal computes (src/graph/traverse.rs)

    The theorems about [traverse] as a whole: it implements the declarative
    [traversal_spec], its errors are exactly the documented ones, every
    submitted claim gets a final decision, and the final decisions depend
    neither on the order of the claims or edges nor on the edge transforms. *)

From S2P Require Import Prelude F64 Errors Core GraphNode Tarjan GraphTraverse.
From stdpp Require Import options.

(* ------------------------------------------------------------------ *)
(** ** Node decisions do not depend on the order of the batch *)

(** Two computations succeed together and with the same value. *)
Definition same_ok {A} (r r' : LResult A) : Prop := ∀ x, r = Ok x ↔ r' = Ok x.

Global Instance same_ok_equiv {A} : Equivalence (@same_ok A).
Proof. unfold same_ok. split; red; [done|naive_solver..]. Qed.

Lemma same_ok_bind {A B} (r r' : LResult A) (k k' : A → LResult B) :
  same_ok r r' → (∀ x, same_ok (k x) (k' x)) → same_ok (x ← r; k x) (x ← r'; k' x).
Proof.
  intros Hr Hk y. destruct r as [x|e], r' as [x'|e']; cbn [mbind Result_bind].
  - pose proof (proj1 (Hr x) eq_refl) as Heq. injection Heq as ->. apply Hk.
  - by pose proof (proj1 (Hr x) eq_refl).
  - by pose proof (proj2 (Hr x') eq_refl).
  - done.
Qed.

Lemma same_ok_try_map_perm {A B} (f : A → LResult B) l l' k :
  l ≡ₚ l' → try_map f l = Ok k → ∃ k', try_map f l' = Ok k' ∧ k ≡ₚ k'.
Proof.
  intros Hp Hk. apply try_map_Ok_Forall2 in Hk. revert k Hk.
  induction Hp as [|x l l' Hp IH|x y l|l l' l'' _ IH1 _ IH2]; intros k Hk.
  - inversion Hk; subst. by exists [].
  - inversion Hk as [|? b ? bs Hb Hbs]; subst. destruct (IH bs Hbs) as (k' & Hk' & Hp').
    exists (b :: k'). simpl. rewrite Hb. simpl. rewrite Hk'. simpl. by rewrite Hp'.
  - inversion Hk as [|? b ? bs Hb Hbs]; subst. inversion Hbs as [|? c ? cs Hc Hcs]; subst.
    exists (c :: b :: cs). simpl. rewrite Hc. simpl. rewrite Hb. simpl.
    rewrite (proj2 (try_map_Ok_Forall2 f l cs) Hcs). simpl. split; [done|]. by constructor.
  - destruct (IH1 k Hk) as (k1 & Hk1%try_map_Ok_Forall2 & Hp1).
    destruct (IH2 k1 Hk1) as (k2 & Hk2 & Hp2). exists k2. split; [done|]. by etrans.
Qed.

Section node_perm.
Context `{RegexEngine}.

Lemma evaluate_peer_relative_perm c cs cs' field percentile b :
  cs ≡ₚ cs' → evaluate_peer_relative c cs field percentile = Ok b →
  evaluate_peer_relative c cs' field percentile = Ok b.
Proof.
  intros Hp. unfold evaluate_peer_relative. intros Hev. invert_binds.
  destruct (same_ok_try_map_perm _ _ _ _ Hp Hr0) as (vs & -> & Hvs). cbn [mbind Result_bind].
  f_equal. unfold f64_sort.
  assert (length (filter (λ value, f64_leb value a = true) (merge_sort f64_total_rel vs))
        = length (filter (λ value, f64_leb value a = true) (merge_sort f64_total_rel a0))) as ->.
  { by rewrite !merge_sort_Permutation, Hvs. }
  by rewrite !merge_sort_Permutation, Hvs.
Qed.

Lemma gate_matches_perm g c cs cs' :
  cs ≡ₚ cs' → same_ok (gate_matches g c cs) (gate_matches g c cs').
Proof.
  intros Hp b. destruct g; try done. simpl.
  split; apply evaluate_peer_relative_perm; [done|by symmetry].
Qed.

Lemma binary_decision_perm gates default comb c cs cs' :
  cs ≡ₚ cs' → same_ok (binary_decision gates default comb cs c) (binary_decision gates default comb cs' c).
Proof.
  intros Hp. destruct comb; simpl.
  - unfold evaluate_all_must_pass. generalize (length gates) as t.
    generalize 0 as n. generalize false as b.
    induction gates as [|g gates IH]; intros b n t; [done|]. cbn [all_must_pass_loop].
    apply same_ok_bind; [by apply gate_matches_perm|]. intros [|]; [|apply IH].
    destruct (gate_decision g); [apply IH|done|apply IH].
  - unfold evaluate_any_must_pass. apply same_ok_bind; [|done].
    induction gates as [|g gates IH]; [done|]. cbn [matched_decisions].
    apply same_ok_bind; [by apply gate_matches_perm|]. intros m. by apply same_ok_bind.
  - induction gates as [|g gates IH]; [done|]. cbn [evaluate_first_match].
    apply same_ok_bind; [by apply gate_matches_perm|]. by intros [|].
Qed.

Lemma node_decision_perm node c cs cs' :
  cs ≡ₚ cs' → same_ok (node_decision node cs c) (node_decision node cs' c).
Proof. intros Hp. destruct node; simpl; [by apply binary_decision_perm|done..]. Qed.

Lemma elem_of_node_decisions node batch ds id d :
  evaluate_node_validated node batch = Ok ds →
  mkClaimDecision id d ∈ ds ↔
  ∃ c, c ∈ batch ∧ gc_claimant_id c = id ∧ node_decision node batch c = Ok d.
Proof.
  intros [HF _]%evaluate_node_validated_Ok. split.
  - intros [i Hi]%list_elem_of_lookup.
    destruct (Forall2_lookup_r _ _ _ _ _ HF Hi) as (c & Hc & Hd & Hid). simpl in *.
    exists c. split; [by eapply list_elem_of_lookup_2|done].
  - intros (c & Hc & <- & Hd). apply list_elem_of_lookup in Hc as [i Hi].
    destruct (Forall2_lookup_l _ _ _ _ _ HF Hi) as ([id' d'] & Hd' & Heq & Hid). simpl in *.
    assert (d' = d) as -> by congruence. subst id'. by eapply list_elem_of_lookup_2.
Qed.

Lemma node_decisions_perm node batch batch' ds ds' id d :
  batch ≡ₚ batch' → evaluate_node_validated node batch = Ok ds →
  evaluate_node_validated node batch' = Ok ds' →
  mkClaimDecision id d ∈ ds ↔ mkClaimDecision id d ∈ ds'.
Proof.
  intros Hp Hds Hds'. rewrite (elem_of_node_decisions _ _ _ _ _ Hds).
  rewrite (elem_of_node_decisions _ _ _ _ _ Hds').
  split; intros (c & Hc & Hid & Hd); exists c; rewrite Hp in Hc || rewrite <-Hp in Hc;
    split_and!; try done; by apply (node_decision_perm node c batch batch').
Qed.
End node_perm.

(* ------------------------------------------------------------------ *)
(** ** The specification determines the result and covers every claim *)

Section spec_facts.
Context `{RegexEngine} (g : GovernanceGraph) (cs : list GovernanceClaim).
Context (Hwf : graph_wf g) (Hac : acyclic g).

(** Two graphs that agree on a set [P] of nodes closed under predecessors decide
    alike on [P]. *)
Lemma spec_agree_on (P : NodeId → Prop) g' cs' final final' nds nds' :
  (∀ u v, P v → edge_rel g u v → P u) →
  (∀ v, P v → nodes g' !! v = nodes g !! v) →
  (∀ u v, P v → edge_rel g' u v ↔ edge_rel g u v) → cs' ≡ₚ cs →
  traversal_spec g cs final nds → traversal_spec g' cs' final' nds' →
  ∀ v ds ds', P v → nds !! v = Some ds → nds' !! v = Some ds' → ∀ id d,
    mkClaimDecision id d ∈ ds ↔ mkClaimDecision id d ∈ ds'.
Proof using Hwf Hac.
  intros HP Hn He Hp [Hd Hb Hf] [Hd' Hb' Hf'] v.
  induction (acyclic_pred_Acc g Hwf Hac v) as [v _ IH]. intros ds ds' HPv Hv Hv'.
  destruct (proj1 (Hd v) (mk_is_Some _ _ Hv)) as [node Hnode].
  destruct (Hb v node ds Hnode Hv) as (b & [Hnd Hel] & Hev).
  destruct (Hb' v node ds') as (b' & [Hnd' Hel'] & Hev'); [by rewrite Hn|done|].
  assert (b ≡ₚ b') as Hperm.
  { apply NoDup_Permutation; [by eapply NoDup_fmap_1|by eapply NoDup_fmap_1|].
    intros c. rewrite Hel, Hel', Hp. unfold fed, escalated.
    assert (∀ u, edge_rel g' u v ↔ edge_rel g u v) as Hev2 by (intros u; by apply He).
    setoid_rewrite Hev2. apply and_iff_compat_l, or_iff_compat_l.
    split; intros (u & Hu & dsu & Hdsu & Hin); exists u; (split; [done|]);
      pose proof (HP u v HPv Hu) as HPu.
    - destruct (proj2 (Hd' u)) as [dsu' Hu']; [rewrite Hn by done; apply Hd; eauto|].
      exists dsu'. split; [done|]. by apply (IH u Hu dsu dsu' HPu Hdsu Hu').
    - destruct (proj2 (Hd u)) as [dsu' Hu']; [rewrite <-Hn by done; apply Hd'; eauto|].
      exists dsu'. split; [done|]. by apply (IH u Hu dsu' dsu HPu Hu' Hdsu). }
  intros id d. by eapply node_decisions_perm.
Qed.

Lemma traversal_spec_edges g' cs' final final' nds nds' :
  nodes g' = nodes g → (∀ u v, edge_rel g' u v ↔ edge_rel g u v) → cs' ≡ₚ cs →
  traversal_spec g cs final nds → traversal_spec g' cs' final' nds' →
  final = final'.
Proof using Hwf Hac.
  intros Hn He Hp Hsp Hsp'.
  pose proof (spec_agree_on (λ _, True) g' cs' final final' nds nds' ltac:(done)
    ltac:(intros; by rewrite Hn) ltac:(intros; apply He) Hp Hsp Hsp') as Heq.
  destruct Hsp as [Hd _ Hf], Hsp' as [Hd' _ Hf'].
  assert (∀ v, is_Some (nds !! v) ↔ is_Some (nds' !! v)) as Hdd by (intros v; by rewrite Hd, Hd', Hn).
  apply map_eq. intros id. eapply strictest_unique; [apply Hf|].
  eapply strictest_ext, Hf'. intros d. unfold recorded. setoid_rewrite He.
  split; intros (u & dsu & Hdsu & Hin & Hs).
  - destruct (proj2 (Hdd u) (mk_is_Some _ _ Hdsu)) as [dsu' Hu'].
    exists u, dsu'. split_and!; [done| |done]. by apply (Heq u dsu' dsu).
  - destruct (proj1 (Hdd u) (mk_is_Some _ _ Hdsu)) as [dsu' Hu'].
    exists u, dsu'. split_and!; [done| |done]. by apply (Heq u dsu dsu').
Qed.

(** A claim that reaches a node is recorded there or further down. *)
Lemma fed_recorded final nds v c :
  traversal_spec g cs final nds → c ∈ cs → is_Some (nodes g !! v) →
  fed g nds v (gc_claimant_id c) → ∃ d, recorded g nds (gc_claimant_id c) d.
Proof using Hwf Hac.
  intros [Hd Hb _] Hc. pose proof (detect_cycles_Acc g Hwf (detect_cycles_sound g Hac) v) as HA.
  induction HA as [v _ IH]. intros Hv Hfed.
  destruct (proj2 (Hd v) Hv) as [ds Hds]. destruct Hv as [node Hnode].
  destruct (Hb v node ds Hnode Hds) as (b & [Hnd Hel] & Hev).
  assert (c ∈ b) as Hcb by by apply Hel.
  apply evaluate_node_validated_ids in Hev.
  assert (gc_claimant_id c ∈ cd_claimant_id <$> ds) as ([id d] & Hid & Hin)%list_elem_of_fmap.
  { rewrite Hev. apply list_elem_of_fmap. eauto. }
  simpl in Hid. subst id.
  destruct (decide (d = Escalate)) as [->|Hne].
  2:{ exists d, v, ds. split_and!; done. }
  destruct (successors g v) as [|w ws] eqn:Hs.
  - exists Escalate, v, ds. split_and!; [done..|]. intros _ w Hw. unfold edge_rel in Hw.
    rewrite Hs in Hw. by apply not_elem_of_nil in Hw.
  - assert (edge_rel g v w) as Hvw by (unfold edge_rel; rewrite Hs; left).
    apply (IH w Hvw).
    + apply elem_of_successors in Hvw as (e & He & _ & <-). by apply (graph_wf_edges g Hwf).
    + right. exists v. split; [done|]. by exists ds.
Qed.

Lemma entry_exists : nodes g ≠ ∅ → ∃ v, is_Some (nodes g !! v) ∧ ∀ u, ¬ edge_rel g u v.
Proof using Hwf Hac.
  intros (v & n & Hv)%map_choose. apply mk_is_Some in Hv. clear n.
  induction (acyclic_pred_Acc g Hwf Hac v) as [v _ IH].
  destruct (filter (λ e, to e = v) (edges g)) as [|e l] eqn:Hf.
  - exists v. split; [done|]. intros u (e & He & _ & Hto)%elem_of_successors.
    assert (e ∈ filter (λ e, to e = v) (edges g)) as Hin by (by apply list_elem_of_filter).
    rewrite Hf in Hin. by apply not_elem_of_nil in Hin.
  - assert (e ∈ filter (λ e, to e = v) (edges g)) as [Hto He]%list_elem_of_filter by (rewrite Hf; left).
    apply (IH (from e)); [apply elem_of_successors; eauto|]. by destruct (graph_wf_edges g Hwf e He).
Qed.

Lemma spec_decides final nds c :
  nodes g ≠ ∅ → traversal_spec g cs final nds → c ∈ cs → is_Some (final !! gc_claimant_id c).
Proof using Hwf Hac.
  intros Hne Hsp Hc. destruct (entry_exists Hne) as (v & Hv & Hentry).
  destruct (fed_recorded final nds v c Hsp Hc Hv) as [d Hd]; [by left|].
  pose proof (tr_final _ _ _ _ Hsp (gc_claimant_id c)) as Hf.
  destruct (final !! gc_claimant_id c); [eauto|]. by destruct (Hf d).
Qed.

Lemma spec_only_claimants final nds id :
  traversal_spec g cs final nds → is_Some (final !! id) → id ∈ gc_claimant_id <$> cs.
Proof.
  clear Hwf Hac. intros Hsp [d Hd]. pose proof (tr_final _ _ _ _ Hsp id) as Hf. rewrite Hd in Hf.
  destruct Hf as [(u & ds & Hu & Hin & _) _].
  assert (is_Some (nodes g !! u)) as [node Hnode] by (apply (tr_nodes _ _ _ _ Hsp); eauto).
  destruct (tr_batch _ _ _ _ Hsp u node ds Hnode Hu) as (b & [_ Hel] & Hev).
  apply (elem_of_node_decisions _ _ _ _ _ Hev) in Hin as Hin'.
  destruct Hin' as (c & Hc & Hid & _).
  apply list_elem_of_fmap. exists c. split; [done|]. by apply Hel.
Qed.
End spec_facts.

Section traverse_facts.
Context `{RegexEngine}.

Lemma valid_claims_facts cs :
  validate_governance_claims cs = Ok () →
  (∀ c, c ∈ cs → claim_ok c) ∧ NoDup (gc_claimant_id <$> cs).
Proof.
  intros Hv. split; [intros c; by apply valid_claims_ok|].
  by apply validate_governance_claims_Ok in Hv as [_ ?].
Qed.

(** A successful traversal ran on valid claims over a non-empty acyclic graph
    and meets the specification. *)
Lemma traverse_Ok g cs r :
  graph_wf g → traverse g cs = Ok r →
  validate_governance_claims cs = Ok () ∧ acyclic g ∧ nodes g ≠ ∅ ∧
  traversal_spec g cs (final_decisions r) (node_decisions r).
Proof.
  intros Hwf Hr. unfold traverse in Hr.
  destruct (validate_governance_claims cs) as [[]|e] eqn:Hv.
  2:{ unfold traverse_claims in Hr. by rewrite Hv in Hr. }
  destruct (valid_claims_facts cs Hv) as [Hok Hnd].
  destruct (traverse_claims_cases g cs Hwf Hv true)
    as [(_ & cyc & Hc)|[(_ & _ & Hc)|(Hac & Hne & [(e & Hc & _)|(final & nds & Hc & Hsp)])]];
    rewrite Hc in Hr; cbn [mbind Result_bind] in Hr; try discriminate.
  injection Hr as <-. simpl. done.
Qed.

(** *** Graphs that can be traversed, and graphs of one constant decision *)

Definition sound_graph (g : GovernanceGraph) : Prop := graph_wf g ∧ acyclic g ∧ nodes g ≠ ∅.

Definition constant_graph (g : GovernanceGraph) (d : Decision) : Prop :=
  ∀ v n, nodes g !! v = Some n → ∃ id name, n = Binary id name [] d FirstMatch.

Lemma tc_edge_ext g g' : (∀ u v, edge_rel g' u v → edge_rel g u v) → acyclic g → acyclic g'.
Proof.
  intros He Hac v Hv. apply (Hac v). revert Hv. clear Hac. generalize v at 1 3 as u. intros u Hv.
  induction Hv as [u v Huv|u w v Huw _ IH]; [by apply tc_once, He|].
  eapply tc_l; [by apply He|done].
Qed.

(** A sound graph of constant nodes decides every claim, and decides it so. *)
Lemma constant_graph_decides g cs d :
  sound_graph g → constant_graph g d → validate_governance_claims cs = Ok () →
  ∃ r, traverse g cs = Ok r ∧ ∀ c, c ∈ cs → final_decisions r !! gc_claimant_id c = Some d.
Proof.
  intros (Hwf & Hac & Hne) Hconst Hval. unfold traverse.
  destruct (traverse_claims_cases g cs Hwf Hval true)
    as [[Hc _]|[(_ & He & _)|(_ & _ & [(e & _ & (v & node & batch & Hnode & _ & He))|(final & nds & -> & Hsp)])]].
  - done.
  - done.
  - destruct (Hconst v node Hnode) as (id & name & ->). cbn [evaluate_node_validated] in He.
    unfold evaluate_binary_node in He.
    cbn [evaluate_first_match binary_decision mbind Result_bind] in He. by rewrite try_map_pure in He.
  - eexists. split; [done|]. intros c Hc. cbn [final_decisions mbind Result_bind fst snd].
    destruct (spec_decides g cs Hwf Hac final nds c Hne Hsp Hc) as [d' Hd'].
    rewrite Hd'. f_equal. pose proof (tr_final _ _ _ _ Hsp (gc_claimant_id c)) as Hf.
    rewrite Hd' in Hf. destruct Hf as [(u & ds & Hu & Hin & _) _].
    destruct (proj1 (tr_nodes _ _ _ _ Hsp u) (mk_is_Some _ _ Hu)) as [node Hnode].
    destruct (tr_batch _ _ _ _ Hsp u node ds Hnode Hu) as (b & _ & Hev).
    destruct (proj1 (elem_of_node_decisions _ _ _ _ _ Hev) Hin) as (c' & _ & _ & Hd).
    destruct (Hconst u node Hnode) as (nid & name & ->). by injection Hd.
Qed.

(** Dropping the captured node decisions commutes with the main loop. *)
Definition erase_nodes (st : TraverseState) : TraverseState :=
  mkTraverseState (ts_queued st) (ts_final st) None.

Lemma visit_all_erase g outgoing order st :
  erase_nodes <$> try_fold (visit_node g outgoing) st order =
  try_fold (visit_node g outgoing) (erase_nodes st) order.
Proof.
  revert st. induction order as [|x order IH]; intros st; [done|]. cbn [try_fold].
  assert (visit_node g outgoing (erase_nodes st) x = erase_nodes <$> visit_node g outgoing st x) as ->.
  { unfold visit_node, visit_with. simpl. destruct (nodes g !! x); [|done]. cbn [ok_or mbind Result_bind].
    destruct (evaluate_node_validated _ _); [|done]. cbn [mbind Result_bind].
    by destruct (try_fold _ _ _). }
  destruct (visit_node g outgoing st x); [|done]. cbn [mbind Result_bind fmap Result_fmap]. apply IH.
Qed.

(* ------------------------------------------------------------------ *)
(** ** Properties *)

(** C1: refinement: on a graph the builder produces, a successful traversal
    implements the declarative reading.  Every node is evaluated once, on exactly
    the claims that enter the graph there or that some predecessor escalated,
    and a claimant's final decision is the strictest of those recorded (a
    permit or deny anywhere, an escalation only where the claim goes no further). *)
Theorem traverse_refines g cs r :
  graph_wf g → traverse g cs = Ok r →
  traversal_spec g cs (final_decisions r) (node_decisions r).
Proof. intros Hwf Hr. by apply traverse_Ok. Qed.

(** C16: error classification: on a well-formed graph, traversal fails only
    because a claim is invalid, the graph has a cycle, it has no node, or the
    evaluation of a node on a sub-batch fails.  No conflicting feed, dangling
    edge, overflow or out-of-range index is ever reported; and cyclic graphs are
    always rejected. *)
Theorem traverse_errors g cs e :
  graph_wf g → traverse g cs = Err e →
  validate_governance_claims cs = Err e ∨
  (¬ acyclic g ∧ ∃ cycle, e = CycleError cycle) ∨
  (nodes g = ∅ ∧ e = NoEntryNodes) ∨
  (acyclic g ∧ evaluation_error g cs e).
Proof.
  intros Hwf He. unfold traverse in He.
  destruct (validate_governance_claims cs) as [[]|e'] eqn:Hv.
  2:{ left. unfold traverse_claims in He. rewrite Hv in He. by injection He as ->. }
  right. destruct (valid_claims_facts cs Hv) as [Hok Hnd].
  destruct (traverse_claims_cases g cs Hwf Hv true)
    as [(Hn & cyc & Hc)|[(_ & Hn & Hc)|(Hac & Hne & [(e' & Hc & Hev)|(final & nds & Hc & Hsp)])]];
    rewrite Hc in He; cbn [mbind Result_bind] in He; try discriminate; injection He as <-; eauto 10.
Qed.

(** A successful traversal gives every submitted claim a final decision, and
    no one else. *)
Theorem traverse_decides_every_claim g cs r :
  graph_wf g → traverse g cs = Ok r →
  ∀ id, is_Some (final_decisions r !! id) ↔ id ∈ gc_claimant_id <$> cs.
Proof.
  intros Hwf Hr id. destruct (traverse_Ok g cs r Hwf Hr) as (_ & Hac & Hne & Hsp). split.
  - by eapply spec_only_claimants.
  - intros (c & -> & Hc)%list_elem_of_fmap. by eapply (spec_decides g cs Hwf Hac).
Qed.

(** C20: determinacy: the final decisions depend on the nodes, on which nodes the
    edges join and on the set of claims only.  Reordering claims or edges,
    repeating an edge, or changing any edge transform leaves every final
    decision as it was; in particular claim modifications have no effect. *)
Theorem traverse_determinate g g' cs cs' r r' :
  graph_wf g → graph_wf g' → nodes g' = nodes g →
  (∀ u v, edge_rel g' u v ↔ edge_rel g u v) → cs' ≡ₚ cs →
  traverse g cs = Ok r → traverse g' cs' = Ok r' →
  final_decisions r = final_decisions r'.
Proof.
  intros Hwf Hwf' Hn He Hp (_ & Hac & _ & Hsp)%traverse_Ok (_ & _ & _ & Hsp')%traverse_Ok; [|done..].
  by eapply (traversal_spec_edges g cs Hwf Hac g' cs').
Qed.

(** The traversal that keeps no per-node decisions behaves as the one that
    does: same errors, same final decisions. *)
Theorem traverse_final_decisions_agrees g cs :
  traverse_final_decisions g cs = (final_decisions <$> traverse g cs).
Proof.
  unfold traverse_final_decisions, traverse, traverse_claims.
  destruct (validate_governance_claims cs) as [[]|]; [|done]. cbn [mbind Result_bind].
  destruct (detect_cycles g) as [[|]|]; [|done..]. cbn [mbind Result_bind].
  destruct (_ || _); [done|]. destruct (topological_order _ _) as [order|]; [|done].
  cbn [mbind Result_bind].
  set (q := foldl _ _ _).
  pose proof (visit_all_erase g (outgoing_edges g) order (mkTraverseState q ∅ (Some ∅))) as He.
  unfold erase_nodes at 2 in He. simpl in He. rewrite <-He. by destruct (try_fold _ _ _).
Qed.
End traverse_facts.
