(* ===== verification/PolicyGraph.v ===== *)
(** * Graph policies (src/policy/graph_parser.rs)

    From a parsed `*.graph.toml` policy to a governance graph: the checks of the
    declarations, the compilation of nodes, gates, decisions and transforms, and
    the builder.  The toml crate is the parameter [GraphToml]; reading a file is
    the outcome of [fs::read_to_string], [None] when it fails. *)

From S2P Require Import Prelude F64 Errors Core GraphNode.
From stdpp Require Import options.

(* ------------------------------------------------------------------ *)
(** ** Specifications *)

Record GraphMetaSpec := mkGraphMeta { gm_name : string; gm_version : string }.

Record GateSpec := mkGateSpec {
  gs_gate_type : string;
  gs_pattern : option string;
  gs_value : option string;
  gs_regex : option string;
  gs_field : option string;
  gs_min : option f64;
  gs_percentile : option f64;
  gs_decision : string;
}.

Record NodeSpec := mkNodeSpec {
  ns_id : string;
  ns_node_type : string;
  ns_default : option string;
  ns_combination : option string;
  ns_gates : list GateSpec;
  ns_threshold : option f64;
  ns_field : option string;
  ns_name : option string;
}.

Record EdgeSpec := mkEdgeSpec {
  es_from : string;
  es_to : string;
  es_transform : string;
  es_delta : option f64;
}.

Record GraphPolicySpec := mkGraphPolicy {
  gp_graph : GraphMetaSpec;
  gp_nodes : list NodeSpec;
  gp_edges : list EdgeSpec;
}.

(** [toml::from_str] at [GraphPolicySpec]. *)
Class GraphToml := graph_toml : string → option GraphPolicySpec.

(* ------------------------------------------------------------------ *)
(** ** Compilation *)

Definition bad_policy {A} (ctx : string) (message : Message) : LResult A := Err (invalid_policy ctx message).

(** [NodeId::new] with its error as a policy error. *)
Definition policy_node_id (ctx value : string) : LResult NodeId :=
  match NodeId_new value with
  | Ok id => Ok id
  | Err _ => bad_policy ctx [Txt "node ids must be non-empty, got '"; Txt value; Txt "'"]
  end.

(** One node of the loop over the declared nodes, with the ids seen so far. *)
Definition declare_node (ctx : string) (seen_ids : gset string) (node : NodeSpec) : LResult (gset string) :=
  if is_blank (ns_id node) then bad_policy ctx [Txt "node id must not be empty"]
  else if bool_decide (ns_id node ∈ seen_ids)
  then bad_policy ctx [Txt "duplicate node id '"; Txt (ns_id node); Txt "'"]
  else Ok ({[ns_id node]} ∪ seen_ids).

Definition check_endpoints (ctx : string) (seen_ids : gset string) (edge : EdgeSpec) : LResult () :=
  if negb (bool_decide (es_from edge ∈ seen_ids))
  then bad_policy ctx [Txt "edge from='"; Txt (es_from edge); Txt "' references undeclared node"]
  else if negb (bool_decide (es_to edge ∈ seen_ids))
  then bad_policy ctx [Txt "edge to='"; Txt (es_to edge); Txt "' references undeclared node"]
  else Ok ().

Definition validate_graph_spec (spec : GraphPolicySpec) (ctx : string) : LResult () :=
  if is_blank (gm_name (gp_graph spec)) then bad_policy ctx [Txt "graph.name must not be empty"]
  else if is_blank (gm_version (gp_graph spec)) then bad_policy ctx [Txt "graph.version must not be empty"]
  else
    seen_ids ← try_fold (declare_node ctx) ∅ (gp_nodes spec);
    try_iter (check_endpoints ctx seen_ids) (gp_edges spec).

Definition compile_decision (s ctx : string) : LResult Decision :=
  if String.eqb s "permit" then Ok Permit
  else if String.eqb s "deny" then Ok Deny
  else if String.eqb s "escalate" then Ok Escalate
  else bad_policy ctx [Txt "unknown decision '"; Txt s; Txt "'; expected permit, deny, or escalate"].

Definition compile_gate_logic (s ctx : string) : LResult GateLogic :=
  if String.eqb s "first_match" then Ok FirstMatch
  else if String.eqb s "all_must_pass" then Ok AllMustPass
  else if String.eqb s "any_must_pass" then Ok AnyMustPass
  else bad_policy ctx [Txt "unknown combination '"; Txt s;
                       Txt "'; expected first_match, all_must_pass, or any_must_pass"].

Definition compile_gate (spec : GateSpec) (ctx : string) : LResult Gate :=
  decision ← compile_decision (gs_decision spec) ctx;
  if String.eqb (gs_gate_type spec) "prefix_match" then
    pattern ← ok_or (gs_pattern spec) (invalid_policy ctx [Txt "prefix_match gate requires 'pattern'"]);
    Ok (PrefixMatch pattern decision)
  else if String.eqb (gs_gate_type spec) "exact_match" then
    value ← ok_or (gs_value spec) (invalid_policy ctx [Txt "exact_match gate requires 'value'"]);
    Ok (ExactMatch value decision)
  else if String.eqb (gs_gate_type spec) "content_match" then
    regex ← ok_or (gs_regex spec) (invalid_policy ctx [Txt "content_match gate requires 'regex'"]);
    Ok (ContentMatch regex decision)
  else if String.eqb (gs_gate_type spec) "threshold_gate" then
    field ← ok_or (gs_field spec) (invalid_policy ctx [Txt "threshold_gate requires 'field'"]);
    min ← ok_or (gs_min spec) (invalid_policy ctx [Txt "threshold_gate requires 'min'"]);
    Ok (ThresholdGate field min decision)
  else if String.eqb (gs_gate_type spec) "peer_relative" then
    field ← ok_or (gs_field spec) (invalid_policy ctx [Txt "peer_relative gate requires 'field'"]);
    percentile ← ok_or (gs_percentile spec)
                   (invalid_policy ctx [Txt "peer_relative gate requires 'percentile'"]);
    Ok (PeerRelative field percentile decision)
  else bad_policy ctx
         [Txt "unsupported gate type '"; Txt (gs_gate_type spec);
          Txt "'; expected prefix_match, exact_match, content_match, threshold_gate, or peer_relative"].

Definition compile_binary_node (id : NodeId) (name : string) (spec : NodeSpec) (ctx : string)
    : LResult GovernanceNode :=
  default_ ← compile_decision (default "deny" (ns_default spec)) ctx;
  combination ← compile_gate_logic (default "first_match" (ns_combination spec)) ctx;
  gates ← try_map (λ g, compile_gate g ctx) (ns_gates spec);
  Ok (Binary id name gates default_ combination).

Definition compile_threshold_node (id : NodeId) (name : string) (spec : NodeSpec) (ctx : string)
    : LResult GovernanceNode :=
  threshold ← ok_or (ns_threshold spec)
    (invalid_policy ctx [Txt "threshold node '"; Txt (ns_id spec); Txt "' requires 'threshold' field"]);
  field ← ok_or (ns_field spec)
    (invalid_policy ctx [Txt "threshold node '"; Txt (ns_id spec); Txt "' requires 'field'"]);
  if is_blank field
  then bad_policy ctx [Txt "threshold node '"; Txt (ns_id spec); Txt "' field must not be empty"]
  else Ok (Threshold id name threshold field).

Definition compile_node (spec : NodeSpec) (ctx : string) : LResult GovernanceNode :=
  id ← policy_node_id ctx (ns_id spec);
  let name := default (ns_id spec) (ns_name spec) in
  if String.eqb (ns_node_type spec) "binary" then compile_binary_node id name spec ctx
  else if String.eqb (ns_node_type spec) "threshold" then compile_threshold_node id name spec ctx
  else bad_policy ctx [Txt "unsupported node type '"; Txt (ns_node_type spec);
                       Txt "'; expected 'binary' or 'threshold'"].

Definition compile_transform (spec : EdgeSpec) (ctx : string) : LResult EdgeTransform :=
  if String.eqb (es_transform spec) "pass_through" then Ok PassThrough
  else if String.eqb (es_transform spec) "claim_modification" then
    delta ← ok_or (es_delta spec) (invalid_policy ctx [Txt "claim_modification requires 'delta'"]);
    if negb (f64_is_finite delta)
    then bad_policy ctx [Txt "claim_modification delta must be finite, got "; Num delta]
    else Ok (ClaimModification delta)
  else bad_policy ctx [Txt "unknown transform '"; Txt (es_transform spec);
                       Txt "'; expected pass_through or claim_modification"].

Section with_regex.
Context `{RegexEngine}.

(** One iteration of the loops of [try_into_graph]. *)
Definition install_node (ctx : string) (builder : GraphBuilder) (spec : NodeSpec) : LResult GraphBuilder :=
  node ← compile_node spec ctx;
  add_node builder node.

Definition install_edge (ctx : string) (builder : GraphBuilder) (spec : EdgeSpec) : LResult GraphBuilder :=
  from ← policy_node_id ctx (es_from spec);
  to ← policy_node_id ctx (es_to spec);
  transform ← compile_transform spec ctx;
  add_edge builder from to transform.

(** [GraphPolicySpec::try_into_graph] *)
Definition try_into_graph (spec : GraphPolicySpec) (ctx : string) : LResult GovernanceGraph :=
  _ ← validate_graph_spec spec ctx;
  builder ← GraphBuilder_new;
  builder ← try_fold (install_node ctx) builder (gp_nodes spec);
  builder ← try_fold (install_edge ctx) builder (gp_edges spec);
  build builder.

Context `{GraphToml}.

Definition parse_graph_str_with_context (input context : string) : LResult GraphPolicySpec :=
  ok_or (graph_toml input) (PolicyToml context).

Definition parse_graph_str (input : string) : LResult GraphPolicySpec :=
  parse_graph_str_with_context input "<inline graph policy>".

(** [read] is what reading the file at [path] gives. *)
Definition parse_graph_file (read : option string) (path : string) : LResult GraphPolicySpec :=
  input ← ok_or read (PolicyRead path);
  parse_graph_str_with_context input path.

Definition load_graph_str (input : string) : LResult GovernanceGraph :=
  spec ← parse_graph_str input;
  try_into_graph spec "<inline graph policy>".

Definition load_graph_file (read : option string) (path : string) : LResult GovernanceGraph :=
  spec ← parse_graph_file read path;
  try_into_graph spec path.
End with_regex.

(* ------------------------------------------------------------------ *)
(** * What loading a graph policy gives

    A policy compiles exactly when its declarations are sound and each node and
    edge compiles; the graph then has one node per declared node and one edge
    per declared edge, in order, and passes the validation of graphs. *)

(** Named, with distinct non-blank identities and edges between them. *)
Record declared (spec : GraphPolicySpec) : Prop := {
  dc_name : is_blank (gm_name (gp_graph spec)) = false;
  dc_version : is_blank (gm_version (gp_graph spec)) = false;
  dc_ids : Forall (λ s, is_blank (ns_id s) = false) (gp_nodes spec);
  dc_distinct : NoDup (ns_id <$> gp_nodes spec);
  dc_edges : Forall (λ e, es_from e ∈ ns_id <$> gp_nodes spec ∧ es_to e ∈ ns_id <$> gp_nodes spec) (gp_edges spec);
}.

(** An edge of the graph and its declaration. *)
Definition edge_compiles (ctx : string) (s : EdgeSpec) (e : GovernanceEdge) : Prop :=
  from e = es_from s ∧ to e = es_to s ∧ compile_transform s ctx = Ok (transform e).

Lemma declare_nodes_Ok ctx seen l seen' :
  try_fold (declare_node ctx) seen l = Ok seen' ↔
  Forall (λ s, is_blank (ns_id s) = false) l ∧ NoDup (ns_id <$> l) ∧ Forall (λ s, ns_id s ∉ seen) l ∧
  seen' = list_to_set (reverse (ns_id <$> l)) ∪ seen.
Proof.
  revert seen. induction l as [|s l IH]; intros seen; cbn [try_fold].
  { change (list_to_set (reverse (ns_id <$> [])) ∪ seen) with (∅ ∪ seen). rewrite union_empty_l_L.
    split; [intros [= ->]; repeat split; constructor|naive_solver]. }
  rewrite fmap_cons, NoDup_cons, !Forall_cons.
  destruct (declare_node ctx seen s) as [seen1|e] eqn:Hd; unfold declare_node, bad_policy in Hd; cbn [mbind Result_bind].
  2: { split; [done|]. intros ([Hb _] & _ & [Hs _] & _). rewrite Hb, bool_decide_false in Hd by done. done. }
  destruct (is_blank (ns_id s)); [done|]. case_bool_decide as Hs; [done|]. injection Hd as <-.
  rewrite IH, reverse_cons, list_to_set_app_L.
  assert (Forall (λ s', ns_id s' ∉ {[ns_id s]} ∪ seen) l ↔
    (ns_id s ∉ ns_id <$> l) ∧ Forall (λ s', ns_id s' ∉ seen) l) as ->.
  { rewrite !Forall_forall. split.
    - intros Hf. split; [|set_solver]. intros (s' & Heq & Hin)%list_elem_of_fmap.
      apply (Hf s' Hin). rewrite Heq. set_solver.
    - intros [Hn Hf] s' Hin [Heq%elem_of_singleton|?]%elem_of_union; [|by apply (Hf s')].
      apply Hn. rewrite <-Heq. by apply list_elem_of_fmap_2. }
  assert (list_to_set (reverse (ns_id <$> l)) ∪ ({[ns_id s]} ∪ seen) =
    list_to_set (reverse (ns_id <$> l)) ∪ list_to_set [ns_id s] ∪ seen) as -> by set_solver.
  naive_solver.
Qed.

Lemma validate_graph_spec_Ok spec ctx : validate_graph_spec spec ctx = Ok () ↔ declared spec.
Proof.
  unfold validate_graph_spec, bad_policy.
  destruct (is_blank (gm_name _)) eqn:Hn; [split; [done|intros []; congruence]|].
  destruct (is_blank (gm_version _)) eqn:Hv; [split; [done|intros []; congruence]|].
  assert (∀ seen, try_iter (check_endpoints ctx seen) (gp_edges spec) = Ok () ↔
    Forall (λ e, es_from e ∈ seen ∧ es_to e ∈ seen) (gp_edges spec)) as He.
  { intros seen. rewrite try_iter_Ok. apply Forall_proper; [|done]. intros e. unfold check_endpoints, bad_policy.
    case_bool_decide; cbn [negb]; [|naive_solver]. case_bool_decide; naive_solver. }
  pose proof (declare_nodes_Ok ctx ∅ (gp_nodes spec)) as Hd.
  destruct (try_fold _ _ _) as [seen|e]; cbn [mbind Result_bind].
  - destruct (proj1 (Hd seen) eq_refl) as (Hi & Hnd & _ & ->). rewrite He, union_empty_r_L. split.
    + intros Hall. split; try done. eapply Forall_impl; [exact Hall|]. intros e. set_solver.
    + intros [_ _ _ _ Hall]. eapply Forall_impl; [exact Hall|]. intros e. set_solver.
  - split; [done|]. intros [_ _ Hi Hnd _].
    destruct (Hd (list_to_set (reverse (ns_id <$> gp_nodes spec)) ∪ ∅)) as [_ Hd'].
    discriminate Hd'. split_and!; [done|done| |done]. apply Forall_forall. set_solver.
Qed.

Lemma policy_node_id_Ok ctx value : is_blank value = false → policy_node_id ctx value = Ok value.
Proof. unfold policy_node_id, NodeId_new. by intros ->. Qed.

Lemma compile_node_id s ctx n : compile_node s ctx = Ok n → node_id n = ns_id s.
Proof.
  unfold compile_node, policy_node_id, NodeId_new, bad_policy. destruct (is_blank (ns_id s)); [done|].
  cbn [mbind Result_bind]. repeat case_match; intros Hc; try done;
    unfold compile_binary_node, compile_threshold_node in Hc; invert_binds; try done.
  destruct (is_blank _); [done|]. by injection Hc as <-.
Qed.

Section compiled.
Context `{RegexEngine} (ctx : string).

(** The graph a policy declares. *)
Record compiles (spec : GraphPolicySpec) (g : GovernanceGraph) : Prop := {
  cp_valid : ∀ s, s ∈ gp_nodes spec → ∃ n, compile_node s ctx = Ok n ∧ validate_governance_node n = Ok ();
  cp_nodes : ∀ id n, nodes g !! id = Some n ↔
    ∃ s, s ∈ gp_nodes spec ∧ ns_id s = id ∧ compile_node s ctx = Ok n;
  cp_edges : Forall2 (edge_compiles ctx) (gp_edges spec) (edges g);
}.

Lemma install_node_Ok b s b' :
  b_nodes b !! ns_id s = None →
  install_node ctx b s = Ok b' ↔
  ∃ n, compile_node s ctx = Ok n ∧ validate_governance_node n = Ok () ∧
    b' = mkBuilder (<[ns_id s := n]> (b_nodes b)) (b_edges b).
Proof.
  intros Hb. unfold install_node, add_node.
  destruct (compile_node s ctx) as [n|e] eqn:Hc; cbn [mbind Result_bind]; [|by split; [|intros (? & ? & _)]].
  apply compile_node_id in Hc as Hid. rewrite Hid.
  destruct (validate_governance_node n) as [[]|e] eqn:Hv; cbn [mbind Result_bind].
  2: { split; [done|]. intros (n' & [= <-] & Hv' & _). congruence. }
  rewrite Hb. split; [intros [= <-]; by exists n|]. by intros (n' & [= <-] & _ & ->).
Qed.

Lemma install_nodes_Ok b l b' :
  NoDup (ns_id <$> l) → (∀ s, s ∈ l → b_nodes b !! ns_id s = None) →
  try_fold (install_node ctx) b l = Ok b' ↔
  b_edges b' = b_edges b ∧
  (∀ s, s ∈ l → ∃ n, compile_node s ctx = Ok n ∧ validate_governance_node n = Ok ()) ∧
  (∀ id n, b_nodes b' !! id = Some n ↔
     b_nodes b !! id = Some n ∨ ∃ s, s ∈ l ∧ ns_id s = id ∧ compile_node s ctx = Ok n).
Proof.
  revert b. induction l as [|s l IH]; intros b Hnd Hb; cbn [try_fold].
  { split; [intros [= ->]; set_solver|]. intros (He & _ & Hn). destruct b, b'; simpl in *. subst. do 2 f_equal.
    apply map_eq. intros id. apply option_eq. intros n. specialize (Hn id n). set_solver. }
  rewrite fmap_cons, NoDup_cons in Hnd. destruct Hnd as [Hs Hnd].
  pose proof (install_node_Ok b s) as Hi.
  destruct (install_node ctx b s) as [b1|e] eqn:Hstep; cbn [mbind Result_bind].
  - destruct (proj1 (Hi b1 (Hb s ltac:(by left))) eq_refl) as (n & Hc & Hv & ->). rewrite IH; [|done|].
    + simpl. setoid_rewrite lookup_insert_Some. split.
      * intros (He & Hall & Hn). split_and!; [done| |].
        -- intros s' [->|?]%elem_of_cons; eauto.
        -- intros id m. rewrite Hn. split.
           ++ intros [[[<- <-]|[? ?]]|(s' & ? & ? & ?)]; [|by left|]; right; eexists; (split; [by constructor|done]).
           ++ intros [Hbm|(s' & [->|?]%elem_of_cons & <- & Hm)].
              ** left. right. split; [|done]. intros <-. rewrite (Hb s) in Hbm; [done|by left].
              ** left. left. split; congruence.
              ** right. eauto.
      * intros (He & Hall & Hn). split_and!; [done| |].
        -- intros s' ?. apply Hall. by right.
        -- intros id m. rewrite Hn. split.
           ++ intros [Hbm|(s' & [->|?]%elem_of_cons & <- & Hm)].
              ** left. right. split; [|done]. intros <-. rewrite (Hb s) in Hbm; [done|by left].
              ** left. left. split; congruence.
              ** right. eauto.
           ++ intros [[[<- <-]|[? ?]]|(s' & ? & ? & ?)]; [|by left|]; right; eexists; (split; [by constructor|done]).
    + intros s' Hs'. simpl. rewrite lookup_insert_ne; [apply Hb; by right|].
      intros Heq. apply Hs. rewrite Heq. by apply list_elem_of_fmap_2.
  - split; [done|]. intros (_ & Hall & _). destruct (Hall s) as (n & Hc & Hv); [by left|].
    destruct (Hi (mkBuilder (<[ns_id s := n]> (b_nodes b)) (b_edges b)) (Hb s ltac:(by left))) as [_ Hi'].
    discriminate Hi'. eauto.
Qed.

Lemma compile_transform_edge s tr :
  compile_transform s ctx = Ok tr → GovernanceEdge_new (es_from s) (es_to s) tr = Ok (mkEdge (es_from s) (es_to s) tr).
Proof using Type.
  unfold compile_transform, bad_policy. intros Ht. repeat case_match; try done.
  - by injection Ht as <-.
  - invert_binds. destruct (f64_is_finite a) eqn:Hf; [|done].
    injection Ht as <-. unfold GovernanceEdge_new. by rewrite Hf.
Qed.

Lemma install_edge_Ok b s b' :
  is_blank (es_from s) = false → is_blank (es_to s) = false →
  install_edge ctx b s = Ok b' ↔
  ∃ e, edge_compiles ctx s e ∧ b' = mkBuilder (b_nodes b) (b_edges b ++ [e]).
Proof using Type.
  intros Hf Ht. unfold install_edge, edge_compiles. rewrite !policy_node_id_Ok by done. cbn [mbind Result_bind].
  destruct (compile_transform s ctx) as [tr|e] eqn:Htr; cbn [mbind Result_bind].
  2: { split; [done|]. by intros (? & (_ & _ & ?) & _). }
  unfold add_edge. rewrite (compile_transform_edge _ _ Htr). cbn [mbind Result_bind]. split.
  - intros [= <-]. by exists (mkEdge (es_from s) (es_to s) tr).
  - intros ([f t tr'] & (Hef & Het & Hetr) & ->). simpl in *. injection Hetr as <-. by subst.
Qed.

Lemma install_edges_Ok b l b' :
  Forall (λ s, is_blank (es_from s) = false ∧ is_blank (es_to s) = false) l →
  try_fold (install_edge ctx) b l = Ok b' ↔
  ∃ es, Forall2 (edge_compiles ctx) l es ∧ b' = mkBuilder (b_nodes b) (b_edges b ++ es).
Proof using Type.
  intros Hall. revert b. induction Hall as [|s l [Hf Ht] Hall IH]; intros b; cbn [try_fold].
  { split.
    - intros [= <-]. exists []. rewrite app_nil_r. by destruct b.
    - intros (es & ->%Forall2_nil_inv_l & ->). rewrite app_nil_r. by destruct b. }
  pose proof (install_edge_Ok b s) as Hi.
  destruct (install_edge ctx b s) as [b1|e] eqn:Hstep; cbn [mbind Result_bind].
  - destruct (proj1 (Hi b1 Hf Ht) eq_refl) as (e & He & ->). rewrite IH. simpl. split.
    + intros (es & Hes & ->). exists (e :: es). rewrite <-app_assoc. split; [by constructor|done].
    + intros (es & Hes & ->). apply Forall2_cons_inv_l in Hes as (e' & es' & He' & Hes & ->).
      assert (e' = e) as ->; [|exists es'; by rewrite <-app_assoc]. destruct He as (? & ? & ?), He' as (? & ? & ?).
      destruct e, e'; simpl in *. congruence.
  - split; [done|]. intros (es & Hes & ->). apply Forall2_cons_inv_l in Hes as (e' & es' & He' & Hes & ->).
    destruct (Hi (mkBuilder (b_nodes b) (b_edges b ++ [e'])) Hf Ht) as [_ Hi']. discriminate Hi'. eauto.
Qed.

(** The edges of a declared policy join its nodes. *)
Lemma declared_endpoints spec g :
  declared spec → compiles spec g → ∀ e, e ∈ edges g → is_Some (nodes g !! from e) ∧ is_Some (nodes g !! to e).
Proof using Type.
  intros Hd [Hv Hn He] e Hin.
  apply list_elem_of_lookup in Hin as [i Hi]. destruct (Forall2_lookup_r _ _ _ _ _ He Hi) as (s & Hs & Hf & Ht & _).
  pose proof (proj1 (Forall_forall _ _) (dc_edges spec Hd) s (list_elem_of_lookup_2 _ _ _ Hs)) as [Hfi Hti].
  rewrite Hf, Ht. apply list_elem_of_fmap in Hfi as (sf & -> & Hsf), Hti as (st & -> & Hst).
  destruct (Hv sf Hsf) as (nf & Hnf & _), (Hv st Hst) as (nt & Hnt & _).
  split; [exists nf|exists nt]; apply Hn; eauto.
Qed.

Lemma try_into_graph_Ok spec g : try_into_graph spec ctx = Ok g ↔ declared spec ∧ compiles spec g.
Proof using Type.
  unfold try_into_graph. pose proof (validate_graph_spec_Ok spec ctx) as Hd.
  destruct (validate_graph_spec spec ctx) as [[]|e]; cbn [mbind Result_bind].
  2: { split; [done|]. intros [Hdecl _]. by apply Hd in Hdecl. }
  destruct Hd as [Hd _]. specialize (Hd eq_refl). cbn [GraphBuilder_new mbind Result_bind].
  assert (Forall (λ s, is_blank (es_from s) = false ∧ is_blank (es_to s) = false) (gp_edges spec)) as Hends.
  { eapply Forall_impl; [exact (dc_edges spec Hd)|]. intros e [Hf Ht].
    apply list_elem_of_fmap in Hf as (sf & -> & Hsf), Ht as (st & -> & Hst).
    pose proof (proj1 (Forall_forall _ _) (dc_ids spec Hd)). auto. }
  pose proof (λ b', install_nodes_Ok (mkBuilder ∅ []) (gp_nodes spec) b' (dc_distinct spec Hd)
    ltac:(intros s _; apply lookup_empty)) as Hi.
  destruct (try_fold (install_node ctx) _ _) as [b1|e]; cbn [mbind Result_bind].
  - destruct (proj1 (Hi b1) eq_refl) as (He & Hv & Hn). simpl in He, Hn.
    setoid_rewrite lookup_empty in Hn. split.
    + intros Hg. destruct_bind Hg Hedges. apply (install_edges_Ok b1 _ _ Hends) in Hedges as (es & Hes & ->).
      apply build_Ok in Hg as (Hgn & Hge & _). simpl in *. split; [done|]. split; [done| |].
      * intros id n. rewrite Hgn, Hn. naive_solver.
      * by rewrite Hge, He.
    + intros [_ Hg]. pose proof (declared_endpoints spec g Hd Hg) as Hjoin. destruct Hg as [_ Hgn Hge].
      rewrite (proj2 (install_edges_Ok b1 _ (mkBuilder (b_nodes b1) (edges g)) Hends)).
      2: { exists (edges g). by rewrite He. }
      cbn [mbind Result_bind].
      assert (b_nodes b1 = nodes g) as Hbn.
      { apply map_eq. intros id. apply option_eq. intros n. rewrite Hn, Hgn. naive_solver. }
      unfold build. simpl. rewrite Hbn.
      assert (try_iter (λ edge, _ ← ok_or (nodes g !! from edge) (InvalidEdgeReference (from edge));
        _ ← ok_or (nodes g !! to edge) (InvalidEdgeReference (to edge)); Ok ()) (edges g) = Ok ()) as ->.
      { apply try_iter_Ok, Forall_forall. intros e Hin. by destruct (Hjoin e Hin) as [[? ->] [? ->]]. }
      cbn [mbind Result_bind]. by destruct g.
  - split; [done|]. intros [_ [Hv Hn He]]. destruct (Hi (mkBuilder (nodes g) [])) as [_ Hi']. discriminate Hi'.
    split_and!; [done|done|]. intros id n. simpl. rewrite Hn, lookup_empty. naive_solver.
Qed.

Lemma compiled_graph_valid spec g : declared spec → compiles spec g → validate_governance_graph g = Ok ().
Proof using Type.
  intros Hd Hc. pose proof (declared_endpoints spec g Hd Hc) as Hjoin.
  apply validate_governance_graph_Ok. split.
  - intros k n (s & Hs & <- & Hcn)%Hc. split; [by eapply compile_node_id|].
    destruct (cp_valid _ _ Hc s Hs) as (n' & Hcn' & ?). congruence.
  - intros e Hin. unfold validate_graph_edge. destruct (Hjoin e Hin) as [[? ->] [? ->]]. cbn [ok_or mbind Result_bind].
    apply list_elem_of_lookup in Hin as [i Hi].
    destruct (Forall2_lookup_r _ _ _ _ _ (cp_edges _ _ Hc) Hi) as (s & _ & _ & _ & Ht).
    apply compile_transform_edge, GovernanceEdge_new_Ok in Ht as (_ & _ & _ & Hfin).
    destruct (transform e) as [|d] eqn:Htr; [done|]. by rewrite (Hfin d eq_refl).
Qed.

(** C26: a graph policy loads exactly when it is named and versioned, its nodes
    have distinct non-blank identities, its edges join declared nodes, and
    every node compiles to a valid node and every edge to a transform; the
    graph has then exactly the compiled nodes and, in order, the compiled
    edges, and it passes the validation of governance graphs. *)
Theorem graph_policy_exact spec g :
  (try_into_graph spec ctx = Ok g ↔ declared spec ∧ compiles spec g) ∧
  (try_into_graph spec ctx = Ok g → validate_governance_graph g = Ok ()).
Proof using Type.
  split; [apply try_into_graph_Ok|]. intros [Hd Hc]%try_into_graph_Ok. by apply compiled_graph_valid with spec.
Qed.
End compiled.
