(* ===== verification/Composition.v ===== *)
(** * Composition of a trajectory with its policy (src/trajectory/composition.rs)

    The one supported composition policy, decoded, checked against its profile
    and its canonical bytes, and compiled to a governance graph; every event of
    a replayed trace as a claim of that graph, alone and in every observed
    prefix; the classification of the trajectory.  The toml crate at the type
    of the envelope is the parameter [CompositionToml]. *)

From S2P Require Import Prelude Encoding F64 F64Bits Errors Core GraphNode Tarjan GraphTraverse Trajectory JsonScan WireJson TraceValidation TraceCanonical TraceValidationSpec TraceBudgetSpec TraceSpec Replay ReplayAuthority ReplaySpec PolicyGraph.
From Stdlib Require Import Ascii.
From stdpp Require Import options.

Definition TRAJECTORY_COMPOSITION_POLICY_FORMAT_V0 : string := "legitimacy.trajectory-composition.policy".
Definition TRAJECTORY_COMPOSITION_POLICY_FORMAT_VERSION_V0 : string := "0".
Definition TRAJECTORY_COMPOSITION_POLICY_ID_V0 : string := "policy.trajectory-composition.peer-half".
Definition TRAJECTORY_COMPOSITION_POLICY_VERSION_V0 : string := "0".
Definition OCCURRENCE_ENCODER_ID_V0 : string := "legitimacy.trajectory-composition.occurrence-index-strength".
Definition OCCURRENCE_ENCODER_VERSION_V0 : string := "0".
Definition HISTORICAL_PROPERTY_ID_V0 : string := "legitimacy.trajectory-composition.every-observed-prefix-green".
Definition HISTORICAL_PROPERTY_VERSION_V0 : string := "0".
Definition MAX_TRAJECTORY_COMPOSITION_POLICY_BYTES_V0 : Z := 691.
Definition TRAJECTORY_COMPOSITION_RESULT_FORMAT_V0 : string := "legitimacy.trajectory-composition.result".
Definition TRAJECTORY_COMPOSITION_RESULT_VERSION_V0 : string := "0".
Definition MAX_TRAJECTORY_COMPOSITION_RESULT_BYTES_V0 : Z := 16 * 1024 * 1024.
Definition GRAPH_NAME_V0 : string := "trajectory-composition-peer-half".
Definition GRAPH_VERSION_V0 : string := "0".
Definition NODE_ID_V0 : string := "peer-half".

Inductive TrajectoryCompositionErrorCodeV0 :=
  | PolicyTooLarge | ReplayPairMismatch | PolicyDigestMismatch | PolicyIdentityMismatch
  | PolicyVersionMismatch | PolicyEncoding | PolicyShape | UnsupportedPolicyProfile
  | NonCanonicalPolicy | GraphCompilation | EventReplayMismatch | OccurrenceOverflow
  | GraphEvaluation | NonBinaryDecision | ResultTooLarge | ResultSerialization.

Abbreviation CompositionResultV0 := (Result TrajectoryCompositionErrorCodeV0).

(* ------------------------------------------------------------------ *)
(** ** Data *)

(** The flattened graph specification is the field [pe_graph]. *)
Record TrajectoryCompositionPolicyEnvelopeV0 := mkEnvelope {
  pe_policy_format : string;
  pe_policy_format_version : string;
  pe_policy_identity : string;
  pe_policy_version : string;
  pe_occurrence_encoder_identity : string;
  pe_occurrence_encoder_version : string;
  pe_historical_property_identity : string;
  pe_historical_property_version : string;
  pe_graph : GraphPolicySpec;
}.

(** [toml::from_str] at the type of the envelope. *)
Class CompositionToml := composition_toml : string → option TrajectoryCompositionPolicyEnvelopeV0.

Record ExecutableTrajectoryCompositionPolicyV0 := mkExecutable {
  xp_canonical_bytes : string;
  xp_artifact_digest : string;
  xp_graph : GovernanceGraph;
}.

Inductive BinaryPolicyDecisionV0 := BPermit | BDeny.

Global Instance BinaryPolicyDecisionV0_eq_dec : EqDecision BinaryPolicyDecisionV0.
Proof. solve_decision. Defined.

Record EncodedOccurrenceClaimV0 := mkOccurrence {
  oc_occurrence_index : u64;
  oc_claimant_wire_id : string;
  oc_strength_numerator : u64;
  oc_strength_denominator : u64;
  oc_event_id : string;
  oc_kind : NormalizedEventKindV0;
  oc_source_item_id : option string;
  oc_raw_record_digest : string;
  oc_canonical_event_digest : string;
}.

Record EventPolicyReceiptV0 := mkEventReceipt {
  er_claim : EncodedOccurrenceClaimV0;
  er_singleton_decision : BinaryPolicyDecisionV0;
}.

Record ObservedPrefixReceiptV0 := mkPrefixReceipt {
  op_prefix_length : u64;
  op_decision : BinaryPolicyDecisionV0;
  op_least_denied_occurrence_index : option u64;
}.

Inductive TemporalCompositionClassificationV0 :=
  | LocalFailure (occurrence_index : u64) (event_id : string) (decision : BinaryPolicyDecisionV0)
  | AllSingletonsPermitAndSafe (checked_prefix_count : u64)
  | AllSingletonsPermitAndEarliestViolation (transition_index prefix_length denied_occurrence_index : u64)
      (denied_event_id : string) (decision : BinaryPolicyDecisionV0).

Record TemporalCompositionResultV0 := mkTemporal {
  tr_classification : TemporalCompositionClassificationV0;
  tr_observed_prefixes : list ObservedPrefixReceiptV0;
}.

Record TrajectoryCompositionPolicyArtifactV0 := mkPolicyArtifact {
  pa_identity : string;
  pa_version : string;
  pa_artifact_digest : string;
  pa_canonical_bytes : string;
  pa_occurrence_encoder_identity : string;
  pa_occurrence_encoder_version : string;
  pa_historical_property_identity : string;
  pa_historical_property_version : string;
}.

Record TrajectoryCompositionResultV0 := mkCompositionResult {
  cr_result_format : string;
  cr_result_version : string;
  cr_trajectory_digest : string;
  cr_replay_final_head : string;
  cr_policy : TrajectoryCompositionPolicyArtifactV0;
  cr_event_receipts : list EventPolicyReceiptV0;
  cr_temporal : TemporalCompositionResultV0;
}.

Record PreparedTrajectoryCompositionV0 := mkPrepared {
  pc_policy : ExecutableTrajectoryCompositionPolicyV0;
  pc_trajectory_digest : string;
  pc_replay_final_head : string;
  pc_claims : list GovernanceClaim;
  pc_receipts : list EventPolicyReceiptV0;
}.

(* ------------------------------------------------------------------ *)
(** ** The policy *)

Definition ensure_policy_size_v0 (exact_bytes : string) : CompositionResultV0 () :=
  if (MAX_TRAJECTORY_COMPOSITION_POLICY_BYTES_V0 <? byte_len exact_bytes)%Z then Err PolicyTooLarge else Ok ().

Definition str_is (value expected : string) : bool := String.eqb value expected.
Definition option_is (value : option string) (expected : string) : bool :=
  bool_decide (value = Some expected).
Definition none {A} (value : option A) : bool := match value with None => true | Some _ => false end.

Definition supported_envelope (e : TrajectoryCompositionPolicyEnvelopeV0) : bool :=
  str_is (pe_policy_format e) TRAJECTORY_COMPOSITION_POLICY_FORMAT_V0
  && str_is (pe_policy_format_version e) TRAJECTORY_COMPOSITION_POLICY_FORMAT_VERSION_V0
  && str_is (pe_policy_identity e) TRAJECTORY_COMPOSITION_POLICY_ID_V0
  && str_is (pe_policy_version e) TRAJECTORY_COMPOSITION_POLICY_VERSION_V0
  && str_is (pe_occurrence_encoder_identity e) OCCURRENCE_ENCODER_ID_V0
  && str_is (pe_occurrence_encoder_version e) OCCURRENCE_ENCODER_VERSION_V0
  && str_is (pe_historical_property_identity e) HISTORICAL_PROPERTY_ID_V0
  && str_is (pe_historical_property_version e) HISTORICAL_PROPERTY_VERSION_V0
  && str_is (gm_name (gp_graph (pe_graph e))) GRAPH_NAME_V0
  && str_is (gm_version (gp_graph (pe_graph e))) GRAPH_VERSION_V0
  && (length (gp_edges (pe_graph e)) =? 0)
  && (length (gp_nodes (pe_graph e)) =? 1).

Definition supported_node (node : NodeSpec) : bool :=
  str_is (ns_id node) NODE_ID_V0
  && str_is (ns_node_type node) "binary"
  && option_is (ns_name node) NODE_ID_V0
  && option_is (ns_default node) "deny"
  && option_is (ns_combination node) "first_match"
  && none (ns_threshold node)
  && none (ns_field node)
  && (length (ns_gates node) =? 1).

(** [0.5] *)
Definition half : f64 := f64_lit 1 2.

Definition supported_gate (gate : GateSpec) : bool :=
  str_is (gs_gate_type gate) "peer_relative"
  && none (gs_pattern gate)
  && none (gs_value gate)
  && none (gs_regex gate)
  && option_is (gs_field gate) "strength"
  && none (gs_min gate)
  && match gs_percentile gate with Some percentile => f64_eqb percentile half | None => false end
  && str_is (gs_decision gate) "permit".

Definition validate_restricted_profile (e : TrajectoryCompositionPolicyEnvelopeV0) : CompositionResultV0 () :=
  if negb (supported_envelope e) then Err UnsupportedPolicyProfile
  else
    node ← ok_or (head (gp_nodes (pe_graph e))) UnsupportedPolicyProfile;
    if negb (supported_node node) then Err UnsupportedPolicyProfile
    else
      gate ← ok_or (head (ns_gates node)) UnsupportedPolicyProfile;
      if negb (supported_gate gate) then Err UnsupportedPolicyProfile else Ok ().

(** The character of a line break and of a quotation mark. *)
Definition newline : string := String LF "".
Definition quotation : string := String (ascii_of_nat 34) "".

(** What [push_quoted_assignment] appends. *)
Definition push_quoted_assignment (key value : string) : string :=
  key +:+ " = " +:+ quotation +:+ value +:+ quotation +:+ newline.

Definition canonical_policy_bytes (e : TrajectoryCompositionPolicyEnvelopeV0) : CompositionResultV0 string :=
  node ← ok_or (head (gp_nodes (pe_graph e))) UnsupportedPolicyProfile;
  gate ← ok_or (head (ns_gates node)) UnsupportedPolicyProfile;
  Ok (push_quoted_assignment "policy_format" (pe_policy_format e) +:+
      push_quoted_assignment "policy_format_version" (pe_policy_format_version e) +:+
      push_quoted_assignment "policy_identity" (pe_policy_identity e) +:+
      push_quoted_assignment "policy_version" (pe_policy_version e) +:+
      push_quoted_assignment "occurrence_encoder_identity" (pe_occurrence_encoder_identity e) +:+
      push_quoted_assignment "occurrence_encoder_version" (pe_occurrence_encoder_version e) +:+
      push_quoted_assignment "historical_property_identity" (pe_historical_property_identity e) +:+
      push_quoted_assignment "historical_property_version" (pe_historical_property_version e) +:+
      newline +:+ "[graph]" +:+ newline +:+
      push_quoted_assignment "name" (gm_name (gp_graph (pe_graph e))) +:+
      push_quoted_assignment "version" (gm_version (gp_graph (pe_graph e))) +:+
      newline +:+ "[[nodes]]" +:+ newline +:+
      push_quoted_assignment "id" (ns_id node) +:+
      push_quoted_assignment "type" (ns_node_type node) +:+
      push_quoted_assignment "name" (default "" (ns_name node)) +:+
      push_quoted_assignment "default" (default "" (ns_default node)) +:+
      push_quoted_assignment "combination" (default "" (ns_combination node)) +:+
      newline +:+ "[[nodes.gates]]" +:+ newline +:+
      push_quoted_assignment "type" (gs_gate_type gate) +:+
      push_quoted_assignment "field" (default "" (gs_field gate)) +:+
      "percentile = 0.5" +:+ newline +:+
      push_quoted_assignment "decision" (gs_decision gate)).

Section composition.
Context `{Sha256, RegexEngine, CompositionToml}.

Definition load_trajectory_composition_policy_v0 (exact_bytes : string) (binding : ArtifactBindingV0)
    : CompositionResultV0 ExecutableTrajectoryCompositionPolicyV0 :=
  _ ← ensure_policy_size_v0 exact_bytes;
  let digest := artifact_digest_v0 exact_bytes in
  if negb (String.eqb digest (ab_hash binding)) then Err PolicyDigestMismatch
  else if negb (utf8_valid exact_bytes) then Err PolicyEncoding
  else
    envelope ← ok_or (composition_toml exact_bytes) PolicyShape;
    if negb (String.eqb (pe_policy_identity envelope) (ab_identity binding)) then Err PolicyIdentityMismatch
    else if negb (String.eqb (pe_policy_version envelope) (ab_version binding)) then Err PolicyVersionMismatch
    else
      _ ← validate_restricted_profile envelope;
      canonical ← canonical_policy_bytes envelope;
      if negb (String.eqb canonical exact_bytes) then Err NonCanonicalPolicy
      else
        graph ← match try_into_graph (pe_graph envelope) "trajectory composition policy v0" with
                | Ok graph => Ok graph
                | Err _ => Err GraphCompilation
                end;
        Ok (mkExecutable canonical digest graph).

(* ------------------------------------------------------------------ *)
(** ** Occurrences *)

(** [BinaryPolicyDecisionV0::try_from] *)
Definition binary_policy_decision (decision : GraphNode.Decision) : CompositionResultV0 BinaryPolicyDecisionV0 :=
  match decision with
  | Permit => Ok BPermit
  | Deny => Ok BDeny
  | Escalate => Err NonBinaryDecision
  end.

(** The claim of an occurrence: its position, counted from one, is its strength. *)
Definition occurrence_wire_id (occurrence_index : u64) : string :=
  "occurrence:" +:+ show_nat (Z.to_nat (u64_val occurrence_index)).
Definition occurrence_claim (occurrence_index strength_numerator : u64) : GovernanceClaim :=
  mkGovernanceClaim (occurrence_wire_id occurrence_index) (f64_of_Z (u64_val strength_numerator))
    None None None None ∅.

(** [source_item_id], when the event has one, must have a value. *)
Definition source_item_value (item : option (EvidencedV0 string)) : CompositionResultV0 (option string) :=
  match item with
  | None => Ok None
  | Some source => value ← ok_or (ev_value source) EventReplayMismatch; Ok (Some value)
  end.

(** One iteration of the loop over the events and their replay records. *)
Definition encode_occurrence (graph : GovernanceGraph)
    (indexed : nat * (AgentActionEventV0 * ReplayRecordV0))
    : CompositionResultV0 (GovernanceClaim * EventPolicyReceiptV0) :=
  let '(index, (event, replay_record)) := indexed in
  occurrence_index ← ok_or (u64_try_from (Z.of_nat index)) OccurrenceOverflow;
  numerator ← ok_or (checked_add (u64_val occurrence_index) 1) OccurrenceOverflow;
  strength_numerator ← ok_or (u64_try_from numerator) OccurrenceOverflow;
  if (MAX_EVENTS_V0 <? u64_val strength_numerator)%Z then Err OccurrenceOverflow
  else
    event_id ← ok_or (ev_value (ae_event_id event)) EventReplayMismatch;
    sequence_index ← ok_or (ev_value (ae_sequence_index event)) EventReplayMismatch;
    kind ← ok_or (ev_value (ae_kind event)) EventReplayMismatch;
    source_item_id ← source_item_value (ae_source_item_id event);
    if negb (bool_decide (sequence_index = occurrence_index))
       || negb (bool_decide (rp_sequence_index replay_record = occurrence_index))
       || negb (String.eqb (rp_event_id replay_record) event_id)
       || negb (String.eqb (rp_raw_record_digest replay_record) (rr_digest (ae_raw_record event)))
    then Err EventReplayMismatch
    else
      let claimant_wire_id := occurrence_wire_id occurrence_index in
      let graph_claim := occurrence_claim occurrence_index strength_numerator in
      decisions ← match traverse_final_decisions graph [graph_claim] with
                  | Ok decisions => Ok decisions
                  | Err _ => Err GraphEvaluation
                  end;
      decision ← ok_or (decisions !! claimant_wire_id) GraphEvaluation;
      singleton_decision ← binary_policy_decision decision;
      Ok (graph_claim,
          mkEventReceipt
            (mkOccurrence occurrence_index claimant_wire_id strength_numerator (u64_lit 1) event_id kind
               source_item_id (rr_digest (ae_raw_record event)) (rp_canonical_event_digest replay_record))
            singleton_decision).

(** [None] is the [expect] that the candidate of a validated trace never meets. *)
Definition prepare_replay_bound_composition_v0 (trace : TrajectoryTraceV0)
    (verified : VerifiedTrajectoryReplayV0) (exact_policy_bytes : string)
    : option (CompositionResultV0 PreparedTrajectoryCompositionV0) :=
  match ensure_policy_size_v0 exact_policy_bytes with
  | Err e => Some (Err e)
  | Ok _ =>
      recomputed_replay ← trajectory_replay_candidate_v0 trace;
      Some
        (if negb (bool_decide (recomputed_replay = vr_replay verified)) then Err ReplayPairMismatch
         else
           policy ← load_trajectory_composition_policy_v0 exact_policy_bytes (tt_policy trace);
           let replay := vr_replay verified in
           if negb (length (tt_events trace) =? length (tc_records replay)) then Err EventReplayMismatch
           else
             occurrences ← try_map (encode_occurrence (xp_graph policy))
                             (enumerate (zip (tt_events trace) (tc_records replay)));
             Ok (mkPrepared policy (tc_trajectory_digest replay) (tc_final_head replay)
                   occurrences.*1 occurrences.*2))
  end.

(* ------------------------------------------------------------------ *)
(** ** Classification *)

(** The loop of [least_denied_occurrence_v0] from position [index]. *)
Fixpoint least_denied_from (decisions : gmap string GraphNode.Decision) (index : nat)
    (claims : list GovernanceClaim) : CompositionResultV0 (option u64) :=
  match claims with
  | [] => Ok None
  | claim :: claims =>
      decision ← ok_or (decisions !! gc_claimant_id claim) GraphEvaluation;
      match decision with
      | Permit => least_denied_from decisions (S index) claims
      | Deny => index ← ok_or (u64_try_from (Z.of_nat index)) OccurrenceOverflow; Ok (Some index)
      | Escalate => Err NonBinaryDecision
      end
  end.

Definition least_denied_occurrence_v0 (claims : list GovernanceClaim)
    (decisions : gmap string GraphNode.Decision) : CompositionResultV0 (option u64) :=
  denied ← least_denied_from decisions 0 claims;
  match denied with
  | Some index => Ok (Some index)
  | None => if negb (size decisions =? length claims) then Err GraphEvaluation else Ok None
  end.

(** The loop over the prefixes from a length on, [remaining] of them. *)
Fixpoint classify_prefixes (prepared : PreparedTrajectoryCompositionV0) (prefix_length remaining : nat)
    (observed_prefixes : list ObservedPrefixReceiptV0) : CompositionResultV0 TemporalCompositionResultV0 :=
  match remaining with
  | O =>
      checked_prefix_count ← ok_or (u64_try_from (vec_len (pc_claims prepared))) OccurrenceOverflow;
      Ok (mkTemporal (AllSingletonsPermitAndSafe checked_prefix_count) observed_prefixes)
  | S remaining =>
      let prefix := take prefix_length (pc_claims prepared) in
      decisions ← match traverse_final_decisions (xp_graph (pc_policy prepared)) prefix with
                  | Ok decisions => Ok decisions
                  | Err _ => Err GraphEvaluation
                  end;
      least_denied ← least_denied_occurrence_v0 prefix decisions;
      prefix_length_u64 ← ok_or (u64_try_from (Z.of_nat prefix_length)) OccurrenceOverflow;
      let observed_prefixes := observed_prefixes ++
        [mkPrefixReceipt prefix_length_u64 (match least_denied with Some _ => BDeny | None => BPermit end)
           least_denied] in
      match least_denied with
      | Some denied_occurrence_index =>
          transition_index ← ok_or (u64_try_from (u64_val prefix_length_u64 - 1)) OccurrenceOverflow;
          denied ← ok_or (usize_try_from denied_occurrence_index) OccurrenceOverflow;
          denied_receipt ← ok_or (pc_receipts prepared !! Z.to_nat denied) GraphEvaluation;
          Ok (mkTemporal
                (AllSingletonsPermitAndEarliestViolation transition_index prefix_length_u64
                   denied_occurrence_index (oc_event_id (er_claim denied_receipt)) BDeny)
                observed_prefixes)
      | None => classify_prefixes prepared (S prefix_length) remaining observed_prefixes
      end
  end.

Definition is_denied (receipt : EventPolicyReceiptV0) : Prop := er_singleton_decision receipt = BDeny.

Definition classify_temporal_composition_v0 (prepared : PreparedTrajectoryCompositionV0)
    : CompositionResultV0 TemporalCompositionResultV0 :=
  match list_find is_denied (pc_receipts prepared) with
  | Some (_, receipt) =>
      Ok (mkTemporal (LocalFailure (oc_occurrence_index (er_claim receipt)) (oc_event_id (er_claim receipt)) BDeny) [])
  | None => classify_prefixes prepared 1 (length (pc_claims prepared)) []
  end.

Definition composition_result (prepared : PreparedTrajectoryCompositionV0)
    (temporal : TemporalCompositionResultV0) : TrajectoryCompositionResultV0 :=
  mkCompositionResult TRAJECTORY_COMPOSITION_RESULT_FORMAT_V0 TRAJECTORY_COMPOSITION_RESULT_VERSION_V0
    (pc_trajectory_digest prepared) (pc_replay_final_head prepared)
    (mkPolicyArtifact TRAJECTORY_COMPOSITION_POLICY_ID_V0 TRAJECTORY_COMPOSITION_POLICY_VERSION_V0
       (xp_artifact_digest (pc_policy prepared)) (xp_canonical_bytes (pc_policy prepared))
       OCCURRENCE_ENCODER_ID_V0 OCCURRENCE_ENCODER_VERSION_V0
       HISTORICAL_PROPERTY_ID_V0 HISTORICAL_PROPERTY_VERSION_V0)
    (pc_receipts prepared) temporal.

Definition evaluate_replay_bound_composition_v0 (trace : TrajectoryTraceV0)
    (verified : VerifiedTrajectoryReplayV0) (exact_policy_bytes : string)
    : option (CompositionResultV0 TrajectoryCompositionResultV0) :=
  prepared ← prepare_replay_bound_composition_v0 trace verified exact_policy_bytes;
  Some
    (prepared ← prepared;
     temporal ← classify_temporal_composition_v0 prepared;
     Ok (composition_result prepared temporal)).
End composition.

(* ------------------------------------------------------------------ *)
(** ** The result on a line *)

Definition optional {A} (node : A → JsonNode) (value : option A) : JsonNode :=
  match value with Some value => node value | None => JNull end.
Definition u64_node (x : u64) : JsonNode := JInteger (u64_val x).
Definition binary_decision_node (d : BinaryPolicyDecisionV0) : JsonNode :=
  JString match d with BPermit => "permit" | BDeny => "deny" end.

(** [serialize_lower_hex] *)
Definition lower_hex_text (bytes : string) : string := put_all hex_pair (bytes_of bytes).

Definition occurrence_node (c : EncodedOccurrenceClaimV0) : JsonNode :=
  struct_node
    ["occurrence_index"; "claimant_wire_id"; "strength_numerator"; "strength_denominator"; "event_id";
     "kind"; "source_item_id"; "raw_record_digest"; "canonical_event_digest"]
    [u64_node (oc_occurrence_index c); JString (oc_claimant_wire_id c); u64_node (oc_strength_numerator c);
     u64_node (oc_strength_denominator c); JString (oc_event_id c); JString (kind_label (oc_kind c));
     optional JString (oc_source_item_id c); JString (oc_raw_record_digest c);
     JString (oc_canonical_event_digest c)].

Definition event_receipt_node (r : EventPolicyReceiptV0) : JsonNode :=
  struct_node ["claim"; "singleton_decision"]
    [occurrence_node (er_claim r); binary_decision_node (er_singleton_decision r)].

Definition prefix_receipt_node (r : ObservedPrefixReceiptV0) : JsonNode :=
  struct_node ["prefix_length"; "decision"; "least_denied_occurrence_index"]
    [u64_node (op_prefix_length r); binary_decision_node (op_decision r);
     optional u64_node (op_least_denied_occurrence_index r)].

(** The variant is the field [classification], before its own fields. *)
Definition classification_node (c : TemporalCompositionClassificationV0) : JsonNode :=
  match c with
  | LocalFailure occurrence_index event_id decision =>
      struct_node ["classification"; "occurrence_index"; "event_id"; "decision"]
        [JString "local-failure"; u64_node occurrence_index; JString event_id; binary_decision_node decision]
  | AllSingletonsPermitAndSafe checked_prefix_count =>
      struct_node ["classification"; "checked_prefix_count"]
        [JString "all-singletons-permit-and-safe"; u64_node checked_prefix_count]
  | AllSingletonsPermitAndEarliestViolation transition_index prefix_length denied_occurrence_index
      denied_event_id decision =>
      struct_node
        ["classification"; "transition_index"; "prefix_length"; "denied_occurrence_index";
         "denied_event_id"; "decision"]
        [JString "all-singletons-permit-and-earliest-violation"; u64_node transition_index;
         u64_node prefix_length; u64_node denied_occurrence_index; JString denied_event_id;
         binary_decision_node decision]
  end.

Definition temporal_node (t : TemporalCompositionResultV0) : JsonNode :=
  struct_node ["classification"; "observed_prefixes"]
    [classification_node (tr_classification t);
     JArray (prefix_receipt_node <$> tr_observed_prefixes t) true].

Definition policy_artifact_node (p : TrajectoryCompositionPolicyArtifactV0) : JsonNode :=
  struct_node
    ["identity"; "version"; "artifact_digest"; "canonical_bytes_hex"; "occurrence_encoder_identity";
     "occurrence_encoder_version"; "historical_property_identity"; "historical_property_version"]
    [JString (pa_identity p); JString (pa_version p); JString (pa_artifact_digest p);
     JString (lower_hex_text (pa_canonical_bytes p)); JString (pa_occurrence_encoder_identity p);
     JString (pa_occurrence_encoder_version p); JString (pa_historical_property_identity p);
     JString (pa_historical_property_version p)].

Definition result_node (r : TrajectoryCompositionResultV0) : JsonNode :=
  struct_node
    ["result_format"; "result_version"; "trajectory_digest"; "replay_final_head"; "policy";
     "event_receipts"; "temporal"]
    [JString (cr_result_format r); JString (cr_result_version r); JString (cr_trajectory_digest r);
     JString (cr_replay_final_head r); policy_artifact_node (cr_policy r);
     JArray (event_receipt_node <$> cr_event_receipts r) true; temporal_node (cr_temporal r)].

(** [TrajectoryCompositionResultV0::to_json_line] *)
Definition result_to_json_line `{JsonText} (r : TrajectoryCompositionResultV0) : CompositionResultV0 string :=
  let output := json_text (result_node r) in
  output_length ← ok_or (checked_add (byte_len output) 1) ResultTooLarge;
  if (MAX_TRAJECTORY_COMPOSITION_RESULT_BYTES_V0 <? output_length)%Z then Err ResultTooLarge
  else Ok (output +:+ newline).

(* ------------------------------------------------------------------ *)
(** * What the composition of a trajectory says

    Only one policy loads, byte for byte; under it every event alone is
    permitted, and a trajectory is safe exactly when it has at most two events:
    from the third on, the first occurrence is in the lower half of its peers. *)

(* ------------------------------------------------------------------ *)
(** ** The one policy *)

Definition peer_half_gate : GateSpec :=
  mkGateSpec "peer_relative" None None None (Some "strength") None (Some half) "permit".
Definition peer_half_node : NodeSpec :=
  mkNodeSpec NODE_ID_V0 "binary" (Some "deny") (Some "first_match") [peer_half_gate] None None (Some NODE_ID_V0).
Definition peer_half_envelope : TrajectoryCompositionPolicyEnvelopeV0 :=
  mkEnvelope TRAJECTORY_COMPOSITION_POLICY_FORMAT_V0 TRAJECTORY_COMPOSITION_POLICY_FORMAT_VERSION_V0
    TRAJECTORY_COMPOSITION_POLICY_ID_V0 TRAJECTORY_COMPOSITION_POLICY_VERSION_V0
    OCCURRENCE_ENCODER_ID_V0 OCCURRENCE_ENCODER_VERSION_V0
    HISTORICAL_PROPERTY_ID_V0 HISTORICAL_PROPERTY_VERSION_V0
    (mkGraphPolicy (mkGraphMeta GRAPH_NAME_V0 GRAPH_VERSION_V0) [peer_half_node] []).

(** The bytes of fixtures/trajectory-composition-v0/policy.toml. *)
Definition TRAJECTORY_COMPOSITION_POLICY_BYTES_V0 : string :=
  match canonical_policy_bytes peer_half_envelope with Ok bytes => bytes | Err _ => "" end.

Definition peer_half : GovernanceNode :=
  Binary NODE_ID_V0 NODE_ID_V0 [PeerRelative "strength" half Permit] Deny FirstMatch.
Definition peer_half_graph : GovernanceGraph := mkGraph {[NODE_ID_V0 := peer_half]} [].

Lemma policy_bytes_length :
  byte_len TRAJECTORY_COMPOSITION_POLICY_BYTES_V0 = MAX_TRAJECTORY_COMPOSITION_POLICY_BYTES_V0.
Proof. by vm_compute. Qed.

Lemma str_is_true value expected : str_is value expected = true → value = expected.
Proof. apply String.eqb_eq. Qed.

Lemma option_is_true value expected : option_is value expected = true → value = Some expected.
Proof. apply bool_decide_eq_true_1. Qed.

Lemma none_true {A} (value : option A) : none value = true → value = None.
Proof. by destruct value. Qed.

Lemma half_unique x : f64_eqb x half = true → x = half.
Proof. intros [->|(s & s' & _ & Hh)]%f64_eqb_true; [done|]. by vm_compute in Hh. Qed.

(** Split a conjunction of checks and turn each into an equation. *)
Ltac split_checks :=
  repeat match goal with
  | H : _ && _ = true |- _ => apply andb_true_iff in H as [? ?]
  | H : str_is _ _ = true |- _ => apply str_is_true in H
  | H : option_is _ _ = true |- _ => apply option_is_true in H
  | H : none _ = true |- _ => apply none_true in H
  | H : (length _ =? _) = true |- _ => apply Nat.eqb_eq in H
  end.

Lemma restricted_profile_unique e : validate_restricted_profile e = Ok () ↔ e = peer_half_envelope.
Proof.
  split; [|by intros ->; vm_compute].
  unfold validate_restricted_profile. destruct (supported_envelope e) eqn:He; [|done]. cbn [negb].
  destruct e as [f fv i v oi ov hi hv [[gn gv] nodes edges]]. unfold supported_envelope in He. simpl in He.
  split_checks. simpl in *. subst.
  destruct nodes as [|node [|]]; try done. destruct edges; [|done]. simpl.
  destruct (supported_node node) eqn:Hn; [|done]. cbn [negb].
  destruct node as [id ty df cb gates th fd nm]. unfold supported_node in Hn. simpl in Hn.
  split_checks. subst. destruct gates as [|gate [|]]; try done. simpl.
  destruct (supported_gate gate) eqn:Hg; [|done]. intros _.
  destruct gate as [gt pt vl rg fd mn pc dc]. unfold supported_gate in Hg. simpl in Hg. split_checks. subst.
  destruct pc as [pc|]; [|done]. match goal with H : f64_eqb _ _ = true |- _ => apply half_unique in H as -> end. done.
Qed.

Section composition.
Context `{Sha : Sha256, RegexEngine, CompositionToml}.

Lemma try_into_peer_half ctx : try_into_graph (pe_graph peer_half_envelope) ctx = Ok peer_half_graph.
Proof using Type. by vm_compute. Qed.

(** The digest, the identity and the version a trace binds the policy with. *)
Definition policy_binding : ArtifactBindingV0 :=
  mkBinding TRAJECTORY_COMPOSITION_POLICY_ID_V0 TRAJECTORY_COMPOSITION_POLICY_VERSION_V0
    (artifact_digest_v0 TRAJECTORY_COMPOSITION_POLICY_BYTES_V0).

Definition loaded_policy : ExecutableTrajectoryCompositionPolicyV0 :=
  mkExecutable TRAJECTORY_COMPOSITION_POLICY_BYTES_V0
    (artifact_digest_v0 TRAJECTORY_COMPOSITION_POLICY_BYTES_V0) peer_half_graph.

(** What loading succeeds on. *)
Lemma load_policy_Ok exact_bytes binding policy :
  load_trajectory_composition_policy_v0 exact_bytes binding = Ok policy ↔
  exact_bytes = TRAJECTORY_COMPOSITION_POLICY_BYTES_V0 ∧ binding = policy_binding ∧
  composition_toml exact_bytes = Some peer_half_envelope ∧ policy = loaded_policy.
Proof using Type.
  unfold load_trajectory_composition_policy_v0. split.
  - intros Hl. destruct_bind Hl Hsize.
    destruct (String.eqb_spec (artifact_digest_v0 exact_bytes) (ab_hash binding)) as [Hhash|]; [|done]. cbn [negb] in Hl.
    destruct (utf8_valid exact_bytes); [|done]. cbn [negb] in Hl.
    destruct (composition_toml exact_bytes) as [e|] eqn:Htoml; cbn [ok_or mbind Result_bind] in Hl; [|done].
    destruct (String.eqb_spec (pe_policy_identity e) (ab_identity binding)) as [Hid|]; [|done]. cbn [negb] in Hl.
    destruct (String.eqb_spec (pe_policy_version e) (ab_version binding)) as [Hver|]; [|done]. cbn [negb] in Hl.
    destruct (validate_restricted_profile e) as [[]|] eqn:Hprof; cbn [mbind Result_bind] in Hl; [|done].
    apply restricted_profile_unique in Hprof as ->.
    change (canonical_policy_bytes peer_half_envelope)
      with (Ok TRAJECTORY_COMPOSITION_POLICY_BYTES_V0 : CompositionResultV0 string) in Hl.
    cbn [mbind Result_bind] in Hl.
    destruct (String.eqb_spec TRAJECTORY_COMPOSITION_POLICY_BYTES_V0 exact_bytes) as [<-|]; [|done]. cbn [negb] in Hl.
    rewrite try_into_peer_half in Hl. cbn [mbind Result_bind] in Hl. injection Hl as <-.
    split_and!; try done. destruct binding as [id ver hash]; simpl in *. by subst.
  - intros (-> & -> & Htoml & ->). unfold ensure_policy_size_v0. rewrite policy_bytes_length.
    rewrite Z.ltb_irrefl. cbn [mbind Result_bind ab_hash policy_binding]. rewrite String.eqb_refl. cbn [negb].
    assert (utf8_valid TRAJECTORY_COMPOSITION_POLICY_BYTES_V0 = true) as -> by by vm_compute. cbn [negb].
    rewrite Htoml. cbn [ok_or mbind Result_bind].
    rewrite (proj2 (restricted_profile_unique _) eq_refl). cbn [mbind Result_bind].
    change (canonical_policy_bytes peer_half_envelope)
      with (Ok TRAJECTORY_COMPOSITION_POLICY_BYTES_V0 : CompositionResultV0 string).
    cbn [mbind Result_bind ab_identity ab_version pe_policy_identity pe_policy_version peer_half_envelope policy_binding].
    rewrite !String.eqb_refl. cbn [negb]. change (mkGraphPolicy _ _ _) with (pe_graph peer_half_envelope).
    by rewrite try_into_peer_half.
Qed.

(* ------------------------------------------------------------------ *)
(** ** The graph on a batch *)

Lemma peer_half_traverse claims decisions :
  validate_governance_claims claims = Ok () → evaluate_node_validated peer_half claims = Ok decisions →
  traverse_final_decisions peer_half_graph claims = Ok (record_final_decisions ∅ decisions false).
Proof using Type.
  intros Hv He. unfold traverse_final_decisions, traverse_claims. rewrite Hv. cbn [mbind Result_bind].
  assert (detect_cycles peer_half_graph = Ok []) as -> by by vm_compute. cbn [mbind Result_bind].
  rewrite bool_decide_false by done.
  assert (entry_node_list peer_half_graph (incoming_counts peer_half_graph) = [NODE_ID_V0]) as -> by by vm_compute.
  rewrite bool_decide_false by done. cbn [orb].
  assert (topological_order peer_half_graph (incoming_counts peer_half_graph) = Ok [NODE_ID_V0]) as -> by by vm_compute.
  cbn [mbind Result_bind foldl try_fold]. unfold visit_node, visit_with.
  change (nodes peer_half_graph !! NODE_ID_V0) with (Some peer_half).
  cbn [ok_or mbind Result_bind ts_queued]. rewrite lookup_insert_eq. cbn [default id]. rewrite He.
  by change (outgoing_edges peer_half_graph !! NODE_ID_V0) with (@None (list GovernanceEdge)).
Qed.

(** The claim of the occurrence at a position. *)
Definition claim_at (i : nat) : GovernanceClaim :=
  mkGovernanceClaim ("occurrence:" +:+ show_nat i) (f64_of_nat (S i)) None None None None ∅.

Lemma claim_at_valid i : (Z.of_nat (S i) < 2 ^ 53)%Z → validate_governance_claim (claim_at i) = Ok ().
Proof using Type.
  intros Hi. unfold validate_governance_claim. cbn [gc_claimant_id claim_at].
  assert (is_blank ("occurrence:" +:+ show_nat i) = false) as -> by done.
  cbn [gc_strength claim_at]. destruct (f64_of_pos_finite (Pos.of_succ_nat i)) as (m & e & He); [lia|].
  unfold f64_of_nat. change (Z.of_nat (S i)) with (Z.pos (Pos.of_succ_nat i)). rewrite He. done.
Qed.

(** Alone, an occurrence is in the upper half of its peers. *)
Lemma singleton_decisions i :
  (Z.of_nat (S i) < 2 ^ 53)%Z →
  traverse_final_decisions peer_half_graph [claim_at i] = Ok {["occurrence:" +:+ show_nat i := Permit]}.
Proof using Type.
  intros Hi. rewrite (peer_half_traverse [claim_at i] [mkClaimDecision ("occurrence:" +:+ show_nat i) Permit]); [done| |].
  - unfold validate_governance_claims. cbn [validate_governance_claims_from]. rewrite claim_at_valid by done.
    cbn [mbind Result_bind]. by rewrite decide_False by set_solver.
  - cbn. unfold evaluate_peer_relative. cbn. change (numeric_field (claim_at i) "strength") with (Ok (f64_of_nat (S i)) : LResult f64).
    cbn [mbind Result_bind]. change (f64_sort [?x]) with [x].
    rewrite filter_cons_True, filter_nil.
    + cbn [length]. by assert (peer_relative_rank_at_least_percentile 1 1 half = true) as -> by by vm_compute.
    + destruct (f64_of_pos_finite (Pos.of_succ_nat i)) as (m & e & He); [lia|].
      apply f64_leb_refl. unfold f64_of_nat. change (Z.of_nat (S i)) with (Z.pos (Pos.of_succ_nat i)). by rewrite He.
Qed.

(** The least denied occurrence of a batch. *)
Definition batch_denies (claims : list GovernanceClaim) (denied : option u64) : Prop :=
  ∃ decisions, traverse_final_decisions peer_half_graph claims = Ok decisions ∧
    least_denied_occurrence_v0 claims decisions = Ok denied.

Lemma batch_denies_eval claims denied :
  match traverse_final_decisions peer_half_graph claims with
  | Ok decisions => least_denied_occurrence_v0 claims decisions
  | Err _ => Err GraphEvaluation
  end = Ok denied → batch_denies claims denied.
Proof using Type. unfold batch_denies. destruct (traverse_final_decisions _ _) as [d|]; [|done]. by exists d. Qed.

(** Prefixes of one and two occurrences are permitted; with three, the first is
    denied, one of three being less than a half. *)
Lemma prefix_decisions :
  batch_denies [claim_at 0] None ∧ batch_denies [claim_at 0; claim_at 1] None ∧
  batch_denies [claim_at 0; claim_at 1; claim_at 2] (Some (u64_lit 0)).
Proof using Type. split_and!; apply batch_denies_eval; by vm_compute. Qed.

(* ------------------------------------------------------------------ *)
(** ** The occurrences of a validated trace *)

(** A record and the event it was made of. *)
Definition record_of (e : AgentActionEventV0) (r : ReplayRecordV0) : Prop :=
  ev_value (ae_sequence_index e) = Some (rp_sequence_index r) ∧
  ev_value (ae_event_id e) = Some (rp_event_id r) ∧
  rp_raw_record_digest r = rr_digest (ae_raw_record e).

Lemma replay_records_of head events records final :
  replay_records head events = Some (records, final) → Forall2 record_of events records.
Proof using Type.
  revert head records. induction events as [|e events IH]; intros head records; cbn [replay_records].
  { intros [= <- _]. constructor. }
  unfold replay_record. destruct (ev_value (ae_sequence_index e)) as [sq|] eqn:Hsq; [|done].
  destruct (ev_value (ae_event_id e)) as [id|] eqn:Hid; [|done]. cbn [mbind option_bind].
  destruct (replay_records _ events) as [[rs f]|] eqn:Hrs; [|done]. intros [= <- <-].
  constructor; [by split_and!|by eapply IH].
Qed.

(** The receipt of a permitted occurrence: what it says of its event. *)
Record permitted_occurrence (index : nat) (e : AgentActionEventV0) (receipt : EventPolicyReceiptV0) : Prop := {
  po_permit : er_singleton_decision receipt = BPermit;
  po_index : u64_val (oc_occurrence_index (er_claim receipt)) = Z.of_nat index;
  po_strength : u64_val (oc_strength_numerator (er_claim receipt)) = Z.of_nat (S index);
  po_event_id : ev_value (ae_event_id e) = Some (oc_event_id (er_claim receipt));
  po_kind : ev_value (ae_kind e) = Some (oc_kind (er_claim receipt));
  po_raw : oc_raw_record_digest (er_claim receipt) = rr_digest (ae_raw_record e);
}.

Lemma encode_occurrence_Ok raw_records declarations index e r :
  event_ok raw_records declarations index e → record_of e r → (Z.of_nat index < MAX_EVENTS_V0)%Z →
  ∃ receipt, encode_occurrence peer_half_graph (index, (e, r)) = Ok (claim_at index, receipt) ∧
    permitted_occurrence index e receipt.
Proof using Type.
  intros [(id & [_ Hid] & _) (sq & [_ Hsq] & Hsqv) (kd & [_ Hkd]) Hsrc _ _ _] (Hrs & Hri & Hrd) Hidx.
  unfold MAX_EVENTS_V0 in Hidx. unfold encode_occurrence.
  destruct (u64_try_from_total (Z.of_nat index)) as (occ & -> & Hocc); [lia|]. cbn [ok_or mbind Result_bind].
  rewrite (proj2 (checked_add_Some (u64_val occ) 1 (u64_val occ + 1))) by lia. cbn [ok_or mbind Result_bind].
  destruct (u64_try_from_total (u64_val occ + 1)) as (num & -> & Hnum); [lia|]. cbn [ok_or mbind Result_bind].
  unfold MAX_EVENTS_V0. rewrite (proj2 (Z.ltb_ge _ _)) by lia.
  rewrite Hid, Hsq, Hkd. cbn [ok_or mbind Result_bind].
  assert (∃ src, source_item_value (ae_source_item_id e) = Ok src) as [src ->].
  { unfold source_item_value. destruct (ae_source_item_id e) as [item|]; [|by eexists].
    destruct Hsrc as (v & [_ ->] & _). by eexists. }
  cbn [mbind Result_bind]. rewrite Hsq in Hrs. rewrite Hid in Hri. injection Hrs as ->. injection Hri as ->.
  assert (rp_sequence_index r = occ) as -> by (apply u64_eq; congruence).
  rewrite !bool_decide_true, String.eqb_refl, Hrd, String.eqb_refl by done. cbn [negb orb].
  assert (occurrence_wire_id occ = "occurrence:" +:+ show_nat index) as Hwire
    by (unfold occurrence_wire_id; by rewrite Hocc, Nat2Z.id).
  assert (occurrence_claim occ num = claim_at index) as ->.
  { unfold occurrence_claim, claim_at, f64_of_nat. rewrite Hwire. do 2 f_equal. lia. }
  rewrite singleton_decisions by lia. cbn [mbind Result_bind]. rewrite Hwire, lookup_singleton_eq.
  cbn [ok_or mbind Result_bind binary_policy_decision]. eexists. split; [done|].
  split; simpl; try done. lia.
Qed.

(** All occurrences of a run of events from a position on. *)
Lemma encode_occurrences_Ok raw_records declarations start events records :
  (∀ i e, events !! i = Some e → event_ok raw_records declarations (start + i) e) →
  Forall2 record_of events records → (Z.of_nat start + vec_len events ≤ MAX_EVENTS_V0)%Z →
  ∃ occurrences,
    try_map (encode_occurrence peer_half_graph)
      (zip (seq start (length (zip events records))) (zip events records)) = Ok occurrences ∧
    occurrences.*1 = claim_at <$> seq start (length events) ∧
    length occurrences = length events ∧
    ∀ i e, events !! i = Some e → ∃ receipt, occurrences.*2 !! i = Some receipt ∧
      permitted_occurrence (start + i) e receipt.
Proof using Type.
  intros Hall Hrec. revert start Hall. induction Hrec as [|e r events records Her Hrec IH]; intros start Hall Hlen.
  { by exists []. }
  rewrite vec_len_cons in Hlen. assert (0 ≤ vec_len events)%Z by (unfold vec_len; lia).
  destruct (encode_occurrence_Ok raw_records declarations start e r) as (receipt & Hr & Hp);
    [rewrite <-(Nat.add_0_r start); by apply (Hall 0)|done|lia|].
  destruct (IH (S start)) as (occurrences & Ho & Hcl & Hl & Hrs); [|lia|].
  { intros i e' Hi. replace (S start + i) with (start + S i) by lia. by apply Hall. }
  exists ((claim_at start, receipt) :: occurrences).
  change (zip (e :: events) (r :: records)) with ((e, r) :: zip events records).
  cbn [length seq zip zip_with try_map]. change (zip_with pair ?a ?b) with (zip a b). rewrite Hr. cbn [mbind Result_bind].
  rewrite Ho. cbn [mbind Result_bind]. split_and!; [done|by rewrite !fmap_cons, Hcl|by simpl; rewrite Hl|].
  intros [|i] e' Hi.
  - injection Hi as <-. exists receipt. by rewrite Nat.add_0_r.
  - replace (start + S i) with (S start + i) by lia. by apply Hrs.
Qed.

(* ------------------------------------------------------------------ *)
(** ** The classification *)

(** The outcome for occurrences that are all permitted alone. *)
Definition outcome (events : list AgentActionEventV0) (temporal : TemporalCompositionResultV0) : Prop :=
  if length events <=? 2 then
    ∃ count, tr_classification temporal = AllSingletonsPermitAndSafe count ∧ u64_val count = vec_len events ∧
      length (tr_observed_prefixes temporal) = length events ∧
      Forall (λ p, op_decision p = BPermit ∧ op_least_denied_occurrence_index p = None) (tr_observed_prefixes temporal)
  else
    ∃ e id rest, events = e :: rest ∧ ev_value (ae_event_id e) = Some id ∧
      temporal = mkTemporal
        (AllSingletonsPermitAndEarliestViolation (u64_lit 2) (u64_lit 3) (u64_lit 0) id BDeny)
        [mkPrefixReceipt (u64_lit 1) BPermit None; mkPrefixReceipt (u64_lit 2) BPermit None;
         mkPrefixReceipt (u64_lit 3) BDeny (Some (u64_lit 0))].

(** Take one step of the loop over the prefixes. *)
Lemma classify_step prepared n remaining observed denied count :
  xp_graph (pc_policy prepared) = peer_half_graph → batch_denies (take n (pc_claims prepared)) denied →
  u64_try_from (Z.of_nat n) = Some count →
  classify_prefixes prepared n (S remaining) observed =
  match denied with
  | None => classify_prefixes prepared (S n) remaining (observed ++ [mkPrefixReceipt count BPermit None])
  | Some index =>
      transition_index ← ok_or (u64_try_from (u64_val count - 1)) OccurrenceOverflow;
      denied_receipt ← ok_or (pc_receipts prepared !! Z.to_nat (u64_val index)) GraphEvaluation;
      Ok (mkTemporal
            (AllSingletonsPermitAndEarliestViolation transition_index count index
               (oc_event_id (er_claim denied_receipt)) BDeny)
            (observed ++ [mkPrefixReceipt count BDeny (Some index)]))
  end.
Proof using Type.
  intros Hg (decisions & Ht & Hl) Hc. cbn [classify_prefixes]. rewrite Hg, Ht. cbn [mbind Result_bind].
  rewrite Hl. cbn [mbind Result_bind]. rewrite Hc. cbn [ok_or mbind Result_bind].
  destruct denied as [index|]; [|done]. rewrite usize_try_from_val. by destruct (u64_try_from _).
Qed.

Lemma classify_outcome prepared events :
  xp_graph (pc_policy prepared) = peer_half_graph →
  pc_claims prepared = claim_at <$> seq 0 (length events) → events ≠ [] →
  (vec_len events ≤ MAX_EVENTS_V0)%Z →
  (∀ i e, events !! i = Some e → ∃ receipt, pc_receipts prepared !! i = Some receipt ∧
     permitted_occurrence i e receipt) →
  length (pc_receipts prepared) = length events →
  ∃ temporal, classify_temporal_composition_v0 prepared = Ok temporal ∧ outcome events temporal.
Proof using Type.
  intros Hg Hcl Hne Hlen Hrec Hrl. unfold classify_temporal_composition_v0.
  assert (list_find is_denied (pc_receipts prepared) = None) as ->.
  { apply list_find_None, Forall_forall. intros receipt [i Hi]%list_elem_of_lookup Hd. unfold is_denied in Hd.
    destruct (lookup_lt_is_Some_2 events i) as [e He]; [rewrite <-Hrl; by eapply lookup_lt_Some|].
    destruct (Hrec i e He) as (receipt' & Hr' & [Hp _ _ _ _ _]). congruence. }
  assert (∃ n, u64_try_from (vec_len events) = Some n ∧ u64_val n = vec_len events) as (n & Hn & Hnv)
    by (apply u64_try_from_total; unfold vec_len, MAX_EVENTS_V0 in *; lia).
  assert (vec_len (pc_claims prepared) = vec_len events) as Hvl
    by (unfold vec_len; rewrite Hcl, length_fmap, length_seq; done).
  rewrite Hcl, length_fmap, length_seq. unfold outcome.
  destruct prefix_decisions as (H1 & H2 & H3).
  destruct events as [|e1 [|e2 [|e3 rest]]]; [by destruct Hne|..]; cbn [length Nat.leb].
  - rewrite (classify_step prepared 1 0 [] None (u64_lit 1) Hg) by (rewrite ?Hcl; assumption || reflexivity).
    cbn [classify_prefixes]. rewrite Hvl, Hn. cbn [ok_or mbind Result_bind]. eexists. split; [reflexivity|].
    exists n. split_and!; [reflexivity|exact Hnv|reflexivity|]. clear. by repeat constructor.
  - rewrite (classify_step prepared 1 1 [] None (u64_lit 1) Hg) by (rewrite ?Hcl; assumption || reflexivity).
    rewrite (classify_step prepared 2 0 _ None (u64_lit 2) Hg) by (rewrite ?Hcl; assumption || reflexivity).
    cbn [classify_prefixes]. rewrite Hvl, Hn. cbn [ok_or mbind Result_bind]. eexists. split; [reflexivity|].
    exists n. split_and!; [reflexivity|exact Hnv|reflexivity|]. clear. by repeat constructor.
  - rewrite (classify_step prepared 1 (S (S (length rest))) [] None (u64_lit 1) Hg)
      by (rewrite ?Hcl; assumption || reflexivity).
    rewrite (classify_step prepared 2 (S (length rest)) _ None (u64_lit 2) Hg)
      by (rewrite ?Hcl; assumption || reflexivity).
    rewrite (classify_step prepared 3 (length rest) _ (Some (u64_lit 0)) (u64_lit 3) Hg)
      by (rewrite ?Hcl; assumption || reflexivity).
    destruct (Hrec 0 e1 eq_refl) as (receipt & Hr & Hp).
    change (Z.to_nat (u64_val (u64_lit 0))) with 0. rewrite Hr.
    change (u64_try_from (u64_val (u64_lit 3) - 1)) with (Some (u64_lit 2)).
    cbn [ok_or mbind Result_bind]. eexists. split; [reflexivity|].
    exists e1, (oc_event_id (er_claim receipt)), (e2 :: e3 :: rest). split_and!; [reflexivity|apply Hp|reflexivity].
Qed.

(* ------------------------------------------------------------------ *)
(** ** Properties *)

(** C35: only one composition policy loads: the bytes of the canonical peer-half
    policy, bound by its identity, its version and the digest of these bytes,
    when the TOML reader sees in them what they say; it always compiles, to the
    graph of one node that permits the upper half of the peers. *)
Theorem composition_policy_exact exact_bytes binding policy :
  load_trajectory_composition_policy_v0 exact_bytes binding = Ok policy ↔
  exact_bytes = TRAJECTORY_COMPOSITION_POLICY_BYTES_V0 ∧ binding = policy_binding ∧
  composition_toml exact_bytes = Some peer_half_envelope ∧ policy = loaded_policy.
Proof using Type. apply load_policy_Ok. Qed.

Context `{JsonStream, TraceSerializer} (TRAJECTORY_SCHEMA_BYTES_V0 : string).

(** C10: the composition of a validated trace with its verified replay under the
    supported policy always gives a result, bound to the digest and the final
    head of the replay; each event alone is permitted, with a receipt that names
    it; and the trajectory is safe, every observed prefix being permitted, when
    it has one or two events, while with three or more the earliest violation
    is the third transition, where the first occurrence is denied. *)
Theorem composition_classifies trace raw_records declarations c verified :
  validate_trace TRAJECTORY_SCHEMA_BYTES_V0 trace raw_records declarations = Ok () →
  trajectory_replay_candidate_v0 trace = Some c → vr_replay verified = c →
  tt_policy trace = policy_binding →
  composition_toml TRAJECTORY_COMPOSITION_POLICY_BYTES_V0 = Some peer_half_envelope →
  ∃ result,
    evaluate_replay_bound_composition_v0 trace verified TRAJECTORY_COMPOSITION_POLICY_BYTES_V0 = Some (Ok result) ∧
    cr_trajectory_digest result = trajectory_digest trace ∧ cr_replay_final_head result = tc_final_head c ∧
    length (cr_event_receipts result) = length (tt_events trace) ∧
    (∀ i e, tt_events trace !! i = Some e → ∃ receipt, cr_event_receipts result !! i = Some receipt ∧
       permitted_occurrence i e receipt) ∧
    outcome (tt_events trace) (cr_temporal result).
Proof using Type.
  intros Hv Hc <- Hp Htoml. apply validate_trace_Ok in Hv. destruct Hv. destruct tv_budget.
  unfold evaluate_replay_bound_composition_v0, prepare_replay_bound_composition_v0.
  assert (ensure_policy_size_v0 TRAJECTORY_COMPOSITION_POLICY_BYTES_V0 = Ok ()) as ->.
  { unfold ensure_policy_size_v0. by rewrite policy_bytes_length, Z.ltb_irrefl. }
  rewrite Hc. cbn [mbind option_bind]. rewrite bool_decide_true by done. cbn [negb].
  rewrite (proj2 (load_policy_Ok _ _ loaded_policy)) by done. cbn [mbind Result_bind].
  unfold trajectory_replay_candidate_v0 in Hc. destruct (u64_try_from _) as [n|]; cbn [mbind option_bind] in Hc; [|done].
  destruct (replay_records _ _) as [[records final]|] eqn:Hrs; cbn [mbind option_bind] in Hc; [|done].
  injection Hc as Hc. rewrite <-Hc. cbn [tc_records tc_trajectory_digest tc_final_head].
  apply replay_records_of in Hrs. rewrite <-(Forall2_length _ _ _ Hrs), Nat.eqb_refl. cbn [negb].
  destruct (encode_occurrences_Ok raw_records declarations 0 (tt_events trace) records)
    as (occurrences & Ho & Hcl & Hl & Hreceipts); [done|done|simpl; lia|].
  unfold enumerate. cbn [xp_graph loaded_policy]. rewrite Ho. cbn [mbind Result_bind].
  match goal with |- context [classify_temporal_composition_v0 ?p] =>
    destruct (classify_outcome p (tt_events trace)) as (temporal & -> & Hout) end; [done..| |].
  { simpl. by rewrite length_fmap. }
  cbn [mbind Result_bind]. eexists. split; [done|]. cbn. rewrite length_fmap. by split_and!.
Qed.
End composition.
