(* ===== verification/CodexEvent.v ===== *)
(** * Records of a Codex run (src/trajectory/codex_exec_v0/)

    error.rs, event.rs and event_wire.rs: one line of JSON is read as
    a [serde_json::Value], dispatched on its type and decoded strictly into
    a [ParsedRecordV0].  A [Value] is a [JsonNode] without the places where
    reading broke off; a repeated key keeps its last value.  Signed integers
    are [Z] in the range their decoder checks. *)

From S2P Require Import Prelude Encoding Trajectory F64 Errors JsonScan JsonScanSpec WireJson.
From Stdlib Require Import Ascii.
From stdpp Require Import options.

(* ------------------------------------------------------------------ *)
(** ** Errors (error.rs) *)

Inductive AdapterErrorCodeV0 :=
  | UnsafeInputPath | UnsafeOutputPath | AdInputOpen | AdInputType | AdInputSymlink | AdInputAlias
  | AdInputChanged | AdInputTooLarge | AdOutputSymlink | CrossOutputAlias | UnsupportedInputProfile
  | AdJsonFraming | AdJsonSyntax | AdJsonShape | AdJsonBudget | AdReceiptShape | AdReceiptMismatch
  | TrustedContextMismatch | UnsupportedAuthority | UnsupportedProfile | IllegalTermination
  | StreamState | UnsupportedRecord | AdMapping | AdValidation | BundleMismatch | LineageSidecarShape
  | SanitizerRejected | OutputExists | OutputPublish | DurabilityUncertain
  | OutputIdentityUncertain | OutputIntegrityUncertain | OutputRollbackUncertain
  | UnsupportedPublicationProfile | EntropyUnavailable | PublicShareabilityDenied | ReservedPolicy
  | UnsupportedPlatform | CaptureSpawn | CaptureStdin | CaptureStdoutOverflow
  | CaptureStderrOverflow | CaptureTimeout | CaptureLiveDescendant | CaptureCleanup.

Record AdapterErrorV0 := mkAdapterError {
  ad_code : AdapterErrorCodeV0;
  ad_record_index : option u64;
  ad_structural_path : option string;
}.
Abbreviation AdapterResultV0 := (Result AdapterErrorV0).

(** [AdapterErrorV0::new] *)
Definition adapter_error (code : AdapterErrorCodeV0) : AdapterErrorV0 := mkAdapterError code None None.

(** [AdapterErrorV0::record] *)
Definition record_error (code : AdapterErrorCodeV0) (record_index : nat) (structural_path : string)
    : AdapterErrorV0 :=
  mkAdapterError code (u64_try_from (Z.of_nat record_index)) (Some structural_path).

(* ------------------------------------------------------------------ *)
(** ** Data (event.rs) *)

Inductive LifecycleV0 := LcStarted | LcUpdated | LcCompleted.
Inductive CommandStatusV0 := CsInProgress | CsCompleted | CsFailed | CsDeclined.
Inductive FileStatusV0 := FsInProgress | FsCompleted | FsFailed.
Inductive ChangeKindV0 := CkAdd | CkDelete | CkUpdate.

Record UsageV0 := mkUsage {
  us_input_tokens : Z;
  us_cached_input_tokens : Z;
  us_output_tokens : Z;
  us_reasoning_output_tokens : Z;
}.

Record ChangeV0 := mkChange { ch_path : string; ch_kind : ChangeKindV0 }.
Record TodoV0 := mkTodo { td_text : string; td_completed : bool }.

Inductive ItemV0 :=
  | AgentMessage (id text : string)
  | Reasoning (id text : string)
  | ErrorItem (id message : string)
  | Command (id command aggregated_output : string) (exit_code : option Z) (status : CommandStatusV0)
  | FileChange (id : string) (changes : list ChangeV0) (status : FileStatusV0)
  | TodoList (id : string) (items : list TodoV0).

Inductive ItemClassV0 :=
  | AgentMessageClass | ReasoningClass | ErrorClass | CommandClass | FileChangeClass | TodoListClass.

Definition item_id (item : ItemV0) : string :=
  match item with
  | AgentMessage id _ | Reasoning id _ | ErrorItem id _ | Command id _ _ _ _ | FileChange id _ _
  | TodoList id _ => id
  end.

Definition item_class (item : ItemV0) : ItemClassV0 :=
  match item with
  | AgentMessage _ _ => AgentMessageClass
  | Reasoning _ _ => ReasoningClass
  | ErrorItem _ _ => ErrorClass
  | Command _ _ _ _ _ => CommandClass
  | FileChange _ _ _ => FileChangeClass
  | TodoList _ _ => TodoListClass
  end.

Inductive ParsedRecordV0 :=
  | ThreadStarted (thread_id : string)
  | TurnStarted
  | TurnCompleted (usage : UsageV0)
  | TurnFailed (message : string)
  | ErrorRecord (message : string)
  | ItemRecord (lifecycle : LifecycleV0) (item : ItemV0).

Global Instance LifecycleV0_eq_dec : EqDecision LifecycleV0.
Proof. solve_decision. Defined.
Global Instance CommandStatusV0_eq_dec : EqDecision CommandStatusV0.
Proof. solve_decision. Defined.
Global Instance FileStatusV0_eq_dec : EqDecision FileStatusV0.
Proof. solve_decision. Defined.
Global Instance ChangeKindV0_eq_dec : EqDecision ChangeKindV0.
Proof. solve_decision. Defined.
Global Instance ChangeV0_eq_dec : EqDecision ChangeV0.
Proof. solve_decision. Defined.
Global Instance TodoV0_eq_dec : EqDecision TodoV0.
Proof. solve_decision. Defined.
Global Instance ItemV0_eq_dec : EqDecision ItemV0.
Proof. solve_decision. Defined.
Global Instance ItemClassV0_eq_dec : EqDecision ItemClassV0.
Proof. solve_decision. Defined.

(* ------------------------------------------------------------------ *)
(** ** Values *)

(** [Map::insert] *)
Fixpoint map_insert (key : string) (value : JsonNode) (object : list (string * JsonNode))
    : list (string * JsonNode) :=
  match object with
  | [] => [(key, value)]
  | (k, v) :: object =>
      if decide (k = key) then (k, value) :: object else (k, v) :: map_insert key value object
  end.

Definition collect_object (entries : list (string * JsonNode)) : list (string * JsonNode) :=
  foldl (λ object kv, map_insert kv.1 kv.2 object) [] entries.

(** [Value::deserialize] *)
Fixpoint value_of (node : JsonNode) : option JsonNode :=
  match node with
  | JNull | JBool _ | JInteger _ | JNumber _ | JString _ => Some node
  | JArray items true => items ← mapM value_of items; Some (JArray items true)
  | JObject entries RClosed =>
      entries ← mapM (λ kv, v ← value_of kv.2; Some (kv.1, v)) entries;
      Some (JObject (collect_object entries) RClosed)
  | JArray _ false | JObject _ _ | JBroken => None
  end.

Definition as_object (value : JsonNode) : option (list (string * JsonNode)) :=
  match value with JObject entries RClosed => Some entries | _ => None end.
Definition as_array (value : JsonNode) : option (list JsonNode) :=
  match value with JArray items true => Some items | _ => None end.
Definition as_str (value : JsonNode) : option string :=
  match value with JString s => Some s | _ => None end.

(** The text of the key [type] of an object. *)
Definition type_of (value : JsonNode) : option string :=
  object ← as_object value; type ← field_value "type" object; as_str type.

(* ------------------------------------------------------------------ *)
(** ** Wire structs (event_wire.rs) *)

Definition decode_bool (n : JsonNode) : option bool :=
  match n with JBool b => Some b | _ => None end.

(** [i64] and [i32]: an integer of that width. *)
Definition decode_signed (bits : Z) (n : JsonNode) : option Z :=
  match n with
  | JInteger z => if (- 2 ^ (bits - 1) <=? z)%Z && (z <? 2 ^ (bits - 1))%Z then Some z else None
  | _ => None
  end.

(** [required_option]: the field is there, and may be [null]. *)
Definition required_option {A} (decode : JsonNode → option A) (n : JsonNode) : option (option A) :=
  match n with JNull => Some None | _ => x ← decode n; Some (Some x) end.

Definition thread_started_wire (n : JsonNode) : option string :=
  values ← decode_struct ["type"; "thread_id"] n;
  match values with
  | [type; thread_id] => _ ← decode_string type; decode_string thread_id
  | _ => None
  end.

Definition turn_started_wire (n : JsonNode) : option () :=
  values ← decode_struct ["type"] n;
  match values with [type] => _ ← decode_string type; Some () | _ => None end.

Definition usage_wire (n : JsonNode) : option UsageV0 :=
  values ← decode_struct ["input_tokens"; "cached_input_tokens"; "output_tokens"; "reasoning_output_tokens"] n;
  match values with
  | [input; cached; output; reasoning] =>
      input ← decode_signed 64 input; cached ← decode_signed 64 cached;
      output ← decode_signed 64 output; reasoning ← decode_signed 64 reasoning;
      Some (mkUsage input cached output reasoning)
  | _ => None
  end.

Definition turn_completed_wire (n : JsonNode) : option UsageV0 :=
  values ← decode_struct ["type"; "usage"] n;
  match values with [type; usage] => _ ← decode_string type; usage_wire usage | _ => None end.

Definition error_wire (n : JsonNode) : option string :=
  values ← decode_struct ["message"] n;
  match values with [message] => decode_string message | _ => None end.

Definition turn_failed_wire (n : JsonNode) : option string :=
  values ← decode_struct ["type"; "error"] n;
  match values with [type; error] => _ ← decode_string type; error_wire error | _ => None end.

Definition error_record_wire (n : JsonNode) : option string :=
  values ← decode_struct ["type"; "message"] n;
  match values with [type; message] => _ ← decode_string type; decode_string message | _ => None end.

Definition item_record_wire (n : JsonNode) : option JsonNode :=
  values ← decode_struct ["type"; "item"] n;
  match values with [type; item] => _ ← decode_string type; Some item | _ => None end.

(** [TextItemWire] and [ErrorItemWire]: an identity and a text. *)
Definition text_item_wire (text_key : string) (n : JsonNode) : option (string * string) :=
  values ← decode_struct ["id"; "type"; text_key] n;
  match values with
  | [id; type; text] =>
      id ← decode_string id; _ ← decode_string type; text ← decode_string text; Some (id, text)
  | _ => None
  end.

(** The status is still a text. *)
Definition command_item_wire (n : JsonNode) : option (string * string * string * option Z * string) :=
  values ← decode_struct ["id"; "type"; "command"; "aggregated_output"; "exit_code"; "status"] n;
  match values with
  | [id; type; command; aggregated_output; exit_code; status] =>
      id ← decode_string id; _ ← decode_string type; command ← decode_string command;
      aggregated_output ← decode_string aggregated_output;
      exit_code ← required_option (decode_signed 32) exit_code;
      status ← decode_string status;
      Some (id, command, aggregated_output, exit_code, status)
  | _ => None
  end.

Definition change_wire (n : JsonNode) : option (string * string) :=
  values ← decode_struct ["path"; "kind"] n;
  match values with
  | [path; kind] => path ← decode_string path; kind ← decode_string kind; Some (path, kind)
  | _ => None
  end.

Definition file_item_wire (n : JsonNode) : option (string * list (string * string) * string) :=
  values ← decode_struct ["id"; "type"; "changes"; "status"] n;
  match values with
  | [id; type; changes; status] =>
      id ← decode_string id; _ ← decode_string type; changes ← decode_vec change_wire changes;
      status ← decode_string status; Some (id, changes, status)
  | _ => None
  end.

Definition todo_wire (n : JsonNode) : option TodoV0 :=
  values ← decode_struct ["text"; "completed"] n;
  match values with
  | [text; completed] =>
      text ← decode_string text; completed ← decode_bool completed; Some (mkTodo text completed)
  | _ => None
  end.

Definition todo_item_wire (n : JsonNode) : option (string * list TodoV0) :=
  values ← decode_struct ["id"; "type"; "items"] n;
  match values with
  | [id; type; items] =>
      id ← decode_string id; _ ← decode_string type; items ← decode_vec todo_wire items; Some (id, items)
  | _ => None
  end.

(* ------------------------------------------------------------------ *)
(** ** Parsing (event.rs) *)

Definition MAX_CHANGES_OR_TODOS_V0 : nat := 1024.

Definition shape (index : nat) (path : string) : AdapterErrorV0 := record_error AdJsonShape index path.

Definition decode_value {A} (decode : JsonNode → option A) (value : JsonNode) (index : nat) (path : string)
    : AdapterResultV0 A :=
  ok_or (decode value) (shape index path).

Definition parse_command_status (value : string) : option CommandStatusV0 :=
  if String.eqb value "in_progress" then Some CsInProgress
  else if String.eqb value "completed" then Some CsCompleted
  else if String.eqb value "failed" then Some CsFailed
  else if String.eqb value "declined" then Some CsDeclined
  else None.

Definition parse_file_status (value : string) : option FileStatusV0 :=
  if String.eqb value "in_progress" then Some FsInProgress
  else if String.eqb value "completed" then Some FsCompleted
  else if String.eqb value "failed" then Some FsFailed
  else None.

Definition parse_change_kind (value : string) : option ChangeKindV0 :=
  if String.eqb value "add" then Some CkAdd
  else if String.eqb value "delete" then Some CkDelete
  else if String.eqb value "update" then Some CkUpdate
  else None.

Definition usage_nonnegative (usage : UsageV0) : bool :=
  (0 <=? us_input_tokens usage)%Z && (0 <=? us_cached_input_tokens usage)%Z
  && (0 <=? us_output_tokens usage)%Z && (0 <=? us_reasoning_output_tokens usage)%Z.

Definition uuid_byte (index : nat) (byte : ascii) : bool :=
  match index with
  | 8 | 13 | 18 | 23 => bool_decide (byte = "-"%char)
  | 14 => bool_decide (byte = "7"%char)
  | 19 => one_of "89ab" byte
  | _ => is_ascii_digit byte || byte_in 97 102 byte
  end.

Definition is_canonical_uuid_v7 (value : string) : bool :=
  (byte_len value =? 36)%Z && bytes_enumerate_all uuid_byte value.

(** [changes.windows(2).any(|pair| pair[0].path >= pair[1].path)] *)
Fixpoint path_not_ascending (changes : list (string * string)) : bool :=
  match changes with
  | first :: (second :: _) as rest =>
      bool_decide (String.le second.1 first.1) || path_not_ascending rest
  | _ => false
  end.

Definition parse_change (index : nat) (change : string * string) : AdapterResultV0 ChangeV0 :=
  kind ← ok_or (parse_change_kind change.2) (shape index "$.item.changes[].kind");
  Ok (mkChange change.1 kind).

Definition parse_item (value : JsonNode) (index : nat) : AdapterResultV0 ItemV0 :=
  item_type ← ok_or (type_of value) (shape index "$.item.type");
  if String.eqb item_type "agent_message" then
    '(id, text) ← decode_value (text_item_wire "text") value index "$.item";
    Ok (AgentMessage id text)
  else if String.eqb item_type "reasoning" then
    '(id, text) ← decode_value (text_item_wire "text") value index "$.item";
    if is_blank text then Err (shape index "$.item.text") else Ok (Reasoning id text)
  else if String.eqb item_type "error" then
    '(id, message) ← decode_value (text_item_wire "message") value index "$.item";
    Ok (ErrorItem id message)
  else if String.eqb item_type "command_execution" then
    '(id, command, aggregated_output, exit_code, status) ←
      decode_value command_item_wire value index "$.item";
    status ← ok_or (parse_command_status status) (shape index "$.item.status");
    Ok (Command id command aggregated_output exit_code status)
  else if String.eqb item_type "file_change" then
    '(id, changes, status) ← decode_value file_item_wire value index "$.item";
    if (MAX_CHANGES_OR_TODOS_V0 <? length changes) || path_not_ascending changes
    then Err (shape index "$.item.changes")
    else
      changes ← try_map (parse_change index) changes;
      status ← ok_or (parse_file_status status) (shape index "$.item.status");
      Ok (FileChange id changes status)
  else if String.eqb item_type "todo_list" then
    '(id, items) ← decode_value todo_item_wire value index "$.item";
    if MAX_CHANGES_OR_TODOS_V0 <? length items then Err (shape index "$.item.items")
    else Ok (TodoList id items)
  else Err (record_error UnsupportedRecord index "$.item.type").

Definition parse_item_record (value : JsonNode) (record_index : nat) (lifecycle : LifecycleV0)
    : AdapterResultV0 ParsedRecordV0 :=
  item ← decode_value item_record_wire value record_index "$";
  item ← parse_item item record_index;
  Ok (ItemRecord lifecycle item).

(** Which states of an item go with which event. *)
Definition legal_lifecycle (lifecycle : LifecycleV0) (item : ItemV0) : bool :=
  match lifecycle, item with
  | LcCompleted, (AgentMessage _ _ | Reasoning _ _ | ErrorItem _ _) => true
  | LcStarted, Command _ _ aggregated_output exit_code CsInProgress =>
      String.eqb aggregated_output "" && bool_decide (exit_code = None)
  | LcCompleted, Command _ _ _ _ (CsCompleted | CsFailed | CsDeclined) => true
  | LcStarted, FileChange _ _ FsInProgress => true
  | LcCompleted, FileChange _ _ (FsCompleted | FsFailed) => true
  | _, TodoList _ _ => true
  | _, _ => false
  end.

Definition validate_lifecycle (record : ParsedRecordV0) (index : nat) : AdapterResultV0 () :=
  match record with
  | ItemRecord lifecycle item =>
      if legal_lifecycle lifecycle item then Ok () else Err (record_error StreamState index "$.item")
  | _ => Ok ()
  end.

(** [parse_record] from the parsed [Value] on. *)
Definition parse_value (value : JsonNode) (record_index : nat) : AdapterResultV0 ParsedRecordV0 :=
  record_type ← ok_or (type_of value) (shape record_index "$.type");
  parsed ←
    (if String.eqb record_type "thread.started" then
       thread_id ← decode_value thread_started_wire value record_index "$";
       if is_canonical_uuid_v7 thread_id then Ok (ThreadStarted thread_id)
       else Err (shape record_index "$.thread_id")
     else if String.eqb record_type "turn.started" then
       _ ← decode_value turn_started_wire value record_index "$"; Ok TurnStarted
     else if String.eqb record_type "turn.completed" then
       usage ← decode_value turn_completed_wire value record_index "$";
       if usage_nonnegative usage then Ok (TurnCompleted usage) else Err (shape record_index "$.usage")
     else if String.eqb record_type "turn.failed" then
       message ← decode_value turn_failed_wire value record_index "$"; Ok (TurnFailed message)
     else if String.eqb record_type "error" then
       message ← decode_value error_record_wire value record_index "$"; Ok (ErrorRecord message)
     else if String.eqb record_type "item.started" then parse_item_record value record_index LcStarted
     else if String.eqb record_type "item.updated" then parse_item_record value record_index LcUpdated
     else if String.eqb record_type "item.completed" then parse_item_record value record_index LcCompleted
     else Err (record_error UnsupportedRecord record_index "$.type"));
  _ ← validate_lifecycle parsed record_index;
  Ok parsed.

Definition parse_record `{JsonStream} (bytes : string) (record_index : nat) : AdapterResultV0 ParsedRecordV0 :=
  value ← ok_or (from_slice value_of bytes) (record_error AdJsonSyntax record_index "$");
  parse_value value record_index.

(** The records of a capture, each with its position. *)
Definition parse_records `{JsonStream} (raw_records : list string) : AdapterResultV0 (list ParsedRecordV0) :=
  try_map (λ indexed, parse_record indexed.2 indexed.1) (enumerate raw_records).
