(* ===== verification/CodexFraming.v ===== *)
(** * Framing of a captured run (src/trajectory/codex_exec_v0/framing.rs)

    A capture is cut at its line feeds, looked for chunk by chunk; every line
    must be a bounded JSON object.  The counters are [usize]s. *)

From S2P Require Import Prelude Encoding Trajectory F64 Errors JsonScan JsonScanSpec WireJson CodexEvent.
From Stdlib Require Import Ascii.
From stdpp Require Import options.

(** Limits of src/trajectory/codex_exec_v0/mod.rs. *)
Definition MAX_CODEX_JSONL_BYTES_V0 : Z := 8 * 1024 * 1024.
Definition MAX_CODEX_RECORD_BYTES_V0 : Z := 512 * 1024.
Definition MAX_CODEX_RECORDS_V0 : Z := 4096.
Definition MAX_CODEX_JSON_DEPTH_V0 : Z := 16.
Definition MAX_CODEX_JSON_NODES_V0 : Z := 32768.
Definition MAX_CODEX_JSON_KEYS_V0 : Z := 8192.
Definition MAX_CODEX_DECODED_STRING_BYTES_V0 : Z := 384 * 1024.

Definition FULL_JSONL_DOMAIN_V0 : string := "legitimacy.codex-exec-v0.full-jsonl.v0".
Definition FRAME_SCAN_CHUNK_BYTES_V0 : Z := 8 * 1024.

Definition CODEX_SCAN_LIMITS : JsonScanLimits :=
  mkLimits (u64_lit MAX_CODEX_JSON_DEPTH_V0) (u64_lit MAX_CODEX_JSON_NODES_V0)
    (u64_lit MAX_CODEX_JSON_KEYS_V0) (u64_lit MAX_CODEX_DECODED_STRING_BYTES_V0).

(** Records are ranges of the bytes. *)
Record FramedCaptureV0 := mkFramed {
  fc_bytes : string;
  fc_records : list (Z * Z);
}.

(** [a.checked_sub(b)] and [a.checked_mul(b)] of [usize]. *)
Definition checked_sub (a b : Z) : option Z := if (b <=? a)%Z then Some (a - b)%Z else None.
Definition checked_mul (a b : Z) : option Z := if (a * b <? 2 ^ 64)%Z then Some (a * b)%Z else None.

(** [bytes.chunks(size)]; a chunk has at least one byte. *)
Fixpoint chunks_fuel (fuel size : nat) (bytes : string) : list string :=
  match fuel, bytes with
  | S fuel, String _ _ => take_bytes size bytes :: chunks_fuel fuel size (drop_bytes size bytes)
  | _, _ => []
  end.
Definition chunks (size : Z) (bytes : string) : list string :=
  chunks_fuel (String.length bytes) (Z.to_nat size) bytes.

(** The positions at which a byte stands, from an offset on. *)
Fixpoint positions_from (byte : ascii) (offset : nat) (bytes : string) : list nat :=
  match bytes with
  | "" => []
  | String b bytes =>
      if Ascii.eqb b byte then offset :: positions_from byte (S offset) bytes
      else positions_from byte (S offset) bytes
  end.

(** The last byte. *)
Fixpoint last_byte (bytes : string) : option ascii :=
  match bytes with
  | "" => None
  | String b "" => Some b
  | String _ bytes => last_byte bytes
  end.

Section framing.
Context `{JsonStream, Sha256}.

Definition framing_error : AdapterErrorV0 := adapter_error AdJsonFraming.

(** The body of the loop over the line feeds: a line from [start] to [end_]. *)
Definition frame_line (bytes : string) (state : list (Z * Z) * Z) (end_ : Z)
    : AdapterResultV0 (list (Z * Z) * Z) :=
  let '(records, start) := state in
  length ← ok_or (checked_sub end_ start) framing_error;
  if (length =? 0)%Z || (MAX_CODEX_RECORD_BYTES_V0 <? length)%Z
  then Err (adapter_error (if (length =? 0)%Z then AdJsonFraming else AdInputTooLarge))
  else if (vec_len records =? MAX_CODEX_RECORDS_V0)%Z then Err (adapter_error AdInputTooLarge)
  else
    let record := default "" (get_range bytes start end_) in
    let record_index := List.length records in
    match scan_json_with_limits record CODEX_SCAN_LIMITS with
    | Ok RootObject =>
        next ← ok_or (checked_add end_ 1) framing_error;
        Ok (records ++ [(start, end_)], next)
    | Ok RootNonObject => Err (record_error AdJsonShape record_index "$")
    | Err BudgetError => Err (record_error AdJsonBudget record_index "$")
    | Err InvalidError => Err (record_error AdJsonSyntax record_index "$")
    end.

Definition frame_line_at (bytes : string) (chunk_start : Z) (state : list (Z * Z) * Z) (relative_end : nat)
    : AdapterResultV0 (list (Z * Z) * Z) :=
  end_ ← ok_or (checked_add chunk_start (Z.of_nat relative_end)) framing_error;
  frame_line bytes state end_.

(** The body of the loop over the chunks. *)
Definition frame_chunk (bytes : string) (state : list (Z * Z) * Z) (indexed : nat * string)
    : AdapterResultV0 (list (Z * Z) * Z) :=
  chunk_start ← ok_or (checked_mul (Z.of_nat indexed.1) FRAME_SCAN_CHUNK_BYTES_V0) framing_error;
  try_fold (frame_line_at bytes chunk_start) state (positions_from LF 0 indexed.2).

(** [FramedCaptureV0::parse_owned] *)
Definition parse_owned (bytes : string) : AdapterResultV0 FramedCaptureV0 :=
  if (MAX_CODEX_JSONL_BYTES_V0 <? byte_len bytes)%Z then Err (adapter_error AdInputTooLarge)
  else if String.eqb bytes "" || negb (bool_decide (last_byte bytes = Some LF))
          || bool_decide (CR ∈ bytes_of bytes)
  then Err framing_error
  else if negb (utf8_valid bytes) then Err (adapter_error AdJsonSyntax)
  else
    '(records, start) ←
      try_fold (frame_chunk bytes) ([], 0%Z) (enumerate (chunks FRAME_SCAN_CHUNK_BYTES_V0 bytes));
    if negb (start =? byte_len bytes)%Z || bool_decide (records = []) then Err framing_error
    else Ok (mkFramed bytes records).

Definition record_slices (capture : FramedCaptureV0) : list string :=
  (λ range, default "" (get_range (fc_bytes capture) range.1 range.2)) <$> fc_records capture.

Definition full_jsonl_digest_v0 (bytes : string) : string := framed_sha256 FULL_JSONL_DOMAIN_V0 [bytes].
Definition full_digest (capture : FramedCaptureV0) : string := full_jsonl_digest_v0 (fc_bytes capture).
End framing.

(* ------------------------------------------------------------------ *)
(** * What framing accepts

    The chunked search for line feeds is the search in the whole capture; a
    capture is accepted exactly when it is a sequence of lines that are bounded
    JSON objects, and the ranges recorded are those of the lines. *)

(* ------------------------------------------------------------------ *)
(** ** Positions and chunks *)

Lemma positions_from_app b offset s t :
  positions_from b offset (s +:+ t) = positions_from b offset s ++ positions_from b (offset + String.length s) t.
Proof.
  revert offset. induction s as [|c s IH]; intros offset; simpl.
  - by rewrite Nat.add_0_r.
  - destruct (Ascii.eqb c b); rewrite IH; by rewrite Nat.add_succ_r.
Qed.

Lemma positions_from_shift b offset s : positions_from b offset s = (λ p, offset + p) <$> positions_from b 0 s.
Proof.
  assert (∀ k, positions_from b (offset + k) s = (λ p, offset + p) <$> positions_from b k s) as H.
  { induction s as [|c s IH]; intros k; [done|]. cbn [positions_from].
    destruct (Ascii.eqb c b); rewrite <-Nat.add_succ_r, IH; done. }
  specialize (H 0). by rewrite Nat.add_0_r in H.
Qed.

Lemma positions_from_bound b offset s p : p ∈ positions_from b offset s → p < offset + String.length s.
Proof.
  revert offset. induction s as [|c s IH]; intros offset; [by intros ?%elem_of_nil|]. cbn [positions_from String.length].
  destruct (Ascii.eqb c b).
  - intros [->|?%IH]%elem_of_cons; lia.
  - intros ?%IH. lia.
Qed.

Lemma positions_from_free b offset s : b ∉ bytes_of s → positions_from b offset s = [].
Proof.
  revert offset. induction s as [|c s IH]; intros offset; [done|].
  change (bytes_of (String c s)) with (c :: bytes_of s). rewrite not_elem_of_cons. intros [Hc Hs].
  cbn [positions_from]. rewrite (proj2 (Ascii.eqb_neq c b)) by congruence. by apply IH.
Qed.

Lemma drop_bytes_shorter n c s : 0 < n → String.length (drop_bytes n (String c s)) ≤ String.length s.
Proof. intros Hn. rewrite drop_bytes_length. simpl. lia. Qed.

Lemma bind_Ok {E A B} (r : Result E A) (k : A → Result E B) b :
  (x ← r; k x) = Ok b ↔ ∃ x, r = Ok x ∧ k x = Ok b.
Proof. destruct r; cbn; naive_solver. Qed.

Section framing.
Context `{JsonStream, Sha256}.

(** A chunk at an offset is searched as part of the whole. *)
Lemma frame_chunk_positions bytes st k chunk :
  (Z.of_nat k * FRAME_SCAN_CHUNK_BYTES_V0 + byte_len chunk < 2 ^ 64)%Z →
  frame_chunk bytes st (k, chunk) =
  try_fold (frame_line bytes) st
    (Z.of_nat <$> positions_from LF (k * Z.to_nat FRAME_SCAN_CHUNK_BYTES_V0) chunk).
Proof.
  intros Hk. unfold frame_chunk, checked_mul. cbn [fst snd].
  pose proof (byte_len_nonneg chunk). rewrite (proj2 (Z.ltb_lt _ _)) by lia. cbn [ok_or mbind Result_bind].
  rewrite (positions_from_shift LF (k * _)), <-list_fmap_compose.
  assert (Forall (λ p, p < String.length chunk) (positions_from LF 0 chunk)) as Hb.
  { apply Forall_forall. intros p Hp%positions_from_bound. lia. }
  revert st. induction Hb as [|p l Hp _ IH]; intros st; [done|]. cbn [try_fold fmap list_fmap].
  assert (frame_line_at bytes (Z.of_nat k * FRAME_SCAN_CHUNK_BYTES_V0) st p =
          frame_line bytes st (Z.of_nat (k * Z.to_nat FRAME_SCAN_CHUNK_BYTES_V0 + p))) as ->.
  { unfold frame_line_at, checked_add. unfold byte_len in Hk.
    rewrite (proj2 (Z.ltb_lt _ _)) by lia. cbn [ok_or mbind Result_bind]. f_equal.
    unfold FRAME_SCAN_CHUNK_BYTES_V0. lia. }
  unfold compose at 1. destruct (frame_line _ _ _) as [st'|e]; cbn [mbind Result_bind]; [apply IH|done].
Qed.

Lemma frame_chunks_positions bytes fuel k rest st :
  String.length rest ≤ fuel → (Z.of_nat k * FRAME_SCAN_CHUNK_BYTES_V0 + byte_len rest < 2 ^ 64)%Z →
  let cs := chunks_fuel fuel (Z.to_nat FRAME_SCAN_CHUNK_BYTES_V0) rest in
  try_fold (frame_chunk bytes) st (zip (seq k (length cs)) cs) =
  try_fold (frame_line bytes) st (Z.of_nat <$> positions_from LF (k * Z.to_nat FRAME_SCAN_CHUNK_BYTES_V0) rest).
Proof.
  revert k rest st. induction fuel as [|fuel IH]; intros k [|c rest] st Hf Hk; [done|simpl in Hf; lia|done|].
  set (size := Z.to_nat FRAME_SCAN_CHUNK_BYTES_V0) in *. cbn zeta.
  assert (0 < size) as Hs by (unfold size, FRAME_SCAN_CHUNK_BYTES_V0; lia).
  set (s := String c rest) in *. change (chunks_fuel (S fuel) size s)
    with (take_bytes size s :: chunks_fuel fuel size (drop_bytes size s)).
  assert (Hl : String.length s = String.length (take_bytes size s) + String.length (drop_bytes size s)).
  { rewrite <-string_app_length. by rewrite take_drop_bytes. }
  cbn [length seq zip zip_with try_fold]. rewrite frame_chunk_positions.
  2: { unfold byte_len in *. lia. }
  replace (positions_from LF (k * size) s)
    with (positions_from LF (k * size) (take_bytes size s +:+ drop_bytes size s)) by (by rewrite take_drop_bytes).
  rewrite positions_from_app, fmap_app, try_fold_app.
  fold size. destruct (try_fold _ _ _) as [st'|e]; cbn [mbind Result_bind]; [|done].
  destruct (Nat.le_gt_cases size (String.length s)) as [Hge|Hlt].
  - rewrite take_bytes_length by done. replace (k * size + size) with (S k * size) by lia.
    apply IH.
    + pose proof (drop_bytes_shorter size c rest Hs). fold s in H1. simpl in Hf. lia.
    + rewrite take_bytes_length in Hl by done. unfold byte_len in *. unfold size, FRAME_SCAN_CHUNK_BYTES_V0 in Hl |- *.
      unfold FRAME_SCAN_CHUNK_BYTES_V0 in Hk. lia.
  - assert (drop_bytes size s = "") as ->; [|by destruct fuel].
    assert (String.length (drop_bytes size s) = 0) as Hd by (rewrite drop_bytes_length; lia).
    by destruct (drop_bytes size s).
Qed.

(* ------------------------------------------------------------------ *)
(** ** Lines *)

(** A line as it stands in the capture. *)
Definition lf_line (line : string) : string := line +:+ String LF "".

Lemma lf_line_app line t : lf_line line +:+ t = line +:+ String LF t.
Proof. unfold lf_line. by rewrite string_app_assoc. Qed.

(** A line that framing accepts. *)
Definition line_ok (line : string) : Prop :=
  (0 < byte_len line ≤ MAX_CODEX_RECORD_BYTES_V0)%Z ∧ (LF ∉ bytes_of line) ∧
  scan_json_with_limits line CODEX_SCAN_LIMITS = Ok RootObject.

(** The ranges of lines from an offset on. *)
Fixpoint line_ranges (start : Z) (lines : list string) : list (Z * Z) :=
  match lines with
  | [] => []
  | line :: lines => (start, (start + byte_len line)%Z) :: line_ranges (start + byte_len line + 1) lines
  end.

Lemma byte_len_app s t : byte_len (s +:+ t) = (byte_len s + byte_len t)%Z.
Proof. unfold byte_len. by rewrite string_app_length, Nat2Z.inj_add. Qed.

Lemma byte_len_lf_line line : byte_len (lf_line line) = (byte_len line + 1)%Z.
Proof. unfold lf_line. by rewrite byte_len_app. Qed.

(** One line feed: the line that it ends. *)
Lemma frame_line_Ok before line after records start st' :
  start = byte_len before → (LF ∉ bytes_of line) → (byte_len (before +:+ (line +:+ after)) < 2 ^ 64 - 1)%Z →
  frame_line (before +:+ (line +:+ after)) (records, start) (start + byte_len line) = Ok st' ↔
  line_ok line ∧ vec_len records ≠ MAX_CODEX_RECORDS_V0 ∧
  st' = (records ++ [(start, (start + byte_len line)%Z)], (start + byte_len line + 1)%Z).
Proof.
  intros -> Hfree Hlen. rewrite !byte_len_app in Hlen.
  pose proof (byte_len_nonneg before). pose proof (byte_len_nonneg line). pose proof (byte_len_nonneg after).
  unfold frame_line, checked_sub, checked_add, line_ok. rewrite (proj2 (Z.leb_le _ _)) by lia.
  cbn [ok_or mbind Result_bind]. replace (byte_len before + byte_len line - byte_len before)%Z with (byte_len line) by lia.
  assert (get_range (before +:+ (line +:+ after)) (byte_len before) (byte_len before + byte_len line) = Some line) as ->.
  { apply get_range_Some; [done|]. exists before, after. split_and!; [done|done|lia]. }
  rewrite (proj2 (Z.ltb_lt (byte_len before + byte_len line + 1) (2 ^ 64))) by lia. cbn [default id].
  destruct (Z.eqb_spec (byte_len line) 0); cbn [orb]; [naive_solver lia|].
  destruct (Z.ltb_spec MAX_CODEX_RECORD_BYTES_V0 (byte_len line)); [naive_solver lia|].
  destruct (Z.eqb_spec (vec_len records) MAX_CODEX_RECORDS_V0); [naive_solver|].
  destruct (scan_json_with_limits line CODEX_SCAN_LIMITS) as [[|]|[|]]; cbn [ok_or mbind Result_bind]; split;
    first [intros [= <-]; split_and!; done || lia | intros (? & ? & ->); done || tauto | intros ((_ & _ & [=]) & _) | done].
Qed.

(** The lines that the loop has passed when it succeeds, and what is left. *)
Definition framed_as (records : list (Z * Z)) (start : Z) (text : string) (st' : list (Z * Z) * Z) : Prop :=
  ∃ lines tail, text = put_all lf_line lines +:+ tail ∧ (LF ∉ bytes_of tail) ∧ Forall line_ok lines ∧
    (lines = [] ∨ vec_len records + vec_len lines ≤ MAX_CODEX_RECORDS_V0)%Z ∧
    st' = (records ++ line_ranges start lines, (start + byte_len (put_all lf_line lines))%Z).

Lemma split_line line lines tail rest :
  (LF ∉ bytes_of line) → (LF ∉ bytes_of tail) → Forall (λ l, LF ∉ bytes_of l) lines →
  line +:+ String LF rest = put_all lf_line lines +:+ tail →
  ∃ lines', lines = line :: lines' ∧ rest = put_all lf_line lines' +:+ tail.
Proof using Type.
  intros Hl Ht Hls Heq. destruct Hls as [|l lines Hl' Hls].
  { destruct Ht. cbn in Heq. rewrite string_app_nil_l in Heq. rewrite <-Heq, bytes_of_app.
    apply elem_of_app. right. by left. }
  rewrite put_all_cons in Heq. unfold lf_line in Heq. rewrite !string_app_assoc in Heq.
  change (String LF "" +:+ ?t) with (String LF t) in Heq.
  assert (line = l ∧ rest = put_all lf_line lines +:+ tail) as [-> ->]; [|eauto].
  clear Hls Ht. revert l Hl' Heq. induction line as [|d line IH]; intros [|d' l] Hl' Heq.
  - by injection Heq as Heq.
  - injection Heq as <- _. destruct Hl'. by left.
  - injection Heq as -> _. destruct Hl. by left.
  - rewrite !string_app_cons in Heq. injection Heq as <- Heq.
    change (bytes_of (String d ?s)) with (d :: bytes_of s) in *. apply not_elem_of_cons in Hl as [_ Hl].
    apply not_elem_of_cons in Hl' as [_ Hl']. by destruct (IH Hl l Hl' Heq) as [-> ->].
Qed.

Lemma line_ok_free lines : Forall line_ok lines → Forall (λ l, LF ∉ bytes_of l) lines.
Proof using Type. intros Hl. eapply Forall_impl; [exact Hl|]. by intros l (_ & ? & _). Qed.

Lemma frame_lines_Ok before cur rest records st' :
  (LF ∉ bytes_of cur) → (byte_len (before +:+ (cur +:+ rest)) < 2 ^ 64 - 1)%Z →
  (vec_len records ≤ MAX_CODEX_RECORDS_V0)%Z →
  try_fold (frame_line (before +:+ (cur +:+ rest))) (records, byte_len before)
    (Z.of_nat <$> positions_from LF (String.length before + String.length cur) rest) = Ok st' ↔
  framed_as records (byte_len before) (cur +:+ rest) st'.
Proof using Type.
  revert before cur records. induction rest as [|c rest IH]; intros before cur records Hc Hl Hn.
  - cbn [positions_from fmap list_fmap try_fold]. rewrite string_app_nil_r. split.
    + intros [= <-]. exists [], cur. split_and!; [done|done|apply Forall_nil_2|by left|].
      cbn [line_ranges]. rewrite app_nil_r. f_equal. unfold byte_len. simpl. lia.
    + intros (lines & tail & Htext & Ht & Hls & _ & ->). destruct Hls as [|l lines Hok Hls].
      * cbn [line_ranges]. rewrite app_nil_r. do 2 f_equal. unfold byte_len. simpl. lia.
      * destruct Hc. rewrite Htext, put_all_cons. unfold lf_line. rewrite !bytes_of_app, !elem_of_app.
        left. left. right. by left.
  - cbn [positions_from]. destruct (Ascii.eqb_spec c LF) as [->|Hne].
    + cbn [fmap list_fmap try_fold]. rewrite bind_Ok, Nat2Z.inj_add.
      change (Z.of_nat (String.length before) + Z.of_nat (String.length cur))%Z with (byte_len before + byte_len cur)%Z.
      assert (before +:+ (cur +:+ String LF rest) = (before +:+ lf_line cur) +:+ ("" +:+ rest)) as Hbytes.
      { unfold lf_line. by rewrite !string_app_assoc. }
      assert (byte_len (before +:+ lf_line cur) = byte_len before + byte_len cur + 1)%Z as Hb.
      { rewrite byte_len_app, byte_len_lf_line. lia. }
      specialize (IH (before +:+ lf_line cur) ""). rewrite Hb, <-Hbytes in IH.
      replace (String.length (before +:+ lf_line cur) + String.length "")
        with (S (String.length before + String.length cur)) in IH by (unfold byte_len in Hb; simpl; lia).
      assert (LF ∉ bytes_of "") as Hnil by apply not_elem_of_nil. split.
      * intros (st1 & (Hok & Hmax & ->)%frame_line_Ok & Hrest); [|done..].
        apply IH in Hrest as (lines & tail & Htext & Ht & Hls & Hcount & ->); [|done..|by rewrite vec_len_app; change (vec_len [_]) with 1%Z; lia].
        exists (cur :: lines), tail. rewrite put_all_cons, vec_len_cons, string_app_assoc, lf_line_app.
        rewrite vec_len_app in Hcount. change (vec_len [_]) with 1%Z in Hcount.
        rewrite string_app_nil_l in Htext. rewrite <-Htext. split_and!; [done|done|by constructor| |].
        -- right. destruct Hcount as [->|?]; [change (vec_len []) with 0%Z; lia|lia].
        -- rewrite <-app_assoc, byte_len_app, byte_len_lf_line. cbn [line_ranges app]. f_equal. lia.
      * intros (lines & tail & Htext & Ht & Hls & Hcount & ->).
        apply split_line in Htext as (lines' & -> & Htext); [|done..|by apply line_ok_free].
        apply Forall_cons in Hls as [Hok Hls]. rewrite vec_len_cons in Hcount. assert (0 ≤ vec_len lines')%Z by (unfold vec_len; lia).
        destruct Hcount as [[=]|Hcount].
        eexists. split; [apply frame_line_Ok; [done..|split_and!; [done|lia|done]]|].
        apply IH; [done..|by rewrite vec_len_app; change (vec_len [_]) with 1%Z; lia|].
        exists lines', tail. rewrite string_app_nil_l, vec_len_app. change (vec_len [_]) with 1%Z.
        split_and!; [done..|right; lia|].
        rewrite put_all_cons, <-app_assoc, byte_len_app, byte_len_lf_line. cbn [line_ranges app]. f_equal. lia.
    + replace (cur +:+ String c rest) with ((cur +:+ String c "") +:+ rest) in * by (by rewrite string_app_assoc).
      replace (S (String.length before + String.length cur))
        with (String.length before + String.length (cur +:+ String c "")) by (rewrite string_app_length; simpl; lia).
      apply IH; [|done..]. rewrite bytes_of_app, elem_of_app. intros [?|?%list_elem_of_singleton]; [done|congruence].
Qed.

(* ------------------------------------------------------------------ *)
(** ** Captures *)

(** The bytes of a capture that framing accepts, with their lines. *)
Record well_framed (bytes : string) (lines : list string) : Prop := {
  wf_bytes : bytes = put_all lf_line lines;
  wf_small : (byte_len bytes ≤ MAX_CODEX_JSONL_BYTES_V0)%Z;
  wf_no_return : CR ∉ bytes_of bytes;
  wf_utf8 : utf8_valid bytes = true;
  wf_some : lines ≠ [];
  wf_count : (vec_len lines ≤ MAX_CODEX_RECORDS_V0)%Z;
  wf_lines : Forall line_ok lines;
}.

Lemma last_byte_app s b : last_byte (s +:+ String b "") = Some b.
Proof using Type. induction s as [|c s IH]; [done|]. rewrite string_app_cons. destruct s; [done|]. exact IH. Qed.

Lemma record_slices_lines before lines :
  record_slices (mkFramed (before +:+ put_all lf_line lines) (line_ranges (byte_len before) lines)) = lines.
Proof using Type.
  revert before. induction lines as [|l lines IH]; intros before; [done|].
  rewrite put_all_cons. cbn [line_ranges]. unfold record_slices in *. cbn [fc_records fc_bytes fmap list_fmap fst snd] in *.
  f_equal.
  - assert (get_range (before +:+ (lf_line l +:+ put_all lf_line lines)) (byte_len before) (byte_len before + byte_len l)
      = Some l) as ->; [|done].
    apply get_range_Some; [apply byte_len_nonneg|]. exists before, (String LF (put_all lf_line lines)).
    rewrite lf_line_app. split_and!; [done..|lia].
  - specialize (IH (before +:+ lf_line l)). rewrite string_app_assoc, byte_len_app, byte_len_lf_line in IH.
    by rewrite Z.add_assoc in IH.
Qed.

Lemma ends_with_LF lines : lines ≠ [] → last_byte (put_all lf_line lines) = Some LF.
Proof using Type.
  intros Hne. destruct lines as [|l lines] using rev_ind; [done|]. rewrite put_all_app. cbn.
  rewrite string_app_nil_r. unfold lf_line. rewrite <-string_app_assoc. apply last_byte_app.
Qed.

Lemma parse_owned_Ok bytes capture :
  parse_owned bytes = Ok capture ↔
  ∃ lines, well_framed bytes lines ∧ capture = mkFramed bytes (line_ranges 0 lines).
Proof using Type.
  unfold parse_owned. destruct (Z.ltb_spec MAX_CODEX_JSONL_BYTES_V0 (byte_len bytes)) as [Hbig|Hsmall].
  { split; [done|]. intros (lines & [] & _). lia. }
  destruct (String.eqb bytes "" || _ || _) eqn:Hframe.
  { split; [done|]. intros (lines & [-> ? Hcr ? Hne ? ?] & _). rewrite !orb_true_iff, negb_true_iff in Hframe.
    rewrite (ends_with_LF _ Hne) in Hframe. rewrite bool_decide_true, !bool_decide_eq_true in Hframe by done.
    destruct Hframe as [[Hemp%String.eqb_eq|[=]]|?]; [|done]. apply ends_with_LF in Hne. by rewrite Hemp in Hne. }
  rewrite !orb_false_iff in Hframe. destruct Hframe as [[Hemp Hlast] Hcr%bool_decide_eq_false].
  destruct (utf8_valid bytes) eqn:Hutf; cbn [negb].
  2: { split; [done|]. intros (lines & [] & _). congruence. }
  unfold enumerate, chunks. rewrite frame_chunks_positions; [|done|unfold MAX_CODEX_JSONL_BYTES_V0 in Hsmall; lia].
  rewrite bind_Ok. rewrite Nat.mul_0_l.
  assert (∀ st', try_fold (frame_line bytes) ([], 0%Z) (Z.of_nat <$> positions_from LF 0 bytes) = Ok st' ↔
    framed_as [] 0 bytes st') as Hloop.
  { intros st'. apply (frame_lines_Ok "" "" bytes []); [apply not_elem_of_nil| |done].
    change ("" +:+ ("" +:+ bytes)) with bytes. unfold MAX_CODEX_JSONL_BYTES_V0 in Hsmall. lia. }
  split.
  - intros ([records start] & Hl%Hloop & Hend). destruct Hl as (lines & tail & Htext & Ht & Hls & Hcount & [= -> ->]).
    rewrite Z.add_0_l in Hend.
    destruct (Z.eqb_spec (byte_len (put_all lf_line lines)) (byte_len bytes)) as [Hlen|]; cbn [negb orb] in Hend; [|done].
    case_bool_decide as Hne; [done|]. injection Hend as <-. exists lines. split; [|done].
    assert (tail = "") as ->.
    { rewrite Htext, byte_len_app in Hlen. unfold byte_len in Hlen. destruct tail; [done|simpl in Hlen; lia]. }
    rewrite string_app_nil_r in Htext. assert (lines ≠ []) as Hls' by (by intros ->).
    destruct Hcount as [?|Hcount]; [done|]. by split.
  - intros (lines & [Htext ? ? ? Hne Hcount Hls] & ->).
    exists (line_ranges 0 lines, byte_len (put_all lf_line lines)). split.
    + apply Hloop. exists lines, "". rewrite string_app_nil_r. split_and!; [done|apply not_elem_of_nil|done|by right|done].
    + rewrite Htext at 1. rewrite Z.eqb_refl. cbn [negb orb]. rewrite bool_decide_false; [done|]. by destruct lines.
Qed.

(** C25: a capture is accepted exactly when it is a sequence of one to 4096 lines,
    each ended by a line feed and a JSON object within the record limits,
    without carriage returns, in UTF-8 and within the capture limit; the
    records are then those lines, wherever the chunk boundaries fall. *)
Theorem capture_framing_exact bytes :
  (∀ capture, parse_owned bytes = Ok capture →
     well_framed bytes (record_slices capture) ∧ fc_bytes capture = bytes) ∧
  (∀ lines, well_framed bytes lines → ∃ capture, parse_owned bytes = Ok capture ∧ record_slices capture = lines).
Proof using Type.
  assert (∀ lines, well_framed bytes lines → record_slices (mkFramed bytes (line_ranges 0 lines)) = lines) as Hs.
  { intros lines [-> _ _ _ _ _ _]. apply (record_slices_lines ""). }
  split.
  - intros capture (lines & Hw & ->)%parse_owned_Ok. by rewrite Hs.
  - intros lines Hw. eexists. split; [apply parse_owned_Ok; eauto|by apply Hs].
Qed.
End framing.
