(* ===== verification/CodexStream.v ===== *)
(** * The stream automaton of a Codex run (src/trajectory/codex_exec_v0/fsm.rs)

    A run starts a thread, then one turn, whose items open and close; the local
    variables of [validate_stream] are a record that each step takes and
    returns.  The raw records that the source passes on only for its errors are
    left out. *)

From S2P Require Import Prelude Encoding Trajectory F64 Errors JsonScan JsonScanSpec WireJson CodexEvent.
From Stdlib Require Import Ascii.
From stdpp Require Import pretty options.

(** [ProcessTerminationV0] (receipt.rs); codes and signals are bytes. *)
Inductive ProcessTerminationV0 :=
  | Exited (code : Z)
  | Signaled (signal : Z) (core_dumped : bool).

Inductive TerminalV0 := TCompleted | TFailed.

Global Instance ProcessTerminationV0_eq_dec : EqDecision ProcessTerminationV0.
Proof. solve_decision. Defined.
Global Instance TerminalV0_eq_dec : EqDecision TerminalV0.
Proof. solve_decision. Defined.

Record TodoLifecycleV0 := mkTodoLifecycle {
  tl_id : string;
  tl_latest_items : list TodoV0;
  tl_completed : bool;
}.

Record CodexStreamState := mkStream {
  st_turn_started : bool;
  st_terminal : option TerminalV0;
  st_next_item : Z;
  st_seen_items : gmap string ItemClassV0;
  st_active : gmap string ItemV0;
  st_todo : option TodoLifecycleV0;
  st_reconciling_after_todo : bool;
}.

Definition initial_stream : CodexStreamState := mkStream false None 0 ∅ ∅ None false.

Definition stream_error : AdapterErrorV0 := adapter_error StreamState.

Definition at_record (index : nat) (path : string) : AdapterErrorV0 := record_error StreamState index path.

Definition same_active_item (started current : ItemV0) : bool :=
  match started, current with
  | Command _ first _ _ CsInProgress, Command _ second _ _ (CsCompleted | CsFailed | CsDeclined) =>
      String.eqb first second
  | FileChange _ first FsInProgress, FileChange _ second (FsCompleted | FsFailed) => bool_decide (first = second)
  | TodoList _ _, TodoList _ _ => true
  | _, _ => false
  end.

Definition is_reconciliation_or_terminal (record : ParsedRecordV0) : bool :=
  match record with
  | ItemRecord LcCompleted (Command _ _ _ _ _ | FileChange _ _ _) | TurnCompleted _ | TurnFailed _ => true
  | _ => false
  end.

(** An item may open with this event. *)
Definition first_is_legal (lifecycle : LifecycleV0) (item : ItemV0) : bool :=
  match item, lifecycle with
  | (AgentMessage _ _ | Reasoning _ _ | ErrorItem _ _), LcCompleted => true
  | (Command _ _ _ _ _ | FileChange _ _ _ | TodoList _ _), LcStarted => true
  | _, _ => false
  end.

(** [format!("item_{next_item}")] *)
Definition item_name (next_item : Z) : string := "item_" +:+ pretty (Z.to_N next_item).

(** The todo list of this identity, if it is not completed. *)
Definition open_todo (id : string) (todo : option TodoLifecycleV0) : option TodoLifecycleV0 :=
  state ← todo;
  if String.eqb (tl_id state) id && negb (tl_completed state) then Some state else None.

(** An event of an item that was seen before. *)
Definition continue_item (index : nat) (lifecycle : LifecycleV0) (item : ItemV0) (previous : ItemClassV0)
    (st : CodexStreamState) : AdapterResultV0 CodexStreamState :=
  let id := item_id item in
  if negb (bool_decide (previous = item_class item)) then Err (at_record index "$.item.id")
  else
    started ← ok_or (st_active st !! id) (at_record index "$.item.id");
    if negb (same_active_item started item) then Err (at_record index "$.item")
    else
      match item, lifecycle with
      | TodoList _ items, LcUpdated =>
          state ← ok_or (open_todo id (st_todo st)) (at_record index "$.item");
          Ok (mkStream (st_turn_started st) (st_terminal st) (st_next_item st) (st_seen_items st) (st_active st)
                (Some (mkTodoLifecycle (tl_id state) items (tl_completed state))) (st_reconciling_after_todo st))
      | (Command _ _ _ _ _ | FileChange _ _ _), LcCompleted =>
          Ok (mkStream (st_turn_started st) (st_terminal st) (st_next_item st) (st_seen_items st)
                (delete id (st_active st)) (st_todo st) (st_reconciling_after_todo st))
      | TodoList _ items, LcCompleted =>
          state ← ok_or (open_todo id (st_todo st)) (at_record index "$.item");
          if negb (bool_decide (tl_latest_items state = items)) then Err (at_record index "$.item.items")
          else
            Ok (mkStream (st_turn_started st) (st_terminal st) (st_next_item st) (st_seen_items st)
                  (delete id (st_active st))
                  (Some (mkTodoLifecycle (tl_id state) (tl_latest_items state) true)) true)
      | _, _ => Err (at_record index "$.item")
      end.

(** The first event of an item. *)
Definition open_item (index : nat) (lifecycle : LifecycleV0) (item : ItemV0) (st : CodexStreamState)
    : AdapterResultV0 CodexStreamState :=
  let id := item_id item in
  if negb (String.eqb id (item_name (st_next_item st))) then Err (at_record index "$.item.id")
  else
    next_item ← ok_or (checked_add (st_next_item st) 1) stream_error;
    if negb (first_is_legal lifecycle item) then Err (at_record index "$.item")
    else
      let seen_items := <[id := item_class item]> (st_seen_items st) in
      match item with
      | TodoList _ items =>
          match st_todo st with
          | Some _ => Err (at_record index "$.item")
          | None =>
              Ok (mkStream (st_turn_started st) (st_terminal st) next_item seen_items (<[id := item]> (st_active st))
                    (Some (mkTodoLifecycle id items false)) (st_reconciling_after_todo st))
          end
      | Command _ _ _ _ _ | FileChange _ _ _ =>
          Ok (mkStream (st_turn_started st) (st_terminal st) next_item seen_items (<[id := item]> (st_active st))
                (st_todo st) (st_reconciling_after_todo st))
      | AgentMessage _ _ | Reasoning _ _ | ErrorItem _ _ =>
          Ok (mkStream (st_turn_started st) (st_terminal st) next_item seen_items (st_active st)
                (st_todo st) (st_reconciling_after_todo st))
      end.

Definition validate_item_id (index : nat) (lifecycle : LifecycleV0) (item : ItemV0) (st : CodexStreamState)
    : AdapterResultV0 CodexStreamState :=
  if (128 <? byte_len (item_id item))%Z then Err (at_record index "$.item.id")
  else
    match st_seen_items st !! item_id item with
    | Some previous => continue_item index lifecycle item previous st
    | None => open_item index lifecycle item st
    end.

Definition set_turn_started (st : CodexStreamState) : CodexStreamState :=
  mkStream true (st_terminal st) (st_next_item st) (st_seen_items st) (st_active st) (st_todo st)
    (st_reconciling_after_todo st).

Definition set_terminal (terminal : TerminalV0) (st : CodexStreamState) : CodexStreamState :=
  mkStream (st_turn_started st) (Some terminal) (st_next_item st) (st_seen_items st) (st_active st) (st_todo st)
    (st_reconciling_after_todo st).

(** The end of the turn: every item must be closed. *)
Definition end_turn (index : nat) (terminal : TerminalV0) (st : CodexStreamState) : AdapterResultV0 CodexStreamState :=
  if negb (st_turn_started st) || negb (bool_decide (st_active st = ∅)) then Err (at_record index "$.type")
  else Ok (set_terminal terminal st).

(** The body of the loop over the records. *)
Definition stream_step (st : CodexStreamState) (indexed : nat * ParsedRecordV0) : AdapterResultV0 CodexStreamState :=
  let '(index, record) := indexed in
  if bool_decide (is_Some (st_terminal st)) then Err (at_record index "$.type")
  else if st_reconciling_after_todo st && negb (is_reconciliation_or_terminal record)
  then Err (at_record index "$.type")
  else
    match record with
    | ThreadStarted _ => if index =? 0 then Ok st else Err (at_record index "$.type")
    | TurnStarted =>
        if negb (st_turn_started st) && (0 <? index) then Ok (set_turn_started st)
        else Err (at_record index "$.type")
    | ErrorRecord _ => Ok st
    | ItemRecord lifecycle item =>
        if negb (st_turn_started st)
           && negb (match lifecycle, item with LcCompleted, ErrorItem _ _ => true | _, _ => false end)
        then Err (at_record index "$.item")
        else validate_item_id index lifecycle item st
    | TurnCompleted _ => end_turn index TCompleted st
    | TurnFailed _ => end_turn index TFailed st
    end.

Definition validate_termination (terminal : TerminalV0) (termination : option ProcessTerminationV0)
    : AdapterResultV0 () :=
  match termination with
  | None => Ok ()
  | Some termination =>
      match terminal, termination with
      | TCompleted, Exited code =>
          if (code =? 0)%Z || (code =? 1)%Z then Ok () else Err (adapter_error IllegalTermination)
      | TFailed, Exited code => if (code =? 1)%Z then Ok () else Err (adapter_error IllegalTermination)
      | _, Signaled _ _ => Err (adapter_error UnsupportedProfile)
      end
  end.

Definition starts_thread (records : list ParsedRecordV0) : bool :=
  match records with ThreadStarted _ :: _ => true | _ => false end.

Definition validate_stream (records : list ParsedRecordV0) (termination : option ProcessTerminationV0)
    : AdapterResultV0 TerminalV0 :=
  if negb (starts_thread records) then Err stream_error
  else
    st ← try_fold stream_step initial_stream (enumerate records);
    terminal ← ok_or (st_terminal st) stream_error;
    _ ← validate_termination terminal termination;
    Ok terminal.
