(* ===== verification/CodexStreamSpec.v ===== *)
(** * The language of the stream automaton

    The automaton of fsm.rs keeps maps of seen and open items; what it accepts
    is said here without them: the events of each item, taken alone, form
    a closed life, and a few conditions order the items, the turn, the todo
    list and the end. *)

From S2P Require Import Prelude Encoding Trajectory F64 Errors JsonScan JsonScanSpec WireJson CodexEvent CodexFraming CodexStream.
From Stdlib Require Import Ascii.
From stdpp Require Import pretty options.

(* ------------------------------------------------------------------ *)
(** ** The life of one item *)

Inductive ItemStatus :=
  | Fresh
  | OpenWork (started : ItemV0)
  | OpenTodo (latest : list TodoV0)
  | Closed.

Definition item_step (status : ItemStatus) (event : LifecycleV0 * ItemV0) : option ItemStatus :=
  match status, event with
  | Fresh, (LcCompleted, (AgentMessage _ _ | Reasoning _ _ | ErrorItem _ _)) => Some Closed
  | Fresh, (LcStarted, (Command _ _ _ _ _ | FileChange _ _ _) as item) => Some (OpenWork item)
  | Fresh, (LcStarted, TodoList _ items) => Some (OpenTodo items)
  | OpenWork started, (LcCompleted, item) => if same_active_item started item then Some Closed else None
  | OpenTodo _, (LcUpdated, TodoList _ items) => Some (OpenTodo items)
  | OpenTodo latest, (LcCompleted, TodoList _ items) => if decide (latest = items) then Some Closed else None
  | _, _ => None
  end.

Definition item_run (events : list (LifecycleV0 * ItemV0)) : option ItemStatus :=
  foldl (λ status event, status ← status; item_step status event) (Some Fresh) events.

Lemma item_run_snoc events event : item_run (events ++ [event]) = (status ← item_run events; item_step status event).
Proof. unfold item_run. by rewrite foldl_app. Qed.

Lemma item_run_prefix events more : is_Some (item_run (events ++ more)) → is_Some (item_run events).
Proof.
  induction more as [|e more IH] using rev_ind; [by rewrite app_nil_r|].
  rewrite app_assoc, item_run_snoc. intros [s Hs]. apply IH.
  destruct (item_run (events ++ more)) eqn:E; [by eexists|done].
Qed.

(** The event of a record, if it is one of this item. *)
Definition event_of (id : string) (record : ParsedRecordV0) : option (LifecycleV0 * ItemV0) :=
  match record with
  | ItemRecord lifecycle item => if decide (item_id item = id) then Some (lifecycle, item) else None
  | _ => None
  end.
Definition item_events (id : string) (records : list ParsedRecordV0) : list (LifecycleV0 * ItemV0) :=
  omap (event_of id) records.

Lemma item_events_app id p q : item_events id (p ++ q) = item_events id p ++ item_events id q.
Proof. apply omap_app. Qed.

Lemma item_events_snoc id p l i :
  item_events id (p ++ [ItemRecord l i]) = item_events id p ++ (if decide (item_id i = id) then [(l, i)] else []).
Proof. rewrite item_events_app. f_equal. cbn. by case_decide. Qed.

(** The identities in the order of their first events. *)
Definition add_first (ids : list string) (record : ParsedRecordV0) : list string :=
  match record with
  | ItemRecord _ item => if decide (item_id item ∈ ids) then ids else ids ++ [item_id item]
  | _ => ids
  end.
Definition first_ids (records : list ParsedRecordV0) : list string := foldl add_first [] records.

Lemma first_ids_snoc p r : first_ids (p ++ [r]) = add_first (first_ids p) r.
Proof. unfold first_ids. by rewrite foldl_app. Qed.

Lemma first_ids_prefix p q : ∃ more, first_ids (p ++ q) = first_ids p ++ more.
Proof.
  induction q as [|r q [more IH]] using rev_ind; [exists []; by rewrite !app_nil_r|].
  rewrite app_assoc, first_ids_snoc, IH. destruct r; cbn [add_first]; try (by exists more).
  case_decide; [by exists more|]. eexists. by rewrite <-app_assoc.
Qed.

Lemma first_ids_events id p : id ∈ first_ids p ↔ item_events id p ≠ [].
Proof.
  induction p as [|r p IH] using rev_ind; [split; [by intros ?%elem_of_nil|done]|].
  rewrite first_ids_snoc, item_events_app. cbn. destruct r; cbn; rewrite ?app_nil_r; try done.
  destruct (decide (item_id item = id)) as [<-|Hne].
  - split; [by intros _ [_ [=]]%app_nil|intros _]. case_decide; [done|]. apply elem_of_app. right. by left.
  - rewrite app_nil_r. case_decide; [done|]. rewrite elem_of_app, list_elem_of_singleton, IH. naive_solver.
Qed.

Definition numbered (ids : list string) : Prop :=
  ids = (λ n, item_name (Z.of_nat n)) <$> seq 0 (length ids).

(* ------------------------------------------------------------------ *)
(** ** The conditions on a stream *)

Definition is_thread (r : ParsedRecordV0) : bool := match r with ThreadStarted _ => true | _ => false end.
Definition terminal_of (r : ParsedRecordV0) : option TerminalV0 :=
  match r with TurnCompleted _ => Some TCompleted | TurnFailed _ => Some TFailed | _ => None end.
(** Everything but the start, stream errors and completed item errors is inside the turn. *)
Definition needs_turn (r : ParsedRecordV0) : bool :=
  match r with
  | ThreadStarted _ | TurnStarted | ErrorRecord _ | ItemRecord LcCompleted (ErrorItem _ _) => false
  | _ => true
  end.
Definition todo_id (r : ParsedRecordV0) : option string :=
  match r with ItemRecord _ (TodoList id _) => Some id | _ => None end.
Definition completes_todo (r : ParsedRecordV0) : bool :=
  match r with ItemRecord LcCompleted (TodoList _ _) => true | _ => false end.

(** The beginning of a stream, up to any record. *)
Record stream_prefix (p : list ParsedRecordV0) : Prop := {
  sp_thread : ∀ i r, p !! i = Some r → is_thread r = true ↔ i = 0;
  sp_turn_once : ∀ i j, p !! i = Some TurnStarted → p !! j = Some TurnStarted → i = j;
  sp_in_turn : ∀ i r, p !! i = Some r → needs_turn r = true → ∃ j, j < i ∧ p !! j = Some TurnStarted;
  sp_end : ∀ i r, p !! i = Some r → is_Some (terminal_of r) → S i = length p;
  sp_one_todo : ∀ i j r s id id', p !! i = Some r → p !! j = Some s →
    todo_id r = Some id → todo_id s = Some id' → id = id';
  sp_reconcile : ∀ i j r s, i < j → p !! i = Some r → completes_todo r = true →
    p !! j = Some s → is_reconciliation_or_terminal s = true;
  sp_lives : ∀ id, is_Some (item_run (item_events id p));
  sp_all_closed : ∀ i r id, p !! i = Some r → is_Some (terminal_of r) →
    item_run (item_events id p) = Some Fresh ∨ item_run (item_events id p) = Some Closed;
  sp_numbered : numbered (first_ids p);
}.

(** A whole stream: it has an end. *)
Definition stream_valid (records : list ParsedRecordV0) (terminal : TerminalV0) : Prop :=
  stream_prefix records ∧ ∃ r, last records = Some r ∧ terminal_of r = Some terminal.

(* ------------------------------------------------------------------ *)
(** ** What the automaton remembers *)

Definition tracks (st : CodexStreamState) (id : string) (status : ItemStatus) : Prop :=
  match status with
  | Fresh => st_seen_items st !! id = None ∧ st_active st !! id = None
  | OpenWork started =>
      st_seen_items st !! id = Some (item_class started) ∧ st_active st !! id = Some started ∧
      (∀ id items, started ≠ TodoList id items)
  | OpenTodo latest =>
      st_seen_items st !! id = Some TodoListClass ∧ (∃ items, st_active st !! id = Some (TodoList id items)) ∧
      st_todo st = Some (mkTodoLifecycle id latest false)
  | Closed => is_Some (st_seen_items st !! id) ∧ st_active st !! id = None
  end.

Record remembers (p : list ParsedRecordV0) (st : CodexStreamState) : Prop := {
  rm_turn : st_turn_started st = true ↔ TurnStarted ∈ p;
  rm_terminal : st_terminal st = last p ≫= terminal_of;
  rm_next : st_next_item st = vec_len (first_ids p);
  rm_items : ∀ id status, item_run (item_events id p) = Some status → tracks st id status;
  rm_todo : ∀ id, tl_id <$> st_todo st = Some id ↔ ∃ r, r ∈ p ∧ todo_id r = Some id;
  rm_reconciling : st_reconciling_after_todo st = existsb completes_todo p;
}.

Lemma remembers_nil : remembers [] initial_stream.
Proof.
  split; try done.
  - split; [done|by intros ?%elem_of_nil].
  - by intros id status [= <-].
  - intros id. split; [done|]. by intros (r & ?%elem_of_nil & _).
Qed.

Lemma stream_prefix_nil : stream_prefix [].
Proof. by split. Qed.

Lemma item_events_nil_fresh id p : item_events id p = [] → item_run (item_events id p) = Some Fresh.
Proof. by intros ->. Qed.

Lemma item_step_not_fresh status event : item_step status event ≠ Some Fresh.
Proof. destruct status, event as [[] []]; cbn; repeat case_match; done. Qed.

Lemma item_run_Fresh events : item_run events = Some Fresh → events = [].
Proof.
  destruct events as [|e events _] using rev_ind; [done|]. rewrite item_run_snoc.
  destruct (item_run events); [|done]. intros H%item_step_not_fresh. done.
Qed.

(* ------------------------------------------------------------------ *)
(** ** Names of items *)

Lemma pretty_length_go k x s : (x < 10 ^ N.of_nat k)%N → String.length (pretty_N_go x s) ≤ k + String.length s.
Proof.
  revert x s. induction k as [|k IH]; intros x s Hx.
  - assert (x = 0%N) as -> by (simpl in Hx; lia). by rewrite pretty_N_go_0.
  - destruct (decide (x = 0%N)) as [->|Hne]; [rewrite pretty_N_go_0; lia|].
    rewrite pretty_N_go_step by lia. rewrite Nat2N.inj_succ, N.pow_succ_r' in Hx.
    etrans; [apply IH, N.Div0.div_lt_upper_bound; lia|simpl; lia].
Qed.

Lemma item_name_short n : (0 ≤ n < 2 ^ 64)%Z → (byte_len (item_name n) ≤ 128)%Z.
Proof.
  intros Hn. unfold item_name, byte_len. rewrite string_app_length. change (String.length "item_") with 5.
  assert (String.length (pretty (Z.to_N n)) ≤ 20); [|lia].
  unfold pretty, pretty_N. case_decide; [simpl; lia|].
  pose proof (pretty_length_go 20 (Z.to_N n) "") as Hp. rewrite Nat.add_0_r in Hp. apply Hp. lia.
Qed.

Lemma numbered_prefix ids more : numbered (ids ++ more) → numbered ids.
Proof.
  unfold numbered. rewrite length_app, seq_app, fmap_app. intros H%app_inj_1; [by destruct H|].
  by rewrite length_fmap, length_seq.
Qed.

Lemma numbered_snoc ids id : numbered ids → numbered (ids ++ [id]) ↔ id = item_name (vec_len ids).
Proof.
  unfold numbered, vec_len. intros Hids. rewrite length_app, seq_app, fmap_app, <-Hids. cbn. split.
  - intros [_ Hi]%app_inj_1; [by injection Hi|done].
  - by intros ->.
Qed.

Lemma numbered_short ids id : numbered ids → (vec_len ids ≤ 2 ^ 64)%Z → id ∈ ids → (byte_len id ≤ 128)%Z.
Proof.
  unfold numbered, vec_len. intros -> Hl Hin. rewrite length_fmap, length_seq in Hl.
  apply list_elem_of_fmap in Hin as (n & -> & [_ Hn]%elem_of_seq). apply item_name_short. lia.
Qed.

Lemma length_first_ids p : length (first_ids p) ≤ length p.
Proof.
  induction p as [|r p IH] using rev_ind; [done|]. rewrite first_ids_snoc, length_app. simpl.
  destruct r; cbn [add_first]; try lia. case_decide; [lia|]. rewrite length_app. simpl. lia.
Qed.

(* ------------------------------------------------------------------ *)
(** ** One event of an item *)

(** What a step for an event of an item leaves alone. *)
Record item_frame (l : LifecycleV0) (i : ItemV0) (st st' : CodexStreamState) : Prop := {
  fr_turn : st_turn_started st' = st_turn_started st;
  fr_terminal : st_terminal st' = st_terminal st;
  fr_seen : ∀ id, id ≠ item_id i → st_seen_items st' !! id = st_seen_items st !! id;
  fr_active : ∀ id, id ≠ item_id i → st_active st' !! id = st_active st !! id;
  fr_todo :
    (todo_id (ItemRecord l i) = None ∧ st_todo st' = st_todo st) ∨
    (todo_id (ItemRecord l i) = Some (item_id i) ∧ (∀ t, st_todo st = Some t → tl_id t = item_id i) ∧
     tl_id <$> st_todo st' = Some (item_id i));
  fr_reconciling :
    st_reconciling_after_todo st' = st_reconciling_after_todo st || completes_todo (ItemRecord l i);
}.

(** A step from one status of its item to the next. *)
Definition moves (l : LifecycleV0) (i : ItemV0) (st : CodexStreamState) (next : Z) (status : option ItemStatus)
    (st' : CodexStreamState) : Prop :=
  ∃ s, status = Some s ∧ tracks st' (item_id i) s ∧ item_frame l i st st' ∧ st_next_item st' = next.

Lemma tracks_frame l i st st' id s :
  item_frame l i st st' → id ≠ item_id i → tracks st id s → tracks st' id s.
Proof.
  intros [_ _ Hs Ha Ht _] Hne. destruct s; cbn; rewrite ?Hs, ?Ha by done; [done..| |done].
  intros (? & ? & Htodo). split_and!; [done..|]. destruct Ht as [[_ ->]|(_ & Ht & _)]; [done|].
  apply Ht in Htodo. by destruct Hne.
Qed.

Lemma same_active_class started i : same_active_item started i = true → item_class started = item_class i.
Proof. destruct started, i; cbn; repeat case_match; done. Qed.

Lemma continue_work index l i previous st started :
  st_seen_items st !! item_id i = Some previous → tracks st (item_id i) (OpenWork started) →
  (∀ st', continue_item index l i previous st = Ok st' →
     moves l i st (st_next_item st) (item_step (OpenWork started) (l, i)) st') ∧
  (is_Some (item_step (OpenWork started) (l, i)) → is_ok (continue_item index l i previous st) = true).
Proof.
  intros Hseen (Hclass & Hactive & Hwork). unfold continue_item. rewrite Hactive. cbn [ok_or mbind Result_bind].
  rewrite Hseen in Hclass. injection Hclass as ->.
  destruct (same_active_item started i) eqn:Hsame.
  - rewrite bool_decide_true by (by apply same_active_class). cbn [negb].
    destruct i as [| | |id c o e s|id ch s|id items]; try (by destruct started; cbn in Hsame; repeat case_match).
    + destruct l; cbn; rewrite ?Hsame; [by split; [|intros [? [=]]]..|]. split; [|done]. intros st' [= <-].
      eexists. split; [done|]. split; [|split; [|done]]; cbn.
      * split; [by eexists|]. by rewrite lookup_delete_eq.
      * split; cbn; try done; [by intros ? ?; rewrite lookup_delete_ne|by left|by rewrite orb_false_r].
    + destruct l; cbn; rewrite ?Hsame; [by split; [|intros [? [=]]]..|]. split; [|done]. intros st' [= <-].
      eexists. split; [done|]. split; [|split; [|done]]; cbn.
      * split; [by eexists|]. by rewrite lookup_delete_eq.
      * split; cbn; try done; [by intros ? ?; rewrite lookup_delete_ne|by left|by rewrite orb_false_r].
    + destruct started; cbn in Hsame; repeat case_match; try done; by edestruct Hwork.
  - assert (item_step (OpenWork started) (l, i) = None) as ->.
    { destruct l; cbn; [done..|by rewrite Hsame]. }
    split; [|by intros [? [=]]]. destruct (negb _); done.
Qed.

Lemma open_todo_tracks id latest st :
  st_todo st = Some (mkTodoLifecycle id latest false) → open_todo id (st_todo st) = st_todo st.
Proof. intros ->. unfold open_todo. cbn. by rewrite String.eqb_refl. Qed.

Lemma continue_todo index l i previous st latest :
  st_seen_items st !! item_id i = Some previous → tracks st (item_id i) (OpenTodo latest) →
  (∀ st', continue_item index l i previous st = Ok st' →
     moves l i st (st_next_item st) (item_step (OpenTodo latest) (l, i)) st') ∧
  (is_Some (item_step (OpenTodo latest) (l, i)) → is_ok (continue_item index l i previous st) = true).
Proof.
  intros Hseen (Hclass & (items0 & Hactive) & Htodo). unfold continue_item. rewrite Hactive. cbn [ok_or mbind Result_bind].
  rewrite Hseen in Hclass. injection Hclass as ->.
  destruct i as [| | | | |id items]; try by (split; [by cbn; repeat case_match|by destruct l; intros [? [=]]]).
  cbn [item_class item_id same_active_item] in *. rewrite bool_decide_true by done. cbn [negb].
  rewrite (open_todo_tracks _ _ _ Htodo), Htodo. cbn [ok_or mbind Result_bind tl_latest_items tl_id tl_completed].
  destruct l; [by split; [|intros [? [=]]]|..].
  - split; [|done]. intros st' [= <-]. eexists. split; [done|]. split; [|split; [|done]]; cbn.
    + split_and!; [by rewrite Hseen|by eexists|done].
    + split; cbn; try done; [|by rewrite orb_false_r]. right. split_and!; [done| |by eexists].
      rewrite Htodo. by intros t [= <-].
  - cbn [item_step]. destruct (decide (latest = items)) as [->|Hne].
    2: { rewrite bool_decide_false by done. by split; [|intros [? [=]]]. }
    rewrite bool_decide_true by done. split; [|done]. intros st' [= <-].
    eexists. split; [done|]. split; [|split; [|done]]; cbn.
    + split; [by eexists|]. by rewrite lookup_delete_eq.
    + split; cbn; try done; [by intros ? ?; rewrite lookup_delete_ne| |by rewrite orb_true_r].
      right. split_and!; [done| |done]. rewrite Htodo. by intros t [= <-].
Qed.

Lemma moves_opened l i st s active todo :
  item_step Fresh (l, i) = Some s → completes_todo (ItemRecord l i) = false →
  (∀ id, id ≠ item_id i → active !! id = st_active st !! id) →
  (todo_id (ItemRecord l i) = None ∧ todo = st_todo st) ∨
  (todo_id (ItemRecord l i) = Some (item_id i) ∧ st_todo st = None ∧ tl_id <$> todo = Some (item_id i)) →
  let st' := mkStream (st_turn_started st) (st_terminal st) (st_next_item st + 1)
    (<[item_id i := item_class i]> (st_seen_items st)) active todo (st_reconciling_after_todo st) in
  tracks st' (item_id i) s → moves l i st (st_next_item st + 1) (item_step Fresh (l, i)) st'.
Proof.
  intros Hs Hc Ha Htodo st' Ht. exists s. split_and!; try done. split; try done.
  - intros id Hne. cbn. by rewrite lookup_insert_ne.
  - destruct Htodo as [?|(? & Hnone & ?)]; [by left|right]. split_and!; try done. by rewrite Hnone.
  - by rewrite Hc, orb_false_r.
Qed.

Lemma open_item_moves index l i st :
  st_seen_items st !! item_id i = None → tracks st (item_id i) Fresh → (st_next_item st < 2 ^ 64 - 1)%Z →
  (∀ st', open_item index l i st = Ok st' →
     item_id i = item_name (st_next_item st) ∧ (todo_id (ItemRecord l i) ≠ None → st_todo st = None) ∧
     moves l i st (st_next_item st + 1) (item_step Fresh (l, i)) st') ∧
  (item_id i = item_name (st_next_item st) → (todo_id (ItemRecord l i) ≠ None → st_todo st = None) →
   is_Some (item_step Fresh (l, i)) → is_ok (open_item index l i st) = true).
Proof.
  intros Hseen [_ Hfresh] Hnext. unfold open_item, checked_add.
  destruct (String.eqb_spec (item_id i) (item_name (st_next_item st))) as [Hid|Hid]; cbn [negb]; [|done].
  destruct (Z.ltb_spec (st_next_item st + 1) (2 ^ 64)); [|lia]. cbn [ok_or mbind Result_bind].
  destruct l, i as [| | | | |id items]; cbn [first_is_legal negb];
    try (by split; [|intros _ _ [? [=]]]); try destruct (st_todo st) eqn:Htodo;
    (split; [first [done|intros st' [= <-]; do 2 (split; [done|])]|try done]).
  all: try (by intros _ Habs _; discriminate Habs).
  all: eapply moves_opened; [done|done|try done|rewrite ?Htodo; auto|].
  all: try (by intros id' Hne; cbn; rewrite lookup_insert_ne).
  all: cbn; rewrite ?lookup_insert_eq; try done.
  all: split_and!; try done; by eexists.
Qed.

(** A record of an item, seen or new, in a state that remembers the beginning. *)
Lemma validate_item_moves index l i p st :
  remembers p st → numbered (first_ids p) → is_Some (item_run (item_events (item_id i) p)) →
  (vec_len (first_ids p) < 2 ^ 64 - 1)%Z →
  let p' := p ++ [ItemRecord l i] in
  let todo_free := item_events (item_id i) p = [] → todo_id (ItemRecord l i) ≠ None → st_todo st = None in
  (∀ st', validate_item_id index l i st = Ok st' →
     numbered (first_ids p') ∧ todo_free ∧
     moves l i st (vec_len (first_ids p')) (item_run (item_events (item_id i) p')) st') ∧
  (numbered (first_ids p') → todo_free → is_Some (item_run (item_events (item_id i) p')) →
   is_ok (validate_item_id index l i st) = true).
Proof.
  intros Hrm Hnum [s Hs] Hlen. pose proof (rm_items _ _ Hrm _ _ Hs) as Ht. cbn zeta.
  rewrite item_events_snoc, decide_True, item_run_snoc, Hs by done. cbn [mbind option_bind].
  rewrite first_ids_snoc. cbn [add_first]. unfold validate_item_id.
  assert (s = Fresh ∨ s ≠ Fresh) as [->|Hseen] by (destruct s; auto).
  - pose proof (item_run_Fresh _ Hs) as Hnil. rewrite decide_False by (rewrite first_ids_events; by intros []).
    rewrite (numbered_snoc _ _ Hnum), <-(rm_next _ _ Hrm).
    assert (vec_len (first_ids p ++ [item_id i]) = (st_next_item st + 1)%Z) as ->.
    { rewrite (rm_next _ _ Hrm). unfold vec_len. rewrite length_app. simpl. lia. }
    destruct (open_item_moves index l i st) as [Hl Hr]; [apply Ht|done|rewrite (rm_next _ _ Hrm); lia|].
    destruct Ht as [-> _]. split.
    + intros st' H. case_match; [done|]. apply Hl in H as (? & ? & ?). split_and!; auto.
      apply numbered_snoc; [done|]. by rewrite <-(rm_next _ _ Hrm).
    + intros Hid Hfree Hsome. rewrite (proj2 (Z.ltb_ge _ _)); [by apply Hr; auto|].
      rewrite Hid. apply item_name_short. rewrite (rm_next _ _ Hrm). unfold vec_len in *. lia.
  - assert (item_events (item_id i) p ≠ []) as Hne by (intros Hnil; rewrite Hnil in Hs; by injection Hs as <-).
    rewrite decide_True, <-(rm_next _ _ Hrm) by (by apply first_ids_events).
    rewrite (proj2 (Z.ltb_ge _ _)) by (eapply numbered_short; [done|lia|by apply first_ids_events]).
    assert (∃ previous, st_seen_items st !! item_id i = Some previous) as [previous Hp].
    { destruct s; [done|destruct Ht as (? & _)..]; eauto. }
    rewrite Hp. destruct s as [|started|latest|]; [done|..].
    + destruct (continue_work index l i previous st started Hp Ht) as [Hl Hr]. split; [|by auto].
      intros st' H%Hl. by split_and!.
    + destruct (continue_todo index l i previous st latest Hp Ht) as [Hl Hr]. split; [|by auto].
      intros st' H%Hl. by split_and!.
    + destruct Ht as [_ Hact]. unfold continue_item. rewrite Hact. split; [|by intros _ _ [? [=]]].
      intros st'. by destruct (negb _).
Qed.

(* ------------------------------------------------------------------ *)
(** ** One record more *)

(** What a record must satisfy after a beginning. *)
Record may_follow (p : list ParsedRecordV0) (r : ParsedRecordV0) : Prop := {
  mf_thread : is_thread r = true ↔ p = [];
  mf_turn_once : r = TurnStarted → TurnStarted ∉ p;
  mf_in_turn : needs_turn r = true → TurnStarted ∈ p;
  mf_end : last p ≫= terminal_of = None;
  mf_one_todo : ∀ s id id', s ∈ p → todo_id s = Some id → todo_id r = Some id' → id = id';
  mf_reconcile : existsb completes_todo p = true → is_reconciliation_or_terminal r = true;
  mf_lives : ∀ id, is_Some (item_run (item_events id (p ++ [r])));
  mf_all_closed : is_Some (terminal_of r) → ∀ id,
    item_run (item_events id p) = Some Fresh ∨ item_run (item_events id p) = Some Closed;
  mf_numbered : numbered (first_ids (p ++ [r]));
}.

Lemma lookup_snoc_inv {A} (p : list A) r i x : (p ++ [r]) !! i = Some x → (p !! i = Some x ∧ i < length p) ∨ (i = length p ∧ x = r).
Proof.
  intros [H|[Hi H]]%lookup_app_Some; [left; split; [done|by eapply lookup_lt_Some]|right].
  destruct (i - length p) eqn:E; [|done]. injection H as ->. split; [lia|done].
Qed.

Lemma item_events_terminal id p r : is_Some (terminal_of r) → item_events id (p ++ [r]) = item_events id p.
Proof. intros H. rewrite item_events_app. destruct r; try by destruct H. all: apply app_nil_r. Qed.

Lemma stream_prefix_init p r : stream_prefix (p ++ [r]) → stream_prefix p.
Proof.
  intros Hp.
  assert (∀ i x, p !! i = Some x → (p ++ [r]) !! i = Some x) as Hl by (intros; by apply lookup_app_l_Some).
  split.
  - intros i x Hi. by apply (sp_thread _ Hp), Hl.
  - intros i j Hi Hj. by apply (sp_turn_once _ Hp); apply Hl.
  - intros i x Hi Hx. destruct (sp_in_turn _ Hp i x (Hl _ _ Hi) Hx) as (j & Hji & Hj). exists j. split; [done|].
    apply lookup_lt_Some in Hi. by rewrite lookup_app_l in Hj by lia.
  - intros i x Hi Hx. pose proof (sp_end _ Hp i x (Hl _ _ Hi) Hx) as He. rewrite length_app in He. simpl in He.
    apply lookup_lt_Some in Hi. lia.
  - intros i j x y id id' Hi Hj. by apply (sp_one_todo _ Hp i j); apply Hl.
  - intros i j x y Hij Hi Hc Hj. by eapply (sp_reconcile _ Hp i j x y); auto.
  - intros id. eapply item_run_prefix. rewrite <-item_events_app. apply (sp_lives _ Hp).
  - intros i x id Hi Hx. pose proof (sp_end _ Hp i x (Hl _ _ Hi) Hx) as He. rewrite length_app in He. simpl in He.
    apply lookup_lt_Some in Hi. lia.
  - pose proof (sp_numbered _ Hp) as Hn. destruct (first_ids_prefix p [r]) as [more Hm]. rewrite Hm in Hn.
    by eapply numbered_prefix.
Qed.

Lemma stream_prefix_last p r : stream_prefix (p ++ [r]) → may_follow p r.
Proof.
  intros Hp.
  assert (∀ i x, p !! i = Some x → (p ++ [r]) !! i = Some x) as Hl by (intros; by apply lookup_app_l_Some).
  assert ((p ++ [r]) !! length p = Some r) as Hr by (by apply list_lookup_middle).
  split.
  - rewrite (sp_thread _ Hp _ _ Hr). apply length_zero_iff_nil.
  - intros -> [i Hi]%list_elem_of_lookup. pose proof (sp_turn_once _ Hp _ _ (Hl _ _ Hi) Hr) as ->.
    apply lookup_lt_Some in Hi. lia.
  - intros Hx. destruct (sp_in_turn _ Hp _ _ Hr Hx) as (j & Hji & Hj). rewrite lookup_app_l in Hj by done.
    by eapply list_elem_of_lookup_2.
  - destruct (last p) as [x|] eqn:E; [|done]. cbn. destruct (terminal_of x) eqn:Ex; [|done].
    rewrite last_lookup in E. pose proof (sp_end _ Hp _ _ (Hl _ _ E) (ex_intro _ _ Ex)) as He.
    rewrite length_app in He. simpl in He. apply lookup_lt_Some in E. lia.
  - intros s id id' [i Hi]%list_elem_of_lookup Hs Hx. by eapply (sp_one_todo _ Hp i (length p) s r); auto.
  - intros (x & Hx & Hc)%existsb_exists. apply list_elem_of_In, list_elem_of_lookup in Hx as [i Hi].
    eapply (sp_reconcile _ Hp i (length p)); eauto. by eapply lookup_lt_Some.
  - apply (sp_lives _ Hp).
  - intros Hx id. rewrite <-(item_events_terminal id p r Hx). by eapply (sp_all_closed _ Hp).
  - apply (sp_numbered _ Hp).
Qed.

Lemma no_terminal_inside p i x :
  stream_prefix p → last p ≫= terminal_of = None → p !! i = Some x → ¬ is_Some (terminal_of x).
Proof.
  intros Hp Hend Hi Hx. pose proof (sp_end _ Hp i x Hi Hx) as He.
  rewrite last_lookup, <-He in Hend. cbn in Hend. rewrite Hi in Hend. cbn in Hend.
  rewrite Hend in Hx. by destruct Hx.
Qed.

Lemma stream_prefix_snoc p r : stream_prefix p → may_follow p r → stream_prefix (p ++ [r]).
Proof.
  intros Hp Hr. split.
  - intros i x [[Hi Hlt]|[-> ->]]%lookup_snoc_inv; [by apply (sp_thread _ Hp)|].
    rewrite (mf_thread _ _ Hr). symmetry. apply length_zero_iff_nil.
  - intros i j [[Hi ?]|[-> <-]]%lookup_snoc_inv [[Hj ?]|[-> Hj]]%lookup_snoc_inv;
      [by eapply (sp_turn_once _ Hp)|exfalso..|done].
    + by apply (mf_turn_once _ _ Hr); [|eapply list_elem_of_lookup_2].
    + by apply (mf_turn_once _ _ Hr); [|eapply list_elem_of_lookup_2].
  - intros i x [[Hi ?]|[-> ->]]%lookup_snoc_inv Hx.
    + destruct (sp_in_turn _ Hp i x Hi Hx) as (j & Hji & Hj). exists j. split; [done|]. by apply lookup_app_l_Some.
    + apply (mf_in_turn _ _ Hr), list_elem_of_lookup in Hx as [j Hj]. exists j.
      split; [by eapply lookup_lt_Some|by apply lookup_app_l_Some].
  - intros i x Hi Hx. rewrite length_app. simpl. apply lookup_snoc_inv in Hi as [[Hi ?]|[-> ->]]; [|lia].
    by destruct (no_terminal_inside p i x Hp (mf_end _ _ Hr) Hi).
  - intros i j x y id id' [[Hi ?]|[-> ->]]%lookup_snoc_inv [[Hj ?]|[-> ->]]%lookup_snoc_inv Hx Hy.
    + by eapply (sp_one_todo _ Hp i j).
    + eapply (mf_one_todo _ _ Hr); [by eapply list_elem_of_lookup_2|done..].
    + symmetry. eapply (mf_one_todo _ _ Hr); [by eapply list_elem_of_lookup_2|done..].
    + congruence.
  - intros i j x y Hij [[Hi ?]|[-> ->]]%lookup_snoc_inv Hc [[Hj ?]|[-> ->]]%lookup_snoc_inv; try lia.
    + by eapply (sp_reconcile _ Hp i j).
    + apply (mf_reconcile _ _ Hr), existsb_exists. exists x. split; [|done].
      by eapply list_elem_of_In, list_elem_of_lookup_2.
  - apply (mf_lives _ _ Hr).
  - intros i x id [[Hi ?]|[-> ->]]%lookup_snoc_inv Hx; [|rewrite item_events_terminal by done; by apply (mf_all_closed _ _ Hr)].
    by destruct (no_terminal_inside p i x Hp (mf_end _ _ Hr) Hi).
  - apply (mf_numbered _ _ Hr).
Qed.

(* ------------------------------------------------------------------ *)
(** ** The automaton remembers *)

Lemma last_snoc_terminal p r : last (p ++ [r]) ≫= terminal_of = terminal_of r.
Proof. by rewrite last_snoc. Qed.

Lemma existsb_snoc {A} (f : A → bool) p r : existsb f (p ++ [r]) = existsb f p || f r.
Proof. rewrite existsb_app. cbn. by rewrite orb_false_r. Qed.

Lemma todo_ids_snoc id p r :
  (∃ x, x ∈ p ++ [r] ∧ todo_id x = Some id) ↔ (∃ x, x ∈ p ∧ todo_id x = Some id) ∨ todo_id r = Some id.
Proof. setoid_rewrite elem_of_app. setoid_rewrite list_elem_of_singleton. naive_solver. Qed.

Lemma remembers_item l i p st st' :
  remembers p st → moves l i st (vec_len (first_ids (p ++ [ItemRecord l i])))
    (item_run (item_events (item_id i) (p ++ [ItemRecord l i]))) st' →
  st_terminal st = None → remembers (p ++ [ItemRecord l i]) st'.
Proof.
  intros Hrm (s & Hs & Ht & Hf & Hnext) Hterm. split.
  - rewrite (fr_turn _ _ _ _ Hf), (rm_turn _ _ Hrm), elem_of_app, list_elem_of_singleton. naive_solver.
  - by rewrite last_snoc_terminal, (fr_terminal _ _ _ _ Hf).
  - done.
  - intros id status Hid. destruct (decide (id = item_id i)) as [->|Hne]; [congruence|].
    rewrite item_events_snoc, decide_False, app_nil_r in Hid by done.
    eapply tracks_frame; [done..|]. by apply (rm_items _ _ Hrm).
  - intros id. rewrite todo_ids_snoc, <-(rm_todo _ _ Hrm).
    destruct (fr_todo _ _ _ _ Hf) as [[-> ->]|(-> & Hsame & ->)]; [naive_solver|].
    split; [by right|intros [H|]; [|done]]. apply fmap_Some in H as (t & H & ->). by rewrite (Hsame t H).
  - by rewrite (fr_reconciling _ _ _ _ Hf), (rm_reconciling _ _ Hrm), existsb_snoc.
Qed.

Lemma remembers_plain p r st turn :
  remembers p st → todo_id r = None → completes_todo r = false →
  (∀ id, event_of id r = None) → (turn = true ↔ TurnStarted ∈ p ∨ r = TurnStarted) →
  remembers (p ++ [r]) (mkStream turn (terminal_of r) (st_next_item st) (st_seen_items st) (st_active st)
    (st_todo st) (st_reconciling_after_todo st)).
Proof.
  intros Hrm Htodo Hc He Ht.
  assert (∀ id, item_events id (p ++ [r]) = item_events id p) as Hev.
  { intros id. rewrite item_events_app. cbn. by rewrite He, app_nil_r. }
  split; cbn.
  - rewrite elem_of_app, list_elem_of_singleton. naive_solver.
  - by rewrite last_snoc_terminal.
  - rewrite (rm_next _ _ Hrm), first_ids_snoc. destruct r as [| | | | |l i]; try done.
    specialize (He (item_id i)). cbn in He. by case_decide.
  - intros id status. rewrite Hev. intros H%(rm_items _ _ Hrm). by destruct status.
  - intros id. rewrite todo_ids_snoc, Htodo, (rm_todo _ _ Hrm). naive_solver.
  - by rewrite existsb_snoc, (rm_reconciling _ _ Hrm), Hc, orb_false_r.
Qed.

Lemma remembers_same p r st :
  remembers p st → st_terminal st = None → terminal_of r = None → todo_id r = None → completes_todo r = false →
  (∀ id, event_of id r = None) → r ≠ TurnStarted → remembers (p ++ [r]) st.
Proof.
  intros Hrm Hnone Hr Htodo Hc He Hturn.
  replace st with (mkStream (st_turn_started st) (terminal_of r) (st_next_item st) (st_seen_items st) (st_active st)
    (st_todo st) (st_reconciling_after_todo st)) by (rewrite Hr; destruct st; cbn in *; by subst).
  apply remembers_plain; auto. rewrite (rm_turn _ _ Hrm). naive_solver.
Qed.

(** Nothing is active exactly when every life is closed. *)
Lemma nothing_active p st :
  remembers p st → (∀ id, is_Some (item_run (item_events id p))) →
  st_active st = ∅ ↔ ∀ id, item_run (item_events id p) = Some Fresh ∨ item_run (item_events id p) = Some Closed.
Proof.
  intros Hrm Hlives. split.
  - intros Hnone id. destruct (Hlives id) as [s Hs]. pose proof (rm_items _ _ Hrm _ _ Hs) as Ht. rewrite Hs.
    destruct s; auto; cbn in Ht; rewrite Hnone, lookup_empty in Ht; naive_solver.
  - intros Hclosed. apply map_empty. intros id.
    destruct (Hclosed id) as [H|H]; by destruct (rm_items _ _ Hrm _ _ H) as [_ ->].
Qed.

Lemma may_follow_plain p r :
  stream_prefix p → (∀ id, event_of id r = None) → todo_id r = None →
  (is_thread r = true ↔ p = []) → (r = TurnStarted → TurnStarted ∉ p) → (needs_turn r = true → TurnStarted ∈ p) →
  last p ≫= terminal_of = None → (existsb completes_todo p = true → is_reconciliation_or_terminal r = true) →
  (is_Some (terminal_of r) → ∀ id,
    item_run (item_events id p) = Some Fresh ∨ item_run (item_events id p) = Some Closed) →
  may_follow p r.
Proof.
  intros Hp He Htodo Hthread Honce Hin Hend Hrec Hclosed. split; try done.
  - intros s id id' _ _. by rewrite Htodo.
  - intros id. rewrite item_events_app. cbn. rewrite He, app_nil_r. apply (sp_lives _ Hp).
  - rewrite first_ids_snoc. replace (add_first (first_ids p) r) with (first_ids p); [apply (sp_numbered _ Hp)|].
    destruct r as [| | | | |l i]; try done. specialize (He (item_id i)). cbn in He. by case_decide.
Qed.

Lemma may_follow_item p l i st :
  stream_prefix p → remembers p st → p ≠ [] → (needs_turn (ItemRecord l i) = true → TurnStarted ∈ p) →
  last p ≫= terminal_of = None →
  (existsb completes_todo p = true → is_reconciliation_or_terminal (ItemRecord l i) = true) →
  (item_events (item_id i) p = [] → todo_id (ItemRecord l i) ≠ None → st_todo st = None) →
  (∀ t, todo_id (ItemRecord l i) ≠ None → st_todo st = Some t → tl_id t = item_id i) →
  is_Some (item_run (item_events (item_id i) (p ++ [ItemRecord l i]))) →
  numbered (first_ids (p ++ [ItemRecord l i])) → may_follow p (ItemRecord l i).
Proof.
  intros Hp Hrm Hne Hin Hend Hrec Hfree Hsame Hlife Hnum. split; try done.
  - intros s id id' Hs Hid Hid'.
    assert (tl_id <$> st_todo st = Some id) as Ht by (apply (rm_todo _ _ Hrm); by exists s).
    apply fmap_Some in Ht as (t & Ht & ->). rewrite (Hsame t); [|by rewrite Hid'|done].
    destruct i; cbn in Hid'; try done. by injection Hid'.
  - intros id. destruct (decide (id = item_id i)) as [->|Hid]; [done|].
    rewrite item_events_snoc, decide_False, app_nil_r by done. apply (sp_lives _ Hp).
  - by intros [? [=]].
Qed.

Lemma plain_or_item r : (∃ l i, r = ItemRecord l i) ∨ ((∀ id, event_of id r = None) ∧ todo_id r = None ∧ completes_todo r = false).
Proof. destruct r; eauto. Qed.

Lemma end_turn_moves p r st terminal index :
  stream_prefix p → remembers p st → p ≠ [] → last p ≫= terminal_of = None →
  terminal_of r = Some terminal →
  (∀ st', end_turn index terminal st = Ok st' → may_follow p r ∧ remembers (p ++ [r]) st') ∧
  (may_follow p r → is_ok (end_turn index terminal st) = true).
Proof.
  intros Hp Hrm Hne Hend Hr. unfold end_turn.
  assert (is_thread r = false ∧ needs_turn r = true ∧ is_reconciliation_or_terminal r = true ∧ r ≠ TurnStarted ∧
    (∀ id, event_of id r = None) ∧ todo_id r = None ∧ completes_todo r = false)
    as (Hth & Hneeds & Hrec & Hturn & He & Htodo & Hc) by (by destruct r).
  pose proof (nothing_active p st Hrm (sp_lives _ Hp)) as Hact. split.
  - intros st'. destruct (st_turn_started st) eqn:E; cbn; [|done]. case_bool_decide as Ha; cbn; [|done]. intros [= <-].
    apply (rm_turn _ _ Hrm) in E. split.
    + apply may_follow_plain; auto; [by rewrite Hth|]. intros _. by apply Hact.
    + unfold set_terminal. rewrite <-Hr. apply remembers_plain; auto. rewrite (rm_turn _ _ Hrm). naive_solver.
  - intros Hm. pose proof (mf_in_turn _ _ Hm Hneeds) as ->%(rm_turn _ _ Hrm). cbn.
    rewrite bool_decide_true; [done|]. apply Hact, (mf_all_closed _ _ Hm). by eexists.
Qed.

Lemma in_turn_guard p st l i :
  remembers p st →
  negb (st_turn_started st) && negb (match l, i with LcCompleted, ErrorItem _ _ => true | _, _ => false end) = false ↔
  (needs_turn (ItemRecord l i) = true → TurnStarted ∈ p).
Proof.
  intros Hrm. rewrite <-(rm_turn _ _ Hrm).
  destruct (st_turn_started st), l, i; cbn; intuition congruence.
Qed.

Lemma todo_has_events x p id : x ∈ p → todo_id x = Some id → item_events id p ≠ [].
Proof.
  intros Hx Hid Hn. destruct x as [| | | | |l [| | | | |id' items]]; try done. injection Hid as ->.
  assert ((l, TodoList id items) ∈ item_events id p) as Hin.
  { apply list_elem_of_omap. eexists. split; [exact Hx|]. cbn. by rewrite decide_True. }
  rewrite Hn in Hin. by apply elem_of_nil in Hin.
Qed.

Lemma todo_id_item l i : todo_id (ItemRecord l i) ≠ None → todo_id (ItemRecord l i) = Some (item_id i).
Proof. by destruct i. Qed.

(** A step accepts a record exactly when it may follow, and then remembers it. *)
Lemma stream_step_moves p r st :
  stream_prefix p → remembers p st → (vec_len p < 2 ^ 64 - 1)%Z → (p = [] → is_thread r = true) →
  (∀ st', stream_step st (length p, r) = Ok st' → may_follow p r ∧ remembers (p ++ [r]) st') ∧
  (may_follow p r → is_ok (stream_step st (length p, r)) = true).
Proof.
  intros Hp Hrm Hlen Hfirst. unfold stream_step.
  case_bool_decide as Hterm.
  { split; [done|]. intros Hm. rewrite (rm_terminal _ _ Hrm), (mf_end _ _ Hm) in Hterm. by destruct Hterm. }
  assert (last p ≫= terminal_of = None) as Hend.
  { rewrite <-(rm_terminal _ _ Hrm). by apply eq_None_not_Some. }
  assert (st_terminal st = None) as Hnone by (by rewrite (rm_terminal _ _ Hrm)).
  destruct (st_reconciling_after_todo st && negb (is_reconciliation_or_terminal r)) eqn:Hguard.
  { split; [done|]. intros Hm. rewrite (rm_reconciling _ _ Hrm) in Hguard. apply andb_true_iff in Hguard as [Hg Hn].
    by rewrite (mf_reconcile _ _ Hm Hg) in Hn. }
  assert (existsb completes_todo p = true → is_reconciliation_or_terminal r = true) as Hrec.
  { rewrite (rm_reconciling _ _ Hrm) in Hguard. intros Hg. rewrite Hg in Hguard. by destruct (is_reconciliation_or_terminal r). }
  assert (length p = 0 ↔ p = []) as Hlenp by apply length_zero_iff_nil.
  destruct (plain_or_item r) as [(l & i & ->)|(He & Htodo & Hc)].
  - assert (p ≠ []) as Hne by (intros ->; by discriminate Hfirst).
    destruct (negb (st_turn_started st) && _) eqn:Hturn.
    { split; [done|]. intros Hm. rewrite (proj2 (in_turn_guard p st l i Hrm) (mf_in_turn _ _ Hm)) in Hturn. done. }
    pose proof (proj1 (in_turn_guard p st l i Hrm) Hturn) as Hin.
    destruct (validate_item_moves (length p) l i p st) as [Hl Hr]; [done|apply (sp_numbered _ Hp)|apply (sp_lives _ Hp)| |].
    { pose proof (length_first_ids p). unfold vec_len in *. lia. }
    split.
    + intros st' (Hnum & Hfree & Hmove)%Hl. split; [|by eapply remembers_item].
      destruct Hmove as (s & Hs & Ht & Hf & Hnext). eapply may_follow_item; try done.
      intros t Hid Ht0. destruct (fr_todo _ _ _ _ Hf) as [[Hn _]|(_ & Hsame & _)]; [by destruct Hid|auto].
    + intros Hm. apply Hr; [apply (mf_numbered _ _ Hm)| |apply (mf_lives _ _ Hm)].
      intros Hnil Hid. destruct (st_todo st) as [t|] eqn:Ht; [|done].
      assert (∃ x, x ∈ p ∧ todo_id x = Some (tl_id t)) as (x & Hx & Hxid) by (apply (rm_todo _ _ Hrm); by rewrite Ht).
      rewrite (mf_one_todo _ _ Hm x _ _ Hx Hxid (todo_id_item _ _ Hid)) in Hxid.
      by destruct (todo_has_events x p (item_id i)).
  - destruct r as [id| |u|m|m|l i]; [..|by specialize (He (item_id i)); cbn in He; case_decide].
    + destruct (Nat.eqb_spec (length p) 0) as [H0|H0]; [|split; [done|intros Hm; by pose proof (proj1 (mf_thread _ _ Hm) eq_refl) as ->]].
      split; [|done]. intros st' [= <-]. split; [|by apply remembers_same].
      apply may_follow_plain; auto; try done; [tauto|by intros [? [=]]].
    + destruct (st_turn_started st) eqn:Hturn, (Nat.ltb_spec 0 (length p)); cbn [negb andb].
      1, 2: split; [done|]; intros Hm; apply (rm_turn _ _ Hrm) in Hturn; by destruct (mf_turn_once _ _ Hm).
      2: split; [done|]; intros Hm; assert (p = []) as Hnil by (apply Hlenp; lia); by apply (mf_thread _ _ Hm) in Hnil.
      split; [|done]. intros st' [= <-]. split.
      * apply may_follow_plain; auto; [|by rewrite <-(rm_turn _ _ Hrm), Hturn|done|by intros [? [=]]].
        split; [done|]. intros ->. simpl in *. lia.
      * unfold set_turn_started. rewrite Hnone. apply (remembers_plain p TurnStarted); auto. naive_solver.
    + apply end_turn_moves; auto. intros ->. by discriminate Hfirst.
    + apply end_turn_moves; auto. intros ->. by discriminate Hfirst.
    + split; [|done]. intros st' [= <-]. split; [|by apply remembers_same].
      apply may_follow_plain; auto; try done; by intros [? [=]].
Qed.

(* ------------------------------------------------------------------ *)
(** ** Whole streams *)

Lemma stream_fold p :
  (vec_len p < 2 ^ 64 - 1)%Z → (∀ r, head p = Some r → is_thread r = true) →
  (∀ st, try_fold stream_step initial_stream (enumerate p) = Ok st → stream_prefix p ∧ remembers p st) ∧
  (stream_prefix p → is_ok (try_fold stream_step initial_stream (enumerate p)) = true).
Proof.
  induction p as [|r p IH] using rev_ind; intros Hlen Hfirst.
  { split; [|done]. intros st [= <-]. split; [apply stream_prefix_nil|apply remembers_nil]. }
  assert (vec_len p < 2 ^ 64 - 1)%Z as Hlen'.
  { unfold vec_len in *. rewrite length_app in Hlen. simpl in Hlen. lia. }
  destruct IH as [IHl IHr]; [done|intros x Hx; apply Hfirst; by destruct p|].
  assert (p = [] → is_thread r = true) as Hr by (intros ->; by apply Hfirst).
  rewrite enumerate_snoc, try_fold_app.
  destruct (try_fold stream_step initial_stream (enumerate p)) as [st|e] eqn:Hfold; cbn [mbind Result_bind try_fold].
  - destruct (IHl st eq_refl) as [Hp Hrm]. destruct (stream_step_moves p r st Hp Hrm Hlen' Hr) as [Hl Hok].
    destruct (stream_step st (length p, r)) as [st'|e] eqn:Hstep; cbn [mbind Result_bind].
    + split; [|done]. intros st'' [= <-]. destruct (Hl st' eq_refl) as [Hm Hrm'].
      split; [by apply stream_prefix_snoc|done].
    + split; [done|]. intros Hpr%stream_prefix_last. by apply Hok in Hpr.
  - split; [done|]. intros Hpr%stream_prefix_init. by apply IHr in Hpr.
Qed.

Lemma valid_starts records terminal : stream_valid records terminal → starts_thread records = true.
Proof.
  intros [Hp (r & Hr & _)]. destruct records as [|x records]; [done|].
  pose proof (proj2 (sp_thread _ Hp 0 x eq_refl) eq_refl) as Hx. by destruct x.
Qed.

Lemma validate_stream_Ok records termination terminal :
  (vec_len records < 2 ^ 64 - 1)%Z →
  validate_stream records termination = Ok terminal ↔
  stream_valid records terminal ∧ validate_termination terminal termination = Ok ().
Proof.
  intros Hlen. unfold validate_stream.
  destruct (starts_thread records) eqn:Hstart; cbn [negb].
  2: { split; [done|]. intros [Hv%valid_starts _]. congruence. }
  destruct (stream_fold records Hlen) as [Hl Hr].
  { destruct records as [|[] ?]; by intros ? [= <-]. }
  destruct (try_fold _ _ _) as [st|e] eqn:Hfold; cbn [mbind Result_bind].
  - destruct (Hl st eq_refl) as [Hp Hrm]. rewrite (rm_terminal _ _ Hrm).
    unfold stream_valid. destruct (last records) as [r|] eqn:Hlast; cbn.
    2: { split; [done|]. by intros [[_ (? & [=] & _)] _]. }
    destruct (terminal_of r) as [t|] eqn:Ht; cbn; [|by split; [|intros [[_ (? & [= <-] & ?)] _]; congruence]].
    destruct (validate_termination t termination) as [[]|e] eqn:Hv; cbn [mbind Result_bind]; split; try done.
    + intros [= <-]. eauto.
    + intros [[_ (? & [= <-] & ?)] _]. congruence.
    + intros [[_ (? & [= <-] & ?)] Hv']. congruence.
  - split; [done|]. intros [[Hp _] _]. by apply Hr in Hp.
Qed.

(** C11: [validate_stream] accepts exactly the valid streams.  For any sequence
    of parsed records (shorter than the item counter), it returns the terminal
    [terminal] if and only if: only the first record starts the thread; the
    turn starts once, and everything but stream errors and completed item
    errors comes after it; only the last record ends the turn, as [terminal],
    with no item open; the items are numbered from zero in the order they
    first appear; each item alone has a legal life (a message is completed at
    once, a command or file change is started and completed as the same work,
    a todo list is started, updated and completed with its latest items);
    there is one todo list, after which come only completions; and the
    process ended as [terminal] allows. *)
Theorem codex_stream_exact records termination terminal
    (Hlen : (vec_len records < 2 ^ 64 - 1)%Z) :
  validate_stream records termination = Ok terminal ↔
  stream_valid records terminal ∧ validate_termination terminal termination = Ok ().
Proof. by apply validate_stream_Ok. Qed.

(** A run with a message, a command and a todo list, in the places they may be. *)
Definition sample_stream : list ParsedRecordV0 :=
  [ThreadStarted "t"; ErrorRecord "retry"; TurnStarted;
   ItemRecord LcCompleted (Reasoning "item_0" "plan");
   ItemRecord LcStarted (TodoList "item_1" []);
   ItemRecord LcStarted (Command "item_2" "ls" "" None CsInProgress);
   ItemRecord LcUpdated (TodoList "item_1" [mkTodo "list" true]);
   ItemRecord LcCompleted (TodoList "item_1" [mkTodo "list" true]);
   ItemRecord LcCompleted (Command "item_2" "ls" "out" (Some 0%Z) CsCompleted);
   TurnFailed "stopped"].

Lemma codex_stream_exact_witness :
  (vec_len sample_stream < 2 ^ 64 - 1)%Z ∧ validate_stream sample_stream (Some (Exited 1)) = Ok TFailed ∧
  stream_valid sample_stream TFailed ∧ validate_termination TFailed (Some (Exited 1)) = Ok ().
Proof.
  split; [done|split]; [vm_compute; reflexivity|].
  apply (codex_stream_exact sample_stream (Some (Exited 1)) TFailed); [done|vm_compute; reflexivity].
Defined.
