(* ===== verification/CodexMapping.v ===== *)
(** * The artifacts a Codex adaptation is bound to (src/trajectory/codex_exec_v0/{source_bindings,mod}.rs)

    The adapter, the sanitizer, the publication command, the fixture and the
    capture producer are identified by a digest over the paths and the bytes of
    their registered source files; the files are compiled in with
    [include_bytes!] and are the parameter [CompiledSources].  The sanitizer
    policy and the capture profile are texts of the program. *)

From S2P Require Import Prelude Encoding Trajectory F64 Errors JsonScan WireJson TraceValidation CodexEvent CodexFraming.
From Stdlib Require Import Ascii.
From stdpp Require Import pretty options.

(** The registries of source files: paths and bytes. *)
Class CompiledSources := {
  ADAPTER_CORE_SOURCES_V0 : list (string * string);
  SANITIZER_ONLY_SOURCES_V0 : list (string * string);
  CLI_SELECTED_BUILD_CONTRACT_V0 : list (string * string);
  FIXTURE_SPEC_SOURCES_V0 : list (string * string);
  CAPTURE_PRODUCER_SOURCES_V0 : list (string * string);
}.

Record CodexExecSourceBindingContractV0 := mkContract {
  bc_identity : string;
  bc_framing_domain : string;
  bc_registered_scopes : list string;
}.

Definition CODEX_EXEC_ADAPTER_BINDING_CONTRACT_V0 : CodexExecSourceBindingContractV0 :=
  mkContract "legitimacy.codex-exec-v0.adapter" "legitimacy.codex-exec-v0.adapter-source-manifest.v0"
    ["adapter-core"].
Definition CODEX_EXEC_SANITIZER_BINDING_CONTRACT_V0 : CodexExecSourceBindingContractV0 :=
  mkContract "legitimacy.codex-exec-v0.sanitizer"
    "legitimacy.codex-exec-v0.sanitizer-registered-source-manifest.v0" ["adapter-core"; "sanitizer"].
Definition CODEX_EXEC_CLI_PUBLICATION_BINDING_CONTRACT_V0 : CodexExecSourceBindingContractV0 :=
  mkContract "legitimacy.codex-exec-v0.cli-publication"
    "legitimacy.codex-exec-v0.cli-publication-registered-source-manifest.v0"
    ["selected-cargo-build"; "normative-contract"].
Definition CODEX_EXEC_FIXTURE_SPEC_BINDING_CONTRACT_V0 : CodexExecSourceBindingContractV0 :=
  mkContract "legitimacy.codex-exec-v0.fixture-spec" "legitimacy.codex-exec-v0.fixture-source-manifest.v0"
    ["fixture-spec"].
Definition CODEX_EXEC_CAPTURE_PRODUCER_BINDING_CONTRACT_V0 : CodexExecSourceBindingContractV0 :=
  mkContract "legitimacy.codex-exec-v0.capture-producer"
    "legitimacy.codex-exec-v0.capture-producer-source-manifest.v0" ["capture-producer"].

(** The newlines of a text that the source writes as [\n]. *)
Definition text_lines (l : list string) : string := put_all (λ line, line +:+ String (ascii_of_nat 10) "") l.

Definition SANITIZER_POLICY_V0 : string :=
  text_lines ["legitimacy.codex-exec-v0.sanitizer-policy";
         "retain=event-structure,item-ids,statuses,integers,booleans";
         "replace=thread,prose,command,output,path,todo-text"].
Definition CAPTURE_PROFILE_ARTIFACT_V0 : string :=
  text_lines ["legitimacy.codex-exec-v0.capture-profile"; "platform=unix"; "mode=fresh-structured-stdin-json";
         "sandbox=read-only"; "executable=fexecve-held-fd"; "artifacts=held-fd-no-symlink";
         "workspace=held-read-only"].

Section bindings.
Context `{Sha256, CompiledSources}.

Definition binding_from_registries (contract : CodexExecSourceBindingContractV0)
    (registries : list (list (string * string))) : ArtifactBindingV0 :=
  mkBinding (bc_identity contract) "0"
    (framed_sha256 (bc_framing_domain contract)
       (concat ((λ source, [source.1; source.2]) <$> concat registries))).

Definition codex_exec_adapter_binding_v0 : ArtifactBindingV0 :=
  binding_from_registries CODEX_EXEC_ADAPTER_BINDING_CONTRACT_V0 [ADAPTER_CORE_SOURCES_V0].
Definition codex_exec_sanitizer_binding_v0 : ArtifactBindingV0 :=
  binding_from_registries CODEX_EXEC_SANITIZER_BINDING_CONTRACT_V0
    [ADAPTER_CORE_SOURCES_V0; SANITIZER_ONLY_SOURCES_V0].
Definition codex_exec_cli_publication_binding_v0 : ArtifactBindingV0 :=
  binding_from_registries CODEX_EXEC_CLI_PUBLICATION_BINDING_CONTRACT_V0 [CLI_SELECTED_BUILD_CONTRACT_V0].
Definition codex_exec_fixture_spec_binding_v0 : ArtifactBindingV0 :=
  binding_from_registries CODEX_EXEC_FIXTURE_SPEC_BINDING_CONTRACT_V0 [FIXTURE_SPEC_SOURCES_V0].
Definition codex_exec_capture_producer_binding_v0 : ArtifactBindingV0 :=
  binding_from_registries CODEX_EXEC_CAPTURE_PRODUCER_BINDING_CONTRACT_V0
    [ADAPTER_CORE_SOURCES_V0; CAPTURE_PRODUCER_SOURCES_V0].

Definition codex_exec_sanitizer_policy_binding_v0 : ArtifactBindingV0 :=
  mkBinding "legitimacy.codex-exec-v0.sanitizer-policy" "0" (artifact_digest_v0 SANITIZER_POLICY_V0).
Definition codex_exec_capture_profile_binding_v0 : ArtifactBindingV0 :=
  mkBinding "legitimacy.codex-exec-v0.capture-profile" "0" (artifact_digest_v0 CAPTURE_PROFILE_ARTIFACT_V0).
End bindings.

(* ------------------------------------------------------------------ *)
(** * From the records of a run to a trace (src/trajectory/codex_exec_v0/mapping.rs)

    Every record becomes one event; every normalized field is a declared
    derivation from the whole bytes of its record.  The authority and the context
    that [map_records] is given are the seal and the policy it takes from them. *)

Definition RUN_ID_DOMAIN_V0 : string := "legitimacy.codex-exec-v0.run-id.v0".
Definition EVENT_ID_DOMAIN_V0 : string := "legitimacy.codex-exec-v0.event-id.v0".
Definition RUN_RULE_BYTES : string :=
  "run-id := hash(thread-started-whole-record-digest, decoded-canonical-thread-id)".
Definition EVENT_RULE_BYTES : string :=
  "event-id := hash(normalized-run-id, source-position, whole-raw-record-digest)".
Definition POSITION_RULE_BYTES : string := "sequence-index := zero-based-source-record-position".
Definition FIELD_RULE_BYTES : string :=
  "field-projection := closed-v0-table(decoded-source-fields, whole-raw-record)".

(* ------------------------------------------------------------------ *)
(** ** Labels *)

Definition source_event (record : ParsedRecordV0) : string :=
  match record with
  | ThreadStarted _ => "thread.started"
  | TurnStarted => "turn.started"
  | TurnCompleted _ => "turn.completed"
  | TurnFailed _ => "turn.failed"
  | ErrorRecord _ => "error"
  | ItemRecord LcStarted _ => "item.started"
  | ItemRecord LcUpdated _ => "item.updated"
  | ItemRecord LcCompleted _ => "item.completed"
  end.

Definition item_type (item : ItemV0) : string :=
  match item with
  | AgentMessage _ _ => "agent-message"
  | Reasoning _ _ => "reasoning-summary"
  | ErrorItem _ _ => "item-error-projection"
  | Command _ _ _ _ _ => "command-execution"
  | FileChange _ _ _ => "file-change"
  | TodoList _ _ => "todo-list"
  end.

Definition lifecycle_label (value : LifecycleV0) : string :=
  match value with LcStarted => "started" | LcUpdated => "updated" | LcCompleted => "completed" end.

Definition command_status (value : CommandStatusV0) : string :=
  match value with
  | CsInProgress => "in-progress" | CsCompleted => "completed" | CsFailed => "failed" | CsDeclined => "declined"
  end.

Definition file_status (value : FileStatusV0) : string :=
  match value with
  | FsInProgress => "in-progress" | FsCompleted => "completed" | FsFailed => "failed-or-declined-projection"
  end.

Definition change_kind_label (value : ChangeKindV0) : string :=
  match value with CkAdd => "add" | CkDelete => "delete" | CkUpdate => "update" end.

Definition mapping_record (index : nat) (path : string) : AdapterErrorV0 := record_error AdMapping index path.

Definition normalized_kind (record : ParsedRecordV0) (index : nat) : AdapterResultV0 NormalizedEventKindV0 :=
  match record with
  | ThreadStarted _ | TurnStarted | TurnCompleted _ | TurnFailed _ | ItemRecord _ (TodoList _ _) => Ok Lifecycle
  | ErrorRecord _ => Ok Observation
  | ItemRecord LcCompleted (ErrorItem _ _) => Ok Observation
  | ItemRecord LcCompleted (AgentMessage _ _ | Reasoning _ _) => Ok MessageEvent
  | ItemRecord LcStarted (Command _ _ _ _ _ | FileChange _ _ _) => Ok ActionRequest
  | ItemRecord LcCompleted (Command _ _ _ _ _ | FileChange _ _ _) => Ok ActionResult
  | ItemRecord _ _ => Err (mapping_record index "$.item")
  end.

(* ------------------------------------------------------------------ *)
(** ** Derived fields *)

Definition derived_from {T} (value : T) (rule : ArtifactBindingV0) (source_inputs : list SourceLocatorV0)
    : EvidencedV0 T :=
  mkEvidenced (Some value) (DeclaredDerivationBinding rule source_inputs).

Definition derived {T} (value : T) (rule : ArtifactBindingV0) (source : SourceLocatorV0) : EvidencedV0 T :=
  derived_from value rule [source].

Abbreviation Payload := (gmap string (EvidencedV0 NormalizedValueV0)).

Definition add_value (payload : Payload) (key : string) (value : NormalizedValueV0) (rule : ArtifactBindingV0)
    (source : SourceLocatorV0) : Payload :=
  <[key := derived value rule source]> payload.
Definition add_string (payload : Payload) (key value : string) (rule : ArtifactBindingV0)
    (source : SourceLocatorV0) : Payload :=
  add_value payload key (VString value) rule source.
Definition add_integer (payload : Payload) (key : string) (value : Z) (rule : ArtifactBindingV0)
    (source : SourceLocatorV0) : Payload :=
  add_value payload key (VInteger (pretty value)) rule source.

Definition add_usage_payload (payload : Payload) (usage : UsageV0) (rule : ArtifactBindingV0)
    (source : SourceLocatorV0) : Payload :=
  let payload := add_integer payload "input-tokens" (us_input_tokens usage) rule source in
  let payload := add_integer payload "cached-input-tokens" (us_cached_input_tokens usage) rule source in
  let payload := add_integer payload "output-tokens" (us_output_tokens usage) rule source in
  let payload := add_integer payload "reasoning-output-tokens" (us_reasoning_output_tokens usage) rule source in
  add_string payload "usage-projection" "emitter-total-or-zero-default" rule source.

Definition add_item_payload (payload : Payload) (item : ItemV0) (rule : ArtifactBindingV0)
    (source : SourceLocatorV0) : Payload :=
  match item with
  | Command _ _ _ exit_code status =>
      let payload := add_string payload "source-status" (command_status status) rule source in
      add_value payload "exit-code"
        (match exit_code with Some value => VInteger (pretty value) | None => VNull end) rule source
  | FileChange _ changes status =>
      let payload := add_string payload "source-status" (file_status status) rule source in
      let payload := add_value payload "change-count" (VInteger (show_nat (length changes))) rule source in
      add_value payload "change-kinds"
        (VArray ((λ change, VString (change_kind_label (ch_kind change))) <$> changes)) rule source
  | TodoList _ items =>
      add_value payload "todo-completed" (VArray ((λ item, VBoolean (td_completed item)) <$> items)) rule source
  | AgentMessage _ _ | Reasoning _ _ | ErrorItem _ _ => payload
  end.

(** The payload of an event, in the order the fields are inserted. *)
Definition record_payload (record : ParsedRecordV0) (rule : ArtifactBindingV0) (source : SourceLocatorV0)
    : Payload :=
  let payload := add_string ∅ "source-event" (source_event record) rule source in
  match record with
  | ThreadStarted thread_id => add_string payload "observed-thread-id" thread_id rule source
  | TurnCompleted usage => add_usage_payload payload usage rule source
  | ItemRecord lifecycle item =>
      let payload := add_string payload "source-item-type" (item_type item) rule source in
      let payload := add_string payload "source-lifecycle" (lifecycle_label lifecycle) rule source in
      add_item_payload payload item rule source
  | TurnStarted | TurnFailed _ | ErrorRecord _ => payload
  end.

Record MappedV0 := mkMapped {
  mp_trace : TrajectoryTraceV0;
  mp_validation_declarations : TrajectoryValidationContextV0;
}.

Section mapping.
Context `{Sha256, CompiledSources} (TRAJECTORY_SCHEMA_BYTES_V0 : string).

(* ------------------------------------------------------------------ *)
(** ** Events *)

Definition locator (index : nat) (raw : string) : SourceLocatorV0 :=
  mkLocator (u64_lit (Z.of_nat index)) (u64_lit 0) (u64_lit (byte_len raw)) (source_locator_digest_v0 raw).

Definition rule (identity bytes : string) : ArtifactBindingV0 :=
  mkBinding identity "0" (artifact_digest_v0 bytes).

Definition run_rule : ArtifactBindingV0 := rule "derivation.codex-exec-v0.run-id" RUN_RULE_BYTES.
Definition event_rule : ArtifactBindingV0 := rule "derivation.codex-exec-v0.event-id" EVENT_RULE_BYTES.
Definition position_rule : ArtifactBindingV0 :=
  rule "derivation.codex-exec-v0.source-position" POSITION_RULE_BYTES.
Definition field_rule : ArtifactBindingV0 := rule "derivation.codex-exec-v0.field-projection" FIELD_RULE_BYTES.

(** [&hash["sha256:".len()..]] *)
Definition hash_digits (hash : string) : string := drop_bytes (String.length "sha256:") hash.

Definition run_id_of (record_zero thread_id : string) : string :=
  "run-" +:+ hash_digits (framed_sha256 RUN_ID_DOMAIN_V0 [raw_record_digest_v0 record_zero; thread_id]).

Definition event_id_of (run_id : string) (index : nat) (raw_digest : string) : string :=
  "event-" +:+ hash_digits (framed_sha256 EVENT_ID_DOMAIN_V0
                              [run_id; u64_be_bytes (Z.of_nat index); raw_digest]).

Definition map_event (index : nat) (record : ParsedRecordV0) (raw record_zero run_id : string)
    : AdapterResultV0 AgentActionEventV0 :=
  let source := locator index raw in
  let record_zero_source := locator 0 record_zero in
  let raw_digest := raw_record_digest_v0 raw in
  let event_id := event_id_of run_id index raw_digest in
  let payload := record_payload record field_rule source in
  let source_item_id :=
    match record with
    | ItemRecord _ item => Some (derived (item_id item) field_rule source)
    | _ => None
    end in
  kind ← normalized_kind record index;
  Ok (mkEvent
        (derived_from event_id event_rule
           (if index =? 0 then [record_zero_source] else [record_zero_source; source]))
        (derived (u64_lit (Z.of_nat index)) position_rule source)
        (derived kind field_rule source)
        source_item_id
        (mkRawRef (u64_lit (Z.of_nat index)) raw_digest)
        payload).

Definition map_records_with_bindings (records : list ParsedRecordV0) (raw_records : list string)
    (raw_capture : RawCaptureSealV0) (downstream_policy : ArtifactBindingV0) : AdapterResultV0 MappedV0 :=
  if negb (length records =? length raw_records)
  then Err (mapping_record (Nat.min (length records) (length raw_records)) "$")
  else
    '(thread_id, record_zero) ←
      match head records, head raw_records with
      | Some (ThreadStarted thread_id), Some raw => Ok (thread_id, raw)
      | Some _, Some _ => Err (mapping_record 0 "$.type")
      | _, _ => Err (adapter_error AdMapping)
      end;
    let run_id := run_id_of record_zero thread_id in
    events ← try_map (λ indexed, map_event indexed.1 indexed.2.1 indexed.2.2 record_zero run_id)
               (enumerate (zip records raw_records));
    Ok (mkMapped
          (mkTrace (trajectory_schema_binding_v0 TRAJECTORY_SCHEMA_BYTES_V0)
             (derived run_id run_rule (locator 0 record_zero))
             codex_exec_adapter_binding_v0 downstream_policy raw_capture events)
          (mkDeclarations codex_exec_adapter_binding_v0 downstream_policy raw_capture
             (list_to_set [run_rule; event_rule; position_rule; field_rule]))).
End mapping.
