(* ===== verification/CodexMappingSpec.v ===== *)
(** * Traces of Codex runs are valid

    What the parser guarantees of a record and the automaton of a stream is
    enough for the mapping to produce events that the trajectory contract
    accepts; only the totals of the budget and the size of the export are left
    to be checked. *)

From S2P Require Import Prelude Encoding Trajectory F64 Errors JsonScan JsonScanSpec WireJson TraceValidation TraceValidationSpec TraceBudgetSpec TraceSpec ReplaySpec CodexEvent CodexMapping CodexFraming CodexStream CodexStreamSpec.
From Stdlib Require Import Ascii.
From stdpp Require Import pretty options.

(* ------------------------------------------------------------------ *)
(** ** What the parser guarantees of a record *)

Definition record_ok (r : ParsedRecordV0) : Prop :=
  match r with
  | ThreadStarted thread_id => byte_len thread_id = 36%Z
  | TurnCompleted usage =>
      Forall (λ n, 0 ≤ n < 2 ^ 63)%Z
        [us_input_tokens usage; us_cached_input_tokens usage; us_output_tokens usage; us_reasoning_output_tokens usage]
  | ItemRecord _ (Command _ _ _ exit_code _) => ∀ n, exit_code = Some n → (- 2 ^ 31 ≤ n < 2 ^ 31)%Z
  | ItemRecord _ (FileChange _ changes _) => length changes ≤ MAX_CHANGES_OR_TODOS_V0
  | ItemRecord _ (TodoList _ items) => length items ≤ MAX_CHANGES_OR_TODOS_V0
  | _ => True
  end.

Lemma decode_signed_Some bits n z :
  decode_signed bits n = Some z → (- 2 ^ (bits - 1) ≤ z < 2 ^ (bits - 1))%Z.
Proof. destruct n; cbn; try done. case_match eqn:E; [|done]. intros [= <-]. lia. Qed.

Lemma decode_value_Ok {A} (decode : JsonNode → option A) n index path a :
  decode_value decode n index path = Ok a ↔ decode n = Some a.
Proof. unfold decode_value. by destruct (decode n); simpl; split; intros [=]; subst. Qed.

Lemma command_item_wire_exit n id c o e s :
  command_item_wire n = Some (id, c, o, e, s) → ∀ z, e = Some z → (- 2 ^ 31 ≤ z < 2 ^ 31)%Z.
Proof.
  unfold command_item_wire. intros H z ->. apply bind_Some in H as (values & _ & H).
  destruct values as [|? [|? [|? [|? [|exit [|? [|? ?]]]]]]]; try done.
  repeat (apply bind_Some in H as (? & ?Hd & H)). injection H as <- <- <- -> <-.
  unfold required_option in Hd3. destruct exit; try done; apply bind_Some in Hd3 as (z' & Hz & [= ->]);
    by apply decode_signed_Some in Hz.
Qed.

Lemma parse_item_ok n index l i : parse_item n index = Ok i → record_ok (ItemRecord l i).
Proof.
  unfold parse_item. intros H. apply bind_Ok in H as (type & _ & H).
  repeat case_match; repeat (apply bind_Ok in H as (? & ?Hd & H)); repeat case_match; simplify_eq/=; try done.
  all: repeat (apply bind_Ok in H as (? & ?He & H)); simplify_eq/=.
  - apply decode_value_Ok in Hd. by eapply command_item_wire_exit.
  - apply try_map_length in He as ->.
    match goal with H : _ || _ = false |- _ => by apply orb_false_iff in H as [?%Nat.ltb_ge _] end.
  - by apply Nat.ltb_ge.
Qed.

Lemma usage_wire_range n u :
  usage_wire n = Some u → Forall (λ n, n < 2 ^ 63)%Z
    [us_input_tokens u; us_cached_input_tokens u; us_output_tokens u; us_reasoning_output_tokens u].
Proof.
  unfold usage_wire. intros H. apply bind_Some in H as (values & _ & H).
  destruct values as [|? [|? [|? [|? [|? ?]]]]]; try done.
  repeat (apply bind_Some in H as (? & ?Hd%decode_signed_Some & H)). injection H as <-.
  repeat (apply Forall_cons_2; [cbn; lia|]). by apply Forall_nil_2.
Qed.

Lemma parse_value_ok n index r : parse_value n index = Ok r → record_ok r.
Proof.
  unfold parse_value. intros H. apply bind_Ok in H as (type & _ & H). apply bind_Ok in H as (parsed & Hp & H).
  apply bind_Ok in H as ([] & _ & [= <-]).
  repeat case_match; try (by injection Hp as <-); try done.
  all: apply bind_Ok in Hp as (wire & Hwire & Hp). all: try (by injection Hp as <-).
  - destruct (is_canonical_uuid_v7 wire) eqn:Hu; [|done]. injection Hp as <-.
    apply andb_true_iff in Hu as [?%Z.eqb_eq _]. done.
  - destruct (usage_nonnegative wire) eqn:Hu; [|done]. injection Hp as <-. apply decode_value_Ok in Hwire.
    unfold turn_completed_wire in Hwire. apply bind_Some in Hwire as (values & _ & Hwire).
    destruct values as [|? [|? [|? ?]]]; try done. apply bind_Some in Hwire as (? & _ & Hwire%usage_wire_range).
    unfold usage_nonnegative in Hu. rewrite !andb_true_iff, !Z.leb_le in Hu.
    rewrite !Forall_cons in Hwire. destruct Hwire as (? & ? & ? & ? & _). cbn [record_ok].
    repeat (apply Forall_cons_2; [lia|]). by apply Forall_nil_2.
  - apply bind_Ok in Hp as (i & Hi & [= <-]). by eapply parse_item_ok.
  - apply bind_Ok in Hp as (i & Hi & [= <-]). by eapply parse_item_ok.
  - apply bind_Ok in Hp as (i & Hi & [= <-]). by eapply parse_item_ok.
Qed.

Lemma parse_records_ok `{JsonStream} raw_records records :
  parse_records raw_records = Ok records → Forall record_ok records ∧ length records = length raw_records.
Proof.
  unfold parse_records. intros Hp. split; [|rewrite (try_map_length _ _ _ Hp); apply length_enumerate].
  apply try_map_Ok_Forall2 in Hp. induction Hp as [|x r l k Hx _ IH]; [constructor|]. constructor; [|done].
  unfold parse_record in Hx. apply bind_Ok in Hx as (value & _ & Hx). by eapply parse_value_ok.
Qed.

(* ------------------------------------------------------------------ *)
(** ** Integers as text *)

Lemma pretty_N_char_digit x : is_ascii_digit (pretty_N_char x) = true.
Proof. unfold pretty_N_char. by repeat case_match. Qed.

Lemma pretty_N_char_zero x : (x < 10)%N → pretty_N_char x = "0"%char → x = 0%N.
Proof.
  intros Hx. assert (∃ n, x = N.of_nat n ∧ n < 10) as (n & -> & Hn) by (exists (N.to_nat x); lia).
  do 10 (destruct n as [|n]; [done|]). lia.
Qed.

Definition leading_zero (s : string) : bool := starts_with s "0".

Lemma leading_zero_cons c s : leading_zero (String c s) = bool_decide (c = "0"%char).
Proof. by destruct s, c as [[] [] [] [] [] [] [] []]. Qed.

Lemma pretty_N_go_digits x s :
  bytes_all is_ascii_digit s = true → bytes_all is_ascii_digit (pretty_N_go x s) = true ∧
  ((0 < x)%N → pretty_N_go x s ≠ "" ∧ leading_zero (pretty_N_go x s) = false).
Proof.
  revert s. induction (N.lt_wf_0 x) as [x _ IH]; intros s Hs.
  destruct (decide (x = 0%N)) as [->|Hx]; [rewrite pretty_N_go_0; split; [done|lia]|].
  rewrite pretty_N_go_step by lia.
  assert (bytes_all is_ascii_digit (String (pretty_N_char (x `mod` 10)) s) = true) as Hs'.
  { cbn. by rewrite pretty_N_char_digit. }
  destruct (IH (x `div` 10)%N ltac:(apply N.div_lt; lia) _ Hs') as [Hd Hz]. split; [done|]. intros _.
  destruct (decide (x `div` 10 = 0)%N) as [Hq|Hq]; [|apply Hz; by apply N.neq_0_lt_0].
  rewrite Hq, pretty_N_go_0. split; [done|].
  assert (x < 10)%N as Hlt by (by apply N.div_small_iff in Hq). rewrite N.mod_small by done.
  rewrite leading_zero_cons. apply bool_decide_eq_false. intros Hc. by apply pretty_N_char_zero in Hc.
Qed.

Lemma pretty_N_short (n : N) : (n < 10 ^ 20)%N → String.length (pretty n) ≤ 20.
Proof.
  intros Hn. unfold pretty, pretty_N. case_decide; [simpl; lia|].
  pose proof (pretty_length_go 20 n "") as Hp. rewrite Nat.add_0_r in Hp. by apply Hp.
Qed.

(** An integer is written in canonical form. *)
Lemma pretty_N_canonical (n : N) :
  bytes_all is_ascii_digit (pretty n) = true ∧ (pretty n : string) ≠ "" ∧
  (leading_zero (pretty n) = true → (pretty n : string) = "0").
Proof.
  unfold pretty, pretty_N. case_decide as Hn; [by split_and!|].
  destruct (pretty_N_go_digits n "" eq_refl) as [Hd Hz]. destruct Hz as [He Hz]; [lia|]. split_and!; [done..|congruence].
Qed.

Lemma integer_digits_pretty (z : Z) : integer_digits (pretty z) = pretty (Z.to_N (Z.abs z)).
Proof.
  assert (∀ n : N, integer_digits (pretty n) = pretty n) as Hn.
  { intros n. unfold integer_digits. destruct (pretty_N_canonical n) as (Hd & He & _).
    destruct (pretty n) as [|c s] eqn:E; [done|]. cbn. case_decide as Hc; [|done].
    subst c. cbn in Hd. done. }
  destruct z as [|p|p]; [done|apply Hn|done].
Qed.

Lemma integer_text_ok (z : Z) : (- 2 ^ 63 ≤ z < 2 ^ 63)%Z → value_ok (VInteger (pretty z)) = true.
Proof.
  intros Hz. cbn [value_ok]. unfold canonical_integer. rewrite integer_digits_pretty.
  set (n := Z.to_N (Z.abs z)). destruct (pretty_N_canonical n) as (Hd & He & Hl).
  assert (String.length (pretty n) ≤ 20) as Hlen by (apply pretty_N_short; lia).
  rewrite !andb_true_iff, !negb_true_iff. split_and!.
  - unfold byte_len, MAX_INTEGER_DIGITS_V0. lia.
  - by apply String.eqb_neq.
  - done.
  - destruct (leading_zero (pretty n)) eqn:E; unfold leading_zero in E; rewrite E; [|apply andb_false_r].
    by rewrite (Hl eq_refl).
  - apply String.eqb_neq. intros H. destruct z as [|p|p]; [done| |].
    + change (pretty (Z.pos p)) with (pretty (N.pos p)) in H.
      destruct (pretty_N_canonical (N.pos p)) as (Hd' & _ & _). rewrite H in Hd'. done.
    + change (pretty (Z.neg p)) with ("-" +:+ pretty (N.pos p)) in H. injection H as H.
      change ((pretty (N.pos p) : string) = pretty 0%N) in H. by apply (inj pretty) in H.
Qed.

Lemma integer_text_short (z : Z) : (- 2 ^ 63 ≤ z < 2 ^ 63)%Z → (byte_len (pretty z) ≤ 21)%Z.
Proof.
  intros Hz. assert (String.length (pretty (Z.to_N (Z.abs z))) ≤ 20) as Hlen by (apply pretty_N_short; lia).
  unfold byte_len. destruct z as [|p|p]; [simpl; lia| |].
  - change (pretty (Z.pos p)) with (pretty (N.pos p)). change (Z.to_N (Z.abs (Z.pos p))) with (N.pos p) in Hlen. lia.
  - change (pretty (Z.neg p)) with ("-" +:+ pretty (N.pos p)). rewrite string_app_length.
    change (Z.to_N (Z.abs (Z.neg p))) with (N.pos p) in Hlen. simpl String.length at 1. lia.
Qed.

(* ------------------------------------------------------------------ *)
(** ** Payloads *)

Definition value_fine (v : NormalizedValueV0) : Prop := value_ok v = true ∧ value_small 1 v = true.

Lemma text_fine s : (byte_len s ≤ 128)%Z → value_fine (VString s).
Proof.
  intros Hs. split; cbn [value_ok value_small]; rewrite ?andb_true_iff, ?Z.leb_le.
  - unfold char_count, vec_len. pose proof (length_filter (λ c, byte_in 128 191 c = false) (bytes_of s)) as Hf.
    unfold MAX_NORMALIZED_STRING_SCALARS_V0. etrans; [apply Nat2Z.inj_le, Hf|].
    unfold byte_len in Hs. assert (length (bytes_of s) = String.length s) as ->; [|lia].
    clear. induction s as [|c s IH]; [done|]. cbn. by f_equal.
  - unfold MAX_NORMALIZED_DEPTH_V0, MAX_NORMALIZED_STRING_BYTES_V0. lia.
Qed.

Lemma integer_fine (z : Z) : (- 2 ^ 63 ≤ z < 2 ^ 63)%Z → value_fine (VInteger (pretty z)).
Proof.
  intros Hz. split; [by apply integer_text_ok|]. cbn [value_small]. rewrite andb_true_iff, !Z.leb_le.
  pose proof (integer_text_short z Hz). unfold MAX_NORMALIZED_DEPTH_V0, MAX_INTEGER_DIGITS_V0. lia.
Qed.

Lemma count_fine n : n ≤ MAX_CHANGES_OR_TODOS_V0 → value_fine (VInteger (show_nat n)).
Proof.
  intros Hn. unfold show_nat. replace (pretty (N.of_nat n) : string) with (pretty (Z.of_nat n) : string).
  - apply integer_fine. unfold MAX_CHANGES_OR_TODOS_V0 in Hn. lia.
  - by destruct n.
Qed.

Lemma array_fine {A} (f : A → NormalizedValueV0) (l : list A) :
  length l ≤ MAX_CHANGES_OR_TODOS_V0 → (∀ x, value_ok (f x) = true ∧ value_small 2 (f x) = true) →
  value_fine (VArray (f <$> l)).
Proof.
  intros Hl Hf. split; cbn [value_ok value_small].
  - apply forallb_Forall_true, Forall_fmap, Forall_forall. intros x _. apply Hf.
  - rewrite !andb_true_iff, !Z.leb_le. unfold vec_len. rewrite length_fmap.
    unfold MAX_CHANGES_OR_TODOS_V0 in Hl. unfold MAX_NORMALIZED_DEPTH_V0, MAX_NORMALIZED_ARRAY_ITEMS_V0.
    split_and!; [lia|lia|]. apply forallb_Forall_true, Forall_fmap, Forall_forall. intros x _. apply Hf.
Qed.

(** At most [n] fields, each a derivation by the rule from the source. *)
Definition payload_fine (n : nat) (rule : ArtifactBindingV0) (source : SourceLocatorV0) (payload : Payload) : Prop :=
  size payload ≤ n ∧ ∀ k f, payload !! k = Some f →
    ascii_name k = true ∧ ∃ v, f = derived v rule source ∧ value_fine v.

Lemma fine_add n rule source payload key value :
  payload_fine n rule source payload → ascii_name key = true → value_fine value →
  payload_fine (S n) rule source (add_value payload key value rule source).
Proof.
  intros [Hsize Hp] Hk Hv. unfold add_value. split.
  - rewrite map_size_insert. case_match; unfold id; lia.
  - intros k f. destruct (decide (k = key)) as [->|Hne]; [|rewrite lookup_insert_ne by done; apply Hp].
    rewrite lookup_insert_eq. intros [= <-]. eauto.
Qed.

Lemma fine_string n rule source payload key value :
  payload_fine n rule source payload → ascii_name key = true → (byte_len value ≤ 128)%Z →
  payload_fine (S n) rule source (add_string payload key value rule source).
Proof. intros Hp Hk Hv. by apply fine_add; [| |apply text_fine]. Qed.

Lemma fine_integer n rule source payload key value :
  payload_fine n rule source payload → ascii_name key = true → (- 2 ^ 63 ≤ value < 2 ^ 63)%Z →
  payload_fine (S n) rule source (add_integer payload key value rule source).
Proof. intros Hp Hk Hv. by apply fine_add; [| |apply integer_fine]. Qed.

Lemma fine_weaken n m rule source payload :
  payload_fine n rule source payload → n ≤ m → payload_fine m rule source payload.
Proof. intros [Hs Hp] Hle. split; [lia|done]. Qed.

Lemma item_payload_fine l i rule source payload :
  record_ok (ItemRecord l i) → payload_fine 3 rule source payload →
  payload_fine 6 rule source (add_item_payload payload i rule source).
Proof.
  intros Hok Hp. destruct i as [| | |id c o e s|id changes s|id items]; cbn [record_ok add_item_payload] in *;
    try (eapply fine_weaken; [done|lia]).
  - eapply (fine_weaken 5); [|lia]. apply fine_add; [apply fine_string; [done..|by destruct s]|done|].
    destruct e as [z|]; [|done]. apply integer_fine. specialize (Hok z eq_refl). lia.
  - apply fine_add; [apply fine_add; [apply fine_string; [done..|by destruct s]|done|by apply count_fine]|done|].
    apply array_fine; [done|]. intros [p []]; done.
  - eapply (fine_weaken 4); [|lia]. apply fine_add; [done..|]. by apply array_fine.
Qed.

Lemma record_payload_fine r rule source : record_ok r → payload_fine 6 rule source (record_payload r rule source).
Proof.
  intros Hok.
  assert (payload_fine 1 rule source (add_string ∅ "source-event" (source_event r) rule source)) as Hp.
  { apply fine_string; [split; [by rewrite map_size_empty|done]|done|by destruct r as [| | | | |[]]]. }
  destruct r as [id| |u|m|m|l i]; cbn [record_payload]; try (eapply fine_weaken; [done|lia]).
  - eapply (fine_weaken 2); [|lia]. apply fine_string; [done..|]. cbn in Hok. lia.
  - cbn [record_ok] in Hok. rewrite !Forall_cons in Hok. destruct Hok as (? & ? & ? & ? & _).
    unfold add_usage_payload. apply fine_string; [|done..].
    do 4 (apply fine_integer; [|done|lia]). done.
  - eapply item_payload_fine; [done|]. apply fine_string; [apply fine_string|done|]; [done..|by destruct i|by destruct l].
Qed.

(* ------------------------------------------------------------------ *)
(** ** Identities *)

Definition identifier_tail (byte : ascii) : bool :=
  is_ascii_uppercase byte || is_ascii_lowercase byte || is_ascii_digit byte || one_of "._:@/+-" byte.

Lemma identifier_text c s :
  identifier_byte 0 c = true → bytes_all identifier_tail s = true → (byte_len s < MAX_IDENTIFIER_BYTES_V0)%Z →
  String c s ≠ "unknown" → identifier (String c s) = true.
Proof.
  intros Hc Hs Hlen Hne. unfold identifier. rewrite !andb_true_iff, !negb_true_iff. split_and!.
  - done.
  - apply Z.leb_le. unfold byte_len in *. simpl String.length. lia.
  - by apply String.eqb_neq.
  - unfold bytes_enumerate_all. apply forallb_Forall_true, Forall_forall. intros [i b] Hb%elem_of_enumerate.
    destruct i as [|i]; [cbn in Hb; by injection Hb as <-|].
    unfold bytes_all in Hs. rewrite forallb_Forall_true, Forall_lookup in Hs.
    specialize (Hs i b Hb). unfold identifier_tail in Hs. unfold identifier_byte. cbn [fst snd].
    by rewrite andb_true_r.
Qed.

Lemma bytes_all_app f s t : bytes_all f (s +:+ t) = bytes_all f s && bytes_all f t.
Proof.
  induction s as [|c s IH]; [done|]. rewrite string_app_cons.
  change (f c && bytes_all f (s +:+ t) = f c && bytes_all f s && bytes_all f t). by rewrite IH, andb_assoc.
Qed.

Lemma bytes_all_impl (f g : ascii → bool) s :
  (∀ c, f c = true → g c = true) → bytes_all f s = true → bytes_all g s = true.
Proof. unfold bytes_all. rewrite !forallb_Forall_true. intros Hfg Hf. by eapply Forall_impl. Qed.

Lemma hex_identifier c : hex_byte c = true → identifier_tail c = true.
Proof.
  unfold hex_byte, identifier_tail, is_ascii_lowercase, byte_in. intros [->|H]%orb_true_iff; [by rewrite orb_true_r|].
  assert ((97 <=? nat_of_ascii c) && (nat_of_ascii c <=? 122) = true) as ->; [|by rewrite orb_true_r].
  apply andb_true_iff in H as [H1%Nat.leb_le H2%Nat.leb_le].
  apply andb_true_iff. split; apply Nat.leb_le; lia.
Qed.

Lemma digit_identifier c : is_ascii_digit c = true → identifier_tail c = true.
Proof. intros H. unfold identifier_tail. by rewrite H, orb_true_r. Qed.

Lemma item_name_identifier n : (0 ≤ n < 2 ^ 64)%Z → identifier (item_name n) = true.
Proof.
  intros Hn. pose proof (pretty_N_short (Z.to_N n) ltac:(lia)) as Hl.
  change (item_name n) with (String "i" ("tem_" +:+ pretty (Z.to_N n))). apply identifier_text; [done| | |done].
  - rewrite bytes_all_app. cbn [andb]. eapply bytes_all_impl; [apply digit_identifier|]. apply pretty_N_canonical.
  - unfold byte_len. rewrite string_app_length. simpl String.length at 1. unfold MAX_IDENTIFIER_BYTES_V0. lia.
Qed.

Section identities.
Context `{Sha : Sha256, Laws : !Sha256Laws}.

Lemma hash_digits_hex domain components :
  hash_digits (framed_sha256 domain components) = sha256_lower_hex (hash_frames domain components).
Proof using Type. done. Qed.

Lemma hash_identifier c s domain components :
  identifier_byte 0 c = true → bytes_all identifier_tail s = true → (byte_len s ≤ 6)%Z → s ≠ "nknown" →
  identifier (String c (s +:+ hash_digits (framed_sha256 domain components))) = true.
Proof using Laws.
  intros Hc Hs Hlen Hne. rewrite hash_digits_hex.
  destruct (framed_sha256_valid domain components) as (hex & Hhex & Hl & Hb).
  apply string_app_inj in Hhex as [_ <-]; [|done]. apply identifier_text; [done| | |].
  - rewrite bytes_all_app, Hs. cbn [andb]. by eapply bytes_all_impl; [apply hex_identifier|].
  - unfold byte_len in *. rewrite string_app_length. unfold MAX_IDENTIFIER_BYTES_V0. lia.
  - intros [= _ H]. apply (f_equal byte_len) in H. unfold byte_len in *. rewrite string_app_length in H.
    simpl in H. lia.
Qed.

Lemma run_id_identifier record_zero thread_id : identifier (run_id_of record_zero thread_id) = true.
Proof using Laws. by apply (hash_identifier "r" "un-"). Qed.

Lemma event_id_identifier run_id index raw_digest : identifier (event_id_of run_id index raw_digest) = true.
Proof using Laws. by apply (hash_identifier "e" "vent-"). Qed.

(** What the identity of an event hashes, and those of all the events of a run. *)
Definition event_id_input (run_id : string) (index : nat) (raw_digest : string) : string :=
  hash_frames EVENT_ID_DOMAIN_V0 [run_id; u64_be_bytes (Z.of_nat index); raw_digest].

Definition event_id_inputs (run_id : string) (raw_records : list string) : list string :=
  (λ indexed, event_id_input run_id indexed.1 (raw_record_digest_v0 indexed.2)) <$> enumerate raw_records.

Lemma elem_of_event_id_inputs run_id raw_records i raw :
  raw_records !! i = Some raw → event_id_input run_id i (raw_record_digest_v0 raw) ∈ event_id_inputs run_id raw_records.
Proof using Type.
  intros Hi. apply list_elem_of_fmap. exists (i, raw). split; [done|]. by apply elem_of_enumerate.
Qed.

(** Events at different positions have different identities, unless SHA-256
    collides on what the two identities hash. *)
Lemma event_id_inj run_id i j d d' :
  fits run_id → fits d → fits d' → (Z.of_nat i < 2 ^ 64)%Z → (Z.of_nat j < 2 ^ 64)%Z →
  event_id_of run_id i d = event_id_of run_id j d' →
  i = j ∨ collides [event_id_input run_id i d] [event_id_input run_id j d'].
Proof using Type.
  intros Hr Hd Hd' Hi Hj. unfold event_id_of. rewrite !hash_digits_hex. intros Heq.
  apply string_app_inj in Heq as [_ Heq]; [|done].
  assert (∀ k, fits (u64_be_bytes k)) as Hbe by (intros k; unfold fits, fits_len, byte_len, u64_be_bytes; rewrite be_bytes_length; lia).
  destruct (framed_sha256_inj EVENT_ID_DOMAIN_V0 EVENT_ID_DOMAIN_V0
    [run_id; u64_be_bytes (Z.of_nat i); d] [run_id; u64_be_bytes (Z.of_nat j); d']) as [[_ Hc]|Hc].
  - split_and!; [done|done|by repeat apply Forall_cons_2].
  - split_and!; [done|done|by repeat apply Forall_cons_2].
  - unfold framed_sha256. by rewrite Heq.
  - left. apply cons_inv in Hc as [_ [Hc _]%cons_inv]. apply u64_be_bytes_inj in Hc; lia.
  - by right.
Qed.
End identities.

(* ------------------------------------------------------------------ *)
(** ** Events *)

Lemma u64_lit_val z : (0 ≤ z < 2 ^ 64)%Z → u64_val (u64_lit z) = z.
Proof. intros Hz. unfold u64_lit. by destruct (u64_try_from_total z Hz) as (x & -> & Hx). Qed.

Section events.
Context `{Sha : Sha256, Laws : !Sha256Laws, Sources : CompiledSources}.
Context (raw_records : list string) (policy : ArtifactBindingV0).
Context (Hraw : Forall (λ raw, raw ≠ "" ∧ byte_len raw ≤ MAX_RAW_RECORD_BYTES_V0)%Z raw_records).
Context (Hcount : (vec_len raw_records ≤ MAX_EVENTS_V0)%Z).

Abbreviation declared := (mkDeclarations codex_exec_adapter_binding_v0 policy (raw_capture_seal_v0 raw_records)
  (list_to_set [run_rule; event_rule; position_rule; field_rule])).

Lemma raw_fits index raw :
  raw_records !! index = Some raw →
  raw ≠ "" ∧ (0 < byte_len raw ≤ MAX_RAW_RECORD_BYTES_V0)%Z ∧ (Z.of_nat index < MAX_EVENTS_V0)%Z.
Proof using Hraw Hcount.
  intros Hr. pose proof Hr as Hlt%lookup_lt_Some. rewrite Forall_lookup in Hraw. destruct (Hraw _ _ Hr) as [Hne Hl].
  split_and!; [done| |done|].
  - destruct raw; [done|]. unfold byte_len. simpl. lia.
  - unfold vec_len in Hcount. lia.
Qed.

Lemma digest_small domain components : (byte_len (framed_sha256 domain components) ≤ 71)%Z.
Proof using Laws.
  destruct (framed_sha256_valid domain components) as (hex & -> & Hl & _).
  unfold byte_len in *. rewrite string_app_length. simpl String.length at 1. lia.
Qed.

Lemma locator_valid index raw :
  raw_records !! index = Some raw → locator_ok raw_records (locator index raw) ∧ locator_small (locator index raw).
Proof using Hraw Hcount Laws.
  intros Hr. destruct (raw_fits _ _ Hr) as (Hne & Hl & Hi).
  unfold MAX_RAW_RECORD_BYTES_V0, MAX_EVENTS_V0 in *. split; [|apply digest_small].
  split; [apply framed_sha256_valid|]. cbn [sl_byte_length locator sl_digest]. rewrite u64_lit_val by lia.
  split; [lia|]. exists raw. split; [|done]. apply locate_Ok.
  cbn [sl_byte_offset sl_byte_length sl_record_index locator]. rewrite !u64_lit_val, Nat2Z.id by lia. split; [lia|].
  exists raw, "", "". split_and!; try done. by rewrite string_app_nil_l, string_app_nil_r.
Qed.

Definition codex_rules : list ArtifactBindingV0 := [run_rule; event_rule; position_rule; field_rule].

Lemma rule_valid r : r ∈ codex_rules → valid_binding r ∧ binding_small r ∧ r ∈ vc_allowed_derivations declared.
Proof using Laws.
  intros Hr. split_and!.
  - unfold codex_rules in Hr. rewrite !elem_of_cons in Hr.
    destruct Hr as [->|[->|[->|[->|[]%elem_of_nil]]]]; (split_and!; [done|done|apply framed_sha256_valid]).
  - unfold codex_rules in Hr. rewrite !elem_of_cons in Hr.
    destruct Hr as [->|[->|[->|[->|[]%elem_of_nil]]]]; (split_and!; [done|done|apply digest_small]).
  - cbn [vc_allowed_derivations]. by apply elem_of_list_to_set.
Qed.

(** A derived value is a field with sound evidence. *)
Lemma derived_valid {T} (value : T) r sources :
  r ∈ codex_rules → sources ≠ [] → NoDup (locator_range <$> sources) → length sources ≤ 2 →
  Forall (λ l, ∃ index raw, raw_records !! index = Some raw ∧ l = locator index raw) sources →
  field_ok raw_records declared (derived_from value r sources) value ∧
  evidence_small (ev_evidence (derived_from value r sources)).
Proof using Hraw Hcount Laws.
  intros Hr Hne Hnd Hlen Hall. destruct (rule_valid r Hr) as (Hv & Hs & Ha).
  assert (Forall (λ l, locator_ok raw_records l ∧ locator_small l) sources) as Hl.
  { eapply Forall_impl; [exact Hall|]. intros l (index & raw & Hi & ->). by apply locator_valid. }
  apply Forall_and in Hl as [Hl1 Hl2]. split; [split; [split_and!|]; done|].
  cbn [ev_evidence derived_from evidence_small]. split_and!; [done| |done].
  unfold vec_len, MAX_DERIVATION_INPUTS_V0. lia.
Qed.

Lemma derived_one {T} (value : T) r index raw :
  r ∈ codex_rules → raw_records !! index = Some raw →
  field_ok raw_records declared (derived value r (locator index raw)) value ∧
  evidence_small (ev_evidence (derived value r (locator index raw))).
Proof using Hraw Hcount Laws.
  intros Hr Hi. apply derived_valid; [done|done|by apply NoDup_singleton|cbn; lia|].
  apply Forall_cons_2; [eauto|by apply Forall_nil_2].
Qed.

Lemma rules_declared : run_rule ∈ codex_rules ∧ event_rule ∈ codex_rules ∧ position_rule ∈ codex_rules ∧
  field_rule ∈ codex_rules.
Proof using Type. unfold codex_rules. rewrite !elem_of_cons. clear. auto 10. Qed.

Lemma identifier_small_ok value : identifier value = true → identifier_small (Some value).
Proof using Type. unfold identifier. rewrite !andb_true_iff, Z.leb_le. cbn. tauto. Qed.

Lemma payload_entries_ok n index raw payload :
  raw_records !! index = Some raw → payload_fine n field_rule (locator index raw) payload →
  Forall (entry_ok raw_records declared) (btree_iter payload) ∧ Forall entry_small (btree_iter payload).
Proof using Hraw Hcount Laws.
  intros Hr [_ Hp]. apply Forall_and, Forall_forall. intros [k f] Hk%elem_of_btree_iter.
  destruct (Hp k f Hk) as (Hname & v & -> & Hok & Hsmall).
  destruct (derived_one v field_rule index raw ltac:(apply rules_declared) Hr) as [Hf He].
  split; [split; [done|by exists v]|]. split_and!; [|done|done].
  unfold ascii_name in Hname. cbn. rewrite !andb_true_iff, Z.leb_le in Hname. tauto.
Qed.

Lemma map_event_ok index r raw zero run_id e :
  raw_records !! index = Some raw → raw_records !! 0 = Some zero → record_ok r →
  (∀ l i, r = ItemRecord l i → identifier (item_id i) = true) →
  map_event index r raw zero run_id = Ok e →
  event_ok raw_records declared index e ∧ event_small e ∧
  ev_value (ae_event_id e) = Some (event_id_of run_id index (raw_record_digest_v0 raw)).
Proof using Hraw Hcount Laws.
  intros Hr Hz Hok Hid He. destruct (raw_fits _ _ Hr) as (_ & _ & Hindex). unfold MAX_EVENTS_V0 in Hindex.
  destruct rules_declared as (Hrun & Hev & Hpos & Hfield).
  unfold map_event in He. apply bind_Ok in He as (kind & _ & [= <-]).
  assert (field_ok raw_records declared
    (derived_from (event_id_of run_id index (raw_record_digest_v0 raw)) event_rule
       (if index =? 0 then [locator 0 zero] else [locator 0 zero; locator index raw]))
    (event_id_of run_id index (raw_record_digest_v0 raw)) ∧
    evidence_small (ev_evidence
    (derived_from (event_id_of run_id index (raw_record_digest_v0 raw)) event_rule
       (if index =? 0 then [locator 0 zero] else [locator 0 zero; locator index raw])))) as [Hidf Hids].
  { destruct (Nat.eqb_spec index 0) as [->|Hne]; [by apply derived_one|]. apply derived_valid; [done|done| |cbn; lia|].
    - cbn [fmap list_fmap]. apply NoDup_cons. split; [|by apply NoDup_singleton].
      intros Hin%list_elem_of_singleton. unfold locator_range in Hin. cbn [sl_record_index locator] in Hin.
      injection Hin as Hin _. rewrite !u64_lit_val in Hin by lia. lia.
    - apply Forall_cons_2; [eauto|]. apply Forall_cons_2; [eauto|by apply Forall_nil_2]. }
  destruct (derived_one (u64_lit (Z.of_nat index)) position_rule index raw Hpos Hr) as [Hseq Hseqs].
  destruct (derived_one kind field_rule index raw Hfield Hr) as [Hk Hks].
  pose proof (record_payload_fine r field_rule (locator index raw) Hok) as Hpay.
  destruct (payload_entries_ok _ _ _ _ Hr Hpay) as [Hent Hents].
  split_and!; [split; cbn|..|done]; cbn.
  - eexists. split; [done|apply event_id_identifier].
  - eexists. split; [done|apply u64_lit_val; lia].
  - by eexists.
  - destruct r as [| | | | |l i]; try done. exists (item_id i). split; [by apply derived_one|by eapply Hid].
  - apply u64_lit_val. lia.
  - split; [apply framed_sha256_valid|]. by rewrite (list_lookup_total_correct _ _ _ Hr).
  - done.
  - split_and!; try done.
    + trans 6%Z; [apply (Nat2Z.inj_le _ 6), Hpay|done].
    + apply digest_small.
    + apply identifier_small_ok, event_id_identifier.
    + destruct r as [| | | | |l i]; try done. split; [by apply derived_one|].
      cbn. by apply identifier_small_ok, (Hid l i).
Qed.
End events.

(* ------------------------------------------------------------------ *)
(** ** Streams *)

(** The kinds of a legal stream are all defined. *)
Lemma item_run_steps events status event :
  item_run events = Some status → event ∈ events → ∃ before, is_Some (item_step before event).
Proof.
  revert status. induction events as [|e events IH] using rev_ind; intros status; [by intros _ ?%elem_of_nil|].
  rewrite item_run_snoc. intros (before & Hb & Hs)%bind_Some. rewrite elem_of_app, list_elem_of_singleton.
  intros [Hin| ->]; [by eapply IH|by exists before, status].
Qed.

Lemma normalized_kind_ok r index :
  (∀ l i, r = ItemRecord l i → ∃ before, is_Some (item_step before (l, i))) →
  ∃ kind, normalized_kind r index = Ok kind.
Proof.
  intros Hr. destruct r as [| | | | |l i]; try (eexists; reflexivity).
  destruct (Hr l i eq_refl) as [before [after Hs]].
  destruct before as [|started|latest|], l, i; cbn in Hs |- *; try (eexists; reflexivity).
  all: try done. all: destruct started; cbn in Hs; repeat case_match; done.
Qed.

Lemma stream_item records terminal l i :
  stream_valid records terminal → (vec_len records < 2 ^ 64)%Z → ItemRecord l i ∈ records →
  (∃ before, is_Some (item_step before (l, i))) ∧ identifier (item_id i) = true.
Proof.
  intros [Hp _] Hlen Hin.
  assert ((l, i) ∈ item_events (item_id i) records) as Hev.
  { apply list_elem_of_omap. eexists. split; [exact Hin|]. cbn. by rewrite decide_True. }
  split.
  - destruct (sp_lives _ Hp (item_id i)) as [status Hs]. by eapply item_run_steps.
  - assert (item_id i ∈ first_ids records) as Hid.
    { apply first_ids_events. intros Hn. rewrite Hn in Hev. by apply elem_of_nil in Hev. }
    rewrite (sp_numbered _ Hp) in Hid. apply list_elem_of_fmap in Hid as (n & -> & [_ Hn]%elem_of_seq).
    apply item_name_identifier. pose proof (length_first_ids records). unfold vec_len in Hlen. lia.
Qed.

Lemma NoDup_or {A} `{!EqDecision A} (l : list A) (P : Prop) :
  (∀ i j x, l !! i = Some x → l !! j = Some x → i = j ∨ P) → NoDup l ∨ P.
Proof.
  induction l as [|x l IH]; intros Hl; [by left; constructor|].
  destruct (decide (x ∈ l)) as [Hin|Hnin].
  - apply list_elem_of_lookup in Hin as [j Hj]. destruct (Hl 0 (S j) x eq_refl Hj); [done|by right].
  - destruct IH as [Hnd|]; [|left; by constructor|by right].
    intros i j y Hi Hj. destruct (Hl (S i) (S j) y Hi Hj) as [Hs|]; [left; congruence|by right].
Qed.

(* ------------------------------------------------------------------ *)
(** ** Traces *)

Lemma valid_digest_small value : valid_digest value → (byte_len value ≤ 71)%Z.
Proof. intros (hex & -> & Hl & _). unfold byte_len in *. rewrite string_app_length. simpl String.length at 1. lia. Qed.

Lemma valid_binding_small b : valid_binding b → binding_small b.
Proof.
  intros (Hi & Hv & Hh). unfold ascii_name, ascii_version in *. rewrite !andb_true_iff, Z.leb_le in Hi, Hv.
  split_and!; [tauto|tauto|by apply valid_digest_small].
Qed.

Section traces.
Context `{Sha : Sha256, Laws : !Sha256Laws, Sources : CompiledSources, Stream : JsonStream, Ser : TraceSerializer}.
Context (TRAJECTORY_SCHEMA_BYTES_V0 : string).

Abbreviation maps := (map_records_with_bindings TRAJECTORY_SCHEMA_BYTES_V0).

Lemma framed_lines bytes capture :
  parse_owned bytes = Ok capture →
  let raw_records := record_slices capture in
  raw_records ≠ [] ∧ (vec_len raw_records ≤ MAX_CODEX_RECORDS_V0)%Z ∧
  (sum_of byte_len raw_records ≤ MAX_CODEX_JSONL_BYTES_V0)%Z ∧ Forall line_ok raw_records.
Proof using Type.
  intros (lines & Hw & ->)%parse_owned_Ok. cbn zeta. pose proof Hw as [Hb Hs _ _ Hne Hc Hl].
  replace (record_slices (mkFramed bytes (line_ranges 0 lines))) with lines
    by (rewrite Hb; symmetry; apply (record_slices_lines "")).
  split_and!; try done. rewrite Hb in Hs. etrans; [|exact Hs]. clear.
  induction lines as [|l lines IH]; [done|]. rewrite put_all_cons, byte_len_app, byte_len_lf_line.
  cbn [sum_of]. lia.
Qed.

Lemma binding_of_sources_valid contract registries :
  ascii_name (bc_identity contract) = true → valid_binding (binding_from_registries contract registries).
Proof using Laws. intros Hi. split_and!; [done|done|apply framed_sha256_valid]. Qed.

(** What the mapping produces from a legal stream. *)
Lemma maps_events records raw_records terminal policy :
  stream_valid records terminal → Forall record_ok records → length records = length raw_records →
  (vec_len records < 2 ^ 64)%Z →
  ∃ mapped zero run_id,
    maps records raw_records (raw_capture_seal_v0 raw_records) policy = Ok mapped ∧
    raw_records !! 0 = Some zero ∧ identifier run_id = true ∧ fits run_id ∧
    mp_trace mapped = mkTrace (trajectory_schema_binding_v0 TRAJECTORY_SCHEMA_BYTES_V0)
      (derived run_id run_rule (locator 0 zero)) codex_exec_adapter_binding_v0 policy
      (raw_capture_seal_v0 raw_records) (tt_events (mp_trace mapped)) ∧
    mp_validation_declarations mapped = mkDeclarations codex_exec_adapter_binding_v0 policy
      (raw_capture_seal_v0 raw_records) (list_to_set [run_rule; event_rule; position_rule; field_rule]) ∧
    Forall2 (λ indexed e, map_event indexed.1 indexed.2.1 indexed.2.2 zero run_id = Ok e)
      (enumerate (zip records raw_records)) (tt_events (mp_trace mapped)).
Proof using Laws.
  intros Hv Hok Hlen Hfit. pose proof (valid_starts _ _ Hv) as Hstart.
  destruct records as [|[thread_id| | | | |] records]; try done.
  destruct raw_records as [|zero raw_records]; [done|].
  set (run_id := run_id_of zero thread_id).
  destruct (try_map_total (λ indexed, map_event indexed.1 indexed.2.1 indexed.2.2 zero run_id)
    (enumerate (zip (ThreadStarted thread_id :: records) (zero :: raw_records)))) as [events Hevents].
  { intros [i [r raw]] Hi%elem_of_enumerate. cbn [fst snd].
    apply lookup_zip_with_Some in Hi as (r' & raw' & [= <- <-] & Hr & _).
    destruct (normalized_kind_ok r i) as [kind Hkind].
    - intros l it ->. apply (stream_item _ _ _ _ Hv Hfit). by eapply list_elem_of_lookup_2.
    - eexists. unfold map_event. by rewrite Hkind. }
  exists (mkMapped
    (mkTrace (trajectory_schema_binding_v0 TRAJECTORY_SCHEMA_BYTES_V0) (derived run_id run_rule (locator 0 zero))
      codex_exec_adapter_binding_v0 policy (raw_capture_seal_v0 (zero :: raw_records)) events)
    (mkDeclarations codex_exec_adapter_binding_v0 policy (raw_capture_seal_v0 (zero :: raw_records))
      (list_to_set [run_rule; event_rule; position_rule; field_rule]))), zero, run_id.
  split_and!; try done.
  - unfold map_records_with_bindings. rewrite (proj2 (Nat.eqb_eq _ _) Hlen). cbn [negb head mbind Result_bind].
    change (run_id_of zero thread_id) with run_id. by rewrite Hevents.
  - apply run_id_identifier.
  - pose proof (run_id_identifier zero thread_id) as Hi. unfold identifier in Hi.
    rewrite !andb_true_iff, Z.leb_le in Hi. unfold fits, fits_len, MAX_IDENTIFIER_BYTES_V0 in *.
    change (run_id_of zero thread_id) with run_id in Hi. lia.
  - by apply try_map_Ok_Forall2.
Qed.

Lemma lines_raw raw_records :
  Forall line_ok raw_records → Forall (λ raw, raw ≠ "" ∧ byte_len raw ≤ MAX_RAW_RECORD_BYTES_V0)%Z raw_records.
Proof using Type.
  intros Hlines. eapply Forall_impl; [exact Hlines|]. intros raw (Hl & _).
  unfold MAX_CODEX_RECORD_BYTES_V0, MAX_RAW_RECORD_BYTES_V0 in *. split; [|lia]. intros ->. by destruct Hl.
Qed.

(** Everything of the events of a mapped trace. *)
Lemma mapped_events_ok records raw_records terminal policy events zero run_id :
  stream_valid records terminal → Forall record_ok records → length records = length raw_records →
  Forall line_ok raw_records → (vec_len raw_records ≤ MAX_CODEX_RECORDS_V0)%Z →
  raw_records !! 0 = Some zero → fits run_id →
  Forall2 (λ indexed e, map_event indexed.1 indexed.2.1 indexed.2.2 zero run_id = Ok e)
    (enumerate (zip records raw_records)) events →
  (∀ index e, events !! index = Some e →
     event_ok raw_records (mkDeclarations codex_exec_adapter_binding_v0 policy (raw_capture_seal_v0 raw_records)
       (list_to_set [run_rule; event_rule; position_rule; field_rule])) index e ∧ event_small e) ∧
  length events = length raw_records ∧ (NoDup (event_ids events) ∨
    collides (event_id_inputs run_id raw_records) (event_id_inputs run_id raw_records)).
Proof using Laws.
  intros Hv Hok Hlen Hlines Hcount Hz Hfit Hmap. unfold MAX_CODEX_RECORDS_V0 in Hcount.
  pose proof (lines_raw _ Hlines) as Hraw.
  assert (∀ index e, events !! index = Some e → ∃ raw, raw_records !! index = Some raw ∧
    event_ok raw_records (mkDeclarations codex_exec_adapter_binding_v0 policy (raw_capture_seal_v0 raw_records)
       (list_to_set [run_rule; event_rule; position_rule; field_rule])) index e ∧ event_small e ∧
    ev_value (ae_event_id e) = Some (event_id_of run_id index (raw_record_digest_v0 raw))) as Hall.
  { intros index e He. destruct (Forall2_lookup_r _ _ _ _ _ Hmap He) as ([i [r raw]] & Hi & Hme).
    rewrite lookup_enumerate in Hi. apply fmap_Some in Hi as ([r' raw'] & Hrr & [= -> <- <-]).
    apply lookup_zip_with_Some in Hrr as (r' & raw' & [= <- <-] & Hr & Hraw').
    exists raw. split; [done|]. cbn [fst snd] in Hme.
    eapply (map_event_ok raw_records policy Hraw); try done.
    - unfold MAX_EVENTS_V0. lia.
    - rewrite Forall_lookup in Hok. by eapply Hok.
    - intros l it ->. eapply stream_item; [done| |by eapply list_elem_of_lookup_2].
      unfold vec_len in *. lia. }
  split_and!.
  - intros index e He. destruct (Hall index e He) as (raw & _ & ? & ? & _). done.
  - apply Forall2_length in Hmap. rewrite <-Hmap, length_enumerate, length_zip_with. lia.
  - apply NoDup_or. intros i j x Hi Hj. unfold event_ids in Hi, Hj. rewrite list_lookup_fmap in Hi, Hj.
    apply fmap_Some in Hi as (e & Hi & ->), Hj as (e' & Hj & Heq).
    destruct (Hall i e Hi) as (raw & Hri & _ & _ & Hid), (Hall j e' Hj) as (raw' & Hrj & _ & _ & Hid').
    rewrite Hid, Hid' in Heq. apply (inj Some) in Heq.
    pose proof Hri as Hri0. pose proof Hrj as Hrj0. apply lookup_lt_Some in Hri, Hrj.
    pose proof (elem_of_event_id_inputs run_id _ _ _ Hri0) as Hini.
    pose proof (elem_of_event_id_inputs run_id _ _ _ Hrj0) as Hinj.
    destruct (event_id_inj run_id i j (raw_record_digest_v0 raw) (raw_record_digest_v0 raw')) as [?|Hcol];
      [done|apply framed_sha256_fits..|unfold vec_len in *; lia|unfold vec_len in *; lia|done|by left|right].
    eapply collides_incl; [..|exact Hcol]; by apply incl_one.
Qed.

Lemma maps_valid records raw_records terminal policy :
  stream_valid records terminal → Forall record_ok records → length records = length raw_records →
  Forall line_ok raw_records → (vec_len raw_records ≤ MAX_CODEX_RECORDS_V0)%Z →
  (sum_of byte_len raw_records ≤ MAX_CODEX_JSONL_BYTES_V0)%Z → valid_binding policy →
  ∃ mapped run_id, maps records raw_records (raw_capture_seal_v0 raw_records) policy = Ok mapped ∧
    ev_value (tt_run_id (mp_trace mapped)) = Some run_id ∧
    ((validate_trace TRAJECTORY_SCHEMA_BYTES_V0 (mp_trace mapped) raw_records (mp_validation_declarations mapped) = Ok () ↔
        totals_bounded (use_trace (mp_trace mapped)) ∧ validate_compact_json_size (mp_trace mapped) = Ok ()) ∨
     collides (event_id_inputs run_id raw_records) (event_id_inputs run_id raw_records)).
Proof using Laws.
  intros Hv Hok Hlen Hlines Hcount Hsum Hpolicy. unfold MAX_CODEX_RECORDS_V0 in Hcount.
  destruct (maps_events records raw_records terminal policy Hv Hok Hlen) as (mapped & zero & run_id & Hm & Hz & Hrid & Hfit & Ht & Hd & Hmap);
    [unfold vec_len in *; lia|].
  destruct (mapped_events_ok records raw_records terminal policy (tt_events (mp_trace mapped)) zero run_id Hv Hok Hlen Hlines Hcount Hz Hfit Hmap)
    as (Hev & Hevlen & Hids).
  exists mapped, run_id. split; [done|]. split; [by rewrite Ht|]. destruct Hids as [Hnd|Hcol]; [left|by right]. rewrite validate_trace_Ok.
  set (events := tt_events (mp_trace mapped)) in *. clearbody events. rewrite Ht, Hd.
  split; [by intros [[] ?]|]. intros [Htot Hsize].
  assert (valid_binding codex_exec_adapter_binding_v0) as Hadapter by (by apply binding_of_sources_valid).
  assert (valid_binding (trajectory_schema_binding_v0 TRAJECTORY_SCHEMA_BYTES_V0)) as Hschema
    by (split_and!; [done|done|apply framed_sha256_valid]).
  pose proof (lines_raw _ Hlines) as Hraw.
  destruct (derived_one raw_records policy Hraw ltac:(unfold MAX_EVENTS_V0; lia) run_id run_rule 0 zero
    ltac:(by apply rules_declared) Hz) as [Hrun Hruns].
  split; cbn; try done.
  - split; cbn; try done.
    + unfold MAX_RAW_RECORDS_V0. lia.
    + unfold MAX_EVENTS_V0, vec_len in *. lia.
    + eapply Forall_impl; [exact Hraw|]. by intros raw [_ ?].
    + unfold MAX_CODEX_JSONL_BYTES_V0, MAX_RAW_CAPTURE_BYTES_V0 in *. lia.
    + apply u64_lit_val. unfold vec_len in *. lia.
    + intros ->. by destruct raw_records.
    + split_and!; by apply valid_binding_small.
    + split; apply digest_small.
    + split; [done|]. by apply identifier_small_ok.
    + apply Forall_lookup. intros i e He. by apply (Hev i e).
  - split; [apply framed_sha256_valid|done].
  - eapply Forall_impl; [exact Hlines|]. intros raw (_ & _ & Hscan). unfold reject_duplicate_json_keys.
    rewrite (scan_json_looser raw CODEX_SCAN_LIMITS unbounded RootObject); [done| |exact Hscan].
    split_and!; apply Z.leb_le; vm_compute; reflexivity.
  - exists run_id. split; done.
  - intros index e He. by apply (Hev index e).
Qed.
End traces.
