(* ===== verification/CodexReceipt.v ===== *)
(** * Input authority receipts (src/trajectory/codex_exec_v0/receipt*.rs)

    The three kinds of receipts that authorize a capture, their validation,
    the canonical bytes they are committed to by, and the trusted context an
    adaptation is given.  A [u8] is an integer.  The nonce of the operating
    system's random source is an argument. *)

From S2P Require Import Prelude Encoding Trajectory F64 Errors JsonScan JsonScanSpec WireJson TraceValidation Replay ReplayAuthority CodexEvent CodexMapping CodexFraming CodexStream.
From Stdlib Require Import Ascii.
From stdpp Require Import options.

(** Limits and pinned artifacts (mod.rs). *)
Definition MAX_ARGV_ARGUMENTS_V0 : Z := 32.
Definition MAX_ARGV_ARGUMENT_BYTES_V0 : Z := 4 * 1024.
Definition MAX_ARGV_TOTAL_BYTES_V0 : Z := 32 * 1024.
Definition MAX_CAPTURE_MANIFEST_ENTRIES_V0 : Z := 256.

Definition CODEX_CLI_VERSION_V0 : string := "0.144.0".
Definition CODEX_SOURCE_TAG_V0 : string := "rust-v0.144.0".
Definition CODEX_SOURCE_TAG_OBJECT_SHA_V0 : string := "e0a9ff6938d85db1a7b11a693b6aa2bc31fe5a55".
Definition CODEX_SOURCE_COMMIT_SHA_V0 : string := "767822446c7a594caa19609ca435281a9ec67e0d".

Definition PROCESS_CAPTURE_ARGV_V0 : list string :=
  ["codex"; "exec"; "--json"; "--ephemeral"; "--ignore-user-config"; "--ignore-rules";
   "--skip-git-repo-check"; "--sandbox"; "read-only"; "-"].
Definition PROCESS_CAPTURE_EXECUTABLE_SHA256_V0 : string :=
  "sha256:901923c1808a151f6926d41d703c17ad48815662cefb1c8d832a052c44271429".
Definition PROCESS_CAPTURE_RELEASE_NAME_V0 : string := "codex-x86_64-unknown-linux-musl.tar.gz".
Definition PROCESS_CAPTURE_RELEASE_SHA256_V0 : string :=
  "sha256:725883fc20ab4af3072829aaa0edf6d12c216238f9f7315a6656b950fb05c8bb".
Definition PROCESS_CAPTURE_SIGSTORE_NAME_V0 : string := "codex-x86_64-unknown-linux-musl.sigstore".
Definition PROCESS_CAPTURE_SIGSTORE_SHA256_V0 : string :=
  "sha256:73ee5b4cb99abfce4d7a03faf7b410b5d7c869a24b856bf23a5be031e619b4cd".

(* ------------------------------------------------------------------ *)
(** ** Hexadecimal (receipt_hex.rs) *)

Definition receipt_shape : AdapterErrorV0 := adapter_error AdReceiptShape.

(** The same table and nibbles as the keys of the replay authority. *)
Definition lower_hex_bytes (bytes : string) : string := put_all hex_pair (bytes_of bytes).

Definition receipt_nibble (byte : ascii) : AdapterResultV0 Z :=
  let b := Z.of_nat (nat_of_ascii byte) in
  if byte_in 48 57 byte then Ok (b - 48)%Z
  else if byte_in 97 102 byte then Ok (b - 97 + 10)%Z
  else Err receipt_shape.

Fixpoint decode_chunks (hex : string) : AdapterResultV0 string :=
  match hex with
  | String a (String b hex) =>
      high ← receipt_nibble a; low ← receipt_nibble b;
      rest ← decode_chunks hex;
      Ok (String (ascii_of_Z (Z.lor (Z.shiftl high 4) low)) rest)
  | _ => Ok ""
  end.

Definition decode_lower_hex (value : string) : AdapterResultV0 string :=
  if negb (byte_len value mod 2 =? 0)%Z then Err receipt_shape else decode_chunks value.

(* ------------------------------------------------------------------ *)
(** ** Data (receipt.rs, receipt_nonce.rs) *)

Record InodeIdentityV0 := mkInode { in_dev : u64; in_ino : u64 }.

Record ArgvBytesV0 := mkArgv {
  av_argument_count : u64;
  av_arguments_lower_hex : list string;
  av_total_bytes : u64;
}.

Inductive AssertedNonceSourceV0 := CaptureRandom | FixedSyntheticTest.

Record NonceMaterialV0 := mkNonce {
  nm_asserted_source : AssertedNonceSourceV0;
  nm_bytes : string;
}.

Record CaptureManifestEntryV0 := mkManifestEntry {
  me_ordinal : u64;
  me_role : string;
  me_format : string;
  me_relative_path_lower_hex : string;
  me_byte_length : u64;
  me_sha256 : string;
  me_inode : InodeIdentityV0;
}.

Record EmitterIdentityV0 := mkEmitter {
  em_package_version : string;
  em_source_tag : string;
  em_source_tag_object_sha : string;
  em_source_commit_sha : string;
}.

Inductive ByteInputSealV0 :=
  | SealAbsent
  | SealPresent (byte_length : u64) (sha256 : string).

Record ByteStreamSealV0 := mkStreamSeal { ss_byte_length : u64; ss_sha256 : string }.

Record ExecutedArtifactV0 := mkExecuted {
  xa_identity : ArtifactBindingV0;
  xa_file_sha256 : string;
  xa_inode : InodeIdentityV0;
}.

Record ReleaseArtifactV0 := mkRelease { ra_name : string; ra_sha256 : string }.

Inductive FreshExecModeV0 := FreshExecStructuredStdin.
Inductive CaptureProfileV0 := UnixReadOnlyStdinJsonV0.

Record SyntheticFixtureReceiptV0 := mkSynthetic {
  sy_receipt_format : string;
  sy_receipt_version : string;
  sy_evidence_class : string;
  sy_emitter : EmitterIdentityV0;
  sy_full_jsonl_length : u64;
  sy_full_jsonl_digest : string;
  sy_raw_record_count : u64;
  sy_raw_capture_seal : RawCaptureSealV0;
  sy_fixture_spec_manifest : ArtifactBindingV0;
  sy_asserted_nonce_source : AssertedNonceSourceV0;
  sy_blinding_nonce_lower_hex : string;
}.

Record ProcessCaptureReceiptV0 := mkProcess {
  pr_receipt_format : string;
  pr_receipt_version : string;
  pr_evidence_class : string;
  pr_emitter : EmitterIdentityV0;
  pr_executable_sha256 : string;
  pr_executable_inode : InodeIdentityV0;
  pr_executable_execution_binding : string;
  pr_artifact_open_discipline : string;
  pr_workspace_execution_discipline : string;
  pr_argv : ArgvBytesV0;
  pr_resolved_mode : FreshExecModeV0;
  pr_capture_profile : CaptureProfileV0;
  pr_stdin : ByteInputSealV0;
  pr_termination : ProcessTerminationV0;
  pr_stdout : ByteStreamSealV0;
  pr_stderr : ByteStreamSealV0;
  pr_raw_record_count : u64;
  pr_raw_capture_seal : RawCaptureSealV0;
  pr_capture_tool : ExecutedArtifactV0;
  pr_capture_profile_artifact : ArtifactBindingV0;
  pr_workspace_manifest : list CaptureManifestEntryV0;
  pr_workspace_tree_digest : string;
  pr_release_asset : ReleaseArtifactV0;
  pr_sigstore_bundle : ReleaseArtifactV0;
  pr_sigstore_verification : string;
  pr_asserted_nonce_source : AssertedNonceSourceV0;
  pr_blinding_nonce_lower_hex : string;
}.

Inductive AssertedParentReceiptV0 :=
  | AssertedParentReceiptSyntheticFixtureCaptureRandom
  | AssertedParentReceiptSyntheticFixtureFixedSyntheticTest
  | AssertedParentReceiptProcessCaptureCaptureRandom.

Record SanitizedDerivedCaptureReceiptV0 := mkDerivedReceipt {
  dr_receipt_format : string;
  dr_receipt_version : string;
  dr_evidence_class : string;
  dr_asserted_origin_evidence_class : string;
  dr_asserted_parent_receipt : AssertedParentReceiptV0;
  dr_parent_receipt_commitment : string;
  dr_parent_full_jsonl_length : u64;
  dr_parent_full_jsonl_digest : string;
  dr_parent_raw_capture_seal : RawCaptureSealV0;
  dr_sanitizer_policy : ArtifactBindingV0;
  dr_sanitizer_artifact : ArtifactBindingV0;
  dr_derived_full_jsonl_length : u64;
  dr_derived_full_jsonl_digest : string;
  dr_derived_raw_capture_seal : RawCaptureSealV0;
  dr_asserted_nonce_source : AssertedNonceSourceV0;
  dr_blinding_nonce_lower_hex : string;
}.

Inductive InputAuthorityReceiptV0 :=
  | SyntheticFixture (receipt : SyntheticFixtureReceiptV0)
  | ProcessCapture (receipt : ProcessCaptureReceiptV0)
  | SanitizedDerivedCapture (receipt : SanitizedDerivedCaptureReceiptV0).

Record TrustedAdaptationContextV0 := mkTrusted {
  tx_context_format : string;
  tx_context_version : string;
  tx_expected_authority_commitment : string;
  tx_downstream_governance_policy : ArtifactBindingV0;
}.

Global Instance InodeIdentityV0_eq_dec : EqDecision InodeIdentityV0.
Proof. solve_decision. Defined.
Global Instance ArgvBytesV0_eq_dec : EqDecision ArgvBytesV0.
Proof. solve_decision. Defined.
Global Instance AssertedNonceSourceV0_eq_dec : EqDecision AssertedNonceSourceV0.
Proof. solve_decision. Defined.
Global Instance EmitterIdentityV0_eq_dec : EqDecision EmitterIdentityV0.
Proof. solve_decision. Defined.

Definition nonce_label (source : AssertedNonceSourceV0) : string :=
  match source with CaptureRandom => "capture-random" | FixedSyntheticTest => "fixed-synthetic-test" end.

Definition parent_label (parent : AssertedParentReceiptV0) : string :=
  match parent with
  | AssertedParentReceiptSyntheticFixtureCaptureRandom =>
      "asserted-parent-receipt-synthetic-fixture-capture-random"
  | AssertedParentReceiptSyntheticFixtureFixedSyntheticTest =>
      "asserted-parent-receipt-synthetic-fixture-fixed-synthetic-test"
  | AssertedParentReceiptProcessCaptureCaptureRandom =>
      "asserted-parent-receipt-process-capture-capture-random"
  end.

Definition mode_label (mode : FreshExecModeV0) : string :=
  match mode with FreshExecStructuredStdin => "fresh-exec-structured-stdin" end.
Definition profile_label (profile : CaptureProfileV0) : string :=
  match profile with UnixReadOnlyStdinJsonV0 => "unix-read-only-stdin-json-v0" end.

(** [EmitterIdentityV0::pinned] *)
Definition pinned : EmitterIdentityV0 :=
  mkEmitter CODEX_CLI_VERSION_V0 CODEX_SOURCE_TAG_V0 CODEX_SOURCE_TAG_OBJECT_SHA_V0 CODEX_SOURCE_COMMIT_SHA_V0.

(* ------------------------------------------------------------------ *)
(** ** Arguments *)

(** The loop of [from_arguments]: the total and the encoded arguments. *)
Definition add_argument (acc : Z * list string) (argument : string) : AdapterResultV0 (Z * list string) :=
  let '(total, encoded) := acc in
  if bool_decide (ascii_of_nat 0 ∈ bytes_of argument) || (MAX_ARGV_ARGUMENT_BYTES_V0 <? byte_len argument)%Z
  then Err receipt_shape
  else
    total ← ok_or (checked_add total (byte_len argument)) receipt_shape;
    if (MAX_ARGV_TOTAL_BYTES_V0 <? total)%Z then Err receipt_shape
    else Ok (total, encoded ++ [lower_hex_bytes argument]).

Definition from_arguments (arguments : list string) : AdapterResultV0 ArgvBytesV0 :=
  if (MAX_ARGV_ARGUMENTS_V0 <? vec_len arguments)%Z then Err receipt_shape
  else
    '(total, encoded) ← try_fold add_argument (0%Z, []) arguments;
    Ok (mkArgv (u64_lit (vec_len arguments)) encoded (u64_lit total)).

(** [ArgvBytesV0::decoded] *)
Definition argv_decoded (argv : ArgvBytesV0) : AdapterResultV0 (list string) :=
  arguments ← try_map decode_lower_hex (av_arguments_lower_hex argv);
  rebuilt ← from_arguments arguments;
  if negb (bool_decide (rebuilt = argv)) then Err receipt_shape else Ok arguments.

(* ------------------------------------------------------------------ *)
(** ** Checks of single values (receipt_validate.rs) *)

Definition check_shape (condition : bool) : AdapterResultV0 () :=
  if condition then Ok () else Err receipt_shape.

Definition receipt_validate_name (value : string) : AdapterResultV0 () := check_shape (ascii_name value).

Definition receipt_validate_sha256 (value : string) : AdapterResultV0 () :=
  check_shape
    (match strip_prefix "sha256:" value with
     | Some hex => (byte_len hex =? 64)%Z && bytes_all hex_byte hex
     | None => false
     end).

Definition receipt_validate_binding (binding : ArtifactBindingV0) : AdapterResultV0 () :=
  _ ← receipt_validate_name (ab_identity binding);
  _ ← check_shape (ascii_version (ab_version binding));
  receipt_validate_sha256 (ab_hash binding).

Definition validate_nonce (value : string) (provenance : AssertedNonceSourceV0) : AdapterResultV0 () :=
  check_shape
    (negb (negb (byte_len value =? 64)%Z || negb (bytes_all hex_byte value)
           || bool_decide (provenance = CaptureRandom) && bytes_all (λ byte, bool_decide (byte = "0"%char)) value)).

Definition validate_input_seal (value : ByteInputSealV0) : AdapterResultV0 () :=
  match value with SealAbsent => Ok () | SealPresent _ sha256 => receipt_validate_sha256 sha256 end.

Definition validate_termination_domain (value : ProcessTerminationV0) : AdapterResultV0 () :=
  match value with
  | Exited code => if (code <=? 125)%Z then Ok () else Err (adapter_error IllegalTermination)
  | Signaled signal _ =>
      if (1 <=? signal)%Z && (signal <=? 64)%Z then Ok () else Err (adapter_error IllegalTermination)
  end.

Definition emitter_validate (emitter : EmitterIdentityV0) : AdapterResultV0 () :=
  if negb (bool_decide (emitter = pinned)) then Err (adapter_error AdReceiptMismatch) else Ok ().

(** A condition that must not hold. *)
Definition reject_if (condition : bool) (code : AdapterErrorCodeV0) : AdapterResultV0 () :=
  if condition then Err (adapter_error code) else Ok ().

(* ------------------------------------------------------------------ *)
(** ** The workspace manifest (receipt_workspace.rs) *)

Definition WORKSPACE_TREE_DOMAIN_V0 : string := "legitimacy.codex-exec-v0.workspace-tree.v0".

(** [bytes.split(|byte| *byte == separator)] *)
Fixpoint split_bytes (separator : ascii) (bytes : string) : list string :=
  match bytes with
  | "" => [""]
  | String b bytes =>
      let parts := split_bytes separator bytes in
      if Ascii.eqb b separator then "" :: parts
      else match parts with part :: parts => String b part :: parts | [] => [String b ""] end
  end.

Definition bad_path_part (part : string) : bool :=
  String.eqb part "" || String.eqb part "." || String.eqb part ".." || bool_decide (ascii_of_nat 0 ∈ bytes_of part).

Definition manifest_entry_validate (entry : CaptureManifestEntryV0) : AdapterResultV0 () :=
  if negb (String.eqb (me_role entry) "fixture-input") || negb (String.eqb (me_format entry) "regular-file-bytes")
  then Err receipt_shape
  else
    _ ← receipt_validate_sha256 (me_sha256 entry);
    path ← decode_lower_hex (me_relative_path_lower_hex entry);
    if String.eqb path "" || (4096 <? byte_len path)%Z || starts_with path "/"
       || existsb bad_path_part (split_bytes "/" path)
    then Err receipt_shape
    else Ok ().

(** [CaptureManifestEntryV0::new] *)
Definition manifest_entry_new (ordinal : u64) (role format relative_path : string) (byte_length : u64)
    (sha256 : string) (inode : InodeIdentityV0) : AdapterResultV0 CaptureManifestEntryV0 :=
  let entry := mkManifestEntry ordinal role format (lower_hex_bytes relative_path) byte_length sha256 inode in
  _ ← manifest_entry_validate entry; Ok entry.

(** One iteration of [validate_order]. *)
Definition validate_order_at (entries : list CaptureManifestEntryV0) (indexed : nat * CaptureManifestEntryV0)
    : AdapterResultV0 () :=
  let '(index, entry) := indexed in
  _ ← manifest_entry_validate entry;
  if negb (u64_val (me_ordinal entry) =? Z.of_nat index)%Z
     || (0 <? index)
        && match entries !! (index - 1) with
           | Some previous =>
               bool_decide (String.le (me_relative_path_lower_hex entry) (me_relative_path_lower_hex previous))
           | None => false
           end
  then Err receipt_shape
  else if existsb (λ previous, bool_decide (me_inode previous = me_inode entry)) (take index entries)
  then Err receipt_shape
  else Ok ().

Definition validate_order (entries : list CaptureManifestEntryV0) : AdapterResultV0 () :=
  try_iter (validate_order_at entries) (enumerate entries).

Definition manifest_components (entry : CaptureManifestEntryV0) : list string :=
  [put_u64 (me_ordinal entry); me_role entry; me_format entry; me_relative_path_lower_hex entry;
   put_u64 (me_byte_length entry); me_sha256 entry; put_u64 (in_dev (me_inode entry)); put_u64 (in_ino (me_inode entry))].

(* ------------------------------------------------------------------ *)
(** ** Canonical bytes (receipt_canonical.rs) *)

Definition RECEIPT_COMMITMENT_DOMAIN_V0 : string := "legitimacy.codex-exec-v0.authority-commitment.v0".
Definition RECEIPT_MAGIC_V0 : string :=
  "legitimacy.codex-exec-v0.authority.canonical.v0" +:+ String (ascii_of_nat 0) "".

Definition field_string (name value : string) : string := put_string name +:+ put_string value.
Definition field_u64 (name : string) (value : u64) : string := put_string name +:+ put_u64 value.
Definition field_len (name : string) (value : Z) : string := put_string name +:+ put_len value.

Definition encode_common (format version class : string) : string :=
  field_string "receipt-format" format +:+ field_string "receipt-version" version +:+
  field_string "evidence-class" class.
Definition encode_emitter (value : EmitterIdentityV0) : string :=
  field_string "emitter-package-version" (em_package_version value) +:+
  field_string "emitter-source-tag" (em_source_tag value) +:+
  field_string "emitter-source-tag-object-sha" (em_source_tag_object_sha value) +:+
  field_string "emitter-source-commit-sha" (em_source_commit_sha value).
Definition encode_named_binding (name : string) (value : ArtifactBindingV0) : string :=
  put_string name +:+ put_string (ab_identity value) +:+ put_string (ab_version value) +:+ put_string (ab_hash value).
Definition encode_seal (name : string) (value : RawCaptureSealV0) : string :=
  put_string name +:+ put_u64 (rs_record_count value) +:+ put_string (rs_digest value).
Definition encode_inode (name : string) (value : InodeIdentityV0) : string :=
  put_string name +:+ put_u64 (in_dev value) +:+ put_u64 (in_ino value).
Definition push_byte (value : Z) : string := String (ascii_of_Z value) "".
Definition encode_input_seal (value : ByteInputSealV0) : string :=
  put_string "stdin" +:+
  match value with
  | SealAbsent => push_byte 0
  | SealPresent byte_length sha256 => push_byte 1 +:+ put_u64 byte_length +:+ put_string sha256
  end.
Definition encode_termination (value : ProcessTerminationV0) : string :=
  put_string "termination" +:+
  match value with
  | Exited code => push_byte 0 +:+ push_byte code
  | Signaled signal core_dumped => push_byte 1 +:+ push_byte signal +:+ push_byte (Z.b2z core_dumped)
  end.
Definition encode_stream (name : string) (value : ByteStreamSealV0) : string :=
  put_string name +:+ put_u64 (ss_byte_length value) +:+ put_string (ss_sha256 value).
Definition encode_release (name : string) (value : ReleaseArtifactV0) : string :=
  put_string name +:+ put_string (ra_name value) +:+ put_string (ra_sha256 value).
Definition encode_nonce (kind nonce : string) : string :=
  field_string "nonce-kind" kind +:+ field_string "blinding-nonce-lower-hex" nonce.
Definition encode_manifest_entry (entry : CaptureManifestEntryV0) : string :=
  put_u64 (me_ordinal entry) +:+ put_string (me_role entry) +:+ put_string (me_format entry) +:+
  put_string (me_relative_path_lower_hex entry) +:+ put_u64 (me_byte_length entry) +:+
  put_string (me_sha256 entry) +:+ put_u64 (in_dev (me_inode entry)) +:+ put_u64 (in_ino (me_inode entry)).

Definition encode_synthetic (r : SyntheticFixtureReceiptV0) : string :=
  field_string "authority" "synthetic-fixture" +:+
  encode_common (sy_receipt_format r) (sy_receipt_version r) (sy_evidence_class r) +:+
  encode_emitter (sy_emitter r) +:+
  field_u64 "full-jsonl-length" (sy_full_jsonl_length r) +:+
  field_string "full-jsonl-digest" (sy_full_jsonl_digest r) +:+
  field_u64 "raw-record-count" (sy_raw_record_count r) +:+
  encode_seal "raw-capture-seal" (sy_raw_capture_seal r) +:+
  encode_named_binding "fixture-spec-manifest" (sy_fixture_spec_manifest r) +:+
  encode_nonce (nonce_label (sy_asserted_nonce_source r)) (sy_blinding_nonce_lower_hex r).

Definition encode_process (r : ProcessCaptureReceiptV0) : string :=
  field_string "authority" "process-capture" +:+
  encode_common (pr_receipt_format r) (pr_receipt_version r) (pr_evidence_class r) +:+
  encode_emitter (pr_emitter r) +:+
  field_string "executable-sha256" (pr_executable_sha256 r) +:+
  encode_inode "executable-inode" (pr_executable_inode r) +:+
  field_string "executable-execution-binding" (pr_executable_execution_binding r) +:+
  field_string "artifact-open-discipline" (pr_artifact_open_discipline r) +:+
  field_string "workspace-execution-discipline" (pr_workspace_execution_discipline r) +:+
  field_u64 "argv-count" (av_argument_count (pr_argv r)) +:+
  field_u64 "argv-total-bytes" (av_total_bytes (pr_argv r)) +:+
  field_len "argv-arguments" (vec_len (av_arguments_lower_hex (pr_argv r))) +:+
  put_all put_string (av_arguments_lower_hex (pr_argv r)) +:+
  field_string "resolved-mode" (mode_label (pr_resolved_mode r)) +:+
  field_string "capture-profile" (profile_label (pr_capture_profile r)) +:+
  encode_input_seal (pr_stdin r) +:+
  encode_termination (pr_termination r) +:+
  encode_stream "stdout" (pr_stdout r) +:+
  encode_stream "stderr" (pr_stderr r) +:+
  field_u64 "raw-record-count" (pr_raw_record_count r) +:+
  encode_seal "raw-capture-seal" (pr_raw_capture_seal r) +:+
  encode_named_binding "capture-tool" (xa_identity (pr_capture_tool r)) +:+
  field_string "capture-tool-file-sha256" (xa_file_sha256 (pr_capture_tool r)) +:+
  encode_inode "capture-tool-inode" (xa_inode (pr_capture_tool r)) +:+
  encode_named_binding "capture-profile-artifact" (pr_capture_profile_artifact r) +:+
  field_len "workspace-manifest" (vec_len (pr_workspace_manifest r)) +:+
  put_all encode_manifest_entry (pr_workspace_manifest r) +:+
  field_string "workspace-tree-digest" (pr_workspace_tree_digest r) +:+
  encode_release "release-asset" (pr_release_asset r) +:+
  encode_release "sigstore-bundle" (pr_sigstore_bundle r) +:+
  field_string "sigstore-verification" (pr_sigstore_verification r) +:+
  encode_nonce (nonce_label (pr_asserted_nonce_source r)) (pr_blinding_nonce_lower_hex r).

Definition encode_derived (r : SanitizedDerivedCaptureReceiptV0) : string :=
  field_string "authority" "sanitized-derived-capture" +:+
  encode_common (dr_receipt_format r) (dr_receipt_version r) (dr_evidence_class r) +:+
  field_string "asserted-parent-receipt" (parent_label (dr_asserted_parent_receipt r)) +:+
  field_string "asserted-origin-evidence-class" (dr_asserted_origin_evidence_class r) +:+
  field_string "parent-receipt-commitment" (dr_parent_receipt_commitment r) +:+
  field_u64 "parent-full-jsonl-length" (dr_parent_full_jsonl_length r) +:+
  field_string "parent-full-jsonl-digest" (dr_parent_full_jsonl_digest r) +:+
  encode_seal "parent-raw-capture-seal" (dr_parent_raw_capture_seal r) +:+
  encode_named_binding "sanitizer-policy" (dr_sanitizer_policy r) +:+
  encode_named_binding "sanitizer-artifact" (dr_sanitizer_artifact r) +:+
  field_u64 "derived-full-jsonl-length" (dr_derived_full_jsonl_length r) +:+
  field_string "derived-full-jsonl-digest" (dr_derived_full_jsonl_digest r) +:+
  encode_seal "derived-raw-capture-seal" (dr_derived_raw_capture_seal r) +:+
  encode_nonce (nonce_label (dr_asserted_nonce_source r)) (dr_blinding_nonce_lower_hex r).

(** [InputAuthorityReceiptV0::canonical_bytes] *)
Definition authority_canonical_bytes (authority : InputAuthorityReceiptV0) : string :=
  RECEIPT_MAGIC_V0 +:+
  match authority with
  | SyntheticFixture r => encode_synthetic r
  | ProcessCapture r => encode_process r
  | SanitizedDerivedCapture r => encode_derived r
  end.

(* ------------------------------------------------------------------ *)
(** ** Accessors *)

Definition evidence_class (authority : InputAuthorityReceiptV0) : string :=
  match authority with
  | SyntheticFixture _ => "synthetic-fixture"
  | ProcessCapture _ => "genuine-process-capture"
  | SanitizedDerivedCapture _ => "sanitized-derived-capture"
  end.

Definition raw_seal (authority : InputAuthorityReceiptV0) : RawCaptureSealV0 :=
  match authority with
  | SyntheticFixture r => sy_raw_capture_seal r
  | ProcessCapture r => pr_raw_capture_seal r
  | SanitizedDerivedCapture r => dr_derived_raw_capture_seal r
  end.

Definition process_termination (authority : InputAuthorityReceiptV0) : option ProcessTerminationV0 :=
  match authority with
  | ProcessCapture r => Some (pr_termination r)
  | SyntheticFixture _ | SanitizedDerivedCapture _ => None
  end.

Definition authority_nonce_source (authority : InputAuthorityReceiptV0) : AssertedNonceSourceV0 :=
  match authority with
  | SyntheticFixture r => sy_asserted_nonce_source r
  | ProcessCapture r => pr_asserted_nonce_source r
  | SanitizedDerivedCapture r => dr_asserted_nonce_source r
  end.

Definition asserted_parent_receipt (authority : InputAuthorityReceiptV0) : AdapterResultV0 AssertedParentReceiptV0 :=
  match authority, authority_nonce_source authority with
  | SyntheticFixture _, CaptureRandom => Ok AssertedParentReceiptSyntheticFixtureCaptureRandom
  | SyntheticFixture _, FixedSyntheticTest => Ok AssertedParentReceiptSyntheticFixtureFixedSyntheticTest
  | ProcessCapture _, CaptureRandom => Ok AssertedParentReceiptProcessCaptureCaptureRandom
  | ProcessCapture _, FixedSyntheticTest | SanitizedDerivedCapture _, _ => Err (adapter_error UnsupportedAuthority)
  end.

(* ------------------------------------------------------------------ *)
(** ** The trusted context (receipt_context.rs) *)

Definition RESERVED_POLICY_NAMESPACES_V0 : list string :=
  ["legitimacy.codex-exec-v0."; "legitimacy.trajectory."; "derivation.codex-exec-v0."].

Definition validate_policy_identity (identity : string) : AdapterResultV0 () :=
  reject_if (existsb (starts_with identity) RESERVED_POLICY_NAMESPACES_V0) ReservedPolicy.

(** [TrustedAdaptationContextV0::new] *)
Definition trusted_new (expected_authority_commitment : string) (downstream_governance_policy : ArtifactBindingV0)
    : AdapterResultV0 TrustedAdaptationContextV0 :=
  _ ← receipt_validate_sha256 expected_authority_commitment;
  _ ← receipt_validate_binding downstream_governance_policy;
  _ ← validate_policy_identity (ab_identity downstream_governance_policy);
  Ok (mkTrusted "legitimacy.codex-exec-v0.trusted-adaptation-context" "0" expected_authority_commitment
        downstream_governance_policy).

(** The policy may not take the place of an artifact of the receipt. *)
Definition substitutes_assigned_role (authority : InputAuthorityReceiptV0) (identity : string) : bool :=
  match authority with
  | SyntheticFixture r => String.eqb identity (ab_identity (sy_fixture_spec_manifest r))
  | ProcessCapture r =>
      String.eqb identity (ab_identity (xa_identity (pr_capture_tool r)))
      || String.eqb identity (ab_identity (pr_capture_profile_artifact r))
  | SanitizedDerivedCapture r =>
      String.eqb identity (ab_identity (dr_sanitizer_policy r))
      || String.eqb identity (ab_identity (dr_sanitizer_artifact r))
  end.

Definition reject_dynamic_policy_substitution (authority : InputAuthorityReceiptV0) (policy : ArtifactBindingV0)
    : AdapterResultV0 () :=
  _ ← validate_policy_identity (ab_identity policy);
  reject_if (substitutes_assigned_role authority (ab_identity policy)) ReservedPolicy.

Section receipts.
Context `{Sha256, CompiledSources, JsonStream}.

(** [standard_sha256] (receipt_hex.rs) *)
Definition standard_sha256 (bytes : string) : string := "sha256:" +:+ sha256_lower_hex bytes.

Definition workspace_tree_digest (entries : list CaptureManifestEntryV0) : AdapterResultV0 string :=
  _ ← validate_order entries;
  Ok (framed_sha256 WORKSPACE_TREE_DOMAIN_V0 (concat (manifest_components <$> entries))).

(* ------------------------------------------------------------------ *)
(** ** Validation (receipt_validate.rs) *)

Definition synthetic_validate (r : SyntheticFixtureReceiptV0) : AdapterResultV0 () :=
  if negb (String.eqb (sy_receipt_format r) "legitimacy.codex-exec-v0.synthetic-fixture-receipt")
     || negb (String.eqb (sy_receipt_version r) "0")
     || negb (String.eqb (sy_evidence_class r) "synthetic-fixture")
     || negb (bool_decide (sy_raw_record_count r = rs_record_count (sy_raw_capture_seal r)))
  then Err receipt_shape
  else
    _ ← emitter_validate (sy_emitter r);
    _ ← receipt_validate_sha256 (sy_full_jsonl_digest r);
    _ ← receipt_validate_sha256 (rs_digest (sy_raw_capture_seal r));
    _ ← receipt_validate_binding (sy_fixture_spec_manifest r);
    _ ← reject_if (negb (bool_decide (sy_fixture_spec_manifest r = codex_exec_fixture_spec_binding_v0)))
          AdReceiptMismatch;
    validate_nonce (sy_blinding_nonce_lower_hex r) (sy_asserted_nonce_source r).

(** The inodes of the program, the tool and the workspace are apart. *)
Definition inode_clash (r : ProcessCaptureReceiptV0) : bool :=
  let tool := xa_inode (pr_capture_tool r) in
  bool_decide (pr_executable_inode r = tool)
  || existsb (λ entry, bool_decide (me_inode entry = pr_executable_inode r) || bool_decide (me_inode entry = tool))
       (pr_workspace_manifest r).

Definition release_mismatch (r : ProcessCaptureReceiptV0) : bool :=
  negb (String.eqb (ra_name (pr_release_asset r)) PROCESS_CAPTURE_RELEASE_NAME_V0)
  || negb (String.eqb (ra_sha256 (pr_release_asset r)) PROCESS_CAPTURE_RELEASE_SHA256_V0)
  || negb (String.eqb (ra_name (pr_sigstore_bundle r)) PROCESS_CAPTURE_SIGSTORE_NAME_V0)
  || negb (String.eqb (ra_sha256 (pr_sigstore_bundle r)) PROCESS_CAPTURE_SIGSTORE_SHA256_V0)
  || negb (String.eqb (pr_sigstore_verification r) "verified-sigstore-rekor"
           || String.eqb (pr_sigstore_verification r) "bundle-present-unverified").

Definition process_validate (r : ProcessCaptureReceiptV0) : AdapterResultV0 () :=
  if negb (String.eqb (pr_receipt_format r) "legitimacy.codex-exec-v0.process-capture-receipt")
     || negb (String.eqb (pr_receipt_version r) "0")
     || negb (String.eqb (pr_evidence_class r) "genuine-process-capture")
     || negb (bool_decide (pr_asserted_nonce_source r = CaptureRandom))
     || negb (bool_decide (pr_raw_record_count r = rs_record_count (pr_raw_capture_seal r)))
  then Err receipt_shape
  else
    _ ← emitter_validate (pr_emitter r);
    _ ← receipt_validate_sha256 (pr_executable_sha256 r);
    _ ← reject_if (negb (String.eqb (pr_executable_sha256 r) PROCESS_CAPTURE_EXECUTABLE_SHA256_V0)) AdReceiptMismatch;
    _ ← reject_if
          (negb (String.eqb (pr_executable_execution_binding r) "fexecve-held-fd")
           || negb (String.eqb (pr_artifact_open_discipline r) "held-fd-no-symlink")
           || negb (String.eqb (pr_workspace_execution_discipline r) "held-read-only-during-exec"))
          UnsupportedProfile;
    arguments ← argv_decoded (pr_argv r);
    _ ← reject_if (negb (bool_decide (arguments = PROCESS_CAPTURE_ARGV_V0))) UnsupportedProfile;
    _ ← reject_if (match pr_stdin r with SealPresent _ _ => false | SealAbsent => true end) UnsupportedProfile;
    _ ← validate_input_seal (pr_stdin r);
    _ ← receipt_validate_sha256 (ss_sha256 (pr_stdout r));
    _ ← receipt_validate_sha256 (ss_sha256 (pr_stderr r));
    _ ← receipt_validate_sha256 (rs_digest (pr_raw_capture_seal r));
    _ ← receipt_validate_binding (xa_identity (pr_capture_tool r));
    _ ← receipt_validate_sha256 (xa_file_sha256 (pr_capture_tool r));
    _ ← reject_if (negb (bool_decide (xa_identity (pr_capture_tool r) = codex_exec_capture_producer_binding_v0)))
          AdReceiptMismatch;
    _ ← receipt_validate_binding (pr_capture_profile_artifact r);
    _ ← reject_if (negb (bool_decide (pr_capture_profile_artifact r = codex_exec_capture_profile_binding_v0)))
          UnsupportedProfile;
    _ ← check_shape (negb (MAX_CAPTURE_MANIFEST_ENTRIES_V0 <? vec_len (pr_workspace_manifest r))%Z);
    _ ← validate_order (pr_workspace_manifest r);
    _ ← reject_if (inode_clash r) AdReceiptMismatch;
    _ ← receipt_validate_sha256 (pr_workspace_tree_digest r);
    digest ← workspace_tree_digest (pr_workspace_manifest r);
    _ ← reject_if (negb (String.eqb (pr_workspace_tree_digest r) digest)) AdReceiptMismatch;
    _ ← reject_if (release_mismatch r) AdReceiptMismatch;
    _ ← validate_nonce (pr_blinding_nonce_lower_hex r) CaptureRandom;
    validate_termination_domain (pr_termination r).

(** The origin, the asserted parent and the nonce agree. *)
Definition parent_consistent (r : SanitizedDerivedCaptureReceiptV0) : bool :=
  let origin := dr_asserted_origin_evidence_class r in
  match dr_asserted_parent_receipt r, dr_asserted_nonce_source r with
  | (AssertedParentReceiptSyntheticFixtureCaptureRandom
     | AssertedParentReceiptSyntheticFixtureFixedSyntheticTest), _ => String.eqb origin "synthetic-fixture"
  | AssertedParentReceiptProcessCaptureCaptureRandom, CaptureRandom => String.eqb origin "genuine-process-capture"
  | AssertedParentReceiptProcessCaptureCaptureRandom, FixedSyntheticTest => false
  end.

Definition derived_validate (r : SanitizedDerivedCaptureReceiptV0) : AdapterResultV0 () :=
  let origin := dr_asserted_origin_evidence_class r in
  if negb (String.eqb (dr_receipt_format r) "legitimacy.codex-exec-v0.sanitized-derived-capture-receipt")
     || negb (String.eqb (dr_receipt_version r) "0")
     || negb (String.eqb (dr_evidence_class r) "sanitized-derived-capture")
     || negb (String.eqb origin "synthetic-fixture" || String.eqb origin "genuine-process-capture")
     || negb (parent_consistent r)
  then Err receipt_shape
  else
    _ ← try_iter receipt_validate_sha256
          [dr_parent_receipt_commitment r; dr_parent_full_jsonl_digest r; rs_digest (dr_parent_raw_capture_seal r);
           dr_derived_full_jsonl_digest r; rs_digest (dr_derived_raw_capture_seal r)];
    _ ← receipt_validate_binding (dr_sanitizer_policy r);
    _ ← receipt_validate_binding (dr_sanitizer_artifact r);
    _ ← reject_if
          (negb (bool_decide (dr_sanitizer_policy r = codex_exec_sanitizer_policy_binding_v0))
           || negb (bool_decide (dr_sanitizer_artifact r = codex_exec_sanitizer_binding_v0)))
          AdReceiptMismatch;
    validate_nonce (dr_blinding_nonce_lower_hex r) (dr_asserted_nonce_source r).

Definition authority_validate (authority : InputAuthorityReceiptV0) : AdapterResultV0 () :=
  match authority with
  | SyntheticFixture r => synthetic_validate r
  | ProcessCapture r => process_validate r
  | SanitizedDerivedCapture r => derived_validate r
  end.

(** [InputAuthorityReceiptV0::commitment] *)
Definition commitment (authority : InputAuthorityReceiptV0) : string :=
  framed_sha256 RECEIPT_COMMITMENT_DOMAIN_V0 [authority_canonical_bytes authority].

(* ------------------------------------------------------------------ *)
(** ** Authorization *)

(** The receipt seals this capture. *)
Definition receipt_matches (authority : InputAuthorityReceiptV0) (framed : FramedCaptureV0) : bool :=
  let records := record_slices framed in
  let seal := raw_capture_seal_v0 records in
  let length := u64_lit (byte_len (fc_bytes framed)) in
  let digest := full_digest framed in
  match authority with
  | SyntheticFixture r =>
      bool_decide (sy_full_jsonl_length r = length) && String.eqb (sy_full_jsonl_digest r) digest
      && bool_decide (sy_raw_record_count r = u64_lit (vec_len records))
      && bool_decide (sy_raw_capture_seal r = seal)
  | ProcessCapture r =>
      bool_decide (ss_byte_length (pr_stdout r) = length)
      && String.eqb (ss_sha256 (pr_stdout r)) (standard_sha256 (fc_bytes framed))
      && bool_decide (pr_raw_record_count r = u64_lit (vec_len records))
      && bool_decide (pr_raw_capture_seal r = seal)
  | SanitizedDerivedCapture r =>
      bool_decide (dr_derived_full_jsonl_length r = length)
      && String.eqb (dr_derived_full_jsonl_digest r) digest
      && bool_decide (dr_derived_raw_capture_seal r = seal)
  end.

Definition authorize (authority : InputAuthorityReceiptV0) (framed : FramedCaptureV0)
    (trusted : TrustedAdaptationContextV0) : AdapterResultV0 () :=
  _ ← authority_validate authority;
  _ ← reject_dynamic_policy_substitution authority (tx_downstream_governance_policy trusted);
  _ ← reject_if (negb (String.eqb (commitment authority) (tx_expected_authority_commitment trusted)))
        TrustedContextMismatch;
  reject_if (negb (receipt_matches authority framed)) AdReceiptMismatch.

(* ------------------------------------------------------------------ *)
(** ** New receipts *)

(** [SyntheticFixtureReceiptV0::with_nonce] *)
Definition synthetic_with_nonce (jsonl : string) (fixture_spec_manifest : ArtifactBindingV0) (nonce : NonceMaterialV0)
    : AdapterResultV0 SyntheticFixtureReceiptV0 :=
  framed ← parse_owned jsonl;
  let records := record_slices framed in
  Ok (mkSynthetic "legitimacy.codex-exec-v0.synthetic-fixture-receipt" "0" "synthetic-fixture" pinned
        (u64_lit (byte_len jsonl)) (full_digest framed) (u64_lit (vec_len records)) (raw_capture_seal_v0 records)
        fixture_spec_manifest (nm_asserted_source nonce) (lower_hex_bytes (nm_bytes nonce))).

Record ObservedProcessCaptureV0 := mkObserved {
  ob_executable_sha256 : string;
  ob_executable_inode : InodeIdentityV0;
  ob_stdin : string;
  ob_termination : ProcessTerminationV0;
  ob_stdout : string;
  ob_stderr : string;
  ob_capture_tool_file_sha256 : string;
  ob_capture_tool_inode : InodeIdentityV0;
}.

Definition stream_seal (bytes : string) : ByteStreamSealV0 :=
  mkStreamSeal (u64_lit (byte_len bytes)) (standard_sha256 bytes).

(** [from_observed_process], with what [capture_random] returns. *)
Definition from_observed_process (observed : ObservedProcessCaptureV0) (random : AdapterResultV0 NonceMaterialV0)
    : AdapterResultV0 InputAuthorityReceiptV0 :=
  framed ← parse_owned (ob_stdout observed);
  let records := record_slices framed in
  nonce ← random;
  argv ← from_arguments PROCESS_CAPTURE_ARGV_V0;
  tree_digest ← workspace_tree_digest [];
  let receipt :=
    mkProcess "legitimacy.codex-exec-v0.process-capture-receipt" "0" "genuine-process-capture" pinned
      (ob_executable_sha256 observed) (ob_executable_inode observed) "fexecve-held-fd" "held-fd-no-symlink"
      "held-read-only-during-exec" argv FreshExecStructuredStdin UnixReadOnlyStdinJsonV0
      (SealPresent (u64_lit (byte_len (ob_stdin observed))) (standard_sha256 (ob_stdin observed)))
      (ob_termination observed) (stream_seal (ob_stdout observed)) (stream_seal (ob_stderr observed))
      (u64_lit (vec_len records)) (raw_capture_seal_v0 records)
      (mkExecuted codex_exec_capture_producer_binding_v0 (ob_capture_tool_file_sha256 observed)
         (ob_capture_tool_inode observed))
      codex_exec_capture_profile_binding_v0 [] tree_digest
      (mkRelease PROCESS_CAPTURE_RELEASE_NAME_V0 PROCESS_CAPTURE_RELEASE_SHA256_V0)
      (mkRelease PROCESS_CAPTURE_SIGSTORE_NAME_V0 PROCESS_CAPTURE_SIGSTORE_SHA256_V0)
      "bundle-present-unverified" (nm_asserted_source nonce) (lower_hex_bytes (nm_bytes nonce)) in
  _ ← process_validate receipt;
  Ok (ProcessCapture receipt).

Record DerivedReceiptInputsV0 := mkDerivedInputs {
  di_asserted_origin_evidence_class : string;
  di_asserted_parent_receipt : AssertedParentReceiptV0;
  di_parent_receipt_commitment : string;
  di_parent_full_jsonl_length : u64;
  di_parent_full_jsonl_digest : string;
  di_parent_raw_capture_seal : RawCaptureSealV0;
  di_sanitizer_policy : ArtifactBindingV0;
  di_sanitizer_artifact : ArtifactBindingV0;
}.

(** [SanitizedDerivedCaptureReceiptV0::new] *)
Definition derived_receipt_new (inputs : DerivedReceiptInputsV0) (derived : FramedCaptureV0) (nonce : NonceMaterialV0)
    : SanitizedDerivedCaptureReceiptV0 :=
  let records := record_slices derived in
  mkDerivedReceipt "legitimacy.codex-exec-v0.sanitized-derived-capture-receipt" "0" "sanitized-derived-capture"
    (di_asserted_origin_evidence_class inputs) (di_asserted_parent_receipt inputs)
    (di_parent_receipt_commitment inputs) (di_parent_full_jsonl_length inputs) (di_parent_full_jsonl_digest inputs)
    (di_parent_raw_capture_seal inputs) (di_sanitizer_policy inputs) (di_sanitizer_artifact inputs)
    (u64_lit (byte_len (fc_bytes derived))) (full_digest derived) (raw_capture_seal_v0 records)
    (nm_asserted_source nonce) (lower_hex_bytes (nm_bytes nonce)).
End receipts.
