(* ===== verification/CodexReceiptSpec.v ===== *)
(** * Receipts commit to what they say

    Hexadecimal text has one spelling; a validated receipt is representable, so
    that equal commitments come from equal receipts; and a receipt made for
    a capture authorizes that capture. *)

From S2P Require Import Prelude Encoding Trajectory F64 Errors JsonScan JsonScanSpec WireJson TraceValidation TraceCanonical TraceValidationSpec TraceBudgetSpec TraceSpec Replay ReplayAuthority ReplaySpec AuthoritySpec CodexEvent CodexMapping CodexFraming CodexStream CodexReceipt.
From Stdlib Require Import Ascii.
From stdpp Require Import options.

(* ------------------------------------------------------------------ *)
(** ** Hexadecimal text *)

Lemma receipt_nibble_hex byte :
  receipt_nibble byte = match hex_nibble byte with Ok n => Ok n | Err _ => Err receipt_shape end.
Proof. unfold receipt_nibble, hex_nibble. by repeat case_match. Qed.

Lemma decode_chunks_pairs_strong n hex :
  String.length hex ≤ n →
  decode_chunks hex = match decode_pairs hex with Ok bytes => Ok bytes | Err _ => Err receipt_shape end.
Proof.
  revert hex. induction n as [|n IH]; intros [|a [|b hex]] Hl; simpl in Hl; try done; try lia.
  cbn [decode_chunks decode_pairs]. rewrite !receipt_nibble_hex.
  destruct (hex_nibble a); [|done]. cbn [mbind Result_bind]. destruct (hex_nibble b); [|done]. cbn [mbind Result_bind].
  rewrite IH by lia. by destruct (decode_pairs hex).
Qed.

(** Bytes have one spelling in lowercase hexadecimal. *)
Lemma decode_lower_hex_Ok hex bytes : decode_lower_hex hex = Ok bytes ↔ hex = lower_hex_bytes bytes.
Proof.
  unfold decode_lower_hex, lower_hex_bytes. rewrite (decode_chunks_pairs_strong (String.length hex)) by done. split.
  - destruct (Z.eqb_spec (byte_len hex mod 2) 0) as [Hm|]; [|done]. cbn [negb].
    destruct (decode_pairs hex) as [bytes'|] eqn:Hd; [|done]. intros [= <-].
    apply (encode_decode_pairs (String.length hex / 2)); [|done].
    unfold byte_len in Hm. pose proof (Nat.div_mod_eq (String.length hex) 2).
    assert (String.length hex mod 2 = 0); [|lia].
    apply Nat2Z.inj. by rewrite Nat2Z.inj_mod.
  - intros ->. rewrite decode_pairs_encode. unfold byte_len. rewrite pairs_length, Nat2Z.inj_mul.
    change (Z.of_nat 2) with 2%Z. by rewrite Z.mul_comm, Z_mod_mult.
Qed.

Lemma lower_hex_digits bytes : bytes_all hex_byte (lower_hex_bytes bytes) = true.
Proof.
  unfold bytes_all, lower_hex_bytes. induction bytes as [|c bytes IH]; [done|].
  change (bytes_of (String c bytes)) with (c :: bytes_of bytes). rewrite put_all_cons, bytes_of_app, forallb_app, IH, andb_true_r.
  by destruct c as [[] [] [] [] [] [] [] []].
Qed.

(* ------------------------------------------------------------------ *)
(** ** Pieces of the canonical bytes *)

Definition emitter_fits (e : EmitterIdentityV0) : Prop :=
  fits (em_package_version e) ∧ fits (em_source_tag e) ∧ fits (em_source_tag_object_sha e) ∧
  fits (em_source_commit_sha e).
Definition input_seal_fits (s : ByteInputSealV0) : Prop :=
  match s with SealAbsent => True | SealPresent _ sha256 => fits sha256 end.
(** The values of a [u8]. *)
Definition byte_value (z : Z) : Prop := (0 ≤ z < 256)%Z.
Definition termination_fits (t : ProcessTerminationV0) : Prop :=
  match t with Exited code => byte_value code | Signaled signal _ => byte_value signal end.
Definition manifest_fits (e : CaptureManifestEntryV0) : Prop :=
  fits (me_role e) ∧ fits (me_format e) ∧ fits (me_relative_path_lower_hex e) ∧ fits (me_sha256 e).

Lemma field_string_delimited name : Delimited (field_string name) (λ v, fits name ∧ fits v).
Proof.
  intros x y s t [? ?] [? ?] He. unfold field_string in He. do 2 (peel He; [|done..]). by subst.
Qed.
#[export] Existing Instance field_string_delimited.

Lemma field_u64_delimited name : Delimited (field_u64 name) (λ _, fits name).
Proof. intros x y s t ? ? He. unfold field_u64 in He. do 2 (peel He; [|done..]). by subst. Qed.
#[export] Existing Instance field_u64_delimited.

Lemma encode_emitter_delimited : Delimited encode_emitter emitter_fits.
Proof.
  intros [a b c d] [a' b' c' d'] s t (? & ? & ? & ?) (? & ? & ? & ?) He; simpl in *. unfold encode_emitter in He; simpl in He.
  do 4 (peel He; [|done..]). by subst.
Qed.
#[export] Existing Instance encode_emitter_delimited.

Lemma encode_named_binding_delimited name : Delimited (encode_named_binding name) (λ b, fits name ∧ binding_fits b).
Proof.
  intros [i v h] [i' v' h'] s t (? & ? & ? & ?) (? & ? & ? & ?) He; simpl in *. unfold encode_named_binding in He; simpl in He.
  do 4 (peel He; [|done..]). by subst.
Qed.
#[export] Existing Instance encode_named_binding_delimited.

Lemma encode_seal_delimited name : Delimited (encode_seal name) (λ v, fits name ∧ fits (rs_digest v)).
Proof.
  intros [n d] [n' d'] s t [? ?] [? ?] He; simpl in *. unfold encode_seal in He; simpl in He.
  do 3 (peel He; [|done..]). by subst.
Qed.
#[export] Existing Instance encode_seal_delimited.

Lemma encode_inode_delimited name : Delimited (encode_inode name) (λ _, fits name).
Proof.
  intros [n d] [n' d'] s t ? ? He; simpl in *. unfold encode_inode in He; simpl in He.
  do 3 (peel He; [|done..]). by subst.
Qed.
#[export] Existing Instance encode_inode_delimited.

Lemma encode_stream_delimited name : Delimited (encode_stream name) (λ v, fits name ∧ fits (ss_sha256 v)).
Proof.
  intros [n d] [n' d'] s t [? ?] [? ?] He; simpl in *. unfold encode_stream in He; simpl in He.
  do 3 (peel He; [|done..]). by subst.
Qed.
#[export] Existing Instance encode_stream_delimited.

Lemma encode_release_delimited name :
  Delimited (encode_release name) (λ v, fits name ∧ fits (ra_name v) ∧ fits (ra_sha256 v)).
Proof.
  intros [n d] [n' d'] s t (? & ? & ?) (? & ? & ?) He; simpl in *. unfold encode_release in He; simpl in He.
  do 3 (peel He; [|done..]). by subst.
Qed.
#[export] Existing Instance encode_release_delimited.

Lemma push_byte_inj a b s t : byte_value a → byte_value b → push_byte a +:+ s = push_byte b +:+ t → a = b ∧ s = t.
Proof.
  unfold push_byte, byte_value. intros Ha Hb H. rewrite !string_app_cons in H. apply tag_delimits in H as [H Hs].
  split; [|exact Hs]. apply ascii_of_Z_inj in H. rewrite !Z.mod_small in H; lia.
Qed.

Lemma encode_input_seal_delimited : Delimited encode_input_seal input_seal_fits.
Proof.
  intros x y s t Hx Hy He. unfold encode_input_seal in He. peel He; [|done..]. clear Heq.
  destruct x as [|n h], y as [|n' h']; rewrite ?string_app_assoc in He; apply push_byte_inj in He as [Ht He]; try done; simpl in *.
  do 2 (peel He; [|done..]). by subst.
Qed.
#[export] Existing Instance encode_input_seal_delimited.

Lemma encode_termination_delimited : Delimited encode_termination termination_fits.
Proof.
  intros x y s t Hx Hy He. unfold encode_termination in He. peel He; [|done..]. clear Heq.
  destruct x as [c|n d], y as [c'|n' d']; rewrite ?string_app_assoc in He; apply push_byte_inj in He as [Ht He]; try done; simpl in *.
  - apply push_byte_inj in He as [-> ->]; done.
  - apply push_byte_inj in He as [-> He]; [|done..]. apply push_byte_inj in He as [Hd ->]; [|unfold byte_value; destruct d, d'; simpl; lia..].
    split; [|done]. f_equal. by destruct d, d'.
Qed.
#[export] Existing Instance encode_termination_delimited.

Lemma encode_manifest_entry_delimited : Delimited encode_manifest_entry manifest_fits.
Proof.
  intros [a b c d e f [g h]] [a' b' c' d' e' f' [g' h']] s t (? & ? & ? & ?) (? & ? & ? & ?) He; simpl in *.
  unfold encode_manifest_entry in He; simpl in He. do 8 (peel He; [|done..]). by subst.
Qed.
#[export] Existing Instance encode_manifest_entry_delimited.

(** A named sequence is a name and a length-prefixed list. *)
Lemma field_len_list {A} (enc : A → string) name l s :
  field_len name (vec_len l) +:+ (put_all enc l +:+ s) = put_string name +:+ (put_list enc l +:+ s).
Proof. unfold field_len, put_list. by rewrite !string_app_assoc. Qed.

Lemma encode_nonce_delimits k k' n n' s t :
  fits k → fits k' → fits n → fits n' → encode_nonce k n +:+ s = encode_nonce k' n' +:+ t → k = k' ∧ n = n' ∧ s = t.
Proof. intros ? ? ? ? He. unfold encode_nonce in He. do 2 (peel He; [|done..]). done. Qed.

Lemma encode_common_delimits f v c f' v' c' s t :
  fits f ∧ fits v ∧ fits c → fits f' ∧ fits v' ∧ fits c' →
  encode_common f v c +:+ s = encode_common f' v' c' +:+ t → f = f' ∧ v = v' ∧ c = c' ∧ s = t.
Proof. intros (? & ? & ?) (? & ? & ?) He. unfold encode_common in He. do 3 (peel He; [|done..]). done. Qed.

(* ------------------------------------------------------------------ *)
(** ** Receipts *)

Record synthetic_fits (r : SyntheticFixtureReceiptV0) : Prop := {
  sf_common : fits (sy_receipt_format r) ∧ fits (sy_receipt_version r) ∧ fits (sy_evidence_class r);
  sf_emitter : emitter_fits (sy_emitter r);
  sf_digest : fits (sy_full_jsonl_digest r);
  sf_seal : fits (rs_digest (sy_raw_capture_seal r));
  sf_manifest : binding_fits (sy_fixture_spec_manifest r);
  sf_nonce : fits (sy_blinding_nonce_lower_hex r);
}.

Record process_fits (r : ProcessCaptureReceiptV0) : Prop := {
  pf_common : fits (pr_receipt_format r) ∧ fits (pr_receipt_version r) ∧ fits (pr_evidence_class r);
  pf_emitter : emitter_fits (pr_emitter r);
  pf_executable : fits (pr_executable_sha256 r);
  pf_disciplines : fits (pr_executable_execution_binding r) ∧ fits (pr_artifact_open_discipline r) ∧
    fits (pr_workspace_execution_discipline r);
  pf_argv : fits_len (vec_len (av_arguments_lower_hex (pr_argv r))) ∧ Forall fits (av_arguments_lower_hex (pr_argv r));
  pf_stdin : input_seal_fits (pr_stdin r);
  pf_termination : termination_fits (pr_termination r);
  pf_streams : fits (ss_sha256 (pr_stdout r)) ∧ fits (ss_sha256 (pr_stderr r));
  pf_seal : fits (rs_digest (pr_raw_capture_seal r));
  pf_tool : binding_fits (xa_identity (pr_capture_tool r)) ∧ fits (xa_file_sha256 (pr_capture_tool r));
  pf_profile : binding_fits (pr_capture_profile_artifact r);
  pf_workspace : fits_len (vec_len (pr_workspace_manifest r)) ∧ Forall manifest_fits (pr_workspace_manifest r);
  pf_tree : fits (pr_workspace_tree_digest r);
  pf_releases : fits (ra_name (pr_release_asset r)) ∧ fits (ra_sha256 (pr_release_asset r)) ∧
    fits (ra_name (pr_sigstore_bundle r)) ∧ fits (ra_sha256 (pr_sigstore_bundle r));
  pf_sigstore : fits (pr_sigstore_verification r);
  pf_nonce : fits (pr_blinding_nonce_lower_hex r);
}.

Record derived_fits (r : SanitizedDerivedCaptureReceiptV0) : Prop := {
  df_common : fits (dr_receipt_format r) ∧ fits (dr_receipt_version r) ∧ fits (dr_evidence_class r);
  df_origin : fits (dr_asserted_origin_evidence_class r);
  df_commitment : fits (dr_parent_receipt_commitment r);
  df_parent : fits (dr_parent_full_jsonl_digest r) ∧ fits (rs_digest (dr_parent_raw_capture_seal r));
  df_sanitizer : binding_fits (dr_sanitizer_policy r) ∧ binding_fits (dr_sanitizer_artifact r);
  df_derived : fits (dr_derived_full_jsonl_digest r) ∧ fits (rs_digest (dr_derived_raw_capture_seal r));
  df_nonce : fits (dr_blinding_nonce_lower_hex r);
}.

Definition authority_fits (authority : InputAuthorityReceiptV0) : Prop :=
  match authority with
  | SyntheticFixture r => synthetic_fits r
  | ProcessCapture r => process_fits r
  | SanitizedDerivedCapture r => derived_fits r
  end.

Lemma nonce_label_fits n : fits (nonce_label n).
Proof. by destruct n. Qed.
Lemma nonce_label_inj n n' : nonce_label n = nonce_label n' → n = n'.
Proof. by destruct n, n'. Qed.
Lemma parent_label_fits n : fits (parent_label n).
Proof. by destruct n. Qed.
Lemma parent_label_inj n n' : parent_label n = parent_label n' → n = n'.
Proof. by destruct n, n'. Qed.
Lemma mode_label_fits m : fits (mode_label m).
Proof. by destruct m. Qed.
Lemma profile_label_fits p : fits (profile_label p).
Proof. by destruct p. Qed.
#[export] Hint Resolve nonce_label_fits parent_label_fits mode_label_fits profile_label_fits : legit.

(** Pieces that are known to fit come off. *)
Ltac peel_fit H := peel H; [|split_and?; first [done|by auto with legit]..].

Lemma encode_synthetic_inj r r' s t :
  synthetic_fits r → synthetic_fits r' → encode_synthetic r +:+ s = encode_synthetic r' +:+ t → r = r'.
Proof.
  intros [] [] He. unfold encode_synthetic in He. peel He; [|done..]. clear Heq.
  rewrite ?string_app_assoc in He. apply encode_common_delimits in He as (? & ? & ? & He); [|done..].
  do 6 (peel He; [|done..]). apply encode_nonce_delimits in He as (Hn & ? & _); [|auto with legit..].
  apply nonce_label_inj in Hn. destruct r, r'; simpl in *. by subst.
Qed.

Lemma encode_derived_inj r r' s t :
  derived_fits r → derived_fits r' → encode_derived r +:+ s = encode_derived r' +:+ t → r = r'.
Proof.
  intros [? ? ? [? ?] [? ?] [? ?] ?] [? ? ? [? ?] [? ?] [? ?] ?] He. unfold encode_derived in He. peel He; [|done..]. clear Heq.
  rewrite ?string_app_assoc in He. apply encode_common_delimits in He as (? & ? & ? & He); [|done..].
  peel He; [|by split; [|auto with legit]..]. apply parent_label_inj in Heq.
  do 10 (peel He; [|done..]). apply encode_nonce_delimits in He as (Hn & ? & _); [|auto with legit..].
  apply nonce_label_inj in Hn. destruct r, r'; simpl in *. by subst.
Qed.

Lemma encode_process_inj r r' s t :
  process_fits r → process_fits r' → encode_process r +:+ s = encode_process r' +:+ t → r = r'.
Proof.
  intros [] [] He. destruct_and!. unfold encode_process in He. peel He; [|done..]. clear Heq.
  rewrite ?string_app_assoc in He. apply encode_common_delimits in He as (? & ? & ? & He); [|done..].
  do 8 (peel_fit He). rewrite ?string_app_assoc, !field_len_list in He. do 20 (peel_fit He).
  apply encode_nonce_delimits in He as (Hn & ? & _); [|auto with legit..]. apply nonce_label_inj in Hn.
  destruct r as [? ? ? ? ? ? ? ? ? [] [] [] ? ? ? ? ? ? [] ? ? ? ? ? ? ? ?], r' as [? ? ? ? ? ? ? ? ? [] [] [] ? ? ? ? ? ? [] ? ? ? ? ? ? ? ?];
    simpl in *. by subst.
Qed.

(** The authority label keeps the kinds apart. *)
Lemma authority_label_clash a b s t :
  fits a → fits b → a ≠ b → field_string "authority" a +:+ s ≠ field_string "authority" b +:+ t.
Proof. intros ? ? Hne He. by peel_fit He. Qed.

Lemma authority_canonical_bytes_inj a b :
  authority_fits a → authority_fits b → authority_canonical_bytes a = authority_canonical_bytes b → a = b.
Proof.
  intros Ha Hb H. unfold authority_canonical_bytes in H. apply string_app_inj in H as [_ H]; [|done].
  destruct a as [r|r|r], b as [r'|r'|r']; cbn [authority_fits] in *;
    try (exfalso; unfold encode_synthetic, encode_process, encode_derived in H; by apply authority_label_clash in H).
  - f_equal. apply (encode_synthetic_inj r r' "" ""); [done..|]. by rewrite H.
  - f_equal. apply (encode_process_inj r r' "" ""); [done..|]. by rewrite H.
  - f_equal. apply (encode_derived_inj r r' "" ""); [done..|]. by rewrite H.
Qed.

(* ------------------------------------------------------------------ *)
(** ** Validation *)

Lemma check_shape_Ok b : check_shape b = Ok () ↔ b = true.
Proof. by destruct b. Qed.

Lemma receipt_reject_if_Ok b code : reject_if b code = Ok () ↔ b = false.
Proof. by destruct b. Qed.

Lemma adapter_unit_bind_Ok {A} (r : AdapterResultV0 ()) (k : AdapterResultV0 A) a :
  (_ ← r; k) = Ok a ↔ r = Ok () ∧ k = Ok a.
Proof. destruct r as [[]|e]; simpl; naive_solver. Qed.

Lemma receipt_validate_sha256_Ok value : receipt_validate_sha256 value = Ok () ↔ valid_digest value.
Proof.
  unfold receipt_validate_sha256. rewrite check_shape_Ok. rewrite <-(validate_digest_Ok ""). unfold validate_digest.
  destruct (strip_prefix _ _) as [hex|]; [|done].
  destruct (byte_len hex =? 64)%Z, (bytes_all hex_byte hex); done.
Qed.

Lemma receipt_validate_binding_Ok b : receipt_validate_binding b = Ok () ↔ valid_binding b.
Proof.
  unfold receipt_validate_binding, receipt_validate_name, valid_binding.
  by rewrite !adapter_unit_bind_Ok, !check_shape_Ok, receipt_validate_sha256_Ok.
Qed.

(** A nonce is 32 bytes in hexadecimal; a random one is not zero. *)
Lemma validate_nonce_fits value source : validate_nonce value source = Ok () → fits value.
Proof.
  unfold validate_nonce. rewrite check_shape_Ok, negb_true_iff, !orb_false_iff, !negb_false_iff, Z.eqb_eq.
  intros [[Hl _] _]. unfold fits, fits_len. lia.
Qed.

Lemma string_small value (n : Z) : (byte_len value ≤ n)%Z → (n < 2 ^ 64)%Z → fits value.
Proof. unfold fits, fits_len. lia. Qed.

Lemma pinned_fits e : emitter_validate e = Ok () → emitter_fits e.
Proof. unfold emitter_validate. case_bool_decide as He; [|done]. by subst e. Qed.

Lemma eqb_fits (s t : string) : negb (String.eqb s t) = false → fits t → fits s.
Proof. intros H%negb_false_iff%String.eqb_eq. by rewrite H. Qed.

Lemma lower_hex_length bytes : byte_len (lower_hex_bytes bytes) = (2 * byte_len bytes)%Z.
Proof. unfold byte_len, lower_hex_bytes. rewrite pairs_length. lia. Qed.

Lemma manifest_entry_fits e : manifest_entry_validate e = Ok () → manifest_fits e.
Proof.
  unfold manifest_entry_validate. destruct (_ || _) eqn:Hr; [done|]. apply orb_false_iff in Hr as [Hrole Hformat].
  rewrite adapter_unit_bind_Ok, receipt_validate_sha256_Ok. intros [Hd Hp].
  apply bind_Ok in Hp as (path & Hpath & Hp).
  apply decode_lower_hex_Ok in Hpath. destruct (_ || _) eqn:Hb in Hp; [done|]. rewrite !orb_false_iff in Hb.
  destruct Hb as [[[_ Hl%Z.ltb_ge] _] _]. split_and!.
  - by eapply eqb_fits.
  - by eapply eqb_fits.
  - rewrite Hpath. apply (string_small _ 8192); [rewrite lower_hex_length; lia|done].
  - by apply valid_digest_fits.
Qed.

Lemma validate_order_entries entries : validate_order entries = Ok () → Forall (λ e, manifest_entry_validate e = Ok ()) entries.
Proof.
  unfold validate_order. rewrite try_iter_Ok, !Forall_forall. intros H e He.
  apply list_elem_of_lookup in He as [i Hi]. specialize (H (i, e) (proj2 (elem_of_enumerate _ _ _) Hi)).
  unfold validate_order_at in H. by apply adapter_unit_bind_Ok in H as [H _].
Qed.

Lemma argv_decoded_hex argv arguments :
  argv_decoded argv = Ok arguments → av_arguments_lower_hex argv = lower_hex_bytes <$> arguments.
Proof.
  unfold argv_decoded. intros H. apply bind_Ok in H as (args & Hargs & H). apply bind_Ok in H as (rebuilt & _ & H).
  destruct (negb _); [done|]. injection H as ->. apply try_map_Ok_Forall2 in Hargs.
  induction Hargs as [|x y l k Hx _ IH]; [done|]. cbn. f_equal; [by apply decode_lower_hex_Ok|done].
Qed.

Section validation.
Context `{Sha : Sha256, Sources : CompiledSources, Stream : JsonStream}.

Lemma synthetic_validate_fits r : synthetic_validate r = Ok () → synthetic_fits r.
Proof using Type.
  unfold synthetic_validate. destruct (_ || _) eqn:Hc; [done|]. rewrite !orb_false_iff in Hc.
  destruct Hc as [[[? ?] ?] _].
  rewrite !adapter_unit_bind_Ok, !receipt_validate_sha256_Ok, receipt_validate_binding_Ok.
  intros (? & ? & ? & ? & _ & ?). split; [split_and!; by eapply eqb_fits|by apply pinned_fits|..];
    eauto using valid_digest_fits, valid_binding_fits, validate_nonce_fits.
Qed.

Lemma derived_validate_fits r : derived_validate r = Ok () → derived_fits r.
Proof using Type.
  unfold derived_validate. destruct (_ || _) eqn:Hc; [done|]. rewrite !orb_false_iff in Hc.
  destruct Hc as [[[[? ?] ?] Ho] _].
  rewrite !adapter_unit_bind_Ok, try_iter_Ok, !receipt_validate_binding_Ok, !Forall_cons, !receipt_validate_sha256_Ok.
  intros ((? & ? & ? & ? & ? & _) & ? & ? & _ & ?).
  split; [split_and!; by eapply eqb_fits| |..]; eauto using valid_digest_fits, valid_binding_fits, validate_nonce_fits.
  apply negb_false_iff, orb_true_iff in Ho as [Ho%String.eqb_eq|Ho%String.eqb_eq]; by rewrite Ho.
Qed.

Lemma process_validate_fits r : process_validate r = Ok () → termination_fits (pr_termination r) → process_fits r.
Proof using Type.
  unfold process_validate. destruct (_ || _) eqn:Hc; [done|]. rewrite !orb_false_iff in Hc.
  destruct Hc as [[[[? ?] ?] _] _]. intros Hval Ht.
  repeat (rewrite adapter_unit_bind_Ok in Hval; destruct Hval as [?Hv Hval]).
  apply bind_Ok in Hval as (arguments & Hargv%argv_decoded_hex & Hval).
  repeat (rewrite adapter_unit_bind_Ok in Hval; destruct Hval as [?Hv Hval]).
  apply bind_Ok in Hval as (digest & _ & Hval).
  repeat (rewrite adapter_unit_bind_Ok in Hval; destruct Hval as [?Hv Hval]).
  rewrite ?receipt_validate_sha256_Ok, ?receipt_validate_binding_Ok, ?receipt_reject_if_Ok, ?check_shape_Ok in *.
  repeat match goal with H : _ || _ = false |- _ => apply orb_false_iff in H as [??] end.
  apply negb_false_iff, bool_decide_eq_true in Hv3. subst arguments.
  apply negb_true_iff, Z.ltb_ge in Hv14.
  unfold release_mismatch in Hv19. rewrite !orb_false_iff in Hv19. destruct Hv19 as [[[[? ?] ?] ?] Hsig].
  split; try (split_and?; by eapply eqb_fits); eauto using valid_digest_fits, valid_binding_fits, validate_nonce_fits, pinned_fits.
  - rewrite Hargv. split; [done|]. by repeat apply Forall_cons_2.
  - destruct (pr_stdin r); [done|]. cbn in *. rewrite receipt_validate_sha256_Ok in Hv5. by apply valid_digest_fits.
  - split; [unfold fits_len, MAX_CAPTURE_MANIFEST_ENTRIES_V0 in *; lia|].
    apply validate_order_entries in Hv15. eapply Forall_impl; [exact Hv15|]. apply manifest_entry_fits.
  - apply negb_false_iff, orb_true_iff in Hsig as [Hsig%String.eqb_eq|Hsig%String.eqb_eq]; by rewrite Hsig.
Qed.

(** Representable terminations are a matter of types; everything else that is
    committed to is bounded by the validation. *)
Lemma authority_validate_fits authority :
  authority_validate authority = Ok () → (∀ t, process_termination authority = Some t → termination_fits t) →
  authority_fits authority.
Proof using Type.
  destruct authority as [r|r|r]; cbn; intros Hv Ht.
  - by apply synthetic_validate_fits.
  - apply process_validate_fits; [done|by apply Ht].
  - by apply derived_validate_fits.
Qed.

Lemma framed_one_inj domain a b :
  fits domain → fits a → fits b → framed_sha256 domain [a] = framed_sha256 domain [b] →
  a = b ∨ collides [hash_frames domain [a]] [hash_frames domain [b]].
Proof using Type.
  intros Hd Ha Hb H. destruct (framed_sha256_inj domain domain [a] [b]) as [[_ Hab]|]; [..|done| |by right].
  - split_and!; [done|done|]. apply Forall_cons_2; [done|by apply Forall_nil_2].
  - split_and!; [done|done|]. apply Forall_cons_2; [done|by apply Forall_nil_2].
  - left. by apply cons_inv in Hab as [Hab _].
Qed.

(** What a commitment hashes. *)
Definition commitment_input (authority : InputAuthorityReceiptV0) : string :=
  hash_frames RECEIPT_COMMITMENT_DOMAIN_V0 [authority_canonical_bytes authority].

(** Equal commitments come from equal receipts, or SHA-256 collides on them. *)
Lemma commitment_inj a b :
  authority_fits a → authority_fits b → fits (authority_canonical_bytes a) → fits (authority_canonical_bytes b) →
  commitment a = commitment b → a = b ∨ collides [commitment_input a] [commitment_input b].
Proof using Type.
  intros Ha Hb Hfa Hfb H. apply framed_one_inj in H as [H|H]; [|by right|done..].
  left. by apply authority_canonical_bytes_inj.
Qed.

(* ------------------------------------------------------------------ *)
(** ** Authorization *)

Lemma authorize_Ok authority framed trusted :
  authorize authority framed trusted = Ok () ↔
  authority_validate authority = Ok () ∧
  reject_dynamic_policy_substitution authority (tx_downstream_governance_policy trusted) = Ok () ∧
  commitment authority = tx_expected_authority_commitment trusted ∧ receipt_matches authority framed = true.
Proof using Type.
  unfold authorize. rewrite !adapter_unit_bind_Ok, !receipt_reject_if_Ok, !negb_false_iff, String.eqb_eq. done.
Qed.

(** What every receipt seals: the records, by their seal, and the bytes. *)
Lemma receipt_matches_seal authority framed :
  receipt_matches authority framed = true → raw_seal authority = raw_capture_seal_v0 (record_slices framed).
Proof using Type.
  destruct authority; cbn; rewrite !andb_true_iff, !bool_decide_eq_true; tauto.
Qed.

(** What a receipt of any class hashes of the bytes of a capture. *)
Definition capture_inputs (bytes : string) : list string := [hash_frames FULL_JSONL_DOMAIN_V0 [bytes]; bytes].

(** The bytes of a capture are determined by a receipt that matches it. *)
Lemma receipt_matches_bytes authority framed framed' :
  fits (fc_bytes framed) → fits (fc_bytes framed') →
  receipt_matches authority framed = true → receipt_matches authority framed' = true →
  fc_bytes framed = fc_bytes framed' ∨ collides (capture_inputs (fc_bytes framed)) (capture_inputs (fc_bytes framed')).
Proof using Type.
  intros Hf Hf' Hm Hm'.
  assert (full_jsonl_digest_v0 (fc_bytes framed) = full_jsonl_digest_v0 (fc_bytes framed') →
    fc_bytes framed = fc_bytes framed' ∨
    collides (capture_inputs (fc_bytes framed)) (capture_inputs (fc_bytes framed'))) as Hfull.
  { intros [?|Hcol]%framed_one_inj; [by left|right|done..].
    eapply collides_incl; [..|exact Hcol]; unfold capture_inputs; auto with incl. }
  destruct authority as [r|r|r]; cbn in Hm, Hm'; rewrite !andb_true_iff, !bool_decide_eq_true, !String.eqb_eq in Hm, Hm';
    destruct_and!.
  - apply Hfull. unfold full_digest in *. congruence.
  - destruct (decide (fc_bytes framed = fc_bytes framed')) as [|Hne]; [by left|right].
    exists (fc_bytes framed), (fc_bytes framed'). split_and!; [right; left|right; left|done|]. unfold standard_sha256 in *.
    assert ("sha256:" +:+ sha256_lower_hex (fc_bytes framed) = "sha256:" +:+ sha256_lower_hex (fc_bytes framed')) as Heq by congruence.
    by apply string_app_inj in Heq as [_ Heq].
  - apply Hfull. unfold full_digest in *. congruence.
Qed.
End validation.
