(* ===== verification/CodexBundle.v ===== *)
(** * Adaptation of a Codex run (src/trajectory/codex_exec_v0/bundle.rs)

    The whole path from the bytes of a capture and the receipt that authorizes
    it to a validated trace, and the contents of the private bundle that is
    exported for it. *)

From S2P Require Import Prelude Encoding Trajectory F64 Errors JsonScan JsonScanSpec WireJson TraceValidation TraceCanonical TraceValidationSpec TraceBudgetSpec TraceSpec Replay ReplayAuthority ReplaySpec AuthoritySpec CodexEvent CodexMapping CodexFraming CodexStream CodexStreamSpec CodexMappingSpec CodexReceipt CodexReceiptSpec.
From Stdlib Require Import Ascii.
From stdpp Require Import options.

Definition COMPONENT_DOMAIN_PREFIX_V0 : string := "legitimacy.codex-exec-v0.payload-component".
Definition PRIVATE_POLICY_BYTES_V0 : string := "legitimacy.codex-exec-v0.private-identity-transformation.v0".
Definition MAX_ADAPTER_BUNDLE_BYTES_V0 : Z := 16 * 1024 * 1024.

Record AdaptedCodexExecV0 := mkAdapted {
  ax_capture : FramedCaptureV0;
  ax_trace : TrajectoryTraceV0;
  ax_validation_declarations : TrajectoryValidationContextV0;
  ax_authority_commitment : string;
  ax_evidence_class : string;
}.

Inductive ComponentRoleV0 := OfficialTraceJson | CanonicalTrace.
Inductive ComponentFormatV0 := TrajectoryV0CompactJson | TrajectoryV0CanonicalBytes.

Definition role_label (role : ComponentRoleV0) : string :=
  match role with OfficialTraceJson => "official-trace-json" | CanonicalTrace => "canonical-trace" end.

Record PayloadManifestEntryV0 := mkPayloadEntry {
  pm_role : ComponentRoleV0;
  pm_format : ComponentFormatV0;
  pm_ordinal : Z;
  pm_byte_length : u64;
  pm_digest : string;
}.

Record OutputComponentsV0 := mkComponents {
  oc_official_trace_json : string;
  oc_canonical_trace : string;
  oc_trajectory_digest : string;
  oc_payload_manifest : list PayloadManifestEntryV0;
}.

Record TransformationReceiptV0 := mkTransformation {
  tr_receipt_format : string;
  tr_receipt_version : string;
  tr_input_authority_commitment : string;
  tr_authorized_capture_seal : RawCaptureSealV0;
  tr_adapter : ArtifactBindingV0;
  tr_schema : ArtifactBindingV0;
  tr_downstream_governance_policy : ArtifactBindingV0;
  tr_transformation_policy : ArtifactBindingV0;
  tr_normalized_trace_digest : string;
  tr_sanitized_fixture_seal : option RawCaptureSealV0;
  tr_payload_manifest : list PayloadManifestEntryV0;
}.

Record PrivateAdapterBundleV0 := mkPrivateBundle {
  pb_bundle_format : string;
  pb_bundle_version : string;
  pb_evidence_class : string;
  pb_authority_commitment : string;
  pb_schema : ArtifactBindingV0;
  pb_adapter : ArtifactBindingV0;
  pb_downstream_governance_policy : ArtifactBindingV0;
  pb_official_trace_json : string;
  pb_canonical_trace_lower_hex : string;
  pb_trajectory_digest : string;
  pb_payload_manifest : list PayloadManifestEntryV0;
  pb_transformation_receipt : TransformationReceiptV0;
}.

(** [a.saturating_mul(b)] of [usize]. *)
Definition saturating_mul (a b : Z) : Z := Z.min (a * b) (2 ^ 64 - 1).

Section bundle.
Context `{Sha256, CompiledSources, JsonStream, TraceSerializer} (TRAJECTORY_SCHEMA_BYTES_V0 : string).

Definition payload_entry_new (role : ComponentRoleV0) (format : ComponentFormatV0) (ordinal : Z) (bytes : string)
    : PayloadManifestEntryV0 :=
  mkPayloadEntry role format ordinal (u64_lit (byte_len bytes))
    (framed_sha256 (COMPONENT_DOMAIN_PREFIX_V0 +:+ "." +:+ role_label role +:+ ".v0") [bytes]).

(** [AdaptedCodexExecV0::validate] *)
Definition adapted_validate (adapted : AdaptedCodexExecV0) : AdapterResultV0 () :=
  match validate_trace TRAJECTORY_SCHEMA_BYTES_V0 (ax_trace adapted) (record_slices (ax_capture adapted))
          (ax_validation_declarations adapted) with
  | Ok _ => Ok ()
  | Err _ => Err (adapter_error AdValidation)
  end.

(** The records of a capture, parsed and checked as a stream. *)
Definition parse_stream (capture : FramedCaptureV0) (termination : option ProcessTerminationV0)
    : AdapterResultV0 (list ParsedRecordV0) :=
  records ← parse_records (record_slices capture);
  _ ← validate_stream records termination;
  Ok records.

Definition adapt_framed (capture : FramedCaptureV0) (authority : InputAuthorityReceiptV0)
    (trusted_context : TrustedAdaptationContextV0) : AdapterResultV0 AdaptedCodexExecV0 :=
  _ ← authorize authority capture trusted_context;
  records ← parse_stream capture (process_termination authority);
  mapped ← map_records_with_bindings TRAJECTORY_SCHEMA_BYTES_V0 records (record_slices capture) (raw_seal authority)
             (tx_downstream_governance_policy trusted_context);
  let adapted :=
    mkAdapted capture (mp_trace mapped) (mp_validation_declarations mapped) (commitment authority)
      (evidence_class authority) in
  _ ← adapted_validate adapted;
  Ok adapted.

(** [adapt] and [adapt_owned] *)
Definition adapt_owned (jsonl : string) (authority : InputAuthorityReceiptV0)
    (trusted_context : TrustedAdaptationContextV0) : AdapterResultV0 AdaptedCodexExecV0 :=
  capture ← parse_owned jsonl;
  adapt_framed capture authority trusted_context.

Definition public_child_authority_commitment (capture : FramedCaptureV0) (raw_capture : RawCaptureSealV0)
    (downstream_policy : ArtifactBindingV0) : string :=
  framed_sha256 "legitimacy.codex-exec-v0.public-sanitized-child-authority.v0"
    [full_digest capture; rs_digest raw_capture; ab_identity downstream_policy; ab_version downstream_policy;
     ab_hash downstream_policy; ab_hash codex_exec_adapter_binding_v0; ab_hash codex_exec_sanitizer_binding_v0].

Definition adapt_public_sanitized_owned (jsonl : string) (raw_capture : RawCaptureSealV0)
    (downstream_policy : ArtifactBindingV0) : AdapterResultV0 AdaptedCodexExecV0 :=
  capture ← parse_owned jsonl;
  let commitment := public_child_authority_commitment capture raw_capture downstream_policy in
  context ← trusted_new commitment downstream_policy;
  records ← parse_stream capture None;
  mapped ← map_records_with_bindings TRAJECTORY_SCHEMA_BYTES_V0 records (record_slices capture) raw_capture
             (tx_downstream_governance_policy context);
  let adapted :=
    mkAdapted capture (mp_trace mapped) (mp_validation_declarations mapped) commitment
      "sanitizer-conforming-child-projection" in
  _ ← adapted_validate adapted;
  Ok adapted.

(** [components] *)
Definition adapted_components (adapted : AdaptedCodexExecV0) : AdapterResultV0 OutputComponentsV0 :=
  _ ← adapted_validate adapted;
  official_trace_json ←
    match serialize_bounded_compact_json (ax_trace adapted) with
    | Ok json => Ok json
    | Err _ => Err (adapter_error AdValidation)
    end;
  let canonical_trace := canonical_bytes (ax_trace adapted) in
  projected_bytes ← ok_or (checked_add (byte_len official_trace_json) (saturating_mul (byte_len canonical_trace) 2))
                      (adapter_error AdInputTooLarge);
  if (MAX_ADAPTER_BUNDLE_BYTES_V0 <? projected_bytes)%Z then Err (adapter_error AdInputTooLarge)
  else if negb (utf8_valid official_trace_json) then Err (adapter_error AdValidation)
  else
    Ok (mkComponents official_trace_json canonical_trace (trajectory_digest (ax_trace adapted))
          [payload_entry_new OfficialTraceJson TrajectoryV0CompactJson 0 official_trace_json;
           payload_entry_new CanonicalTrace TrajectoryV0CanonicalBytes 1 canonical_trace]).

Definition is_sanitized_derived (adapted : AdaptedCodexExecV0) : bool :=
  String.eqb (ax_evidence_class adapted) "sanitized-derived-capture".

Definition private_transformation_receipt (adapted : AdaptedCodexExecV0) (components : OutputComponentsV0)
    : TransformationReceiptV0 :=
  let transformation_policy :=
    if is_sanitized_derived adapted then codex_exec_sanitizer_policy_binding_v0
    else mkBinding "legitimacy.codex-exec-v0.private-identity-policy" "0" (artifact_digest_v0 PRIVATE_POLICY_BYTES_V0) in
  mkTransformation "legitimacy.codex-exec-v0.transformation-receipt" "0" (ax_authority_commitment adapted)
    (tt_raw_capture (ax_trace adapted)) codex_exec_adapter_binding_v0
    (trajectory_schema_binding_v0 TRAJECTORY_SCHEMA_BYTES_V0) (vc_policy (ax_validation_declarations adapted))
    transformation_policy (oc_trajectory_digest components)
    (if is_sanitized_derived adapted then Some (tt_raw_capture (ax_trace adapted)) else None)
    (oc_payload_manifest components).

Definition to_private_bundle (adapted : AdaptedCodexExecV0) : AdapterResultV0 PrivateAdapterBundleV0 :=
  components ← adapted_components adapted;
  Ok (mkPrivateBundle "legitimacy.codex-exec-v0.private-adapter-bundle" "0" (ax_evidence_class adapted)
        (ax_authority_commitment adapted) (trajectory_schema_binding_v0 TRAJECTORY_SCHEMA_BYTES_V0)
        codex_exec_adapter_binding_v0 (vc_policy (ax_validation_declarations adapted))
        (oc_official_trace_json components) (lower_hex_bytes (oc_canonical_trace components))
        (oc_trajectory_digest components) (oc_payload_manifest components)
        (private_transformation_receipt adapted components)).

Definition has_exact_authority (adapted : AdaptedCodexExecV0) (authority : InputAuthorityReceiptV0) : bool :=
  String.eqb (ax_authority_commitment adapted) (commitment authority)
  && String.eqb (ax_evidence_class adapted) (evidence_class authority).
End bundle.

(* ------------------------------------------------------------------ *)
(** * What an adaptation guarantees

    A capture that its receipt authorizes, and that is a legal run, is adapted
    unless it is too large; a trusted commitment admits one capture only; and
    the receipt that is made for a fixture authorizes it under every policy
    that may be trusted. *)

Section bundles.
Context `{Sha : Sha256, Laws : !Sha256Laws, Sources : CompiledSources, Stream : JsonStream, Ser : TraceSerializer}.
Context (TRAJECTORY_SCHEMA_BYTES_V0 : string).

Abbreviation adapt := (adapt_owned TRAJECTORY_SCHEMA_BYTES_V0).
Abbreviation maps := (map_records_with_bindings TRAJECTORY_SCHEMA_BYTES_V0).

(** The bytes of a capture are a legal run with this end. *)
Definition legal_run (jsonl : string) (termination : option ProcessTerminationV0) (capture : FramedCaptureV0)
    (records : list ParsedRecordV0) : Prop :=
  parse_owned jsonl = Ok capture ∧ parse_records (record_slices capture) = Ok records ∧
  ∃ terminal, validate_stream records termination = Ok terminal.

(** A successful adaptation, step by step. *)
Lemma adapt_owned_Ok jsonl authority trusted adapted :
  adapt jsonl authority trusted = Ok adapted ↔
  ∃ capture records mapped,
    legal_run jsonl (process_termination authority) capture records ∧ authorize authority capture trusted = Ok () ∧
    maps records (record_slices capture) (raw_seal authority) (tx_downstream_governance_policy trusted) = Ok mapped ∧
    validate_trace TRAJECTORY_SCHEMA_BYTES_V0 (mp_trace mapped) (record_slices capture)
      (mp_validation_declarations mapped) = Ok () ∧
    adapted = mkAdapted capture (mp_trace mapped) (mp_validation_declarations mapped) (commitment authority)
      (evidence_class authority).
Proof using Type.
  unfold adapt_owned, adapt_framed, parse_stream, legal_run. split.
  - intros H. apply bind_Ok in H as (capture & Hc & H). apply bind_Ok in H as ([] & Ha & H).
    apply bind_Ok in H as (records & Hr & H). apply bind_Ok in Hr as (records' & Hp & Hr).
    apply bind_Ok in Hr as (terminal & Hs & [= ->]). apply bind_Ok in H as (mapped & Hm & H).
    apply bind_Ok in H as ([] & Hv & [= <-]). exists capture, records, mapped.
    unfold adapted_validate in Hv. cbn [ax_trace ax_capture ax_validation_declarations] in Hv.
    destruct (validate_trace _ _ _ _) as [[]|]; [|done]. eauto 10.
  - intros (capture & records & mapped & (Hc & Hp & terminal & Hs) & Ha & Hm & Hv & ->).
    rewrite Hc. cbn [mbind Result_bind]. rewrite Ha. cbn [mbind Result_bind]. rewrite Hp. cbn [mbind Result_bind].
    rewrite Hs. cbn [mbind Result_bind]. rewrite Hm. cbn [mbind Result_bind].
    unfold adapted_validate. cbn [ax_trace ax_capture ax_validation_declarations]. by rewrite Hv.
Qed.

(** The mapping of a legal run passes the validation unless it is too large. *)
Lemma legal_run_maps jsonl termination capture records policy :
  legal_run jsonl termination capture records → valid_binding policy →
  ∃ mapped run_id, maps records (record_slices capture) (raw_capture_seal_v0 (record_slices capture)) policy = Ok mapped ∧
    ev_value (tt_run_id (mp_trace mapped)) = Some run_id ∧
    ((validate_trace TRAJECTORY_SCHEMA_BYTES_V0 (mp_trace mapped) (record_slices capture)
        (mp_validation_declarations mapped) = Ok () ↔
      totals_bounded (use_trace (mp_trace mapped)) ∧ validate_compact_json_size (mp_trace mapped) = Ok ()) ∨
     collides (event_id_inputs run_id (record_slices capture)) (event_id_inputs run_id (record_slices capture))).
Proof using Laws.
  intros (Hc & Hp & terminal & Hs) Hpolicy.
  destruct (framed_lines _ _ Hc) as (Hne & Hcount & Hsum & Hlines).
  destruct (parse_records_ok _ _ Hp) as [Hok Hlen].
  apply validate_stream_Ok in Hs as [Hv _]; [by eapply maps_valid|].
  unfold MAX_CODEX_RECORDS_V0, vec_len in *. lia.
Qed.

(** Whether an authorized legal run is adapted is a matter of size. *)
Lemma authorized_run_adapts jsonl authority trusted capture records :
  legal_run jsonl (process_termination authority) capture records →
  authorize authority capture trusted = Ok () → valid_binding (tx_downstream_governance_policy trusted) →
  ∃ mapped run_id,
    maps records (record_slices capture) (raw_seal authority) (tx_downstream_governance_policy trusted) = Ok mapped ∧
    ev_value (tt_run_id (mp_trace mapped)) = Some run_id ∧
    ((is_ok (adapt jsonl authority trusted) = true ↔
      totals_bounded (use_trace (mp_trace mapped)) ∧ validate_compact_json_size (mp_trace mapped) = Ok ()) ∨
     collides (event_id_inputs run_id (record_slices capture)) (event_id_inputs run_id (record_slices capture))).
Proof using Laws.
  intros Hrun Ha Hpolicy. destruct (legal_run_maps _ _ _ _ _ Hrun Hpolicy) as (mapped & run_id & Hm & Hid & [Hv|]).
  2: { exists mapped, run_id. apply authorize_Ok in Ha as (_ & _ & _ & Hseal%receipt_matches_seal). rewrite Hseal. auto. }
  exists mapped, run_id. pose proof Ha as (_ & _ & _ & Hseal%receipt_matches_seal)%authorize_Ok. rewrite Hseal.
  split; [done|]. split; [done|left]. rewrite <-Hv. split.
  - destruct (adapt jsonl authority trusted) as [adapted|] eqn:Hadapt; [|done]. intros _.
    apply adapt_owned_Ok in Hadapt as (capture' & records' & mapped' & (Hc & Hp & _) & _ & Hm' & Hv' & _).
    destruct Hrun as (Hc0 & Hp0 & _). rewrite Hc0 in Hc. injection Hc as <-. rewrite Hp0 in Hp. injection Hp as <-.
    rewrite Hseal, Hm in Hm'. by injection Hm' as <-.
  - intros Htrace. assert (∃ adapted, adapt jsonl authority trusted = Ok adapted) as [adapted ->]; [|done].
    eexists. apply adapt_owned_Ok. exists capture, records, mapped. rewrite Hseal. done.
Qed.

Lemma parse_owned_bytes jsonl capture : parse_owned jsonl = Ok capture → fc_bytes capture = jsonl ∧ fits jsonl.
Proof using Type.
  intros (lines & Hw & ->)%parse_owned_Ok. split; [done|]. destruct Hw as [_ Hs _ _ _ _ _].
  unfold fits, fits_len, MAX_CODEX_JSONL_BYTES_V0 in *. lia.
Qed.

(** What an adaptation hashes of the receipt and of the bytes it is given. *)
Definition adaptation_inputs (jsonl : string) (authority : InputAuthorityReceiptV0) : list string :=
  commitment_input authority :: capture_inputs jsonl.

(** C12: a trusted commitment admits one capture.  If two adaptations succeed under
    contexts that trust the same commitment, then they were given the same
    bytes and the same receipt, and, for the same policy, they produce the same
    trace, or two different inputs that the adaptations hashed (of the receipt
    or of the bytes) have one digest.  Receipts are held in memory, and a process
    ends with a code or a signal of one byte. *)
Theorem adaptation_bound_by_commitment jsonl jsonl' authority authority' trusted trusted' adapted adapted'
    (Ha : adapt jsonl authority trusted = Ok adapted) (Ha' : adapt jsonl' authority' trusted' = Ok adapted')
    (Hfit : fits (authority_canonical_bytes authority)) (Hfit' : fits (authority_canonical_bytes authority'))
    (Ht : ∀ t, process_termination authority = Some t → termination_fits t)
    (Ht' : ∀ t, process_termination authority' = Some t → termination_fits t)
    (Hsame : tx_expected_authority_commitment trusted = tx_expected_authority_commitment trusted') :
  (jsonl = jsonl' ∧ authority = authority' ∧
   (tx_downstream_governance_policy trusted = tx_downstream_governance_policy trusted' → adapted = adapted')) ∨
  collides (adaptation_inputs jsonl authority) (adaptation_inputs jsonl' authority').
Proof using Type.
  apply adapt_owned_Ok in Ha as (capture & records & mapped & Hrun & Hauth & Hm & _ & ->).
  apply adapt_owned_Ok in Ha' as (capture' & records' & mapped' & Hrun' & Hauth' & Hm' & _ & ->).
  apply authorize_Ok in Hauth as (Hv & _ & Hc & Hmatch), Hauth' as (Hv' & _ & Hc' & Hmatch').
  destruct (commitment_inj authority authority') as [<-|Hcol];
    [by apply authority_validate_fits..|done|done|congruence|
    |right; eapply collides_incl; [..|exact Hcol]; unfold adaptation_inputs; auto with incl].
  destruct Hrun as (Hp & Hr & _), Hrun' as (Hp' & Hr' & _).
  destruct (parse_owned_bytes _ _ Hp) as [Hb Hbf], (parse_owned_bytes _ _ Hp') as [Hb' Hbf'].
  destruct (receipt_matches_bytes authority capture capture') as [Heq|Hcol]; [by rewrite Hb|by rewrite Hb'|done|done| |].
  2: { right. rewrite Hb, Hb' in Hcol. eapply collides_incl; [..|exact Hcol]; unfold adaptation_inputs; auto with incl. }
  assert (jsonl = jsonl') as <- by congruence. left. split_and!; [done|done|]. intros Hpol.
  rewrite Hp in Hp'. injection Hp' as <-. rewrite Hr in Hr'. injection Hr' as <-.
  rewrite Hpol, Hm' in Hm. by injection Hm as <-.
Qed.

(** A nonce of 32 bytes, not all zero when it is said to be random. *)
Definition nonce_sound (nonce : NonceMaterialV0) : Prop :=
  byte_len (nm_bytes nonce) = 32%Z ∧
  (nm_asserted_source nonce = CaptureRandom → bytes_all (λ b, bool_decide (b = ascii_of_nat 0)) (nm_bytes nonce) = false).

Lemma zero_hex bytes :
  bytes_all (λ b, bool_decide (b = "0"%char)) (lower_hex_bytes bytes) = bytes_all (λ b, bool_decide (b = ascii_of_nat 0)) bytes.
Proof using Type.
  unfold bytes_all, lower_hex_bytes. induction bytes as [|c bytes IH]; [done|].
  change (bytes_of (String c bytes)) with (c :: bytes_of bytes). rewrite put_all_cons, bytes_of_app, forallb_app, IH.
  cbn [forallb]. f_equal. by destruct c as [[] [] [] [] [] [] [] []].
Qed.

Lemma nonce_validates nonce :
  nonce_sound nonce → validate_nonce (lower_hex_bytes (nm_bytes nonce)) (nm_asserted_source nonce) = Ok ().
Proof using Type.
  intros [Hl Hz]. unfold validate_nonce. rewrite lower_hex_length, Hl, lower_hex_digits, zero_hex. cbn [Z.mul negb orb].
  rewrite check_shape_Ok, negb_true_iff. apply andb_false_iff.
  case_bool_decide as Hs; [right; by apply Hz|by left].
Qed.

(** The receipt of a fixture authorizes it under any policy that is not reserved. *)
Lemma fixture_authorized jsonl capture nonce policy :
  parse_owned jsonl = Ok capture → nonce_sound nonce → valid_binding policy →
  validate_policy_identity (ab_identity policy) = Ok () →
  ∃ receipt trusted,
    synthetic_with_nonce jsonl codex_exec_fixture_spec_binding_v0 nonce = Ok receipt ∧
    trusted_new (commitment (SyntheticFixture receipt)) policy = Ok trusted ∧
    tx_downstream_governance_policy trusted = policy ∧
    authorize (SyntheticFixture receipt) capture trusted = Ok ().
Proof using Laws.
  intros Hc Hn Hpol Hid. destruct (parse_owned_bytes _ _ Hc) as [Hb _].
  unfold synthetic_with_nonce. rewrite Hc. cbn [mbind Result_bind]. eexists _, _. split; [done|].
  assert (∀ r, trusted_new (commitment r) policy =
    Ok (mkTrusted "legitimacy.codex-exec-v0.trusted-adaptation-context" "0" (commitment r) policy)) as Htrusted.
  { intros r. unfold trusted_new. rewrite (proj2 (receipt_validate_sha256_Ok _)) by apply framed_sha256_valid.
    cbn [mbind Result_bind]. rewrite (proj2 (receipt_validate_binding_Ok _)) by done. cbn [mbind Result_bind]. by rewrite Hid. }
  split; [apply Htrusted|]. split; [done|]. apply authorize_Ok. cbn [tx_downstream_governance_policy tx_expected_authority_commitment].
  split_and!; [|..|done|].
  - unfold authority_validate, synthetic_validate.
    cbn [sy_receipt_format sy_receipt_version sy_evidence_class sy_raw_record_count sy_raw_capture_seal sy_emitter
      sy_full_jsonl_digest sy_fixture_spec_manifest sy_asserted_nonce_source sy_blinding_nonce_lower_hex].
    rewrite bool_decide_true by done. cbn [negb orb]. rewrite ?String.eqb_refl. cbn [negb orb].
    rewrite !adapter_unit_bind_Ok, !receipt_validate_sha256_Ok, receipt_validate_binding_Ok, receipt_reject_if_Ok.
    split_and!; [done|apply framed_sha256_valid|apply framed_sha256_valid|by apply binding_of_sources_valid| |by apply nonce_validates].
    by rewrite bool_decide_true.
  - unfold reject_dynamic_policy_substitution. rewrite Hid. cbn [mbind Result_bind]. apply receipt_reject_if_Ok.
    cbn [substitutes_assigned_role sy_fixture_spec_manifest]. apply String.eqb_neq. intros Heq.
    unfold validate_policy_identity in Hid. apply receipt_reject_if_Ok in Hid. rewrite Heq in Hid. done.
  - cbn [receipt_matches sy_full_jsonl_length sy_full_jsonl_digest sy_raw_record_count sy_raw_capture_seal].
    rewrite Hb, !bool_decide_true by done. by rewrite String.eqb_refl.
Qed.

(** A fixture is adapted.  If the bytes are a legal run, the nonce is sound and
    the policy is a valid binding outside the reserved name spaces, then the
    receipt that is made for the bytes, with its commitment trusted under that
    policy, authorizes them, every record is mapped, and the adaptation
    succeeds exactly when the totals of the trace and its export are within
    their limits (or SHA-256 collides on what the event identities hash). *)
Theorem fixture_adapts jsonl capture records nonce policy
    (Hrun : legal_run jsonl None capture records) (Hnonce : nonce_sound nonce) (Hpolicy : valid_binding policy)
    (Hid : validate_policy_identity (ab_identity policy) = Ok ()) :
  ∃ receipt trusted mapped run_id,
    synthetic_with_nonce jsonl codex_exec_fixture_spec_binding_v0 nonce = Ok receipt ∧
    trusted_new (commitment (SyntheticFixture receipt)) policy = Ok trusted ∧
    authorize (SyntheticFixture receipt) capture trusted = Ok () ∧
    maps records (record_slices capture) (sy_raw_capture_seal receipt) policy = Ok mapped ∧
    ev_value (tt_run_id (mp_trace mapped)) = Some run_id ∧
    ((is_ok (adapt jsonl (SyntheticFixture receipt) trusted) = true ↔
      totals_bounded (use_trace (mp_trace mapped)) ∧ validate_compact_json_size (mp_trace mapped) = Ok ()) ∨
     collides (event_id_inputs run_id (record_slices capture)) (event_id_inputs run_id (record_slices capture))).
Proof using Laws.
  destruct (fixture_authorized jsonl capture nonce policy (proj1 Hrun) Hnonce Hpolicy Hid)
    as (receipt & trusted & Hr & Ht & Hp & Ha).
  destruct (authorized_run_adapts jsonl (SyntheticFixture receipt) trusted capture records Hrun Ha ltac:(by rewrite Hp))
    as (mapped & run_id & Hm & Hrid & Hadapt).
  exists receipt, trusted, mapped, run_id. rewrite Hp in Hm. done.
Qed.
End bundles.
