(* ===== verification/GraphCycle.v ===== *)
(** * Iteration of a cyclic component (src/graph/cycle.rs: iterate_cycle,
      check_cycle_admissibility)

    The fixed-point iteration that feeds claims around a cycle and the
    admissibility verdict built on it.  The outer loop is bounded by
    [max_iterations] in the source; the model recurses on what is left of it. *)

From S2P Require Import Prelude F64 Errors Core GraphNode Tarjan GraphTraverse.
From stdpp Require Import options.

Record CycleResult := mkCycleResult {
  converged : bool;
  iterations : nat;
  fixed_point_decisions : gmap string Decision;
}.

Definition cycle_edges (graph : GovernanceGraph) (cycle_set : gset NodeId)
    : gmap NodeId (list GovernanceEdge) :=
  foldl (λ edges edge,
    if bool_decide (from edge ∈ cycle_set) && bool_decide (to edge ∈ cycle_set)
    then <[from edge := default [] (edges !! from edge) ++ [edge]]> edges else edges)
    ∅ (edges graph).

Definition metrics_within_epsilon (left right : gmap string f64) (epsilon : f64) : bool :=
  bool_decide (size left = size right) &&
  forallb (λ '(field, left_value),
    match right !! field with
    | Some right_value => f64_leb (f64_abs (f64_sub left_value right_value)) epsilon
    | None => false
    end) (btree_iter left).

Definition claims_within_epsilon (left right : GovernanceClaim) (epsilon : f64) : bool :=
  bool_decide (gc_claimant_id left = gc_claimant_id right)
  && bool_decide (gc_priority_class left = gc_priority_class right)
  && bool_decide (gc_path left = gc_path right)
  && bool_decide (gc_action left = gc_action right)
  && bool_decide (gc_content left = gc_content right)
  && f64_leb (f64_abs (f64_sub (gc_strength left) (gc_strength right))) epsilon
  && metrics_within_epsilon (gc_metrics left) (gc_metrics right) epsilon.

(** [collect] into a map: a later claim of the same claimant replaces an earlier one. *)
Definition claims_by_id (claims : list GovernanceClaim) : gmap string GovernanceClaim :=
  foldl (λ m claim, <[gc_claimant_id claim := claim]> m) ∅ claims.

(** The comparison loop of [queue_matches_baseline]. *)
Fixpoint queue_matches_loop (baseline observed : gmap string GovernanceClaim) (epsilon : f64)
    (ids : list string) : LResult bool :=
  match ids with
  | [] => Ok true
  | id :: ids =>
      left ← ok_or (baseline !! id) (missing_allocation_share id "cycle baseline queue");
      right ← ok_or (observed !! id) (missing_allocation_share id "cycle observed queue");
      if claims_within_epsilon left right epsilon
      then queue_matches_loop baseline observed epsilon ids else Ok false
  end.

Definition queue_matches_baseline (queued_claims : gmap NodeId (list GovernanceClaim))
    (entry_node : NodeId) (baseline_claims : list GovernanceClaim) (epsilon : f64)
    : LResult bool :=
  if negb (bool_decide (size queued_claims = 1)) then Ok false
  else match queued_claims !! entry_node with
  | None => Ok false
  | Some queued_for_entry =>
      if negb (bool_decide (length queued_for_entry = length baseline_claims)) then Ok false
      else
        let baseline := claims_by_id baseline_claims in
        let observed := claims_by_id queued_for_entry in
        if negb (bool_decide (dom baseline = dom observed)) then Ok false
        else queue_matches_loop baseline observed epsilon (btree_keys baseline)
  end.

Definition record_decisions (fixed_point_decisions : gmap string Decision)
    (decisions : list ClaimDecision) : gmap string Decision :=
  foldl (λ m d, <[cd_claimant_id d := cd_decision d]> m) fixed_point_decisions decisions.

(** [iter().position(..)] of a node in the cycle. *)
Definition position (cycle : list NodeId) (id : NodeId) : option nat :=
  fst <$> list_find (λ candidate, candidate = id) cycle.

Section cycles.
Context `{RegexEngine}.

Abbreviation Queues := (gmap NodeId (list GovernanceClaim)).

(** One edge of the node at position [index]: forward edges feed the current
    pass, the others feed the next iteration. *)
Definition send_in_cycle (cycle : list NodeId) (index : nat) (forwarded : list GovernanceClaim)
    (decisions : list ClaimDecision) (st : Queues * Queues) (edge : GovernanceEdge)
    : LResult (Queues * Queues) :=
  let '(current_queued, next_iteration) := st in
  transformed ← apply_transform (transform edge) forwarded decisions;
  target_index ← ok_or (position cycle (to edge)) (InvalidEdgeReference (to edge));
  if bool_decide (index < target_index) then
    merged ← merge_claim_batches (to edge) (default [] (current_queued !! to edge)) transformed;
    Ok (<[to edge := merged]> current_queued, next_iteration)
  else
    merged ← merge_claim_batches (to edge) (default [] (next_iteration !! to edge)) transformed;
    Ok (current_queued, <[to edge := merged]> next_iteration).

(** One node of a pass around the cycle. *)
Definition cycle_node (graph : GovernanceGraph) (cycle : list NodeId)
    (inner_edges : gmap NodeId (list GovernanceEdge))
    (st : Queues * Queues * gmap string Decision) (entry : nat * NodeId)
    : LResult (Queues * Queues * gmap string Decision) :=
  let '(current_queued, next_iteration, fixed) := st in
  let '(index, id) := entry in
  node ← ok_or (nodes graph !! id) (InvalidEdgeReference id);
  let current_claims := default [] (current_queued !! id) in
  decisions ← evaluate_node node current_claims;
  let fixed := record_decisions fixed decisions in
  let forwarded := forwarded_claims current_claims decisions in
  queues ← try_fold (send_in_cycle cycle index forwarded decisions)
             (delete id current_queued, next_iteration) (default [] (inner_edges !! id));
  Ok (queues, fixed).

(** One iteration: a pass over the cycle from the queued claims. *)
Definition cycle_pass (graph : GovernanceGraph) (cycle : list NodeId)
    (inner_edges : gmap NodeId (list GovernanceEdge)) (queued : Queues)
    : LResult (Queues * Queues * gmap string Decision) :=
  try_fold (cycle_node graph cycle inner_edges) (queued, ∅, ∅)
    (zip (seq 0 (length cycle)) cycle).

(** [for iteration in 1..=max_iterations], with the number of iterations left. *)
Fixpoint iterate_loop (remaining iteration : nat) (graph : GovernanceGraph) (cycle : list NodeId)
    (inner_edges : gmap NodeId (list GovernanceEdge)) (entry : NodeId)
    (claims : list GovernanceClaim) (epsilon : f64) (queued : Queues)
    (fixed : gmap string Decision) : LResult CycleResult :=
  match remaining with
  | O => Ok (mkCycleResult false (iteration - 1) fixed)
  | S remaining =>
      st ← cycle_pass graph cycle inner_edges queued;
      let '(_, next_iteration, fixed) := st in
      if bool_decide (next_iteration = ∅) then Ok (mkCycleResult true iteration fixed)
      else
        m ← queue_matches_baseline next_iteration entry claims epsilon;
        if m : bool then Ok (mkCycleResult false iteration fixed)
        else iterate_loop remaining (S iteration) graph cycle inner_edges entry claims epsilon
               next_iteration fixed
  end.

Definition iterate_cycle (graph : GovernanceGraph) (cycle : list NodeId)
    (claims : list GovernanceClaim) (max_iterations : nat) (epsilon : f64)
    : LResult CycleResult :=
  match cycle with
  | [] => Err (invalid_input [Txt "cycle iteration requires at least one node"])
  | entry :: _ =>
      if bool_decide (max_iterations = 0)
      then Err (invalid_input [Txt "cycle iteration requires max_iterations > 0"])
      else if negb (f64_is_finite epsilon) || f64_ltb epsilon f64_zero
      then Err (invalid_input
             [Txt "cycle iteration epsilon must be finite and non-negative, got "; Num epsilon])
      else
        _ ← try_iter (λ id, match nodes graph !! id with
                            | Some _ => Ok () | None => Err (InvalidEdgeReference id) end) cycle;
        iterate_loop max_iterations 1 graph cycle (cycle_edges graph (list_to_set cycle)) entry
          claims epsilon {[entry := claims]} ∅
  end.

Definition convert_claims (claims : list GovernanceClaim) : LResult (list Claim) :=
  try_map (λ claim,
    converted ← Claim_new (gc_claimant_id claim) (gc_strength claim);
    Ok (mkClaim (claim_id converted) (claim_strength converted) (gc_metrics claim))) claims.

Definition decision_allocation (claims : list GovernanceClaim) (decisions : gmap string Decision)
    : LResult ValidAllocation :=
  let allocation := foldl (λ allocation claim,
    <[gc_claimant_id claim :=
        f64_of_nat (decision_rank (default Escalate (decisions !! gc_claimant_id claim)))]>
      allocation) (∅ : Allocation) claims in
  converted ← convert_claims claims;
  ValidAllocation_new allocation converted.

Definition binary_estate : LResult Estate := Estate_new (f64_of_Z 2) "binary-decision-rank".

(** The counterexample both rejections carry. *)
Definition cycle_counterexample (claims : list GovernanceClaim) (fixed_point_alloc : ValidAllocation)
    (description violation : Message) : LResult Counterexample :=
  original_claims ← convert_claims claims;
  original_estate ← binary_estate;
  original_allocation ← decision_allocation claims ∅;
  perturbed_claims ← convert_claims claims;
  perturbed_estate ← binary_estate;
  Ok (mkCounterexample description original_claims original_estate original_allocation
        perturbed_claims perturbed_estate fixed_point_alloc violation).

Definition check_cycle_admissibility (graph : GovernanceGraph) (cycle : list NodeId)
    (claims : list GovernanceClaim) : LResult Verdict :=
  result ← iterate_cycle graph cycle claims 32 EPSILON;
  fixed_point_alloc ← decision_allocation claims (fixed_point_decisions result);
  if negb (converged result) then
    c ← cycle_counterexample claims fixed_point_alloc
          [Txt "Cycle "; Names cycle; Txt " did not converge within ";
           Int (Z.of_nat (iterations result)); Txt " iterations"]
          [Txt "reflexive inadmissibility: the cycle kept feeding itself instead of settling to an admissible fixed point"];
    Ok (Rejected "cycle admissibility" c)
  else if existsb is_escalate (btree_values (fixed_point_decisions result)) then
    c ← cycle_counterexample claims fixed_point_alloc
          [Txt "Cycle "; Names cycle; Txt " converged to a non-terminal Escalate state"]
          [Txt "reflexive inadmissibility: the cycle stabilized only by preserving non-terminal escalation inside the loop"];
    Ok (Rejected "cycle admissibility" c)
  else Ok (Admissible "cycle admissibility" (iterations result)).

(* ------------------------------------------------------------------ *)
(** ** Back edges keep the iteration from converging *)

Lemma elem_of_cycle_edges g cycle u e :
  e ∈ edges g → from e = u → u ∈ cycle → to e ∈ cycle →
  e ∈ default [] (cycle_edges g (list_to_set cycle) !! u).
Proof.
  intros He Hf Hu Ht. unfold cycle_edges.
  assert (∀ es (m : gmap NodeId (list GovernanceEdge)),
    e ∈ default [] (m !! u) ∨ e ∈ es →
    e ∈ default [] (foldl (λ edges edge,
      if bool_decide (from edge ∈ (list_to_set cycle : gset NodeId))
         && bool_decide (to edge ∈ (list_to_set cycle : gset NodeId))
      then <[from edge := default [] (edges !! from edge) ++ [edge]]> edges else edges) m es !! u))
    as Hgen; [|apply Hgen; auto].
  induction es as [|e' es IH]; intros m Hm; simpl.
  - destruct Hm as [?|?%not_elem_of_nil]; done.
  - apply IH. rewrite elem_of_cons in Hm. destruct (decide (e = e')) as [<-|Hne].
    + left. rewrite !bool_decide_true by (rewrite elem_of_list_to_set; congruence). simpl.
      rewrite Hf, lookup_insert_eq. simpl. set_solver.
    + destruct Hm as [Hm|[?|?]]; [|done|by right]. left.
      destruct (_ && _); [|done]. rewrite lookup_insert. case_decide as Hfe; [|done].
      simpl. rewrite Hfe. set_solver.
Qed.

Lemma position_le cycle j v : cycle !! j = Some v → ∃ k, position cycle v = Some k ∧ k ≤ j.
Proof.
  intros Hj. unfold position. destruct (list_find (λ c, c = v) cycle) as [[k w]|] eqn:Hf; simpl.
  - exists k. split; [done|]. apply list_find_Some in Hf as (Hk & -> & Hlt).
    destruct (decide (k ≤ j)); [done|]. exfalso. by eapply (Hlt j v); [|lia|].
  - apply list_find_None in Hf. rewrite Forall_forall in Hf.
    by destruct (Hf v); [eapply list_elem_of_lookup_2|].
Qed.

(** Edges only add entries to the queues of the next iteration. *)
Lemma send_in_cycle_next cycle index fwd ds st e st' :
  send_in_cycle cycle index fwd ds st e = Ok st' →
  dom st.2 ⊆ dom st'.2 ∧
  (∀ k, position cycle (to e) = Some k → k ≤ index → to e ∈ dom st'.2).
Proof.
  unfold send_in_cycle. destruct st as [cur next]. intros Hs. invert_binds.
  case_bool_decide; invert_binds; simpl.
  - split; [done|]. intros k Hk. simplify_eq. lia.
  - rewrite dom_insert_L. split; [set_solver|]. set_solver.
Qed.

Lemma send_all_in_cycle_next cycle index fwd ds es st st' e k :
  try_fold (send_in_cycle cycle index fwd ds) st es = Ok st' →
  dom st.2 ⊆ dom st'.2 ∧
  (e ∈ es → position cycle (to e) = Some k → k ≤ index → st'.2 ≠ ∅).
Proof.
  revert st. induction es as [|e' es IH]; intros st Hs; cbn [try_fold] in Hs; invert_binds.
  { split; [done|]. by intros ?%not_elem_of_nil. }
  destruct (send_in_cycle_next _ _ _ _ _ _ _ Hr) as [H1 H2]. destruct (IH _ Hs) as [H3 H4].
  split; [set_solver|]. intros [->|He]%elem_of_cons Hk Hle; [|by apply H4].
  intros Hemp. specialize (H2 k Hk Hle). apply H3 in H2. rewrite Hemp, dom_empty_L in H2. set_solver.
Qed.

Lemma cycle_node_next g cycle inner st index id st' :
  cycle_node g cycle inner st (index, id) = Ok st' →
  dom st.1.2 ⊆ dom st'.1.2 ∧
  (∀ e k, e ∈ default [] (inner !! id) → position cycle (to e) = Some k → k ≤ index → st'.1.2 ≠ ∅).
Proof.
  destruct st as [[cur next] fx]. unfold cycle_node. intros Hs. invert_binds. simpl. split.
  - apply (send_all_in_cycle_next cycle index _ _ _ _ _ (mkEdge "" "" PassThrough) 0 Hr1).
  - intros e k. apply (send_all_in_cycle_next _ _ _ _ _ _ _ e k Hr1).
Qed.

Lemma cycle_nodes_next g cycle inner st l st' :
  try_fold (cycle_node g cycle inner) st l = Ok st' → dom st.1.2 ⊆ dom st'.1.2.
Proof.
  apply (try_fold_inv _ (λ _ t, dom st.1.2 ⊆ dom t.1.2)); [done|].
  intros pre [index id] t t' Ht _ [Hn _]%cycle_node_next. set_solver.
Qed.

(** A pass over a cycle with a back edge feeds the next iteration. *)
Lemma cycle_pass_back_edge g cycle i j u v queued st :
  cycle !! i = Some u → cycle !! j = Some v → j ≤ i → edge_rel g u v →
  cycle_pass g cycle (cycle_edges g (list_to_set cycle)) queued = Ok st → st.1.2 ≠ ∅.
Proof.
  intros Hi Hj Hle (e & He & Hfrom & Hto)%elem_of_successors Hpass. unfold cycle_pass in Hpass.
  assert (zip (seq 0 (length cycle)) cycle !! i = Some (i, u)) as Hzip.
  { rewrite lookup_zip_with, lookup_seq_lt by by eapply lookup_lt_Some. simpl. by rewrite Hi. }
  apply list_elem_of_lookup_2, list_elem_of_split in Hzip as (l1 & l2 & Hl).
  rewrite Hl, try_fold_app in Hpass. invert_binds. cbn [try_fold] in Hpass. invert_binds.
  destruct (position_le _ _ _ Hj) as (k & Hk & Hkj).
  apply cycle_node_next in Hr0 as [_ Hn]. specialize (Hn e k).
  apply cycle_nodes_next in Hpass. intros Hemp. apply Hn; [|by rewrite Hto|lia|].
  - apply elem_of_cycle_edges; [done|done|by eapply list_elem_of_lookup_2|].
    rewrite Hto. by eapply list_elem_of_lookup_2.
  - apply dom_empty_inv_L. rewrite Hemp, dom_empty_L in Hpass. set_solver.
Qed.

Lemma iterate_loop_back_edge remaining iteration g cycle entry claims epsilon queued fixed i j u v r :
  cycle !! i = Some u → cycle !! j = Some v → j ≤ i → edge_rel g u v →
  iterate_loop remaining iteration g cycle (cycle_edges g (list_to_set cycle)) entry claims epsilon
    queued fixed = Ok r → converged r = false.
Proof.
  intros Hi Hj Hle Hed. revert iteration queued fixed.
  induction remaining as [|n IH]; intros iteration queued fixed Hr; cbn [iterate_loop] in Hr.
  { by invert_binds. }
  invert_binds. pose proof (cycle_pass_back_edge _ _ _ _ _ _ _ _ Hi Hj Hle Hed Hr0) as Hne.
  destruct a as [[cur next] fx]. simpl in Hne. rewrite bool_decide_false in Hr by done.
  invert_binds. destruct a; [by invert_binds|by eapply IH].
Qed.

Lemma iterate_loop_bounds remaining iteration g cycle inner entry claims epsilon queued fixed r :
  1 ≤ iteration → (remaining ≠ 0 ∨ 1 < iteration) →
  iterate_loop remaining iteration g cycle inner entry claims epsilon queued fixed = Ok r →
  1 ≤ iterations r < iteration + remaining.
Proof.
  revert iteration queued fixed. induction remaining as [|n IH]; intros iteration queued fixed H1 H2 Hr;
    cbn [iterate_loop] in Hr.
  { invert_binds. simpl. lia. }
  invert_binds. destruct a as [[cur next] fx]. case_bool_decide; [invert_binds; simpl; lia|].
  invert_binds. destruct a; [invert_binds; simpl; lia|].
  apply IH in Hr; [lia|lia|lia].
Qed.

(** A walk around a cycle inside the list goes back at some point. *)
Lemma walk_back_edge (g : GovernanceGraph) (cycle : list NodeId) u v :
  tc (λ a b, edge_rel g a b ∧ a ∈ cycle ∧ b ∈ cycle) u v →
  (∀ i j a b, cycle !! i = Some a → cycle !! j = Some b → edge_rel g a b → i < j) →
  ∀ i j, cycle !! i = Some u → cycle !! j = Some v → i < j.
Proof.
  intros Htc Hfw. induction Htc as [a b (He & Ha & Hb)|a b c (He & Ha & Hb) Htc IH]; intros i j Hi Hj.
  - by apply (Hfw i j a b).
  - apply list_elem_of_lookup in Hb as [k Hk]. etrans; [by apply (Hfw i k a b)|by apply (IH k j)].
Qed.

(** So the iteration of a list that contains a cycle never converges. *)
Lemma iterate_cycle_walk g cycle claims n epsilon u r :
  tc (λ a b, edge_rel g a b ∧ a ∈ cycle ∧ b ∈ cycle) u u → u ∈ cycle →
  iterate_cycle g cycle claims n epsilon = Ok r → converged r = false.
Proof.
  intros Htc [k Hk]%list_elem_of_lookup Hr. unfold iterate_cycle in Hr.
  destruct cycle as [|entry cycle]; [done|].
  case_bool_decide; [done|]. destruct (_ || _) in Hr; [done|]. invert_binds.
  destruct (converged r) eqn:Hcv; [exfalso|done]. enough (k < k) by lia.
  apply (walk_back_edge g (entry :: cycle) u u Htc); [|done|done].
  intros i j a' b Hi Hj He. destruct (decide (i < j)); [done|].
  pose proof (iterate_loop_back_edge _ _ _ _ _ _ _ _ _ i j a' b _ Hi Hj ltac:(lia) He Hr). congruence.
Qed.

(* ------------------------------------------------------------------ *)
(** ** Properties *)

(** The iteration performs at least one and at most [max_iterations] passes. *)
Theorem iterate_cycle_bounds g cycle claims n epsilon r :
  iterate_cycle g cycle claims n epsilon = Ok r → 1 ≤ iterations r ≤ n.
Proof.
  unfold iterate_cycle. destruct cycle as [|entry cycle]; [done|].
  case_bool_decide; [done|]. destruct (_ || _); [done|]. intros Hr. invert_binds.
  apply iterate_loop_bounds in Hr; lia.
Qed.

(** A list of nodes that contains an actual cycle of the graph is never
    admissible: an edge back to the same or an earlier position queues a feed for
    the next iteration even when no claim is left to forward, so the iteration
    never reports convergence. *)
Theorem genuine_cycle_never_admissible g cycle claims u :
  tc (λ a b, edge_rel g a b ∧ a ∈ cycle ∧ b ∈ cycle) u u → u ∈ cycle →
  ∀ v, check_cycle_admissibility g cycle claims = Ok v → verdict_admissible v = false.
Proof.
  intros Htc Hu v Hv. unfold check_cycle_admissibility in Hv. invert_binds.
  rewrite (iterate_cycle_walk _ _ _ _ _ _ _ Htc Hu Hr) in Hv. cbn [negb] in Hv. by invert_binds.
Qed.
End cycles.
