(* ===== verification/BinaryDiagnostics.v ===== *)
(** * Perturbation checks of a single node (src/axioms/diagnostics/binary.rs)

    Consistency (drop one claimant), solidarity (a common shock) and
    monotonicity (strengthen one claimant) of one binary or threshold node.
    Each check is a loop over perturbations that either counts one more or
    leaves with a counterexample. *)

From S2P Require Import Prelude F64 Errors Core GraphNode Tarjan GraphTraverse GraphCycle.
From stdpp Require Import options.

Record BinaryShock := mkBinaryShock { shock_field : string; shock_delta : f64 }.
Record BinaryDelta := mkBinaryDelta { delta_field : string; delta_delta : f64 }.

(** [decisions.iter().find(|d| d.claimant_id == id).map(|d| &d.decision)] *)
Definition find_decision (decisions : list ClaimDecision) (id : string) : option Decision :=
  (cd_decision ∘ snd) <$> list_find (λ d, cd_claimant_id d = id) decisions.

Definition decision_allocation (claims : list GovernanceClaim) (decisions : list ClaimDecision)
    : LResult ValidAllocation :=
  let allocation := foldl (λ allocation d,
    <[cd_claimant_id d := f64_of_nat (decision_rank (cd_decision d))]> allocation)
    (∅ : Allocation) decisions in
  converted ← convert_claims claims;
  ValidAllocation_new allocation converted.

Definition apply_field_delta (claim : GovernanceClaim) (field : string) (delta : f64)
    : LResult GovernanceClaim :=
  if decide (field = "strength") then
    let updated := strengthen claim delta in
    if negb (f64_is_finite (gc_strength updated)) || f64_leb (gc_strength updated) f64_zero
    then Err (InvalidGovernanceStrength (gc_claimant_id updated) (gc_strength updated))
    else Ok updated
  else
    let value := f64_add (default f64_zero (gc_metrics claim !! field)) delta in
    if negb (f64_is_finite value)
    then Err (InvalidGate field [Txt "delta produced non-finite value for '";
                                 Txt (gc_claimant_id claim); Txt "'"])
    else Ok (mkGovernanceClaim (gc_claimant_id claim) (gc_strength claim)
               (gc_priority_class claim) (gc_path claim) (gc_action claim) (gc_content claim)
               (<[field := value]> (gc_metrics claim))).

(** What the three checks compute once from the unperturbed claims. *)
Record Baseline := mkBaseline {
  base_decisions : list ClaimDecision;
  base_allocation : ValidAllocation;
  base_claims : list Claim;
  base_estate : Estate;
}.

(** A rejection against a baseline. *)
Definition reject (axiom : string) (base : Baseline) (perturbed : list GovernanceClaim)
    (perturbed_allocation : ValidAllocation) (description violation : Message)
    : LResult Verdict :=
  perturbed_claims ← convert_claims perturbed;
  Ok (Rejected axiom (mkCounterexample description (base_claims base) (base_estate base)
        (base_allocation base) perturbed_claims (base_estate base) perturbed_allocation violation)).

Definition decision_piece (d : Decision) : Piece := Txt (decision_debug d).

(** The outer loop of a check: its verdict when no perturbation is rejected. *)
Definition conclude (axiom : string) (r : LResult (Flow nat Verdict)) : LResult Verdict :=
  fl ← r;
  match fl with
  | Continue perturbations_tested => Ok (Admissible axiom perturbations_tested)
  | Break v => Ok v
  end.

Section binary.
Context `{RegexEngine}.

Definition baseline (node : GovernanceNode) (claims : list GovernanceClaim) : LResult Baseline :=
  decisions ← evaluate_node node claims;
  allocation ← decision_allocation claims decisions;
  original_claims ← convert_claims claims;
  estate ← binary_estate;
  Ok (mkBaseline decisions allocation original_claims estate).

(** One removal of [check_binary_consistency]. *)
Definition consistency_step (node : GovernanceNode) (claims : list GovernanceClaim)
    (base : Baseline) (tested removed_index : nat) : LResult (Flow nat Verdict) :=
  removed ← ok_or (claims !! removed_index) (panicked "index out of bounds");
  let reduced_claims := delete removed_index claims in
  reduced_decisions ← evaluate_node node reduced_claims;
  reduced_allocation ← decision_allocation reduced_claims reduced_decisions;
  fl ← try_loop (λ _ reduced,
    original ← ok_or (find_decision (base_decisions base) (cd_claimant_id reduced))
                 (MissingAllocationShare (cd_claimant_id reduced) "binary consistency original lookup");
    if decide (original = cd_decision reduced) then Ok (Continue tt)
    else
      v ← reject "binary consistency" base reduced_claims reduced_allocation
            [Txt "Removing claimant '"; Txt (gc_claimant_id removed); Txt "' changed '";
             Txt (cd_claimant_id reduced); Txt "' from "; decision_piece original; Txt " to ";
             decision_piece (cd_decision reduced)]
            [Txt "Binary node decisions depend on claimant '"; Txt (gc_claimant_id removed);
             Txt "' being present. Removing one claimant changed another claimant's gate outcome."];
      Ok (Break v)) tt reduced_decisions;
  match fl with Continue _ => Ok (Continue (S tested)) | Break v => Ok (Break v) end.

Definition check_binary_consistency (node : GovernanceNode) (claims : list GovernanceClaim)
    : LResult Verdict :=
  base ← baseline node claims;
  conclude "binary consistency"
    (try_loop (consistency_step node claims base) 0 (seq 0 (length claims))).

(** One shock of [check_binary_solidarity]. *)
Definition solidarity_step (node : GovernanceNode) (claims : list GovernanceClaim)
    (base : Baseline) (tested : nat) (shock : BinaryShock) : LResult (Flow nat Verdict) :=
  let delta := shock_delta shock in
  if negb (f64_is_finite delta) || f64_eqb delta f64_zero then Ok (Continue tested)
  else
    shocked_claims ← try_map (λ claim, apply_field_delta claim (shock_field shock) delta) claims;
    shocked_decisions ← evaluate_node node shocked_claims;
    shocked_allocation ← decision_allocation shocked_claims shocked_decisions;
    fl ← try_loop (λ _ shocked,
      original ← ok_or (find_decision (base_decisions base) (cd_claimant_id shocked))
                   (MissingAllocationShare (cd_claimant_id shocked) "binary solidarity original lookup");
      let before := decision_rank original in
      let after := decision_rank (cd_decision shocked) in
      let wrong_way := if f64_ltb delta f64_zero then bool_decide (before < after)
                       else bool_decide (after < before) in
      if wrong_way then
        let direction := if f64_ltb delta f64_zero then "negative" else "positive" in
        v ← reject "binary solidarity" base shocked_claims shocked_allocation
              [Txt direction; Txt " common shock on '"; Txt (shock_field shock); Txt "' changed '";
               Txt (cd_claimant_id shocked); Txt "' from "; decision_piece original; Txt " to ";
               decision_piece (cd_decision shocked)]
              [Txt "A common "; Txt direction; Txt " shock improved or worsened '";
               Txt (cd_claimant_id shocked);
               Txt "' in the wrong direction. Binary gate logic produced an accidental winner/loser under a shared perturbation."];
        Ok (Break v)
      else Ok (Continue tt)) tt shocked_decisions;
    match fl with Continue _ => Ok (Continue (S tested)) | Break v => Ok (Break v) end.

Definition check_binary_solidarity (node : GovernanceNode) (claims : list GovernanceClaim)
    (shocks : list BinaryShock) : LResult Verdict :=
  base ← baseline node claims;
  conclude "binary solidarity" (try_loop (solidarity_step node claims base) 0 shocks).

(** One strengthened claimant of [check_binary_monotonicity]. *)
Definition monotonicity_step (node : GovernanceNode) (claims : list GovernanceClaim)
    (base : Baseline) (delta : BinaryDelta) (tested index : nat) : LResult (Flow nat Verdict) :=
  strengthened_claims ← try_map (λ '(claim_index, claim),
    if decide (claim_index = index) then apply_field_delta claim (delta_field delta) (delta_delta delta)
    else Ok claim) (zip (seq 0 (length claims)) claims);
  strengthened_decisions ← evaluate_node node strengthened_claims;
  strengthened_allocation ← decision_allocation strengthened_claims strengthened_decisions;
  claim ← ok_or (claims !! index) (panicked "index out of bounds");
  let claimant_id := gc_claimant_id claim in
  before ← ok_or (find_decision (base_decisions base) claimant_id)
             (MissingAllocationShare claimant_id "binary monotonicity baseline lookup");
  after ← ok_or (find_decision strengthened_decisions claimant_id)
            (MissingAllocationShare claimant_id "binary monotonicity strengthened lookup");
  if is_permit before && is_deny after then
    v ← reject "binary monotonicity" base strengthened_claims strengthened_allocation
          [Txt "Strengthening '"; Txt claimant_id; Txt "' on '"; Txt (delta_field delta);
           Txt "' by "; Num2 (delta_delta delta); Txt " flipped Permit to Deny"]
          [Txt "Strengthening '"; Txt claimant_id;
           Txt "' should not flip a permitted claim to denial. The binary gate stack punishes the very strengthening it claims to reward."];
    Ok (Break v)
  else Ok (Continue (S tested)).

Definition check_binary_monotonicity (node : GovernanceNode) (claims : list GovernanceClaim)
    (deltas : list BinaryDelta) : LResult Verdict :=
  base ← baseline node claims;
  conclude "binary monotonicity"
    (try_loop (λ tested delta,
       if negb (f64_is_finite (delta_delta delta)) || f64_leb (delta_delta delta) f64_zero
       then Ok (Continue tested)
       else try_loop (monotonicity_step node claims base delta) tested (seq 0 (length claims)))
       0 deltas).

(* ------------------------------------------------------------------ *)
(** ** Lemmas *)

Lemma find_decision_Some ds id d :
  NoDup (cd_claimant_id <$> ds) → find_decision ds id = Some d ↔ mkClaimDecision id d ∈ ds.
Proof.
  intros Hnd. unfold find_decision. rewrite fmap_Some. split.
  - intros ([i [id' d']] & (Hi & Hid & _)%list_find_Some & ->). simpl in *. subst id'. by eapply list_elem_of_lookup_2.
  - intros Hin. destruct (list_find (λ d, cd_claimant_id d = id) ds) as [[i d']|] eqn:Hf.
    + exists (i, d'). split; [done|]. apply list_find_Some in Hf as (Hi & Hid & _).
      apply list_elem_of_lookup in Hin as [j Hj]. simpl.
      assert (i = j) as ->; [|rewrite Hi in Hj; by injection Hj as ->].
      eapply (NoDup_lookup _ _ _ id Hnd); rewrite list_lookup_fmap; [by rewrite Hi, <-Hid|by rewrite Hj].
    + apply list_find_None in Hf. rewrite Forall_forall in Hf. by destruct (Hf _ Hin).
Qed.

Lemma reject_rejected axiom base p a d v r : reject axiom base p a d v = Ok r → verdict_admissible r = false.
Proof. unfold reject. intros Hr. by invert_binds. Qed.

Lemma evaluate_node_inv node cs ds :
  evaluate_node node cs = Ok ds →
  validate_governance_claims cs = Ok () ∧ evaluate_node_validated node cs = Ok ds ∧
  NoDup (cd_claimant_id <$> ds).
Proof.
  unfold evaluate_node. intros Hev. invert_binds. destruct a. split_and!; [done|done|].
  rewrite (evaluate_node_validated_ids _ _ _ Hev). by apply validate_governance_claims_Ok.
Qed.

Lemma baseline_inv node cs base :
  baseline node cs = Ok base → evaluate_node node cs = Ok (base_decisions base).
Proof. unfold baseline. intros Hb. by invert_binds. Qed.

(** One removal: it counts exactly when no survivor's decision changed. *)
Lemma consistency_step_spec node cs base tested i fl :
  NoDup (cd_claimant_id <$> base_decisions base) →
  consistency_step node cs base tested i = Ok fl →
  ∃ ds', evaluate_node node (delete i cs) = Ok ds' ∧
    match fl with
    | Continue _ => ds' ⊆ base_decisions base
    | Break v => verdict_admissible v = false ∧ ¬ ds' ⊆ base_decisions base
    end.
Proof.
  intros Hnd Hs. unfold consistency_step in Hs. invert_binds. rename a0 into ds'.
  exists ds'. split; [done|].
  match type of Hr2 with try_loop ?f _ _ = _ => set (F := f) in * end. rename Hr2 into Hl.
  destruct a2 as [u|v]; injection Hs as <-.
  - intros d Hd. destruct (try_loop_Continue _ _ _ _ Hl d Hd) as (t & t' & Hf). unfold F in Hf.
    invert_binds. apply find_decision_Some in Ho0; [|done].
    case_decide as Heq; [|by invert_binds]. destruct d as [id d]. simpl in *. by subst.
  - destruct (try_loop_Break _ _ _ _ Hl) as ([id d] & t & Hd & Hf). unfold F in Hf. simpl in Hf.
    invert_binds. case_decide as Heq; [done|]. invert_binds.
    split; [by eapply reject_rejected|]. intros Hsub. apply Hsub in Hd.
    apply (find_decision_Some _ _ _ Hnd) in Hd. congruence.
Qed.

Lemma check_binary_consistency_spec node cs v :
  check_binary_consistency node cs = Ok v →
  ∃ ds, evaluate_node node cs = Ok ds ∧
    (verdict_admissible v = true ↔
     ∀ i ds', i < length cs → evaluate_node node (delete i cs) = Ok ds' → ds' ⊆ ds).
Proof.
  unfold check_binary_consistency. intros Hv. invert_binds. rename a into base.
  apply baseline_inv in Hr. exists (base_decisions base). split; [done|].
  destruct (evaluate_node_inv _ _ _ Hr) as (_ & _ & Hnd). unfold conclude in Hv.
  destruct (try_loop _ _ _) as [[n|v']|e] eqn:Hl; cbn [mbind Result_bind] in Hv; try done;
    injection Hv as <-.
  - split; [|done]. intros _ i ds' Hi Hds'.
    destruct (try_loop_Continue _ _ _ _ Hl i) as (t & t' & Hs); [by apply elem_of_seq; lia|].
    destruct (consistency_step_spec _ _ _ _ _ _ Hnd Hs) as (ds'' & Hds'' & Hsub).
    assert (ds' = ds'') as -> by congruence. done.
  - destruct (try_loop_Break _ _ _ _ Hl) as (i & t & Hi%elem_of_seq & Hs).
    destruct (consistency_step_spec _ _ _ _ _ _ Hnd Hs) as (ds' & Hds' & Hadm & Hsub).
    rewrite Hadm. split; [done|]. intros Hall. destruct Hsub. apply (Hall i); [lia|done].
Qed.

(* ------------------------------------------------------------------ *)
(** ** Properties *)

(** The consistency check of a node is sound and complete for single
    removals: it accepts exactly when no removal of one claimant changes the
    decision of another. *)
Theorem binary_consistency_correct node cs v :
  check_binary_consistency node cs = Ok v →
  ∃ ds, evaluate_node node cs = Ok ds ∧
    (verdict_admissible v = true ↔
     ∀ i ds', i < length cs → evaluate_node node (delete i cs) = Ok ds' → ds' ⊆ ds).
Proof. apply check_binary_consistency_spec. Qed.

(** A node without peer-relative gates always passes the consistency check. *)
Theorem local_node_passes_consistency node cs v :
  node_local node = true → check_binary_consistency node cs = Ok v → verdict_admissible v = true.
Proof.
  intros Hl Hv. destruct (check_binary_consistency_spec _ _ _ Hv) as (ds & Hds & ->).
  intros i ds' Hi Hds' d Hd.
  destruct (evaluate_node_inv _ _ _ Hds) as (Hval & Hev & _).
  destruct (evaluate_node_inv _ _ _ Hds') as (_ & Hev' & _).
  apply validate_governance_claims_Ok in Hval as [_ Hnd].
  eapply (local_decisions_subset node cs (delete i cs)); [done..| |done|done].
  apply sublist_subseteq, sublist_delete.
Qed.

End binary.
