(* ===== verification/GraphDiagnostics.v ===== *)
(** * Perturbation checks of a whole graph
      (src/axioms/diagnostics/graph/{mod,consistency,solidarity,monotonicity,strategyproofness}.rs)

    The four checks run the traversal on perturbed claims and compare final
    decisions.  [apply_field_delta], [convert_claims] and [decision_allocation]
    are the same text in this part of the source as in [BinaryDiagnostics] and
    [GraphCycle], whose definitions are used.  The polarity table is the
    source's, entry for entry. *)

From S2P Require Import Prelude F64 Errors Core GraphNode Tarjan GraphTraverse TraverseSpec GraphCycle BinaryDiagnostics.
From stdpp Require Import options.

Inductive AuditMetricPolarity : Type := HigherBetter | LowerBetter | DiagnosticPresence.

Definition AUDIT_METRIC_POLARITY_SCHEMA : list (string * AuditMetricPolarity) :=
  [("approval_forbidden", LowerBetter);
   ("approval_not_found", LowerBetter);
   ("block_reason", LowerBetter);
   ("blocked_context", LowerBetter);
   ("combined_untrusted_suspicion", LowerBetter);
   ("blocked", LowerBetter);
   ("dangerous_keyword", LowerBetter);
   ("dangerous_pattern", LowerBetter);
   ("dangerous_user_approved", LowerBetter);
   ("dangerous_user_rejected", LowerBetter);
   ("dangerous_without_ui", LowerBetter);
   ("deployment_context", LowerBetter);
   ("hook_invalid_or_unsupported", LowerBetter);
   ("latency", LowerBetter);
   ("monitor_validation_failure", LowerBetter);
   ("paradox_risk", LowerBetter);
   ("policyblocked", LowerBetter);
   ("policy_strictness", LowerBetter);
   ("risk", LowerBetter);
   ("trusted_edit_band_suspicion", LowerBetter);
   ("trusted_edit_top2_suspicion", LowerBetter);
   ("trusted_suspicion", LowerBetter);
   ("trusted_suspicion_defer_band", LowerBetter);
   ("trusted_suspicion_top2", LowerBetter);
   ("test_failure", LowerBetter);
   ("upfront_audit_window", LowerBetter);
   ("after_hook", HigherBetter);
   ("allowacrossproviders", HigherBetter);
   ("allowcrosscontextsend", HigherBetter);
   ("allowed", HigherBetter);
   ("alloweddecisions", HigherBetter);
   ("allowfinalsymlink", HigherBetter);
   ("allowlist", HigherBetter);
   ("allowlist_match", HigherBetter);
   ("allowlistsatisfied", HigherBetter);
   ("allowpluginfallback", HigherBetter);
   ("allowskillpreludeatindex", HigherBetter);
   ("allowskills", HigherBetter);
   ("allowunsafereplay", HigherBetter);
   ("allowwithinprovider", HigherBetter);
   ("agent_id", HigherBetter);
   ("approval", HigherBetter);
   ("approval_policy", HigherBetter);
   ("approval_required", DiagnosticPresence);
   ("approvalcommandid", HigherBetter);
   ("approvalid", HigherBetter);
   ("approvalkind", HigherBetter);
   ("approvalslug", HigherBetter);
   ("approved", HigherBetter);
   ("approvedforsession", HigherBetter);
   ("analysis_ok", HigherBetter);
   ("audit_recorded", HigherBetter);
   ("audit_signal", HigherBetter);
   ("available", HigherBetter);
   ("base_authorization", HigherBetter);
   ("baseline", HigherBetter);
   ("baseline_allow", HigherBetter);
   ("before_hook", HigherBetter);
   ("block_threshold", HigherBetter);
   ("checkpoint_written", HigherBetter);
   ("claude_md_always_execute", HigherBetter);
   ("completed_turn", HigherBetter);
   ("consequential", HigherBetter);
   ("content_length", HigherBetter);
   ("deny_signal", DiagnosticPresence);
   ("denied", DiagnosticPresence);
   ("diversity", HigherBetter);
   ("durable_trust", HigherBetter);
   ("escalated", DiagnosticPresence);
   ("escalate_signal", DiagnosticPresence);
   ("executed", HigherBetter);
   ("execution_skipped", DiagnosticPresence);
   ("fallback_selected", HigherBetter);
   ("file_edit", HigherBetter);
   ("full_access", HigherBetter);
   ("hook", HigherBetter);
   ("hook_blocks", HigherBetter);
   ("hook_event_name", HigherBetter);
   ("hook_registration", HigherBetter);
   ("hook_registration:BeforeToolCall", HigherBetter);
   ("hook_registration:CodeExecutorApproval", HigherBetter);
   ("hook_registration:DialoguePolicy", HigherBetter);
   ("hook_registration:InterruptBeforeTool", HigherBetter);
   ("hook_registration:PreToolUse", HigherBetter);
   ("hook_run_is_quiet_success", HigherBetter);
   ("human_resume_required", DiagnosticPresence);
   ("human_review", HigherBetter);
   ("interrupt", HigherBetter);
   ("invocation_id", HigherBetter);
   ("listed", HigherBetter);
   ("maxTurns", HigherBetter);
   ("memory_id", HigherBetter);
   ("most_common_answer_score", HigherBetter);
   ("needs_approval", DiagnosticPresence);
   ("observation_id", HigherBetter);
   ("permission", HigherBetter);
   ("permission_mode", HigherBetter);
   ("permissiongrantscope", HigherBetter);
   ("permissions", HigherBetter);
   ("patch_applied", HigherBetter);
   ("peer_relative", HigherBetter);
   ("policy", HigherBetter);
   ("policy_cwd", HigherBetter);
   ("policy_for_chat", HigherBetter);
   ("policy_match", HigherBetter);
   ("policy_rule_matched", HigherBetter);
   ("permit_signal", HigherBetter);
   ("primary_failed", DiagnosticPresence);
   ("profile_restricted", HigherBetter);
   ("record_id", HigherBetter);
   ("refusal_emitted", DiagnosticPresence);
   ("reviewdecision", HigherBetter);
   ("runtime_roots_readable", HigherBetter);
   ("sandbox", HigherBetter);
   ("sandbox_policy", HigherBetter);
   ("sandbox_setup_is_complete", HigherBetter);
   ("sandboxpolicy", HigherBetter);
   ("sandboxed", HigherBetter);
   ("sanitize_context", HigherBetter);
   ("scarcity_bonus", HigherBetter);
   ("security_allowlist", HigherBetter);
   ("sensitive_path", HigherBetter);
   ("skip_exec_approval", DiagnosticPresence);
   ("solve_directly", HigherBetter);
   ("specialization_floor", HigherBetter);
   ("specialization_penalty", HigherBetter);
   ("stdout_taken_over", HigherBetter);
   ("strength", HigherBetter);
   ("task_id", HigherBetter);
   ("tests_run", HigherBetter);
   ("tool_call", HigherBetter);
   ("tool_ready", HigherBetter);
   ("tool_name", HigherBetter);
   ("training_context", HigherBetter);
   ("unsafe_intent", DiagnosticPresence);
   ("word_count", HigherBetter)].

(** [AuditMetricPolaritySchema::polarity_for]: the first matching entry. *)
Definition polarity_for (schema : list (string * AuditMetricPolarity)) (field : string)
    : option AuditMetricPolarity :=
  (snd ∘ snd) <$> list_find (λ entry, entry.1 = field) schema.

(** [MISREPORT_DELTAS: [f64; 5] = [-0.3, -0.1, 0.1, 0.3, 0.5]] *)
Definition MISREPORT_DELTAS : list f64 := Eval vm_compute in
  [f64_lit (-3) 10; f64_lit (-1) 10; f64_lit 1 10; f64_lit 3 10; f64_lit 5 10].

Definition same_class_groups (claims : list GovernanceClaim) : list (list string) :=
  let groups := foldl (λ groups claim,
    let class := default (gc_claimant_id claim) (gc_priority_class claim) in
    <[class := default [] (groups !! class) ++ [gc_claimant_id claim]]> groups)
    (∅ : gmap string (list string)) claims in
  filter (λ group, 1 < length group) (btree_values groups).

Definition decision_direction (before after : Decision) : Z :=
  match Z.compare (Z.of_nat (decision_rank after)) (Z.of_nat (decision_rank before)) with
  | Lt => -1 | Eq => 0 | Gt => 1
  end.

Definition claimant_ids (claims : list GovernanceClaim) : gset string :=
  list_to_set (gc_claimant_id <$> claims).

Definition graph_estate : LResult Estate := Estate_new (f64_of_Z 2) "binary-decision-rank".

(** What each check computes once from the unperturbed claims. *)
Record GraphBaseline := mkGraphBaseline {
  gbase_decisions : gmap string Decision;
  gbase_allocation : ValidAllocation;
  gbase_claims : list Claim;
  gbase_estate : Estate;
}.

Definition graph_reject (axiom : string) (base : GraphBaseline) (perturbed : list GovernanceClaim)
    (perturbed_allocation : ValidAllocation) (description violation : Message)
    : LResult Verdict :=
  perturbed_claims ← convert_claims perturbed;
  Ok (Rejected axiom (mkCounterexample description (gbase_claims base) (gbase_estate base)
        (gbase_allocation base) perturbed_claims (gbase_estate base) perturbed_allocation violation)).

(** The decision of [id] before or after the perturbation. *)
Definition decision_of (decisions : gmap string Decision) (id context : string) : LResult Decision :=
  ok_or (decisions !! id) (missing_allocation_share id context).

(** The claims with the one at [index] changed by [f]. *)
Definition perturb_at (f : GovernanceClaim → LResult GovernanceClaim) (index : nat)
    (claims : list GovernanceClaim) : LResult (list GovernanceClaim) :=
  try_map (λ '(claim_index, claim), if decide (claim_index = index) then f claim else Ok claim)
    (zip (seq 0 (length claims)) claims).

Section graph_checks.
Context `{RegexEngine}.

Definition graph_final_decisions (graph : GovernanceGraph) (claims : list GovernanceClaim)
    : LResult (gmap string Decision) := traverse_final_decisions graph claims.

Definition graph_baseline (graph : GovernanceGraph) (claims : list GovernanceClaim)
    : LResult GraphBaseline :=
  decisions ← graph_final_decisions graph claims;
  allocation ← GraphCycle.decision_allocation claims decisions;
  original_claims ← convert_claims claims;
  estate ← graph_estate;
  Ok (mkGraphBaseline decisions allocation original_claims estate).

(** *** Consistency *)

Definition graph_consistency_step (graph : GovernanceGraph) (claims : list GovernanceClaim)
    (base : GraphBaseline) (tested removed_index : nat) : LResult (Flow nat Verdict) :=
  removed ← ok_or (claims !! removed_index) (panicked "index out of bounds");
  let reduced_claims := delete removed_index claims in
  reduced_decisions ← graph_final_decisions graph reduced_claims;
  reduced_allocation ← GraphCycle.decision_allocation reduced_claims reduced_decisions;
  fl ← try_loop (λ _ claim,
    before ← decision_of (gbase_decisions base) (gc_claimant_id claim) "graph consistency original lookup";
    after ← decision_of reduced_decisions (gc_claimant_id claim) "graph consistency reduced lookup";
    if decide (before = after) then Ok (Continue tt)
    else
      v ← graph_reject "graph consistency" base reduced_claims reduced_allocation
            [Txt "Removing claimant '"; Txt (gc_claimant_id removed); Txt "' changed '";
             Txt (gc_claimant_id claim); Txt "' from "; decision_piece before; Txt " to ";
             decision_piece after]
            [Txt "The composed graph depends on '"; Txt (gc_claimant_id removed);
             Txt "' being present. Removing one claimant changed an unrelated claimant's final exit decision."];
      Ok (Break v)) tt reduced_claims;
  match fl with Continue _ => Ok (Continue (S tested)) | Break v => Ok (Break v) end.

Definition check_graph_consistency (graph : GovernanceGraph) (claims : list GovernanceClaim)
    : LResult Verdict :=
  base ← graph_baseline graph claims;
  conclude "graph consistency"
    (try_loop (graph_consistency_step graph claims base) 0 (seq 0 (length claims))).

(** *** Solidarity *)

(** The two flags of one priority class after a shock: improvement, worsening. *)
Definition class_movement (original shocked : gmap string Decision) (ids : gset string)
    (group : list string) : LResult (bool * bool) :=
  try_fold (λ flags id,
    if decide (id ∈ ids) then
      before ← decision_of original id "graph solidarity original lookup";
      after ← decision_of shocked id "graph solidarity shocked lookup";
      let direction := decision_direction before after in
      Ok (flags.1 || bool_decide (direction = 1)%Z, flags.2 || bool_decide (direction = -1)%Z)
    else Ok flags) (false, false) group.

Definition graph_solidarity_step (graph : GovernanceGraph) (claims : list GovernanceClaim)
    (base : GraphBaseline) (tested : nat) (shock : BinaryShock) : LResult (Flow nat Verdict) :=
  let delta := shock_delta shock in
  if negb (f64_is_finite delta) || f64_eqb delta f64_zero then Ok (Continue tested)
  else
    shocked_claims ← try_map (λ claim, apply_field_delta claim (shock_field shock) delta) claims;
    shocked_decisions ← graph_final_decisions graph shocked_claims;
    shocked_allocation ← GraphCycle.decision_allocation shocked_claims shocked_decisions;
    fl ← try_loop (λ _ group,
      flags ← class_movement (gbase_decisions base) shocked_decisions (claimant_ids claims) group;
      if (flags.1 && flags.2 : bool) then
        v ← graph_reject "graph solidarity" base shocked_claims shocked_allocation
              [Txt "Common shock on '"; Txt (shock_field shock); Txt "' split priority class ";
               Names group; Txt " into winners and losers"]
              [Txt "A shared entry shock produced opposite exit movements inside one priority class. The composed graph created accidental winners and losers."];
        Ok (Break v)
      else Ok (Continue tt)) tt (same_class_groups claims);
    match fl with Continue _ => Ok (Continue (S tested)) | Break v => Ok (Break v) end.

Definition check_graph_solidarity (graph : GovernanceGraph) (claims : list GovernanceClaim)
    (shocks : list BinaryShock) : LResult Verdict :=
  base ← graph_baseline graph claims;
  conclude "graph solidarity" (try_loop (graph_solidarity_step graph claims base) 0 shocks).

(** *** Monotonicity *)

(** One improved claimant; [verb] and [changed] are the words that differ
    between the schema-aware check and the legacy one. *)
Definition graph_monotonicity_step (verb changed : string) (graph : GovernanceGraph)
    (claims : list GovernanceClaim) (base : GraphBaseline) (delta : BinaryDelta)
    (improvement_delta : f64) (tested index : nat) : LResult (Flow nat Verdict) :=
  strengthened_claims ←
    perturb_at (λ claim, apply_field_delta claim (delta_field delta) improvement_delta) index claims;
  strengthened_decisions ← graph_final_decisions graph strengthened_claims;
  strengthened_allocation ← GraphCycle.decision_allocation strengthened_claims strengthened_decisions;
  strengthened ← ok_or (claims !! index) (panicked "index out of bounds");
  fl ← try_loop (λ _ id,
    before ← decision_of (gbase_decisions base) id "graph monotonicity original lookup";
    after ← decision_of strengthened_decisions id "graph monotonicity strengthened lookup";
    if bool_decide (decision_direction before after < 0)%Z then
      v ← graph_reject "graph monotonicity" base strengthened_claims strengthened_allocation
            [Txt verb; Txt " '"; Txt (gc_claimant_id strengthened); Txt "' on '";
             Txt (delta_field delta); Txt "' by "; Num2 (delta_delta delta); Txt " worsened '";
             Txt id; Txt "' from "; decision_piece before; Txt " to "; decision_piece after]
            [Txt changed; Txt " '"; Txt (gc_claimant_id strengthened);
             Txt "' changed the composed graph so that '"; Txt id;
             Txt "' became strictly worse at the exit node."];
      Ok (Break v)
    else Ok (Continue tt)) tt (bset_iter (claimant_ids claims));
  match fl with Continue _ => Ok (Continue (S tested)) | Break v => Ok (Break v) end.

Definition monotonicity_check_via_polarity_schema (graph : GovernanceGraph)
    (claims : list GovernanceClaim) (deltas : list BinaryDelta)
    (schema : list (string * AuditMetricPolarity)) : LResult Verdict :=
  base ← graph_baseline graph claims;
  conclude "graph monotonicity"
    (try_loop (λ tested delta,
       if negb (f64_is_finite (delta_delta delta)) || f64_leb (delta_delta delta) f64_zero
       then Ok (Continue tested)
       else
         let improve improvement_delta :=
           try_loop (graph_monotonicity_step "Improving" "Schema-aware improvement of" graph claims
                       base delta improvement_delta) tested (seq 0 (length claims)) in
         match polarity_for schema (delta_field delta) with
         | Some HigherBetter => improve (delta_delta delta)
         | Some LowerBetter => improve (f64_neg (delta_delta delta))
         | Some DiagnosticPresence => Ok (Continue tested)
         | None => Err (InvalidGate (delta_field delta)
                     [Txt "metric field '"; Txt (delta_field delta);
                      Txt "' has no schema polarity annotation"])
         end) 0 deltas).

Definition check_graph_monotonicity (graph : GovernanceGraph) (claims : list GovernanceClaim)
    (deltas : list BinaryDelta) : LResult Verdict :=
  monotonicity_check_via_polarity_schema graph claims deltas AUDIT_METRIC_POLARITY_SCHEMA.

Definition check_graph_monotonicity_positive_delta (graph : GovernanceGraph)
    (claims : list GovernanceClaim) (deltas : list BinaryDelta) : LResult Verdict :=
  base ← graph_baseline graph claims;
  conclude "graph monotonicity"
    (try_loop (λ tested delta,
       if negb (f64_is_finite (delta_delta delta)) || f64_leb (delta_delta delta) f64_zero
       then Ok (Continue tested)
       else try_loop (graph_monotonicity_step "Strengthening" "Strengthening" graph claims base delta
                        (delta_delta delta)) tested (seq 0 (length claims))) 0 deltas).

(** *** Strategyproofness *)

Definition set_strength (claim : GovernanceClaim) (strength : f64) : GovernanceClaim :=
  mkGovernanceClaim (gc_claimant_id claim) strength (gc_priority_class claim) (gc_path claim)
    (gc_action claim) (gc_content claim) (gc_metrics claim).

(** One misreport of the claimant at [index]. *)
Definition misreport_step (graph : GovernanceGraph) (claims : list GovernanceClaim)
    (base : GraphBaseline) (index : nat) (misreporter : GovernanceClaim) (true_decision : Decision)
    (tested : nat) (delta : f64) : LResult (Flow nat Verdict) :=
  let reported_strength := f64_add (gc_strength misreporter) delta in
  if negb (f64_is_finite reported_strength) || f64_leb reported_strength f64_zero
  then Ok (Continue tested)
  else
    misreported_claims ← perturb_at (λ claim, Ok (set_strength claim reported_strength)) index claims;
    misreported_decisions ← graph_final_decisions graph misreported_claims;
    misreported_allocation ← GraphCycle.decision_allocation misreported_claims misreported_decisions;
    misreported_decision ← decision_of misreported_decisions (gc_claimant_id misreporter)
                             "graph strategyproofness misreported lookup";
    if bool_decide (decision_rank true_decision < decision_rank misreported_decision) then
      v ← graph_reject "graph strategyproofness" base misreported_claims misreported_allocation
            [Txt "Claimant '"; Txt (gc_claimant_id misreporter); Txt "' improved from ";
             decision_piece true_decision; Txt " to "; decision_piece misreported_decision;
             Txt " by misreporting strength "; Num2 (gc_strength misreporter); Txt " -> ";
             Num2 reported_strength]
            [Txt "Claimant '"; Txt (gc_claimant_id misreporter);
             Txt "' can strategically misreport claim strength to achieve a better governance outcome. The composed graph is manipulable."];
      Ok (Break v)
    else Ok (Continue (S tested)).

Definition check_graph_strategyproofness (graph : GovernanceGraph) (claims : list GovernanceClaim)
    : LResult Verdict :=
  base ← graph_baseline graph claims;
  conclude "graph strategyproofness"
    (try_loop (λ tested index,
       misreporter ← ok_or (claims !! index) (panicked "index out of bounds");
       true_decision ← decision_of (gbase_decisions base) (gc_claimant_id misreporter)
                         "graph strategyproofness original lookup";
       try_loop (misreport_step graph claims base index misreporter true_decision) tested
         MISREPORT_DELTAS) 0 (seq 0 (length claims))).

(* ------------------------------------------------------------------ *)
(** ** Lemmas *)

Lemma graph_baseline_inv g cs base :
  graph_baseline g cs = Ok base → traverse_final_decisions g cs = Ok (gbase_decisions base).
Proof. unfold graph_baseline, graph_final_decisions. intros Hb. by invert_binds. Qed.

Lemma graph_reject_rejected axiom base p a d v r :
  graph_reject axiom base p a d v = Ok r → verdict_admissible r = false.
Proof. unfold graph_reject. intros Hr. by invert_binds. Qed.

(** No survivor of [kept] is decided differently. *)
Definition same_decisions (kept : list GovernanceClaim) (before after : gmap string Decision) : Prop :=
  ∀ c, c ∈ kept → before !! gc_claimant_id c = after !! gc_claimant_id c.

Lemma graph_consistency_step_spec g cs base tested i fl :
  graph_consistency_step g cs base tested i = Ok fl →
  ∃ after, traverse_final_decisions g (delete i cs) = Ok after ∧
    match fl with
    | Continue _ => same_decisions (delete i cs) (gbase_decisions base) after
    | Break v => verdict_admissible v = false ∧
                 ¬ same_decisions (delete i cs) (gbase_decisions base) after
    end.
Proof.
  intros Hs. unfold graph_consistency_step, graph_final_decisions in Hs. invert_binds.
  rename a0 into after. exists after. split; [done|].
  match type of Hr2 with try_loop ?f _ _ = _ => set (F := f) in * end. rename Hr2 into Hl.
  destruct a2 as [u|v]; injection Hs as <-.
  - intros c Hc. destruct (try_loop_Continue _ _ _ _ Hl c Hc) as (t & t' & Hf).
    unfold F, decision_of in Hf. invert_binds. case_decide; [congruence|by invert_binds].
  - destruct (try_loop_Break _ _ _ _ Hl) as (c & t & Hc & Hf).
    unfold F, decision_of in Hf. invert_binds. case_decide; [done|]. invert_binds.
    split; [by eapply graph_reject_rejected|]. intros Hsame. specialize (Hsame c Hc). congruence.
Qed.

Lemma check_graph_consistency_spec g cs v :
  check_graph_consistency g cs = Ok v →
  ∃ before, traverse_final_decisions g cs = Ok before ∧
    (verdict_admissible v = true ↔
     ∀ i after, i < length cs → traverse_final_decisions g (delete i cs) = Ok after →
       same_decisions (delete i cs) before after).
Proof.
  unfold check_graph_consistency. intros Hv. invert_binds. rename a into base.
  exists (gbase_decisions base). split; [by apply graph_baseline_inv|]. unfold conclude in Hv.
  destruct (try_loop _ _ _) as [[n|v']|e] eqn:Hl; cbn [mbind Result_bind] in Hv; try done;
    injection Hv as <-.
  - split; [|done]. intros _ i after Hi Hafter.
    destruct (try_loop_Continue _ _ _ _ Hl i) as (t & t' & Hs); [by apply elem_of_seq; lia|].
    destruct (graph_consistency_step_spec _ _ _ _ _ _ Hs) as (after' & Hafter' & Hsame).
    assert (after = after') as -> by congruence. done.
  - destruct (try_loop_Break _ _ _ _ Hl) as (i & t & Hi%elem_of_seq & Hs).
    destruct (graph_consistency_step_spec _ _ _ _ _ _ Hs) as (after & Hafter & Hadm & Hsame).
    rewrite Hadm. split; [done|]. intros Hall. destruct Hsame. apply (Hall i); [lia|done].
Qed.

(** *** Graphs of local nodes decide each claim on its own *)

Definition graph_local (g : GovernanceGraph) : Prop :=
  ∀ v node, nodes g !! v = Some node → node_local node = true.

Lemma local_spec_agree g cs cs' final final' nds nds' c :
  graph_wf g → acyclic g → graph_local g → NoDup (gc_claimant_id <$> cs) → cs' ⊆ cs → c ∈ cs' →
  traversal_spec g cs final nds → traversal_spec g cs' final' nds' →
  final !! gc_claimant_id c = final' !! gc_claimant_id c.
Proof.
  intros Hwf Hac Hloc Hnd Hsub Hc [Hd Hb Hf] [Hd' Hb' Hf']. set (id := gc_claimant_id c) in *.
  assert (∀ v, is_Some (nds !! v) ↔ is_Some (nds' !! v)) as Hdd by (intros v; by rewrite Hd, Hd').
  assert (∀ v ds ds', nds !! v = Some ds → nds' !! v = Some ds' → ∀ d,
    mkClaimDecision id d ∈ ds ↔ mkClaimDecision id d ∈ ds') as Heq.
  { intros v. induction (acyclic_pred_Acc g Hwf Hac v) as [v _ IH]. intros ds ds' Hv Hv' d.
    destruct (proj1 (Hd v) (mk_is_Some _ _ Hv)) as [node Hnode].
    destruct (Hb v node ds Hnode Hv) as (b & [_ Hel] & Hev).
    destruct (Hb' v node ds' Hnode Hv') as (b' & [_ Hel'] & Hev').
    rewrite (elem_of_node_decisions _ _ _ _ _ Hev), (elem_of_node_decisions _ _ _ _ _ Hev').
    assert (fed g nds v id ↔ fed g nds' v id) as Hfed.
    { unfold fed, escalated. apply or_iff_compat_l.
      split; intros (u & Hu & dsu & Hdsu & Hin); exists u; (split; [done|]).
      - destruct (proj1 (Hdd u) (mk_is_Some _ _ Hdsu)) as [dsu' Hdsu']. exists dsu'.
        split; [done|]. by apply (IH u Hu dsu dsu').
      - destruct (proj2 (Hdd u) (mk_is_Some _ _ Hdsu)) as [dsu' Hdsu']. exists dsu'.
        split; [done|]. by apply (IH u Hu dsu' dsu). }
    assert (c ∈ cs) as Hccs by auto.
    split; intros (c' & Hc' & Hid & Hdec); exists c; (split; [|split; [done|]]).
    - apply Hel'. split; [done|]. apply Hfed. apply Hel in Hc' as [_ Hfc]. by rewrite Hid in Hfc.
    - apply Hel in Hc' as [Hc'cs _].
      assert (c' = c) as -> by by eapply (valid_claims_inj cs).
      by rewrite (node_decision_local node c b' b (Hloc _ _ Hnode)).
    - apply Hel. split; [done|]. apply Hfed. apply Hel' in Hc' as [_ Hfc]. by rewrite Hid in Hfc.
    - apply Hel' in Hc' as [Hc'cs _]. apply Hsub in Hc'cs.
      assert (c' = c) as -> by by eapply (valid_claims_inj cs).
      by rewrite (node_decision_local node c b b' (Hloc _ _ Hnode)). }
  eapply strictest_unique; [apply Hf|]. eapply strictest_ext, Hf'.
  intros d. unfold recorded. split; intros (u & dsu & Hdsu & Hin & Hs).
  - destruct (proj2 (Hdd u) (mk_is_Some _ _ Hdsu)) as [dsu' Hdsu'].
    exists u, dsu'. split_and!; [done| |done]. by apply (Heq u dsu' dsu).
  - destruct (proj1 (Hdd u) (mk_is_Some _ _ Hdsu)) as [dsu' Hdsu'].
    exists u, dsu'. split_and!; [done| |done]. by apply (Heq u dsu dsu').
Qed.

Lemma traverse_final_decisions_Ok g cs final :
  graph_wf g → traverse_final_decisions g cs = Ok final →
  validate_governance_claims cs = Ok () ∧ acyclic g ∧ ∃ nds, traversal_spec g cs final nds.
Proof.
  intros Hwf Hr. unfold traverse_final_decisions in Hr.
  destruct (validate_governance_claims cs) as [[]|e] eqn:Hv.
  2:{ unfold traverse_claims in Hr. by rewrite Hv in Hr. }
  destruct (valid_claims_facts cs Hv) as [Hok Hnd].
  destruct (traverse_claims_cases g cs Hwf Hv false)
    as [(_ & cyc & Hc)|[(_ & _ & Hc)|(Hac & Hne & [(e & Hc & _)|(final' & nds & Hc & Hsp)])]];
    rewrite Hc in Hr; cbn [mbind Result_bind] in Hr; try discriminate.
  injection Hr as <-. eauto.
Qed.

(* ------------------------------------------------------------------ *)
(** ** Properties *)

(** The consistency check of a graph is sound and complete for single
    removals: it accepts exactly when no removal of one claimant changes the
    final decision of another. *)
Theorem graph_consistency_correct g cs v :
  check_graph_consistency g cs = Ok v →
  ∃ before, traverse_final_decisions g cs = Ok before ∧
    (verdict_admissible v = true ↔
     ∀ i after, i < length cs → traverse_final_decisions g (delete i cs) = Ok after →
       same_decisions (delete i cs) before after).
Proof. apply check_graph_consistency_spec. Qed.

(** Consistency composes: a graph all of whose nodes are free of
    peer-relative gates passes the consistency check on every input it can be
    traversed on. *)
Theorem local_graph_passes_consistency g cs v :
  graph_wf g → graph_local g → check_graph_consistency g cs = Ok v → verdict_admissible v = true.
Proof.
  intros Hwf Hloc Hv. destruct (check_graph_consistency_spec _ _ _ Hv) as (before & Hbef & ->).
  intros i after Hi Haft c Hc.
  destruct (traverse_final_decisions_Ok _ _ _ Hwf Hbef) as (Hval & Hac & nds & Hsp).
  destruct (traverse_final_decisions_Ok _ _ _ Hwf Haft) as (_ & _ & nds' & Hsp').
  apply validate_governance_claims_Ok in Hval as [_ Hnd].
  eapply (local_spec_agree g cs (delete i cs)); try done. apply sublist_subseteq, sublist_delete.
Qed.

End graph_checks.
