(* ===== verification/Observable.v ===== *)
(** * Kernel axioms and their verdicts (src/axioms/kernel/mod.rs)

    The axiom family, the three-valued verdict and its partial conversion to
    the two-valued [Verdict]. *)

From S2P Require Import Prelude F64 Errors Core GraphNode Tarjan GraphTraverse TraverseSpec GraphCycle GraphDiagnostics.
From stdpp Require Import options.

Inductive KernelAxiom : Type :=
  | Certifiable | Observable | Corrigible | CompositionalSafety | NonVacuous.

Global Instance KernelAxiom_eq_dec : EqDecision KernelAxiom.
Proof. solve_decision. Defined.

Definition graph_axiom_name (axiom : KernelAxiom) : string :=
  match axiom with
  | Certifiable => "graph certifiability"
  | Observable => "graph observable determinacy"
  | Corrigible => "graph corrigibility"
  | CompositionalSafety => "graph compositional safety"
  | NonVacuous => "graph nonvacuity"
  end.

Inductive AxiomVerdict : Type :=
  | Pass (axiom : KernelAxiom) (perturbations_tested : N)
  | Fail (axiom : KernelAxiom) (reason : Message) (witness : Counterexample)
  | Skipped (axiom : KernelAxiom) (reason : Message).

Definition is_fail (v : AxiomVerdict) : bool := match v with Fail _ _ _ => true | _ => false end.
Definition is_pass (v : AxiomVerdict) : bool := match v with Pass _ _ => true | _ => false end.

Record SkippedAxiomVerdict := mkSkipped { skipped_axiom : KernelAxiom; skipped_reason : Message }.

(** [impl TryFrom<AxiomVerdict> for Verdict] *)
Definition verdict_try_from (value : AxiomVerdict) : Result SkippedAxiomVerdict Verdict :=
  match value with
  | Pass axiom n => Ok (Admissible (graph_axiom_name axiom) (N.to_nat n))
  | Fail axiom _ witness => Ok (Rejected (graph_axiom_name axiom) witness)
  | Skipped axiom reason => Err (mkSkipped axiom reason)
  end.

(** The names separate the axioms, so a verdict names its axiom uniquely. *)
Lemma graph_axiom_name_inj a b : graph_axiom_name a = graph_axiom_name b → a = b.
Proof. by destruct a, b. Qed.

(* ------------------------------------------------------------------ *)
(** * Observable determinacy (src/axioms/kernel/observable.rs)

    Exhaustive evaluation of a graph in every legal topological order.  The
    recursive enumerations are on fuel, one unit per node left to order; the
    counts mutated and restored around each branch are threaded as state.
    [incoming_counts] and [outgoing_edges] are the same text as in
    src/graph/traverse.rs, whose definitions are used. *)

Definition EXHAUSTIVE_OBSERVABLE_ORDER_LIMIT : N := 100000.
Definition EXHAUSTIVE_OBSERVABLE_NODE_LIMIT : nat := 10.

(** [usize::MAX], where [saturating_add] stops. *)
Definition usize_max : N := 18446744073709551615.

Definition format_order (order : list NodeId) : string := join " -> " order.

(** [convert_governance_claims]: the metrics are inserted one by one. *)
Definition convert_governance_claims (claims : list GovernanceClaim) : LResult (list Claim) :=
  try_map (λ claim,
    converted ← Claim_new (gc_claimant_id claim) (gc_strength claim);
    Ok (foldl (λ converted kv, Claim_with_metric converted kv.1 kv.2) converted
          (btree_iter (gc_metrics claim)))) claims.

Definition decision_rank_f64 (d : Decision) : f64 :=
  match d with Deny => f64_zero | Escalate => f64_one | Permit => f64_of_Z 2 end.

Definition decision_allocation (claims : list GovernanceClaim) (decisions : gmap string Decision)
    : LResult ValidAllocation :=
  let allocation := foldl (λ allocation claim,
    <[gc_claimant_id claim :=
        decision_rank_f64 (default Escalate (decisions !! gc_claimant_id claim))]> allocation)
    (∅ : Allocation) claims in
  converted ← convert_governance_claims claims;
  ValidAllocation_new allocation converted.

(** The nodes without incoming edges, in key order. *)
Definition ready_nodes (graph : GovernanceGraph) (incoming : gmap NodeId nat) : list NodeId :=
  filter (λ id, default 0 (incoming !! id) = 0) (btree_keys (nodes graph)).

Definition edges_from (graph : GovernanceGraph) (id : NodeId) : list GovernanceEdge :=
  filter (λ edge, from edge = id) (edges graph).

(** Give back the incoming edge taken by [relax_edge]. *)
Definition restore_edge (incoming : gmap NodeId nat) (edge : GovernanceEdge)
    : LResult (gmap NodeId nat) :=
  remaining ← ok_or (incoming !! to edge) (InvalidEdgeReference (to edge));
  Ok (<[to edge := S remaining]> incoming).

(** The error of an enumeration that runs out of ready nodes. *)
Definition first_cycle_error {A} (graph : GovernanceGraph) : LResult A :=
  cycles ← detect_cycles graph; Err (CycleError (default [] (head cycles))).

Fixpoint count_orders (fuel : nat) (graph : GovernanceGraph) (incoming : gmap NodeId nat)
    (ready : gset NodeId) (prefix_len : nat) (limit : N) : LResult (N * gmap NodeId nat) :=
  match fuel with
  | O => Err out_of_fuel
  | S fuel =>
      if decide (prefix_len = size (nodes graph)) then Ok (1%N, incoming)
      else if decide (ready = ∅) then first_cycle_error graph
      else
        fl ← try_loop (λ st id,
          let '(total, incoming) := st in
          next ← try_fold relax_edge (incoming, ready ∖ {[id]}) (edges_from graph id);
          branch ← count_orders fuel graph next.1 next.2 (S prefix_len) limit;
          incoming ← try_fold restore_edge branch.2 (edges_from graph id);
          let total := N.min (total + branch.1) usize_max in
          Ok (if (limit <? total)%N then Break (total, incoming) else Continue (total, incoming)))
          (0%N, incoming) (bset_iter ready);
        Ok match fl with Continue r | Break r => r end
  end.

Definition count_topological_orders_up_to (graph : GovernanceGraph) (limit : N) : LResult N :=
  let incoming := incoming_counts graph in
  r ← count_orders (S (size (nodes graph))) graph incoming
        (list_to_set (ready_nodes graph incoming)) 0 limit;
  Ok r.1.

Fixpoint enumerate_orders (fuel : nat) (graph : GovernanceGraph) (incoming : gmap NodeId nat)
    (ready : gset NodeId) (prefix : list NodeId) (orders : list (list NodeId))
    : LResult (gmap NodeId nat * list (list NodeId)) :=
  match fuel with
  | O => Err out_of_fuel
  | S fuel =>
      if decide (length prefix = size (nodes graph)) then Ok (incoming, orders ++ [prefix])
      else if decide (ready = ∅) then first_cycle_error graph
      else
        try_fold (λ st id,
          let '(incoming, orders) := st in
          next ← try_fold relax_edge (incoming, ready ∖ {[id]}) (edges_from graph id);
          branch ← enumerate_orders fuel graph next.1 next.2 (prefix ++ [id]) orders;
          incoming ← try_fold restore_edge branch.1 (edges_from graph id);
          Ok (incoming, branch.2)) (incoming, orders) (bset_iter ready)
  end.

Definition all_topological_orders (graph : GovernanceGraph) : LResult (list (list NodeId)) :=
  let incoming := incoming_counts graph in
  r ← enumerate_orders (S (size (nodes graph))) graph incoming
        (list_to_set (ready_nodes graph incoming)) [] [];
  Ok r.2.

(** One step of the position map in [validate_topological_order]. *)
Definition record_position (graph : GovernanceGraph) (st : gset NodeId * gmap NodeId nat)
    (entry : nat * NodeId) : LResult (gset NodeId * gmap NodeId nat) :=
  let '(seen, positions) := st in
  let '(index, id) := entry in
  _ ← ok_or (nodes graph !! id) (InvalidEdgeReference id);
  if decide (id ∈ seen)
  then Err (invalid_input [Txt "node '"; Txt id; Txt "' appears more than once in evaluation order"])
  else Ok ({[id]} ∪ seen, <[id := index]> positions).

Definition validate_topological_order (graph : GovernanceGraph) (order : list NodeId)
    : LResult unit :=
  _ ← ensure (bool_decide (length order = size (nodes graph)))
        (invalid_input [Txt "topological order must include every node exactly once"]);
  st ← try_fold (record_position graph) (∅, ∅) (zip (seq 0 (length order)) order);
  try_iter (λ edge,
    f ← ok_or (st.2 !! from edge) (InvalidEdgeReference (from edge));
    t ← ok_or (st.2 !! to edge) (InvalidEdgeReference (to edge));
    if bool_decide (t ≤ f)
    then Err (invalid_input [Txt "order "; Txt (format_order order); Txt " violates edge ";
                             Txt (from edge); Txt " -> "; Txt (to edge)])
    else Ok ()) (edges graph).

(** The canonical order: the list of ready nodes is sorted before each pick. *)
Fixpoint canonical_loop (fuel : nat) (graph : GovernanceGraph) (incoming : gmap NodeId nat)
    (ready order : list NodeId) : LResult (list NodeId) :=
  match sort_strings ready with
  | [] => Ok order
  | id :: ready =>
      match fuel with
      | O => Err out_of_fuel
      | S fuel =>
          st ← try_fold (λ st edge,
            let '(incoming, ready) := st in
            remaining ← ok_or (incoming !! to edge) (InvalidEdgeReference (to edge));
            match remaining with
            | O => Err (panicked "attempt to subtract with overflow")
            | S remaining =>
                Ok (<[to edge := remaining]> incoming,
                    if bool_decide (remaining = 0) then ready ++ [to edge] else ready)
            end) (incoming, ready) (edges_from graph id);
          canonical_loop fuel graph st.1 st.2 (order ++ [id])
      end
  end.

Definition topological_order (graph : GovernanceGraph) : LResult (list NodeId) :=
  let incoming := incoming_counts graph in
  order ← canonical_loop (size (nodes graph) + length (edges graph)) graph incoming
            (ready_nodes graph incoming) [];
  _ ← validate_topological_order graph order;
  Ok order.

Definition first_difference (left right : gmap string Decision) (claims : list GovernanceClaim)
    : option (string * Decision * Decision) :=
  let ids := bset_iter (claimant_ids claims) in
  let dec (m : gmap string Decision) id := default Escalate (m !! id) in
  (λ p, (p.2, dec left p.2, dec right p.2)) <$> list_find (λ id, dec left id ≠ dec right id) ids.

Definition observable_rejection (axiom : KernelAxiom) (claims : list GovernanceClaim)
    (description : Message) (original_decisions perturbed_decisions : gmap string Decision)
    : LResult AxiomVerdict :=
  original_claims ← convert_governance_claims claims;
  original_estate ← Estate_new (f64_of_Z 2) "binary-decision-rank";
  original_allocation ← decision_allocation claims original_decisions;
  perturbed_claims ← convert_governance_claims claims;
  perturbed_estate ← Estate_new (f64_of_Z 2) "binary-decision-rank";
  perturbed_allocation ← decision_allocation claims perturbed_decisions;
  Ok (Fail axiom description
        (mkCounterexample description original_claims original_estate original_allocation
           perturbed_claims perturbed_estate perturbed_allocation
           [Txt (graph_axiom_name axiom);
            Txt " requires claimant decisions to be invariant across legal traversal orders"])).

Section observable.
Context `{RegexEngine}.

Definition evaluate_with_order (graph : GovernanceGraph) (claims : list GovernanceClaim)
    (order : list NodeId) : LResult (gmap string Decision) :=
  _ ← validate_topological_order graph order;
  let entry_nodes := ready_nodes graph (incoming_counts graph) in
  if bool_decide (nodes graph = ∅) || bool_decide (entry_nodes = []) then Err NoEntryNodes
  else
    let queued := foldl (λ queued id, <[id := claims]> queued) ∅ entry_nodes in
    st ← try_fold (visit_with evaluate_node merge_claim_batches graph (outgoing_edges graph))
           (mkTraverseState queued ∅ None) order;
    Ok (ts_final st).

Definition check_graph_traversal_order_invariance (graph : GovernanceGraph)
    (claims : list GovernanceClaim) : LResult AxiomVerdict :=
  cycles ← detect_cycles graph;
  if negb (bool_decide (cycles = [])) then
    Ok (Skipped Observable [Txt "cyclic graphs are handled by cycle and nonvacuity probes"])
  else if bool_decide (nodes graph = ∅) then
    Ok (Skipped Observable [Txt "empty graph has no order-dependent decision surface"])
  else
    canonical_order ← topological_order graph;
    canonical ← evaluate_with_order graph claims canonical_order;
    if bool_decide (EXHAUSTIVE_OBSERVABLE_NODE_LIMIT < size (nodes graph)) then
      Ok (Skipped Observable
            [Txt "graph has "; Int (Z.of_nat (size (nodes graph)));
             Txt " nodes, above exhaustive observable-determinacy limit ";
             Int (Z.of_nat EXHAUSTIVE_OBSERVABLE_NODE_LIMIT)])
    else
      order_count ← count_topological_orders_up_to graph EXHAUSTIVE_OBSERVABLE_ORDER_LIMIT;
      if (EXHAUSTIVE_OBSERVABLE_ORDER_LIMIT <? order_count)%N then
        Ok (Skipped Observable
              [Txt "graph has more than "; Int (Z.of_N EXHAUSTIVE_OBSERVABLE_ORDER_LIMIT);
               Txt " legal topological orders"])
      else
        orders ← all_topological_orders graph;
        fl ← try_loop (λ tested order,
          if decide (order = canonical_order) then Ok (Continue tested)
          else
            candidate ← evaluate_with_order graph claims order;
            match first_difference canonical candidate claims with
            | Some (claimant_id, first, second) =>
                v ← observable_rejection Observable claims
                      [Txt "Evaluating graph orders "; Txt (format_order canonical_order);
                       Txt " and "; Txt (format_order order); Txt " changed '"; Txt claimant_id;
                       Txt "' from "; Txt (decision_debug first); Txt " to ";
                       Txt (decision_debug second)] canonical candidate;
                Ok (Break v)
            | None => Ok (Continue (tested + 1)%N)
            end) 1%N orders;
        match fl with Continue tested => Ok (Pass Observable tested) | Break v => Ok v end.

Definition check_graph_observable_determinacy (graph : GovernanceGraph)
    (claims : list GovernanceClaim) : LResult AxiomVerdict :=
  check_graph_traversal_order_invariance graph claims.
End observable.

(* ------------------------------------------------------------------ *)
(** ** The order validator *)

Lemma record_positions_spec g order st :
  try_fold (record_position g) (∅, ∅) (zip (seq 0 (length order)) order) = Ok st →
  NoDup order ∧ (∀ v, v ∈ order → is_Some (nodes g !! v)) ∧
  (∀ v, v ∈ st.1 ↔ v ∈ order) ∧ (∀ v i, st.2 !! v = Some i ↔ order !! i = Some v).
Proof.
  revert st. induction order as [|x order IH] using rev_ind; intros st Hst; simpl in Hst.
  - injection Hst as <-. split_and!; [constructor|by intros v ?%not_elem_of_nil|set_solver|].
    intros v i. simpl. by rewrite lookup_empty.
  - rewrite length_app, seq_app, zip_with_app in Hst by by rewrite length_seq.
    rewrite try_fold_app in Hst. invert_binds. simpl in Hst. invert_binds.
    destruct a as [seen pos]. destruct (IH _ eq_refl) as (Hnd & Hn & Hseen & Hpos). simpl in *.
    unfold record_position in Hr0. invert_binds.
    case_decide as Hs; [done|]. invert_binds. simpl. rewrite Hseen in Hs.
    split_and!.
    + apply NoDup_app. split_and!; [done| |apply NoDup_singleton]. set_solver.
    + intros v [Hv| ->%list_elem_of_singleton]%elem_of_app; [by apply Hn|eauto].
    + intros v. set_solver.
    + intros v i. rewrite lookup_insert. case_decide as Heq.
      * subst v. split; [intros [= <-]; by rewrite list_lookup_middle|].
        intros Hi. f_equal. destruct (decide (i < length order)) as [Hlt|Hge].
        -- rewrite lookup_app_l in Hi by done. destruct Hs. by eapply list_elem_of_lookup_2.
        -- apply lookup_lt_Some in Hi. rewrite length_app in Hi. simpl in Hi. lia.
      * rewrite Hpos. split; [intros Hi; by apply lookup_app_l_Some|].
        intros Hi. apply lookup_snoc_Some in Hi as [[_ Hi]|[_ ->]]; done.
Qed.

(** A validated order lists every node once, predecessors first. *)
Lemma validate_topological_order_Ok g order :
  validate_topological_order g order = Ok () →
  NoDup order ∧ topological g order ∧ (∀ v, v ∈ order ↔ is_Some (nodes g !! v)).
Proof.
  unfold validate_topological_order. intros Hv. invert_binds. rename a0 into st.
  apply bool_decide_eq_true in Hc.
  destruct (record_positions_spec _ _ _ Hr0) as (Hnd & Hn & _ & Hpos). split_and!; [done| |].
  - intros pre v post u -> (e & He & <- & <-)%elem_of_successors.
    rewrite try_iter_Ok, Forall_forall in Hv. specialize (Hv e He). cbv beta in Hv.
    destruct (st.2 !! from e) as [f|] eqn:Ef; [|done].
    destruct (st.2 !! to e) as [t|] eqn:Et; [|done]. cbn [ok_or mbind Result_bind] in Hv.
    case_bool_decide as Hlt; [done|]. apply Hpos in Ef, Et.
    assert (t = length pre) as ->.
    { eapply NoDup_lookup; [done|done|by rewrite list_lookup_middle]. }
    rewrite lookup_app_l in Ef by lia. by eapply list_elem_of_lookup_2.
  - intros v. split; [apply Hn|]. intros Hin.
    assert (order ≡ₚ btree_keys (nodes g)) as ->; [|by apply elem_of_btree_keys].
    apply submseteq_length_Permutation; [|by rewrite length_btree_keys, Hc].
    apply NoDup_submseteq; [done|]. intros w Hw. by apply elem_of_btree_keys, Hn.
Qed.

Section facts.
Context `{RegexEngine} (g : GovernanceGraph) (cs : list GovernanceClaim).
Context (Hwf : graph_wf g) (Hval : validate_governance_claims cs = Ok ()).

(** Whatever the order, the result meets the specification of a traversal. *)
Lemma evaluate_with_order_spec order final :
  evaluate_with_order g cs order = Ok final → ∃ nds, traversal_spec g cs final nds.
Proof using Hwf Hval.
  unfold evaluate_with_order. intros Hf. invert_binds. destruct a.
  apply validate_topological_order_Ok in Hr as (Hnd & Htop & Hall).
  destruct (_ || _); [done|]. invert_binds.
  assert (∀ v, v ∈ ready_nodes g (incoming_counts g) ↔ v ∈ entry_node_list g (incoming_counts g)) as Hl.
  { intros v. unfold entry_node_list. by rewrite elem_of_sort_strings. }
  pose proof (visit_inv_initial g cs Hval false _ Hl) as Hini.
  destruct (visit_all_spec g cs evaluate_node merge_claim_batches Hwf Hval false order _ Hini Hnd Htop Hall)
    as [(st & nds & Hst & _ & Hsp)|(e & He & _)].
  - cbv iota in Hst. rewrite Hst in Hr. injection Hr as <-. eauto.
  - cbv iota in He. congruence.
Qed.

Lemma first_difference_refl final : first_difference final final cs = None.
Proof.
  unfold first_difference. destruct (list_find _ _) as [[i id]|] eqn:Hf; [|done].
  apply list_find_Some in Hf as (_ & Hne & _). done.
Qed.
End facts.

(* ------------------------------------------------------------------ *)
(** ** The enumeration of orders *)

(** Taking and giving back the edges of a node leaves the counts as they were. *)
Lemma relax_restore es counts queue counts' queue' :
  try_fold relax_edge (counts, queue) es = Ok (counts', queue') →
  try_fold restore_edge counts' es = Ok counts.
Proof.
  assert (∀ es counts queue counts' queue',
    try_fold relax_edge (counts, queue) es = Ok (counts', queue') →
    ∀ v, (λ n, n + edges_to es v) <$> counts' !! v = counts !! v) as Hrel.
  { clear. induction es as [|e es IH]; intros counts queue counts' queue' Hf v.
    - simpl in Hf. injection Hf as -> ->. unfold edges_to. simpl.
      destruct (counts' !! v); simpl; [|done]. by rewrite Nat.add_0_r.
    - cbn [try_fold] in Hf. invert_binds. unfold relax_edge in Hr. invert_binds.
      destruct a0 as [|n]; [done|]. invert_binds. specialize (IH _ _ _ _ Hf v). revert IH.
      rewrite lookup_insert, edges_to_cons. destruct (decide (to e = v)) as [<-|]; intros IH.
      + rewrite Ho. destruct (counts' !! to e); [|done]. simpl in *.
        injection IH as <-. f_equal. lia.
      + rewrite <-IH. destruct (counts' !! v); done. }
  assert (∀ es (c' c : gmap NodeId nat), (∀ v, (λ n, n + edges_to es v) <$> c' !! v = c !! v) →
    (∀ e, e ∈ es → is_Some (c' !! to e)) → try_fold restore_edge c' es = Ok c) as Hres.
  { clear. induction es as [|e es IH]; intros c' c Hc Hin; cbn [try_fold].
    - f_equal. apply map_eq. intros v. rewrite <-(Hc v). unfold edges_to. simpl.
      destruct (c' !! v); simpl; [|done]. by rewrite Nat.add_0_r.
    - destruct (Hin e) as [n Hn]; [left|]. 
      assert (restore_edge c' e = Ok (<[to e := S n]> c')) as ->
        by (unfold restore_edge; by rewrite Hn).
      cbn [mbind Result_bind]. apply IH.
      + intros v. rewrite <-(Hc v), edges_to_cons, lookup_insert.
        destruct (decide (to e = v)) as [<-|]; [|done]. rewrite Hn. simpl. f_equal. lia.
      + intros e' He'. rewrite lookup_insert. case_decide; [eauto|]. apply Hin. by right. }
  intros Hf. apply Hres; [by eapply Hrel|].
  assert (∀ e, e ∈ es → is_Some (counts !! to e)) as Hin.
  { clear Hrel Hres. revert counts queue Hf. induction es as [|e' es IH]; intros counts queue Hf e He.
    - by apply not_elem_of_nil in He.
    - cbn [try_fold] in Hf. invert_binds. unfold relax_edge in Hr. invert_binds.
      destruct a0 as [|n]; [done|]. invert_binds.
      apply elem_of_cons in He as [->|He]; [eauto|]. specialize (IH _ _ Hf e He).
      rewrite lookup_insert in IH. case_decide as Heq; [rewrite <-Heq; eauto|done]. }
  intros e He. specialize (Hrel _ _ _ _ _ Hf (to e)). destruct (Hin e He) as [n Hn].
  rewrite Hn in Hrel. by destruct (counts' !! to e).
Qed.

Section enumeration.
Context (g : GovernanceGraph) (Hwf : graph_wf g) (Hac : acyclic g).

(** [l] completes [prefix] to a legal order of the whole graph. *)
Definition completes (prefix l : list NodeId) : Prop :=
  (∃ rest, l = prefix ++ rest) ∧
  NoDup l ∧ topological g l ∧ ∀ v, v ∈ l ↔ is_Some (nodes g !! v).

Lemma full_prefix prefix l :
  NoDup prefix → length prefix = size (nodes g) → completes prefix l → l = prefix.
Proof using Type.
  clear. intros Hnd Hlen ((rest & ->) & Hnd' & _ & Hall).
  assert (length (prefix ++ rest) ≤ size (nodes g)) as Hle.
  { rewrite <-length_btree_keys. apply submseteq_length, NoDup_submseteq; [done|].
    intros v Hv. by apply elem_of_btree_keys, Hall. }
  rewrite length_app in Hle. assert (length rest = 0) as ->%nil_length_inv by lia.
  by rewrite app_nil_r.
Qed.

(** While nodes are missing, a work list of the counting algorithm has one ready. *)
Lemma kahn_covers order counts :
  kahn g order [] counts ∅ → NoDup order → length order = size (nodes g).
Proof using Hwf Hac.
  intros Hk Hnd. rewrite <-length_btree_keys. apply Permutation_length, NoDup_Permutation; [done|apply NoDup_btree_keys|].
  intros v. rewrite elem_of_btree_keys. split; [intros Hv; apply (kahn_nodes _ _ _ _ _ Hk); auto|].
  intros Hv. induction (acyclic_pred_Acc g Hwf Hac v) as [v _ IH].
  destruct (proj2 (kahn_ready g order counts ∅ v Hk Hv)) as [?|Hin]; [|done|set_solver].
  intros u Hu. apply IH; [done|]. apply elem_of_successors in Hu as (e & He & <- & _).
  by apply (graph_wf_edges g Hwf).
Qed.

Lemma completes_step prefix l counts ready :
  kahn g prefix [] counts ready → length prefix ≠ size (nodes g) →
  completes prefix l ↔ ∃ x, x ∈ bset_iter ready ∧ completes (prefix ++ [x]) l.
Proof using Type.
  clear Hwf Hac. intros Hk Hlen. split.
  - intros ((rest & ->) & Hnd & Htop & Hall). destruct rest as [|x rest].
    { destruct Hlen. rewrite app_nil_r in *. rewrite <-length_btree_keys.
      apply Permutation_length, NoDup_Permutation; [done|apply NoDup_btree_keys|].
      intros v. by rewrite Hall, elem_of_btree_keys. }
    exists x. assert (is_Some (nodes g !! x)) as Hx by (apply Hall; set_solver). split.
    + apply elem_of_bset_iter.
      destruct (proj2 (kahn_ready g prefix counts ready x Hk Hx)) as [Hin|]; [|exfalso|done].
      * intros u. by apply (Htop prefix x rest).
      * apply NoDup_app in Hnd as (_ & Hd & _). apply (Hd x Hin). left.
    + split; [exists rest; by rewrite <-app_assoc|done].
  - intros (x & _ & (rest & ->) & Hrest). split; [|done]. exists (x :: rest). by rewrite <-app_assoc.
Qed.

(** The enumeration returns each completion exactly once and restores the counts. *)
Lemma enumerate_orders_spec fuel incoming ready prefix orders :
  kahn g prefix [] incoming ready → NoDup prefix → topological g prefix →
  size (nodes g) - length prefix < fuel →
  ∃ new, enumerate_orders fuel g incoming ready prefix orders = Ok (incoming, orders ++ new) ∧
    NoDup new ∧ ∀ l, l ∈ new ↔ completes prefix l.
Proof using Hwf Hac.
  revert incoming ready prefix orders.
  induction fuel as [|fuel IH]; intros incoming ready prefix orders Hk Hnd Htop Hf; [lia|].
  cbn [enumerate_orders]. destruct (decide (length prefix = size (nodes g))) as [Hlen|Hlen].
  { exists [prefix]. split_and!; [done|apply NoDup_singleton|]. intros l.
    rewrite list_elem_of_singleton. split; [intros ->|by apply full_prefix].
    split; [exists []; by rewrite app_nil_r|]. split_and!; [done|done|]. intros v.
    split; [intros Hv; apply (kahn_nodes _ _ _ _ _ Hk); auto|]. intros Hv.
    assert (prefix ≡ₚ btree_keys (nodes g)) as ->; [|by apply elem_of_btree_keys].
    apply submseteq_length_Permutation; [|by rewrite length_btree_keys, Hlen].
    apply NoDup_submseteq; [done|]. intros w Hw. apply elem_of_btree_keys, (kahn_nodes _ _ _ _ _ Hk). auto. }
  destruct (decide (ready = ∅)) as [->|_].
  { destruct Hlen. by eapply kahn_covers. }
  match goal with |- context [try_fold ?F _ _] =>
    destruct (try_fold_cases F (λ visited st, st.1 = incoming ∧ ∃ new, st.2 = orders ++ new ∧ NoDup new ∧
       ∀ l, l ∈ new ↔ ∃ x, x ∈ visited ∧ completes (prefix ++ [x]) l) (λ _, False)
       (incoming, orders) (bset_iter ready))
      as [([inc ords] & Hres & Hinc & new & Hords & Hndn & Hnew)|(e & _ & [])] end.
  - split; [done|]. exists []. rewrite app_nil_r. split_and!; [done|constructor|].
    intros l. rewrite elem_of_nil. split; [done|]. by intros (x & ?%not_elem_of_nil & _).
  - intros visited x rest [inc ords] Hl [Hinc (new & Hords & Hndn & Hnew)]. simpl in *. subst inc ords.
    assert (x ∈ ready) as Hx. { apply elem_of_bset_iter. rewrite Hl. set_solver. }
    assert (x ∉ visited) as Hxv.
    { pose proof (NoDup_bset_iter ready) as Hb. rewrite Hl in Hb.
      apply NoDup_app in Hb as (_ & Hb & _). intros Hin. apply (Hb x Hin). left. }
    destruct (relax_edges_spec g Hwf (prefix ++ [x]) (edges_from g x) incoming (ready ∖ {[x]}))
      as (counts' & queue' & Hrel & Hk').
    { intros e [_ He]%list_elem_of_filter. done. }
    { by apply kahn_pop. }
    rewrite Hrel. cbn [mbind Result_bind fst snd].
    pose proof (kahn_disj _ _ _ _ _ Hk x Hx) as Hxp.
    destruct (IH counts' queue' (prefix ++ [x]) (orders ++ new) Hk') as (newx & -> & Hndx & Hnewx).
    { apply NoDup_app. split_and!; [done| |apply NoDup_singleton]. set_solver. }
    { apply topological_snoc; [done|].
      apply (kahn_ready _ _ _ _ _ Hk); [apply (kahn_nodes _ _ _ _ _ Hk)|]; auto. }
    { assert (length prefix ≤ size (nodes g)); [|rewrite length_app; simpl; lia].
      rewrite <-length_btree_keys. apply submseteq_length, NoDup_submseteq; [done|].
      intros w Hw. apply elem_of_btree_keys, (kahn_nodes _ _ _ _ _ Hk). auto. }
    cbn [mbind Result_bind fst snd]. rewrite (relax_restore _ _ _ _ _ Hrel).
    cbn [mbind Result_bind]. left. eexists. split; [done|]. simpl. split; [done|].
    exists (new ++ newx). rewrite app_assoc. split; [done|]. split.
    + apply NoDup_app. split_and!; [done| |done]. intros l Hl1%Hnew Hl2%Hnewx.
      destruct Hl1 as (y & Hy & (r1 & ->) & _). destruct Hl2 as ((r2 & Heq) & _).
      rewrite <-!app_assoc in Heq. apply app_inv_head in Heq. simpl in Heq. injection Heq as -> _. done.
    + intros l. rewrite elem_of_app, Hnew, Hnewx. setoid_rewrite elem_of_app.
      setoid_rewrite list_elem_of_singleton. naive_solver.
  - simpl in *. subst. exists new. rewrite Hres. split_and!; [done|done|].
    intros l. by rewrite Hnew, (completes_step prefix l _ _ Hk Hlen).
Qed.
End enumeration.

(* ------------------------------------------------------------------ *)
(** ** Properties *)

Section properties.
Context `{RegexEngine}.

(** The enumeration is exhaustive: on a well-formed acyclic graph it returns
    every legal order of the nodes, each exactly once, and nothing else. *)
Theorem all_topological_orders_exact g :
  graph_wf g → acyclic g →
  ∃ orders, all_topological_orders g = Ok orders ∧ NoDup orders ∧
    ∀ l, l ∈ orders ↔
      NoDup l ∧ (∀ v, v ∈ l ↔ is_Some (nodes g !! v)) ∧
      (∀ pre v post u, l = pre ++ v :: post → edge_rel g u v → u ∈ pre).
Proof.
  intros Hwf Hac. unfold all_topological_orders.
  destruct (enumerate_orders_spec g Hwf Hac (S (size (nodes g))) (incoming_counts g)
    (list_to_set (ready_nodes g (incoming_counts g))) [] []) as (new & -> & Hnd & Hnew).
  - apply kahn_initial.
  - constructor.
  - apply topological_nil.
  - simpl. lia.
  - exists new. split_and!; [done|done|]. intros l. rewrite Hnew. unfold completes, topological.
    split; [intros (_ & ? & ? & ?); done|]. intros (? & ? & ?). split_and!; try done. by exists l.
Qed.

(** Order independence: on a well-formed graph and valid claims the
    determinacy check never fails.  Whatever the edge transforms and the gates,
    no two legal orders give a claimant different final decisions. *)
Theorem observable_determinacy_never_fails g cs v :
  graph_wf g → validate_governance_claims cs = Ok () →
  check_graph_observable_determinacy g cs = Ok v → is_fail v = false.
Proof.
  intros Hwf Hval Hv.
  unfold check_graph_observable_determinacy, check_graph_traversal_order_invariance in Hv.
  invert_binds. case_bool_decide as Hcyc; cbn [negb] in Hv; [subst|by invert_binds].
  assert (acyclic g) as Hac by (intros u; by apply Acc_no_cycle, detect_cycles_Acc).
  case_bool_decide; [by invert_binds|]. invert_binds. rename a into canon_order, a0 into canonical.
  case_bool_decide; [by invert_binds|]. invert_binds. destruct (_ <? _)%N; [by invert_binds|].
  invert_binds. destruct a1 as [n|v']; invert_binds; [done|].
  destruct (try_loop_Break _ _ _ _ Hr4) as (order & t & _ & Hb).
  case_decide; [done|]. invert_binds.
  destruct (evaluate_with_order_spec g cs Hwf Hval _ _ Hr1) as (nds & Hsp).
  destruct (evaluate_with_order_spec g cs Hwf Hval _ _ Hr5) as (nds' & Hsp').
  assert (canonical = a1) as ->.
  { eapply (traversal_spec_edges g cs Hwf Hac g cs); done. }
  by rewrite first_difference_refl in Hb.
Qed.
End properties.
