(* ===== verification/KernelChecks.v ===== *)
(** * Certifiability, corrigibility and compositional safety
      (src/axioms/kernel/{certifiable,corrigible,compositional}.rs) *)

From S2P Require Import Prelude F64 Errors Core GraphNode Tarjan GraphTraverse TraverseSpec GraphCycle GraphDiagnostics Observable.
From stdpp Require Import options.

Definition cyclic_skip (axiom : KernelAxiom) : AxiomVerdict :=
  Skipped axiom [Txt "cyclic graphs are handled by cycle and nonvacuity probes"].

(** The failure the three checks report, with the allocation of the claims
    before and after. *)
Definition kernel_rejection (axiom : KernelAxiom) (claims : list GovernanceClaim)
    (before after : gmap string Decision) (description violation : Message)
    : LResult AxiomVerdict :=
  original_claims ← convert_claims claims;
  original_estate ← graph_estate;
  original_allocation ← GraphCycle.decision_allocation claims before;
  perturbed_claims ← convert_claims claims;
  perturbed_estate ← graph_estate;
  perturbed_allocation ← GraphCycle.decision_allocation claims after;
  Ok (Fail axiom description
        (mkCounterexample description original_claims original_estate original_allocation
           perturbed_claims perturbed_estate perturbed_allocation violation)).

Definition certifiability_rejection (claims : list GovernanceClaim)
    (decisions : gmap string Decision) (description violation : Message) : LResult AxiomVerdict :=
  kernel_rejection Certifiable claims decisions decisions description violation.

Definition corrigibility_rejection (claims : list GovernanceClaim)
    (description violation : Message) : LResult AxiomVerdict :=
  kernel_rejection Corrigible claims ∅ ∅ description violation.

Definition compositional_rejection (claims : list GovernanceClaim)
    (original appended : gmap string Decision) (description violation : Message)
    : LResult AxiomVerdict :=
  kernel_rejection CompositionalSafety claims original appended description violation.

(** *** Overrides *)

Definition override_node (decision : Decision) (id : NodeId) : GovernanceNode :=
  Binary id ("supervisory-override-" +:+ id) [] decision FirstMatch.

Definition constant_override_graph (graph : GovernanceGraph) (decision : Decision)
    : GovernanceGraph :=
  mkGraph (list_to_map ((λ id, (id, override_node decision id)) <$> btree_keys (nodes graph)))
    ((λ edge, mkEdge (from edge) (to edge) PassThrough) <$> edges graph).

(** *** The appended stage *)

(** The search of [fresh_sink_id] over the candidate indices. *)
Fixpoint fresh_sink_from (graph : GovernanceGraph) (indices : list nat) : LResult NodeId :=
  match indices with
  | [] => NodeId_new "__kernel_compositional_append_fallback"
  | index :: indices =>
      candidate ← NodeId_new ("__kernel_compositional_append_" +:+ show_nat index);
      match nodes graph !! candidate with
      | None => Ok candidate
      | Some _ => fresh_sink_from graph indices
      end
  end.

Definition fresh_sink_id (graph : GovernanceGraph) : LResult NodeId :=
  fresh_sink_from graph (seq 0 (S (size (nodes graph)))).

Definition terminal_nodes (graph : GovernanceGraph) : list NodeId :=
  let nonterminals : gset NodeId := list_to_set (from <$> edges graph) in
  filter (λ id, id ∉ nonterminals) (btree_keys (nodes graph)).

Definition append_permissive_stage (graph : GovernanceGraph) : LResult GovernanceGraph :=
  sink ← fresh_sink_id graph;
  Ok (mkGraph
        (<[sink := Binary sink "kernel-compositional-permit-suffix" [] Permit FirstMatch]> (nodes graph))
        (edges graph ++ ((λ source, mkEdge source sink PassThrough) <$> terminal_nodes graph))).

Section checks.
Context `{RegexEngine}.

Definition check_graph_certifiability (graph : GovernanceGraph) (claims : list GovernanceClaim)
    : LResult AxiomVerdict :=
  cycles ← detect_cycles graph;
  if negb (bool_decide (cycles = [])) then Ok (cyclic_skip Certifiable)
  else if bool_decide (nodes graph = ∅) then
    certifiability_rejection claims ∅ [Txt "graph has no governance nodes to replay"]
      [Txt "CERTIFIABLE requires a finite replay certificate for audited graph decisions"]
  else
    _ ← validate_governance_graph graph;
    traversal ← traverse graph claims;
    let missing := filter (λ id, final_decisions traversal !! id = None)
                     (gc_claimant_id <$> claims) in
    if negb (bool_decide (missing = [])) then
      certifiability_rejection claims (final_decisions traversal)
        [Txt "graph traversal produced no replayable final decision for "; Txt (join ", " missing)]
        [Txt "CERTIFIABLE requires every governed claim to have a replayable final decision"]
    else
      let replay_steps := sum_list (length <$> btree_values (node_decisions traversal)) in
      Ok (Pass Certifiable (N.of_nat (replay_steps + length claims))).

Definition check_graph_corrigibility (graph : GovernanceGraph) (claims : list GovernanceClaim)
    : LResult AxiomVerdict :=
  cycles ← detect_cycles graph;
  if negb (bool_decide (cycles = [])) then Ok (cyclic_skip Corrigible)
  else if bool_decide (nodes graph = ∅) then
    corrigibility_rejection claims
      [Txt "graph has no governance nodes for supervisory override"]
      [Txt "CORRIGIBLE requires a nonempty graph surface that can be paused, denied, or permitted"]
  else
    _ ← traverse (constant_override_graph graph Escalate) claims;
    _ ← traverse (constant_override_graph graph Deny) claims;
    _ ← traverse (constant_override_graph graph Permit) claims;
    Ok (Pass Corrigible 3).

Definition check_graph_compositional_safety (graph : GovernanceGraph)
    (claims : list GovernanceClaim) : LResult AxiomVerdict :=
  cycles ← detect_cycles graph;
  if negb (bool_decide (cycles = [])) then Ok (cyclic_skip CompositionalSafety)
  else if bool_decide (nodes graph = ∅) then
    Ok (Skipped CompositionalSafety [Txt "empty graph has no denied decision surface to extend"])
  else
    original ← graph_final_decisions graph claims;
    appended_graph ← append_permissive_stage graph;
    appended ← graph_final_decisions appended_graph claims;
    let dec (m : gmap string Decision) id := default Escalate (m !! id) in
    match list_find (λ claim, dec original (gc_claimant_id claim) = Deny ∧
                              dec appended (gc_claimant_id claim) ≠ Deny) claims with
    | Some (_, claim) =>
        compositional_rejection claims original appended
          [Txt "appending a permissive governance stage changed '"; Txt (gc_claimant_id claim);
           Txt "' from Deny to "; Txt (decision_debug (dec appended (gc_claimant_id claim)))]
          [Txt "COMPOSITIONAL SAFETY requires denied claims to remain denied under graph extension"]
    | None => Ok (Pass CompositionalSafety (N.of_nat (length claims)))
    end.

(* ------------------------------------------------------------------ *)
(** ** Override graphs *)

Lemma override_nodes_lookup g d v :
  nodes (constant_override_graph g d) !! v =
  match nodes g !! v with Some _ => Some (override_node d v) | None => None end.
Proof.
  unfold constant_override_graph. simpl.
  assert (NoDup ((λ id : NodeId, (id, override_node d id)) <$> btree_keys (nodes g)).*1) as Hnd.
  { rewrite <-list_fmap_compose. simpl. rewrite list_fmap_id. apply NoDup_btree_keys. }
  destruct (nodes g !! v) as [n|] eqn:Hv.
  - apply elem_of_list_to_map_1; [done|]. apply list_elem_of_fmap. exists v. split; [done|].
    apply elem_of_btree_keys. eauto.
  - apply not_elem_of_list_to_map_1. intros Hin. rewrite <-list_fmap_compose in Hin. simpl in Hin.
    rewrite list_fmap_id, elem_of_btree_keys, Hv in Hin. by destruct Hin.
Qed.

Lemma override_edge_rel g d u v : edge_rel (constant_override_graph g d) u v ↔ edge_rel g u v.
Proof.
  unfold edge_rel. rewrite !elem_of_successors. simpl. split.
  - intros (e' & (e & -> & He)%list_elem_of_fmap & Hf & Ht). simpl in *. eauto.
  - intros (e & He & Hf & Ht). eexists. rewrite list_elem_of_fmap. split; [exists e; eauto|]. auto.
Qed.

Lemma override_wf g d : graph_wf g → graph_wf (constant_override_graph g d).
Proof.
  intros Hwf. split.
  - intros k n. rewrite override_nodes_lookup. destruct (nodes g !! k); [|done]. by intros [= <-].
  - intros e' He'. simpl in He'. apply list_elem_of_fmap in He' as (e & -> & He). cbn [from to].
    rewrite !override_nodes_lookup.
    destruct (graph_wf_edges g Hwf e He) as [[n1 ->] [n2 ->]]. eauto.
Qed.

Lemma override_sound g d : sound_graph g → sound_graph (constant_override_graph g d).
Proof.
  intros (Hwf & Hac & Hne). split_and!; [by apply override_wf| |].
  - apply (tc_edge_ext g); [|done]. intros u v. apply override_edge_rel.
  - apply map_choose in Hne as (v & n & Hv). intros Hemp.
    pose proof (override_nodes_lookup g d v) as Hl. by rewrite Hemp, Hv, lookup_empty in Hl.
Qed.

Lemma override_constant g d : constant_graph (constant_override_graph g d) d.
Proof.
  intros v n. rewrite override_nodes_lookup. destruct (nodes g !! v); [|done].
  intros [= <-]. unfold override_node. eauto.
Qed.

(* ------------------------------------------------------------------ *)
(** ** The appended stage *)

Definition candidate_name (index : nat) : string := "__kernel_compositional_append_" +:+ show_nat index.

Lemma candidate_name_inj i j : candidate_name i = candidate_name j → i = j.
Proof.
  unfold candidate_name. intros Heq. apply (inj (String.append _)) in Heq.
  unfold show_nat in Heq. by apply (inj pretty) in Heq; lia.
Qed.

Lemma candidate_valid index : NodeId_new (candidate_name index) = Ok (candidate_name index).
Proof. done. Qed.

Lemma fresh_sink_from_spec g l :
  (∃ i, i ∈ l ∧ nodes g !! candidate_name i = None) →
  ∃ i, i ∈ l ∧ fresh_sink_from g l = Ok (candidate_name i) ∧ nodes g !! candidate_name i = None.
Proof.
  induction l as [|i l IH]; intros (j & Hj & Hn); [by apply not_elem_of_nil in Hj|].
  cbn [fresh_sink_from]. fold (candidate_name i). rewrite candidate_valid. cbn [mbind Result_bind].
  destruct (nodes g !! candidate_name i) eqn:Hi.
  - destruct IH as (k & Hk & Hres & Hnone).
    { exists j. apply elem_of_cons in Hj as [->|Hj]; [congruence|done]. }
    exists k. split; [by right|done].
  - exists i. split; [left|done].
Qed.

(** One of the [n + 1] candidates is not among the [n] nodes. *)
Lemma fresh_sink_id_spec g :
  ∃ sink, fresh_sink_id g = Ok sink ∧ nodes g !! sink = None.
Proof.
  unfold fresh_sink_id.
  destruct (fresh_sink_from_spec g (seq 0 (S (size (nodes g))))) as (i & _ & -> & Hi); [|eauto].
  apply (fresh_among (nodes g) candidate_name), candidate_name_inj.
Qed.

Lemma append_permissive_stage_spec g g' :
  graph_wf g → append_permissive_stage g = Ok g' →
  ∃ sink, nodes g !! sink = None ∧ graph_wf g' ∧
    (∀ v, v ≠ sink → nodes g' !! v = nodes g !! v) ∧
    (∀ u v, v ≠ sink → edge_rel g' u v ↔ edge_rel g u v).
Proof.
  intros Hwf Happ. unfold append_permissive_stage in Happ.
  destruct (fresh_sink_id_spec g) as (sink & Hs & Hfresh). rewrite Hs in Happ.
  cbn [mbind Result_bind] in Happ. injection Happ as <-. exists sink. split; [done|].
  assert (∀ e, e ∈ edges g ++ ((λ source, mkEdge source sink PassThrough) <$> terminal_nodes g) ↔
    e ∈ edges g ∨ (e = mkEdge (from e) sink PassThrough ∧ from e ∈ terminal_nodes g)) as Hedges.
  { intros e. rewrite elem_of_app, list_elem_of_fmap. apply or_iff_compat_l. split.
    - by intros (x & -> & Hx).
    - intros [He Hx]. by exists (from e). }
  split_and!; simpl.
  - split; simpl.
    + intros k n. rewrite lookup_insert. case_decide; [intros [= <-]; done|]. by apply Hwf.
    + intros e [He|[Heq Hx]]%Hedges.
      * destruct (graph_wf_edges g Hwf e He). rewrite !lookup_insert.
        split; case_decide; eauto.
      * rewrite Heq. simpl. rewrite !lookup_insert. unfold terminal_nodes in Hx.
        apply list_elem_of_filter in Hx as [_ Hx%elem_of_btree_keys].
        split; case_decide; eauto. done.
  - intros v Hv. by rewrite lookup_insert_ne.
  - intros u v Hv. unfold edge_rel. rewrite !elem_of_successors. simpl. setoid_rewrite Hedges.
    split; [|naive_solver]. intros (e & [He|[Heq _]] & Hf & Ht); [eauto|].
    rewrite Heq in Ht. simpl in Ht. congruence.
Qed.

(* ------------------------------------------------------------------ *)
(** ** Properties *)

(** Every non-empty acyclic graph is corrigible, by construction: on a
    well-formed graph and valid claims the check always succeeds and tests its
    three overrides. *)
Theorem corrigibility_always_passes g cs :
  graph_wf g → acyclic g → nodes g ≠ ∅ → validate_governance_claims cs = Ok () →
  check_graph_corrigibility g cs = Ok (Pass Corrigible 3).
Proof.
  intros Hwf Hac Hne Hval. unfold check_graph_corrigibility.
  rewrite (detect_cycles_sound g Hac). cbn [mbind Result_bind].
  rewrite (bool_decide_false (nodes g = ∅)) by done. simpl negb. cbv iota.
  assert (∀ d, ∃ r, traverse (constant_override_graph g d) cs = Ok r) as Ht.
  { intros d. destruct (constant_graph_decides (constant_override_graph g d) cs d) as (r & Hr & _);
      [by apply override_sound|apply override_constant|done|eauto]. }
  destruct (Ht Escalate) as [? ->], (Ht Deny) as [? ->]. by destruct (Ht Permit) as [? ->].
Qed.

(** An override is total: traversing the override graph of a decision gives
    every claim exactly that decision. *)
Theorem override_decides_all g cs d :
  graph_wf g → acyclic g → nodes g ≠ ∅ → validate_governance_claims cs = Ok () →
  ∃ r, traverse (constant_override_graph g d) cs = Ok r ∧
    ∀ c, c ∈ cs → final_decisions r !! gc_claimant_id c = Some d.
Proof.
  intros Hwf Hac Hne Hval. apply constant_graph_decides; [|apply override_constant|done].
  by apply override_sound.
Qed.

(** Certifiability rejects only the empty graph: on a well-formed graph a
    completed check fails exactly when the graph has no node. *)
Theorem certifiability_rejects_only_empty g cs v :
  graph_wf g → check_graph_certifiability g cs = Ok v → is_fail v = true ↔ nodes g = ∅.
Proof.
  intros Hwf Hv. unfold check_graph_certifiability in Hv. invert_binds.
  case_bool_decide as Hcyc; cbn [negb] in Hv.
  2:{ invert_binds. split; [done|]. intros Hemp. destruct Hcyc.
      assert (acyclic g) as Hac%detect_cycles_sound; [|congruence].
      intros u Hu. assert (∃ w, edge_rel g u w) as (w & (e & He & _ & _)%elem_of_successors).
      { inversion Hu; subst; eauto. }
      apply (graph_wf_edges g Hwf) in He as [[n Hn] _]. by rewrite Hemp, lookup_empty in Hn. }
  case_bool_decide as Hemp.
  - split; [done|]. intros _. unfold certifiability_rejection, kernel_rejection in Hv. by invert_binds.
  - split; [|done]. invert_binds. destruct a0. rename a1 into r.
    destruct (traverse_Ok g cs r Hwf Hr1) as (_ & Hac & Hne & Hsp).
    rewrite bool_decide_true in Hv; [cbn [negb] in Hv; by invert_binds|].
    apply Permutation_nil_r. destruct (filter _ _) as [|id l] eqn:Hf; [done|exfalso].
    assert (id ∈ id :: l) as Hin by left. rewrite <-Hf in Hin.
    apply list_elem_of_filter in Hin as [Hnone (c & -> & Hc)%list_elem_of_fmap].
    destruct (spec_decides g cs Hwf Hac _ _ c Hne Hsp Hc). congruence.
Qed.

(** Compositional safety holds of every graph: on a well-formed graph the
    check never finds a denial revived by the permissive stage it appends (whose
    id is always fresh). *)
Theorem compositional_safety_never_fails g cs v :
  graph_wf g → check_graph_compositional_safety g cs = Ok v → is_fail v = false.
Proof.
  intros Hwf Hv. unfold check_graph_compositional_safety, graph_final_decisions in Hv. invert_binds.
  case_bool_decide as Hcyc; cbn [negb] in Hv; [|by invert_binds].
  case_bool_decide; [by invert_binds|]. invert_binds. rename a0 into original, a1 into g', a2 into appended.
  destruct (list_find _ _) as [[i c]|] eqn:Hf; [exfalso|by invert_binds].
  apply list_find_Some in Hf as (Hi & [Hdeny Hnot] & _). apply list_elem_of_lookup_2 in Hi.
  destruct (append_permissive_stage_spec g g' Hwf Hr1) as (sink & Hfresh & Hwf' & Hn & He).
  destruct (traverse_final_decisions_Ok g cs _ Hwf Hr0) as (_ & Hac & nds & Hsp).
  destruct (traverse_final_decisions_Ok g' cs _ Hwf' Hr2) as (_ & _ & nds' & Hsp').
  assert (original !! gc_claimant_id c = Some Deny) as Hod.
  { destruct (original !! gc_claimant_id c); simpl in Hdeny; congruence. }
  pose proof (tr_final _ _ _ _ Hsp (gc_claimant_id c)) as Hs. rewrite Hod in Hs.
  destruct Hs as [(u & ds & Hu & Hin & _) _].
  assert (u ≠ sink) as Hus.
  { intros ->. destruct (proj1 (tr_nodes _ _ _ _ Hsp sink) (mk_is_Some _ _ Hu)). congruence. }
  destruct (proj2 (tr_nodes _ _ _ _ Hsp' u)) as [ds' Hu'].
  { rewrite Hn by done. apply (tr_nodes _ _ _ _ Hsp). eauto. }
  assert (mkClaimDecision (gc_claimant_id c) Deny ∈ ds') as Hin'.
  { assert (∀ a b, b ≠ sink → edge_rel g a b → a ≠ sink) as HP.
    { intros x y _ (e & Hin' & Hfrom & _)%elem_of_successors Heq.
      destruct (graph_wf_edges g Hwf e Hin') as [[n Hn'] _]. congruence. }
    by apply (spec_agree_on g cs Hwf Hac (λ v, v ≠ sink) g' cs original appended nds nds' HP Hn He
                (reflexivity cs) Hsp Hsp' u ds ds' Hus Hu Hu'). }
  pose proof (tr_final _ _ _ _ Hsp' (gc_claimant_id c)) as Hs'.
  assert (recorded g' nds' (gc_claimant_id c) Deny) as Hrec by (exists u, ds'; done).
  destruct (appended !! gc_claimant_id c) as [d|]; [|by destruct (Hs' Deny)].
  destruct Hs' as [_ Hmin]. specialize (Hmin _ Hrec). simpl in Hnot.
  destruct d; simpl in Hmin; [lia|done|lia].
Qed.
End checks.
