(* ===== verification/Synthetic.v ===== *)
(** * Synthetic audit claims (src/extract/audit.rs: synthetic_claims and below)

    The claims the audit probes a graph with: a baseline and one claim per gate
    of every binary node. *)

From S2P Require Import Prelude F64 Errors Core GraphNode Tarjan GraphTraverse TraverseSpec BinaryDiagnostics.
From Stdlib Require Import Ascii.
From stdpp Require Import options.

(** [0.05] *)
Definition strength_increment : f64 := Eval vm_compute in f64_lit 5 100.

Definition gate_field (gate : Gate) : option string :=
  match gate with
  | ThresholdGate field _ _ | PeerRelative field _ _ => Some field
  | PrefixMatch _ _ | ExactMatch _ _ | ContentMatch _ _ => None
  end.

(** [Vec::dedup]: drop an element equal to the one kept before it. *)
Fixpoint dedup_from (last : option string) (l : list string) : list string :=
  match l with
  | [] => []
  | x :: l => if decide (last = Some x) then dedup_from last l else x :: dedup_from (Some x) l
  end.
Definition dedup (l : list string) : list string := dedup_from None l.

Definition all_metric_fields_for_nodes (graph : GovernanceGraph) (node_ids : list NodeId)
    : list string :=
  dedup (sort_strings (mjoin ((λ node,
    match node with
    | Binary _ _ gates _ _ => omap gate_field gates
    | Proportional _ _ _ _ | Threshold _ _ _ _ => []
    end) <$> omap (λ id, nodes graph !! id) node_ids))).

Definition baseline_claim (metric_fields : list string) : GovernanceClaim :=
  mkGovernanceClaim "baseline" f64_one (Some "extracted") (Some "/workspace/safe.rs")
    (Some "safe_action") (Some "safe content")
    (list_to_map ((λ field, (field, f64_zero)) <$> metric_fields)).

Definition set_metric (claim : GovernanceClaim) (field : string) (value : f64) : GovernanceClaim :=
  mkGovernanceClaim (gc_claimant_id claim) (gc_strength claim) (gc_priority_class claim)
    (gc_path claim) (gc_action claim) (gc_content claim) (<[field := value]> (gc_metrics claim)).

Definition apply_decision_metrics (claim : GovernanceClaim) (decision : Decision)
    : GovernanceClaim :=
  let field := match decision with
               | Permit => "permit_signal" | Deny => "deny_signal" | Escalate => "escalate_signal"
               end in
  set_metric claim field f64_one.

(** The characters of a regex without their escaping backslashes.  Skipping the
    byte 92 is skipping the character: in UTF-8 it occurs in no longer sequence. *)
Fixpoint unescape (escaped : bool) (s : string) : string :=
  match s with
  | EmptyString => EmptyString
  | String c s =>
      if escaped then String c (unescape false s)
      else if decide (c = "\"%char) then unescape true s
      else String c (unescape false s)
  end.

Definition sample_content (regex : string) : string :=
  let value := unescape false regex in
  if is_blank value then "safe content" else value.

Definition claim_for_gate (claimant_id : string) (gate : Gate) (metric_fields : list string)
    (index : nat) : GovernanceClaim :=
  let base := baseline_claim metric_fields in
  let strength := f64_add f64_one (f64_mul (f64_of_nat index) strength_increment) in
  let claim path action content :=
    mkGovernanceClaim claimant_id strength (gc_priority_class base) path action content
      (gc_metrics base) in
  match gate with
  | PrefixMatch pattern decision =>
      apply_decision_metrics
        (claim (Some (pattern +:+ "/candidate")) (gc_action base) (gc_content base)) decision
  | ExactMatch value decision =>
      apply_decision_metrics (claim (gc_path base) (Some value) (gc_content base)) decision
  | ContentMatch regex decision =>
      apply_decision_metrics
        (claim (gc_path base) (gc_action base) (Some (sample_content regex))) decision
  | ThresholdGate field min decision =>
      apply_decision_metrics
        (set_metric (claim (gc_path base) (gc_action base) (gc_content base)) field
           (if f64_leb min f64_zero then f64_one else min)) decision
  | PeerRelative field _ decision =>
      apply_decision_metrics
        (set_metric (claim (gc_path base) (gc_action base) (gc_content base)) field
           (f64_add (f64_of_Z 10) (f64_of_nat index))) decision
  end.

Definition gate_claim_id (id : NodeId) (index : nat) : string :=
  id +:+ "-gate-" +:+ show_nat index.

(** The claims of one node. *)
Definition claims_for_node (graph : GovernanceGraph) (metric_fields : list string) (id : NodeId)
    : list GovernanceClaim :=
  match nodes graph !! id with
  | Some (Binary id _ gates _ _) =>
      imap (λ index gate, claim_for_gate (gate_claim_id id index) gate metric_fields index) gates
  | _ => []
  end.

Definition claim_id_le (a b : GovernanceClaim) : Prop :=
  String.le (gc_claimant_id a) (gc_claimant_id b).
Global Instance claim_id_le_dec : RelDecision claim_id_le.
Proof. intros a b. unfold claim_id_le. apply _. Defined.

Definition synthetic_claims_for_nodes (graph : GovernanceGraph) (node_ids : list NodeId)
    : list GovernanceClaim :=
  let node_ids := sort_strings node_ids in
  let metric_fields := all_metric_fields_for_nodes graph node_ids in
  merge_sort claim_id_le
    (baseline_claim metric_fields :: mjoin (claims_for_node graph metric_fields <$> node_ids)).

Definition synthetic_claims (graph : GovernanceGraph) : list GovernanceClaim :=
  synthetic_claims_for_nodes graph (btree_keys (nodes graph)).

Definition synthetic_claims_for_cycle (graph : GovernanceGraph) (cycle : list NodeId)
    : list GovernanceClaim := synthetic_claims_for_nodes graph cycle.

Definition synthetic_claims_for_cycles (graph : GovernanceGraph) (cycles : list (list NodeId))
    : list GovernanceClaim :=
  synthetic_claims_for_nodes graph (bset_iter (list_to_set (mjoin cycles))).

Definition graph_fields (claims : list GovernanceClaim) : gset string :=
  foldl (λ fields claim, fields ∪ dom (gc_metrics claim)) {["strength"]} claims.

Definition shock_size (field : string) : f64 :=
  if decide (field = "strength") then f64_lit 1 10 else f64_one.

Definition graph_shocks (fields : gset string) : list BinaryShock :=
  (λ field, mkBinaryShock field (shock_size field)) <$> bset_iter fields.

Definition graph_deltas (fields : gset string) : list BinaryDelta :=
  (λ field, mkBinaryDelta field (shock_size field)) <$> bset_iter fields.
