(* ===== verification/NonVacuity.v ===== *)
(** * Non-vacuity (src/axioms/kernel/nonvacuity.rs)

    The liveness check: every governed claim ends in a permit or a denial and
    at least one is permitted; cyclic graphs are probed with synthetic claims.
    [convert_governance_claims] is the same text as in observable.rs. *)

From S2P Require Import Prelude F64 Errors Core GraphNode Tarjan GraphTraverse TraverseSpec GraphCycle GraphDiagnostics Observable Synthetic.
From stdpp Require Import options.

Definition zero_decision_allocation (claims : list GovernanceClaim) : LResult ValidAllocation :=
  converted ← convert_governance_claims claims;
  ValidAllocation_new (foldl (λ a claim, <[gc_claimant_id claim := f64_zero]> a) (∅ : Allocation) claims)
    converted.

Definition nonvacuity_liveness_allocation (claims : list GovernanceClaim)
    (nonterminal_claimants : list string) : LResult ValidAllocation :=
  let nonterminal : gset string := list_to_set nonterminal_claimants in
  let stuck_fraction :=
    match claims with
    | [] => f64_zero
    | _ => f64_div (f64_of_nat (size nonterminal)) (f64_of_nat (length claims))
    end in
  converted ← convert_governance_claims claims;
  ValidAllocation_new (foldl (λ a claim,
      <[gc_claimant_id claim :=
          if decide (gc_claimant_id claim ∈ nonterminal) then stuck_fraction else f64_zero]> a)
      (∅ : Allocation) claims) converted.

Definition nonterminal_claimants (claims : list GovernanceClaim) (decisions : gmap string Decision)
    : list string :=
  let nonterminal id := match decisions !! id with
                        | Some Permit | Some Deny => false
                        | Some Escalate | None => true
                        end in
  sort_strings (filter (λ id, nonterminal id = true) (gc_claimant_id <$> claims)).

Definition nonvacuity_rejection (claims : list GovernanceClaim) (description violation : Message)
    (nonterminal : list string) : LResult AxiomVerdict :=
  original_claims ← convert_governance_claims claims;
  original_estate ← Estate_new f64_one "decision";
  original_allocation ← zero_decision_allocation claims;
  perturbed_claims ← convert_governance_claims claims;
  perturbed_estate ← Estate_new f64_one "decision";
  perturbed_allocation ← nonvacuity_liveness_allocation claims nonterminal;
  Ok (Fail NonVacuous description
        (mkCounterexample description original_claims original_estate original_allocation
           perturbed_claims perturbed_estate perturbed_allocation violation)).

Definition is_permitted (decisions : gmap string Decision) (claim : GovernanceClaim) : bool :=
  bool_decide (decisions !! gc_claimant_id claim = Some Permit).

Section nonvacuity.
Context `{RegexEngine}.

(** One cycle of the cyclic branch; the state is whether a permit was seen and
    the number of perturbations. *)
Definition probe_cycle (graph : GovernanceGraph) (st : bool * nat) (cycle : list NodeId)
    : LResult (Flow (bool * nat) AxiomVerdict) :=
  let '(permit_found, tested) := st in
  let cycle_claims := synthetic_claims_for_cycle graph cycle in
  result ← iterate_cycle graph cycle cycle_claims 32 EPSILON;
  let tested := tested + iterations result in
  if negb (converged result) then
    v ← nonvacuity_rejection cycle_claims
          [Txt "cycle "; Names cycle; Txt " deadlocked before reaching terminal dispositions"]
          [Txt "NON-VACUOUS rejects deadlocked governance cycles"]
          (gc_claimant_id <$> cycle_claims);
    Ok (Break v)
  else
    let nonterminal := nonterminal_claimants cycle_claims (fixed_point_decisions result) in
    if negb (bool_decide (nonterminal = [])) then
      v ← nonvacuity_rejection cycle_claims
            [Txt "cycle "; Names cycle; Txt " left "; Int (Z.of_nat (length nonterminal));
             Txt " synthetic claims in Escalate: "; Txt (join ", " nonterminal)]
            [Txt "NON-VACUOUS rejects permanent escalation loops"] nonterminal;
      Ok (Break v)
    else
      Ok (Continue (permit_found || existsb (is_permitted (fixed_point_decisions result)) cycle_claims,
                    tested)).

(** What follows either branch. *)
Definition nonvacuity_conclusion (graph : GovernanceGraph) (claims : list GovernanceClaim)
    (cycles : list (list NodeId)) (permit_found : bool) (perturbations_tested : nat)
    : LResult AxiomVerdict :=
  if permit_found then Ok (Pass NonVacuous (N.of_nat perturbations_tested))
  else if bool_decide (cycles = []) then
    nonvacuity_rejection claims
      [Txt "all examined claims reached Deny; the graph refused every governed claim"]
      [Txt "NON-VACUOUS requires at least one examined claim to reach Permit"] []
  else
    nonvacuity_rejection (synthetic_claims_for_cycles graph cycles)
      [Txt "all synthetic cycle probes reached Deny; the graph refused every governed claim"]
      [Txt "NON-VACUOUS requires at least one synthetic cycle probe to reach Permit"] [].

Definition check_graph_nonvacuity (graph : GovernanceGraph) (claims : list GovernanceClaim)
    (cycles : list (list NodeId)) : LResult AxiomVerdict :=
  if bool_decide (nodes graph = ∅) then
    nonvacuity_rejection claims [Txt "graph has no governance nodes"]
      [Txt "NON-VACUOUS requires a nonempty governance graph with at least one permitting disposition"]
      []
  else if bool_decide (cycles = []) then
    traversal ← traverse graph claims;
    let nonterminal := nonterminal_claimants claims (final_decisions traversal) in
    if negb (bool_decide (nonterminal = [])) then
      nonvacuity_rejection claims
        [Int (Z.of_nat (length nonterminal));
         Txt " examined claims remained in Escalate after traversal: "; Txt (join ", " nonterminal)]
        [Txt "NON-VACUOUS requires every governed claim to reach a terminal Permit or Deny disposition"]
        nonterminal
    else
      nonvacuity_conclusion graph claims cycles
        (existsb (is_permitted (final_decisions traversal)) claims) (length claims)
  else
    fl ← try_loop (probe_cycle graph) (false, length claims) cycles;
    match fl with
    | Break v => Ok v
    | Continue (permit_found, tested) =>
        nonvacuity_conclusion graph claims cycles permit_found tested
    end.

(* ------------------------------------------------------------------ *)
(** ** Lemmas *)

Lemma nonvacuity_rejection_fails claims d v l r :
  nonvacuity_rejection claims d v l = Ok r → is_pass r = false.
Proof. unfold nonvacuity_rejection. intros Hr. by invert_binds. Qed.

Lemma nonterminal_claimants_nil claims decisions :
  nonterminal_claimants claims decisions = [] ↔
  ∀ c, c ∈ claims → decisions !! gc_claimant_id c = Some Permit ∨
                    decisions !! gc_claimant_id c = Some Deny.
Proof.
  unfold nonterminal_claimants. split.
  - intros Hnil c Hc.
    destruct (decisions !! gc_claimant_id c) as [[]|] eqn:Hd; try (by auto); exfalso.
    all: assert (gc_claimant_id c ∈ @nil string) as Hin%not_elem_of_nil; [|done].
    all: rewrite <-Hnil; apply elem_of_sort_strings, list_elem_of_filter.
    all: rewrite Hd; split; [done|]; apply list_elem_of_fmap; eauto.
  - intros Hall. apply Permutation_nil_r. symmetry. rewrite sort_strings_perm.
    destruct (filter _ _) as [|id l] eqn:Hf; [done|exfalso].
    assert (id ∈ id :: l) as Hin by left. rewrite <-Hf in Hin.
    apply list_elem_of_filter in Hin as [Hd (c & -> & Hc)%list_elem_of_fmap].
    destruct (Hall c Hc) as [Hx|Hx]; by rewrite Hx in Hd.
Qed.

(* ------------------------------------------------------------------ *)
(** ** Properties *)

(** On an acyclic graph the liveness check means what it says: it passes
    exactly when the traversal succeeds with every claim permitted or denied and
    at least one permitted. *)
Theorem nonvacuity_acyclic_correct g cs v :
  check_graph_nonvacuity g cs [] = Ok v →
  is_pass v = true ↔
  nodes g ≠ ∅ ∧ ∃ r, traverse g cs = Ok r ∧
    (∀ c, c ∈ cs → final_decisions r !! gc_claimant_id c = Some Permit ∨
                   final_decisions r !! gc_claimant_id c = Some Deny) ∧
    ∃ c, c ∈ cs ∧ final_decisions r !! gc_claimant_id c = Some Permit.
Proof.
  intros Hv. unfold check_graph_nonvacuity in Hv.
  case_bool_decide as Hemp.
  { apply nonvacuity_rejection_fails in Hv. rewrite Hv. split; [done|]. by intros [? _]. }
  rewrite bool_decide_true in Hv by done. invert_binds. rename a into r.
  case_bool_decide as Hnil; cbn [negb] in Hv.
  2:{ apply nonvacuity_rejection_fails in Hv. rewrite Hv. split; [done|].
      intros (_ & r' & [= <-] & Hall & _). destruct Hnil. by apply nonterminal_claimants_nil. }
  pose proof (proj1 (nonterminal_claimants_nil _ _) Hnil) as Hall.
  unfold nonvacuity_conclusion in Hv. destruct (existsb _ _) eqn:Hex.
  - injection Hv as <-. split; [|done]. intros _. split; [done|]. exists r. split; [done|].
    split; [done|]. apply existsb_exists in Hex as (c & Hc%list_elem_of_In & Hp).
    exists c. split; [done|]. by apply bool_decide_eq_true in Hp.
  - rewrite bool_decide_true in Hv by done. apply nonvacuity_rejection_fails in Hv. rewrite Hv.
    split; [done|]. intros (_ & r' & [= <-] & _ & c & Hc & Hp).
    assert (existsb (is_permitted (final_decisions r)) cs = true) as Hx; [|congruence].
    apply existsb_exists. exists c. split; [by apply list_elem_of_In|]. by apply bool_decide_eq_true.
Qed.

(** No graph with an actual cycle is ever found live: if the first reported
    component contains a cycle of the graph, the check does not pass, whatever
    the nodes decide. *)
Theorem genuine_cycle_never_live g cs cycle rest u v :
  tc (λ a b, edge_rel g a b ∧ a ∈ cycle ∧ b ∈ cycle) u u → u ∈ cycle →
  check_graph_nonvacuity g cs (cycle :: rest) = Ok v → is_pass v = false.
Proof.
  intros Htc Hu Hv. unfold check_graph_nonvacuity in Hv.
  case_bool_decide; [by eapply nonvacuity_rejection_fails|].
  rewrite bool_decide_false in Hv by done. cbn [try_loop] in Hv.
  destruct (probe_cycle g (false, length cs) cycle) as [fl|e] eqn:Hp; [|done].
  cbn [mbind Result_bind] in Hv. unfold probe_cycle in Hp.
  destruct (iterate_cycle _ _ _ _ _) as [result|e] eqn:Hit; [|done]. cbn [mbind Result_bind] in Hp.
  rewrite (iterate_cycle_walk _ _ _ _ _ _ _ Htc Hu Hit) in Hp. cbn [negb] in Hp.
  destruct (nonvacuity_rejection _ _ _ _) as [w|e] eqn:Hw; [|done].
  cbn [mbind Result_bind] in Hp. injection Hp as <-. cbn [mbind Result_bind] in Hv.
  injection Hv as <-. by eapply nonvacuity_rejection_fails.
Qed.
End nonvacuity.
