(* ===== verification/GraphParadox.v ===== *)
(** * The paradox probes of governance graphs (src/paradox/graph.rs)

    Three searches: a review node is appended after a sink, a claim that goes
    around a cycle is strengthened, and an acyclic graph is evaluated in two
    orders.  A search is [found] over its perturbations, in the order of the
    source.  [fresh_node_id] tries suffixes, of which one more than the graph
    has nodes is enough; [topological_order_with_tiebreak] spends a unit of
    fuel per ordered node.  The helpers that the source copies from
    graph/cycle.rs and axioms/kernel/observable.rs are those definitions. *)

From Stdlib Require Import Ascii SpecFloat.
From stdpp Require Import pretty.
From S2P Require Import Prelude Encoding F64 Errors Core GraphNode Tarjan GraphTraverse TraverseSpec GraphCycle BinaryDiagnostics GraphDiagnostics Observable KernelChecks.
From stdpp Require Import options.

Definition DEFAULT_STRENGTH_DELTAS : list f64 := [f64_lit 1 20; f64_lit 1 10; f64_lit 1 5; f64_lit 2 5].
Definition REVIEW_PERCENTILES : list f64 := [f64_lit 3 5; f64_lit 2 3; f64_lit 3 4; f64_lit 9 10].

Inductive GraphParadoxType := CompositionalAlabama | FeedbackMonotonicity | PathDependence.

Record GraphParadoxViolation := mkGraphParadox {
  gp_type : GraphParadoxType;
  gp_description : Message;
  gp_original_decisions : gmap string Decision;
  gp_perturbed_decisions : gmap string Decision;
}.

(* ------------------------------------------------------------------ *)
(** ** Comparing final decisions *)

Definition decision_of (decisions : gmap string Decision) (id : string) : Decision :=
  default Escalate (decisions !! id).

(** The claimants in order, and the first whose decision gets worse. *)
Definition first_worsening (before after : gmap string Decision) (claims : list GovernanceClaim)
    : option (string * Decision * Decision) :=
  (λ p, (p.2, decision_of before p.2, decision_of after p.2)) <$>
    list_find (λ id, decision_rank (decision_of after id) < decision_rank (decision_of before id))
      (bset_iter (claimant_ids claims)).

Definition first_difference (left right : gmap string Decision) (claims : list GovernanceClaim)
    : option (string * Decision * Decision) :=
  Observable.first_difference left right claims.

(* ------------------------------------------------------------------ *)
(** ** Names of appended nodes *)

(** [{:.2}] of a float: hundredths of its exact value, ties to even. *)
Definition hundredths (m : positive) (e : Z) : Z :=
  if (0 <=? e)%Z then Z.pos m * 100 * 2 ^ e
  else
    let d := (2 ^ (- e))%Z in
    let q := (Z.pos m * 100 / d)%Z in
    let r := (Z.pos m * 100 mod d)%Z in
    if (d <? 2 * r)%Z || ((2 * r =? d)%Z && Z.odd q) then (q + 1)%Z else q.

Definition show_hundredths (negative : bool) (n : Z) : string :=
  (if negative then "-" else "") +:+ pretty (Z.to_N (n / 100)) +:+ "." +:+
  pretty (Z.to_N (n mod 100 / 10)) +:+ pretty (Z.to_N (n mod 10)).

Definition show_fixed2 (x : f64) : string :=
  match x with
  | S754_nan => "NaN"
  | S754_infinity s => if s then "-inf" else "inf"
  | S754_zero s => show_hundredths s 0
  | S754_finite s m e => show_hundredths s (hundredths m e)
  end.

(** A byte that continues a UTF-8 character. *)
Definition is_continuation (c : ascii) : bool :=
  let n := nat_of_ascii c in (128 <=? n) && (n <? 192).

Definition id_char (c : ascii) : bool :=
  let n := nat_of_ascii c in
  ((97 <=? n) && (n <=? 122)) || ((65 <=? n) && (n <=? 90)) || ((48 <=? n) && (n <=? 57))
  || (n =? 45) || (n =? 95).

(** The characters outside [a-zA-Z0-9_-] become a hyphen each. *)
Fixpoint hyphenate (value : string) : string :=
  match value with
  | EmptyString => EmptyString
  | String c value =>
      if is_continuation c then hyphenate value
      else String (if id_char c then c else "-"%char) (hyphenate value)
  end.

(** [value.trim_matches('-').is_empty()] *)
Definition only_hyphens (value : string) : bool :=
  forallb (λ c, bool_decide (c = "-"%char)) (String.list_ascii_of_string value).

Definition sanitize_node_id (value : string) : string :=
  let sanitized := hyphenate value in
  if only_hyphens sanitized then "graph-review" else sanitized.

Definition suffixed (base : string) (suffix : nat) : string :=
  if suffix =? 0 then base else base +:+ "-" +:+ show_nat suffix.

(** The unbounded loop, on the suffixes left to try. *)
Fixpoint fresh_node_from (graph : GovernanceGraph) (base : string) (suffixes : list nat) : LResult NodeId :=
  match suffixes with
  | [] => Err out_of_fuel
  | suffix :: suffixes =>
      node_id ← NodeId_new (suffixed base suffix);
      match nodes graph !! node_id with
      | None => Ok node_id
      | Some _ => fresh_node_from graph base suffixes
      end
  end.

Definition fresh_node_id (graph : GovernanceGraph) (prefix : string) : LResult NodeId :=
  fresh_node_from graph (sanitize_node_id prefix) (seq 0 (S (size (nodes graph)))).

(* ------------------------------------------------------------------ *)
(** ** Appending a review node *)

Definition sink_nodes (graph : GovernanceGraph) : list NodeId :=
  sort_strings (filter (λ id, forallb (λ edge, negb (bool_decide (from edge = id))) (edges graph) = true)
                  (btree_keys (nodes graph))).

Definition review_node (review_id sink : NodeId) (percentile : f64) : GovernanceNode :=
  Binary review_id ("peer-review-" +:+ sink +:+ "-" +:+ show_fixed2 percentile)
    [PeerRelative "strength" percentile Permit] Deny AnyMustPass.

Definition append_review (graph : GovernanceGraph) (sink : NodeId) (percentile : f64)
    : LResult (NodeId * GovernanceGraph) :=
  review_id ← fresh_node_id graph (sink +:+ "-review");
  edge ← GovernanceEdge_new sink review_id PassThrough;
  Ok (review_id,
      mkGraph (<[review_id := review_node review_id sink percentile]> (nodes graph)) (edges graph ++ [edge])).

(* ------------------------------------------------------------------ *)
(** ** Iterating a cycle *)

Record StabilizedCycle := mkStabilized {
  sc_converged : bool;
  sc_decisions : gmap string Decision;
}.

Abbreviation Queues := (gmap NodeId (list GovernanceClaim)).

Definition cycle_edge_map (graph : GovernanceGraph) (cycle : list NodeId) : gmap NodeId (list GovernanceEdge) :=
  cycle_edges graph (list_to_set cycle).

(** The positions of the nodes in the cycle. *)
Definition cycle_positions (cycle : list NodeId) : gmap NodeId nat :=
  foldl (λ positions '(index, id), <[id := index]> positions) ∅ (enumerate cycle).

Definition metrics_match (left right : gmap string f64) (epsilon : f64) : bool :=
  metrics_within_epsilon left right epsilon.

Definition claim_matches (left right : GovernanceClaim) (epsilon : f64) : bool :=
  claims_within_epsilon left right epsilon.

Definition claims_match (left right : list GovernanceClaim) (epsilon : f64) : bool :=
  bool_decide (length left = length right) &&
  (let left := claims_by_id left in
   let right := claims_by_id right in
   bool_decide (dom left = dom right) &&
   forallb (λ '(id, before),
     match right !! id with Some after => claim_matches before after epsilon | None => false end)
     (btree_iter left)).

Definition state_matches (left right : Queues) (epsilon : f64) : bool :=
  bool_decide (size left = size right) &&
  forallb (λ '(id, left_claims),
    match right !! id with Some right_claims => claims_match left_claims right_claims epsilon | None => false end)
    (map_to_list left).

Definition strengthen_claim (claim : GovernanceClaim) (delta : f64) : LResult GovernanceClaim :=
  let strengthened := strengthen claim delta in
  if negb (f64_is_finite (gc_strength strengthened)) || f64_leb (gc_strength strengthened) f64_zero
  then Err (InvalidGovernanceStrength (gc_claimant_id strengthened) (gc_strength strengthened))
  else Ok strengthened.

(** The claims with the one at [index] strengthened. *)
Definition strengthened_at (claims : list GovernanceClaim) (index : nat) (delta : f64)
    : LResult (list GovernanceClaim) :=
  try_map (λ '(claim_index, current), if claim_index =? index then strengthen_claim current delta else Ok current)
    (enumerate claims).

(* ------------------------------------------------------------------ *)
(** ** Orders with a tie-break *)

Inductive TieBreak := Ascending | Descending.

(** The next of the sorted ready nodes, and those that stay. *)
Definition pick (tiebreak : TieBreak) (ready : list NodeId) : option (NodeId * list NodeId) :=
  match tiebreak with
  | Ascending => match ready with id :: ready => Some (id, ready) | [] => None end
  | Descending => match reverse ready with id :: ready => Some (id, reverse ready) | [] => None end
  end.

Definition relax_ready (st : gmap NodeId nat * list NodeId) (edge : GovernanceEdge)
    : LResult (gmap NodeId nat * list NodeId) :=
  let '(incoming, ready) := st in
  remaining ← ok_or (incoming !! to edge) (InvalidEdgeReference (to edge));
  match remaining with
  | O => Err (panicked "attempt to subtract with overflow")
  | S remaining =>
      Ok (<[to edge := remaining]> incoming, if bool_decide (remaining = 0) then ready ++ [to edge] else ready)
  end.

Fixpoint tiebreak_loop (fuel : nat) (graph : GovernanceGraph) (tiebreak : TieBreak)
    (incoming : gmap NodeId nat) (ready order : list NodeId) : LResult (list NodeId) :=
  match pick tiebreak (sort_strings ready) with
  | None => Ok order
  | Some (id, ready) =>
      match fuel with
      | O => Err out_of_fuel
      | S fuel =>
          st ← try_fold relax_ready (incoming, ready) (edges_from graph id);
          tiebreak_loop fuel graph tiebreak st.1 st.2 (order ++ [id])
      end
  end.

Definition topological_order_with_tiebreak (graph : GovernanceGraph) (tiebreak : TieBreak)
    : LResult (list NodeId) :=
  let incoming := incoming_counts graph in
  order ← tiebreak_loop (size (nodes graph)) graph tiebreak incoming (ready_nodes graph incoming) [];
  if bool_decide (length order = size (nodes graph)) then Ok order
  else cycles ← detect_cycles graph; Err (CycleError (default [] (head cycles))).

(* ------------------------------------------------------------------ *)
(** ** The probes *)

Section probes.
Context `{RegexEngine}.

(** One edge out of the node at [index]: forward edges feed this pass, the
    others the next. *)
Definition send_stabilizing (positions : gmap NodeId nat) (index : nat) (forwarded : list GovernanceClaim)
    (decisions : list ClaimDecision) (st : Queues * Queues) (edge : GovernanceEdge) : LResult (Queues * Queues) :=
  let '(current_queued, next_iteration) := st in
  transformed ← apply_transform (transform edge) forwarded decisions;
  target_index ← ok_or (positions !! to edge) (InvalidEdgeReference (to edge));
  if bool_decide (index < target_index) then
    merged ← merge_claim_batches (to edge) (default [] (current_queued !! to edge)) transformed;
    Ok (<[to edge := merged]> current_queued, next_iteration)
  else
    merged ← merge_claim_batches (to edge) (default [] (next_iteration !! to edge)) transformed;
    Ok (current_queued, <[to edge := merged]> next_iteration).

Definition stabilize_node (graph : GovernanceGraph) (edge_map : gmap NodeId (list GovernanceEdge))
    (positions : gmap NodeId nat) (st : Queues * Queues * gmap string Decision) (entry : nat * NodeId)
    : LResult (Queues * Queues * gmap string Decision) :=
  let '(current_queued, next_iteration, decisions) := st in
  let '(index, id) := entry in
  node ← ok_or (nodes graph !! id) (InvalidEdgeReference id);
  let current_claims := default [] (current_queued !! id) in
  current_decisions ← evaluate_node node current_claims;
  let decisions := record_decisions decisions current_decisions in
  let forwarded := forwarded_claims current_claims current_decisions in
  queues ← try_fold (send_stabilizing positions index forwarded current_decisions)
             (delete id current_queued, next_iteration) (default [] (edge_map !! id));
  Ok (queues, decisions).

(** [for _ in 0..max_iterations], with the number of iterations left. *)
Fixpoint stabilize_loop (remaining : nat) (graph : GovernanceGraph) (cycle : list NodeId)
    (edge_map : gmap NodeId (list GovernanceEdge)) (positions : gmap NodeId nat) (epsilon : f64)
    (queued : Queues) (last_decisions : gmap string Decision) : LResult StabilizedCycle :=
  match remaining with
  | O => Ok (mkStabilized false last_decisions)
  | S remaining =>
      st ← try_fold (stabilize_node graph edge_map positions) (queued, ∅, last_decisions) (enumerate cycle);
      let '(_, next_iteration, decisions) := st in
      if state_matches queued next_iteration epsilon then Ok (mkStabilized true decisions)
      else stabilize_loop remaining graph cycle edge_map positions epsilon next_iteration decisions
  end.

Definition stabilize_cycle (graph : GovernanceGraph) (cycle : list NodeId) (claims : list GovernanceClaim)
    (max_iterations : nat) (epsilon : f64) : LResult StabilizedCycle :=
  match cycle with
  | [] => Err (invalid_input [Txt "feedback monotonicity requires at least one node in the cycle"])
  | entry :: _ =>
      stabilize_loop max_iterations graph cycle (cycle_edge_map graph cycle) (cycle_positions cycle) epsilon
        {[entry := claims]} ∅
  end.

Definition alabama_step (graph : GovernanceGraph) (claims : list GovernanceClaim)
    (baseline : gmap string Decision) (sink : NodeId) (_ : ()) (percentile : f64)
    : LResult (Flow () GraphParadoxViolation) :=
  appended ← append_review graph sink percentile;
  let '(review_id, perturbed) := appended in
  candidate ← traverse_final_decisions perturbed claims;
  Ok match first_worsening baseline candidate claims with
     | Some (claimant_id, before, after) =>
         Break (mkGraphParadox CompositionalAlabama
           [Txt "Appending peer-review node '"; Txt review_id; Txt "' after '"; Txt sink;
            Txt "' at percentile "; Num2 percentile; Txt " worsened '"; Txt claimant_id; Txt "' from ";
            Txt (decision_debug before); Txt " to "; Txt (decision_debug after)]
           baseline candidate)
     | None => Continue ()
     end.

Definition compositional_alabama (graph : GovernanceGraph) (claims : list GovernanceClaim)
    : LResult (option GraphParadoxViolation) :=
  baseline ← traverse_final_decisions graph claims;
  found (try_loop (λ _ sink, try_loop (alabama_step graph claims baseline sink) () REVIEW_PERCENTILES) ()
           (sink_nodes graph)).

Definition feedback_step (graph : GovernanceGraph) (cycle : list NodeId) (claims : list GovernanceClaim)
    (baseline : StabilizedCycle) (index : nat) (claim : GovernanceClaim) (_ : ()) (delta : f64)
    : LResult (Flow () GraphParadoxViolation) :=
  strengthened ← strengthened_at claims index delta;
  candidate ← stabilize_cycle graph cycle strengthened 32 EPSILON;
  if negb (sc_converged candidate) then Ok (Continue ())
  else
    Ok match first_worsening (sc_decisions baseline) (sc_decisions candidate) claims with
       | Some (claimant_id, before, after) =>
           Break (mkGraphParadox FeedbackMonotonicity
             [Txt "Strengthening '"; Txt (gc_claimant_id claim); Txt "' by "; Num2 delta; Txt " made cycle ";
              Names cycle; Txt " settle to a worse outcome for '"; Txt claimant_id; Txt "' from ";
              Txt (decision_debug before); Txt " to "; Txt (decision_debug after)]
             (sc_decisions baseline) (sc_decisions candidate))
       | None => Continue ()
       end.

Definition feedback_cycle (graph : GovernanceGraph) (claims : list GovernanceClaim) (_ : ())
    (cycle : list NodeId) : LResult (Flow () GraphParadoxViolation) :=
  baseline ← stabilize_cycle graph cycle claims 32 EPSILON;
  if negb (sc_converged baseline) then Ok (Continue ())
  else
    try_loop (λ _ '(index, claim),
      try_loop (feedback_step graph cycle claims baseline index claim) () DEFAULT_STRENGTH_DELTAS) ()
      (enumerate claims).

Definition feedback_monotonicity (graph : GovernanceGraph) (claims : list GovernanceClaim)
    : LResult (option GraphParadoxViolation) :=
  cycles ← detect_cycles graph;
  found (try_loop (feedback_cycle graph claims) () cycles).

(** The evaluation of src/paradox/graph.rs: that of the determinacy check
    without its test for entry nodes. *)
Definition evaluate_with_order (graph : GovernanceGraph) (claims : list GovernanceClaim) (order : list NodeId)
    : LResult (gmap string Decision) :=
  _ ← validate_topological_order graph order;
  let entry_nodes := ready_nodes graph (incoming_counts graph) in
  let queued := foldl (λ queued id, <[id := claims]> queued) ∅ entry_nodes in
  st ← try_fold (visit_with evaluate_node merge_claim_batches graph (outgoing_edges graph))
         (mkTraverseState queued ∅ None) order;
  Ok (ts_final st).

Definition path_dependence (graph : GovernanceGraph) (claims : list GovernanceClaim)
    : LResult (option GraphParadoxViolation) :=
  cycles ← detect_cycles graph;
  if negb (bool_decide (cycles = [])) then Ok None
  else
    ascending ← topological_order_with_tiebreak graph Ascending;
    descending ← topological_order_with_tiebreak graph Descending;
    if bool_decide (ascending = descending) then Ok None
    else
      left ← evaluate_with_order graph claims ascending;
      right ← evaluate_with_order graph claims descending;
      Ok match first_difference left right claims with
         | Some (claimant_id, first, second) =>
             Some (mkGraphParadox PathDependence
               [Txt "Evaluating the same DAG in orders "; Txt (format_order ascending); Txt " and ";
                Txt (format_order descending); Txt " changed '"; Txt claimant_id; Txt "' from ";
                Txt (decision_debug first); Txt " to "; Txt (decision_debug second)]
               left right)
         | None => None
         end.
End probes.

(* ------------------------------------------------------------------ *)
(** ** The tie-broken orders are legal *)

Section orders.
Context (g : GovernanceGraph) (Hwf : graph_wf g).

Lemma pick_Some tb ready x rest : pick tb ready = Some (x, rest) → ready ≡ₚ x :: rest.
Proof using Type.
  clear. destruct tb; simpl; [by destruct ready; intros [= -> ->]|].
  destruct (reverse ready) as [|y l] eqn:Hr; [done|]. intros [= -> <-].
  rewrite <-(reverse_Permutation ready), Hr. by rewrite reverse_Permutation.
Qed.

Lemma pick_None tb ready : pick tb ready = None → ready = [].
Proof using Type.
  clear. destruct tb; simpl; [by destruct ready|]. destruct (reverse ready) eqn:Hr; [|done]. intros _.
  by rewrite <-(reverse_involutive ready), Hr.
Qed.

(** On a list the relaxing loop does what it does on the set of its elements. *)
Lemma relax_ready_spec order extra counts ready :
  (∀ e, e ∈ extra → e ∈ edges g) → kahn g order extra counts (list_to_set ready) → NoDup ready →
  ∃ counts' ready', try_fold relax_ready (counts, ready) extra = Ok (counts', ready') ∧ NoDup ready' ∧
    kahn g order [] counts' (list_to_set ready').
Proof using Hwf.
  revert counts ready. induction extra as [|e extra IH]; intros counts ready Hin Hk Hnd; simpl.
  { eauto. }
  destruct (relax_one_spec g Hwf order e extra counts (list_to_set ready)) as (count & Hl & Hq & Hk');
    [apply Hin; left|done|].
  rewrite Hl. cbn [ok_or mbind Result_bind]. rewrite elem_of_list_to_set in Hq.
  apply IH; [intros e' He'; apply Hin; by right| |].
  - case_bool_decide; [|done]. rewrite list_to_set_app_L. simpl. by rewrite (right_id_L ∅ (∪)), (comm_L (∪)).
  - case_bool_decide; [|done]. apply NoDup_app. split_and!; [done| |apply NoDup_singleton]. set_solver.
Qed.

Lemma tiebreak_loop_spec tb fuel counts ready order :
  kahn g order [] counts (list_to_set ready) → NoDup ready → NoDup order → topological g order →
  size (nodes g) - length order ≤ fuel →
  ∃ order' counts', tiebreak_loop fuel g tb counts ready order = Ok order' ∧ NoDup order' ∧
    topological g order' ∧ kahn g order' [] counts' ∅.
Proof using Hwf.
  revert counts ready order. induction fuel as [|fuel IH]; intros counts ready order Hk Hnr Hnd Ht Hf;
    cbn [tiebreak_loop]; destruct (pick tb (sort_strings ready)) as [[x rest]|] eqn:Hp.
  2,4: apply pick_None in Hp; exists order, counts; split_and!; [done..|];
    assert (ready = []) as -> by (apply Permutation_nil_r; rewrite <-(sort_strings_perm ready); by rewrite Hp); done.
  - exfalso. apply pick_Some in Hp. rewrite sort_strings_perm in Hp.
    assert (x ∈ ready) as Hx by (rewrite Hp; left).
    assert (NoDup (x :: order)) as Hnd'.
    { constructor; [|done]. apply (kahn_disj _ _ _ _ _ Hk). by apply elem_of_list_to_set. }
    assert (length (x :: order) ≤ size (nodes g)); [|simpl in *; lia].
    rewrite <-length_btree_keys. apply submseteq_length, NoDup_submseteq; [done|].
    intros v Hv. apply elem_of_btree_keys, (kahn_nodes _ _ _ _ _ Hk). set_solver.
  - apply pick_Some in Hp. rewrite sort_strings_perm in Hp.
    rewrite Hp in Hnr. apply NoDup_cons in Hnr as [Hxr Hnr].
    assert (list_to_set ready = ({[x]} ∪ list_to_set rest : gset NodeId)) as Hset.
    { apply set_eq. intros v. by rewrite elem_of_union, elem_of_singleton, !elem_of_list_to_set, Hp, elem_of_cons. }
    assert (x ∈ (list_to_set ready : gset NodeId)) as Hx by (rewrite Hset; apply elem_of_union_l, elem_of_singleton_2; done).
    pose proof (kahn_disj _ _ _ _ _ Hk x Hx) as Hxo.
    destruct (relax_ready_spec (order ++ [x]) (edges_from g x) counts rest) as (counts' & ready' & Hrel & Hnr' & Hk').
    { intros e [_ He]%list_elem_of_filter. done. }
    { replace (list_to_set rest : gset NodeId) with ((list_to_set ready : gset NodeId) ∖ {[x]}); [by apply kahn_pop|].
      rewrite Hset. apply set_eq. intros v.
      rewrite elem_of_difference, elem_of_union, elem_of_singleton, elem_of_list_to_set. naive_solver. }
    { done. }
    rewrite Hrel. cbn [mbind Result_bind fst snd]. apply IH; [done|done|..].
    + apply NoDup_app. split_and!; [done| |apply NoDup_singleton]. set_solver.
    + apply topological_snoc; [done|]. apply (kahn_ready _ _ _ _ _ Hk); [apply (kahn_nodes _ _ _ _ _ Hk)|]; auto.
    + rewrite length_app. simpl. lia.
Qed.

Context (Hac : acyclic g).

(** Either way of breaking ties orders all nodes, predecessors first. *)
Lemma tiebreak_order_ok tb :
  ∃ order, topological_order_with_tiebreak g tb = Ok order ∧ NoDup order ∧ topological g order ∧
    ∀ v, v ∈ order ↔ is_Some (nodes g !! v).
Proof using Hwf Hac.
  unfold topological_order_with_tiebreak.
  destruct (tiebreak_loop_spec tb (size (nodes g)) (incoming_counts g) (ready_nodes g (incoming_counts g)) [])
    as (order & counts & -> & Hnd & Ht & Hk).
  - apply kahn_initial.
  - apply NoDup_filter, NoDup_btree_keys.
  - constructor.
  - apply topological_nil.
  - simpl. lia.
  - cbn [mbind Result_bind]. pose proof (kahn_covers g Hwf Hac _ _ Hk Hnd) as Hlen.
    rewrite bool_decide_true by done. exists order. split_and!; [done..|]. intros v.
    split; [intros Hv; apply (kahn_nodes _ _ _ _ _ Hk); auto|]. intros Hv.
    assert (order ≡ₚ btree_keys (nodes g)) as ->; [|by apply elem_of_btree_keys].
    apply submseteq_length_Permutation; [|by rewrite length_btree_keys, Hlen].
    apply NoDup_submseteq; [done|]. intros w Hw. apply elem_of_btree_keys, (kahn_nodes _ _ _ _ _ Hk). auto.
Qed.

Lemma record_positions_total order :
  NoDup order → (∀ v, v ∈ order → is_Some (nodes g !! v)) →
  ∃ st, try_fold (record_position g) (∅, ∅) (zip (seq 0 (length order)) order) = Ok st.
Proof using Type.
  clear Hwf Hac. induction order as [|x order IH] using rev_ind; intros Hnd Hn; [by eexists|].
  rewrite length_app, seq_app, zip_with_app by (by rewrite length_seq). rewrite try_fold_app.
  apply NoDup_app in Hnd as (Hnd & Hx & _). destruct IH as (st & Hst); [done|intros v Hv; apply Hn; set_solver|].
  rewrite Hst. cbn [mbind Result_bind]. destruct (record_positions_spec _ _ _ Hst) as (_ & _ & Hseen & _).
  destruct st as [seen pos]. simpl. destruct (Hn x) as [node ->]; [set_solver|]. cbn [ok_or mbind Result_bind].
  rewrite decide_False; [by eexists|]. simpl in Hseen. rewrite Hseen. intros Hin. apply (Hx x Hin). left.
Qed.

(** A legal order passes the validation. *)
Lemma validate_topological_order_total order :
  NoDup order → topological g order → (∀ v, v ∈ order ↔ is_Some (nodes g !! v)) →
  validate_topological_order g order = Ok ().
Proof using Hwf.
  clear Hac. intros Hnd Ht Hall. unfold validate_topological_order.
  assert (length order = size (nodes g)) as Hlen.
  { rewrite <-length_btree_keys. apply Permutation_length, NoDup_Permutation; [done|apply NoDup_btree_keys|].
    intros v. by rewrite Hall, elem_of_btree_keys. }
  rewrite bool_decide_true by done. cbn [ensure mbind Result_bind].
  destruct (record_positions_total order Hnd) as (st & Hst); [intros v; apply Hall|].
  rewrite Hst. cbn [mbind Result_bind]. destruct (record_positions_spec _ _ _ Hst) as (_ & _ & _ & Hpos).
  apply try_iter_Ok, Forall_forall. intros e He.
  destruct (graph_wf_edges g Hwf e He) as [Hf Hto]. apply Hall in Hto.
  apply list_elem_of_split in Hto as (pre & post & Ho).
  assert (from e ∈ pre) as Hfp.
  { apply (Ht pre (to e) post (from e) Ho). apply elem_of_successors. eauto. }
  apply list_elem_of_lookup in Hfp as [i Hi]. pose proof (lookup_lt_Some _ _ _ Hi) as Hlt.
  rewrite (proj2 (Hpos (from e) i)) by (rewrite Ho; by apply lookup_app_l_Some).
  rewrite (proj2 (Hpos (to e) (length pre))) by (rewrite Ho; by apply list_lookup_middle).
  cbn [ok_or mbind Result_bind]. by rewrite bool_decide_false by lia.
Qed.
End orders.

Section path_dependence_facts.
Context `{RegexEngine} (g : GovernanceGraph) (cs : list GovernanceClaim).
Context (Hwf : graph_wf g) (Hval : validate_governance_claims cs = Ok ()).

(** In a legal order the evaluation meets the specification of a traversal. *)
Lemma evaluate_with_order_cases order :
  NoDup order → topological g order → (∀ v, v ∈ order ↔ is_Some (nodes g !! v)) →
  (∃ final nds, evaluate_with_order g cs order = Ok final ∧ traversal_spec g cs final nds) ∨
  (∃ e, evaluate_with_order g cs order = Err e ∧ evaluation_error g cs e).
Proof using Hwf Hval.
  intros Hnd Ht Hall. unfold evaluate_with_order. rewrite (validate_topological_order_total g Hwf) by done.
  cbn [mbind Result_bind].
  assert (∀ v, v ∈ ready_nodes g (incoming_counts g) ↔ v ∈ entry_node_list g (incoming_counts g)) as Hl.
  { intros v. unfold entry_node_list. by rewrite elem_of_sort_strings. }
  pose proof (visit_inv_initial g cs Hval false _ Hl) as Hini.
  destruct (visit_all_spec g cs evaluate_node merge_claim_batches Hwf Hval false order _ Hini Hnd Ht Hall)
    as [(st & nds & Hst & _ & Hsp)|(e & He & Hbad)]; cbv iota in *.
  - rewrite Hst. left. cbn [mbind Result_bind]. eauto.
  - rewrite He. right. cbn [mbind Result_bind]. eauto.
Qed.

Lemma path_dependence_cases :
  path_dependence g cs = Ok None ∨ ∃ e, path_dependence g cs = Err e ∧ evaluation_error g cs e.
Proof using Hwf Hval.
  unfold path_dependence. destruct (detect_cycles_search g) as (s & Hd & _).
  rewrite Hd. cbn [mbind Result_bind]. case_bool_decide as Hcyc; [|by left]. cbn [negb].
  assert (acyclic g) as Hac. { intros u. apply Acc_no_cycle, detect_cycles_Acc; [done|]. by rewrite Hd, Hcyc. }
  destruct (tiebreak_order_ok g Hwf Hac Ascending) as (asc & -> & Hnd & Ht & Hall).
  destruct (tiebreak_order_ok g Hwf Hac Descending) as (desc & -> & Hnd' & Ht' & Hall'). cbn [mbind Result_bind].
  case_bool_decide; [by left|].
  destruct (evaluate_with_order_cases asc Hnd Ht Hall) as [(left_ & nds & -> & Hsp)|(e & -> & He)];
    cbn [mbind Result_bind]; [|by right; eauto].
  destruct (evaluate_with_order_cases desc Hnd' Ht' Hall') as [(right_ & nds' & -> & Hsp')|(e & -> & He)];
    cbn [mbind Result_bind]; [|by right; eauto].
  assert (left_ = right_) as -> by (by eapply (traversal_spec_edges g cs Hwf Hac g cs)).
  left. unfold first_difference. by rewrite first_difference_refl.
Qed.
End path_dependence_facts.

(* ------------------------------------------------------------------ *)
(** ** The appended review *)

Lemma hyphenate_chars value c : c ∈ String.list_ascii_of_string (hyphenate value) → id_char c = true.
Proof.
  induction value as [|a value IH]; [by intros ?%not_elem_of_nil|]. cbn [hyphenate].
  destruct (is_continuation a); [done|]. cbn [String.list_ascii_of_string].
  intros [->|Hin]%elem_of_cons; [|auto]. by destruct (id_char a) eqn:Ha.
Qed.

(** A sanitized id has a character, and it is not blank. *)
Lemma sanitize_node_id_nonblank value : ∃ c rest, sanitize_node_id value = String c rest ∧ id_char c = true.
Proof.
  unfold sanitize_node_id. destruct (only_hyphens (hyphenate value)) eqn:Hb; [by eexists _, _|].
  pose proof (hyphenate_chars value) as Hc. destruct (hyphenate value) as [|c rest]; [done|].
  exists c, rest. split; [done|]. apply Hc. left.
Qed.

Lemma id_char_nonblank c rest : id_char c = true → is_blank (String c rest) = false.
Proof.
  intros Hc. unfold is_blank. cbn [String.length is_blank_fuel].
  assert (strip_white (String c rest) = None) as ->; [|done].
  assert (45 ≤ nat_of_ascii c ≤ 122) as Hn.
  { unfold id_char in Hc. rewrite !orb_true_iff, !andb_true_iff, !Nat.leb_le, !Nat.eqb_eq in Hc. lia. }
  clear Hc. unfold strip_white. rewrite decide_False by lia. destruct rest as [|c1 rest]; [done|].
  rewrite decide_False by lia. destruct rest as [|c2 rest]; [done|]. by rewrite decide_False by lia.
Qed.

Lemma suffixed_inj base i j : suffixed base i = suffixed base j → i = j.
Proof.
  unfold suffixed. destruct (Nat.eqb_spec i 0) as [->|Hi], (Nat.eqb_spec j 0) as [->|Hj]; [done| | |].
  - intros Heq. apply (f_equal String.length) in Heq. rewrite !string_app_length in Heq. simpl in Heq. lia.
  - intros Heq. apply (f_equal String.length) in Heq. rewrite !string_app_length in Heq. simpl in Heq. lia.
  - intros Heq. do 2 apply (inj (String.append _)) in Heq. unfold show_nat in Heq. by apply (inj pretty) in Heq; lia.
Qed.

(** A fresh id is always found. *)
Lemma fresh_node_id_spec g prefix : ∃ id, fresh_node_id g prefix = Ok id ∧ nodes g !! id = None.
Proof.
  unfold fresh_node_id. set (base := sanitize_node_id prefix).
  destruct (fresh_among (nodes g) (suffixed base) (suffixed_inj base)) as (i & Hi & Hn).
  destruct (sanitize_node_id_nonblank prefix) as (c & rest & Hb & Hc). fold base in Hb.
  assert (∀ n, is_blank (suffixed base n) = false) as Hblank.
  { intros n. unfold suffixed. rewrite Hb. destruct (n =? 0); by apply id_char_nonblank. }
  revert Hi. generalize (seq 0 (S (size (nodes g)))). induction l as [|n l IH]; intros Hi; [by apply not_elem_of_nil in Hi|].
  cbn [fresh_node_from]. unfold NodeId_new. rewrite Hblank. cbn [mbind Result_bind].
  destruct (nodes g !! suffixed base n) eqn:Hs; [|eauto].
  apply elem_of_cons in Hi as [->|Hi]; [congruence|auto].
Qed.

Lemma elem_of_sink_nodes g sink :
  sink ∈ sink_nodes g ↔ is_Some (nodes g !! sink) ∧ ∀ v, ¬ edge_rel g sink v.
Proof.
  unfold sink_nodes. rewrite elem_of_sort_strings, list_elem_of_filter, elem_of_btree_keys, Logic.and_comm.
  apply and_iff_compat_l. rewrite forallb_forall. split.
  - intros Hf v (e & He & Hfrom & _)%elem_of_successors. apply list_elem_of_In in He.
    specialize (Hf e He). by rewrite bool_decide_true in Hf.
  - intros Hn e He. apply list_elem_of_In in He. rewrite bool_decide_false; [done|].
    intros Hfrom. apply (Hn (to e)), elem_of_successors. eauto.
Qed.

(** The graph with a review node behind [sink]. *)
Definition appends_review (g g' : GovernanceGraph) (sink review_id : NodeId) (percentile : f64) : Prop :=
  nodes g !! review_id = None ∧ graph_wf g' ∧
  nodes g' !! review_id = Some (review_node review_id sink percentile) ∧
  (∀ v, v ≠ review_id → nodes g' !! v = nodes g !! v) ∧
  (∀ u v, edge_rel g' u v ↔ edge_rel g u v ∨ (u = sink ∧ v = review_id)).

Lemma append_review_spec g sink percentile :
  graph_wf g → is_Some (nodes g !! sink) →
  ∃ review_id g', append_review g sink percentile = Ok (review_id, g') ∧
    appends_review g g' sink review_id percentile.
Proof.
  intros Hwf Hsink. unfold append_review. destruct (fresh_node_id_spec g (sink +:+ "-review")) as (rid & -> & Hfresh).
  cbn [mbind Result_bind GovernanceEdge_new]. eexists _, _. split; [done|].
  assert (∀ u v, edge_rel (mkGraph (<[rid := review_node rid sink percentile]> (nodes g))
      (edges g ++ [mkEdge sink rid PassThrough])) u v ↔ edge_rel g u v ∨ (u = sink ∧ v = rid)) as He.
  { intros u v. unfold edge_rel. rewrite !elem_of_successors. simpl. split.
    - intros (e & [He|Heq]%elem_of_app & <- & <-); [left; eauto|]. apply list_elem_of_singleton in Heq as ->. by right.
    - intros [(e & He & <- & <-)|[-> ->]]; [exists e; set_solver|].
      exists (mkEdge sink rid PassThrough). split_and!; [|done..]. set_solver. }
  split_and!; [done| |simpl; by rewrite lookup_insert_eq|intros v Hv; simpl; by apply lookup_insert_ne|exact He].
  split; simpl.
  - intros k n. rewrite lookup_insert. case_decide; [by intros [= <-]|]. by apply Hwf.
  - intros e [He'|Heq]%elem_of_app.
    + destruct (graph_wf_edges g Hwf e He'). rewrite !lookup_insert. split; case_decide; eauto.
    + apply list_elem_of_singleton in Heq as ->. simpl. rewrite !lookup_insert. split; case_decide; eauto. done.
Qed.

Global Instance ClaimDecision_eq_dec : EqDecision ClaimDecision.
Proof. solve_decision. Defined.

Section alabama_facts.
Context `{RegexEngine} (g : GovernanceGraph) (cs : list GovernanceClaim) (sink : NodeId) (percentile : f64).
Context (Hwf : graph_wf g) (Hac : acyclic g).

(** The claims that [sink] escalates, in the order they were submitted. *)
Definition sent_to_review (nds : gmap NodeId (list ClaimDecision)) : list GovernanceClaim :=
  filter (λ c, mkClaimDecision (gc_claimant_id c) Escalate ∈ default [] (nds !! sink)) cs.

(** [c] is escalated by [sink] and by no other rule denied, and its strength
    is below the percentile of those escalated with it. *)
Definition review_denies (nds : gmap NodeId (list ClaimDecision)) (final : gmap string Decision)
    (c : GovernanceClaim) : Prop :=
  c ∈ sent_to_review nds ∧ final !! gc_claimant_id c = Some Escalate ∧
  evaluate_peer_relative c (sent_to_review nds) "strength" percentile = Ok false.

Lemma review_decision rid batch c :
  node_decision (review_node rid sink percentile) batch c =
  (m ← evaluate_peer_relative c batch "strength" percentile; Ok (if m : bool then Permit else Deny)).
Proof using Type.
  clear. simpl. unfold evaluate_any_must_pass. cbn [matched_decisions gate_matches gate_decision].
  by destruct (evaluate_peer_relative _ _ _ _) as [[|]|].
Qed.

Context (g' : GovernanceGraph) (rid : NodeId) (Happ : appends_review g g' sink rid percentile).
Context (Hin : is_Some (nodes g !! sink)) (Hsink : ∀ v, ¬ edge_rel g sink v) (Hval : validate_governance_claims cs = Ok ()).
Context (final final' : gmap string Decision) (nds nds' : gmap NodeId (list ClaimDecision)).
Context (Hsp : traversal_spec g cs final nds) (Hsp' : traversal_spec g' cs final' nds').

Lemma old_nodes_decide_alike v ds ds' id d :
  v ≠ rid → nds !! v = Some ds → nds' !! v = Some ds' → mkClaimDecision id d ∈ ds ↔ mkClaimDecision id d ∈ ds'.
Proof using All.
  destruct Happ as (Hfresh & Hwf' & _ & Hn & He).
  intros Hv Hds Hds'. eapply (spec_agree_on g cs Hwf Hac (λ v, v ≠ rid) g' cs final final' nds nds'); try done.
  - intros a b _ (e & Hin' & Hfrom & _)%elem_of_successors Heq.
    destruct (graph_wf_edges g Hwf e Hin') as [[n Hn'] _]. congruence.
  - intros u w Hw. rewrite He. naive_solver.
Qed.

Lemma old_node_runs v ds : nds !! v = Some ds → v ≠ rid ∧ ∃ ds', nds' !! v = Some ds' ∧
  ∀ id d, mkClaimDecision id d ∈ ds ↔ mkClaimDecision id d ∈ ds'.
Proof using All.
  intros Hv. destruct Happ as (Hfresh & _ & _ & Hn & _).
  assert (is_Some (nodes g !! v)) as Hg by (apply (tr_nodes _ _ _ _ Hsp); eauto).
  assert (v ≠ rid) as Hne by (intros ->; rewrite Hfresh in Hg; by destruct Hg).
  split; [done|]. destruct (proj2 (tr_nodes _ _ _ _ Hsp' v)) as [ds' Hds']; [by rewrite Hn|].
  exists ds'. split; [done|]. intros id d. by eapply old_nodes_decide_alike.
Qed.

(** What the review decides: permit or deny, for the claims it was sent. *)
Lemma review_batch :
  ∃ ds, nds' !! rid = Some ds ∧
    (∀ c, c ∈ sent_to_review nds → ∃ m, evaluate_peer_relative c (sent_to_review nds) "strength" percentile = Ok m) ∧
    ∀ id d, mkClaimDecision id d ∈ ds ↔
      ∃ c, c ∈ sent_to_review nds ∧ gc_claimant_id c = id ∧
        ∃ m : bool, evaluate_peer_relative c (sent_to_review nds) "strength" percentile = Ok m ∧
          d = if m then Permit else Deny.
Proof using All.
  destruct Happ as (Hfresh & Hwf' & Hrid & Hn & He).
  destruct (proj2 (tr_nodes _ _ _ _ Hsp' rid)) as [ds Hds]; [by eexists|]. exists ds. split; [done|].
  destruct (tr_batch _ _ _ _ Hsp' rid _ ds Hrid Hds) as (batch & [Hnd Hel] & Hev).
  assert (batch ≡ₚ sent_to_review nds) as Hperm.
  { apply NoDup_Permutation; [by eapply NoDup_fmap_1| |].
    - apply NoDup_filter. eapply NoDup_fmap_1. by apply validate_governance_claims_Ok in Hval as [_ ?].
    - intros c. rewrite Hel. unfold sent_to_review. rewrite list_elem_of_filter, Logic.and_comm.
      apply and_iff_compat_r. unfold fed, escalated. setoid_rewrite He. split.
      + intros [Hno|(u & [Hu|[-> _]] & dsu & Hdsu & Hesc)].
        * destruct (Hno sink). by right.
        * exfalso. apply elem_of_successors in Hu as (e & Hin' & _ & Hto).
          destruct (graph_wf_edges g Hwf e Hin') as [_ [n Hn']]. congruence.
        * destruct (nds !! sink) as [dss|] eqn:Hs.
          -- destruct (old_node_runs sink dss Hs) as (_ & ds' & Hds' & Hiff). simplify_eq. by apply Hiff.
          -- apply (tr_nodes _ _ _ _ Hsp) in Hin as [? ?]. congruence.
      + intros Hesc. right. exists sink. split; [by right|].
        destruct (nds !! sink) as [dss|] eqn:Hs; [|by apply not_elem_of_nil in Hesc].
        destruct (old_node_runs sink dss Hs) as (_ & ds' & Hds' & Hiff). exists ds'. split; [done|]. by apply Hiff. }
  split.
  { intros c Hc. apply evaluate_node_validated_Ok in Hev as [HF _]. rewrite <-Hperm in Hc.
    apply list_elem_of_lookup in Hc as [i Hi]. destruct (Forall2_lookup_l _ _ _ _ _ HF Hi) as (d & _ & Hd & _).
    apply (node_decision_perm _ c _ _ Hperm) in Hd. rewrite review_decision in Hd.
    destruct (evaluate_peer_relative _ _ _ _); [eauto|done]. }
  intros id d. rewrite (elem_of_node_decisions _ _ _ _ _ Hev).
  split; intros (c & Hc & Hid & Hd); exists c; (split; [by rewrite Hperm in * || rewrite <-Hperm in *|]); (split; [done|]).
  - apply (node_decision_perm _ c _ _ Hperm) in Hd. rewrite review_decision in Hd.
    destruct (evaluate_peer_relative _ _ _ _) as [m|]; [|done]. exists m. split; [done|]. by injection Hd.
  - destruct Hd as (m & Hm & ->). apply (node_decision_perm _ c _ _ Hperm). rewrite review_decision. by rewrite Hm.
Qed.

(** What is recorded with the review: what was, but for the escalations of
    [sink], and what the review decides. *)
Lemma recorded_with_review id d :
  recorded g' nds' id d ↔
  (∃ u ds, nds !! u = Some ds ∧ mkClaimDecision id d ∈ ds ∧
    (d = Escalate → (∀ v, ¬ edge_rel g u v) ∧ u ≠ sink)) ∨
  (∃ ds, nds' !! rid = Some ds ∧ mkClaimDecision id d ∈ ds).
Proof using All.
  destruct Happ as (Hfresh & Hwf' & Hrid & Hn & He). split.
  - intros (u & ds' & Hu & Hd & Hlast). destruct (decide (u = rid)) as [->|Hne]; [right; eauto|left].
    assert (is_Some (nds !! u)) as [ds Hds].
    { apply (tr_nodes _ _ _ _ Hsp). rewrite <-Hn by done. apply (tr_nodes _ _ _ _ Hsp'). eauto. }
    destruct (old_node_runs u ds Hds) as (_ & ds2 & Hds2 & Hiff). simplify_eq.
    exists u, ds. split; [done|]. split; [by apply Hiff|]. intros Hesc. specialize (Hlast Hesc).
    split; [intros v Hv; apply (Hlast v), He; by left|]. intros ->. apply (Hlast rid), He. by right.
  - intros [(u & ds & Hu & Hd & Hlast)|(ds & Hds & Hd)].
    + destruct (old_node_runs u ds Hu) as (Hne & ds2 & Hds2 & Hiff). exists u, ds2. split; [done|].
      split; [by apply Hiff|]. intros Hesc v Hv%He. destruct (Hlast Hesc) as [Hl Hns]. destruct Hv as [Hv|[Hs _]]; [by apply (Hl v)|done].
    + exists rid, ds. split; [done|]. split; [done|]. intros ->.
      destruct review_batch as (ds2 & Hds2 & _ & Hiff). simplify_eq. apply Hiff in Hd as (c & _ & _ & m & _ & Hm).
      by destruct m.
Qed.

(** The review worsens exactly the claims it denies, from an escalation. *)
Lemma review_worsens c :
  c ∈ cs →
  decision_rank (decision_of final' (gc_claimant_id c)) < decision_rank (decision_of final (gc_claimant_id c)) ↔
  review_denies nds final c.
Proof using All.
  intros Hc. set (id := gc_claimant_id c).
  pose proof (tr_final _ _ _ _ Hsp id) as Hf. pose proof (tr_final _ _ _ _ Hsp' id) as Hf'.
  destruct review_batch as (dsr & Hdsr & Hruns & Hrev).
  assert (∀ c', c' ∈ sent_to_review nds → gc_claimant_id c' = id → c' = c) as Huniq.
  { intros c' [_ Hc']%list_elem_of_filter Hid. apply validate_governance_claims_Ok in Hval as [_ Hnd].
    by eapply (valid_claims_inj cs). }
  assert (c ∈ sent_to_review nds ∨ c ∉ sent_to_review nds) as [Hsent|Hnot].
  { unfold sent_to_review. rewrite list_elem_of_filter.
    destruct (decide (mkClaimDecision (gc_claimant_id c) Escalate ∈ default [] (nds !! sink))); tauto. }
  2:{ assert (strictest (recorded g nds id) (final' !! id)) as Hsame.
      { eapply strictest_ext, Hf'. intros d. rewrite recorded_with_review. split.
        - intros [(u & ds & Hu & Hd & Hlast)|(ds & Hds & Hd)]; [exists u, ds; naive_solver|].
          simplify_eq. apply Hrev in Hd as (c' & Hc' & Hid & _). by rewrite (Huniq c' Hc' Hid) in Hc'.
        - intros (u & ds & Hu & Hd & Hlast). left. exists u, ds. split; [done|]. split; [done|].
          intros ->. split; [auto|]. intros ->. apply Hnot. unfold sent_to_review.
          apply list_elem_of_filter. by rewrite Hu. }
      unfold decision_of. rewrite (strictest_unique _ _ _ Hf Hsame). split; [lia|]. by intros [? _]. }
  assert (∃ dss, nds !! sink = Some dss ∧ mkClaimDecision id Escalate ∈ dss) as (dss & Hdss & Hesc).
  { apply list_elem_of_filter in Hsent as [Hs _]. destruct (nds !! sink); [eauto|by apply not_elem_of_nil in Hs]. }
  assert (recorded g nds id Escalate) as Hrec by (exists sink, dss; auto).
  destruct (final !! id) as [f|] eqn:Hfid; [|by destruct (Hf Escalate)]. destruct Hf as [Hfrec Hfmin].
  pose proof (Hfmin _ Hrec) as Hfe.
  destruct (Hruns c Hsent) as [m Hm].
  assert (∀ d, mkClaimDecision id d ∈ dsr ↔ d = if m then Permit else Deny) as Hdec.
  { intros d. rewrite Hrev. split.
    - intros (c' & Hc' & Hid & m' & Hm' & ->). pose proof (Huniq c' Hc' Hid) as Heq. rewrite Heq, Hm in Hm'. by injection Hm' as <-.
    - intros ->. exists c. eauto 10. }
  assert (recorded g' nds' id (if m then Permit else Deny)) as Hrec'.
  { apply recorded_with_review. right. exists dsr. split; [done|]. by apply Hdec. }
  destruct (final' !! id) as [f'|] eqn:Hfid'; [|by destruct (Hf' _ Hrec')]. destruct Hf' as [Hf'rec Hf'min].
  pose proof (Hf'min _ Hrec') as Hfm. unfold decision_of. fold id. rewrite Hfid, Hfid'. simpl.
  unfold review_denies. fold id. rewrite Hm, Hfid.
  destruct m; simpl in Hfm.
  2:{ clear Hf'rec. destruct f, f'; simpl in Hfm, Hfe; try lia.
      - split; [simpl; lia|]. by intros (_ & [=] & _).
      - split; [done|]. simpl. lia. }
  split; [|by intros (_ & _ & ?)]. intros Hlt. exfalso.
  apply recorded_with_review in Hf'rec as [(u & ds & Hu & Hd & Hlast)|(ds & Hds & Hd)].
  - assert (recorded g nds id f') as Hr by (exists u, ds; naive_solver). specialize (Hfmin _ Hr). lia.
  - simplify_eq. apply Hdec in Hd as ->. destruct f; simpl in *; lia.
Qed.

Lemma review_denies_final c :
  review_denies nds final c → final' !! gc_claimant_id c = Some Deny.
Proof using All.
  intros Hd. assert (c ∈ cs) as Hc by (destruct Hd as [[_ ?]%list_elem_of_filter _]; done).
  pose proof (proj2 (review_worsens c Hc) Hd) as Hlt. destruct Hd as (_ & He & _).
  unfold decision_of in Hlt. rewrite He in Hlt. simpl in Hlt.
  destruct (final' !! gc_claimant_id c) as [[]|]; simpl in Hlt; [lia|done|lia|lia].
Qed.
End alabama_facts.

(* ------------------------------------------------------------------ *)
(** ** The searches *)

Lemma first_worsening_exact before after cs :
  match first_worsening before after cs with
  | Some (id, b, a) => ∃ c, c ∈ cs ∧ id = gc_claimant_id c ∧ b = decision_of before id ∧ a = decision_of after id ∧
      decision_rank a < decision_rank b
  | None => ∀ c, c ∈ cs →
      ¬ decision_rank (decision_of after (gc_claimant_id c)) < decision_rank (decision_of before (gc_claimant_id c))
  end.
Proof.
  unfold first_worsening.
  assert (∀ id, id ∈ bset_iter (claimant_ids cs) ↔ ∃ c, c ∈ cs ∧ id = gc_claimant_id c) as Hids.
  { intros id. rewrite elem_of_bset_iter. unfold claimant_ids. rewrite elem_of_list_to_set, list_elem_of_fmap. naive_solver. }
  destruct (list_find _ _) as [[i id]|] eqn:Hf; simpl.
  - apply list_find_Some in Hf as (Hi & Hlt & _). apply list_elem_of_lookup_2, Hids in Hi as (c & Hc & Hid). eauto 10.
  - intros c Hc. apply list_find_None in Hf. rewrite Forall_forall in Hf. apply Hf, Hids. eauto.
Qed.

Lemma appends_review_acyclic g g' sink rid percentile :
  graph_wf g → is_Some (nodes g !! sink) → acyclic g → appends_review g g' sink rid percentile → acyclic g'.
Proof.
  intros Hwf Hin Hac (Hfresh & _ & _ & _ & He).
  assert (∀ u v, edge_rel g' u v → u ≠ rid) as Hout.
  { intros u v [(e & Hin' & Hfrom & _)%elem_of_successors|[-> _]]%He ->; [|rewrite Hfresh in Hin; by destruct Hin].
    destruct (graph_wf_edges g Hwf e Hin') as [[n Hn] _]. congruence. }
  assert (∀ u v, tc (edge_rel g') u v → u ≠ rid ∧ (v ≠ rid → tc (edge_rel g) u v)) as Htc.
  { intros u v Hv. induction Hv as [u v Huv|u w v Huw _ [Hw IH]]; (split; [by eapply Hout|intros Hv]).
    - apply He in Huv as [?|[_ ?]]; [by apply tc_once|done].
    - apply He in Huw as [?|[_ ?]]; [|done]. eapply tc_l; [done|]. by apply IH. }
  intros v Hv. destruct (Htc v v Hv) as [Hne Hg]. by apply (Hac v), Hg.
Qed.

Section searches.
Context `{RegexEngine} (g : GovernanceGraph) (cs : list GovernanceClaim).

(** The report [v] on the review behind [sink] at [percentile]: it names a
    claim the review denies, and no claim gets worse but those it denies. *)
Definition reports_denied_claim (r : TraversalResult) (sink : NodeId) (percentile : f64)
    (v : GraphParadoxViolation) : Prop :=
  gp_type v = CompositionalAlabama ∧ gp_original_decisions v = final_decisions r ∧
  ∃ review_id g' r' c, appends_review g g' sink review_id percentile ∧
    traverse g' cs = Ok r' ∧ gp_perturbed_decisions v = final_decisions r' ∧
    review_denies cs sink percentile (node_decisions r) (final_decisions r) c ∧
    final_decisions r !! gc_claimant_id c = Some Escalate ∧ final_decisions r' !! gc_claimant_id c = Some Deny ∧
    gp_description v =
      [Txt "Appending peer-review node '"; Txt review_id; Txt "' after '"; Txt sink; Txt "' at percentile ";
       Num2 percentile; Txt " worsened '"; Txt (gc_claimant_id c); Txt "' from "; Txt "Escalate"; Txt " to ";
       Txt "Deny"] ∧
    ∀ c', c' ∈ cs →
      decision_rank (decision_of (final_decisions r') (gc_claimant_id c')) <
        decision_rank (decision_of (final_decisions r) (gc_claimant_id c')) ↔
      review_denies cs sink percentile (node_decisions r) (final_decisions r) c'.

(** One graph with a review behind [sink], against the baseline [r]. *)
Lemma alabama_step_exact r sink percentile :
  graph_wf g → traverse g cs = Ok r → sink ∈ sink_nodes g →
  match alabama_step g cs (final_decisions r) sink () percentile with
  | Err e => ∃ rid g', appends_review g g' sink rid percentile ∧ evaluation_error g' cs e
  | Ok (Continue _) => ∀ c, ¬ review_denies cs sink percentile (node_decisions r) (final_decisions r) c
  | Ok (Break v) => reports_denied_claim r sink percentile v
  end.
Proof.
  intros Hwf Hr [Hin Hsink]%elem_of_sink_nodes. destruct (traverse_Ok g cs r Hwf Hr) as (Hval & Hac & _ & Hsp).
  destruct (append_review_spec g sink percentile Hwf Hin) as (rid & g' & Happ & Hrev). unfold alabama_step.
  rewrite Happ. cbn [mbind Result_bind].
  pose proof (traverse_final_decisions_agrees g' cs) as Hag. unfold traverse_final_decisions in *.
  pose proof Hrev as (_ & Hwf' & Hrid & _).
  destruct (traverse_claims_cases g' cs Hwf' Hval false)
    as [[Hc _]|[(_ & Hemp & _)|(_ & _ & [(e & -> & He)|(final' & nds' & Hrun & Hsp')])]].
  - destruct Hc. by apply (appends_review_acyclic g g' sink rid percentile).
  - by rewrite Hemp, lookup_empty in Hrid.
  - cbn [mbind Result_bind]. eauto.
  - rewrite Hrun in Hag |- *. cbn [mbind Result_bind fst snd fmap Result_fmap] in Hag |- *.
    pose proof (review_worsens g cs sink percentile Hwf Hac g' rid Hrev Hin Hsink Hval _ _ _ _ Hsp Hsp') as Hw.
    pose proof (first_worsening_exact (final_decisions r) final' cs) as Hf.
    destruct (first_worsening _ _ _) as [[[id b] a]|].
    + destruct Hf as (c & Hc & -> & -> & -> & Hlt). apply Hw in Hlt as Hd; [|done].
      pose proof (review_denies_final g cs sink percentile Hwf Hac g' rid Hrev Hin Hsink Hval _ _ _ _ Hsp Hsp' c Hd) as Hdeny.
      destruct (traverse g' cs) as [r'|] eqn:Hr'; [|by simplify_eq/=]. injection Hag as ->.
      split; [done|]. split; [done|]. exists rid, g', r', c. pose proof Hd as (_ & Hesc & _). split_and!; try done.
      unfold decision_of. by rewrite Hesc, Hdeny.
    + intros c Hd. assert (c ∈ cs) as Hc by (destruct Hd as [[_ ?]%list_elem_of_filter _]; done).
      by apply (Hf c Hc), Hw.
Qed.

(** C34: the append-review probe is exact: on a graph that traverses, it reports a
    violation exactly when some sink escalates a claim that nothing denies and
    whose strength is below a review percentile among the claims the sink
    escalates.  The report names such a claim, with the review and the
    percentile that turned its escalation into a denial, and carries the
    decisions of the traversals without and with the review; between the two no
    claim gets worse but those the review denies in that way.  Fresh review
    ids are always found, so the search fails only where a node evaluation of
    an extended graph fails. *)
Theorem compositional_alabama_exact r :
  graph_wf g → traverse g cs = Ok r →
  match compositional_alabama g cs with
  | Err e => ∃ sink percentile rid g', sink ∈ sink_nodes g ∧ percentile ∈ REVIEW_PERCENTILES ∧
      appends_review g g' sink rid percentile ∧ evaluation_error g' cs e
  | Ok None => ∀ sink percentile c, sink ∈ sink_nodes g → percentile ∈ REVIEW_PERCENTILES →
      ¬ review_denies cs sink percentile (node_decisions r) (final_decisions r) c
  | Ok (Some v) => ∃ sink percentile, sink ∈ sink_nodes g ∧ percentile ∈ REVIEW_PERCENTILES ∧
      reports_denied_claim r sink percentile v
  end.
Proof.
  intros Hwf Hr. unfold compositional_alabama. rewrite traverse_final_decisions_agrees, Hr.
  cbn [fmap Result_fmap mbind Result_bind]. destruct (found _) as [[v|]|e] eqn:Hf.
  - apply found_exact in Hf as (sink & Hs & Hp). destruct (try_loop_Break _ _ _ _ Hp) as (p & [] & Hin & Hb).
    pose proof (alabama_step_exact r sink p Hwf Hr Hs) as Hx. rewrite Hb in Hx. naive_solver.
  - intros sink p c Hs Hin. pose proof (found_exact _ _ _ Hf sink Hs) as Hp. cbv beta in Hp.
    destruct (try_loop_Continue _ _ _ _ Hp p Hin) as ([] & [] & Hc).
    pose proof (alabama_step_exact r sink p Hwf Hr Hs) as Hx. rewrite Hc in Hx. apply Hx.
  - apply found_Err in Hf as (sink & Hs & Hp). apply try_loop_Err in Hp as (p & [] & Hin & Hb).
    pose proof (alabama_step_exact r sink p Hwf Hr Hs) as Hx. rewrite Hb in Hx. naive_solver.
Qed.

(** Order independence of the path-dependence probe: on a well-formed graph
    and valid claims it never reports a violation.  Both tie-broken orders
    exist, list every node once with predecessors first, and give every
    claimant the same decision; only a failing node evaluation is an error. *)
Theorem path_dependence_never_found :
  graph_wf g → validate_governance_claims cs = Ok () →
  path_dependence g cs = Ok None ∨ ∃ e, path_dependence g cs = Err e ∧ evaluation_error g cs e.
Proof. intros Hwf Hval. by apply path_dependence_cases. Qed.

(** Strengthening the claim at [index] makes [cycle] settle worse for [c]. *)
Definition feedback_paradox (cycle : list NodeId) (index : nat) (delta : f64) (c : GovernanceClaim)
    (before after : gmap string Decision) : Prop :=
  ∃ strengthened, strengthened_at cs index delta = Ok strengthened ∧
    stabilize_cycle g cycle cs 32 EPSILON = Ok (mkStabilized true before) ∧
    stabilize_cycle g cycle strengthened 32 EPSILON = Ok (mkStabilized true after) ∧
    c ∈ cs ∧ decision_rank (decision_of after (gc_claimant_id c)) < decision_rank (decision_of before (gc_claimant_id c)).

(** The feedback probe is exact: a completed search reports a violation exactly
    when strengthening some claim makes a cycle settle to a worse decision. *)
Theorem feedback_monotonicity_exact cycles o :
  detect_cycles g = Ok cycles → feedback_monotonicity g cs = Ok o →
  match o with
  | Some v => gp_type v = FeedbackMonotonicity ∧ ∃ cycle index delta c,
      cycle ∈ cycles ∧ index < length cs ∧ delta ∈ DEFAULT_STRENGTH_DELTAS ∧
      feedback_paradox cycle index delta c (gp_original_decisions v) (gp_perturbed_decisions v)
  | None => ∀ cycle index delta c before after,
      cycle ∈ cycles → index < length cs → delta ∈ DEFAULT_STRENGTH_DELTAS →
      ¬ feedback_paradox cycle index delta c before after
  end.
Proof.
  intros Hd Hf. unfold feedback_monotonicity in Hf. rewrite Hd in Hf. cbn [mbind Result_bind] in Hf.
  apply found_exact in Hf. destruct o as [v|].
  - destruct Hf as (cycle & Hc & Hf). unfold feedback_cycle in Hf.
    destruct (stabilize_cycle g cycle cs 32 EPSILON) as [[[] before]|] eqn:Hb; cbn [mbind Result_bind sc_converged negb] in Hf; try done.
    destruct (try_loop_Break _ _ _ _ Hf) as ([i claim] & [] & Hi%elem_of_enumerate & Hs). cbv beta iota in Hs.
    destruct (try_loop_Break _ _ _ _ Hs) as (delta & [] & Hin & Hstep). unfold feedback_step in Hstep.
    destruct (strengthened_at cs i delta) as [str|] eqn:Hstr; [|done]. cbn [mbind Result_bind] in Hstep.
    destruct (stabilize_cycle g cycle str 32 EPSILON) as [[[] after]|] eqn:Ha; cbn [mbind Result_bind sc_converged negb sc_decisions] in Hstep; try done.
    pose proof (first_worsening_exact before after cs) as Hw.
    destruct (first_worsening before after cs) as [[[id b] a]|]; [|done]. injection Hstep as <-.
    destruct Hw as (c & Hcs & -> & -> & -> & Hlt). split; [done|]. exists cycle, i, delta, c.
    split; [done|]. split; [by eapply lookup_lt_Some|]. split; [done|]. exists str. simpl. done.
  - intros cycle i delta c before after Hc Hi Hin (str & Hstr & Hb & Ha & Hcs & Hlt).
    specialize (Hf cycle Hc). unfold feedback_cycle in Hf. rewrite Hb in Hf. cbn [mbind Result_bind sc_converged negb] in Hf.
    apply lookup_lt_is_Some_2 in Hi as [claim Hi].
    destruct (try_loop_Continue _ _ _ _ Hf (i, claim)) as ([] & [] & Hs); [by apply elem_of_enumerate|]. cbv beta iota in Hs.
    destruct (try_loop_Continue _ _ _ _ Hs delta Hin) as ([] & [] & Hstep). unfold feedback_step in Hstep.
    rewrite Hstr in Hstep. cbn [mbind Result_bind] in Hstep. rewrite Ha in Hstep.
    cbn [mbind Result_bind sc_converged negb sc_decisions] in Hstep.
    pose proof (first_worsening_exact before after cs) as Hw.
    destruct (first_worsening before after cs) as [[[id b] a]|]; [done|]. by apply (Hw c Hcs).
Qed.
End searches.
