(* ===== verification/Extract.v ===== *)
(** * Extraction: reports and the boundary analysis

    extract/mod.rs and extract/boundary.rs: what the extraction records about
    the files, nodes and edges it recognizes, and the search for functions that
    governance nodes depend on and the governance graph does not contain.  The
    search is a depth-first traversal of call names with a [seen] set; its fuel
    is the number of dependency names it can ever push. *)

From S2P Require Import Prelude F64 Errors Core GraphNode.
From stdpp Require Import gmap strings options.

(* ------------------------------------------------------------------ *)
(** ** What an extraction records *)

Record ParsedMatchArm := mkMatchArm {
  arm_pattern_text : string;
  arm_body_text : string;
  arm_string_literals : list string;
}.

Inductive ExtractionSourceLanguage : Type := Python | Rust | TypeScript.

Record ParsedFunction := mkParsedFunction {
  pf_id : string;
  pf_function_name : string;
  pf_relative_path : string;
  pf_language : ExtractionSourceLanguage;
  pf_line_start : nat;
  pf_line_end : nat;
  pf_body_text : string;
  pf_condition_fields : gset string;
  pf_condition_texts : list string;
  pf_string_literals : list string;
  pf_return_texts : list string;
  pf_assignment_texts : list string;
  pf_decision_branches : list string;
  pf_import_aliases : gmap string string;
  pf_calls : gset string;
  pf_callback_refs : gset string;
  pf_match_arms : list ParsedMatchArm;
  pf_has_if_chain : bool;
}.

Inductive ExtractionFileStatus : Type := Parsed | Skipped | Error.

Global Instance ExtractionFileStatus_eq_dec : EqDecision ExtractionFileStatus.
Proof. solve_decision. Defined.

Record ExtractionFileReport := mkFileReport {
  fr_path : string;
  fr_language : ExtractionSourceLanguage;
  fr_status : ExtractionFileStatus;
  fr_detail : option string;
}.

Record ExtractionCoverageReport := mkCoverage {
  files_discovered : nat;
  files_parsed : nat;
  files_skipped : nat;
  files_errored : nat;
  complete : bool;
  files : list ExtractionFileReport;
}.

Definition count_status (status : ExtractionFileStatus) (files : list ExtractionFileReport) : nat :=
  length (filter (λ entry, fr_status entry = status) files).

Definition from_files (files : list ExtractionFileReport) : ExtractionCoverageReport :=
  let files_skipped := count_status Skipped files in
  let files_errored := count_status Error files in
  mkCoverage (length files) (count_status Parsed files) files_skipped files_errored
    (bool_decide (files_skipped = 0) && bool_decide (files_errored = 0)) files.

Inductive RecognitionConfidence : Type := Low | Medium | High.
Inductive ExtractionEvidenceTier : Type := Automatic | Reviewed.

Record RecognizedNodeProvenance := mkNodeProvenance {
  np_node_id : string;
  np_function_name : string;
  np_relative_path : string;
  np_language : ExtractionSourceLanguage;
  np_line_start : nat;
  np_line_end : nat;
  np_confidence : RecognitionConfidence;
  np_tier : ExtractionEvidenceTier;
  np_rationale : list string;
}.

Inductive EdgeResolutionKind : Type := SameFile | GlobalUnique | ImportAlias | ReviewOverlay.

Record RecognizedEdgeProvenance := mkEdgeProvenance {
  ep_from : string;
  ep_to : string;
  ep_target_symbol : string;
  ep_resolution : EdgeResolutionKind;
  ep_tier : ExtractionEvidenceTier;
  ep_review_note : option string;
}.

Inductive ResolutionIssueKind : Type := Unresolved | Ambiguous.

Record ResolutionIssue := mkResolutionIssue {
  ri_caller : string;
  ri_target_symbol : string;
  ri_kind : ResolutionIssueKind;
  ri_candidates : list string;
}.

(* ------------------------------------------------------------------ *)
(** ** The boundary assessment *)

Record UngovernedDependency := mkUngoverned {
  governance_node : string;
  dependency : string;
}.

Inductive BoundaryCausalSafetyAssessment : Type :=
  | Unassessed (reason : string)
  | Assessed (summary : string) (affected_governance_nodes external_dependency_count : nat)
      (ungoverned_dependencies : list UngovernedDependency).

Definition BoundaryCausalSafetyAssessment_default : BoundaryCausalSafetyAssessment :=
  Unassessed "UNASSESSED: source boundary/dependency analysis was not performed; source-level LIVE readiness is not established".

Definition boundary_summary (a : BoundaryCausalSafetyAssessment) : string :=
  match a with Unassessed reason => reason | Assessed summary _ _ _ => summary end.

Definition boundary_affected_governance_nodes (a : BoundaryCausalSafetyAssessment) : option nat :=
  match a with Unassessed _ => None | Assessed _ affected _ _ => Some affected end.

Definition boundary_external_dependency_count (a : BoundaryCausalSafetyAssessment) : option nat :=
  match a with Unassessed _ => None | Assessed _ _ count _ => Some count end.

Definition boundary_ungoverned_dependencies (a : BoundaryCausalSafetyAssessment)
    : option (list UngovernedDependency) :=
  match a with Unassessed _ => None | Assessed _ _ _ deps => Some deps end.

Definition live_blocker (a : BoundaryCausalSafetyAssessment) : option string :=
  match a with
  | Unassessed reason => Some reason
  | Assessed summary _ count _ => if bool_decide (0 < count) then Some summary else None
  end.

Definition LOW_SIGNAL : list string :=
  ["as_ref"; "clone"; "contains"; "contains_key"; "get"; "insert"; "is_empty"; "iter"; "len"; "map";
   "new"; "ok_or_else"; "push"; "to_string"; "unwrap"; "unwrap_or"; "unwrap_or_default"].

Definition is_low_signal_dependency (dependency : string) : bool := bool_decide (dependency ∈ LOW_SIGNAL).

Definition direct_dependencies (function : ParsedFunction) (function_names : gset string) : gset string :=
  filter (λ dependency, dependency ≠ pf_function_name function ∧ is_low_signal_dependency dependency = false)
    (pf_calls function)
  ∪ filter (λ dependency, dependency ∈ function_names ∧ is_low_signal_dependency dependency = false)
      (pf_callback_refs function).

Section search.
Context (parsed : list ParsedFunction).

Definition function_names : gset string := list_to_set (pf_function_name <$> parsed).

Definition governance_names (governance_ids : gset string) : gset string :=
  list_to_set (pf_function_name <$> filter (λ function, pf_id function ∈ governance_ids) parsed).

(** [parsed_by_id]: later functions replace earlier ones of the same id. *)
Definition parsed_by_id : gmap string ParsedFunction :=
  foldl (λ m function, <[pf_id function := function]> m) ∅ parsed.

(** [parsed_by_name] at one name. *)
Definition parsed_by_name (name : string) : list ParsedFunction :=
  filter (λ function, pf_function_name function = name) parsed.

(** What the functions of one name push, last pushed first. *)
Definition pushed (name : string) : list string :=
  reverse (mjoin ((λ function, bset_iter (direct_dependencies function function_names))
                    <$> parsed_by_name name)).

(** The [while let Some(dependency) = stack.pop()] loop; the head of [stack] is
    its top. *)
Fixpoint search_dependencies (fuel : nat) (governance_names seen : gset string) (stack : list string)
    (dependencies : gset string) : option (gset string) :=
  match stack with
  | [] => Some dependencies
  | dependency :: stack =>
      match fuel with
      | O => None
      | S fuel =>
          if decide (dependency ∈ seen)
          then search_dependencies fuel governance_names seen stack dependencies
          else
            search_dependencies fuel governance_names ({[dependency]} ∪ seen)
              (pushed dependency ++ stack)
              (if decide (dependency ∈ governance_names) then dependencies
               else {[dependency]} ∪ dependencies)
      end
  end.

(** Every function's dependencies are pushed at most once. *)
Definition search_fuel : nat :=
  sum_list ((λ function, size (direct_dependencies function function_names)) <$> parsed).

(** The names the search adds for one governance node. *)
Definition node_dependencies (governance_names : gset string) (governance_id : string)
    : option (gset string) :=
  match parsed_by_id !! governance_id with
  | None => Some ∅
  | Some function =>
      let stack := reverse (bset_iter (direct_dependencies function function_names)) in
      search_dependencies (length stack + search_fuel) governance_names ∅ stack ∅
  end.
End search.

Definition assess_boundary_causal_safety (graph : GovernanceGraph) (parsed : list ParsedFunction)
    : option BoundaryCausalSafetyAssessment :=
  let governance_ids := btree_keys (nodes graph) in
  let governance_names := governance_names parsed (list_to_set governance_ids) in
  found ← mapM (λ id, pair id <$> node_dependencies parsed governance_names id) governance_ids;
  let dependencies := '(id, names) ← found; pair id <$> bset_iter names in
  let affected_governance_nodes := size (list_to_set dependencies.*1 : gset string) in
  let external_dependency_count := length dependencies in
  Some (Assessed
    (show_nat affected_governance_nodes +:+ " governance nodes have "
     +:+ show_nat external_dependency_count
     +:+ " transitive external dependencies not in the governance graph (causal boundary analysis)")
    affected_governance_nodes external_dependency_count
    ((λ '(id, name), mkUngoverned id name) <$> dependencies)).

(* ------------------------------------------------------------------ *)
(** ** The search is exact *)

Lemma length_bset_iter (s : gset string) : length (bset_iter s) = size s.
Proof. unfold bset_iter. by rewrite (Permutation_length (merge_sort_Permutation _ _)). Qed.

Section search_facts.
Context (parsed : list ParsedFunction).

(** [depends_on name next]: a function called [name] depends directly on [next]. *)
Definition depends_on (name next : string) : Prop :=
  ∃ function, function ∈ parsed ∧ pf_function_name function = name ∧
    next ∈ direct_dependencies function (function_names parsed).

(** What [function] depends on, directly or through the functions it reaches. *)
Definition transitively_depends (function : ParsedFunction) (name : string) : Prop :=
  ∃ first, first ∈ direct_dependencies function (function_names parsed) ∧ rtc depends_on first name.

Lemma elem_of_pushed name next : next ∈ pushed parsed name ↔ depends_on name next.
Proof.
  unfold pushed, parsed_by_name, depends_on. rewrite elem_of_reverse, list_elem_of_join. split.
  - intros (l & Hn & (function & -> & [Hf Hin]%list_elem_of_filter)%list_elem_of_fmap).
    apply elem_of_bset_iter in Hn. eauto.
  - intros (function & Hin & Hf & Hn). eexists. split; [by apply elem_of_bset_iter, Hn|].
    apply list_elem_of_fmap. exists function. split; [done|]. by apply list_elem_of_filter.
Qed.

(** The names that the functions not yet seen can still push. *)
Definition unseen (seen : gset string) : nat :=
  sum_list ((λ function, size (direct_dependencies function (function_names parsed)))
              <$> filter (λ function, pf_function_name function ∉ seen) parsed).

Lemma unseen_add seen name :
  name ∉ seen → unseen seen = length (pushed parsed name) + unseen ({[name]} ∪ seen).
Proof.
  intros Hn. unfold unseen, pushed, parsed_by_name. rewrite length_reverse.
  generalize (function_names parsed). intros names.
  induction parsed as [|function l IH]; [done|]. rewrite !filter_cons.
  destruct (decide (pf_function_name function = name)) as [<-|Hne].
  - rewrite decide_True by done. rewrite (decide_False (P := _ ∉ {[_]} ∪ _)) by set_solver.
    cbn [fmap list_fmap mjoin list_join]. rewrite length_app, length_bset_iter. cbn. rewrite <-Nat.add_assoc. f_equal. exact IH.
  - destruct (decide (pf_function_name function ∉ seen)) as [Hs|Hs].
    + rewrite decide_True by set_solver. cbn. rewrite Nat.add_shuffle3. f_equal. exact IH.
    + rewrite decide_False by set_solver. exact IH.
Qed.

Lemma unseen_empty : unseen ∅ = search_fuel parsed.
Proof. unfold unseen, search_fuel. rewrite list_filter_all; [done|]. apply Forall_forall. intros function _. apply not_elem_of_empty. Qed.

(** Enough fuel: every step pops a name, and pushes only what was still unseen. *)
Lemma search_total fuel names seen stack dependencies :
  length stack + unseen seen ≤ fuel →
  is_Some (search_dependencies parsed fuel names seen stack dependencies).
Proof.
  revert seen stack dependencies. induction fuel as [|fuel IH]; intros seen [|name stack] deps Hf;
    [done|simpl in Hf; lia|done|]. simpl in *.
  case_decide as Hin; [apply IH; lia|]. apply IH. rewrite length_app.
  rewrite (unseen_add seen name Hin) in Hf. lia.
Qed.

(** The loop invariant: what the names seen so far push is seen or on the stack. *)
Lemma search_exact fuel names seen stack found :
  (∀ name next, name ∈ seen → depends_on name next → next ∈ seen ∨ next ∈ stack) →
  search_dependencies parsed fuel names seen stack (seen ∖ names) = Some found →
  ∃ closed : gset string, found = closed ∖ names ∧ seen ⊆ closed ∧ (∀ name, name ∈ stack → name ∈ closed) ∧
    (∀ name next, name ∈ closed → depends_on name next → next ∈ closed) ∧
    (∀ name, name ∈ closed → name ∈ seen ∨ ∃ first, first ∈ stack ∧ rtc depends_on first name).
Proof.
  revert seen stack. induction fuel as [|fuel IH]; intros seen [|name stack] Hinv Hs; simpl in Hs; [|done| |].
  1,2: injection Hs as <-; exists seen; split_and!; [done..|by intros ? ?%elem_of_nil| |by left].
  1,2: intros name next Hn Hd; destruct (Hinv _ _ Hn Hd) as [|[]%elem_of_nil]; done.
  case_decide as Hin.
  - apply IH in Hs as (closed & -> & Hsub & Hst & Hcl & Hso).
    + exists closed. split_and!; [done..| |done|].
      * intros n [->|Hn]%elem_of_cons; [set_solver|by apply Hst].
      * intros n Hn. destruct (Hso n Hn) as [|(m & Hm & Hr)]; [by left|right]. exists m. by split; [right|].
    + intros n m Hn Hd. destruct (Hinv n m Hn Hd) as [|[->|]%elem_of_cons]; auto.
  - replace (if decide _ then _ else _) with (({[name]} ∪ seen) ∖ names) in Hs by (case_decide; set_solver).
    apply IH in Hs as (closed & -> & Hsub & Hst & Hcl & Hso).
    + exists closed. split_and!; [done|set_solver| |done|].
      * intros n [->|Hn]%elem_of_cons; [set_solver|apply Hst, elem_of_app; auto].
      * intros n Hn. destruct (Hso n Hn) as [[->%elem_of_singleton|]%elem_of_union|(m & Hm & Hr)].
        -- right. exists name. split; [left|done].
        -- by left.
        -- right. apply elem_of_app in Hm as [Hm%elem_of_pushed|Hm]; [exists name|exists m].
           ++ split; [left|]. by eapply rtc_l.
           ++ by split; [right|].
    + intros n m [->%elem_of_singleton|Hn]%elem_of_union Hd.
      * right. apply elem_of_app. left. by apply elem_of_pushed.
      * destruct (Hinv n m Hn Hd) as [|[->|]%elem_of_cons]; [left|left|right]; [set_solver..|].
        apply elem_of_app. by right.
Qed.

Lemma node_dependencies_exact names id :
  ∃ found, node_dependencies parsed names id = Some found ∧
    ∀ name, name ∈ found ↔
      name ∉ names ∧ ∃ function, parsed_by_id parsed !! id = Some function ∧ transitively_depends function name.
Proof.
  unfold node_dependencies. destruct (parsed_by_id parsed !! id) as [function|]; [|exists ∅; set_solver].
  set (stack := reverse _). destruct (search_total (length stack + search_fuel parsed) names ∅ stack ∅)
    as [found Hs]; [by rewrite unseen_empty|].
  exists found. split; [done|]. replace ∅ with ((∅ : gset string) ∖ names) in Hs at 2 by set_solver.
  apply search_exact in Hs as (closed & -> & _ & Hst & Hcl & Hso); [|set_solver].
  assert (∀ n, n ∈ stack ↔ n ∈ direct_dependencies function (function_names parsed)) as Hstack
    by (intros n; unfold stack; by rewrite elem_of_reverse, elem_of_bset_iter).
  intros name. rewrite elem_of_difference. split.
  - intros [Hn ?]. split; [done|]. exists function. split; [done|].
    destruct (Hso name Hn) as [|(first & Hf%Hstack & Hr)]; [set_solver|by exists first].
  - intros [? (? & [= <-] & first & Hf%Hstack%Hst & Hr)]. split; [|done].
    induction Hr as [|a b c Hd _ IH]; [done|]. by eapply IH, Hcl.
Qed.
End search_facts.

Lemma parsed_by_id_last parsed id :
  parsed_by_id parsed !! id = last (filter (λ function, pf_id function = id) parsed).
Proof.
  unfold parsed_by_id. induction parsed as [|function l IH] using rev_ind; [done|].
  rewrite foldl_app, filter_app. simpl. destruct (decide (pf_id function = id)) as [<-|Hne].
  - rewrite lookup_insert_eq, filter_cons_True by done. symmetry. apply last_snoc.
  - rewrite lookup_insert_ne, filter_cons_False by done. by rewrite filter_nil, app_nil_r.
Qed.

Lemma mapM_pairs {A B} (f : A → option B) (P : A → B → Prop) (l : list A) :
  (∀ x, ∃ y, f x = Some y ∧ P x y) →
  ∃ k, mapM (λ x, pair x <$> f x) l = Some k ∧ k.*1 = l ∧ Forall (λ xy, P xy.1 xy.2) k.
Proof.
  intros Hf. induction l as [|x l (k & Hk & <- & Hall)]; [by exists []|].
  destruct (Hf x) as (y & Hy & HP). exists ((x, y) :: k). simpl. rewrite Hy. simpl. rewrite Hk. simpl.
  split_and!; [done..|]. by constructor.
Qed.

(** The pairs listed for a group of names per id. *)
Definition listed (found : list (string * gset string)) : list (string * string) :=
  '(id, names) ← found; pair id <$> bset_iter names.

Lemma elem_of_listed found id name :
  (id, name) ∈ listed found ↔ ∃ names, (id, names) ∈ found ∧ name ∈ names.
Proof.
  unfold listed. rewrite list_elem_of_bind. split.
  - intros ([id' names] & (n & [= -> ->] & Hn%elem_of_bset_iter)%list_elem_of_fmap & Hin). eauto.
  - intros (names & Hin & Hn). exists (id, names). split; [|done].
    apply list_elem_of_fmap. exists name. by rewrite elem_of_bset_iter.
Qed.

Lemma NoDup_listed found : NoDup found.*1 → NoDup (listed found).
Proof.
  induction found as [|[id names] found IH]; [constructor|]. intros [Hni Hnd]%NoDup_cons.
  change (NoDup ((pair id <$> bset_iter names) ++ listed found)). apply NoDup_app. split_and!.
  - apply NoDup_fmap_2; [by intros ? ? [=]|apply NoDup_bset_iter].
  - intros [id' n] (? & [= -> ->] & _)%list_elem_of_fmap (names' & Hin & _)%elem_of_listed.
    apply Hni, list_elem_of_fmap. by exists (id, names').
  - by apply IH.
Qed.

(* ------------------------------------------------------------------ *)
(** ** Properties *)

(** A coverage report is complete exactly when every file was parsed, and the
    three counts add up to the files discovered. *)
Theorem coverage_complete_exact reports :
  let report := from_files reports in
  files_parsed report + files_skipped report + files_errored report = files_discovered report ∧
  (complete report = true ↔ ∀ entry, entry ∈ reports → fr_status entry = Parsed).
Proof.
  simpl. rewrite andb_true_iff, !bool_decide_eq_true. unfold count_status.
  induction reports as [|entry l (Hsum & IH)]; [split; [done|]; split; [by intros _ ? ?%elem_of_nil|done]|].
  rewrite !filter_cons. split; [destruct (fr_status entry); simpl in *; repeat case_decide; simpl; try done; lia|].
  destruct (fr_status entry) eqn:Hs; repeat (case_decide; try done); simpl.
  - rewrite IH. split; [intros Hall e [->|He]%elem_of_cons; auto|intros Hall e He; apply Hall; by right].
  - split; [lia|]. intros Hall. specialize (Hall entry (list_elem_of_here _ _)). congruence.
  - split; [lia|]. intros Hall. specialize (Hall entry (list_elem_of_here _ _)). congruence.
Qed.

(** C30: the boundary analysis always finishes and is exact: it reports the pair
    of a governance node and a name, once, exactly when the function parsed last
    under the node's id depends on the name, directly or through functions of
    the names it reaches, and no function of a governance node has that name.
    The counts are those of the reported pairs and their nodes, and source-level
    promotion is unblocked exactly when nothing is reported. *)
Theorem boundary_assessment_exact graph parsed :
  ∃ summary affected count deps,
    assess_boundary_causal_safety graph parsed = Some (Assessed summary affected count deps) ∧
    (∀ id name, mkUngoverned id name ∈ deps ↔
      is_Some (nodes graph !! id) ∧
      (∃ function, last (filter (λ function, pf_id function = id) parsed) = Some function ∧
        transitively_depends parsed function name) ∧
      ¬ ∃ function, function ∈ parsed ∧ is_Some (nodes graph !! pf_id function) ∧
          pf_function_name function = name) ∧
    NoDup deps ∧ count = length deps ∧
    (∃ ids : gset string, affected = size ids ∧ ∀ id, id ∈ ids ↔ ∃ name, mkUngoverned id name ∈ deps) ∧
    (live_blocker (Assessed summary affected count deps) = None ↔ deps = []).
Proof.
  unfold assess_boundary_causal_safety. set (names := governance_names _ _).
  destruct (mapM_pairs (node_dependencies parsed names) _ (btree_keys (nodes graph))
    (node_dependencies_exact parsed names)) as (found & -> & Hids & Hall).
  simpl. fold (listed found). eexists _, _, _, _. split; [reflexivity|].
  assert (∀ id name, mkUngoverned id name ∈ ((λ '(id, name), mkUngoverned id name) <$> listed found) ↔
    (id, name) ∈ listed found) as Hdeps.
  { intros id name. rewrite list_elem_of_fmap. split; [by intros ([] & [= -> ->] & ?)|].
    intros Hin. by exists (id, name). }
  split_and!.
  - intros id name. rewrite Hdeps, elem_of_listed, <-elem_of_btree_keys, <-Hids.
    setoid_rewrite <-parsed_by_id_last. rewrite Forall_forall in Hall.
    assert (name ∈ names ↔ ∃ function, function ∈ parsed ∧ is_Some (nodes graph !! pf_id function) ∧
      pf_function_name function = name) as <-.
    { unfold names, governance_names. rewrite elem_of_list_to_set, list_elem_of_fmap.
      setoid_rewrite list_elem_of_filter. setoid_rewrite elem_of_list_to_set.
      setoid_rewrite elem_of_btree_keys. naive_solver. }
    split.
    + intros (ns & Hin & Hn). split; [apply list_elem_of_fmap; by exists (id, ns)|].
      apply (Hall _ Hin) in Hn. naive_solver.
    + intros ([[id' ns] [-> Hin]]%list_elem_of_fmap & Hf & Hn). exists ns. split; [done|].
      apply (Hall _ Hin). naive_solver.
  - apply NoDup_fmap_2; [by intros [] [] [=-> ->]|]. apply NoDup_listed. rewrite Hids. apply NoDup_btree_keys.
  - by rewrite length_fmap.
  - eexists. split; [reflexivity|]. intros id. rewrite elem_of_list_to_set, list_elem_of_fmap.
    setoid_rewrite Hdeps. split; [intros ([] & -> & ?); eauto|intros [name ?]; by exists (id, name)].
  - destruct (listed found); simpl; naive_solver.
Qed.
