(* ===== verification/CoreGraph.v ===== *)
(** * Core graphs: what the theorem-backed extractors share

    The builders of extract/{rust_hook_core,python_hook_core,typescript_approval_core}_graph.rs
    keep the same state: a graph builder, the provenance of its nodes and edges,
    and the set of node ids already added.  A node is added at most once per id;
    edges are pass-through.  [core_spec] says which graph a sequence of
    requested nodes and edges builds. *)

From Stdlib Require Import Ascii.
From stdpp Require Import gmap strings.
From S2P Require Import Prelude Encoding F64 Errors Core GraphNode Tarjan GraphTraverse Extract.
From stdpp Require Import options.

Record CoreState := mkCore {
  builder : GraphBuilder;
  rec_nodes : list RecognizedNodeProvenance;
  rec_edges : list RecognizedEdgeProvenance;
  seen_nodes : gset string;
}.

Definition binary_node (id : string) (gates : list Gate) (default : Decision) : LResult GovernanceNode :=
  node_id ← NodeId_new id;
  Ok (Binary node_id id gates default FirstMatch).

(** The gate of a registration node. *)
Definition registration_gate (field : string) : Gate := ThresholdGate field f64_one Escalate.

(* ------------------------------------------------------------------ *)
(** ** Loops over files and their parts *)

Lemma NoDup_fmap_elem_inj {A B} (f : A → B) (l : list A) x y :
  NoDup (f <$> l) → x ∈ l → y ∈ l → f x = f y → x = y.
Proof.
  intros Hnd [i Hi]%list_elem_of_lookup [j Hj]%list_elem_of_lookup Heq.
  assert (i = j) as ->; [|congruence].
  apply (NoDup_lookup (f <$> l) i j (f x) Hnd); rewrite list_lookup_fmap; [by rewrite Hi|by rewrite Hj, Heq].
Qed.

Lemma bind_nothing {A B} (l : list A) : (l ≫= λ _, []) = ([] : list B).
Proof. by induction l. Qed.

(** Two nested loops are one loop over the pairs. *)
Lemma try_fold_nested {E S A B} (f : A → S → B → Result E S) (parts : A → list B) (s : S) (l : list A) :
  try_fold (λ s x, try_fold (f x) s (parts x)) s l
  = try_fold (λ s xy, f xy.1 s xy.2) s (x ← l; pair x <$> parts x).
Proof.
  revert s. induction l as [|x l IH]; intros s; [done|]. simpl. rewrite try_fold_app.
  assert (∀ ys s, try_fold (λ s xy, f xy.1 s xy.2) s (pair x <$> ys) = try_fold (f x) s ys) as ->.
  { clear. induction ys as [|y ys IH]; intros s; [done|]. simpl. destruct (f x s y); [apply IH|done]. }
  destruct (try_fold (f x) s (parts x)); simpl; [apply IH|done].
Qed.

(* ------------------------------------------------------------------ *)
(** ** Indexing the hooks or handlers of a program by name *)

Record Location := mkLocation { file_index : nat; item_index : nat }.

Section index.
Context {F I : Type} (items : F → list I) (name_of : I → string).

Definition index_item (file_index : nat) (index : gmap string (list Location)) (indexed : nat * I)
    : gmap string (list Location) :=
  let '(item_index, item) := indexed in
  <[name_of item := default [] (index !! name_of item) ++ [mkLocation file_index item_index]]> index.

Definition index_file (index : gmap string (list Location)) (indexed : nat * F) : gmap string (list Location) :=
  let '(file_index, file) := indexed in foldl (index_item file_index) index (enumerate (items file)).

Definition name_index (files : list F) : gmap string (list Location) := foldl index_file ∅ (enumerate files).

(** [files[location.file_index]] and its item at [location.item_index]. *)
Definition located (files : list F) (location : Location) : LResult (F * I) :=
  file ← ok_or (files !! file_index location) (panicked "index out of bounds");
  item ← ok_or (items file !! item_index location) (panicked "index out of bounds");
  Ok (file, item).

(** The items of a name, in program order, with their files. *)
Definition named_items (files : list F) (name : string) : list (F * I) :=
  file ← files; pair file <$> filter (λ item, name_of item = name) (items file).

Definition resolved (files : list F) (index : gmap string (list Location)) (name : string)
    : list (LResult (F * I)) :=
  located files <$> default [] (index !! name).

Lemma index_items_spec files fi file l rest index name :
  files !! fi = Some file → items file = l ++ rest →
  resolved files (foldl (index_item fi) index (enumerate l)) name
  = resolved files index name ++ ((λ item, Ok (file, item)) <$> filter (λ item, name_of item = name) l).
Proof.
  intros Hf. revert rest. induction l as [|item l IH] using rev_ind; intros rest Hh.
  - by rewrite app_nil_r.
  - rewrite enumerate_snoc, foldl_app, filter_app. cbn [foldl index_item].
    rewrite <-app_assoc in Hh. specialize (IH _ Hh). unfold resolved in *.
    destruct (decide (name_of item = name)) as [<-|Hne].
    + rewrite lookup_insert_eq, filter_cons_True by done.
      match goal with |- context [default [] (Some ?x)] => change (default [] (Some x)) with x end.
      rewrite fmap_app, IH, fmap_app, <-app_assoc. do 2 f_equal. simpl. f_equal.
      unfold located. cbn [file_index item_index]. rewrite Hf. cbn [ok_or mbind Result_bind].
      rewrite Hh, lookup_app_r, Nat.sub_diag by done. done.
    + rewrite lookup_insert_ne, IH, filter_cons_False by done. by rewrite filter_nil, app_nil_r.
Qed.

Lemma index_items_nonempty fi l index name :
  index !! name ≠ Some [] → foldl (index_item fi) index l !! name ≠ Some [].
Proof.
  revert index. induction l as [|[hi item] l IH]; intros index Hi; [done|]. simpl. apply IH.
  rewrite lookup_insert. case_decide; [|done]. intros [= Hnil]. by destruct (default [] _).
Qed.

Lemma name_index_spec files name : resolved files (name_index files) name = Ok <$> named_items files name.
Proof.
  enough (∀ pre rest, files = pre ++ rest →
    resolved files (foldl index_file ∅ (enumerate pre)) name = Ok <$> named_items pre name) as Hgo
    by (apply (Hgo files []); by rewrite app_nil_r).
  induction pre as [|file pre IH] using rev_ind; intros rest Hf; [done|].
  rewrite enumerate_snoc, foldl_app. cbn [foldl index_file].
  rewrite <-app_assoc in Hf. rewrite (index_items_spec files _ file _ []).
  - rewrite (IH _ Hf). unfold named_items. rewrite bind_app, fmap_app. simpl. rewrite app_nil_r.
    f_equal. by rewrite <-list_fmap_compose.
  - by rewrite Hf, lookup_app_r, Nat.sub_diag.
  - by rewrite app_nil_r.
Qed.

Lemma name_index_nonempty files name : name_index files !! name ≠ Some [].
Proof.
  unfold name_index. generalize (enumerate files) as l. intros l.
  enough (∀ index, index !! name ≠ Some [] → foldl index_file index l !! name ≠ Some []) as Hgo by by apply Hgo.
  induction l as [|[fi file] l IH]; intros index Hi; [done|]. simpl. by apply IH, index_items_nonempty.
Qed.
End index.

(* ------------------------------------------------------------------ *)
(** ** Adding nodes and edges *)

Section with_regex.
Context `{RegexEngine}.

Definition add_node_once (st : CoreState) (node : GovernanceNode) (provenance : RecognizedNodeProvenance)
    : LResult CoreState :=
  if decide (np_node_id provenance ∈ seen_nodes st) then Ok st
  else
    b ← add_node (builder st) node;
    Ok (mkCore b (rec_nodes st ++ [provenance]) (rec_edges st) ({[np_node_id provenance]} ∪ seen_nodes st)).

(** [if seen_nodes.insert(id) { builder.add_node(binary_node(..)?)?; nodes.push(..) }] *)
Definition insert_binary_node (st : CoreState) (gates : list Gate) (default : Decision)
    (provenance : RecognizedNodeProvenance) : LResult CoreState :=
  if decide (np_node_id provenance ∈ seen_nodes st) then Ok st
  else
    node ← binary_node (np_node_id provenance) gates default;
    add_node_once st node provenance.

Definition add_pass_edge (st : CoreState) (from to target_symbol : string) (resolution : EdgeResolutionKind)
    : LResult CoreState :=
  from_id ← NodeId_new from;
  to_id ← NodeId_new to;
  b ← add_edge (builder st) from_id to_id PassThrough;
  Ok (mkCore b (rec_nodes st)
        (rec_edges st ++ [mkEdgeProvenance from to target_symbol resolution Automatic None]) (seen_nodes st)).

(* ------------------------------------------------------------------ *)
(** ** Node ids are never blank *)

Fixpoint chars (s : string) : list ascii :=
  match s with EmptyString => [] | String c s => c :: chars s end.

Definition colon : ascii := ":"%char.

(** No [':'] in the string: an identifier, or a path of the scanned tree. *)
Definition plain (s : string) : Prop := colon ∉ chars s.

Lemma chars_app s t : chars (s +:+ t) = chars s ++ chars t.
Proof. induction s as [|c s IH]; [done|]. rewrite string_app_cons. simpl. by rewrite IH. Qed.

Lemma strip_white_colon s s' : strip_white s = Some s' → colon ∈ chars s → colon ∈ chars s'.
Proof.
  intros Hs. assert (∃ pre, chars s = pre ++ chars s' ∧ colon ∉ pre) as (pre & -> & Hpre).
  2:{ by intros [|]%elem_of_app. }
  assert (nat_of_ascii colon = 58) as H58 by reflexivity.
  destruct s as [|c s1]; [done|]. cbn [strip_white] in Hs.
  case_decide as H1.
  - injection Hs as <-. exists [c]. split; [done|]. intros <-%list_elem_of_singleton. lia.
  - destruct s1 as [|c1 s2]; [done|]. case_decide as H2.
    + injection Hs as <-. exists [c; c1]. split; [done|].
      intros [<-|[<-|[]%elem_of_nil]%elem_of_cons]%elem_of_cons; lia.
    + destruct s2 as [|c2 s3]; [done|]. case_decide as H3; [|done].
      injection Hs as <-. exists [c; c1; c2]. split; [done|].
      intros [<-|[<-|[<-|[]%elem_of_nil]%elem_of_cons]%elem_of_cons]%elem_of_cons; lia.
Qed.

Lemma colon_not_blank s : colon ∈ chars s → is_blank s = false.
Proof.
  unfold is_blank. generalize (String.length s) as fuel. intros fuel. revert s.
  induction fuel as [|fuel IH]; intros [|c s] Hc; [by apply elem_of_nil in Hc|done|by apply elem_of_nil in Hc|].
  cbn [is_blank_fuel]. destruct (strip_white (String c s)) as [s'|] eqn:Hs; [|done].
  by eapply IH, strip_white_colon.
Qed.

Lemma qualified_not_blank s t : is_blank (s +:+ "::" +:+ t) = false.
Proof. apply colon_not_blank. rewrite chars_app, elem_of_app. right. left. Qed.

(** A part without [':'] before its first [':'] is determined. *)
Lemma plain_prefix_inj s s' t t' :
  plain s → plain s' → s +:+ String colon t = s' +:+ String colon t' → s = s' ∧ t = t'.
Proof.
  unfold plain. revert s'. induction s as [|c s IH]; intros [|c' s'] Hs Hs'; simpl in *.
  - by intros [= ->].
  - rewrite string_app_cons. intros [= <- _]. destruct Hs'. left.
  - rewrite string_app_cons. intros [= -> _]. destruct Hs. left.
  - rewrite !string_app_cons. intros [= -> Heq]. destruct (IH s') as [-> ->]; [set_solver..|done|done].
Qed.

(* ------------------------------------------------------------------ *)
(** ** What a sequence of requests builds *)

Definition pass_edge (ft : string * string) : GovernanceEdge := mkEdge ft.1 ft.2 PassThrough.

(** The nodes asked for in order, the first per id counting, and the edges. *)
Definition requested_graph (requests : list (string * GovernanceNode)) (es : list (string * string))
    : GovernanceGraph :=
  mkGraph (list_to_map requests) (pass_edge <$> es).

Definition valid_request (request : string * GovernanceNode) : Prop :=
  node_id request.2 = request.1 ∧ validate_governance_node request.2 = Ok ().

Record core_spec (requests : list (string * GovernanceNode)) (es : list (string * string))
    (st : CoreState) : Prop := {
  core_nodes : b_nodes (builder st) = list_to_map requests;
  core_edges : b_edges (builder st) = pass_edge <$> es;
  core_seen : ∀ id, id ∈ seen_nodes st ↔ id ∈ requests.*1;
  core_rec_nodes : ∀ id, id ∈ np_node_id <$> rec_nodes st ↔ id ∈ requests.*1;
  core_rec_nodup : NoDup (np_node_id <$> rec_nodes st);
  core_rec_edges : (λ e, (ep_from e, ep_to e)) <$> rec_edges st = es;
  core_valid : Forall valid_request requests;
}.

Lemma core_spec_new b : GraphBuilder_new = Ok b → core_spec [] [] (mkCore b [] [] ∅).
Proof. intros Hb. unfold GraphBuilder_new in Hb. injection Hb as <-. split; simpl; try done; try constructor; set_solver. Qed.

Lemma elem_of_requests_map (requests : list (string * GovernanceNode)) id :
  id ∈ requests.*1 ↔ is_Some ((list_to_map requests : gmap string GovernanceNode) !! id).
Proof.
  rewrite <-not_eq_None_Some, <-not_elem_of_list_to_map. split; [tauto|].
  intros Hn. by destruct (decide (id ∈ requests.*1)).
Qed.

Lemma list_to_map_snoc_new (requests : list (string * GovernanceNode)) id node :
  id ∉ requests.*1 →
  (list_to_map (requests ++ [(id, node)]) : gmap string GovernanceNode) = <[id := node]> (list_to_map requests).
Proof. intros Hn. apply list_to_map_snoc, Hn. Qed.

Lemma list_to_map_snoc_old (requests : list (string * GovernanceNode)) id node :
  id ∈ requests.*1 →
  (list_to_map (requests ++ [(id, node)]) : gmap string GovernanceNode) = list_to_map requests.
Proof.
  rewrite elem_of_requests_map. intros [node' Hn]. rewrite list_to_map_app. apply map_eq. intros i.
  destruct (list_to_map requests !! i) as [x|] eqn:Hi; [by apply lookup_union_Some_l|].
  rewrite lookup_union_r by done. simpl. rewrite lookup_insert_ne, lookup_empty; [done|]. congruence.
Qed.

(** Adding a node under its provenance's id. *)
Lemma add_node_once_spec requests es st node provenance :
  core_spec requests es st → valid_request (np_node_id provenance, node) →
  ∃ st', add_node_once st node provenance = Ok st' ∧
         core_spec (requests ++ [(np_node_id provenance, node)]) es st'.
Proof.
  intros [Hn He Hs Hr Hnd Hre Hv] [Hid Hval]. unfold add_node_once. simpl in Hid, Hval.
  case_decide as Hin.
  - exists st. split; [done|]. apply Hs in Hin as Hreq.
    assert (∀ id, id ∈ (requests ++ [(np_node_id provenance, node)]).*1 ↔ id ∈ requests.*1) as Heq.
    { intros id. rewrite fmap_app, elem_of_app. simpl. rewrite list_elem_of_singleton. naive_solver. }
    split; [by rewrite list_to_map_snoc_old|done| | |done|done|].
    + intros id. by rewrite Heq.
    + intros id. by rewrite Heq.
    + apply Forall_app. split; [done|]. by constructor.
  - unfold add_node. rewrite Hval. cbn [mbind Result_bind]. rewrite Hid, Hn.
    assert (np_node_id provenance ∉ requests.*1) as Hreq by by rewrite <-Hs.
    rewrite (not_elem_of_list_to_map_1 _ _ Hreq). cbn [mbind Result_bind].
    eexists. split; [reflexivity|]. split; cbn [builder rec_nodes rec_edges seen_nodes b_nodes b_edges].
    + by rewrite list_to_map_snoc_new.
    + done.
    + intros id. rewrite fmap_app, elem_of_app, elem_of_union, Hs. simpl.
      rewrite list_elem_of_singleton, elem_of_singleton. tauto.
    + intros id. rewrite !fmap_app, !elem_of_app, Hr. done.
    + rewrite fmap_app. apply NoDup_app. split_and!; [done| |apply NoDup_singleton].
      intros id Hid' ->%list_elem_of_singleton. by apply Hr in Hid'.
    + done.
    + apply Forall_app. split; [done|]. by constructor.
Qed.

Lemma binary_node_Ok id gates default :
  is_blank id = false → binary_node id gates default = Ok (Binary id id gates default FirstMatch).
Proof. intros Hb. unfold binary_node, NodeId_new. by rewrite Hb. Qed.

(** A request for a binary node. *)
Definition binary_request (id : string) (gates : list Gate) (default : Decision) : string * GovernanceNode :=
  (id, Binary id id gates default FirstMatch).

Lemma binary_request_valid id gates default :
  Forall (λ gate, validate_gate gate = Ok ()) gates → valid_request (binary_request id gates default).
Proof. intros Hg. split; [done|]. by apply try_iter_Ok. Qed.

Lemma registration_gate_valid field :
  is_blank field = false → Forall (λ gate, validate_gate gate = Ok ()) [registration_gate field].
Proof. intros Hb. constructor; [|constructor]. simpl. unfold validate_gate_string. by rewrite Hb. Qed.

Lemma insert_binary_node_spec requests es st gates default provenance :
  core_spec requests es st → is_blank (np_node_id provenance) = false →
  Forall (λ gate, validate_gate gate = Ok ()) gates →
  ∃ st', insert_binary_node st gates default provenance = Ok st' ∧
    core_spec (requests ++ [(np_node_id provenance,
      Binary (np_node_id provenance) (np_node_id provenance) gates default FirstMatch)]) es st'.
Proof.
  intros Hc Hb Hg. pose proof (add_node_once_spec _ _ _ _ provenance Hc (binary_request_valid _ _ default Hg)) as (st' & Ha & Hs).
  exists st'. split; [|done]. unfold insert_binary_node. rewrite binary_node_Ok by done. cbn [mbind Result_bind].
  rewrite Ha. unfold add_node_once in Ha. case_decide; [done|done].
Qed.

Lemma add_pass_edge_spec requests es st from to symbol resolution :
  core_spec requests es st → is_blank from = false → is_blank to = false →
  ∃ st', add_pass_edge st from to symbol resolution = Ok st' ∧ core_spec requests (es ++ [(from, to)]) st'.
Proof.
  intros [Hn He Hs Hr Hnd Hre Hv] Hf Ht. unfold add_pass_edge, NodeId_new. rewrite Hf, Ht.
  eexists. split; [reflexivity|]. split; simpl; try done.
  - by rewrite He, fmap_app.
  - by rewrite fmap_app, Hre.
Qed.

(** [f] always succeeds on [x], asking for the nodes [R] and the edges [E]. *)
Definition requesting {A} (f : CoreState → A → LResult CoreState) (x : A)
    (R : list (string * GovernanceNode)) (E : list (string * string)) : Prop :=
  ∀ requests es st, core_spec requests es st →
    ∃ st', f st x = Ok st' ∧ core_spec (requests ++ R) (es ++ E) st'.

Lemma try_fold_requesting {A} (f : CoreState → A → LResult CoreState) R E (l : list A) :
  (∀ x, x ∈ l → requesting f x (R x) (E x)) → requesting (try_fold f) l (l ≫= R) (l ≫= E).
Proof.
  intros Hf requests es st Hst.
  destruct (try_fold_total f (λ pre st, core_spec (requests ++ (pre ≫= R)) (es ++ (pre ≫= E)) st) st l)
    as (st' & Hf' & Hs); [by rewrite !app_nil_r| |by exists st'].
  intros pre x t Ht Hx. destruct (Hf x Hx _ _ _ Ht) as (t' & Ht' & Hs). exists t'. split; [done|].
  rewrite !bind_app. simpl. by rewrite !app_nil_r, !app_assoc.
Qed.

(** Building succeeds exactly when every edge joins requested nodes. *)
Lemma core_build requests es st :
  core_spec requests es st →
  match build (builder st) with
  | Ok graph => graph = requested_graph requests es ∧
      ∀ ft, ft ∈ es → ft.1 ∈ requests.*1 ∧ ft.2 ∈ requests.*1
  | Err e => ∃ ft id, ft ∈ es ∧ (id = ft.1 ∨ id = ft.2) ∧ id ∉ requests.*1 ∧ e = InvalidEdgeReference id
  end.
Proof.
  intros [Hn He _ _ _ _ _]. unfold build, requested_graph. rewrite Hn, He.
  pose proof (elem_of_requests_map requests) as Hreq. revert Hreq.
  generalize (requests.*1) as ids, (list_to_map requests : gmap string GovernanceNode) as m. intros ids m Hreq.
  clear He Hn. induction es as [|ft l IH]; [by split; [|intros ? ?%elem_of_nil]|]. simpl.
  destruct (m !! ft.1) as [n1|] eqn:H1; simpl.
  2:{ exists ft, ft.1. split_and!; [left|by left|rewrite Hreq, H1; by intros []|done]. }
  destruct (m !! ft.2) as [n2|] eqn:H2; simpl.
  2:{ exists ft, ft.2. split_and!; [left|by right|rewrite Hreq, H2; by intros []|done]. }
  destruct (try_iter _ _) as [[]|e]; simpl in *.
  - destruct IH as [_ IH]. split; [done|]. intros ft' [->|Hin]%elem_of_cons; [rewrite !Hreq, H1, H2; by split|by apply IH].
  - destruct IH as (ft' & id & Hin & Hid & Hno & ->). exists ft', id. split_and!; [by right|done..].
Qed.

Lemma requested_graph_wf requests es :
  Forall valid_request requests →
  (∀ ft, ft ∈ es → ft.1 ∈ requests.*1 ∧ ft.2 ∈ requests.*1) →
  graph_wf (requested_graph requests es).
Proof.
  rewrite Forall_forall. intros Hv He. split; simpl.
  - intros k n Hk%elem_of_list_to_map_2. by apply (Hv _ Hk).
  - intros e (ft & -> & Hin)%list_elem_of_fmap. simpl. rewrite <-!elem_of_requests_map. by apply He.
Qed.

Lemma requested_edge requests es u v :
  edge_rel (requested_graph requests es) u v ↔ (u, v) ∈ es.
Proof.
  unfold edge_rel. rewrite elem_of_successors. simpl. split.
  - intros (e & ([f t] & -> & Hin)%list_elem_of_fmap & <- & <-). done.
  - intros Hin. exists (pass_edge (u, v)). split; [|done]. apply list_elem_of_fmap. eauto.
Qed.
End with_regex.
