(* ===== verification/RustHookCore.v ===== *)
(** * The theorem-backed Rust extractor: from hook programs to graphs

    extract/rust_hook_core_graph.rs: the graph of the hooks and registrations
    that rust_hook_core_parser.rs recognizes.  Every registration becomes an
    entry node that escalates the claims that invoke it to the node of its hook,
    which decides them by its decision literals. *)

From Stdlib Require Import Ascii.
From stdpp Require Import gmap strings.
From S2P Require Import Prelude Encoding F64 Errors Core GraphNode Tarjan GraphTraverse TraverseSpec Extract CoreGraph.
From stdpp Require Import options.

Record RustHookCoreSourceSpan := mkSpan { line_start : nat; line_end : nat }.

Inductive RustHookCoreDecision : Type := Allow | Deny | Ask | Block.

Record RustHookCoreEventDecision := mkEventDecision {
  ed_event : string;
  ed_decision : RustHookCoreDecision;
}.

Record RustHookCoreDecisionEnum := mkDecisionEnum {
  de_name : string;
  de_variants : list string;
}.

Record RustHookCoreHook := mkHook {
  h_name : string;
  h_event : string;
  h_input_type : string;
  h_result_type : string;
  h_decisions : list RustHookCoreDecision;
  h_event_decisions : list RustHookCoreEventDecision;
  h_default_decision : option RustHookCoreDecision;
  h_calls : list string;
  h_source_span : RustHookCoreSourceSpan;
}.

Inductive RustHookCoreRegistrationKind : Type := Inventory | Linkme | Macro.

Record RustHookCoreRegistration := mkRegistration {
  r_event : string;
  r_callback : string;
  r_kind : RustHookCoreRegistrationKind;
  r_source_span : RustHookCoreSourceSpan;
}.

Record RustHookCoreAst := mkAst {
  ast_hash_algorithm : string;
  ast_canonical_hash : string;
  ast_decision_enums : list RustHookCoreDecisionEnum;
  ast_hooks : list RustHookCoreHook;
  ast_registrations : list RustHookCoreRegistration;
}.

Record RustHookCoreFile := mkFile { f_path : string; f_ast : RustHookCoreAst }.

Record CoreGraphBuild := mkBuild {
  cb_graph : GovernanceGraph;
  cb_nodes : list RecognizedNodeProvenance;
  cb_edges : list RecognizedEdgeProvenance;
  cb_resolution_issues : list ResolutionIssue;
}.

(* ------------------------------------------------------------------ *)
(** ** Ids, decisions and provenance *)

Definition EXTRACTION_THEOREM : string := "extractRustHookCore_decision_equivalent".
Definition FAILURE_THEOREM : string :=
  "rust_hook_modeled_program_extractor_failure_reflects_modeled_source_failure".

Definition registration_node_id (path : string) (registration : RustHookCoreRegistration) : string :=
  path +:+ "::registration::" +:+ r_event registration +:+ "::" +:+ r_callback registration.

Definition hook_node_id (path : string) (hook : RustHookCoreHook) : string :=
  path +:+ "::" +:+ h_name hook.

Definition decision_literal (decision : RustHookCoreDecision) : string :=
  match decision with Allow => "allow" | Deny => "deny" | Ask => "ask" | Block => "block" end.

Definition decision_to_graph (decision : RustHookCoreDecision) : Decision :=
  match decision with
  | Allow | Ask => Permit
  | Deny | Block => GraphNode.Deny
  end.

Definition hook_decision_gates (hook : RustHookCoreHook) : list Gate :=
  (λ decision, ExactMatch (decision_literal decision) (decision_to_graph decision)) <$> h_decisions hook.

Definition hook_default (hook : RustHookCoreHook) : Decision :=
  default Permit (decision_to_graph <$> h_default_decision hook).

Definition recognized_node (id name path : string) (ast : RustHookCoreAst) (span : RustHookCoreSourceSpan)
    : RecognizedNodeProvenance :=
  mkNodeProvenance id name path Rust (line_start span) (line_end span) High Automatic
    ["theorem-backed RustHookCore extraction";
     "canonical AST hash " +:+ ast_canonical_hash ast;
     "Lean theorem " +:+ EXTRACTION_THEOREM;
     "Lean theorem " +:+ FAILURE_THEOREM].

(* ------------------------------------------------------------------ *)
(** ** The hooks by name *)

Definition hooks_of (file : RustHookCoreFile) : list RustHookCoreHook := ast_hooks (f_ast file).

Definition hook_index (files : list RustHookCoreFile) : gmap string (list Location) :=
  name_index hooks_of h_name files.

Definition resolve_hook (index : gmap string (list Location)) (callback : string) : LResult Location :=
  match index !! callback with
  | Some [location] => Ok location
  | Some _ => Err (invalid_input [Txt "ambiguous RustHookCore callback '"; Txt callback;
                                  Txt "': module/name resolution is not modeled"])
  | None => Err (invalid_input [Txt "unresolved RustHookCore callback '"; Txt callback; Txt "'"])
  end.

(* ------------------------------------------------------------------ *)
(** ** Building the graph *)

Section with_regex.
Context `{RegexEngine}.

(** One registration of the main loop, with the registrations seen so far. *)
Definition register (files : list RustHookCoreFile) (index : gmap string (list Location))
    (file : RustHookCoreFile) (st : gset (string * string) * CoreState)
    (registration : RustHookCoreRegistration) : LResult (gset (string * string) * CoreState) :=
  let '(seen_registrations, core) := st in
  let registration_id := registration_node_id (f_path file) registration in
  let key := (r_event registration, r_callback registration) in
  if decide (key ∈ seen_registrations) then
    Err (invalid_input [Txt "duplicate RustHookCore registration for event '"; Txt (r_event registration);
                        Txt "' and callback '"; Txt (r_callback registration); Txt "'"])
  else
    location ← resolve_hook index (r_callback registration);
    found ← located hooks_of files location;
    let '(hook_file, hook) := found : RustHookCoreFile * RustHookCoreHook in
    let hook_id := hook_node_id (f_path hook_file) hook in
    core ← insert_binary_node core [registration_gate "hook_registration"] Permit
      (recognized_node registration_id "hook registration" (f_path file) (f_ast file)
         (r_source_span registration));
    core ← insert_binary_node core (hook_decision_gates hook) (hook_default hook)
      (recognized_node hook_id (h_name hook) (f_path hook_file) (f_ast hook_file) (h_source_span hook));
    core ← add_pass_edge core registration_id hook_id (r_callback registration) GlobalUnique;
    Ok ({[key]} ∪ seen_registrations, core).

Definition register_file (files : list RustHookCoreFile) (index : gmap string (list Location))
    (st : gset (string * string) * CoreState) (file : RustHookCoreFile)
    : LResult (gset (string * string) * CoreState) :=
  try_fold (register files index file) st (ast_registrations (f_ast file)).

Definition build_graph (files : list RustHookCoreFile) : LResult CoreGraphBuild :=
  b ← GraphBuilder_new;
  st ← try_fold (register_file files (hook_index files)) (∅, mkCore b [] [] ∅) files;
  let core := st.2 in
  if bool_decide (rec_nodes core = [])
  then Err (invalid_input [Txt "no RustHookCore formal hook registration was discovered"])
  else
    graph ← build (builder core);
    Ok (mkBuild graph (rec_nodes core) (rec_edges core) []).

Definition build_single_ast_graph (ast : RustHookCoreAst) : LResult GovernanceGraph :=
  result ← build_graph [mkFile "rust_hook_core.rs" ast];
  Ok (cb_graph result).

Definition build_governance_graph (ast : RustHookCoreAst) : LResult GovernanceGraph :=
  build_single_ast_graph ast.
End with_regex.

(* ------------------------------------------------------------------ *)
(** ** Name resolution *)

(** The hooks of a name, in program order, with their files. *)
Definition named_hooks (files : list RustHookCoreFile) (name : string)
    : list (RustHookCoreFile * RustHookCoreHook) := named_items hooks_of h_name files name.

(** Why a name of no hook, or of several, does not resolve. *)
Definition unresolved (files : list RustHookCoreFile) (callback : string) : LegitimacyError :=
  invalid_input
    match named_hooks files callback with
    | [] => [Txt "unresolved RustHookCore callback '"; Txt callback; Txt "'"]
    | _ => [Txt "ambiguous RustHookCore callback '"; Txt callback; Txt "': module/name resolution is not modeled"]
    end.

(** A callback resolves exactly when one hook of the program has its name. *)
Lemma resolve_hook_spec files callback :
  match named_hooks files callback with
  | [found] => ∃ location, resolve_hook (hook_index files) callback = Ok location ∧
                 located hooks_of files location = Ok found
  | _ => resolve_hook (hook_index files) callback = Err (unresolved files callback)
  end.
Proof.
  pose proof (name_index_spec hooks_of h_name files callback) as Hs.
  pose proof (name_index_nonempty hooks_of h_name files callback) as Hne.
  unfold resolve_hook, unresolved, named_hooks, hook_index. unfold resolved in Hs.
  destruct (name_index _ _ files !! callback) as [[|location [|location' rest]]|] eqn:Hi; simpl in Hs.
  - done.
  - destruct (named_items _ _ _ _) as [|found [|]]; try discriminate. injection Hs as Hs. eauto.
  - destruct (named_items _ _ _ _) as [|found [|]]; try discriminate. done.
  - destruct (named_items _ _ _ _) as [|found [|]]; try discriminate. done.
Qed.

(* ------------------------------------------------------------------ *)
(** ** What is built *)

Abbreviation Registration := (RustHookCoreFile * RustHookCoreRegistration)%type.

(** The registrations of a program with their files, in program order. *)
Definition registrations (files : list RustHookCoreFile) : list Registration :=
  file ← files; pair file <$> ast_registrations (f_ast file).

Definition registration_key (r : Registration) : string * string := (r_event r.2, r_callback r.2).

(** The hook a registration resolves to, if it resolves. *)
Definition resolution (files : list RustHookCoreFile) (r : Registration)
    : option (RustHookCoreFile * RustHookCoreHook) :=
  match named_hooks files (r_callback r.2) with [found] => Some found | _ => None end.

(** The programs the extractor accepts: some hook is registered, no
    registration is repeated, and every callback names exactly one hook. *)
Definition extractable (files : list RustHookCoreFile) : Prop :=
  registrations files ≠ [] ∧ NoDup (registration_key <$> registrations files) ∧
  ∀ r, r ∈ registrations files → is_Some (resolution files r).

(** The error of the others: there is no registration, or the first one that
    repeats an earlier registration or does not resolve is named. *)
Definition repeated (r : Registration) : LegitimacyError :=
  invalid_input [Txt "duplicate RustHookCore registration for event '"; Txt (r_event r.2);
                 Txt "' and callback '"; Txt (r_callback r.2); Txt "'"].

Definition refusal (files : list RustHookCoreFile) (e : LegitimacyError) : Prop :=
  (registrations files = [] ∧ e = invalid_input [Txt "no RustHookCore formal hook registration was discovered"]) ∨
  ∃ pre r rest, registrations files = pre ++ r :: rest ∧
    NoDup (registration_key <$> pre) ∧ (∀ r', r' ∈ pre → is_Some (resolution files r')) ∧
    ((registration_key r ∈ registration_key <$> pre ∧ e = repeated r) ∨
     (registration_key r ∉ registration_key <$> pre ∧ resolution files r = None ∧
      e = unresolved files (r_callback r.2))).

Definition registration_id (r : Registration) : string := registration_node_id (f_path r.1) r.2.
Definition registration_node (r : Registration) : GovernanceNode :=
  Binary (registration_id r) (registration_id r) [registration_gate "hook_registration"] Permit FirstMatch.

Definition hook_id (found : RustHookCoreFile * RustHookCoreHook) : string := hook_node_id (f_path found.1) found.2.
Definition hook_node (found : RustHookCoreFile * RustHookCoreHook) : GovernanceNode :=
  Binary (hook_id found) (hook_id found) (hook_decision_gates found.2) (hook_default found.2) FirstMatch.

(** The nodes and edges that the registrations ask for. *)
Definition requests (files : list RustHookCoreFile) (rs : list Registration) : list (string * GovernanceNode) :=
  r ← rs; (registration_id r, registration_node r)
          :: from_option (λ found, [(hook_id found, hook_node found)]) [] (resolution files r).

Definition hook_edges (files : list RustHookCoreFile) (rs : list Registration) : list (string * string) :=
  r ← rs; from_option (λ found, [(registration_id r, hook_id found)]) [] (resolution files r).

Definition program_graph (files : list RustHookCoreFile) : GovernanceGraph :=
  requested_graph (requests files (registrations files)) (hook_edges files (registrations files)).

Section build_facts.
Context `{RegexEngine}.

Lemma hook_gates_valid hook : Forall (λ gate, validate_gate gate = Ok ()) (hook_decision_gates hook).
Proof.
  apply Forall_forall. intros gate (decision & -> & _)%list_elem_of_fmap. by destruct decision.
Qed.

Lemma refusal_not_extractable files e : refusal files e → ¬ extractable files.
Proof.
  intros [[Hnil _]|(pre & r & rest & Hrs & _ & _ & Hr)] (Hne & Hnd & Hres); [done|]. destruct Hr as [[Hk _]|(_ & Hno & _)].
  - rewrite Hrs, fmap_app in Hnd. apply NoDup_app in Hnd as (_ & Hdis & _). apply (Hdis _ Hk). left.
  - destruct (Hres r) as [x Hx]; [rewrite Hrs; set_solver|congruence].
Qed.

(** One registration either fails, on a repeated key or an unresolved callback,
    or adds its node, its hook's node and the edge between them. *)
Lemma register_spec files file registration seen core reqs es :
  core_spec reqs es core →
  let r := (file, registration) in
  if decide (registration_key r ∈ seen)
  then register files (hook_index files) file (seen, core) registration = Err (repeated r)
  else
    match resolution files r with
    | Some found =>
        ∃ core', register files (hook_index files) file (seen, core) registration
                    = Ok ({[registration_key r]} ∪ seen, core') ∧
           core_spec (reqs ++ [(registration_id r, registration_node r); (hook_id found, hook_node found)])
             (es ++ [(registration_id r, hook_id found)]) core'
    | None => register files (hook_index files) file (seen, core) registration =
                Err (unresolved files (r_callback registration))
    end.
Proof.
  intros Hc r. unfold resolution, register. pose proof (resolve_hook_spec files (r_callback registration)) as Hres.
  change (registration_key r) with (r_event registration, r_callback registration).
  change (r_callback r.2) with (r_callback registration). case_decide as Hk; [done|].
  destruct (named_hooks files (r_callback registration)) as [|[hf hook] [|]].
  1,3: by rewrite Hres.
  destruct Hres as (location & -> & Hloc). cbn [mbind Result_bind].
  rewrite Hloc. cbn [mbind Result_bind].
  assert (is_blank (registration_id r) = false) as Hrid by apply qualified_not_blank.
  assert (is_blank (hook_id (hf, hook)) = false) as Hhid by apply qualified_not_blank.
  destruct (insert_binary_node_spec _ _ _ _ Permit
    (recognized_node (registration_id r) "hook registration" (f_path file) (f_ast file)
       (r_source_span registration)) Hc Hrid
    (registration_gate_valid "hook_registration" eq_refl)) as (core1 & H1 & Hc1).
  destruct (insert_binary_node_spec _ _ _ _ (hook_default hook)
    (recognized_node (hook_id (hf, hook)) (h_name hook) (f_path hf) (f_ast hf) (h_source_span hook))
    Hc1 Hhid (hook_gates_valid hook)) as (core2 & H2 & Hc2).
  destruct (add_pass_edge_spec _ _ _ _ _ (r_callback registration) GlobalUnique Hc2 Hrid Hhid)
    as (core3 & H3 & Hc3).
  exists core3. unfold registration_id, hook_id in H1, H2, H3. simpl in H1, H2, H3.
  rewrite H1. cbn [mbind Result_bind]. rewrite H2. cbn [mbind Result_bind]. rewrite H3.
  split; [done|]. by rewrite <-app_assoc in Hc3.
Qed.

(** The main loop. *)
Lemma register_all_spec files b :
  GraphBuilder_new = Ok b →
  (∃ seen core, try_fold (register_file files (hook_index files)) (∅, mkCore b [] [] ∅) files = Ok (seen, core) ∧
     core_spec (requests files (registrations files)) (hook_edges files (registrations files)) core ∧
     NoDup (registration_key <$> registrations files) ∧
     ∀ r, r ∈ registrations files → is_Some (resolution files r)) ∨
  (∃ e, try_fold (register_file files (hook_index files)) (∅, mkCore b [] [] ∅) files = Err e ∧
     refusal files e).
Proof.
  intros Hb. unfold register_file. rewrite (try_fold_nested (register files (hook_index files))).
  fold (registrations files).
  destruct (try_fold_cases
    (λ st (fr : Registration), register files (hook_index files) fr.1 st fr.2)
    (λ pre st, core_spec (requests files pre) (hook_edges files pre) st.2 ∧
       (∀ k, k ∈ st.1 ↔ k ∈ registration_key <$> pre) ∧ NoDup (registration_key <$> pre) ∧
       ∀ r, r ∈ pre → is_Some (resolution files r))
    (refusal files) (∅, mkCore b [] [] ∅) (registrations files))
    as [([seen core] & Hf & Hc & _ & Hnd & Hr)|(e & Hf & He)]; [| |left; by exists seen, core|right; by exists e].
  - split_and!; [by apply core_spec_new|set_solver|constructor|set_solver].
  - intros pre [file registration] rest [seen core] Hrs (Hc & Hseen & Hnd & Hres). cbn [fst snd] in *.
    pose proof (register_spec files file registration seen core _ _ Hc) as Hstep. cbv zeta in Hstep.
    case_decide as Hk.
    { right. eexists. split; [exact Hstep|]. right. exists pre, (file, registration), rest.
      split_and!; try done. left. by rewrite <-Hseen. }
    destruct (resolution files (file, registration)) as [found|] eqn:Hfound.
    2:{ right. eexists. split; [exact Hstep|]. right. exists pre, (file, registration), rest.
        split_and!; try done. right. by rewrite <-Hseen. }
    left. destruct Hstep as (core' & He & Hc'). eexists. split; [exact He|]. cbn [fst snd]. split_and!.
    + unfold requests, hook_edges in *. rewrite !bind_app. simpl. rewrite !Hfound. simpl. done.
    + intros k. rewrite elem_of_union, elem_of_singleton, Hseen, fmap_app, elem_of_app. simpl.
      rewrite list_elem_of_singleton. tauto.
    + rewrite fmap_app. apply NoDup_app. split_and!; [done| |apply NoDup_singleton].
      intros k Hk' ->%list_elem_of_singleton. by apply Hk, Hseen.
    + intros r [Hr| ->%list_elem_of_singleton]%elem_of_app; [by apply Hres|by rewrite Hfound].
Qed.

Lemma hook_edges_requested files rs ft :
  ft ∈ hook_edges files rs → ft.1 ∈ (requests files rs).*1 ∧ ft.2 ∈ (requests files rs).*1.
Proof.
  unfold hook_edges, requests. intros (r & Hft & Hr)%list_elem_of_bind.
  destruct (resolution files r) as [found|] eqn:Hfound; [|by apply elem_of_nil in Hft].
  apply list_elem_of_singleton in Hft as ->. simpl.
  split; apply list_elem_of_fmap.
  - exists (registration_id r, registration_node r). split; [done|].
    apply list_elem_of_bind. exists r. rewrite Hfound. split; [left|done].
  - exists (hook_id found, hook_node found). split; [done|].
    apply list_elem_of_bind. exists r. rewrite Hfound. split; [right; left|done].
Qed.

Lemma build_graph_spec files :
  match build_graph files with
  | Ok result => extractable files ∧ cb_graph result = program_graph files ∧ cb_resolution_issues result = [] ∧
      (λ e, (ep_from e, ep_to e)) <$> cb_edges result = hook_edges files (registrations files) ∧
      NoDup (np_node_id <$> cb_nodes result) ∧
      (∀ id, id ∈ np_node_id <$> cb_nodes result ↔ is_Some (nodes (program_graph files) !! id)) ∧
      graph_wf (program_graph files)
  | Err e => ¬ extractable files ∧ refusal files e
  end.
Proof.
  unfold build_graph. destruct GraphBuilder_new as [b|] eqn:Hb; [|done]. cbn [mbind Result_bind].
  destruct (register_all_spec files b Hb) as [(seen & core & -> & Hc & Hnd & Hres)|(e & -> & He)];
    [|by split; [eapply refusal_not_extractable|]].
  cbn [mbind Result_bind snd]. pose proof (core_rec_nodes _ _ _ Hc) as Hrec.
  case_bool_decide as Hemp.
  - assert (registrations files = []) as Hnil.
    { destruct (registrations files) as [|r rs]; [done|].
      specialize (Hrec (registration_id r)). rewrite Hemp in Hrec.
      exfalso. apply (elem_of_nil (registration_id r)), Hrec. simpl. left. }
    split; [by intros (Hne & _)|by left].
  - pose proof (core_build _ _ _ Hc) as Hbuild. destruct (build (builder core)) as [graph|e].
    + destruct Hbuild as [-> He]. cbn. split_and!; try done.
      * split; [|by split]. intros Hnil. rewrite Hnil in Hrec.
        destruct (rec_nodes core) as [|n ns]; [done|]. apply (elem_of_nil (np_node_id n)), Hrec. left.
      * apply (core_rec_edges _ _ _ Hc).
      * apply (core_rec_nodup _ _ _ Hc).
      * intros id. by rewrite Hrec, elem_of_requests_map.
      * apply requested_graph_wf; [apply (core_valid _ _ _ Hc)|done].
    + destruct Hbuild as (ft & id & Hin & Hid & Hno & _).
      destruct (hook_edges_requested _ _ _ Hin) as [H1 H2]. naive_solver.
Qed.
End build_facts.

(* ------------------------------------------------------------------ *)
(** ** The decisions of the graph *)

(** The hooks that the registrations of a program resolve to. *)
Definition registered_hooks (files : list RustHookCoreFile) : list RustHookCoreHook :=
  r ← registrations files; from_option (λ found, [found.2]) [] (resolution files r).

(** A claim invokes the registered hooks. *)
Definition invokes (c : GovernanceClaim) : bool :=
  match gc_metrics c !! "hook_registration" with Some v => f64_leb f64_one v | None => false end.

(** What a hook decides on a claim: the first of its decisions that the claim's
    action spells, or its default. *)
Definition hook_decision (hook : RustHookCoreHook) (c : GovernanceClaim) : Decision :=
  match list_find (λ decision, gc_action c = Some (decision_literal decision)) (h_decisions hook) with
  | Some (_, decision) => decision_to_graph decision
  | None => hook_default hook
  end.

(** What the recognized decision literals, defaults and registrations of a
    program say on a claim: a claim that invokes the registrations is denied when
    the literals of any registered hook deny it.  The events, the event decisions
    and the calls of the hooks are not part of it, as they are not of the graph. *)
Definition literal_decision (files : list RustHookCoreFile) (c : GovernanceClaim) : Decision :=
  if invokes c && existsb (λ hook, is_deny (hook_decision hook c)) (registered_hooks files)
  then GraphNode.Deny else Permit.

(** Paths and hook names without [':'], as files and Rust identifiers have. *)
Definition plain_program (files : list RustHookCoreFile) : Prop :=
  ∀ file, file ∈ files → plain (f_path file) ∧ ∀ hook, hook ∈ ast_hooks (f_ast file) → plain (h_name hook).

Lemma hook_default_cases hook : hook_default hook = Permit ∨ hook_default hook = GraphNode.Deny.
Proof. unfold hook_default. destruct (h_default_decision hook) as [[]|]; simpl; auto. Qed.

Lemma hook_decision_cases hook c : hook_decision hook c = Permit ∨ hook_decision hook c = GraphNode.Deny.
Proof.
  unfold hook_decision. destruct (list_find _ _) as [[? []]|]; simpl; auto using hook_default_cases.
Qed.


Section decisions.
Context `{RegexEngine} (files : list RustHookCoreFile).
Context (Hplain : plain_program files) (Hext : extractable files).

Lemma elem_of_registrations r :
  r ∈ registrations files ↔ r.1 ∈ files ∧ r.2 ∈ ast_registrations (f_ast r.1).
Proof using Type.
  unfold registrations. rewrite list_elem_of_bind. split.
  - by intros (file & (registration & -> & ?)%list_elem_of_fmap & ?).
  - intros [Hf Hr]. exists r.1. split; [|done]. apply list_elem_of_fmap. exists r.2. by destruct r.
Qed.

Lemma resolution_found r found :
  resolution files r = Some found →
  named_hooks files (r_callback r.2) = [found] ∧ found.1 ∈ files ∧
  found.2 ∈ ast_hooks (f_ast found.1) ∧ h_name found.2 = r_callback r.2.
Proof using Type.
  unfold resolution. intros Hr.
  assert (named_hooks files (r_callback r.2) = [found]) as Hn
    by (destruct (named_hooks files _) as [|? [|]]; by simplify_eq).
  split; [done|]. assert (found ∈ named_hooks files (r_callback r.2)) as Hin by (rewrite Hn; left).
  unfold named_hooks, named_items in Hin.
  apply list_elem_of_bind in Hin as (file & (hook & -> & [? ?]%list_elem_of_filter)%list_elem_of_fmap & ?). done.
Qed.

(** Registrations and hooks never share an id, and hooks of one id are one hook. *)
Lemma registration_not_hook r r' found :
  r ∈ registrations files → resolution files r' = Some found → registration_id r ≠ hook_id found.
Proof using Hplain.
  intros [Hf _]%elem_of_registrations (_ & Hf' & Hh & _)%resolution_found Heq.
  destruct (Hplain _ Hf) as [Hp _]. destruct (Hplain _ Hf') as [Hp' Hn]. specialize (Hn _ Hh).
  apply (plain_prefix_inj _ _ (":registration::" +:+ r_event r.2 +:+ "::" +:+ r_callback r.2)
    (":" +:+ h_name found.2) Hp Hp') in Heq as [_ Heq].
  injection Heq as Heq. rewrite string_app_nil_l in Heq. rewrite <-Heq in Hn. apply Hn.
  change (colon ∈ chars ("registration" +:+ String colon (":" +:+ r_event r.2 +:+ "::" +:+ r_callback r.2))).
  rewrite chars_app, elem_of_app. right. left.
Qed.

Lemma hook_id_inj r r' found found' :
  resolution files r = Some found → resolution files r' = Some found' →
  hook_id found = hook_id found' → found = found'.
Proof using Hplain.
  intros (Hn & Hf & _ & Hc)%resolution_found (Hn' & Hf' & _ & Hc')%resolution_found Heq.
  apply (plain_prefix_inj _ _ (":" +:+ h_name found.2) (":" +:+ h_name found'.2)) in Heq as [_ Heq];
    [|by apply Hplain..].
  injection Heq as Heq. rewrite !string_app_nil_l in Heq. rewrite <-Hc, Heq, Hc' in Hn. congruence.
Qed.

Lemma elem_of_requests id node :
  (id, node) ∈ requests files (registrations files) ↔
  ∃ r found, r ∈ registrations files ∧ resolution files r = Some found ∧
    (id = registration_id r ∧ node = registration_node r ∨ id = hook_id found ∧ node = hook_node found).
Proof using Hext.
  unfold requests. rewrite list_elem_of_bind. split.
  - intros (r & Hin & Hr). destruct Hext as (_ & _ & Hres). destruct (Hres r Hr) as [found Hfound].
    exists r, found. split; [done|]. split; [done|]. rewrite Hfound in Hin. simpl in Hin.
    apply elem_of_cons in Hin as [[= -> ->]|[= -> ->]%list_elem_of_singleton]; auto.
  - intros (r & found & Hr & Hfound & Hor). exists r. split; [|done]. rewrite Hfound. simpl.
    destruct Hor as [[-> ->]|[-> ->]]; [left|right; left].
Qed.

Lemma program_node id node :
  nodes (program_graph files) !! id = Some node ↔ (id, node) ∈ requests files (registrations files).
Proof using Hplain Hext.
  simpl. split; [apply elem_of_list_to_map_2|]. intros Hin. apply elem_of_list_to_map_1'; [|done].
  intros node' Hin'. apply elem_of_requests in Hin as (r & found & Hr & Hf & Hor).
  apply elem_of_requests in Hin' as (r' & found' & Hr' & Hf' & Hor').
  destruct Hor as [[-> ->]|[-> ->]], Hor' as [[Hid ->]|[Hid ->]].
  - unfold registration_node. by rewrite Hid.
  - by destruct (registration_not_hook r r' found').
  - by destruct (registration_not_hook r' r found).
  - by rewrite (hook_id_inj r r' found found').
Qed.

Lemma program_edge u v :
  edge_rel (program_graph files) u v ↔
  ∃ r found, r ∈ registrations files ∧ resolution files r = Some found ∧ u = registration_id r ∧ v = hook_id found.
Proof using Type.
  unfold program_graph. rewrite requested_edge. unfold hook_edges. rewrite list_elem_of_bind. split.
  - intros (r & Hin & Hr). destruct (resolution files r) as [found|] eqn:Hf; [|by apply elem_of_nil in Hin].
    apply list_elem_of_singleton in Hin as [= -> ->]. eauto 10.
  - intros (r & found & Hr & Hf & -> & ->). exists r. rewrite Hf. split; [left|done].
Qed.

Lemma program_acyclic : acyclic (program_graph files).
Proof using Hplain.
  intros v Htc. assert (∃ w, edge_rel (program_graph files) v w) as [w Hvw].
  { enough (∀ a b, tc (edge_rel (program_graph files)) a b → ∃ w, edge_rel (program_graph files) a w)
      as Hfirst by by eapply Hfirst. intros a b [x y|x y z]; eauto. }
  assert (∃ u, edge_rel (program_graph files) u v) as [u Huv].
  { clear Hvw w. enough (∀ a b, tc (edge_rel (program_graph files)) a b → ∃ u, edge_rel (program_graph files) u b)
      as Hlast by by eapply Hlast. induction 1; eauto. }
  apply program_edge in Hvw as (r & found & Hr & _ & -> & _).
  apply program_edge in Huv as (r' & found' & _ & Hf' & _ & Heq). by destruct (registration_not_hook r r' found').
Qed.

Lemma registration_decides r batch c v :
  gc_metrics c !! "hook_registration" = Some v →
  node_decision (registration_node r) batch c = Ok (if invokes c then Escalate else Permit).
Proof using Type.
  intros Hv. unfold invokes. simpl. unfold numeric_field. rewrite decide_False by done. rewrite Hv.
  cbn [ok_or mbind Result_bind]. by destruct (f64_leb f64_one v).
Qed.

Lemma hook_decides found batch c :
  node_decision (hook_node found) batch c = Ok (hook_decision found.2 c).
Proof using Type.
  cbn [node_decision hook_node binary_decision]. unfold hook_decision, hook_decision_gates.
  induction (h_decisions found.2) as [|decision l IH]; [done|].
  rewrite fmap_cons. cbn [evaluate_first_match gate_matches mbind Result_bind list_find gate_decision].
  case_bool_decide as Ha; [by rewrite decide_True|]. rewrite decide_False, IH by done.
  by destruct (list_find _ l) as [[]|].
Qed.

Section traversal.
Context (cs : list GovernanceClaim) (Hval : validate_governance_claims cs = Ok ()).
Context (Hmetric : ∀ c, c ∈ cs → is_Some (gc_metrics c !! "hook_registration")).
Context (final : gmap string Decision) (nds : gmap NodeId (list ClaimDecision)).
Context (Hsp : traversal_spec (program_graph files) cs final nds).

(** A node whose decision on a claim does not depend on the batch. *)
Lemma spec_member v node ds (D : GovernanceClaim → Decision) c d :
  nodes (program_graph files) !! v = Some node → nds !! v = Some ds → c ∈ cs →
  (∀ c batch, c ∈ cs → node_decision node batch c = Ok (D c)) →
  mkClaimDecision (gc_claimant_id c) d ∈ ds ↔ fed (program_graph files) nds v (gc_claimant_id c) ∧ d = D c.
Proof using Hval Hsp.
  intros Hn Hds Hc HD. destruct (tr_batch _ _ _ _ Hsp v node ds Hn Hds) as (batch & [_ Hel] & Hev).
  rewrite (elem_of_node_decisions _ _ _ _ _ Hev).
  destruct (valid_claims_facts cs Hval) as [_ Hnd]. split.
  - intros (c' & Hc' & Hid & Hd). pose proof (proj1 (Hel c') Hc') as [Hin Hfed].
    rewrite HD in Hd by done. injection Hd as <-.
    assert (c' = c) as -> by by eapply valid_claims_inj. done.
  - intros [Hfed ->]. exists c. split; [by apply Hel|]. split; [done|]. by apply HD.
Qed.

Lemma registration_entry r : r ∈ registrations files → ∀ u, ¬ edge_rel (program_graph files) u (registration_id r).
Proof using Hplain.
  intros Hr u (r' & found & _ & Hf & _ & Heq)%program_edge. by destruct (registration_not_hook r r' found).
Qed.

Lemma node_decided v node : nodes (program_graph files) !! v = Some node → ∃ ds, nds !! v = Some ds.
Proof using Hsp. intros Hn. apply (tr_nodes _ _ _ _ Hsp). eauto. Qed.

Lemma registration_found r :
  r ∈ registrations files →
  ∃ found, resolution files r = Some found ∧
    nodes (program_graph files) !! registration_id r = Some (registration_node r) ∧
    nodes (program_graph files) !! hook_id found = Some (hook_node found).
Proof using Hplain Hext.
  intros Hr. destruct Hext as (_ & _ & Hres). destruct (Hres r Hr) as [found Hf]. exists found.
  split; [done|]. split; apply program_node, elem_of_requests; eauto 10.
Qed.

Lemma registration_member r ds c d :
  r ∈ registrations files → nds !! registration_id r = Some ds → c ∈ cs →
  mkClaimDecision (gc_claimant_id c) d ∈ ds ↔ d = if invokes c then Escalate else Permit.
Proof using All.
  intros Hr Hds Hc. destruct (registration_found r Hr) as (found & _ & Hn & _).
  rewrite (spec_member _ _ _ (λ c, if invokes c then Escalate else Permit) c d Hn Hds Hc).
  2:{ intros c' batch Hc'. destruct (Hmetric c' Hc') as [v Hv]. by eapply registration_decides. }
  split; [by intros [_ ?]|]. intros Hd. split; [|done]. left. by apply registration_entry.
Qed.

Lemma hook_member r found ds c d :
  r ∈ registrations files → resolution files r = Some found → nds !! hook_id found = Some ds → c ∈ cs →
  mkClaimDecision (gc_claimant_id c) d ∈ ds ↔ invokes c = true ∧ d = hook_decision found.2 c.
Proof using All.
  intros Hr Hf Hds Hc. destruct (registration_found r Hr) as (found' & Hf' & Hnr & Hn).
  rewrite Hf in Hf'. injection Hf' as <-.
  rewrite (spec_member _ _ _ (hook_decision found.2) c d Hn Hds Hc) by (intros; apply hook_decides).
  apply and_iff_compat_r. assert (edge_rel (program_graph files) (registration_id r) (hook_id found)) as He
    by (apply program_edge; eauto 10). split.
  - intros [Hno|(u & (r' & found' & Hr' & _ & -> & _)%program_edge & ds' & Hds' & Hin)]; [by destruct (Hno _ He)|].
    apply (registration_member r' ds' c _ Hr' Hds' Hc) in Hin. by destruct (invokes c).
  - intros Hinv. right. exists (registration_id r). split; [done|].
    destruct (node_decided _ _ Hnr) as [ds' Hds']. exists ds'. split; [done|].
    apply (registration_member r ds' c _ Hr Hds' Hc). by rewrite Hinv.
Qed.

Lemma elem_of_registered_hooks hook :
  hook ∈ registered_hooks files ↔ ∃ r found, r ∈ registrations files ∧ resolution files r = Some found ∧ hook = found.2.
Proof using Type.
  unfold registered_hooks. rewrite list_elem_of_bind. split.
  - intros (r & Hin & Hr). destruct (resolution files r) as [found|] eqn:Hf; [|by apply elem_of_nil in Hin].
    apply list_elem_of_singleton in Hin as ->. eauto 10.
  - intros (r & found & Hr & Hf & ->). exists r. rewrite Hf. split; [left|done].
Qed.

Lemma program_recorded c d :
  c ∈ cs →
  recorded (program_graph files) nds (gc_claimant_id c) d ↔
  (invokes c = false ∧ d = Permit) ∨
  (invokes c = true ∧ ∃ hook, hook ∈ registered_hooks files ∧ d = hook_decision hook c).
Proof using All.
  intros Hc. split.
  - intros (u & ds & Hds & Hin & Hesc).
    destruct (proj1 (tr_nodes _ _ _ _ Hsp u) (mk_is_Some _ _ Hds)) as [node Hnode].
    apply program_node, elem_of_requests in Hnode as (r & found & Hr & Hf & [[-> _]|[-> _]]).
    + apply (registration_member r ds c _ Hr Hds Hc) in Hin as ->.
      destruct (invokes c); [|by left]. destruct (Hesc eq_refl (hook_id found)). apply program_edge. eauto 10.
    + apply (hook_member r found ds c _ Hr Hf Hds Hc) in Hin as [Hinv ->]. right. split; [done|].
      exists found.2. split; [|done]. apply elem_of_registered_hooks. eauto.
  - intros [[Hinv ->]|(Hinv & hook & (r & found & Hr & Hf & ->)%elem_of_registered_hooks & ->)].
    + destruct Hext as (Hne & _ & _). destruct (registrations files) as [|r rs] eqn:Hrs; [done|].
      assert (r ∈ registrations files) as Hr by (rewrite Hrs; left).
      destruct (registration_found r Hr) as (found & _ & Hn & _). destruct (node_decided _ _ Hn) as [ds Hds].
      exists (registration_id r), ds. split_and!; [done| |done].
      apply (registration_member r ds c _ Hr Hds Hc). by rewrite Hinv.
    + destruct (registration_found r Hr) as (found' & Hf' & _ & Hn). rewrite Hf in Hf'. injection Hf' as <-.
      destruct (node_decided _ _ Hn) as [ds Hds]. exists (hook_id found), ds. split_and!; [done| |].
      * by apply (hook_member r found ds c _ Hr Hf Hds Hc).
      * destruct (hook_decision_cases found.2 c) as [-> | ->]; done.
Qed.

Lemma program_final c : c ∈ cs → final !! gc_claimant_id c = Some (literal_decision files c).
Proof using All.
  intros Hc. eapply strictest_unique; [apply (tr_final _ _ _ _ Hsp)|].
  eapply strictest_ext; [intros d; symmetry; by apply program_recorded|].
  unfold literal_decision. destruct (invokes c) eqn:Hinv; simpl; [|split; [by left|]; intros d [[_ ->]|[? _]]; done].
  destruct (existsb _ _) eqn:Hex; simpl.
  - apply existsb_exists in Hex as (hook & Hin%list_elem_of_In & Hd). split; [|intros; lia].
    right. split; [done|]. exists hook. split; [done|]. by destruct (hook_decision hook c).
  - assert (∀ hook, hook ∈ registered_hooks files → hook_decision hook c = Permit) as Hall.
    { intros hook Hin. destruct (hook_decision_cases hook c) as [|Hd]; [done|].
      enough (existsb (λ hook, is_deny (hook_decision hook c)) (registered_hooks files) = true) by congruence.
      apply existsb_exists. exists hook. split; [by apply list_elem_of_In|]. by rewrite Hd. }
    split; [|intros d [[? _]|(_ & hook & Hin & ->)]; [done|by rewrite (Hall hook Hin)]].
    right. split; [done|]. destruct Hext as (Hne & _ & Hres).
    destruct (registrations files) as [|r rs] eqn:Hrs; [done|].
    destruct (Hres r) as [found Hf]; [left|]. exists found.2.
    assert (found.2 ∈ registered_hooks files) as Hin by (apply elem_of_registered_hooks; rewrite Hrs; exists r, found; split; [left|done]).
    split; [done|]. by rewrite (Hall _ Hin).
Qed.
End traversal.

(** No node of the graph fails on claims with the registration metric. *)
Lemma program_evaluates cs e :
  (∀ c, c ∈ cs → is_Some (gc_metrics c !! "hook_registration")) →
  ¬ evaluation_error (program_graph files) cs e.
Proof using Hplain Hext.
  intros Hmetric (v & node & batch & Hn & [_ Hsub] & He).
  apply program_node, elem_of_requests in Hn as (r & found & _ & _ & Hor).
  assert (∃ ds, evaluate_node_validated node batch = Ok ds) as [ds Hds]; [|congruence].
  assert (∀ c, c ∈ batch → ∃ d, node_decision node batch c = Ok d) as Hall.
  { intros c Hc. destruct Hor as [[_ ->]|[_ ->]]; [|eexists; apply hook_decides].
    destruct (Hmetric c) as [x Hx]; [by apply Hsub|]. eexists. by eapply registration_decides. }
  destruct Hor as [[_ ->]|[_ ->]]; apply try_map_total; intros c Hc; destruct (Hall c Hc) as [d Hd];
    simpl in Hd |- *; rewrite Hd; by eexists.
Qed.
End decisions.

(* ------------------------------------------------------------------ *)
(** ** Properties *)

Section properties.
Context `{RegexEngine}.

(** C28: the Rust extractor is exact: it accepts a program exactly when some
    hook is registered, no registration is repeated and every callback names one
    hook.  Then the graph holds a node per registration and per registered hook,
    the first of an id counting, and an edge from each registration to its hook;
    the graph is well formed, the provenance lists each node once and the edges
    in order, and nothing is left unresolved.  Otherwise the error says that no
    registration was found, or names the first registration that repeats an
    earlier one or whose callback does not resolve, with the reason. *)
Theorem rust_extraction_exact files :
  match build_graph files with
  | Ok result => extractable files ∧ cb_graph result = program_graph files ∧ cb_resolution_issues result = [] ∧
      (λ e, (ep_from e, ep_to e)) <$> cb_edges result = hook_edges files (registrations files) ∧
      NoDup (np_node_id <$> cb_nodes result) ∧
      (∀ id, id ∈ np_node_id <$> cb_nodes result ↔ is_Some (nodes (program_graph files) !! id)) ∧
      graph_wf (program_graph files)
  | Err e => ¬ extractable files ∧ refusal files e
  end.
Proof. apply build_graph_spec. Qed.

(** What the traversal of an extracted graph decides, of a program whose paths
    and hook names hold no [':'].  On valid claims that carry the metric the
    registrations read, it succeeds, and denies a claim exactly when the claim
    invokes the hooks and the decision literals of some registered hook deny it;
    every other claim is permitted.  It is not what running the hooks decides:
    docs/extractor-boundary.md leaves that correspondence open. *)
Theorem rust_graph_decides files result cs :
  build_graph files = Ok result → plain_program files → validate_governance_claims cs = Ok () →
  (∀ c, c ∈ cs → is_Some (gc_metrics c !! "hook_registration")) →
  ∃ r, traverse (cb_graph result) cs = Ok r ∧
    ∀ c, c ∈ cs → final_decisions r !! gc_claimant_id c = Some (literal_decision files c).
Proof.
  intros Hb Hplain Hval Hm. pose proof (build_graph_spec files) as Hs. rewrite Hb in Hs.
  destruct Hs as (Hext & -> & _ & _ & _ & _ & Hwf). unfold traverse.
  destruct (traverse_claims_cases (program_graph files) cs Hwf Hval true)
    as [[Hc _]|[(_ & He & _)|(_ & _ & [(e & _ & He)|(final & nds & -> & Hsp)])]].
  - by destruct Hc; apply program_acyclic.
  - pose proof Hext as (Hne & _ & _). destruct (registrations files) as [|r rs] eqn:Hrs; [done|].
    destruct (registration_found files Hplain Hext r) as (found & _ & Hn & _); [rewrite Hrs; left|].
    by rewrite He in Hn.
  - by apply program_evaluates in He.
  - eexists. split; [done|]. intros c Hc. by eapply program_final.
Qed.
End properties.
