(* ===== verification/PythonHookCore.v ===== *)
(** * The theorem-backed Python extractor: from hook programs to graphs

    extract/python_hook_core_graph.rs: the graph of the decision unions, schemas,
    callbacks and registrations that python_hook_core_parser.rs recognizes.
    Unions and schemas become nodes of their own; a registration becomes a node
    with an edge to its callback, and a callback has an edge to every other
    callback of its file that it calls. *)

From stdpp Require Import gmap strings.
From S2P Require Import Prelude Encoding F64 Errors Core GraphNode Tarjan GraphTraverse Extract CoreGraph.
From stdpp Require Import options.

Inductive PythonHookCoreDecision : Type := Allow | Deny | Ask | Block.

Record PythonHookCoreLiteralUnion := mkUnion { u_name : string; u_literals : list string }.

Inductive PythonHookCoreSchemaKind : Type := Dataclass | TypedDict | PydanticModel.

Record PythonHookCoreField := mkField {
  pf_name : string;
  pf_literals : list string;
  pf_decision_position : bool;
}.

Record PythonHookCoreSchema := mkSchema {
  s_name : string;
  s_kind : PythonHookCoreSchemaKind;
  s_fields : list PythonHookCoreField;
}.

Record PythonHookCoreDispatchEnum := mkDispatchEnum { d_name : string; d_variants : list string }.

Record PythonHookCoreCallback := mkCallback {
  c_name : string;
  c_decisions : list PythonHookCoreDecision;
  c_default_decision : option PythonHookCoreDecision;
  c_calls : list string;
}.

Record PythonHookCoreRegistration := mkRegistration { r_event : string; r_callback : string }.

Record PythonHookCoreAst := mkAst {
  ast_hash_algorithm : string;
  ast_canonical_hash : string;
  ast_literal_unions : list PythonHookCoreLiteralUnion;
  ast_schemas : list PythonHookCoreSchema;
  ast_dispatch_enums : list PythonHookCoreDispatchEnum;
  ast_callbacks : list PythonHookCoreCallback;
  ast_registrations : list PythonHookCoreRegistration;
}.

Record SourceSpan := mkSpan { line_start : nat; line_end : nat }.

Record PythonSourceSpanIndex := mkSpans {
  sp_literal_unions : gmap string SourceSpan;
  sp_schemas : gmap string SourceSpan;
  sp_callbacks : gmap string SourceSpan;
  sp_registrations : gmap (string * string) SourceSpan;
}.

Record PythonHookCoreFile := mkFile {
  f_path : string;
  f_ast : PythonHookCoreAst;
  f_spans : PythonSourceSpanIndex;
}.

Record CoreGraphBuild := mkBuild {
  cb_graph : GovernanceGraph;
  cb_nodes : list RecognizedNodeProvenance;
  cb_edges : list RecognizedEdgeProvenance;
}.

(* ------------------------------------------------------------------ *)
(** ** Decisions and provenance *)

Definition EXTRACTION_THEOREM : string := "extractPythonHookCore_decision_equivalent".
Definition FAILURE_THEOREM : string := "python_hook_extractor_failure_reflects_source_failure".

Definition decision_literal (decision : PythonHookCoreDecision) : string :=
  match decision with Allow => "allow" | Deny => "deny" | Ask => "ask" | Block => "block" end.

Definition decision_from_literal (literal : string) : option PythonHookCoreDecision :=
  if decide (literal = "allow" ∨ literal = "approve") then Some Allow
  else if decide (literal = "deny") then Some Deny
  else if decide (literal = "ask" ∨ literal = "defer") then Some Ask
  else if decide (literal = "block") then Some Block
  else None.

Definition decision_to_graph (decision : PythonHookCoreDecision) : Decision :=
  match decision with
  | Allow => Permit
  | Deny | Block => GraphNode.Deny
  | Ask => Escalate
  end.

Definition decision_gates (literals : list string) : list Gate :=
  omap (λ literal, (λ decision, ExactMatch literal (decision_to_graph decision)) <$> decision_from_literal literal)
    literals.

Definition callback_decision_gates (callback : PythonHookCoreCallback) : list Gate :=
  (λ decision, ExactMatch (decision_literal decision) (decision_to_graph decision)) <$> c_decisions callback.

Definition callback_default (callback : PythonHookCoreCallback) : Decision :=
  default Escalate (decision_to_graph <$> c_default_decision callback).

Definition schema_gates (schema : PythonHookCoreSchema) : list Gate :=
  field ← filter (λ field, pf_decision_position field = true) (s_fields schema);
  decision_gates (pf_literals field).

Definition recognized_node (id name path : string) (ast : PythonHookCoreAst) (span : option SourceSpan)
    : RecognizedNodeProvenance :=
  let span := default (mkSpan 1 1) span in
  mkNodeProvenance id name path Python (line_start span) (line_end span) High Automatic
    ["theorem-backed PythonHookCore extraction";
     "canonical AST hash " +:+ ast_canonical_hash ast;
     "Lean theorem " +:+ EXTRACTION_THEOREM;
     "Lean theorem " +:+ FAILURE_THEOREM].

(** [format!] of a path and a name. *)
Definition qualified (path name : string) : string := path +:+ "::" +:+ name.

Definition registration_id (path : string) (registration : PythonHookCoreRegistration) : string :=
  path +:+ "::registration::" +:+ r_event registration +:+ "::" +:+ r_callback registration.

(** [ast.callbacks.iter().find(..)] *)
Definition find_callback (ast : PythonHookCoreAst) (name : string) : option PythonHookCoreCallback :=
  snd <$> list_find (λ callback, c_name callback = name) (ast_callbacks ast).

Definition insert_callbacks (ids : gmap (string * string) string) (file : PythonHookCoreFile)
    : gmap (string * string) string :=
  foldl (λ ids callback, <[(f_path file, c_name callback) := qualified (f_path file) (c_name callback)]> ids)
    ids (ast_callbacks (f_ast file)).

Definition callback_ids (files : list PythonHookCoreFile) : gmap (string * string) string :=
  foldl insert_callbacks ∅ files.

(* ------------------------------------------------------------------ *)
(** ** Building the graph *)

Section with_regex.
Context `{RegexEngine}.

Definition add_union (file : PythonHookCoreFile) (core : CoreState) (union : PythonHookCoreLiteralUnion)
    : LResult CoreState :=
  let gates := decision_gates (u_literals union) in
  match gates with
  | [] => Ok core
  | _ :: _ =>
      insert_binary_node core gates Escalate
        (recognized_node (qualified (f_path file) (u_name union)) (u_name union) (f_path file) (f_ast file)
           (sp_literal_unions (f_spans file) !! u_name union))
  end.

Definition add_schema (file : PythonHookCoreFile) (core : CoreState) (schema : PythonHookCoreSchema)
    : LResult CoreState :=
  let gates := schema_gates schema in
  match gates with
  | [] => Ok core
  | _ :: _ =>
      insert_binary_node core gates Escalate
        (recognized_node (qualified (f_path file) (s_name schema)) (s_name schema) (f_path file) (f_ast file)
           (sp_schemas (f_spans file) !! s_name schema))
  end.

Definition register (ids : gmap (string * string) string) (file : PythonHookCoreFile) (core : CoreState)
    (registration : PythonHookCoreRegistration) : LResult CoreState :=
  match ids !! (f_path file, r_callback registration) with
  | None => Ok core
  | Some callback_id =>
      let registration_id := registration_id (f_path file) registration in
      core ← insert_binary_node core [registration_gate "hook_registration"] Permit
        (recognized_node registration_id "hook registration" (f_path file) (f_ast file)
           (sp_registrations (f_spans file) !! (r_event registration, r_callback registration)));
      callback ← ok_or (find_callback (f_ast file) (r_callback registration))
        (panicked "registration was filtered to known callbacks");
      core ← insert_binary_node core (callback_decision_gates callback) (callback_default callback)
        (recognized_node callback_id (c_name callback) (f_path file) (f_ast file)
           (sp_callbacks (f_spans file) !! c_name callback));
      add_pass_edge core registration_id callback_id (r_callback registration) SameFile
  end.

Definition add_file (ids : gmap (string * string) string) (core : CoreState) (file : PythonHookCoreFile)
    : LResult CoreState :=
  core ← try_fold (add_union file) core (ast_literal_unions (f_ast file));
  core ← try_fold (add_schema file) core (ast_schemas (f_ast file));
  try_fold (register ids file) core (ast_registrations (f_ast file)).

Definition add_call (ids : gmap (string * string) string) (file : PythonHookCoreFile) (from : string)
    (core : CoreState) (call : string) : LResult CoreState :=
  match ids !! (f_path file, call) with
  | Some to =>
      if decide (from = to) then Ok core else add_pass_edge core from to call SameFile
  | None => Ok core
  end.

Definition add_calls (ids : gmap (string * string) string) (file : PythonHookCoreFile) (core : CoreState)
    (registration : PythonHookCoreRegistration) : LResult CoreState :=
  match ids !! (f_path file, r_callback registration) with
  | None => Ok core
  | Some from =>
      match find_callback (f_ast file) (r_callback registration) with
      | None => Ok core
      | Some callback => try_fold (add_call ids file from) core (c_calls callback)
      end
  end.

Definition add_file_calls (ids : gmap (string * string) string) (core : CoreState) (file : PythonHookCoreFile)
    : LResult CoreState :=
  try_fold (add_calls ids file) core (ast_registrations (f_ast file)).

Definition build_graph (files : list PythonHookCoreFile) : LResult CoreGraphBuild :=
  b ← GraphBuilder_new;
  let ids := callback_ids files in
  core ← try_fold (add_file ids) (mkCore b [] [] ∅) files;
  core ← try_fold (add_file_calls ids) core files;
  if bool_decide (rec_nodes core = [])
  then Err (invalid_input
    [Txt "no PythonHookCore schema, decision union, or formal hook registration was discovered"])
  else
    graph ← build (builder core);
    Ok (mkBuild graph (rec_nodes core) (rec_edges core)).
End with_regex.

(* ------------------------------------------------------------------ *)
(** ** What is built *)

(** A union or schema asks for a node when it has a decision literal. *)
Definition gated_request (id : string) (gates : list Gate) : list (string * GovernanceNode) :=
  match gates with [] => [] | _ :: _ => [binary_request id gates Escalate] end.

Definition registration_requests (file : PythonHookCoreFile) (r : PythonHookCoreRegistration)
    : list (string * GovernanceNode) :=
  match find_callback (f_ast file) (r_callback r) with
  | None => []
  | Some callback =>
      [binary_request (registration_id (f_path file) r) [registration_gate "hook_registration"] Permit;
       binary_request (qualified (f_path file) (r_callback r)) (callback_decision_gates callback)
         (callback_default callback)]
  end.

Definition registration_edges (file : PythonHookCoreFile) (r : PythonHookCoreRegistration)
    : list (string * string) :=
  match find_callback (f_ast file) (r_callback r) with
  | None => []
  | Some _ => [(registration_id (f_path file) r, qualified (f_path file) (r_callback r))]
  end.

(** The callbacks of its file that a registered callback calls. *)
Definition call_edge (file : PythonHookCoreFile) (caller call : string) : list (string * string) :=
  match find_callback (f_ast file) call with
  | Some _ =>
      if decide (qualified (f_path file) caller = qualified (f_path file) call) then []
      else [(qualified (f_path file) caller, qualified (f_path file) call)]
  | None => []
  end.

Definition call_edges (file : PythonHookCoreFile) (r : PythonHookCoreRegistration) : list (string * string) :=
  match find_callback (f_ast file) (r_callback r) with
  | None => []
  | Some callback => call ← c_calls callback; call_edge file (r_callback r) call
  end.

Definition file_requests (file : PythonHookCoreFile) : list (string * GovernanceNode) :=
  (ast_literal_unions (f_ast file) ≫= λ u, gated_request (qualified (f_path file) (u_name u)) (decision_gates (u_literals u)))
  ++ (ast_schemas (f_ast file) ≫= λ s, gated_request (qualified (f_path file) (s_name s)) (schema_gates s))
  ++ (ast_registrations (f_ast file) ≫= registration_requests file).

Definition requests (files : list PythonHookCoreFile) : list (string * GovernanceNode) := files ≫= file_requests.

Definition core_edge_list (files : list PythonHookCoreFile) : list (string * string) :=
  (files ≫= λ file, ast_registrations (f_ast file) ≫= registration_edges file)
  ++ (files ≫= λ file, ast_registrations (f_ast file) ≫= call_edges file).

Lemma find_callback_Some ast name callback :
  find_callback ast name = Some callback → c_name callback = name ∧ callback ∈ ast_callbacks ast.
Proof.
  unfold find_callback. destruct (list_find _ _) as [[i c]|] eqn:Hf; [|done]. intros [= <-].
  apply list_find_Some in Hf as (Hi & Hn & _). split; [done|].
  by eapply list_elem_of_lookup_2.
Qed.

Lemma find_callback_is_Some ast name :
  is_Some (find_callback ast name) ↔ ∃ callback, callback ∈ ast_callbacks ast ∧ c_name callback = name.
Proof.
  split.
  - intros [callback [? ?]%find_callback_Some]. eauto.
  - intros (callback & Hin & Hn). unfold find_callback. apply fmap_is_Some.
    by eapply list_find_elem_of.
Qed.

Lemma insert_callbacks_lookup ids file p n id :
  insert_callbacks ids file !! (p, n) = Some id ↔
  (p = f_path file ∧ is_Some (find_callback (f_ast file) n) ∧ id = qualified p n) ∨
  (¬ (p = f_path file ∧ is_Some (find_callback (f_ast file) n)) ∧ ids !! (p, n) = Some id).
Proof.
  unfold insert_callbacks. rewrite find_callback_is_Some.
  induction (ast_callbacks (f_ast file)) as [|callback l IH] using rev_ind.
  - simpl. split; [|naive_solver set_solver]. intros Hi. right. split; [|done]. set_solver.
  - rewrite foldl_app. simpl. rewrite lookup_insert.
    assert ((∃ c, c ∈ l ++ [callback] ∧ c_name c = n) ↔ (∃ c, c ∈ l ∧ c_name c = n) ∨ c_name callback = n) as ->
      by set_solver.
    case_decide as Hk; [|rewrite IH; naive_solver]. injection Hk as <- <-. naive_solver.
Qed.

Lemma callback_ids_lookup files p n id :
  callback_ids files !! (p, n) = Some id ↔
  id = qualified p n ∧ ∃ file, file ∈ files ∧ f_path file = p ∧ is_Some (find_callback (f_ast file) n).
Proof.
  unfold callback_ids. induction files as [|file files IH] using rev_ind.
  - simpl. split; [done|]. intros (_ & ? & []%elem_of_nil & _).
  - rewrite foldl_app. simpl. rewrite insert_callbacks_lookup, IH.
    setoid_rewrite elem_of_app. setoid_rewrite list_elem_of_singleton.
    destruct (find_callback (f_ast file) n) as [c|] eqn:Hc.
    + destruct (decide (p = f_path file)) as [->|]; naive_solver.
    + split; [naive_solver|]. intros (-> & f & [Hf| ->] & <- & [c Hc']); [|congruence].
      right. split; [intros [_ [? ?]]; congruence|]. eauto 10.
Qed.

Section build_facts.
Context `{RegexEngine} (files : list PythonHookCoreFile) (Hpaths : NoDup (f_path <$> files)).

(** A name of a file has an id exactly when the file has a callback of the name. *)
Lemma callback_id file name :
  file ∈ files →
  callback_ids files !! (f_path file, name) =
  (λ _, qualified (f_path file) name) <$> find_callback (f_ast file) name.
Proof using Hpaths.
  intros Hin. destruct (callback_ids files !! (f_path file, name)) as [id|] eqn:Hid.
  - apply callback_ids_lookup in Hid as (-> & file' & Hin' & Hp & [c Hc]).
    assert (file' = file) as -> by (by eapply (NoDup_fmap_elem_inj f_path files)). by rewrite Hc.
  - destruct (find_callback (f_ast file) name) as [c|] eqn:Hc; [|done].
    enough (callback_ids files !! (f_path file, name) = Some (qualified (f_path file) name)) by congruence.
    apply callback_ids_lookup. split; [done|]. exists file. eauto.
Qed.

Lemma literal_gate_valid literal decision d :
  decision_from_literal literal = Some decision → validate_gate (ExactMatch literal d) = Ok ().
Proof using Type.
  unfold decision_from_literal. intros Hl.
  repeat (case_decide; [destruct_or?; subst; done|]). done.
Qed.

Lemma decision_gates_valid literals : Forall (λ gate, validate_gate gate = Ok ()) (decision_gates literals).
Proof using Type.
  apply Forall_forall. intros gate (literal & _ & (decision & Hd & ->)%fmap_Some)%list_elem_of_omap.
  by eapply literal_gate_valid.
Qed.

Lemma schema_gates_valid schema : Forall (λ gate, validate_gate gate = Ok ()) (schema_gates schema).
Proof using Type.
  apply Forall_forall. intros gate (field & Hg & _)%list_elem_of_bind.
  pose proof (decision_gates_valid (pf_literals field)) as Hall. rewrite Forall_forall in Hall. by apply Hall.
Qed.

Lemma callback_gates_valid callback :
  Forall (λ gate, validate_gate gate = Ok ()) (callback_decision_gates callback).
Proof using Type.
  apply Forall_forall. intros gate (decision & -> & _)%list_elem_of_fmap. by destruct decision.
Qed.

(** The node of a union or a schema. *)
Lemma gated_requesting {A} (f : CoreState → A → LResult CoreState) (x : A) gates provenance :
  (∀ core, f core x = match gates with [] => Ok core | _ :: _ => insert_binary_node core gates Escalate provenance end) →
  Forall (λ gate, validate_gate gate = Ok ()) gates → is_blank (np_node_id provenance) = false →
  requesting f x (gated_request (np_node_id provenance) gates) [].
Proof using Type.
  intros Hf Hg Hb reqs es core Hc. rewrite Hf. destruct gates as [|gate gates].
  - exists core. by rewrite !app_nil_r.
  - rewrite app_nil_r. by apply insert_binary_node_spec.
Qed.

Lemma python_add_union_requesting file u :
  requesting (add_union file) u (gated_request (qualified (f_path file) (u_name u)) (decision_gates (u_literals u))) [].
Proof using Type.
  refine (gated_requesting (add_union file) u (decision_gates (u_literals u))
    (recognized_node (qualified (f_path file) (u_name u)) _ _ _ _) _ _ _);
    [reflexivity|apply decision_gates_valid|apply qualified_not_blank].
Qed.

Lemma add_schema_requesting file s :
  requesting (add_schema file) s (gated_request (qualified (f_path file) (s_name s)) (schema_gates s)) [].
Proof using Type.
  refine (gated_requesting (add_schema file) s (schema_gates s)
    (recognized_node (qualified (f_path file) (s_name s)) _ _ _ _) _ _ _);
    [reflexivity|apply schema_gates_valid|apply qualified_not_blank].
Qed.

Lemma register_requesting file r :
  file ∈ files →
  requesting (register (callback_ids files) file) r (registration_requests file r) (registration_edges file r).
Proof using Hpaths.
  intros Hin reqs es core Hc. unfold register, registration_requests, registration_edges.
  rewrite callback_id by done.
  destruct (find_callback (f_ast file) (r_callback r)) as [callback|] eqn:Hcb; simpl;
    [|exists core; by rewrite !app_nil_r].
  destruct (insert_binary_node_spec _ _ _ _ Permit
    (recognized_node (registration_id (f_path file) r) "hook registration" (f_path file) (f_ast file)
       (sp_registrations (f_spans file) !! (r_event r, r_callback r))) Hc (qualified_not_blank _ _)
       (registration_gate_valid "hook_registration" eq_refl)) as (core1 & -> & Hc1).
  cbn [mbind Result_bind].
  destruct (insert_binary_node_spec _ _ _ _ (callback_default callback)
    (recognized_node (qualified (f_path file) (r_callback r)) (c_name callback) (f_path file) (f_ast file)
       (sp_callbacks (f_spans file) !! c_name callback)) Hc1 (qualified_not_blank _ _)
       (callback_gates_valid callback)) as (core2 & -> & Hc2).
  cbn [mbind Result_bind].
  destruct (add_pass_edge_spec _ _ _ (registration_id (f_path file) r) (qualified (f_path file) (r_callback r))
    (r_callback r) SameFile Hc2 (qualified_not_blank _ _) (qualified_not_blank _ _)) as (core3 & -> & Hc3).
  exists core3. split; [done|]. by rewrite <-app_assoc in Hc3.
Qed.

Lemma add_file_requesting file :
  file ∈ files →
  requesting (add_file (callback_ids files)) file (file_requests file)
    (ast_registrations (f_ast file) ≫= registration_edges file).
Proof using Hpaths.
  intros Hin reqs es core Hc. unfold add_file.
  destruct (try_fold_requesting (add_union file)
    (λ u, gated_request (qualified (f_path file) (u_name u)) (decision_gates (u_literals u))) (λ _, [])
    (ast_literal_unions (f_ast file))
    (λ u _, python_add_union_requesting file u) _ _ _ Hc)
    as (core1 & -> & Hc1). cbn [mbind Result_bind].
  destruct (try_fold_requesting (add_schema file)
    (λ s, gated_request (qualified (f_path file) (s_name s)) (schema_gates s)) (λ _, [])
    (ast_schemas (f_ast file))
    (λ s _, add_schema_requesting file s) _ _ _ Hc1)
    as (core2 & -> & Hc2). cbn [mbind Result_bind].
  destruct (try_fold_requesting (register (callback_ids files) file) _ _ (ast_registrations (f_ast file))
    (λ r _, register_requesting file r Hin) _ _ _ Hc2) as (core3 & -> & Hc3).
  exists core3. split; [done|]. unfold file_requests. rewrite !app_assoc.
  by rewrite !bind_nothing, !app_nil_r in Hc3.
Qed.

Lemma python_add_calls_requesting file r :
  file ∈ files → requesting (add_calls (callback_ids files) file) r [] (call_edges file r).
Proof using Hpaths.
  intros Hin reqs es core Hc. unfold add_calls, call_edges. rewrite callback_id by done.
  destruct (find_callback (f_ast file) (r_callback r)) as [callback|]; simpl; [|exists core; by rewrite !app_nil_r].
  destruct (try_fold_requesting (add_call (callback_ids files) file (qualified (f_path file) (r_callback r)))
    (λ _, []) (call_edge file (r_callback r)) (c_calls callback)) with (requests := reqs) (es := es) (st := core)
    as (core' & -> & Hc'); [|done|].
  - intros call _ reqs' es' core' Hc'. unfold add_call, call_edge. rewrite callback_id by done.
    destruct (find_callback (f_ast file) call); simpl; [|exists core'; by rewrite !app_nil_r].
    case_decide; [exists core'; by rewrite !app_nil_r|]. rewrite app_nil_r.
    apply add_pass_edge_spec; [done|apply qualified_not_blank..].
  - exists core'. split; [done|]. rewrite app_nil_r in *.
    by rewrite bind_nothing, app_nil_r in Hc'.
Qed.

Lemma python_build_core :
  ∀ b, GraphBuilder_new = Ok b →
  ∃ core core', try_fold (add_file (callback_ids files)) (mkCore b [] [] ∅) files = Ok core ∧
    try_fold (add_file_calls (callback_ids files)) core files = Ok core' ∧
    core_spec (requests files) (core_edge_list files) core'.
Proof using Hpaths.
  intros b Hb.
  destruct (try_fold_requesting (add_file (callback_ids files)) file_requests _ files
    add_file_requesting _ _ _ (core_spec_new b Hb)) as (core & Hf & Hc).
  destruct (try_fold_requesting (add_file_calls (callback_ids files)) (λ _, [])
    (λ file, ast_registrations (f_ast file) ≫= call_edges file) files) with
    (requests := requests files) (es := files ≫= λ file, ast_registrations (f_ast file) ≫= registration_edges file)
    (st := core) as (core' & Hf' & Hc'); [|exact Hc|].
  - intros file Hin reqs es st Hst.
    destruct (try_fold_requesting (add_calls (callback_ids files) file) (λ _, []) (call_edges file)
      (ast_registrations (f_ast file)) (λ r _, python_add_calls_requesting file r Hin) _ _ _ Hst) as (st' & ? & Hst').
    exists st'. split; [done|]. by rewrite bind_nothing in Hst'.
  - exists core, core'. split_and!; [done..|]. by rewrite bind_nothing, app_nil_r in Hc'.
Qed.

Lemma python_requested_by_registration file r callback :
  file ∈ files → r ∈ ast_registrations (f_ast file) → find_callback (f_ast file) (r_callback r) = Some callback →
  registration_id (f_path file) r ∈ (requests files).*1 ∧ qualified (f_path file) (r_callback r) ∈ (requests files).*1.
Proof using Type.
  intros Hf Hr Hc.
  assert (∀ q, q ∈ registration_requests file r → q.1 ∈ (requests files).*1) as Hq.
  { intros q Hq. apply list_elem_of_fmap. exists q. split; [done|]. unfold requests.
    apply list_elem_of_bind. exists file. split; [|done]. unfold file_requests. rewrite !elem_of_app. right. right.
    apply list_elem_of_bind. by exists r. }
  unfold registration_requests in Hq. rewrite Hc in Hq.
  split; eapply (Hq (_, _)); [left|right; left].
Qed.

(** The edge that names a missing node is a call of an unregistered callback. *)
Lemma python_missing_edge ft id :
  ft ∈ core_edge_list files → id = ft.1 ∨ id = ft.2 → id ∉ (requests files).*1 →
  ∃ file r callback call, file ∈ files ∧ r ∈ ast_registrations (f_ast file) ∧
    find_callback (f_ast file) (r_callback r) = Some callback ∧ call ∈ c_calls callback ∧
    is_Some (find_callback (f_ast file) call) ∧ id = qualified (f_path file) call.
Proof using Type.
  unfold core_edge_list. intros [Hft|Hft]%elem_of_app Hid Hno;
    apply list_elem_of_bind in Hft as (file & (r & Hft & Hr)%list_elem_of_bind & Hf);
    unfold registration_edges, call_edges in Hft;
    (destruct (find_callback (f_ast file) (r_callback r)) as [callback|] eqn:Hc; [|by apply elem_of_nil in Hft]);
    destruct (python_requested_by_registration file r callback Hf Hr Hc) as [H1 H2].
  - apply list_elem_of_singleton in Hft as ->. simpl in Hid. naive_solver.
  - apply list_elem_of_bind in Hft as (call & Hft & Hcall). unfold call_edge in Hft.
    destruct (find_callback (f_ast file) call) as [callee|] eqn:Hcallee; [|by apply elem_of_nil in Hft].
    case_decide; [by apply elem_of_nil in Hft|]. apply list_elem_of_singleton in Hft as ->. simpl in Hid.
    destruct Hid as [-> | ->]; [done|]. exists file, r, callback, call. rewrite Hcallee. by split_and!.
Qed.
End build_facts.

(* ------------------------------------------------------------------ *)
(** ** Properties *)

(** C29: the Python extractor is exact: on files with distinct paths it fails in
    two cases only, when the program has no node at all, and when a registered
    callback calls a callback of its file that is no node of the graph.
    Otherwise the graph holds the node of every union and schema with a
    decision literal and of every registration with its callback, in program
    order with the first of an id counting, the edges from each registration to
    its callback and then those from each registered callback to the other
    callbacks it calls; the graph is well formed and the provenance lists each
    node once and the edges in order. *)
Theorem python_extraction_exact `{RegexEngine} files :
  NoDup (f_path <$> files) →
  match build_graph files with
  | Ok result => requests files ≠ [] ∧
      cb_graph result = requested_graph (requests files) (core_edge_list files) ∧
      graph_wf (cb_graph result) ∧
      (λ e, (ep_from e, ep_to e)) <$> cb_edges result = core_edge_list files ∧
      NoDup (np_node_id <$> cb_nodes result) ∧
      ∀ id, id ∈ np_node_id <$> cb_nodes result ↔ is_Some (nodes (cb_graph result) !! id)
  | Err e => requests files = [] ∨
      ∃ file r callback call, file ∈ files ∧ r ∈ ast_registrations (f_ast file) ∧
        find_callback (f_ast file) (r_callback r) = Some callback ∧ call ∈ c_calls callback ∧
        is_Some (find_callback (f_ast file) call) ∧ qualified (f_path file) call ∉ (requests files).*1 ∧
        e = InvalidEdgeReference (qualified (f_path file) call)
  end.
Proof.
  intros Hpaths. unfold build_graph. destruct GraphBuilder_new as [b|] eqn:Hb; [|done]. cbn [mbind Result_bind].
  destruct (python_build_core files Hpaths b Hb) as (core & core' & -> & Hf & Hc). cbn [mbind Result_bind]. rewrite Hf.
  cbn [mbind Result_bind]. pose proof (core_rec_nodes _ _ _ Hc) as Hrec.
  case_bool_decide as Hemp.
  - left. destruct (requests files) as [|[id node] reqs]; [done|]. specialize (Hrec id). rewrite Hemp in Hrec.
    exfalso. apply (elem_of_nil id), Hrec. left.
  - pose proof (core_build _ _ _ Hc) as Hbuild. destruct (build (builder core')) as [graph|e].
    + destruct Hbuild as [-> He]. cbn [mbind Result_bind cb_graph cb_edges cb_nodes]. split_and!.
      * intros Hnil. rewrite Hnil in Hrec. destruct (rec_nodes core') as [|n ns]; [done|].
        apply (elem_of_nil (np_node_id n)), Hrec. left.
      * done.
      * apply requested_graph_wf; [apply (core_valid _ _ _ Hc)|done].
      * apply (core_rec_edges _ _ _ Hc).
      * apply (core_rec_nodup _ _ _ Hc).
      * intros id. by rewrite Hrec, elem_of_requests_map.
    + right. destruct Hbuild as (ft & id & Hin & Hid & Hno & ->).
      destruct (python_missing_edge files ft id Hin Hid Hno) as (file & r & callback & call & ? & ? & ? & ? & ? & ->).
      by exists file, r, callback, call.
Qed.
