(* ===== verification/TypeScriptCore.v ===== *)
(** * The theorem-backed TypeScript extractor: from approval programs to graphs

    extract/typescript_approval_core_graph.rs: the graph of the approval unions,
    policies, handlers and registrations that typescript_approval_core_parser.rs
    recognizes.  A handler of a file that registers nothing is a node of its own
    when its name starts with [should]. *)

From stdpp Require Import gmap strings.
From S2P Require Import Prelude Encoding F64 Errors Core GraphNode Tarjan GraphTraverse Extract CoreGraph.
From stdpp Require Import options.

Record TypeScriptApprovalCoreSourceSpan := mkSpan { line_start : nat; line_end : nat }.

Inductive TypeScriptApprovalCoreApprovalResult : Type := Allow | Deny | Ask | Escalate.

Record TypeScriptApprovalCoreApprovalUnion := mkUnion {
  u_name : string;
  u_literals : list string;
  u_span : TypeScriptApprovalCoreSourceSpan;
}.

Record TypeScriptApprovalCoreField := mkField {
  tf_name : string;
  tf_type_name : string;
  tf_approval_position : bool;
}.

Record TypeScriptApprovalCoreRequest := mkRequest {
  q_name : string;
  q_fields : list TypeScriptApprovalCoreField;
  q_span : TypeScriptApprovalCoreSourceSpan;
}.

Inductive TypeScriptApprovalCorePolicyKind : Type := Allowlist | Blocklist.

Record TypeScriptApprovalCorePolicy := mkPolicy {
  p_name : string;
  p_kind : TypeScriptApprovalCorePolicyKind;
  p_entries : list string;
  p_span : TypeScriptApprovalCoreSourceSpan;
}.

Record TypeScriptApprovalCoreHandler := mkHandler {
  h_name : string;
  h_is_async : bool;
  h_results : list TypeScriptApprovalCoreApprovalResult;
  h_default_result : option TypeScriptApprovalCoreApprovalResult;
  h_calls : list string;
  h_fallback_chain : list string;
  h_span : TypeScriptApprovalCoreSourceSpan;
}.

Record TypeScriptApprovalCoreRegistration := mkRegistration {
  r_surface : string;
  r_handler : string;
  r_via_decorator : bool;
  r_span : TypeScriptApprovalCoreSourceSpan;
}.

Record TypeScriptApprovalCoreAst := mkAst {
  ast_hash_algorithm : string;
  ast_canonical_hash : string;
  ast_approval_unions : list TypeScriptApprovalCoreApprovalUnion;
  ast_requests : list TypeScriptApprovalCoreRequest;
  ast_policies : list TypeScriptApprovalCorePolicy;
  ast_handlers : list TypeScriptApprovalCoreHandler;
  ast_registrations : list TypeScriptApprovalCoreRegistration;
}.

Record TypeScriptApprovalCoreFile := mkFile { f_path : string; f_ast : TypeScriptApprovalCoreAst }.

Record CoreGraphBuild := mkBuild {
  cb_graph : GovernanceGraph;
  cb_nodes : list RecognizedNodeProvenance;
  cb_edges : list RecognizedEdgeProvenance;
  cb_resolution_issues : list ResolutionIssue;
}.

(* ------------------------------------------------------------------ *)
(** ** Results and provenance *)

Definition EXTRACTION_THEOREM : string := "extractTypeScriptApprovalCore_decision_equivalent".
Definition FAILURE_THEOREM : string :=
  "typescript_approval_modeled_program_extractor_failure_reflects_modeled_source_failure".

Definition approval_result_from_literal (literal : string) : option TypeScriptApprovalCoreApprovalResult :=
  if decide (literal ∈ ["allow"; "approve"; "allow-once"; "allow-always"; "allowlist"; "full"]) then Some Allow
  else if decide (literal ∈ ["deny"; "block"]) then Some Deny
  else if decide (literal ∈ ["ask"; "defer"; "review"]) then Some Ask
  else if decide (literal = "escalate") then Some Escalate
  else None.

Definition approval_result_literal (result : TypeScriptApprovalCoreApprovalResult) : string :=
  match result with Allow => "allow" | Deny => "deny" | Ask => "ask" | Escalate => "escalate" end.

Definition result_to_graph (result : TypeScriptApprovalCoreApprovalResult) : Decision :=
  match result with
  | Allow => Permit
  | Ask | Escalate => GraphNode.Escalate
  | Deny => GraphNode.Deny
  end.

Definition union_decision_gates (literals : list string) : list Gate :=
  omap (λ literal, (λ result, ExactMatch literal (result_to_graph result)) <$> approval_result_from_literal literal)
    literals.

Definition handler_decision_gates (handler : TypeScriptApprovalCoreHandler) : list Gate :=
  (λ result, ExactMatch (approval_result_literal result) (result_to_graph result)) <$> h_results handler.

Definition policy_decision (kind : TypeScriptApprovalCorePolicyKind) : Decision :=
  match kind with Allowlist => Permit | Blocklist => GraphNode.Deny end.

Definition policy_default (kind : TypeScriptApprovalCorePolicyKind) : Decision :=
  match kind with Allowlist => GraphNode.Escalate | Blocklist => Permit end.

Definition policy_gates (policy : TypeScriptApprovalCorePolicy) : list Gate :=
  (λ entry, ExactMatch entry (policy_decision (p_kind policy))) <$> p_entries policy.

Definition handler_default (handler : TypeScriptApprovalCoreHandler) : Decision :=
  default GraphNode.Escalate (result_to_graph <$> h_default_result handler).

Definition recognized_node (id name path : string) (ast : TypeScriptApprovalCoreAst)
    (span : option TypeScriptApprovalCoreSourceSpan) : RecognizedNodeProvenance :=
  let span := default (mkSpan 1 1) span in
  mkNodeProvenance id name path TypeScript (line_start span) (line_end span) High Automatic
    ["theorem-backed TypeScriptApprovalCore extraction";
     "canonical AST hash " +:+ ast_canonical_hash ast;
     "Lean theorem " +:+ EXTRACTION_THEOREM;
     "Lean theorem " +:+ FAILURE_THEOREM].

Definition registration_node_id (path : string) (registration : TypeScriptApprovalCoreRegistration) : string :=
  path +:+ "::registration::" +:+ r_surface registration +:+ "::" +:+ r_handler registration.

(** [format!] of a path and a name. *)
Definition qualified (path name : string) : string := path +:+ "::" +:+ name.

Definition handlers_of (file : TypeScriptApprovalCoreFile) : list TypeScriptApprovalCoreHandler :=
  ast_handlers (f_ast file).

Abbreviation Located := (TypeScriptApprovalCoreFile * TypeScriptApprovalCoreHandler)%type.

(** [handler_id] of a location that holds [found]. *)
Definition handler_id (found : Located) : string := qualified (f_path found.1) (h_name found.2).

Definition handler_index (files : list TypeScriptApprovalCoreFile) : gmap string (list Location) :=
  name_index handlers_of h_name files.

(** [str::contains] *)
Fixpoint contains (pattern s : string) : bool :=
  starts_with s pattern || match s with EmptyString => false | String _ s => contains pattern s end.

(** The handler a registration resolves to, and the issues with a new one when
    its name is ambiguous. *)
Definition resolve_handler (files : list TypeScriptApprovalCoreFile) (index : gmap string (list Location))
    (path : string) (registration : TypeScriptApprovalCoreRegistration) (caller : string)
    (issues : list ResolutionIssue) : LResult (option Located * list ResolutionIssue) :=
  match index !! r_handler registration with
  | None => Ok (None, issues)
  | Some locations =>
      candidates ← try_map (located handlers_of files) locations;
      let issues :=
        if bool_decide (1 < length candidates)
        then issues ++ [mkResolutionIssue caller (r_handler registration) Ambiguous (handler_id <$> candidates)]
        else issues in
      Ok (match list_find (λ found : Located, f_path found.1 = path) candidates with
          | Some (_, found) => Some found
          | None => head candidates
          end, issues)
  end.

(* ------------------------------------------------------------------ *)
(** ** Building the graph *)

Section with_regex.
Context `{RegexEngine}.

Definition add_union (file : TypeScriptApprovalCoreFile) (core : CoreState)
    (union : TypeScriptApprovalCoreApprovalUnion) : LResult CoreState :=
  let gates := union_decision_gates (u_literals union) in
  match gates with
  | [] => Ok core
  | _ :: _ =>
      let id := qualified (f_path file) (u_name union) in
      node ← binary_node id gates GraphNode.Escalate;
      add_node_once core node (recognized_node id (u_name union) (f_path file) (f_ast file) (Some (u_span union)))
  end.

Definition add_policy (file : TypeScriptApprovalCoreFile) (core : CoreState)
    (policy : TypeScriptApprovalCorePolicy) : LResult CoreState :=
  let id := qualified (f_path file) (p_name policy) in
  node ← binary_node id (policy_gates policy) (policy_default (p_kind policy));
  add_node_once core node (recognized_node id (p_name policy) (f_path file) (f_ast file) (Some (p_span policy))).

Definition add_declarations (core : CoreState) (file : TypeScriptApprovalCoreFile) : LResult CoreState :=
  core ← try_fold (add_union file) core (ast_approval_unions (f_ast file));
  try_fold (add_policy file) core (ast_policies (f_ast file)).

Definition add_handler_node (core : CoreState) (found : Located) : LResult CoreState :=
  let '(file, handler) := found in
  node ← binary_node (handler_id found) (handler_decision_gates handler) (handler_default handler);
  add_node_once core node
    (recognized_node (handler_id found) (h_name handler) (f_path file) (f_ast file) (Some (h_span handler))).

(** The state of the registration loop: the graph so far, the ambiguous names
    and the ids of the registered handlers. *)
Record RegisterState := mkRegister {
  rs_core : CoreState;
  rs_issues : list ResolutionIssue;
  rs_registered : gset string;
}.

Definition register (files : list TypeScriptApprovalCoreFile) (index : gmap string (list Location))
    (file : TypeScriptApprovalCoreFile) (st : RegisterState) (registration : TypeScriptApprovalCoreRegistration)
    : LResult RegisterState :=
  let registration_id := registration_node_id (f_path file) registration in
  resolution ← resolve_handler files index (f_path file) registration registration_id (rs_issues st);
  match resolution with
  | (None, issues) => Ok (mkRegister (rs_core st) issues (rs_registered st))
  | (Some found, issues) =>
      node ← binary_node registration_id
        [registration_gate ("approval_registration:" +:+ r_surface registration)] Permit;
      core ← add_node_once (rs_core st) node
        (recognized_node registration_id "approval registration" (f_path file) (f_ast file)
           (Some (r_span registration)));
      core ← add_handler_node core found;
      core ← add_pass_edge core registration_id (handler_id found) (r_handler registration) SameFile;
      Ok (mkRegister core issues ({[handler_id found]} ∪ rs_registered st))
  end.

Definition add_default_handler (file : TypeScriptApprovalCoreFile) (st : RegisterState)
    (handler : TypeScriptApprovalCoreHandler) : LResult RegisterState :=
  if bool_decide (ast_registrations (f_ast file) = []) && starts_with (h_name handler) "should" then
    core ← add_handler_node (rs_core st) (file, handler);
    Ok (mkRegister core (rs_issues st) (rs_registered st))
  else Ok st.

Definition register_file (files : list TypeScriptApprovalCoreFile) (index : gmap string (list Location))
    (st : RegisterState) (file : TypeScriptApprovalCoreFile) : LResult RegisterState :=
  st ← try_fold (register files index file) st (ast_registrations (f_ast file));
  try_fold (add_default_handler file) st (ast_handlers (f_ast file)).

Definition add_call (files : list TypeScriptApprovalCoreFile) (index : gmap string (list Location))
    (from : string) (core : CoreState) (call : string) : LResult CoreState :=
  match index !! call with
  | None => Ok core
  | Some locations =>
      location ← ok_or (head locations) (panicked "index out of bounds");
      found ← located handlers_of files location;
      let to := handler_id found in
      if decide (from = to) then Ok core else add_pass_edge core from to call GlobalUnique
  end.

Definition add_calls (files : list TypeScriptApprovalCoreFile) (index : gmap string (list Location))
    (registered : gset string) (file : TypeScriptApprovalCoreFile) (core : CoreState)
    (handler : TypeScriptApprovalCoreHandler) : LResult CoreState :=
  let from := qualified (f_path file) (h_name handler) in
  if bool_decide (from ∉ registered) && negb (contains "should" from) then Ok core
  else try_fold (add_call files index from) core (h_calls handler).

Definition add_file_calls (files : list TypeScriptApprovalCoreFile) (index : gmap string (list Location))
    (registered : gset string) (core : CoreState) (file : TypeScriptApprovalCoreFile) : LResult CoreState :=
  try_fold (add_calls files index registered file) core (ast_handlers (f_ast file)).

Definition build_graph (files : list TypeScriptApprovalCoreFile) : LResult CoreGraphBuild :=
  b ← GraphBuilder_new;
  let index := handler_index files in
  core ← try_fold add_declarations (mkCore b [] [] ∅) files;
  st ← try_fold (register_file files index) (mkRegister core [] ∅) files;
  core ← try_fold (add_file_calls files index (rs_registered st)) (rs_core st) files;
  if bool_decide (rec_nodes core = [])
  then Err (invalid_input
    [Txt "no TypeScriptApprovalCore approval union, policy, handler, or registration was discovered"])
  else
    graph ← build (builder core);
    Ok (mkBuild graph (rec_nodes core) (rec_edges core) (rs_issues st)).
End with_regex.

(* ------------------------------------------------------------------ *)
(** ** What is built *)

Definition union_requests (file : TypeScriptApprovalCoreFile) (union : TypeScriptApprovalCoreApprovalUnion)
    : list (string * GovernanceNode) :=
  match union_decision_gates (u_literals union) with
  | [] => []
  | (_ :: _) as gates => [binary_request (qualified (f_path file) (u_name union)) gates GraphNode.Escalate]
  end.

Definition policy_request (file : TypeScriptApprovalCoreFile) (policy : TypeScriptApprovalCorePolicy)
    : string * GovernanceNode :=
  binary_request (qualified (f_path file) (p_name policy)) (policy_gates policy) (policy_default (p_kind policy)).

Definition declaration_requests (file : TypeScriptApprovalCoreFile) : list (string * GovernanceNode) :=
  (ast_approval_unions (f_ast file) ≫= union_requests file)
  ++ (ast_policies (f_ast file) ≫= λ policy, [policy_request file policy]).

Definition handler_request (found : Located) : string * GovernanceNode :=
  binary_request (handler_id found) (handler_decision_gates found.2) (handler_default found.2).

(** The handlers of a name, and the one a file means by it: its own first of
    that name, or else the first of the program. *)
Definition candidates (files : list TypeScriptApprovalCoreFile) (name : string) : list Located :=
  named_items handlers_of h_name files name.

Definition meant (files : list TypeScriptApprovalCoreFile) (path name : string) : option Located :=
  match list_find (λ found : Located, f_path found.1 = path) (candidates files name) with
  | Some (_, found) => Some found
  | None => head (candidates files name)
  end.

Definition ambiguity (files : list TypeScriptApprovalCoreFile) (file : TypeScriptApprovalCoreFile)
    (r : TypeScriptApprovalCoreRegistration) : list ResolutionIssue :=
  if bool_decide (1 < length (candidates files (r_handler r)))
  then [mkResolutionIssue (registration_node_id (f_path file) r) (r_handler r) Ambiguous
          (handler_id <$> candidates files (r_handler r))]
  else [].

Definition registration_requests (files : list TypeScriptApprovalCoreFile) (file : TypeScriptApprovalCoreFile)
    (r : TypeScriptApprovalCoreRegistration) : list (string * GovernanceNode) :=
  match meant files (f_path file) (r_handler r) with
  | None => []
  | Some found =>
      [binary_request (registration_node_id (f_path file) r)
         [registration_gate ("approval_registration:" +:+ r_surface r)] Permit;
       handler_request found]
  end.

Definition registration_edges (files : list TypeScriptApprovalCoreFile) (file : TypeScriptApprovalCoreFile)
    (r : TypeScriptApprovalCoreRegistration) : list (string * string) :=
  match meant files (f_path file) (r_handler r) with
  | None => []
  | Some found => [(registration_node_id (f_path file) r, handler_id found)]
  end.

Definition registration_handlers (files : list TypeScriptApprovalCoreFile) (file : TypeScriptApprovalCoreFile)
    (r : TypeScriptApprovalCoreRegistration) : list string :=
  match meant files (f_path file) (r_handler r) with None => [] | Some found => [handler_id found] end.

Definition default_requests (file : TypeScriptApprovalCoreFile) (handler : TypeScriptApprovalCoreHandler)
    : list (string * GovernanceNode) :=
  if bool_decide (ast_registrations (f_ast file) = []) && starts_with (h_name handler) "should"
  then [handler_request (file, handler)] else [].

Definition file_requests (files : list TypeScriptApprovalCoreFile) (file : TypeScriptApprovalCoreFile)
    : list (string * GovernanceNode) :=
  (ast_registrations (f_ast file) ≫= registration_requests files file)
  ++ (ast_handlers (f_ast file) ≫= default_requests file).

Definition requests (files : list TypeScriptApprovalCoreFile) : list (string * GovernanceNode) :=
  (files ≫= declaration_requests) ++ (files ≫= file_requests files).

Definition issues_of (files : list TypeScriptApprovalCoreFile) : list ResolutionIssue :=
  files ≫= λ file, ast_registrations (f_ast file) ≫= ambiguity files file.

Definition registered_ids (files : list TypeScriptApprovalCoreFile) : list string :=
  files ≫= λ file, ast_registrations (f_ast file) ≫= registration_handlers files file.

(** A call names the first handler of the program with that name. *)
Definition call_edge (files : list TypeScriptApprovalCoreFile) (from call : string) : list (string * string) :=
  match head (candidates files call) with
  | None => []
  | Some found => if decide (from = handler_id found) then [] else [(from, handler_id found)]
  end.

(** The handlers whose calls count: those registered, and those with [should]
    anywhere in their id. *)
Definition calls_count (files : list TypeScriptApprovalCoreFile) (id : string) : Prop :=
  id ∈ registered_ids files ∨ contains "should" id = true.

Definition call_edges (files : list TypeScriptApprovalCoreFile) (file : TypeScriptApprovalCoreFile)
    (handler : TypeScriptApprovalCoreHandler) : list (string * string) :=
  let from := qualified (f_path file) (h_name handler) in
  if bool_decide (from ∉ registered_ids files) && negb (contains "should" from) then []
  else h_calls handler ≫= call_edge files from.

Definition core_edge_list (files : list TypeScriptApprovalCoreFile) : list (string * string) :=
  (files ≫= λ file, ast_registrations (f_ast file) ≫= registration_edges files file)
  ++ (files ≫= λ file, ast_handlers (f_ast file) ≫= call_edges files file).

(** Policies without blank entries, which the gates could not hold. *)
Definition policies_nonblank (files : list TypeScriptApprovalCoreFile) : Prop :=
  ∀ file policy entry, file ∈ files → policy ∈ ast_policies (f_ast file) → entry ∈ p_entries policy →
    is_blank entry = false.

Section build_facts.
Context `{RegexEngine} (files : list TypeScriptApprovalCoreFile) (Hpolicies : policies_nonblank files).

Lemma union_gates_valid literals : Forall (λ gate, validate_gate gate = Ok ()) (union_decision_gates literals).
Proof using Type.
  apply Forall_forall. intros gate (literal & _ & (result & Hl & ->)%fmap_Some)%list_elem_of_omap.
  unfold approval_result_from_literal in Hl. simpl. unfold validate_gate_string.
  assert (is_blank literal = false) as ->; [|done].
  repeat (case_decide as Hd; [|clear Hd]); try done;
    repeat (apply elem_of_cons in Hd as [->|Hd]; [done|]); [by apply elem_of_nil in Hd..|by subst].
Qed.

Lemma handler_gates_valid handler : Forall (λ gate, validate_gate gate = Ok ()) (handler_decision_gates handler).
Proof using Type. apply Forall_forall. intros gate (result & -> & _)%list_elem_of_fmap. by destruct result. Qed.

Lemma policy_gates_valid file policy :
  file ∈ files → policy ∈ ast_policies (f_ast file) →
  Forall (λ gate, validate_gate gate = Ok ()) (policy_gates policy).
Proof using Hpolicies.
  intros Hf Hp. apply Forall_forall. intros gate (entry & -> & He)%list_elem_of_fmap.
  simpl. unfold validate_gate_string. by rewrite (Hpolicies file policy entry).
Qed.

(** Adding one binary node. *)
Lemma add_binary_spec reqs es core id gates default provenance :
  core_spec reqs es core → is_blank id = false → Forall (λ gate, validate_gate gate = Ok ()) gates →
  np_node_id provenance = id →
  ∃ core', (node ← binary_node id gates default; add_node_once core node provenance) = Ok core' ∧
    core_spec (reqs ++ [binary_request id gates default]) es core'.
Proof using Type.
  intros Hc Hb Hg <-. rewrite binary_node_Ok by done. cbn [mbind Result_bind].
  apply add_node_once_spec; [done|]. by apply binary_request_valid.
Qed.

Lemma typescript_add_union_requesting file union : requesting (add_union file) union (union_requests file union) [].
Proof using Type.
  intros reqs es core Hc. unfold add_union, union_requests. rewrite app_nil_r.
  pose proof (union_gates_valid (u_literals union)) as Hg.
  destruct (union_decision_gates (u_literals union)) as [|gate gates]; [exists core; by rewrite app_nil_r|].
  apply add_binary_spec; [done|apply qualified_not_blank|done..].
Qed.

Lemma add_policy_requesting file policy :
  file ∈ files → policy ∈ ast_policies (f_ast file) →
  requesting (add_policy file) policy [policy_request file policy] [].
Proof using Hpolicies.
  intros Hf Hp reqs es core Hc. unfold add_policy. rewrite app_nil_r.
  apply add_binary_spec; [done|apply qualified_not_blank|by eapply policy_gates_valid|done].
Qed.

Lemma add_declarations_requesting file :
  file ∈ files → requesting add_declarations file (declaration_requests file) [].
Proof using Hpolicies.
  intros Hf reqs es core Hc. unfold add_declarations.
  destruct (try_fold_requesting (add_union file) _ _ (ast_approval_unions (f_ast file))
    (λ u _, typescript_add_union_requesting file u) _ _ _ Hc) as (core1 & -> & Hc1). cbn [mbind Result_bind].
  destruct (try_fold_requesting (add_policy file) _ _ (ast_policies (f_ast file))
    (λ p Hp, add_policy_requesting file p Hf Hp) _ _ _ Hc1) as (core2 & -> & Hc2).
  exists core2. split; [done|]. rewrite !bind_nothing, !app_nil_r in *. unfold declaration_requests.
  by rewrite app_assoc.
Qed.

Lemma add_handler_requesting found : requesting add_handler_node found [handler_request found] [].
Proof using Type.
  intros reqs es core Hc. destruct found as [file handler]. rewrite app_nil_r. unfold add_handler_node.
  apply add_binary_spec; [done|apply qualified_not_blank|apply handler_gates_valid|done].
Qed.

(** Name resolution finds the candidates of the whole program. *)
Lemma candidates_located name :
  match handler_index files !! name with
  | None => candidates files name = []
  | Some locations => locations ≠ [] ∧ try_map (located handlers_of files) locations = Ok (candidates files name)
  end.
Proof using Type.
  pose proof (name_index_spec handlers_of h_name files name) as Hs.
  pose proof (name_index_nonempty handlers_of h_name files name) as Hne. unfold handler_index.
  unfold resolved in Hs. fold (candidates files name) in Hs.
  destruct (name_index _ _ _ !! name) as [locations|]; simpl in Hs.
  - split; [congruence|]. clear Hne. revert Hs. generalize (candidates files name) as found.
    induction locations as [|location locations IH]; intros [|x found] Hs; try done. simpl in Hs.
    injection Hs as Hx Hs. simpl. rewrite Hx. cbn [mbind Result_bind]. by rewrite (IH found).
  - by destruct (candidates files name).
Qed.

Lemma resolve_handler_spec path r caller issues :
  resolve_handler files (handler_index files) path r caller issues =
  Ok (meant files path (r_handler r),
      issues ++ (if bool_decide (1 < length (candidates files (r_handler r)))
                 then [mkResolutionIssue caller (r_handler r) Ambiguous (handler_id <$> candidates files (r_handler r))]
                 else [])).
Proof using Type.
  unfold resolve_handler, meant. pose proof (candidates_located (r_handler r)) as Hc.
  destruct (handler_index files !! r_handler r) as [locations|].
  - destruct Hc as [_ ->]. cbn [mbind Result_bind].
    case_bool_decide; [done|by rewrite app_nil_r].
  - rewrite Hc. simpl. by rewrite app_nil_r.
Qed.

(** *** The registration loop *)

Record register_spec (reqs : list (string * GovernanceNode)) (es : list (string * string))
    (issues : list ResolutionIssue) (ids : list string) (st : RegisterState) : Prop := {
  rsp_core : core_spec reqs es (rs_core st);
  rsp_issues : rs_issues st = issues;
  rsp_registered : ∀ id, id ∈ rs_registered st ↔ id ∈ ids;
}.

Definition registering {A} (f : RegisterState → A → LResult RegisterState) (x : A)
    (R : list (string * GovernanceNode)) (E : list (string * string)) (I : list ResolutionIssue) (K : list string)
    : Prop :=
  ∀ reqs es issues ids st, register_spec reqs es issues ids st →
    ∃ st', f st x = Ok st' ∧ register_spec (reqs ++ R) (es ++ E) (issues ++ I) (ids ++ K) st'.

Lemma try_fold_registering {A} (f : RegisterState → A → LResult RegisterState) R E I K (l : list A) :
  (∀ x, x ∈ l → registering f x (R x) (E x) (I x) (K x)) →
  registering (try_fold f) l (l ≫= R) (l ≫= E) (l ≫= I) (l ≫= K).
Proof using Type.
  intros Hf reqs es issues ids st Hst.
  destruct (try_fold_total f (λ pre st, register_spec (reqs ++ (pre ≫= R)) (es ++ (pre ≫= E))
    (issues ++ (pre ≫= I)) (ids ++ (pre ≫= K)) st) st l)
    as (st' & Hf' & Hs); [by rewrite !app_nil_r| |by exists st'].
  intros pre x t Ht Hx. destruct (Hf x Hx _ _ _ _ _ Ht) as (t' & Ht' & Hs). exists t'. split; [done|].
  rewrite !bind_app. simpl. by rewrite !app_nil_r, !app_assoc.
Qed.

Lemma register_registering file r :
  registering (register files (handler_index files) file) r (registration_requests files file r)
    (registration_edges files file r) (ambiguity files file r) (registration_handlers files file r).
Proof using Type.
  intros reqs es issues ids st [Hc Hi Hk]. unfold register. rewrite resolve_handler_spec. cbn [mbind Result_bind].
  unfold registration_requests, registration_edges, registration_handlers.
  fold (ambiguity files file r). destruct (meant files (f_path file) (r_handler r)) as [found|].
  2:{ eexists. split; [done|]. rewrite !app_nil_r. split; [done|simpl; by rewrite Hi|done]. }
  assert (is_blank ("approval_registration:" +:+ r_surface r) = false) as Hfield
    by (apply colon_not_blank; rewrite chars_app, elem_of_app; left; by do 21 right; left).
  destruct (add_binary_spec _ _ _ (registration_node_id (f_path file) r)
    [registration_gate ("approval_registration:" +:+ r_surface r)] Permit
    (recognized_node (registration_node_id (f_path file) r) "approval registration" (f_path file) (f_ast file)
       (Some (r_span r))) Hc (qualified_not_blank _ _) (registration_gate_valid _ Hfield) eq_refl)
    as (core1 & H1 & Hc1).
  destruct (binary_node _ _ _) as [node|]; [|done]. cbn [mbind Result_bind] in *. rewrite H1. cbn [mbind Result_bind].
  destruct (add_handler_requesting found _ _ _ Hc1) as (core2 & -> & Hc2). cbn [mbind Result_bind].
  destruct (add_pass_edge_spec _ _ _ (registration_node_id (f_path file) r) (handler_id found) (r_handler r) SameFile
    Hc2 (qualified_not_blank _ _) (qualified_not_blank _ _)) as (core3 & -> & Hc3).
  eexists. split; [done|]. split; cbn [rs_core rs_issues rs_registered].
  - by rewrite app_nil_r, <-app_assoc in Hc3.
  - by rewrite Hi.
  - intros id. rewrite elem_of_union, elem_of_singleton, Hk, elem_of_app, list_elem_of_singleton. tauto.
Qed.

Lemma add_default_registering file handler :
  registering (add_default_handler file) handler (default_requests file handler) [] [] [].
Proof using Type.
  intros reqs es issues ids st [Hc Hi Hk]. unfold add_default_handler, default_requests. rewrite !app_nil_r.
  destruct (_ && _); [|exists st; split; [done|]; by rewrite app_nil_r].
  destruct (add_handler_requesting (file, handler) _ _ _ Hc) as (core & -> & Hc').
  eexists. split; [done|]. rewrite app_nil_r in Hc'. done.
Qed.

Lemma register_file_registering file :
  registering (register_file files (handler_index files)) file (file_requests files file)
    (ast_registrations (f_ast file) ≫= registration_edges files file)
    (ast_registrations (f_ast file) ≫= ambiguity files file)
    (ast_registrations (f_ast file) ≫= registration_handlers files file).
Proof using Type.
  intros reqs es issues ids st Hst. unfold register_file.
  destruct (try_fold_registering (register files (handler_index files) file) _ _ _ _ (ast_registrations (f_ast file))
    (λ r _, register_registering file r) _ _ _ _ _ Hst) as (st1 & -> & Hs1). cbn [mbind Result_bind].
  destruct (try_fold_registering (add_default_handler file) _ _ _ _ (ast_handlers (f_ast file))
    (λ h _, add_default_registering file h) _ _ _ _ _ Hs1) as (st2 & -> & Hs2).
  exists st2. split; [done|]. rewrite !bind_nothing, !app_nil_r in Hs2. unfold file_requests. by rewrite app_assoc.
Qed.

(** *** The calls *)

Lemma add_call_requesting from call :
  is_blank from = false →
  requesting (add_call files (handler_index files) from) call [] (call_edge files from call).
Proof using Type.
  intros Hb reqs es core Hc. unfold add_call, call_edge. rewrite app_nil_r.
  pose proof (candidates_located call) as Hl. destruct (handler_index files !! call) as [locations|].
  2:{ rewrite Hl. exists core. by rewrite app_nil_r. }
  destruct Hl as [Hne Hl]. destruct locations as [|location locations]; [done|]. simpl in Hl.
  destruct (located handlers_of files location) as [found|] eqn:Hfound; [|done]. cbn [mbind Result_bind] in Hl.
  destruct (try_map _ _) as [rest|]; [|done]. injection Hl as <-. cbn [head ok_or mbind Result_bind].
  rewrite Hfound. cbn [mbind Result_bind]. case_decide; [exists core; by rewrite !app_nil_r|]. by apply add_pass_edge_spec; [| |apply qualified_not_blank].
Qed.

Lemma typescript_add_calls_requesting (registered : gset string) file handler :
  (∀ id, id ∈ registered ↔ id ∈ registered_ids files) →
  requesting (add_calls files (handler_index files) registered file) handler [] (call_edges files file handler).
Proof using Type.
  intros Hreg reqs es core Hc. unfold add_calls, call_edges.
  replace (bool_decide (_ ∉ registered)) with (bool_decide (qualified (f_path file) (h_name handler) ∉ registered_ids files))
    by (apply bool_decide_ext; by rewrite Hreg).
  destruct (_ && _); [exists core; by rewrite !app_nil_r|].
  destruct (try_fold_requesting (add_call files (handler_index files) (qualified (f_path file) (h_name handler))) _ _
    (h_calls handler) (λ call _, add_call_requesting _ call (qualified_not_blank _ _)) _ _ _ Hc) as (core' & -> & Hc').
  exists core'. split; [done|]. by rewrite bind_nothing in Hc'.
Qed.

Lemma typescript_build_core b :
  GraphBuilder_new = Ok b →
  ∃ core st core', try_fold add_declarations (mkCore b [] [] ∅) files = Ok core ∧
    try_fold (register_file files (handler_index files)) (mkRegister core [] ∅) files = Ok st ∧
    try_fold (add_file_calls files (handler_index files) (rs_registered st)) (rs_core st) files = Ok core' ∧
    rs_issues st = issues_of files ∧ core_spec (requests files) (core_edge_list files) core'.
Proof using Hpolicies.
  intros Hb.
  destruct (try_fold_requesting add_declarations _ _ files add_declarations_requesting _ _ _ (core_spec_new b Hb))
    as (core & Hf & Hc). rewrite bind_nothing in Hc. simpl in Hc.
  destruct (try_fold_registering (register_file files (handler_index files)) _ _ _ _ files
    (λ file _, register_file_registering file) (files ≫= declaration_requests) [] [] [] (mkRegister core [] ∅))
    as (st & Hst & [Hc' Hi Hk]); [split; [done|done|set_solver]|].
  destruct (try_fold_requesting (add_file_calls files (handler_index files) (rs_registered st)) (λ _, [])
    (λ file, ast_handlers (f_ast file) ≫= call_edges files file) files) with
    (requests := requests files) (es := files ≫= λ file, ast_registrations (f_ast file) ≫= registration_edges files file)
    (st := rs_core st) as (core' & Hf' & Hs'); [|exact Hc'|].
  - intros file _ reqs es cr Hcr.
    destruct (try_fold_requesting (add_calls files (handler_index files) (rs_registered st) file) (λ _, [])
      (call_edges files file) (ast_handlers (f_ast file)) (λ h _, typescript_add_calls_requesting _ file h Hk) _ _ _ Hcr)
      as (cr' & ? & Hcr'). exists cr'. split; [done|]. by rewrite bind_nothing in Hcr'.
  - exists core, st, core'. split_and!; [done..|]. by rewrite bind_nothing, app_nil_r in Hs'.
Qed.

Lemma typescript_requested_by_registration file r found :
  file ∈ files → r ∈ ast_registrations (f_ast file) → meant files (f_path file) (r_handler r) = Some found →
  registration_node_id (f_path file) r ∈ (requests files).*1 ∧ handler_id found ∈ (requests files).*1.
Proof using Type.
  intros Hf Hr Hm.
  assert (∀ q, q ∈ registration_requests files file r → q.1 ∈ (requests files).*1) as Hq.
  { intros q Hq. apply list_elem_of_fmap. exists q. split; [done|]. unfold requests. rewrite elem_of_app. right.
    apply list_elem_of_bind. exists file. split; [|done]. unfold file_requests. rewrite elem_of_app. left.
    apply list_elem_of_bind. by exists r. }
  unfold registration_requests in Hq. rewrite Hm in Hq. split; eapply (Hq (_, _)); [left|right; left].
Qed.

(** The edge that names a missing node is a call, to a handler without a node
    or from one whose id merely contains [should]. *)
Lemma typescript_missing_edge ft id :
  ft ∈ core_edge_list files → id = ft.1 ∨ id = ft.2 → id ∉ (requests files).*1 →
  ∃ file handler call callee, file ∈ files ∧ handler ∈ ast_handlers (f_ast file) ∧ call ∈ h_calls handler ∧
    head (candidates files call) = Some callee ∧ calls_count files (qualified (f_path file) (h_name handler)) ∧
    (id = qualified (f_path file) (h_name handler) ∨ id = handler_id callee).
Proof using Type.
  unfold core_edge_list. intros [Hft|Hft]%elem_of_app Hid Hno;
    apply list_elem_of_bind in Hft as (file & (x & Hft & Hx)%list_elem_of_bind & Hf).
  - unfold registration_edges in Hft.
    destruct (meant files (f_path file) (r_handler x)) as [found|] eqn:Hm; [|by apply elem_of_nil in Hft].
    destruct (typescript_requested_by_registration file x found Hf Hx Hm) as [H1 H2].
    apply list_elem_of_singleton in Hft as ->. simpl in Hid. naive_solver.
  - unfold call_edges in Hft. destruct (_ && _) eqn:Hskip; [by apply elem_of_nil in Hft|].
    apply list_elem_of_bind in Hft as (call & Hft & Hcall). unfold call_edge in Hft.
    destruct (head (candidates files call)) as [callee|] eqn:Hcallee; [|by apply elem_of_nil in Hft].
    case_decide; [by apply elem_of_nil in Hft|]. apply list_elem_of_singleton in Hft as ->. simpl in Hid.
    exists file, x, call, callee. split_and!; try done.
    unfold calls_count. apply andb_false_iff in Hskip as [Hskip|Hskip].
    + left. apply bool_decide_eq_false in Hskip. by destruct (decide (qualified (f_path file) (h_name x) ∈ registered_ids files)).
    + right. by apply negb_false_iff in Hskip.
Qed.
End build_facts.

(* ------------------------------------------------------------------ *)
(** ** Properties *)

(** The TypeScript extractor is exact: on policies without blank entries it
    fails in two cases only, when the program has no node at all, and when a
    handler whose calls count (it is registered, or its id contains [should]) or
    a handler it calls is no node of the graph.  Otherwise the graph holds the
    node of every union with an approval literal, of every policy, of every
    registration with the handler it means (the file's own first of the name,
    else the program's first) and of the [should] handlers of files that
    register nothing, the first of an id counting, with the edges from each
    registration to its handler and then those of the counting calls; the graph
    is well formed, the provenance is complete and exactly the ambiguous names
    are reported, with all their candidates. *)
Theorem typescript_extraction_exact `{RegexEngine} files :
  policies_nonblank files →
  match build_graph files with
  | Ok result => requests files ≠ [] ∧
      cb_graph result = requested_graph (requests files) (core_edge_list files) ∧
      graph_wf (cb_graph result) ∧ cb_resolution_issues result = issues_of files ∧
      (λ e, (ep_from e, ep_to e)) <$> cb_edges result = core_edge_list files ∧
      NoDup (np_node_id <$> cb_nodes result) ∧
      ∀ id, id ∈ np_node_id <$> cb_nodes result ↔ is_Some (nodes (cb_graph result) !! id)
  | Err e => requests files = [] ∨
      ∃ file handler call callee id, file ∈ files ∧ handler ∈ ast_handlers (f_ast file) ∧ call ∈ h_calls handler ∧
        head (candidates files call) = Some callee ∧ calls_count files (qualified (f_path file) (h_name handler)) ∧
        (id = qualified (f_path file) (h_name handler) ∨ id = handler_id callee) ∧
        id ∉ (requests files).*1 ∧ e = InvalidEdgeReference id
  end.
Proof.
  intros Hpol. unfold build_graph. destruct GraphBuilder_new as [b|] eqn:Hb; [|done]. cbn [mbind Result_bind].
  destruct (typescript_build_core files Hpol b Hb) as (core & st & core' & -> & Hst & Hf & Hi & Hc).
  cbn [mbind Result_bind]. rewrite Hst. cbn [mbind Result_bind]. rewrite Hf. cbn [mbind Result_bind].
  pose proof (core_rec_nodes _ _ _ Hc) as Hrec. case_bool_decide as Hemp.
  - left. destruct (requests files) as [|[id node] reqs]; [done|]. specialize (Hrec id). rewrite Hemp in Hrec.
    exfalso. apply (elem_of_nil id), Hrec. left.
  - pose proof (core_build _ _ _ Hc) as Hbuild. destruct (build (builder core')) as [graph|e].
    + destruct Hbuild as [-> He]. cbn [mbind Result_bind cb_graph cb_edges cb_nodes cb_resolution_issues]. split_and!.
      * intros Hnil. rewrite Hnil in Hrec. destruct (rec_nodes core') as [|n ns]; [done|].
        apply (elem_of_nil (np_node_id n)), Hrec. left.
      * done.
      * apply requested_graph_wf; [apply (core_valid _ _ _ Hc)|done].
      * done.
      * apply (core_rec_edges _ _ _ Hc).
      * apply (core_rec_nodup _ _ _ Hc).
      * intros id. by rewrite Hrec, elem_of_requests_map.
    + right. destruct Hbuild as (ft & id & Hin & Hid & Hno & ->).
      destruct (typescript_missing_edge files ft id Hin Hid Hno) as (file & handler & call & callee & Hm).
      exists file, handler, call, callee, id. naive_solver.
Qed.
