(* ===== verification/Mechanism.v ===== *)
(** * Strategyproofness of rules, nodes and graphs (src/mechanism.rs)

    The trait [StrategyproofnessClaim] is a class, its implementations for
    [Claim] and [GovernanceClaim] are instances, and the manipulation search is
    written once against it.  A score is an [f64]; for decisions it is the rank
    of the decision, on which the float comparison is exact. *)

From S2P Require Import Prelude F64 Errors Core GraphNode Tarjan GraphTraverse GraphCycle BinaryDiagnostics GraphDiagnostics.
From stdpp Require Import options.

Definition MISREPORT_FACTORS : list f64 := Eval vm_compute in
  [f64_lit 1 2; f64_lit 4 5; f64_lit 6 5; f64_lit 3 2; f64_of_Z 2].
Definition STRATEGYPROOF_CONTEXT : string := "strategyproofness baseline".
Definition MANIPULATION_CONTEXT : string := "strategyproofness misreport".

Record StrategyproofnessWitness := mkSpWitness {
  sw_claimant : string;
  sw_true_strength : f64;
  sw_reported : f64;
  sw_true_alloc : f64;
  sw_manipulated_alloc : f64;
}.

Inductive StrategyproofnessVerdict : Type :=
  | Strategyproof
  | Manipulable (claimant : string) (true_strength reported true_alloc manipulated_alloc : f64).

Definition manipulable (witness : StrategyproofnessWitness) : StrategyproofnessVerdict :=
  Manipulable (sw_claimant witness) (sw_true_strength witness) (sw_reported witness)
    (sw_true_alloc witness) (sw_manipulated_alloc witness).

Definition strategyproofness_witness (v : StrategyproofnessVerdict)
    : option StrategyproofnessWitness :=
  match v with
  | Strategyproof => None
  | Manipulable c t r a m => Some (mkSpWitness c t r a m)
  end.

Definition strategyproofness_exposure (v : StrategyproofnessVerdict) : f64 :=
  match strategyproofness_witness v with Some _ => f64_one | None => f64_zero end.

(** The trait [StrategyproofnessClaim]. *)
Class StrategyproofnessClaim (C : Type) := {
  sp_claimant_id : C → string;
  strength_value : C → f64;
  with_reported_strength : C → f64 → LResult C;
}.

Definition Claim_with_reported_strength (self : Claim) (reported : f64) : LResult Claim :=
  strength ← PositiveStrength_new reported;
  Ok (mkClaim (claim_id self) strength (claim_metrics self)).

Definition GovernanceClaim_with_reported_strength (self : GovernanceClaim) (reported : f64)
    : LResult GovernanceClaim := Ok (set_strength self reported).

Global Instance StrategyproofnessClaim_Claim : StrategyproofnessClaim Claim := {|
  sp_claimant_id := claim_id;
  strength_value := claim_strength;
  with_reported_strength := Claim_with_reported_strength;
|}.

Global Instance StrategyproofnessClaim_GovernanceClaim
    : StrategyproofnessClaim GovernanceClaim := {|
  sp_claimant_id := gc_claimant_id;
  strength_value := gc_strength;
  with_reported_strength := GovernanceClaim_with_reported_strength;
|}.

Abbreviation Scores := (gmap string f64).

Definition score_for (scores : Scores) (claimant_id context : string) : LResult f64 :=
  ok_or (scores !! claimant_id) (missing_allocation_share claimant_id context).

Definition strictly_improves (candidate baseline : f64) : bool :=
  let tolerance := f64_add EPSILON (f64_mul EPSILON (f64_add (f64_abs candidate) (f64_abs baseline))) in
  f64_ltb (f64_add baseline tolerance) candidate.

Section search.
Context {C : Type} `{StrategyproofnessClaim C}.
Implicit Types claims : list C.

(** The claims with the report of the claim at [index] replaced. *)
Definition misreport (claims : list C) (index : nat) (reported : f64) : LResult (list C) :=
  try_map (λ '(candidate_index, candidate),
      if decide (candidate_index = index) then with_reported_strength candidate reported
      else Ok candidate) (enumerate claims).

(** One factor of the inner loop. *)
Definition misreport_factor_step (evaluate_scores : list C → LResult Scores) (claims : list C)
    (index : nat) (claim : C) (true_alloc : f64) (_ : unit) (factor : f64)
    : LResult (Flow unit StrategyproofnessVerdict) :=
  let reported := f64_mul (strength_value claim) factor in
  manipulated_claims ← misreport claims index reported;
  manipulated_scores ← evaluate_scores manipulated_claims;
  manipulated_alloc ← score_for manipulated_scores (sp_claimant_id claim) MANIPULATION_CONTEXT;
  Ok (if strictly_improves manipulated_alloc true_alloc then
        Break (manipulable (mkSpWitness (sp_claimant_id claim) (strength_value claim) reported
                              true_alloc manipulated_alloc))
      else Continue ()).

Definition check_reported_strength_manipulations (claims : list C) (baseline_scores : Scores)
    (evaluate_scores : list C → LResult Scores) : LResult StrategyproofnessVerdict :=
  fl ← try_loop (λ _ '(index, claim),
         true_alloc ← score_for baseline_scores (sp_claimant_id claim) STRATEGYPROOF_CONTEXT;
         try_loop (misreport_factor_step evaluate_scores claims index claim true_alloc) ()
           MISREPORT_FACTORS) () (enumerate claims);
  Ok match fl with Continue _ => Strategyproof | Break v => v end.

(** What the search looks for: a claim, a factor, and the scores of the
    misreport it leads to, which improve the claimant. *)
Definition manipulation (claims : list C) (baseline_scores : Scores)
    (evaluate_scores : list C → LResult Scores) (w : StrategyproofnessWitness) : Prop :=
  ∃ index claim factor claims' scores',
    claims !! index = Some claim ∧ factor ∈ MISREPORT_FACTORS ∧
    sw_claimant w = sp_claimant_id claim ∧
    sw_true_strength w = strength_value claim ∧
    sw_reported w = f64_mul (strength_value claim) factor ∧
    misreport claims index (sw_reported w) = Ok claims' ∧
    evaluate_scores claims' = Ok scores' ∧
    baseline_scores !! sp_claimant_id claim = Some (sw_true_alloc w) ∧
    scores' !! sp_claimant_id claim = Some (sw_manipulated_alloc w) ∧
    strictly_improves (sw_manipulated_alloc w) (sw_true_alloc w) = true.

Lemma misreport_factor_step_spec evaluate_scores claims i c ta u factor fl :
  misreport_factor_step evaluate_scores claims i c ta u factor = Ok fl →
  ∃ claims' scores' ma,
    misreport claims i (f64_mul (strength_value c) factor) = Ok claims' ∧
    evaluate_scores claims' = Ok scores' ∧ scores' !! sp_claimant_id c = Some ma ∧
    fl = if strictly_improves ma ta then
           Break (Manipulable (sp_claimant_id c) (strength_value c)
                    (f64_mul (strength_value c) factor) ta ma) else Continue ().
Proof.
  unfold misreport_factor_step, score_for. intros Hs. invert_binds.
  eexists _, _, _. split_and!; [done|done|done|done].
Qed.

(** The verdict is sound: a reported manipulation is one; and complete: a
    strategyproof verdict excludes every manipulation searched. *)
Lemma check_reported_spec claims scores evaluate v :
  check_reported_strength_manipulations claims scores evaluate = Ok v →
  match strategyproofness_witness v with
  | Some w => manipulation claims scores evaluate w
  | None => ∀ w, ¬ manipulation claims scores evaluate w
  end.
Proof.
  unfold check_reported_strength_manipulations. intros Hv.
  destruct (try_loop _ _ _) as [fl|] eqn:Hl; cbn [mbind Result_bind] in Hv; [|done].
  injection Hv as <-. destruct fl as [[]|v]; cbn [strategyproofness_witness].
  - intros w (i & c & factor & cs' & sc' & Hi & Hf & Hw1 & Hw2 & Hw3 & Hm & He & Ht & Hma & Himp).
    destruct (try_loop_Continue _ _ _ _ Hl (i, c)) as ([] & [] & Hc); [by apply elem_of_enumerate|].
    cbn beta iota in Hc. unfold score_for in Hc. rewrite Ht in Hc. cbn [ok_or mbind Result_bind] in Hc.
    destruct (try_loop_Continue _ _ _ _ Hc factor Hf) as ([] & [] & Hs).
    apply misreport_factor_step_spec in Hs as (cs2 & sc2 & ma & Hm2 & He2 & Hma2 & Hfl).
    rewrite Hw3 in Hm. assert (cs2 = cs') as -> by congruence.
    assert (sc2 = sc') as -> by congruence. rewrite Hma2 in Hma. injection Hma as ->.
    by rewrite Himp in Hfl.
  - destruct (try_loop_Break _ _ _ _ Hl) as ([i c] & [] & Hi%elem_of_enumerate & Hc).
    unfold score_for in Hc. invert_binds. rename a into ta. rename Hc into Hb.
    destruct (try_loop_Break _ _ _ _ Hb) as (factor & [] & Hf & Hs).
    apply misreport_factor_step_spec in Hs as (cs2 & sc2 & ma & Hm2 & He2 & Hma2 & Hfl).
    destruct (strictly_improves ma ta) eqn:Himp; [|done]. injection Hfl as ->.
    exists i, c, factor, cs2, sc2. simpl. by split_and!.
Qed.

End search.

(* ------------------------------------------------------------------ *)
(** ** Scores and the checks *)

Definition allocation_scores (allocation : ValidAllocation) : Scores :=
  foldl (λ scores '(id, share), <[id := share]> scores) ∅ (btree_iter allocation).

Definition decision_scores (decisions : list ClaimDecision) : Scores :=
  foldl (λ scores decision,
    <[cd_claimant_id decision := f64_of_nat (decision_rank (cd_decision decision))]> scores)
    ∅ decisions.

Definition final_decision_scores (decisions : gmap string Decision) : Scores :=
  (λ decision, f64_of_nat (decision_rank decision)) <$> decisions.

Section checks.
Context `{RegexEngine}.

Definition check_binary_strategyproofness (node : GovernanceNode) (claims : list GovernanceClaim)
    : LResult StrategyproofnessVerdict :=
  baseline ← evaluate_node node claims;
  check_reported_strength_manipulations claims (decision_scores baseline) (λ candidate_claims,
    manipulated ← evaluate_node node candidate_claims;
    Ok (decision_scores manipulated)).

Definition check_graph_strategyproofness_verdict (graph : GovernanceGraph)
    (claims : list GovernanceClaim) : LResult StrategyproofnessVerdict :=
  baseline ← traverse graph claims;
  check_reported_strength_manipulations claims (final_decision_scores (final_decisions baseline))
    (λ candidate_claims,
      manipulated ← traverse graph candidate_claims;
      Ok (final_decision_scores (final_decisions manipulated))).

(* ------------------------------------------------------------------ *)
(** ** The float comparison is exact on ranks *)

Lemma strictly_improves_rank d d' :
  strictly_improves (f64_of_nat (decision_rank d')) (f64_of_nat (decision_rank d)) =
  bool_decide (decision_rank d < decision_rank d').
Proof. by destruct d, d'; vm_compute. Qed.

Lemma final_decision_scores_lookup m id :
  final_decision_scores m !! id = (λ d, f64_of_nat (decision_rank d)) <$> m !! id.
Proof. apply lookup_fmap. Qed.

Lemma misreport_governance (cs : list GovernanceClaim) i c r :
  cs !! i = Some c → misreport cs i r = Ok (<[i := set_strength c r]> cs).
Proof.
  intros Hi. unfold misreport. cbn [with_reported_strength StrategyproofnessClaim_GovernanceClaim].
  rewrite (try_map_ext _ (λ p, Ok ((λ p, if decide (p.1 = i) then set_strength p.2 r else p.2) p))).
  2:{ intros [k x] _. simpl. by case_decide. }
  rewrite try_map_pure. f_equal. apply list_eq. intros k.
  rewrite list_lookup_fmap, list_lookup_insert.
  rewrite lookup_enumerate. destruct (cs !! k) as [x|] eqn:Hk; simpl.
  - apply lookup_lt_Some in Hk as Hlt. destruct (decide (k = i)) as [->|Hne].
    + rewrite decide_True by done. congruence.
    + rewrite decide_False; [done|]. by intros [-> _].
  - apply lookup_ge_None in Hk. by rewrite decide_False by lia.
Qed.

(* ------------------------------------------------------------------ *)
(** ** Properties *)

(** The claimant of [claim], multiplying the reported strength by [factor], moves
    from the decision [before] to the better decision [after]. *)
Definition gains (g : GovernanceGraph) (cs : list GovernanceClaim) (r : TraversalResult)
    (claim : GovernanceClaim) (factor : f64) (before after : Decision) : Prop :=
  ∃ index r', cs !! index = Some claim ∧ factor ∈ MISREPORT_FACTORS ∧
    traverse g (<[index := set_strength claim (f64_mul (gc_strength claim) factor)]> cs) = Ok r' ∧
    final_decisions r !! gc_claimant_id claim = Some before ∧
    final_decisions r' !! gc_claimant_id claim = Some after ∧
    decision_rank before < decision_rank after.

(** The strategyproofness check of a graph is exact over the misreports it
    tries: it answers [Strategyproof] precisely when no claimant can reach a
    better final decision by multiplying the reported strength by one of the
    five factors, and a [Manipulable] answer carries a claimant, a report and
    the two ranks of such an improvement. *)
Theorem graph_strategyproofness_correct g cs v :
  check_graph_strategyproofness_verdict g cs = Ok v →
  ∃ r, traverse g cs = Ok r ∧
    match v with
    | Strategyproof => ∀ claim factor before after, ¬ gains g cs r claim factor before after
    | Manipulable claimant true_strength reported true_alloc manipulated_alloc =>
        ∃ claim factor before after, gains g cs r claim factor before after ∧
          claimant = gc_claimant_id claim ∧ true_strength = gc_strength claim ∧
          reported = f64_mul (gc_strength claim) factor ∧
          true_alloc = f64_of_nat (decision_rank before) ∧
          manipulated_alloc = f64_of_nat (decision_rank after)
    end.
Proof.
  unfold check_graph_strategyproofness_verdict. intros Hv.
  destruct (traverse g cs) as [r|] eqn:Hr; cbn [mbind Result_bind] in Hv; [|done].
  exists r. split; [done|]. apply check_reported_spec in Hv.
  destruct v as [|c t rep ta ma]; cbn [strategyproofness_witness] in Hv.
  - intros claim factor before after (i & r' & Hi & Hf & Htr & Hb & Ha & Hlt).
    apply (Hv (mkSpWitness (gc_claimant_id claim) (gc_strength claim)
             (f64_mul (gc_strength claim) factor) (f64_of_nat (decision_rank before))
             (f64_of_nat (decision_rank after)))).
    exists i, claim, factor, (<[i := set_strength claim (f64_mul (gc_strength claim) factor)]> cs),
      (final_decision_scores (final_decisions r')). simpl.
    rewrite (misreport_governance cs i claim) by done. rewrite Htr. simpl.
    rewrite !final_decision_scores_lookup, Hb, Ha, strictly_improves_rank, bool_decide_true by done.
    by split_and!.
  - destruct Hv as (i & claim & factor & cs' & sc' & Hi & Hf & Hc & Hts & Hrep & Hm & He & Hta & Hma & Himp).
    simpl in *. subst c t rep. rewrite (misreport_governance cs i claim) in Hm by done.
    injection Hm as <-.
    match type of He with mbind _ ?x = _ => destruct x as [r'|] eqn:Hr'; [|done] end.
    injection He as <-. rewrite final_decision_scores_lookup in Hta, Hma.
    apply fmap_Some in Hta as (before & Hb & ->). apply fmap_Some in Hma as (after & Ha & ->).
    rewrite strictly_improves_rank in Himp. apply bool_decide_eq_true in Himp.
    exists claim, factor, before, after. split_and!; [|done..]. exists i, r'. by split_and!.
Qed.

End checks.
