(* ===== verification/Rules.v ===== *)
(** * Rules and the built-in allocation rules (src/lib.rs, src/rules.rs, src/rules/divisor.rs)

    A [RuleSpec] is either a programmatic allocator, the Gallina function that
    stands for the [Arc<dyn AllocateRule>], or a declarative kind dispatched to
    the built-in rules.  [Rule_allocate] adds the validation every allocation
    goes through; [evaluate_rule] adds that of the claims.  Floats follow the
    operations of the source one by one, the compensated summation and the
    mantissa/exponent arithmetic of the proportional rule included.  Seat counts
    are natural numbers: a house has at most 2^64 - 1 seats. *)

From S2P Require Import Prelude F64 F64Bits Errors Core.
From Stdlib Require Import Floats.SpecFloat.
From stdpp Require Import options.

(** Collecting pairs into a [BTreeMap]: a later pair replaces an earlier one. *)
Definition collect_map {V} (l : list (string * V)) : gmap string V :=
  foldl (λ m p, <[p.1 := p.2]> m) ∅ l.

Definition DEFAULT_APPROVAL_THRESHOLD : f64 := Eval vm_compute in f64_lit 8 10.
Definition HALF : f64 := Eval vm_compute in f64_lit 1 2.

(* ------------------------------------------------------------------ *)
(** ** The proportional rule *)

(** The exact decomposition [x = mantissa * 2^exponent], [1 <= mantissa < 2]. *)
Definition positive_binary_parts (value : f64) : f64 * Z :=
  let '(normal, adjustment) :=
    if f64_ltb value f64_MIN_POSITIVE
    then (f64_mul value (f64_of_Z 4503599627370496), -52)%Z else (value, 0%Z) in
  let bits := f64_to_bits normal in
  let exponent := (Z.land (Z.shiftr bits 52) 0x7ff - 1023 + adjustment)%Z in
  let mantissa :=
    f64_from_bits (Z.lor (Z.land bits (Z.shiftl 1 52 - 1)) (Z.shiftl 1023 52)) in
  (mantissa, exponent).

Definition scaled_proportional_share (strength scale scaled_total estate : f64) : f64 :=
  if f64_eqb estate f64_zero then f64_zero
  else
    let '(strength_mantissa, strength_exponent) := positive_binary_parts strength in
    let '(scale_mantissa, scale_exponent) := positive_binary_parts scale in
    let '(estate_mantissa, estate_exponent) := positive_binary_parts estate in
    let mantissa :=
      f64_mul (f64_div (f64_div strength_mantissa scale_mantissa) scaled_total) estate_mantissa in
    let exponent := (strength_exponent - scale_exponent + estate_exponent)%Z in
    if (exponent <? -1022)%Z
    then f64_mul (f64_mul mantissa (f64_powi_two (exponent + 1022))) f64_MIN_POSITIVE
    else f64_mul mantissa (f64_powi_two exponent).

(** One term of the compensated sum of the strength ratios. *)
Definition compensated_step (scale : f64) (state : f64 * f64) (claim : Claim) : f64 * f64 :=
  let '(scaled_total, correction) := state in
  let term := f64_sub (f64_div (claim_strength claim) scale) correction in
  let next := f64_add scaled_total term in
  (next, f64_sub (f64_sub next scaled_total) term).

Definition proportional_scale (claims : list Claim) : f64 :=
  foldl f64_max f64_zero (claim_strength <$> claims).

Definition proportional_allocate (claims : list Claim) (estate : Estate) : LResult Allocation :=
  _ ← validate_claims claims "proportional rule";
  if decide (claims = []) then Ok ∅
  else
    let scale := proportional_scale claims in
    let '(scaled_total, _) := foldl (compensated_step scale) (f64_zero, f64_zero) claims in
    Ok (foldl (λ allocation claim,
          <[claim_id claim := scaled_proportional_share (claim_strength claim) scale scaled_total
                                (estate_total estate)]> allocation) ∅ claims).

(* ------------------------------------------------------------------ *)
(** ** The rules of the agent SDK: one share per claim *)

(** The share of one tool under the permissions rule. *)
Definition permissions_share (claim : Claim) : f64 :=
  let listed := f64_leb HALF (Claim_metric claim "listed") in
  let available := f64_leb HALF (Claim_metric claim "available") in
  let denied := f64_leb HALF (Claim_metric claim "denied") in
  let base_authorization := f64_clamp (Claim_metric claim "base_authorization") f64_zero f64_one in
  if available && listed && negb denied then base_authorization else f64_zero.

Definition claude_agent_sdk_permissions_allocate (claims : list Claim) (_ : Estate)
    : LResult Allocation :=
  _ ← validate_claims claims "claude-agent-sdk permissions rule";
  Ok (collect_map ((λ claim, (claim_id claim, permissions_share claim)) <$> claims)).

(** The share of one invocation under the hooks rule. *)
Definition hooks_share (claim : Claim) : f64 :=
  let baseline_allow := f64_clamp (Claim_metric claim "baseline_allow") f64_zero f64_one in
  let dangerous_pattern := f64_leb HALF (Claim_metric claim "dangerous_pattern") in
  let sensitive_path := f64_leb HALF (Claim_metric claim "sensitive_path") in
  let block_threshold :=
    if f64_ltb f64_zero (Claim_metric claim "block_threshold")
    then Claim_metric claim "block_threshold" else DEFAULT_APPROVAL_THRESHOLD in
  let blocked :=
    dangerous_pattern || (sensitive_path && f64_leb block_threshold (claim_strength claim)) in
  if blocked then f64_zero else baseline_allow.

Definition claude_agent_sdk_hooks_allocate (claims : list Claim) (_ : Estate)
    : LResult Allocation :=
  _ ← validate_claims claims "claude-agent-sdk hooks rule";
  Ok (collect_map ((λ claim, (claim_id claim, hooks_share claim)) <$> claims)).

Definition custom_allocate (name : string) (claims : list Claim) (estate : Estate)
    : LResult Allocation :=
  if decide (name = "claude_agent_sdk_permissions")
  then claude_agent_sdk_permissions_allocate claims estate
  else if decide (name = "claude_agent_sdk_hooks")
  then claude_agent_sdk_hooks_allocate claims estate
  else Err (invalid_input [Txt "unknown custom declarative rule kind '"; Txt name; Txt "'"]).

(* ------------------------------------------------------------------ *)
(** ** The essay's composite rule *)

Definition clamp01 (value : f64) : f64 := f64_clamp value f64_zero f64_one.

Definition diversity_score (claim : Claim) : f64 :=
  let overspecialization :=
    f64_max (f64_sub (claim_strength claim) (Claim_metric claim "specialization_floor")) f64_zero in
  clamp01 (f64_sub (Claim_metric claim "diversity")
             (f64_mul (Claim_metric claim "specialization_penalty") overspecialization)).

Definition peer_relative_score (claim : Claim) (estate : Estate) : f64 :=
  let scarcity :=
    f64_div (f64_max (f64_sub (f64_of_Z 100) (estate_total estate)) f64_zero) (f64_of_Z 100) in
  clamp01 (f64_add (Claim_metric claim "peer_relative")
             (f64_mul (Claim_metric claim "scarcity_bonus") scarcity)).

Definition essay_composite_score (claim : Claim) (estate : Estate) : f64 :=
  f64_add (f64_add (f64_mul (f64_lit 4 10) (clamp01 (claim_strength claim)))
                   (f64_mul (f64_lit 3 10) (diversity_score claim)))
          (f64_mul (f64_lit 3 10) (peer_relative_score claim estate)).

Definition median_score (scores : list f64) : f64 :=
  if decide (scores = []) then f64_zero
  else
    let scores := f64_sort scores in
    let middle := length scores / 2 in
    if decide (length scores mod 2 = 1) then nth middle scores f64_zero
    else f64_div (f64_add (nth (middle - 1) scores f64_zero) (nth middle scores f64_zero))
           (f64_of_Z 2).

Definition zero_allocation (claims : list Claim) : Allocation :=
  foldl (λ allocation claim, <[claim_id claim := f64_zero]> allocation) ∅ claims.

Definition essay_composite_allocate (claims : list Claim) (estate : Estate) : LResult Allocation :=
  _ ← validate_claims claims "essay composite rule";
  let scored := (λ claim, (claim_id claim, essay_composite_score claim estate)) <$> claims in
  let median := median_score (scored.*2) in
  let promoted := filter (λ p, f64_ltb (f64_add median EPSILON) p.2 = true) scored in
  let promoted_total := f64_sum (promoted.*2) in
  let allocation := zero_allocation claims in
  if f64_leb promoted_total EPSILON then Ok allocation
  else Ok (foldl (λ allocation p,
         <[p.1 := f64_div (f64_mul (estate_total estate) p.2) promoted_total]> allocation)
         allocation promoted).

(* ------------------------------------------------------------------ *)
(** ** The divisor methods *)

Inductive DivisorFamily : Type := Jefferson | Webster.

Definition quotient (strength : f64) (awarded : nat) (family : DivisorFamily) : f64 :=
  match family with
  | Jefferson => f64_div strength (f64_of_nat (awarded + 1))
  | Webster => f64_div strength (f64_of_nat (2 * awarded + 1))
  end.

(** One claim of the search for the highest quotient. *)
Definition best_step (awarded : list nat) (family : DivisorFamily) (best : option nat * f64)
    (entry : nat * Claim) : option nat * f64 :=
  let '(best_index, best_quotient) := best in
  let '(index, claim) := entry in
  let q := quotient (claim_strength claim) (awarded !!! index) family in
  if f64_ltb (f64_add best_quotient EPSILON) q then (Some index, q) else best.

(** One seat. *)
Definition award_seat (claims : list Claim) (family : DivisorFamily) (awarded : list nat) : list nat :=
  match (foldl (best_step awarded family) (None, f64_neg_infinity) (enumerate claims)).1 with
  | Some best_index => alter S best_index awarded
  | None => awarded
  end.

Definition house_size (estate : Estate) : nat := Z.to_nat (f64_to_u64 (f64_floor (estate_total estate))).

Definition divisor_context (family : DivisorFamily) : string :=
  match family with Jefferson => "jefferson rule" | Webster => "webster rule" end.

Definition highest_averages_allocate (claims : list Claim) (estate : Estate)
    (family : DivisorFamily) : LResult Allocation :=
  _ ← validate_claims claims (divisor_context family);
  let awarded := Nat.iter (house_size estate) (award_seat claims family)
                   (replicate (length claims) 0) in
  Ok (collect_map ((λ '(index, claim), (claim_id claim, f64_of_nat (awarded !!! index)))
                     <$> enumerate claims)).

Definition jefferson_allocate (claims : list Claim) (estate : Estate) : LResult Allocation :=
  highest_averages_allocate claims estate Jefferson.
Definition webster_allocate (claims : list Claim) (estate : Estate) : LResult Allocation :=
  highest_averages_allocate claims estate Webster.

(* ------------------------------------------------------------------ *)
(** ** Rule specifications *)

(** The trait [AllocateRule], implemented by closures and by rules. *)
Class AllocateRule (F : Type) := dyn_allocate : F → list Claim → Estate → LResult Allocation.

Global Instance AllocateRule_fn : AllocateRule (list Claim → Estate → LResult Allocation) :=
  λ f claims estate, f claims estate.

Inductive DeclarativeRuleKind : Type :=
  | Proportional
  | Custom (name : string).

Definition DeclarativeRuleKind_parse (kind : string) : LResult DeclarativeRuleKind :=
  if decide (kind = "proportional") then Ok Proportional else Ok (Custom kind).

Definition DeclarativeRuleKind_as_str (kind : DeclarativeRuleKind) : string :=
  match kind with Proportional => "proportional" | Custom name => name end.

Inductive RuleSpec : Type :=
  | Programmatic (rule : list Claim → Estate → LResult Allocation)
  | Declarative (kind : DeclarativeRuleKind).

(** [Arc::new(rule)] as a trait object *)
Definition allocator {F} `{AllocateRule F} (rule : F) : list Claim → Estate → LResult Allocation :=
  dyn_allocate rule.

Definition RuleSpec_programmatic {F} `{AllocateRule F} (rule : F) : RuleSpec :=
  Programmatic (allocator rule).

Definition RuleSpec_declarative (kind : string) : LResult RuleSpec :=
  k ← DeclarativeRuleKind_parse kind; Ok (Declarative k).

Definition RuleSpec_allocate (spec : RuleSpec) (claims : list Claim) (estate : Estate)
    : LResult Allocation :=
  match spec with
  | Programmatic rule => rule claims estate
  | Declarative Proportional => proportional_allocate claims estate
  | Declarative (Custom name) => custom_allocate name claims estate
  end.

Definition requires_feasible_allocation (spec : RuleSpec) : bool :=
  match spec with
  | Programmatic _ | Declarative Proportional => true
  | Declarative (Custom _) => false
  end.

Record Rule := mkRule {
  rule_name : string;
  rule_version : string;
  rule_spec : RuleSpec;
  priority_classes : list string;
}.

Definition Rule_allocate (rule : Rule) (claims : list Claim) (estate : Estate)
    : LResult ValidAllocation :=
  allocation ← RuleSpec_allocate (rule_spec rule) claims estate;
  allocation ← ValidAllocation_new allocation claims;
  _ ← (if requires_feasible_allocation (rule_spec rule)
       then validate_feasible allocation estate else Ok ());
  Ok allocation.

Global Instance AllocateRule_Rule : AllocateRule Rule := Rule_allocate.

Definition evaluate_rule (rule : Rule) (claims : list Claim) (estate : Estate) (context : string)
    : LResult ValidAllocation :=
  _ ← validate_claims claims context;
  Rule_allocate rule claims estate.

Definition proportional_rule : Rule :=
  mkRule "proportional" "1.0.0" (Declarative Proportional) ["standard"].
Definition essay_composite_rule : Rule :=
  mkRule "essay-composite-median" "0.1.0" (RuleSpec_programmatic essay_composite_allocate) ["standard"].
Definition claude_agent_sdk_permissions_rule : Rule :=
  mkRule "claude-agent-sdk-permissions" "1.0.0"
    (Declarative (Custom "claude_agent_sdk_permissions")) ["always_allow"; "ask_user"; "always_deny"].
Definition claude_agent_sdk_hooks_rule : Rule :=
  mkRule "claude-agent-sdk-hooks" "1.0.0"
    (Declarative (Custom "claude_agent_sdk_hooks")) ["tool_invocation"].
Definition jefferson_rule : Rule :=
  mkRule "jefferson" "1.0.0" (RuleSpec_programmatic jefferson_allocate) ["standard"].
Definition webster_rule : Rule :=
  mkRule "webster" "1.0.0" (RuleSpec_programmatic webster_allocate) ["standard"].

(* ------------------------------------------------------------------ *)
(** * What the built-in rules guarantee

    Every evaluated allocation is complete, finite and non-negative; the
    divisor methods hand out exactly the house, one seat at a time; a sole
    claimant of the proportional rule receives the estate bit for bit; the
    mantissa/exponent decomposition is exact; rule kinds survive their names. *)

(* ------------------------------------------------------------------ *)
(** ** Maps collected from lists *)

Lemma foldl_insert_lookup_ne {V} (l : list (string * V)) (m : gmap string V) k :
  k ∉ l.*1 → foldl (λ m p, <[p.1 := p.2]> m) m l !! k = m !! k.
Proof.
  revert m. induction l as [|[k' v] l IH]; intros m Hk; [done|].
  rewrite fmap_cons, not_elem_of_cons in Hk. destruct Hk as [Hne Hk]. simpl in *.
  rewrite IH by done. by rewrite lookup_insert_ne.
Qed.

Lemma foldl_insert_lookup {V} (l : list (string * V)) (m : gmap string V) k v :
  NoDup l.*1 → (k, v) ∈ l → foldl (λ m p, <[p.1 := p.2]> m) m l !! k = Some v.
Proof.
  revert m. induction l as [|[k' v'] l IH]; intros m Hnd Hin; [by apply not_elem_of_nil in Hin|].
  rewrite fmap_cons, NoDup_cons in Hnd. destruct Hnd as [Hk Hnd]. simpl in *.
  apply elem_of_cons in Hin as [[= -> ->]|Hin]; [|by apply IH].
  rewrite foldl_insert_lookup_ne by done. by rewrite lookup_insert_eq.
Qed.

Lemma collect_map_lookup {V} (l : list (string * V)) k v :
  NoDup l.*1 → (k, v) ∈ l → collect_map l !! k = Some v.
Proof. apply foldl_insert_lookup. Qed.

Lemma collect_map_dom {V} (l : list (string * V)) : dom (collect_map l) = list_to_set l.*1.
Proof.
  unfold collect_map.
  enough (∀ m : gmap string V, dom (foldl (λ m p, <[p.1 := p.2]> m) m l) = dom m ∪ list_to_set l.*1) as Hgo.
  { rewrite Hgo. set_solver. }
  induction l as [|[k v] l IH]; intros m; [set_solver|]. cbn [foldl]. rewrite IH. set_solver.
Qed.

(** The loop that inserts one share per claim builds the collected map. *)
Lemma foldl_shares (f : Claim → f64) claims (m : Allocation) :
  foldl (λ allocation claim, <[claim_id claim := f claim]> allocation) m claims =
  foldl (λ (m : Allocation) p, <[p.1 := p.2]> m) m ((λ claim, (claim_id claim, f claim)) <$> claims).
Proof. revert m. by induction claims as [|c claims IH]; intros m; [|apply IH]. Qed.

(* ------------------------------------------------------------------ *)
(** ** Valid claims *)

Record valid_claims (claims : list Claim) : Prop := {
  vc_each : ∀ c, c ∈ claims →
    is_blank (claim_id c) = false ∧
    f64_is_finite (claim_strength c) = true ∧ f64_ltb f64_zero (claim_strength c) = true;
  vc_nodup : NoDup (claim_id <$> claims);
}.

Lemma validate_claims_Ok claims context :
  validate_claims claims context = Ok () ↔ valid_claims claims.
Proof.
  unfold validate_claims, Claim_validate_all. rewrite validate_all_from_Ok, Forall_forall.
  assert (∀ c, Claim_validate c = Ok () ↔ is_blank (claim_id c) = false ∧
    f64_is_finite (claim_strength c) = true ∧ f64_ltb f64_zero (claim_strength c) = true) as Hc.
  { intros c. rewrite <-not_positive_finite_false.
    unfold Claim_validate, validate_claimant_id, validate_claim_strength.
    destruct (is_blank _); [split; [done|by intros []]|]. cbn [mbind Result_bind].
    destruct (not_positive_finite _); split; try done; by intros []. }
  split; [intros (H1 & H2 & _); split; [|done] | intros [H1 H2]; split_and!; [|done|set_solver]];
    intros c Hin; by apply Hc, H1.
Qed.

Lemma positive_finite_inv v :
  f64_is_finite v = true → f64_ltb f64_zero v = true → ∃ m e, v = S754_finite false m e.
Proof. destruct v as [|[]| |[] m e]; try done. eauto. Qed.

Lemma evaluate_rule_Ok rule claims estate context a :
  evaluate_rule rule claims estate context = Ok a ↔
  valid_claims claims ∧ RuleSpec_allocate (rule_spec rule) claims estate = Ok a ∧
  Allocation_validate a claims = Ok () ∧
  (requires_feasible_allocation (rule_spec rule) = true → validate_feasible a estate = Ok ()).
Proof.
  unfold evaluate_rule, Rule_allocate, ValidAllocation_new, try_into_valid. rewrite <-validate_claims_Ok.
  split.
  - intros H. destruct_bind H Hv. destruct a0. destruct_bind H Ha. destruct_bind H Hn.
    destruct_bind Hn Hal. destruct a2. injection Hn as ->. destruct_bind H Hf. injection H as ->.
    split_and!; [done|done|done|]. intros Hreq. rewrite Hreq in Hf. by destruct a0.
  - intros (-> & Ha & Hv & Hf). cbn [mbind Result_bind]. rewrite Ha. cbn [mbind Result_bind].
    rewrite Hv. cbn [mbind Result_bind].
    destruct (requires_feasible_allocation _); [by rewrite Hf|done].
Qed.

(** C22: [evaluate_rule] only hands out proper allocations: the claims are
    valid and pairwise distinct, the allocation gives every claimant and nobody
    else a share, every share is finite and not negative, and the total of a
    rule that asserts feasibility fits the estate up to the relative
    tolerance. *)
Theorem evaluate_rule_well_formed rule claims estate context a :
  evaluate_rule rule claims estate context = Ok a →
  valid_claims claims ∧
  dom a = list_to_set (claim_id <$> claims) ∧
  (∀ id share, a !! id = Some share →
    f64_is_finite share = true ∧ f64_leb f64_zero share = true) ∧
  (requires_feasible_allocation (rule_spec rule) = true →
    let total := f64_sum (btree_values a) in
    f64_is_finite total = true ∧
    f64_leb (f64_sub total (estate_total estate))
      (f64_add (f64_add EPSILON (f64_mul EPSILON (f64_abs total)))
               (f64_mul EPSILON (f64_abs (estate_total estate)))) = true).
Proof.
  intros (Hv & _ & [Hd Hs]%Allocation_validate_Ok & Hf)%evaluate_rule_Ok. split_and!; [done|done| |].
  - intros id share Hl. destruct (Hs id share Hl) as [Hfin Hneg]. split; [done|].
    by destruct share as [|[]| |[] ? ?].
  - intros Hreq. specialize (Hf Hreq). unfold validate_feasible in Hf. cbv zeta.
    destruct (_ && _) eqn:Hc in Hf; [|done]. by apply andb_prop in Hc.
Qed.

(* ------------------------------------------------------------------ *)
(** ** Divisor methods *)

Lemma quotient_signed m e n family : signed false (quotient (S754_finite false m e) n family).
Proof. destruct family; apply f64_div_signed, f64_of_nat_signed. Qed.

Lemma best_step_index awarded family best entry :
  is_Some best.1 → is_Some (best_step awarded family best entry).1.
Proof.
  destruct best as [b q], entry as [i c]. unfold best_step. intros Hb. by destruct (f64_ltb _ _).
Qed.

Lemma best_foldl_index awarded family best entries :
  is_Some best.1 → is_Some (foldl (best_step awarded family) best entries).1.
Proof. revert best. induction entries; simpl; [done|]. eauto using best_step_index. Qed.

(** The index found is that of a claim. *)
Lemma best_foldl_range awarded family entries b :
  (foldl (best_step awarded family) (None, f64_neg_infinity) entries).1 = Some b → b ∈ entries.*1.
Proof.
  assert (∀ entries best, (foldl (best_step awarded family) best entries).1 = Some b →
    best.1 = Some b ∨ b ∈ entries.*1) as Hgo.
  { clear entries. induction entries as [|[i c] entries IH]; intros best Hb; [by left|].
    cbn [foldl] in Hb. apply IH in Hb. rewrite fmap_cons, elem_of_cons. destruct Hb as [Hb|Hb]; [|by right; right].
    unfold best_step in Hb. destruct best as [bi q]. destruct (f64_ltb _ _); [|by left].
    injection Hb as <-. right. by left. }
  intros Hb. apply Hgo in Hb. by destruct Hb.
Qed.

(** Each round of a non-empty election awards a seat to one claim. *)
Lemma award_seat_spec claims family awarded :
  valid_claims claims → claims ≠ [] → length awarded = length claims →
  ∃ i, i < length claims ∧ award_seat claims family awarded = alter S i awarded.
Proof.
  intros Hv Hne Hlen. unfold award_seat.
  destruct (foldl _ _ _).1 as [b|] eqn:Hb.
  { exists b. split; [|done]. apply best_foldl_range in Hb. rewrite enumerate_fst in Hb.
    apply elem_of_seq in Hb. lia. }
  exfalso. destruct claims as [|c claims]; [done|]. unfold enumerate in Hb. cbn [length seq zip zip_with foldl] in Hb.
  destruct (vc_each _ Hv c ltac:(left)) as (_ & Hf & Hp).
  destruct (positive_finite_inv _ Hf Hp) as (m & e & Hs).
  eapply eq_None_not_Some; [exact Hb|]. apply best_foldl_index. unfold best_step.
  rewrite f64_ltb_neg_infinity; [by eexists| |done]. rewrite Hs. apply quotient_signed.
Qed.

Definition seats_awarded (claims : list Claim) (family : DivisorFamily) (n : nat) : list nat :=
  Nat.iter n (award_seat claims family) (replicate (length claims) 0).

Lemma sum_list_alter_S l i : i < length l → sum_list (alter S i l) = S (sum_list l).
Proof.
  revert i. induction l as [|x l IH]; intros i Hi; [by apply Nat.nlt_0_r in Hi|].
  destruct i as [|i]; [done|]. specialize (IH i (proj2 (Nat.succ_lt_mono _ _) Hi)).
  change (x + sum_list (alter S i l) = S (x + sum_list l)). lia.
Qed.

Lemma seats_awarded_length claims family n :
  valid_claims claims → claims ≠ [] → length (seats_awarded claims family n) = length claims.
Proof.
  intros Hv Hne. induction n as [|n IH]; [apply length_replicate|]. simpl.
  destruct (award_seat_spec claims family _ Hv Hne IH) as (i & _ & ->). by rewrite length_alter.
Qed.

Lemma seats_awarded_sum claims family n :
  valid_claims claims → claims ≠ [] → sum_list (seats_awarded claims family n) = n.
Proof.
  intros Hv Hne. induction n as [|n IH].
  { unfold seats_awarded. simpl. induction claims; [done|]. simpl. clear.
    induction (length claims); [done|]. done. }
  pose proof (seats_awarded_length claims family n Hv Hne) as Hl. simpl.
  destruct (award_seat_spec claims family _ Hv Hne Hl) as (i & Hi & ->).
  rewrite sum_list_alter_S by (rewrite Hl; lia). by f_equal.
Qed.

(** The divisor methods spend the whole house: for a non-empty list of
    valid claims the allocation gives each claimant a whole number of seats,
    the seats add up to the house size (the integer part of the estate), and
    one more seat goes to exactly one claimant while nobody loses one (house
    monotonicity). *)
Theorem divisor_methods_fill_house claims estate family :
  valid_claims claims → claims ≠ [] →
  ∃ seats, highest_averages_allocate claims estate family =
      Ok (collect_map (zip (claim_id <$> claims) (f64_of_nat <$> seats))) ∧
    length seats = length claims ∧
    sum_list seats = house_size estate ∧
    ∀ bigger, house_size bigger = S (house_size estate) →
      ∃ winner, winner < length claims ∧
        highest_averages_allocate claims bigger family =
          Ok (collect_map (zip (claim_id <$> claims) (f64_of_nat <$> alter S winner seats))).
Proof.
  intros Hv Hne.
  assert (∀ estate, highest_averages_allocate claims estate family =
      Ok (collect_map (zip (claim_id <$> claims)
            (f64_of_nat <$> seats_awarded claims family (house_size estate))))) as Hall.
  { clear estate. intros estate. unfold highest_averages_allocate.
    rewrite (proj2 (validate_claims_Ok claims (divisor_context family)) Hv). cbn [mbind Result_bind].
    f_equal. f_equal. fold (seats_awarded claims family (house_size estate)).
    pose proof (seats_awarded_length claims family (house_size estate) Hv Hne) as Hl.
    revert Hl. generalize (seats_awarded claims family (house_size estate)) as seats.
    intros seats Hl. apply list_eq. intros i. rewrite list_lookup_fmap.
    destruct (claims !! i) as [c|] eqn:Hc.
    - destruct (lookup_lt_is_Some_2 seats i) as [n Hn]; [rewrite Hl; by eapply lookup_lt_Some|].
      transitivity (Some (claim_id c, f64_of_nat n)).
      + rewrite lookup_enumerate, Hc. simpl. by rewrite (list_lookup_total_correct _ _ _ Hn).
      + symmetry. apply lookup_zip_with_Some. exists (claim_id c), (f64_of_nat n).
        rewrite !list_lookup_fmap, Hc, Hn. done.
    - apply lookup_ge_None in Hc.
      rewrite (lookup_ge_None_2 (enumerate claims)) by (rewrite length_enumerate; lia).
      symmetry. apply lookup_ge_None. rewrite length_zip_with, !length_fmap. lia. }
  exists (seats_awarded claims family (house_size estate)).
  pose proof (seats_awarded_length claims family (house_size estate) Hv Hne) as Hl.
  split_and!; [done|done|by apply seats_awarded_sum|]. intros bigger Hb.
  destruct (award_seat_spec claims family _ Hv Hne Hl) as (i & Hi & Ha).
  exists i. split; [done|]. rewrite Hall, Hb. simpl. fold (seats_awarded claims family (house_size estate)).
  by rewrite Ha.
Qed.

(* ------------------------------------------------------------------ *)
(** ** The exact decomposition and the sole claimant *)

(** [mantissa] and [exponent] decompose the positive value [m * 2^e] exactly:
    the mantissa is a 53-bit integer scaled by 2^-52, that is between 1 and 2,
    and both describe the same number. *)
Definition binary_parts_of (m : positive) (e : Z) (parts : f64 * Z) : Prop :=
  ∃ mantissa shift, parts.1 = S754_finite false mantissa (-52) ∧
    (2 ^ 52 ≤ Z.pos mantissa < 2 ^ 53)%Z ∧ (0 ≤ shift)%Z ∧
    Z.pos mantissa = (Z.pos m * 2 ^ shift)%Z ∧ (parts.2 - 52 = e - shift)%Z.

Lemma lor_mantissa f :
  (0 ≤ f < 2 ^ 52)%Z → Z.lor f (Z.shiftl 1023 52) = (1023 * 2 ^ 52 + f)%Z.
Proof.
  intros Hf. assert (Z.land (Z.shiftl 1023 52) f = 0)%Z as Hl.
  { apply Z.bits_inj'. intros n Hn. rewrite Z.bits_0, Z.land_spec.
    destruct (Z.ltb_spec n 52); [by rewrite Z.shiftl_spec_low|].
    rewrite <-(Z.mod_small f (2 ^ 52)), Z.mod_pow2_bits_high by lia. apply andb_false_r. }
  rewrite Z.lor_comm, <-Z.lxor_lor, <-Z.add_nocarry_lxor by done.
  by rewrite Z.shiftl_mul_pow2 by lia.
Qed.

Lemma binary_parts_normal m e adj :
  bounded 53 1024 m e = true → (2 ^ 52 ≤ Z.pos m)%Z →
  let bits := f64_to_bits (S754_finite false m e) in
  (Z.land (Z.shiftr bits 52) 0x7ff - 1023 + adj = e + 52 + adj)%Z ∧
  f64_from_bits (Z.lor (Z.land bits (Z.shiftl 1 52 - 1)) (Z.shiftl 1023 52)) =
    S754_finite false m (-52).
Proof.
  intros Hb Hm bits. pose proof (bounded_mantissa _ _ Hb) as Hm'.
  pose proof Hb as Hb'. apply bounded_spec in Hb'.
  pose proof (bounded_normal _ _ Hb Hm) as Hd.
  assert (bits = 0 + (e + 1075) * 2 ^ 52 + (Z.pos m - 2 ^ 52))%Z as Hbits.
  { unfold bits, f64_to_bits. rewrite (proj2 (Z.ltb_ge _ _)) by done. done. }
  destruct (bits_fields false (e + 1075) (Z.pos m - 2 ^ 52)) as (_ & He & Hf); [lia|lia|].
  rewrite <-Hbits in He, Hf. change (Z.shiftl 1 52 - 1)%Z with (2 ^ 52 - 1)%Z.
  rewrite He, Hf. split; [lia|]. rewrite lor_mantissa by lia.
  destruct (bits_fields false 1023 (Z.pos m - 2 ^ 52)) as (Hs & He1 & Hf1); [lia|lia|].
  rewrite Z.add_0_l in Hs, He1, Hf1. unfold f64_from_bits. rewrite Hs, He1, Hf1. simpl (_ =? _)%Z.
  f_equal. by replace (2 ^ 52 + (Z.pos m - 2 ^ 52))%Z with (Z.pos m) by lia.
Qed.

Lemma f64_ltb_min_positive m e :
  bounded 53 1024 m e = true →
  f64_ltb (S754_finite false m e) f64_MIN_POSITIVE = bool_decide (Z.pos m < 2 ^ 52)%Z.
Proof.
  intros Hb. unfold f64_ltb, SFltb, f64_MIN_POSITIVE. rewrite SFcompare_finite.
  pose proof (lex_compare_spec m e 4503599627370496 (-1074)) as Hl.
  pose proof Hb as Hb'%bounded_spec.
  assert (-1074 ≤ e)%Z as He by lia. clear Hb'.
  case_bool_decide as Hm; destruct (lex_compare _ _ _ _); try done; exfalso.
  - destruct Hl as [_ ->]. by apply Z.lt_irrefl in Hm.
  - destruct (bounded_subnormal _ _ Hb Hm) as [-> _].
    destruct Hl as [Hl|[_ Hl]]; [by apply Z.lt_irrefl in Hl|].
    apply (Z.lt_asymm _ _ Hm). exact Hl.
  - destruct Hl as [Hl|[_ Hl]]; [by apply Z.lt_nge in Hl|by apply Hm].
Qed.

(** [positive_binary_parts] is exact: for every representable positive
    value, subnormal ones included, the mantissa is at least 1 and below 2,
    and mantissa times two to the exponent is the value again. *)
Theorem positive_binary_parts_exact m e :
  f64_valid (S754_finite false m e) = true →
  binary_parts_of m e (positive_binary_parts (S754_finite false m e)).
Proof.
  unfold f64_valid. cbn [valid_binary]. intros Hb. unfold positive_binary_parts.
  rewrite f64_ltb_min_positive by done. case_bool_decide as Hm.
  - destruct (bounded_subnormal _ _ Hb Hm) as [-> Hd].
    set (k := (53 - Z.pos (digits2_pos m))%Z). assert (0 < k)%Z as Hk by lia.
    pose proof (digits2_pos_bound m) as Hlow. pose proof (digits2_pos_upper m) as Hup.
    set (m' := Z.to_pos (Z.pos m * 2 ^ k)).
    assert (Z.pos m' = Z.pos m * 2 ^ k)%Z as Hm'.
    { apply Z2Pos.id. pose proof (Z.pow_pos_nonneg 2 k). nia. }
    assert (Z.pos (digits2_pos m') = 53)%Z as Hd'.
    { change (Z.pos (digits2_pos m')) with (Zdigits2 (Z.pos m')).
      rewrite Hm', digits2_pos_mul_pow2; lia. }
    assert (2 ^ 52 ≤ Z.pos m')%Z as Hge.
    { rewrite Hm'. replace 52%Z with (Z.pos (digits2_pos m) - 1 + k)%Z by lia.
      rewrite Z.pow_add_r by lia. apply Z.mul_le_mono_nonneg_r; [apply Z.pow_nonneg; lia|done]. }
    assert (bounded 53 1024 m' (-1022 - k) = true) as Hb' by (apply bounded_spec; lia).
    change (f64_of_Z 4503599627370496) with (S754_finite false 4503599627370496 0).
    rewrite (f64_mul_pow2 false m (-1074) m' (-1022 - k) false (52 - k) 0); [|done|lia| |lia].
    2:{ rewrite Hm', <-Z.mul_assoc, <-Z.pow_add_r by lia. do 2 f_equal. lia. }
    destruct (binary_parts_normal m' (-1022 - k) (-52) Hb' Hge) as [H1 H2].
    cbv beta iota zeta. cbn [xorb]. rewrite H1, H2.
    exists m', k. split_and!; [done|done|by eapply bounded_mantissa|lia|done|simpl; lia].
  - destruct (binary_parts_normal m e 0 Hb ltac:(lia)) as [H1 H2].
    cbv beta iota zeta. rewrite H1, H2.
    exists m, 0%Z. split_and!; [done|lia|by eapply bounded_mantissa|lia|lia|simpl; lia].
Qed.

Lemma f64_mul_one_left m : f64_mul f64_one (S754_finite false m (-52)) =
  binary_round_aux 53 1024 false (Z.pos m * 2 ^ 52) (-104) loc_Exact.
Proof. unfold f64_mul, SFmul, f64_one. rewrite Z.mul_comm. done. Qed.

(** Recombining an exact decomposition gives the value back. *)
Lemma recombine_parts m e parts :
  bounded 53 1024 m e = true → binary_parts_of m e parts →
  (if (parts.2 <? -1022)%Z
   then f64_mul (f64_mul (f64_mul f64_one parts.1) (f64_powi_two (parts.2 + 1022))) f64_MIN_POSITIVE
   else f64_mul (f64_mul f64_one parts.1) (f64_powi_two parts.2)) = S754_finite false m e.
Proof.
  destruct parts as [p k]. intros Hb (m' & sh & Hp & Hm' & Hsh & Heq & Hk). cbn [fst snd] in *. subst p.
  pose proof Hb as Hb'%bounded_spec.
  assert (Z.pos (digits2_pos m') = Z.pos (digits2_pos m) + sh)%Z as Hd.
  { change (Z.pos (digits2_pos m')) with (Zdigits2 (Z.pos m')). by rewrite Heq, digits2_pos_mul_pow2. }
  assert (Z.pos (digits2_pos m') = 53)%Z as Hd53.
  { pose proof (digits2_pos_bound m') as H1. pose proof (digits2_pos_upper m') as H2.
    assert (52 < Z.pos (digits2_pos m'))%Z by (apply (Z.pow_lt_mono_r_iff 2); lia).
    assert (Z.pos (digits2_pos m') - 1 < 53)%Z by (apply (Z.pow_lt_mono_r_iff 2); lia). lia. }
  rewrite f64_mul_one_left. change (-104)%Z with (-52 - 52)%Z.
  rewrite binary_round_aux_exact; [|apply bounded_spec; lia|done].
  destruct (Z.ltb_spec k (-1022)).
  - rewrite f64_powi_two_normal by lia.
    rewrite (f64_mul_pow2 false m' (-52) m' (k + 1022 - 52) false 52); [|apply bounded_spec; lia|done|done|lia].
    unfold f64_MIN_POSITIVE. apply (f64_mul_pow2 false m' _ m e false (sh + 52)); [done|lia| |lia].
    rewrite Heq, <-Z.mul_assoc, <-Z.pow_add_r; lia.
  - rewrite f64_powi_two_normal by lia.
    apply (f64_mul_pow2 false m' _ m e false (sh + 52)); [done|lia| |lia].
    rewrite Heq, <-Z.mul_assoc, <-Z.pow_add_r; lia.
Qed.

(** A sole claimant of the proportional rule receives the whole estate, bit
    for bit, whatever the positive strength and the positive estate are: the
    scaled arithmetic neither rounds, overflows nor underflows. *)
Theorem proportional_sole_claimant id metrics ms es unit me ee :
  is_blank id = false →
  f64_valid (S754_finite false ms es) = true → f64_valid (S754_finite false me ee) = true →
  proportional_allocate [mkClaim id (S754_finite false ms es) metrics]
    (mkEstate (S754_finite false me ee) unit) = Ok {[id := S754_finite false me ee]}.
Proof.
  intros Hid Hs He. unfold proportional_allocate.
  assert (validate_claims [mkClaim id (S754_finite false ms es) metrics] "proportional rule" = Ok ()) as ->.
  { apply validate_claims_Ok. split; [|apply NoDup_singleton]. by intros c ->%list_elem_of_singleton. }
  cbn [mbind Result_bind]. rewrite decide_False by done.
  unfold proportional_scale. cbn [fmap list_fmap foldl claim_strength claim_id estate_total].
  assert (f64_max f64_zero (S754_finite false ms es) = S754_finite false ms es) as -> by done.
  unfold compensated_step. cbn [claim_strength]. rewrite f64_div_self.
  change (f64_sub f64_one f64_zero) with f64_one. change (f64_add f64_zero f64_one) with f64_one.
  cbv beta iota. f_equal. unfold scaled_proportional_share.
  change (f64_eqb (S754_finite false me ee) f64_zero) with false. cbv iota.
  destruct (positive_binary_parts_exact _ _ Hs) as (ms' & ks & Hms & _).
  pose proof (positive_binary_parts_exact _ _ He) as Hparts.
  pose proof (recombine_parts me ee _ He Hparts) as Hre.
  destruct (positive_binary_parts (S754_finite false ms es)) as [p k]. cbn [fst] in Hms. subst p.
  destruct (positive_binary_parts (S754_finite false me ee)) as [pe ke]. cbn [fst snd] in Hre.
  rewrite f64_div_self. assert (f64_div f64_one f64_one = f64_one) as -> by by vm_compute.
  rewrite Z.sub_diag, Z.add_0_l, Hre. by rewrite insert_empty.
Qed.

(* ------------------------------------------------------------------ *)
(** ** Rule kinds and custom rules *)

(** A rule kind is recovered from the key that identifies it in policy
    files, and every key is the key of the kind it parses to; the only kind
    that does not come back is the custom rule called "proportional". *)
Theorem rule_kind_round_trip :
  (∀ key, DeclarativeRuleKind_as_str <$> DeclarativeRuleKind_parse key = Ok key) ∧
  (∀ kind, DeclarativeRuleKind_parse (DeclarativeRuleKind_as_str kind) = Ok kind ↔
     kind ≠ Custom "proportional").
Proof.
  unfold DeclarativeRuleKind_parse. split.
  - intros key. by case_decide; subst.
  - intros [|name]; [done|]. cbn [DeclarativeRuleKind_as_str].
    case_decide; subst; split; try done; congruence.
Qed.

Lemma custom_allocate_unknown name claims estate :
  name ≠ "claude_agent_sdk_permissions" → name ≠ "claude_agent_sdk_hooks" →
  custom_allocate name claims estate =
    Err (InvalidInput [Txt "unknown custom declarative rule kind '"; Txt name; Txt "'"]).
Proof. intros H1 H2. unfold custom_allocate. by rewrite !decide_False. Qed.

(** The permissions rule gives every tool a share that depends on that tool
    alone. *)
Lemma permissions_allocate_lookup claims estate :
  valid_claims claims →
  ∃ a, claude_agent_sdk_permissions_allocate claims estate = Ok a ∧
    dom a = list_to_set (claim_id <$> claims) ∧
    ∀ c, c ∈ claims → a !! claim_id c = Some (permissions_share c).
Proof.
  intros Hv. unfold claude_agent_sdk_permissions_allocate.
  rewrite (proj2 (validate_claims_Ok _ _) Hv). eexists. split; [done|].
  assert (((λ claim, (claim_id claim, permissions_share claim)) <$> claims).*1 = claim_id <$> claims) as Hk.
  { by rewrite <-list_fmap_compose. }
  split; [by rewrite collect_map_dom, Hk|]. intros c Hc. apply collect_map_lookup.
  - rewrite Hk. apply (vc_nodup _ Hv).
  - apply list_elem_of_fmap. eauto.
Qed.
