(* ===== verification/Coalitions.v ===== *)
(** * Enumeration of removed coalitions (src/axioms/diagnostics/consistency.rs)

    The iterators that feed the consistency check.  An iterator is its state
    with a [next] function; a [for] loop over it is [collect].  Up to 63 claims
    a coalition is a [u64] mask stepped to the next mask with as many bits
    (Gosper's method); from 64 claims on it is an index vector stepped
    lexicographically.  [coalition_enumeration_exact] shows that either way each
    coalition of the admitted sizes comes out exactly once. *)

From S2P Require Import Prelude.
From stdpp Require Import options.

Inductive ConsistencyMode : Type :=
  | Full
  | Bounded (max_removed : nat).

Global Instance ConsistencyMode_eq_dec : EqDecision ConsistencyMode.
Proof. solve_decision. Defined.

(* ------------------------------------------------------------------ *)
(** ** Masks *)

(** The mask is not zero: a coalition has at least one member. *)
Definition next_same_popcount (mask : Z) : option Z :=
  let smallest := Z.land mask ((- mask) mod 2 ^ 64) in
  if (mask + smallest <? 2 ^ 64)%Z then
    let ripple := (mask + smallest)%Z in
    let ones := Z.lxor mask ripple in
    Some (Z.lor (Z.shiftr ones 2 / smallest) ripple)
  else None.

Definition mask_to_indices (mask : Z) (claim_count : nat) : list nat :=
  filter (λ index, Z.land mask (Z.shiftl 1 (Z.of_nat index)) ≠ 0%Z) (seq 0 claim_count).

Record BitsetCoalitions := mkBitset { bc_claim_count : nat; next_mask : option Z }.

Definition BitsetCoalitions_new (claim_count coalition_size : nat) : BitsetCoalitions :=
  mkBitset claim_count
    (if bool_decide (coalition_size = 0) || bool_decide (claim_count < coalition_size) then None
     else Some (Z.shiftl 1 (Z.of_nat coalition_size) - 1)%Z).

Definition BitsetCoalitions_next (self : BitsetCoalitions) : option (list nat) * BitsetCoalitions :=
  match next_mask self with
  | None => (None, self)
  | Some mask =>
      let limit := Z.shiftl 1 (Z.of_nat (bc_claim_count self)) in
      let next := next_same_popcount mask in
      (Some (mask_to_indices mask (bc_claim_count self)),
       mkBitset (bc_claim_count self)
         (match next with
          | Some m => if (m <? limit)%Z then Some m else None
          | None => None
          end))
  end.

(* ------------------------------------------------------------------ *)
(** ** Index vectors *)

(** [for suffix in position + 1..coalition_size { next[suffix] = next[suffix - 1] + 1; }] *)
Definition reset_suffix (next : list nat) (position coalition_size : nat) : list nat :=
  foldl (λ next suffix, <[suffix := S (next !!! (suffix - 1))]> next) next
    (seq (S position) (coalition_size - S position)).

(** The positions from the last one down to 0; [fuel] is how many are left. *)
Fixpoint next_vec_combination_from (next : list nat) (claim_count coalition_size fuel : nat)
    : option (list nat) :=
  match fuel with
  | O => None
  | S position =>
      let max_at_position := claim_count - coalition_size + position in
      if decide (next !!! position < max_at_position)
      then Some (reset_suffix (alter S position next) position coalition_size)
      else next_vec_combination_from next claim_count coalition_size position
  end.

Definition next_vec_combination (current : list nat) (claim_count : nat) : option (list nat) :=
  next_vec_combination_from current claim_count (length current) (length current).

Record VecCoalitions := mkVec { vc_claim_count : nat; vec_current : option (list nat) }.

Definition VecCoalitions_new (claim_count coalition_size : nat) : VecCoalitions :=
  mkVec claim_count
    (if bool_decide (coalition_size = 0) || bool_decide (claim_count < coalition_size) then None
     else Some (seq 0 coalition_size)).

Definition VecCoalitions_next (self : VecCoalitions) : option (list nat) * VecCoalitions :=
  match vec_current self with
  | None => (None, self)
  | Some result =>
      (Some result,
       mkVec (vc_claim_count self) (next_vec_combination result (vc_claim_count self)))
  end.

(* ------------------------------------------------------------------ *)
(** ** All sizes *)

Inductive CoalitionSizeEnumeration : Type :=
  | Bitset (iter : BitsetCoalitions)
  | Vector (iter : VecCoalitions).

Definition CoalitionSizeEnumeration_new (claim_count coalition_size : nat) : CoalitionSizeEnumeration :=
  if decide (claim_count ≤ 63) then Bitset (BitsetCoalitions_new claim_count coalition_size)
  else Vector (VecCoalitions_new claim_count coalition_size).

Definition CoalitionSizeEnumeration_next (self : CoalitionSizeEnumeration)
    : option (list nat) * CoalitionSizeEnumeration :=
  match self with
  | Bitset iter => let '(item, iter) := BitsetCoalitions_next iter in (item, Bitset iter)
  | Vector iter => let '(item, iter) := VecCoalitions_next iter in (item, Vector iter)
  end.

Record CoalitionEnumeration := mkCoalitions {
  ce_claim_count : nat;
  next_size : nat;
  max_removed_size : nat;
  ce_current : option CoalitionSizeEnumeration;
}.

Definition mode_max_removed (claim_count : nat) (mode : ConsistencyMode) : nat :=
  match mode with
  | Full => claim_count - 1
  | Bounded max_removed => Nat.min max_removed (claim_count - 1)
  end.

Definition CoalitionEnumeration_new (claim_count : nat) (mode : ConsistencyMode) : CoalitionEnumeration :=
  mkCoalitions claim_count 1 (mode_max_removed claim_count mode) None.

(** The [loop] of [next]; each turn that does not return starts the next size,
    so the number of sizes left bounds the turns. *)
Fixpoint CoalitionEnumeration_next_from (fuel : nat) (self : CoalitionEnumeration)
    : option (list nat) * CoalitionEnumeration :=
  match fuel with
  | O => (None, self)
  | S fuel =>
      let '(item, current) :=
        match ce_current self with
        | Some current =>
            let '(item, current) := CoalitionSizeEnumeration_next current in (item, Some current)
        | None => (None, None)
        end in
      let self := mkCoalitions (ce_claim_count self) (next_size self) (max_removed_size self) current in
      match item with
      | Some indices => (Some indices, self)
      | None =>
          if decide (max_removed_size self < next_size self) then (None, self)
          else
            CoalitionEnumeration_next_from fuel
              (mkCoalitions (ce_claim_count self) (S (next_size self)) (max_removed_size self)
                 (Some (CoalitionSizeEnumeration_new (ce_claim_count self) (next_size self))))
      end
  end.

Definition CoalitionEnumeration_next (self : CoalitionEnumeration)
    : option (list nat) * CoalitionEnumeration :=
  CoalitionEnumeration_next_from (S (S (max_removed_size self) - next_size self)) self.

(** The items a [for] loop over an iterator sees. *)
Fixpoint collect {S A} (next : S → option A * S) (fuel : nat) (self : S) : list A :=
  match fuel with
  | O => []
  | Datatypes.S fuel =>
      match next self with
      | (Some item, self) => item :: collect next fuel self
      | (None, _) => []
      end
  end.

(** The loop over [CoalitionEnumeration::new(claim_count, mode)]; there are fewer
    than 2^claim_count coalitions. *)
Definition coalitions (claim_count : nat) (mode : ConsistencyMode) : list (list nat) :=
  collect CoalitionEnumeration_next (2 ^ claim_count) (CoalitionEnumeration_new claim_count mode).

Example coalitions_4 : coalitions 4 Full =
  [[0]; [1]; [2]; [3]; [0; 1]; [0; 2]; [1; 2]; [0; 3]; [1; 3]; [2; 3];
   [0; 1; 2]; [0; 1; 3]; [0; 2; 3]; [1; 2; 3]].
Proof. vm_compute. reflexivity. Qed.

(* ------------------------------------------------------------------ *)
(** * The coalition iterators enumerate every coalition once

    Gosper's step is computed on the decomposition of a mask into its lowest
    run of ones; the masks it visits are the recursively defined list [masks],
    whose index lists are the increasing lists of a given length.  The vector
    step visits [lex_combos].  Both have the same members, so the switch at 64
    claims changes the order only. *)

(* ------------------------------------------------------------------ *)
(** ** Gosper's step *)

Section gosper.
Local Open Scope Z_scope.

(** Bits of a number split at position [j]. *)
Lemma testbit_split j q r i :
  0 ≤ j → 0 ≤ r < 2 ^ j → 0 ≤ i →
  Z.testbit (q * 2 ^ j + r) i = if i <? j then Z.testbit r i else Z.testbit q (i - j).
Proof.
  intros Hj Hr Hi. destruct (Z.ltb_spec i j).
  - rewrite <-(Z.mod_pow2_bits_low (q * 2 ^ j + r) j i) by lia.
    rewrite Z.add_comm, Z.mod_add, Z.mod_small by lia. done.
  - replace i with ((i - j) + j) at 1 by lia. rewrite <-Z.div_pow2_bits by lia.
    rewrite Z.add_comm, Z.div_add, Z.div_small by lia. done.
Qed.

(** A run of [c] ones above [s] zeros, below [h]. *)
Definition run (s c h : Z) : Z := 2 ^ s * (2 ^ (c + 1) * h + (2 ^ c - 1)).

Lemma run_exists p : ∃ s c h, 0 ≤ s ∧ 1 ≤ c ∧ 0 ≤ h ∧ Z.pos p = run s c h.
Proof.
  unfold run. induction p as [p (s & c & h & Hs & Hc & Hh & Hp)|p (s & c & h & Hs & Hc & Hh & Hp)|].
  - destruct (decide (s = 0)) as [->|Hne].
    + exists 0, (c + 1), h. split_and!; [lia..|].
      rewrite Pos2Z.inj_xI, Hp. rewrite !(Z.pow_add_r 2) by lia. change (2 ^ 0) with 1. change (2 ^ 1) with 2. ring.
    + exists 0, 1, (2 ^ (s - 1) * (2 ^ (c + 1) * h + (2 ^ c - 1))).
      pose proof (Z.pow_pos_nonneg 2 c). pose proof (Z.pow_pos_nonneg 2 (s - 1)).
      pose proof (Z.pow_pos_nonneg 2 (c + 1)).
      split_and!; [lia..|nia|]. rewrite Pos2Z.inj_xI, Hp.
      replace s with (s - 1 + 1) at 1 by lia. rewrite (Z.pow_add_r 2 (s - 1)) by lia.
      change (2 ^ 0) with 1. change (2 ^ 1) with 2. change (2 ^ (1 + 1)) with 4. ring.
  - exists (s + 1), c, h. split_and!; [lia..|]. rewrite Pos2Z.inj_xO, Hp.
    rewrite (Z.pow_add_r 2 s) by lia. change (2 ^ 1) with 2. ring.
  - exists 0, 1, 0. split_and!; [lia..|]. done.
Qed.

Lemma land_neg_odd v : Z.land (2 * v + 1) (- (2 * v + 1)) = 1.
Proof.
  replace (- (2 * v + 1)) with (Z.lnot (2 * v)) by (unfold Z.lnot; lia).
  apply Z.bits_inj'. intros i Hi. rewrite Z.land_spec, Z.lnot_spec by done.
  destruct (decide (i = 0)) as [->|Hne].
  - by rewrite Z.testbit_odd_0, Z.testbit_even_0.
  - replace i with (Z.succ (i - 1)) by lia.
    rewrite Z.testbit_odd_succ, Z.testbit_even_succ by lia.
    rewrite (Z.bits_above_log2 1) by (simpl; lia). by destruct (Z.testbit v _).
Qed.

Lemma smallest_bit s c h :
  0 ≤ s → 1 ≤ c → 0 ≤ run s c h < 2 ^ 63 → Z.land (run s c h) ((- run s c h) mod 2 ^ 64) = 2 ^ s.
Proof.
  intros Hs Hc Hm. unfold run in *. set (u := 2 ^ (c + 1) * h + (2 ^ c - 1)) in *.
  transitivity (Z.land (2 ^ s * u) (- (2 ^ s * u))).
  { apply Z.bits_inj'. intros i Hi. rewrite !Z.land_spec.
    destruct (Z.ltb_spec i 64).
    - by rewrite Z.mod_pow2_bits_low by lia.
    - assert (Z.testbit (2 ^ s * u) i = false) as ->; [|done].
      rewrite <-(Z.mod_small (2 ^ s * u) (2 ^ 63)) by done. apply Z.mod_pow2_bits_high. lia. }
  rewrite <-Z.mul_opp_r, !(Z.mul_comm (2 ^ s)), <-!Z.shiftl_mul_pow2, <-Z.shiftl_land by lia.
  assert (u = 2 * (2 ^ c * h + (2 ^ (c - 1) - 1)) + 1) as ->.
  { unfold u. replace (c + 1) with (1 + c) by lia. rewrite Z.pow_add_r by lia.
    replace c with (c - 1 + 1) at 2 by lia. rewrite (Z.pow_add_r 2 (c - 1)) by lia.
    change (2 ^ 1) with 2. ring. }
  rewrite land_neg_odd, Z.shiftl_1_l. done.
Qed.

Lemma lxor_succ_run c h :
  1 ≤ c → Z.lxor (2 ^ (c + 1) * h + (2 ^ c - 1)) (2 ^ (c + 1) * h + 2 ^ c) = 2 ^ (c + 1) - 1.
Proof.
  intros Hc. pose proof (Z.pow_pos_nonneg 2 c).
  assert (2 ^ (c + 1) = 2 * 2 ^ c) as Hp by (rewrite Z.pow_add_r by lia; lia).
  apply Z.bits_inj'. intros i Hi. rewrite Z.lxor_spec, !(Z.mul_comm (2 ^ (c + 1))).
  rewrite !testbit_split by lia.
  replace (2 ^ (c + 1) - 1) with (Z.ones (c + 1)) by (rewrite Z.ones_equiv; lia).
  destruct (Z.ltb_spec i (c + 1)); [|rewrite xorb_nilpotent, Z.ones_spec_high by lia; done].
  rewrite (Z.ones_spec_low (c + 1)) by lia.
  replace (2 ^ c - 1) with (Z.ones c) by (rewrite Z.ones_equiv; lia).
  rewrite Z.pow2_bits_eqb by lia. destruct (Z.eqb_spec c i) as [<-|].
  - by rewrite Z.ones_spec_high by lia.
  - by rewrite Z.ones_spec_low by lia.
Qed.

Lemma lor_disjoint k a b : 0 ≤ k → 0 ≤ a < 2 ^ k → Z.lor a (2 ^ k * b) = a + 2 ^ k * b.
Proof.
  intros Hk Ha. rewrite Z.mul_comm. assert (Z.land a (b * 2 ^ k) = 0) as Hl.
  { apply Z.bits_inj'. intros i Hi. rewrite Z.land_spec, Z.bits_0.
    destruct (Z.ltb_spec i k); [by rewrite Z.mul_pow2_bits_low, andb_false_r by lia|].
    rewrite <-(Z.mod_small a (2 ^ k)), Z.mod_pow2_bits_high by lia. done. }
  by rewrite <-Z.lxor_lor, <-Z.add_nocarry_lxor.
Qed.

(** The step moves the top of the lowest run up by one and the rest of the run
    down to the bottom. *)
Lemma next_same_popcount_run s c h :
  0 ≤ s → 1 ≤ c → 0 ≤ h → run s c h < 2 ^ 63 →
  next_same_popcount (run s c h) = Some (2 ^ (s + c) * (2 * h + 1) + (2 ^ (c - 1) - 1)).
Proof.
  intros Hs Hc Hh Hm.
  pose proof (Z.pow_pos_nonneg 2 s). pose proof (Z.pow_pos_nonneg 2 c).
  pose proof (Z.pow_pos_nonneg 2 (c - 1)).
  assert (2 ^ (c + 1) = 2 * 2 ^ c) as Hp by (rewrite Z.pow_add_r by lia; lia).
  assert (2 ^ c = 2 * 2 ^ (c - 1)) as Hp'.
  { replace c with (c - 1 + 1) at 1 by lia. rewrite Z.pow_add_r by lia. lia. }
  assert (0 ≤ run s c h) as Hm0 by (unfold run; nia).
  unfold next_same_popcount. rewrite smallest_bit by lia.
  assert (run s c h + 2 ^ s = 2 ^ (s + c) * (2 * h + 1)) as Hr.
  { unfold run. rewrite (Z.pow_add_r 2 s c), Hp by lia. ring. }
  assert (2 ^ s ≤ run s c h) as Hle by (unfold run; nia).
  rewrite (proj2 (Z.ltb_lt _ _)) by lia. f_equal.
  assert (Z.lxor (run s c h) (run s c h + 2 ^ s) = 2 ^ s * (2 ^ (c + 1) - 1)) as ->.
  { rewrite Hr. replace (2 ^ (s + c) * (2 * h + 1)) with (2 ^ s * (2 ^ (c + 1) * h + 2 ^ c)).
    2:{ rewrite (Z.pow_add_r 2 s c), Hp by lia. ring. }
    unfold run. rewrite !(Z.mul_comm (2 ^ s)), <-!Z.shiftl_mul_pow2, <-Z.shiftl_lxor by lia.
    by rewrite lxor_succ_run. }
  rewrite Hr, Z.shiftr_div_pow2 by lia. change (2 ^ 2) with 4.
  rewrite Z.div_div, (Z.mul_comm 4), <-Z.div_div by lia.
  rewrite (Z.mul_comm (2 ^ s) (2 ^ (c + 1) - 1)), Z.div_mul by lia.
  assert ((2 ^ (c + 1) - 1) / 4 = 2 ^ (c - 1) - 1) as ->.
  { rewrite Hp, Hp'. symmetry. apply (Z.div_unique_pos _ _ _ 3); lia. }
  rewrite lor_disjoint; [lia|lia|]. rewrite Z.pow_add_r by lia. nia.
Qed.

End gosper.

(* ------------------------------------------------------------------ *)
(** ** Linked lists of states and what an iterator yields *)

Lemma head_fmap_eq {A B} (f : A → B) (l : list A) : head (f <$> l) = f <$> head l.
Proof. by destruct l. Qed.

(** Consecutive elements are related. *)
Fixpoint linked {A} (R : A → A → Prop) (l : list A) : Prop :=
  match l with
  | [] => True
  | x :: l => match head l with Some y => R x y | None => True end ∧ linked R l
  end.

Lemma linked_app {A} (R : A → A → Prop) l1 l2 :
  linked R l1 → linked R l2 →
  (∀ x y, last l1 = Some x → head l2 = Some y → R x y) → linked R (l1 ++ l2).
Proof.
  induction l1 as [|a l1 IH]; intros H1 H2 Hj; [done|]. simpl in *. destruct H1 as [Ha H1]. split.
  - destruct l1 as [|b l1]; simpl in *; [|done].
    destruct (head l2) as [y|] eqn:Hy; [|done]. by apply Hj.
  - apply IH; [done|done|]. intros x y Hx Hy. apply Hj; [|done]. by destruct l1.
Qed.

Lemma linked_fmap {A B} (R : B → B → Prop) (f : A → B) l :
  linked (λ x y, R (f x) (f y)) l → linked R (f <$> l).
Proof.
  induction l as [|a l IH]; [done|]. intros [Ha Hl]. split; [|by apply IH].
  rewrite head_fmap_eq. by destruct (head l).
Qed.

Lemma linked_impl {A} (R1 R2 : A → A → Prop) l :
  (∀ x y, x ∈ l → y ∈ l → R1 x y → R2 x y) → linked R1 l → linked R2 l.
Proof.
  induction l as [|a l IH]; [done|]. intros Hi [Ha Hl]. split.
  - destruct l as [|b l]; [done|]. simpl in *. apply Hi; [set_solver..|done].
  - apply IH; [|done]. intros x y Hx Hy. apply Hi; by right.
Qed.

(** [yields next self items]: the iterator in state [self] gives [items] and ends. *)
Inductive yields {S A} (next : S → option A * S) : S → list A → Prop :=
  | yields_nil self self' : next self = (None, self') → yields next self []
  | yields_cons self self' item items :
      next self = (Some item, self') → yields next self' items → yields next self (item :: items).

Lemma collect_yields {S A} (next : S → option A * S) self items fuel :
  yields next self items → length items ≤ fuel → collect next fuel self = items.
Proof.
  intros Hy. revert fuel. induction Hy as [self self' Hn|self self' item items Hn _ IH];
    intros [|fuel] Hf; simpl in *; try done; [by rewrite Hn|lia|].
  rewrite Hn, IH by lia. done.
Qed.

(* ------------------------------------------------------------------ *)
(** ** The masks of a size *)

Fixpoint masks (n k : nat) : list Z :=
  match k, n with
  | O, _ => [0%Z]
  | S _, O => []
  | S k', S n' => masks n' k ++ ((λ m, 2 ^ Z.of_nat n' + m)%Z <$> masks n' k')
  end.

Lemma masks_bounds n k m : m ∈ masks n k → (0 ≤ m < 2 ^ Z.of_nat n)%Z ∧ (0 < k → (0 < m)%Z).
Proof.
  revert k m. induction n as [|n IH]; intros [|k] m; simpl masks.
  - intros ->%list_elem_of_singleton. split; [lia|lia].
  - by intros ?%not_elem_of_nil.
  - intros ->%list_elem_of_singleton. split; [|lia]. split; [done|]. apply Z.pow_pos_nonneg; lia.
  - rewrite Nat2Z.inj_succ, Z.pow_succ_r by lia.
    intros [Hm|(m' & -> & Hm)%list_elem_of_fmap]%elem_of_app; apply IH in Hm; lia.
Qed.

Lemma masks_nil n k : n < k → masks n k = [].
Proof.
  revert k. induction n as [|n IH]; intros [|k] Hk; simpl; [lia|done|lia|].
  rewrite IH by lia. by rewrite IH by lia.
Qed.

Lemma masks_head n k : k ≤ n → head (masks n k) = Some (2 ^ Z.of_nat k - 1)%Z.
Proof.
  revert k. induction n as [|n IH]; intros [|k] Hk; simpl masks; [done|lia|done|].
  destruct (decide (S k ≤ n)).
  - rewrite head_app, IH by done. done.
  - assert (k = n) as -> by lia. rewrite masks_nil by lia. cbn [app].
    rewrite head_fmap_eq, IH by done. simpl. f_equal.
    rewrite Nat2Z.inj_succ, Z.pow_succ_r by lia. lia.
Qed.

Lemma masks_last n k :
  k ≤ n → last (masks n k) = Some ((2 ^ Z.of_nat k - 1) * 2 ^ Z.of_nat (n - k))%Z.
Proof.
  revert k. induction n as [|n IH]; intros [|k] Hk; simpl masks; [done|lia|done|].
  rewrite last_app, fmap_last, IH by lia. simpl. f_equal. fold (Z.of_nat (S k)).
  rewrite Nat2Z.inj_sub, !Nat2Z.inj_succ, Z.pow_succ_r by lia.
  rewrite Z.pow_sub_r by lia.
  assert (2 ^ Z.of_nat n = 2 ^ Z.of_nat (n - k) * 2 ^ Z.of_nat k)%Z as Hp
    by (rewrite <-Z.pow_add_r; [f_equal; lia|lia..]).
  rewrite Hp. rewrite Z.div_mul by (apply Z.pow_nonzero; lia). ring.
Qed.

(** Setting a higher bit commutes with the step. *)
Lemma next_same_popcount_add n x y :
  n < 63 → (0 < x)%Z → (x < 2 ^ Z.of_nat n)%Z → (y < 2 ^ Z.of_nat n)%Z →
  next_same_popcount x = Some y →
  next_same_popcount (2 ^ Z.of_nat n + x) = Some (2 ^ Z.of_nat n + y)%Z.
Proof.
  intros Hn Hx Hxn Hyn Hs. pose proof (Z.pow_lt_mono_r 2 (Z.of_nat n) 63) as Hp63.
  pose proof (Z.pow_le_mono_r 2 (Z.of_nat n) 62) as Hp62.
  destruct x as [|p|p]; [lia| |lia]. destruct (run_exists p) as (s & c & h & Hs' & Hc & Hh & Hp).
  rewrite Hp in *. rewrite next_same_popcount_run in Hs by lia. injection Hs as <-.
  assert (s + c < Z.of_nat n)%Z as Hsc.
  { apply (Z.pow_lt_mono_r_iff 2); [lia|lia|]. pose proof (Z.pow_pos_nonneg 2 (c - 1)).
    pose proof (Z.pow_pos_nonneg 2 (s + c)). nia. }
  assert (2 ^ Z.of_nat n = 2 ^ (s + c) * (2 * 2 ^ (Z.of_nat n - s - c - 1)))%Z as Hpow.
  { rewrite <-Z.pow_succ_r, <-Z.pow_add_r by lia. f_equal. lia. }
  assert (2 ^ Z.of_nat n + run s c h = run s c (h + 2 ^ (Z.of_nat n - s - c - 1)))%Z as Hrun.
  { rewrite Hpow. unfold run. rewrite !(Z.pow_add_r 2 _ _) by lia. change (2 ^ 1)%Z with 2%Z. ring. }
  pose proof (Z.pow_pos_nonneg 2 (Z.of_nat n - s - c - 1)).
  rewrite Hrun, next_same_popcount_run; [|lia..]. f_equal. rewrite Hpow. ring.
Qed.

Lemma masks_linked n k :
  0 < k → n ≤ 63 → linked (λ x y, next_same_popcount x = Some y) (masks n k).
Proof.
  revert k. induction n as [|n IH]; intros [|k] Hk Hn; simpl masks; [lia|done|lia|].
  apply linked_app; [apply IH; lia| |].
  - apply linked_fmap. destruct k as [|k]; [by destruct n|].
    eapply linked_impl; [|apply IH; lia]. intros x y Hx%masks_bounds Hy%masks_bounds.
    apply next_same_popcount_add; lia.
  - intros x y Hx Hy. destruct (decide (S k ≤ n)) as [Hle|Hgt]; [|by rewrite masks_nil in Hx by lia].
    rewrite masks_last in Hx by done. injection Hx as <-.
    rewrite head_fmap_eq, masks_head in Hy by lia. injection Hy as <-.
    assert ((2 ^ Z.of_nat (S k) - 1) * 2 ^ Z.of_nat (n - S k) =
            run (Z.of_nat (n - S k)) (Z.of_nat (S k)) 0)%Z as Hrun by (unfold run; ring).
    assert (run (Z.of_nat (n - S k)) (Z.of_nat (S k)) 0 < 2 ^ Z.of_nat n)%Z as Hb.
    { rewrite <-Hrun. apply (masks_bounds n (S k)), last_Some_elem_of, masks_last. done. }
    pose proof (Z.pow_le_mono_r 2 (Z.of_nat n) 63).
    rewrite Hrun, next_same_popcount_run by lia. f_equal.
    replace (Z.of_nat (n - S k) + Z.of_nat (S k))%Z with (Z.of_nat n) by lia.
    replace (Z.of_nat (S k) - 1)%Z with (Z.of_nat k) by lia. lia.
Qed.

(* ------------------------------------------------------------------ *)
(** ** The coalitions of a size *)

Definition increasing (l : list nat) : Prop := StronglySorted lt l.

(** In the order of the masks: coalitions without the last index first. *)
Fixpoint combos (n k : nat) : list (list nat) :=
  match k, n with
  | O, _ => [[]]
  | S _, O => []
  | S k', S n' => combos n' k ++ ((λ l, l ++ [n']) <$> combos n' k')
  end.

(** In lexicographic order: [k] indices from [lo, lo + len). *)
Fixpoint lex_combos (lo len k : nat) : list (list nat) :=
  match k, len with
  | O, _ => [[]]
  | S _, O => []
  | S k', S len' => (cons lo <$> lex_combos (S lo) len' k') ++ lex_combos (S lo) len' k
  end.

Lemma elem_of_combos n k l :
  l ∈ combos n k ↔ length l = k ∧ increasing l ∧ ∀ i, i ∈ l → i < n.
Proof.
  unfold increasing. revert k l. induction n as [|n IH]; intros [|k] l; simpl combos.
  1, 3: rewrite list_elem_of_singleton; split;
    [intros ->; split_and!; [done|constructor|by intros i ?%not_elem_of_nil]|by intros [?%nil_length_inv _]].
  - split; [by intros ?%not_elem_of_nil|]. intros (Hl & _ & Hi). destruct l as [|i l]; [done|].
    specialize (Hi i ltac:(left)). lia.
  - rewrite elem_of_app, list_elem_of_fmap, IH. setoid_rewrite IH. split.
    + intros [(Hl & Hs & Hi)|(l' & -> & Hl & Hs & Hi)].
      * split_and!; [done|done|]. intros i Hin%Hi. lia.
      * split_and!; [rewrite length_app; simpl; lia| |].
        -- apply StronglySorted_app_2; [|done|repeat constructor].
           intros i j Hin%Hi ->%list_elem_of_singleton. done.
        -- intros i [Hin%Hi| ->%list_elem_of_singleton]%elem_of_app; lia.
    + intros (Hl & Hs & Hi). destruct l as [|x l _] using rev_ind; [done|].
      apply StronglySorted_app in Hs as (Hlt & Hs & _). rewrite length_app in Hl. simpl in Hl.
      assert (x < S n) by (apply Hi; set_solver).
      assert (∀ i, i ∈ l → i < x) as Hlx by (intros i Hin; apply Hlt; set_solver).
      destruct (decide (x = n)) as [->|Hne].
      * right. exists l. split_and!; [done|lia|done|done].
      * left. split_and!; [rewrite length_app; simpl; lia| |].
        -- apply StronglySorted_app_2; [|done|repeat constructor].
           intros i j Hin ->%list_elem_of_singleton. by apply Hlx.
        -- intros i [Hin%Hlx| ->%list_elem_of_singleton]%elem_of_app; lia.
Qed.

Lemma elem_of_lex_combos lo len k l :
  l ∈ lex_combos lo len k ↔ length l = k ∧ increasing l ∧ ∀ i, i ∈ l → lo ≤ i < lo + len.
Proof.
  unfold increasing. revert lo k l. induction len as [|len IH]; intros lo [|k] l; simpl lex_combos.
  1, 3: rewrite list_elem_of_singleton; split;
    [intros ->; split_and!; [done|constructor|by intros i ?%not_elem_of_nil]|by intros [?%nil_length_inv _]].
  - split; [by intros ?%not_elem_of_nil|]. intros (Hl & _ & Hi). destruct l as [|i l]; [done|].
    specialize (Hi i ltac:(left)). lia.
  - rewrite elem_of_app, list_elem_of_fmap, IH. setoid_rewrite IH. split.
    + intros [(l' & -> & Hl & Hs & Hi)|(Hl & Hs & Hi)].
      * split_and!; [simpl; lia| |].
        -- apply StronglySorted_cons. split; [|done]. apply Forall_forall. intros i Hin%Hi. lia.
        -- intros i [->|Hin%Hi]%elem_of_cons; lia.
      * split_and!; [done|done|]. intros i Hin%Hi. lia.
    + intros (Hl & Hs & Hi). destruct l as [|x l]; [done|].
      apply StronglySorted_cons in Hs as [Hx Hs]. rewrite Forall_forall in Hx.
      assert (lo ≤ x < lo + S len) by (apply Hi; left).
      destruct (decide (x = lo)) as [->|Hne]; [left|right].
      * exists l. split_and!; [done|simpl in Hl; lia|done|]. intros i Hin.
        specialize (Hx i Hin). specialize (Hi i ltac:(by right)). lia.
      * split_and!; [done|by apply StronglySorted_cons; rewrite Forall_forall|].
        intros i Hin. assert (lo ≤ i < lo + S len) by by apply Hi.
        apply elem_of_cons in Hin as [->|Hin%Hx]; lia.
Qed.

Lemma NoDup_combos n k : NoDup (combos n k).
Proof.
  revert k. induction n as [|n IH]; intros [|k]; simpl combos; [apply NoDup_singleton|constructor|
    apply NoDup_singleton|].
  apply NoDup_app. split_and!; [done| |].
  - intros l (_ & _ & Hi)%elem_of_combos (l' & -> & _)%list_elem_of_fmap.
    specialize (Hi n ltac:(set_solver)). lia.
  - apply NoDup_fmap_2; [|done]. intros l1 l2 Heq. by apply app_inv_tail in Heq.
Qed.

Lemma NoDup_lex_combos lo len k : NoDup (lex_combos lo len k).
Proof.
  revert lo k. induction len as [|len IH]; intros lo [|k]; simpl lex_combos; [apply NoDup_singleton|constructor|
    apply NoDup_singleton|].
  apply NoDup_app. split_and!; [| |done].
  - apply NoDup_fmap_2; [|done]. by intros l1 l2 [=].
  - intros l (l' & -> & _)%list_elem_of_fmap (_ & _ & Hi)%elem_of_lex_combos.
    specialize (Hi lo ltac:(left)). lia.
Qed.

Lemma lex_combos_perm n k : lex_combos 0 n k ≡ₚ combos n k.
Proof.
  apply NoDup_Permutation; [apply NoDup_lex_combos|apply NoDup_combos|]. intros l.
  rewrite elem_of_lex_combos, elem_of_combos. split; intros (Hl & Hs & Hi); split_and!; try done;
    intros i Hin%Hi; lia.
Qed.

Lemma sum_list_app_eq (l1 l2 : list nat) : sum_list (l1 ++ l2) = sum_list l1 + sum_list l2.
Proof. induction l1 as [|x l1 IH]; [done|]. cbn [app]. cbn in *. lia. Qed.

Lemma combos_0 n : combos n 0 = [[]].
Proof. by destruct n. Qed.

(** There are [2 ^ n] coalitions of [n] claims, the empty one and the full one included. *)
Lemma combos_count n K : n < K → sum_list ((λ k, length (combos n k)) <$> seq 0 K) = 2 ^ n.
Proof.
  revert K. induction n as [|n IH]; intros K HK.
  - destruct K as [|K]; [lia|]. cbn [seq]. rewrite fmap_cons, <-fmap_S_seq, <-list_fmap_compose.
    change (1 + sum_list ((λ _ : nat, 0) <$> seq 0 K) = 1). by rewrite sum_list_fmap_const, Nat.mul_0_r.
  - assert (∀ K, sum_list ((λ k, length (combos (S n) k)) <$> seq 0 (S K)) =
      sum_list ((λ k, length (combos n k)) <$> seq 0 (S K)) +
      sum_list ((λ k, length (combos n k)) <$> seq 0 K)) as Hstep.
    { clear. induction K as [|K IH]; [by destruct n|].
      rewrite (seq_S (S K)), !fmap_app, !sum_list_app_eq, IH, (seq_S K 0), !fmap_app, !sum_list_app_eq.
      cbn [fmap list_fmap sum_list Nat.add combos]. rewrite length_app, length_fmap. cbn. lia. }
    destruct K as [|K]; [lia|]. rewrite Hstep, !IH by lia. simpl. lia.
Qed.

(* ------------------------------------------------------------------ *)
(** ** What the iterators of one size yield *)

Lemma mask_to_indices_bits mask n :
  mask_to_indices mask n = filter (λ i, Z.testbit mask (Z.of_nat i) = true) (seq 0 n).
Proof.
  apply list_filter_iff. intros i. rewrite Z.shiftl_1_l. split.
  - intros Hne. apply not_false_iff_true. intros Hf. apply Hne. apply Z.bits_inj'. intros j Hj.
    rewrite Z.land_spec, Z.pow2_bits_eqb, Z.bits_0 by lia.
    destruct (Z.eqb_spec (Z.of_nat i) j) as [<-|]; [by rewrite Hf|apply andb_false_r].
  - intros Ht H0. apply (f_equal (λ z, Z.testbit z (Z.of_nat i))) in H0.
    by rewrite Z.land_spec, Z.pow2_bits_true, Z.bits_0, Ht in H0 by lia.
Qed.

Lemma mask_to_indices_S mask n :
  mask_to_indices mask (S n) =
  mask_to_indices mask n ++ (if Z.testbit mask (Z.of_nat n) then [n] else []).
Proof.
  rewrite !mask_to_indices_bits, seq_S, filter_app. f_equal. simpl.
  rewrite filter_cons. by destruct (Z.testbit mask _).
Qed.

(** A higher bit does not change the lower indices. *)
Lemma mask_to_indices_add n x :
  (0 ≤ x < 2 ^ Z.of_nat n)%Z →
  mask_to_indices (2 ^ Z.of_nat n + x) (S n) = mask_to_indices x n ++ [n].
Proof.
  intros Hx. rewrite mask_to_indices_S.
  replace (2 ^ Z.of_nat n + x)%Z with (1 * 2 ^ Z.of_nat n + x)%Z by lia.
  rewrite testbit_split, Z.ltb_irrefl, Z.sub_diag by lia. f_equal.
  rewrite !mask_to_indices_bits.
  assert (∀ i, i ∈ seq 0 n → Z.testbit (1 * 2 ^ Z.of_nat n + x) (Z.of_nat i) = Z.testbit x (Z.of_nat i)) as Hi.
  { intros i [_ Hi]%elem_of_seq. rewrite testbit_split by lia.
    by rewrite (proj2 (Z.ltb_lt _ _)) by lia. }
  induction (seq 0 n) as [|i l IH]; [done|]. rewrite !filter_cons, (Hi i) by left.
  rewrite IH; [done|]. intros j Hj. apply Hi. by right.
Qed.

Lemma mask_to_indices_masks n k : (λ m, mask_to_indices m n) <$> masks n k = combos n k.
Proof.
  revert k. induction n as [|n IH]; intros [|k]; cbn [masks combos]; [done|done| |].
  - cbn [fmap list_fmap]. f_equal. rewrite mask_to_indices_bits.
    induction (seq 0 (S n)) as [|i l IHl]; [done|]. rewrite filter_cons, Z.bits_0. by case_decide.
  - rewrite fmap_app, <-list_fmap_compose. f_equal.
    + rewrite <-IH. apply list_fmap_ext. intros i m Hm%list_elem_of_lookup_2%masks_bounds.
      rewrite mask_to_indices_S.
      rewrite <-(Z.mod_small m (2 ^ Z.of_nat n)), Z.mod_pow2_bits_high, Z.mod_small by lia.
      apply app_nil_r.
    + rewrite <-IH, <-list_fmap_compose. apply list_fmap_ext.
      intros i m [Hm _]%list_elem_of_lookup_2%masks_bounds. by apply mask_to_indices_add.
Qed.

(** The iterator in the middle of a linked list of masks. *)
Lemma bitset_yields_from n m l :
  linked (λ x y, next_same_popcount x = Some y) (m :: l) →
  (∀ x, x ∈ l → (x < 2 ^ Z.of_nat n)%Z) →
  (∀ x y, last (m :: l) = Some x → next_same_popcount x = Some y → (2 ^ Z.of_nat n ≤ y)%Z) →
  yields BitsetCoalitions_next (mkBitset n (Some m)) ((λ m, mask_to_indices m n) <$> m :: l).
Proof.
  revert m. induction l as [|m' l IH]; intros m [Hm Hl] Hb Hlast; cbn [fmap list_fmap].
  - eapply yields_cons; [done|]. cbn [bc_claim_count]. rewrite Z.shiftl_1_l.
    destruct (next_same_popcount m) as [y|] eqn:Hy; [|by eapply yields_nil].
    rewrite (proj2 (Z.ltb_ge _ _)) by by eapply Hlast. by eapply yields_nil.
  - eapply yields_cons; [done|]. cbn [bc_claim_count]. rewrite Z.shiftl_1_l.
    simpl in Hm. rewrite Hm. rewrite (proj2 (Z.ltb_lt _ _)) by (apply Hb; left).
    apply IH; [done| |done]. intros x Hx. apply Hb. by right.
Qed.

Lemma bitset_yields n k :
  n ≤ 63 → 0 < k → yields BitsetCoalitions_next (BitsetCoalitions_new n k) (combos n k).
Proof.
  intros Hn Hk. unfold BitsetCoalitions_new. rewrite (bool_decide_false (k = 0)) by lia. cbn [orb].
  rewrite <-mask_to_indices_masks. case_bool_decide as Hnk.
  { rewrite masks_nil by done. by eapply yields_nil. }
  pose proof (masks_head n k ltac:(lia)) as Hh. pose proof (masks_last n k ltac:(lia)) as Hl.
  pose proof (masks_linked n k Hk Hn) as Hlink. pose proof (masks_bounds n k) as Hb.
  destruct (masks n k) as [|m l]; [done|]. injection Hh as ->. rewrite Z.shiftl_1_l.
  apply bitset_yields_from; [done| |].
  - intros x Hx. apply Hb. by right.
  - intros x y Hx. rewrite Hx in Hl. injection Hl as ->.
    apply last_Some_elem_of, Hb in Hx as [Hx _].
    assert ((2 ^ Z.of_nat k - 1) * 2 ^ Z.of_nat (n - k) = run (Z.of_nat (n - k)) (Z.of_nat k) 0)%Z
      as Hrun by (unfold run; ring).
    pose proof (Z.pow_le_mono_r 2 (Z.of_nat n) 63).
    rewrite Hrun in *. rewrite next_same_popcount_run by lia. intros [= <-].
    replace (Z.of_nat (n - k) + Z.of_nat k)%Z with (Z.of_nat n) by lia.
    pose proof (Z.pow_pos_nonneg 2 (Z.of_nat k - 1)). lia.
Qed.

(** *** The vector step *)

Lemma reset_shift a l p m :
  foldl (λ next suffix, <[suffix := S (next !!! (suffix - 1))]> next) (a :: l) (seq (S (S p)) m) =
  a :: foldl (λ next suffix, <[suffix := S (next !!! (suffix - 1))]> next) l (seq (S p) m).
Proof.
  revert l p. induction m as [|m IH]; intros l p; [done|]. cbn [seq foldl].
  rewrite <-IH. f_equal. simpl. by rewrite Nat.sub_0_r.
Qed.

Lemma reset_suffix_cons a l p k :
  reset_suffix (a :: l) (S p) (S k) = a :: reset_suffix l p k.
Proof. unfold reset_suffix. rewrite reset_shift. done. Qed.

Lemma reset_suffix_0 a l : reset_suffix (a :: l) 0 (S (length l)) = seq a (S (length l)).
Proof.
  unfold reset_suffix. simpl Nat.sub. rewrite Nat.sub_0_r. cbn [seq].
  revert a. induction l as [|b l IH]; intros a; [done|].
  cbn [length seq foldl]. change (<[1:=S ((a :: b :: l) !!! (1 - 1))]> (a :: b :: l)) with (a :: S a :: l).
  rewrite reset_shift, IH. done.
Qed.

Lemma next_vec_from_cons a l n k f :
  k < n → length l = k → f ≤ k →
  next_vec_combination_from (a :: l) n (S k) (S f) =
  match next_vec_combination_from l n k f with
  | Some l' => Some (a :: l')
  | None => if decide (a < n - S k) then Some (seq (S a) (S k)) else None
  end.
Proof.
  intros Hn Hl. induction f as [|f IH]; intros Hf.
  - cbn [next_vec_combination_from]. rewrite Nat.add_0_r. change ((a :: l) !!! 0) with a.
    case_decide; [|done]. change (alter S 0 (a :: l)) with (S a :: l). subst k. by rewrite reset_suffix_0.
  - specialize (IH ltac:(lia)). cbn [next_vec_combination_from] in IH |- *.
    change ((a :: l) !!! S f) with (l !!! f).
    replace (n - S k + S f) with (n - k + f) by lia.
    destruct (decide (l !!! f < n - k + f)).
    + change (alter S (S f) (a :: l)) with (a :: alter S f l). by rewrite reset_suffix_cons.
    + exact IH.
Qed.

Lemma next_vec_cons a l n :
  length l < n →
  next_vec_combination (a :: l) n =
  match next_vec_combination l n with
  | Some l' => Some (a :: l')
  | None => if decide (a < n - S (length l)) then Some (seq (S a) (S (length l))) else None
  end.
Proof. intros Hl. unfold next_vec_combination. cbn [length]. by apply next_vec_from_cons. Qed.

Lemma lex_combos_nil lo len k : len < k → lex_combos lo len k = [].
Proof.
  revert lo k. induction len as [|len IH]; intros lo [|k] Hk; simpl; [lia|done|lia|].
  by rewrite !IH by lia.
Qed.

Lemma lex_combos_head lo len k : k ≤ len → head (lex_combos lo len k) = Some (seq lo k).
Proof.
  revert lo k. induction len as [|len IH]; intros lo [|k] Hk; simpl; [done|lia|done|].
  by rewrite head_app, head_fmap_eq, IH by lia.
Qed.

(** The last combination has no successor, any other is followed by the next. *)
Lemma lex_combos_linked lo len k :
  linked (λ x y, next_vec_combination x (lo + len) = Some y) (lex_combos lo len k) ∧
  (∀ x, last (lex_combos lo len k) = Some x → next_vec_combination x (lo + len) = None).
Proof.
  revert lo k. induction len as [|len IH]; intros lo [|k]; cbn [lex_combos].
  1, 3: split; [done|by intros x [= <-]].
  { done. }
  destruct (IH (S lo) k) as [H1 H1l]. destruct (IH (S lo) (S k)) as [H2 H2l].
  replace (S lo + len) with (lo + S len) in * by lia.
  assert (∀ l, l ∈ lex_combos (S lo) len k → length l = k ∧ k ≤ len) as Hlen.
  { intros l Hl. destruct (decide (k ≤ len)); [|rewrite lex_combos_nil in Hl by lia; by apply not_elem_of_nil in Hl].
    apply elem_of_lex_combos in Hl. tauto. }
  split.
  - apply linked_app; [|done|].
    + apply linked_fmap. eapply linked_impl; [|exact H1]. intros x y [Hx Hk]%Hlen Hy Hn.
      rewrite next_vec_cons by lia. by rewrite Hn.
    + intros x y. rewrite fmap_last, fmap_Some. intros (x' & Hx & ->) Hy.
      pose proof (Hlen x' (last_Some_elem_of _ _ Hx)) as [Hxk Hk].
      rewrite next_vec_cons, H1l, Hxk by (done || lia).
      destruct (decide (S k ≤ len)); [|by rewrite lex_combos_nil in Hy by lia].
      rewrite lex_combos_head in Hy by done. injection Hy as <-. by rewrite decide_True by lia.
  - intros x. rewrite last_app. destruct (last (lex_combos (S lo) len (S k))) as [y|] eqn:Hy.
    + intros [= ->]. by apply H2l.
    + rewrite fmap_last, fmap_Some. intros (x' & Hx & ->).
      pose proof (Hlen x' (last_Some_elem_of _ _ Hx)) as [Hxk Hk].
      rewrite next_vec_cons, H1l, Hxk by (done || lia). rewrite decide_False; [done|].
      apply last_None in Hy. intros Hlt.
      pose proof (lex_combos_head (S lo) len (S k) ltac:(lia)) as Hh. by rewrite Hy in Hh.
Qed.

Lemma vec_yields_from n l ls :
  linked (λ x y, next_vec_combination x n = Some y) (l :: ls) →
  (∀ x, last (l :: ls) = Some x → next_vec_combination x n = None) →
  yields VecCoalitions_next (mkVec n (Some l)) (l :: ls).
Proof.
  revert l. induction ls as [|l' ls IH]; intros l [Hl Hls] Hlast;
    (eapply yields_cons; [done|]); cbn [vc_claim_count].
  - rewrite Hlast by done. by eapply yields_nil.
  - simpl in Hl. rewrite Hl. by apply IH.
Qed.

Lemma vec_yields n k : 0 < k → yields VecCoalitions_next (VecCoalitions_new n k) (lex_combos 0 n k).
Proof.
  intros Hk. unfold VecCoalitions_new. rewrite (bool_decide_false (k = 0)) by lia. cbn [orb].
  case_bool_decide as Hnk.
  { rewrite lex_combos_nil by done. by eapply yields_nil. }
  pose proof (lex_combos_head 0 n k ltac:(lia)) as Hh.
  destruct (lex_combos_linked 0 n k) as [Hl Hlast].
  destruct (lex_combos 0 n k) as [|l ls]; [done|]. injection Hh as ->. by apply vec_yields_from.
Qed.

(* ------------------------------------------------------------------ *)
(** ** All sizes *)

Definition size_coalitions (n k : nat) : list (list nat) :=
  if decide (n ≤ 63) then combos n k else lex_combos 0 n k.

Lemma size_coalitions_perm n k : size_coalitions n k ≡ₚ combos n k.
Proof. unfold size_coalitions. case_decide; [done|apply lex_combos_perm]. Qed.

Lemma size_yields n k :
  0 < k → yields CoalitionSizeEnumeration_next (CoalitionSizeEnumeration_new n k) (size_coalitions n k).
Proof.
  intros Hk. unfold CoalitionSizeEnumeration_new, size_coalitions. case_decide as Hn.
  - induction (bitset_yields n k Hn Hk) as [s s' Hs|s s' x l Hs _ IH].
    + eapply (yields_nil _ _ (Bitset s')). simpl. by rewrite Hs.
    + eapply (yields_cons _ _ (Bitset s')); [|done]. simpl. by rewrite Hs.
  - induction (vec_yields n k Hk) as [s s' Hs|s s' x l Hs _ IH].
    + eapply (yields_nil _ _ (Vector s')). simpl. by rewrite Hs.
    + eapply (yields_cons _ _ (Vector s')); [|done]. simpl. by rewrite Hs.
Qed.

(** What is left of the current size. *)
Definition current_yields (current : option CoalitionSizeEnumeration) (items : list (list nat)) : Prop :=
  match current with
  | Some c => yields CoalitionSizeEnumeration_next c items
  | None => items = []
  end.

(** The coalitions of the sizes from [k] up to [max]. *)
Definition sizes_from (n k max : nat) : list (list nat) :=
  mjoin (size_coalitions n <$> seq k (S max - k)).

Lemma sizes_from_cons n k max :
  k ≤ max → sizes_from n k max = size_coalitions n k ++ sizes_from n (S k) max.
Proof.
  intros Hk. unfold sizes_from. replace (S max - k) with (S (S max - S k)) by lia. done.
Qed.

Lemma next_from_spec fuel n k max current items :
  0 < k → S max - k < fuel → current_yields current items →
  match items ++ sizes_from n k max with
  | [] => ∃ self, CoalitionEnumeration_next_from fuel (mkCoalitions n k max current) = (None, self)
  | item :: rest => ∃ k' current' items',
      CoalitionEnumeration_next_from fuel (mkCoalitions n k max current) =
        (Some item, mkCoalitions n k' max current') ∧
      0 < k' ∧ current_yields current' items' ∧ rest = items' ++ sizes_from n k' max
  end.
Proof.
  revert k current items. induction fuel as [|fuel IH]; intros k current items Hk Hf Hc; [lia|].
  cbn [CoalitionEnumeration_next_from ce_current ce_claim_count max_removed_size next_size].
  destruct items as [|item items].
  - set (step := match current with Some _ => _ | None => _ end).
    assert (∃ c, step = (None, c)) as [c ->].
    { unfold step. destruct current as [c|]; [|eauto]. inversion Hc as [? c' Hn|]; subst. rewrite Hn. eauto. }
    cbn [app ce_claim_count max_removed_size next_size]. destruct (decide (max < k)).
    + unfold sizes_from. replace (S max - k) with 0 by lia. simpl. eauto.
    + rewrite sizes_from_cons by lia. apply IH; [lia|lia|]. by apply size_yields.
  - destruct current as [c|]; [|done]. inversion Hc as [|? c' ? ? Hn Hy]; subst. rewrite Hn.
    cbn [app]. exists k, (Some c'), items. done.
Qed.

Lemma all_sizes_yield n max items :
  ∀ k current current_items, 0 < k → current_yields current current_items →
  items = current_items ++ sizes_from n k max →
  yields CoalitionEnumeration_next (mkCoalitions n k max current) items.
Proof.
  induction items as [|item items IH]; intros k current ci Hk Hc Heq;
    pose proof (next_from_spec (S (S max - k)) n k max current ci Hk ltac:(lia) Hc) as Hs;
    rewrite <-Heq in Hs.
  - destruct Hs as [self Hs]. by eapply yields_nil.
  - destruct Hs as (k' & c' & ci' & Hs & Hk' & Hc' & Hrest). eapply yields_cons; [exact Hs|].
    by eapply IH.
Qed.

Lemma length_sizes_from n max : max < n → length (sizes_from n 1 max) < 2 ^ n.
Proof.
  intros Hmax. pose proof (combos_count n (S n) ltac:(lia)) as Hc.
  unfold sizes_from. rewrite length_join, <-list_fmap_compose.
  rewrite (list_fmap_ext _ (λ k, length (combos n k))).
  2:{ intros i k _. simpl. by rewrite size_coalitions_perm. }
  replace (S n) with (1 + (S max - 1) + (n - max)) in Hc by lia.
  rewrite (seq_app (1 + _)), (seq_app 1), !fmap_app, !sum_list_app_eq in Hc.
  cbn [seq fmap list_fmap] in Hc. rewrite combos_0 in Hc. cbn [length] in Hc.
  change (sum_list [1]) with 1 in Hc. cbn [Nat.add] in Hc. lia.
Qed.

Lemma coalitions_eq n mode : coalitions n mode = sizes_from n 1 (mode_max_removed n mode).
Proof.
  unfold coalitions, CoalitionEnumeration_new. apply collect_yields.
  - eapply (all_sizes_yield _ _ _ 1 None []); [lia|done|done].
  - destruct (decide (n = 0)) as [->|Hn].
    + assert (mode_max_removed 0 mode = 0) as -> by (destruct mode; simpl; lia). simpl. lia.
    + apply Nat.lt_le_incl, length_sizes_from. destruct mode; simpl; lia.
Qed.

(** A coalition the mode admits: its indices increase, are those of claims, and
    there are between one and [mode_max_removed] of them. *)
Definition admitted_coalition (n : nat) (mode : ConsistencyMode) (l : list nat) : Prop :=
  increasing l ∧ (∀ i, i ∈ l → i < n) ∧ 1 ≤ length l ≤ mode_max_removed n mode.

Lemma elem_of_sizes_from n k max l :
  l ∈ sizes_from n k max ↔ increasing l ∧ (∀ i, i ∈ l → i < n) ∧ k ≤ length l ≤ max.
Proof.
  unfold sizes_from. rewrite list_elem_of_join. setoid_rewrite list_elem_of_fmap.
  setoid_rewrite elem_of_seq. split.
  - intros (ls & Hl & s & -> & Hs). rewrite size_coalitions_perm, elem_of_combos in Hl.
    destruct Hl as (Hlen & Hi & Hb). split_and!; [done|done|lia|lia].
  - intros (Hi & Hb & Hlen). exists (size_coalitions n (length l)).
    rewrite size_coalitions_perm, elem_of_combos. split; [done|]. exists (length l). split; [done|lia].
Qed.

Lemma NoDup_sizes_from n k max : NoDup (sizes_from n k max).
Proof.
  remember (S max - k) as j eqn:Hj. revert k Hj. induction j as [|j IH]; intros k Hj.
  { unfold sizes_from. rewrite <-Hj. constructor. }
  rewrite sizes_from_cons by lia. apply NoDup_app. split_and!; [|..|apply IH; lia].
  - rewrite size_coalitions_perm. apply NoDup_combos.
  - intros l Hl (_ & _ & Hk)%elem_of_sizes_from. rewrite size_coalitions_perm in Hl.
    apply elem_of_combos in Hl as (Hl & _). lia.
Qed.

Lemma sizes_from_sorted n k max :
  StronglySorted (λ l1 l2, length l1 ≤ length l2) (sizes_from n k max).
Proof.
  remember (S max - k) as j eqn:Hj. revert k Hj. induction j as [|j IH]; intros k Hj.
  { unfold sizes_from. rewrite <-Hj. constructor. }
  rewrite sizes_from_cons by lia.
  assert (∀ l, l ∈ size_coalitions n k → length l = k) as Hsize.
  { intros l Hl. rewrite size_coalitions_perm in Hl. by apply elem_of_combos in Hl as (Hl & _). }
  apply StronglySorted_app_2; [| |apply IH; lia].
  - intros l1 l2 H1%Hsize (_ & _ & H2)%elem_of_sizes_from. lia.
  - induction (size_coalitions n k) as [|l ls IHl]; constructor; [apply IHl; set_solver|].
    apply Forall_forall. intros l' Hl'. rewrite !Hsize by set_solver. done.
Qed.

(** C38: the enumeration behind the consistency check is exact: a loop over the
    coalition iterator sees every admitted coalition (for the full mode, every
    non-empty proper set of claims) exactly once, smaller coalitions first,
    with the mask iterator used up to 63 claims as well as with the vector
    iterator used above; in the full mode these are 2^n - 2 coalitions. *)
Theorem coalition_enumeration_exact n mode :
  (∀ l, l ∈ coalitions n mode ↔ admitted_coalition n mode l) ∧
  NoDup (coalitions n mode) ∧
  StronglySorted (λ l1 l2, length l1 ≤ length l2) (coalitions n mode) ∧
  (mode = Full → length (coalitions n mode) = 2 ^ n - 2).
Proof.
  rewrite coalitions_eq. split_and!; [|apply NoDup_sizes_from|apply sizes_from_sorted|].
  - intros l. apply elem_of_sizes_from.
  - intros ->. simpl. destruct n as [|n]; [done|].
    pose proof (combos_count (S n) (S (S n)) ltac:(lia)) as Hc.
    unfold sizes_from. rewrite length_join, <-list_fmap_compose.
    rewrite (list_fmap_ext _ (λ k, length (combos (S n) k))).
    2:{ intros i k _. simpl. by rewrite size_coalitions_perm. }
    replace (S (S n - 1) - 1) with n by lia.
    replace (S (S n)) with (1 + (n + 1)) in Hc by lia.
    rewrite (seq_app 1), (seq_app n), !fmap_app, !sum_list_app_eq in Hc.
    cbn [seq fmap list_fmap] in Hc. rewrite combos_0 in Hc.
    assert (combos (S n) (0 + 1 + n) = [seq 0 (S n)]) as Hfull.
    { simpl Nat.add. clear Hc. change (seq 0 (S n)) with (seq 0 (1 + n)).
      assert (∀ k, combos k k = [seq 0 k]) as Hd; [|apply Hd].
      induction k as [|k IH]; [done|]. cbn [combos]. rewrite IH.
      assert (combos k (S k) = []) as ->; [|by rewrite seq_S].
      rewrite <-mask_to_indices_masks, masks_nil by lia. done. }
    rewrite Hfull in Hc. cbn [length] in Hc. change (sum_list [1]) with 1 in Hc. cbn [Nat.add] in Hc. lia.
Qed.

Lemma coalition_enumeration_exact_witness :
  (∀ l, l ∈ coalitions 64 Full ↔ admitted_coalition 64 Full l) ∧
  length (coalitions 20 Full) = 2 ^ 20 - 2.
Proof.
  split.
  - exact (proj1 (coalition_enumeration_exact 64 Full)).
  - exact (proj2 (proj2 (proj2 (coalition_enumeration_exact 20 Full))) eq_refl).
Defined.
