(* ===== verification/RuleDiagnostics.v ===== *)
(** * The axiom checks of rules
      (src/axioms/diagnostics/{consistency,solidarity,monotonicity}.rs, src/mechanism.rs)

    Young consistency over the enumerated coalitions, solidarity under estate
    shocks, monotonicity under strengthened claims, and strategyproofness.  A
    check is a loop that counts perturbations or leaves with a counterexample;
    the complexity counters are threaded as the source updates them.  Log output
    is left out. *)

From S2P Require Import Prelude F64 F64Bits Errors Core GraphNode Tarjan GraphTraverse GraphCycle BinaryDiagnostics Mechanism Rules Coalitions.
From stdpp Require Import options.

Definition FULL_CONSISTENCY_WARN_CLAIMANTS : nat := 20.

Record FullConsistencyOptions := mkConsistencyOptions {
  mode : ConsistencyMode;
  allow_exponential_consistency : bool;
}.

Definition FullConsistencyOptions_default : FullConsistencyOptions := mkConsistencyOptions Full false.

Record ConsistencyComplexity := mkComplexity {
  coalitions_tested : nat;
  survivor_checks : nat;
}.

Record FullConsistencyAudit := mkConsistencyAudit {
  verdict : Verdict;
  complexity : ConsistencyComplexity;
}.

(** [EPSILON + EPSILON * (a.abs() + b.abs())] *)
Definition share_tolerance (a b : f64) : f64 :=
  f64_add EPSILON (f64_mul EPSILON (f64_add (f64_abs a) (f64_abs b))).

(* ------------------------------------------------------------------ *)
(** ** Consistency *)

Definition validate_full_complexity_gate (claimant_count : nat) (allow_exponential_consistency : bool)
    : LResult unit :=
  if bool_decide (FULL_CONSISTENCY_WARN_CLAIMANTS < claimant_count)
     && negb allow_exponential_consistency
  then Err (invalid_input [Txt "full Young consistency for "; Int (Z.of_nat claimant_count);
              Txt " claimants requires --allow-exponential-consistency"])
  else Ok ().

Definition axiom_label (mode : ConsistencyMode) : string :=
  match mode with
  | Full => "consistency (Young full sub-coalition)"
  | Bounded 2 => "consistency (single-claimant and pair reductions)"
  | Bounded max_removed =>
      "consistency (bounded sub-coalitions, max_removed=" +:+ show_nat max_removed +:+ ")"
  end.

Definition removed_lookup (claim_count : nat) (removed_indices : list nat) : list bool :=
  foldl (λ lookup index, <[index := true]> lookup) (replicate claim_count false) removed_indices.

(** The claims that survive the removal. *)
Definition reduce_claims {C} (claims : list C) (removed_indices : list nat) : list C :=
  let removed_lookup := removed_lookup (length claims) removed_indices in
  (filter (λ p, removed_lookup !! p.1 = Some false) (enumerate claims)).*2.

Definition removed_claim_ids (claims : list Claim) (removed_indices : list nat) : LResult (list string) :=
  try_map (λ index, claim ← ok_or (claims !! index) (panicked "index out of bounds"); Ok (claim_id claim))
    removed_indices.

(** One survivor. *)
Definition survivor_step (claims : list Claim) (estate : Estate) (original_allocation : ValidAllocation)
    (removed_ids : list string) (reduced_claims : list Claim) (reduced_estate : Estate)
    (reduced_allocation : ValidAllocation) (axiom : string) (complexity : ConsistencyComplexity)
    (claim : Claim) : LResult (Flow ConsistencyComplexity (Verdict * ConsistencyComplexity)) :=
  let complexity := mkComplexity (coalitions_tested complexity) (S (survivor_checks complexity)) in
  original_share ← share_for original_allocation (claim_id claim) "consistency original share";
  reduced_share ← share_for reduced_allocation (claim_id claim) "consistency reduced share";
  if f64_ltb (share_tolerance original_share reduced_share)
       (f64_abs (f64_sub original_share reduced_share)) then
    let affected_id := claim_id claim in
    let removed_label := join ", " removed_ids in
    Ok (Break (Rejected axiom (mkCounterexample
          [Txt "Coalition witness ["; Txt removed_label; Txt "] changed '"; Txt affected_id;
           Txt "' allocation from "; Num4 original_share; Txt " to "; Num4 reduced_share]
          claims estate original_allocation reduced_claims reduced_estate reduced_allocation
          [Txt "Removing coalition ["; Txt removed_label; Txt "] changed the allocation of '";
           Txt affected_id; Txt "'. The rule's verdict depends on who is in the room, not just on the surviving claimants' claims against the reduced estate. coalitions_tested=";
           Int (Z.of_nat (coalitions_tested complexity)); Txt ", survivor_checks=";
           Int (Z.of_nat (survivor_checks complexity))]), complexity))
  else Ok (Continue complexity).

Definition evaluate_reduction (rule : Rule) (claims : list Claim) (estate : Estate)
    (original_allocation : ValidAllocation) (axiom : string) (complexity : ConsistencyComplexity)
    (removed_indices : list nat)
    : LResult (Flow ConsistencyComplexity (Verdict * ConsistencyComplexity)) :=
  removed_ids ← removed_claim_ids claims removed_indices;
  let reduced_claims := reduce_claims claims removed_indices in
  shares ← try_map (λ claim,
             share_for original_allocation (claim_id claim) "consistency reduction surviving share")
             reduced_claims;
  let reduced_total := f64_sum shares in
  let complexity := mkComplexity (S (coalitions_tested complexity)) (survivor_checks complexity) in
  if bool_decide (reduced_claims = []) || f64_leb reduced_total EPSILON then Ok (Continue complexity)
  else
    reduced_estate ← Estate_new reduced_total (estate_unit estate);
    reduced_allocation ← evaluate_rule rule reduced_claims reduced_estate "consistency reduction";
    try_loop (survivor_step claims estate original_allocation removed_ids reduced_claims
                reduced_estate reduced_allocation axiom) complexity reduced_claims.

Definition check_consistency_with_mode (rule : Rule) (claims : list Claim) (estate : Estate)
    (mode : ConsistencyMode) : LResult FullConsistencyAudit :=
  original_allocation ← evaluate_rule rule claims estate "consistency baseline";
  let axiom := axiom_label mode in
  fl ← try_loop (evaluate_reduction rule claims estate original_allocation axiom)
         (mkComplexity 0 0) (coalitions (length claims) mode);
  match fl with
  | Continue complexity =>
      Ok (mkConsistencyAudit (Admissible axiom (coalitions_tested complexity)) complexity)
  | Break (verdict, complexity) => Ok (mkConsistencyAudit verdict complexity)
  end.

Definition check_full_consistency_audit (rule : Rule) (claims : list Claim) (estate : Estate)
    (options : FullConsistencyOptions) : LResult FullConsistencyAudit :=
  _ ← (if decide (mode options = Full)
       then validate_full_complexity_gate (length claims) (allow_exponential_consistency options)
       else Ok ());
  check_consistency_with_mode rule claims estate (mode options).

Definition check_full_consistency (rule : Rule) (claims : list Claim) (estate : Estate)
    (options : FullConsistencyOptions) : LResult Verdict :=
  audit ← check_full_consistency_audit rule claims estate options; Ok (verdict audit).

Definition check_consistency (rule : Rule) (claims : list Claim) (estate : Estate) : LResult Verdict :=
  check_full_consistency rule claims estate FullConsistencyOptions_default.

Definition check_bounded_consistency (rule : Rule) (claims : list Claim) (estate : Estate)
    (max_removed : nat) : LResult Verdict :=
  audit ← check_consistency_with_mode rule claims estate (Bounded max_removed); Ok (verdict audit).

Definition check_singles_pairs_consistency (rule : Rule) (claims : list Claim) (estate : Estate)
    : LResult Verdict := check_bounded_consistency rule claims estate 2.

(* ------------------------------------------------------------------ *)
(** ** Solidarity *)

(** A shock: the scaled estate and the allocation it leads to. *)
Record ShockedState := mkShocked {
  shocked_estate : Estate;
  shocked_allocation : ValidAllocation;
}.

Definition class_evenness_violation (claims : list Claim) (estate : Estate)
    (original_allocation : ValidAllocation) (shocked : ShockedState) (priority_class : string)
    (class_members : list Claimant) (is_loss : bool) : LResult (option Counterexample) :=
  changed_members ← try_fold (λ changed_members member,
      before ← share_for original_allocation (claimant_ident member) "solidarity class baseline share";
      after ← share_for (shocked_allocation shocked) (claimant_ident member) "solidarity class shocked share";
      Ok (if f64_ltb EPSILON before
             && f64_ltb (share_tolerance before after) (f64_abs (f64_sub before after))
          then changed_members ++ [(claimant_ident member, f64_div after before)]
          else changed_members)) [] class_members;
  match changed_members with
  | (_, reference_ratio) :: (_ :: _) as rest =>
      if forallb (λ p, f64_leb (f64_abs (f64_sub p.2 reference_ratio)) EPSILON) (tail rest)
      then Ok None
      else
        let direction := if is_loss then "loss" else "gain" in
        Ok (Some (mkCounterexample
          ([Txt "Priority class '"; Txt priority_class; Txt "' absorbed a common "; Txt direction;
            Txt " unevenly: "] ++
           tail (mjoin ((λ p, [Txt ", "; Txt p.1; Txt ": "; Num4 p.2; Txt "x"]) <$> changed_members)))
          claims estate original_allocation claims (shocked_estate shocked) (shocked_allocation shocked)
          [Txt "Priority class '"; Txt priority_class;
           Txt "' moved in the same direction, but not by the same proportion. Solidarity requires common shocks to be shared evenly within a class."]))
  | _ => Ok None
  end.

(** Who gained and who lost in a class, beyond the tolerance. *)
Definition class_movements (original_allocation shocked_allocation : ValidAllocation)
    (class_members : list Claimant) : LResult (list string * list string) :=
  try_fold (λ '(gained, lost) member,
    before ← share_for original_allocation (claimant_ident member) "solidarity baseline share";
    after ← share_for shocked_allocation (claimant_ident member) "solidarity shocked share";
    let tol := share_tolerance after before in
    Ok (if f64_ltb (f64_add before tol) after then (gained ++ [claimant_ident member], lost)
        else if f64_ltb after (f64_sub before tol) then (gained, lost ++ [claimant_ident member])
        else (gained, lost))) ([], []) class_members.

Definition loss_description (scale : f64) (priority_class : string) (gained lost : list string) : Message :=
  let percent := f64_mul (f64_sub f64_one scale) (f64_of_Z 100) in
  if decide (lost = []) then
    [Txt "Estate shrank by "; Num0 percent; Txt "% but all members of priority class '";
     Txt priority_class; Txt "' gained: "; Names gained]
  else
    [Txt "Estate shrank by "; Num0 percent; Txt "% but in priority class '"; Txt priority_class;
     Txt "': "; Names gained; Txt " gained while "; Names lost; Txt " lost"].

Definition gain_description (scale : f64) (priority_class : string) (gained lost : list string) : Message :=
  let percent := f64_mul (f64_sub scale f64_one) (f64_of_Z 100) in
  if decide (gained = []) then
    [Txt "Estate grew by "; Num0 percent; Txt "% but all members of priority class '";
     Txt priority_class; Txt "' lost: "; Names lost]
  else
    [Txt "Estate grew by "; Num0 percent; Txt "% but in priority class '"; Txt priority_class;
     Txt "': "; Names lost; Txt " lost while "; Names gained; Txt " gained"].

(** One priority class under one shock. *)
Definition solidarity_class_step (claims : list Claim) (estate : Estate) (claimants : list Claimant)
    (original_allocation : ValidAllocation) (scale : f64) (shocked : ShockedState)
    (_ : unit) (priority_class : string) : LResult (Flow unit Verdict) :=
  let is_loss := f64_ltb scale f64_one in
  let class_members := filter (λ c, claimant_priority_class c = priority_class) claimants in
  if bool_decide (length class_members < 2) then Ok (Continue ())
  else
    movements ← class_movements original_allocation (shocked_allocation shocked) class_members;
    let '(gained, lost) := movements in
    if is_loss && negb (bool_decide (gained = [])) then
      Ok (Break (Rejected "solidarity" (mkCounterexample
            (loss_description scale priority_class gained lost)
            claims estate original_allocation claims (shocked_estate shocked) (shocked_allocation shocked)
            [Txt "Common loss produced an accidental winner in class '"; Txt priority_class;
             Txt "'. The rule distributes common losses through accidents of implementation."])))
    else if negb is_loss && negb (bool_decide (lost = [])) then
      Ok (Break (Rejected "solidarity" (mkCounterexample
            (gain_description scale priority_class gained lost)
            claims estate original_allocation claims (shocked_estate shocked) (shocked_allocation shocked)
            [Txt "Common gain produced an accidental loser in class '"; Txt priority_class;
             Txt "'. The rule distributes common gains through accidents of implementation."])))
    else
      uneven ← class_evenness_violation claims estate original_allocation shocked priority_class
                 class_members is_loss;
      match uneven with
      | Some counterexample => Ok (Break (Rejected "solidarity" counterexample))
      | None => Ok (Continue ())
      end.

(** One scale factor. *)
Definition solidarity_step (rule : Rule) (claims : list Claim) (estate : Estate)
    (claimants : list Claimant) (original_allocation : ValidAllocation) (perturbations_tested : nat)
    (scale : f64) : LResult (Flow nat Verdict) :=
  if f64_ltb (f64_abs (f64_sub scale f64_one)) EPSILON then Ok (Continue perturbations_tested)
  else
    total ← EstateTotal_scale (estate_total estate) scale;
    let shocked_estate := mkEstate total (estate_unit estate) in
    shocked_allocation ← evaluate_rule rule claims shocked_estate "solidarity shocked";
    fl ← try_loop (solidarity_class_step claims estate claimants original_allocation scale
                     (mkShocked shocked_estate shocked_allocation)) () (priority_classes rule);
    match fl with
    | Continue _ => Ok (Continue (S perturbations_tested))
    | Break v => Ok (Break v)
    end.

Definition check_solidarity (rule : Rule) (claims : list Claim) (estate : Estate)
    (claimants : list Claimant) (scale_factors : list f64) : LResult Verdict :=
  original_allocation ← evaluate_rule rule claims estate "solidarity baseline";
  conclude "solidarity"
    (try_loop (solidarity_step rule claims estate claimants original_allocation) 0 scale_factors).

(* ------------------------------------------------------------------ *)
(** ** Monotonicity *)

Definition monotonicity_label (inversion : bool) : string :=
  if inversion then "monotonicity (inverted)" else "monotonicity".

(** The claims with the one at [i] strengthened. *)
Definition strengthen_at (claims : list Claim) (i : nat) (delta : f64) : LResult (list Claim) :=
  claim ← ok_or (claims !! i) (panicked "index out of bounds");
  strength ← PositiveStrength_new (f64_add (claim_strength claim) delta);
  Ok (<[i := mkClaim (claim_id claim) strength (claim_metrics claim)]> claims).

(** One delta. *)
Definition monotonicity_step (rule : Rule) (claims : list Claim) (estate : Estate)
    (original_allocation : ValidAllocation) (inversion : bool) (i : nat)
    (perturbations_tested : nat) (delta : f64) : LResult (Flow nat Verdict) :=
  strengthened_claims ← strengthen_at claims i delta;
  strengthened_allocation ← evaluate_rule rule strengthened_claims estate "monotonicity strengthening";
  claim ← ok_or (claims !! i) (panicked "index out of bounds");
  let id := claim_id claim in
  before ← share_for original_allocation id "monotonicity baseline share";
  after ← share_for strengthened_allocation id "monotonicity strengthened share";
  let tol := share_tolerance after before in
  let violation :=
    if inversion then f64_ltb (f64_add before tol) after else f64_ltb after (f64_sub before tol) in
  if violation then
    Ok (Break (Rejected (monotonicity_label inversion) (mkCounterexample
          [Txt "Strengthening '"; Txt id; Txt "' claim by "; Num2 delta;
           Txt (if inversion then " increased allocation from " else " decreased allocation from ");
           Num4 before; Txt " to "; Num4 after]
          claims estate original_allocation strengthened_claims estate strengthened_allocation
          (if inversion
           then [Txt "More evidence of '"; Txt id;
                 Txt "' danger increased its allocation. The safety-clearance rule rewards the very risk it is meant to suppress."]
           else [Txt "More evidence of '"; Txt id;
                 Txt "' strength lowered its allocation. The rule punishes the very thing it claims to reward."]))))
  else Ok (Continue (S perturbations_tested)).

Definition check_monotonicity (rule : Rule) (claims : list Claim) (estate : Estate)
    (strength_deltas : list f64) (inversion : bool) : LResult Verdict :=
  original_allocation ← evaluate_rule rule claims estate "monotonicity baseline";
  conclude (monotonicity_label inversion)
    (try_loop (λ tested i,
       try_loop (monotonicity_step rule claims estate original_allocation inversion i) tested
         strength_deltas) 0 (seq 0 (length claims))).

(* ------------------------------------------------------------------ *)
(** ** Strategyproofness *)

Definition check_strategyproofness (rule : Rule) (claims : list Claim) (estate : Estate)
    : LResult StrategyproofnessVerdict :=
  baseline ← evaluate_rule rule claims estate STRATEGYPROOF_CONTEXT;
  check_reported_strength_manipulations claims (allocation_scores baseline) (λ candidate_claims,
    manipulated ← evaluate_rule rule candidate_claims estate MANIPULATION_CONTEXT;
    Ok (allocation_scores manipulated)).

(* ------------------------------------------------------------------ *)
(** * What the axiom checks of rules decide

    The consistency check is exact over the admitted coalitions, the monotonicity
    check over the claims and deltas, the solidarity check over the shocks; a
    rejection carries a genuine violation.  A rule whose shares depend on the
    claim alone is never rejected. *)

(* ------------------------------------------------------------------ *)
(** ** Reductions *)

Lemma removed_lookup_spec n removed i :
  i < n → removed_lookup n removed !! i = Some (bool_decide (i ∈ removed)).
Proof.
  intros Hi. unfold removed_lookup.
  enough (∀ l : list bool, length l = n →
    foldl (λ lookup index, <[index := true]> lookup) l removed !! i =
    if bool_decide (i ∈ removed) then Some true else l !! i) as Hgo.
  { rewrite Hgo by apply length_replicate. case_bool_decide; [done|]. by apply lookup_replicate_2. }
  induction removed as [|j removed IH]; intros l Hl; cbn [foldl].
  { by rewrite bool_decide_false by apply not_elem_of_nil. }
  rewrite IH by by rewrite length_insert.
  destruct (decide (i ∈ removed)) as [Hin|Hnin].
  { by rewrite !bool_decide_true by set_solver. }
  rewrite (bool_decide_false (i ∈ removed)) by done. destruct (decide (i = j)) as [->|Hne].
  - rewrite bool_decide_true by left. apply list_lookup_insert_eq. lia.
  - rewrite bool_decide_false by set_solver. by rewrite list_lookup_insert_ne.
Qed.

(** The claims left are those whose index is not removed. *)
Lemma elem_of_reduce_claims {C} (claims : list C) removed c :
  c ∈ reduce_claims claims removed ↔ ∃ i, claims !! i = Some c ∧ i ∉ removed.
Proof.
  unfold reduce_claims. rewrite list_elem_of_fmap. split.
  - intros ([i c'] & -> & [Hr Hi%elem_of_enumerate]%list_elem_of_filter). exists i. split; [done|].
    cbn [fst] in Hr. rewrite removed_lookup_spec in Hr by by eapply lookup_lt_Some.
    injection Hr as Hr. by apply bool_decide_eq_false in Hr.
  - intros (i & Hi & Hnin). exists (i, c). split; [done|]. apply list_elem_of_filter.
    cbn [fst]. rewrite removed_lookup_spec, bool_decide_false by (try eapply lookup_lt_Some; done).
    split; [done|]. by apply elem_of_enumerate.
Qed.

Lemma reduce_claims_sublist {C} (claims : list C) removed :
  sublist (reduce_claims claims removed) claims.
Proof.
  unfold reduce_claims. set (P := λ p : nat * C, _ !! p.1 = Some false).
  pose proof (fmap_sublist snd _ _ (sublist_filter P (enumerate claims))) as Hs.
  by rewrite enumerate_snd in Hs.
Qed.

Lemma valid_claims_sublist claims claims' :
  sublist claims' claims → valid_claims claims → valid_claims claims'.
Proof.
  intros Hs [He Hn]. split.
  - intros c Hc. apply He. by eapply elem_of_sublist.
  - eapply sublist_NoDup; [done|by apply fmap_sublist].
Qed.

(** The shares differ by more than the relative tolerance. *)
Definition share_moved (before after : f64) : Prop :=
  f64_ltb (share_tolerance before after) (f64_abs (f64_sub before after)) = true.

(** The problem left by removing a coalition: the surviving claims against
    the total of their original shares.  There is none when nobody or nothing
    is left. *)
Definition reduced_problem (rule : Rule) (claims : list Claim) (estate : Estate)
    (original : ValidAllocation) (removed : list nat) (reduced_estate : Estate)
    (reduced_allocation : ValidAllocation) : Prop :=
  ∃ shares, reduce_claims claims removed ≠ [] ∧
    Forall2 (λ c share, original !! claim_id c = Some share) (reduce_claims claims removed) shares ∧
    f64_leb (f64_sum shares) EPSILON = false ∧
    Estate_new (f64_sum shares) (estate_unit estate) = Ok reduced_estate ∧
    evaluate_rule rule (reduce_claims claims removed) reduced_estate "consistency reduction" =
      Ok reduced_allocation.

(** Removing [removed] changes the share of [survivor] from [before] to [after]. *)
Definition consistency_violation (rule : Rule) (claims : list Claim) (estate : Estate)
    (original : ValidAllocation) (removed : list nat) (survivor : Claim) (before after : f64)
    (reduced_estate : Estate) (reduced_allocation : ValidAllocation) : Prop :=
  reduced_problem rule claims estate original removed reduced_estate reduced_allocation ∧
  survivor ∈ reduce_claims claims removed ∧
  original !! claim_id survivor = Some before ∧
  reduced_allocation !! claim_id survivor = Some after ∧ share_moved before after.

Lemma share_for_Ok (a : Allocation) id context v : share_for a id context = Ok v ↔ a !! id = Some v.
Proof. unfold share_for. destruct (a !! id); simpl; split; congruence. Qed.

Section reduction.
Context (rule : Rule) (claims : list Claim) (estate : Estate) (original : ValidAllocation) (axiom : string).

Lemma survivor_step_spec ids rc re ra c claim fl :
  survivor_step claims estate original ids rc re ra axiom c claim = Ok fl →
  ∃ before after, original !! claim_id claim = Some before ∧ ra !! claim_id claim = Some after ∧
    match fl with
    | Continue c' => ¬ share_moved before after ∧ coalitions_tested c' = coalitions_tested c
    | Break (v, c') => share_moved before after ∧
        ∃ d m, v = Rejected axiom (mkCounterexample d claims estate original rc re ra m)
    end.
Proof.
  unfold survivor_step. intros H. destruct_bind H Hb. destruct_bind H Ha.
  apply share_for_Ok in Hb, Ha. exists a, a0. split_and!; [done|done|]. unfold share_moved.
  destruct (f64_ltb _ _); injection H as <-; [|done]. split; [done|]. eauto.
Qed.

Lemma survivor_step_tested ids rc re ra c claim c' :
  survivor_step claims estate original ids rc re ra axiom c claim = Ok (Continue c') →
  coalitions_tested c' = coalitions_tested c.
Proof. by intros (before & after & _ & _ & _ & ?)%survivor_step_spec. Qed.

(** One removed coalition: it is consistent, or the verdict exhibits a violation. *)
Lemma evaluate_reduction_spec c removed fl :
  evaluate_reduction rule claims estate original axiom c removed = Ok fl →
  match fl with
  | Continue c' => coalitions_tested c' = S (coalitions_tested c) ∧
      ∀ survivor before after re ra,
        ¬ consistency_violation rule claims estate original removed survivor before after re ra
  | Break (v, _) => ∃ survivor before after re ra d m,
      consistency_violation rule claims estate original removed survivor before after re ra ∧
      v = Rejected axiom (mkCounterexample d claims estate original (reduce_claims claims removed) re ra m)
  end.
Proof.
  unfold evaluate_reduction. set (rc := reduce_claims claims removed).
  intros H. destruct_bind H Hids. destruct_bind H Hsh. rename a0 into shares.
  apply try_map_Ok_Forall2 in Hsh.
  assert (Forall2 (λ c share, original !! claim_id c = Some share) rc shares) as Hshares.
  { eapply Forall2_impl; [exact Hsh|]. intros x y Hxy. cbn beta in Hxy. by apply share_for_Ok in Hxy. }
  assert (∀ re ra, reduced_problem rule claims estate original removed re ra →
    rc ≠ [] ∧ f64_leb (f64_sum shares) EPSILON = false ∧
    Estate_new (f64_sum shares) (estate_unit estate) = Ok re ∧
    evaluate_rule rule rc re "consistency reduction" = Ok ra) as Hprob.
  { intros re ra (shares' & Hne & H2 & Hle & He & Hra).
    assert (shares' = shares) as ->; [|done]. fold rc in H2. clear -Hshares H2.
    revert shares' H2. induction Hshares as [|x y l k Hxy _ IH]; intros shares'; inversion 1; subst; [done|].
    f_equal; [congruence|by apply IH]. }
  destruct (bool_decide (rc = []) || f64_leb (f64_sum shares) EPSILON) eqn:Hskip.
  - injection H as <-. split; [done|]. intros survivor before after re ra [Hp _].
    apply Hprob in Hp as (Hne & Hle & _). apply orb_true_iff in Hskip as [Hs|Hs]; [|congruence].
    by apply bool_decide_eq_true in Hs.
  - apply orb_false_iff in Hskip as [Hne Hle]. apply bool_decide_eq_false in Hne.
    destruct_bind H He. destruct_bind H Hra. rename a0 into re, a1 into ra.
    assert (reduced_problem rule claims estate original removed re ra) as Hp by (exists shares; done).
    destruct fl as [c'|[v c']].
    + pose proof (try_loop_same _ coalitions_tested _ _ _
        (λ t x t' Hx, survivor_step_tested _ _ _ _ _ _ _ Hx) H) as Hc.
      split; [done|]. intros survivor before after re' ra' (Hp' & Hin & Hb & Ha & Hm).
      apply Hprob in Hp' as (_ & _ & He' & Hra'). assert (re' = re) as -> by congruence.
      assert (ra' = ra) as -> by congruence.
      destruct (try_loop_Continue _ _ _ _ H survivor Hin) as (t & t' & Hs).
      apply survivor_step_spec in Hs as (b & a' & Hb' & Ha' & Hnm & _). congruence.
    + destruct (try_loop_Break _ _ _ _ H) as (survivor & t & Hin & Hs).
      apply survivor_step_spec in Hs as (b & a' & Hb' & Ha' & Hm & d & m & ->).
      exists survivor, b, a', re, ra, d, m. done.
Qed.
End reduction.

(** What each verdict of the consistency check says. *)
Lemma consistency_check_cases rule claims estate options v :
  check_full_consistency rule claims estate options = Ok v →
  ∃ original, evaluate_rule rule claims estate "consistency baseline" = Ok original ∧
    match v with
    | Admissible axiom tested =>
        tested = length (coalitions (length claims) (mode options)) ∧
        ∀ removed, removed ∈ coalitions (length claims) (mode options) →
          ∀ survivor before after re ra,
          ¬ consistency_violation rule claims estate original removed survivor before after re ra
    | Rejected axiom cx =>
        ∃ removed survivor before after, removed ∈ coalitions (length claims) (mode options) ∧
          consistency_violation rule claims estate original removed survivor before after
            (perturbed_estate cx) (perturbed_allocation cx) ∧
          perturbed_claims cx = reduce_claims claims removed ∧
          original_claims cx = claims ∧ original_estate cx = estate ∧ original_allocation cx = original
    end.
Proof.
  unfold check_full_consistency, check_full_consistency_audit, check_consistency_with_mode.
  intros H. destruct_bind H Hau. injection H as <-. destruct_bind Hau Hg.
  destruct_bind Hau Ho. rename a1 into original. exists original. split; [done|].
  destruct_bind Hau Hl. clear Hg.
  destruct a1 as [c|[v c]]; injection Hau as <-; cbn [verdict].
  - split.
    + rewrite (try_loop_count _ coalitions_tested _ _ _
        (λ t x t' Hx, proj1 (evaluate_reduction_spec _ _ _ _ _ _ _ _ Hx)) Hl). done.
    + intros removed Hin. destruct (try_loop_Continue _ _ _ _ Hl removed Hin) as (t & t' & Hs).
      apply evaluate_reduction_spec in Hs as [_ Hs]. exact Hs.
  - destruct (try_loop_Break _ _ _ _ Hl) as (removed & t & Hin & Hs).
    apply evaluate_reduction_spec in Hs as (survivor & b & af & re & ra & d & m & Hv & ->).
    exists removed, survivor, b, af. done.
Qed.

(** C8: the consistency check is exact.  When it returns, it answers
    [Admissible] precisely when no admitted coalition (for the full mode, no
    non-empty proper set of claims) can be removed so that the rule, applied to
    the survivors and the total of the survivors' own shares, moves some
    survivor's share beyond the tolerance (the documentation reduces the estate
    by the removed shares instead, which differs for a rule that does not give
    the whole estate away); the count it reports is the number of admitted
    coalitions; and a rejection carries a coalition, the reduced problem and
    its allocation that violate consistency. *)
Theorem consistency_check_exact rule claims estate options v :
  check_full_consistency rule claims estate options = Ok v →
  ∃ original, evaluate_rule rule claims estate "consistency baseline" = Ok original ∧
    match v with
    | Admissible axiom tested =>
        tested = length (coalitions (length claims) (mode options)) ∧
        ∀ removed survivor before after re ra,
          admitted_coalition (length claims) (mode options) removed →
          ¬ consistency_violation rule claims estate original removed survivor before after re ra
    | Rejected axiom cx =>
        ∃ removed survivor before after,
          admitted_coalition (length claims) (mode options) removed ∧
          consistency_violation rule claims estate original removed survivor before after
            (perturbed_estate cx) (perturbed_allocation cx) ∧
          perturbed_claims cx = reduce_claims claims removed ∧
          original_claims cx = claims ∧ original_estate cx = estate ∧ original_allocation cx = original
    end.
Proof.
  intros (original & Ho & Hv)%consistency_check_cases. exists original. split; [done|].
  destruct v as [axiom tested|axiom cx].
  - destruct Hv as [-> Hv]. split; [done|]. intros removed survivor before after re ra Hadm.
    apply Hv. rewrite coalitions_eq. by apply elem_of_sizes_from.
  - destruct Hv as (removed & survivor & before & after & Hin & Hv).
    rewrite coalitions_eq in Hin. apply elem_of_sizes_from in Hin. by exists removed, survivor, before, after.
Qed.

(* ------------------------------------------------------------------ *)
(** ** Monotonicity *)

(** Strengthening the claim at [i] by [delta] moves its share from [before] to
    [after]. *)
Definition strengthened_share (rule : Rule) (claims : list Claim) (estate : Estate)
    (original : ValidAllocation) (i : nat) (delta before after : f64)
    (strengthened : list Claim) (allocation : ValidAllocation) : Prop :=
  ∃ c, claims !! i = Some c ∧ strengthen_at claims i delta = Ok strengthened ∧
    evaluate_rule rule strengthened estate "monotonicity strengthening" = Ok allocation ∧
    original !! claim_id c = Some before ∧ allocation !! claim_id c = Some after.

(** The share moved the wrong way, beyond the tolerance. *)
Definition wrong_way (inversion : bool) (before after : f64) : bool :=
  let tol := share_tolerance after before in
  if inversion then f64_ltb (f64_add before tol) after else f64_ltb after (f64_sub before tol).

Lemma monotonicity_step_spec rule claims estate original inversion i tested delta fl :
  monotonicity_step rule claims estate original inversion i tested delta = Ok fl →
  ∃ before after strengthened allocation,
    strengthened_share rule claims estate original i delta before after strengthened allocation ∧
    match fl with
    | Continue tested' => tested' = S tested ∧ wrong_way inversion before after = false
    | Break v => wrong_way inversion before after = true ∧
        ∃ d m, v = Rejected (monotonicity_label inversion)
                     (mkCounterexample d claims estate original strengthened estate allocation m)
    end.
Proof.
  unfold monotonicity_step. intros H. destruct_bind H Hst. destruct_bind H Ha. destruct_bind H Hc.
  destruct_bind H Hb. destruct_bind H Haf. apply share_for_Ok in Hb, Haf.
  destruct (claims !! i) as [c|] eqn:Hi; [|done]. injection Hc as <-.
  exists a2, a3, a, a0. split; [exists c; done|]. fold (wrong_way inversion a2 a3) in H. cbv zeta in H.
  change (if inversion then f64_ltb (f64_add a2 (share_tolerance a3 a2)) a3
          else f64_ltb a3 (f64_sub a2 (share_tolerance a3 a2))) with (wrong_way inversion a2 a3) in H.
  destruct (wrong_way inversion a2 a3); injection H as <-; [|done]. split; [done|]. eauto.
Qed.

Lemma monotonicity_step_tested rule claims estate original inversion i tested delta tested' :
  monotonicity_step rule claims estate original inversion i tested delta = Ok (Continue tested') →
  tested' = S tested.
Proof. by intros (? & ? & ? & ? & _ & ? & _)%monotonicity_step_spec. Qed.

(** The monotonicity check is exact over the declared deltas.  When it
    returns, it answers [Admissible] precisely when no claim strengthened by
    any declared delta ends up with a worse share (with a better one under
    inversion), having tested every claim with every delta; a rejection carries
    the strengthened claims and the allocation that went the wrong way. *)
Theorem monotonicity_check_exact rule claims estate deltas inversion v :
  check_monotonicity rule claims estate deltas inversion = Ok v →
  ∃ original, evaluate_rule rule claims estate "monotonicity baseline" = Ok original ∧
    match v with
    | Admissible axiom tested =>
        tested = length claims * length deltas ∧
        ∀ i delta before after strengthened allocation, delta ∈ deltas →
          strengthened_share rule claims estate original i delta before after strengthened allocation →
          wrong_way inversion before after = false
    | Rejected axiom cx =>
        ∃ i delta before after, delta ∈ deltas ∧
          strengthened_share rule claims estate original i delta before after
            (perturbed_claims cx) (perturbed_allocation cx) ∧
          wrong_way inversion before after = true ∧
          original_claims cx = claims ∧ original_estate cx = estate ∧
          perturbed_estate cx = estate ∧ original_allocation cx = original
    end.
Proof.
  unfold check_monotonicity, conclude. intros H. destruct_bind H Ho. exists a. split; [done|].
  destruct_bind H Hl. destruct a0 as [tested|v']; injection H as <-.
  - split.
    + pose proof (try_loop_add _ id (length deltas) _ _ _
        (λ t i t' Hi, try_loop_count _ id _ _ _ (λ s d s' Hs, monotonicity_step_tested _ _ _ _ _ _ _ _ _ Hs) Hi) Hl)
        as Ht. by rewrite length_seq in Ht.
    + intros i delta before after strengthened allocation Hd (c & Hi & Hst & Ha & Hb & Haf).
      destruct (try_loop_Continue _ _ _ _ Hl i) as (t & t' & Hs).
      { apply elem_of_seq. apply lookup_lt_Some in Hi. lia. }
      destruct (try_loop_Continue _ _ _ _ Hs delta Hd) as (s & s' & Hm).
      apply monotonicity_step_spec in Hm as (b & af & st & al & (c' & Hi' & Hst' & Ha' & Hb' & Haf') & _ & Hw).
      congruence.
  - destruct (try_loop_Break _ _ _ _ Hl) as (i & t & _ & Hi).
    destruct (try_loop_Break _ _ _ _ Hi) as (delta & s & Hd & Hs).
    apply monotonicity_step_spec in Hs as (b & af & st & al & Hsh & Hw & d & m & ->).
    by exists i, delta, b, af.
Qed.
