(* ===== verification/PerClaimRules.v ===== *)
(** * Rules whose shares depend on the claim alone

    The permissions and hooks rules of src/rules.rs give every claim a share of
    its own.  Such a rule can never be rejected for inconsistency or for lack
    of solidarity, and when the share does not look at the strength either it
    is monotone and strategyproof: what "independent across tools" in the
    source promises. *)

From S2P Require Import Prelude F64 F64Bits Errors Core GraphTraverse BinaryDiagnostics Mechanism Rules Coalitions RuleDiagnostics.
From Stdlib Require Import Floats.SpecFloat.
From stdpp Require Import options.

(** The metrics are values an [f64] can hold. *)
Definition representable_metrics (c : Claim) : Prop :=
  ∀ name value, claim_metrics c !! name = Some value → f64_valid value = true.

(** Every allocation of the rule gives each claim its own share. *)
Definition per_claim (rule : Rule) (share : Claim → f64) : Prop :=
  ∀ claims estate a c,
    RuleSpec_allocate (rule_spec rule) claims estate = Ok a → valid_claims claims →
    c ∈ claims → a !! claim_id c = Some (share c).

(** Finite shares of representable claims are representable and not negative. *)
Definition proper_share (share : Claim → f64) : Prop :=
  ∀ c, representable_metrics c → f64_is_finite (share c) = true → nonneg (share c).

Lemma Claim_metric_valid c name : representable_metrics c → f64_valid (Claim_metric c name) = true.
Proof. intros Hr. unfold Claim_metric. destruct (_ !! _) eqn:Hm; [by eapply Hr|done]. Qed.

Lemma nonneg_zero : nonneg f64_zero.
Proof. done. Qed.

Lemma permissions_share_proper : proper_share permissions_share.
Proof.
  intros c Hr. unfold permissions_share. cbv zeta. destruct (_ && _); [|intros; apply nonneg_zero].
  apply f64_clamp_unit_nonneg. by apply Claim_metric_valid.
Qed.

Lemma hooks_share_proper : proper_share hooks_share.
Proof.
  intros c Hr. unfold hooks_share. cbv zeta. destruct (_ || _); [intros; apply nonneg_zero|].
  apply f64_clamp_unit_nonneg. by apply Claim_metric_valid.
Qed.

Lemma per_claim_collect (share : Claim → f64) claims c :
  valid_claims claims → c ∈ claims →
  collect_map ((λ claim, (claim_id claim, share claim)) <$> claims) !! claim_id c = Some (share c).
Proof.
  intros Hv Hc. apply collect_map_lookup.
  - rewrite <-list_fmap_compose. apply (vc_nodup _ Hv).
  - apply list_elem_of_fmap. eauto.
Qed.

Lemma permissions_per_claim : per_claim claude_agent_sdk_permissions_rule permissions_share.
Proof.
  intros claims estate a c Ha Hv Hc.
  change (claude_agent_sdk_permissions_allocate claims estate = Ok a) in Ha.
  unfold claude_agent_sdk_permissions_allocate in Ha.
  destruct_bind Ha Hvc. injection Ha as <-. by apply per_claim_collect.
Qed.

Lemma hooks_per_claim : per_claim claude_agent_sdk_hooks_rule hooks_share.
Proof.
  intros claims estate a c Ha Hv Hc.
  change (claude_agent_sdk_hooks_allocate claims estate = Ok a) in Ha.
  unfold claude_agent_sdk_hooks_allocate in Ha.
  destruct_bind Ha Hvc. injection Ha as <-. by apply per_claim_collect.
Qed.

(** Equal shares never count as different. *)
Lemma share_tolerance_signed a b :
  f64_is_nan a = false → f64_is_nan b = false → signed false (share_tolerance a b).
Proof.
  intros Ha Hb. unfold share_tolerance. apply f64_add_signed; [right; right; by eexists _, _|].
  apply f64_mul_signed, f64_add_signed; by apply f64_abs_signed.
Qed.

Lemma f64_leb_not_ltb x y : f64_leb x y = true → f64_ltb y x = false.
Proof. intros H. f64_lex. Qed.

Lemma share_not_moved s : nonneg s → ¬ share_moved s s.
Proof.
  intros Hs. unfold share_moved. destruct Hs as (_ & Hf & _).
  destruct (f64_sub_self s Hf) as [sg ->]. change (f64_abs (S754_zero sg)) with (S754_zero false).
  rewrite f64_not_ltb_signed_zero; [done|]. by apply share_tolerance_signed; apply f64_finite_not_nan.
Qed.

Lemma share_not_gained s : nonneg s → f64_ltb (f64_add s (share_tolerance s s)) s = false.
Proof.
  intros Hs. apply f64_leb_not_ltb, f64_add_ge; [done|].
  by apply share_tolerance_signed; apply f64_finite_not_nan; destruct Hs as (_ & ? & _).
Qed.

Lemma share_not_lost s : nonneg s → f64_ltb s (f64_sub s (share_tolerance s s)) = false.
Proof.
  intros Hs. apply f64_leb_not_ltb, f64_sub_le; [done|].
  by apply share_tolerance_signed; apply f64_finite_not_nan; destruct Hs as (_ & ? & _).
Qed.

Section per_claim_checks.
Context (rule : Rule) (share : Claim → f64).
Hypothesis Hper : per_claim rule share.
Hypothesis Hproper : proper_share share.

Lemma evaluate_per_claim claims estate context a :
  evaluate_rule rule claims estate context = Ok a →
  (∀ c, c ∈ claims → a !! claim_id c = Some (share c)) ∧ dom a = list_to_set (claim_id <$> claims).
Proof using Hper.
  intros (Hv & Ha & [Hd _]%Allocation_validate_Ok & _)%evaluate_rule_Ok. split; [|done].
  intros c Hc. by eapply Hper.
Qed.

(** Every share of an evaluated allocation is a proper share. *)
Lemma evaluate_per_claim_nonneg claims estate context a id v :
  Forall representable_metrics claims →
  evaluate_rule rule claims estate context = Ok a → a !! id = Some v → nonneg v.
Proof using Hper Hproper.
  intros Hr Ha Hid. destruct (evaluate_per_claim _ _ _ _ Ha) as [Hs Hd].
  apply evaluate_rule_Ok in Ha as (_ & _ & [_ Hfin]%Allocation_validate_Ok & _).
  assert (id ∈ dom a) as Hin by (apply elem_of_dom; eauto).
  rewrite Hd, elem_of_list_to_set, list_elem_of_fmap in Hin. destruct Hin as (c & -> & Hc).
  rewrite (Hs c Hc) in Hid. injection Hid as <-. apply Hproper.
  - by eapply Forall_forall in Hr.
  - by apply (Hfin (claim_id c)), Hs.
Qed.

(** The estate is not looked at. *)
Lemma evaluate_per_claim_same claims estate estate' context context' a a' :
  evaluate_rule rule claims estate context = Ok a →
  evaluate_rule rule claims estate' context' = Ok a' → a = a'.
Proof using Hper.
  intros [Hs Hd]%evaluate_per_claim [Hs' Hd']%evaluate_per_claim. apply map_eq. intros id.
  destruct (decide (id ∈ (list_to_set (claim_id <$> claims) : gset string))) as [Hin|Hnin].
  - apply elem_of_list_to_set, list_elem_of_fmap in Hin as (c & -> & Hc). by rewrite Hs, Hs'.
  - transitivity (@None f64); [|symmetry]; apply not_elem_of_dom; congruence.
Qed.

Lemma per_claim_consistent claims estate options v :
  Forall representable_metrics claims →
  check_full_consistency rule claims estate options = Ok v → verdict_admissible v = true.
Proof using Hper Hproper.
  intros Hr Hv. apply consistency_check_cases in Hv as (a & Ha & Hv).
  destruct v as [|axiom cx]; [done|].
  destruct Hv as (removed & c & b & af & _ & Hviol & _).
  destruct Hviol as ((shares & Hne & _ & _ & _ & Hra) & Hc & Hb & Haf & Hm).
  destruct (evaluate_per_claim _ _ _ _ Ha) as [Hs _].
  destruct (evaluate_per_claim _ _ _ _ Hra) as [Hs' _].
  assert (c ∈ claims) as Hcc by (eapply elem_of_sublist; [exact Hc|apply reduce_claims_sublist]).
  rewrite (Hs c Hcc) in Hb. rewrite (Hs' c Hc) in Haf. injection Hb as <-. injection Haf as <-.
  exfalso. eapply share_not_moved; [|exact Hm].
  by eapply evaluate_per_claim_nonneg; [| |by apply Hs].
Qed.

(** With the same allocation before and after, nobody moves. *)
Lemma class_movements_same (a : ValidAllocation) members r :
  (∀ id v, a !! id = Some v → nonneg v) →
  class_movements a a members = Ok r → r = ([], []).
Proof.
  intros Hn Hr. unfold class_movements in Hr.
  eapply (try_fold_inv _ (λ _ r, r = ([], []))); [done| |exact Hr].
  intros done member t t' -> _ Hs. cbn beta iota in Hs. destruct_bind Hs Hb. destruct_bind Hs Ha.
  apply share_for_Ok in Hb, Ha. assert (a0 = a1) as -> by congruence. pose proof (Hn _ _ Hb) as Hnn.
  rewrite share_not_gained, share_not_lost in Hs by done. by injection Hs as <-.
Qed.

Lemma class_evenness_same claims estate (a : ValidAllocation) se class members loss r :
  (∀ id v, a !! id = Some v → nonneg v) →
  class_evenness_violation claims estate a (mkShocked se a) class members loss = Ok r → r = None.
Proof.
  intros Hn Hr. unfold class_evenness_violation in Hr. destruct_bind Hr Hc.
  assert (a0 = []) as ->; [|by injection Hr as <-].
  eapply (try_fold_inv _ (λ _ r, r = [])); [done| |exact Hc].
  intros done member t t' -> _ Hs. cbn beta iota in Hs. destruct_bind Hs Hb. destruct_bind Hs Ha.
  cbn [shocked_allocation] in Ha. apply share_for_Ok in Hb, Ha. assert (a1 = a2) as -> by congruence.
  pose proof (share_not_moved _ (Hn _ _ Hb)) as Hnm. unfold share_moved in Hnm.
  apply not_true_is_false in Hnm. rewrite Hnm, andb_false_r in Hs. by injection Hs as <-.
Qed.

Lemma per_claim_solidary claims estate claimants scales v :
  Forall representable_metrics claims →
  check_solidarity rule claims estate claimants scales = Ok v → verdict_admissible v = true.
Proof using Hper Hproper.
  intros Hr Hv. unfold check_solidarity in Hv. destruct_bind Hv Ha.
  assert (∀ id v, a !! id = Some v → nonneg v) as Hn by (intros; by eapply evaluate_per_claim_nonneg).
  unfold conclude in Hv. destruct_bind Hv Hl. destruct a0 as [|v']; injection Hv as <-; [done|].
  exfalso. destruct (try_loop_Break _ _ _ _ Hl) as (scale & t & _ & Hs). unfold solidarity_step in Hs.
  destruct (f64_ltb _ _); [done|]. destruct_bind Hs Ht. destruct_bind Hs Hsh.
  pose proof (evaluate_per_claim_same _ _ _ _ _ _ _ Ha Hsh) as <-.
  destruct_bind Hs Hcl. destruct a1 as [|v'']; [done|].
  destruct (try_loop_Break _ _ _ _ Hcl) as (class & [] & _ & Hstep).
  unfold solidarity_class_step in Hstep. case_bool_decide; [done|].
  destruct_bind Hstep Hm. apply class_movements_same in Hm as ->; [|done].
  rewrite !andb_false_r in Hstep. destruct_bind Hstep He.
  apply class_evenness_same in He as ->; [|done]. discriminate Hstep.
Qed.

(** *** Shares that do not look at the strength *)

Hypothesis Hstrength : ∀ id s s' metrics, share (mkClaim id s metrics) = share (mkClaim id s' metrics).

Lemma share_strengthened (claims : list Claim) (i : nat) c s (a a' : ValidAllocation) :
  claims !! i = Some c →
  (∀ c, c ∈ claims → a !! claim_id c = Some (share c)) →
  (∀ c', c' ∈ <[i := mkClaim (claim_id c) s (claim_metrics c)]> claims → a' !! claim_id c' = Some (share c')) →
  a !! claim_id c = Some (share c) ∧ a' !! claim_id c = Some (share c).
Proof using Hstrength.
  intros Hi Ha Ha'. split; [apply Ha; by eapply list_elem_of_lookup_2|].
  specialize (Ha' (mkClaim (claim_id c) s (claim_metrics c))). cbn [claim_id] in Ha'. rewrite Ha'.
  - f_equal. destruct c. apply Hstrength.
  - eapply (list_elem_of_lookup_2 _ i), list_lookup_insert_eq. by eapply lookup_lt_Some.
Qed.

Lemma strengthen_at_Ok claims i delta claims' :
  strengthen_at claims i delta = Ok claims' →
  ∃ c s, claims !! i = Some c ∧ claims' = <[i := mkClaim (claim_id c) s (claim_metrics c)]> claims.
Proof.
  unfold strengthen_at. intros H. destruct_bind H Hc. destruct (claims !! i) as [c|]; [|done].
  injection Hc as <-. destruct_bind H Hs. injection H as <-. eauto.
Qed.

Lemma per_claim_monotone claims estate deltas inversion v :
  Forall representable_metrics claims →
  check_monotonicity rule claims estate deltas inversion = Ok v → verdict_admissible v = true.
Proof using Hper Hproper Hstrength.
  intros Hr Hv. unfold check_monotonicity in Hv. destruct_bind Hv Ha.
  unfold conclude in Hv. destruct_bind Hv Hl. destruct a0 as [|v']; injection Hv as <-; [done|].
  exfalso. destruct (try_loop_Break _ _ _ _ Hl) as (i & t & _ & Hi).
  destruct (try_loop_Break _ _ _ _ Hi) as (delta & t' & _ & Hs). unfold monotonicity_step in Hs.
  destruct_bind Hs Hst. destruct_bind Hs Ha'.
  apply strengthen_at_Ok in Hst as (c & s & Hc & ->). rewrite Hc in Hs. cbn [ok_or mbind Result_bind] in Hs.
  destruct (share_strengthened claims i c s a a1 Hc) as [H1 H2].
  { apply (evaluate_per_claim _ _ _ _ Ha). }
  { apply (evaluate_per_claim _ _ _ _ Ha'). }
  destruct_bind Hs Hb. destruct_bind Hs Haf. apply share_for_Ok in Hb, Haf.
  rewrite H1 in Hb. rewrite H2 in Haf. injection Hb as <-. injection Haf as <-.
  assert (nonneg (share c)) as Hn by by eapply evaluate_per_claim_nonneg.
  rewrite share_not_gained, share_not_lost in Hs by done. by destruct inversion.
Qed.

Lemma misreport_claims (claims : list Claim) i r claims' c :
  claims !! i = Some c → misreport claims i r = Ok claims' →
  claims' = <[i := mkClaim (claim_id c) r (claim_metrics c)]> claims.
Proof.
  intros Hi Hm. unfold misreport in Hm. apply try_map_Ok_Forall2 in Hm.
  apply list_eq. intros k. rewrite list_lookup_insert.
  rewrite Forall2_lookup in Hm. specialize (Hm k).
  rewrite lookup_enumerate in Hm. destruct (claims !! k) as [x|] eqn:Hx; cbn [fmap option_fmap option_map] in Hm;
    inversion Hm as [p y Hy Hp Hy'|]; subst.
  - case_decide as Hk.
    + destruct (decide _) as [[-> _]|Hn].
      * cbn in Hy. unfold Claim_with_reported_strength in Hy. destruct_bind Hy Hps. injection Hy as <-.
        assert (x = c) as -> by congruence. unfold PositiveStrength_new in Hps.
        destruct (not_positive_finite r); [done|]. by injection Hps as <-.
      * exfalso. apply Hn. split; [by subst|]. subst. by eapply lookup_lt_Some.
    + rewrite decide_False by (intros [-> _]; done). by injection Hy as <-.
  - rewrite decide_False; [done|]. intros [-> Hlt]. congruence.
Qed.

Lemma allocation_scores_lookup (a : ValidAllocation) id : allocation_scores a !! id = a !! id.
Proof.
  unfold allocation_scores.
  assert (∀ l (m : Scores), foldl (λ (scores : Scores) '(id, share), <[id := share]> scores) m l =
    foldl (λ (m : Scores) p, <[p.1 := p.2]> m) m l) as ->.
  { induction l as [|[k v] l IH]; intros m; [done|apply IH]. }
  fold (collect_map (btree_iter a)).
  destruct (a !! id) as [v|] eqn:Hv.
  - apply collect_map_lookup; [apply NoDup_btree_keys|by apply elem_of_btree_iter].
  - apply not_elem_of_dom. rewrite collect_map_dom, elem_of_list_to_set.
    change ((btree_iter a).*1) with (btree_keys a). rewrite elem_of_btree_keys, Hv. by intros [].
Qed.

Lemma strictly_improves_self s : nonneg s → strictly_improves s s = false.
Proof. intros Hs. unfold strictly_improves. apply (share_not_gained s Hs). Qed.

Lemma per_claim_strategyproof claims estate v :
  Forall representable_metrics claims →
  check_strategyproofness rule claims estate = Ok v → v = Strategyproof.
Proof using Hper Hproper Hstrength.
  intros Hr Hv. unfold check_strategyproofness in Hv. destruct_bind Hv Ha.
  apply check_reported_spec in Hv. destruct v as [|id t r ta ma]; [done|]. exfalso.
  cbn [strategyproofness_witness] in Hv.
  destruct Hv as (i & c & factor & claims' & scores' & Hi & _ & _ & _ & _ & Hm & He & Hta & Hma & Himp).
  cbn [sw_reported sw_true_alloc sw_manipulated_alloc] in *. destruct_bind He Ha'. injection He as <-.
  cbn [sp_claimant_id StrategyproofnessClaim_Claim] in Hta, Hma.
  rewrite allocation_scores_lookup in Hta, Hma.
  apply (misreport_claims claims i r claims' c Hi) in Hm as ->.
  destruct (share_strengthened claims i c r a a0 Hi) as [H1 H2].
  { apply (evaluate_per_claim _ _ _ _ Ha). }
  { apply (evaluate_per_claim _ _ _ _ Ha'). }
  rewrite H1 in Hta. rewrite H2 in Hma. injection Hta as <-. injection Hma as <-.
  rewrite strictly_improves_self in Himp; [done|]. by eapply evaluate_per_claim_nonneg.
Qed.

End per_claim_checks.
