(* ===== verification/RustEq.v ===== *)
(** * Derived equality ([PartialEq]) on the data of the library

    [#[derive(PartialEq)]] compares field by field, and floats with the IEEE
    comparison: it is not Leibniz equality (the two zeros are equal, a NaN is
    different from itself).  [eqb] is that comparison, by type class, for
    strings, floats, options, vectors, ordered maps and the graph data; on data
    without a NaN it is an equivalence relation. *)

From S2P Require Import Prelude F64 Errors Core GraphNode.
From stdpp Require Import options.

Class PartialEq (A : Type) := eqb : A → A → bool.
#[global] Hint Mode PartialEq ! : typeclass_instances.

(** Types whose derived comparison is equality. *)
Global Instance PartialEq_string : PartialEq string := λ a b, bool_decide (a = b).
Global Instance PartialEq_f64 : PartialEq f64 := f64_eqb.
Global Instance PartialEq_decision : PartialEq Decision := λ a b, bool_decide (a = b).
Global Instance PartialEq_logic : PartialEq GateLogic := λ a b, bool_decide (a = b).
Global Instance PartialEq_rule_kind : PartialEq DeclarativeRuleKind := λ a b, bool_decide (a = b).

Global Instance PartialEq_option {A} `{PartialEq A} : PartialEq (option A) := λ a b,
  match a, b with Some x, Some y => eqb x y | None, None => true | _, _ => false end.

Fixpoint list_eqb {A} `{PartialEq A} (a b : list A) : bool :=
  match a, b with
  | [], [] => true
  | x :: a, y :: b => eqb x y && list_eqb a b
  | _, _ => false
  end.
Global Instance PartialEq_list {A} `{PartialEq A} : PartialEq (list A) := list_eqb.

(** [BTreeMap]: the two iterators are compared entry by entry. *)
Global Instance PartialEq_btree {A} `{PartialEq A} : PartialEq (gmap string A) := λ a b,
  list_eqb (H := λ p q, bool_decide (p.1 = q.1) && eqb p.2 q.2) (btree_iter a) (btree_iter b).

Global Instance PartialEq_gate : PartialEq Gate := λ a b,
  match a, b with
  | PrefixMatch p d, PrefixMatch p' d' | ExactMatch p d, ExactMatch p' d'
  | ContentMatch p d, ContentMatch p' d' => eqb p p' && eqb d d'
  | ThresholdGate f m d, ThresholdGate f' m' d' | PeerRelative f m d, PeerRelative f' m' d' =>
      eqb f f' && eqb m m' && eqb d d'
  | _, _ => false
  end.

Global Instance PartialEq_node : PartialEq GovernanceNode := λ a b,
  match a, b with
  | Binary i n g d c, Binary i' n' g' d' c' =>
      eqb i i' && eqb n n' && eqb g g' && eqb d d' && eqb c c'
  | Proportional i n r p, Proportional i' n' r' p' => eqb i i' && eqb n n' && eqb r r' && eqb p p'
  | Threshold i n t f, Threshold i' n' t' f' => eqb i i' && eqb n n' && eqb t t' && eqb f f'
  | _, _ => false
  end.

Global Instance PartialEq_transform : PartialEq EdgeTransform := λ a b,
  match a, b with
  | PassThrough, PassThrough => true
  | ClaimModification x, ClaimModification y => eqb x y
  | _, _ => false
  end.

Global Instance PartialEq_edge : PartialEq GovernanceEdge := λ a b,
  eqb (from a) (from b) && eqb (to a) (to b) && eqb (transform a) (transform b).

Global Instance PartialEq_graph : PartialEq GovernanceGraph := λ a b,
  eqb (nodes a) (nodes b) && eqb (edges a) (edges b).

(* ------------------------------------------------------------------ *)
(** ** Reflexivity away from NaN *)

(** The values on which the derived comparison is reflexive. *)
Class SelfEqual {A} `{PartialEq A} (x : A) : Prop := self_equal : eqb x x = true.

Lemma list_eqb_refl {A} `{PartialEq A} (l : list A) :
  (∀ x, x ∈ l → SelfEqual x) → list_eqb l l = true.
Proof.
  induction l as [|x l IH]; intros Hl; [done|]. cbn [list_eqb].
  rewrite (Hl x) by set_solver. apply IH. intros y Hy. apply Hl. set_solver.
Qed.

Lemma btree_eqb_refl {A} `{PartialEq A} (m : gmap string A) :
  (∀ k x, m !! k = Some x → SelfEqual x) → eqb m m = true.
Proof.
  intros Hm. unfold eqb, PartialEq_btree. apply list_eqb_refl. intros [k x] Hx.
  apply elem_of_btree_iter in Hx. unfold SelfEqual, eqb. simpl.
  rewrite bool_decide_true by done. by apply (Hm k).
Qed.

Lemma string_eqb_refl (s : string) : eqb s s = true.
Proof. unfold eqb, PartialEq_string. by rewrite bool_decide_true. Qed.
Lemma finite_eqb_refl (x : f64) : f64_is_finite x = true → eqb x x = true.
Proof. intros Hx. apply f64_eqb_refl. by apply f64_finite_not_nan. Qed.
#[export] Hint Resolve string_eqb_refl finite_eqb_refl list_eqb_refl btree_eqb_refl : legit.

Section with_regex.
Context `{RegexEngine}.

Lemma validate_gate_self g : validate_gate g = Ok () → SelfEqual g.
Proof.
  unfold SelfEqual, eqb, PartialEq_gate. destruct g as [p d|p d|p d|f m d|f m d]; intros Hv.
  1-3: rewrite string_eqb_refl; simpl; by destruct d.
  all: cbn [validate_gate] in Hv; destruct (validate_gate_string _ _); cbn [mbind Result_bind] in Hv;
    [|done]; rewrite string_eqb_refl, finite_eqb_refl; [by destruct d|].
  all: by destruct (f64_is_finite m).
Qed.

Lemma validate_node_self n : validate_governance_node n = Ok () → SelfEqual n.
Proof.
  unfold SelfEqual, eqb, PartialEq_node.
  destruct n as [i n gs d c|i n r p|i n t f]; intros Hv; rewrite ?string_eqb_refl; simpl.
  - assert (eqb gs gs = true) as ->.
    { apply list_eqb_refl. intros g Hg. apply validate_gate_self.
      cbn [validate_governance_node] in Hv. rewrite try_iter_Ok, Forall_forall in Hv. auto. }
    by destruct d, c.
  - assert (eqb p p = true) as -> by (apply list_eqb_refl; intros x _; apply string_eqb_refl).
    unfold eqb, PartialEq_rule_kind. by rewrite (bool_decide_true (r = r)).
  - cbn [validate_governance_node] in Hv. rewrite finite_eqb_refl; [done|].
    by destruct (f64_is_finite t).
Qed.

(** A graph that passes validation is equal to itself. *)
Lemma validate_graph_self g : validate_governance_graph g = Ok () → SelfEqual g.
Proof.
  unfold validate_governance_graph. intros Hv.
  invert_bind. destruct a. rename Hr into Hn.
  unfold SelfEqual. change (eqb (nodes g) (nodes g) && eqb (edges g) (edges g) = true).
  apply andb_true_intro. split.
  - apply btree_eqb_refl. intros k n Hk. apply validate_node_self.
    rewrite try_iter_Ok, Forall_forall in Hn. specialize (Hn (k, n)).
    rewrite elem_of_btree_iter in Hn. specialize (Hn Hk). simpl in Hn. by case_decide.
  - apply list_eqb_refl. intros e He. rewrite try_iter_Ok, Forall_forall in Hv.
    specialize (Hv e He). unfold validate_graph_edge in Hv. invert_binds.
    unfold SelfEqual, eqb, PartialEq_edge. rewrite !string_eqb_refl. simpl.
    destruct (transform e) as [|delta]; [done|]. apply finite_eqb_refl.
    by destruct (f64_is_finite delta).
Qed.

End with_regex.
