(* ===== verification/Clock.v ===== *)
(** * Timestamps (src/protocol/transitions.rs: iso8601_timestamp, civil_from_days)

    The system clock is an argument: the seconds since the Unix epoch, or
    [None] when the clock is before it.  Divisions are those of [i64]
    (truncating), the casts to [i32] and [u32] wrap.  [civil_from_days] is shown
    to walk the Gregorian calendar one day at a time. *)

From S2P Require Import Prelude F64 Errors.
From stdpp Require Import options.

Local Open Scope Z_scope.

(** [z as i32], [z as u32] and [z as i64]. *)
Definition as_i32 (z : Z) : Z := (z + 2 ^ 31) mod 2 ^ 32 - 2 ^ 31.
Definition as_u32 (z : Z) : Z := z mod 2 ^ 32.
Definition as_i64 (z : Z) : Z := (z + 2 ^ 63) mod 2 ^ 64 - 2 ^ 63.

Definition civil_from_days (days_since_unix_epoch : Z) : Z * Z * Z :=
  let shifted_days := days_since_unix_epoch + 719468 in
  let era := Z.quot (if 0 <=? shifted_days then shifted_days else shifted_days - 146096) 146097 in
  let day_of_era := shifted_days - era * 146097 in
  let year_of_era :=
    Z.quot (day_of_era - Z.quot day_of_era 1460 + Z.quot day_of_era 36524
            - Z.quot day_of_era 146096) 365 in
  let year := year_of_era + era * 400 in
  let day_of_year :=
    day_of_era - (365 * year_of_era + Z.quot year_of_era 4 - Z.quot year_of_era 100) in
  let month_piece := Z.quot (5 * day_of_year + 2) 153 in
  let day := day_of_year - Z.quot (153 * month_piece + 2) 5 + 1 in
  let month := month_piece + (if month_piece <? 10 then 3 else -9) in
  let year := year + (if month <=? 2 then 1 else 0) in
  (as_i32 year, as_u32 month, as_u32 day).

(** [{:0w}]: decimal digits padded with zeros to [w] characters, after the sign. *)
Definition pad_zeros (width : nat) (z : Z) : string :=
  let digits : string := pretty (Z.to_N (Z.abs z)) in
  let sign := if z <? 0 then "-"%string else ""%string in
  let used := (String.length sign + String.length digits)%nat in
  sign +:+ String.concat "" (replicate (width - used) "0"%string) +:+ digits.

Definition iso8601_timestamp (now : option Z) : LResult string :=
  secs ← ok_or now SystemClock;
  let seconds := as_i64 secs in
  let days := seconds / 86400 in
  let seconds_of_day := seconds mod 86400 in
  let '(year, month, day) := civil_from_days days in
  let hour := Z.quot seconds_of_day 3600 in
  let minute := Z.quot (Z.rem seconds_of_day 3600) 60 in
  let second := Z.rem seconds_of_day 60 in
  Ok (pad_zeros 4 year +:+ "-" +:+ pad_zeros 2 month +:+ "-" +:+ pad_zeros 2 day +:+ "T"
      +:+ pad_zeros 2 hour +:+ ":" +:+ pad_zeros 2 minute +:+ ":" +:+ pad_zeros 2 second +:+ "Z").

Lemma iso8601_timestamp_total seconds : ∃ ts, iso8601_timestamp (Some seconds) = Ok ts.
Proof.
  unfold iso8601_timestamp. cbn [ok_or mbind Result_bind]. cbv zeta.
  destruct (civil_from_days _) as [[year month] day]. eauto.
Qed.

Example timestamp_example :
  iso8601_timestamp (Some 1709210096) = Ok "2024-02-29T12:34:56Z"%string.
Proof. vm_compute. reflexivity. Qed.

(* ------------------------------------------------------------------ *)
(** ** The Gregorian calendar *)

Definition is_leap (year : Z) : bool :=
  (year mod 4 =? 0) && (negb (year mod 100 =? 0) || (year mod 400 =? 0)).

Definition days_in_month (leap : bool) (month : Z) : Z :=
  if month =? 2 then if leap then 29 else 28
  else if (month =? 4) || (month =? 6) || (month =? 9) || (month =? 11) then 30 else 31.

Definition next_date (date : Z * Z * Z) : Z * Z * Z :=
  let '(year, month, day) := date in
  if day <? days_in_month (is_leap year) month then (year, month, day + 1)
  else if month <? 12 then (year, month + 1, 1) else (year + 1, 1, 1).

(* ------------------------------------------------------------------ *)
(** ** The steps of the algorithm *)

(** Years begin on 1 March; [start y] is the day of the era year [y] begins. *)
Definition era_year (doe : Z) : Z := (doe - doe / 1460 + doe / 36524 - doe / 146096) / 365.
Definition start (y : Z) : Z := 365 * y + y / 4 - y / 100.
Definition year_end (y : Z) : Z := start y + 365 + (if is_leap (y + 1) then 1 else 0).
Definition month_piece (doy : Z) : Z := (5 * doy + 2) / 153.
Definition month_of (doy : Z) : Z := month_piece doy + (if month_piece doy <? 10 then 3 else -9).
Definition day_of (doy : Z) : Z := doy - (153 * month_piece doy + 2) / 5 + 1.

Lemma era_floor s :
  Z.quot (if 0 <=? s then s else s - 146096) 146097 = s / 146097.
Proof.
  destruct (Z.leb_spec 0 s); [by apply Z.quot_div_nonneg; lia|].
  replace (s - 146096) with (- (146096 - s)) by lia.
  rewrite Z.quot_opp_l, Z.quot_div_nonneg by lia.
  pose proof (Z.div_mod s 146097). pose proof (Z.mod_pos_bound s 146097).
  pose proof (Z.div_mod (146096 - s) 146097). pose proof (Z.mod_pos_bound (146096 - s) 146097). nia.
Qed.

Lemma era_year_mono d1 d2 : 0 ≤ d1 ≤ d2 → d2 < 146097 → era_year d1 ≤ era_year d2.
Proof.
  intros H12 H2. revert d2 H12 H2.
  enough (∀ n, 0 ≤ n → d1 + n < 146097 → 0 ≤ d1 → era_year d1 ≤ era_year (d1 + n)) as Hgo.
  { intros d2 [? ?] ?. replace d2 with (d1 + (d2 - d1)) by lia. apply Hgo; lia. }
  intros n Hn. pattern n. apply natlike_ind; [|clear n Hn; intros n Hn IH|done]; intros Hb H1.
  - by rewrite Z.add_0_r.
  - etrans; [apply IH; lia|]. unfold era_year. apply Z.div_le_mono; [lia|].
    replace (d1 + Z.succ n) with (d1 + n + 1) in * by lia.
    generalize dependent (d1 + n). intros d _ Hb. Z.to_euclidean_division_equations. lia.
Qed.

Definition era_year_ok (y : Z) : bool :=
  (era_year (start y) =? y) && (era_year (year_end y - 1) =? y)
  && ((year_end y =? start (y + 1)) || (y =? 399)).

(** One day within a March-based year; [leap] is whether its February has 29 days. *)
Definition doy_ok (leap : bool) (doy : Z) : bool :=
  let m := month_of doy in let d := day_of doy in
  (1 <=? m) && (m <=? 12) && (1 <=? d) && (d <=? 31)
  && (if doy + 1 <? 365 + (if leap then 1 else 0) then
        if d <? days_in_month leap m then (month_of (doy + 1) =? m) && (day_of (doy + 1) =? d + 1)
        else if m <? 12 then (month_of (doy + 1) =? m + 1) && (day_of (doy + 1) =? 1) && negb (m =? 2)
        else (month_of (doy + 1) =? 1) && (day_of (doy + 1) =? 1)
      else (m =? 2) && (d =? days_in_month leap 2)).

Lemma forall_below (P : Z → bool) (n : nat) :
  forallb P (seqZ 0 (Z.of_nat n)) = true → ∀ z, 0 ≤ z < Z.of_nat n → P z = true.
Proof. rewrite forallb_forall. intros HP z Hz. apply HP, list_elem_of_In, elem_of_seqZ. lia. Qed.

Lemma era_years_ok y : 0 ≤ y < 400 → era_year_ok y = true.
Proof. apply (forall_below era_year_ok 400). vm_compute. reflexivity. Qed.

Lemma doys_ok (leap : bool) doy : 0 ≤ doy < 365 + (if leap then 1 else 0) → doy_ok leap doy = true.
Proof.
  destruct leap;
    [apply (forall_below (doy_ok true) 366)|apply (forall_below (doy_ok false) 365)];
    vm_compute; reflexivity.
Qed.

Ltac zbool :=
  repeat match goal with
  | H : _ && _ = true |- _ => apply andb_prop in H as [? ?]
  | H : (_ =? _) = true |- _ => apply Z.eqb_eq in H
  | H : (_ <=? _) = true |- _ => apply Z.leb_le in H
  | H : (_ <? _) = true |- _ => apply Z.ltb_lt in H
  | H : negb (_ =? _) = true |- _ => apply negb_true_iff, Z.eqb_neq in H
  end.

(** The era year contains the day. *)
Lemma era_year_spec doe :
  0 ≤ doe < 146097 → 0 ≤ era_year doe < 400 ∧ start (era_year doe) ≤ doe < year_end (era_year doe).
Proof.
  intros Hd.
  assert (∃ y, 0 ≤ y < 400 ∧ start y ≤ doe < year_end y) as (y & Hy & Hs & He).
  { destruct (decide (start 399 ≤ doe)) as [Hlast|Hlast].
    { exists 399. change (year_end 399) with 146097. lia. }
    assert (∀ n, 0 ≤ n → n ≤ 399 → doe < start n → ∃ y, 0 ≤ y < 400 ∧ start y ≤ doe < year_end y) as Hgo;
      [|apply (Hgo 399); lia].
    intros n Hn. pattern n. apply natlike_ind; [|clear n Hn; intros n Hn IH|done].
    - intros _. change (start 0) with 0. lia.
    - intros Hb Hlt. destruct (decide (start n ≤ doe)) as [Hle|]; [|apply IH; lia].
      exists n. pose proof (era_years_ok n ltac:(lia)) as Hok. unfold era_year_ok in Hok. zbool.
      apply orb_prop in H0 as [H0|H0]; zbool; [|lia]. replace (Z.succ n) with (n + 1) in Hlt by lia. lia. }
  pose proof (era_years_ok y Hy) as Hok. unfold era_year_ok in Hok. zbool.
  assert (0 ≤ start y) as H0s by (unfold start; Z.to_euclidean_division_equations; lia).
  assert (year_end y ≤ 146097) as Hend.
  { apply orb_prop in H0 as [H0|H0]; zbool; [|by subst].
    rewrite H0. assert (start (y + 1) ≤ start 400); [|by change (start 400) with 146096 in *; lia].
    unfold start. Z.to_euclidean_division_equations; lia. }
  pose proof (era_year_mono (start y) doe ltac:(lia) ltac:(lia)).
  pose proof (era_year_mono doe (year_end y - 1) ltac:(lia) ltac:(lia)).
  assert (era_year doe = y) as -> by lia. done.
Qed.

(** The date of day [doy] of the March-based year [y]. *)
Definition march_date (y doy : Z) : Z * Z * Z :=
  (y + (if month_of doy <=? 2 then 1 else 0), month_of doy, day_of doy).

(** The days whose year fits an [i32] with a wide margin. *)
Definition supported_day (days : Z) : Prop := - 700000000000 ≤ days ≤ 700000000000.

Lemma as_i32_small z : - 2 ^ 31 ≤ z < 2 ^ 31 → as_i32 z = z.
Proof. intros Hz. unfold as_i32. rewrite Z.mod_small; lia. Qed.

Lemma is_leap_era y era : is_leap (y + 400 * era) = is_leap y.
Proof.
  unfold is_leap. replace (400 * era) with (era * 100 * 4) at 1 by lia. rewrite Z_mod_plus_full.
  replace (400 * era) with (era * 4 * 100) at 1 by lia. rewrite Z_mod_plus_full.
  replace (400 * era) with (era * 400) by lia. by rewrite Z_mod_plus_full.
Qed.

(** The position of a day: its March-based year and the day within it. *)
Definition locate (days : Z) : Z * Z :=
  let s := days + 719468 in
  let y := era_year (s mod 146097) in (y + 400 * (s / 146097), s mod 146097 - start y).

Lemma locate_bounds days y doy :
  locate days = (y, doy) → 0 ≤ doy < 365 + (if is_leap (y + 1) then 1 else 0).
Proof.
  unfold locate. cbv zeta. intros [= <- <-].
  pose proof (era_year_spec ((days + 719468) mod 146097) ltac:(apply Z.mod_pos_bound; lia)) as [_ Hs].
  unfold year_end in Hs.
  replace (era_year ((days + 719468) mod 146097) + 400 * ((days + 719468) / 146097) + 1)
    with (era_year ((days + 719468) mod 146097) + 1 + 400 * ((days + 719468) / 146097)) by lia.
  rewrite is_leap_era. lia.
Qed.

Lemma civil_from_days_locate days :
  supported_day days → civil_from_days days = march_date (locate days).1 (locate days).2.
Proof.
  intros Hd. unfold civil_from_days, locate, march_date, supported_day in *. cbv zeta.
  rewrite era_floor. set (s := days + 719468). set (era := s / 146097).
  assert (s - era * 146097 = s mod 146097) as ->.
  { unfold era. pose proof (Z.div_mod s 146097). lia. }
  assert (0 ≤ s mod 146097 < 146097) as Hdoe by (apply Z.mod_pos_bound; lia).
  set (doe := s mod 146097) in *.
  assert (-4792000 ≤ era ≤ 4792000) as Hera.
  { unfold era, s. Z.to_euclidean_division_equations. lia. }
  rewrite !(Z.quot_div_nonneg doe) by lia.
  assert (0 ≤ doe - doe / 1460 + doe / 36524 - doe / 146096) as Hg.
  { Z.to_euclidean_division_equations. lia. }
  rewrite (Z.quot_div_nonneg (doe - _ + _ - _)) by lia. fold (era_year doe).
  destruct (era_year_spec doe Hdoe) as [Hy Hs]. rewrite !(Z.quot_div_nonneg (era_year doe)) by lia.
  change (365 * era_year doe + era_year doe / 4 - era_year doe / 100) with (start (era_year doe)).
  pose proof (locate_bounds days _ _ eq_refl) as Hb. cbv zeta in Hb. fold s doe era in Hb.
  set (doy := doe - start (era_year doe)) in *.
  pose proof (doys_ok _ doy Hb) as Hok. unfold doy_ok in Hok. zbool.
  rewrite !(Z.quot_div_nonneg (5 * doy + 2)) by lia. fold (month_piece doy).
  assert (0 ≤ month_piece doy) by (apply Z.div_pos; lia).
  rewrite (Z.quot_div_nonneg (153 * month_piece doy + 2)) by lia.
  fold (month_of doy) (day_of doy). cbn [fst snd].
  rewrite as_i32_small; [unfold as_u32; rewrite !Z.mod_small by lia; f_equal; f_equal; lia|].
  destruct (month_of doy <=? 2); lia.
Qed.

(** The next day is the next day of the same year or the first of the next one. *)
Lemma locate_next days y doy :
  locate days = (y, doy) →
  locate (days + 1) =
    if doy + 1 <? 365 + (if is_leap (y + 1) then 1 else 0) then (y, doy + 1) else (y + 1, 0).
Proof.
  intros Hl. pose proof (locate_bounds _ _ _ Hl) as Hb. revert Hl. unfold locate. cbv zeta.
  set (s := days + 719468). replace (days + 1 + 719468) with (s + 1) by lia.
  intros [= <- <-]. assert (0 ≤ s mod 146097 < 146097) as Hdoe by (apply Z.mod_pos_bound; lia).
  destruct (era_year_spec _ Hdoe) as [Hy Hs].
  replace (era_year (s mod 146097) + 400 * (s / 146097) + 1)
    with (era_year (s mod 146097) + 1 + 400 * (s / 146097)) in * by lia.
  rewrite is_leap_era in *. pose proof (era_years_ok _ Hy) as Hok. unfold era_year_ok in Hok. zbool.
  destruct (decide (s mod 146097 = 146096)) as [Hlast|Hlast].
  - assert (s = 146097 * (s / 146097) + 146096) as Hsd by (pose proof (Z.div_mod s 146097); lia).
    assert ((s + 1) mod 146097 = 0 ∧ (s + 1) / 146097 = s / 146097 + 1) as [-> ->].
    { split; [symmetry; apply (Z.mod_unique_pos _ _ (s / 146097 + 1)); lia|].
      symmetry. apply (Z.div_unique_pos _ _ _ 0); lia. }
    rewrite Hlast in *. change (era_year 146096) with 399 in *. change (era_year 0) with 0.
    change (start 0) with 0. change (start 399) with 145731.
    change (if is_leap (399 + 1) then 1 else 0) with 1. simpl. f_equal; lia.
  - assert ((s + 1) mod 146097 = s mod 146097 + 1 ∧ (s + 1) / 146097 = s / 146097) as [-> ->].
    { pose proof (Z.div_mod s 146097). split.
      - symmetry. apply (Z.mod_unique_pos _ _ (s / 146097)); lia.
      - symmetry. apply (Z.div_unique_pos _ _ _ (s mod 146097 + 1)); lia. }
    set (doe := s mod 146097) in *. destruct (era_year_spec (doe + 1) ltac:(lia)) as [Hy' Hs'].
    assert (doe - start (era_year doe) + 1 < 365 + (if is_leap (era_year doe + 1) then 1 else 0)
            ↔ doe + 1 < year_end (era_year doe)) as Hiff by (unfold year_end; lia).
    destruct (Z.ltb_spec (doe - start (era_year doe) + 1)
                (365 + (if is_leap (era_year doe + 1) then 1 else 0))) as [Hlt|Hge].
    + apply Hiff in Hlt. assert (era_year (doe + 1) = era_year doe) as ->; [|f_equal; lia].
      pose proof (era_year_mono doe (doe + 1) ltac:(lia) ltac:(lia)).
      pose proof (era_year_mono (doe + 1) (year_end (era_year doe) - 1) ltac:(lia)) as Hm.
      assert (year_end (era_year doe) ≤ 146097) as Hend.
      { destruct (decide (era_year doe = 399)) as [->|]; [done|].
        apply orb_prop in H0 as [H0|H0]; zbool; [|done]. rewrite H0.
        unfold start. Z.to_euclidean_division_equations; lia. }
      lia.
    + assert (year_end (era_year doe) = doe + 1) as Heq by lia.
      apply orb_prop in H0 as [H0|H0]; zbool.
      2:{ rewrite H0 in Heq. change (year_end 399) with 146097 in Heq. lia. }
      rewrite Heq in H0. assert (era_year doe + 1 < 400) as Hlt400.
      { destruct (decide (era_year doe = 399)) as [He|]; [|lia]. rewrite He in Heq.
        change (year_end 399) with 146097 in Heq. lia. }
      pose proof (era_years_ok (era_year doe + 1) ltac:(lia)) as Hok'. unfold era_year_ok in Hok'. zbool.
      assert (era_year (doe + 1) = era_year doe + 1) as -> by (rewrite H0; done).
      f_equal; lia.
Qed.

Lemma march_date_next y doy :
  0 ≤ doy < 365 + (if is_leap (y + 1) then 1 else 0) →
  next_date (march_date y doy) =
    if doy + 1 <? 365 + (if is_leap (y + 1) then 1 else 0) then march_date y (doy + 1)
    else march_date (y + 1) 0.
Proof.
  intros Hd. pose proof (doys_ok _ _ Hd) as Hok. unfold doy_ok in Hok.
  apply andb_prop in Hok as [Hr Hok]. unfold march_date, next_date.
  set (m := month_of doy) in *. set (d := day_of doy) in *.
  assert (days_in_month (is_leap (y + (if m <=? 2 then 1 else 0))) m
          = days_in_month (is_leap (y + 1)) m) as ->.
  { unfold days_in_month. destruct (Z.eqb_spec m 2) as [->|]; done. }
  destruct (doy + 1 <? _) eqn:Hlast.
  - destruct (d <? _) eqn:Hday;
      [apply andb_prop in Hok as [Hm Hdd]; zbool; by rewrite Hm, Hdd|].
    destruct (m <? 12) eqn:Hm.
    + apply andb_prop in Hok as [[Hm' Hdd]%andb_prop Hm2]. zbool. rewrite Hm', Hdd.
      f_equal. f_equal. destruct (Z.leb_spec m 2), (Z.leb_spec (m + 1) 2); lia.
    + apply andb_prop in Hok as [Hm' Hdd]. zbool. rewrite Hm', Hdd.
      apply Z.ltb_ge in Hm. assert (m = 12) as -> by lia. f_equal. f_equal. simpl. lia.
  - apply andb_prop in Hok as [Hm Hdd]. zbool. rewrite Hm, Hdd, Z.ltb_irrefl.
    change (month_of 0) with 3. change (day_of 0) with 1. simpl. f_equal. f_equal. lia.
Qed.

(* ------------------------------------------------------------------ *)
(** ** Properties *)

(** [civil_from_days] is the proleptic Gregorian calendar: day 0 is 1 January
    1970, and the date of each following day is the next date under the leap
    year rule, before and after the epoch. *)
Theorem civil_from_days_calendar :
  civil_from_days 0 = (1970, 1, 1) ∧
  ∀ days, supported_day days → supported_day (days + 1) →
    civil_from_days (days + 1) = next_date (civil_from_days days).
Proof.
  split; [by vm_compute|]. intros days H1 H2. rewrite !civil_from_days_locate by done.
  destruct (locate days) as [y doy] eqn:Hl. rewrite (locate_next _ _ _ Hl). cbn [fst snd].
  rewrite march_date_next by by eapply locate_bounds. by destruct (_ <? _).
Qed.

Lemma civil_from_days_calendar_witness :
  supported_day 19781 ∧ supported_day 19782 ∧ civil_from_days 19782 = (2024, 2, 29) ∧
  civil_from_days (19782 + 1) = (2024, 3, 1).
Proof.
  assert (supported_day 19782) as H1 by (vm_compute; split; discriminate).
  assert (supported_day (19782 + 1)) as H2 by (vm_compute; split; discriminate).
  assert (civil_from_days 19782 = (2024, 2, 29)) as Hd by (vm_compute; reflexivity).
  split; [vm_compute; split; discriminate|]. split; [exact H1|]. split; [exact Hd|].
  rewrite (proj2 civil_from_days_calendar 19782 H1 H2), Hd. vm_compute. reflexivity.
Defined.
