(* ===== verification/ProtocolData.v ===== *)
(** * Data of the governance protocol (src/protocol/{state,formats}.rs, with the
      property names and monitoring specifications of src/sacrifice.rs)

    The eight protocol states, the declarations, certificates, alerts and
    reports they carry, the supervisory actions, and the protocol's error type.
    Text carried for people only ([evidence] values, messages) is a [Message]
    or a string as the source builds it. *)

From S2P Require Import Prelude F64 Errors Core GraphNode RustEq Mechanism.
From stdpp Require Import options.

Inductive GovernanceProperty : Type :=
  | Consistency | Solidarity | Monotonicity | Strategyproofness | Certifiability
  | ObservableDeterminacy | Corrigibility | CompositionalSafety | NonVacuous.

Global Instance GovernanceProperty_eq_dec : EqDecision GovernanceProperty.
Proof. solve_decision. Defined.

(** [GovernanceProperty::as_str] *)
Definition as_str (p : GovernanceProperty) : string :=
  match p with
  | Consistency => "consistency"
  | Solidarity => "solidarity"
  | Monotonicity => "monotonicity"
  | Strategyproofness => "strategyproofness"
  | Certifiability => "certifiability"
  | ObservableDeterminacy => "observable_determinacy"
  | Corrigibility => "corrigibility"
  | CompositionalSafety => "compositional_safety"
  | NonVacuous => "non_vacuous"
  end.

(** [GovernanceProperty::parse] *)
Definition parse (value : string) : option GovernanceProperty :=
  if decide (value = "consistency") then Some Consistency
  else if decide (value = "solidarity") then Some Solidarity
  else if decide (value = "monotonicity") then Some Monotonicity
  else if decide (value = "strategyproofness") then Some Strategyproofness
  else if decide (value = "certifiability") then Some Certifiability
  else if decide (value = "observable_determinacy") then Some ObservableDeterminacy
  else if decide (value = "corrigibility") then Some Corrigibility
  else if decide (value = "compositional_safety") then Some CompositionalSafety
  else if decide (value = "non_vacuous" ∨ value = "nonvacuous") then Some NonVacuous
  else None.

Record MonitoringSpec := mkMonitoringSpec {
  metric : string;
  spec_threshold : f64;
  frequency_seconds : Z;
  alert_channel : string;
}.

Record GovernanceFactorExposure := mkExposure {
  exp_consistency : f64;
  exp_solidarity : f64;
  exp_monotonicity : f64;
  exp_strategyproofness : f64;
  exp_nonvacuity : f64;
}.

(* ------------------------------------------------------------------ *)
(** ** Errors *)

Inductive ProtocolError : Type :=
  | VerdictError (e : LegitimacyError)
  | MalformedSupervisoryDirectiveJson (reason : Message)
  | MalformedSupervisoryDirectiveNodeId (field node_id : string) (reason : LegitimacyError)
  | UnknownSupervisoryDirectiveNodeId (field node_id : string)
  | InvalidStateTransition (expected actual : string)
  | UnsacrificedViolations (properties : list GovernanceProperty)
  | PhantomSacrifice (property : string)
  | MissingDecision (claimant_id : string)
  | SkippedKernelCheck (axiom : string) (reason : Message)
  | MalformedState (reason : Message).

Abbreviation PResult := (Result ProtocolError).

(** [?] on a [LegitimacyError] inside the protocol. *)
Definition lift {A} (r : LResult A) : PResult A := map_err VerdictError r.

Definition malformed_state {A} (reason : Message) : PResult A := Err (MalformedState reason).

(* ------------------------------------------------------------------ *)
(** ** Formats *)

Record SacrificeDeclaration := mkSacrifice {
  sd_property : GovernanceProperty;
  sd_justification : string;
  sd_monitoring_specs : list MonitoringSpec;
}.

Abbreviation DeclaredSacrifice := SacrificeDeclaration.

Record SacrificeCertificate := mkSacrificeCert {
  sc_property : GovernanceProperty;
  sc_impact_bound : f64;
  sc_source_axiom : string;
  sc_witness : Message;
  sc_monitoring_specs : list MonitoringSpec;
}.

Record GovernanceDeclaration := mkDeclaration {
  protocol_version : string;
  d_timestamp : string;
  graph_name : string;
  graph_version : string;
  d_graph : GovernanceGraph;
  d_sacrifices : list DeclaredSacrifice;
  d_spectral_gap : f64;
  d_cv_bound : f64;
}.

Record PromotionCertificate := mkPromotionCertificate {
  pc_rule_name : string;
  pc_claimant_id : string;
  pc_decision : Decision;
  pc_outcome_verified : bool;
  pc_evidence : gmap string string;
  pc_compiled_rule_hash : string;
  pc_prev_cert_hash : option string;
  pc_timestamp : string;
}.

Record GovernanceDriftAlert := mkDriftAlert {
  da_alert_type : string;
  da_property : GovernanceProperty;
  da_declared_bound : f64;
  da_actual_magnitude : f64;
  da_evidence : gmap string Message;
  da_recommended_action : string;
}.

Record GovernanceRiskReport := mkRiskReport {
  rr_factor_exposure : GovernanceFactorExposure;
  rr_spectral_gap : f64;
  rr_cv_bound : f64;
  rr_localizability_bound : f64;
}.

Global Instance PromotionCertificate_eq_dec : EqDecision PromotionCertificate.
Proof. solve_decision. Defined.

(* ------------------------------------------------------------------ *)
(** ** States *)

Record CompiledGraph := mkCompiledGraph {
  cg_name : string;
  cg_version : string;
  cg_graph : GovernanceGraph;
  cg_axiom_verdicts : list Verdict;
  cg_strategyproofness : StrategyproofnessVerdict;
  cg_compiled_rule_hash : string;
  cg_compiled_at : string;
}.

(** The intervals and the seed are [u64]. *)
Record MonitorConfig := mkMonitorConfig {
  min_interval_seconds : Z;
  max_interval_seconds : Z;
  seed : Z;
}.

Record MonitorSession := mkMonitorSession {
  ms_compiled_graph : CompiledGraph;
  ms_sacrifice_certs : list SacrificeCertificate;
  ms_monitored_properties : list GovernanceProperty;
  ms_representative_claims : list GovernanceClaim;
  ms_interval_seconds : Z;
  ms_monitor_config : MonitorConfig;
}.

Record ProtocolLedger := mkLedger {
  l_certificates : list PromotionCertificate;
  l_drift_alerts : list GovernanceDriftAlert;
  l_head_hash : option string;
}.

Definition ProtocolLedger_default : ProtocolLedger := mkLedger [] [] None.

(** [DenyAll] is the action the source calls [Deny], as the decision. *)
Inductive SupervisoryAction : Type :=
  | Pause | DenyAll | Sandbox | Degrade | Rollback | Reroute | Stop.

Inductive SupervisoryPostcondition : Type :=
  | ClaimEvaluationPaused
  | UniversalDeny
  | GovernanceGraphSandboxed
  | GovernanceDegraded
  | PriorGovernanceStateRestored
  | ClaimsRerouted
  | PermanentlyShutdown.

Global Instance SupervisoryPostcondition_eq_dec : EqDecision SupervisoryPostcondition.
Proof. solve_decision. Defined.

Definition postcondition (action : SupervisoryAction) : SupervisoryPostcondition :=
  match action with
  | Pause => ClaimEvaluationPaused
  | DenyAll => UniversalDeny
  | Sandbox => GovernanceGraphSandboxed
  | Degrade => GovernanceDegraded
  | Rollback => PriorGovernanceStateRestored
  | Reroute => ClaimsRerouted
  | Stop => PermanentlyShutdown
  end.

Record SupervisoryIntervention := mkIntervention {
  iv_action : SupervisoryAction;
  iv_postcondition : SupervisoryPostcondition;
  iv_issued_at : string;
  iv_overlay_graph : GovernanceGraph;
  iv_overlay_graph_hash : string;
  iv_reason : option string;
}.

Inductive ProtocolState : Type :=
  | Undeclared
  | Declared (graph : GovernanceGraph) (sacrifices : list DeclaredSacrifice)
      (declaration : GovernanceDeclaration)
  | Compiled (compiled_graph : CompiledGraph) (sacrifice_certs : list SacrificeCertificate)
      (declaration : GovernanceDeclaration)
  | Measured (risk_report : GovernanceRiskReport) (factor_exposure : GovernanceFactorExposure)
      (compiled_graph : CompiledGraph) (sacrifice_certs : list SacrificeCertificate)
      (declaration : GovernanceDeclaration) (representative_claims : list GovernanceClaim)
  | Live (monitor_session : MonitorSession) (ledger : ProtocolLedger)
      (declaration : GovernanceDeclaration)
  | Supervised (intervention : SupervisoryIntervention) (monitor_session : MonitorSession)
      (ledger : ProtocolLedger) (declaration : GovernanceDeclaration)
  | Drifted (drift_report : GovernanceDriftAlert) (monitor_session : MonitorSession)
      (ledger : ProtocolLedger) (declaration : GovernanceDeclaration)
  | Recompiling (proposed_graph : GovernanceGraph) (sacrifices : list DeclaredSacrifice)
      (declaration : GovernanceDeclaration).

(** [ProtocolState::name] *)
Definition state_name (s : ProtocolState) : string :=
  match s with
  | Undeclared => "undeclared"
  | Declared _ _ _ => "declared"
  | Compiled _ _ _ => "compiled"
  | Measured _ _ _ _ _ _ => "measured"
  | Live _ _ _ => "live"
  | Supervised _ _ _ _ => "supervised"
  | Drifted _ _ _ _ => "drifted"
  | Recompiling _ _ _ => "recompiling"
  end.

(* ------------------------------------------------------------------ *)
(** ** Derived equality *)

Global Instance PartialEq_property : PartialEq GovernanceProperty := λ a b, bool_decide (a = b).

Global Instance PartialEq_monitoring_spec : PartialEq MonitoringSpec := λ a b,
  eqb (metric a) (metric b) && eqb (spec_threshold a) (spec_threshold b)
  && bool_decide (frequency_seconds a = frequency_seconds b)
  && eqb (alert_channel a) (alert_channel b).

Global Instance PartialEq_sacrifice : PartialEq SacrificeDeclaration := λ a b,
  eqb (sd_property a) (sd_property b) && eqb (sd_justification a) (sd_justification b)
  && eqb (sd_monitoring_specs a) (sd_monitoring_specs b).

Global Instance PartialEq_exposure : PartialEq GovernanceFactorExposure := λ a b,
  eqb (exp_consistency a) (exp_consistency b) && eqb (exp_solidarity a) (exp_solidarity b)
  && eqb (exp_monotonicity a) (exp_monotonicity b)
  && eqb (exp_strategyproofness a) (exp_strategyproofness b)
  && eqb (exp_nonvacuity a) (exp_nonvacuity b).

Global Instance Piece_eq_dec : EqDecision Piece.
Proof. solve_decision. Defined.
(** Messages are compared after rendering in the source; two messages that the
    same code built are equal when their parts are. *)
Global Instance PartialEq_message : PartialEq Message := λ a b, bool_decide (a = b).

Global Instance PartialEq_alert : PartialEq GovernanceDriftAlert := λ a b,
  eqb (da_alert_type a) (da_alert_type b) && eqb (da_property a) (da_property b)
  && eqb (da_declared_bound a) (da_declared_bound b)
  && eqb (da_actual_magnitude a) (da_actual_magnitude b)
  && eqb (da_evidence a) (da_evidence b)
  && eqb (da_recommended_action a) (da_recommended_action b).

(** Finite bounds make an alert equal to itself. *)
Lemma alert_self a :
  f64_is_finite (da_declared_bound a) = true → f64_is_finite (da_actual_magnitude a) = true →
  SelfEqual a.
Proof.
  intros H1 H2. unfold SelfEqual, eqb, PartialEq_alert.
  rewrite !string_eqb_refl, !finite_eqb_refl by done.
  assert (eqb (da_property a) (da_property a) = true) as -> by by apply bool_decide_eq_true.
  rewrite btree_eqb_refl; [done|]. intros k x _. by apply bool_decide_eq_true.
Qed.

(* ------------------------------------------------------------------ *)
(** ** Names of properties *)

Lemma parse_as_str p : parse (as_str p) = Some p.
Proof. by destruct p. Qed.

Global Instance as_str_inj : Inj (=) (=) as_str.
Proof. intros p q Hpq. apply (f_equal parse) in Hpq. rewrite !parse_as_str in Hpq. by injection Hpq. Qed.

Lemma as_str_parse s p : parse s = Some p → s = as_str p ∨ (s = "nonvacuous" ∧ p = NonVacuous).
Proof. unfold parse. repeat case_decide; intros [= <-]; subst; auto. naive_solver. Qed.
