(* ===== verification/ProtocolState.v ===== *)
(** * Validation of protocol states (src/protocol/state.rs)

    [validate_with_options] and the checks it is made of, and the hash chain of
    the protocol ledger.  SHA-256 over the JSON encoding of a value is the
    parameter [StableHash]: nothing about it is assumed except that it is a
    function of the value that is hashed. *)

From S2P Require Import Prelude F64 Errors Core GraphNode RustEq Synthetic Mechanism ProtocolData.
From stdpp Require Import options.

(** The values the protocol hashes. *)
Inductive HashPayload : Type :=
  | RulePayload (graph : GovernanceGraph) (claims : list GovernanceClaim)
      (axiom_verdicts : list Verdict) (strategyproofness : StrategyproofnessVerdict)
  | GraphPayload (graph : GovernanceGraph) (claims : list GovernanceClaim)
  | CertificatePayload (certificate : PromotionCertificate).

(** [serde_json::to_vec] followed by SHA-256, in lowercase hexadecimal; [None]
    when the encoding fails. *)
Class StableHash := sha256_json : HashPayload → option string.

Definition REQUIRED_AXIOMS : list string :=
  ["graph consistency"; "graph solidarity"; "graph monotonicity"; "graph certifiability";
   "graph observable determinacy"; "graph corrigibility"; "graph compositional safety";
   "graph nonvacuity"].

Definition default_monitored_properties : list GovernanceProperty :=
  [Consistency; Solidarity; Monotonicity; Strategyproofness; Certifiability;
   ObservableDeterminacy; Corrigibility; CompositionalSafety; NonVacuous].

(** The set of the names of some properties ([BTreeSet<&str>]). *)
Definition names_of (properties : list GovernanceProperty) : gset string :=
  list_to_set (as_str <$> properties).

Definition non_sacrificed_monitoring_properties (sacrifice_certs : list SacrificeCertificate)
    : list GovernanceProperty :=
  let sacrificed := names_of (sc_property <$> sacrifice_certs) in
  filter (λ property, as_str property ∉ sacrificed) default_monitored_properties.

(** [!x.is_finite() || x < 0.0] *)
Definition bad_bound (x : f64) : bool := negb (f64_is_finite x) || f64_ltb x f64_zero.

(** [if bad { return Err(malformed_state(reason)) }] *)
Definition reject_if (bad : bool) (reason : Message) : PResult unit :=
  if bad then malformed_state reason else Ok ().

Definition verdict_axiom (v : Verdict) : string :=
  match v with Admissible axiom _ | Rejected axiom _ => axiom end.

Definition validate_declaration_basics (declaration : GovernanceDeclaration) : PResult unit :=
  _ ← reject_if (is_blank (graph_name declaration)) [Txt "declaration graph_name must be non-empty"];
  _ ← reject_if (is_blank (graph_version declaration))
        [Txt "declaration graph_version must be non-empty"];
  _ ← reject_if (bad_bound (d_spectral_gap declaration))
        [Txt "declaration spectral_gap must be finite and non-negative"];
  reject_if (bad_bound (d_cv_bound declaration))
    [Txt "declaration cv_bound must be finite and non-negative"].

Definition validate_sacrifice_alignment (sacrifice_certs : list SacrificeCertificate)
    (declared_sacrifices : list DeclaredSacrifice) : PResult unit :=
  let declared := names_of (sd_property <$> declared_sacrifices) in
  let certified := names_of (sc_property <$> sacrifice_certs) in
  _ ← reject_if (bool_decide (declared ≠ certified))
        [Txt "sacrifice certificates do not match declared sacrifice properties"];
  _ ← reject_if (bool_decide (length sacrifice_certs ≠ size certified))
        [Txt "sacrifice certificates must not contain duplicate properties"];
  try_iter (λ cert,
    reject_if (bad_bound (sc_impact_bound cert))
      [Txt "sacrifice certificate for '"; Txt (as_str (sc_property cert));
       Txt "' has invalid impact bound"]) sacrifice_certs.

Definition validate_monitoring_coverage (monitored_properties : list GovernanceProperty)
    (sacrifice_certs : list SacrificeCertificate) : PResult unit :=
  let monitored := names_of monitored_properties in
  _ ← reject_if (bool_decide (size monitored ≠ length monitored_properties))
        [Txt "monitoring coverage must not contain duplicate properties"];
  let missing := as_str <$> filter (λ property, as_str property ∉ monitored)
                   (non_sacrificed_monitoring_properties sacrifice_certs) in
  reject_if (negb (bool_decide (missing = [])))
    [Txt "monitoring coverage missing non-sacrificed properties "; Names missing].

Definition validate_drift_alert (alert : GovernanceDriftAlert) : PResult unit :=
  _ ← reject_if (bad_bound (da_declared_bound alert))
        [Txt "drift alert declared_bound must be finite and non-negative"];
  reject_if (bad_bound (da_actual_magnitude alert))
    [Txt "drift alert actual_magnitude must be finite and non-negative"].

Definition validate_risk_report (report : GovernanceRiskReport) : PResult unit :=
  _ ← reject_if (bad_bound (rr_spectral_gap report))
        [Txt "risk report spectral_gap must be finite and non-negative"];
  _ ← reject_if (bad_bound (rr_cv_bound report))
        [Txt "risk report cv_bound must be finite and non-negative"];
  reject_if (bad_bound (rr_localizability_bound report))
    [Txt "risk report localizability_bound must be finite and non-negative"].

Section with_hash.
Context `{StableHash}.

Definition stable_hash (value : HashPayload) : PResult string :=
  lift (ok_or (sha256_json value) (Serialize "protocol hash payload")).

Definition canonical_compiled_rule_hash (graph : GovernanceGraph) (axiom_verdicts : list Verdict)
    (strategyproofness : StrategyproofnessVerdict) : PResult string :=
  stable_hash (RulePayload graph (synthetic_claims graph) axiom_verdicts strategyproofness).

Definition canonical_graph_hash (graph : GovernanceGraph) : PResult string :=
  stable_hash (GraphPayload graph (synthetic_claims graph)).

Definition protocol_certificate_hash (certificate : PromotionCertificate) : PResult string :=
  stable_hash (CertificatePayload certificate).

Definition validate_compiled_graph (compiled_graph : CompiledGraph)
    (declaration : GovernanceDeclaration) (require_declared_graph_match : bool) : PResult unit :=
  _ ← reject_if (bool_decide (cg_name compiled_graph ≠ graph_name declaration))
        [Txt "compiled graph name '"; Txt (cg_name compiled_graph);
         Txt "' does not match declaration '"; Txt (graph_name declaration); Txt "'"];
  _ ← reject_if (bool_decide (cg_version compiled_graph ≠ graph_version declaration))
        [Txt "compiled graph version '"; Txt (cg_version compiled_graph);
         Txt "' does not match declaration '"; Txt (graph_version declaration); Txt "'"];
  _ ← reject_if (require_declared_graph_match
                 && negb (eqb (cg_graph compiled_graph) (d_graph declaration)))
        [Txt "compiled graph payload does not match declaration graph"];
  expected_hash ← canonical_compiled_rule_hash (cg_graph compiled_graph)
                    (cg_axiom_verdicts compiled_graph) (cg_strategyproofness compiled_graph);
  _ ← reject_if (bool_decide (cg_compiled_rule_hash compiled_graph ≠ expected_hash))
        [Txt "compiled_rule_hash does not match the canonical compiled graph hash"];
  let seen := verdict_axiom <$> cg_axiom_verdicts compiled_graph in
  _ ← reject_if (bool_decide (length seen ≠ length REQUIRED_AXIOMS))
        [Txt "compiled graph must carry exactly eight non-strategyproof graph axiom verdicts"];
  try_iter (λ axiom,
    reject_if (bool_decide (length (filter (λ candidate, candidate = axiom) seen) ≠ 1))
      [Txt "compiled graph verdict set must contain exactly one '"; Txt axiom; Txt "' verdict"])
    REQUIRED_AXIOMS.

(** The bounds a configuration puts on the monitoring interval. *)
Definition interval_bounds (config : MonitorConfig) : Z * Z :=
  let min_interval := Z.max (min_interval_seconds config) 1 in
  (min_interval, Z.max (max_interval_seconds config) min_interval).

Definition validate_monitor_session (monitor_session : MonitorSession)
    (declaration : GovernanceDeclaration) (require_declared_graph_match : bool) : PResult unit :=
  _ ← validate_compiled_graph (ms_compiled_graph monitor_session) declaration
        require_declared_graph_match;
  _ ← validate_sacrifice_alignment (ms_sacrifice_certs monitor_session) (d_sacrifices declaration);
  _ ← validate_monitoring_coverage (ms_monitored_properties monitor_session)
        (ms_sacrifice_certs monitor_session);
  let '(min_interval, max_interval) := interval_bounds (ms_monitor_config monitor_session) in
  reject_if ((ms_interval_seconds monitor_session <? min_interval)%Z
             || (max_interval <? ms_interval_seconds monitor_session)%Z)
    [Txt "monitor interval "; Int (ms_interval_seconds monitor_session);
     Txt " is outside configured bounds ["; Int min_interval; Txt ", "; Int max_interval; Txt "]"].

Definition validate_supervisory_intervention (intervention : SupervisoryIntervention)
    : PResult unit :=
  expected_hash ← canonical_graph_hash (iv_overlay_graph intervention);
  reject_if (bool_decide (iv_overlay_graph_hash intervention ≠ expected_hash))
    [Txt "supervisory overlay graph hash does not match the canonical graph hash"].

(** One certificate of the chain: the state is the hash of the previous one. *)
Definition chain_step (allow_tampered_ledger : bool) (prev_hash : option string)
    (certificate : PromotionCertificate) : PResult (Flow (option string) unit) :=
  if decide (pc_prev_cert_hash certificate = prev_hash) then
    h ← protocol_certificate_hash certificate; Ok (Continue (Some h))
  else if allow_tampered_ledger then Ok (Break ())
  else malformed_state [Txt "protocol ledger certificate chain is inconsistent"].

Definition validate_ledger (ledger : ProtocolLedger) (allow_tampered_ledger : bool) : PResult unit :=
  fl ← try_loop (chain_step allow_tampered_ledger) None (l_certificates ledger);
  match fl with
  | Break r => Ok r
  | Continue prev_hash =>
      if decide (l_head_hash ledger = prev_hash) then
        try_iter validate_drift_alert (l_drift_alerts ledger)
      else if allow_tampered_ledger then Ok ()
      else malformed_state
             [Txt "protocol ledger head_hash does not match the certificate chain tail"]
  end.

Definition validate_with_options (allow_tampered_ledger : bool) (s : ProtocolState)
    : PResult unit :=
  match s with
  | Undeclared => Ok ()
  | Declared graph sacrifices declaration =>
      _ ← validate_declaration_basics declaration;
      _ ← reject_if (negb (eqb (d_graph declaration) graph))
            [Txt "declared state graph does not match declaration graph"];
      reject_if (negb (eqb (d_sacrifices declaration) sacrifices))
        [Txt "declared sacrifices do not match declaration payload"]
  | Compiled compiled_graph sacrifice_certs declaration =>
      _ ← validate_declaration_basics declaration;
      _ ← validate_compiled_graph compiled_graph declaration true;
      validate_sacrifice_alignment sacrifice_certs (d_sacrifices declaration)
  | Measured risk_report factor_exposure compiled_graph sacrifice_certs declaration _ =>
      _ ← validate_declaration_basics declaration;
      _ ← validate_compiled_graph compiled_graph declaration true;
      _ ← validate_sacrifice_alignment sacrifice_certs (d_sacrifices declaration);
      _ ← reject_if (negb (eqb factor_exposure (rr_factor_exposure risk_report)))
            [Txt "measured state factor exposure does not match risk report"];
      validate_risk_report risk_report
  | Live monitor_session ledger declaration =>
      _ ← validate_declaration_basics declaration;
      _ ← validate_monitor_session monitor_session declaration true;
      validate_ledger ledger allow_tampered_ledger
  | Supervised intervention monitor_session ledger declaration =>
      _ ← validate_declaration_basics declaration;
      _ ← validate_monitor_session monitor_session declaration true;
      _ ← validate_ledger ledger allow_tampered_ledger;
      _ ← reject_if (bool_decide
                       (iv_postcondition intervention ≠ postcondition (iv_action intervention)))
            [Txt "supervisory postcondition does not match action"];
      validate_supervisory_intervention intervention
  | Drifted drift_report monitor_session ledger declaration =>
      _ ← validate_declaration_basics declaration;
      _ ← validate_monitor_session monitor_session declaration true;
      _ ← validate_ledger ledger allow_tampered_ledger;
      _ ← validate_drift_alert drift_report;
      reject_if (negb (existsb (λ alert, eqb alert drift_report) (l_drift_alerts ledger)))
        [Txt "drifted state report is not present in the ledger drift history"]
  | Recompiling _ sacrifices declaration =>
      _ ← validate_declaration_basics declaration;
      reject_if (bool_decide (length sacrifices ≠ size (names_of (sd_property <$> sacrifices))))
        [Txt "recompiling sacrifices must not contain duplicate properties"]
  end.

Definition validate (s : ProtocolState) : PResult unit := validate_with_options false s.
Definition validate_for_audit (s : ProtocolState) : PResult unit := validate_with_options true s.

(* ------------------------------------------------------------------ *)
(** ** The hash chain *)

Lemma reject_if_Ok bad reason : reject_if bad reason = Ok () ↔ bad = false.
Proof. by destruct bad. Qed.

Lemma reject_if_inv bad reason u : reject_if bad reason = Ok u → bad = false.
Proof. by destruct bad. Qed.

(** The certificates of a chain that starts after [prev] and ends in [tail]. *)
Inductive chained : option string → list PromotionCertificate → option string → Prop :=
  | chained_nil prev : chained prev [] prev
  | chained_cons prev c h l tail :
      pc_prev_cert_hash c = prev → sha256_json (CertificatePayload c) = Some h →
      chained (Some h) l tail → chained prev (c :: l) tail.

Lemma certificate_hash_Ok c h :
  protocol_certificate_hash c = Ok h ↔ sha256_json (CertificatePayload c) = Some h.
Proof.
  unfold protocol_certificate_hash, stable_hash, lift.
  destruct (sha256_json _); simpl; split; congruence.
Qed.

Lemma chain_step_Ok prev c fl :
  chain_step false prev c = Ok fl ↔
  pc_prev_cert_hash c = prev ∧
  ∃ h, sha256_json (CertificatePayload c) = Some h ∧ fl = Continue (Some h).
Proof.
  unfold chain_step. setoid_rewrite <-certificate_hash_Ok. split.
  - intros Hs. destruct (decide (pc_prev_cert_hash c = prev)) as [->|]; [|done].
    destruct (protocol_certificate_hash c) as [h|]; cbn [mbind Result_bind] in Hs; [|done].
    injection Hs as <-. eauto.
  - intros (-> & h & -> & ->). by rewrite decide_True by done.
Qed.

Lemma chain_loop_spec prev l tail :
  try_loop (chain_step false) prev l = Ok (Continue tail) ↔ chained prev l tail.
Proof.
  split.
  - revert prev. induction l as [|c l IH]; intros prev Hl; cbn [try_loop] in Hl.
    { injection Hl as ->. constructor. }
    destruct (chain_step false prev c) as [fl|] eqn:Hs; cbn [mbind Result_bind] in Hl; [|done].
    apply chain_step_Ok in Hs as (Hp & h & Hh & ->). econstructor; [done|done|by apply IH].
  - induction 1 as [|prev c h l tail Hp Hh _ IH]; [done|]. cbn [try_loop].
    by rewrite (proj2 (chain_step_Ok prev c (Continue (Some h)))); eauto.
Qed.

Lemma chain_loop_no_break prev l r : try_loop (chain_step false) prev l ≠ Ok (Break r).
Proof. by intros (c & t & _ & (_ & h & _ & [=])%chain_step_Ok)%try_loop_Break. Qed.

(** A strictly validated ledger is a chain with bounded alerts. *)
Lemma validate_ledger_strict l :
  validate_ledger l false = Ok () ↔
  chained None (l_certificates l) (l_head_hash l) ∧
  Forall (λ a, validate_drift_alert a = Ok ()) (l_drift_alerts l).
Proof.
  unfold validate_ledger. rewrite <-chain_loop_spec. split.
  - intros Hl. destruct (try_loop _ _ _) as [[tail|r]|] eqn:Hc; cbn [mbind Result_bind] in Hl; [| |done].
    + destruct (decide (l_head_hash l = tail)) as [->|]; [|done]. by rewrite try_iter_Ok in Hl.
    + by destruct (chain_loop_no_break _ _ _ Hc).
  - intros [-> Ha]. cbn [mbind Result_bind]. rewrite decide_True by done. by apply try_iter_Ok.
Qed.

Lemma chained_app prev l c mid h :
  chained prev l mid → pc_prev_cert_hash c = mid → sha256_json (CertificatePayload c) = Some h →
  chained prev (l ++ [c]) (Some h).
Proof.
  induction 1 as [|prev c' h' l tail Hp Hh _ IH]; intros Hc Hhc; simpl.
  - econstructor; [done|done|constructor].
  - econstructor; [done|done|by apply IH].
Qed.

Lemma chained_snoc_inv prev l c tail :
  chained prev (l ++ [c]) tail →
  ∃ h, tail = Some h ∧ sha256_json (CertificatePayload c) = Some h ∧
       chained prev l (pc_prev_cert_hash c).
Proof.
  revert prev. induction l as [|c' l IH]; intros prev Hl; simpl in Hl;
    inversion Hl as [|? ? h ? ? Hp Hh Hr]; subst.
  - inversion Hr; subst. exists h. split_and!; [done|done|constructor].
  - destruct (IH _ Hr) as (h' & -> & Hh' & Hr'). exists h'. split_and!; [done|done|].
    by econstructor.
Qed.

(** Two chains with the same tail are the same list, or exhibit a collision. *)
Lemma chained_tail_determines l1 l2 tail :
  chained None l1 tail → chained None l2 tail →
  l1 = l2 ∨ ∃ c1 c2, c1 ∈ l1 ∧ c2 ∈ l2 ∧ c1 ≠ c2 ∧
    sha256_json (CertificatePayload c1) = sha256_json (CertificatePayload c2).
Proof.
  revert l2 tail. induction l1 as [|c1 l1 IH] using rev_ind; intros l2 tail H1 H2;
    destruct l2 as [|c2 l2 _] using rev_ind.
  - by left.
  - apply chained_snoc_inv in H2 as (h & -> & _). inversion H1.
  - apply chained_snoc_inv in H1 as (h & -> & _). inversion H2.
  - apply chained_snoc_inv in H1 as (h1 & -> & Hh1 & Hr1).
    apply chained_snoc_inv in H2 as (h2 & [= ->] & Hh2 & Hr2).
    destruct (decide (pc_prev_cert_hash c1 = pc_prev_cert_hash c2)) as [Heq|Hne].
    + rewrite Heq in Hr1. destruct (IH l2 _ Hr1 Hr2) as [->|(d1 & d2 & Hd1 & Hd2 & Hd)].
      * destruct (decide (c1 = c2)) as [->|Hc]; [by left|right].
        exists c1, c2. split_and!; [set_solver..|done|congruence].
      * right. exists d1, d2. split_and!; [set_solver..| |]; apply Hd.
    + right. exists c1, c2. split_and!; [set_solver..| |congruence]. congruence.
Qed.

(* ------------------------------------------------------------------ *)
(** ** Properties *)

(** The ledger is tamper evident: two ledgers that pass validation with the
    same head hash record the same certificates in the same order, unless they
    exhibit two different certificates with the same hash. *)
Theorem protocol_ledger_tamper_evident l1 l2 :
  validate_ledger l1 false = Ok () → validate_ledger l2 false = Ok () →
  l_head_hash l1 = l_head_hash l2 →
  l_certificates l1 = l_certificates l2 ∨
  ∃ c1 c2, c1 ∈ l_certificates l1 ∧ c2 ∈ l_certificates l2 ∧ c1 ≠ c2 ∧
    sha256_json (CertificatePayload c1) = sha256_json (CertificatePayload c2).
Proof.
  intros [H1 _]%validate_ledger_strict [H2 _]%validate_ledger_strict Heq.
  rewrite Heq in H1. by eapply chained_tail_determines.
Qed.

End with_hash.
