(* ===== verification/Spectral.v ===== *)
(** * Spectral bounds of a graph (src/protocol/transitions.rs: spectral_gap to
      randomized_interval)

    The Laplacian of the undirected multigraph under a governance graph, its
    eigenvalues by the cyclic Jacobi iteration in binary64 arithmetic, the
    bounds computed from them, and the monitoring interval.  A matrix is the
    list of its rows; [shaped] says that every index the code uses is in range. *)

From S2P Require Import Prelude F64 Errors Core GraphNode RustEq ProtocolData Synthetic Mechanism ProtocolState.
From stdpp Require Import options.

Abbreviation Matrix := (list (list f64)).

(** [matrix[i][j]] and [matrix[i][j] = v], for indices in range. *)
Definition mget (m : Matrix) (i j : nat) : f64 := default f64_zero (m !! i ≫= λ row, row !! j).
Definition mset (i j : nat) (v : f64) (m : Matrix) : Matrix := alter (λ row, <[j := v]> row) i m.

(** [vec![vec![0.0; n]; n]] *)
Definition zeros (n : nat) : Matrix := replicate n (replicate n f64_zero).

Definition node_index (node_ids : list NodeId) (id : NodeId) : option nat :=
  fst <$> list_find (λ x, x = id) node_ids.

(** [adjacency[i][j] += 1.0] *)
Definition bump (i j : nat) (m : Matrix) : Matrix := mset i j (f64_add (mget m i j) f64_one) m.

Definition add_adjacency (node_ids : list NodeId) (adjacency : Matrix) (edge : GovernanceEdge)
    : Matrix :=
  match node_index node_ids (from edge), node_index node_ids (to edge) with
  | Some f, Some t => bump t f (bump f t adjacency)
  | _, _ => adjacency
  end.

(** One row of the Laplacian: the degree on the diagonal, the negated
    adjacency elsewhere. *)
Definition laplacian_row (adjacency : Matrix) (row : nat) : list f64 :=
  let entries := default [] (adjacency !! row) in
  let degree := f64_sum entries in
  imap (λ col a, if decide (row = col) then degree else f64_neg a) entries.

Definition laplacian_matrix (graph : GovernanceGraph) : Matrix * nat :=
  let node_ids := btree_keys (nodes graph) in
  let node_count := length node_ids in
  let adjacency := foldl (add_adjacency node_ids) (zeros node_count) (edges graph) in
  (laplacian_row adjacency <$> seq 0 node_count, node_count).

(** *** Jacobi iteration *)

Definition pivot_step (best : f64 * option (nat * nat)) (entry : nat * nat * f64)
    : f64 * option (nat * nat) :=
  let '(row, col, value) := entry in
  let candidate := f64_abs value in
  if f64_ltb best.1 candidate then (candidate, Some (row, col)) else best.

(** The entries above the diagonal, row by row. *)
Definition upper_entries (matrix : Matrix) : list (nat * nat * f64) :=
  mjoin (imap (λ row values,
    filter (λ entry, row < entry.1.2) (imap (λ col value, (row, col, value)) values)) matrix).

Definition find_pivot (matrix : Matrix) : f64 * option (nat * nat) :=
  foldl pivot_step (f64_zero, None) (upper_entries matrix).

Definition f64_two : f64 := Eval vm_compute in f64_of_Z 2.

(** The rotation that annihilates entry [(p, q)]: its cosine and sine. *)
Definition rotation (matrix : Matrix) (p q : nat) : f64 * f64 :=
  let theta := f64_div (f64_sub (mget matrix q q) (mget matrix p p))
                 (f64_mul f64_two (mget matrix p q)) in
  let root := f64_sqrt (f64_add f64_one (f64_mul theta theta)) in
  let t := if f64_leb f64_zero theta then f64_div f64_one (f64_add theta root)
           else f64_div (f64_neg f64_one) (f64_add (f64_neg theta) root) in
  let c := f64_div f64_one (f64_sqrt (f64_add f64_one (f64_mul t t))) in
  (c, f64_mul t c).

Definition rotate_index (p q : nat) (c s : f64) (matrix : Matrix) (index : nat) : Matrix :=
  if decide (index = p ∨ index = q) then matrix
  else
    let aip := mget matrix index p in
    let aiq := mget matrix index q in
    let matrix := mset index p (f64_sub (f64_mul c aip) (f64_mul s aiq)) matrix in
    let matrix := mset p index (mget matrix index p) matrix in
    let matrix := mset index q (f64_add (f64_mul c aiq) (f64_mul s aip)) matrix in
    mset q index (mget matrix index q) matrix.

Definition rotate (matrix : Matrix) (p q : nat) : Matrix :=
  let '(c, s) := rotation matrix p q in
  let matrix := foldl (rotate_index p q c s) matrix (seq 0 (length matrix)) in
  let app := mget matrix p p in
  let aqq := mget matrix q q in
  let apq := mget matrix p q in
  let cross := f64_mul (f64_mul (f64_mul f64_two s) c) apq in
  let cc := f64_mul c c in
  let ss := f64_mul s s in
  mset q p f64_zero (mset p q f64_zero
    (mset q q (f64_add (f64_add (f64_mul ss app) cross) (f64_mul cc aqq))
      (mset p p (f64_add (f64_sub (f64_mul cc app) cross) (f64_mul ss aqq)) matrix))).

Definition jacobi_tolerance : f64 := Eval vm_compute in f64_lit 1 1000000000000.

(** The [for] loop with its two [break]s. *)
Fixpoint jacobi_loop (iterations : nat) (matrix : Matrix) : Matrix :=
  match iterations with
  | O => matrix
  | S iterations =>
      match find_pivot matrix with
      | (_, None) => matrix
      | (max_value, Some (p, q)) =>
          if f64_leb max_value jacobi_tolerance then matrix
          else jacobi_loop iterations (rotate matrix p q)
      end
  end.

Definition jacobi_eigenvalues (matrix : Matrix) : list f64 :=
  let n := length matrix in
  match n with
  | O => []
  | _ =>
      let matrix := jacobi_loop (Nat.max (n * n * 16) 16) matrix in
      (λ index, mget matrix index index) <$> seq 0 n
  end.

Definition spectral_gap (graph : GovernanceGraph) : f64 :=
  let '(laplacian, node_count) := laplacian_matrix graph in
  if bool_decide (node_count < 2) then f64_zero
  else
    let eigenvalues := f64_sort (jacobi_eigenvalues laplacian) in
    default f64_zero (snd <$> list_find (λ value, f64_ltb EPSILON value = true) eigenvalues).

(** *** Bounds *)

Definition signal_range (claims : list GovernanceClaim) : f64 :=
  let min_strength := foldl (λ m claim, f64_min m (gc_strength claim)) f64_infinity claims in
  let max_strength := foldl (λ m claim, f64_max m (gc_strength claim)) f64_neg_infinity claims in
  if negb (f64_is_finite min_strength) || negb (f64_is_finite max_strength) then f64_zero
  else f64_sub max_strength min_strength.

Definition max_degree (graph : GovernanceGraph) : f64 :=
  let '(laplacian, _) := laplacian_matrix graph in
  foldl f64_max f64_zero
    (imap (λ index row, default f64_zero ((row : list f64) !! index)) laplacian).

Definition consistency_vulnerability_bound (graph : GovernanceGraph)
    (claims : list GovernanceClaim) : f64 :=
  let signal_range := signal_range claims in
  let max_degree := max_degree graph in
  let spectral_gap := spectral_gap graph in
  if f64_ltb EPSILON spectral_gap then f64_div (f64_mul signal_range max_degree) spectral_gap
  else signal_range.

Definition localizability_bound (graph : GovernanceGraph) (claims : list GovernanceClaim) : f64 :=
  let cv_bound := consistency_vulnerability_bound graph claims in
  if f64_leb cv_bound EPSILON then f64_one
  else f64_clamp (f64_div (f64_lit 1 2) cv_bound) f64_zero f64_one.

(** *** The monitoring interval *)

Definition randomized_interval (config : MonitorConfig) (spectral_gap exposure : f64) : Z :=
  let '(min_interval, max_interval) := interval_bounds config in
  if bool_decide (min_interval = max_interval) then min_interval
  else
    let normalized := f64_to_bits (f64_add (f64_add spectral_gap exposure) (f64_of_Z (seed config))) in
    (min_interval + normalized mod (max_interval - min_interval + 1))%Z.

(* ------------------------------------------------------------------ *)
(** ** Shapes: every index is in range *)

Definition shaped (n : nat) (m : Matrix) : Prop := length m = n ∧ Forall (λ row, length row = n) m.

Lemma shaped_mset n i j v m : shaped n m → shaped n (mset i j v m).
Proof.
  intros [Hl Hr]. split; [unfold mset; by rewrite length_alter|].
  apply Forall_alter; [done|]. intros row _ Hrow. by rewrite length_insert.
Qed.

Lemma shaped_zeros n : shaped n (zeros n).
Proof. split; [apply length_replicate|]. apply Forall_replicate, length_replicate. Qed.

Lemma shaped_get n m i j : shaped n m → i < n → j < n → m !! i ≫= (λ row, row !! j) = Some (mget m i j).
Proof.
  intros [Hl Hr] Hi Hj. unfold mget.
  destruct (lookup_lt_is_Some_2 m i ltac:(lia)) as [row Hrow]. rewrite Hrow. simpl.
  rewrite Forall_lookup in Hr. specialize (Hr i row Hrow).
  destruct (lookup_lt_is_Some_2 row j ltac:(lia)) as [x Hx]. by rewrite Hx.
Qed.

#[export] Hint Resolve shaped_mset shaped_zeros : legit.

Lemma shaped_foldl {A} n (f : Matrix → A → Matrix) m l :
  (∀ m x, shaped n m → shaped n (f m x)) → shaped n m → shaped n (foldl f m l).
Proof. intros Hf. revert m. induction l as [|x l IH]; intros m Hm; simpl; auto. Qed.

Lemma shaped_laplacian g :
  shaped (length (btree_keys (nodes g))) (laplacian_matrix g).1.
Proof.
  unfold laplacian_matrix. cbn [fst]. set (n := length (btree_keys (nodes g))).
  set (adj := foldl _ _ _).
  assert (shaped n adj) as [Hl Hr].
  { apply shaped_foldl; [|apply shaped_zeros]. intros m e Hm. unfold add_adjacency, bump.
    destruct (node_index (btree_keys (nodes g)) (from e)), (node_index (btree_keys (nodes g)) (to e));
      auto with legit. }
  split; [by rewrite length_fmap, length_seq|].
  rewrite Forall_fmap, Forall_forall. intros i Hi%elem_of_seq. simpl. unfold laplacian_row.
  rewrite length_imap. destruct (lookup_lt_is_Some_2 adj i ltac:(lia)) as [row Hrow].
  rewrite Hrow. rewrite Forall_lookup in Hr. by apply (Hr i).
Qed.

Lemma shaped_rotate n m p q : shaped n m → shaped n (rotate m p q).
Proof.
  intros Hm. unfold rotate. destruct (rotation m p q) as [c s].
  do 4 apply shaped_mset. apply shaped_foldl; [|done]. intros m' i Hm'.
  unfold rotate_index. destruct (decide _); auto 10 with legit.
Qed.

Lemma shaped_jacobi n k m : shaped n m → shaped n (jacobi_loop k m).
Proof.
  revert m. induction k as [|k IH]; intros m Hm; cbn [jacobi_loop]; [done|].
  destruct (find_pivot m) as [v [[p q]|]]; [|done].
  destruct (f64_leb v _); [done|]. by apply IH, shaped_rotate.
Qed.

(** The pivot is a position above the diagonal. *)
Lemma find_pivot_in_range n m v p q :
  shaped n m → find_pivot m = (v, Some (p, q)) → p < q ∧ q < n.
Proof.
  intros [Hl Hr] Hf.
  assert (∀ l acc, (∀ p q, acc.2 = Some (p, q) → p < q ∧ q < n) →
            (∀ p q x, (p, q, x) ∈ l → p < q ∧ q < n) →
            ∀ p q, (foldl pivot_step acc l).2 = Some (p, q) → p < q ∧ q < n) as Hgo.
  { intros l. induction l as [|[[i j] x] l IH]; intros acc Hacc Hin; [done|].
    cbn [foldl]. apply IH; [|intros; apply (Hin _ _ x0); by right].
    unfold pivot_step. destruct (f64_ltb _ _); [|done].
    intros ? ? [= <- <-]. apply (Hin i j x). left. }
  apply (Hgo (upper_entries m) (f64_zero, None)); [done| |by unfold find_pivot in Hf; rewrite Hf].
  intros i j x Hin. unfold upper_entries in Hin.
  apply list_elem_of_join in Hin as (l & Hin & Hl').
  apply elem_of_lookup_imap in Hl' as (i' & row & -> & Hrow).
  apply list_elem_of_filter in Hin as [Hlt Hin].
  apply elem_of_lookup_imap in Hin as (j' & y & [= -> -> ->] & Hj). simpl in Hlt.
  rewrite Forall_lookup in Hr. specialize (Hr i' row Hrow).
  apply lookup_lt_Some in Hj. lia.
Qed.

Lemma length_jacobi_eigenvalues m : length (jacobi_eigenvalues m) = length m.
Proof.
  unfold jacobi_eigenvalues. destruct (length m) eqn:Hn; [done|].
  by rewrite length_fmap, length_seq.
Qed.

(* ------------------------------------------------------------------ *)
(** ** The results are in range *)

Lemma f64_zero_not_neg : f64_ltb f64_zero f64_zero = false.
Proof. done. Qed.

(** The gap is zero or above the noise threshold: never negative, never a NaN. *)
Lemma spectral_gap_cases g :
  spectral_gap g = f64_zero ∨ f64_ltb EPSILON (spectral_gap g) = true.
Proof.
  unfold spectral_gap. destruct (laplacian_matrix g) as [m n]. destruct (bool_decide _); [by left|].
  destruct (list_find _ _) as [[i x]|] eqn:Hf; [right|by left].
  by apply list_find_Some in Hf as (_ & Hx & _).
Qed.

Lemma clamp_unit x : f64_is_nan x = false →
  f64_leb f64_zero (f64_clamp x f64_zero f64_one) = true ∧
  f64_leb (f64_clamp x f64_zero f64_one) f64_one = true.
Proof.
  intros Hx. unfold f64_clamp.
  destruct (f64_ltb x f64_zero) eqn:H0; [done|].
  destruct (f64_ltb f64_one x) eqn:H1; [done|]. split.
  - destruct (f64_leb f64_zero x) eqn:Hle; [done|].
    apply f64_not_leb_ltb in Hle; [congruence|done|done].
  - destruct (f64_leb x f64_one) eqn:Hle; [done|].
    apply f64_not_leb_ltb in Hle; [congruence|done|done].
Qed.

(** The configuration of a monitor: two [u64] values. *)
Definition u64_config (config : MonitorConfig) : Prop :=
  (0 ≤ min_interval_seconds config < 2 ^ 64 ∧ 0 ≤ max_interval_seconds config < 2 ^ 64)%Z.

Lemma randomized_interval_range config gap exposure lo hi :
  interval_bounds config = (lo, hi) → (lo ≤ randomized_interval config gap exposure ≤ hi)%Z.
Proof.
  intros Hb. assert (1 ≤ lo ≤ hi)%Z as Hlh by (unfold interval_bounds in Hb; injection Hb; lia).
  unfold randomized_interval. rewrite Hb. destruct (bool_decide _); [lia|].
  pose proof (Z.mod_pos_bound
    (f64_to_bits (f64_add (f64_add gap exposure) (f64_of_Z (seed config)))) (hi - lo + 1) ltac:(lia)).
  lia.
Qed.

(* ------------------------------------------------------------------ *)
(** ** Properties *)

(** The monitoring interval always lies within the configured bounds,
    whatever the floats it is derived from, and neither the modulus nor the sum
    leaves the range of [u64]. *)
Theorem randomized_interval_in_bounds config gap exposure :
  u64_config config →
  let '(lo, hi) := interval_bounds config in
  (1 ≤ lo ≤ randomized_interval config gap exposure ≤ hi ∧ hi < 2 ^ 64 ∧
   (lo ≠ hi → 0 < hi - lo + 1 < 2 ^ 64))%Z.
Proof.
  intros [H1 H2]. destruct (interval_bounds config) as [lo hi] eqn:Hb.
  pose proof (randomized_interval_range config gap exposure lo hi Hb) as Hr.
  unfold interval_bounds in Hb. injection Hb as <- <-. lia.
Qed.
