(* ===== verification/ExactSpectral.v ===== *)
(** * Exact spectral diagnostics of a graph (src/spectral/{mod,critical,coarse_grain}.rs)

    The weighted undirected graph under a governance graph, the sensitivity of
    its governance map to the removal of a node, and the trajectory of coarse
    grainings that merges nodes step by step.  The rationals are those of the
    crate num-rational over 64-bit integers, the parameter [RationalOps].  Their
    arithmetic panics on overflow and on a zero denominator: an operation may
    have no result, and neither has a definition that uses it ([None] is the
    panic; wrapping builds are not modelled).  What the theorems need of them is
    that their comparison is a total order, [RationalOrder]. *)

From stdpp Require Import gmap strings.
From S2P Require Import Prelude F64 F64Bits Errors Core GraphNode Tarjan Spectral.
From stdpp Require Import options.

(** num_rational::Ratio<i64>; [None] is a panic, but for [approximate_float],
    whose [None] is its own. *)
Class RationalOps := {
  Rational : Type;
  rat_new : Z → Z → option Rational;
  rat_of_int : Z → Rational;
  rat_numer : Rational → Z;
  rat_denom : Rational → Z;
  rat_add : Rational → Rational → option Rational;
  rat_sub : Rational → Rational → option Rational;
  rat_mul : Rational → Rational → option Rational;
  rat_div : Rational → Rational → option Rational;
  rat_neg : Rational → option Rational;
  rat_eqb : Rational → Rational → bool;
  rat_ltb : Rational → Rational → bool;
  rat_approximate_float : f64 → option Rational;
}.

Class RationalOrder (ops : RationalOps) := {
  rat_lt_irrefl : ∀ a, rat_ltb a a = false;
  rat_lt_trans : ∀ a b c, rat_ltb a b = true → rat_ltb b c = true → rat_ltb a c = true;
  rat_ge_trans : ∀ a b c, rat_ltb b a = false → rat_ltb c b = false → rat_ltb c a = false;
  rat_eq_lt : ∀ a b, rat_eqb a b = true ↔ rat_ltb a b = false ∧ rat_ltb b a = false;
}.

(** [Result::unwrap] *)
Definition unwrap {E A} (r : Result E A) : option A := match r with Ok a => Some a | Err _ => None end.

(** A loop whose body may panic, and [Iterator::any] of such a test, which stops
    at the first success. *)
Fixpoint panic_fold {A B} (f : B → A → option B) (b : B) (l : list A) : option B :=
  match l with [] => Some b | x :: l => b ← f b x; panic_fold f b l end.

Fixpoint panic_any {A} (f : A → option bool) (l : list A) : option bool :=
  match l with [] => Some false | x :: l => b ← f x; if b : bool then Some true else panic_any f l end.

(** [f64::round] and [as i64]: half away from zero, then saturating. *)
Definition f64_round_i64 (x : f64) : Z :=
  match x with
  | SpecFloat.S754_finite s m e =>
      let magnitude := if (0 <=? e)%Z then (Z.pos m * 2 ^ e)%Z
                       else ((Z.pos m + 2 ^ (- e - 1)) / 2 ^ (- e))%Z in
      if s : bool then Z.max (- 2 ^ 63) (- magnitude) else Z.min (2 ^ 63 - 1) magnitude
  | SpecFloat.S754_infinity s => if s : bool then (- 2 ^ 63)%Z else (2 ^ 63 - 1)%Z
  | SpecFloat.S754_zero _ | SpecFloat.S754_nan => 0%Z
  end.

Definition is_sign_negative (x : f64) : bool :=
  match x with
  | SpecFloat.S754_finite s _ _ | SpecFloat.S754_infinity s | SpecFloat.S754_zero s => s
  | SpecFloat.S754_nan => false
  end.

Definition RATIONAL_TOLERANCE : f64 := Eval vm_compute in f64_lit 1 1000000000000.
Definition EIGENVALUE_TOLERANCE : f64 := Eval vm_compute in f64_lit 1 10000000000.
Definition SPECTRAL_WELL_CONNECTED_THRESHOLD : f64 := Eval vm_compute in f64_lit 17 20.
Definition WELL_CONNECTED_SLACK : f64 := Eval vm_compute in f64_lit 1 1000000000.

(* ------------------------------------------------------------------ *)
(** ** Components

    The three component counts of the sources, here and in extract/spectral.rs,
    are the same search over different tests that two indices are linked. *)

Section components.
Context (n : nat) (linked : nat → nat → bool).

Definition visit_neighbor (node : nat) (st : gset nat * list nat) (neighbor : nat) : gset nat * list nat :=
  let '(visited, stack) := st in
  if negb (bool_decide (neighbor = node)) && linked node neighbor && negb (bool_decide (neighbor ∈ visited))
  then ({[neighbor]} ∪ visited, neighbor :: stack) else st.

(** [while let Some(node) = stack.pop()]; the head of [stack] is its top. *)
Fixpoint explore (fuel : nat) (visited : gset nat) (stack : list nat) : option (gset nat) :=
  match stack with
  | [] => Some visited
  | node :: stack =>
      match fuel with
      | O => None
      | S fuel =>
          let '(visited, stack) := foldl (visit_neighbor node) (visited, stack) (seq 0 n) in
          explore fuel visited stack
      end
  end.

Definition count_start (st : option (gset nat * nat)) (start : nat) : option (gset nat * nat) :=
  '(visited, count) ← st;
  if decide (start ∈ visited) then Some (visited, count)
  else visited ← explore n ({[start]} ∪ visited) [start]; Some (visited, S count).

Definition component_count : option nat := snd <$> foldl count_start (Some (∅, 0)) (seq 0 n).
End components.

Section exact.
Context `{RationalOps}.

Definition rat_zero : Rational := rat_of_int 0.
Definition rat_leb (a b : Rational) : bool := negb (rat_ltb b a).

(** [Iterator::sum], [max] (the last of the greatest), [min] (the first of the
    least). *)
Definition rat_sum (l : list Rational) : option Rational := panic_fold rat_add rat_zero l.
Definition rat_max (l : list Rational) : option Rational :=
  foldl (λ best y, Some (match best with Some x => if rat_ltb y x then x else y | None => y end)) None l.
Definition rat_min (l : list Rational) : option Rational :=
  foldl (λ best y, Some (match best with Some x => if rat_ltb y x then y else x | None => y end)) None l.

Definition ratio_to_f64 (value : Rational) : f64 := f64_div (f64_of_Z (rat_numer value)) (f64_of_Z (rat_denom value)).

Definition abs_ratio (value : Rational) : option Rational :=
  if rat_ltb value rat_zero then rat_neg value else Some value.

Definition safe_div (numerator denominator : Rational) : option Rational :=
  if rat_eqb denominator rat_zero then Some rat_zero else rat_div numerator denominator.

(** [for denominator in 1..=max_denominator]; [remaining] denominators are left. *)
Fixpoint find_denominator (remaining : nat) (denominator : Z) (value : f64) : option (Z * Z) :=
  match remaining with
  | O => None
  | S remaining =>
      let scaled := f64_mul value (f64_of_Z denominator) in
      let numerator := f64_round_i64 scaled in
      if f64_leb (f64_abs (f64_sub scaled (f64_of_Z numerator))) RATIONAL_TOLERANCE
      then Some (numerator, denominator) else find_denominator remaining (denominator + 1) value
  end.

Definition rational_from_f64 (value : f64) : option Rational :=
  if negb (f64_is_finite value) then Some rat_zero
  else if f64_eqb value f64_zero then Some rat_zero
  else
    let sign := if is_sign_negative value then (-1)%Z else 1%Z in
    let value := f64_abs value in
    match find_denominator (Z.to_nat 1000000) 1 value with
    | Some (numerator, denominator) => rat_new (sign * numerator) denominator
    | None => Some (default rat_zero (rat_approximate_float (f64_mul (f64_of_Z sign) value)))
    end.

Definition exact_edge_weight (transform : EdgeTransform) : option Rational :=
  match transform with
  | PassThrough => Some (rat_of_int 1)
  | ClaimModification delta => rational_from_f64 (f64_abs delta)
  end.

(* ------------------------------------------------------------------ *)
(** ** The weighted graph *)

Definition Weights := list (list Rational).

Record WeightedGovernanceGraph := mkWeighted { wg_node_ids : list NodeId; wg_weights : Weights }.

Definition wget (w : Weights) (i j : nat) : Rational := default rat_zero (w !! i ≫= λ row, row !! j).

(** [weights[i][j] += weight] *)
Definition add_weight (i j : nat) (weight : Rational) (w : Weights) : option Weights :=
  sum ← rat_add (wget w i j) weight;
  Some (alter (λ row, <[j := sum]> row) i w).

Definition add_exact_edge (node_ids : list NodeId) (weights : Weights) (edge : GovernanceEdge) : option Weights :=
  match node_index node_ids (from edge), node_index node_ids (to edge) with
  | Some l, Some r =>
      weight ← exact_edge_weight (transform edge);
      weights ← add_weight l r weight weights;
      add_weight r l weight weights
  | _, _ => Some weights
  end.

Definition from_graph (graph : GovernanceGraph) : option WeightedGovernanceGraph :=
  let node_ids := btree_keys (nodes graph) in
  let n := length node_ids in
  weights ← panic_fold (add_exact_edge node_ids) (replicate n (replicate n rat_zero)) (edges graph);
  Some (mkWeighted node_ids weights).

Definition node_count (self : WeightedGovernanceGraph) : nat := length (wg_node_ids self).

Definition wrow (self : WeightedGovernanceGraph) (node : nat) : list Rational := default [] (wg_weights self !! node).

Definition degree (self : WeightedGovernanceGraph) (node : nat) : option Rational := rat_sum (wrow self node).

Definition exact_max_degree (self : WeightedGovernanceGraph) : option Rational :=
  degrees ← mapM (degree self) (seq 0 (node_count self));
  Some (default rat_zero (rat_max degrees)).

(** The entries of a row but the one of [removed]. *)
Definition without (removed : nat) (row : list Rational) : list Rational :=
  snd <$> filter (λ entry, entry.1 ≠ removed) (enumerate row).

Definition degree_removed (self : WeightedGovernanceGraph) (removed observer : nat) : option Rational :=
  rat_sum (without removed (wrow self observer)).

(** The pairs (removed, observer), in the order of the two nested ranges. *)
Definition node_pairs (self : WeightedGovernanceGraph) : list (nat * nat) :=
  removed ← seq 0 (node_count self); (λ observer, (removed, observer)) <$> seq 0 (node_count self).

Definition min_removed_weight (self : WeightedGovernanceGraph) : option Rational :=
  if bool_decide (node_count self = 0) then Some rat_zero
  else
    degrees ← mapM (λ p, degree_removed self p.1 p.2) (node_pairs self);
    Some (default rat_zero (rat_min degrees)).

(** [weight * value] for the pairs of a row and the signal. *)
Definition weighted_signal (row signal : list Rational) : option (list Rational) :=
  mapM (λ p, rat_mul p.1 p.2) (zip row signal).

Definition governance (self : WeightedGovernanceGraph) (signal : list Rational) (observer : nat) : option Rational :=
  products ← weighted_signal (wrow self observer) signal;
  sum ← rat_sum products;
  degree ← degree self observer;
  safe_div sum degree.

(** The filter comes before the product: the product with the removed node is not computed. *)
Definition governance_removed (self : WeightedGovernanceGraph) (signal : list Rational) (removed observer : nat)
    : option Rational :=
  products ← mapM (λ p, rat_mul p.1 p.2)
               (snd <$> filter (λ entry, entry.1 ≠ removed) (enumerate (zip (wrow self observer) signal)));
  sum ← rat_sum products;
  degree ← degree_removed self removed observer;
  safe_div sum degree.

Definition perturbation (self : WeightedGovernanceGraph) (signal : list Rational) (removed observer : nat)
    : option Rational :=
  whole ← governance self signal observer;
  reduced ← governance_removed self signal removed observer;
  difference ← rat_sub whole reduced;
  abs_ratio difference.

Definition weighted_cv (self : WeightedGovernanceGraph) (signal : list Rational) : option Rational :=
  if bool_decide (node_count self = 0) then Some rat_zero
  else
    perturbations ← mapM (λ p, perturbation self signal p.1 p.2) (node_pairs self);
    Some (default rat_zero (rat_max perturbations)).

Definition cv (graph : GovernanceGraph) (signal : list Rational) : option Rational :=
  weighted ← from_graph graph; weighted_cv weighted signal.

Definition exact_weights (graph : GovernanceGraph) : option Weights :=
  weighted ← from_graph graph; Some (wg_weights weighted).

Definition exact_signal_range (signal : list Rational) : option Rational :=
  differences ← mapM (λ p, difference ← rat_sub p.1 p.2; abs_ratio difference)
                  (x ← signal; (λ y, (x, y)) <$> signal);
  Some (default rat_zero (rat_max differences)).

Definition exact_capacity (graph : GovernanceGraph) (signal : list Rational) (epsilon : Rational) : option bool :=
  weighted ← from_graph graph;
  range ← exact_signal_range signal;
  max_degree ← exact_max_degree weighted;
  needed ← rat_mul range max_degree;
  min_removed ← min_removed_weight weighted;
  available ← rat_mul epsilon min_removed;
  Some (rat_leb needed available).

Definition capacity_bound (graph : GovernanceGraph) (signal : list Rational) : option Rational :=
  weighted ← from_graph graph;
  range ← exact_signal_range signal;
  max_degree ← exact_max_degree weighted;
  needed ← rat_mul range max_degree;
  min_removed ← min_removed_weight weighted;
  safe_div needed min_removed.

(* ------------------------------------------------------------------ *)
(** ** Gaps of the two Laplacians *)

Definition row_degree (row : list Rational) : f64 := f64_sum (ratio_to_f64 <$> row).

Definition exact_laplacian (weights : Weights) : Matrix :=
  imap (λ row values, imap (λ col value, if decide (row = col) then row_degree values
                                         else f64_neg (ratio_to_f64 value)) values) weights.

Definition normalized_entry (degrees : list f64) (row col : nat) (value : Rational) : f64 :=
  let degree_row := default f64_zero (degrees !! row) in
  let degree_col := default f64_zero (degrees !! col) in
  if f64_leb degree_row EIGENVALUE_TOLERANCE then f64_zero
  else if decide (row = col) then f64_one
  else if f64_leb degree_col EIGENVALUE_TOLERANCE then f64_zero
  else f64_div (f64_neg (ratio_to_f64 value)) (f64_mul (f64_sqrt degree_row) (f64_sqrt degree_col)).

Definition normalized_laplacian_matrix (weights : Weights) : Matrix :=
  let degrees := row_degree <$> weights in
  imap (λ row values, imap (normalized_entry degrees row) values) weights.

Definition clamp_eigenvalue (value : f64) : f64 :=
  if f64_leb (f64_abs value) EIGENVALUE_TOLERANCE then f64_zero else f64_max value f64_zero.

Definition second_smallest_eigenvalue (matrix : Matrix) : f64 :=
  if bool_decide (length matrix < 2) then f64_zero
  else default f64_zero (f64_sort (clamp_eigenvalue <$> jacobi_eigenvalues matrix) !! 1).

Definition exact_spectral_gap (weights : Weights) : f64 := second_smallest_eigenvalue (exact_laplacian weights).

Definition normalized_spectral_gap (weights : Weights) : f64 :=
  second_smallest_eigenvalue (normalized_laplacian_matrix weights).

Definition spectral_well_connected (graph : GovernanceGraph) (signal : list Rational) : option bool :=
  weighted ← from_graph graph;
  let lambda_2 := exact_spectral_gap (wg_weights weighted) in
  cv ← weighted_cv weighted signal;
  let s_delta := f64_mul lambda_2 (ratio_to_f64 cv) in
  Some (f64_leb SPECTRAL_WELL_CONNECTED_THRESHOLD (f64_add s_delta WELL_CONNECTED_SLACK)).

Definition exact_component_count (weights : Weights) : option nat :=
  component_count (length weights) (λ i j, rat_ltb rat_zero (wget weights i j)).
End exact.

(* ------------------------------------------------------------------ *)
(** ** Partitions of the nodes *)

Record Partition := mkPartition { blocks : list (list NodeId) }.

Definition sort_indices (l : list nat) : list nat := merge_sort Nat.le l.

Definition block_head (block : list nat) : nat := default 0 (head block).

Definition head_le (a b : list nat) : Prop := block_head a ≤ block_head b.
Global Instance head_le_dec : RelDecision head_le.
Proof. intros a b. unfold head_le. apply _. Defined.

(** [filter_map] to indices, [filter] of those seen before. *)
Definition take_index (st : gset nat * list nat) (index : nat) : gset nat * list nat :=
  if decide (index ∈ st.1) then st else ({[index]} ∪ st.1, st.2 ++ [index]).

Definition normalize_block (node_ids : list NodeId) (st : gset nat * list (list nat)) (block : list NodeId)
    : gset nat * list (list nat) :=
  let '(seen, indices) := foldl take_index (st.1, []) (omap (node_index node_ids) block) in
  (seen, st.2 ++ [sort_indices indices]).

Definition nonempty_block (block : list nat) : Prop := block ≠ [].
Global Instance nonempty_block_dec block : stdpp.base.Decision (nonempty_block block).
Proof. unfold nonempty_block. apply _. Defined.

Definition normalize_partition (node_ids : list NodeId) (partition : Partition) : list (list nat) :=
  let '(seen, raw) := foldl (normalize_block node_ids) (∅, []) (blocks partition) in
  merge_sort head_le
    (filter nonempty_block raw
     ++ ((λ index, [index]) <$> filter (λ index, index ∉ seen) (seq 0 (length node_ids)))).

(** [binary_search(&node).is_ok()] in a sorted slice. *)
Definition contains (side : list nat) (node : nat) : bool := bool_decide (node ∈ side).

Definition complement (node_count : nat) (side : list nat) : list nat :=
  filter (λ node, contains side node = false) (seq 0 node_count).

(** The least node on which two sets differ belongs to the lesser one. *)
Fixpoint subset_lex_lt_from (nodes : list nat) (l r : list nat) : bool :=
  match nodes with
  | [] => false
  | node :: nodes =>
      if Bool.eqb (contains l node) (contains r node) then subset_lex_lt_from nodes l r else contains l node
  end.

Definition subset_lex_lt (node_count : nat) (l r : list nat) : bool := subset_lex_lt_from (seq 0 node_count) l r.

Definition block_le (node_count : nat) (l r : list nat) : Prop := l = r ∨ subset_lex_lt node_count l r = true.
Global Instance block_le_dec node_count : RelDecision (block_le node_count).
Proof. intros l r. unfold block_le. apply _. Defined.

Definition canonicalize_partition (node_count : nat) (partition : list (list nat)) : list (list nat) :=
  merge_sort (block_le node_count) (sort_indices <$> partition).

Definition canonical_merged_side (node_count : nat) (side : list nat) : list nat :=
  let other := complement node_count side in
  match Nat.compare (length side) (length other) with
  | Lt => side
  | Gt => other
  | Eq => if subset_lex_lt node_count side other then side else other
  end.

Definition merge_side_partition_indices (node_count : nat) (side : list nat) : list (list nat) :=
  canonicalize_partition node_count
    (side :: ((λ node, [node]) <$> filter (λ node, contains side node = false) (seq 0 node_count))).

Definition partition_from_indices (node_ids : list NodeId) (bs : list (list nat)) : Partition :=
  mkPartition (map (map (λ index, default "" (node_ids !! index))) bs).

Fixpoint first_block_difference (node_count : nat) (l r : list (list nat)) : option bool :=
  match l, r with
  | x :: l, y :: r => if decide (x = y) then first_block_difference node_count l r
                      else Some (subset_lex_lt node_count x y)
  | _, _ => None
  end.

Definition partition_lex_lt (node_count : nat) (l r : list (list nat)) : bool :=
  let l := canonicalize_partition node_count l in
  let r := canonicalize_partition node_count r in
  default (bool_decide (length l < length r)) (first_block_difference node_count l r).

(** [best_subset] and [best_partition]: the same loop on two types; the inner
    option is the result of the source, the outer one its panics. *)
Definition best_candidate {A} (candidates : list A) (better : A → A → option bool) : option (option A) :=
  match candidates with
  | [] => Some None
  | first :: rest =>
      best ← panic_fold (λ best candidate, b ← better candidate best; Some (if b : bool then candidate else best))
               first rest;
      Some (Some best)
  end.

Definition all_subsets (node_count : nat) : list (list nat) :=
  foldl (λ subsets node, subsets ++ ((λ subset, subset ++ [node]) <$> subsets)) [[]] (seq 0 node_count).

Definition nontrivial_subset (node_count : nat) (subset : list nat) : Prop :=
  subset ≠ [] ∧ length subset < node_count.
Global Instance nontrivial_subset_dec node_count subset : stdpp.base.Decision (nontrivial_subset node_count subset).
Proof. unfold nontrivial_subset. apply _. Defined.

Definition nontrivial_subsets (node_count : nat) : list (list nat) :=
  filter (nontrivial_subset node_count) (all_subsets node_count).

Definition insert_into_blocks (node : nat) (partition : list (list nat)) : list (list (list nat)) :=
  match partition with
  | [] => [[[node]]]
  | _ :: _ =>
      ((λ block_index, alter (λ block, sort_indices (block ++ [node])) block_index partition)
         <$> seq 0 (length partition)) ++ [partition ++ [[node]]]
  end.

Definition all_set_partitions (node_count : nat) : list (list (list nat)) :=
  foldl (λ partitions node, partition ← partitions; insert_into_blocks node partition) [[]] (seq 0 node_count).

Section coarse.
Context `{RationalOps}.

Definition rat_cmp (a b : Rational) : comparison :=
  if rat_ltb a b then Lt else if rat_ltb b a then Gt else Eq.

(** [left_block × right_block], in the order of the nested loops. *)
Definition block_pairs (l r : list nat) : list (nat * nat) := x ← l; (λ y, (x, y)) <$> r.

Definition block_weight (weighted : WeightedGovernanceGraph) (l r : list nat) : option Rational :=
  rat_sum ((λ p, wget (wg_weights weighted) p.1 p.2) <$> block_pairs l r).

Definition coarse_weight (weighted : WeightedGovernanceGraph) (l r : list nat) : option Rational :=
  rat_sum ((λ p, wget (wg_weights weighted) p.1 p.2) <$> block_pairs l r).

Definition edge_transform (weight : Rational) : EdgeTransform :=
  if rat_eqb weight (rat_of_int 1) then PassThrough else ClaimModification (ratio_to_f64 weight).

Definition coarse_node (original : NodeId) : GovernanceNode :=
  Binary original ("merged(" +:+ original +:+ ")") [] Escalate FirstMatch.

Definition head_id (node_ids : list NodeId) (block : list nat) : NodeId :=
  default "" (node_ids !! block_head block).

(** The edge between two blocks, when they are connected. *)
Definition add_coarse_edge (weighted : WeightedGovernanceGraph) (normalized : list (list nat))
    (builder : GraphBuilder) (p : nat * nat) : option GraphBuilder :=
  let l := default [] (normalized !! p.1) in
  let r := default [] (normalized !! p.2) in
  weight ← coarse_weight weighted l r;
  if rat_eqb weight rat_zero then Some builder
  else unwrap (add_edge builder (head_id (wg_node_ids weighted) l) (head_id (wg_node_ids weighted) r)
                 (edge_transform weight)).

(** The pairs [left < right] below [n]. *)
Definition ordered_pairs (n : nat) : list (nat * nat) :=
  l ← seq 0 n; (λ r, (l, r)) <$> seq (S l) (n - S l).

Definition coarse_grain `{RegexEngine} (graph : GovernanceGraph) (partition : Partition) : option GovernanceGraph :=
  weighted ← from_graph graph;
  let normalized := normalize_partition (wg_node_ids weighted) partition in
  builder ← unwrap GraphBuilder_new;
  builder ← unwrap (try_fold (λ builder block, add_node builder (coarse_node (head_id (wg_node_ids weighted) block)))
                      builder normalized);
  builder ← panic_fold (add_coarse_edge weighted normalized) builder (ordered_pairs (length normalized));
  unwrap (build builder).

(** [block.map(|index| signal[index]).sum()]; an index out of range panics. *)
Definition block_sum (signal : list Rational) (block : list nat) : option Rational :=
  values ← mapM (λ index, signal !! index) block; rat_sum values.

Definition coarse_signal (graph : GovernanceGraph) (signal : list Rational) (partition : Partition)
    : option (list Rational) :=
  weighted ← from_graph graph;
  mapM (block_sum signal) (normalize_partition (wg_node_ids weighted) partition).

(** *** Order of the blocks seen from a node *)

Definition block_order_direction (weighted : WeightedGovernanceGraph) (node : nat) (l r : list nat)
    : option comparison :=
  let node_block_weight block := rat_sum (wget (wg_weights weighted) node <$> block) in
  left_weight ← node_block_weight l;
  right_weight ← node_block_weight r;
  Some (rat_cmp left_weight right_weight).

Definition directions_conflict (l r : comparison) : bool :=
  match l, r with Lt, Gt | Gt, Lt => true | _, _ => false end.

Definition co_block_pair_splits_external_order (weighted : WeightedGovernanceGraph) (partition : list (list nat))
    (own_block left_node right_node : nat) : option bool :=
  panic_any (λ p,
    if bool_decide (p.1 = own_block) || bool_decide (p.2 = own_block) then Some false
    else
      let l := default [] (partition !! p.1) in
      let r := default [] (partition !! p.2) in
      left_direction ← block_order_direction weighted left_node l r;
      right_direction ← block_order_direction weighted right_node l r;
      Some (directions_conflict left_direction right_direction))
    (ordered_pairs (length partition)).

Definition preserves_solidarity (graph : GovernanceGraph) (partition : Partition) : option bool :=
  weighted ← from_graph graph;
  let normalized := normalize_partition (wg_node_ids weighted) partition in
  splits ← panic_any (λ entry : nat * list nat,
    panic_any (λ p, co_block_pair_splits_external_order weighted normalized entry.1
                      (default 0 (entry.2 !! p.1)) (default 0 (entry.2 !! p.2)))
      (ordered_pairs (length entry.2))) (enumerate normalized);
  Some (negb splits).

(** *** Choices of a partition *)

Definition heavier_pair (weights : Weights) (best : option (nat * nat) * Rational) (p : nat * nat)
    : option (nat * nat) * Rational :=
  let weight := wget weights p.1 p.2 in
  if bool_decide (best.1 = None) || rat_ltb best.2 weight then (Some p, weight) else best.

(** The outer option is a panic of the source, the inner one its result. *)
Definition greedy_max_weight_partition (graph : GovernanceGraph) : option (option Partition) :=
  weighted ← from_graph graph;
  Some (option_map (λ p, partition_from_indices (wg_node_ids weighted) [[p.1; p.2]])
    (foldl (heavier_pair (wg_weights weighted)) (None, rat_zero) (ordered_pairs (node_count weighted))).1).

Definition side_volume (weighted : WeightedGovernanceGraph) (side : list nat) : option Rational :=
  degrees ← mapM (degree weighted) side; rat_sum degrees.

Definition total_edge_mass (weighted : WeightedGovernanceGraph) : option Rational :=
  rat_sum (mjoin (wg_weights weighted)).

Definition conductance_score (weighted : WeightedGovernanceGraph) (side : list nat) : option Rational :=
  let other := complement (node_count weighted) side in
  volume ← side_volume weighted side;
  other_volume ← side_volume weighted other;
  weight ← block_weight weighted side other;
  safe_div weight (if rat_ltb other_volume volume then other_volume else volume).

(** [rational(2, 1) * mass] *)
Definition double_mass (mass : Rational) : option Rational := two ← rat_new 2 1; rat_mul two mass.

Definition modularity_term (weighted : WeightedGovernanceGraph) (side other : list nat) (mass : Rational)
    (p : nat * nat) : option Rational :=
  if (contains side p.1 && contains side p.2) || (contains other p.1 && contains other p.2)
  then
    left_degree ← degree weighted p.1;
    right_degree ← degree weighted p.2;
    product ← rat_mul left_degree right_degree;
    denominator ← double_mass mass;
    expected ← safe_div product denominator;
    rat_sub (wget (wg_weights weighted) p.1 p.2) expected
  else Some rat_zero.

Definition modularity_score (weighted : WeightedGovernanceGraph) (side : list nat) : option Rational :=
  let n := node_count weighted in
  let other := complement n side in
  mass ← total_edge_mass weighted;
  terms ← mapM (modularity_term weighted side other mass) (node_pairs weighted);
  inner ← rat_sum terms;
  denominator ← double_mass mass;
  safe_div inner denominator.

(** Better score first, then the lesser canonical side. *)
Definition better_side (n : nat) (score : list nat → option Rational) (score_lt : Rational → Rational → bool)
    (cand best : list nat) : option bool :=
  cand_score ← score cand;
  best_score ← score best;
  Some (score_lt cand_score best_score
        || (rat_eqb cand_score best_score
            && subset_lex_lt n (canonical_merged_side n cand) (canonical_merged_side n best))).

Definition side_partition (weighted : WeightedGovernanceGraph) (side : list nat) : Partition :=
  partition_from_indices (wg_node_ids weighted)
    (merge_side_partition_indices (node_count weighted) (canonical_merged_side (node_count weighted) side)).

Definition cheeger_min_conductance_partition (graph : GovernanceGraph) : option (option Partition) :=
  weighted ← from_graph graph;
  let n := node_count weighted in
  if bool_decide (n = 0) then Some None
  else
    best ← best_candidate (nontrivial_subsets n) (better_side n (conductance_score weighted) rat_ltb);
    Some (option_map (side_partition weighted) best).

Definition modularity_maximizing_partition (graph : GovernanceGraph) : option (option Partition) :=
  weighted ← from_graph graph;
  let n := node_count weighted in
  if bool_decide (n = 0) then Some None
  else
    best ← best_candidate (nontrivial_subsets n)
             (better_side n (modularity_score weighted) (λ cand best, rat_ltb best cand));
    Some (option_map (side_partition weighted) best).

Definition block_mean (signal : list Rational) (block : list nat) : option Rational :=
  sum ← block_sum signal block; safe_div sum (rat_of_int (Z.of_nat (length block))).

Definition squared_deviation (signal : list Rational) (mean : Rational) (index : nat) : option Rational :=
  value ← signal !! index;
  delta ← rat_sub value mean;
  rat_mul delta delta.

Definition block_variance (signal : list Rational) (block : list nat) : option Rational :=
  mean ← block_mean signal block;
  squares ← mapM (squared_deviation signal mean) block;
  numerator ← rat_sum squares;
  safe_div numerator (rat_of_int (Z.of_nat (length block))).

Definition signal_variance_score (signal : list Rational) (partition : list (list nat)) : option Rational :=
  variances ← mapM (block_variance signal) (canonicalize_partition (length signal) partition);
  rat_sum variances.

Definition better_partition (n : nat) (signal : list Rational) (cand best : list (list nat)) : option bool :=
  cand_score ← signal_variance_score signal cand;
  best_score ← signal_variance_score signal best;
  Some (rat_ltb cand_score best_score || (rat_eqb cand_score best_score && partition_lex_lt n cand best)).

Definition signal_preserving_partition (graph : GovernanceGraph) (signal : list Rational)
    : option (option Partition) :=
  weighted ← from_graph graph;
  let n := node_count weighted in
  if bool_decide (n = 0) then Some None
  else
    let block_count := (n + 1) / 2 in
    let candidates := filter (λ partition, length partition = block_count) (all_set_partitions n) in
    best ← best_candidate candidates (better_partition n signal);
    Some (option_map (λ partition, partition_from_indices (wg_node_ids weighted) (canonicalize_partition n partition)) best).

(* ------------------------------------------------------------------ *)
(** ** Critical values (src/spectral/critical.rs) *)

Definition sp_violation (graph : GovernanceGraph) (signal : list Rational) (tolerance : Rational) : option bool :=
  weighted ← from_graph graph;
  panic_any (λ p, moved ← perturbation weighted signal p.1 p.2; Some (rat_leb tolerance moved)) (node_pairs weighted).

Definition c_star (graph : GovernanceGraph) (signal : list Rational) (delta : Rational) : option Rational :=
  weighted ← from_graph graph;
  cv ← weighted_cv weighted signal;
  safe_div delta cv.

(** [for _ in 0..k] of [rg_trajectory_with]. *)
Fixpoint rg_steps `{RegexEngine} (k : nat)
    (partition_fn : GovernanceGraph → list Rational → option (option Partition))
    (graph : GovernanceGraph) (signal : list Rational) : option (GovernanceGraph * list Rational) :=
  match k with
  | O => Some (graph, signal)
  | S k =>
      choice ← partition_fn graph signal;
      match choice with
      | None => Some (graph, signal)
      | Some partition =>
          next_signal ← coarse_signal graph signal partition;
          next_graph ← coarse_grain graph partition;
          rg_steps k partition_fn next_graph next_signal
      end
  end.

Definition rg_trajectory_with `{RegexEngine} (graph : GovernanceGraph) (signal : list Rational) (delta : Rational)
    (k : nat) (partition_fn : GovernanceGraph → list Rational → option (option Partition))
    : option (Rational * Rational) :=
  '(current_graph, current_signal) ← rg_steps k partition_fn graph signal;
  weighted ← from_graph current_graph;
  cv ← weighted_cv weighted current_signal;
  critical ← safe_div delta cv;
  Some (cv, critical).

Definition rg_trajectory `{RegexEngine} (graph : GovernanceGraph) (signal : list Rational) (delta : Rational)
    (k : nat) : option (Rational * Rational) :=
  rg_trajectory_with graph signal delta k (λ current_graph _, greedy_max_weight_partition current_graph).

Definition rg_trajectory_cheeger `{RegexEngine} (graph : GovernanceGraph) (signal : list Rational)
    (delta : Rational) (k : nat) : option (Rational * Rational) :=
  rg_trajectory_with graph signal delta k (λ current_graph _, cheeger_min_conductance_partition current_graph).

Definition rg_trajectory_modularity `{RegexEngine} (graph : GovernanceGraph) (signal : list Rational)
    (delta : Rational) (k : nat) : option (Rational * Rational) :=
  rg_trajectory_with graph signal delta k (λ current_graph _, modularity_maximizing_partition current_graph).

Definition rg_trajectory_signal_preserving `{RegexEngine} (graph : GovernanceGraph) (signal : list Rational)
    (delta : Rational) (k : nat) : option (Rational * Rational) :=
  rg_trajectory_with graph signal delta k signal_preserving_partition.

Definition breaks_monotonicity `{RegexEngine} (graph : GovernanceGraph) (signal : list Rational) (delta : Rational)
    (partition : Partition) : option bool :=
  coarse_graph ← coarse_grain graph partition;
  coarse_signal ← coarse_signal graph signal partition;
  coarse_critical ← c_star coarse_graph coarse_signal delta;
  critical ← c_star graph signal delta;
  Some (rat_ltb coarse_critical critical).
End coarse.

(* ------------------------------------------------------------------ *)
(** ** Loops that may panic *)

Lemma panic_fold_app {A B} (f : B → A → option B) b l k :
  panic_fold f b (l ++ k) = panic_fold f b l ≫= λ b, panic_fold f b k.
Proof. revert b. induction l as [|x l IH]; intros b; [done|]. cbn. destruct (f b x); [apply IH|done]. Qed.

(** When no test panics, the loop is the test of all the elements. *)
Lemma panic_any_existsb {A} (f : A → option bool) (g : A → bool) l :
  (∀ x, x ∈ l → f x = Some (g x)) → panic_any f l = Some (existsb g l).
Proof.
  induction l as [|x l IH]; intros Hf; [done|]. cbn. rewrite Hf by left. cbn.
  destruct (g x); [done|]. apply IH. intros y Hy. apply Hf. by right.
Qed.

Lemma unwrap_Some {E A} (r : Result E A) a : unwrap r = Some a ↔ r = Ok a.
Proof. destruct r; simpl; split; congruence. Qed.

(* ------------------------------------------------------------------ *)
(** ** Greatest elements *)

Section order_facts.
Context `{RO : RationalOrder}.

Lemma rat_lt_ge a b : rat_ltb a b = true → rat_ltb b a = false.
Proof using RO.
  intros Hab. destruct (rat_ltb b a) eqn:Hba; [|done]. pose proof (rat_lt_trans a b a Hab Hba). by rewrite rat_lt_irrefl in *.
Qed.

Lemma rat_max_spec l m : rat_max l = Some m → m ∈ l ∧ ∀ x, x ∈ l → rat_ltb m x = false.
Proof using RO.
  revert m. unfold rat_max. induction l as [|y l IH] using rev_ind; intros m; [done|].
  rewrite foldl_app. cbn [foldl]. destruct (foldl _ None l) as [x|] eqn:Hl.
  - destruct (IH x eq_refl) as [Hx Hall]. intros [= <-]. destruct (rat_ltb y x) eqn:Hyx.
    + split; [by apply elem_of_app; left|]. intros z [Hz| ->%list_elem_of_singleton]%elem_of_app; [by apply Hall|].
      by apply rat_lt_ge.
    + split; [apply elem_of_app; right; left|].
      intros z [Hz| ->%list_elem_of_singleton]%elem_of_app; [|apply rat_lt_irrefl].
      eapply (rat_ge_trans z x y); [by apply Hall|done].
  - intros [= <-]. destruct l as [|z l _] using rev_ind; [|by rewrite foldl_app in Hl].
    split; [left|]. intros z ->%list_elem_of_singleton. apply rat_lt_irrefl.
Qed.

Lemma rat_max_Some l x : x ∈ l → ∃ m, rat_max l = Some m.
Proof using Type.
  unfold rat_max. destruct l as [|y l _] using rev_ind; [by intros ?%not_elem_of_nil|]. rewrite foldl_app. by eexists.
Qed.

Lemma rat_max_le tolerance l :
  l ≠ [] → rat_leb tolerance (default rat_zero (rat_max l)) = true ↔ ∃ x, x ∈ l ∧ rat_leb tolerance x = true.
Proof using RO.
  intros Hne. destruct l as [|y l]; [done|]. destruct (rat_max_Some (y :: l) y) as [m Hm]; [left|].
  rewrite Hm. cbn [default]. destruct (rat_max_spec _ _ Hm) as [Hin Hall]. unfold rat_leb. setoid_rewrite negb_true_iff.
  split; [eauto|]. intros (x & Hx & Hle). eapply (rat_ge_trans tolerance x m); [done|by apply Hall].
Qed.

(** Two candidates with scores, the second not beaten by the first. *)
Definition not_beaten {A} (score : A → option Rational) (cand best : A) : Prop :=
  ∃ sc sb, score cand = Some sc ∧ score best = Some sb ∧ rat_ltb sc sb = false.

Lemma not_beaten_trans {A} (score : A → option Rational) a b c :
  not_beaten score a b → not_beaten score b c → not_beaten score a c.
Proof using RO.
  intros (sa & sb & ? & Hb & Hab) (sb' & sc & Hb' & ? & Hbc). assert (sb' = sb) as -> by congruence.
  exists sa, sc. split_and!; [done|done|]. by eapply rat_ge_trans.
Qed.

(** A choice by a score never picks a beaten candidate. *)
Lemma best_candidate_min {A} (score : A → option Rational) (better : A → A → option bool) candidates best :
  (∀ cand best b, better cand best = Some b →
     if b : bool then not_beaten score best cand else not_beaten score cand best) →
  best_candidate candidates better = Some (Some best) →
  best ∈ candidates ∧ ∀ cand, cand ∈ candidates → cand = best ∨ not_beaten score cand best.
Proof using RO.
  intros Hb. destruct candidates as [|first rest]; [done|]. cbn [best_candidate]. intros H.
  destruct (panic_fold _ first rest) as [best'|] eqn:Hf; cbn [mbind option_bind] in H; [|done].
  injection H as ->. revert best Hf. induction rest as [|c rest IH] using rev_ind; intros best Hf.
  { injection Hf as <-. split; [left|]. intros cand ->%list_elem_of_singleton. by left. }
  rewrite panic_fold_app in Hf. destruct (panic_fold _ first rest) as [old|]; cbn [mbind option_bind] in Hf; [|done].
  destruct (IH old eq_refl) as [Hin Hall]. cbn [panic_fold] in Hf. rewrite app_comm_cons.
  destruct (better c old) as [b|] eqn:Hc; cbn [mbind option_bind] in Hf; [|done]. apply Hb in Hc.
  injection Hf as <-. destruct b.
  - split; [apply elem_of_app; right; left|].
    intros cand [Hcand| ->%list_elem_of_singleton]%elem_of_app; [right|by left].
    destruct (Hall cand Hcand) as [->|Hnb]; [done|by eapply not_beaten_trans].
  - split; [by apply elem_of_app; left|].
    intros cand [Hcand| ->%list_elem_of_singleton]%elem_of_app; [by apply Hall|by right].
Qed.
End order_facts.

(** The enumerated subsets are all increasing lists below the bound. *)
Lemma elem_of_all_subsets n l :
  l ∈ all_subsets n ↔ StronglySorted lt l ∧ ∀ i, i ∈ l → i < n.
Proof.
  unfold all_subsets. revert l. induction n as [|n IH]; intros l.
  - simpl. rewrite list_elem_of_singleton. split; [intros ->; split; [constructor|by intros i ?%not_elem_of_nil]|].
    intros [_ Hl]. destruct l as [|i l]; [done|]. pose proof (Hl i (list_elem_of_here _ _)). lia.
  - rewrite seq_S, foldl_app. cbn [foldl Nat.add]. rewrite elem_of_app, list_elem_of_fmap, IH. split.
    + intros [[Hs Hl]|(l' & -> & [Hs Hl]%IH)]; [split; [done|]; intros i Hi; pose proof (Hl i Hi); lia|]. split.
      * apply StronglySorted_app. split_and!; [|done|repeat constructor].
        intros x y Hx ->%list_elem_of_singleton. by apply Hl.
      * intros i [Hi| ->%list_elem_of_singleton]%elem_of_app; [pose proof (Hl i Hi); lia|lia].
    + intros [Hs Hl]. destruct l as [|x l _] using rev_ind; [left; split; [done|by intros i ?%not_elem_of_nil]|].
      apply StronglySorted_app in Hs as (Hlt & Hs & _).
      assert (∀ i, i ∈ l → i < x) as Hx by (intros i Hi; by apply (Hlt i x); [|left]).
      pose proof (Hl x) as Hxn. assert (x < S n) as Hb by (apply Hxn, elem_of_app; right; left).
      destruct (decide (x = n)) as [->|Hne].
      * right. exists l. split; [done|]. apply IH. split; [done|]. intros i Hi. by apply Hx.
      * left. split; [apply StronglySorted_app; split_and!; [|done|repeat constructor]; intros a b Ha ->%list_elem_of_singleton; by apply Hx|].
        intros i [Hi| ->%list_elem_of_singleton]%elem_of_app; [pose proof (Hx i Hi)|]; lia.
Qed.

(* ------------------------------------------------------------------ *)
(** ** Normalized partitions cover every node once *)

Lemma take_indices_spec seen0 l seen indices :
  foldl take_index (seen0, []) l = (seen, indices) →
  NoDup indices ∧ (∀ i, i ∈ indices ↔ i ∈ seen ∧ i ∉ seen0) ∧ seen = list_to_set l ∪ seen0.
Proof.
  revert seen indices. induction l as [|x l IH] using rev_ind; intros seen indices.
  - simpl. intros [= <- <-]. split_and!; [apply NoDup_nil_2| |by rewrite (left_id_L ∅ (∪))].
    intros i. rewrite elem_of_nil. tauto.
  - rewrite foldl_app. cbn [foldl]. destruct (foldl take_index (seen0, []) l) as [seen1 indices1].
    destruct (IH seen1 indices1 eq_refl) as (Hnd & Hin & Hseen). unfold take_index. cbn [fst snd].
    case_decide as Hx; intros [= <- <-].
    + split_and!; [done|done|]. rewrite Hseen in Hx |- *. rewrite list_to_set_app_L. simpl. set_solver.
    + split_and!.
      * apply NoDup_app. split_and!; [done| |apply NoDup_singleton].
        intros i [Hi _]%Hin ->%list_elem_of_singleton. done.
      * intros i. rewrite elem_of_app, Hin, list_elem_of_singleton, elem_of_union, elem_of_singleton.
        split; [|naive_solver]. intros [[? ?]| ->]; [tauto|]. split; [by left|]. rewrite Hseen in Hx. set_solver.
      * rewrite Hseen, list_to_set_app_L. simpl. set_solver.
Qed.

Lemma mjoin_filter_nonempty (l : list (list nat)) : mjoin (filter nonempty_block l) = mjoin l.
Proof.
  induction l as [|b l IH]; [done|]. rewrite filter_cons. case_decide as Hb; simpl; [by rewrite IH|].
  unfold nonempty_block in Hb. destruct b; [done|]. by destruct Hb.
Qed.

Lemma mjoin_singletons (l : list nat) : mjoin ((λ i, [i]) <$> l) = l.
Proof. induction l as [|i l IH]; [done|]. simpl. f_equal. exact IH. Qed.

Lemma node_index_lookup ids id i : NoDup ids → node_index ids id = Some i ↔ ids !! i = Some id.
Proof.
  intros Hnd. unfold node_index. split.
  - destruct (list_find _ ids) as [[j x]|] eqn:Hf; [|done]. simpl. intros [= <-].
    by apply list_find_Some in Hf as (Hj & -> & _).
  - intros Hi. destruct (list_find_elem_of (λ x, x = id) ids id) as [[j x] Hf];
      [by eapply list_elem_of_lookup_2|done|]. rewrite Hf. simpl. f_equal.
    apply list_find_Some in Hf as (Hj & -> & _). by eapply NoDup_lookup.
Qed.

Lemma node_index_lt ids id i : node_index ids id = Some i → i < length ids.
Proof.
  unfold node_index. destruct (list_find _ ids) as [[j x]|] eqn:Hf; [|done]. simpl. intros [= <-].
  apply list_find_Some in Hf as (Hj & _). by eapply lookup_lt_Some.
Qed.

Lemma normalize_blocks_spec ids (bs : list (list NodeId)) seen raw :
  foldl (normalize_block ids) (∅, []) bs = (seen, raw) →
  NoDup (mjoin raw) ∧ (∀ i, i ∈ mjoin raw ↔ i ∈ seen) ∧ ∀ i, i ∈ seen → i < length ids.
Proof.
  revert seen raw. induction bs as [|block bs IH] using rev_ind; intros seen raw.
  - simpl. intros [= <- <-]. split_and!; [apply NoDup_nil_2| |by intros i ?%elem_of_empty].
    intros i. rewrite elem_of_nil, elem_of_empty. tauto.
  - rewrite foldl_app. cbn [foldl]. destruct (foldl (normalize_block ids) (∅, []) bs) as [seen1 raw1].
    destruct (IH seen1 raw1 eq_refl) as (Hnd & Hin & Hlt). unfold normalize_block. cbn [fst snd].
    destruct (foldl take_index (seen1, []) _) as [seen2 indices] eqn:Ht. intros [= <- <-].
    destruct (take_indices_spec _ _ _ _ Ht) as (Hnd' & Hin' & Hseen).
    rewrite join_app. simpl. rewrite (right_id_L [] (++)).
    assert (∀ i, i ∈ sort_indices indices ↔ i ∈ indices) as Hsort.
    { intros i. unfold sort_indices. by rewrite merge_sort_Permutation. }
    split_and!.
    + apply NoDup_app. split_and!; [done| |unfold sort_indices; by rewrite merge_sort_Permutation].
      intros i Hi%Hin [_ Hi']%Hsort%Hin'. done.
    + intros i. rewrite elem_of_app, Hsort, Hin, Hin', Hseen, elem_of_union.
      destruct (decide (i ∈ seen1)); tauto.
    + intros i. rewrite Hseen, elem_of_union, elem_of_list_to_set. intros [Hi|Hi]; [|by apply Hlt].
      apply list_elem_of_omap in Hi as (id & _ & Hid). by eapply node_index_lt.
Qed.

Lemma normalize_partition_covers ids partition :
  mjoin (normalize_partition ids partition) ≡ₚ seq 0 (length ids).
Proof.
  unfold normalize_partition. destruct (foldl _ _ _) as [seen raw] eqn:Hf.
  destruct (normalize_blocks_spec ids (blocks partition) seen raw Hf) as (Hnd & Hin & Hlt).
  rewrite merge_sort_Permutation, join_app, mjoin_filter_nonempty, mjoin_singletons.
  apply NoDup_Permutation.
  - apply NoDup_app. split_and!; [done| |apply NoDup_filter, NoDup_seq].
    intros i Hi%Hin [Hni _]%list_elem_of_filter. done.
  - apply NoDup_seq.
  - intros i. rewrite elem_of_app, Hin, list_elem_of_filter, elem_of_seq. split.
    + intros [Hi%Hlt|[_ Hi]]; lia.
    + intros Hi. destruct (decide (i ∈ seen)); [by left|by right].
Qed.

Lemma normalize_partition_nonempty ids partition :
  Forall (λ block, block ≠ []) (normalize_partition ids partition).
Proof.
  unfold normalize_partition. destruct (foldl _ _ _) as [seen raw].
  rewrite merge_sort_Permutation, Forall_app. split.
  - apply Forall_forall. intros b [Hb _]%list_elem_of_filter. done.
  - apply Forall_forall. intros b (i & -> & _)%list_elem_of_fmap. done.
Qed.

Lemma block_head_in block : block ≠ [] → block_head block ∈ block.
Proof. destruct block as [|i block]; [done|left]. Qed.

Lemma heads_spec (bs : list (list nat)) :
  NoDup (mjoin bs) → Forall (λ block, block ≠ []) bs →
  NoDup (block_head <$> bs) ∧ ∀ i, i ∈ block_head <$> bs → i ∈ mjoin bs.
Proof.
  induction bs as [|b bs IH]; intros Hnd Hne.
  { split; [apply NoDup_nil_2|by intros i ?%elem_of_nil]. }
  apply Forall_cons in Hne as [Hb Hne]. simpl in Hnd. apply NoDup_app in Hnd as (Hnd & Hdisj & Hnd').
  destruct (IH Hnd' Hne) as [Hh Hin]. pose proof (block_head_in b Hb) as Hbh. simpl. split.
  - apply NoDup_cons. split; [|done]. intros Hx%Hin. by apply (Hdisj (block_head b)).
  - intros i [->|Hi]%elem_of_cons; apply elem_of_app; [by left|right; by apply Hin].
Qed.

(* ------------------------------------------------------------------ *)
(** ** Coarse graining *)

Section coarse_facts.
Context `{RegexEngine, RationalOps} (Hfin : ∀ r, f64_is_finite (ratio_to_f64 r) = true).

Lemma coarse_nodes_ok ids (bs : list (list nat)) :
  NoDup (head_id ids <$> bs) →
  ∃ builder, try_fold (λ builder block, add_node builder (coarse_node (head_id ids block))) (mkBuilder ∅ []) bs
    = Ok builder ∧ b_edges builder = [] ∧
    ∀ id node, b_nodes builder !! id = Some node ↔ id ∈ head_id ids <$> bs ∧ node = coarse_node id.
Proof using Type.
  intros Hnd. induction bs as [|b bs IH] using rev_ind.
  { eexists. split; [done|]. split; [done|]. intros id node. cbn. rewrite lookup_empty, elem_of_nil. naive_solver. }
  rewrite fmap_app in Hnd. apply NoDup_app in Hnd as (Hnd & Hdisj & _).
  destruct (IH Hnd) as (builder & Hb & He & Hn). rewrite try_fold_app, Hb. cbn [mbind Result_bind try_fold].
  unfold add_node. cbn [validate_governance_node coarse_node try_iter mbind Result_bind node_id node_id_for_node].
  destruct (b_nodes builder !! head_id ids b) as [node|] eqn:Hl.
  { exfalso. apply Hn in Hl as [Hin _]. apply (Hdisj _ Hin). left. }
  eexists. split; [done|]. cbn [b_edges b_nodes]. split; [done|]. intros id node.
  rewrite lookup_insert_Some, Hn, fmap_app, elem_of_app. cbn [fmap list_fmap]. rewrite list_elem_of_singleton. split.
  - intros [[<- <-]|[_ [? ?]]]; [split; [by right|done]|split; [by left|done]].
  - intros [[Hin| ->] ->]; [|by left]. right. split; [|done]. intros Heq.
    apply (Hdisj id Hin). rewrite <-Heq. left.
Qed.

Lemma coarse_edges_ok weighted normalized builder l :
  (∀ p, p ∈ l → is_Some (normalized !! p.1) ∧ is_Some (normalized !! p.2)) →
  (∀ e, e ∈ b_edges builder → is_Some (b_nodes builder !! from e) ∧ is_Some (b_nodes builder !! to e)) →
  (∀ b, b ∈ normalized → is_Some (b_nodes builder !! head_id (wg_node_ids weighted) b)) →
  match panic_fold (add_coarse_edge weighted normalized) builder l with
  | Some builder' => b_nodes builder' = b_nodes builder ∧
      (∀ e, e ∈ b_edges builder' → is_Some (b_nodes builder !! from e) ∧ is_Some (b_nodes builder !! to e))
  | None => ∃ l r, coarse_weight weighted l r = None
  end.
Proof using Hfin.
  intros Hl He Hn. revert builder He Hn. induction l as [|p l IH]; intros builder He Hn; [done|].
  cbn [panic_fold]. destruct (Hl p) as [[l1 H1] [l2 H2]]; [left|].
  assert (∀ p, p ∈ l → is_Some (normalized !! p.1) ∧ is_Some (normalized !! p.2)) as Hl'
    by (intros q Hq; apply Hl; by right).
  destruct (coarse_weight weighted l1 l2) as [weight|] eqn:Hw.
  2:{ unfold add_coarse_edge. rewrite H1, H2. cbn [default]. change (id l1) with l1. change (id l2) with l2.
      rewrite Hw. by exists l1, l2. }
  assert (∃ b, add_coarse_edge weighted normalized builder p = Some b ∧ b_nodes b = b_nodes builder ∧
    (∀ e, e ∈ b_edges b → is_Some (b_nodes builder !! from e) ∧ is_Some (b_nodes builder !! to e))) as (b & Hb & Hbn & Hbe).
  { unfold add_coarse_edge. rewrite H1, H2. cbn [default]. change (id l1) with l1. change (id l2) with l2.
    rewrite Hw. cbn [mbind option_bind]. destruct (rat_eqb _ rat_zero); [by eexists|].
    unfold add_edge, GovernanceEdge_new, edge_transform.
    assert (∀ e, from e = head_id (wg_node_ids weighted) l1 → to e = head_id (wg_node_ids weighted) l2 →
      ∀ e', e' ∈ b_edges builder ++ [e] →
        is_Some (b_nodes builder !! from e') ∧ is_Some (b_nodes builder !! to e')) as Hends.
    { intros e Hf Ht e' [Hin| ->%list_elem_of_singleton]%elem_of_app; [by apply He|]. rewrite Hf, Ht.
      split; apply Hn; by eapply list_elem_of_lookup_2. }
    destruct (rat_eqb _ (rat_of_int 1)); [|rewrite Hfin]; cbn [negb mbind Result_bind unwrap]; eexists;
      (split; [done|]); (split; [done|]); by apply Hends. }
  rewrite Hb. cbn [mbind option_bind]. rewrite <-Hbn. apply (IH Hl' b).
  - intros e Hin. rewrite Hbn. by apply Hbe.
  - intros blk Hin. rewrite Hbn. by apply Hn.
Qed.
End coarse_facts.

Lemma elem_of_ordered_pairs n p : p ∈ ordered_pairs n ↔ p.1 < p.2 < n.
Proof.
  unfold ordered_pairs. rewrite list_elem_of_bind. setoid_rewrite elem_of_seq.
  setoid_rewrite list_elem_of_fmap. setoid_rewrite elem_of_seq. destruct p as [a b]. simpl. split.
  - intros (l & (r & [= -> ->] & Hr) & Hl). lia.
  - intros Hab. exists a. split; [|lia]. exists b. split; [done|lia].
Qed.

Section coarse_total.
Context `{RegexEngine, RationalOps} (Hfin : ∀ r, f64_is_finite (ratio_to_f64 r) = true).

(** The blocks of a normalized partition of the nodes of a graph. *)
Abbreviation normalized g p := (normalize_partition (btree_keys (nodes g)) p).

Lemma normalized_heads g partition :
  NoDup (head_id (btree_keys (nodes g)) <$> normalized g partition).
Proof using Type.
  set (ids := btree_keys (nodes g)).
  pose proof (normalize_partition_covers ids partition) as Hcov.
  assert (NoDup (mjoin (normalize_partition ids partition))) as Hnd by (rewrite Hcov; apply NoDup_seq).
  destruct (heads_spec _ Hnd (normalize_partition_nonempty ids partition)) as [Hh Hin].
  replace (head_id ids <$> normalize_partition ids partition)
    with ((λ i, default "" (ids !! i)) <$> (block_head <$> normalize_partition ids partition))
    by (rewrite <-list_fmap_compose; done).
  apply NoDup_fmap_2_strong; [|done]. intros i j Hi%Hin Hj%Hin Heq.
  rewrite Hcov, elem_of_seq in Hi, Hj.
  destruct (lookup_lt_is_Some_2 ids i) as [x Hx]; [lia|]. destruct (lookup_lt_is_Some_2 ids j) as [y Hy]; [lia|].
  rewrite Hx, Hy in Heq. simpl in Heq. subst. eapply NoDup_lookup; [apply (NoDup_btree_keys (nodes g))|done|done].
Qed.

Lemma from_graph_ids g weighted : from_graph g = Some weighted → wg_node_ids weighted = btree_keys (nodes g).
Proof using Type. unfold from_graph. destruct (panic_fold _ _ _); cbn; [|done]. by intros [= <-]. Qed.

(** A coarse graph has one node per block; the unwraps never panic, only the
    arithmetic does. *)
Lemma coarse_grain_ok g partition :
  match coarse_grain g partition with
  | Some g' => graph_wf g' ∧ size (nodes g') = length (normalized g partition) ∧
      ∀ id node, nodes g' !! id = Some node ↔
        id ∈ head_id (btree_keys (nodes g)) <$> normalized g partition ∧ node = coarse_node id
  | None => from_graph g = None ∨ ∃ weighted l r, from_graph g = Some weighted ∧ coarse_weight weighted l r = None
  end.
Proof using Hfin.
  unfold coarse_grain. destruct (from_graph g) as [weighted|] eqn:Hg; [|by left]. cbn [mbind option_bind].
  pose proof (from_graph_ids g weighted Hg) as Hids. rewrite Hids.
  cbn [GraphBuilder_new unwrap mbind option_bind].
  pose proof (normalized_heads g partition) as Hheads. set (ids := btree_keys (nodes g)) in *.
  set (bs := normalize_partition ids partition) in *.
  destruct (coarse_nodes_ok ids bs Hheads) as (b1 & Hb1 & He1 & Hn1). rewrite Hb1. cbn [unwrap mbind option_bind].
  assert (∀ p, p ∈ ordered_pairs (length bs) → is_Some (bs !! p.1) ∧ is_Some (bs !! p.2)) as Hpairs.
  { intros p Hp%elem_of_ordered_pairs. split; apply lookup_lt_is_Some_2; lia. }
  assert (∀ blk, blk ∈ bs → is_Some (b_nodes b1 !! head_id (wg_node_ids weighted) blk)) as Hblocks.
  { intros blk Hblk. rewrite Hids. exists (coarse_node (head_id ids blk)). apply Hn1. split; [|done]. by apply list_elem_of_fmap_2. }
  pose proof (coarse_edges_ok Hfin weighted bs b1 (ordered_pairs (length bs)) Hpairs) as Hedges.
  rewrite He1 in Hedges. specialize (Hedges ltac:(by intros e ?%not_elem_of_nil) Hblocks).
  destruct (panic_fold (add_coarse_edge weighted bs) b1 _) as [b2|]; cbn [mbind option_bind];
    [|destruct Hedges as (l & r & Hw); right; by exists weighted, l, r].
  destruct Hedges as [Hn2 He2]. unfold build.
  assert (try_iter (λ edge, _ ← ok_or (b_nodes b2 !! from edge) (InvalidEdgeReference (from edge));
    _ ← ok_or (b_nodes b2 !! to edge) (InvalidEdgeReference (to edge)); Ok ()) (b_edges b2) = Ok ()) as ->.
  { apply try_iter_Ok, Forall_forall. intros e [[n1 Hf] [n2 Ht]]%He2. by rewrite Hn2, Hf, Ht. }
  cbn [mbind Result_bind unwrap nodes edges]. rewrite Hn2. split_and!.
  - split; cbn [nodes edges].
    + intros k n [_ ->]%Hn1. done.
    + exact He2.
  - rewrite <-(length_fmap (head_id ids) bs), <-length_btree_keys.
    apply Permutation_length, NoDup_Permutation; [apply NoDup_btree_keys|done|]. intros id.
    rewrite elem_of_btree_keys. split; [by intros [n [? _]%Hn1]|]. intros Hid. exists (coarse_node id). by apply Hn1.
  - exact Hn1.
Qed.

Lemma greedy_choice weights l best :
  best.1 ≠ None ∨ l ≠ [] →
  ∃ p, (foldl (heavier_pair weights) best l).1 = Some p ∧ (best.1 = Some p ∨ p ∈ l).
Proof using Type.
  intros Hb. revert best Hb. induction l as [|q l IH]; intros best Hb.
  - destruct best as [[p|] w]; [by exists p; split; [|left]|]. by destruct Hb.
  - cbn [foldl]. destruct (IH (heavier_pair weights best q)) as (p & Hp & Hor).
    { left. unfold heavier_pair. destruct best as [[b|] w]; cbn; [by destruct (rat_ltb _ _)|done]. }
    exists p. split; [done|]. destruct Hor as [Hor|Hor]; [|by right; right].
    unfold heavier_pair in Hor. destruct (_ || _); [injection Hor as ->; right; left|by left].
Qed.

Lemma take_two a b : a ≠ b → foldl take_index (∅, []) [a; b] = ({[b]} ∪ ({[a]} ∪ ∅), [a; b]).
Proof using Type.
  intros Hab. cbn [foldl]. unfold take_index at 2. rewrite decide_False by apply not_elem_of_empty.
  unfold take_index. rewrite decide_False; [done|]. cbn [fst].
  by intros [->%elem_of_singleton|?%elem_of_empty]%elem_of_union.
Qed.

(** The greedy step merges two nodes. *)
Lemma greedy_partition_spec g :
  match greedy_max_weight_partition g with
  | None => from_graph g = None
  | Some None => size (nodes g) ≤ 1
  | Some (Some partition) => S (length (normalized g partition)) = size (nodes g)
  end.
Proof using Type.
  unfold greedy_max_weight_partition. destruct (from_graph g) as [[ids' ws]|] eqn:Hg; [|done].
  pose proof (from_graph_ids g _ Hg) as Hids. cbn [wg_node_ids] in Hids. subst ids'.
  cbn [mbind option_bind wg_weights wg_node_ids]. unfold node_count. cbn [wg_node_ids].
  set (ids := btree_keys (nodes g)).
  assert (size (nodes g) = length ids) as Hsize by (unfold ids; by rewrite length_btree_keys).
  destruct (decide (ordered_pairs (length ids) = [])) as [Hnil|Hne].
  { rewrite Hnil. cbn. rewrite Hsize. destruct (decide (1 < length ids)) as [Hlt|]; [|lia].
    assert ((0, 1) ∈ ordered_pairs (length ids)) as Hin by (apply elem_of_ordered_pairs; simpl; lia).
    rewrite Hnil in Hin. by apply not_elem_of_nil in Hin. }
  destruct (greedy_choice ws (ordered_pairs (length ids)) (None, rat_zero)) as ([a b] & Hp & [?|Hin]);
    [by right|done|].
  rewrite Hp. cbn [fmap option_fmap option_map fst snd]. apply elem_of_ordered_pairs in Hin. simpl in Hin.
  destruct (lookup_lt_is_Some_2 ids a) as [x Hx]; [lia|]. destruct (lookup_lt_is_Some_2 ids b) as [y Hy]; [lia|].
  pose proof (NoDup_btree_keys (nodes g)) as Hnd. fold ids in Hnd.
  pose proof (normalize_partition_covers ids (partition_from_indices ids [[a; b]])) as Hcov.
  apply Permutation_length in Hcov. rewrite length_seq in Hcov. rewrite Hsize, <-Hcov.
  unfold normalize_partition, partition_from_indices. cbn [map blocks]. rewrite Hx, Hy. cbn [default].
  cbn [foldl]. unfold normalize_block. cbn [fst snd omap list_omap].
  change (id x) with x. change (id y) with y.
  rewrite (proj2 (node_index_lookup ids x a Hnd) Hx), (proj2 (node_index_lookup ids y b Hnd) Hy).
  rewrite take_two by lia. cbn [fst snd app].
  rewrite !merge_sort_Permutation.
  set (singles := (λ index, [index]) <$> _).
  assert (length (sort_indices [a; b]) = 2) as Hlen.
  { unfold sort_indices. by rewrite merge_sort_Permutation. }
  assert (filter nonempty_block [sort_indices [a; b]] = [sort_indices [a; b]]) as ->.
  { rewrite filter_cons. rewrite decide_True; [done|]. intros Hnil. by rewrite Hnil in Hlen. }
  cbn [app]. simpl. rewrite length_app, Hlen. unfold singles. rewrite mjoin_singletons, length_fmap. lia.
Qed.

(** The arithmetic on this graph and signal has no result. *)
Inductive overflows (g : GovernanceGraph) (signal : list Rational) : Prop :=
  | weights_overflow : from_graph g = None → overflows g signal
  | block_overflow weighted l r :
      from_graph g = Some weighted → coarse_weight weighted l r = None → overflows g signal
  | signal_overflow values :
      (∀ v, v ∈ values → v ∈ signal) → rat_sum values = None → overflows g signal
  | sensitivity_overflow : cv g signal = None → overflows g signal.

(** A coarse signal has one value per block. *)
Lemma coarse_signal_ok g signal partition :
  length signal = size (nodes g) →
  match coarse_signal g signal partition with
  | Some signal' => length signal' = length (normalized g partition)
  | None => overflows g signal
  end.
Proof using Type.
  intros Hs. unfold coarse_signal. destruct (from_graph g) as [weighted|] eqn:Hg; [|by apply weights_overflow].
  cbn [mbind option_bind]. rewrite (from_graph_ids g weighted Hg).
  destruct (mapM _ _) as [signal'|] eqn:Hm; [by apply length_mapM in Hm|].
  apply eq_None_not_Some in Hm. destruct (decide (Forall (λ block, is_Some (block_sum signal block)) (normalized g partition)))
    as [Hall|Hnot]; [by destruct Hm; apply mapM_is_Some_2|].
  apply not_Forall_Exists in Hnot; [|apply _]. apply Exists_exists in Hnot as (block & Hin & Hno).
  apply eq_None_not_Some in Hno. unfold block_sum in Hno.
  destruct (mapM (λ index, signal !! index) block) as [values|] eqn:Hv; cbn [mbind option_bind] in Hno.
  - apply (signal_overflow _ _ values); [|done]. intros v Hvin. apply mapM_Some in Hv.
    apply list_elem_of_lookup in Hvin as [i Hi]. destruct (Forall2_lookup_r _ _ _ _ _ Hv Hi) as (index & _ & Hx).
    by eapply list_elem_of_lookup_2.
  - apply eq_None_not_Some in Hv. destruct Hv. apply mapM_is_Some_2, Forall_forall. intros index Hindex.
    apply lookup_lt_is_Some_2. rewrite Hs, <-length_btree_keys.
    assert (index ∈ mjoin (normalized g partition)) as Hj by (apply list_elem_of_join; eauto).
    rewrite normalize_partition_covers in Hj. apply elem_of_seq in Hj. lia.
Qed.

(** The steps of the greedy trajectory. *)
Lemma rg_greedy_spec k g signal :
  length signal = size (nodes g) →
  match rg_steps k (λ current _, greedy_max_weight_partition current) g signal with
  | Some (g', signal') => length signal' = size (nodes g') ∧
      size (nodes g') = Nat.max (Nat.min 1 (size (nodes g))) (size (nodes g) - k)
  | None => ∃ j g' signal', j < k ∧
      rg_steps j (λ current _, greedy_max_weight_partition current) g signal = Some (g', signal') ∧
      overflows g' signal'
  end.
Proof using Hfin.
  revert g signal. induction k as [|k IH]; intros g signal Hs; [split; [done|lia]|].
  cbn [rg_steps]. pose proof (greedy_partition_spec g) as Hg.
  destruct (greedy_max_weight_partition g) as [[partition|]|] eqn:Hgreedy; cbn [mbind option_bind].
  2: split; [done|lia].
  2: { exists 0, g, signal. split_and!; [lia|done|by apply weights_overflow]. }
  pose proof (coarse_signal_ok g signal partition Hs) as Hcs.
  destruct (coarse_signal g signal partition) as [s1|] eqn:Hs1; cbn [mbind option_bind].
  2: { exists 0, g, signal. split_and!; [lia|done|done]. }
  pose proof (coarse_grain_ok g partition) as Hcg.
  destruct (coarse_grain g partition) as [g1|] eqn:Hg1; cbn [mbind option_bind].
  2: { exists 0, g, signal. split_and!; [lia|done|].
       destruct Hcg as [?|(weighted & l & r & ? & ?)]; [by apply weights_overflow|by eapply block_overflow]. }
  destruct Hcg as (_ & Hsize & _). specialize (IH g1 s1 ltac:(lia)).
  destruct (rg_steps k _ g1 s1) as [[g' s']|] eqn:Hr.
  - destruct IH as [Hl Hn]. split; [done|]. rewrite Hn, Hsize.
    assert (0 < length (normalized g partition)); [|lia].
    destruct (normalized g partition) eqn:Hnil; [|simpl; lia].
    pose proof (normalize_partition_covers (btree_keys (nodes g)) partition) as Hcov. rewrite Hnil in Hcov.
    apply Permutation_length in Hcov. rewrite length_seq, length_btree_keys in Hcov. simpl in *. lia.
  - destruct IH as (j & g' & s' & Hj & Hsteps & Ho). exists (S j), g', s'. split_and!; [lia| |done].
    cbn [rg_steps]. rewrite Hgreedy. cbn [mbind option_bind]. rewrite Hs1. cbn [mbind option_bind]. rewrite Hg1. done.
Qed.
End coarse_total.

(* ------------------------------------------------------------------ *)
(** ** Properties *)

(** The violation test is the sensitivity: when the sensitivity of a non-empty
    graph is computed, the graph violates signal preservation at a tolerance
    exactly when the sensitivity reaches it. *)
Theorem sp_violation_exact `{RationalOrder} g signal tolerance value :
  nodes g ≠ ∅ → cv g signal = Some value → sp_violation g signal tolerance = Some (rat_leb tolerance value).
Proof.
  intros Hne Hcv. unfold cv in Hcv. unfold sp_violation.
  destruct (from_graph g) as [weighted|] eqn:Hg; cbn [mbind option_bind] in *; [|done].
  unfold weighted_cv in Hcv.
  assert (node_count weighted ≠ 0) as Hn.
  { unfold node_count. rewrite (from_graph_ids g weighted Hg), length_btree_keys. by apply map_size_non_empty_iff. }
  rewrite bool_decide_false in Hcv by done.
  destruct (mapM _ (node_pairs weighted)) as [values|] eqn:Hm; cbn [mbind option_bind] in Hcv; [|done].
  injection Hcv as <-. apply mapM_Some in Hm.
  set (moved p := default rat_zero (perturbation weighted signal p.1 p.2)).
  assert (values = moved <$> node_pairs weighted) as ->.
  { clear -Hm. induction Hm as [|p v ps vs Hp _ IH]; [done|]. cbn. unfold moved at 1. by rewrite Hp, IH. }
  rewrite (panic_any_existsb _ (λ p, rat_leb tolerance (moved p))).
  - f_equal. apply eq_true_iff_eq. rewrite rat_max_le.
    + rewrite existsb_exists. split.
      * intros (p & Hp%list_elem_of_In & Hle). eexists. split; [by apply list_elem_of_fmap_2|done].
      * intros (x & (p & -> & Hp)%list_elem_of_fmap & Hle). exists p. by rewrite <-list_elem_of_In.
    + intros Hnil. apply fmap_nil_inv in Hnil. assert ((0, 0) ∈ node_pairs weighted) as Hin.
      { unfold node_pairs. apply list_elem_of_bind. exists 0. rewrite list_elem_of_fmap. setoid_rewrite elem_of_seq.
        split; [|lia]. exists 0. split; [done|]. lia. }
      rewrite Hnil in Hin. by apply not_elem_of_nil in Hin.
  - intros p [i Hi]%list_elem_of_lookup. destruct (Forall2_lookup_l _ _ _ _ _ Hm Hi) as (v & _ & Hv).
    unfold moved. by rewrite Hv.
Qed.

(** The greedy trajectory is exact: when rationals convert to finite floats,
    each step merges two nodes into one and keeps one signal value per node,
    until a single node is left, and the reported pair is the sensitivity of the
    final graph and the critical value computed from it.  The unwraps of the
    source never panic, and no index is out of range: a trajectory without a
    result is one whose arithmetic overflows, on a graph it reaches or in the
    last division. *)
Theorem rg_trajectory_exact `{RegexEngine, RationalOps} g signal delta k :
  (∀ r, f64_is_finite (ratio_to_f64 r) = true) → length signal = size (nodes g) →
  match rg_trajectory g signal delta k with
  | Some (value, critical) => ∃ g' signal',
      size (nodes g') = Nat.max (Nat.min 1 (size (nodes g))) (size (nodes g) - k) ∧
      length signal' = size (nodes g') ∧
      cv g' signal' = Some value ∧ c_star g' signal' delta = Some critical
  | None => ∃ j g' signal', j ≤ k ∧
      rg_steps j (λ current _, greedy_max_weight_partition current) g signal = Some (g', signal') ∧
      (overflows g' signal' ∨ c_star g' signal' delta = None)
  end.
Proof.
  intros Hfin Hs. pose proof (rg_greedy_spec Hfin k g signal Hs) as Hspec.
  unfold rg_trajectory, rg_trajectory_with.
  destruct (rg_steps k _ g signal) as [[g' s']|] eqn:Hr; cbn [mbind option_bind].
  2: { destruct Hspec as (j & g' & s' & ? & ? & ?). exists j, g', s'. split_and!; [lia|done|by left]. }
  destruct Hspec as [Hl Hn].
  destruct (from_graph g') as [weighted|] eqn:Hg'; cbn [mbind option_bind].
  2: { exists k, g', s'. split_and!; [lia|done|left; by apply weights_overflow]. }
  destruct (weighted_cv weighted s') as [value|] eqn:Hcv; cbn [mbind option_bind].
  2: { exists k, g', s'. split_and!; [lia|done|left]. apply sensitivity_overflow. unfold cv. by rewrite Hg'. }
  assert (c_star g' s' delta = safe_div delta value) as Hc by (unfold c_star; rewrite Hg'; cbn; by rewrite Hcv).
  destruct (safe_div delta value) as [critical|] eqn:Hd; cbn [mbind option_bind].
  - exists g', s'. split_and!; [done|done| |done]. unfold cv. by rewrite Hg'.
  - exists k, g', s'. split_and!; [lia|done|by right].
Qed.

(** The Cheeger partition has minimal conductance: it merges the canonical side
    of a cut that no other cut beats. *)
Theorem cheeger_partition_minimal `{RationalOrder} g partition :
  cheeger_min_conductance_partition g = Some (Some partition) →
  ∃ weighted side, from_graph g = Some weighted ∧ partition = side_partition weighted side ∧
    (∀ other, StronglySorted lt other → (∀ i, i ∈ other → i < size (nodes g)) → other ≠ [] →
      length other < size (nodes g) →
      other = side ∨ not_beaten (conductance_score weighted) other side).
Proof.
  unfold cheeger_min_conductance_partition. destruct (from_graph g) as [weighted|] eqn:Hg; [|done].
  cbn [mbind option_bind]. case_bool_decide as Hz; [done|].
  destruct (best_candidate _ _) as [[side|]|] eqn:Hb; [|done|done].
  cbn [mbind option_bind fmap option_fmap option_map]. intros [= <-].
  exists weighted, side. split; [done|]. split; [done|].
  apply (best_candidate_min (conductance_score weighted)) in Hb as [_ Hall].
  - assert (node_count weighted = size (nodes g)) as Hn.
    { unfold node_count. rewrite (from_graph_ids g weighted Hg). apply length_btree_keys. }
    intros other Hso Hlt Hne Hlen. apply Hall. rewrite Hn. unfold nontrivial_subsets. apply list_elem_of_filter.
    split; [done|]. by apply elem_of_all_subsets.
  - intros cand best b. unfold better_side.
    destruct (conductance_score weighted cand) as [sc|] eqn:Hc; cbn [mbind option_bind]; [|done].
    destruct (conductance_score weighted best) as [sb|] eqn:Hbest; cbn [mbind option_bind]; [|done].
    intros [= <-]. destruct (rat_ltb sc sb || _) eqn:Hor.
    + exists sb, sc. split_and!; [done|done|].
      apply orb_true_iff in Hor as [Hlt|[Heq _]%andb_true_iff]; [by apply rat_lt_ge|]. by apply rat_eq_lt in Heq as [_ ?].
    + exists sc, sb. split_and!; [done|done|]. by apply orb_false_iff in Hor as [? _].
Qed.
