(* ===== verification/GraphSpectral.v ===== *)
(** * The spectral report of an extracted graph

    extract/spectral.rs: the weighted adjacency of the undirected graph under a
    governance graph, its components, its algebraic connectivity by inverse
    iteration on an LU decomposition, and the bounds computed from them, in
    binary64 arithmetic, with the exact diagnostics of [ExactSpectral]. *)

From stdpp Require Import gmap strings.
From S2P Require Import Prelude F64 F64Bits Errors Core GraphNode Tarjan GraphTraverse Spectral ExactSpectral.
From stdpp Require Import pretty options.

Definition CAPACITY_SATURATION_EPSILON : f64 := Eval vm_compute in f64_lit 1 10.
Definition CONNECTED_TOLERANCE : f64 := Eval vm_compute in f64_lit 1 10000000000.
Definition NORM_TOLERANCE : f64 := Eval vm_compute in f64_lit 1 1000000000000000.
Definition PIVOT_TOLERANCE : f64 := Eval vm_compute in f64_lit 1 100000000000000.
Definition RG_TRAJECTORY_DEPTH : nat := 3.

(** [Result::ok] *)
Definition result_ok {E A} (r : Result E A) : option A := match r with Ok a => Some a | Err _ => None end.

Record SpectralAnalysis := mkSpectral {
  sa_node_count : nat;
  sa_edge_count : nat;
  sa_connected_components : nat;
  sa_is_connected : bool;
  sa_lambda_2 : f64;
  sa_spectral_gap : option f64;
  sa_max_degree : nat;
  sa_min_removed_deg : nat;
  sa_signal_range : f64;
  sa_cv_exact : option string;
  sa_cv_bound : option f64;
  sa_capacity : option f64;
  sa_capacity_saturated : option bool;
  sa_c_star : option string;
  sa_c_star_delta : f64;
  sa_swc : option bool;
  sa_rg_trajectory : option (list (string * string));
  sa_localizability_bound : option f64;
  sa_cv_times_localizability : option f64;
}.

Definition capacity_saturated_at (analysis : SpectralAnalysis) (epsilon : f64) : bool :=
  f64_is_finite epsilon && f64_leb f64_zero epsilon
  && match sa_capacity analysis with Some value => f64_leb epsilon value | None => false end.

(* ------------------------------------------------------------------ *)
(** ** Adjacency *)

Definition edge_weight (edge : GovernanceEdge) : f64 :=
  match transform edge with
  | PassThrough => f64_one
  | ClaimModification delta => f64_max (f64_abs delta) f64_one
  end.

Definition connect (node_ids : list NodeId) (adjacency : Matrix) (edge : GovernanceEdge) : Matrix :=
  match node_index node_ids (from edge), node_index node_ids (to edge) with
  | Some i, Some j => mset j i (edge_weight edge) (mset i j (edge_weight edge) adjacency)
  | _, _ => adjacency
  end.

Definition weighted_adjacency (graph : GovernanceGraph) : Matrix :=
  let node_ids := btree_keys (nodes graph) in
  foldl (connect node_ids) (zeros (length node_ids)) (edges graph).

Definition positive_count (row : list f64) : nat := length (filter (λ w, f64_ltb f64_zero w = true) row).

(** The number of positive entries off column [k]. *)
Definition removed_degree (row : list f64) (k : nat) : nat :=
  length (filter (λ jw : nat * f64, jw.1 ≠ k ∧ f64_ltb f64_zero jw.2 = true) (enumerate row)).

(** The minimum of the values, [None] for the initial [usize::MAX]. *)
Definition least (l : list nat) : option nat :=
  foldl (λ best x, Some (match best with Some b => Nat.min b x | None => x end)) None l.

Definition min_removed_degree (adjacency : Matrix) : nat :=
  default 0 (least (row ← adjacency; removed_degree row <$> seq 0 (length adjacency))).

Definition max_degree_of (adjacency : Matrix) : nat := foldl Nat.max 0 (positive_count <$> adjacency).

Definition weighted_laplacian (adjacency : Matrix) : Matrix :=
  laplacian_row adjacency <$> seq 0 (length adjacency).

Definition strength_range (claims : list GovernanceClaim) : f64 :=
  match claims with
  | [] => f64_zero
  | _ :: _ =>
      let strengths := gc_strength <$> claims in
      f64_sub (foldl f64_max f64_neg_infinity strengths) (foldl f64_min f64_infinity strengths)
  end.

(* ------------------------------------------------------------------ *)
(** ** Components *)

Definition connected_component_count (adjacency : Matrix) : option nat :=
  component_count (length adjacency) (λ i j, f64_ltb f64_zero (mget adjacency i j)).

Definition connected_component_count_from_laplacian (laplacian : Matrix) : option nat :=
  component_count (length laplacian) (λ i j, f64_ltb CONNECTED_TOLERANCE (f64_abs (mget laplacian i j))).

(* ------------------------------------------------------------------ *)
(** ** Linear algebra *)

Definition trace (matrix : Matrix) (n : nat) : f64 := f64_sum ((λ i, mget matrix i i) <$> seq 0 n).

Definition dot (a b : list f64) : f64 := f64_sum (zip_with f64_mul a b).

Definition l2_norm (v : list f64) : f64 := f64_sqrt (f64_sum ((λ x, f64_mul x x) <$> v)).

Definition normalize (v : list f64) : list f64 :=
  let norm := l2_norm v in
  if f64_ltb NORM_TOLERANCE norm then (λ x, f64_div x norm) <$> v else v.

Definition vget (v : list f64) (i : nat) : f64 := default f64_zero (v !! i).

Definition mat_vec (m : Matrix) (v : list f64) (n : nat) : list f64 :=
  (λ i, foldl (λ acc j, f64_add acc (f64_mul (mget m i j) (vget v j))) f64_zero (seq 0 n)) <$> seq 0 n.

Definition swap {A} (i j : nat) (l : list A) : list A :=
  match l !! i, l !! j with
  | Some x, Some y => <[i := y]> (<[j := x]> l)
  | _, _ => l
  end.

(** The row of the largest entry of column [k] from row [k] on. *)
Definition pivot_row (lu : Matrix) (k n : nat) : f64 * nat :=
  foldl (λ '(max_val, max_row) i,
    if f64_ltb max_val (f64_abs (mget lu i k)) then (f64_abs (mget lu i k), i) else (max_val, max_row))
    (f64_abs (mget lu k k), k) (seq (S k) (n - S k)).

Definition eliminate_entry (k i : nat) (lu : Matrix) (j : nat) : Matrix :=
  mset i j (f64_sub (mget lu i j) (f64_mul (mget lu i k) (mget lu k j))) lu.

Definition eliminate_row (k n : nat) (lu : Matrix) (i : nat) : Matrix :=
  foldl (eliminate_entry k i) (mset i k (f64_div (mget lu i k) (mget lu k k)) lu) (seq (S k) (n - S k)).

Definition lu_step (n : nat) (st : option (Matrix * list nat)) (k : nat) : option (Matrix * list nat) :=
  '(lu, pivots) ← st;
  let '(max_val, max_row) := pivot_row lu k n in
  if f64_ltb max_val PIVOT_TOLERANCE then None
  else
    let '(lu, pivots) := if decide (max_row = k) then (lu, pivots)
                         else (swap k max_row lu, swap k max_row pivots) in
    Some (foldl (eliminate_row k n) lu (seq (S k) (n - S k)), pivots).

Definition lu_decompose (matrix : Matrix) (n : nat) : option (Matrix * list nat) :=
  foldl (lu_step n) (Some (matrix, seq 0 n)) (seq 0 n).

Definition subtract_solved (lu : Matrix) (i : nat) (pb : list f64) (j : nat) : list f64 :=
  <[i := f64_sub (vget pb i) (f64_mul (mget lu i j) (vget pb j))]> pb.

Definition forward_row (lu : Matrix) (pb : list f64) (i : nat) : list f64 :=
  foldl (subtract_solved lu i) pb (seq 0 i).

Definition back_row (lu : Matrix) (n : nat) (pb : list f64) (i : nat) : list f64 :=
  let pb := foldl (subtract_solved lu i) pb (seq (S i) (n - S i)) in
  <[i := f64_div (vget pb i) (mget lu i i)]> pb.

Definition lu_solve (lu : Matrix) (pivots : list nat) (b : list f64) (n : nat) : list f64 :=
  let pb := (λ i, vget b (default 0 (pivots !! i))) <$> seq 0 n in
  let pb := foldl (forward_row lu) pb (seq 1 (n - 1)) in
  foldl (back_row lu n) pb (reverse (seq 0 n)).

(** [1.0] at even and [-1.0] at odd indices, normalized. *)
Definition alternating (n : nat) : list f64 :=
  normalize ((λ i, if Nat.even i then f64_one else f64_neg f64_one) <$> seq 0 n).

(** [for _iter in 0..iterations] of the inverse iteration. *)
Fixpoint inverse_iteration (iterations : nat) (lu : Matrix) (pivots : list nat) (inv_n : f64) (n : nat)
    (x : list f64) : list f64 :=
  match iterations with
  | O => x
  | S iterations =>
      let y := lu_solve lu pivots x n in
      let proj := f64_mul (dot y (replicate n (f64_sqrt inv_n))) (f64_sqrt inv_n) in
      let deflected := (λ item, f64_sub item proj) <$> y in
      let norm := l2_norm deflected in
      if f64_ltb norm NORM_TOLERANCE then x
      else inverse_iteration iterations lu pivots inv_n n ((λ di, f64_div di norm) <$> deflected)
  end.

Definition deflate (ones : list f64) (inv_sqrt_n : f64) (y : list f64) : list f64 :=
  let proj := dot y ones in
  normalize ((λ yi, f64_sub yi (f64_mul proj inv_sqrt_n)) <$> y).

Fixpoint power_iteration (iterations : nat) (laplacian : Matrix) (n : nat) (ones : list f64)
    (inv_sqrt_n : f64) (x : list f64) : list f64 :=
  match iterations with
  | O => x
  | S iterations =>
      power_iteration iterations laplacian n ones inv_sqrt_n
        (deflate ones inv_sqrt_n (deflate ones inv_sqrt_n (mat_vec laplacian x n)))
  end.

Definition rayleigh_quotient_fallback (laplacian : Matrix) (n : nat) : f64 :=
  let inv_sqrt_n := f64_div f64_one (f64_sqrt (f64_of_nat n)) in
  let x := power_iteration 500 laplacian n (replicate n inv_sqrt_n) inv_sqrt_n (alternating n) in
  f64_max (f64_div (dot x (mat_vec laplacian x n)) (dot x x)) f64_zero.

Definition shift_matrix (laplacian : Matrix) (shift inv_n : f64) (n : nat) : Matrix :=
  (λ i, (λ j, f64_add (mget laplacian i j) (f64_mul shift inv_n)) <$> seq 0 n) <$> seq 0 n.

Definition fiedler_eigenvalue (laplacian : Matrix) (n : nat) : option f64 :=
  if bool_decide (n ≤ 1) then Some f64_zero
  else if bool_decide (n = 2) then Some (f64_add (mget laplacian 0 0) (mget laplacian 1 1))
  else
    count ← connected_component_count_from_laplacian laplacian;
    if bool_decide (1 < count) then Some f64_zero
    else
      let shift := trace laplacian n in
      if f64_ltb shift CONNECTED_TOLERANCE then Some f64_zero
      else
        let inv_n := f64_div f64_one (f64_of_nat n) in
        match lu_decompose (shift_matrix laplacian shift inv_n n) n with
        | None => Some (rayleigh_quotient_fallback laplacian n)
        | Some (lu, pivots) =>
            let x := inverse_iteration 200 lu pivots inv_n n (alternating n) in
            let denominator := dot x x in
            if f64_ltb denominator NORM_TOLERANCE then Some f64_zero
            else Some (f64_max (f64_div (dot x (mat_vec laplacian x n)) denominator) f64_zero)
        end.

(* ------------------------------------------------------------------ *)
(** ** The report *)

Section report.
Context `{RegexEngine, RationalOps}.

Record PaperDiagnostics := mkPaper {
  pd_signal_dimension : nat;
  pd_connected_components : nat;
  pd_lambda_2 : f64;
  pd_cv : Rational;
  pd_c_star : option Rational;
  pd_s_delta : f64;
  pd_spectral_well_connected : bool;
  pd_normalized_lambda_2 : f64;
  pd_delta : f64;
}.

Definition probe_signal (graph : GovernanceGraph) : list Rational :=
  (λ index, rat_of_int (Z.of_nat index + 1)) <$> seq 0 (size (nodes graph)).

Definition format_rational_exact (value : Rational) : string :=
  pretty (rat_numer value) +:+ "/" +:+ pretty (rat_denom value).

(** The option is a panic of the exact arithmetic, the result that of the source. *)
Definition paper_diagnostics (graph : GovernanceGraph) (delta : f64) : option (LResult PaperDiagnostics) :=
  if negb (f64_is_finite delta) || f64_leb delta f64_zero
  then Some (Err (invalid_input [Txt "--delta must be finite and positive, got "; Num delta]))
  else
    let signal := probe_signal graph in
    weights ← exact_weights graph;
    cv ← cv graph signal;
    match rat_approximate_float delta with
    | None => Some (Err (invalid_input [Txt "failed to represent --delta as a rational"]))
    | Some delta =>
        let lambda_2 := exact_spectral_gap weights in
        match exact_component_count weights with
        | None => Some (Err out_of_fuel)
        | Some connected_components =>
            critical ← (if rat_ltb rat_zero cv && f64_ltb CONNECTED_TOLERANCE lambda_2
                        then critical ← c_star graph signal delta; Some (Some critical) else Some None);
            well_connected ← spectral_well_connected graph signal;
            Some (Ok (mkPaper (length signal) connected_components lambda_2 cv critical
                        (f64_mul lambda_2 (ratio_to_f64 cv)) well_connected
                        (normalized_spectral_gap weights) (ratio_to_f64 delta)))
        end
    end.

(** The pairs of the trajectory, for [k] from 1 to 3. *)
Definition report_trajectory (graph : GovernanceGraph) : option (list (string * string)) :=
  delta ← rat_new 1 10;
  mapM (λ step,
    '(cv, c_star) ← rg_trajectory graph (probe_signal graph) delta step;
    Some (format_rational_exact cv, format_rational_exact c_star)) (seq 1 RG_TRAJECTORY_DEPTH).

(** A panic of the exact arithmetic, as the error of the model. *)
Definition overflowed : LegitimacyError := panicked "attempt to compute an exact rational with overflow".

(** The report of a graph of fewer than two nodes. *)
Definition small_analysis (n edge_count components : nat) (connected : bool) (max_degree min_removed : nat)
    (range : f64) : SpectralAnalysis :=
  mkSpectral n edge_count components connected f64_zero None max_degree min_removed range
    None None None None None CAPACITY_SATURATION_EPSILON None None None None.

Definition spectral_analysis (graph : GovernanceGraph) (claims : list GovernanceClaim)
    : LResult SpectralAnalysis :=
  let n := size (nodes graph) in
  if bool_decide (n = 0) then Ok (small_analysis 0 0 0 false 0 0 f64_zero)
  else
    let adjacency := weighted_adjacency graph in
    let max_degree := max_degree_of adjacency in
    let min_removed_deg := min_removed_degree adjacency in
    let laplacian := weighted_laplacian adjacency in
    let signal_range := strength_range claims in
    if bool_decide (n = 1)
    then Ok (small_analysis 1 (length (edges graph)) 1 true max_degree min_removed_deg signal_range)
    else
      connected_components ← ok_or (connected_component_count adjacency) out_of_fuel;
      lambda_2 ← ok_or (fiedler_eigenvalue laplacian n) out_of_fuel;
      let is_connected := bool_decide (connected_components = 1) && f64_ltb CONNECTED_TOLERANCE lambda_2 in
      let spectral_gap := if is_connected then Some lambda_2 else None in
      let cv_bound :=
        gap ← spectral_gap;
        if f64_ltb CONNECTED_TOLERANCE gap && bool_decide (0 < max_degree)
        then Some (f64_div (f64_mul signal_range (f64_of_nat max_degree)) gap) else None in
      let capacity :=
        if bool_decide (0 < min_removed_deg) && bool_decide (0 < max_degree)
        then Some (f64_div (f64_mul signal_range (f64_of_nat max_degree)) (f64_of_nat min_removed_deg))
        else None in
      let localizability_bound :=
        cv ← cv_bound;
        if f64_ltb CONNECTED_TOLERANCE cv then Some (f64_div f64_one (f64_mul (f64_of_nat 2) cv)) else None in
      let cv_times_localizability := cv ← cv_bound; loc ← localizability_bound; Some (f64_mul cv loc) in
      let capacity_saturated :=
        (λ value, f64_is_finite CAPACITY_SATURATION_EPSILON && f64_leb f64_zero CAPACITY_SATURATION_EPSILON
                  && f64_leb CAPACITY_SATURATION_EPSILON value) <$> capacity in
      diagnostics ← ok_or (paper_diagnostics graph CAPACITY_SATURATION_EPSILON) overflowed;
      let diagnostics := result_ok diagnostics in
      rg_trajectory ← (if is_connected then pairs ← ok_or (report_trajectory graph) overflowed; Ok (Some pairs)
                       else Ok None);
      Ok (mkSpectral n (length (edges graph)) connected_components is_connected lambda_2 spectral_gap
            max_degree min_removed_deg signal_range
            (format_rational_exact <$> (pd_cv <$> diagnostics)) cv_bound capacity capacity_saturated
            (format_rational_exact <$> (diagnostics ≫= pd_c_star))
            (from_option pd_delta CAPACITY_SATURATION_EPSILON diagnostics)
            (pd_spectral_well_connected <$> diagnostics) rg_trajectory localizability_bound
            cv_times_localizability).
End report.

(* ------------------------------------------------------------------ *)
(** ** The component count is exact *)

Section component_facts.
Context (n : nat) (linked : nat → nat → bool).

Definition link (i j : nat) : Prop := i < n ∧ j < n ∧ i ≠ j ∧ linked i j = true.

Lemma visit_neighbors_spec node V S l :
  let '(V', S') := foldl (visit_neighbor linked node) (V, S) l in
  size V' + length S = size V + length S' ∧
  (∀ i, i ∈ V' ↔ i ∈ V ∨ (i ∈ l ∧ i ≠ node ∧ linked node i = true)) ∧
  (∀ i, i ∈ S' ↔ i ∈ S ∨ (i ∈ V' ∧ i ∉ V)).
Proof.
  revert V S. induction l as [|j l IH]; intros V S; simpl; [split_and!; [done|set_solver..]|].
  destruct (negb _ && linked node j && negb _) eqn:Hc.
  - apply andb_true_iff in Hc as [[Hj Hl]%andb_true_iff Hv].
    apply negb_true_iff, bool_decide_eq_false in Hj. apply negb_true_iff, bool_decide_eq_false in Hv.
    specialize (IH ({[j]} ∪ V) (j :: S)). destruct (foldl _ _ _) as [V' S'].
    destruct IH as (Hsz & HV & HS). rewrite size_union, size_singleton in Hsz by set_solver. simpl in Hsz.
    split_and!; [lia| |].
    + intros i. rewrite HV. set_solver.
    + intros i. rewrite HS, elem_of_cons, HV. destruct (decide (i = j)) as [->|]; set_solver.
  - specialize (IH V S). destruct (foldl _ _ _) as [V' S']. destruct IH as (Hsz & HV & HS).
    split_and!; [done| |done]. intros i. rewrite HV, elem_of_cons.
    split; [intros [?|(? & ? & ?)]; auto|]. intros [?|([->|?] & Hne & Hlk)]; [by left| |by right].
    left. rewrite Hlk, (bool_decide_false _ Hne) in Hc. simpl in Hc.
    by apply negb_false_iff, bool_decide_eq_true in Hc.
Qed.

Lemma explore_spec fuel V S :
  (∀ i, i ∈ S → i ∈ V) → (∀ i, i ∈ V → i < n) →
  (∀ i j, i ∈ V → link i j → j ∈ V ∨ i ∈ S) →
  length S + n ≤ fuel + size V →
  ∃ V', explore n linked fuel V S = Some V' ∧ V ⊆ V' ∧ (∀ i, i ∈ V' → i < n) ∧
    (∀ i j, i ∈ V' → link i j → j ∈ V') ∧
    (∀ i, i ∈ V' → i ∈ V ∨ ∃ s, s ∈ S ∧ rtc link s i).
Proof.
  assert (∀ V : gset nat, (∀ i, i ∈ V → i < n) → size V ≤ n) as Hsize.
  { intros X HX. rewrite <-(length_seq n 0), <-(size_list_to_set (C := gset nat)) by apply NoDup_seq.
    apply subseteq_size. intros i Hi. rewrite elem_of_list_to_set, elem_of_seq. specialize (HX i Hi). lia. }
  revert V S. induction fuel as [|fuel IH]; intros V [|node S] HS HV Hfr Hfuel; simpl in *.
  - exists V. split_and!; [done..| |by left]. intros i j Hi Hl. destruct (Hfr i j Hi Hl) as [|[]%elem_of_nil]; done.
  - specialize (Hsize V HV). lia.
  - exists V. split_and!; [done..| |by left]. intros i j Hi Hl. destruct (Hfr i j Hi Hl) as [|[]%elem_of_nil]; done.
  - pose proof (visit_neighbors_spec node V S (seq 0 n)) as Hvis.
    destruct (foldl _ _ _) as [V' S']. destruct Hvis as (Hsz & HV' & HS').
    assert (node ∈ V) as Hnode by (apply HS; left).
    destruct (IH V' S') as (W & HW & Hsub & Hlt & Hcl & Hre).
    + intros i Hi. apply HS' in Hi as [Hi|[? _]]; [|done]. apply HV'. left. apply HS. by right.
    + intros i [Hi|(Hi%elem_of_seq & _)]%HV'; [by apply HV|lia].
    + intros i j Hi Hl. destruct (decide (i = node)) as [->|Hne].
      { left. apply HV'. right. destruct Hl as (_ & ? & ? & ?). rewrite elem_of_seq. split_and!; [lia..|done|done]. }
      apply HV' in Hi as [Hi|Hi].
      * destruct (Hfr i j Hi Hl) as [Hj|[->|HiS]%elem_of_cons]; [left; apply HV'; by left|done|].
        right. apply HS'. by left.
      * destruct (decide (i ∈ V)) as [HiV|HiV].
        -- destruct (Hfr i j HiV Hl) as [Hj|[->|HiS]%elem_of_cons]; [left; apply HV'; by left|done|].
           right. apply HS'. by left.
        -- right. apply HS'. right. split; [apply HV'; by right|done].
    + lia.
    + exists W. split_and!; [done| |done..|].
      * intros i Hi. apply Hsub, HV'. by left.
      * intros i Hi. destruct (Hre i Hi) as [[Hi'|(Hi' & Hne & Hl)]%HV'|(s & Hs & Hr)].
        -- by left.
        -- right. exists node. split; [left|]. apply rtc_once. apply elem_of_seq in Hi'.
           split_and!; [by apply HV|lia|done|done].
        -- right. apply HS' in Hs as [Hs|[Hs1 Hs2]]; [exists s; split; [by right|done]|].
           exists node. split; [left|]. eapply rtc_l; [|exact Hr].
           apply HV' in Hs1 as [|(Hs1%elem_of_seq & ? & ?)]; [done|]. split_and!; [by apply HV|lia|done|done].
Qed.

Context (Hsym : ∀ i j, linked i j = true → linked j i = true).

Lemma link_sym i j : link i j → link j i.
Proof using Hsym. intros (? & ? & ? & ?). split_and!; try done. by apply Hsym. Qed.

Lemma rtc_link_sym i j : rtc link i j → rtc link j i.
Proof using Hsym. induction 1; [done|]. eapply rtc_r; [done|]. by apply link_sym. Qed.

(** Every index is connected to exactly one of the representatives. *)
Definition represented_by (reps : list nat) (V : gset nat) : Prop :=
  NoDup reps ∧ (∀ r, r ∈ reps → r ∈ V) ∧ (∀ i, i ∈ V → ∃ r, r ∈ reps ∧ rtc link r i) ∧
  (∀ r r', r ∈ reps → r' ∈ reps → rtc link r r' → r = r').

Lemma component_count_spec :
  ∃ reps, component_count n linked = Some (length reps) ∧ represented_by reps (set_seq 0 n).
Proof using Hsym.
  unfold component_count.
  enough (∀ l, (∀ i, i ∈ l → i < n) → ∃ V reps, foldl (count_start n linked) (Some (∅, 0)) l = Some (V, length reps) ∧
    (∀ i, i ∈ V → i < n) ∧ (∀ i j, i ∈ V → link i j → j ∈ V) ∧ (∀ i, i ∈ l → i ∈ V) ∧ represented_by reps V) as Hgo.
  { destruct (Hgo (seq 0 n)) as (V & reps & Hf & HV & _ & Hl & Hr); [intros i ?%elem_of_seq; lia|].
    exists reps. rewrite Hf. split; [done|]. replace (set_seq 0 n) with V; [done|].
    apply set_eq. intros i. rewrite elem_of_set_seq. split; [intros ?%HV; lia|].
    intros Hi. apply Hl, elem_of_seq. lia. }
  induction l as [|s l IH] using rev_ind; intros Hl.
  - exists ∅, []. split; [done|]. split; [by intros ? ?%elem_of_empty|]. split; [by intros ? ? ?%elem_of_empty|].
    split; [by intros ? ?%elem_of_nil|]. split; [constructor|]. split; [by intros ? ?%elem_of_nil|].
    split; [by intros ? ?%elem_of_empty|by intros ? ? ?%elem_of_nil].
  - destruct IH as (V & reps & Hf & HV & Hcl & Hin & Hnd & Hsub & Hrep & Hpair); [set_solver|].
    rewrite foldl_app, Hf. simpl. case_decide as Hs.
    { exists V, reps. split; [done|]. split; [done|]. split; [done|]. split; [|by split_and!].
      intros i [Hi| ->%list_elem_of_singleton]%elem_of_app; auto. }
    destruct (explore_spec n ({[s]} ∪ V) [s]) as (W & HW & HsubW & Hlt & HclW & Hre).
    + set_solver.
    + intros i [->%elem_of_singleton|?]%elem_of_union; [apply Hl; set_solver|by apply HV].
    + intros i j [->%elem_of_singleton|Hi]%elem_of_union Hij; [right; left|left]. apply elem_of_union. right. by eapply Hcl.
    + rewrite size_union, size_singleton by set_solver. simpl. lia.
    + rewrite HW. simpl. exists W, (s :: reps). split; [done|]. split; [done|]. split; [done|]. split.
      * intros i [Hi| ->%list_elem_of_singleton]%elem_of_app; apply HsubW; set_solver.
      * assert (∀ r, r ∈ reps → ¬ rtc link r s) as Hsep.
        { intros r Hr Hrs. apply Hs. apply Hsub in Hr. clear -Hcl Hr Hrs. induction Hrs; [done|]. eauto. }
        split_and!.
        -- apply NoDup_cons. split; [|done]. intros Hsr. by apply Hs, Hsub.
        -- intros r [->|Hr]%elem_of_cons; apply HsubW; set_solver.
        -- intros i Hi. destruct (Hre i Hi) as [[->%elem_of_singleton|Hi']%elem_of_union|(s' & ->%list_elem_of_singleton & Hr)].
           ++ exists s. split; [left|done].
           ++ destruct (Hrep i Hi') as (r & ? & ?). exists r. split; [by right|done].
           ++ exists s. split; [left|done].
        -- intros r r' [->|Hr]%elem_of_cons [->|Hr']%elem_of_cons Hrr; [done| | |by apply Hpair].
           ++ apply rtc_link_sym in Hrr. by destruct (Hsep r').
           ++ by destruct (Hsep r).
Qed.
End component_facts.

(* ------------------------------------------------------------------ *)
(** ** From the adjacency to the graph *)

Lemma shaped_connect n node_ids m e : shaped n m → shaped n (connect node_ids m e).
Proof. intros Hm. unfold connect. repeat case_match; auto using shaped_mset. Qed.

Lemma shaped_adjacency g : shaped (size (nodes g)) (weighted_adjacency g).
Proof.
  unfold weighted_adjacency. rewrite length_btree_keys.
  apply shaped_foldl; [intros m e; apply shaped_connect|apply shaped_zeros].
Qed.

Lemma mget_mset n m i j v i' j' :
  shaped n m → i < n → j < n →
  mget (mset i j v m) i' j' = if decide (i = i' ∧ j = j') then v else mget m i' j'.
Proof.
  intros [Hl Hr] Hi Hj. unfold mget, mset. destruct (lookup_lt_is_Some_2 m i ltac:(lia)) as [row Hrow].
  destruct (decide (i = i')) as [<-|Hne].
  - rewrite list_lookup_alter_eq, Hrow. simpl. rewrite Forall_lookup in Hr. specialize (Hr i row Hrow).
    destruct (decide (j = j')) as [<-|Hne].
    + rewrite list_lookup_insert_eq by lia. by rewrite decide_True.
    + rewrite list_lookup_insert_ne by done. by rewrite decide_False by tauto.
  - rewrite list_lookup_alter_ne by done. by rewrite decide_False by tauto.
Qed.

Lemma edge_weight_positive e : f64_ltb f64_zero (edge_weight e) = true.
Proof.
  unfold edge_weight. destruct (transform e) as [|delta]; [vm_compute; reflexivity|].
  destruct delta as [s|s| |s m ex]; [vm_compute; reflexivity..|].
  cbn [f64_abs SpecFloat.SFabs]. unfold f64_max. cbn [f64_is_nan].
  by case_match; [vm_compute|destruct (f64_ltb _ f64_one)].
Qed.

Section graph_components.
Context (g : GovernanceGraph) (Hwf : graph_wf g).

Abbreviation ids := (btree_keys (nodes g)).
Abbreviation count := (size (nodes g)).

(** Some edge joins the nodes at the two indices. *)
Definition joined (es : list GovernanceEdge) (i j : nat) : Prop :=
  ∃ e, e ∈ es ∧ ((ids !! i = Some (from e) ∧ ids !! j = Some (to e)) ∨
                 (ids !! i = Some (to e) ∧ ids !! j = Some (from e))).

Lemma adjacency_joined i j :
  i < count → j < count →
  f64_ltb f64_zero (mget (weighted_adjacency g) i j) = true ↔ joined (edges g) i j.
Proof using Hwf.
  intros Hi Hj. unfold weighted_adjacency. rewrite length_btree_keys. destruct Hwf as [_ Hes]. revert Hes.
  enough (∀ es, (∀ e, e ∈ es → is_Some (nodes g !! from e) ∧ is_Some (nodes g !! to e)) →
    shaped count (foldl (connect ids) (zeros count) es) ∧
    (f64_ltb f64_zero (mget (foldl (connect ids) (zeros count) es) i j) = true ↔ joined es i j)) as Hgo
    by (intros Hes; by apply Hgo).
  induction es as [|e es IH] using rev_ind; intros Hes.
  - split; [apply shaped_zeros|]. simpl. unfold zeros, mget.
    rewrite lookup_replicate_2 by done. simpl. rewrite lookup_replicate_2 by done. simpl.
    split; [by vm_compute|]. by intros (e & ?%elem_of_nil & _).
  - destruct IH as [Hsh IH]; [intros; apply Hes; set_solver|]. rewrite foldl_app. cbn [foldl].
    split; [by apply shaped_connect|].
    destruct (Hes e) as [[nf Hf] [nt Ht]]; [set_solver|].
    assert (from e ∈ ids) as [a Ha]%list_elem_of_lookup by (apply elem_of_btree_keys; eauto).
    assert (to e ∈ ids) as [b Hb]%list_elem_of_lookup by (apply elem_of_btree_keys; eauto).
    pose proof (lookup_lt_Some _ _ _ Ha) as Hla. pose proof (lookup_lt_Some _ _ _ Hb) as Hlb.
    rewrite length_btree_keys in Hla, Hlb. unfold connect.
    rewrite (proj2 (node_index_lookup _ _ a (NoDup_btree_keys _)) Ha),
      (proj2 (node_index_lookup _ _ b (NoDup_btree_keys _)) Hb).
    rewrite !(mget_mset count) by auto using shaped_mset.
    assert (joined (es ++ [e]) i j ↔ joined es i j ∨ (a = i ∧ b = j) ∨ (b = i ∧ a = j)) as ->.
    { assert (∀ k k' x, ids !! k = Some x → ids !! k' = Some x → k = k') as Hinj
        by (intros k k' x; apply NoDup_lookup, NoDup_btree_keys).
      unfold joined. split.
      - intros (e' & [He| ->%list_elem_of_singleton]%elem_of_app & Hor); [left; eauto|right].
        destruct Hor as [[H1 H2]|[H1 H2]]; [left|right]; split; by eapply Hinj.
      - intros [(e' & He & Hor)|[[-> ->]|[-> ->]]]; [exists e'; set_solver|exists e..]; (split; [set_solver|auto]). }
    destruct (decide (b = i ∧ a = j)) as [|H1]; [rewrite edge_weight_positive; tauto|].
    destruct (decide (a = i ∧ b = j)) as [|H2]; [rewrite edge_weight_positive; tauto|]. rewrite IH. tauto.
Qed.

(** Connected by edges in either direction. *)
Definition weakly_connected : relation NodeId := rtc (λ u v, edge_rel g u v ∨ edge_rel g v u).

Definition adjacent (i j : nat) : bool := f64_ltb f64_zero (mget (weighted_adjacency g) i j).

Lemma joined_edge i j u v :
  ids !! i = Some u → ids !! j = Some v → joined (edges g) i j ↔ edge_rel g u v ∨ edge_rel g v u.
Proof using Type.
  intros Hi Hj. unfold joined, edge_rel. rewrite !elem_of_successors, Hi, Hj. naive_solver.
Qed.

Lemma adjacent_out i j : ¬ (i < count ∧ j < count) → adjacent i j = false.
Proof using Type.
  intros Hout. unfold adjacent, mget. destruct (shaped_adjacency g) as [Hl Hr].
  destruct (weighted_adjacency g !! i) as [row|] eqn:Hi; [|done]. simpl.
  pose proof (lookup_lt_Some _ _ _ Hi). rewrite Forall_lookup in Hr. specialize (Hr i row Hi).
  rewrite lookup_ge_None_2; [done|]. rewrite Hr. lia.
Qed.

Lemma adjacent_sym i j : adjacent i j = true → adjacent j i = true.
Proof using Hwf.
  intros Ha. destruct (decide (i < count ∧ j < count)) as [[Hi Hj]|Hn]; [|by rewrite adjacent_out in Ha].
  apply adjacency_joined in Ha as (e & He & Hor); [|done..].
  apply adjacency_joined; [done..|]. exists e. tauto.
Qed.

Lemma weakly_link i j u v :
  ids !! i = Some u → ids !! j = Some v → rtc (link count adjacent) i j ↔ weakly_connected u v.
Proof using Hwf.
  intros Hi Hj. split.
  - intros Hr. revert u v Hi Hj. induction Hr as [i|i k j (Hik & Hk & Hne & Ha) Hr IH]; intros u v Hi Hj.
    + rewrite Hi in Hj. injection Hj as ->. done.
    + destruct (lookup_lt_is_Some_2 ids k) as [w Hw]; [by rewrite length_btree_keys|].
      apply adjacency_joined in Ha; [|done..]. apply (joined_edge i k u w Hi Hw) in Ha.
      eapply rtc_l; [exact Ha|]. by apply IH.
  - intros Hr. revert i Hi. induction Hr as [u|u w v Huw Hr IH]; intros i Hi.
    + assert (i = j) as ->; [|done]. eapply NoDup_lookup; [apply (NoDup_btree_keys (nodes g))|done..].
    + assert (w ∈ ids) as [k Hk]%list_elem_of_lookup.
      { apply elem_of_btree_keys.
        destruct Huw as [(e & He & _ & <-)%elem_of_successors|(e & He & <- & _)%elem_of_successors];
          by apply (graph_wf_edges g Hwf). }
      destruct (decide (i = k)) as [->|Hne]; [by apply IH|].
      eapply rtc_l; [|by apply IH].
      pose proof (lookup_lt_Some _ _ _ Hi) as Hl1. pose proof (lookup_lt_Some _ _ _ Hk) as Hl2.
      rewrite length_btree_keys in Hl1, Hl2. split_and!; [done..|].
      apply adjacency_joined; [done..|]. by apply (joined_edge i k u w).
Qed.

(** The components of the graph: a representative of each. *)
Definition components_by (reps : list NodeId) : Prop :=
  NoDup reps ∧ (∀ r, r ∈ reps → is_Some (nodes g !! r)) ∧
  (∀ v, is_Some (nodes g !! v) → ∃ r, r ∈ reps ∧ weakly_connected r v) ∧
  (∀ r r', r ∈ reps → r' ∈ reps → weakly_connected r r' → r = r').

Lemma graph_component_count :
  ∃ reps, connected_component_count (weighted_adjacency g) = Some (length reps) ∧ components_by reps.
Proof using Hwf.
  unfold connected_component_count. destruct (shaped_adjacency g) as [-> _].
  destruct (component_count_spec count adjacent adjacent_sym) as (reps & Hc & Hnd & Hin & Hrep & Hpair).
  fold adjacent in Hc. setoid_rewrite elem_of_set_seq in Hin. setoid_rewrite elem_of_set_seq in Hrep.
  exists (omap (λ i, ids !! i) reps).
  assert (∀ r, r ∈ reps → is_Some (ids !! r)) as Hsome.
  { intros r Hr. apply lookup_lt_is_Some_2. rewrite length_btree_keys. by apply Hin in Hr as [_ ?]. }
  split; [|unfold components_by; split_and!].
  - etransitivity; [exact Hc|]. f_equal. clear -Hsome. induction reps as [|r reps IH]; [done|]. simpl.
    destruct (Hsome r (list_elem_of_here _ _)) as [x Hx]. rewrite Hx. simpl. f_equal.
    apply IH. intros r' Hr'. apply Hsome. by right.
  - clear Hc Hin Hrep Hpair. induction reps as [|r reps IH]; [apply NoDup_nil_2|].
    apply NoDup_cons in Hnd as [Hr Hnd]. destruct (Hsome r (list_elem_of_here _ _)) as [x Hx]. simpl. rewrite Hx.
    apply NoDup_cons. split; [|apply IH; [done|intros r' Hr'; apply Hsome; by right]].
    intros (r' & Hr' & Hx')%list_elem_of_omap. destruct Hr.
    assert (r = r') as ->; [|done]. eapply NoDup_lookup; [apply (NoDup_btree_keys (nodes g))|done..].
  - intros v (i & Hi & Hv)%list_elem_of_omap. apply elem_of_btree_keys. by eapply list_elem_of_lookup_2.
  - intros v [i Hi]%elem_of_btree_keys%list_elem_of_lookup.
    destruct (Hrep i) as (r & Hr & Hlink).
    { pose proof (lookup_lt_Some _ _ _ Hi) as Hl. rewrite length_btree_keys in Hl. lia. }
    destruct (Hsome r Hr) as [u Hu]. exists u. split; [apply list_elem_of_omap; eauto|]. by eapply weakly_link.
  - intros u v (i & Hi & Hu)%list_elem_of_omap (j & Hj & Hv)%list_elem_of_omap Hw.
    apply (weakly_link i j u v Hu Hv) in Hw. apply Hpair in Hw as ->; [congruence|done..].
Qed.
End graph_components.

Lemma component_count_total n linked : ∃ count, component_count n linked = Some count.
Proof.
  unfold component_count.
  enough (∀ l, (∀ i, i ∈ l → i < n) → ∃ V count, foldl (count_start n linked) (Some (∅, 0)) l = Some (V, count) ∧
    (∀ i, i ∈ V → i < n) ∧ (∀ i j, i ∈ V → link n linked i j → j ∈ V)) as Hgo.
  { destruct (Hgo (seq 0 n)) as (V & count & Hf & _); [intros i ?%elem_of_seq; lia|].
    exists count. by rewrite Hf. }
  induction l as [|s l IH] using rev_ind; intros Hl.
  - exists ∅, 0. split; [done|]. split; [by intros ? ?%elem_of_empty|by intros ? ? ?%elem_of_empty].
  - destruct IH as (V & count & Hf & HV & Hcl); [set_solver|].
    rewrite foldl_app, Hf. simpl. case_decide as Hs; [eauto 10|].
    destruct (explore_spec n linked n ({[s]} ∪ V) [s]) as (W & HW & _ & Hlt & HclW & _).
    + set_solver.
    + intros i [->%elem_of_singleton|?]%elem_of_union; [apply Hl; set_solver|by apply HV].
    + intros i j [->%elem_of_singleton|Hi]%elem_of_union Hij; [right; left|left]. apply elem_of_union. right. by eapply Hcl.
    + rewrite size_union, size_singleton by set_solver. simpl. lia.
    + rewrite HW. simpl. eauto 10.
Qed.

Lemma fiedler_total laplacian n : ∃ lambda, fiedler_eigenvalue laplacian n = Some lambda.
Proof.
  unfold fiedler_eigenvalue. do 2 (case_bool_decide; [by eexists|]).
  destruct (component_count_total (length laplacian)
    (λ i j, f64_ltb CONNECTED_TOLERANCE (f64_abs (mget laplacian i j)))) as [count Hc].
  unfold connected_component_count_from_laplacian. rewrite Hc. cbn [mbind option_bind].
  case_bool_decide; [by eexists|]. destruct (f64_ltb _ _); [by eexists|]. destruct (lu_decompose _ _) as [[lu pivots]|]; [|by eexists].
  destruct (f64_ltb _ _); by eexists.
Qed.

(** A graph of one node is its own component, the empty graph has none. *)
Lemma few_components g n :
  size (nodes g) = n → n ≤ 1 → ∃ reps, length reps = n ∧ components_by g reps.
Proof.
  intros Hn Hle. exists (btree_keys (nodes g)). split; [by rewrite length_btree_keys|].
  unfold components_by. split_and!.
  - apply NoDup_btree_keys.
  - intros r. by rewrite elem_of_btree_keys.
  - intros v Hv. exists v. split; [by apply elem_of_btree_keys|done].
  - intros r r' [i Hi]%list_elem_of_lookup [j Hj]%list_elem_of_lookup _.
    pose proof (lookup_lt_Some _ _ _ Hi). pose proof (lookup_lt_Some _ _ _ Hj).
    rewrite length_btree_keys in *. assert (i = j) as -> by lia. congruence.
Qed.





(** What a report says of its graph. *)
Definition report_exact (g : GovernanceGraph) (analysis : SpectralAnalysis) : Prop :=
  sa_node_count analysis = size (nodes g) ∧
  (∃ reps, length reps = sa_connected_components analysis ∧ components_by g reps) ∧
  (sa_is_connected analysis = true →
    ∀ u v, is_Some (nodes g !! u) → is_Some (nodes g !! v) → weakly_connected g u v) ∧
  (∀ gap, sa_spectral_gap analysis = Some gap →
    sa_is_connected analysis = true ∧ 2 ≤ size (nodes g) ∧ gap = sa_lambda_2 analysis ∧
    f64_ltb CONNECTED_TOLERANCE gap = true).

Lemma one_component_connected g reps u v :
  components_by g reps → length reps = 1 → is_Some (nodes g !! u) → is_Some (nodes g !! v) →
  weakly_connected g u v.
Proof.
  destruct reps as [|r [|]]; try done. intros (_ & _ & Hrep & _) _ Hu Hv.
  destruct (Hrep u Hu) as (r1 & ->%list_elem_of_singleton & Hru).
  destruct (Hrep v Hv) as (r2 & ->%list_elem_of_singleton & Hrv).
  etransitivity; [|exact Hrv]. unfold weakly_connected in *. clear -Hru.
  induction Hru as [|a b c Hab _ IH]; [done|]. eapply rtc_r; [exact IH|]. tauto.
Qed.

Lemma spectral_analysis_cases `{RegexEngine, RationalOps} g cs :
  graph_wf g →
  match spectral_analysis g cs with
  | Ok analysis => report_exact g analysis
  | Err e => e = overflowed ∧ 2 ≤ size (nodes g) ∧
      (paper_diagnostics g CAPACITY_SATURATION_EPSILON = None ∨ report_trajectory g = None)
  end.
Proof.
  intros Hwf. unfold spectral_analysis, report_exact. case_bool_decide as Hz; [|case_bool_decide as H1].
  - cbn. split_and!; [done|by apply few_components; [|lia]|done|done].
  - cbn. destruct (few_components g 1 H1 ltac:(lia)) as (reps & Hl & Hr).
    split_and!; [done|by exists reps|by intros _ u v; eapply one_component_connected|done].
  - destruct (graph_component_count g Hwf) as (reps & -> & Hr). cbn [ok_or mbind Result_bind].
    destruct (fiedler_total (weighted_laplacian (weighted_adjacency g)) (size (nodes g))) as [lambda Hlam].
    rewrite Hlam. cbn [ok_or mbind Result_bind].
    destruct (paper_diagnostics g _) as [diagnostics|]; cbn [ok_or mbind Result_bind];
      [|split_and!; [done|lia|by left]].
    destruct (bool_decide (length reps = 1) && f64_ltb CONNECTED_TOLERANCE lambda) eqn:Hc.
    + apply andb_true_iff in Hc as [Hone%bool_decide_eq_true Hgap].
      destruct (report_trajectory g) as [pairs|]; cbn [ok_or mbind Result_bind];
        [|split_and!; [done|lia|by right]].
      cbn. split_and!; [done|by exists reps| |].
      * intros _ u v. by eapply one_component_connected.
      * intros gap [= <-]. split_and!; [done|lia|done..].
    + cbn [mbind Result_bind]. cbn. split_and!; [done|by exists reps|done|done].
Qed.

Lemma spectral_analysis_inv `{RegexEngine, RationalOps} g cs analysis :
  graph_wf g → spectral_analysis g cs = Ok analysis → report_exact g analysis.
Proof. intros Hwf Hs. pose proof (spectral_analysis_cases g cs Hwf) as Hx. by rewrite Hs in Hx. Qed.

(* ------------------------------------------------------------------ *)
(** ** Properties *)

