(* ===== verification/GraphAudit.v ===== *)
(** * The audit of an extracted graph

    extract/audit.rs: the checks, the paradox probes and the spectral report that
    an audit runs over a graph and a claim corpus, and what it concludes about
    the states of the protocol the graph could reach. *)

From stdpp Require Import gmap strings.
From S2P Require Import Prelude F64 F64Bits Errors Core ProtocolData Extract GraphNode Tarjan GraphTraverse TraverseSpec GraphCycle BinaryDiagnostics GraphDiagnostics Observable KernelChecks Synthetic NonVacuity GraphParadox Spectral ExactSpectral GraphSpectral.
From stdpp Require Import options.

(* ------------------------------------------------------------------ *)
(** ** Reports *)

Inductive ClaimCorpusProvenance : Type :=
  | SyntheticStructuralProbe | UserSupplied | Fixture | ObservedRuntime | ReviewedReconstruction.

Global Instance ClaimCorpusProvenance_eq_dec : EqDecision ClaimCorpusProvenance.
Proof. solve_decision. Defined.

Record ExtractionCycleFinding := mkCycleFinding { cf_nodes : list string; cf_verdict : Verdict }.

Record ExtractionAxiomResult := mkAxiomResult {
  ar_axiom : string;
  ar_verdict : option Verdict;
  ar_skipped_reason : option Message;
}.

Record ExtractionParadoxResult := mkParadoxResult {
  pr_paradox : string;
  pr_violation : option GraphParadoxViolation;
  pr_skipped_reason : option Message;
}.

Record RecommendedSacrifice := mkRecommended {
  rs_property : string;
  rs_reason : Message;
  rs_impact_bound : option f64;
}.

Record ProtocolStateAssessment := mkAssessment {
  pa_current_state : string;
  pa_can_declare : bool;
  pa_can_extract_compile : bool;
  pa_can_measure : bool;
  pa_boundary_causal_safety : BoundaryCausalSafetyAssessment;
  pa_blocking_issues : list Message;
  pa_recommended_sacrifices : list RecommendedSacrifice;
}.

Record GovernanceAuditReport := mkAuditReport {
  gr_corpus_provenance : ClaimCorpusProvenance;
  gr_claims : list GovernanceClaim;
  gr_cycles : list ExtractionCycleFinding;
  gr_axiom_results : list ExtractionAxiomResult;
  gr_paradox_results : list ExtractionParadoxResult;
  gr_spectral : option SpectralAnalysis;
  gr_factor_exposure : GovernanceFactorExposure;
  gr_protocol_assessment : ProtocolStateAssessment;
}.

(* ------------------------------------------------------------------ *)
(** ** Observed claims *)

(** What a node adds to the numeric fields of its graph. *)
Definition gate_numeric_fields (fields : gset string) (gate : Gate) : gset string :=
  match gate with
  | ThresholdGate field _ _ | PeerRelative field _ _ =>
      if decide (field = "strength") then fields else {[field]} ∪ fields
  | PrefixMatch _ _ | ExactMatch _ _ | ContentMatch _ _ => fields
  end.

Definition node_numeric_fields (fields : gset string) (node : GovernanceNode) : gset string :=
  match node with
  | Binary _ _ gates _ _ => foldl gate_numeric_fields fields gates
  | Threshold _ _ _ field => if decide (field = "strength") then fields else {[field]} ∪ fields
  | Proportional _ _ _ _ => fields
  end.

Definition graph_numeric_fields (graph : GovernanceGraph) : gset string :=
  foldl node_numeric_fields ∅ (btree_values (nodes graph)).

(** [claim.metrics.entry(field).or_insert(0.0)] *)
Definition or_insert_zero (metrics : gmap string f64) (field : string) : gmap string f64 :=
  match metrics !! field with Some _ => metrics | None => <[field := f64_zero]> metrics end.

Definition zero_fill (fields : gset string) (claim : GovernanceClaim) : GovernanceClaim :=
  mkGovernanceClaim (gc_claimant_id claim) (gc_strength claim) (gc_priority_class claim) (gc_path claim)
    (gc_action claim) (gc_content claim) (foldl or_insert_zero (gc_metrics claim) (bset_iter fields)).

Definition normalize_claims_for_graph (graph : GovernanceGraph) (claims : list GovernanceClaim)
    (corpus_provenance : ClaimCorpusProvenance) : list GovernanceClaim :=
  if bool_decide (corpus_provenance = ObservedRuntime)
  then zero_fill (graph_numeric_fields graph) <$> claims
  else claims.

Definition claims_for_cycle (graph : GovernanceGraph) (claims : list GovernanceClaim) (cycle : list NodeId)
    : list GovernanceClaim :=
  match claims with [] => synthetic_claims_for_cycle graph cycle | _ :: _ => claims end.

Definition claims_for_cycles (graph : GovernanceGraph) (claims : list GovernanceClaim)
    (cycles : list (list NodeId)) : list GovernanceClaim :=
  match claims with [] => synthetic_claims_for_cycles graph cycles | _ :: _ => claims end.

(* ------------------------------------------------------------------ *)
(** ** Checks *)

Definition is_rejected (verdict : option Verdict) : bool :=
  match verdict with Some (Rejected _ _) => true | _ => false end.

Definition is_admissible (verdict : option Verdict) : bool :=
  match verdict with Some (Admissible _ _) => true | _ => false end.

Definition skipped_axiom (name : string) (reason : Message) : ExtractionAxiomResult :=
  mkAxiomResult name None (Some reason).

(** The [expect] of the source is the error: it is never taken. *)
Definition kernel_axiom_result (verdict : AxiomVerdict) : LResult ExtractionAxiomResult :=
  match verdict with
  | Skipped axiom reason => Ok (mkAxiomResult (graph_axiom_name axiom) None (Some reason))
  | Pass axiom _ | Fail axiom _ _ =>
      v ← map_err (λ _, panicked "non-skipped kernel verdict must convert") (verdict_try_from verdict);
      Ok (mkAxiomResult (graph_axiom_name axiom) (Some v) None)
  end.

Definition checked_axiom (name : string) (verdict : Verdict) : ExtractionAxiomResult :=
  mkAxiomResult name (Some verdict) None.

Definition SKIPPED_BY_CYCLES : list string :=
  ["graph consistency"; "graph solidarity"; "graph monotonicity"; "graph strategyproofness";
   "graph certifiability"; "graph observable determinacy"; "graph corrigibility"; "graph compositional safety"].

Section audit.
Context `{RegexEngine, RationalOps}.

Definition run_graph_axiom_checks (graph : GovernanceGraph) (claims : list GovernanceClaim) (has_cycles : bool)
    : LResult (list ExtractionAxiomResult) :=
  cycles ← (if has_cycles then detect_cycles graph else Ok []);
  if has_cycles then
    let reason := [Txt "skipped because the extracted graph contains cycles; see cycle findings"] in
    nonvacuity ← check_graph_nonvacuity graph claims cycles;
    result ← kernel_axiom_result nonvacuity;
    Ok (((λ name, skipped_axiom name reason) <$> SKIPPED_BY_CYCLES)
        ++ [mkAxiomResult "graph nonvacuity" (ar_verdict result) (ar_skipped_reason result)])
  else
    certifiability ← check_graph_certifiability graph claims ≫= kernel_axiom_result;
    observable ← check_graph_observable_determinacy graph claims ≫= kernel_axiom_result;
    corrigibility ← check_graph_corrigibility graph claims ≫= kernel_axiom_result;
    compositional_safety ← check_graph_compositional_safety graph claims ≫= kernel_axiom_result;
    nonvacuity ← check_graph_nonvacuity graph claims cycles ≫= kernel_axiom_result;
    let fields := graph_fields claims in
    consistency ← check_graph_consistency graph claims;
    solidarity ← check_graph_solidarity graph claims (graph_shocks fields);
    monotonicity ← monotonicity_check_via_polarity_schema graph claims (graph_deltas fields)
                     AUDIT_METRIC_POLARITY_SCHEMA;
    strategyproofness ← check_graph_strategyproofness graph claims;
    Ok [checked_axiom "graph consistency" consistency; checked_axiom "graph solidarity" solidarity;
        checked_axiom "graph monotonicity" monotonicity;
        checked_axiom "graph strategyproofness" strategyproofness;
        certifiability; observable; corrigibility; compositional_safety; nonvacuity].

Definition run_graph_paradox_suite (graph : GovernanceGraph) (claims : list GovernanceClaim) (has_cycles : bool)
    : LResult (list ExtractionParadoxResult) :=
  alabama ←
    (if has_cycles then
       Ok (mkParadoxResult "compositional Alabama" None
             (Some [Txt "skipped because compositional Alabama requires an acyclic baseline traversal; cycles are reported separately"]))
     else v ← compositional_alabama graph claims; Ok (mkParadoxResult "compositional Alabama" v None));
  feedback ← feedback_monotonicity graph claims;
  path ←
    (if has_cycles then
       Ok (mkParadoxResult "path dependence" None
             (Some [Txt "skipped because path dependence is defined over alternate DAG evaluation orders; cycles are reported separately"]))
     else v ← path_dependence graph claims; Ok (mkParadoxResult "path dependence" v None));
  Ok [alabama; mkParadoxResult "feedback monotonicity" feedback None; path].

Definition exposure_of (result : ExtractionAxiomResult) : f64 :=
  match ar_skipped_reason result, ar_verdict result with
  | Some _, _ | None, None => f64_lit 1 2
  | None, Some (Rejected _ _) => f64_one
  | None, Some (Admissible _ _) => f64_zero
  end.

(** The closure [lookup] of [graph_factor_exposure]. *)
Fixpoint factor_lookup (axiom_results : list ExtractionAxiomResult) (name : string) : f64 :=
  match axiom_results with
  | [] => f64_lit 1 2
  | result :: rest => if decide (ar_axiom result = name) then exposure_of result else factor_lookup rest name
  end.

Definition graph_factor_exposure (axiom_results : list ExtractionAxiomResult) : GovernanceFactorExposure :=
  mkExposure (factor_lookup axiom_results "graph consistency") (factor_lookup axiom_results "graph solidarity")
    (factor_lookup axiom_results "graph monotonicity") (factor_lookup axiom_results "graph strategyproofness")
    (factor_lookup axiom_results "graph nonvacuity").

Definition protocol_can_extract_compile (axiom_results : list ExtractionAxiomResult) (has_cycles : bool) : bool :=
  let any_pass := existsb (λ result, is_admissible (ar_verdict result)) axiom_results in
  let any_reject := existsb (λ result, is_rejected (ar_verdict result)) axiom_results in
  negb has_cycles && any_pass && negb any_reject.

Definition recommended (result : ExtractionAxiomResult) : option RecommendedSacrifice :=
  match ar_verdict result with
  | Some (Rejected _ counterexample) =>
      Some (mkRecommended (ar_axiom result) (description counterexample) None)
  | _ => None
  end.

Definition assess_protocol_state (axiom_results : list ExtractionAxiomResult) (spectral : option SpectralAnalysis)
    (has_cycles : bool) (boundary_causal_safety : BoundaryCausalSafetyAssessment) : ProtocolStateAssessment :=
  let can_measure := match spectral ≫= sa_spectral_gap with Some _ => true | None => false end in
  let rejected_count := length (filter (λ result, is_rejected (ar_verdict result) = true) axiom_results) in
  let blocking_issues :=
    (if has_cycles then [[Txt "graph contains cycles; axiom checks were skipped"]] else [])
    ++ (if bool_decide (0 < rejected_count)
        then [[Int (Z.of_nat rejected_count);
               Txt " axiom check(s) rejected; sacrifices required before promotion"]] else [])
    ++ (if negb can_measure
        then [[Txt "spectral analysis could not compute algebraic connectivity (disconnected graph or single node)"]]
        else [])
    ++ match live_blocker boundary_causal_safety with Some blocker => [[Txt blocker]] | None => [] end
    ++ [[Txt "no monitoring infrastructure detected"]] in
  mkAssessment "UNDECLARED" true (protocol_can_extract_compile axiom_results has_cycles) can_measure
    boundary_causal_safety blocking_issues (omap recommended axiom_results).

Definition cycle_finding (graph : GovernanceGraph) (claims : list GovernanceClaim) (cycle : list NodeId)
    : LResult ExtractionCycleFinding :=
  v ← check_cycle_admissibility graph cycle (claims_for_cycle graph claims cycle);
  Ok (mkCycleFinding cycle v).

Definition audit_graph_with_boundary (graph : GovernanceGraph) (claims : list GovernanceClaim)
    (corpus_provenance : ClaimCorpusProvenance) (boundary_causal_safety : BoundaryCausalSafetyAssessment)
    : LResult GovernanceAuditReport :=
  let claims := normalize_claims_for_graph graph claims corpus_provenance in
  cycles ← detect_cycles graph;
  let has_cycles := negb (bool_decide (cycles = [])) in
  cycle_findings ← try_map (cycle_finding graph claims) cycles;
  axiom_results ← run_graph_axiom_checks graph claims has_cycles;
  let paradox_claims := if has_cycles then claims_for_cycles graph claims cycles else claims in
  paradox_results ← run_graph_paradox_suite graph paradox_claims has_cycles;
  analysis ← spectral_analysis graph claims;
  let spectral := Some analysis in
  Ok (mkAuditReport corpus_provenance claims cycle_findings axiom_results paradox_results spectral
        (graph_factor_exposure axiom_results)
        (assess_protocol_state axiom_results spectral has_cycles boundary_causal_safety)).

Definition audit_governance_graph (graph : GovernanceGraph) (claims : list GovernanceClaim)
    (corpus_provenance : ClaimCorpusProvenance) (boundary_causal_safety : BoundaryCausalSafetyAssessment)
    : LResult GovernanceAuditReport :=
  audit_graph_with_boundary graph claims corpus_provenance boundary_causal_safety.
End audit.

(* ------------------------------------------------------------------ *)
(** ** Numeric fields *)

Definition gate_reads (gate : Gate) (f : string) : Prop :=
  match gate with
  | ThresholdGate field _ _ | PeerRelative field _ _ => f = field ∧ f ≠ "strength"
  | PrefixMatch _ _ | ExactMatch _ _ | ContentMatch _ _ => False
  end.

Definition node_reads (node : GovernanceNode) (f : string) : Prop :=
  match node with
  | Binary _ _ gates _ _ => ∃ gate, gate ∈ gates ∧ gate_reads gate f
  | Threshold _ _ _ field => f = field ∧ f ≠ "strength"
  | Proportional _ _ _ _ => False
  end.

(** A fold that only adds. *)
Lemma elem_of_foldl_grow {A} (F : gset string → A → gset string) (P : A → Prop) l fields f :
  (∀ acc x, f ∈ F acc x ↔ f ∈ acc ∨ P x) → f ∈ foldl F fields l ↔ f ∈ fields ∨ ∃ x, x ∈ l ∧ P x.
Proof.
  intros HF. revert fields. induction l as [|x l IH]; intros fields; simpl.
  - split; [by left|]. intros [?|(x & ?%not_elem_of_nil & _)]; done.
  - rewrite IH, HF. setoid_rewrite elem_of_cons. naive_solver.
Qed.

Lemma elem_of_unless_strength fields field f :
  f ∈ (if decide (field = "strength") then fields else {[field]} ∪ fields : gset string) ↔
  f ∈ fields ∨ (f = field ∧ f ≠ "strength").
Proof. case_decide; [naive_solver|]. rewrite elem_of_union, elem_of_singleton. naive_solver. Qed.

Lemma elem_of_graph_numeric_fields g f :
  f ∈ graph_numeric_fields g ↔ ∃ v n, nodes g !! v = Some n ∧ node_reads n f.
Proof.
  unfold graph_numeric_fields. rewrite (elem_of_foldl_grow _ (λ n, node_reads n f)).
  - setoid_rewrite elem_of_btree_values. rewrite elem_of_empty. naive_solver.
  - intros acc [id name gates d comb|id name rule pcs|id name t field]; simpl; [|tauto|apply elem_of_unless_strength].
    apply elem_of_foldl_grow. intros acc' [ | | | | ]; simpl; try tauto; apply elem_of_unless_strength.
Qed.

Lemma or_insert_zero_lookup l m f :
  foldl or_insert_zero m l !! f =
  match m !! f with Some v => Some v | None => if decide (f ∈ l) then Some f64_zero else None end.
Proof.
  revert m. induction l as [|x l IH]; intros m; cbn [foldl].
  - destruct (m !! f); [done|]. by rewrite decide_False by apply not_elem_of_nil.
  - rewrite IH. unfold or_insert_zero. destruct (decide (f = x)) as [->|Hne].
    + rewrite (decide_True (P := x ∈ x :: l)) by left.
      destruct (m !! x) as [v|] eqn:Hx; [by rewrite Hx|]. by rewrite lookup_insert_eq.
    + assert ((match m !! x with Some _ => m | None => <[x:=f64_zero]> m end) !! f = m !! f) as ->
        by (destruct (m !! x); [done|by rewrite lookup_insert_ne by done]).
      destruct (m !! f); [done|]. by rewrite (decide_ext (f ∈ l) (f ∈ x :: l)) by (rewrite elem_of_cons; tauto).
Qed.

Lemma zero_fill_lookup fields c f :
  gc_metrics (zero_fill fields c) !! f =
  match gc_metrics c !! f with
  | Some v => Some v
  | None => if decide (f ∈ fields) then Some f64_zero else None
  end.
Proof.
  simpl. rewrite or_insert_zero_lookup. destruct (gc_metrics c !! f); [done|].
  destruct (decide (f ∈ fields)) as [Hf|Hf].
  - by rewrite decide_True by by apply elem_of_bset_iter.
  - rewrite decide_False; [done|]. by rewrite elem_of_bset_iter.
Qed.

Lemma zero_fill_valid fields c :
  validate_governance_claim c = Ok () → validate_governance_claim (zero_fill fields c) = Ok ().
Proof.
  intros Hc. pose proof (claim_ok_metrics c (validate_governance_claim_ok c Hc)) as Hm. revert Hc.
  unfold validate_governance_claim. cbn [gc_claimant_id gc_strength gc_priority_class zero_fill].
  do 3 (case_match; [done|]). intros _. apply try_iter_Ok, Forall_forall. intros [f v] Hin%elem_of_btree_iter.
  change (foldl or_insert_zero (gc_metrics c) (bset_iter fields)) with (gc_metrics (zero_fill fields c)) in Hin.
  rewrite zero_fill_lookup in Hin. destruct (gc_metrics c !! f) as [w|] eqn:Hf.
  - injection Hin as ->. by rewrite (Hm f v Hf).
  - destruct (decide _); [|done]. injection Hin as <-. done.
Qed.

Lemma zero_fill_all_valid fields cs :
  validate_governance_claims cs = Ok () → validate_governance_claims (zero_fill fields <$> cs) = Ok ().
Proof.
  intros [Hall Hnd]%validate_governance_claims_Ok. apply validate_governance_claims_Ok. split.
  - rewrite Forall_fmap. eapply Forall_impl; [exact Hall|]. intros c. apply zero_fill_valid.
  - rewrite <-list_fmap_compose. exact Hnd.
Qed.

Lemma normalize_valid g cs prov :
  validate_governance_claims cs = Ok () →
  validate_governance_claims (normalize_claims_for_graph g cs prov) = Ok ().
Proof. intros Hcs. unfold normalize_claims_for_graph. case_bool_decide; [by apply zero_fill_all_valid|done]. Qed.

(* ------------------------------------------------------------------ *)
(** ** A node evaluates claims that provide what it reads *)

Section provided.
Context `{RegexEngine}.

Definition provides (reads : string → Prop) (c : GovernanceClaim) : Prop :=
  ∀ f, reads f → is_Some (gc_metrics c !! f).

Lemma numeric_field_total c field :
  (field ≠ "strength" → is_Some (gc_metrics c !! field)) → ∃ v, numeric_field c field = Ok v.
Proof.
  intros Hf. unfold numeric_field. case_decide as Hs; [by eexists|]. destruct (Hf Hs) as [v ->]. by eexists.
Qed.

Lemma gate_matches_total gate c cs :
  validate_gate gate = Ok () → c ∈ cs → (∀ c', c' ∈ cs → provides (gate_reads gate) c') →
  ∃ m, gate_matches gate c cs = Ok m.
Proof.
  intros Hg Hc Hp. destruct gate as [p d|v d|regex d|field min d|field pct d]; cbn [gate_matches]; [by eexists..| | |].
  - cbn [validate_gate] in Hg. invert_binds. by eexists.
  - destruct (numeric_field_total c field) as [v ->]; [|by eexists]. intros Hs. by apply (Hp c Hc).
  - unfold evaluate_peer_relative. destruct (numeric_field_total c field) as [v ->]; [intros Hs; by apply (Hp c Hc)|].
    cbn [mbind Result_bind]. destruct (try_map_total (λ claim, numeric_field claim field) cs) as [vs ->]; [|by eexists].
    intros c' Hc'. apply numeric_field_total. intros Hs. by apply (Hp c' Hc').
Qed.

Section gates.
Context (gates : list Gate) (c : GovernanceClaim) (cs : list GovernanceClaim).
Context (Hgates : ∀ gate, gate ∈ gates → ∃ m, gate_matches gate c cs = Ok m).

Lemma first_match_total d : ∃ r, evaluate_first_match gates c cs d = Ok r.
Proof using Hgates.
  induction gates as [|gate gs IH]; [by eexists|]. cbn [evaluate_first_match].
  destruct (Hgates gate) as [[] ->]; [left|by eexists|]. cbn [mbind Result_bind].
  apply IH. intros gate' Hin. apply Hgates. by right.
Qed.

Lemma matched_decisions_total : ∃ r, matched_decisions gates c cs = Ok r.
Proof using Hgates.
  induction gates as [|gate gs IH]; [by eexists|]. cbn [matched_decisions].
  destruct (Hgates gate) as [m ->]; [left|]. cbn [mbind Result_bind].
  destruct IH as [r ->]; [|by eexists]. intros gate' Hin. apply Hgates. by right.
Qed.

Lemma all_must_pass_total total d : ∀ n saw, ∃ r, all_must_pass_loop total n saw gates c cs d = Ok r.
Proof using Hgates.
  induction gates as [|gate gs IH]; intros n saw; [by eexists|]. cbn [all_must_pass_loop].
  assert (∀ gate', gate' ∈ gs → ∃ m, gate_matches gate' c cs = Ok m) as Hgs by (intros; apply Hgates; by right).
  destruct (Hgates gate) as [[] ->]; [left| |by apply IH]. cbn [mbind Result_bind].
  case_match; [by apply IH|by eexists|by apply IH].
Qed.
End gates.

Lemma evaluate_node_total node cs :
  validate_governance_node node = Ok () →
  match node with Proportional _ _ _ _ => False | _ => True end →
  (∀ c, c ∈ cs → provides (node_reads node) c) → ∃ ds, evaluate_node_validated node cs = Ok ds.
Proof.
  intros Hn Hk Hp. destruct node as [id name gates d comb|id name rule pcs|id name t field]; [|done|].
  - cbn [evaluate_node_validated]. apply try_map_total. intros c Hc. cbn [validate_governance_node] in Hn.
    rewrite try_iter_Ok, Forall_forall in Hn.
    assert (∀ gate, gate ∈ gates → ∃ m, gate_matches gate c cs = Ok m) as Hgates.
    { intros gate Hin. apply gate_matches_total; [by apply Hn|done|]. intros c' Hc' f Hf.
      apply (Hp c' Hc'). by exists gate. }
    assert (∃ r, binary_decision gates d comb cs c = Ok r) as [r ->]; [|by eexists].
    destruct comb; cbn [binary_decision].
    + unfold evaluate_all_must_pass. by apply all_must_pass_total.
    + unfold evaluate_any_must_pass. destruct (matched_decisions_total gates c cs Hgates) as [r ->]. by eexists.
    + by apply first_match_total.
  - cbn [evaluate_node_validated]. apply try_map_total. intros c Hc. unfold threshold_decision.
    destruct (numeric_field_total c field) as [v ->]; [|by eexists]. intros Hs. by apply (Hp c Hc).
Qed.
End provided.

(* ------------------------------------------------------------------ *)
(** ** The kernel checks name their own axioms *)

Definition verdict_axiom (v : AxiomVerdict) : KernelAxiom :=
  match v with Pass axiom _ | Fail axiom _ _ | Skipped axiom _ => axiom end.

Lemma kernel_axiom_result_inv v result :
  kernel_axiom_result v = Ok result →
  ar_axiom result = graph_axiom_name (verdict_axiom v) ∧
  is_admissible (ar_verdict result) = is_pass v ∧ is_rejected (ar_verdict result) = is_fail v ∧
  (ar_skipped_reason result = None ↔ is_pass v = true ∨ is_fail v = true).
Proof. destruct v; cbn; intros [= <-]; cbn; split_and!; try done; naive_solver. Qed.

(** The outcome of a check that ends in a named verdict. *)
Ltac named_verdict H :=
  repeat first
    [ progress invert_binds
    | match type of H with context [if negb (bool_decide ?P) then _ else _] => destruct (bool_decide P); cbn [negb] in H end
    | match type of H with context [if bool_decide ?P then _ else _] => destruct (bool_decide P) end
    | match type of H with context [if ?b then _ else _] => destruct b end
    | match type of H with context [match ?x with _ => _ end] => destruct x end ]; done.

Section named.
Context `{RegexEngine}.

Lemma certifiability_axiom g cs v : check_graph_certifiability g cs = Ok v → verdict_axiom v = Certifiable.
Proof.
  intros Hv. unfold check_graph_certifiability, certifiability_rejection, kernel_rejection, cyclic_skip in Hv.
  named_verdict Hv.
Qed.

Lemma corrigibility_axiom g cs v : check_graph_corrigibility g cs = Ok v → verdict_axiom v = Corrigible.
Proof.
  intros Hv. unfold check_graph_corrigibility, corrigibility_rejection, kernel_rejection, cyclic_skip in Hv.
  named_verdict Hv.
Qed.

Lemma compositional_safety_axiom g cs v :
  check_graph_compositional_safety g cs = Ok v → verdict_axiom v = CompositionalSafety.
Proof.
  intros Hv. unfold check_graph_compositional_safety, compositional_rejection, kernel_rejection, cyclic_skip in Hv.
  named_verdict Hv.
Qed.

Lemma observable_axiom g cs v : check_graph_observable_determinacy g cs = Ok v → verdict_axiom v = Observable.
Proof.
  intros Hv. unfold check_graph_observable_determinacy, check_graph_traversal_order_invariance in Hv.
  invert_binds. case_bool_decide; cbn [negb] in Hv; [|by invert_binds].
  case_bool_decide; [by invert_binds|]. invert_binds. case_bool_decide; [by invert_binds|].
  invert_binds. destruct (_ <? _)%N; [by invert_binds|]. invert_binds.
  match goal with E : try_loop _ _ _ = Ok ?fl |- _ => destruct fl as [n|w]; [by invert_binds|];
    destruct (try_loop_Break _ _ _ _ E) as (order & t & _ & Hb) end.
  injection Hv as <-. case_decide; [done|]. unfold observable_rejection in Hb. named_verdict Hb.
Qed.

(** The verdict on liveness is never a skip. *)
Definition liveness_verdict (v : AxiomVerdict) : Prop :=
  verdict_axiom v = NonVacuous ∧ (is_pass v = true ∨ is_fail v = true).

Lemma pass_or_fail v : is_pass v = true ∨ is_fail v = true → is_pass v = negb (is_fail v).
Proof using Type. destruct v; cbn; naive_solver. Qed.

Lemma rejection_liveness cs d w l v : nonvacuity_rejection cs d w l = Ok v → liveness_verdict v.
Proof. unfold nonvacuity_rejection. intros Hv. invert_binds. split; [done|by right]. Qed.

Lemma conclusion_liveness g cs cycles found n v :
  nonvacuity_conclusion g cs cycles found n = Ok v → liveness_verdict v.
Proof.
  unfold nonvacuity_conclusion. intros Hv. destruct found; [injection Hv as <-; split; [done|by left]|].
  case_bool_decide; by eapply rejection_liveness.
Qed.

Lemma nonvacuity_liveness g cs cycles v : check_graph_nonvacuity g cs cycles = Ok v → liveness_verdict v.
Proof.
  unfold check_graph_nonvacuity. intros Hv. case_bool_decide; [by eapply rejection_liveness|].
  case_bool_decide.
  - invert_binds. destruct (negb _); [by eapply rejection_liveness|by eapply conclusion_liveness].
  - invert_binds. destruct a as [[found n]|w]; [by eapply conclusion_liveness|]. injection Hv as <-.
    destruct (try_loop_Break _ _ _ _ Hr) as (cycle & [found n] & _ & Hb). unfold probe_cycle in Hb. invert_binds.
    destruct (negb (converged _)); [invert_binds; by eapply rejection_liveness|].
    destruct (negb _); invert_binds; [by eapply rejection_liveness|done].
Qed.
End named.

(* ------------------------------------------------------------------ *)
(** ** What the results say *)

Lemma exposure_zero result :
  exposure_of result = f64_zero ↔ ar_skipped_reason result = None ∧ is_admissible (ar_verdict result) = true.
Proof.
  unfold exposure_of. destruct (ar_skipped_reason result).
  - split; [intros Heq; vm_compute in Heq; discriminate|by intros []].
  - destruct (ar_verdict result) as [[]|]; cbn; split; try done; try (by intros []).
Qed.

Lemma exposure_inj a b c d e z :
  mkExposure a b c d e = mkExposure z z z z z ↔ a = z ∧ b = z ∧ c = z ∧ d = z ∧ e = z.
Proof. split; [by intros [= -> -> -> -> ->]|by intros (-> & -> & -> & -> & ->)]. Qed.

Lemma factor_lookup_here result rest name :
  ar_axiom result = name → factor_lookup (result :: rest) name = exposure_of result.
Proof. intros Hn. cbn [factor_lookup]. by rewrite decide_True. Qed.

Lemma factor_lookup_there result rest name :
  ar_axiom result ≠ name → factor_lookup (result :: rest) name = factor_lookup rest name.
Proof. intros Hn. cbn [factor_lookup]. by rewrite decide_False. Qed.

Section results.
Context `{RegexEngine, RationalOps} (g : GovernanceGraph) (cs : list GovernanceClaim).
Context (Hwf : graph_wf g) (Hval : validate_governance_claims cs = Ok ()).

(** A traversal only succeeds on a graph with a node. *)
Lemma consistency_nonempty v : check_graph_consistency g cs = Ok v → nodes g ≠ ∅.
Proof using Hwf Hval.
  intros Hv. unfold check_graph_consistency in Hv. invert_binds.
  match goal with Hb : graph_baseline _ _ = Ok _ |- _ => apply graph_baseline_inv in Hb as Ht end.
  unfold traverse_final_decisions in Ht. destruct (traverse_claims_cases g cs Hwf Hval false)
    as [(_ & cyc & Hc)|[(_ & _ & Hc)|(_ & Hne & _)]]; [by rewrite Hc in Ht..|done].
Qed.

(** A result that can neither be a rejection nor be looked up by name. *)
Definition never_counts (result : ExtractionAxiomResult) : Prop :=
  is_rejected (ar_verdict result) = false ∧ ar_axiom result ≠ "graph nonvacuity".

Lemma never_counts_intro v result :
  is_fail v = false → verdict_axiom v ≠ NonVacuous → kernel_axiom_result v = Ok result → never_counts result.
Proof using Type.
  intros Hf Hax (Hn & _ & Hr & _)%kernel_axiom_result_inv. split; [congruence|]. rewrite Hn.
  by destruct (verdict_axiom v).
Qed.

Lemma certifiability_never_counts v result :
  nodes g ≠ ∅ → check_graph_certifiability g cs = Ok v → kernel_axiom_result v = Ok result → never_counts result.
Proof using Hwf.
  intros Hne Hv. apply never_counts_intro; [|by rewrite (certifiability_axiom g cs v Hv)].
  pose proof (certifiability_rejects_only_empty g cs v Hwf Hv). destruct (is_fail v); [naive_solver|done].
Qed.

Lemma observable_never_counts v result :
  check_graph_observable_determinacy g cs = Ok v → kernel_axiom_result v = Ok result → never_counts result.
Proof using Hwf Hval.
  intros Hv. apply never_counts_intro; [by eapply observable_determinacy_never_fails|].
  by rewrite (observable_axiom g cs v Hv).
Qed.

Lemma compositional_safety_never_counts v result :
  check_graph_compositional_safety g cs = Ok v → kernel_axiom_result v = Ok result → never_counts result.
Proof using Hwf.
  intros Hv. apply never_counts_intro; [by eapply compositional_safety_never_fails|].
  by rewrite (compositional_safety_axiom g cs v Hv).
Qed.

(** The results of an acyclic graph: the five that count towards the exposure
    are checked, one of the others passes and none of them is rejected. *)
Lemma acyclic_results results :
  detect_cycles g = Ok [] → run_graph_axiom_checks g cs false = Ok results →
  ∃ consistency solidarity monotonicity strategyproofness kernel nonvacuity,
    results = [checked_axiom "graph consistency" consistency; checked_axiom "graph solidarity" solidarity;
               checked_axiom "graph monotonicity" monotonicity;
               checked_axiom "graph strategyproofness" strategyproofness] ++ kernel ++ [nonvacuity] ∧
    Forall never_counts kernel ∧ (∃ result, result ∈ kernel ∧ is_admissible (ar_verdict result) = true) ∧
    ar_axiom nonvacuity = "graph nonvacuity" ∧ ar_skipped_reason nonvacuity = None ∧
    is_admissible (ar_verdict nonvacuity) = negb (is_rejected (ar_verdict nonvacuity)).
Proof using Hwf Hval.
  intros Hd Hr. pose proof (detect_cycles_nil_acyclic g Hwf Hd) as Hac.
  unfold run_graph_axiom_checks in Hr. invert_binds.
  match goal with Hc : check_graph_consistency _ _ = Ok _ |- _ => pose proof (consistency_nonempty _ Hc) as Hne end.
  match goal with Hc : check_graph_corrigibility _ _ = Ok _ |- _ =>
    rewrite (corrigibility_always_passes g cs Hwf Hac Hne Hval) in Hc; injection Hc as <- end.
  match goal with Hc : check_graph_nonvacuity _ _ _ = Ok ?v, Hk : kernel_axiom_result ?v = Ok _ |- _ =>
    destruct (nonvacuity_liveness _ _ _ _ Hc) as [Hax Hpf];
    destruct (kernel_axiom_result_inv _ _ Hk) as (Hname & Hadm & Hrej & Hskip) end.
  match goal with Hk : kernel_axiom_result (Pass Corrigible 3) = Ok _ |- _ => injection Hk as <- end.
  match goal with |- context [checked_axiom "graph strategyproofness" ?s :: [?a; ?b; ?c; ?d; ?e]] =>
    eexists _, _, _, s, [a; b; c; d], e end.
  split_and!.
  - done.
  - repeat apply Forall_cons_2; [by eapply certifiability_never_counts|by eapply observable_never_counts|done|
      by eapply compositional_safety_never_counts|by apply Forall_nil_2].
  - eexists. split; [right; right; left|done].
  - by rewrite Hname, Hax.
  - tauto.
  - rewrite Hadm, Hrej. by apply pass_or_fail.
Qed.

(** A reported component runs through a cycle of its own nodes. *)
Lemma component_cycle c :
  cyclic_component g c → ∃ u, u ∈ c ∧ tc (λ a b, edge_rel g a b ∧ a ∈ c ∧ b ∈ c) u u.
Proof using Type.
  intros (_ & _ & v & Hv & Hmem). exists v. split; [by apply Hmem|].
  enough (∀ a b, tc (edge_rel g) a b → rtc (edge_rel g) v a → rtc (edge_rel g) b v →
    tc (λ a b, edge_rel g a b ∧ a ∈ c ∧ b ∈ c) a b) as Hgo by by apply Hgo.
  induction 1 as [a b Hab|a w b Haw Hwb IH]; intros Hva Hbv.
  - apply tc_once. split_and!; [done|apply Hmem; split; [done|by eapply rtc_l]|].
    apply Hmem. split; [by eapply rtc_r|done].
  - assert (rtc (edge_rel g) w v) as Hwv by (etransitivity; [by apply tc_rtc|done]).
    assert (rtc (edge_rel g) v w) as Hvw by by eapply rtc_r.
    eapply tc_l; [|by apply IH]. split_and!; [done|apply Hmem; split; [done|by eapply rtc_l]|by apply Hmem].
Qed.

(** The results of a cyclic graph: everything is skipped but liveness, which is
    rejected. *)
Lemma cyclic_results cycles results :
  detect_cycles g = Ok cycles → cycles ≠ [] → run_graph_axiom_checks g cs true = Ok results →
  ∃ reason nonvacuity, results = ((λ name, skipped_axiom name reason) <$> SKIPPED_BY_CYCLES) ++ [nonvacuity] ∧
    ar_axiom nonvacuity = "graph nonvacuity" ∧ ar_skipped_reason nonvacuity = None ∧
    is_rejected (ar_verdict nonvacuity) = true.
Proof using Hwf.
  intros Hd Hne Hr. unfold run_graph_axiom_checks in Hr. rewrite Hd in Hr. cbn [mbind Result_bind] in Hr.
  invert_binds. eexists _, _. split; [reflexivity|]. cbn.
  match goal with Hc : check_graph_nonvacuity _ _ _ = Ok ?v, Hk : kernel_axiom_result ?v = Ok _ |- _ =>
    destruct (nonvacuity_liveness _ _ _ _ Hc) as [_ Hpf]; rename Hc into Hlive;
    destruct (kernel_axiom_result_inv _ _ Hk) as (_ & _ & -> & ->) end.
  split_and!; [done|done|].
  destruct (detect_cycles_components g Hwf) as (cycles' & Hd' & _ & _ & Hcomp).
  assert (cycles' = cycles) as -> by congruence. destruct cycles as [|c rest]; [done|].
  destruct (component_cycle c) as (u & Hu & Htc); [apply Hcomp; left|].
  destruct Hpf as [Hp|]; [|done]. by rewrite (genuine_cycle_never_live _ _ _ _ _ _ Htc Hu Hlive) in Hp.
Qed.

Lemma can_compile_acyclic results :
  detect_cycles g = Ok [] → run_graph_axiom_checks g cs false = Ok results →
  protocol_can_extract_compile results false = true ↔
  graph_factor_exposure results = mkExposure f64_zero f64_zero f64_zero f64_zero f64_zero.
Proof using Hwf Hval.
  intros Hd Hr. destruct (acyclic_results results Hd Hr)
    as (co & so & mo & st & kernel & nv & -> & Hker & (p & Hp & Hpa) & Hname & Hskip & Hadm).
  unfold protocol_can_extract_compile, graph_factor_exposure. cbn [negb andb].
  assert (factor_lookup (kernel ++ [nv]) "graph nonvacuity" = exposure_of nv) as Hnv.
  { clear Hp Hr. induction Hker as [|q kernel [_ Hq] _ IH]; cbn [app factor_lookup].
    - by rewrite decide_True.
    - by rewrite decide_False. }
  assert (existsb (λ result, is_rejected (ar_verdict result)) kernel = false) as Hkr.
  { apply not_true_iff_false. intros (q & Hq%list_elem_of_In & Hqr)%existsb_exists.
    rewrite Forall_forall in Hker. destruct (Hker q Hq). congruence. }
  assert (existsb (λ result, is_admissible (ar_verdict result)) kernel = true) as Hka.
  { apply existsb_exists. exists p. by rewrite <-list_elem_of_In. }
  cbn [app]. repeat first [rewrite factor_lookup_here by reflexivity | rewrite factor_lookup_there by discriminate].
  rewrite Hnv, exposure_inj, !exposure_zero. cbn [existsb checked_axiom ar_verdict ar_skipped_reason].
  rewrite !existsb_app, Hkr, Hka. cbn [existsb]. rewrite Hskip, Hadm.
  destruct co, so, mo, st, (is_rejected (ar_verdict nv)); cbn; naive_solver.
Qed.

Definition half_exposure : GovernanceFactorExposure :=
  mkExposure (f64_lit 1 2) (f64_lit 1 2) (f64_lit 1 2) (f64_lit 1 2) f64_one.

Lemma cyclic_exposure cycles results :
  detect_cycles g = Ok cycles → cycles ≠ [] → run_graph_axiom_checks g cs true = Ok results →
  graph_factor_exposure results = half_exposure.
Proof using Hwf.
  intros Hd Hne Hr. destruct (cyclic_results cycles results Hd Hne Hr) as (reason & nv & -> & Hname & Hskip & Hrej).
  unfold graph_factor_exposure, half_exposure. cbn [SKIPPED_BY_CYCLES fmap list_fmap app].
  repeat first [rewrite factor_lookup_here by (reflexivity || exact Hname) | rewrite factor_lookup_there by discriminate].
  cbn. unfold exposure_of. rewrite Hskip. by destruct (ar_verdict nv) as [[]|].
Qed.

Lemma cycle_findings_spec cycles findings :
  detect_cycles g = Ok cycles → try_map (cycle_finding g cs) cycles = Ok findings →
  cycles = cf_nodes <$> findings ∧ ∀ f, f ∈ findings → verdict_admissible (cf_verdict f) = false.
Proof using Hwf.
  intros Hd Hf. destruct (detect_cycles_components g Hwf) as (cycles' & Hd' & _ & _ & Hcomp).
  assert (cycles' = cycles) as -> by congruence. split.
  - apply try_map_Ok_Forall2 in Hf. clear -Hf. induction Hf as [|c f cycles fs Hc _ IH]; [done|].
    unfold cycle_finding in Hc. invert_binds. cbn. by f_equal.
  - intros f Hin. destruct (try_map_elem_of_inv _ _ _ _ Hf Hin) as (c & Hc & Hfc).
    destruct (component_cycle c) as (u & Hu & Htc); [by apply Hcomp|].
    unfold cycle_finding in Hfc. invert_binds. by eapply genuine_cycle_never_admissible.
Qed.

Lemma path_dependence_result has_cycles results p :
  run_graph_paradox_suite g cs has_cycles = Ok results → p ∈ results → pr_paradox p = "path dependence" →
  pr_violation p = None.
Proof using Hwf Hval.
  unfold run_graph_paradox_suite. intros Hr Hp Hname. destruct has_cycles; invert_binds;
    repeat (apply elem_of_cons in Hp as [->|Hp]; [try discriminate|]); try by apply not_elem_of_nil in Hp.
  - done.
  - cbn. destruct (path_dependence_cases g cs Hwf Hval) as [Hn|(e & He & _)]; congruence.
Qed.

(** Only the five factors are ever recommended for sacrifice. *)
Lemma recommended_factors cycles results s :
  detect_cycles g = Ok cycles →
  run_graph_axiom_checks g cs (negb (bool_decide (cycles = []))) = Ok results →
  s ∈ omap recommended results →
  rs_property s ∈ ["graph consistency"; "graph solidarity"; "graph monotonicity"; "graph strategyproofness";
                   "graph nonvacuity"].
Proof using Hwf Hval.
  intros Hd Hr (q & Hq & Hrec)%list_elem_of_omap. unfold recommended in Hrec.
  destruct (ar_verdict q) as [[]|] eqn:Hv; [done| |done]. injection Hrec as <-. cbn [rs_property].
  case_bool_decide as Hnil; cbn [negb] in Hr; [subst|].
  - destruct (acyclic_results results Hd Hr) as (co & so & mo & st & kernel & nv & -> & Hker & _ & Hname & _).
    rewrite Forall_forall in Hker. cbn [app] in Hq.
    do 4 (apply elem_of_cons in Hq as [->|Hq]; [by apply (bool_decide_unpack _)|]).
    apply elem_of_app in Hq as [Hq| ->%list_elem_of_singleton].
    + destruct (Hker q Hq) as [Hrej _]. by rewrite Hv in Hrej.
    + rewrite Hname. by apply (bool_decide_unpack _).
  - destruct (cyclic_results cycles results Hd Hnil Hr) as (reason & nv & -> & Hname & _).
    apply elem_of_app in Hq as [(name & -> & _)%list_elem_of_fmap| ->%list_elem_of_singleton]; [done|].
    rewrite Hname. by apply (bool_decide_unpack _).
Qed.
End results.

(* ------------------------------------------------------------------ *)
(** ** Properties *)

(** C32: a trace observed at runtime is audited, not rejected: on an acyclic
    validated graph without proportional nodes, the normalized claims are valid,
    they keep every metric that was recorded and read zero exactly in the
    numeric fields of the graph that were not, and the traversal of the graph
    succeeds and decides every claim.  No missing metric can stop it. *)
Theorem observed_traces_evaluate `{RegexEngine} g cs :
  validate_governance_graph g = Ok () → acyclic g → nodes g ≠ ∅ →
  (∀ v n, nodes g !! v = Some n → match n with Proportional _ _ _ _ => False | _ => True end) →
  validate_governance_claims cs = Ok () →
  let observed := normalize_claims_for_graph g cs ObservedRuntime in
  validate_governance_claims observed = Ok () ∧
  Forall2 (λ c c', gc_claimant_id c' = gc_claimant_id c ∧ gc_strength c' = gc_strength c ∧
    ∀ f, gc_metrics c' !! f = match gc_metrics c !! f with
                              | Some v => Some v
                              | None => if decide (f ∈ graph_numeric_fields g) then Some f64_zero else None
                              end) cs observed ∧
  ∃ r, traverse g observed = Ok r ∧ ∀ c, c ∈ observed → is_Some (final_decisions r !! gc_claimant_id c).
Proof.
  intros Hg Hac Hne Hkind Hval observed. pose proof (validate_governance_graph_wf g Hg) as Hwf.
  assert (validate_governance_claims observed = Ok ()) as Hobs by by apply normalize_valid.
  assert (observed = zero_fill (graph_numeric_fields g) <$> cs) as Heq by done.
  split_and!; [done| |].
  - rewrite Heq, Forall2_fmap_r. apply Forall_Forall2_diag, Forall_forall. intros c _.
    split_and!; [done|done|]. intros f. apply zero_fill_lookup.
  - destruct (traverse_claims_cases g observed Hwf Hobs true)
      as [(Hn & _)|[(_ & Hn & _)|(_ & _ & [(e & _ & v & node & batch & Hv & [_ Hsub] & He)|(final & nds & Hc & Hsp)])]];
      [done|done| |].
    + destruct (evaluate_node_total node batch) as [ds Hds]; [|by eapply Hkind| |congruence].
      { apply validate_governance_graph_Ok in Hg as [Hnodes _]. by eapply Hnodes. }
      intros c Hin f Hf. apply Hsub in Hin. rewrite Heq in Hin. apply list_elem_of_fmap in Hin as (c0 & -> & _).
      rewrite zero_fill_lookup. destruct (gc_metrics c0 !! f); [by eexists|].
      rewrite decide_True; [by eexists|]. apply elem_of_graph_numeric_fields. eauto.
    + destruct (traverse g observed) as [r|e] eqn:Ht.
      2:{ unfold traverse in Ht. by rewrite Hc in Ht. }
      exists r. split; [done|]. intros c Hin. destruct (traverse_Ok g observed r Hwf Ht) as (_ & _ & _ & Hsp').
      by eapply (spec_decides g observed Hwf Hac).
Qed.

(** C31: what an audit concludes: on a well-formed graph and valid claims, the
    cycle findings are the components of the detection and each is rejected; path
    dependence is never reported; the graph is declared compilable exactly when
    all five governance factors are free of exposure (no other check can stand in
    the way), which a cyclic graph never is; sacrifices are only recommended for
    these five factors; and only a connected graph of at least two nodes is
    declared measurable. *)
Theorem audit_report_exact `{RegexEngine, RationalOps} g cs provenance boundary r :
  graph_wf g → validate_governance_claims cs = Ok () →
  audit_graph_with_boundary g cs provenance boundary = Ok r →
  detect_cycles g = Ok (cf_nodes <$> gr_cycles r) ∧
  (∀ f, f ∈ gr_cycles r → verdict_admissible (cf_verdict f) = false) ∧
  (∀ p, p ∈ gr_paradox_results r → pr_paradox p = "path dependence" → pr_violation p = None) ∧
  (pa_can_extract_compile (gr_protocol_assessment r) = true ↔
    gr_factor_exposure r = mkExposure f64_zero f64_zero f64_zero f64_zero f64_zero) ∧
  (¬ acyclic g → gr_factor_exposure r = half_exposure) ∧
  (∀ s, s ∈ pa_recommended_sacrifices (gr_protocol_assessment r) →
    rs_property s ∈ ["graph consistency"; "graph solidarity"; "graph monotonicity";
                     "graph strategyproofness"; "graph nonvacuity"]) ∧
  (pa_can_measure (gr_protocol_assessment r) = true →
    2 ≤ size (nodes g) ∧
    ∀ u v, is_Some (nodes g !! u) → is_Some (nodes g !! v) → weakly_connected g u v).
Proof.
  intros Hwf Hval Hr. apply (normalize_valid g cs provenance) in Hval. revert Hval Hr.
  unfold audit_graph_with_boundary. generalize (normalize_claims_for_graph g cs provenance). clear cs.
  intros cs Hval Hr. invert_binds. rename a into cycles. cbn.
  destruct (cycle_findings_spec g cs Hwf cycles a0 Hr0 Hr1) as [Hnodes Hrej].
  split_and!; [by rewrite <-Hnodes|done| | | |intros s; by apply (recommended_factors g cs Hwf Hval cycles)|].
  - intros p Hp Hname. destruct (bool_decide (cycles = [])) eqn:Hnil; cbn [negb] in Hr3.
    + by eapply path_dependence_result.
    + unfold run_graph_paradox_suite in Hr3. invert_binds.
      repeat (apply elem_of_cons in Hp as [->|Hp]; [try done; try discriminate|]). by apply not_elem_of_nil in Hp.
  - destruct (bool_decide (cycles = [])) eqn:Hnil; cbn [negb] in *.
    { apply bool_decide_eq_true in Hnil. rewrite Hnil in Hr0. by apply (can_compile_acyclic g cs Hwf Hval). }
    apply bool_decide_eq_false in Hnil. rewrite (cyclic_exposure g cs Hwf cycles a1 Hr0 Hnil Hr2). unfold half_exposure. rewrite exposure_inj.
    split; [done|]. intros (Hh & _). vm_compute in Hh. discriminate.
  - intros Hcyc. destruct (bool_decide (cycles = [])) eqn:Hnil; cbn [negb] in *.
    + apply bool_decide_eq_true in Hnil. destruct Hcyc. rewrite Hnil in Hr0. by apply detect_cycles_nil_acyclic.
    + apply bool_decide_eq_false in Hnil. by apply (cyclic_exposure g cs Hwf cycles).
  - intros Hgap. destruct (sa_spectral_gap a3) as [gap|] eqn:Hg; [|done].
    match goal with Ho : spectral_analysis _ _ = Ok _ |- _ =>
      destruct (spectral_analysis_inv g cs a3 Hwf Ho) as (_ & _ & Hconn & Hspec) end. destruct (Hspec gap Hg) as (Hc & Hsz & _). split; [done|]. by apply Hconn.
Qed.
