(* ===== verification/Compiled.v ===== *)
(** * Compilation results and certificates (src/lib.rs, src/sacrifice.rs)

    What the compiler, the certifier and the sacrifice compiler produce and the
    ledger stores.  A description is a [Message] rendered to text by the
    formatting machinery, which is a parameter ([Rendering]); the hash of a
    compiled rule is a parameter too ([RuleHash]). *)

From S2P Require Import Prelude F64 Errors Core Mechanism RustEq ProtocolData.
From stdpp Require Import options.

(** [format!]: the text of a message. *)
Class Rendering := render : Message → string.

Record CompiledRule := mkCompiledRule {
  cr_name : string;
  cr_version : string;
  cr_axiom_verdicts : list Verdict;
  cr_strategyproofness : StrategyproofnessVerdict;
  cr_family_description : string;
  cr_compiled_at : string;
}.

Definition is_strategyproof (v : StrategyproofnessVerdict) : bool :=
  match v with Strategyproof => true | Manipulable _ _ _ _ _ => false end.

Definition CompiledRule_is_admissible (r : CompiledRule) : bool :=
  forallb verdict_admissible (cr_axiom_verdicts r) && is_strategyproof (cr_strategyproofness r).

(** The counterexamples of the rejected axioms. *)
Definition rejected_counterexamples (verdicts : list Verdict) : list Counterexample :=
  omap (λ v, match v with Rejected _ cx => Some cx | Admissible _ _ => None end) verdicts.

Definition CompiledRule_violations (r : CompiledRule) : list Counterexample :=
  rejected_counterexamples (cr_axiom_verdicts r).

(** The SHA-256 of the JSON of a compiled rule, or a serialization failure. *)
Class RuleHash := content_hash : CompiledRule → LResult string.

Record Certificate := mkCertificate {
  ct_rule_name : string;
  ct_rule_version : string;
  ct_compiled_rule_hash : string;
  ct_act_description : string;
  ct_claimant_id : string;
  ct_outcome : f64;
  ct_evidence : gmap string string;
  ct_issued_at : string;
  ct_admissible : bool;
}.

Record Family := mkFamily {
  reductions : bool;
  shocks : list f64;
  strengthening_deltas : list f64;
  monotonicity_inversion : bool;
}.

(** The [{:?}] of a list of floats. *)
Definition debug_floats (l : list f64) : Message :=
  Txt "[" :: tail (mjoin ((λ x, [Txt ", "; NumDebug x]) <$> l)) ++ [Txt "]"].

Definition bool_text (b : bool) : string := if b then "true" else "false".

Definition describe (family : Family) : Message :=
  [Txt "reductions="; Txt (bool_text (reductions family)); Txt ", shocks="] ++
  debug_floats (shocks family) ++ [Txt ", strengthening_deltas="] ++
  debug_floats (strengthening_deltas family) ++
  [Txt ", monotonicity_inversion="; Txt (bool_text (monotonicity_inversion family))].

Record RejectionReport := mkRejectionReport {
  rj_rule_name : string;
  rj_rule_version : string;
  rj_axiom_verdicts : list Verdict;
  rejected_at : string;
}.

Definition RejectionReport_violations (r : RejectionReport) : list Counterexample :=
  rejected_counterexamples (rj_axiom_verdicts r).

Inductive CompileResult : Type :=
  | CompiledAdmissible (rule : CompiledRule)
  | CompiledRejected (report : RejectionReport).

Definition CompileResult_is_admissible (r : CompileResult) : bool :=
  match r with CompiledAdmissible _ => true | CompiledRejected _ => false end.

Definition CompileResult_violations (r : CompileResult) : list Counterexample :=
  match r with CompiledAdmissible _ => [] | CompiledRejected report => RejectionReport_violations report end.

(* ------------------------------------------------------------------ *)
(** ** Declared sacrifices *)

Inductive CompiledGovernanceKind : Type := RuleKind | GraphKind.

Global Instance CompiledGovernanceKind_eq_dec : EqDecision CompiledGovernanceKind.
Proof. solve_decision. Defined.

Record SacrificeProvenance := mkProvenance {
  pv_compiled_kind : CompiledGovernanceKind;
  pv_compiled_name : string;
  pv_compiled_version : string;
  pv_compiled_at : string;
  pv_family_description : string;
  pv_source_axiom : string;
  pv_witness : Message;
}.

(** The compiled sacrifice record ([DeclaredSacrifice] of src/sacrifice.rs). *)
Record CompiledSacrifice := mkCompiledSacrifice {
  cs_sacrificed_property : GovernanceProperty;
  cs_justification : Message;
  cs_impact_bound : f64;
  cs_monitoring_plan : list MonitoringSpec;
  cs_provenance : SacrificeProvenance;
}.

(** The compiled graph of src/sacrifice.rs. *)
Record GraphCompilation := mkGraphCompilation {
  gp_name : string;
  gp_version : string;
  gp_axiom_verdicts : list Verdict;
  gp_strategyproofness : StrategyproofnessVerdict;
  gp_family_description : string;
  gp_compiled_at : string;
}.

Definition GraphCompilation_is_admissible (g : GraphCompilation) : bool :=
  forallb verdict_admissible (gp_axiom_verdicts g) && is_strategyproof (gp_strategyproofness g).

Definition GraphCompilation_violations (g : GraphCompilation) : list Counterexample :=
  rejected_counterexamples (gp_axiom_verdicts g).

Inductive CompiledGovernance : Type :=
  | GovernedRule (compiled : CompiledRule)
  | GovernedGraph (compiled : GraphCompilation).

Definition governance_kind (c : CompiledGovernance) : CompiledGovernanceKind :=
  match c with GovernedRule _ => RuleKind | GovernedGraph _ => GraphKind end.
Definition governance_name (c : CompiledGovernance) : string :=
  match c with GovernedRule r => cr_name r | GovernedGraph g => gp_name g end.
Definition governance_version (c : CompiledGovernance) : string :=
  match c with GovernedRule r => cr_version r | GovernedGraph g => gp_version g end.
Definition governance_family_description (c : CompiledGovernance) : string :=
  match c with GovernedRule r => cr_family_description r | GovernedGraph g => gp_family_description g end.
Definition governance_compiled_at (c : CompiledGovernance) : string :=
  match c with GovernedRule r => cr_compiled_at r | GovernedGraph g => gp_compiled_at g end.

Definition governance_verdicts (c : CompiledGovernance) : list Verdict :=
  match c with GovernedRule r => cr_axiom_verdicts r | GovernedGraph g => gp_axiom_verdicts g end.
Definition governance_strategyproofness (c : CompiledGovernance) : StrategyproofnessVerdict :=
  match c with GovernedRule r => cr_strategyproofness r | GovernedGraph g => gp_strategyproofness g end.

Record DeclaredSacrificesCertificate := mkSacrificesCertificate {
  dc_compiled : CompiledGovernance;
  dc_sacrifices : list CompiledSacrifice;
}.

(* ------------------------------------------------------------------ *)
(** ** Paradox violations (src/paradox.rs) *)

Inductive ParadoxType : Type := ClaimantAddition | Population | Priority.

Record ParadoxViolation := mkParadox {
  paradox_type : ParadoxType;
  px_description : Message;
  px_original_allocation : ValidAllocation;
  px_perturbed_allocation : ValidAllocation;
}.
