(* ===== verification/LedgerStore.v ===== *)
(** * The ledger's tables, its SQL statements and its hash chain
      (src/ledger.rs, src/ledger/chain/{mod,backfill,verify}.rs)

    The database is four tables and one head per table.  A statement of the
    source is a function on it in the [LedgerM] monad: it may fail with the
    error of its context, which [LedgerEnv] decides, and what earlier
    statements changed stays changed until a transaction is rolled back.  A
    row of a table is its typed columns with the two hash columns; rows are
    kept in rowid order.  The tables of an older schema are those with the
    columns' defaults filled in, as the ALTER TABLE statements do.  JSON
    rendering and SHA-256 are parameters ([LedgerCodec]). *)

From S2P Require Import Prelude F64 Errors Core Mechanism Clock ProtocolData Compiled.
From stdpp Require Import options.

Inductive LedgerTable : Type :=
  | CompiledRulesTable | CertificatesTable | DeclaredSacrificesTable | ParadoxResultsTable.

Global Instance LedgerTable_eq_dec : EqDecision LedgerTable.
Proof. solve_decision. Defined.

Definition table_name (t : LedgerTable) : string :=
  match t with
  | CompiledRulesTable => "compiled_rules"
  | CertificatesTable => "certificates"
  | DeclaredSacrificesTable => "declared_sacrifices"
  | ParadoxResultsTable => "paradox_results"
  end.

Definition ledger_tables : list LedgerTable :=
  [CompiledRulesTable; CertificatesTable; DeclaredSacrificesTable; ParadoxResultsTable].

(** The columns of a row, without the hashes. *)
Inductive Content : Type :=
  | CompiledRuleRow (name version : string) (admissible : bool)
      (family_description compiled_at axiom_verdicts_json strategyproofness_json : string)
  | CertificateRow (rule_name rule_version compiled_rule_hash claimant_id : string) (outcome : f64)
      (evidence_json issued_at : string)
  | DeclaredSacrificeRow (compiled_kind subject_name subject_version sacrificed_property justification : string)
      (impact_bound : f64) (monitoring_plan_json provenance_json declared_at : string)
  | ParadoxRow (rule_name paradox_type description detected_at : string).

Record StoredRow := mkRow {
  rowid : Z;
  row_content : Content;
  prev_hash : string;
  row_hash : string;
}.

Record TableState := mkTable {
  table_rows : list StoredRow;
  chain_head : option (Z * string);
}.

Abbreviation LedgerDb := (LedgerTable → TableState).

Definition empty_ledger : LedgerDb := λ _, mkTable [] None.

Definition set_table (db : LedgerDb) (t : LedgerTable) (s : TableState) : LedgerDb :=
  λ t', if decide (t' = t) then s else db t'.

(* ------------------------------------------------------------------ *)
(** ** Parameters *)

(** A [serde_json::Value] of the shapes the ledger builds. *)
Inductive JsonValue : Type :=
  | JsonString (s : string)
  | JsonBool (b : bool)
  | JsonNumber (x : f64)
  | JsonNull.

(** [json!(x)] for an [f64]: a number when it is finite, [null] otherwise. *)
Definition json_f64 (x : f64) : JsonValue := if f64_is_finite x then JsonNumber x else JsonNull.

Class LedgerCodec := {
  json_object : list (string * JsonValue) → string;    (* json!({...}).to_string() *)
  sha256_hex : string → string;                        (* the digest in lower-case hexadecimal *)
  verdicts_to_json : list Verdict → string;
  verdicts_from_json : string → option (list Verdict);
  strategyproofness_to_json : StrategyproofnessVerdict → string;
  strategyproofness_from_json : string → option StrategyproofnessVerdict;
  evidence_to_json : gmap string string → string;
  evidence_from_json : string → option (gmap string string);
  monitoring_plan_to_json : list MonitoringSpec → string;
  monitoring_plan_from_json : string → option (list MonitoringSpec);
  provenance_to_json : SacrificeProvenance → string;
  provenance_from_json : string → option SacrificeProvenance;
}.

(** The outside world: which statements and file operations fail, the clock,
    and what SQLite reads back from a REAL column. *)
Class LedgerEnv := {
  real_column : f64 → f64;
  statement_fails : string → LedgerDb → bool;
  create_directory_fails : string → bool;
  path_parent : string → option string;
  default_ledger_path : LResult string;
  now : LedgerDb → option Z;
}.

(* ------------------------------------------------------------------ *)
(** ** The monad of ledger operations *)

Definition LedgerM (A : Type) : Type := LedgerDb → LResult A * LedgerDb.

Global Instance LedgerM_ret : MRet LedgerM := λ A a db, (Ok a, db).
Global Instance LedgerM_bind : MBind LedgerM := λ A B k m db,
  match m db with
  | (Ok a, db) => k a db
  | (Err e, db) => (Err e, db)
  end.

(** A fallible computation that does not touch the database. *)
Definition pure_result {A} (r : LResult A) : LedgerM A := λ db, (r, db).

(** [for x in xs { f(x)?; }] *)
Fixpoint ledger_iter {A} (f : A → LedgerM unit) (l : list A) : LedgerM unit :=
  match l with
  | [] => mret ()
  | x :: l => _ ← f x; ledger_iter f l
  end.

Section ledger.
Context `{codec : !LedgerCodec, env : !LedgerEnv}.

(** A statement with the context its failure is reported under. *)
Definition statement {A} (context : string) (f : LedgerDb → A * LedgerDb) : LedgerM A :=
  λ db, if statement_fails context db then (Err (Sqlite context), db)
        else let '(a, db') := f db in (Ok a, db').

Definition update (context : string) (f : LedgerDb → LedgerDb) : LedgerM unit :=
  statement context (λ db, ((), f db)).

Definition query {A} (context : string) (f : LedgerDb → A) : LedgerM A :=
  statement context (λ db, (f db, db)).

Definition current_timestamp : LedgerM string := λ db, (iso8601_timestamp (now db), db).

(* ------------------------------------------------------------------ *)
(** ** Transactions *)

Definition run_in_transaction {A} (begin : string) (context : string) (f : LedgerM A) : LedgerM A :=
  λ db,
    if statement_fails ("starting " +:+ context +:+ " transaction") db
    then (Err (Sqlite ("starting " +:+ context +:+ " transaction")), db)
    else
      match f db with
      | (Ok value, db') =>
          if statement_fails ("committing " +:+ context +:+ " transaction") db'
          then (Err (Sqlite ("committing " +:+ context +:+ " transaction")), db)
          else (Ok value, db')
      | (Err error, _) => (Err error, db)
      end.

Definition run_in_deferred_transaction {A} (context : string) (f : LedgerM A) : LedgerM A :=
  run_in_transaction "BEGIN DEFERRED TRANSACTION" context f.

Definition run_in_immediate_transaction {A} (context : string) (f : LedgerM A) : LedgerM A :=
  run_in_transaction "BEGIN IMMEDIATE TRANSACTION" context f.

(* ------------------------------------------------------------------ *)
(** ** Hashes and JSON contents *)

Definition chain_hash (prev_hash : string) (rowid : Z) (content_json : string) : string :=
  sha256_hex (prev_hash +:+ pretty rowid +:+ content_json).

Definition compiled_rule_content_json (name version : string) (admissible : bool)
    (family_description compiled_at axiom_verdicts_json strategyproofness_json : string) : string :=
  json_object [("name", JsonString name); ("version", JsonString version);
    ("admissible", JsonBool admissible); ("family_description", JsonString family_description);
    ("compiled_at", JsonString compiled_at); ("axiom_verdicts_json", JsonString axiom_verdicts_json);
    ("strategyproofness_json", JsonString strategyproofness_json)].

Definition legacy_compiled_rule_content_json (name version : string) (admissible : bool)
    (family_description compiled_at axiom_verdicts_json : string) : string :=
  json_object [("name", JsonString name); ("version", JsonString version);
    ("admissible", JsonBool admissible); ("family_description", JsonString family_description);
    ("compiled_at", JsonString compiled_at); ("axiom_verdicts_json", JsonString axiom_verdicts_json)].

Definition certificate_content_json (rule_name rule_version compiled_rule_hash claimant_id : string)
    (outcome : f64) (evidence_json issued_at : string) : string :=
  json_object [("rule_name", JsonString rule_name); ("rule_version", JsonString rule_version);
    ("compiled_rule_hash", JsonString compiled_rule_hash); ("claimant_id", JsonString claimant_id);
    ("outcome", json_f64 outcome); ("evidence_json", JsonString evidence_json);
    ("issued_at", JsonString issued_at)].

Definition legacy_certificate_content_json (rule_name rule_version claimant_id : string)
    (outcome : f64) (evidence_json issued_at : string) : string :=
  json_object [("rule_name", JsonString rule_name); ("rule_version", JsonString rule_version);
    ("claimant_id", JsonString claimant_id); ("outcome", json_f64 outcome);
    ("evidence_json", JsonString evidence_json); ("issued_at", JsonString issued_at)].

Definition declared_sacrifice_content_json
    (compiled_kind subject_name subject_version sacrificed_property justification : string)
    (impact_bound : f64) (monitoring_plan_json provenance_json declared_at : string) : string :=
  json_object [("compiled_kind", JsonString compiled_kind); ("subject_name", JsonString subject_name);
    ("subject_version", JsonString subject_version);
    ("sacrificed_property", JsonString sacrificed_property);
    ("justification", JsonString justification); ("impact_bound", json_f64 impact_bound);
    ("monitoring_plan_json", JsonString monitoring_plan_json);
    ("provenance_json", JsonString provenance_json); ("declared_at", JsonString declared_at)].

Definition paradox_result_content_json (rule_name paradox_type description detected_at : string) : string :=
  json_object [("rule_name", JsonString rule_name); ("paradox_type", JsonString paradox_type);
    ("description", JsonString description); ("detected_at", JsonString detected_at)].

(** The content whose hash a row of each table carries. *)
Definition content_json (c : Content) : string :=
  match c with
  | CompiledRuleRow n v a f c av s => compiled_rule_content_json n v a f c av s
  | CertificateRow r v h i o e t => certificate_content_json r v h i o e t
  | DeclaredSacrificeRow k n v p j b m pr d => declared_sacrifice_content_json k n v p j b m pr d
  | ParadoxRow r p d t => paradox_result_content_json r p d t
  end.

(** The JSON text ["Strategyproof"], the default of the added column. *)
Definition STRATEGYPROOF_JSON : string :=
  String (Ascii.ascii_of_nat 34) ("Strategyproof" +:+ String (Ascii.ascii_of_nat 34) EmptyString).

(** The content an older version hashed, for the rows it may have written. *)
Definition legacy_content_json (c : Content) : option string :=
  match c with
  | CompiledRuleRow n v a f c av s =>
      if decide (s = STRATEGYPROOF_JSON) then Some (legacy_compiled_rule_content_json n v a f c av)
      else None
  | CertificateRow r v h i o e t =>
      if decide (h = "") then Some (legacy_certificate_content_json r v i o e t) else None
  | _ => None
  end.

(* ------------------------------------------------------------------ *)
(** ** Chain statements *)

Definition previous_hash (t : LedgerTable) : LedgerM string :=
  query ("reading previous hash from '" +:+ table_name t +:+ "'")
    (λ db, match last (table_rows (db t)) with Some row => row_hash row | None => "" end).

Definition table_row_count (t : LedgerTable) : LedgerM Z :=
  query ("counting rows in '" +:+ table_name t +:+ "'") (λ db, Z.of_nat (length (table_rows (db t)))).

Definition update_chain_head (t : LedgerTable) (head_hash : string) : LedgerM unit :=
  row_count ← table_row_count t;
  update ("updating chain head for '" +:+ table_name t +:+ "'")
    (λ db, set_table db t (mkTable (table_rows (db t)) (Some (row_count, head_hash)))).

(** The columns as they are read back. *)
Definition stored_columns (c : Content) : Content :=
  match c with
  | CertificateRow r v h i outcome e t => CertificateRow r v h i (real_column outcome) e t
  | DeclaredSacrificeRow k n v p j bound m pr d => DeclaredSacrificeRow k n v p j (real_column bound) m pr d
  | c => c
  end.

(** INSERT: the rowid after the largest one; it is the one reported. *)
Definition next_rowid (rows : list StoredRow) : Z :=
  match last rows with Some row => rowid row + 1 | None => 1 end.

Definition insert_row (context : string) (t : LedgerTable) (content : Content) (prev : string) : LedgerM Z :=
  statement context (λ db,
    let id := next_rowid (table_rows (db t)) in
    (id, set_table db t (mkTable (table_rows (db t) ++ [mkRow id (stored_columns content) prev ""]) (chain_head (db t))))).

(** UPDATE ... SET row_hash = ?1 WHERE rowid = ?2 *)
Definition set_row_hash (context : string) (t : LedgerTable) (id : Z) (hash : string) : LedgerM unit :=
  update context (λ db,
    set_table db t (mkTable
      ((λ row, if decide (rowid row = id) then mkRow id (row_content row) (prev_hash row) hash else row)
         <$> table_rows (db t)) (chain_head (db t)))).

(** UPDATE ... SET prev_hash = ?1, row_hash = ?2 WHERE rowid = ?3 *)
Definition set_row_hashes (context : string) (t : LedgerTable) (id : Z) (prev hash : string) : LedgerM unit :=
  update context (λ db,
    set_table db t (mkTable
      ((λ row, if decide (rowid row = id) then mkRow id (row_content row) prev hash else row)
         <$> table_rows (db t)) (chain_head (db t)))).

(** INSERT, hash, UPDATE and head, as every recording does inside its transaction. *)
Definition append_row (recording finalizing : string) (t : LedgerTable) (content : Content) : LedgerM unit :=
  prev ← previous_hash t;
  id ← insert_row recording t content prev;
  let hash := chain_hash prev id (content_json content) in
  _ ← set_row_hash finalizing t id hash;
  update_chain_head t hash.

Definition insert_paradox_row (rule_name paradox_type description detected_at : string) : LedgerM unit :=
  run_in_immediate_transaction "recording paradox result"
    (append_row "recording paradox result" "finalizing paradox hash" ParadoxResultsTable
       (ParadoxRow rule_name paradox_type description detected_at)).

(* ------------------------------------------------------------------ *)
(** ** Verification *)

Record TableChainStatus := mkStatus {
  status_table : string;
  status_valid : bool;
  checked_rows : nat;
  status_error : option Message;
}.

Record ChainVerificationResult := mkVerification {
  chain_valid : bool;
  chain_tables : list TableChainStatus;
}.

Definition valid_table_status (t : LedgerTable) (checked_rows : nat) : TableChainStatus :=
  mkStatus (table_name t) true checked_rows None.

Definition invalid_table_status (t : LedgerTable) (checked_rows : nat) (error : Message) : TableChainStatus :=
  mkStatus (table_name t) false checked_rows (Some error).

(** One row of the verification loop. *)
Definition verify_row (t : LedgerTable) (state : string * nat) (row : StoredRow)
    : LResult (Flow (string * nat) TableChainStatus) :=
  let '(previous, checked_rows) := state in
  if decide (prev_hash row = previous) then
    let expected := chain_hash (prev_hash row) (rowid row) (content_json (row_content row)) in
    let legacy_expected := chain_hash (prev_hash row) (rowid row) <$> legacy_content_json (row_content row) in
    if bool_decide (row_hash row ≠ expected) && bool_decide (legacy_expected ≠ Some (row_hash row))
    then Ok (Break (invalid_table_status t checked_rows
           [Txt "rowid "; Int (rowid row); Txt " has mismatched row_hash"]))
    else Ok (Continue (row_hash row, S checked_rows))
  else Ok (Break (invalid_table_status t checked_rows
         [Txt "rowid "; Int (rowid row); Txt " has mismatched prev_hash"])).

Definition verify_chain_head (t : LedgerTable) (checked_rows : nat) (observed_head_hash : string)
    : LedgerM (option TableChainStatus) :=
  expected ← query ("reading chain head for '" +:+ table_name t +:+ "'") (λ db, chain_head (db t));
  match expected with
  | None => mret (Some (invalid_table_status t checked_rows [Txt "missing anchored chain head"]))
  | Some (expected_rows, expected_hash) =>
      mret (if decide (expected_rows = Z.of_nat checked_rows) then
              if decide (expected_hash = observed_head_hash) then None
              else Some (invalid_table_status t checked_rows
                     [Txt "anchored head_hash does not match observed head"])
            else Some (invalid_table_status t checked_rows
                   [Txt "anchored row_count "; Int expected_rows; Txt " does not match observed ";
                    Int (Z.of_nat checked_rows)]))
  end.

Definition verify_table_chain (label : string) (t : LedgerTable) : LedgerM TableChainStatus :=
  rows ← query ("preparing " +:+ label +:+ " chain verification") (λ db, table_rows (db t));
  fl ← pure_result (try_loop (verify_row t) ("", 0) rows);
  match fl with
  | Break status => mret status
  | Continue (previous, checked_rows) =>
      status ← verify_chain_head t checked_rows previous;
      mret (match status with Some status => status | None => valid_table_status t checked_rows end)
  end.

Definition verify_compiled_rules_chain : LedgerM TableChainStatus :=
  verify_table_chain "compiled rule" CompiledRulesTable.
Definition verify_certificates_chain : LedgerM TableChainStatus :=
  verify_table_chain "certificate" CertificatesTable.
Definition verify_declared_sacrifices_chain : LedgerM TableChainStatus :=
  verify_table_chain "declared sacrifice" DeclaredSacrificesTable.
Definition verify_paradox_results_chain : LedgerM TableChainStatus :=
  verify_table_chain "paradox" ParadoxResultsTable.

Definition chain_verification : LedgerM ChainVerificationResult :=
  run_in_deferred_transaction "verifying ledger chain" (
    s1 ← verify_compiled_rules_chain;
    s2 ← verify_certificates_chain;
    s3 ← verify_declared_sacrifices_chain;
    s4 ← verify_paradox_results_chain;
    mret (mkVerification (forallb status_valid [s1; s2; s3; s4]) [s1; s2; s3; s4])).

(* ------------------------------------------------------------------ *)
(** ** Backfill and schema *)

Definition table_needs_backfill (t : LedgerTable) : LedgerM bool :=
  query ("checking chain completeness for '" +:+ table_name t +:+ "'")
    (λ db, existsb (λ row, bool_decide (row_hash row = "")) (table_rows (db t))).

(** The loop that re-hashes the rows in rowid order. *)
Fixpoint backfill_rows (label : string) (t : LedgerTable) (previous : string) (rows : list StoredRow)
    : LedgerM unit :=
  match rows with
  | [] => mret ()
  | row :: rows =>
      let hash := chain_hash previous (rowid row) (content_json (row_content row)) in
      _ ← set_row_hashes ("updating " +:+ label +:+ " chain backfill") t (rowid row) previous hash;
      backfill_rows label t hash rows
  end.

Definition backfill_chain (label : string) (t : LedgerTable) : LedgerM unit :=
  rows ← query ("preparing " +:+ label +:+ " chain backfill") (λ db, table_rows (db t));
  backfill_rows label t "" rows.

Definition backfill_compiled_rules_chain : LedgerM unit := backfill_chain "compiled rule" CompiledRulesTable.
Definition backfill_certificates_chain : LedgerM unit := backfill_chain "certificate" CertificatesTable.
Definition backfill_declared_sacrifices_chain : LedgerM unit :=
  backfill_chain "declared sacrifice" DeclaredSacrificesTable.
Definition backfill_paradox_results_chain : LedgerM unit := backfill_chain "paradox" ParadoxResultsTable.

Definition initialize_chain_head (t : LedgerTable) : LedgerM unit :=
  existing ← query ("checking chain head for '" +:+ table_name t +:+ "'") (λ db, chain_head (db t));
  match existing with
  | Some _ => mret ()
  | None => head_hash ← previous_hash t; update_chain_head t head_hash
  end.

(** Both hash columns are there already, or are added with their default. *)
Definition ensure_chain_columns (t : LedgerTable) : LedgerM unit :=
  update ("reading schema for '" +:+ table_name t +:+ "'") id.

Definition backfill_if_needed (t : LedgerTable) (backfill : LedgerM unit) : LedgerM unit :=
  needed ← table_needs_backfill t;
  if needed : bool then backfill else mret ().

Definition ensure_chain_schema : LedgerM unit :=
  _ ← update "creating ledger chain head schema" id;
  _ ← ledger_iter ensure_chain_columns ledger_tables;
  _ ← backfill_if_needed CompiledRulesTable backfill_compiled_rules_chain;
  _ ← backfill_if_needed CertificatesTable backfill_certificates_chain;
  _ ← backfill_if_needed DeclaredSacrificesTable backfill_declared_sacrifices_chain;
  _ ← backfill_if_needed ParadoxResultsTable backfill_paradox_results_chain;
  ledger_iter initialize_chain_head ledger_tables.
End ledger.

(* ------------------------------------------------------------------ *)
(** * Reasoning about the ledger's statements

    Rules for the monad of LedgerStore: what every run of an operation, failed
    or not, keeps related ([stable]); what a successful run relates
    ([commits], enough inside a transaction); and a Hoare triple whose error
    outcome is charged to a failing statement ([runs]). *)

Definition stable (R : relation LedgerDb) {A} (m : LedgerM A) : Prop := ∀ db, R db (m db).2.

Definition commits (R : relation LedgerDb) {A} (m : LedgerM A) : Prop :=
  ∀ db a db', m db = (Ok a, db') → R db db'.

Section rules.
Context `{codec : !LedgerCodec, env : !LedgerEnv}.
Context (R : relation LedgerDb) `{pre : !PreOrder R}.

Lemma stable_commits {A} (m : LedgerM A) : stable R m → commits R m.
Proof. intros Hm db a db' Heq. specialize (Hm db). by rewrite Heq in Hm. Qed.

Lemma stable_ret {A} (a : A) : stable R (mret (M:=LedgerM) a).
Proof using pre. by intros db. Qed.

Lemma stable_pure {A} (r : LResult A) : stable R (pure_result r).
Proof using pre. by intros db. Qed.

Lemma stable_timestamp : stable R current_timestamp.
Proof using pre. by intros db. Qed.

Lemma stable_bind {A B} (m : LedgerM A) (k : A → LedgerM B) :
  stable R m → (∀ a, stable R (k a)) → stable R (a ← m; k a).
Proof using pre.
  intros Hm Hk db. unfold mbind, LedgerM_bind. specialize (Hm db).
  destruct (m db) as [[a|e] db']; cbn [snd] in *; [|done].
  etrans; [exact Hm|apply Hk].
Qed.

Lemma commits_bind {A B} (m : LedgerM A) (k : A → LedgerM B) :
  commits R m → (∀ a, commits R (k a)) → commits R (a ← m; k a).
Proof using pre.
  intros Hm Hk db b db' Heq. unfold mbind, LedgerM_bind in Heq.
  destruct (m db) as [[a|e] db1] eqn:Hm1; [|done].
  etrans; [by eapply Hm|by eapply Hk].
Qed.

Lemma stable_query {A} context (f : LedgerDb → A) : stable R (query context f).
Proof using pre. intros db. unfold query, statement. by destruct (statement_fails _ _). Qed.

Lemma stable_update context (f : LedgerDb → LedgerDb) :
  (∀ db, R db (f db)) → stable R (update context f).
Proof using pre. intros Hf db. unfold update, statement. by destruct (statement_fails _ _); cbn [snd]. Qed.

Lemma stable_update_id context : stable R (update context id).
Proof using pre. by apply stable_update. Qed.

Lemma stable_iter {A} (f : A → LedgerM unit) l :
  (∀ x, x ∈ l → stable R (f x)) → stable R (ledger_iter f l).
Proof using pre.
  intros Hf. induction l as [|x l IH]; [apply stable_ret|]. simpl. apply stable_bind.
  - apply Hf. by constructor.
  - intros _. apply IH. intros y Hy. apply Hf. by constructor.
Qed.

Lemma commits_iter {A} (f : A → LedgerM unit) l :
  (∀ x, x ∈ l → commits R (f x)) → commits R (ledger_iter f l).
Proof using pre.
  intros Hf. induction l as [|x l IH]; [apply stable_commits, stable_ret|]. simpl. apply commits_bind.
  - apply Hf. by constructor.
  - intros _. apply IH. intros y Hy. apply Hf. by constructor.
Qed.

(** A transaction that fails leaves nothing behind. *)
Lemma stable_transaction {A} begin context (m : LedgerM A) :
  commits R m → stable R (run_in_transaction begin context m).
Proof using pre.
  intros Hm db. unfold run_in_transaction. destruct (statement_fails _ db); [done|].
  destruct (m db) as [[a|e] db'] eqn:He; [|done]. destruct (statement_fails _ db'); [done|].
  by eapply Hm.
Qed.
End rules.

(** Splits a sequence of statements into its statements. *)
Ltac ledger_steps :=
  lazymatch goal with
  | |- stable _ (mbind _ _) => apply stable_bind; [apply _|ledger_steps|intros ?; ledger_steps]
  | |- stable _ (ledger_iter _ _) => apply stable_iter; [apply _|intros ? ?; ledger_steps]
  | |- stable _ (mret _) => apply stable_ret; apply _
  | |- stable _ (pure_result _) => apply stable_pure; apply _
  | |- stable _ current_timestamp => apply stable_timestamp; apply _
  | |- stable _ (query _ _) => apply stable_query; apply _
  | |- stable _ (update _ id) => apply stable_update_id; apply _
  | |- stable _ (match ?x with _ => _ end) => destruct x; ledger_steps
  | |- _ => idtac
  end.

(* ------------------------------------------------------------------ *)
(** ** Triples *)

Section triples.
Context `{codec : !LedgerCodec, env : !LedgerEnv}.

(** No statement and no file operation fails. *)
Definition quiet : Prop :=
  (∀ context db, statement_fails context db = false) ∧ ∀ path, create_directory_fails path = false.

Definition runs {A} (P : LedgerDb → Prop) (m : LedgerM A) (Q : A → LedgerDb → Prop) : Prop :=
  ∀ db, P db → match m db with (Ok a, db') => Q a db' | (Err _, _) => ¬ quiet end.

Lemma runs_ret {A} (a : A) (Q : A → LedgerDb → Prop) : runs (Q a) (mret a) Q.
Proof. by intros db H. Qed.

Lemma runs_bind {A B} P Q R (m : LedgerM A) (k : A → LedgerM B) :
  runs P m Q → (∀ a, runs (Q a) (k a) R) → runs P (a ← m; k a) R.
Proof.
  intros Hm Hk db HP. unfold mbind, LedgerM_bind. specialize (Hm db HP).
  destruct (m db) as [[a|e] db']; [|done]. by apply Hk.
Qed.

Lemma runs_conseq {A} (P P' : LedgerDb → Prop) Q Q' (m : LedgerM A) :
  runs P' m Q' → (∀ db, P db → P' db) → (∀ a db, Q' a db → Q a db) → runs P m Q.
Proof.
  intros Hm HP HQ db Hdb. specialize (Hm db (HP _ Hdb)). destruct (m db) as [[a|e] db']; [|done].
  by apply HQ.
Qed.

Lemma runs_query {A} context (f : LedgerDb → A) (P : LedgerDb → Prop) :
  runs P (query context f) (λ a db, a = f db ∧ P db).
Proof.
  intros db HP. unfold query, statement. destruct (statement_fails context db) eqn:Hf; [|done].
  intros [Hq _]. by rewrite Hq in Hf.
Qed.

Lemma runs_update context (f : LedgerDb → LedgerDb) (P Q : LedgerDb → Prop) :
  (∀ db, P db → Q (f db)) → runs P (update context f) (λ _ db, Q db).
Proof.
  intros Hf db HP. unfold update, statement. destruct (statement_fails context db) eqn:Hs; [|by apply Hf].
  intros [Hq _]. by rewrite Hq in Hs.
Qed.

Lemma runs_iter {A} (f : A → LedgerM unit) (I : list A → LedgerDb → Prop) l :
  (∀ x l, runs (I (x :: l)) (f x) (λ _, I l)) → runs (I l) (ledger_iter f l) (λ _, I []).
Proof.
  intros Hf. induction l as [|x l IH]; [by intros db|].
  simpl. eapply runs_bind; [apply Hf|intros a; exact IH].
Qed.

(** Statements that keep an assertion. *)
Definition keeps {A} (P : LedgerDb → Prop) (m : LedgerM A) : Prop := runs P m (λ _, P).

Lemma runs_seq {A B} P Q (m : LedgerM A) (k : LedgerM B) :
  keeps P m → runs P k Q → runs P (_ ← m; k) Q.
Proof. intros Hm Hk. eapply runs_bind; [exact Hm|intros a; exact Hk]. Qed.

Lemma keeps_update_id P context : keeps P (update context id).
Proof. by apply runs_update. Qed.

Lemma keeps_iter {A} P (f : A → LedgerM unit) l : (∀ x, keeps P (f x)) → keeps P (ledger_iter f l).
Proof. intros Hf. apply (runs_iter f (λ _, P)). intros x _. apply Hf. Qed.

(** A read from [d]. *)
Definition reads {A} (d : LedgerDb) (m : LedgerM A) (Φ : A → Prop) : Prop :=
  runs (λ db, db = d) m (λ a db, db = d ∧ Φ a).

Lemma reads_ret {A} d (a : A) (Φ : A → Prop) : Φ a → reads d (mret a) Φ.
Proof. by intros Ha db ->. Qed.

Lemma reads_query {A} d context (f : LedgerDb → A) : reads d (query context f) (λ a, a = f d).
Proof. apply (runs_conseq _ _ _ _ _ (runs_query context f (λ db, db = d))); [done|]. by intros a db [-> ->]. Qed.

Lemma reads_bind {A B} d (m : LedgerM A) (k : A → LedgerM B) Φ Ψ :
  reads d m Φ → (∀ a, Φ a → reads d (k a) Ψ) → reads d (a ← m; k a) Ψ.
Proof.
  intros Hm Hk. eapply runs_bind; [exact Hm|]. intros a db [-> Ha]. by apply (Hk a Ha).
Qed.

Lemma runs_transaction {A} begin context (m : LedgerM A) P Q :
  runs P m Q → runs P (run_in_transaction begin context m) Q.
Proof.
  intros Hm db HP. unfold run_in_transaction. specialize (Hm db HP).
  destruct (statement_fails _ db) eqn:Hs; [intros [Hq _]; by rewrite Hq in Hs|].
  destruct (m db) as [[a|e] db']; [|done].
  destruct (statement_fails _ db') eqn:Hs'; [|done]. intros [Hq _]. by rewrite Hq in Hs'.
Qed.
End triples.
