(* ===== verification/Ledger.v ===== *)
(** * The audit ledger's operations (src/ledger.rs)

    Opening, recording and auditing.  Every operation goes through
    [with_connection], which creates what is missing and completes the hash
    chain before the operation's own statements run. *)

From S2P Require Import Prelude F64 Errors Core Mechanism Rules ProtocolData Compiled Clock LedgerStore.
From stdpp Require Import options.

Record Ledger := mkLedgerAt { ledger_path : string }.

(** [limit] is the number of rows asked for; a [usize]. *)
Record LedgerQuery := mkQuery {
  q_rule_name : option string;
  q_rule_version : option string;
  q_claimant_id : option string;
  q_limit : nat;
}.

Definition with_limit (limit : nat) : LedgerQuery := mkQuery None None None limit.
Definition limit_or_default (q : LedgerQuery) : nat := Nat.max (q_limit q) 1.

Record CompiledRuleRecord := mkCompiledRuleRecord {
  crr_name : string;
  crr_version : string;
  crr_admissible : bool;
  crr_family_description : string;
  crr_compiled_at : string;
  crr_axiom_verdicts : list Verdict;
  crr_strategyproofness : StrategyproofnessVerdict;
}.

Record CertificateRecord := mkCertificateRecord {
  ctr_rule_name : string;
  ctr_rule_version : string;
  ctr_compiled_rule_hash : string;
  ctr_claimant_id : string;
  ctr_outcome : f64;
  ctr_evidence : gmap string string;
  ctr_issued_at : string;
}.

Record DeclaredSacrificeRecord := mkSacrificeRecord {
  dsr_compiled_kind : CompiledGovernanceKind;
  dsr_subject_name : string;
  dsr_subject_version : string;
  dsr_sacrificed_property : GovernanceProperty;
  dsr_justification : string;
  dsr_impact_bound : f64;
  dsr_monitoring_plan : list MonitoringSpec;
  dsr_provenance : SacrificeProvenance;
  dsr_declared_at : string;
}.

Record ParadoxResultRecord := mkParadoxRecord {
  prr_rule_name : string;
  prr_paradox_type : string;
  prr_description : string;
  prr_detected_at : string;
}.

Record LedgerAuditReport := mkAuditReport {
  report_ledger_path : string;
  report_compiled_rules : list CompiledRuleRecord;
  report_certificates : list CertificateRecord;
  report_sacrifices : list DeclaredSacrificeRecord;
  report_paradox_results : list ParadoxResultRecord;
}.

(* ------------------------------------------------------------------ *)
(** ** Labels *)

Definition compiled_kind_label (kind : CompiledGovernanceKind) : string :=
  match kind with RuleKind => "rule" | GraphKind => "graph" end.

Definition parse_compiled_kind (value : string) : LResult CompiledGovernanceKind :=
  if decide (value = "rule") then Ok RuleKind
  else if decide (value = "graph") then Ok GraphKind
  else Err (invalid_input [Txt "unknown compiled governance kind '"; Txt value; Txt "' in ledger"]).

Definition parse_governance_property (value : string) : LResult GovernanceProperty :=
  if decide (value = "consistency") then Ok Consistency
  else if decide (value = "solidarity") then Ok Solidarity
  else if decide (value = "monotonicity") then Ok Monotonicity
  else if decide (value = "strategyproofness") then Ok Strategyproofness
  else if decide (value = "certifiability") then Ok Certifiability
  else if decide (value = "observable_determinacy") then Ok ObservableDeterminacy
  else if decide (value = "corrigibility") then Ok Corrigibility
  else if decide (value = "compositional_safety") then Ok CompositionalSafety
  else if decide (value = "non_vacuous" ∨ value = "nonvacuous") then Ok NonVacuous
  else Err (invalid_input [Txt "unknown governance property '"; Txt value; Txt "' in ledger"]).

Definition paradox_type_label (p : ParadoxType) : string :=
  match p with
  | ClaimantAddition => "claimant_addition"
  | Population => "population"
  | Priority => "priority"
  end.

Section operations.
Context `{codec : !LedgerCodec, env : !LedgerEnv, rendering : !Rendering}.

(** Adds a column with its default to a table that lacks it; the modelled rows
    have every column. *)
Definition ensure_column (table column : string) : LedgerM unit :=
  _ ← update ("reading schema for '" +:+ table +:+ "'") id; mret ().

(** *** Opening *)

Definition with_connection {A} (self : Ledger) (f : LedgerM A) : LedgerM A :=
  _ ← pure_result
        (match path_parent (ledger_path self) with
         | Some parent =>
             if create_directory_fails parent
             then Err (Io ("creating ledger directory '" +:+ parent +:+ "'")) else Ok ()
         | None => Ok ()
         end);
  _ ← update ("opening ledger '" +:+ ledger_path self +:+ "'") id;
  _ ← update "setting ledger busy timeout" id;
  _ ← update "enabling ledger WAL mode" id;
  _ ← update "creating ledger schema" id;
  _ ← ensure_column "compiled_rules" "strategyproofness_json";
  _ ← ensure_column "certificates" "compiled_rule_hash";
  _ ← ensure_chain_schema;
  f.

Definition Ledger_open (path : string) : LedgerM Ledger :=
  let ledger := mkLedgerAt path in
  _ ← with_connection ledger (mret ());
  mret ledger.

Definition open_default : LedgerM Ledger :=
  path ← pure_result default_ledger_path; Ledger_open path.

(** *** Recording *)

Definition compiled_rule_row (r : CompiledRule) : Content :=
  CompiledRuleRow (cr_name r) (cr_version r) (CompiledRule_is_admissible r)
    (cr_family_description r) (cr_compiled_at r) (verdicts_to_json (cr_axiom_verdicts r))
    (strategyproofness_to_json (cr_strategyproofness r)).

Definition record_compiled_rule (self : Ledger) (compiled_rule : CompiledRule) : LedgerM unit :=
  with_connection self
    (run_in_immediate_transaction "recording compiled rule"
       (append_row "recording compiled rule" "finalizing compiled rule hash" CompiledRulesTable
          (compiled_rule_row compiled_rule))).

Definition certificate_row (c : Certificate) : Content :=
  CertificateRow (ct_rule_name c) (ct_rule_version c) (ct_compiled_rule_hash c) (ct_claimant_id c)
    (ct_outcome c) (evidence_to_json (ct_evidence c)) (ct_issued_at c).

Definition record_certificate (self : Ledger) (certificate : Certificate) : LedgerM unit :=
  with_connection self
    (run_in_immediate_transaction "recording certificate"
       (append_row "recording certificate" "finalizing certificate hash" CertificatesTable
          (certificate_row certificate))).

Definition sacrifice_row (compiled : CompiledGovernance) (declared_at : string) (s : CompiledSacrifice) : Content :=
  DeclaredSacrificeRow (compiled_kind_label (governance_kind compiled)) (governance_name compiled)
    (governance_version compiled) (as_str (cs_sacrificed_property s)) (render (cs_justification s))
    (cs_impact_bound s) (monitoring_plan_to_json (cs_monitoring_plan s))
    (provenance_to_json (cs_provenance s)) declared_at.

Definition record_declared_sacrifices (self : Ledger) (certificate : DeclaredSacrificesCertificate)
    : LedgerM unit :=
  declared_at ← current_timestamp;
  with_connection self
    (run_in_immediate_transaction "recording declared sacrifices"
       (ledger_iter (λ sacrifice,
          append_row "recording declared sacrifice" "finalizing declared sacrifice hash"
            DeclaredSacrificesTable (sacrifice_row (dc_compiled certificate) declared_at sacrifice))
          (dc_sacrifices certificate))).

Definition record_paradox_results (self : Ledger) (rule : Rule) (violations : list ParadoxViolation)
    : LedgerM unit :=
  with_connection self
    (if decide (length violations = 0) then
       detected_at ← current_timestamp;
       insert_paradox_row (rule_name rule) "none" "No paradox violations detected" detected_at
     else
       ledger_iter (λ violation,
         detected_at ← current_timestamp;
         insert_paradox_row (rule_name rule) (paradox_type_label (paradox_type violation))
           (render (px_description violation)) detected_at) violations).

(** *** Auditing *)

(** [?1 IS NULL OR column = ?1] *)
Definition matches (filter : option string) (value : string) : bool :=
  match filter with None => true | Some f => bool_decide (value = f) end.

(** WHERE ... ORDER BY rowid DESC LIMIT n *)
Definition newest (limit : nat) (keep : Content → bool) (rows : list StoredRow) : list Content :=
  take limit (reverse (filter (λ c, keep c = true) (row_content <$> rows))).

Definition load_compiled_rules (q : LedgerQuery) : LedgerM (list CompiledRuleRecord) :=
  rows ← query "preparing compiled rule audit query" (λ db,
    newest (limit_or_default q) (λ c,
      match c with
      | CompiledRuleRow name version _ _ _ _ _ =>
          matches (q_rule_name q) name && matches (q_rule_version q) version
      | _ => false
      end) (table_rows (db CompiledRulesTable)));
  pure_result (try_map (λ row,
    match row with
    | CompiledRuleRow name version admissible family compiled_at verdicts_json strategyproofness_json =>
        axiom_verdicts ← ok_or (verdicts_from_json verdicts_json)
                           (Json "ledger compiled rule axiom verdicts");
        strategyproofness ← ok_or (strategyproofness_from_json strategyproofness_json)
                              (Json "ledger compiled rule strategyproofness");
        Ok (mkCompiledRuleRecord name version admissible family compiled_at axiom_verdicts
              strategyproofness)
    | _ => Err (Sqlite "reading compiled rule audit row")
    end) rows).

Definition load_certificates (q : LedgerQuery) : LedgerM (list CertificateRecord) :=
  rows ← query "preparing certificate audit query" (λ db,
    newest (limit_or_default q) (λ c,
      match c with
      | CertificateRow rule_name rule_version _ claimant_id _ _ _ =>
          matches (q_rule_name q) rule_name && matches (q_rule_version q) rule_version
          && matches (q_claimant_id q) claimant_id
      | _ => false
      end) (table_rows (db CertificatesTable)));
  pure_result (try_map (λ row,
    match row with
    | CertificateRow rule_name rule_version hash claimant_id outcome evidence_json issued_at =>
        evidence ← ok_or (evidence_from_json evidence_json) (Json "ledger certificate evidence");
        Ok (mkCertificateRecord rule_name rule_version hash claimant_id outcome evidence issued_at)
    | _ => Err (Sqlite "reading certificate audit row")
    end) rows).

Definition load_declared_sacrifices (q : LedgerQuery) : LedgerM (list DeclaredSacrificeRecord) :=
  rows ← query "preparing declared sacrifice audit query" (λ db,
    newest (limit_or_default q) (λ c,
      match c with
      | DeclaredSacrificeRow _ name version _ _ _ _ _ _ =>
          matches (q_rule_name q) name && matches (q_rule_version q) version
      | _ => false
      end) (table_rows (db DeclaredSacrificesTable)));
  pure_result (try_map (λ row,
    match row with
    | DeclaredSacrificeRow kind name version property justification bound plan_json provenance_json declared_at =>
        monitoring_plan ← ok_or (monitoring_plan_from_json plan_json)
                            (Json "ledger declared sacrifice monitoring plan");
        provenance ← ok_or (provenance_from_json provenance_json)
                       (Json "ledger declared sacrifice provenance");
        compiled_kind ← parse_compiled_kind kind;
        sacrificed_property ← parse_governance_property property;
        Ok (mkSacrificeRecord compiled_kind name version sacrificed_property justification bound
              monitoring_plan provenance declared_at)
    | _ => Err (Sqlite "reading declared sacrifice audit row")
    end) rows).

Definition load_paradox_results (q : LedgerQuery) : LedgerM (list ParadoxResultRecord) :=
  rows ← query "preparing paradox audit query" (λ db,
    newest (limit_or_default q) (λ c,
      match c with ParadoxRow name _ _ _ => matches (q_rule_name q) name | _ => false end)
      (table_rows (db ParadoxResultsTable)));
  pure_result (try_map (λ row,
    match row with
    | ParadoxRow rule_name paradox_type description detected_at =>
        Ok (mkParadoxRecord rule_name paradox_type description detected_at)
    | _ => Err (Sqlite "reading paradox audit row")
    end) rows).

Definition audit (self : Ledger) (q : LedgerQuery) : LedgerM LedgerAuditReport :=
  with_connection self
    (run_in_deferred_transaction "auditing ledger" (
       compiled_rules ← load_compiled_rules q;
       certificates ← load_certificates q;
       sacrifices ← load_declared_sacrifices q;
       paradox_results ← load_paradox_results q;
       mret (mkAuditReport (ledger_path self) compiled_rules certificates sacrifices paradox_results))).

Definition verify_chain (self : Ledger) : LedgerM ChainVerificationResult :=
  with_connection self chain_verification.
End operations.
