(* ===== verification/LedgerSpec.v ===== *)
(** * The audit ledger is append-only, self-verifying and tamper-evident

    The invariant of the chained tables, the operations as a step relation,
    and what verification implies about two ledgers that end in the same
    head. *)

From S2P Require Import Prelude F64 Errors Core Mechanism Rules ProtocolData Compiled Clock LedgerStore Ledger.
From stdpp Require Import options.

(** A digest is 64 hexadecimal digits. *)
Class DigestLength `{!LedgerCodec} := sha256_hex_length : ∀ s, String.length (sha256_hex s) = 64.

Section invariant.
Context `{codec : !LedgerCodec, env : !LedgerEnv, rendering : !Rendering, digest : !DigestLength}.

(* ------------------------------------------------------------------ *)
(** ** Chained tables *)

(** The rows are linked by their hashes, starting after [prev]. *)
Fixpoint chained_from (prev : string) (rows : list StoredRow) : Prop :=
  match rows with
  | [] => True
  | row :: rows =>
      prev_hash row = prev ∧
      row_hash row = chain_hash prev (rowid row) (content_json (row_content row)) ∧
      chained_from (row_hash row) rows
  end.

Definition last_hash (prev : string) (rows : list StoredRow) : string :=
  match last rows with Some row => row_hash row | None => prev end.

Definition anchored (s : TableState) : Prop :=
  chain_head s = Some (Z.of_nat (length (table_rows s)), last_hash "" (table_rows s)).

(** The contents the operations write to each table. *)
Definition recordable (t : LedgerTable) (c : Content) : Prop :=
  match t, c with
  | CompiledRulesTable, CompiledRuleRow _ _ _ _ _ verdicts sp =>
      (∃ v, verdicts = verdicts_to_json v) ∧ ∃ v, sp = strategyproofness_to_json v
  | CertificatesTable, CertificateRow _ _ _ _ _ evidence _ => ∃ m, evidence = evidence_to_json m
  | DeclaredSacrificesTable, DeclaredSacrificeRow kind _ _ property _ _ plan provenance _ =>
      (∃ k, kind = compiled_kind_label k) ∧ (∃ p, property = as_str p) ∧
      (∃ p, plan = monitoring_plan_to_json p) ∧ ∃ p, provenance = provenance_to_json p
  | ParadoxResultsTable, ParadoxRow _ _ _ _ => True
  | _, _ => False
  end.

(** What holds of a table that only the ledger's operations wrote. *)
Record table_sound (t : LedgerTable) (s : TableState) : Prop := {
  ts_contents : Forall (recordable t) (row_content <$> table_rows s);
  ts_chained : chained_from "" (table_rows s);
  ts_rowids : StronglySorted Z.lt (rowid <$> table_rows s);
  ts_head : anchored s ∨ table_rows s = [] ∧ chain_head s = None;
}.

Definition ledger_sound (db : LedgerDb) : Prop := ∀ t, table_sound t (db t).

(** Rows are only added, at the end. *)
Definition extends (db db' : LedgerDb) : Prop := ∀ t, table_rows (db t) `prefix_of` table_rows (db' t).

Global Instance extends_preorder : PreOrder extends.
Proof. split; [by intros db t|]. intros db1 db2 db3 H12 H23 t.
  etrans; [apply H12|apply H23]. Qed.

Lemma last_hash_snoc prev rows row : last_hash prev (rows ++ [row]) = row_hash row.
Proof. unfold last_hash. by rewrite last_snoc. Qed.

Lemma chained_from_snoc prev rows row :
  chained_from prev rows → prev_hash row = last_hash prev rows →
  row_hash row = chain_hash (prev_hash row) (rowid row) (content_json (row_content row)) →
  chained_from prev (rows ++ [row]).
Proof.
  revert prev. induction rows as [|r rows IH]; intros prev Hc Hp Hh; simpl in *.
  - unfold last_hash in Hp. simpl in Hp. by rewrite <-Hp.
  - destruct Hc as (? & ? & Hc). split_and!; [done|done|]. apply IH; [done| |done].
    rewrite Hp. unfold last_hash. destruct rows as [|r' rows]; [done|].
    change (last (r :: r' :: rows)) with (last (r' :: rows)).
    destruct (last (r' :: rows)) eqn:Hl; [done|]. by apply last_None in Hl.
Qed.

Lemma set_table_eq (db : LedgerDb) t s : set_table db t s t = s.
Proof. unfold set_table. by rewrite decide_True. Qed.
Lemma set_table_ne (db : LedgerDb) t t' s : t' ≠ t → set_table db t s t' = db t'.
Proof. intros. unfold set_table. by rewrite decide_False. Qed.

(** Hashes are never blank, so no backfill is due. *)
Lemma chained_hashes prev rows row : chained_from prev rows → row ∈ rows → row_hash row ≠ "".
Proof using digest.
  revert prev. induction rows as [|r rows IH]; intros prev; [by intros _ ?%not_elem_of_nil|].
  intros (_ & Hh & Hc) [->|Hin]%elem_of_cons; [|by eapply IH].
  intros He. pose proof (sha256_hex_length (prev +:+ pretty (rowid r) +:+ content_json (row_content r))) as Hl.
  fold (chain_hash prev (rowid r) (content_json (row_content r))) in Hl. rewrite <-Hh, He in Hl. done.
Qed.

(** Sound ledgers stay sound and only grow. *)
Definition sound_growth (db db' : LedgerDb) : Prop :=
  ledger_sound db → ledger_sound db' ∧ extends db db'.

Global Instance sound_growth_preorder : PreOrder sound_growth.
Proof.
  split; [by intros db Hs|]. intros db1 db2 db3 H12 H23 Hs. destruct (H12 Hs) as [Hs2 He2].
  destruct (H23 Hs2) as [Hs3 He3]. split; [done|by etrans].
Qed.

Abbreviation preserves := (stable sound_growth).

(* ------------------------------------------------------------------ *)
(** ** The statements of the source *)

Lemma next_rowid_above rows r :
  StronglySorted Z.lt (rowid <$> rows) → r ∈ rows → (rowid r < next_rowid rows)%Z.
Proof.
  intros Hs Hr. destruct rows as [|r' rows _] using rev_ind; [by apply not_elem_of_nil in Hr|].
  unfold next_rowid. rewrite last_snoc. rewrite fmap_app in Hs.
  apply StronglySorted_app in Hs as (Hs & _ & _).
  apply elem_of_app in Hr as [Hr|Hr%list_elem_of_singleton]; [|subst; lia].
  assert (rowid r < rowid r')%Z; [|lia].
  apply Hs; [by apply list_elem_of_fmap_2|by apply list_elem_of_singleton].
Qed.

(** A recorded row: appended with its hash, and the head moved to it. *)
Lemma append_row_Ok recording finalizing t content db db' :
  append_row recording finalizing t content db = (Ok (), db') →
  StronglySorted Z.lt (rowid <$> table_rows (db t)) →
  ∃ row, row_content row = stored_columns content ∧ rowid row = next_rowid (table_rows (db t)) ∧
    prev_hash row = last_hash "" (table_rows (db t)) ∧
    row_hash row = chain_hash (prev_hash row) (rowid row) (content_json content) ∧
    db' t = mkTable (table_rows (db t) ++ [row])
              (Some (Z.of_nat (length (table_rows (db t) ++ [row])), row_hash row)) ∧
    ∀ t', t' ≠ t → db' t' = db t'.
Proof.
  intros H Hs. unfold append_row, previous_hash, insert_row, set_row_hash, update_chain_head,
    table_row_count, query, update, statement, mbind, LedgerM_bind in H.
  repeat match type of H with context [if statement_fails ?c ?d then _ else _] =>
    destruct (statement_fails c d); [done|] end.
  injection H as <-. rewrite !set_table_eq. cbn [table_rows chain_head].
  set (id := next_rowid (table_rows (db t))). fold (last_hash "" (table_rows (db t))).
  set (h := chain_hash _ id _).
  exists (mkRow id (stored_columns content) (last_hash "" (table_rows (db t))) h). cbn [row_content rowid prev_hash row_hash].
  split_and!; [done|done|done|done| |].
  - assert ((λ row, if decide (rowid row = id) then mkRow id (row_content row) (prev_hash row) h else row)
      <$> table_rows (db t) = table_rows (db t)) as Hold.
    { rewrite <-(list_fmap_id (table_rows (db t))) at 2. apply list_fmap_ext.
      intros i r Hr%list_elem_of_lookup_2. rewrite decide_False; [done|].
      pose proof (next_rowid_above _ _ Hs Hr). unfold id. lia. }
    rewrite fmap_app, Hold. simpl. rewrite decide_True by done. by rewrite !length_app.
  - intros t' Hne. by rewrite !set_table_ne.
Qed.

Lemma append_row_sorted recording finalizing t content db db' :
  append_row recording finalizing t content db = (Ok (), db') →
  StronglySorted Z.lt (rowid <$> table_rows (db t)) → StronglySorted Z.lt (rowid <$> table_rows (db' t)).
Proof.
  intros H Hs. destruct (append_row_Ok _ _ _ _ _ _ H Hs) as (row & _ & Hid & _ & _ & Ht & _).
  rewrite Ht. cbn [table_rows]. rewrite fmap_app. apply StronglySorted_app_2; [|done|repeat constructor].
  intros i j (r & -> & Hr)%list_elem_of_fmap ->%list_elem_of_singleton.
  rewrite Hid. by apply next_rowid_above.
Qed.

Lemma append_row_commits recording finalizing t content :
  recordable t content → stored_columns content = content →
  commits sound_growth (append_row recording finalizing t content).
Proof.
  intros Hrec Hst db [] db' H Hs. destruct (append_row_Ok _ _ _ _ _ _ H (ts_rowids _ _ (Hs t)))
    as (row & Hc & Hid & Hp & Hh & Ht & Hoth). split.
  - intros t'. destruct (decide (t' = t)) as [->|Hne]; [|rewrite Hoth by done; apply Hs].
    rewrite Hst in Hc. rewrite Ht. split; cbn [table_rows chain_head].
    + rewrite fmap_app, Forall_app. split; [apply Hs|]. constructor; [by rewrite Hc|constructor].
    + apply chained_from_snoc; [apply Hs|done|by rewrite Hc].
    + pose proof (append_row_sorted _ _ _ _ _ _ H (ts_rowids _ _ (Hs t))) as Hsort. by rewrite Ht in Hsort.
    + left. unfold anchored. cbn [table_rows chain_head]. by rewrite last_hash_snoc.
  - intros t'. destruct (decide (t' = t)) as [->|Hne]; [|by rewrite Hoth].
    rewrite Ht. cbn [table_rows]. by apply prefix_app_r.
Qed.

Lemma no_backfill_needed db t :
  ledger_sound db → existsb (λ row, bool_decide (row_hash row = "")) (table_rows (db t)) = false.
Proof using digest.
  intros Hs. apply not_true_is_false. intros (row & Hin & Hb)%existsb_exists. apply bool_decide_eq_true in Hb.
  eapply chained_hashes; [apply (ts_chained _ _ (Hs t))|by apply list_elem_of_In|done].
Qed.

Lemma backfill_if_needed_preserves t b : preserves (backfill_if_needed t b).
Proof using digest.
  intros db Hs. unfold backfill_if_needed, table_needs_backfill, query, statement, mbind, LedgerM_bind.
  destruct (statement_fails _ _); [done|].
  by rewrite no_backfill_needed.
Qed.

Lemma initialize_chain_head_preserves t : preserves (initialize_chain_head t).
Proof.
  intros db Hs. unfold initialize_chain_head, previous_hash, update_chain_head, table_row_count,
    query, update, statement, mbind, LedgerM_bind.
  destruct (statement_fails _ db); [done|].
  destruct (chain_head (db t)) as [hd|] eqn:Hh; [done|].
  repeat match goal with |- context [if statement_fails ?c ?d then _ else _] =>
    destruct (statement_fails c d); [done|] end.
  cbn [snd]. destruct (ts_head _ _ (Hs t)) as [Ha|[Hnil _]]; [unfold anchored in Ha; congruence|].
  split.
  - intros t'. destruct (decide (t' = t)) as [->|Hne]; [|rewrite set_table_ne by done; apply Hs].
    rewrite set_table_eq. split; cbn [table_rows chain_head]; [apply Hs|apply Hs|apply Hs|].
    left. unfold anchored. cbn [table_rows chain_head]. by rewrite Hnil.
  - intros t'. destruct (decide (t' = t)) as [->|Hne]; [by rewrite set_table_eq|by rewrite set_table_ne].
Qed.

Lemma ensure_chain_schema_preserves : preserves ensure_chain_schema.
Proof using digest.
  unfold ensure_chain_schema, ensure_chain_columns. ledger_steps;
    first [apply backfill_if_needed_preserves | apply initialize_chain_head_preserves].
Qed.

Lemma with_connection_preserves {A} self (f : LedgerM A) : preserves f → preserves (with_connection self f).
Proof using digest.
  intros Hf. unfold with_connection, ensure_column. ledger_steps; [|done].
  apply ensure_chain_schema_preserves.
Qed.

(* ------------------------------------------------------------------ *)
(** ** The operations *)

Lemma record_compiled_rule_preserves self r : preserves (record_compiled_rule self r).
Proof using digest.
  apply with_connection_preserves, stable_transaction, append_row_commits; [apply _| |done].
  split; by eexists.
Qed.

Lemma record_certificate_preserves self c :
  real_column (ct_outcome c) = ct_outcome c → preserves (record_certificate self c).
Proof using digest.
  intros Hc. apply with_connection_preserves, stable_transaction, append_row_commits; [apply _|by eexists|].
  simpl. by rewrite Hc.
Qed.

Lemma record_declared_sacrifices_preserves self certificate :
  Forall (λ s, real_column (cs_impact_bound s) = cs_impact_bound s) (dc_sacrifices certificate) →
  preserves (record_declared_sacrifices self certificate).
Proof using digest.
  intros Hc. unfold record_declared_sacrifices. ledger_steps.
  apply with_connection_preserves, stable_transaction, commits_iter; [apply _..|].
  intros s Hs. apply append_row_commits.
  - split_and!; by eexists.
  - rewrite Forall_forall in Hc. simpl. by rewrite Hc.
Qed.

Lemma insert_paradox_row_preserves name type description detected_at :
  preserves (insert_paradox_row name type description detected_at).
Proof. apply stable_transaction; [apply _|]. by apply append_row_commits. Qed.

Lemma record_paradox_results_preserves self rule violations :
  preserves (record_paradox_results self rule violations).
Proof using digest.
  apply with_connection_preserves. case_decide; ledger_steps; apply insert_paradox_row_preserves.
Qed.

Lemma verify_table_chain_stable (R : relation LedgerDb) `{!PreOrder R} label t :
  stable R (verify_table_chain label t).
Proof.
  unfold verify_table_chain, verify_chain_head. ledger_steps.
Qed.

Lemma verify_chain_preserves self : preserves (verify_chain self).
Proof using digest.
  apply with_connection_preserves. unfold chain_verification. apply stable_transaction; [apply _|].
  apply stable_commits. ledger_steps; apply verify_table_chain_stable, _.
Qed.

Lemma audit_preserves self q : preserves (audit self q).
Proof using digest.
  apply with_connection_preserves, stable_transaction; [apply _|]. apply stable_commits.
  unfold load_compiled_rules, load_certificates, load_declared_sacrifices, load_paradox_results.
  ledger_steps.
Qed.

Lemma Ledger_open_preserves path : preserves (Ledger_open path).
Proof using digest.
  unfold Ledger_open. cbv zeta. ledger_steps. apply with_connection_preserves. ledger_steps.
Qed.
End invariant.

(** One call of the ledger's interface, under any faults and clock; the
    database is the one the call leaves, whether or not it succeeded.

    The calls are those of callers that record reals the column gives back
    unchanged.  The source does not check this, and SQLite gives back a negative
    zero as zero: such a row is hashed with one real and verified with another,
    so that the ledger is then rejected. *)
Inductive ledger_step `{!LedgerCodec, !Rendering} : LedgerDb → LedgerDb → Prop :=
  | step_open (env : LedgerEnv) path db :
      ledger_step db (Ledger_open path db).2
  | step_compiled_rule (env : LedgerEnv) self r db :
      ledger_step db (record_compiled_rule self r db).2
  | step_certificate (env : LedgerEnv) self c db :
      real_column (ct_outcome c) = ct_outcome c →
      ledger_step db (record_certificate self c db).2
  | step_declared_sacrifices (env : LedgerEnv) self c db :
      Forall (λ s, real_column (cs_impact_bound s) = cs_impact_bound s) (dc_sacrifices c) →
      ledger_step db (record_declared_sacrifices self c db).2
  | step_paradox_results (env : LedgerEnv) self rule violations db :
      ledger_step db (record_paradox_results self rule violations db).2
  | step_audit (env : LedgerEnv) self q db :
      ledger_step db (audit self q db).2
  | step_verify (env : LedgerEnv) self db :
      ledger_step db (verify_chain self db).2.

Lemma ledger_step_sound `{!LedgerCodec, !Rendering, !DigestLength} db db' :
  ledger_step db db' → sound_growth db db'.
Proof.
  intros []; [apply Ledger_open_preserves|apply record_compiled_rule_preserves
    |by apply record_certificate_preserves|by apply record_declared_sacrifices_preserves
    |apply record_paradox_results_preserves|apply audit_preserves|apply verify_chain_preserves].
Qed.

Lemma ledger_steps_sound `{!LedgerCodec, !Rendering, !DigestLength} db db' :
  rtc ledger_step db db' → sound_growth db db'.
Proof. induction 1 as [|db1 db2 db3 Hs _ IH]; [reflexivity|]. etrans; [by apply ledger_step_sound|done]. Qed.

Lemma empty_ledger_sound `{!LedgerCodec} : ledger_sound empty_ledger.
Proof. intros t. split; [constructor|done|constructor|by right]. Qed.
