(* ===== verification/LedgerTamper.v ===== *)
(** * The anchored heads commit to every row

    Strings with a delimiter split in one way; a row's hash commits to the
    previous hash, the rowid and the contents; so two ledgers that verify with
    the same head of a table hold the same rows of it, unless the digest collides
    on two of the texts that the verifications of the two tables hash. *)

From Stdlib Require Import Ascii SpecFloat.
From S2P Require Import Prelude Encoding F64 Errors Core Mechanism Rules ProtocolData Compiled Clock LedgerStore Ledger LedgerSpec LedgerVerify.
From stdpp Require Import options.

(* ------------------------------------------------------------------ *)
(** ** Strings *)

Fixpoint avoids (c : Ascii.ascii) (s : string) : Prop :=
  match s with EmptyString => True | String d s => d ≠ c ∧ avoids c s end.

Lemma split_at_delimiter c a a' b b' :
  avoids c a → avoids c a' → a +:+ String c b = a' +:+ String c b' → a = a' ∧ b = b'.
Proof.
  revert a'. induction a as [|x a IH]; intros [|y a'] Ha Ha' He; simpl in *.
  - by injection He.
  - injection He as -> _. by destruct Ha' as [[] _].
  - injection He as -> _. by destruct Ha as [[] _].
  - injection He as -> He. destruct Ha, Ha'. by destruct (IH a') as [-> ->].
Qed.

Lemma pretty_N_char_not_brace x : pretty_N_char x ≠ "{"%char.
Proof. unfold pretty_N_char. by repeat case_match. Qed.

Lemma pretty_N_go_avoids x s : avoids "{" s → avoids "{" (pretty_N_go x s).
Proof.
  revert s. induction (N.lt_wf_0 x) as [x _ IH]; intros s Hs.
  destruct (decide (x = 0)%N) as [->|Hx]; [done|].
  rewrite pretty_N_go_step by lia. apply IH; [apply N.div_lt; lia|].
  split; [apply pretty_N_char_not_brace|done].
Qed.

Lemma pretty_avoids (z : Z) : avoids "{" (pretty z).
Proof.
  assert (∀ n : N, avoids "{" (pretty n)) as Hn.
  { intros n. unfold pretty, pretty_N. case_decide; [done|]. by apply pretty_N_go_avoids. }
  destruct z as [|p|p]; [done|apply (Hn (N.pos p))|]. split; [done|apply (Hn (N.pos p))].
Qed.

(* ------------------------------------------------------------------ *)
(** ** What JSON and the digest promise *)

(** [serde_json] prints an object within braces, and different objects differently. *)
Class CodecLaws `{!LedgerCodec} := {
  codec_digest :: DigestLength;
  json_object_brace : ∀ l, ∃ s, json_object l = String "{" s;
  json_object_inj : ∀ l l', NoDup l.*1 → NoDup l'.*1 → json_object l = json_object l' → l ≡ₚ l';
}.

(** What [verify_row] hashes for a row after a previous hash: its contents, and
    their legacy form if they have one. *)
Definition row_texts `{!LedgerCodec} (prev : string) (row : StoredRow) : list string :=
  (λ json, prev +:+ pretty (rowid row) +:+ json) <$>
    (content_json (row_content row) :: option_list (legacy_content_json (row_content row))).

(** What the verification of a table hashes. *)
Fixpoint table_texts `{!LedgerCodec} (prev : string) (rows : list StoredRow) : list string :=
  match rows with
  | [] => []
  | row :: rows => row_texts prev row ++ table_texts (row_hash row) rows
  end.

(** A text of the first list and a text of the second one are different and have
    the same digest. *)
Definition collision `{!LedgerCodec} (texts texts' : list string) : Prop :=
  ∃ x y, x ∈ texts ∧ y ∈ texts' ∧ x ≠ y ∧ sha256_hex x = sha256_hex y.

Lemma collision_incl `{!LedgerCodec} xs ys xs' ys' : xs ⊆ xs' → ys ⊆ ys' → collision xs ys → collision xs' ys'.
Proof. intros Hx Hy (x & y & ? & ? & ? & ?). exists x, y. auto. Qed.

Lemma table_texts_snoc `{!LedgerCodec} prev rows row :
  table_texts prev (rows ++ [row]) = table_texts prev rows ++ row_texts (last_hash prev rows) row.
Proof.
  revert prev. induction rows as [|r rows IH]; intros prev; [apply (right_id_L [] (++))|].
  cbn [app table_texts]. by rewrite IH, last_hash_cons, (assoc_L (++)).
Qed.

(** JSON has one text for all the reals that are not finite. *)
Definition finite_or_nan (x : f64) : f64 := if f64_is_finite x then x else S754_nan.

Definition content_view (c : Content) : Content :=
  match c with
  | CertificateRow r v h i outcome e t => CertificateRow r v h i (finite_or_nan outcome) e t
  | DeclaredSacrificeRow k n v p j bound m pr d =>
      DeclaredSacrificeRow k n v p j (finite_or_nan bound) m pr d
  | c => c
  end.

Definition row_view (row : StoredRow) : Z * Content := (rowid row, content_view (row_content row)).

Lemma json_f64_view x y : json_f64 x = json_f64 y → finite_or_nan x = finite_or_nan y.
Proof. unfold json_f64, finite_or_nan. repeat case_match; congruence. Qed.

(** Objects with the same keys in the same order are equal when they are permutations. *)
Lemma fields_eq {V} (l l' : list (string * V)) : NoDup l.*1 → l.*1 = l'.*1 → l ≡ₚ l' → l = l'.
Proof.
  intros Hnd Hk Hp. apply list_eq_Forall2, Forall2_same_length_lookup.
  split; [by rewrite <-(length_fmap fst l), Hk, length_fmap|].
  intros i [k v] [k' v'] Hl Hl'.
  assert (k = k') as <-.
  { apply (f_equal (.!! i)) in Hk. rewrite !list_lookup_fmap, Hl, Hl' in Hk. by injection Hk. }
  f_equal. apply list_elem_of_lookup_2 in Hl, Hl'. rewrite <-Hp in Hl'.
  apply (elem_of_list_to_map (M:=gmap string)) in Hl, Hl'; [congruence|done..].
Qed.

(* ------------------------------------------------------------------ *)
(** ** A row's hash commits to the row *)

Section commitment.
Context `{codec : !LedgerCodec, laws : !CodecLaws}.

Definition content_fields (c : Content) : list (string * JsonValue) :=
  match c with
  | CompiledRuleRow n v a f t av s =>
      [("name", JsonString n); ("version", JsonString v); ("admissible", JsonBool a);
       ("family_description", JsonString f); ("compiled_at", JsonString t);
       ("axiom_verdicts_json", JsonString av); ("strategyproofness_json", JsonString s)]
  | CertificateRow r v h i o e t =>
      [("rule_name", JsonString r); ("rule_version", JsonString v); ("compiled_rule_hash", JsonString h);
       ("claimant_id", JsonString i); ("outcome", json_f64 o); ("evidence_json", JsonString e);
       ("issued_at", JsonString t)]
  | DeclaredSacrificeRow k n v p j b m pr d =>
      [("compiled_kind", JsonString k); ("subject_name", JsonString n); ("subject_version", JsonString v);
       ("sacrificed_property", JsonString p); ("justification", JsonString j);
       ("impact_bound", json_f64 b); ("monitoring_plan_json", JsonString m);
       ("provenance_json", JsonString pr); ("declared_at", JsonString d)]
  | ParadoxRow r p d t =>
      [("rule_name", JsonString r); ("paradox_type", JsonString p); ("description", JsonString d);
       ("detected_at", JsonString t)]
  end.

(** Without the column an older version did not have. *)
Definition legacy_fields (c : Content) : option (list (string * JsonValue)) :=
  match c with
  | CompiledRuleRow _ _ _ _ _ _ s =>
      if decide (s = STRATEGYPROOF_JSON) then Some (take 6 (content_fields c)) else None
  | CertificateRow _ _ h _ _ _ _ =>
      if decide (h = "") then Some (take 2 (content_fields c) ++ drop 3 (content_fields c)) else None
  | _ => None
  end.

Lemma content_json_fields c : content_json c = json_object (content_fields c).
Proof. by destruct c. Qed.

Lemma legacy_json_fields c : legacy_content_json c = json_object <$> legacy_fields c.
Proof. destruct c; simpl; try case_decide; done. Qed.

Definition hashed_fields (c : Content) (l : list (string * JsonValue)) : Prop :=
  l = content_fields c ∨ legacy_fields c = Some l.

Lemma hashed_fields_NoDup c l : hashed_fields c l → NoDup l.*1.
Proof.
  intros [->|Hl].
  - destruct c; simpl; refine (bool_decide_unpack _ _); by vm_compute.
  - destruct c; simpl in Hl; try case_decide; simplify_eq; simpl; refine (bool_decide_unpack _ _); by vm_compute.
Qed.

(** What was hashed determines the contents, up to reals that are not finite. *)
Lemma hashed_fields_view c c' l l' :
  hashed_fields c l → hashed_fields c' l' → l ≡ₚ l' → content_view c = content_view c'.
Proof.
  intros Hl Hl' Hp.
  assert (l.*1 = l'.*1 → l = l') as Heq.
  { intros Hk. apply fields_eq; [by eapply hashed_fields_NoDup|done..]. }
  assert (∀ k, bool_decide (k ∈ l.*1) = bool_decide (k ∈ l'.*1)) as Hname
    by (intros k; apply bool_decide_ext; by rewrite Hp).
  apply Permutation_length in Hp.
  destruct Hl as [Hl|Hl], Hl' as [Hl'|Hl']; destruct c, c'; simpl in Hl, Hl'; try done;
    repeat case_decide; simplify_eq; try done.
  all: try (specialize (Heq eq_refl); simplify_eq; simpl;
    repeat match goal with H : json_f64 _ = json_f64 _ |- _ => apply json_f64_view in H end; congruence).
  all: exfalso; clear -Hname; specialize (Hname "name"); vm_compute in Hname; discriminate.
Qed.

Lemma chain_hash_brace prev id json :
  (∃ l, json = json_object l) →
  ∃ s, json = String "{" s ∧ chain_hash prev id json = sha256_hex (prev +:+ (pretty id +:+ String "{" s)).
Proof using laws. intros [l ->]. destruct (json_object_brace l) as [s Hs]. exists s. by rewrite Hs. Qed.

Lemma row_linked_fields prev row :
  row_linked prev row → ∃ l, hashed_fields (row_content row) l ∧
    prev_hash row = prev ∧ row_hash row = chain_hash prev (rowid row) (json_object l) ∧
    prev +:+ pretty (rowid row) +:+ json_object l ∈ row_texts prev row.
Proof.
  intros [Hp [Hh|Hh]].
  - exists (content_fields (row_content row)). split; [by left|]. rewrite <-content_json_fields.
    split_and!; [done|done|]. unfold row_texts. rewrite fmap_cons. left.
  - rewrite legacy_json_fields in Hh. destruct (legacy_fields (row_content row)) as [l|] eqn:Hl; [|done].
    exists l. split; [by right|]. simpl in Hh. injection Hh as Hh. rewrite Hh. split_and!; [done|done|].
    unfold row_texts. rewrite fmap_cons, legacy_json_fields, Hl. right. left.
Qed.

(** Linked rows with the same hash, after hashes of the same length, are the same row. *)
Lemma row_hash_commits p p' row row' :
  row_linked p row → row_linked p' row' → String.length p = String.length p' →
  row_hash row = row_hash row' →
  collision (row_texts p row) (row_texts p' row') ∨ p = p' ∧ row_view row = row_view row'.
Proof using laws.
  intros (l & Hl & _ & Hh & Hin)%row_linked_fields (l' & Hl' & _ & Hh' & Hin')%row_linked_fields Hlen He.
  destruct (chain_hash_brace p (rowid row) (json_object l)) as (s & Hs & Hc); [by eexists|].
  destruct (chain_hash_brace p' (rowid row') (json_object l')) as (s' & Hs' & Hc'); [by eexists|].
  rewrite Hh, Hh', Hc, Hc' in He.
  destruct (decide (p +:+ (pretty (rowid row) +:+ String "{" s) =
    p' +:+ (pretty (rowid row') +:+ String "{" s'))) as [Hsame|]; [right|left].
  2:{ rewrite Hs in Hin. rewrite Hs' in Hin'. by eexists _, _. }
  apply string_app_inj in Hsame as [-> Hsame]; [|done].
  apply split_at_delimiter in Hsame as [Hid ->]; [|apply pretty_avoids..]. split; [done|].
  unfold row_view. f_equal; [by apply (inj pretty)|].
  apply (hashed_fields_view _ _ l l' Hl Hl'), json_object_inj; [by eapply hashed_fields_NoDup..|].
  by rewrite Hs, Hs'.
Qed.

Lemma linked_from_snoc prev rows row :
  linked_from prev (rows ++ [row]) ↔ linked_from prev rows ∧ row_linked (last_hash prev rows) row.
Proof.
  revert prev. induction rows as [|r rows IH]; intros prev; [simpl; tauto|].
  simpl. rewrite IH, last_hash_cons. tauto.
Qed.

Lemma last_hash_length rows :
  linked_from "" rows → String.length (last_hash "" rows) = if decide (rows = []) then 0 else 64.
Proof using laws.
  destruct rows as [|row rows _] using rev_ind; [done|]. rewrite linked_from_snoc, last_hash_snoc.
  intros [_ (l & _ & _ & -> & _)%row_linked_fields]. rewrite decide_False by by destruct rows.
  apply sha256_hex_length.
Qed.

(** Tables of the same length with the same last hash hold the same rows. *)
Lemma linked_tables_agree rows rows' :
  linked_from "" rows → linked_from "" rows' → length rows = length rows' →
  last_hash "" rows = last_hash "" rows' →
  collision (table_texts "" rows) (table_texts "" rows') ∨ row_view <$> rows = row_view <$> rows'.
Proof using laws.
  revert rows'. induction rows as [|row rows IH] using rev_ind; intros rows' Hl Hl' Hlen Hh.
  { destruct rows'; [by right|done]. }
  destruct rows' as [|row' rows' _] using rev_ind; [rewrite length_app in Hlen; simpl in Hlen; lia|].
  rewrite !length_app in Hlen. simpl in Hlen. rewrite !last_hash_snoc in Hh.
  apply linked_from_snoc in Hl as [Hl Hr]. apply linked_from_snoc in Hl' as [Hl' Hr'].
  rewrite !table_texts_snoc.
  destruct (row_hash_commits _ _ _ _ Hr Hr') as [Hc|[Hp Hv]]; [|done| |].
  - rewrite !last_hash_length by done. destruct rows, rows'; simpl in *; try lia; done.
  - left. eapply collision_incl; [..|exact Hc]; auto with incl.
  - destruct (IH rows' Hl Hl' ltac:(lia) Hp) as [Hc|Hrows];
      [left; eapply collision_incl; [..|exact Hc]; auto with incl|right].
    by rewrite !fmap_app, Hrows, !list_fmap_singleton, Hv.
Qed.
End commitment.

(* ------------------------------------------------------------------ *)
(** ** Accepted ledgers *)

Section accepts.
Context `{codec : !LedgerCodec, env : !LedgerEnv, rendering : !Rendering}.

(** An accepted ledger: the opening kept its contents, and every table is verified. *)
Lemma verify_chain_accepts self d r d' :
  verify_chain self d = (Ok r, d') → chain_valid r = true →
  contents_kept d d' ∧ ∀ t, table_verified (d' t).
Proof.
  intros Hv Hr. split; [pose proof (verify_chain_contents self d) as H; by rewrite Hv in H|].
  pose proof (verify_chain_split self d) as Hsplit.
  destruct (with_connection self (mret ()) d) as [[a|e] d1]; rewrite Hv in Hsplit; [|done].
  pose proof (chain_verification_reads d1 d1 eq_refl) as H. rewrite <-Hsplit in H.
  destruct H as (-> & H & _). by apply H.
Qed.
End accepts.

(** C4: The anchored heads are tamper-evident: two ledgers that
    [Ledger::verify_chain] accepts and that were opened with the same anchored
    head of a table (row count and hash) hold the same rows of it, with the
    same rowids in the same order, up to reals JSON cannot write, unless two
    different texts that the two verifications of the table hashed, row by row,
    have the same SHA-256 digest. *)
Theorem ledger_heads_commit_to_rows `{codec : !LedgerCodec, laws : !CodecLaws, rendering : !Rendering}
    (env1 env2 : LedgerEnv) (self1 self2 : Ledger) (t : LedgerTable) (hd : Z * string)
    (d1 d1' d2 d2' : LedgerDb) (r1 r2 : ChainVerificationResult)
    (Hhead1 : chain_head (d1 t) = Some hd) (Hhead2 : chain_head (d2 t) = Some hd)
    (Hrun1 : verify_chain (env := env1) self1 d1 = (Ok r1, d1')) (Hvalid1 : chain_valid r1 = true)
    (Hrun2 : verify_chain (env := env2) self2 d2 = (Ok r2, d2')) (Hvalid2 : chain_valid r2 = true) :
  collision (table_texts "" (table_rows (d1' t))) (table_texts "" (table_rows (d2' t))) ∨
  row_view <$> table_rows (d1 t) = row_view <$> table_rows (d2 t).
Proof.
  destruct (verify_chain_accepts (env := env1) self1 d1 r1 d1' Hrun1 Hvalid1) as [Hk1 Hv1].
  destruct (verify_chain_accepts (env := env2) self2 d2 r2 d2' Hrun2 Hvalid2) as [Hk2 Hv2].
  destruct (Hk1 t) as [Hr1 Hh1], (Hk2 t) as [Hr2 Hh2]. specialize (Hh1 _ Hhead1). specialize (Hh2 _ Hhead2).
  destruct (Hv1 t) as [Hl1 Ha1], (Hv2 t) as [Hl2 Ha2]. unfold anchored in Ha1, Ha2.
  assert (∀ rows : list StoredRow, row_view <$> rows = prod_map id content_view <$> (row_contents <$> rows)) as Hview.
  { intros rows. by rewrite <-list_fmap_compose. }
  rewrite (Hview (table_rows (d1 t))), (Hview (table_rows (d2 t))), <-Hr1, <-Hr2, <-!Hview. simplify_eq.
  apply linked_tables_agree; [done..|lia|congruence].
Qed.
