(* ===== verification/LedgerAudit.v ===== *)
(** * What is recorded is what the audit reports

    The labels of the ledger parse back; in a ledger that the operations wrote,
    an audit lists the recorded certificates newest first; a recorded
    certificate is the first one the next audit reports. *)

From S2P Require Import Prelude F64 Errors Core Mechanism Rules ProtocolData Compiled Clock LedgerStore Ledger LedgerSpec LedgerVerify.
From stdpp Require Import options.

Lemma parse_compiled_kind_label kind : parse_compiled_kind (compiled_kind_label kind) = Ok kind.
Proof. by destruct kind. Qed.

Lemma parse_governance_property_label p : parse_governance_property (as_str p) = Ok p.
Proof. by destruct p. Qed.

Lemma omap_take_total {A B} (g : A → option B) l n :
  Forall (λ x, is_Some (g x)) l → omap g (take n l) = take n (omap g l).
Proof.
  intros Hl. revert n. induction Hl as [|x l [y Hy] _ IH]; intros [|n]; simpl; try done.
  rewrite Hy. simpl. by rewrite IH.
Qed.

Lemma try_map_omap {A B} (f : A → LResult B) (g : A → option B) l :
  Forall (λ x, ∃ y, g x = Some y ∧ f x = Ok y) l → try_map f l = Ok (omap g l).
Proof. induction 1 as [|x l (y & Hy & Hf) _ IH]; [done|]. simpl. by rewrite Hf, Hy, IH. Qed.

Section audit.
Context `{codec : !LedgerCodec, env : !LedgerEnv, rendering : !Rendering}.

(** The JSON columns that hold reals decode; a real that is not finite would not. *)
Definition decodes (c : Content) : Prop :=
  match c with
  | CompiledRuleRow _ _ _ _ _ verdicts sp =>
      is_Some (verdicts_from_json verdicts) ∧ is_Some (strategyproofness_from_json sp)
  | CertificateRow _ _ _ _ _ _ _ => True
  | DeclaredSacrificeRow _ _ _ _ _ _ plan provenance _ =>
      is_Some (monitoring_plan_from_json plan) ∧ is_Some (provenance_from_json provenance)
  | ParadoxRow _ _ _ _ => True
  end.

Definition ledger_decodes (db : LedgerDb) : Prop := ∀ t, Forall decodes (row_content <$> table_rows (db t)).

Definition certificate_record (c : Certificate) : CertificateRecord :=
  mkCertificateRecord (ct_rule_name c) (ct_rule_version c) (ct_compiled_rule_hash c)
    (ct_claimant_id c) (ct_outcome c) (ct_evidence c) (ct_issued_at c).

(** A certificate row the query selects, decoded. *)
Definition certificate_of (q : LedgerQuery) (c : Content) : option CertificateRecord :=
  match c with
  | CertificateRow rule_name rule_version hash claimant_id outcome evidence issued_at =>
      if matches (q_rule_name q) rule_name && matches (q_rule_version q) rule_version
         && matches (q_claimant_id q) claimant_id
      then evidence ← evidence_from_json evidence;
           Some (mkCertificateRecord rule_name rule_version hash claimant_id outcome evidence issued_at)
      else None
  | _ => None
  end.

(** All the certificates the query selects, the newest first. *)
Definition certificates_newest_first (q : LedgerQuery) (db : LedgerDb) : list CertificateRecord :=
  omap (certificate_of q) (reverse (row_content <$> table_rows (db CertificatesTable))).

Lemma newest_Forall (P : Content → Prop) n keep rows :
  Forall P (row_content <$> rows) → Forall (λ c, keep c = true ∧ P c) (newest n keep rows).
Proof.
  intros HP. unfold newest. apply Forall_take, Forall_reverse, Forall_forall.
  intros c [Hk Hc]%list_elem_of_filter. rewrite Forall_forall in HP. auto.
Qed.

(** The audit's loops: no statement fails and every selected row decodes. *)
Lemma load_Ok {B} context t n keep (f : Content → LResult B) (g : Content → option B) (d : LedgerDb) :
  quiet → Forall (λ c, keep c = true → ∃ y, g c = Some y ∧ f c = Ok y) (row_content <$> table_rows (d t)) →
  (rows ← query context (λ db, newest n keep (table_rows (db t))); pure_result (try_map f rows)) d =
  (Ok (take n (omap g (reverse (filter (λ c, keep c = true) (row_content <$> table_rows (d t)))))), d).
Proof.
  intros [Hq _] Hall. unfold query, statement, mbind, LedgerM_bind, pure_result. rewrite Hq.
  assert (Forall (λ c, ∃ y, g c = Some y ∧ f c = Ok y) (reverse (filter (λ c, keep c = true)
    (row_content <$> table_rows (d t))))) as Hsel.
  { apply Forall_reverse, Forall_forall. intros c [Hk Hc]%list_elem_of_filter.
    rewrite Forall_forall in Hall. auto. }
  unfold newest. rewrite (try_map_omap f g), omap_take_total; [done| |by apply Forall_take].
  eapply Forall_impl; [exact Hsel|]. intros c (y & -> & _). by eexists.
Qed.

Lemma omap_filter_total {B} (keep : Content → bool) (g : Content → option B) (l : list Content) :
  (∀ c, keep c = false → g c = None) → omap g (filter (λ c, keep c = true) l) = omap g l.
Proof.
  intros Hg. induction l as [|c l IH]; [done|]. rewrite filter_cons. case_decide as Hk; cbn [omap list_omap]; [by rewrite <-IH|].
  by rewrite (Hg c) by by apply not_true_is_false.
Qed.

Context (Hround : ∀ m, evidence_from_json (evidence_to_json m) = Some m) (Hquiet : quiet).

Lemma load_certificates_Ok q d :
  ledger_sound d →
  load_certificates q d = (Ok (take (limit_or_default q) (certificates_newest_first q d)), d).
Proof using Hround Hquiet.
  intros Hs. unfold load_certificates. erewrite (load_Ok _ _ _ _ _ (certificate_of q)); [|done|].
  - rewrite <-filter_reverse, omap_filter_total; [done|].
    intros []; try done. simpl. by intros ->.
  - eapply Forall_impl; [apply (ts_contents _ _ (Hs CertificatesTable))|].
    intros []; try done. simpl. intros [m ->] ->. rewrite Hround. by eexists.
Qed.

Lemma load_rest_Ok q d :
  ledger_sound d → ledger_decodes d →
  (∃ l, load_compiled_rules q d = (Ok l, d)) ∧ (∃ l, load_declared_sacrifices q d = (Ok l, d)) ∧
  ∃ l, load_paradox_results q d = (Ok l, d).
Proof using Hquiet.
  intros Hs Hd. split_and!; eexists.
  - eapply (load_Ok _ _ _ _ _ (λ c, match c with
      | CompiledRuleRow name version admissible family compiled_at verdicts_json strategyproofness_json =>
          v ← verdicts_from_json verdicts_json; s ← strategyproofness_from_json strategyproofness_json;
          Some (mkCompiledRuleRecord name version admissible family compiled_at v s)
      | _ => None end)); [done|].
    specialize (Hd CompiledRulesTable). eapply Forall_impl; [exact Hd|]. intros []; try done.
    simpl. intros [[v ->] [s ->]] _. by eexists.
  - eapply (load_Ok _ _ _ _ _ (λ c, match c with
      | DeclaredSacrificeRow kind name version property j bound plan provenance declared_at =>
          m ← monitoring_plan_from_json plan; p ← provenance_from_json provenance;
          match parse_compiled_kind kind, parse_governance_property property with
          | Ok k, Ok pr => Some (mkSacrificeRecord k name version pr j bound m p declared_at)
          | _, _ => None end
      | _ => None end)); [done|].
    eapply Forall_impl; [apply Forall_and; split; [exact (Hd DeclaredSacrificesTable)|apply (ts_contents _ _ (Hs DeclaredSacrificesTable))]|].
    intros []; try done. simpl. intros [[[m ->] [p ->]] ([k ->] & [pr ->] & _)] _. simpl.
    rewrite parse_compiled_kind_label, parse_governance_property_label. by eexists.
  - eapply (load_Ok _ _ _ _ _ (λ c, match c with
      | ParadoxRow n p d t => Some (mkParadoxRecord n p d t) | _ => None end)); [done|].
    apply Forall_forall. intros [] _; try done. by eexists.
Qed.

(** Opening a sound ledger when nothing fails. *)
Lemma open_Ok `{digest : !DigestLength} self db :
  ledger_sound db →
  ∃ d, with_connection self (mret ()) db = (Ok (), d) ∧ ledger_sound d ∧ contents_kept db d.
Proof using Hquiet.
  intros Hs. pose proof (with_connection_runs self db Hs) as Hrun.
  pose proof (with_connection_contents self (mret ()) (stable_ret contents_kept ()) db) as Hc.
  destruct (with_connection self (mret ()) db) as [[[]|e] d]; [|done].
  exists d. split; [done|]. split; [apply Hrun|exact Hc].
Qed.

Lemma append_row_quiet recording finalizing t content db :
  ∃ db', append_row recording finalizing t content db = (Ok (), db').
Proof using Hquiet.
  destruct Hquiet as [Hq _]. unfold append_row, previous_hash, insert_row, set_row_hash, update_chain_head,
    table_row_count, query, update, statement, mbind, LedgerM_bind.
  repeat (rewrite Hq; cbv beta iota zeta). by eexists.
Qed.

Lemma contents_kept_newest q db db' :
  contents_kept db db' → certificates_newest_first q db' = certificates_newest_first q db.
Proof. intros Hk. unfold certificates_newest_first. by rewrite (contents_kept_content db db' _ Hk). Qed.

Lemma contents_kept_decodes db db' : contents_kept db db' → ledger_decodes db → ledger_decodes db'.
Proof.
  intros Hk Hd t. rewrite (contents_kept_content db db' _ Hk). apply Hd.
Qed.

Lemma audit_Ok `{digest : !DigestLength} self q db :
  ledger_sound db → ledger_decodes db →
  ∃ report, (audit self q db).1 = Ok report ∧
    report_certificates report = take (limit_or_default q) (certificates_newest_first q db).
Proof using Hround Hquiet.
  intros Hs Hd. destruct (open_Ok self db Hs) as (d & Hopen & Hs' & Hk).
  unfold audit. rewrite with_connection_split, Hopen. cbn [then_run].
  destruct (load_rest_Ok q d Hs' (contents_kept_decodes _ _ Hk Hd)) as ([l1 H1] & [l2 H2] & [l3 H3]).
  unfold run_in_deferred_transaction, run_in_transaction. rewrite !(proj1 Hquiet).
  unfold mbind, LedgerM_bind. rewrite H1, load_certificates_Ok, H2, H3 by done. simpl.
  rewrite (proj1 Hquiet). eexists. split; [done|]. cbn [report_certificates].
  by rewrite (contents_kept_newest q db d Hk).
Qed.

Lemma record_certificate_Ok `{digest : !DigestLength} self c db :
  ledger_sound db → ledger_decodes db → real_column (ct_outcome c) = ct_outcome c →
  ∃ db', record_certificate self c db = (Ok (), db') ∧ ledger_sound db' ∧ ledger_decodes db' ∧
    ∀ q, certificates_newest_first q db' =
      omap (certificate_of q) [certificate_row c] ++ certificates_newest_first q db.
Proof using Hquiet.
  intros Hs Hd Hreal. destruct (open_Ok self db Hs) as (d & Hopen & Hs' & Hk).
  pose proof (record_certificate_preserves self c Hreal db Hs) as [Hs'' _]. revert Hs''.
  unfold record_certificate. rewrite with_connection_split, Hopen. cbn [then_run].
  unfold run_in_immediate_transaction, run_in_transaction. rewrite (proj1 Hquiet).
  destruct (append_row_quiet "recording certificate" "finalizing certificate hash" CertificatesTable
    (certificate_row c) d) as [db' Hrun].
  rewrite Hrun, (proj1 Hquiet). cbn [snd]. intros Hs''. exists db'. split; [done|]. split; [done|].
  apply append_row_Ok in Hrun as (row & Hc & _ & _ & _ & Hrows & Hoth); [|apply Hs'].
  assert (row_content row = certificate_row c) as Hcontent.
  { rewrite Hc. unfold certificate_row. simpl. by rewrite Hreal. }
  split.
  - intros t. pose proof (contents_kept_decodes _ _ Hk Hd t) as Hdt.
    destruct (decide (t = CertificatesTable)) as [->|Hne]; [|by rewrite Hoth].
    rewrite Hrows. cbn [table_rows]. rewrite fmap_app, Forall_app. split; [done|]. by repeat constructor; rewrite Hcontent.
  - intros q. rewrite <-(contents_kept_newest q db d Hk). unfold certificates_newest_first.
    rewrite Hrows. cbn [table_rows]. by rewrite fmap_app, reverse_app, omap_app, list_fmap_singleton, Hcontent.
Qed.
End audit.

(** A recorded certificate is the first one the next audit reports, field
    by field, followed by the older ones the query selects up to its limit:
    [Ledger::record_certificate] then [Ledger::audit], from any ledger the
    operations built, when no statement fails and the evidence map survives
    its JSON text. *)
Theorem recorded_certificate_is_audited_first
    `{codec : !LedgerCodec, env : !LedgerEnv, rendering : !Rendering, digest : !DigestLength}
    (self : Ledger) (c : Certificate) (q : LedgerQuery) (db : LedgerDb)
    (Hround : ∀ m, evidence_from_json (evidence_to_json m) = Some m) (Hquiet : quiet)
    (Hreach : rtc ledger_step empty_ledger db) (Hdecodes : ledger_decodes db)
    (Hreal : real_column (ct_outcome c) = ct_outcome c)
    (Hname : matches (q_rule_name q) (ct_rule_name c) = true)
    (Hversion : matches (q_rule_version q) (ct_rule_version c) = true)
    (Hclaimant : matches (q_claimant_id q) (ct_claimant_id c) = true) :
  ∃ db' report, record_certificate self c db = (Ok (), db') ∧ (audit self q db').1 = Ok report ∧
    report_certificates report =
      certificate_record c :: take (pred (limit_or_default q)) (certificates_newest_first q db).
Proof.
  destruct (ledger_steps_sound _ _ Hreach empty_ledger_sound) as [Hs _].
  destruct (record_certificate_Ok Hquiet self c db Hs Hdecodes Hreal) as (db' & Hrec & Hs' & Hd' & Hnew).
  destruct (audit_Ok Hround Hquiet self q db' Hs' Hd') as (report & Haudit & Hcerts).
  exists db', report. split_and!; [done|done|]. rewrite Hcerts, Hnew. simpl.
  rewrite Hname, Hversion, Hclaimant. simpl. rewrite Hround. simpl.
  unfold limit_or_default. destruct (q_limit q) as [|n]; [done|]. by rewrite Nat.max_l by lia.
Qed.
