(* ===== verification/Compiler.v ===== *)
(** * The compiler and the certifier (src/compiler.rs, src/certificate.rs)

    Both evaluate rules first and record what they produce in the ledger
    before they return it, so they are operations of the ledger monad. *)

From S2P Require Import Prelude F64 F64Bits Errors Core Mechanism Rules Coalitions RuleDiagnostics PerClaimRules ProtocolData Compiled Clock LedgerStore Ledger LedgerSpec LedgerVerify.
From stdpp Require Import options.

Record CompileOptions := mkCompileOptions { co_consistency : FullConsistencyOptions }.

Definition CompileOptions_default : CompileOptions := mkCompileOptions FullConsistencyOptions_default.

Section compiler.
Context `{codec : !LedgerCodec, env : !LedgerEnv, rendering : !Rendering}.

Definition unix_timestamp : LedgerM string :=
  λ db, (seconds ← ok_or (now db) SystemClock; Ok (pretty (Z.to_N seconds)), db).

Definition compile_with_options (rule : Rule) (claims : list Claim) (estate : Estate)
    (claimants : list Claimant) (family : Family) (options : CompileOptions) : LedgerM CompiledRule :=
  _ ← pure_result (evaluate_rule rule claims estate "compiler baseline rule evaluation");
  consistency ←
    (if reductions family then
       verdict ← pure_result (check_full_consistency rule claims estate (co_consistency options));
       mret [verdict]
     else mret []);
  solidarity ← pure_result (check_solidarity rule claims estate claimants (shocks family));
  monotonicity ← pure_result (check_monotonicity rule claims estate (strengthening_deltas family)
                                (monotonicity_inversion family));
  strategyproofness ← pure_result (check_strategyproofness rule claims estate);
  compiled_at ← unix_timestamp;
  let compiled_rule :=
    mkCompiledRule (rule_name rule) (rule_version rule) (consistency ++ [solidarity; monotonicity])
      strategyproofness (render (describe family)) compiled_at in
  ledger ← open_default;
  _ ← record_compiled_rule ledger compiled_rule;
  mret compiled_rule.

Definition compile (rule : Rule) (claims : list Claim) (estate : Estate)
    (claimants : list Claimant) (family : Family) : LedgerM CompiledRule :=
  compile_with_options rule claims estate claimants family CompileOptions_default.

(* ------------------------------------------------------------------ *)
(** ** Certification *)

Record CertificationContext := mkCertificationContext {
  cc_compiled_rule : CompiledRule;
  cc_rule : Rule;
  cc_claims : list Claim;
  cc_estate : Estate;
}.

Definition CERTIFICATION_CONTEXT : string := "certificate verification".

Definition expected_certified_outcome (context : CertificationContext) (claimant_id : string)
    : LResult f64 :=
  allocation ← evaluate_rule (cc_rule context) (cc_claims context) (cc_estate context)
                 CERTIFICATION_CONTEXT;
  share_for allocation claimant_id CERTIFICATION_CONTEXT.

Definition ensure_matching_rule (compiled_rule : CompiledRule) (rule : Rule) : LResult () :=
  if bool_decide (cr_name compiled_rule = rule_name rule)
     && bool_decide (cr_version compiled_rule = rule_version rule)
  then Ok ()
  else Err (CertificationRuleMismatch (cr_name compiled_rule) (cr_version compiled_rule)
              (rule_name rule) (rule_version rule)).

Definition outcome_tolerance (expected actual : f64) : f64 :=
  f64_add (f64_add EPSILON (f64_mul EPSILON (f64_abs expected))) (f64_mul EPSILON (f64_abs actual)).

Definition ensure_matching_outcome (compiled_rule : CompiledRule) (claimant_id : string)
    (expected_outcome actual_outcome : f64) : LResult () :=
  if f64_is_finite expected_outcome && f64_is_finite actual_outcome
     && f64_leb (f64_abs (f64_sub expected_outcome actual_outcome))
          (outcome_tolerance expected_outcome actual_outcome)
  then Ok ()
  else Err (CertifiedOutcomeMismatch (cr_name compiled_rule) (cr_version compiled_rule) claimant_id
              expected_outcome actual_outcome).

(** The timestamp of a certificate; the arithmetic is that of the protocol's. *)
Definition issued_at : LedgerM string := λ db, (iso8601_timestamp (now db), db).

Context `{hash : !RuleHash}.

Definition certify (context : CertificationContext) (act_description claimant_id : string)
    (outcome : f64) (evidence : gmap string string) : LedgerM Certificate :=
  let compiled_rule := cc_compiled_rule context in
  _ ← pure_result (ensure_matching_rule compiled_rule (cc_rule context));
  _ ← pure_result (if negb (CompiledRule_is_admissible compiled_rule)
                   then Err (RuleNotAdmissible (cr_name compiled_rule) (cr_version compiled_rule))
                   else Ok ());
  expected_outcome ← pure_result (expected_certified_outcome context claimant_id);
  _ ← pure_result (ensure_matching_outcome compiled_rule claimant_id expected_outcome outcome);
  compiled_rule_hash ← pure_result (content_hash compiled_rule);
  issued ← issued_at;
  let certificate :=
    mkCertificate (cr_name compiled_rule) (cr_version compiled_rule) compiled_rule_hash
      act_description claimant_id outcome evidence issued true in
  ledger ← open_default;
  _ ← record_certificate ledger certificate;
  mret certificate.
End compiler.

(* ------------------------------------------------------------------ *)
(** * What a compiled rule and a certificate mean

    A compiled rule is recorded before it is returned, and it is admissible
    exactly when every check over its family passes; a certificate is issued
    only for an admissible rule and a reproducible outcome; a rule that gives
    each claim a share of its own, whatever the strength, is always
    admissible. *)

(** Rows with these contents are added to table [t], in order; the other tables
    keep their contents. *)
Definition rows_recorded (t : LedgerTable) (contents : list Content) (db db' : LedgerDb) : Prop :=
  row_content <$> table_rows (db' t) = (row_content <$> table_rows (db t)) ++ contents ∧
  ∀ t', t' ≠ t → row_content <$> table_rows (db' t') = row_content <$> table_rows (db t').

Abbreviation row_recorded t content := (rows_recorded t [content]).

(** A bind that succeeds: its first part succeeded. *)
Lemma ledger_bind_Ok {A B} (m : LedgerM A) (k : A → LedgerM B) db b db' :
  mbind k m db = (Ok b, db') → ∃ a d, m db = (Ok a, d) ∧ k a d = (Ok b, db').
Proof. unfold mbind, LedgerM_bind. destruct (m db) as [[a|e] d]; [eauto|done]. Qed.

Lemma pure_result_Ok {A} (r : LResult A) db a d : pure_result r db = (Ok a, d) → r = Ok a ∧ d = db.
Proof. intros H. by injection H as -> ->. Qed.

(** Inverts the first statement of a successful operation. *)
Ltac ledger_step_Ok H a Ha :=
  let d := fresh "d" in apply ledger_bind_Ok in H as (a & d & Ha & H);
  apply pure_result_Ok in Ha as [Ha ->].

Section recorded.
Context `{codec : !LedgerCodec, env : !LedgerEnv, rendering : !Rendering, digest : !DigestLength}.

(** What a transaction inside an opened connection records. *)
Lemma recorded_Ok self context (m : LedgerM ()) t contents db db' :
  (∀ d d', StronglySorted Z.lt (rowid <$> table_rows (d t)) → m d = (Ok (), d') → rows_recorded t contents d d') →
  ledger_sound db →
  with_connection self (run_in_immediate_transaction context m) db = (Ok (), db') →
  rows_recorded t contents db db'.
Proof using digest.
  intros Hm Hs H. rewrite with_connection_split in H.
  pose proof (with_connection_preserves self (mret ()) (stable_ret sound_growth ()) db Hs) as [Hs' _].
  pose proof (with_connection_contents self (mret ()) (stable_ret contents_kept ()) db) as Hk.
  destruct (with_connection self (mret ()) db) as [[[]|e] d]; [|done]. cbn [then_run snd] in *.
  unfold run_in_immediate_transaction, run_in_transaction in H. destruct (statement_fails _ d); [done|].
  destruct (m d) as [[[]|e] d'] eqn:Ha; [|done]. destruct (statement_fails _ d'); [done|].
  injection H as ->. apply Hm in Ha as [Hrows Hoth]; [|apply Hs'].
  split; [by rewrite Hrows, (contents_kept_content _ _ t Hk)|].
  intros t' Hne. rewrite Hoth by done. by apply contents_kept_content.
Qed.

Lemma append_row_recorded recording finalizing t content d d' :
  StronglySorted Z.lt (rowid <$> table_rows (d t)) →
  append_row recording finalizing t content d = (Ok (), d') → row_recorded t (stored_columns content) d d'.
Proof.
  intros Hs Ha. apply append_row_Ok in Ha as (row & Hc & _ & _ & _ & Hrows & Hoth); [|done]. split.
  - rewrite Hrows. cbn [table_rows]. by rewrite fmap_app, list_fmap_singleton, Hc.
  - intros t' Hne. by rewrite Hoth.
Qed.

Lemma append_rows_recorded {A} recording finalizing t (f : A → Content) l d d' :
  StronglySorted Z.lt (rowid <$> table_rows (d t)) →
  ledger_iter (λ x, append_row recording finalizing t (f x)) l d = (Ok (), d') →
  rows_recorded t ((λ x, stored_columns (f x)) <$> l) d d'.
Proof.
  revert d. induction l as [|x l IH]; intros d Hs H.
  - injection H as ->. split; [by rewrite app_nil_r|done].
  - apply ledger_bind_Ok in H as ([] & d1 & Hx & H).
    destruct (append_row_recorded _ _ _ _ _ _ Hs Hx) as [Hc Hoth].
    destruct (IH d1 (append_row_sorted _ _ _ _ _ _ Hx Hs) H) as [Hc' Hoth']. split.
    + by rewrite Hc', Hc, <-(assoc_L (++)).
    + intros t' Hne. by rewrite Hoth', Hoth.
Qed.

Lemma open_default_stable R `{!PreOrder R} :
  (∀ self, stable R (with_connection self (mret ()))) → stable R open_default.
Proof.
  intros HR. unfold open_default, Ledger_open. cbv zeta. ledger_steps. apply HR.
Qed.

Lemma open_default_sound db d ledger :
  ledger_sound db → open_default db = (Ok ledger, d) → ledger_sound d ∧ contents_kept db d.
Proof using digest.
  intros Hs H. split.
  - destruct (open_default_stable sound_growth
      (λ self, with_connection_preserves self _ (stable_ret sound_growth ())) db Hs) as [Hs' _].
    by rewrite H in Hs'.
  - pose proof (open_default_stable contents_kept
      (λ self, with_connection_contents self _ (stable_ret contents_kept ())) db) as Hk. by rewrite H in Hk.
Qed.

Lemma rows_recorded_after db d db' t contents :
  contents_kept db d → rows_recorded t contents d db' → rows_recorded t contents db db'.
Proof.
  intros Hk [Ht Hoth]. split; [by rewrite Ht, (contents_kept_content _ _ t Hk)|].
  intros t' Hne. by rewrite Hoth, (contents_kept_content _ _ t' Hk).
Qed.
End recorded.

(* ------------------------------------------------------------------ *)
(** ** Compiling *)

(** What the compiler asks of the rule over the family. *)
Definition family_admissible (rule : Rule) (claims : list Claim) (estate : Estate)
    (claimants : list Claimant) (family : Family) (options : CompileOptions) : Prop :=
  (reductions family = true →
    ∃ v, check_full_consistency rule claims estate (co_consistency options) = Ok v ∧ verdict_admissible v = true) ∧
  (∃ v, check_solidarity rule claims estate claimants (shocks family) = Ok v ∧ verdict_admissible v = true) ∧
  (∃ v, check_monotonicity rule claims estate (strengthening_deltas family) (monotonicity_inversion family) = Ok v ∧
    verdict_admissible v = true) ∧
  check_strategyproofness rule claims estate = Ok Strategyproof.

(** Every check of the family came to a verdict. *)
Definition family_checked (rule : Rule) (claims : list Claim) (estate : Estate)
    (claimants : list Claimant) (family : Family) (options : CompileOptions) : Prop :=
  (reductions family = true → ∃ v, check_full_consistency rule claims estate (co_consistency options) = Ok v) ∧
  (∃ v, check_solidarity rule claims estate claimants (shocks family) = Ok v) ∧
  (∃ v, check_monotonicity rule claims estate (strengthening_deltas family) (monotonicity_inversion family) = Ok v) ∧
  ∃ v, check_strategyproofness rule claims estate = Ok v.

Lemma compile_Ok `{codec : !LedgerCodec, env : !LedgerEnv, rendering : !Rendering}
    rule claims estate claimants family options db compiled db' :
  compile_with_options rule claims estate claimants family options db = (Ok compiled, db') →
  (CompiledRule_is_admissible compiled = true ↔
    family_admissible rule claims estate claimants family options) ∧
  family_checked rule claims estate claimants family options ∧
  cr_name compiled = rule_name rule ∧ cr_version compiled = rule_version rule ∧
  ∃ ledger d, open_default db = (Ok ledger, d) ∧ record_compiled_rule ledger compiled d = (Ok (), db').
Proof.
  unfold compile_with_options. intros H. ledger_step_Ok H a0 Hbase.
  apply ledger_bind_Ok in H as (cv & d1 & Hcons & H).
  assert (d1 = db ∧ (reductions family = true → ∃ v, check_full_consistency rule claims estate (co_consistency options) = Ok v) ∧
    (forallb verdict_admissible cv = true ↔ (reductions family = true →
    ∃ v, check_full_consistency rule claims estate (co_consistency options) = Ok v ∧ verdict_admissible v = true)))
    as (-> & Hck & Hcv).
  { destruct (reductions family).
    - ledger_step_Ok Hcons v Hv. injection Hcons as <- <-. split_and!; [done|by eauto|]. simpl. rewrite andb_true_r. split.
      + intros Ha _. eauto.
      + intros Hx. destruct (Hx eq_refl) as (v' & Hv' & Ha'). congruence.
    - injection Hcons as <- <-. split_and!; [done|done|]. split; [intros _ ?; discriminate|done]. }
  ledger_step_Ok H sv Hsol. ledger_step_Ok H mv Hmon. ledger_step_Ok H spv Hsp.
  apply ledger_bind_Ok in H as (ts & d & Hts & H). assert (d = db) as -> by (unfold unix_timestamp in Hts; congruence).
  apply ledger_bind_Ok in H as (ledger & d1 & Hopen & H). apply ledger_bind_Ok in H as ([] & d2 & Hrec & H).
  injection H as <- ->. split_and!; [|unfold family_checked; split_and!; eauto|done|done|eauto].
  unfold CompiledRule_is_admissible, family_admissible. cbn [cr_axiom_verdicts cr_strategyproofness].
  rewrite forallb_app, andb_true_iff, andb_true_iff, Hcv, Hsp. cbn [forallb]. rewrite andb_true_r, andb_true_iff.
  split.
  - intros ((? & ? & ?) & Hs). split_and!; [done|by eauto|by eauto|]. destruct spv; [done|discriminate].
  - intros (? & (v1 & Hv1 & ?) & (v2 & Hv2 & ?) & Hs). split_and!; [done|congruence|congruence|]. by simplify_eq.
Qed.

(** C9: A compiled rule is recorded before it is returned, and its
    admissibility is what the checks say: when [compile_with_options] returns
    a compiled rule, every check came to a verdict, the compiled rule is
    admissible exactly when every declared check of the family passes
    (consistency only if reductions are in scope) and the rule is
    strategyproof, and the ledger has exactly one more row, that rule's. *)
Theorem compiled_rule_recorded_and_exact
    `{codec : !LedgerCodec, env : !LedgerEnv, rendering : !Rendering, digest : !DigestLength}
    rule claims estate claimants family options db compiled db'
    (Hreach : rtc ledger_step empty_ledger db)
    (Hrun : compile_with_options rule claims estate claimants family options db = (Ok compiled, db')) :
  (CompiledRule_is_admissible compiled = true ↔
    family_admissible rule claims estate claimants family options) ∧
  family_checked rule claims estate claimants family options ∧
  cr_name compiled = rule_name rule ∧ cr_version compiled = rule_version rule ∧
  row_recorded CompiledRulesTable (compiled_rule_row compiled) db db'.
Proof.
  destruct (ledger_steps_sound _ _ Hreach empty_ledger_sound) as [Hs _].
  apply compile_Ok in Hrun as (Hadm & Hck & Hn & Hv & ledger & d & Hopen & Hrec).
  split_and!; [done..|]. destruct (open_default_sound _ _ _ Hs Hopen) as [Hs' Hk].
  eapply rows_recorded_after; [exact Hk|].
  eapply recorded_Ok; [|exact Hs'|exact Hrec]. intros d2 d2'. apply append_row_recorded.
Qed.

(** The agent permissions rule is always admissible: whatever the claims
    (with representable metrics), the estate, the claimants, the shocks, the
    deltas and the reductions of the family, compiling it never yields a
    rejected axiom nor a profitable misreport. *)
Theorem permissions_rule_always_admissible
    `{codec : !LedgerCodec, env : !LedgerEnv, rendering : !Rendering}
    claims estate claimants family options db compiled db'
    (Hmetrics : Forall representable_metrics claims)
    (Hrun : compile_with_options claude_agent_sdk_permissions_rule claims estate claimants family options db =
      (Ok compiled, db')) :
  CompiledRule_is_admissible compiled = true.
Proof.
  apply compile_Ok in Hrun as (Hadm & (Hc & (sv & Hs) & (mv & Hm) & spv & Hsp) & _).
  apply Hadm. split_and!.
  - intros Hr. destruct (Hc Hr) as [v Hv]. exists v. split; [done|].
    eapply per_claim_consistent; [apply permissions_per_claim|apply permissions_share_proper|done..].
  - exists sv. split; [done|].
    eapply per_claim_solidary; [apply permissions_per_claim|apply permissions_share_proper|done..].
  - exists mv. split; [done|].
    by eapply per_claim_monotone; [apply permissions_per_claim|apply permissions_share_proper|..].
  - rewrite Hsp. f_equal.
    by eapply per_claim_strategyproof; [apply permissions_per_claim|apply permissions_share_proper|..].
Qed.

(* ------------------------------------------------------------------ *)
(** ** Certifying *)

(** C14: A certificate is issued only for an admissible rule and a reproducible
    outcome, and is recorded: when [certify] returns a certificate, the
    compiled rule is admissible and is the rule given, the rule allocates the
    claimant a finite share that the certified finite outcome matches within
    the tolerance, the certificate carries the hash of the compiled rule, and
    the ledger has exactly one more row, that certificate's. *)
Theorem certificate_sound
    `{codec : !LedgerCodec, env : !LedgerEnv, rendering : !Rendering, digest : !DigestLength, hash : !RuleHash}
    context act claimant outcome evidence db cert db'
    (Hreach : rtc ledger_step empty_ledger db)
    (Hrun : certify context act claimant outcome evidence db = (Ok cert, db')) :
  CompiledRule_is_admissible (cc_compiled_rule context) = true ∧
  cr_name (cc_compiled_rule context) = rule_name (cc_rule context) ∧
  cr_version (cc_compiled_rule context) = rule_version (cc_rule context) ∧
  (∃ allocation expected,
    evaluate_rule (cc_rule context) (cc_claims context) (cc_estate context) CERTIFICATION_CONTEXT = Ok allocation ∧
    allocation !! claimant = Some expected ∧ f64_is_finite expected = true ∧ f64_is_finite outcome = true ∧
    f64_leb (f64_abs (f64_sub expected outcome)) (outcome_tolerance expected outcome) = true) ∧
  content_hash (cc_compiled_rule context) = Ok (ct_compiled_rule_hash cert) ∧
  ct_claimant_id cert = claimant ∧ ct_outcome cert = outcome ∧ ct_evidence cert = evidence ∧
  ct_rule_name cert = rule_name (cc_rule context) ∧
  row_recorded CertificatesTable (stored_columns (certificate_row cert)) db db'.
Proof.
  destruct (ledger_steps_sound _ _ Hreach empty_ledger_sound) as [Hs _].
  unfold certify in Hrun. cbv zeta in Hrun. ledger_step_Ok Hrun u1 Hmatch. ledger_step_Ok Hrun u2 Hadm.
  ledger_step_Ok Hrun expected Hexp. ledger_step_Ok Hrun u3 Hout. ledger_step_Ok Hrun rule_hash Hhash.
  apply ledger_bind_Ok in Hrun as (ts & d & Hts & Hrun). assert (d = db) as -> by (unfold issued_at in Hts; congruence).
  apply ledger_bind_Ok in Hrun as (ledger & d1 & Hopen & Hrun).
  apply ledger_bind_Ok in Hrun as ([] & d2 & Hrec & Hrun). injection Hrun as <- ->.
  unfold ensure_matching_rule in Hmatch. destruct (bool_decide _ && bool_decide _) eqn:Hm; [|done].
  apply andb_true_iff in Hm as [Hn%bool_decide_eq_true Hv%bool_decide_eq_true].
  destruct (CompiledRule_is_admissible _) eqn:Ha; [|done].
  unfold expected_certified_outcome in Hexp. destruct_bind Hexp Heval. apply share_for_Ok in Hexp.
  unfold ensure_matching_outcome in Hout. destruct (_ && _ && _) eqn:Ho; [|done].
  apply andb_true_iff in Ho as [[Hf1 Hf2]%andb_true_iff Htol].
  cbn [ct_compiled_rule_hash ct_claimant_id ct_outcome ct_evidence ct_rule_name].
  split_and!; [done..|eauto 10|done|done|done|done|done|].
  destruct (open_default_sound _ _ _ Hs Hopen) as [Hs' Hk].
  eapply rows_recorded_after; [exact Hk|].
  eapply recorded_Ok; [|exact Hs'|exact Hrec]. intros d2 d2'. apply append_row_recorded.
Qed.

(** Nothing else is written: a refusal leaves the ledger untouched. *)
Lemma certify_inadmissible `{codec : !LedgerCodec, env : !LedgerEnv, rendering : !Rendering, hash : !RuleHash}
    context act claimant outcome evidence db :
  CompiledRule_is_admissible (cc_compiled_rule context) = false →
  ∃ e, certify context act claimant outcome evidence db = (Err e, db).
Proof.
  intros Ha. unfold certify, mbind, LedgerM_bind, pure_result. destruct (ensure_matching_rule _ _) as [[]|e]; [|eauto].
  rewrite Ha. simpl. eauto.
Qed.
