(* ===== verification/Sacrifice.v ===== *)
(** * Compiling with declared sacrifices (src/sacrifice.rs)

    What a rule or a graph fails becomes a list of declared sacrifices, each
    with the largest observed perturbation as its bound and a monitoring plan;
    a certificate with sacrifices is recorded in the ledger.  The two kinds of
    target implement one interface ([SacrificeCompileTarget]). *)

From Stdlib Require Import Ascii.
From S2P Require Import Prelude F64 Errors Core GraphNode GraphTraverse BinaryDiagnostics GraphDiagnostics Observable KernelChecks NonVacuity Mechanism Rules Coalitions RuleDiagnostics ProtocolData Compiled Clock LedgerStore Ledger Compiler.
From stdpp Require Import options.

Definition DEFAULT_SHOCKS : list f64 := [f64_lit 1 2; f64_lit 3 4; f64_lit 5 4; f64_lit 3 2].
Definition DEFAULT_STRENGTHENING : list f64 := [f64_lit 1 10; f64_lit 1 2; f64_one].
Definition DEFAULT_ALERT_CHANNEL : string := "governance-risk".
Definition GRAPH_NAME : string := "governance-graph".
Definition GRAPH_VERSION : string := "derived".

(* ------------------------------------------------------------------ *)
(** ** Strings *)

(** [str::to_ascii_lowercase] *)
Definition ascii_lowercase (c : ascii) : ascii :=
  let n := nat_of_ascii c in
  if bool_decide (65 ≤ n) && bool_decide (n ≤ 90) then ascii_of_nat (n + 32) else c.

Fixpoint to_ascii_lowercase (s : string) : string :=
  match s with
  | EmptyString => EmptyString
  | String c s => String (ascii_lowercase c) (to_ascii_lowercase s)
  end.

(** [str::contains] *)
Fixpoint contains (s pattern : string) : bool :=
  String.prefix pattern s ||
  match s with EmptyString => false | String _ s => contains s pattern end.

Definition property_for_axiom (axiom : string) : option GovernanceProperty :=
  let lower := to_ascii_lowercase axiom in
  if contains lower "compositional safety" then Some ProtocolData.CompositionalSafety
  else if contains lower "certifiability" || contains lower "certifiable" then Some Certifiability
  else if contains lower "corrigibility" || contains lower "corrigible" then Some Corrigibility
  else if contains lower "observable determinacy" || contains lower "observable_determinacy"
  then Some ObservableDeterminacy
  else if contains lower "nonvacu" || contains lower "non-vacu" || contains lower "non_vacu"
  then Some ProtocolData.NonVacuous
  else if contains lower "consistency" then Some Consistency
  else if contains lower "solidarity" then Some Solidarity
  else if contains lower "monotonicity" then Some Monotonicity
  else None.

(* ------------------------------------------------------------------ *)
(** ** The size of a counterexample *)

Definition claim_ids (cx : Counterexample) : gset string :=
  list_to_set (claim_id <$> (original_claims cx ++ perturbed_claims cx)).

Definition find_claim (claims : list Claim) (claimant_id : string) : option Claim :=
  snd <$> list_find (λ claim, claim_id claim = claimant_id) claims.

Definition estate_relative_change (cx : Counterexample) : f64 :=
  let original := estate_total (original_estate cx) in
  let perturbed := estate_total (perturbed_estate cx) in
  if f64_leb original EPSILON then f64_zero
  else f64_abs (f64_sub (f64_div perturbed original) f64_one).

Definition strength_of (claim : option Claim) : f64 :=
  match claim with Some claim => claim_strength claim | None => f64_zero end.

Definition max_strength_delta (cx : Counterexample) : f64 :=
  foldl f64_max f64_zero
    ((λ claimant_id,
        f64_abs (f64_sub (strength_of (find_claim (perturbed_claims cx) claimant_id))
                         (strength_of (find_claim (original_claims cx) claimant_id))))
     <$> bset_iter (claim_ids cx)).

Definition metrics_of (claim : option Claim) : gmap string f64 :=
  match claim with Some claim => claim_metrics claim | None => ∅ end.

Definition metric_value (claim : option Claim) (metric_name : string) : f64 :=
  match metrics_of claim !! metric_name with Some value => value | None => f64_zero end.

Definition record_metric_delta (original perturbed : option Claim) (deltas : gmap string f64)
    (metric_name : string) : gmap string f64 :=
  let delta := f64_abs (f64_sub (metric_value perturbed metric_name) (metric_value original metric_name)) in
  match deltas !! metric_name with
  | Some current => <[metric_name := f64_max current delta]> deltas
  | None => <[metric_name := delta]> deltas
  end.

Definition max_claim_metric_deltas (cx : Counterexample) : gmap string f64 :=
  foldl (λ deltas claimant_id,
    let original := find_claim (original_claims cx) claimant_id in
    let perturbed := find_claim (perturbed_claims cx) claimant_id in
    foldl (record_metric_delta original perturbed) deltas
      (bset_iter (dom (metrics_of original) ∪ dom (metrics_of perturbed))))
    ∅ (bset_iter (claim_ids cx)).

Definition monitoring_frequency_seconds (property : GovernanceProperty) : Z :=
  match property with
  | Strategyproofness | Certifiability | ObservableDeterminacy | Corrigibility
  | ProtocolData.CompositionalSafety | ProtocolData.NonVacuous => 60
  | Consistency => 900
  | Solidarity | Monotonicity => 300
  end.

Definition monitoring_alert_channel (property : GovernanceProperty) : string :=
  DEFAULT_ALERT_CHANNEL +:+ "." +:+ as_str property.

(** The metrics that moved beyond the tolerance, by name. *)
Definition moved_metrics (cx : Counterexample) : gmap string f64 :=
  let metrics := ∅ in
  let estate_delta := estate_relative_change cx in
  let metrics := if f64_ltb EPSILON estate_delta
                 then <["estate_relative_change" := estate_delta]> metrics else metrics in
  let strength_delta := max_strength_delta cx in
  let metrics := if f64_ltb EPSILON strength_delta
                 then <["claim_strength_delta" := strength_delta]> metrics else metrics in
  foldl (λ metrics '(metric, threshold),
    if f64_ltb EPSILON threshold
    then <["claim_metric_delta." +:+ metric := threshold]> metrics else metrics)
    metrics (btree_iter (max_claim_metric_deltas cx)).

Definition monitoring_plan_from_counterexample (property : GovernanceProperty) (cx : Counterexample)
    : list MonitoringSpec :=
  (λ '(metric, threshold),
     mkMonitoringSpec (as_str property +:+ "." +:+ metric) threshold
       (monitoring_frequency_seconds property) (monitoring_alert_channel property))
  <$> btree_iter (moved_metrics cx).

(* ------------------------------------------------------------------ *)
(** ** Sacrifices *)

Record CompiledMetadata := mkMetadata {
  md_kind : CompiledGovernanceKind;
  md_name : string;
  md_version : string;
  md_family_description : string;
  md_compiled_at : string;
}.

Definition counterexample_sacrifice (metadata : CompiledMetadata) (property : GovernanceProperty)
    (axiom : string) (cx : Counterexample) : CompiledSacrifice :=
  let monitoring_plan := monitoring_plan_from_counterexample property cx in
  mkCompiledSacrifice property (violation cx ++ [Txt " Witness: "] ++ description cx)
    (foldl f64_max f64_zero (spec_threshold <$> monitoring_plan))
    monitoring_plan
    (mkProvenance (md_kind metadata) (md_name metadata) (md_version metadata)
       (md_compiled_at metadata) (md_family_description metadata) axiom (description cx)).

Definition strategyproofness_sacrifice (metadata : CompiledMetadata) (witness : StrategyproofnessWitness)
    : CompiledSacrifice :=
  let threshold := f64_abs (f64_sub (sw_reported witness) (sw_true_strength witness)) in
  mkCompiledSacrifice Strategyproofness
    [Txt "Claimant '"; Txt (sw_claimant witness);
     Txt "' can improve its outcome by misreporting strength from "; Num (sw_true_strength witness);
     Txt " to "; Num (sw_reported witness); Txt ", moving from "; Num (sw_true_alloc witness);
     Txt " to "; Num (sw_manipulated_alloc witness); Txt "."]
    threshold
    [mkMonitoringSpec (as_str Strategyproofness +:+ ".claim_strength_delta") threshold
       (monitoring_frequency_seconds Strategyproofness) (monitoring_alert_channel Strategyproofness)]
    (mkProvenance (md_kind metadata) (md_name metadata) (md_version metadata)
       (md_compiled_at metadata) (md_family_description metadata) "strategyproofness"
       [Txt "manipulable claimant="; Txt (sw_claimant witness); Txt ", true_strength=";
        Num (sw_true_strength witness); Txt ", reported="; Num (sw_reported witness)]).

Definition sacrifices_from_axioms (metadata : CompiledMetadata) (axiom_verdicts : list Verdict)
    (strategyproofness : StrategyproofnessVerdict) : list CompiledSacrifice :=
  omap (λ verdict,
    match verdict with
    | Rejected axiom cx =>
        (λ property, counterexample_sacrifice metadata property axiom cx) <$> property_for_axiom axiom
    | Admissible _ _ => None
    end) axiom_verdicts ++
  match strategyproofness_witness strategyproofness with
  | Some witness => [strategyproofness_sacrifice metadata witness]
  | None => []
  end.

Definition sacrifices_from_rule (compiled : CompiledRule) : list CompiledSacrifice :=
  sacrifices_from_axioms
    (mkMetadata RuleKind (cr_name compiled) (cr_version compiled) (cr_family_description compiled)
       (cr_compiled_at compiled))
    (cr_axiom_verdicts compiled) (cr_strategyproofness compiled).

Definition sacrifices_from_graph (compiled : GraphCompilation) : list CompiledSacrifice :=
  sacrifices_from_axioms
    (mkMetadata GraphKind (gp_name compiled) (gp_version compiled) (gp_family_description compiled)
       (gp_compiled_at compiled))
    (gp_axiom_verdicts compiled) (gp_strategyproofness compiled).

(* ------------------------------------------------------------------ *)
(** ** Defaults *)

Definition default_claimants (rule : Rule) (claims : list Claim) : list Claimant :=
  let default_priority_class :=
    match priority_classes rule with class :: _ => class | [] => "standard" end in
  (λ claim, mkClaimant (claim_id claim) default_priority_class ∅) <$> claims.

Definition default_family : LResult Family :=
  strengthening_deltas ← try_map PositiveStrength_new DEFAULT_STRENGTHENING;
  Ok (mkFamily true DEFAULT_SHOCKS strengthening_deltas false).

Definition graph_fields (claims : list GovernanceClaim) : gset string :=
  foldl (λ fields claim, fields ∪ dom (gc_metrics claim)) {["strength"]} claims.

Definition field_delta (field : string) : f64 :=
  if decide (field = "strength") then f64_lit 1 10 else f64_one.

Definition graph_shocks (fields : gset string) : list BinaryShock :=
  (λ field, mkBinaryShock field (field_delta field)) <$> bset_iter fields.

Definition graph_deltas (fields : gset string) : list BinaryDelta :=
  (λ field, mkBinaryDelta field (field_delta field)) <$> bset_iter fields.

(* ------------------------------------------------------------------ *)
(** ** Compiling to a certificate *)

(** The trait: what compiles with declared sacrifices. *)
Class SacrificeCompileTarget (T C : Type) := {
  compile_declared_sacrifices : T → list C → Estate → LedgerM DeclaredSacrificesCertificate;
  recompile_declared_sacrifices_with_revised_ledger :
    T → list C → Estate → list CompiledSacrifice → LedgerM DeclaredSacrificesCertificate;
}.

Definition require_graph_kernel_verdict (verdict : AxiomVerdict) : LResult Verdict :=
  map_err (λ skipped, invalid_input
      ([Txt "skipped "; Txt (graph_axiom_name (skipped_axiom skipped));
        Txt " during graph sacrifice compilation: "] ++ skipped_reason skipped))
    (verdict_try_from verdict).

Section sacrifice.
Context `{codec : !LedgerCodec, env : !LedgerEnv, rendering : !Rendering, regex : !RegexEngine}.

Definition issue_certificate (compiled : CompiledGovernance) (sacrifices : list CompiledSacrifice)
    : LedgerM DeclaredSacrificesCertificate :=
  let certificate := mkSacrificesCertificate compiled sacrifices in
  _ ← (if decide (dc_sacrifices certificate = []) then mret ()
       else ledger ← open_default; record_declared_sacrifices ledger certificate);
  mret certificate.

Definition compile_with_sacrifices_with_family_and_options (rule : Rule) (claims : list Claim)
    (claimants : list Claimant) (estate : Estate) (family : Family) (options : CompileOptions)
    : LedgerM DeclaredSacrificesCertificate :=
  compiled ← compile_with_options rule claims estate claimants family options;
  issue_certificate (GovernedRule compiled) (sacrifices_from_rule compiled).

Definition compile_with_sacrifices_with_family (rule : Rule) (claims : list Claim)
    (claimants : list Claimant) (estate : Estate) (family : Family)
    : LedgerM DeclaredSacrificesCertificate :=
  compile_with_sacrifices_with_family_and_options rule claims claimants estate family
    CompileOptions_default.

Definition compile_with_revised_sacrifices_with_family (rule : Rule) (claims : list Claim)
    (claimants : list Claimant) (estate : Estate) (family : Family)
    (revised_sacrifices : list CompiledSacrifice) : LedgerM DeclaredSacrificesCertificate :=
  compiled ← compile rule claims estate claimants family;
  issue_certificate (GovernedRule compiled) revised_sacrifices.

Definition graph_family_description (fields : gset string) (shocks : list BinaryShock)
    (deltas : list BinaryDelta) : Message :=
  [Txt "derived_fields="; NameSet (bset_iter fields); Txt ", shocks=";
   Names ((λ shock, render [Txt (shock_field shock); Txt ":"; Num2 (shock_delta shock)]) <$> shocks);
   Txt ", deltas=";
   Names ((λ delta, render [Txt (delta_field delta); Txt ":"; Num2 (delta_delta delta)]) <$> deltas)].

(** The verdicts of the diagnostics and of the kernel axioms, in order. *)
Definition graph_axiom_verdicts (graph : GovernanceGraph) (claims : list GovernanceClaim)
    : LResult (list Verdict) :=
  let fields := graph_fields claims in
  consistency ← check_graph_consistency graph claims;
  solidarity ← check_graph_solidarity graph claims (graph_shocks fields);
  monotonicity ← check_graph_monotonicity graph claims (graph_deltas fields);
  certifiability ← check_graph_certifiability graph claims ≫= require_graph_kernel_verdict;
  determinacy ← check_graph_observable_determinacy graph claims ≫= require_graph_kernel_verdict;
  corrigibility ← check_graph_corrigibility graph claims ≫= require_graph_kernel_verdict;
  safety ← check_graph_compositional_safety graph claims ≫= require_graph_kernel_verdict;
  nonvacuity ← check_graph_nonvacuity graph claims [] ≫= require_graph_kernel_verdict;
  Ok [consistency; solidarity; monotonicity; certifiability; determinacy; corrigibility; safety;
      nonvacuity].

Definition compile_graph_payload (graph : GovernanceGraph) (claims : list GovernanceClaim)
    : LedgerM GraphCompilation :=
  let fields := graph_fields claims in
  axiom_verdicts ← pure_result (graph_axiom_verdicts graph claims);
  strategyproofness ← pure_result (check_graph_strategyproofness_verdict graph claims);
  compiled_at ← unix_timestamp;
  mret (mkGraphCompilation GRAPH_NAME GRAPH_VERSION axiom_verdicts strategyproofness
          (render (graph_family_description fields (graph_shocks fields) (graph_deltas fields)))
          compiled_at).

Definition compile_graph_with_sacrifices (graph : GovernanceGraph) (claims : list GovernanceClaim)
    (_estate : Estate) : LedgerM DeclaredSacrificesCertificate :=
  compiled ← compile_graph_payload graph claims;
  issue_certificate (GovernedGraph compiled) (sacrifices_from_graph compiled).

Definition compile_graph_with_revised_sacrifices (graph : GovernanceGraph)
    (claims : list GovernanceClaim) (_estate : Estate) (revised_sacrifices : list CompiledSacrifice)
    : LedgerM DeclaredSacrificesCertificate :=
  compiled ← compile_graph_payload graph claims;
  issue_certificate (GovernedGraph compiled) revised_sacrifices.

Definition compile_rule_declared (self : Rule) (claims : list Claim) (estate : Estate)
    : LedgerM DeclaredSacrificesCertificate :=
  let claimants := default_claimants self claims in
  family ← pure_result default_family;
  compile_with_sacrifices_with_family self claims claimants estate family.

Definition recompile_rule_declared (self : Rule) (claims : list Claim) (estate : Estate)
    (revised_sacrifices : list CompiledSacrifice) : LedgerM DeclaredSacrificesCertificate :=
  let claimants := default_claimants self claims in
  family ← pure_result default_family;
  compile_with_revised_sacrifices_with_family self claims claimants estate family revised_sacrifices.

Global Instance SacrificeCompileTarget_Rule : SacrificeCompileTarget Rule Claim := {
  compile_declared_sacrifices := compile_rule_declared;
  recompile_declared_sacrifices_with_revised_ledger := recompile_rule_declared;
}.

Global Instance SacrificeCompileTarget_GovernanceGraph :
    SacrificeCompileTarget GovernanceGraph GovernanceClaim := {
  compile_declared_sacrifices := compile_graph_with_sacrifices;
  recompile_declared_sacrifices_with_revised_ledger := compile_graph_with_revised_sacrifices;
}.
End sacrifice.

Definition compile_with_sacrifices_and_monitor {T C} `{SacrificeCompileTarget T C} (target : T)
    (claims : list C) (estate : Estate) : LedgerM DeclaredSacrificesCertificate :=
  compile_declared_sacrifices target claims estate.

Definition compile_with_sacrifices {T C} `{SacrificeCompileTarget T C} (target : T)
    (claims : list C) (estate : Estate) : LedgerM DeclaredSacrificesCertificate :=
  compile_with_sacrifices_and_monitor target claims estate.

Record RevisedSacrificeRecompile (T C : Type) := mkRevised {
  rs_target : T;
  rs_claims : list C;
  rs_estate : Estate;
  rs_revised_sacrifices : list CompiledSacrifice;
}.
Arguments rs_target {T C} _.
Arguments rs_claims {T C} _.
Arguments rs_estate {T C} _.
Arguments rs_revised_sacrifices {T C} _.

(** The recompiled certificate; the wrapper record has it as its only field. *)
Definition recompile_with_revised_sacrifice {T C} `{SacrificeCompileTarget T C}
    (input : RevisedSacrificeRecompile T C) : LedgerM DeclaredSacrificesCertificate :=
  recompile_declared_sacrifices_with_revised_ledger (rs_target input) (rs_claims input)
    (rs_estate input) (rs_revised_sacrifices input).
