(* ===== verification/Monitor.v ===== *)
(** * Factor exposure and drift monitoring (src/factor.rs, src/monitor.rs)

    The exposure of a rule to each axiom, and the iterator that compares
    reported magnitudes with the bounds of the declared sacrifices.  A JSONL
    source is the sequence of what its reads return: an end of file (the
    monitor sleeps and reads again), a line, or an error. *)

From S2P Require Import Prelude F64 Errors Core Mechanism Rules Coalitions RuleDiagnostics ProtocolData Compiled Compiler Sacrifice.
From stdpp Require Import options.

(* ------------------------------------------------------------------ *)
(** ** Factor exposure *)

Definition exposure_of (verdict : Verdict) : f64 :=
  match verdict with Rejected _ _ => f64_one | Admissible _ _ => f64_zero end.

Definition compute_factor_exposure_with_family_and_options (rule : Rule) (claims : list Claim)
    (claimants : list Claimant) (estate : Estate) (family : Family)
    (consistency_options : FullConsistencyOptions) : LResult GovernanceFactorExposure :=
  consistency ← check_full_consistency rule claims estate consistency_options;
  solidarity ← check_solidarity rule claims estate claimants (shocks family);
  monotonicity ← check_monotonicity rule claims estate (strengthening_deltas family)
                   (monotonicity_inversion family);
  strategyproofness ← check_strategyproofness rule claims estate;
  allocation ← Rule_allocate rule claims estate;
  let nonvacuity :=
    if bool_decide (claims = []) || negb (existsb (λ share, f64_ltb EPSILON share) (btree_values allocation))
    then f64_one else f64_zero in
  Ok (mkExposure (exposure_of consistency) (exposure_of solidarity) (exposure_of monotonicity)
        (strategyproofness_exposure strategyproofness) nonvacuity).

Definition compute_factor_exposure_with_family (rule : Rule) (claims : list Claim)
    (claimants : list Claimant) (estate : Estate) (family : Family) : LResult GovernanceFactorExposure :=
  compute_factor_exposure_with_family_and_options rule claims claimants estate family
    FullConsistencyOptions_default.

(** The module's own [default_claimants] and [default_family] are those of src/sacrifice.rs. *)
Definition compute_factor_exposure (rule : Rule) (claims : list Claim) (estate : Estate)
    : LResult GovernanceFactorExposure :=
  let claimants := default_claimants rule claims in
  family ← default_family;
  compute_factor_exposure_with_family rule claims claimants estate family.

(* ------------------------------------------------------------------ *)
(** ** Drift *)

Record GovernanceMonitoringEvent := mkEvent {
  ev_property : GovernanceProperty;
  ev_actual_magnitude : f64;
  ev_timestamp : string;
  ev_evidence : gmap string string;
}.

Record GovernanceDriftEvent := mkDrift {
  dr_property : GovernanceProperty;
  dr_declared_bound : f64;
  dr_actual_magnitude : f64;
  dr_timestamp : string;
  dr_evidence : gmap string string;
}.

(** What a read at the current offset returns. *)
Inductive JsonlRead : Type :=
  | ReadFails (e : LegitimacyError)
  | ReadEof
  | ReadLine (bytes_read : nat) (line : string).

Inductive GovernanceEventSource : Type :=
  | InMemory (events : list GovernanceMonitoringEvent)
  | JsonlFile (offset : nat) (reads : list JsonlRead).

Record MonitorSession := mkMonitorSession {
  mn_compiled_graph : GraphCompilation;
  mn_declared_sacrifices : list CompiledSacrifice;
  mn_interval_secs : Z;
  mn_event_source : GovernanceEventSource;
}.

(** [f64::total_cmp] minimum: the first of the smallest. *)
Definition min_by_total_cmp (l : list f64) : option f64 :=
  match l with
  | [] => None
  | x :: l => Some (foldl (λ best y, if f64_total_le best y then best else y) x l)
  end.

Definition declared_bound (sacrifices : list CompiledSacrifice) (property : GovernanceProperty) : option f64 :=
  min_by_total_cmp (cs_impact_bound <$> filter (λ s, cs_sacrificed_property s = property) sacrifices).

Definition drift_for (sacrifices : list CompiledSacrifice) (event : GovernanceMonitoringEvent)
    : LResult (option GovernanceDriftEvent) :=
  if negb (f64_is_finite (ev_actual_magnitude event)) || f64_ltb (ev_actual_magnitude event) f64_zero then
    Err (invalid_input [Txt "monitor event for '"; Txt (as_str (ev_property event));
                        Txt "' reported invalid magnitude "; Num (ev_actual_magnitude event)])
  else
    match declared_bound sacrifices (ev_property event) with
    | None => Ok None
    | Some bound =>
        if f64_ltb (f64_add bound EPSILON) (ev_actual_magnitude event) then
          Ok (Some (mkDrift (ev_property event) bound (ev_actual_magnitude event)
                      (ev_timestamp event) (ev_evidence event)))
        else Ok None
    end.

Section source.
(** [serde_json::from_str] on a line, and the path in its error. *)
Context (parse_event : string → option GovernanceMonitoringEvent) (path : string).

(** The outcome of asking a source for its next event: still waiting when the
    reads that were given run out. *)
Inductive NextEvent : Type :=
  | NextIs (event : GovernanceMonitoringEvent) (source : GovernanceEventSource)
  | NextNone (source : GovernanceEventSource)
  | NextFails (e : LegitimacyError) (source : GovernanceEventSource)
  | NextWaits.

Fixpoint next_jsonl (offset : nat) (reads : list JsonlRead) : NextEvent :=
  match reads with
  | [] => NextWaits
  | ReadFails e :: reads => NextFails e (JsonlFile offset reads)
  | ReadEof :: reads => next_jsonl offset reads
  | ReadLine bytes_read line :: reads =>
      if is_blank line then next_jsonl (offset + bytes_read) reads
      else
        match parse_event line with
        | Some event => NextIs event (JsonlFile (offset + bytes_read) reads)
        | None => NextFails (Json ("monitor event line from '" +:+ path +:+ "'"))
                    (JsonlFile (offset + bytes_read) reads)
        end
  end.

Definition next_event (source : GovernanceEventSource) : NextEvent :=
  match source with
  | InMemory [] => NextNone (InMemory [])
  | InMemory (event :: events) => NextIs event (InMemory events)
  | JsonlFile offset reads => next_jsonl offset reads
  end.

(** [Iterator::next]; [None] for the fuel running out or an endless wait. *)
Fixpoint next (fuel : nat) (session : MonitorSession)
    : option (option (LResult GovernanceDriftEvent) * MonitorSession) :=
  match fuel with
  | O => None
  | S fuel =>
      let resume source :=
        mkMonitorSession (mn_compiled_graph session) (mn_declared_sacrifices session)
          (mn_interval_secs session) source in
      match next_event (mn_event_source session) with
      | NextWaits => None
      | NextNone source => Some (None, resume source)
      | NextFails e source => Some (Some (Err e), resume source)
      | NextIs event source =>
          match drift_for (mn_declared_sacrifices session) event with
          | Ok (Some drift) => Some (Some (Ok drift), resume source)
          | Ok None => next fuel (resume source)
          | Err e => Some (Some (Err e), resume source)
          end
      end
  end.

(** Collects the iterator until it ends. *)
Fixpoint drain (fuel : nat) (session : MonitorSession) : option (list (LResult GovernanceDriftEvent)) :=
  match fuel with
  | O => None
  | S fuel =>
      match next (S fuel) session with
      | None => None
      | Some (None, _) => Some []
      | Some (Some item, session) => (item ::.) <$> drain fuel session
      end
  end.
End source.

Definition compiled_graph_from_rule (compiled : CompiledRule) : GraphCompilation :=
  mkGraphCompilation (cr_name compiled) (cr_version compiled) (cr_axiom_verdicts compiled)
    (cr_strategyproofness compiled) (cr_family_description compiled) (cr_compiled_at compiled).

(* ------------------------------------------------------------------ *)
(** ** What the monitor reports *)

(** The item an event leads to, if any. *)
Definition event_item (sacrifices : list CompiledSacrifice) (event : GovernanceMonitoringEvent)
    : option (LResult GovernanceDriftEvent) :=
  match drift_for sacrifices event with
  | Ok (Some drift) => Some (Ok drift)
  | Ok None => None
  | Err e => Some (Err e)
  end.

Section report.
Context (parse_event : string → option GovernanceMonitoringEvent) (path : string).

(** One call of [next] skips the events without an item. *)
Lemma next_in_memory graph sacrifices interval events fuel :
  length events < fuel →
  ∃ rest, next parse_event path fuel (mkMonitorSession graph sacrifices interval (InMemory events)) =
      Some (head (omap (event_item sacrifices) events), mkMonitorSession graph sacrifices interval (InMemory rest)) ∧
    omap (event_item sacrifices) rest = tail (omap (event_item sacrifices) events) ∧ length rest <= length events ∧
    (events ≠ [] → length rest < length events).
Proof.
  revert fuel. induction events as [|event events IH]; intros [|fuel] Hf; simpl in Hf; try lia.
  - exists []. done.
  - cbn [next next_event mn_event_source mn_declared_sacrifices mn_compiled_graph mn_interval_secs].
    cbn [omap list_omap]. pose proof (eq_refl (event_item sacrifices event)) as Hi. unfold event_item at 2 in Hi.
    destruct (drift_for sacrifices event) as [[drift|]|e] eqn:Hd; rewrite Hi.
    + exists events. simpl. split_and!; [done|done|lia|lia].
    + destruct (IH fuel ltac:(lia)) as (rest & Hn & Ho & Hl & _). exists rest.
      simpl. split_and!; [done|done|lia|lia].
    + exists events. simpl. split_and!; [done|done|lia|lia].
Qed.

Lemma drain_in_memory graph sacrifices interval events fuel :
  length events < fuel →
  drain parse_event path fuel (mkMonitorSession graph sacrifices interval (InMemory events)) =
    Some (omap (event_item sacrifices) events).
Proof.
  revert events. induction fuel as [|fuel IH]; intros events Hf; [lia|].
  destruct (next_in_memory graph sacrifices interval events (S fuel) Hf) as (rest & Hn & Ho & Hl & Hlt).
  change (drain parse_event path (S fuel) ?s) with
    (match next parse_event path (S fuel) s with
     | None => None | Some (None, _) => Some []
     | Some (Some item, session) => (item ::.) <$> drain parse_event path fuel session end).
  rewrite Hn. destruct (omap (event_item sacrifices) events) as [|item items] eqn:Hitems; [done|].
  simpl head. rewrite IH; [|destruct events; [done|]; specialize (Hlt ltac:(done)); simpl in *; lia].
  by rewrite Ho.
Qed.
End report.

Lemma f64_total_le_total x y : f64_total_le x y = true ∨ f64_total_le y x = true.
Proof. unfold f64_total_le. f64_lex; auto. Qed.

Lemma f64_total_le_trans x y z :
  f64_total_le x y = true → f64_total_le y z = true → f64_total_le x z = true.
Proof. unfold f64_total_le. intros H1 H2. f64_lex. Qed.

Lemma f64_total_le_antisym x y : f64_total_le x y = true → f64_total_le y x = true → x = y.
Proof. unfold f64_total_le. intros H1 H2. f64_lex; f_equal; lia. Qed.

Lemma f64_total_le_refl x : f64_total_le x x = true.
Proof. by destruct (f64_total_le_total x x). Qed.

(** The minimum is one of the values and is below all of them. *)
Lemma min_by_total_cmp_spec l :
  match min_by_total_cmp l with
  | Some m => m ∈ l ∧ ∀ x, x ∈ l → f64_total_le m x = true
  | None => l = []
  end.
Proof.
  destruct l as [|x l]; [done|]. simpl.
  assert (∀ l best, foldl (λ best y, if f64_total_le best y then best else y) best l ∈ best :: l ∧
    ∀ x, x ∈ best :: l → f64_total_le (foldl (λ best y, if f64_total_le best y then best else y) best l) x = true) as H.
  { clear. induction l as [|y l IH]; intros best; simpl.
    - split; [left|]. intros x ->%list_elem_of_singleton. apply f64_total_le_refl.
    - destruct (IH (if f64_total_le best y then best else y)) as [Hin Hle]. split.
      + destruct (f64_total_le best y); set_solver.
      + pose proof (Hle _ (list_elem_of_here _ _)) as Hb. intros x [->|[->|Hx]%elem_of_cons]%elem_of_cons.
        * destruct (f64_total_le best y) eqn:Hby; [done|]. destruct (f64_total_le_total best y) as [?|Hyb]; [congruence|].
          by eapply f64_total_le_trans.
        * destruct (f64_total_le best y) eqn:Hby; [by eapply f64_total_le_trans|done].
        * apply Hle. by right. }
  apply H.
Qed.

Lemma declared_bound_spec sacrifices property :
  match declared_bound sacrifices property with
  | Some bound =>
      (∃ s, s ∈ sacrifices ∧ cs_sacrificed_property s = property ∧ cs_impact_bound s = bound) ∧
      ∀ s, s ∈ sacrifices → cs_sacrificed_property s = property → f64_total_le bound (cs_impact_bound s) = true
  | None => ∀ s, s ∈ sacrifices → cs_sacrificed_property s ≠ property
  end.
Proof.
  unfold declared_bound.
  pose proof (min_by_total_cmp_spec (cs_impact_bound <$> filter (λ s, cs_sacrificed_property s = property) sacrifices)) as H.
  destruct (min_by_total_cmp _) as [bound|].
  - destruct H as [(s & -> & [Hp Hs]%list_elem_of_filter)%list_elem_of_fmap Hle]. split; [eauto|].
    intros s' Hs' Hp'. apply Hle, list_elem_of_fmap_2, list_elem_of_filter. by split.
  - intros s Hs Hp. apply fmap_nil_inv in H. apply (not_elem_of_nil s). rewrite <-H. by apply list_elem_of_filter.
Qed.

(** What an event deserves. *)
Definition malformed (event : GovernanceMonitoringEvent) : Prop :=
  f64_is_finite (ev_actual_magnitude event) = false ∨ f64_ltb (ev_actual_magnitude event) f64_zero = true.

(** The event exceeds, beyond the tolerance, the smallest of the bounds declared for its property. *)
Definition breaches (sacrifices : list CompiledSacrifice) (event : GovernanceMonitoringEvent) (bound : f64) : Prop :=
  (∃ s, s ∈ sacrifices ∧ cs_sacrificed_property s = ev_property event ∧ cs_impact_bound s = bound) ∧
  (∀ s, s ∈ sacrifices → cs_sacrificed_property s = ev_property event →
    f64_total_le bound (cs_impact_bound s) = true) ∧
  f64_ltb (f64_add bound EPSILON) (ev_actual_magnitude event) = true.

(** The drift monitor reports exactly the breaches: iterating the monitor
    over a queue of events ends with one item, in order, for each event that
    deserves one: an error exactly for a magnitude that is negative or not
    finite, and otherwise a drift event exactly when the magnitude exceeds, by
    more than the tolerance, the smallest bound declared for the event's
    property, which the drift event carries. *)
Theorem monitor_reports_exactly_breaches parse_event path graph sacrifices interval events :
  drain parse_event path (S (length events)) (mkMonitorSession graph sacrifices interval (InMemory events)) =
    Some (omap (event_item sacrifices) events) ∧
  ∀ event,
    ((∃ e, event_item sacrifices event = Some (Err e)) ↔ malformed event) ∧
    ∀ drift, event_item sacrifices event = Some (Ok drift) ↔
      ¬ malformed event ∧ ∃ bound, breaches sacrifices event bound ∧
        drift = mkDrift (ev_property event) bound (ev_actual_magnitude event) (ev_timestamp event) (ev_evidence event).
Proof.
  split; [apply drain_in_memory; lia|]. intros event. unfold event_item, drift_for, malformed, breaches.
  pose proof (declared_bound_spec sacrifices (ev_property event)) as Hb.
  destruct (negb (f64_is_finite (ev_actual_magnitude event)) || f64_ltb (ev_actual_magnitude event) f64_zero) eqn:Hm.
  { apply orb_true_iff in Hm. rewrite negb_true_iff in Hm. split; [split; [done|eauto]|].
    intros drift. split; [done|]. intros [Hn _]. by destruct Hn. }
  apply orb_false_iff in Hm as [Hf%negb_false_iff Hneg].
  assert (¬ (f64_is_finite (ev_actual_magnitude event) = false ∨ f64_ltb (ev_actual_magnitude event) f64_zero = true)) as Hok.
  { rewrite Hf, Hneg. by intros []. }
  destruct (declared_bound sacrifices (ev_property event)) as [bound|].
  - destruct Hb as [Hin Hmin]. destruct (f64_ltb (f64_add bound EPSILON) _) eqn:Hl.
    + split; [split; [by intros [? ?]|done]|]. intros drift. split.
      * intros Hd. injection Hd as <-. split; [done|]. eauto 10.
      * intros (_ & b & ((s & Hs & Hp & <-) & Hmb & _) & ->). do 2 f_equal. f_equal.
        destruct Hin as (s' & Hs' & Hp' & <-). apply f64_total_le_antisym; auto.
    + split; [split; [by intros [? ?]|done]|]. intros drift. split; [done|].
      intros (_ & b & ((s & Hs & Hp & <-) & Hmb & Hlt) & _). exfalso.
      destruct Hin as (s' & Hs' & Hp' & <-).
      assert (cs_impact_bound s' = cs_impact_bound s) as He by (apply f64_total_le_antisym; auto). congruence.
  - split; [split; [by intros [? ?]|done]|]. intros drift. split; [done|].
    intros (_ & b & ((s & Hs & Hp & _) & _) & _). by destruct (Hb s Hs).
Qed.
