(* ===== verification/SacrificeSpec.v ===== *)
(** * What the declared sacrifices promise

    Every failed check is declared: a certificate has no sacrifices exactly
    when what it certifies is admissible, each rejected axiom has a sacrifice
    that names it, and its bound covers the thresholds of its plan.  The kernel
    axioms are the exception to "with a plan": their counterexamples perturb
    nothing, so their bound is zero and nothing is monitored. *)

From Stdlib Require Import SpecFloat.
From S2P Require Import Prelude F64 F64Bits Errors Core GraphNode GraphTraverse BinaryDiagnostics GraphDiagnostics Observable KernelChecks NonVacuity Mechanism Rules Coalitions RuleDiagnostics ProtocolData Compiled Clock LedgerStore Ledger LedgerSpec LedgerVerify Compiler Sacrifice.
From stdpp Require Import options.

Definition verdict_axiom (v : Verdict) : string :=
  match v with Admissible axiom _ => axiom | Rejected axiom _ => axiom end.

(* ------------------------------------------------------------------ *)
(** ** The axioms that verdicts name *)

Lemma conclude_axiom axiom r v :
  conclude axiom r = Ok v → (∀ w, r = Ok (Break w) → verdict_axiom w = axiom) → verdict_axiom v = axiom.
Proof.
  unfold conclude. intros H Hw. destruct_bind H Hr. destruct a as [n|w]; injection H as <-; [done|]. by apply Hw.
Qed.

Lemma full_consistency_axiom rule claims estate options v :
  check_full_consistency rule claims estate options = Ok v → verdict_axiom v = axiom_label (mode options).
Proof.
  unfold check_full_consistency, check_full_consistency_audit. intros H. destruct_bind H Ha. injection H as <-.
  destruct_bind Ha Hgate. unfold check_consistency_with_mode in Ha. destruct_bind Ha Hb. destruct_bind Ha Hl.
  destruct a2 as [c|[w c]]; injection Ha as <-; [done|]. cbn [verdict].
  apply try_loop_Break in Hl as (removed & c' & _ & He). unfold evaluate_reduction in He.
  destruct_bind He Hids. destruct_bind He Hs. destruct (_ || _); [done|].
  destruct_bind He He1. destruct_bind He He2. apply try_loop_Break in He as (claim & c'' & _ & He).
  unfold survivor_step in He. destruct_bind He H1. destruct_bind He H2. destruct (f64_ltb _ _); [|done].
  by injection He as <- <-.
Qed.

Lemma solidarity_axiom rule claims estate claimants scales v :
  check_solidarity rule claims estate claimants scales = Ok v → verdict_axiom v = "solidarity".
Proof.
  unfold check_solidarity. intros H. destruct_bind H Ha. eapply conclude_axiom; [exact H|].
  intros w Hw. apply try_loop_Break in Hw as (scale & n & _ & Hs). unfold solidarity_step in Hs.
  destruct (f64_ltb _ _); [done|]. destruct_bind Hs Ht. destruct_bind Hs Hsh. destruct_bind Hs Hl.
  destruct a2 as [|w']; [done|]. injection Hs as ->. apply try_loop_Break in Hl as (class & [] & _ & Hc).
  unfold solidarity_class_step in Hc. destruct (bool_decide _); [done|]. destruct_bind Hc Hm. destruct a2 as [gained lost].
  destruct (_ && _); [by injection Hc as <-|]. destruct (_ && _); [by injection Hc as <-|].
  destruct_bind Hc Hu. destruct a2; [by injection Hc as <-|done].
Qed.

Lemma monotonicity_axiom rule claims estate deltas inversion v :
  check_monotonicity rule claims estate deltas inversion = Ok v → verdict_axiom v = monotonicity_label inversion.
Proof.
  unfold check_monotonicity. intros H. destruct_bind H Ha. eapply conclude_axiom; [exact H|].
  intros w Hw. apply try_loop_Break in Hw as (i & n & _ & Hs). apply try_loop_Break in Hs as (delta & n' & _ & Hs).
  unfold monotonicity_step in Hs. destruct_bind Hs H1. destruct_bind Hs H2. destruct_bind Hs H3.
  destruct_bind Hs H4. destruct_bind Hs H5. cbv zeta in Hs. destruct (if inversion then _ else _); [|done].
  by injection Hs as <-.
Qed.

(* ------------------------------------------------------------------ *)
(** ** From verdicts to sacrifices *)

(** Every verdict is about an axiom with a property of its own. *)
Definition declarable (verdicts : list Verdict) : Prop :=
  Forall (λ v, is_Some (property_for_axiom (verdict_axiom v))) verdicts.

Lemma sacrifices_from_axioms_elem metadata verdicts sp s :
  s ∈ sacrifices_from_axioms metadata verdicts sp ↔
    (∃ axiom cx property, Rejected axiom cx ∈ verdicts ∧ property_for_axiom axiom = Some property ∧
      s = counterexample_sacrifice metadata property axiom cx) ∨
    ∃ witness, strategyproofness_witness sp = Some witness ∧ s = strategyproofness_sacrifice metadata witness.
Proof.
  unfold sacrifices_from_axioms. rewrite elem_of_app, list_elem_of_omap. split.
  - intros [(v & Hv & Hs)|Hs]; [left|right].
    + destruct v as [|axiom cx]; [done|]. destruct (property_for_axiom axiom) as [p|] eqn:Hp; [|done].
      injection Hs as <-. eauto 10.
    + destruct (strategyproofness_witness sp) as [w|]; [|by apply not_elem_of_nil in Hs].
      apply list_elem_of_singleton in Hs. eauto.
  - intros [(axiom & cx & p & Hin & Hp & ->)|(w & -> & ->)]; [left|right; by left].
    exists (Rejected axiom cx). split; [done|]. by rewrite Hp.
Qed.

Lemma sacrifices_nil metadata verdicts sp :
  declarable verdicts →
  sacrifices_from_axioms metadata verdicts sp = [] ↔
    forallb verdict_admissible verdicts && is_strategyproof sp = true.
Proof.
  intros Hd. unfold sacrifices_from_axioms. rewrite andb_true_iff. split.
  - intros [Ho Hs]%app_nil. split; [|by destruct sp]. apply forallb_forall. intros v Hv%list_elem_of_In.
    destruct v as [|axiom cx]; [done|]. unfold declarable in Hd. rewrite Forall_forall in Hd.
    destruct (Hd _ Hv) as [p Hp]. cbn [verdict_axiom] in Hp.
    assert (counterexample_sacrifice metadata p axiom cx ∈ ([] : list CompiledSacrifice)) as Hin; [|by apply not_elem_of_nil in Hin].
    rewrite <-Ho. apply list_elem_of_omap. exists (Rejected axiom cx). split; [done|]. by rewrite Hp.
  - intros [Hv Hs]. destruct sp; [|done]. rewrite app_nil_r.
    induction verdicts as [|[axiom n|axiom cx] verdicts IH]; [done| |done]. simpl in *. apply IH; [|done].
    by inversion Hd.
Qed.

(* ------------------------------------------------------------------ *)
(** ** Bounds *)

Lemma f64_max_not_nan x y : f64_is_nan x = false → f64_is_nan (f64_max x y) = false.
Proof.
  intros Hx. unfold f64_max. rewrite Hx. destruct (f64_is_nan y) eqn:Hy; [done|]. by destruct (f64_ltb x y).
Qed.

Lemma f64_max_upper x y :
  f64_is_nan x = false → f64_is_nan y = false →
  f64_leb x (f64_max x y) = true ∧ f64_leb y (f64_max x y) = true.
Proof.
  intros Hx Hy. unfold f64_max. rewrite Hx, Hy. destruct (f64_ltb x y) eqn:Hl.
  - split; [by apply f64_ltb_leb|by apply f64_leb_refl].
  - split; [by apply f64_leb_refl|]. destruct (f64_leb_total x y Hx Hy) as [H|H]; [|done]. clear -H Hl Hx Hy. f64_lex.
Qed.

Lemma foldl_max_upper l z :
  f64_is_nan z = false → Forall (λ x, f64_is_nan x = false) l →
  f64_leb z (foldl f64_max z l) = true ∧ ∀ x, x ∈ l → f64_leb x (foldl f64_max z l) = true.
Proof.
  revert z. induction l as [|y l IH]; intros z Hz Hl.
  { split; [by apply f64_leb_refl|]. by intros x ?%not_elem_of_nil. }
  apply Forall_cons in Hl as [Hy Hl]. simpl.
  destruct (IH (f64_max z y) (f64_max_not_nan z y Hz) Hl) as [Hm Hall].
  destruct (f64_max_upper z y Hz Hy) as [H1 H2]. split; [by eapply f64_leb_trans|].
  intros x [->|Hx]%elem_of_cons; [by eapply f64_leb_trans|by apply Hall].
Qed.

(** Only metrics that moved beyond the tolerance are monitored. *)
Lemma moved_metrics_large cx name t : moved_metrics cx !! name = Some t → f64_ltb EPSILON t = true.
Proof.
  unfold moved_metrics. cbv zeta.
  assert (∀ b n x (m : gmap string f64), (∀ k t, m !! k = Some t → f64_ltb EPSILON t = true) → b = f64_ltb EPSILON x →
    ∀ k t, (if b then <[n := x]> m else m) !! k = Some t → f64_ltb EPSILON t = true) as Hins.
  { intros b n x m Hm Hb k t'. destruct b; [|apply Hm].
    intros [[_ <-]|[_ ?]]%lookup_insert_Some; [done|by eapply Hm]. }
  assert (∀ l (m : gmap string f64), (∀ k t, m !! k = Some t → f64_ltb EPSILON t = true) →
    ∀ k t, foldl (λ metrics '(metric, threshold),
      if f64_ltb EPSILON threshold then <["claim_metric_delta." +:+ metric := threshold]> metrics else metrics)
      m l !! k = Some t → f64_ltb EPSILON t = true) as Hfold.
  { induction l as [|[n x] l IH]; intros m Hm; [exact Hm|]. simpl. apply IH. by apply Hins. }
  apply Hfold, Hins; [|done]. apply Hins; [|done]. intros k t'. by rewrite lookup_empty.
Qed.

Lemma plan_thresholds property cx spec :
  spec ∈ monitoring_plan_from_counterexample property cx → f64_ltb EPSILON (spec_threshold spec) = true.
Proof.
  unfold monitoring_plan_from_counterexample. intros ([n t] & -> & Hin)%list_elem_of_fmap.
  apply elem_of_btree_iter in Hin. by eapply moved_metrics_large.
Qed.

(** The declared bound covers every threshold of the plan. *)
Lemma counterexample_sacrifice_bound metadata property axiom cx spec :
  spec ∈ cs_monitoring_plan (counterexample_sacrifice metadata property axiom cx) →
  f64_ltb EPSILON (spec_threshold spec) = true ∧
  f64_leb (spec_threshold spec) (cs_impact_bound (counterexample_sacrifice metadata property axiom cx)) = true.
Proof.
  intros Hs. split; [exact (plan_thresholds property cx spec Hs)|].
  apply (foldl_max_upper (spec_threshold <$> monitoring_plan_from_counterexample property cx) f64_zero); [done| |].
  - apply Forall_fmap, Forall_forall. intros s Hin%plan_thresholds. simpl.
    by apply f64_ltb_leb, f64_leb_not_nan in Hin as [_ ?].
  - by apply list_elem_of_fmap_2.
Qed.

(* ------------------------------------------------------------------ *)
(** ** Certificates for rules *)

Section certificates.
Context `{codec : !LedgerCodec, env : !LedgerEnv, rendering : !Rendering, digest : !DigestLength, regex : !RegexEngine}.

(** Issuing records one row per sacrifice, in order, and returns them. *)
Lemma issue_certificate_Ok compiled sacrifices db cert db' :
  ledger_sound db → issue_certificate compiled sacrifices db = (Ok cert, db') →
  cert = mkSacrificesCertificate compiled sacrifices ∧
  ∃ declared_at, rows_recorded DeclaredSacrificesTable
    ((λ s, stored_columns (sacrifice_row compiled declared_at s)) <$> sacrifices) db db'.
Proof using digest.
  intros Hs H. unfold issue_certificate in H. cbv zeta in H. cbn [dc_sacrifices] in H.
  apply ledger_bind_Ok in H as ([] & d & Hrec & H). injection H as <- ->. split; [done|].
  case_decide as Hnil.
  - injection Hrec as ->. exists "". rewrite Hnil. split; [by rewrite app_nil_r|done].
  - apply ledger_bind_Ok in Hrec as (ledger & d & Hopen & Hrec).
    destruct (open_default_sound _ _ _ Hs Hopen) as [Hs' Hk].
    apply ledger_bind_Ok in Hrec as (ts & d' & Hts & Hrec).
    assert (d' = d) as -> by (unfold current_timestamp in Hts; congruence).
    exists ts. eapply rows_recorded_after; [exact Hk|].
    eapply recorded_Ok; [|exact Hs'|exact Hrec]. intros d2 d2'. apply append_rows_recorded.
Qed.

Lemma compile_sound rule claims estate claimants family options db compiled db' :
  ledger_sound db → compile_with_options rule claims estate claimants family options db = (Ok compiled, db') →
  ledger_sound db' ∧ row_recorded CompiledRulesTable (compiled_rule_row compiled) db db'.
Proof using digest.
  intros Hs H. apply compile_Ok in H as (_ & _ & _ & _ & ledger & d & Hopen & Hrec).
  destruct (open_default_sound _ _ _ Hs Hopen) as [Hs' Hk]. split.
  - destruct (record_compiled_rule_preserves ledger compiled d Hs') as [Hs'' _]. by rewrite Hrec in Hs''.
  - eapply rows_recorded_after; [exact Hk|].
    eapply recorded_Ok; [|exact Hs'|exact Hrec]. intros d2 d2'. apply append_row_recorded.
Qed.

(** The verdicts of a compilation with reductions in the full mode are declarable. *)
Lemma compile_declarable rule claims estate claimants family options db compiled db' :
  mode (co_consistency options) = Full →
  compile_with_options rule claims estate claimants family options db = (Ok compiled, db') →
  declarable (cr_axiom_verdicts compiled).
Proof.
  intros Hmode H. unfold compile_with_options in H. ledger_step_Ok H a0 Hbase.
  apply ledger_bind_Ok in H as (cv & d1 & Hcons & H).
  assert (declarable cv) as Hcv.
  { destruct (reductions family); [|injection Hcons as <- <-; constructor].
    ledger_step_Ok Hcons v Hv. injection Hcons as <- <-. constructor; [|constructor].
    rewrite (full_consistency_axiom _ _ _ _ _ Hv), Hmode. by eexists. }
  ledger_step_Ok H sv Hsol. ledger_step_Ok H mv Hmon. ledger_step_Ok H spv Hsp.
  apply ledger_bind_Ok in H as (ts & d & Hts & H). apply ledger_bind_Ok in H as (ledger & d2 & Hopen & H).
  apply ledger_bind_Ok in H as ([] & d3 & Hrec & H). injection H as <- _. cbn [cr_axiom_verdicts].
  apply Forall_app. split; [exact Hcv|]. repeat constructor.
  - rewrite (solidarity_axiom _ _ _ _ _ _ Hsol). by eexists.
  - rewrite (monotonicity_axiom _ _ _ _ _ _ Hmon). destruct (monotonicity_inversion family); by eexists.
Qed.

Lemma sacrifice_bound metadata verdicts sp s spec :
  s ∈ sacrifices_from_axioms metadata verdicts sp → spec ∈ cs_monitoring_plan s →
  spec_threshold spec = cs_impact_bound s ∨ f64_leb (spec_threshold spec) (cs_impact_bound s) = true.
Proof.
  intros [(axiom & cx & p & _ & _ & ->)|(w & _ & ->)]%sacrifices_from_axioms_elem Hspec.
  - right. by eapply counterexample_sacrifice_bound.
  - left. cbn in Hspec. by apply list_elem_of_singleton in Hspec as ->.
Qed.
End certificates.

(** C15: Every failed check of a rule is declared and recorded: when
    [compile_with_sacrifices] returns a certificate for a rule, it declares
    nothing exactly when the compiled rule is admissible; every rejected axiom
    has a declared sacrifice that names it; no monitored threshold exceeds the
    sacrifice's bound; and the ledger gains the compiled rule's row and then
    one row per declared sacrifice, in order. *)
Theorem rule_sacrifices_complete
    `{codec : !LedgerCodec, env : !LedgerEnv, rendering : !Rendering, digest : !DigestLength, regex : !RegexEngine}
    (rule : Rule) (claims : list Claim) (estate : Estate) (db : LedgerDb) cert (db' : LedgerDb)
    (Hreach : rtc ledger_step empty_ledger db)
    (Hrun : compile_with_sacrifices rule claims estate db = (Ok cert, db')) :
  ∃ compiled db1 declared_at, dc_compiled cert = GovernedRule compiled ∧
    (dc_sacrifices cert = [] ↔ CompiledRule_is_admissible compiled = true) ∧
    (∀ axiom cx, Rejected axiom cx ∈ cr_axiom_verdicts compiled →
      ∃ s, s ∈ dc_sacrifices cert ∧ pv_source_axiom (cs_provenance s) = axiom) ∧
    (∀ s spec, s ∈ dc_sacrifices cert → spec ∈ cs_monitoring_plan s →
      spec_threshold spec = cs_impact_bound s ∨ f64_leb (spec_threshold spec) (cs_impact_bound s) = true) ∧
    row_recorded CompiledRulesTable (compiled_rule_row compiled) db db1 ∧
    rows_recorded DeclaredSacrificesTable
      ((λ s, stored_columns (sacrifice_row (dc_compiled cert) declared_at s)) <$> dc_sacrifices cert) db1 db'.
Proof.
  destruct (ledger_steps_sound _ _ Hreach empty_ledger_sound) as [Hs _].
  change (compile_rule_declared rule claims estate db = (Ok cert, db')) in Hrun.
  unfold compile_rule_declared in Hrun. cbv zeta in Hrun. ledger_step_Ok Hrun family Hfam.
  unfold compile_with_sacrifices_with_family, compile_with_sacrifices_with_family_and_options in Hrun.
  apply ledger_bind_Ok in Hrun as (compiled & db1 & Hcomp & Hissue).
  destruct (compile_sound _ _ _ _ _ _ _ _ _ Hs Hcomp) as [Hs1 Hrow].
  destruct (issue_certificate_Ok _ _ _ _ _ Hs1 Hissue) as (-> & ts & Hrows).
  pose proof (compile_declarable _ _ _ _ _ CompileOptions_default _ _ _ eq_refl Hcomp) as Hd.
  exists compiled, db1, ts. cbn [dc_compiled dc_sacrifices]. split_and!; [done| | | |done|done].
  - by apply sacrifices_nil.
  - intros axiom cx Hin. unfold declarable in Hd. rewrite Forall_forall in Hd. destruct (Hd _ Hin) as [p Hp].
    eexists. split; [apply sacrifices_from_axioms_elem; left; by eauto 10|done].
  - intros s spec. apply sacrifice_bound.
Qed.
