(* ===== verification/GraphSacrifices.v ===== *)
(** * Sacrifices of the kernel axioms carry no monitoring

    The counterexamples of the five kernel axioms report the same claims and
    the same estate before and after, so nothing is measured to have moved: a
    sacrifice declared for one of them has the bound zero and an empty plan. *)

From Stdlib Require Import SpecFloat.
From S2P Require Import Prelude F64 F64Bits Errors Core GraphNode GraphTraverse GraphCycle BinaryDiagnostics GraphDiagnostics Observable KernelChecks NonVacuity Mechanism Rules Coalitions RuleDiagnostics ProtocolData Compiled LedgerStore Ledger Compiler Sacrifice SacrificeSpec.
From stdpp Require Import options.

(** No measured change: zero, or not a number. *)
Definition no_change (x : f64) : Prop := x = f64_zero ∨ f64_is_nan x = true.

Lemma no_change_self x : no_change (f64_abs (f64_sub x x)).
Proof.
  destruct (f64_is_finite x) eqn:Hf.
  - destruct (f64_sub_self x Hf) as [s ->]. by left.
  - right. by destruct x as [|[]| |].
Qed.

Lemma no_change_max x y : no_change x → no_change y → no_change (f64_max x y).
Proof.
  unfold f64_max. intros [->|Hx] [->|Hy]; [by left|by left; rewrite Hy|by left; rewrite Hx|].
  rewrite Hx. by right.
Qed.

Lemma no_change_small x : no_change x → f64_ltb EPSILON x = false.
Proof. intros [->|Hx]; [done|]. by destruct x. Qed.

Lemma no_change_fold l z : no_change z → Forall no_change l → no_change (foldl f64_max z l).
Proof. intros Hz Hl. revert z Hz. induction Hl as [|x l Hx _ IH]; intros z Hz; [done|]. by apply IH, no_change_max. Qed.

(** The same problem before and after. *)
Definition unperturbed (cx : Counterexample) : Prop :=
  perturbed_claims cx = original_claims cx ∧ perturbed_estate cx = original_estate cx ∧
  (estate_total (original_estate cx) = f64_one ∨ estate_total (original_estate cx) = f64_of_Z 2).

Lemma unperturbed_strength cx : unperturbed cx → no_change (max_strength_delta cx).
Proof.
  intros (Hc & _). unfold max_strength_delta. apply no_change_fold; [by left|].
  apply Forall_fmap, Forall_forall. intros id _. simpl. rewrite Hc. apply no_change_self.
Qed.

Lemma record_metric_no_change claim (deltas : gmap string f64) name :
  map_Forall (λ _, no_change) deltas → map_Forall (λ _, no_change) (record_metric_delta claim claim deltas name).
Proof.
  intros Hd. unfold record_metric_delta. cbv zeta.
  destruct (deltas !! name) eqn:Hn; apply map_Forall_insert_2; try done.
  - apply no_change_max; [by eapply Hd|apply no_change_self].
  - apply no_change_self.
Qed.

Lemma unperturbed_metrics cx : unperturbed cx → map_Forall (λ _, no_change) (max_claim_metric_deltas cx).
Proof.
  intros (Hc & _). unfold max_claim_metric_deltas. rewrite Hc.
  assert (map_Forall (λ _ : string, no_change) (∅ : gmap string f64)) as H0 by apply map_Forall_empty.
  revert H0. generalize (∅ : gmap string f64). generalize (bset_iter (claim_ids cx)).
  induction l as [|id l IH]; intros m Hm; [done|]. simpl. apply IH.
  generalize dependent m. generalize (bset_iter (dom (metrics_of (find_claim (original_claims cx) id))
    ∪ dom (metrics_of (find_claim (original_claims cx) id)))).
  induction l0 as [|n l0 IH']; intros m Hm; [done|]. simpl. by apply IH', record_metric_no_change.
Qed.

Lemma unperturbed_estate cx : unperturbed cx → no_change (estate_relative_change cx).
Proof.
  intros (_ & He & Ht). unfold estate_relative_change. rewrite He. destruct Ht as [-> | ->]; left; vm_compute; reflexivity.
Qed.

Lemma unperturbed_moves_nothing cx : unperturbed cx → moved_metrics cx = ∅.
Proof.
  intros Hu. unfold moved_metrics. cbv zeta.
  rewrite (no_change_small _ (unperturbed_estate cx Hu)), (no_change_small _ (unperturbed_strength cx Hu)).
  pose proof (unperturbed_metrics cx Hu) as Hm.
  assert (Forall (λ p, no_change p.2) (btree_iter (max_claim_metric_deltas cx))) as Hl.
  { apply Forall_forall. intros [n t] Hin%elem_of_btree_iter. by apply (Hm n t). }
  induction Hl as [|[n t] l Ht _ IH]; [done|]. simpl. by rewrite (no_change_small t Ht).
Qed.

Lemma unperturbed_sacrifice metadata property axiom cx :
  unperturbed cx →
  cs_impact_bound (counterexample_sacrifice metadata property axiom cx) = f64_zero ∧
  cs_monitoring_plan (counterexample_sacrifice metadata property axiom cx) = [].
Proof.
  intros Hu. assert (monitoring_plan_from_counterexample property cx = []) as Hp.
  { unfold monitoring_plan_from_counterexample. by rewrite (unperturbed_moves_nothing cx Hu). }
  unfold counterexample_sacrifice. cbn [cs_impact_bound cs_monitoring_plan]. by rewrite Hp.
Qed.

(* ------------------------------------------------------------------ *)
(** ** The kernel checks perturb nothing *)

Definition fails_unperturbed (v : AxiomVerdict) : Prop :=
  match v with Fail _ _ cx => unperturbed cx | _ => True end.

Lemma Estate_new_total t u e : Estate_new t u = Ok e → estate_total e = t.
Proof.
  unfold Estate_new, EstateTotal_new. intros H. destruct_bind H Ht. injection H as <-.
  destruct (not_positive_finite t); [done|]. by injection Ht as <-.
Qed.

Lemma kernel_rejection_unperturbed axiom claims before after d v r :
  kernel_rejection axiom claims before after d v = Ok r → fails_unperturbed r.
Proof.
  unfold kernel_rejection, graph_estate. intros H. invert_binds. split_and!; [done|done|]. right.
  by eapply Estate_new_total.
Qed.

Lemma observable_rejection_unperturbed axiom claims d before after r :
  observable_rejection axiom claims d before after = Ok r → fails_unperturbed r.
Proof.
  unfold observable_rejection. intros H. invert_binds. split_and!; [done|done|]. right.
  by eapply Estate_new_total.
Qed.

Lemma nonvacuity_rejection_unperturbed claims d v l r :
  nonvacuity_rejection claims d v l = Ok r → fails_unperturbed r.
Proof.
  unfold nonvacuity_rejection. intros H. invert_binds. split_and!; [done|done|]. left.
  by eapply Estate_new_total.
Qed.

Section checks.
Context `{regex : !RegexEngine}.

Lemma certifiability_unperturbed graph claims r :
  check_graph_certifiability graph claims = Ok r → fails_unperturbed r.
Proof.
  unfold check_graph_certifiability. intros H. destruct_bind H Hc. destruct (negb _); [by injection H as <-|].
  destruct (bool_decide _); [by eapply kernel_rejection_unperturbed|]. destruct_bind H Hv. destruct_bind H Ht.
  cbv zeta in H. destruct (negb _); [by eapply kernel_rejection_unperturbed|by injection H as <-].
Qed.

Lemma corrigibility_unperturbed graph claims r :
  check_graph_corrigibility graph claims = Ok r → fails_unperturbed r.
Proof.
  unfold check_graph_corrigibility. intros H. destruct_bind H Hc. destruct (negb _); [by injection H as <-|].
  destruct (bool_decide _); [by eapply kernel_rejection_unperturbed|]. by invert_binds.
Qed.

Lemma compositional_safety_unperturbed graph claims r :
  check_graph_compositional_safety graph claims = Ok r → fails_unperturbed r.
Proof.
  unfold check_graph_compositional_safety. intros H. destruct_bind H Hc. destruct (negb _); [by injection H as <-|].
  destruct (bool_decide _); [by injection H as <-|]. destruct_bind H H1. destruct_bind H H2. destruct_bind H H3.
  cbv zeta in H. destruct (list_find _ _) as [[? ?]|]; [by eapply kernel_rejection_unperturbed|by injection H as <-].
Qed.

Lemma observable_determinacy_unperturbed graph claims r :
  check_graph_observable_determinacy graph claims = Ok r → fails_unperturbed r.
Proof.
  unfold check_graph_observable_determinacy, check_graph_traversal_order_invariance. intros H.
  destruct_bind H Hc. destruct (negb _); [by injection H as <-|].
  destruct (bool_decide _); [by injection H as <-|]. destruct_bind H H1. destruct_bind H H2.
  destruct (bool_decide _); [by injection H as <-|]. destruct_bind H H3.
  destruct (_ <? _)%N; [by injection H as <-|]. destruct_bind H H4. destruct_bind H H5.
  destruct a4 as [n|w]; injection H as <-; [done|]. apply try_loop_Break in H5 as (order & n & _ & Hs).
  cbv beta in Hs. destruct (decide _); [done|]. destruct_bind Hs H6.
  destruct (first_difference _ _ _) as [[[? ?] ?]|]; [|done]. destruct_bind Hs H7. injection Hs as <-.
  by eapply observable_rejection_unperturbed.
Qed.

Lemma nonvacuity_conclusion_unperturbed graph claims cycles b n r :
  nonvacuity_conclusion graph claims cycles b n = Ok r → fails_unperturbed r.
Proof.
  unfold nonvacuity_conclusion. intros H. destruct b; [by injection H as <-|].
  destruct (bool_decide _); by eapply nonvacuity_rejection_unperturbed.
Qed.

Lemma nonvacuity_unperturbed graph claims r :
  check_graph_nonvacuity graph claims [] = Ok r → fails_unperturbed r.
Proof.
  unfold check_graph_nonvacuity. intros H. destruct (bool_decide _); [by eapply nonvacuity_rejection_unperturbed|].
  rewrite (bool_decide_true (@nil (list NodeId) = [])) in H by done. destruct_bind H Ht. cbv zeta in H.
  destruct (negb _); [by eapply nonvacuity_rejection_unperturbed|by eapply nonvacuity_conclusion_unperturbed].
Qed.

Lemma kernel_verdict_unperturbed (r : LResult AxiomVerdict) v axiom cx :
  r ≫= require_graph_kernel_verdict = Ok v → (∀ w, r = Ok w → fails_unperturbed w) →
  v = Rejected axiom cx → unperturbed cx ∧ ∃ k, axiom = graph_axiom_name k.
Proof.
  intros H Hr ->. destruct r as [w|e]; [|done]. specialize (Hr w eq_refl).
  change (require_graph_kernel_verdict w = Ok (Rejected axiom cx)) in H.
  unfold require_graph_kernel_verdict in H. destruct w as [k n|k reason cx'|k reason]; simpl in H; try done.
  injection H as <- <-. eauto.
Qed.

(** The last five verdicts of a compiled graph are those of the kernel axioms. *)
Lemma kernel_verdicts_unperturbed graph claims verdicts axiom cx :
  graph_axiom_verdicts graph claims = Ok verdicts → Rejected axiom cx ∈ drop 3 verdicts →
  unperturbed cx ∧ ∃ k, axiom = graph_axiom_name k.
Proof.
  intros H Hin. unfold graph_axiom_verdicts in H. cbv zeta in H.
  destruct_bind H H1. destruct_bind H H2. destruct_bind H H3.
  destruct_bind H H4. destruct_bind H H5. destruct_bind H H6. destruct_bind H H7. destruct_bind H H8.
  injection H as <-. cbn [drop] in Hin. rewrite !elem_of_cons, elem_of_nil in Hin.
  destruct Hin as [<-|[<-|[<-|[<-|[<-|[]]]]]].
  - eapply (kernel_verdict_unperturbed _ _ _ _ H4); [|done]. intros w. apply certifiability_unperturbed.
  - eapply (kernel_verdict_unperturbed _ _ _ _ H5); [|done]. intros w. apply observable_determinacy_unperturbed.
  - eapply (kernel_verdict_unperturbed _ _ _ _ H6); [|done]. intros w. apply corrigibility_unperturbed.
  - eapply (kernel_verdict_unperturbed _ _ _ _ H7); [|done]. intros w. apply compositional_safety_unperturbed.
  - eapply (kernel_verdict_unperturbed _ _ _ _ H8); [|done]. intros w. apply nonvacuity_unperturbed.
Qed.
End checks.

(* ------------------------------------------------------------------ *)
(** ** The axioms a compiled graph's verdicts name *)

Section graphs.
Context `{regex : !RegexEngine}.

Lemma graph_reject_axiom axiom base perturbed allocation d v w :
  graph_reject axiom base perturbed allocation d v = Ok w → verdict_axiom w = axiom.
Proof. unfold graph_reject. intros H. by invert_binds. Qed.

Lemma graph_consistency_axiom graph claims v :
  check_graph_consistency graph claims = Ok v → verdict_axiom v = "graph consistency".
Proof.
  unfold check_graph_consistency. intros H. destruct_bind H Hb. eapply conclude_axiom; [exact H|].
  intros w Hw. apply try_loop_Break in Hw as (i & n & _ & Hs). unfold graph_consistency_step in Hs.
  destruct_bind Hs H1. destruct_bind Hs H2. destruct_bind Hs H3. destruct_bind Hs H4.
  destruct a3 as [|w']; [done|]. injection Hs as ->. apply try_loop_Break in H4 as (claim & [] & _ & Hc).
  destruct_bind Hc H5. destruct_bind Hc H6. destruct (decide _); [done|]. destruct_bind Hc H7. injection Hc as <-.
  by eapply graph_reject_axiom.
Qed.

Lemma graph_solidarity_axiom graph claims shocks v :
  check_graph_solidarity graph claims shocks = Ok v → verdict_axiom v = "graph solidarity".
Proof.
  unfold check_graph_solidarity. intros H. destruct_bind H Hb. eapply conclude_axiom; [exact H|].
  intros w Hw. apply try_loop_Break in Hw as (i & n & _ & Hs). unfold graph_solidarity_step in Hs. cbv zeta in Hs.
  destruct (_ || _); [done|]. destruct_bind Hs H1. destruct_bind Hs H2. destruct_bind Hs H3. destruct_bind Hs H4.
  destruct a3 as [|w']; [done|]. injection Hs as ->. apply try_loop_Break in H4 as (group & [] & _ & Hc).
  destruct_bind Hc H5. destruct (_ && _); [|done]. destruct_bind Hc H7. injection Hc as <-.
  by eapply graph_reject_axiom.
Qed.

Lemma graph_monotonicity_axiom graph claims deltas v :
  check_graph_monotonicity graph claims deltas = Ok v → verdict_axiom v = "graph monotonicity".
Proof.
  unfold check_graph_monotonicity, monotonicity_check_via_polarity_schema. intros H. destruct_bind H Hb.
  eapply conclude_axiom; [exact H|]. intros w Hw. apply try_loop_Break in Hw as (delta & n & _ & Hs). cbv zeta in Hs.
  assert (∀ d, try_loop (graph_monotonicity_step "Improving" "Schema-aware improvement of" graph claims a delta d) n
    (seq 0 (length claims)) = Ok (Break w) → verdict_axiom w = "graph monotonicity") as Hloop.
  { intros d Hl. apply try_loop_Break in Hl as (i & n' & _ & Hm). unfold graph_monotonicity_step in Hm.
    destruct_bind Hm H1. destruct_bind Hm H2. destruct_bind Hm H3. destruct_bind Hm H4. destruct_bind Hm H5.
    destruct a4 as [|w']; [done|]. injection Hm as ->. apply try_loop_Break in H5 as (id & [] & _ & Hc).
    destruct_bind Hc H6. destruct_bind Hc H7. destruct (bool_decide _); [|done]. destruct_bind Hc H8.
    injection Hc as <-. by eapply graph_reject_axiom. }
  destruct (_ || _); [done|]. destruct (polarity_for _ _) as [[]|]; try done; by eapply Hloop.
Qed.

Lemma kernel_verdict_axiom (r : LResult AxiomVerdict) v :
  r ≫= require_graph_kernel_verdict = Ok v → ∃ k, verdict_axiom v = graph_axiom_name k.
Proof.
  intros H. destruct r as [w|e]; [|done].
  change (require_graph_kernel_verdict w = Ok v) in H.
  unfold require_graph_kernel_verdict in H. destruct w as [k n|k reason cx'|k reason]; simpl in H; try done;
    injection H as <-; eauto.
Qed.

(** Three diagnostics, then five kernel axioms. *)
Lemma graph_verdict_axioms graph claims verdicts :
  graph_axiom_verdicts graph claims = Ok verdicts →
  Forall (λ v, verdict_axiom v ∈ ["graph consistency"; "graph solidarity"; "graph monotonicity"]) (take 3 verdicts) ∧
  Forall (λ v, ∃ k, verdict_axiom v = graph_axiom_name k) (drop 3 verdicts).
Proof.
  intros H. unfold graph_axiom_verdicts in H. cbv zeta in H.
  destruct_bind H H1. destruct_bind H H2. destruct_bind H H3.
  destruct_bind H H4. destruct_bind H H5. destruct_bind H H6. destruct_bind H H7. destruct_bind H H8.
  injection H as <-. cbn [take drop]. rewrite !Forall_cons, !Forall_nil. repeat match goal with |- _ ∧ _ => split end;
    try exact I; try (eapply kernel_verdict_axiom; eassumption).
  - rewrite (graph_consistency_axiom _ _ _ H1). left.
  - rewrite (graph_solidarity_axiom _ _ _ _ H2). right; left.
  - rewrite (graph_monotonicity_axiom _ _ _ _ H3). right; right; left.
Qed.

Lemma graph_declarable graph claims verdicts :
  graph_axiom_verdicts graph claims = Ok verdicts → declarable verdicts.
Proof.
  intros [H1 H2]%graph_verdict_axioms. rewrite <-(take_drop 3 verdicts). apply Forall_app. split.
  - eapply Forall_impl; [exact H1|]. intros v Hv. cbv beta in Hv. rewrite !elem_of_cons, elem_of_nil in Hv.
    destruct Hv as [-> | [-> | [-> | []]]]; by eexists.
  - eapply Forall_impl; [exact H2|]. intros v [k ->]. destruct k; by eexists.
Qed.

(** A kernel axiom's rejection is one of the last five verdicts. *)
Lemma kernel_rejection_position graph claims verdicts k cx :
  graph_axiom_verdicts graph claims = Ok verdicts → Rejected (graph_axiom_name k) cx ∈ verdicts → unperturbed cx.
Proof.
  intros H Hin. rewrite <-(take_drop 3 verdicts) in Hin. apply elem_of_app in Hin as [Hin|Hin].
  - apply graph_verdict_axioms in H as [H _]. rewrite Forall_forall in H. specialize (H _ Hin). exfalso.
    revert H. destruct k; cbn [verdict_axiom graph_axiom_name]; rewrite !elem_of_cons, elem_of_nil; naive_solver.
  - by apply (kernel_verdicts_unperturbed _ _ _ _ _ H Hin).
Qed.
End graphs.

(** C37: Every failed check of a governance graph is declared, and the kernel
    ones are not monitored: when [compile_with_sacrifices] returns a
    certificate for a graph, it declares nothing exactly when the compiled
    graph is admissible; every rejected axiom has a sacrifice that names it;
    but a sacrifice that names one of the five kernel axioms has the impact
    bound zero and an empty monitoring plan, whatever the graph and the
    claims. *)
Theorem graph_sacrifices_complete
    `{codec : !LedgerCodec, env : !LedgerEnv, rendering : !Rendering, regex : !RegexEngine}
    (graph : GovernanceGraph) (claims : list GovernanceClaim) (estate : Estate) (db : LedgerDb) cert (db' : LedgerDb)
    (Hrun : compile_with_sacrifices graph claims estate db = (Ok cert, db')) :
  ∃ compiled, dc_compiled cert = GovernedGraph compiled ∧
    (dc_sacrifices cert = [] ↔ GraphCompilation_is_admissible compiled = true) ∧
    (∀ axiom cx, Rejected axiom cx ∈ gp_axiom_verdicts compiled →
      ∃ s, s ∈ dc_sacrifices cert ∧ pv_source_axiom (cs_provenance s) = axiom) ∧
    (∀ s k, s ∈ dc_sacrifices cert → pv_source_axiom (cs_provenance s) = graph_axiom_name k →
      cs_impact_bound s = f64_zero ∧ cs_monitoring_plan s = []).
Proof.
  change (compile_graph_with_sacrifices graph claims estate db = (Ok cert, db')) in Hrun.
  unfold compile_graph_with_sacrifices in Hrun.
  apply Compiler.ledger_bind_Ok in Hrun as (compiled & d & Hcomp & Hissue).
  unfold compile_graph_payload in Hcomp. cbv zeta in Hcomp.
  Compiler.ledger_step_Ok Hcomp verdicts Hv. Compiler.ledger_step_Ok Hcomp sp Hsp.
  apply Compiler.ledger_bind_Ok in Hcomp as (ts & d1 & Hts & Hcomp). injection Hcomp as <- ->.
  unfold issue_certificate in Hissue. cbv zeta in Hissue.
  apply Compiler.ledger_bind_Ok in Hissue as ([] & d2 & Hrec & Hissue). injection Hissue as <- _.
  pose proof (graph_declarable _ _ _ Hv) as Hd.
  eexists. cbn [dc_compiled dc_sacrifices gp_axiom_verdicts gp_strategyproofness]. split_and!; [done|by apply sacrifices_nil| |].
  - intros axiom cx Hin. unfold declarable in Hd. rewrite Forall_forall in Hd. destruct (Hd _ Hin) as [p Hp].
    eexists. split; [apply sacrifices_from_axioms_elem; left; by eauto 10|done].
  - intros s k [(axiom & cx & p & Hin & _ & ->)|(w & _ & ->)]%sacrifices_from_axioms_elem Hk.
    + cbn in Hk. subst axiom. by eapply unperturbed_sacrifice, kernel_rejection_position.
    + exfalso. by destruct k.
Qed.
