(* ===== verification/Paradox.v ===== *)
(** * The paradox suite (src/paradox.rs)

    Entrants are added, and claims strengthened, in search of a claimant who
    loses by an addition, of a strengthened claim that loses its pairwise
    share, and of two claimants whose order an entrant flips.  What is found is
    recorded in the ledger. *)

From S2P Require Import Prelude F64 Errors Core Mechanism Rules Coalitions RuleDiagnostics ProtocolData Compiled Clock LedgerStore Ledger LedgerSpec Compiler.
From Stdlib Require Import SpecFloat.
From stdpp Require Import options.

Definition POPULATION_DELTAS : list f64 := [f64_lit 1 20; f64_lit 1 10; f64_lit 1 5; f64_lit 2 5].

Record EntrantCandidate := mkEntrant { label : string; entrant_claim : Claim }.

Definition allocation_of (allocation : ValidAllocation) (claimant_id context : string) : LResult f64 :=
  share_for allocation claimant_id context.

Definition pair_share (allocation : ValidAllocation) (left right context : string) : LResult (option f64) :=
  left_share ← allocation_of allocation left context;
  right_share ← allocation_of allocation right context;
  let total := f64_add left_share right_share in
  Ok (if f64_leb total EPSILON then None else Some (f64_div left_share total)).

(** [f64::is_sign_negative]; the difference of two finite shares is not a NaN. *)
Definition f64_is_sign_negative (x : f64) : bool :=
  match x with S754_zero s | S754_infinity s | S754_finite s _ _ => s | S754_nan => false end.

(** [Ordering] is [comparison]. *)
Definition allocation_order (allocation : ValidAllocation) (left right context : string)
    : LResult comparison :=
  l ← allocation_of allocation left context;
  r ← allocation_of allocation right context;
  let delta := f64_sub l r in
  Ok (if f64_leb (f64_abs delta) EPSILON then Eq
      else if f64_is_sign_negative delta then Lt else Gt).

Definition claims_with_entrant (claims : list Claim) (entrant : Claim) : list Claim :=
  claims ++ [entrant].

(** [metric_totals] *)
Definition metric_totals (claims : list Claim) : gmap string f64 :=
  foldl (λ totals claim,
    foldl (λ totals '(metric, value),
      <[metric := f64_add (default f64_zero (totals !! metric)) value]> totals)
      totals (btree_iter (claim_metrics claim))) ∅ claims.

Definition average_claim (claims : list Claim) : LResult Claim :=
  let count := f64_of_nat (length claims) in
  let metrics := (λ total, f64_div total count) <$> metric_totals claims in
  claim ← Claim_new "average_entrant" (f64_div (f64_sum (claim_strength <$> claims)) count);
  Ok (mkClaim (claim_id claim) (claim_strength claim) metrics).

Definition clone_of (suffix prefix : string) (claim : Claim) (strength : f64) : LResult EntrantCandidate :=
  clone ← Claim_new (claim_id claim +:+ suffix) strength;
  Ok (mkEntrant (prefix +:+ claim_id claim)
        (mkClaim (claim_id clone) (claim_strength clone) (claim_metrics claim))).

Definition entrants_of (claim : Claim) : LResult (list EntrantCandidate) :=
  clone ← clone_of "_clone" "clone of " claim (claim_strength claim);
  if f64_ltb EPSILON (claim_strength claim) then
    half_clone ← clone_of "_half_clone" "half-strength clone of " claim
                   (f64_div (claim_strength claim) (f64_of_Z 2));
    Ok [clone; half_clone]
  else Ok [clone].

Definition entrant_candidates (claims : list Claim) (_claimants : list Claimant)
    : LResult (list EntrantCandidate) :=
  entrants ← try_map entrants_of claims;
  let entrants := mjoin entrants in
  if decide (claims = []) then Ok entrants
  else average ← average_claim claims; Ok (entrants ++ [mkEntrant "average entrant" average]).

Definition claimant_addition_step (original_allocation perturbed_allocation : ValidAllocation)
    (entrant : EntrantCandidate) (_ : ()) (existing : Claim) : LResult (Flow () ParadoxViolation) :=
  original ← allocation_of original_allocation (claim_id existing) "claimant-addition original";
  perturbed ← allocation_of perturbed_allocation (claim_id existing) "claimant-addition perturbed";
  Ok (if f64_ltb (f64_add perturbed EPSILON) original then
        Break (mkParadox ClaimantAddition
          [Txt "Adding claimant "; Txt (label entrant); Txt " reduced "; Txt (claim_id existing);
           Txt " from "; Num6 original; Txt " to "; Num6 perturbed]
          original_allocation perturbed_allocation)
      else Continue ()).

Definition detect_claimant_addition (rule : Rule) (claims : list Claim) (estate : Estate)
    (original_allocation : ValidAllocation) (entrants : list EntrantCandidate)
    : LResult (option ParadoxViolation) :=
  found (try_loop (λ _ entrant,
    perturbed_allocation ←
      evaluate_rule rule (claims_with_entrant claims (entrant_claim entrant)) estate
        "claimant-addition paradox";
    try_loop (claimant_addition_step original_allocation perturbed_allocation entrant) () claims)
    () entrants).

(** The claims with the strength of the one at [index] raised by [delta]. *)
Definition populate_at (claims : list Claim) (index : nat) (claim : Claim) (delta : f64) : LResult (list Claim) :=
  strength ← PositiveStrength_new (f64_add (claim_strength claim) delta);
  Ok (<[index := mkClaim (claim_id claim) strength (claim_metrics claim)]> claims).

Definition population_step (original_allocation perturbed_allocation : ValidAllocation) (claim : Claim)
    (delta : f64) (_ : ()) (other : Claim) : LResult (Flow () ParadoxViolation) :=
  if decide (claim_id other = claim_id claim) then Ok (Continue ())
  else
    original ← pair_share original_allocation (claim_id claim) (claim_id other) "population original";
    match original with
    | None => Ok (Continue ())
    | Some original_pair_share =>
        perturbed ← pair_share perturbed_allocation (claim_id claim) (claim_id other) "population perturbed";
        match perturbed with
        | None => Ok (Continue ())
        | Some perturbed_pair_share =>
            Ok (if f64_ltb (f64_add perturbed_pair_share EPSILON) original_pair_share then
                  Break (mkParadox Population
                    [Txt "Strengthening "; Txt (claim_id claim); Txt " by "; Num2 delta;
                     Txt " lowered its pairwise share against "; Txt (claim_id other); Txt " from ";
                     Num6 original_pair_share; Txt " to "; Num6 perturbed_pair_share]
                    original_allocation perturbed_allocation)
                else Continue ())
        end
    end.

Definition detect_population (rule : Rule) (claims : list Claim) (estate : Estate)
    (original_allocation : ValidAllocation) : LResult (option ParadoxViolation) :=
  found (try_loop (λ _ '(index, claim),
    try_loop (λ _ delta,
      perturbed_claims ← populate_at claims index claim delta;
      perturbed_allocation ← evaluate_rule rule perturbed_claims estate "population paradox";
      try_loop (population_step original_allocation perturbed_allocation claim delta) () claims)
      () POPULATION_DELTAS) () (enumerate claims)).

Definition priority_step (original_allocation perturbed_allocation : ValidAllocation)
    (entrant : EntrantCandidate) (left : Claim) (_ : ()) (right : Claim)
    : LResult (Flow () ParadoxViolation) :=
  original_order ← allocation_order original_allocation (claim_id left) (claim_id right) "priority original";
  perturbed_order ← allocation_order perturbed_allocation (claim_id left) (claim_id right) "priority perturbed";
  Ok (if bool_decide (original_order ≠ Eq) && bool_decide (perturbed_order ≠ Eq)
         && bool_decide (original_order ≠ perturbed_order) then
        Break (mkParadox Priority
          [Txt "Adding stakeholder "; Txt (label entrant); Txt " flipped the relative treatment of ";
           Txt (claim_id left); Txt " and "; Txt (claim_id right)]
          original_allocation perturbed_allocation)
      else Continue ()).

Definition detect_priority (rule : Rule) (claims : list Claim) (estate : Estate)
    (original_allocation : ValidAllocation) (entrants : list EntrantCandidate)
    : LResult (option ParadoxViolation) :=
  found (try_loop (λ _ entrant,
    perturbed_allocation ←
      evaluate_rule rule (claims_with_entrant claims (entrant_claim entrant)) estate "priority paradox";
    try_loop (λ _ '(left_index, left_claim),
      try_loop (priority_step original_allocation perturbed_allocation entrant left_claim) ()
        (drop (S left_index) claims)) () (enumerate claims)) () entrants).

Section suite.
Context `{codec : !LedgerCodec, env : !LedgerEnv, rendering : !Rendering}.

Definition run_paradox_suite (rule : Rule) (claims : list Claim) (estate : Estate)
    (claimants : list Claimant) : LedgerM (list ParadoxViolation) :=
  original_allocation ← pure_result (evaluate_rule rule claims estate "paradox suite baseline");
  entrants ← pure_result (entrant_candidates claims claimants);
  addition ← pure_result (detect_claimant_addition rule claims estate original_allocation entrants);
  population ← pure_result (detect_population rule claims estate original_allocation);
  priority ← pure_result (detect_priority rule claims estate original_allocation entrants);
  let violations := option_list addition ++ option_list population ++ option_list priority in
  ledger ← open_default;
  _ ← record_paradox_results ledger rule violations;
  mret violations.
End suite.

(* ------------------------------------------------------------------ *)
(** * The paradox suite finds exactly what it searches for

    A violation of a kind is reported precisely when some admitted
    perturbation exhibits it, and what the suite returns is what the ledger
    records. *)

Section search.
Context (rule : Rule) (claims : list Claim) (estate : Estate) (original : ValidAllocation).
Implicit Types perturbed : ValidAllocation.

(** An entrant costs an existing claimant some of its share. *)
Definition addition_paradox (entrant existing : Claim) perturbed : Prop :=
  existing ∈ claims ∧
  evaluate_rule rule (claims_with_entrant claims entrant) estate "claimant-addition paradox" = Ok perturbed ∧
  ∃ before after, original !! claim_id existing = Some before ∧ perturbed !! claim_id existing = Some after ∧
    f64_ltb (f64_add after EPSILON) before = true.

(** A strengthened claim loses its pairwise share against another claimant. *)
Definition population_paradox (index : nat) (delta : f64) (claim other : Claim) perturbed : Prop :=
  claims !! index = Some claim ∧ other ∈ claims ∧ claim_id other ≠ claim_id claim ∧
  (∃ claims', populate_at claims index claim delta = Ok claims' ∧
    evaluate_rule rule claims' estate "population paradox" = Ok perturbed) ∧
  ∃ before after,
    pair_share original (claim_id claim) (claim_id other) "population original" = Ok (Some before) ∧
    pair_share perturbed (claim_id claim) (claim_id other) "population perturbed" = Ok (Some after) ∧
    f64_ltb (f64_add after EPSILON) before = true.

(** An entrant flips the strict order of two claimants. *)
Definition priority_paradox (entrant left_claim right_claim : Claim) perturbed : Prop :=
  (∃ i j, i < j ∧ claims !! i = Some left_claim ∧ claims !! j = Some right_claim) ∧
  evaluate_rule rule (claims_with_entrant claims entrant) estate "priority paradox" = Ok perturbed ∧
  ∃ before after,
    allocation_order original (claim_id left_claim) (claim_id right_claim) "priority original" = Ok before ∧
    allocation_order perturbed (claim_id left_claim) (claim_id right_claim) "priority perturbed" = Ok after ∧
    before ≠ Eq ∧ after ≠ Eq ∧ before ≠ after.

(** The answer of a search: a violation of its type that some perturbation
    exhibits, or no perturbation exhibits one. *)
Definition search_exact (type : ParadoxType) (exhibits : ValidAllocation → Prop)
    (r : option ParadoxViolation) : Prop :=
  match r with
  | Some v => paradox_type v = type ∧ px_original_allocation v = original ∧ exhibits (px_perturbed_allocation v)
  | None => ∀ perturbed, ¬ exhibits perturbed
  end.

Lemma detect_claimant_addition_exact entrants r :
  detect_claimant_addition rule claims estate original entrants = Ok r →
  search_exact ClaimantAddition (λ perturbed, ∃ entrant existing, entrant ∈ entrants ∧
    addition_paradox (entrant_claim entrant) existing perturbed) r.
Proof.
  intros H%found_exact. destruct r as [v|].
  - destruct H as (entrant & He & Hs). destruct_bind Hs Hp.
    destruct (try_loop_Break _ _ _ _ Hs) as (existing & [] & Hx & Hb). unfold claimant_addition_step in Hb.
    destruct_bind Hb H1. destruct_bind Hb H2. destruct (f64_ltb _ _) eqn:Hl; [|done]. injection Hb as <-.
    apply share_for_Ok in H1, H2. split_and!; [done|done|]. exists entrant, existing. split; [done|].
    split_and!; [done|done|eauto].
  - intros perturbed (entrant & existing & He & Hx & Hp & before & after & Hb & Ha & Hl).
    specialize (H _ He). cbv beta in H. rewrite Hp in H. cbn [mbind Result_bind] in H.
    destruct (try_loop_Continue _ _ _ _ H _ Hx) as ([] & [] & Hs). unfold claimant_addition_step, allocation_of in Hs.
    rewrite (proj2 (share_for_Ok _ _ _ _) Hb), (proj2 (share_for_Ok _ _ _ _) Ha) in Hs. cbn [mbind Result_bind] in Hs.
    by rewrite Hl in Hs.
Qed.

Lemma detect_population_exact r :
  detect_population rule claims estate original = Ok r →
  search_exact Population (λ perturbed, ∃ index delta claim other, delta ∈ POPULATION_DELTAS ∧
    population_paradox index delta claim other perturbed) r.
Proof.
  intros H%found_exact. destruct r as [v|].
  - destruct H as ([index claim] & Hi%elem_of_enumerate & Hs).
    destruct (try_loop_Break _ _ _ _ Hs) as (delta & [] & Hd & Hb). destruct_bind Hb Hc. destruct_bind Hb Hp.
    destruct (try_loop_Break _ _ _ _ Hb) as (other & [] & Ho & Hst). unfold population_step in Hst.
    destruct (decide _) as [|Hne]; [done|]. destruct_bind Hst H1. destruct a1 as [before|]; [|done].
    destruct_bind Hst H2. destruct a1 as [after|]; [|done]. destruct (f64_ltb _ _) eqn:Hl; [|done].
    injection Hst as <-. split_and!; [done|done|]. exists index, delta, claim, other. split; [done|].
    split_and!; eauto 10.
  - intros perturbed (index & delta & claim & other & Hd & Hi & Ho & Hne & (claims' & Hc & Hp) & before & after & Hb & Ha & Hl).
    specialize (H (index, claim) (proj2 (elem_of_enumerate _ _ _) Hi)). cbv beta iota in H.
    destruct (try_loop_Continue _ _ _ _ H _ Hd) as ([] & [] & Hs). rewrite Hc in Hs. cbn [mbind Result_bind] in Hs.
    rewrite Hp in Hs. cbn [mbind Result_bind] in Hs.
    destruct (try_loop_Continue _ _ _ _ Hs _ Ho) as ([] & [] & Hst). unfold population_step in Hst.
    rewrite decide_False, Hb in Hst by done. cbn [mbind Result_bind] in Hst. rewrite Ha in Hst.
    cbn [mbind Result_bind] in Hst. by rewrite Hl in Hst.
Qed.

Lemma detect_priority_exact entrants r :
  detect_priority rule claims estate original entrants = Ok r →
  search_exact Priority (λ perturbed, ∃ entrant left_claim right_claim, entrant ∈ entrants ∧
    priority_paradox (entrant_claim entrant) left_claim right_claim perturbed) r.
Proof.
  intros H%found_exact. destruct r as [v|].
  - destruct H as (entrant & He & Hs). destruct_bind Hs Hp.
    destruct (try_loop_Break _ _ _ _ Hs) as ([i l] & [] & Hi%elem_of_enumerate & Hb).
    destruct (try_loop_Break _ _ _ _ Hb) as (r & [] & Hr & Hst). unfold priority_step in Hst.
    destruct_bind Hst H1. destruct_bind Hst H2. destruct (_ && _) eqn:Hc; [|done]. injection Hst as <-.
    apply andb_true_iff in Hc as [[Hn1 Hn2]%andb_true_iff Hn3].
    apply bool_decide_eq_true in Hn1, Hn2, Hn3. apply list_elem_of_lookup in Hr as [j Hj].
    rewrite lookup_drop in Hj. split_and!; [done|done|]. exists entrant, l, r. split; [done|].
    split_and!; [exists i, (S i + j); split_and!; [lia|done|done]|done|eauto 10].
  - intros perturbed (entrant & l & r & He & (i & j & Hij & Hi & Hj) & Hp & before & after & Hb & Ha & Hn1 & Hn2 & Hn3).
    specialize (H _ He). cbv beta in H. rewrite Hp in H. cbn [mbind Result_bind] in H.
    destruct (try_loop_Continue _ _ _ _ H (i, l)) as ([] & [] & Hs); [by apply elem_of_enumerate|].
    assert (r ∈ drop (S i) claims) as Hr.
    { apply list_elem_of_lookup. exists (j - S i). rewrite lookup_drop. by replace (S i + (j - S i)) with j by lia. }
    destruct (try_loop_Continue _ _ _ _ Hs _ Hr) as ([] & [] & Hst). unfold priority_step in Hst.
    rewrite Hb in Hst. cbn [mbind Result_bind] in Hst. rewrite Ha in Hst. cbn [mbind Result_bind] in Hst.
    by rewrite !bool_decide_true in Hst.
Qed.
End search.

Definition is_paradox_type (t : ParadoxType) (v : ParadoxViolation) : bool :=
  match t, paradox_type v with
  | ClaimantAddition, ClaimantAddition | Population, Population | Priority, Priority => true
  | _, _ => false
  end.

(** The reported violation of a type, if any. *)
Definition reported (t : ParadoxType) (violations : list ParadoxViolation) : option ParadoxViolation :=
  head (filter (λ v, is_paradox_type t v = true) violations).

Lemma option_typed original t exhibits (r : option ParadoxViolation) v :
  search_exact original t exhibits r → v ∈ option_list r → paradox_type v = t.
Proof. destruct r; [|by intros _ ?%not_elem_of_nil]. intros (Ht & _) ->%list_elem_of_singleton. exact Ht. Qed.

Lemma reported_eq original e1 e2 e3 r1 r2 r3 :
  search_exact original ClaimantAddition e1 r1 → search_exact original Population e2 r2 →
  search_exact original Priority e3 r3 →
  let violations := option_list r1 ++ option_list r2 ++ option_list r3 in
  reported ClaimantAddition violations = r1 ∧ reported Population violations = r2 ∧
  reported Priority violations = r3.
Proof.
  intros H1 H2 H3. destruct r1 as [v1|], r2 as [v2|], r3 as [v3|]; simpl in *;
    repeat match goal with H : _ ∧ _ ∧ _ |- _ => destruct H as (? & _ & _) end;
    unfold reported, is_paradox_type; rewrite ?filter_cons, ?filter_nil;
    repeat match goal with H : paradox_type _ = _ |- _ => rewrite H; clear H end; done.
Qed.

(** C36: The paradox suite is exact: when [run_paradox_suite] returns, it
    reports a claimant-addition, a population or a priority paradox precisely
    when, from the baseline allocation, some entrant candidate costs an
    existing claimant a share, some claim strengthened by a declared delta
    loses its pairwise share, or some entrant flips the strict order of two
    claimants; and the violation carries the allocation that exhibits it. *)
Theorem paradox_suite_exact
    `{codec : !LedgerCodec, env : !LedgerEnv, rendering : !Rendering}
    rule claims estate claimants db violations db'
    (Hrun : run_paradox_suite rule claims estate claimants db = (Ok violations, db')) :
  ∃ original entrants,
    evaluate_rule rule claims estate "paradox suite baseline" = Ok original ∧
    entrant_candidates claims claimants = Ok entrants ∧
    search_exact original ClaimantAddition (λ perturbed, ∃ entrant existing, entrant ∈ entrants ∧
      addition_paradox rule claims estate original (entrant_claim entrant) existing perturbed)
      (reported ClaimantAddition violations) ∧
    search_exact original Population (λ perturbed, ∃ index delta claim other, delta ∈ POPULATION_DELTAS ∧
      population_paradox rule claims estate original index delta claim other perturbed)
      (reported Population violations) ∧
    search_exact original Priority (λ perturbed, ∃ entrant left_claim right_claim, entrant ∈ entrants ∧
      priority_paradox rule claims estate original (entrant_claim entrant) left_claim right_claim perturbed)
      (reported Priority violations).
Proof.
  unfold run_paradox_suite in Hrun. ledger_step_Ok Hrun original Horiginal. ledger_step_Ok Hrun entrants Hentrants.
  ledger_step_Ok Hrun addition H1. ledger_step_Ok Hrun population H2. ledger_step_Ok Hrun priority H3.
  cbv zeta in Hrun. apply ledger_bind_Ok in Hrun as (ledger & d & _ & Hrun).
  apply ledger_bind_Ok in Hrun as ([] & d' & _ & Hrun). injection Hrun as <- _.
  apply detect_claimant_addition_exact in H1. apply detect_population_exact in H2. apply detect_priority_exact in H3.
  destruct (reported_eq _ _ _ _ _ _ _ H1 H2 H3) as (E1 & E2 & E3).
  exists original, entrants. rewrite E1, E2, E3. split_and!; [exact Horiginal|exact Hentrants|exact H1|exact H2|exact H3].
Qed.
