(* ===== verification/ProtocolTransitions.v ===== *)
(** * Transitions of the governance protocol (src/protocol/transitions.rs)

    One definition per transition.  The state a transition consumes is its
    argument; the clock readings it makes are arguments ([now]); the iteration
    order of a [HashMap] is the parameter [HashOrder]. *)

From S2P Require Import Prelude F64 Errors Core GraphNode RustEq Tarjan GraphTraverse TraverseSpec GraphCycle BinaryDiagnostics GraphDiagnostics Observable KernelChecks Synthetic NonVacuity Mechanism ProtocolData ProtocolState Clock Spectral.
From stdpp Require Import options.

(** [HashMap::into_iter]: the entries, in an order of the map's choosing. *)
Class HashOrder := {
  hash_iter : ∀ {V : Type}, gmap string V → list (string * V);
  hash_iter_perm : ∀ {V : Type} (m : gmap string V), hash_iter m ≡ₚ map_to_list m;
}.

(** [env!("CARGO_PKG_VERSION")] *)
Definition CARGO_PKG_VERSION : string := "1.1.1".

Record GraphViolation := mkViolation {
  gv_source_axiom : string;
  gv_actual_magnitude : f64;
  gv_witness : Message;
}.

Record GraphEvaluation := mkEvaluation {
  ge_axiom_verdicts : list Verdict;
  ge_strategyproofness : StrategyproofnessVerdict;
  ge_violations : gmap string GraphViolation;
}.

Definition property_for_axiom (axiom : string) : option GovernanceProperty :=
  if decide (axiom = "graph consistency") then Some Consistency
  else if decide (axiom = "graph solidarity") then Some Solidarity
  else if decide (axiom = "graph monotonicity") then Some Monotonicity
  else if decide (axiom = "graph strategyproofness") then Some Strategyproofness
  else if decide (axiom = "graph certifiability") then Some Certifiability
  else if decide (axiom = "graph observable determinacy") then Some ObservableDeterminacy
  else if decide (axiom = "graph corrigibility") then Some Corrigibility
  else if decide (axiom = "graph compositional safety") then Some CompositionalSafety
  else if decide (axiom = "graph nonvacuity") then Some NonVacuous
  else None.

Definition axiom_for_property (property : GovernanceProperty) : string :=
  match property with
  | Consistency => "graph consistency"
  | Solidarity => "graph solidarity"
  | Monotonicity => "graph monotonicity"
  | Strategyproofness => "graph strategyproofness"
  | Certifiability => "graph certifiability"
  | ObservableDeterminacy => "graph observable determinacy"
  | Corrigibility => "graph corrigibility"
  | CompositionalSafety => "graph compositional safety"
  | NonVacuous => "graph nonvacuity"
  end.

(** [property_from_str] has the table of [GovernanceProperty::parse]. *)
Definition property_from_str (value : string) : option GovernanceProperty := parse value.

Definition counterexample_magnitude (counterexample : Counterexample) : f64 :=
  foldl (λ magnitude '(claimant_id, before),
    match perturbed_allocation counterexample !! claimant_id with
    | Some after => f64_max magnitude (f64_abs (f64_sub before after))
    | None => magnitude
    end) f64_zero (btree_iter (original_allocation counterexample)).

Definition verdict_to_exposure (verdicts : list Verdict) (property : GovernanceProperty) : f64 :=
  let axiom := axiom_for_property property in
  if existsb (λ verdict, match verdict with
                         | Rejected found _ => bool_decide (found = axiom)
                         | Admissible _ _ => false
                         end) verdicts
  then f64_one else f64_zero.

Definition require_protocol_kernel_verdict (verdict : AxiomVerdict) : PResult Verdict :=
  match verdict with
  | Skipped axiom reason => Err (SkippedKernelCheck (graph_axiom_name axiom) reason)
  | other =>
      map_err (λ _, VerdictError (panicked "non-skipped kernel verdict must convert"))
        (verdict_try_from other)
  end.

(** One verdict of the loop that collects the violations. *)
Definition record_violation (violations : gmap string GraphViolation) (verdict : Verdict)
    : gmap string GraphViolation :=
  match verdict with
  | Rejected axiom counterexample =>
      match property_for_axiom axiom with
      | Some property =>
          <[as_str property := mkViolation axiom (counterexample_magnitude counterexample)
                                 (description counterexample)]> violations
      | None => violations
      end
  | Admissible _ _ => violations
  end.

Definition record_manipulation (violations : gmap string GraphViolation)
    (strategyproofness : StrategyproofnessVerdict) : gmap string GraphViolation :=
  match strategyproofness_witness strategyproofness with
  | Some w =>
      <[as_str Strategyproofness :=
          mkViolation "graph strategyproofness"
            (f64_abs (f64_sub (sw_manipulated_alloc w) (sw_true_alloc w)))
            [Txt "claimant '"; Txt (sw_claimant w); Txt "' can improve from ";
             Num (sw_true_alloc w); Txt " to "; Num (sw_manipulated_alloc w)]]> violations
  | None => violations
  end.

Definition merge_representative_claims (representative_claims : list GovernanceClaim)
    (claim : GovernanceClaim) : list GovernanceClaim :=
  filter (λ existing, gc_claimant_id existing ≠ gc_claimant_id claim) representative_claims
  ++ [claim].

Section transitions.
Context `{RegexEngine} `{StableHash} `{HashOrder}.

Definition evaluate_graph (graph : GovernanceGraph) (claims : list GovernanceClaim)
    : PResult GraphEvaluation :=
  let shocks := graph_shocks (graph_fields claims) in
  let deltas := graph_deltas (graph_fields claims) in
  consistency ← lift (check_graph_consistency graph claims);
  solidarity ← lift (check_graph_solidarity graph claims shocks);
  monotonicity ← lift (monotonicity_check_via_polarity_schema graph claims deltas
                         AUDIT_METRIC_POLARITY_SCHEMA);
  certifiability ← lift (check_graph_certifiability graph claims)
                     ≫= require_protocol_kernel_verdict;
  observable ← lift (check_graph_observable_determinacy graph claims)
                 ≫= require_protocol_kernel_verdict;
  corrigibility ← lift (check_graph_corrigibility graph claims)
                    ≫= require_protocol_kernel_verdict;
  compositional_safety ← lift (check_graph_compositional_safety graph claims)
                           ≫= require_protocol_kernel_verdict;
  nonvacuity ← lift (check_graph_nonvacuity graph claims [])
                 ≫= require_protocol_kernel_verdict;
  strategyproofness ← lift (check_graph_strategyproofness_verdict graph claims);
  let axiom_verdicts := [consistency; solidarity; monotonicity; certifiability; observable;
                         corrigibility; compositional_safety; nonvacuity] in
  let violations := foldl record_violation ∅ axiom_verdicts in
  Ok (mkEvaluation axiom_verdicts strategyproofness
        (record_manipulation violations strategyproofness)).

Definition declare_with_metadata (now : option Z) (graph : GovernanceGraph)
    (sacrifices : list DeclaredSacrifice) (name version : string) : PResult ProtocolState :=
  let claims := synthetic_claims graph in
  evaluation ← evaluate_graph graph claims;
  _ ← try_iter (λ sacrifice,
        match ge_violations evaluation !! as_str (sd_property sacrifice) with
        | Some _ => Ok ()
        | None => Err (PhantomSacrifice (as_str (sd_property sacrifice)))
        end) sacrifices;
  timestamp ← lift (iso8601_timestamp now);
  let declaration :=
    mkDeclaration CARGO_PKG_VERSION timestamp name version graph sacrifices (spectral_gap graph)
      (consistency_vulnerability_bound graph claims) in
  Ok (Declared graph sacrifices declaration).

Definition declare (now : option Z) (graph : GovernanceGraph)
    (sacrifices : list DeclaredSacrifice) : PResult ProtocolState :=
  declare_with_metadata now graph sacrifices "spectral-governance" CARGO_PKG_VERSION.

(** The certificate of one declared sacrifice. *)
Definition certify_sacrifice (violations : gmap string GraphViolation)
    (declared : DeclaredSacrifice) : SacrificeCertificate :=
  match violations !! as_str (sd_property declared) with
  | Some violation =>
      mkSacrificeCert (sd_property declared) (gv_actual_magnitude violation)
        (gv_source_axiom violation) (gv_witness violation)
        ((λ spec, mkMonitoringSpec (metric spec) (gv_actual_magnitude violation)
                    (frequency_seconds spec) (alert_channel spec)) <$> sd_monitoring_specs declared)
  | None =>
      mkSacrificeCert (sd_property declared) f64_zero (as_str (sd_property declared))
        [Txt (sd_justification declared)] (sd_monitoring_specs declared)
  end.

(** The violated properties that no sacrifice declares, in the order of their names. *)
Definition unsacrificed (violations : gmap string GraphViolation)
    (sacrifices : list DeclaredSacrifice) : list GovernanceProperty :=
  omap property_from_str
    (bset_iter (dom violations ∖ names_of (sd_property <$> sacrifices))).

Definition compile (now : option Z) (declared : ProtocolState) : PResult ProtocolState :=
  _ ← validate declared;
  match declared with
  | Declared graph sacrifices declaration =>
      let claims := synthetic_claims graph in
      evaluation ← evaluate_graph graph claims;
      let unsacrificed := unsacrificed (ge_violations evaluation) sacrifices in
      if negb (bool_decide (unsacrificed = [])) then Err (UnsacrificedViolations unsacrificed)
      else
        let sacrifice_certs := certify_sacrifice (ge_violations evaluation) <$> sacrifices in
        compiled_rule_hash ← canonical_compiled_rule_hash graph (ge_axiom_verdicts evaluation)
                               (ge_strategyproofness evaluation);
        compiled_at ← lift (iso8601_timestamp now);
        let state :=
          Compiled (mkCompiledGraph (graph_name declaration) (graph_version declaration) graph
                      (ge_axiom_verdicts evaluation) (ge_strategyproofness evaluation)
                      compiled_rule_hash compiled_at) sacrifice_certs declaration in
        _ ← validate state;
        Ok state
  | other => Err (InvalidStateTransition "declared" (state_name other))
  end.

Definition measure (compiled : ProtocolState) (representative_claims : list GovernanceClaim)
    : PResult ProtocolState :=
  _ ← validate compiled;
  match compiled with
  | Compiled compiled_graph sacrifice_certs declaration =>
      let graph := cg_graph compiled_graph in
      evaluation ← evaluate_graph graph representative_claims;
      let exposure := verdict_to_exposure (ge_axiom_verdicts evaluation) in
      let factor_exposure :=
        mkExposure (exposure Consistency) (exposure Solidarity) (exposure Monotonicity)
          (strategyproofness_exposure (ge_strategyproofness evaluation)) (exposure NonVacuous) in
      let risk_report :=
        mkRiskReport factor_exposure (spectral_gap graph)
          (consistency_vulnerability_bound graph representative_claims)
          (localizability_bound graph representative_claims) in
      let state := Measured risk_report factor_exposure compiled_graph sacrifice_certs declaration
                     representative_claims in
      _ ← validate state;
      Ok state
  | other => Err (InvalidStateTransition "compiled" (state_name other))
  end.

Definition activate (measured : ProtocolState) (monitor_config : MonitorConfig)
    : PResult ProtocolState :=
  _ ← validate measured;
  match measured with
  | Measured risk_report factor_exposure compiled_graph sacrifice_certs declaration
      representative_claims =>
      let session :=
        mkMonitorSession compiled_graph sacrifice_certs
          (non_sacrificed_monitoring_properties sacrifice_certs) representative_claims
          (randomized_interval monitor_config (rr_spectral_gap risk_report)
             (exp_consistency factor_exposure)) monitor_config in
      let state := Live session ProtocolLedger_default declaration in
      _ ← validate state;
      Ok state
  | other => Err (InvalidStateTransition "measured" (state_name other))
  end.

(** [by_property.get(property)]: collecting into a map keeps the last certificate
    of a property. *)
Definition certificate_for (sacrifice_certs : list SacrificeCertificate) (property : string)
    : option SacrificeCertificate :=
  last (filter (λ cert, as_str (sc_property cert) = property) sacrifice_certs).

(** One violation in [detect_drift_alerts]. *)
Definition drift_alert (sacrifice_certs : list SacrificeCertificate)
    (entry : string * GraphViolation) : PResult (option GovernanceDriftAlert) :=
  let '(property, violation) := entry in
  let cert := certificate_for sacrifice_certs property in
  let declared_bound := from_option sc_impact_bound f64_zero cert in
  if f64_ltb (f64_add declared_bound EPSILON) (gv_actual_magnitude violation) then
    parsed ← lift (ok_or (property_from_str property)
               (invalid_input [Txt "detect_drift_alerts: unknown governance property '";
                               Txt property; Txt "'"]));
    Ok (Some (mkDriftAlert
          (match cert with Some _ => "bound_breach" | None => "undeclared_violation" end)
          parsed declared_bound (gv_actual_magnitude violation)
          {["witness" := gv_witness violation]} "propose revision and recompile"))
  else Ok None.

Definition detect_drift_alerts (monitor_session : MonitorSession) (claims : list GovernanceClaim)
    : PResult (list GovernanceDriftAlert) :=
  evaluation ← evaluate_graph (cg_graph (ms_compiled_graph monitor_session)) claims;
  alerts ← try_map (drift_alert (ms_sacrifice_certs monitor_session))
             (hash_iter (ge_violations evaluation));
  Ok (omap (λ alert, alert) (alerts : list (option GovernanceDriftAlert))).

(** [x.to_string()] of an unsigned integer. *)
Definition show_Z (z : Z) : string := pretty (Z.to_N z).

Definition certificate_hash (certificate : PromotionCertificate) : PResult string :=
  stable_hash (CertificatePayload certificate).

Definition check_decision (now : option Z) (live : ProtocolState) (claim : GovernanceClaim)
    : PResult (ProtocolState * PromotionCertificate) :=
  _ ← validate live;
  match live with
  | Live monitor_session ledger declaration =>
      let compiled_graph := ms_compiled_graph monitor_session in
      let graph := cg_graph compiled_graph in
      let claims :=
        merge_representative_claims (ms_representative_claims monitor_session) claim in
      traversal ← lift (traverse graph claims);
      decision ← ok_or (final_decisions traversal !! gc_claimant_id claim)
                   (MissingDecision (gc_claimant_id claim));
      let evidence : gmap string string :=
        {["graph_nodes" := show_nat (size (nodes graph));
          "graph_edges" := show_nat (length (edges graph));
          "interval_seconds" := show_Z (ms_interval_seconds monitor_session)]} in
      timestamp ← lift (iso8601_timestamp now);
      let certificate :=
        mkPromotionCertificate (cg_name compiled_graph) (gc_claimant_id claim) decision true
          evidence (cg_compiled_rule_hash compiled_graph) (l_head_hash ledger) timestamp in
      head_hash ← certificate_hash certificate;
      alerts ← detect_drift_alerts monitor_session claims;
      let ledger := mkLedger (l_certificates ledger ++ [certificate])
                      (l_drift_alerts ledger ++ alerts) (Some head_hash) in
      let monitor_session :=
        mkMonitorSession compiled_graph (ms_sacrifice_certs monitor_session)
          (ms_monitored_properties monitor_session) claims (ms_interval_seconds monitor_session)
          (ms_monitor_config monitor_session) in
      let state := Live monitor_session ledger declaration in
      _ ← validate state;
      Ok (state, certificate)
  | other => Err (InvalidStateTransition "live" (state_name other))
  end.

Definition report_drift (live : ProtocolState) (violation : GovernanceDriftAlert)
    : PResult ProtocolState :=
  _ ← validate live;
  match live with
  | Live monitor_session ledger declaration =>
      let ledger := mkLedger (l_certificates ledger) (l_drift_alerts ledger ++ [violation])
                      (l_head_hash ledger) in
      let state := Drifted violation monitor_session ledger declaration in
      _ ← validate state;
      Ok state
  | other => Err (InvalidStateTransition "live" (state_name other))
  end.

Definition propose_revision (drifted : ProtocolState) (new_graph : GovernanceGraph)
    (revised_sacrifices : list DeclaredSacrifice) : PResult ProtocolState :=
  _ ← validate drifted;
  match drifted with
  | Drifted _ _ _ declaration =>
      let state := Recompiling new_graph revised_sacrifices declaration in
      _ ← validate state;
      Ok state
  | other => Err (InvalidStateTransition "drifted" (state_name other))
  end.

(** The clock is read once by the declaration and once by the compilation. *)
Definition recompile (now now' : option Z) (recompiling : ProtocolState) : PResult ProtocolState :=
  _ ← validate recompiling;
  match recompiling with
  | Recompiling proposed_graph sacrifices declaration =>
      declared ← declare_with_metadata now proposed_graph sacrifices (graph_name declaration)
                   (graph_version declaration);
      compile now' declared
  | other => Err (InvalidStateTransition "recompiling" (state_name other))
  end.

End transitions.
