(* ===== verification/Supervision.v ===== *)
(** * Supervisory interventions (src/protocol/supervision.rs)

    Each action rewrites the overlay graph a supervised protocol is governed
    by.  Parsing the JSON directive in the reason is the parameter
    [DirectiveJson] (serde_json). *)

From S2P Require Import Prelude F64 Errors Core GraphNode Tarjan GraphTraverse TraverseSpec GraphCycle BinaryDiagnostics GraphDiagnostics Observable KernelChecks Synthetic Mechanism RustEq Clock ProtocolData ProtocolState.
From Stdlib Require Import Ascii.
From stdpp Require Import options.

Record SupervisoryDirective := mkDirective {
  sandbox_nodes : list string;
  degradation_factor : option f64;
  reroute_to : list string;
}.

Definition SupervisoryDirective_default : SupervisoryDirective := mkDirective [] None [].

(** [serde_json::from_str::<SupervisoryDirective>] *)
Class DirectiveJson := parse_directive_json : string → Result Message SupervisoryDirective.

Definition DEFAULT_DEGRADATION_FACTOR : f64 := Eval vm_compute in f64_lit 3 2.
Definition REROUTE_NODE_ID : string := "__supervision_reroute__".

Definition node_identity (node : GovernanceNode) : NodeId * string :=
  match node with
  | Binary id name _ _ _ | Proportional id name _ _ | Threshold id name _ _ => (id, name)
  end.

Definition constant_node (decision : Decision) (node : GovernanceNode) : GovernanceNode :=
  let '(id, name) := node_identity node in Binary id name [] decision FirstMatch.

Definition rewrite_as_constant (graph : GovernanceGraph) (decision : Decision) : GovernanceGraph :=
  mkGraph (constant_node decision <$> nodes graph) (edges graph).

Definition entry_nodes (graph : GovernanceGraph) : list NodeId :=
  let incoming := foldl (λ (m : gmap NodeId nat) edge,
      <[to edge := S (default 0 (m !! to edge))]> m)
    ((λ _, 0) <$> nodes graph) (edges graph) in
  sort_strings (filter (λ node_id, default 0 (incoming !! node_id) = 0) (btree_keys (nodes graph))).

Definition downstream_targets (graph : GovernanceGraph) (entries : list NodeId) : gset NodeId :=
  list_to_set (to <$> filter (λ edge, from edge ∈ entries ∧ to edge ∉ entries) (edges graph)).

Definition parse_existing_node_ids (graph : GovernanceGraph) (raw_ids : list string)
    (field : string) : PResult (gset NodeId) :=
  ids ← try_map (λ raw,
    node_id ← map_err (MalformedSupervisoryDirectiveNodeId field raw) (NodeId_new raw);
    match nodes graph !! node_id with
    | Some _ => Ok node_id
    | None => Err (UnknownSupervisoryDirectiveNodeId field node_id)
    end) raw_ids;
  Ok (list_to_set ids).

Definition sandbox_graph (graph : GovernanceGraph) (directive : SupervisoryDirective)
    : PResult GovernanceGraph :=
  parsed ← parse_existing_node_ids graph (sandbox_nodes directive) "sandbox_nodes";
  let allowed : gset NodeId :=
    if bool_decide (parsed = ∅) then list_to_set (entry_nodes graph) else parsed in
  Ok (mkGraph (filter (λ p, p.1 ∈ allowed) (nodes graph))
        (filter (λ edge, from edge ∈ allowed ∧ to edge ∈ allowed) (edges graph))).

Definition degrade_gate (factor : f64) (gate : Gate) : Gate :=
  match gate with
  | ThresholdGate field min decision => ThresholdGate field (f64_mul min factor) decision
  | other => other
  end.

Definition degrade_node (factor : f64) (node : GovernanceNode) : GovernanceNode :=
  match node with
  | Binary id name gates default combination =>
      Binary id name (degrade_gate factor <$> gates) default combination
  | Threshold id name threshold field => Threshold id name (f64_mul threshold factor) field
  | Proportional _ _ _ _ => node
  end.

(** The factor of the directive when it is usable, the default otherwise. *)
Definition degradation (directive : SupervisoryDirective) : f64 :=
  match degradation_factor directive with
  | Some factor =>
      if f64_is_finite factor && f64_ltb f64_zero factor then factor
      else DEFAULT_DEGRADATION_FACTOR
  | None => DEFAULT_DEGRADATION_FACTOR
  end.

Definition degrade_graph (graph : GovernanceGraph) (directive : SupervisoryDirective)
    : GovernanceGraph :=
  mkGraph (degrade_node (degradation directive) <$> nodes graph) (edges graph).

Definition reroute_candidate (base : string) (suffix : nat) : string :=
  match suffix with O => base | S _ => base +:+ "_" +:+ show_nat suffix end.

(** The search over the suffixes; a graph with [n] nodes cannot use [n + 1] of
    them. *)
Fixpoint next_available_from (graph : GovernanceGraph) (base : string) (suffixes : list nat)
    : PResult NodeId :=
  match suffixes with
  | [] => Err (VerdictError (panicked "unbounded reroute id search should always terminate"))
  | suffix :: suffixes =>
      node_id ← lift (NodeId_new (reroute_candidate base suffix));
      match nodes graph !! node_id with
      | None => Ok node_id
      | Some _ => next_available_from graph base suffixes
      end
  end.

Definition next_available_node_id (graph : GovernanceGraph) (base : string) : PResult NodeId :=
  next_available_from graph base (seq 0 (S (size (nodes graph)))).

(** The targets the reroute node leads to: those of the directive, else the
    nodes fed by an entry, else every other node. *)
Definition reroute_targets (graph : GovernanceGraph) (requested : gset NodeId)
    (current_entries : list NodeId) : gset NodeId :=
  let entries : gset NodeId := list_to_set current_entries in
  let targets := requested ∖ entries in
  let targets := if bool_decide (targets = ∅) then downstream_targets graph current_entries
                 else targets in
  if bool_decide (targets = ∅) then dom (nodes graph) ∖ entries else targets.

Definition reroute_graph (graph : GovernanceGraph) (directive : SupervisoryDirective)
    : PResult GovernanceGraph :=
  let current_entries := entry_nodes graph in
  requested ← parse_existing_node_ids graph (reroute_to directive) "reroute_to";
  let targets := reroute_targets graph requested current_entries in
  if bool_decide (targets = ∅) then Ok (rewrite_as_constant graph Deny)
  else
    let graph := mkGraph
      (filter (λ p, p.1 ∉ current_entries) (nodes graph))
      (filter (λ edge, (from edge ∉ current_entries) ∧ to edge ∉ current_entries) (edges graph)) in
    reroute_id ← next_available_node_id graph REROUTE_NODE_ID;
    Ok (mkGraph
          (<[reroute_id := Binary reroute_id "supervision-reroute" [] Escalate FirstMatch]> (nodes graph))
          (edges graph ++ ((λ target, mkEdge reroute_id target PassThrough) <$> bset_iter targets))).

Definition apply_supervisory_action (graph : GovernanceGraph) (declaration : GovernanceDeclaration)
    (action : SupervisoryAction) (directive : SupervisoryDirective) : PResult GovernanceGraph :=
  match action with
  | Pause => Ok (rewrite_as_constant graph Escalate)
  | DenyAll | Stop => Ok (rewrite_as_constant graph Deny)
  | Sandbox => sandbox_graph graph directive
  | Degrade => Ok (degrade_graph graph directive)
  | Rollback => Ok (d_graph declaration)
  | Reroute => reroute_graph graph directive
  end.

Section supervise.
Context `{StableHash} `{DirectiveJson}.

Definition parse_directive (reason : option string) : PResult SupervisoryDirective :=
  match reason with
  | Some value =>
      if starts_with (trim_start value) "{" then
        map_err MalformedSupervisoryDirectiveJson (parse_directive_json value)
      else Ok SupervisoryDirective_default
  | None => Ok SupervisoryDirective_default
  end.

Definition supervise (now : option Z) (live : ProtocolState) (action : SupervisoryAction)
    (reason : option string) : PResult ProtocolState :=
  _ ← validate live;
  source ← match live with
           | Live monitor_session ledger declaration =>
               Ok (monitor_session, ledger, declaration,
                   cg_graph (ms_compiled_graph monitor_session))
           | Supervised intervention monitor_session ledger declaration =>
               Ok (monitor_session, ledger, declaration, iv_overlay_graph intervention)
           | other => Err (InvalidStateTransition "live|supervised" (state_name other))
           end;
  let '(monitor_session, ledger, declaration, overlay_graph) := source in
  directive ← parse_directive reason;
  overlay_graph ← apply_supervisory_action overlay_graph declaration action directive;
  overlay_graph_hash ← canonical_graph_hash overlay_graph;
  issued_at ← lift (iso8601_timestamp now);
  let state :=
    Supervised (mkIntervention action (postcondition action) issued_at overlay_graph
                  overlay_graph_hash reason) monitor_session ledger declaration in
  _ ← validate state;
  Ok state.

End supervise.

(* ------------------------------------------------------------------ *)
(** * What supervision guarantees

    Every action leaves a graph that can be traversed (well formed, acyclic and
    not empty); pausing, denying and stopping leave one that gives every claim
    the same decision; rerouting puts the new node in front of everything. *)

(** *** Entries *)

Lemma incoming_fold_lookup es (m : gmap NodeId nat) v :
  default 0 (foldl (λ (m : gmap NodeId nat) edge, <[to edge := S (default 0 (m !! to edge))]> m) m es !! v)
  = default 0 (m !! v) + edges_to es v.
Proof.
  revert m. induction es as [|e es IH]; intros m; [unfold edges_to; simpl; lia|]. cbn [foldl].
  rewrite edges_to_cons, IH, lookup_insert. case_decide; subst; simpl; lia.
Qed.

Lemma elem_of_entry_nodes g v :
  v ∈ entry_nodes g ↔ is_Some (nodes g !! v) ∧ ∀ e, e ∈ edges g → to e ≠ v.
Proof.
  unfold entry_nodes. rewrite elem_of_sort_strings, list_elem_of_filter, elem_of_btree_keys.
  rewrite incoming_fold_lookup, lookup_fmap, <-edges_to_0.
  destruct (nodes g !! v); simpl; split; intros [? ?]; split; eauto; lia.
Qed.

(** A graph without cycles has an entry. *)
Lemma sound_graph_entry g : sound_graph g → ∃ v, v ∈ entry_nodes g.
Proof.
  intros (Hwf & Hac & (v & n & Hv)%map_choose). assert (is_Some (nodes g !! v)) as Hs by eauto.
  clear n Hv. induction (acyclic_pred_Acc g Hwf Hac v) as [v _ IH].
  destruct (decide (edges_to (edges g) v = 0)) as [H0|H0].
  { exists v. apply elem_of_entry_nodes. split; [done|]. by apply edges_to_0. }
  destruct (filter (λ e, to e = v) (edges g)) as [|e l] eqn:Hf;
    [by unfold edges_to in H0; rewrite Hf in H0|].
  assert (e ∈ e :: l) as He by left. rewrite <-Hf in He. apply list_elem_of_filter in He as [Ht He].
  apply (IH (from e)); [apply elem_of_successors; eauto|]. by apply (graph_wf_edges g Hwf).
Qed.

(** *** Rewriting nodes in place *)

Lemma fmap_nodes_sound (f : GovernanceNode → GovernanceNode) g :
  (∀ n, node_id (f n) = node_id n) → sound_graph g → sound_graph (mkGraph (f <$> nodes g) (edges g)).
Proof.
  intros Hid (Hwf & Hac & Hne). split_and!.
  - split; simpl.
    + intros k n. rewrite lookup_fmap. intros (n' & Hn & ->)%fmap_Some. rewrite Hid.
      by apply (graph_wf_ids g Hwf).
    + intros e He. rewrite !lookup_fmap, !fmap_is_Some. by apply (graph_wf_edges g Hwf).
  - by apply (tc_edge_ext g).
  - simpl. intros Hemp%fmap_empty_inv. done.
Qed.

Lemma constant_node_id d n : node_id (constant_node d n) = node_id n.
Proof. by destruct n. Qed.

Lemma degrade_node_id factor n : node_id (degrade_node factor n) = node_id n.
Proof. by destruct n. Qed.

Lemma rewrite_as_constant_constant g d : constant_graph (rewrite_as_constant g d) d.
Proof.
  intros v n. unfold rewrite_as_constant. simpl. rewrite lookup_fmap.
  intros (n' & _ & ->)%fmap_Some. unfold constant_node. destruct (node_identity n'). eauto.
Qed.

(** *** Sandboxing *)

Lemma parse_existing_subset g raw field ids :
  parse_existing_node_ids g raw field = Ok ids → ids ⊆ dom (nodes g).
Proof.
  unfold parse_existing_node_ids. intros Hp. invert_binds. rename a into l. intros v Hv.
  apply elem_of_list_to_set in Hv. destruct (try_map_elem_of_inv _ _ _ _ Hr Hv) as (r & _ & Hf).
  invert_binds. destruct (nodes g !! a) eqn:Ha; [|done]. injection Hf as ->.
  by apply elem_of_dom_2 in Ha.
Qed.

(** The restriction of a graph to some of its nodes. *)
Definition restrict (P : NodeId → Prop) `{!∀ v, base.Decision (P v)} (g : GovernanceGraph) : GovernanceGraph :=
  mkGraph (filter (λ p, P p.1) (nodes g)) (filter (λ edge, P (from edge) ∧ P (to edge)) (edges g)).

Lemma restrict_lookup (P : NodeId → Prop) `{!∀ v, base.Decision (P v)} g v n :
  nodes (restrict P g) !! v = Some n ↔ nodes g !! v = Some n ∧ P v.
Proof. unfold restrict. simpl. by rewrite map_lookup_filter_Some. Qed.

Lemma restrict_edge (P : NodeId → Prop) `{!∀ v, base.Decision (P v)} g e :
  e ∈ edges (restrict P g) ↔ e ∈ edges g ∧ P (from e) ∧ P (to e).
Proof. unfold restrict. simpl. rewrite list_elem_of_filter. tauto. Qed.

Lemma restrict_wf (P : NodeId → Prop) `{!∀ v, base.Decision (P v)} g : graph_wf g → graph_wf (restrict P g).
Proof.
  intros Hwf. split.
  - intros k n [Hn _]%restrict_lookup. by apply (graph_wf_ids g Hwf).
  - intros e (He & Hf & Ht)%restrict_edge.
    destruct (graph_wf_edges g Hwf e He) as [[n1 Hn1] [n2 Hn2]].
    split; eexists; apply restrict_lookup; eauto.
Qed.

Lemma restrict_edge_rel (P : NodeId → Prop) `{!∀ v, base.Decision (P v)} g u v :
  edge_rel (restrict P g) u v ↔ edge_rel g u v ∧ P u ∧ P v.
Proof.
  unfold edge_rel. rewrite !elem_of_successors. setoid_rewrite restrict_edge. naive_solver.
Qed.

Lemma sandbox_graph_sound g directive g' :
  sound_graph g → sandbox_graph g directive = Ok g' → sound_graph g'.
Proof.
  intros Hs Hr. pose proof (sound_graph_entry g Hs) as [v0 Hv0]. destruct Hs as (Hwf & Hac & Hne).
  unfold sandbox_graph in Hr. invert_binds. apply parse_existing_subset in Hr0.
  match goal with |- sound_graph (mkGraph (filter (λ p, p.1 ∈ ?al) _) _) => set (allowed := al) end.
  change (sound_graph (restrict (λ v, v ∈ allowed) g)). split_and!.
  - by apply restrict_wf.
  - apply (tc_edge_ext g); [|done]. intros u v. by intros [? _]%restrict_edge_rel.
  - assert (∃ v, v ∈ allowed ∧ v ∈ dom (nodes g)) as (v & Hal & [n Hn]%elem_of_dom).
    { unfold allowed. case_bool_decide as Hemp.
      - exists v0. split; [by apply elem_of_list_to_set|]. by apply elem_of_entry_nodes in Hv0 as [?%elem_of_dom _].
      - apply set_choose_L in Hemp as [v Hv]. exists v. split; [done|]. by apply Hr0. }
    intros Hn'. assert (nodes (restrict (λ v, v ∈ allowed) g) !! v = Some n) as Hl
      by by apply restrict_lookup.
    by rewrite Hn', lookup_empty in Hl.
Qed.

(** *** Fresh identifiers *)

Lemma reroute_candidate_inj base i j : reroute_candidate base i = reroute_candidate base j → i = j.
Proof.
  assert (∀ s, base +:+ "_" +:+ s ≠ base) as Hne.
  { intros s. induction base as [|c base IH]; [done|]. simpl. intros [= Heq]. by apply IH. }
  unfold reroute_candidate. destruct i as [|i], j as [|j]; intros Heq; [done| | |].
  - by destruct (Hne (show_nat (S j))).
  - by destruct (Hne (show_nat (S i))).
  - apply (inj (String.append base)) in Heq. apply (inj (String.append "_")) in Heq.
    unfold show_nat in Heq. apply (inj pretty) in Heq; lia.
Qed.

Lemma next_available_from_spec g base l :
  is_blank base = false → (∀ i, is_blank (reroute_candidate base i) = false) →
  (∃ i, i ∈ l ∧ nodes g !! reroute_candidate base i = None) →
  ∃ i, next_available_from g base l = Ok (reroute_candidate base i) ∧
       nodes g !! reroute_candidate base i = None.
Proof.
  intros Hb Hbl. induction l as [|i l IH]; intros (j & Hj & Hn); [by apply not_elem_of_nil in Hj|].
  cbn [next_available_from]. unfold NodeId_new. rewrite Hbl. cbn [lift map_err mbind Result_bind].
  destruct (nodes g !! reroute_candidate base i) eqn:Hi; [|eauto].
  apply IH. exists j. apply elem_of_cons in Hj as [->|Hj]; [congruence|done].
Qed.

(** One of the [n + 1] candidates is not among [n] nodes. *)
Lemma pigeonhole_candidate g base :
  ∃ i, i ∈ seq 0 (S (size (nodes g))) ∧ nodes g !! reroute_candidate base i = None.
Proof.
  set (l := seq 0 (S (size (nodes g)))).
  destruct (decide (Exists (λ i, nodes g !! reroute_candidate base i = None) l)) as [Hex|Hnex];
    [by apply Exists_exists in Hex|exfalso].
  rewrite <-Forall_Exists_neg, Forall_forall in Hnex.
  assert (length (reroute_candidate base <$> l) ≤ length (btree_keys (nodes g))) as Hle.
  { apply submseteq_length, NoDup_submseteq.
    - apply NoDup_fmap_2; [intros ??; apply reroute_candidate_inj|apply NoDup_seq].
    - intros x (i & -> & Hi)%list_elem_of_fmap. apply elem_of_btree_keys.
      specialize (Hnex i Hi). destruct (nodes g !! reroute_candidate base i); [eauto|done]. }
  rewrite length_fmap, length_btree_keys in Hle. unfold l in Hle. rewrite length_seq in Hle. lia.
Qed.

(** A string with a visible first character is not blank. *)
Lemma underscore_not_blank s : is_blank (String "_"%char s) = false.
Proof.
  unfold is_blank. destruct s as [|a [|b s]]; [done|..];
    cbn [String.length is_blank_fuel strip_white];
    change (nat_of_ascii "_"%char) with 95;
    rewrite !decide_False by lia; done.
Qed.

Lemma next_available_node_id_spec g :
  ∃ i, next_available_node_id g REROUTE_NODE_ID = Ok (reroute_candidate REROUTE_NODE_ID i) ∧
       nodes g !! reroute_candidate REROUTE_NODE_ID i = None.
Proof.
  apply next_available_from_spec; [done| |apply pigeonhole_candidate].
  intros [|i]; [done|]. unfold reroute_candidate, REROUTE_NODE_ID. simpl. apply underscore_not_blank.
Qed.

(** *** Rerouting *)

Lemma elem_of_downstream g entries v :
  v ∈ downstream_targets g entries ↔ ∃ u, edge_rel g u v ∧ u ∈ entries ∧ v ∉ entries.
Proof.
  unfold downstream_targets. rewrite elem_of_list_to_set, list_elem_of_fmap.
  unfold edge_rel. setoid_rewrite list_elem_of_filter. setoid_rewrite elem_of_successors.
  naive_solver.
Qed.

(** The targets are nodes of the graph other than its entries. *)
Lemma reroute_targets_subset g requested entries :
  graph_wf g → requested ⊆ dom (nodes g) → ∀ v, v ∈ reroute_targets g requested entries →
  is_Some (nodes g !! v) ∧ v ∉ entries.
Proof.
  intros Hwf Hr v. unfold reroute_targets. cbv zeta.
  assert (∀ w, w ∈ downstream_targets g entries → is_Some (nodes g !! w) ∧ w ∉ entries) as Hd.
  { intros w (u & (e & He & _ & <-)%elem_of_successors & _ & Hw)%elem_of_downstream.
    split; [by apply (graph_wf_edges g Hwf)|done]. }
  assert (∀ w, w ∈ requested ∖ list_to_set entries → is_Some (nodes g !! w) ∧ w ∉ entries) as Hq.
  { intros w [Hw Hnw]%elem_of_difference. rewrite elem_of_list_to_set in Hnw.
    split; [|done]. by apply elem_of_dom, Hr. }
  assert (∀ w, w ∈ dom (nodes g) ∖ list_to_set entries → is_Some (nodes g !! w) ∧ w ∉ entries) as Ha.
  { intros w [Hw%elem_of_dom Hnw]%elem_of_difference. by rewrite elem_of_list_to_set in Hnw. }
  repeat case_bool_decide; auto.
Qed.

(** The rerouted graph: the rest of the graph behind one new node. *)
Record rerouted (g g' : GovernanceGraph) (r : NodeId) (targets : gset NodeId) : Prop := {
  rr_fresh : r ∈ entry_nodes g ∨ nodes g !! r = None;
  rr_targets : ∀ v, v ∈ targets → is_Some (nodes g !! v) ∧ v ∉ entry_nodes g;
  rr_nonempty : targets ≠ ∅;
  rr_node : nodes g' !! r = Some (Binary r "supervision-reroute" [] Escalate FirstMatch);
  rr_rest : ∀ v, v ≠ r → nodes g' !! v = nodes (restrict (λ v, v ∉ entry_nodes g) g) !! v;
  rr_edges : ∀ u v, edge_rel g' u v ↔
    (u = r ∧ v ∈ targets) ∨ edge_rel (restrict (λ v, v ∉ entry_nodes g) g) u v;
  rr_wf : graph_wf g';
}.

Lemma reroute_graph_cases g directive g' :
  graph_wf g → reroute_graph g directive = Ok g' →
  g' = rewrite_as_constant g Deny ∨
  ∃ requested r,
    parse_existing_node_ids g (reroute_to directive) "reroute_to" = Ok requested ∧
    rerouted g g' r (reroute_targets g requested (entry_nodes g)).
Proof.
  intros Hwf Hr. unfold reroute_graph in Hr.
  destruct (parse_existing_node_ids _ _ _) as [requested|] eqn:Hp; cbn [mbind Result_bind] in Hr; [|done].
  set (targets := reroute_targets g requested (entry_nodes g)) in *.
  case_bool_decide as Hemp; [injection Hr as <-; by left|right].
  set (rest := restrict (λ v, v ∉ entry_nodes g) g).
  cbv zeta in Hr.
  match type of Hr with context [next_available_node_id ?x _] => change x with rest in Hr end.
  destruct (next_available_node_id_spec rest) as (i & Hi & Hfresh).
  rewrite Hi in Hr. set (r := reroute_candidate REROUTE_NODE_ID i) in *.
  assert (g' = mkGraph (<[r := Binary r "supervision-reroute" [] Escalate FirstMatch]> (nodes rest))
                 (edges rest ++ ((λ target, mkEdge r target PassThrough) <$> bset_iter targets)))
    as -> by by injection Hr.
  clear Hr.
  exists requested, r. split; [done|].
  pose proof (reroute_targets_subset g requested (entry_nodes g) Hwf
                (parse_existing_subset _ _ _ _ Hp)) as Htg. fold targets in Htg.
  assert (∀ v, v ∈ targets → v ≠ r ∧ is_Some (nodes rest !! v)) as Htr.
  { intros v Hv. destruct (Htg v Hv) as [[n Hn] Hnv].
    assert (nodes rest !! v = Some n) as Hvr by by apply restrict_lookup.
    split; [|eauto]. intros ->. congruence. }
  assert (∀ e, e ∈ edges rest ++ ((λ target, mkEdge r target PassThrough) <$> bset_iter targets) ↔
            e ∈ edges rest ∨ ∃ t, t ∈ targets ∧ e = mkEdge r t PassThrough) as Hedges.
  { intros e. rewrite elem_of_app, list_elem_of_fmap. setoid_rewrite elem_of_bset_iter. naive_solver. }
  split; cbn [nodes edges].
  - destruct (nodes g !! r) as [n|] eqn:Hg; [left|by right].
    destruct (decide (r ∈ entry_nodes g)); [done|exfalso].
    assert (nodes rest !! r = Some n) by by apply restrict_lookup. congruence.
  - done.
  - done.
  - by rewrite lookup_insert_eq.
  - intros v Hv. by rewrite lookup_insert_ne.
  - intros u v. fold rest. unfold edge_rel. rewrite !elem_of_successors. cbn [edges].
    setoid_rewrite Hedges. split.
    + intros (e & [He|(t & Ht & ->)] & Hf & Hto); simpl in *; subst; eauto.
    + intros [[-> Hv]|(e & He & Hf & Hto)]; [|by eauto].
      exists (mkEdge r v PassThrough). split; [right; eauto|done].
  - pose proof (restrict_wf (λ v, v ∉ entry_nodes g) g Hwf) as Hrest. fold rest in Hrest. split; simpl.
    + intros k n. rewrite lookup_insert. case_decide as Hk; [intros [= <-]; by subst|].
      apply (graph_wf_ids rest Hrest).
    + intros e [He|(t & Ht & ->)]%Hedges; simpl.
      * destruct (graph_wf_edges rest Hrest e He). rewrite !lookup_insert. split; case_decide; eauto.
      * destruct (Htr t Ht) as [Htr' Hts]. rewrite lookup_insert_eq, lookup_insert_ne by done. eauto.
Qed.

(** Nothing leads to the new node. *)
Lemma rerouted_source g g' r targets u : graph_wf g → rerouted g g' r targets → ¬ edge_rel g' u r.
Proof.
  intros Hwf Hrr Hu. apply (rr_edges _ _ _ _ Hrr) in Hu as [[_ Hr]|Hu].
  - destruct (rr_targets _ _ _ _ Hrr r Hr) as [[n Hn] Hnr].
    destruct (rr_fresh _ _ _ _ Hrr); [done|congruence].
  - apply restrict_edge_rel in Hu as (Hu & _ & Hnr).
    destruct (rr_fresh _ _ _ _ Hrr) as [|Hf]; [done|].
    apply elem_of_successors in Hu as (e & He & _ & <-).
    destruct (graph_wf_edges g Hwf e He) as [_ [n Hn]]. congruence.
Qed.

Lemma rerouted_sound g g' r targets : sound_graph g → rerouted g g' r targets → sound_graph g'.
Proof.
  intros (Hwf & Hac & Hne) Hrr. split_and!; [apply Hrr| |].
  - assert (∀ u v, tc (edge_rel g') u v → u ≠ r → tc (edge_rel g) u v) as Htc.
    { intros u v Huv Hu. induction Huv as [u v Huv|u w v Huw Hwv IH].
      - apply (rr_edges _ _ _ _ Hrr) in Huv as [[-> _]|Huv]; [done|].
        apply tc_once. by apply restrict_edge_rel in Huv as [? _].
      - assert (w ≠ r) as Hw by (intros ->; by eapply rerouted_source).
        apply (rr_edges _ _ _ _ Hrr) in Huw as [[-> _]|Huw]; [done|].
        apply restrict_edge_rel in Huw as [? _]. eapply tc_l; [done|auto]. }
    intros v Hv. destruct (decide (v = r)) as [->|Hvr]; [|by apply (Hac v), Htc].
    assert (∃ u, edge_rel g' u r) as [u Hu]; [|by eapply rerouted_source].
    clear Htc. remember r as z eqn:Hz in Hv at 1. clear Hz.
    induction Hv as [x y Hxy|x w y Hxw _ IH]; eauto.
  - intros Hemp. pose proof (rr_node _ _ _ _ Hrr) as Hn. by rewrite Hemp, lookup_empty in Hn.
Qed.

(** Every action leads from a sound graph to a sound graph. *)
Lemma apply_supervisory_action_sound g declaration action directive g' :
  sound_graph g → sound_graph (d_graph declaration) →
  apply_supervisory_action g declaration action directive = Ok g' → sound_graph g'.
Proof.
  intros Hs Hd. destruct action; cbn [apply_supervisory_action]; intros Ha.
  1,2,7: injection Ha as <-; apply fmap_nodes_sound; [apply constant_node_id|done].
  - by apply (sandbox_graph_sound g directive).
  - injection Ha as <-. apply fmap_nodes_sound; [apply degrade_node_id|done].
  - by injection Ha as <-.
  - destruct (reroute_graph_cases _ _ _ (proj1 Hs) Ha) as [->|(q & r & _ & Hr)].
    + apply fmap_nodes_sound; [apply constant_node_id|done].
    + exact (rerouted_sound _ _ _ _ Hs Hr).
Qed.

(* ------------------------------------------------------------------ *)
(** ** Properties *)

(** Rerouting without explicit targets puts one new node in front of the
    whole graph: a node that escalates everything to the nodes the former
    entries fed (or to every other node), and every claim enters there.  When
    the graph has nothing but entries, every node is rewritten to deny. *)
Theorem reroute_single_entry g directive g' :
  sound_graph g → reroute_to directive = [] → reroute_graph g directive = Ok g' →
  constant_graph g' Deny ∨
  ∃ r, nodes g' !! r = Some (Binary r "supervision-reroute" [] Escalate FirstMatch) ∧
       ∀ v, v ∈ entry_nodes g' ↔ v = r.
Proof.
  intros (Hwf & Hac & Hne) Hto Hr.
  destruct (reroute_graph_cases _ _ _ Hwf Hr) as [->|(q & r & Hq & Hrr)];
    [left; apply rewrite_as_constant_constant|right].
  exists r. split; [apply Hrr|]. rewrite Hto in Hq.
  assert (q = ∅) as -> by (by injection Hq).
  set (entries := entry_nodes g) in *. intros v. rewrite elem_of_entry_nodes. split.
  - intros [Hv Hin]. destruct (decide (v = r)) as [|Hvr]; [done|exfalso].
    assert (∀ u, ¬ edge_rel g' u v) as Hno.
    { intros u (e & He & _ & <-)%elem_of_successors. by apply (Hin e). }
    destruct Hv as [n Hn]. rewrite (rr_rest _ _ _ _ Hrr v Hvr) in Hn.
    apply restrict_lookup in Hn as [Hn Hnv].
    assert (∃ u, edge_rel g u v) as [u Hu].
    { destruct (decide (edges_to (edges g) v = 0)) as [H0|H0].
      - destruct Hnv. apply elem_of_entry_nodes. split; [eauto|by apply edges_to_0].
      - destruct (filter (λ e, to e = v) (edges g)) as [|e l] eqn:Hf;
          [by unfold edges_to in H0; rewrite Hf in H0|].
        assert (e ∈ e :: l) as He by left. rewrite <-Hf in He.
        apply list_elem_of_filter in He as [Ht He]. exists (from e). apply elem_of_successors. eauto. }
    destruct (decide (u ∈ entries)) as [Hue|Hue].
    + apply (Hno r), (rr_edges _ _ _ _ Hrr). left. split; [done|].
      assert (v ∈ downstream_targets g entries) as Hdv by (apply elem_of_downstream; eauto).
      unfold reroute_targets. cbv zeta.
      rewrite (bool_decide_true (∅ ∖ list_to_set entries = ∅)) by set_solver.
      rewrite bool_decide_false by set_solver. done.
    + apply (Hno u), (rr_edges _ _ _ _ Hrr). right. by apply restrict_edge_rel.
  - intros ->. split; [rewrite (rr_node _ _ _ _ Hrr); eauto|]. intros e He Ht.
    apply (rerouted_source g g' r _ (from e) Hwf Hrr), elem_of_successors. eauto.
Qed.
