(* ===== verification/ProtocolSafety.v ===== *)
(** * The protocol as a state machine, and what is true of its reachable states

    [step] is one successful transition, [reachable] the states a declaration
    leads to.  The invariant [protocol_inv] ties the compiled graph to the
    declaration, the sacrifices to the violations the evaluation found, and the
    ledger to its hash chain. *)

From S2P Require Import Prelude F64 Errors Core GraphNode RustEq Tarjan GraphTraverse TraverseSpec GraphCycle BinaryDiagnostics GraphDiagnostics Observable KernelChecks Synthetic NonVacuity Mechanism ProtocolData ProtocolState Clock Spectral ProtocolTransitions Supervision.
From stdpp Require Import options.

(* ------------------------------------------------------------------ *)
(** ** Names of axioms and properties *)

Lemma property_for_axiom_for p : property_for_axiom (axiom_for_property p) = Some p.
Proof. by destruct p. Qed.

Lemma axiom_for_property_for a p : property_for_axiom a = Some p → axiom_for_property p = a.
Proof. unfold property_for_axiom. repeat case_decide; intros [= <-]; by subst. Qed.

Lemma required_axiom_property a :
  a ∈ REQUIRED_AXIOMS → ∃ p, property_for_axiom a = Some p ∧ p ≠ Strategyproofness.
Proof.
  intros Ha. unfold REQUIRED_AXIOMS in Ha.
  repeat (apply elem_of_cons in Ha as [->|Ha]; [eexists; split; [reflexivity|discriminate]|]).
  by apply not_elem_of_nil in Ha.
Qed.

Lemma elem_of_names_of l p : as_str p ∈ names_of l ↔ p ∈ l.
Proof.
  unfold names_of. rewrite elem_of_list_to_set, list_elem_of_fmap. split.
  - by intros (q & ->%(inj as_str) & Hq).
  - eauto.
Qed.

Lemma elem_of_names_of_inv l s : s ∈ names_of l → ∃ p, s = as_str p ∧ p ∈ l.
Proof. unfold names_of. by intros (p & -> & Hp)%elem_of_list_to_set%list_elem_of_fmap; eauto. Qed.

(* ------------------------------------------------------------------ *)
(** ** Violations *)

(** What the verdicts of a graph say about one property. *)
Definition violated (verdicts : list Verdict) (sp : StrategyproofnessVerdict)
    (p : GovernanceProperty) : Prop :=
  (∃ ce, Rejected (axiom_for_property p) ce ∈ verdicts) ∨
  (p = Strategyproofness ∧ sp ≠ Strategyproof).

Lemma record_violation_lookup m v p :
  is_Some (record_violation m v !! as_str p) ↔
  is_Some (m !! as_str p) ∨ ∃ ce, v = Rejected (axiom_for_property p) ce.
Proof.
  unfold record_violation. destruct v as [a n|a ce]; [naive_solver|].
  destruct (property_for_axiom a) as [q|] eqn:Hq.
  - rewrite lookup_insert. apply axiom_for_property_for in Hq as <-. case_decide as Heq.
    + apply (inj as_str) in Heq as ->. split; eauto.
    + split; [eauto|]. intros [?|[ce' [= Ha _]]]; [done|]. exfalso. apply Heq. f_equal.
      apply (f_equal property_for_axiom) in Ha. rewrite !property_for_axiom_for in Ha.
      by injection Ha.
  - split; [eauto|]. intros [?|[ce' [= -> _]]]; [done|]. by rewrite property_for_axiom_for in Hq.
Qed.

Lemma fold_violations_lookup vs m p :
  is_Some (foldl record_violation m vs !! as_str p) ↔
  is_Some (m !! as_str p) ∨ ∃ ce, Rejected (axiom_for_property p) ce ∈ vs.
Proof.
  revert m. induction vs as [|v vs IH]; intros m; cbn [foldl].
  - split; [auto|]. intros [?|[ce Hce%not_elem_of_nil]]; done.
  - rewrite IH, record_violation_lookup. setoid_rewrite elem_of_cons.
    split; [naive_solver|]. intros [?|[ce [<-|?]]]; eauto 10.
Qed.

(** The recorded violations are exactly those of the verdicts. *)
Lemma violations_lookup vs sp p :
  is_Some (record_manipulation (foldl record_violation ∅ vs) sp !! as_str p) ↔ violated vs sp p.
Proof.
  unfold record_manipulation, violated.
  destruct sp as [|c t r a m]; cbn [strategyproofness_witness].
  - rewrite fold_violations_lookup, lookup_empty. split; [|by intros [?|[_ ?]]; auto].
    intros [[? [=]]|?]. by left.
  - rewrite lookup_insert. case_decide as Heq.
    + apply (inj as_str) in Heq as <-. split; [|eauto]. by right.
    + rewrite fold_violations_lookup, lookup_empty. split; [intros [[? [=]]|?]; by left|].
      intros [?|[-> _]]; [by right|done].
Qed.

(** Every recorded key is the name of a property. *)
Lemma violations_keys vs sp k :
  is_Some (record_manipulation (foldl record_violation ∅ vs) sp !! k) → ∃ p, k = as_str p.
Proof.
  assert (∀ vs m, (∀ k, is_Some (m !! k) → ∃ p, k = as_str p) →
            ∀ k, is_Some (foldl record_violation m vs !! k) → ∃ p, k = as_str p) as Hgo.
  { clear. induction vs as [|v vs IH]; intros m Hm; [done|]. apply IH. intros k.
    unfold record_violation. destruct v; [by apply Hm|].
    destruct (property_for_axiom _); [|by apply Hm].
    rewrite lookup_insert. case_decide; [eauto|by apply Hm]. }
  assert (∀ k, is_Some (foldl record_violation ∅ vs !! k) → ∃ p, k = as_str p) as Hf.
  { apply Hgo. intros k' [? Hk']. by rewrite lookup_empty in Hk'. }
  unfold record_manipulation. destruct (strategyproofness_witness sp); [|by apply Hf].
  rewrite lookup_insert. case_decide; [eauto|by apply Hf].
Qed.

Lemma unsacrificed_nil vs sp sacrifices :
  unsacrificed (record_manipulation (foldl record_violation ∅ vs) sp) sacrifices = [] →
  ∀ p, violated vs sp p → p ∈ sd_property <$> sacrifices.
Proof.
  intros Hu p Hp. apply violations_lookup in Hp. apply elem_of_names_of.
  destruct (decide (as_str p ∈ names_of (sd_property <$> sacrifices))) as [|Hn]; [done|exfalso].
  assert (p ∈ unsacrificed (record_manipulation (foldl record_violation ∅ vs) sp) sacrifices) as Hin;
    [|by rewrite Hu in Hin; apply not_elem_of_nil in Hin].
  unfold unsacrificed. apply list_elem_of_omap. exists (as_str p). split; [|apply parse_as_str].
  apply elem_of_bset_iter, elem_of_difference. split; [by apply elem_of_dom|done].
Qed.

(* ------------------------------------------------------------------ *)
(** ** What a successful evaluation says about the graph *)

Lemma lift_Ok {A} (r : LResult A) x : lift r = Ok x ↔ r = Ok x.
Proof. unfold lift. destruct r; simpl; split; congruence. Qed.

Section protocol.
Context `{RegexEngine} `{StableHash} `{HashOrder} `{DirectiveJson}.

Lemma traverse_final_decisions_shape g cs final :
  traverse_final_decisions g cs = Ok final → detect_cycles g = Ok [] ∧ nodes g ≠ ∅.
Proof.
  unfold traverse_final_decisions, traverse_claims. intros Ht.
  destruct (validate_governance_claims cs); cbn [mbind Result_bind] in Ht; [|done].
  destruct (detect_cycles g) as [[|]|]; cbn [mbind Result_bind] in Ht; try done.
  split; [done|]. intros Hemp. by rewrite bool_decide_true in Ht.
Qed.

(** A graph whose evaluation succeeds is validated and can be traversed. *)
Lemma evaluate_graph_sound g cs ev :
  evaluate_graph g cs = Ok ev → validate_governance_graph g = Ok () ∧ sound_graph g.
Proof.
  unfold evaluate_graph. cbv zeta. intros He.
  destruct (lift (check_graph_consistency g cs)) as [v1|] eqn:Hcons; [|done]. cbn [mbind Result_bind] in He.
  destruct (lift (check_graph_solidarity _ _ _)); [|done]. cbn [mbind Result_bind] in He.
  destruct (lift (monotonicity_check_via_polarity_schema _ _ _ _)); [|done]. cbn [mbind Result_bind] in He.
  destruct (lift (check_graph_certifiability g cs)) as [c|] eqn:Hc; [|done]. clear He.
  apply lift_Ok in Hcons, Hc. apply check_graph_consistency_spec in Hcons as (before & Hb & _).
  pose proof (traverse_final_decisions_shape _ _ _ Hb) as [Hcyc Hne].
  unfold check_graph_certifiability in Hc. rewrite Hcyc in Hc. cbn [mbind Result_bind] in Hc.
  rewrite (bool_decide_false (nodes g = ∅)) in Hc by done. cbn [negb] in Hc.
  rewrite bool_decide_true in Hc by done. cbn [negb] in Hc.
  destruct (validate_governance_graph g) as [[]|] eqn:Hv; cbn [mbind Result_bind] in Hc; [|done].
  split; [done|]. pose proof (validate_governance_graph_wf g Hv) as Hwf. split_and!; [done| |done].
  by eapply (traverse_final_decisions_Ok g cs).
Qed.

Lemma evaluate_graph_violations g cs ev :
  evaluate_graph g cs = Ok ev →
  ge_violations ev = record_manipulation (foldl record_violation ∅ (ge_axiom_verdicts ev))
                       (ge_strategyproofness ev).
Proof. unfold evaluate_graph. cbv zeta. intros He. invert_binds. done. Qed.

(* ------------------------------------------------------------------ *)
(** ** Inverting the transitions *)

Lemma compiled_verdict_names cg d b :
  validate_compiled_graph cg d b = Ok () →
  verdict_axiom <$> cg_axiom_verdicts cg ≡ₚ REQUIRED_AXIOMS.
Proof.
  unfold validate_compiled_graph. cbv zeta. intros Hv. repeat invert_bind.
  apply reject_if_inv, bool_decide_eq_false, dec_stable in Hr4.
  rewrite try_iter_Ok, Forall_forall in Hv. symmetry. apply submseteq_length_Permutation; [|lia].
  apply NoDup_submseteq.
  { apply (bool_decide_unpack (NoDup REQUIRED_AXIOMS)). by vm_compute. }
  intros ax Hax. specialize (Hv ax Hax). apply reject_if_Ok, bool_decide_eq_false, dec_stable in Hv.
  destruct (filter (λ candidate, candidate = ax) (verdict_axiom <$> cg_axiom_verdicts cg)) as [|x l] eqn:Hf; [done|].
  assert (x ∈ x :: l) as Hx by left. rewrite <-Hf in Hx. by apply list_elem_of_filter in Hx as [-> Hx].
Qed.

(** The declaration and the compiled graph a state is about. *)
Definition governed (s : ProtocolState) : option (CompiledGraph * GovernanceDeclaration) :=
  match s with
  | Compiled cg _ d | Measured _ _ cg _ d _ => Some (cg, d)
  | Live ms _ d | Supervised _ ms _ d | Drifted _ ms _ d => Some (ms_compiled_graph ms, d)
  | Undeclared | Declared _ _ _ | Recompiling _ _ _ => None
  end.

Definition ledger_of (s : ProtocolState) : option ProtocolLedger :=
  match s with
  | Live _ l _ | Supervised _ _ l _ | Drifted _ _ l _ => Some l
  | _ => None
  end.

Lemma validated_compiled_graph s cg d :
  validate s = Ok () → governed s = Some (cg, d) → validate_compiled_graph cg d true = Ok ().
Proof.
  unfold validate. destruct s; cbn [governed validate_with_options]; intros Hv [= <- <-];
    unfold validate_monitor_session in Hv.
  all: destruct (validate_declaration_basics _); cbn [mbind Result_bind] in Hv; [|done].
  all: destruct (validate_compiled_graph _ _ _) as [[]|]; [done|done].
Qed.

Lemma validated_ledger s l :
  validate s = Ok () → ledger_of s = Some l → validate_ledger l false = Ok ().
Proof.
  unfold validate. destruct s; cbn [ledger_of validate_with_options]; intros Hv [= <-].
  all: destruct (validate_declaration_basics _); cbn [mbind Result_bind] in Hv; [|done].
  all: destruct (validate_monitor_session _ _ _); cbn [mbind Result_bind] in Hv; [|done].
  all: destruct (validate_ledger _ _) as [[]|]; [done|done].
Qed.

Lemma declare_inv now g sacs name version s :
  declare_with_metadata now g sacs name version = Ok s →
  ∃ ev d, s = Declared g sacs d ∧ evaluate_graph g (synthetic_claims g) = Ok ev ∧
    d_graph d = g ∧ d_sacrifices d = sacs ∧ graph_name d = name ∧ graph_version d = version ∧
    ∀ sac, sac ∈ sacs → is_Some (ge_violations ev !! as_str (sd_property sac)).
Proof.
  unfold declare_with_metadata. cbv zeta. intros Hd. invert_binds.
  eexists a, _. split_and!; try done. destruct a0. rewrite try_iter_Ok, Forall_forall in Hr0.
  intros sac Hsac. specialize (Hr0 sac Hsac). by destruct (ge_violations a !! _).
Qed.

Lemma compile_inv now s s' :
  compile now s = Ok s' →
  ∃ g sacs d ev h at_,
    s = Declared g sacs d ∧ validate s = Ok () ∧
    evaluate_graph g (synthetic_claims g) = Ok ev ∧
    unsacrificed (ge_violations ev) sacs = [] ∧
    s' = Compiled (mkCompiledGraph (graph_name d) (graph_version d) g (ge_axiom_verdicts ev)
                     (ge_strategyproofness ev) h at_)
           (certify_sacrifice (ge_violations ev) <$> sacs) d ∧
    canonical_compiled_rule_hash g (ge_axiom_verdicts ev) (ge_strategyproofness ev) = Ok h ∧
    validate s' = Ok ().
Proof.
  unfold compile. intros Hc. destruct (validate s) as [[]|] eqn:Hv; cbn [mbind Result_bind] in Hc; [|done].
  destruct s as [|g sacs d| | | | | |]; try done. cbv zeta in Hc.
  destruct (evaluate_graph _ _) as [ev|] eqn:Hev; cbn [mbind Result_bind] in Hc; [|done].
  case_bool_decide as Hu; cbn [negb] in Hc; [|done].
  destruct (canonical_compiled_rule_hash _ _ _) as [h|] eqn:Hh; cbn [mbind Result_bind] in Hc; [|done].
  destruct (lift (iso8601_timestamp now)) as [at_|]; cbn [mbind Result_bind] in Hc; [|done].
  destruct (validate (Compiled _ _ _)) as [[]|] eqn:Hv'; cbn [mbind Result_bind] in Hc; [|done].
  injection Hc as <-. exists g, sacs, d, ev, h, at_. by split_and!.
Qed.

Lemma measure_inv s claims s' :
  measure s claims = Ok s' →
  ∃ cg certs d rr fe, s = Compiled cg certs d ∧ s' = Measured rr fe cg certs d claims ∧
    validate s' = Ok ().
Proof.
  unfold measure. intros Hm. destruct (validate s) as [[]|]; cbn [mbind Result_bind] in Hm; [|done].
  destruct s; try done. cbv zeta in Hm.
  destruct (evaluate_graph _ _) as [ev|]; cbn [mbind Result_bind] in Hm; [|done].
  destruct (validate (Measured _ _ _ _ _ _)) as [[]|] eqn:Hv'; cbn [mbind Result_bind] in Hm; [|done].
  injection Hm as <-. eauto 10.
Qed.

Lemma activate_inv s config s' :
  activate s config = Ok s' →
  ∃ rr fe cg certs d claims ms, s = Measured rr fe cg certs d claims ∧
    s' = Live ms ProtocolLedger_default d ∧ ms_compiled_graph ms = cg ∧
    ms_sacrifice_certs ms = certs ∧ validate s' = Ok ().
Proof.
  unfold activate. intros Ha. destruct (validate s) as [[]|]; cbn [mbind Result_bind] in Ha; [|done].
  destruct s; try done. cbv zeta in Ha.
  destruct (validate (Live _ _ _)) as [[]|] eqn:Hv'; cbn [mbind Result_bind] in Ha; [|done].
  injection Ha as <-. by eexists _, _, _, _, _, _, _.
Qed.

Lemma check_decision_inv now s claim s' cert :
  check_decision now s claim = Ok (s', cert) →
  ∃ ms l d claims r alerts h,
    s = Live ms l d ∧ validate s = Ok () ∧
    claims = merge_representative_claims (ms_representative_claims ms) claim ∧
    traverse (cg_graph (ms_compiled_graph ms)) claims = Ok r ∧
    final_decisions r !! gc_claimant_id claim = Some (pc_decision cert) ∧
    pc_claimant_id cert = gc_claimant_id claim ∧
    pc_compiled_rule_hash cert = cg_compiled_rule_hash (ms_compiled_graph ms) ∧
    pc_prev_cert_hash cert = l_head_hash l ∧
    sha256_json (CertificatePayload cert) = Some h ∧
    detect_drift_alerts ms claims = Ok alerts ∧
    s' = Live (mkMonitorSession (ms_compiled_graph ms) (ms_sacrifice_certs ms)
                 (ms_monitored_properties ms) claims (ms_interval_seconds ms) (ms_monitor_config ms))
              (mkLedger (l_certificates l ++ [cert]) (l_drift_alerts l ++ alerts) (Some h)) d ∧
    validate s' = Ok ().
Proof.
  unfold check_decision. intros Hc. destruct (validate s) as [[]|] eqn:Hv; cbn [mbind Result_bind] in Hc; [|done].
  destruct s as [| | | |ms l d| | |]; try done. cbv zeta in Hc.
  destruct (lift (traverse _ _)) as [r|] eqn:Hr; cbn [mbind Result_bind] in Hc; [|done]. apply lift_Ok in Hr.
  destruct (final_decisions r !! _) as [dec|] eqn:Hdec; cbn [ok_or mbind Result_bind] in Hc; [|done].
  destruct (lift (iso8601_timestamp now)) as [ts|]; cbn [mbind Result_bind] in Hc; [|done].
  destruct (certificate_hash _) as [h|] eqn:Hh; cbn [mbind Result_bind] in Hc; [|done].
  destruct (detect_drift_alerts _ _) as [alerts|] eqn:Hal; cbn [mbind Result_bind] in Hc; [|done].
  destruct_bind Hc Hv'. injection Hc as <- <-. apply certificate_hash_Ok in Hh.
  eexists ms, l, d, _, r, alerts, h. destruct a. by split_and!.
Qed.

Lemma report_drift_inv s a s' :
  report_drift s a = Ok s' →
  ∃ ms l d, s = Live ms l d ∧
    s' = Drifted a ms (mkLedger (l_certificates l) (l_drift_alerts l ++ [a]) (l_head_hash l)) d ∧
    validate s' = Ok ().
Proof.
  unfold report_drift. intros Hr. destruct (validate s) as [[]|]; cbn [mbind Result_bind] in Hr; [|done].
  destruct s; try done. cbv zeta in Hr.
  destruct (validate (Drifted _ _ _ _)) as [[]|] eqn:Hv'; cbn [mbind Result_bind] in Hr; [|done].
  injection Hr as <-. eauto 10.
Qed.

Lemma propose_revision_inv s g sacs s' :
  propose_revision s g sacs = Ok s' →
  ∃ a ms l d, s = Drifted a ms l d ∧ s' = Recompiling g sacs d ∧ validate s' = Ok ().
Proof.
  unfold propose_revision. intros Hr. destruct (validate s) as [[]|]; cbn [mbind Result_bind] in Hr; [|done].
  destruct s; try done. cbv zeta in Hr.
  destruct (validate (Recompiling _ _ _)) as [[]|] eqn:Hv'; cbn [mbind Result_bind] in Hr; [|done].
  injection Hr as <-. eauto 10.
Qed.

Lemma recompile_inv now now' s s' :
  recompile now now' s = Ok s' →
  ∃ g sacs d s1, s = Recompiling g sacs d ∧
    declare_with_metadata now g sacs (graph_name d) (graph_version d) = Ok s1 ∧
    compile now' s1 = Ok s'.
Proof.
  unfold recompile. intros Hr. destruct (validate s) as [[]|]; cbn [mbind Result_bind] in Hr; [|done].
  destruct s; try done.
  destruct (declare_with_metadata _ _ _ _ _) as [s1|] eqn:Hs1; cbn [mbind Result_bind] in Hr; [|done].
  eauto 10.
Qed.

(** The graph whose decisions are in force. *)
Definition governing_graph (s : ProtocolState) : option GovernanceGraph :=
  match s with
  | Live ms _ _ => Some (cg_graph (ms_compiled_graph ms))
  | Supervised iv _ _ _ => Some (iv_overlay_graph iv)
  | _ => None
  end.

Lemma supervise_inv now s action reason s' :
  supervise now s action reason = Ok s' →
  ∃ ms l d g g' directive iv,
    (s = Live ms l d ∨ ∃ iv0, s = Supervised iv0 ms l d) ∧ governing_graph s = Some g ∧
    s' = Supervised iv ms l d ∧ iv_action iv = action ∧ iv_overlay_graph iv = g' ∧
    parse_directive reason = Ok directive ∧
    apply_supervisory_action g d action directive = Ok g' ∧ validate s' = Ok ().
Proof.
  unfold supervise. intros Hs. destruct (validate s) as [[]|]; cbn [mbind Result_bind] in Hs; [|done].
  destruct s as [| | | |ms l d|iv0 ms l d| |]; try done; cbn [mbind Result_bind] in Hs.
  all: destruct (parse_directive reason) as [directive|]; cbn [mbind Result_bind] in Hs; [|done].
  all: destruct (apply_supervisory_action _ _ _ _) as [g'|] eqn:Hg'; cbn [mbind Result_bind] in Hs; [|done].
  all: destruct (canonical_graph_hash g') as [h|]; cbn [mbind Result_bind] in Hs; [|done].
  all: destruct (lift (iso8601_timestamp now)) as [ts|]; cbn [mbind Result_bind] in Hs; [|done].
  all: destruct (validate (Supervised _ _ _ _)) as [[]|] eqn:Hv'; cbn [mbind Result_bind] in Hs; [|done].
  all: injection Hs as <-; eexists ms, l, d, _, g', directive, _; split_and!; eauto.
Qed.

(* ------------------------------------------------------------------ *)
(** ** The state machine *)

(** One successful transition; the arguments range over everything a caller, the
    clock and the hash maps may choose. *)
Inductive step : ProtocolState → ProtocolState → Prop :=
  | step_compile now s s' : compile now s = Ok s' → step s s'
  | step_measure claims s s' : measure s claims = Ok s' → step s s'
  | step_activate config s s' : activate s config = Ok s' → step s s'
  | step_check now claim cert s s' : check_decision now s claim = Ok (s', cert) → step s s'
  | step_drift alert s s' : report_drift s alert = Ok s' → step s s'
  | step_propose g sacs s s' : propose_revision s g sacs = Ok s' → step s s'
  | step_recompile now now' s s' : recompile now now' s = Ok s' → step s s'
  | step_supervise now action reason s s' : supervise now s action reason = Ok s' → step s s'.

Inductive reachable : ProtocolState → Prop :=
  | reachable_declare now g sacs name version s :
      declare_with_metadata now g sacs name version = Ok s → reachable s
  | reachable_step s s' : reachable s → step s s' → reachable s'.

(** The edges of the state diagram, by the names of the states. *)
Definition protocol_edges : list (string * string) :=
  [("declared", "compiled"); ("compiled", "measured"); ("measured", "live"); ("live", "live");
   ("live", "drifted"); ("live", "supervised"); ("supervised", "supervised");
   ("drifted", "recompiling"); ("recompiling", "compiled")]%string.

(** The declared sacrifices are exactly the violations of the compiled graph. *)
Definition exactly_sacrificed (cg : CompiledGraph) (d : GovernanceDeclaration) : Prop :=
  ∀ p, p ∈ sd_property <$> d_sacrifices d ↔
       violated (cg_axiom_verdicts cg) (cg_strategyproofness cg) p.

Record governed_inv (cg : CompiledGraph) (d : GovernanceDeclaration) : Prop := {
  gi_exact : exactly_sacrificed cg d;
  gi_sound : sound_graph (cg_graph cg);
  gi_graph : d_graph d = cg_graph cg;
}.

Record protocol_inv (s : ProtocolState) : Prop := {
  pi_governed : ∀ cg d, governed s = Some (cg, d) → governed_inv cg d;
  pi_overlay : ∀ g, governing_graph s = Some g → sound_graph g;
  pi_valid : is_Some (governed s) → validate s = Ok ();
  pi_declared : ∀ g sacs d, s = Declared g sacs d →
    ∃ ev, evaluate_graph g (synthetic_claims g) = Ok ev ∧ d_graph d = g ∧ d_sacrifices d = sacs ∧
      ∀ sac, sac ∈ sacs → is_Some (ge_violations ev !! as_str (sd_property sac));
}.

Lemma declare_establishes now g sacs name version s :
  declare_with_metadata now g sacs name version = Ok s → protocol_inv s.
Proof.
  intros Hd. apply declare_inv in Hd as (ev & d & -> & Hev & Hg & Hs & _ & _ & Hsac).
  split; [done|done|by intros []|]. intros ? ? ? [= <- <- <-]. eauto.
Qed.

Lemma compile_preserves now s s' : protocol_inv s → compile now s = Ok s' → protocol_inv s'.
Proof.
  intros Hi Hc. apply compile_inv in Hc as (g & sacs & d & ev & h & at_ & -> & _ & Hev & Hu & -> & _ & Hv).
  destruct (pi_declared _ Hi g sacs d eq_refl) as (ev' & Hev' & Hg & Hs & Hsac).
  assert (ev' = ev) as -> by congruence.
  pose proof (evaluate_graph_violations _ _ _ Hev) as Hviol. rewrite Hviol in Hu, Hsac.
  split; [|done|done|done]. intros ? ? [= <- <-]. split; cbn [cg_graph].
  - unfold exactly_sacrificed. simpl. rewrite Hs. intros p. split.
    + intros (sac & -> & Hin)%list_elem_of_fmap. apply violations_lookup. by apply Hsac.
    + by apply unsacrificed_nil.
  - by eapply evaluate_graph_sound.
  - done.
Qed.

(** A transition that keeps the compiled graph and the declaration. *)
Lemma same_governed_preserves s s' :
  protocol_inv s → governed s' = governed s → is_Some (governed s') → validate s' = Ok () →
  (∀ g, governing_graph s' = Some g → sound_graph g) → protocol_inv s'.
Proof.
  intros Hi Hg Hsome Hv Ho. split; [rewrite Hg; apply Hi|done|done|].
  intros g sacs d ->. by destruct Hsome.
Qed.

Lemma step_preserves s s' : protocol_inv s → step s s' → protocol_inv s'.
Proof.
  intros Hi Hstep.
  destruct Hstep as [now s s' Hc|claims s s' Hm|config s s' Ha|now claim cert s s' Hc|alert s s' Hr
                    |g sacs s s' Hp|now now' s s' Hr|now action reason s s' Hs].
  - by eapply compile_preserves.
  - apply measure_inv in Hm as (cg & certs & d & rr & fe & -> & -> & Hv).
    by apply (same_governed_preserves _ _ Hi).
  - apply activate_inv in Ha as (rr & fe & cg & certs & d & claims & ms & -> & -> & Hcg & _ & Hv).
    apply (same_governed_preserves _ _ Hi); [by rewrite <-Hcg|done|done|].
    intros ? [= <-]. rewrite Hcg. by apply (gi_sound _ d), (pi_governed _ Hi).
  - apply check_decision_inv in Hc
      as (ms & l & d & cs & r & alerts & h & -> & _ & _ & _ & _ & _ & _ & _ & _ & _ & -> & Hv).
    apply (same_governed_preserves _ _ Hi); [done..|].
    intros ? [= <-]. by apply (pi_overlay _ Hi).
  - apply report_drift_inv in Hr as (ms & l & d & -> & -> & Hv).
    by apply (same_governed_preserves _ _ Hi).
  - apply propose_revision_inv in Hp as (a & ms & l & d & -> & -> & Hv). by split.
  - apply recompile_inv in Hr as (g & sacs & d & s1 & -> & Hd & Hc).
    eapply compile_preserves, Hc. by eapply declare_establishes.
  - apply supervise_inv in Hs as (ms & l & d & g & g' & directive & iv & Hcase & Hgov & -> & _ & <- & _ & Hap & Hv).
    assert (governed s = Some (ms_compiled_graph ms, d)) as Hg by (by destruct Hcase as [->|[? ->]]).
    apply (same_governed_preserves _ _ Hi); [by rewrite Hg|done|done|].
    intros ? [= <-]. eapply apply_supervisory_action_sound, Hap; [by apply (pi_overlay _ Hi)|].
    destruct (pi_governed _ Hi _ _ Hg) as [_ Hsound ->]. done.
Qed.

Lemma reachable_inv s : reachable s → protocol_inv s.
Proof.
  induction 1 as [now g sacs name version s Hd|s s' _ IH Hs];
    [by eapply declare_establishes|by eapply step_preserves].
Qed.

(* ------------------------------------------------------------------ *)
(** ** Properties *)

(** C2: no undeclared violation is ever in force.  In every reachable state that
    carries a compiled graph, the declared sacrifices are exactly the properties
    its verdicts reject (plus strategyproofness when it is manipulable), the
    verdicts name each of the eight axioms once, and the graph is the declared
    one, well formed, acyclic and not empty. *)
Theorem protocol_no_undeclared_violation s cg d :
  reachable s → governed s = Some (cg, d) →
  (∀ p, p ∈ sd_property <$> d_sacrifices d ↔
        violated (cg_axiom_verdicts cg) (cg_strategyproofness cg) p) ∧
  verdict_axiom <$> cg_axiom_verdicts cg ≡ₚ REQUIRED_AXIOMS ∧
  d_graph d = cg_graph cg ∧ sound_graph (cg_graph cg).
Proof.
  intros Hr%reachable_inv Hg. destruct (pi_governed _ Hr _ _ Hg) as [He Hs Hgr].
  split_and!; [done| |done|done]. eapply compiled_verdict_names, validated_compiled_graph; [|done].
  apply (pi_valid _ Hr). by rewrite Hg.
Qed.

(** C5: every transition follows the state diagram and leaves a state that
    passes validation; in particular nothing leads out of supervision. *)
Theorem protocol_steps_follow_diagram s s' :
  step s s' → (state_name s, state_name s') ∈ protocol_edges ∧ validate s' = Ok ().
Proof.
  intros Hs. destruct Hs as [now s s' Hc|claims s s' Hm|config s s' Ha|now claim cert s s' Hc|alert s s' Hr
                    |g sacs s s' Hp|now now' s s' Hr|now action reason s s' Hs].
  - apply compile_inv in Hc as (? & ? & ? & ? & ? & ? & -> & _ & _ & _ & -> & _ & Hv).
    split; [by apply (bool_decide_unpack _); vm_compute|done].
  - apply measure_inv in Hm as (? & ? & ? & ? & ? & -> & -> & Hv).
    split; [by apply (bool_decide_unpack _); vm_compute|done].
  - apply activate_inv in Ha as (? & ? & ? & ? & ? & ? & ? & -> & -> & _ & _ & Hv).
    split; [by apply (bool_decide_unpack _); vm_compute|done].
  - apply check_decision_inv in Hc
      as (? & ? & ? & ? & ? & ? & ? & -> & _ & _ & _ & _ & _ & _ & _ & _ & _ & -> & Hv).
    split; [by apply (bool_decide_unpack _); vm_compute|done].
  - apply report_drift_inv in Hr as (? & ? & ? & -> & -> & Hv).
    split; [by apply (bool_decide_unpack _); vm_compute|done].
  - apply propose_revision_inv in Hp as (? & ? & ? & ? & -> & -> & Hv).
    split; [by apply (bool_decide_unpack _); vm_compute|done].
  - apply recompile_inv in Hr as (? & ? & ? & ? & -> & _ & Hc).
    apply compile_inv in Hc as (? & ? & ? & ? & ? & ? & _ & _ & _ & _ & -> & _ & Hv).
    split; [by apply (bool_decide_unpack _); vm_compute|done].
  - apply supervise_inv in Hs as (ms & l & d & g & g' & directive & iv & [->|[? ->]] & _ & -> & _ & _ & _ & _ & Hv).
    all: split; [by apply (bool_decide_unpack _); vm_compute|done].
Qed.

(** The record is append only: in a reachable state with a ledger, the ledger
    passes strict validation (an unbroken hash chain), and a transition that
    keeps a ledger keeps its certificates and alerts as a prefix. *)
Theorem protocol_ledger_append_only s l :
  reachable s → ledger_of s = Some l →
  validate_ledger l false = Ok () ∧
  ∀ s' l', step s s' → ledger_of s' = Some l' →
    l_certificates l `prefix_of` l_certificates l' ∧ l_drift_alerts l `prefix_of` l_drift_alerts l'.
Proof.
  intros Hr%reachable_inv Hl. split.
  { eapply validated_ledger; [|done]. apply (pi_valid _ Hr). destruct s; try done; eauto. }
  intros s' l' Hs Hl'. destruct Hs as [now s s' Hc|claims s s' Hm|config s s' Ha|now claim cert s s' Hc|alert s s' Hd
                    |g sacs s s' Hp|now now' s s' Hc|now action reason s s' Hs].
  - by apply compile_inv in Hc as (? & ? & ? & ? & ? & ? & -> & _).
  - by apply measure_inv in Hm as (? & ? & ? & ? & ? & -> & _).
  - by apply activate_inv in Ha as (? & ? & ? & ? & ? & ? & ? & -> & _).
  - apply check_decision_inv in Hc
      as (? & ? & ? & ? & ? & ? & ? & -> & _ & _ & _ & _ & _ & _ & _ & _ & _ & -> & _).
    injection Hl as <-. injection Hl' as <-. split; by eexists.
  - apply report_drift_inv in Hd as (? & ? & ? & -> & -> & _).
    injection Hl as <-. injection Hl' as <-. split; [done|by eexists].
  - by apply propose_revision_inv in Hp as (? & ? & ? & ? & -> & -> & _).
  - by apply recompile_inv in Hc as (? & ? & ? & ? & -> & _).
  - apply supervise_inv in Hs as (? & ? & ? & ? & ? & ? & ? & [->|[? ->]] & _ & -> & _).
    all: injection Hl as <-; injection Hl' as <-; done.
Qed.

(** *** Drift *)

(** The bound a session's certificates put on a property; zero without one. *)
Definition declared_bound (ms : MonitorSession) (p : GovernanceProperty) : f64 :=
  from_option sc_impact_bound f64_zero (certificate_for (ms_sacrifice_certs ms) (as_str p)).

Definition breaches (ms : MonitorSession) (p : GovernanceProperty) (v : GraphViolation) : Prop :=
  f64_ltb (f64_add (declared_bound ms p) EPSILON) (gv_actual_magnitude v) = true.

Lemma drift_alert_spec ms p v :
  ∃ o, drift_alert (ms_sacrifice_certs ms) (as_str p, v) = Ok o ∧
  match o with
  | Some a => breaches ms p v ∧ da_property a = p ∧ da_declared_bound a = declared_bound ms p ∧
              da_actual_magnitude a = gv_actual_magnitude v
  | None => ¬ breaches ms p v
  end.
Proof.
  unfold drift_alert, breaches, property_from_str. cbv zeta. fold (declared_bound ms p).
  destruct (f64_ltb _ _) eqn:Hb; [|eexists; by split].
  rewrite parse_as_str. cbn [ok_or lift map_err mbind Result_bind].
  eexists. split; [done|]. by split_and!.
Qed.

(** Drift detection is exact: it fails only when the evaluation of the graph
    does, and the alerts it returns are precisely the violated properties whose
    magnitude exceeds the declared bound by more than the tolerance, with that
    bound and that magnitude. *)
Theorem drift_alerts_exact ms claims ev :
  evaluate_graph (cg_graph (ms_compiled_graph ms)) claims = Ok ev →
  ∃ alerts, detect_drift_alerts ms claims = Ok alerts ∧
    (∀ a, a ∈ alerts → ∃ v, ge_violations ev !! as_str (da_property a) = Some v ∧
       breaches ms (da_property a) v ∧ da_declared_bound a = declared_bound ms (da_property a) ∧
       da_actual_magnitude a = gv_actual_magnitude v) ∧
    (∀ p v, ge_violations ev !! as_str p = Some v → breaches ms p v →
       ∃ a, a ∈ alerts ∧ da_property a = p).
Proof.
  intros Hev. unfold detect_drift_alerts. rewrite Hev. cbn [mbind Result_bind].
  assert (∀ k v, (k, v) ∈ hash_iter (ge_violations ev) ↔ ge_violations ev !! k = Some v) as Hit.
  { intros k v. by rewrite hash_iter_perm, elem_of_map_to_list. }
  assert (∀ kv, kv ∈ hash_iter (ge_violations ev) → ∃ p, kv.1 = as_str p) as Hkey.
  { intros [k v] Hkv%Hit. apply (violations_keys (ge_axiom_verdicts ev) (ge_strategyproofness ev)).
    rewrite <-(evaluate_graph_violations _ _ _ Hev). eauto. }
  destruct (try_map_total (drift_alert (ms_sacrifice_certs ms)) (hash_iter (ge_violations ev)))
    as [os Hos].
  { intros [k v] Hkv. destruct (Hkey _ Hkv) as [p Hp]. simpl in Hp. subst.
    destruct (drift_alert_spec ms p v) as (o & -> & _). eauto. }
  rewrite Hos. eexists. split; [done|]. split.
  - intros a (o & Ho & ->)%list_elem_of_omap.
    destruct (try_map_elem_of_inv _ _ _ _ Hos Ho) as ([k v] & Hkv & Hal).
    destruct (Hkey _ Hkv) as [p Hp]. simpl in Hp. subst. apply Hit in Hkv.
    destruct (drift_alert_spec ms p v) as (o & Ho' & Hspec). rewrite Ho' in Hal. injection Hal as ->.
    destruct Hspec as (Hb & -> & Hd & Hm). exists v. by split_and!.
  - intros p v Hv%Hit Hb. destruct (try_map_elem_of _ _ _ _ Hos Hv) as (o & Ho & Hin).
    destruct (drift_alert_spec ms p v) as (o' & Ho' & Hspec). rewrite Ho' in Ho. injection Ho as ->.
    destruct o as [a|]; [|done]. exists a. split; [|apply Hspec]. apply list_elem_of_omap. by exists (Some a).
Qed.

(** *** Decisions *)

(** A checked decision is the graph's, and it is recorded: the certificate
    carries the final decision of a traversal that includes the claim, names the
    compiled rule, points at the previous head, and becomes the new head of the
    ledger; drift alerts are appended, and the session remembers the claim. *)
Theorem check_decision_records now s claim s' cert :
  check_decision now s claim = Ok (s', cert) →
  ∃ ms l d r alerts h ms',
    s = Live ms l d ∧
    s' = Live ms' (mkLedger (l_certificates l ++ [cert]) (l_drift_alerts l ++ alerts) (Some h)) d ∧
    ms_compiled_graph ms' = ms_compiled_graph ms ∧
    claim ∈ ms_representative_claims ms' ∧
    traverse (cg_graph (ms_compiled_graph ms)) (ms_representative_claims ms') = Ok r ∧
    final_decisions r !! gc_claimant_id claim = Some (pc_decision cert) ∧
    pc_claimant_id cert = gc_claimant_id claim ∧
    pc_compiled_rule_hash cert = cg_compiled_rule_hash (ms_compiled_graph ms) ∧
    pc_prev_cert_hash cert = l_head_hash l ∧
    sha256_json (CertificatePayload cert) = Some h ∧
    detect_drift_alerts ms (ms_representative_claims ms') = Ok alerts.
Proof.
  intros Hc. apply check_decision_inv in Hc
    as (ms & l & d & cs & r & alerts & h & -> & _ & -> & Hr & Hdec & Hid & Hhash & Hprev & Hh & Hal & -> & _).
  eexists ms, l, d, r, alerts, h, _. split_and!; try done.
  simpl. unfold merge_representative_claims. set_solver.
Qed.

(** *** Activation *)

(** Activation cannot fail: a valid measured state goes live under every
    monitoring configuration, covering every property that is not sacrificed. *)
Theorem activate_total s config :
  validate s = Ok () → state_name s = "measured" →
  ∃ ms d, activate s config = Ok (Live ms ProtocolLedger_default d) ∧
    ∀ p, p ∈ sc_property <$> ms_sacrifice_certs ms ∨ p ∈ ms_monitored_properties ms.
Proof.
  intros Hv Hn. unfold activate. rewrite Hv. cbn [mbind Result_bind].
  destruct s as [| | |rr fe cg certs d claims| | | |]; try done.
  unfold validate in Hv. cbn [validate_with_options] in Hv.
  destruct_bind Hv Hb. destruct_bind Hv Hcg. destruct_bind Hv Hal. destruct a, a0, a1. clear Hv.
  set (ms := mkMonitorSession _ _ _ _ _ _). exists ms, d.
  assert (∀ p, p ∈ non_sacrificed_monitoring_properties certs ↔ p ∉ sc_property <$> certs) as Hmon.
  { intros p. unfold non_sacrificed_monitoring_properties.
    rewrite list_elem_of_filter, elem_of_names_of. split; [by intros [? _]|].
    intros Hp. split; [done|]. destruct p; repeat (try (by left); right). }
  split.
  2:{ intros p. destruct (decide (p ∈ sc_property <$> certs)) as [|Hp]; [by left|right]. by apply Hmon. }
  assert (validate (Live ms ProtocolLedger_default d) = Ok ()) as ->; [|done].
  unfold validate. cbn [validate_with_options]. rewrite Hb. cbn [mbind Result_bind].
  unfold validate_monitor_session. cbn [ms ms_compiled_graph ms_sacrifice_certs ms_monitored_properties].
  rewrite Hcg. cbn [mbind Result_bind]. rewrite Hal. cbn [mbind Result_bind].
  assert (validate_monitoring_coverage (non_sacrificed_monitoring_properties certs) certs = Ok ()) as ->.
  { unfold validate_monitoring_coverage. cbv zeta.
    set (l := non_sacrificed_monitoring_properties certs).
    assert (size (names_of l) = length l) as ->.
    { unfold names_of. rewrite (size_list_to_set (C := gset string)); [by rewrite length_fmap|].
      apply NoDup_fmap_2; [apply _|]. apply NoDup_filter.
      apply (bool_decide_unpack (NoDup default_monitored_properties)). by vm_compute. }
    rewrite (bool_decide_false (length l ≠ length l)) by auto. cbn [reject_if mbind Result_bind]. apply reject_if_Ok.
    rewrite bool_decide_true; [done|]. destruct (filter _ l) as [|p l'] eqn:Hf; [done|exfalso].
    assert (p ∈ p :: l') as Hp by left. rewrite <-Hf in Hp.
    apply list_elem_of_filter in Hp as [Hp Hin]. by rewrite elem_of_names_of in Hp. }
  destruct (interval_bounds config) as [lo hi] eqn:Hbd.
  pose proof (randomized_interval_range config (rr_spectral_gap rr) (exp_consistency fe) lo hi Hbd).
  cbn [ms ms_interval_seconds ms_monitor_config]. rewrite Hbd.
  rewrite (proj2 (Z.ltb_ge _ lo)), (proj2 (Z.ltb_ge hi _)) by lia. done.
Qed.

(** *** Supervision *)

(** C27: a live or supervised protocol can always be asked: the graph in force
    (the compiled one, or the overlay any sequence of interventions built) is
    well formed, acyclic and not empty, so a traversal on valid claims decides
    every claim unless the evaluation of a node fails. *)
Theorem governing_graph_traversable s g cs :
  reachable s → governing_graph s = Some g → validate_governance_claims cs = Ok () →
  (∃ r, traverse g cs = Ok r ∧ ∀ c, c ∈ cs → is_Some (final_decisions r !! gc_claimant_id c)) ∨
  ∃ e, traverse g cs = Err e ∧ evaluation_error g cs e.
Proof.
  intros Hr%reachable_inv Hg Hval. destruct (pi_overlay _ Hr _ Hg) as (Hwf & Hac & Hne).
  destruct (traverse g cs) as [r|e] eqn:Ht.
  - left. exists r. split; [done|]. intros c Hc.
    destruct (traverse_Ok g cs r Hwf Ht) as (_ & _ & _ & Hsp).
    destruct (spec_decides g cs Hwf Hac _ _ c Hne Hsp Hc). eauto.
  - right. exists e. split; [done|]. unfold traverse in Ht.
    destruct (traverse_claims_cases g cs Hwf Hval true)
      as [[Hc _]|[(_ & He & _)|(_ & _ & [(e' & Hc & Hev)|(final & nds & Hc & _)])]]; try done.
    + rewrite Hc in Ht. by injection Ht as <-.
    + by rewrite Hc in Ht.
Qed.

(** Pausing, denying and stopping take hold at once: whatever the graph in
    force, afterwards every valid claim is escalated (pause) or denied (deny and
    stop). *)
Theorem supervise_constant s now action reason s' cs :
  reachable s → supervise now s action reason = Ok s' →
  action = Pause ∨ action = DenyAll ∨ action = Stop →
  validate_governance_claims cs = Ok () →
  ∃ g r, governing_graph s' = Some g ∧ traverse g cs = Ok r ∧
    ∀ c, c ∈ cs → final_decisions r !! gc_claimant_id c =
                  Some (match action with Pause => Escalate | _ => Deny end).
Proof.
  intros Hr Hs Hact Hval.
  assert (protocol_inv s') as Hi'.
  { eapply step_preserves; [by apply reachable_inv|]. by eapply step_supervise. }
  apply supervise_inv in Hs as (ms & l & d & g & g' & directive & iv & _ & _ & -> & Ha & <- & _ & Hap & _).
  exists (iv_overlay_graph iv). assert (sound_graph (iv_overlay_graph iv)) as Hsound by by apply (pi_overlay _ Hi').
  assert (constant_graph (iv_overlay_graph iv) (match action with Pause => Escalate | _ => Deny end)) as Hconst.
  { destruct Hact as [->|[-> | ->]]; injection Hap as <-; apply rewrite_as_constant_constant. }
  destruct (constant_graph_decides _ cs _ Hsound Hconst Hval) as (r & Ht & Hd). by exists r.
Qed.

(** Any intervention whose hash is that of its graph can replace the current one. *)
Lemma intervention_valid iv action ts g h reason ms l d :
  validate (Supervised iv ms l d) = Ok () → canonical_graph_hash g = Ok h →
  validate (Supervised (mkIntervention action (postcondition action) ts g h reason) ms l d) = Ok ().
Proof.
  unfold validate. cbn [validate_with_options]. intros Hv Hh.
  destruct_bind Hv Hb. destruct_bind Hv Hms. destruct_bind Hv Hl. clear Hv.
  cbn [iv_postcondition iv_action]. rewrite bool_decide_false by auto.
  cbn [reject_if mbind Result_bind]. unfold validate_supervisory_intervention.
  cbn [iv_overlay_graph iv_overlay_graph_hash]. rewrite Hh. cbn [mbind Result_bind].
  by rewrite bool_decide_false by auto.
Qed.

Lemma supervise_intro now iv ms l d action reason directive g h ts :
  let s' := Supervised (mkIntervention action (postcondition action) ts g h reason) ms l d in
  validate (Supervised iv ms l d) = Ok () → parse_directive reason = Ok directive →
  apply_supervisory_action (iv_overlay_graph iv) d action directive = Ok g →
  canonical_graph_hash g = Ok h → lift (iso8601_timestamp now) = Ok ts →
  supervise now (Supervised iv ms l d) action reason = Ok s'.
Proof.
  intros s' Hv Hp Ha Hh Ht. unfold supervise. rewrite Hv. cbn [mbind Result_bind].
  rewrite Hp. cbn [mbind Result_bind]. rewrite Ha. cbn [mbind Result_bind].
  rewrite Hh. cbn [mbind Result_bind]. rewrite Ht. cbn [mbind Result_bind].
  by rewrite (intervention_valid iv action ts g h reason ms l d Hv Hh).
Qed.

(** C39: no intervention is final: from every reachable supervised state, also
    one that was stopped, a rollback succeeds and puts the declared graph back in
    force. *)
Theorem rollback_undoes_every_intervention iv ms l d seconds h :
  reachable (Supervised iv ms l d) → canonical_graph_hash (d_graph d) = Ok h →
  ∃ iv', supervise (Some seconds) (Supervised iv ms l d) Rollback None = Ok (Supervised iv' ms l d) ∧
    iv_overlay_graph iv' = d_graph d.
Proof.
  intros Hr%reachable_inv Hh.
  pose proof (pi_valid _ Hr (mk_is_Some _ _ eq_refl)) as Hv.
  destruct (iso8601_timestamp_total seconds) as [ts Hts].
  exists (mkIntervention Rollback (postcondition Rollback) ts (d_graph d) h None).
  split; [|reflexivity].
  apply (supervise_intro _ _ _ _ _ _ _ SupervisoryDirective_default); [done..|by apply lift_Ok].
Qed.

End protocol.
