(* ===== verification/Witnesses.v ===== *)
(** * Witnesses: the theorems about graphs applied to concrete inputs

    A small governance graph (an entry that escalates, an approval that denies
    by content, a threshold review) with a literal regex engine, and for each
    conditional theorem an instance whose hypotheses are computed. *)

From S2P Require Import Prelude F64 Errors Core GraphNode Tarjan GraphTraverse TraverseSpec GraphCycle BinaryDiagnostics GraphDiagnostics Observable KernelChecks Synthetic NonVacuity.
From stdpp Require Import options.

(** A regex engine whose patterns match themselves. *)
#[local] Instance literal_regex : RegexEngine := {|
  Regex := string;
  Regex_new p := if is_blank p then None else Some p;
  is_match r s := bool_decide (s = r);
|}.

Definition example_claim (id : string) (strength : f64) (content : string) : GovernanceClaim :=
  mkGovernanceClaim id strength None None None (Some content) ∅.

Definition alice : GovernanceClaim := example_claim "alice" f64_one "rm".
Definition bob : GovernanceClaim := example_claim "bob" f64_one "ls".
Definition example_claims : list GovernanceClaim := [alice; bob].

Definition entry_node : GovernanceNode := Binary "entry" "entry" [] Escalate FirstMatch.
Definition approval_node : GovernanceNode :=
  Binary "approval" "approval" [ContentMatch "rm" Deny] Permit FirstMatch.

Definition example_graph : GovernanceGraph :=
  mkGraph {["entry" := entry_node; "approval" := approval_node]}
    [mkEdge "entry" "approval" (ClaimModification f64_one)].

(** The same graph with the edge given back: a cycle of two nodes. *)
Definition example_cycle : GovernanceGraph :=
  mkGraph (nodes example_graph)
    [mkEdge "entry" "approval" PassThrough; mkEdge "approval" "entry" PassThrough].

Lemma example_wf : graph_wf example_graph.
Proof. apply validate_governance_graph_wf. vm_compute. reflexivity. Qed.

Lemma example_cycle_wf : graph_wf example_cycle.
Proof. apply validate_governance_graph_wf. vm_compute. reflexivity. Qed.

Lemma example_acyclic : acyclic example_graph.
Proof. apply detect_cycles_nil_acyclic; [apply example_wf|]. vm_compute. reflexivity. Qed.

Lemma example_nonempty : nodes example_graph ≠ ∅.
Proof. intros Hemp. apply (f_equal (lookup "entry")) in Hemp. vm_compute in Hemp. discriminate. Qed.

Lemma example_valid : validate_governance_claims example_claims = Ok ().
Proof. vm_compute. reflexivity. Qed.

Lemma example_walk :
  tc (λ a b, edge_rel example_cycle a b ∧ a ∈ ["approval"; "entry"] ∧ b ∈ ["approval"; "entry"])
    "entry" "entry".
Proof.
  assert (edge_rel example_cycle "entry" "approval") as H1.
  { apply elem_of_successors. exists (mkEdge "entry" "approval" PassThrough).
    split; [left|split; reflexivity]. }
  assert (edge_rel example_cycle "approval" "entry") as H2.
  { apply elem_of_successors. exists (mkEdge "approval" "entry" PassThrough).
    split; [right; left|split; reflexivity]. }
  apply (tc_l _ _ "approval"); [|apply tc_once]; (split; [assumption|]); split; set_solver.
Qed.

Lemma traverse_refines_witness :
  ∃ r, traverse example_graph example_claims = Ok r ∧
    traversal_spec example_graph example_claims (final_decisions r) (node_decisions r).
Proof.
  eexists. split; [vm_compute; reflexivity|].
  apply (traverse_refines example_graph example_claims); [apply example_wf|vm_compute; reflexivity].
Defined.

Lemma traverse_errors_witness :
  traverse example_cycle example_claims = Err (CycleError ["approval"; "entry"]) ∧
  (validate_governance_claims example_claims = Err (CycleError ["approval"; "entry"]) ∨
   (¬ acyclic example_cycle ∧ ∃ cycle, CycleError ["approval"; "entry"] = CycleError cycle) ∨
   (nodes example_cycle = ∅ ∧ CycleError ["approval"; "entry"] = NoEntryNodes) ∨
   (acyclic example_cycle ∧
    evaluation_error example_cycle example_claims (CycleError ["approval"; "entry"]))).
Proof.
  split; [vm_compute; reflexivity|].
  apply (traverse_errors example_cycle example_claims);
    [apply example_cycle_wf|vm_compute; reflexivity].
Defined.

Lemma traverse_determinate_witness :
  ∃ r r', traverse example_graph [alice; bob] = Ok r ∧
    traverse (mkGraph (nodes example_graph) [mkEdge "entry" "approval" PassThrough]) [bob; alice] = Ok r' ∧
    final_decisions r = final_decisions r'.
Proof.
  eexists _, _. split; [vm_compute; reflexivity|]. split; [vm_compute; reflexivity|].
  apply (traverse_determinate example_graph
    (mkGraph (nodes example_graph) [mkEdge "entry" "approval" PassThrough]) [alice; bob] [bob; alice]).
  - apply example_wf.
  - apply validate_governance_graph_wf. vm_compute. reflexivity.
  - reflexivity.
  - intros u v. unfold edge_rel. rewrite !elem_of_successors. simpl.
    setoid_rewrite list_elem_of_singleton. naive_solver.
  - constructor.
  - vm_compute. reflexivity.
  - vm_compute. reflexivity.
Defined.

Lemma traverse_decides_every_claim_witness :
  ∃ r, traverse example_graph example_claims = Ok r ∧
    ∀ id, is_Some (final_decisions r !! id) ↔ id ∈ gc_claimant_id <$> example_claims.
Proof.
  eexists. split; [vm_compute; reflexivity|].
  apply (traverse_decides_every_claim example_graph); [apply example_wf|vm_compute; reflexivity].
Defined.

Lemma detect_cycles_exact_witness :
  ∃ cycles, detect_cycles example_cycle = Ok cycles ∧ StronglySorted names_le cycles ∧ NoDup (mjoin cycles) ∧
    (∀ c, c ∈ cycles ↔ cyclic_component example_cycle c) ∧ (cycles = [] ↔ acyclic example_cycle).
Proof. apply (detect_cycles_exact example_cycle), example_cycle_wf. Defined.

Lemma observable_determinacy_never_fails_witness :
  ∃ v, check_graph_observable_determinacy example_graph example_claims = Ok v ∧ is_fail v = false.
Proof.
  eexists. split; [vm_compute; reflexivity|].
  eapply (observable_determinacy_never_fails example_graph example_claims);
    [apply example_wf|apply example_valid|vm_compute; reflexivity].
Defined.

Lemma all_topological_orders_exact_witness :
  ∃ orders, all_topological_orders example_graph = Ok orders ∧ NoDup orders ∧
    ∀ l, l ∈ orders ↔
      NoDup l ∧ (∀ v, v ∈ l ↔ is_Some (nodes example_graph !! v)) ∧
      (∀ pre v post u, l = pre ++ v :: post → edge_rel example_graph u v → u ∈ pre).
Proof. apply (all_topological_orders_exact example_graph); [apply example_wf|apply example_acyclic]. Defined.

Lemma compositional_safety_never_fails_witness :
  ∃ v, check_graph_compositional_safety example_graph example_claims = Ok v ∧ is_fail v = false.
Proof.
  eexists. split; [vm_compute; reflexivity|].
  eapply (compositional_safety_never_fails example_graph example_claims);
    [apply example_wf|vm_compute; reflexivity].
Defined.

Lemma corrigibility_always_passes_witness :
  check_graph_corrigibility example_graph example_claims = Ok (Pass Corrigible 3).
Proof.
  apply (corrigibility_always_passes example_graph);
    [apply example_wf|apply example_acyclic|apply example_nonempty|apply example_valid].
Defined.

Lemma override_decides_all_witness :
  ∃ r, traverse (constant_override_graph example_graph Deny) example_claims = Ok r ∧
    ∀ c, c ∈ example_claims → final_decisions r !! gc_claimant_id c = Some Deny.
Proof.
  apply (override_decides_all example_graph);
    [apply example_wf|apply example_acyclic|apply example_nonempty|apply example_valid].
Defined.

Lemma certifiability_rejects_only_empty_witness :
  ∃ v, check_graph_certifiability example_graph example_claims = Ok v ∧
    (is_fail v = true ↔ nodes example_graph = ∅).
Proof.
  eexists. split; [vm_compute; reflexivity|].
  eapply (certifiability_rejects_only_empty example_graph example_claims);
    [apply example_wf|vm_compute; reflexivity].
Defined.

Lemma local_graph_passes_consistency_witness :
  ∃ v, check_graph_consistency example_graph example_claims = Ok v ∧ verdict_admissible v = true.
Proof.
  eexists. split; [vm_compute; reflexivity|].
  eapply (local_graph_passes_consistency example_graph example_claims);
    [apply example_wf| |vm_compute; reflexivity].
  intros v node. unfold example_graph. simpl. rewrite lookup_insert.
  case_decide; [intros [= <-]; reflexivity|].
  intros Hv. apply lookup_singleton_Some in Hv as [_ <-]. reflexivity.
Defined.

Lemma graph_consistency_correct_witness :
  ∃ v before, check_graph_consistency example_graph example_claims = Ok v ∧
    traverse_final_decisions example_graph example_claims = Ok before ∧
    (verdict_admissible v = true ↔
     ∀ i after, i < length example_claims →
       traverse_final_decisions example_graph (delete i example_claims) = Ok after →
       same_decisions (delete i example_claims) before after).
Proof.
  assert (∃ v, check_graph_consistency example_graph example_claims = Ok v) as [v Hv].
  { eexists. vm_compute. reflexivity. }
  destruct (graph_consistency_correct example_graph example_claims v Hv) as (before & Hb).
  exists v, before. split; [exact Hv|exact Hb].
Defined.

Lemma nonvacuity_acyclic_correct_witness :
  ∃ v, check_graph_nonvacuity example_graph example_claims [] = Ok v ∧
  (is_pass v = true ↔
   nodes example_graph ≠ ∅ ∧ ∃ r, traverse example_graph example_claims = Ok r ∧
    (∀ c, c ∈ example_claims → final_decisions r !! gc_claimant_id c = Some Permit ∨
                   final_decisions r !! gc_claimant_id c = Some Deny) ∧
    ∃ c, c ∈ example_claims ∧ final_decisions r !! gc_claimant_id c = Some Permit).
Proof.
  eexists. split; [vm_compute; reflexivity|].
  eapply (nonvacuity_acyclic_correct example_graph example_claims). vm_compute. reflexivity.
Defined.

Lemma genuine_cycle_never_live_witness :
  ∃ v, check_graph_nonvacuity example_cycle example_claims [["approval"; "entry"]] = Ok v ∧
       is_pass v = false.
Proof.
  eexists. split; [vm_compute; reflexivity|].
  eapply (genuine_cycle_never_live example_cycle example_claims ["approval"; "entry"] [] "entry");
    [apply example_walk|set_solver|vm_compute; reflexivity].
Defined.

Lemma genuine_cycle_never_admissible_witness :
  ∃ v, check_cycle_admissibility example_cycle ["approval"; "entry"] example_claims = Ok v ∧
       verdict_admissible v = false.
Proof.
  eexists. split; [vm_compute; reflexivity|].
  eapply (genuine_cycle_never_admissible example_cycle ["approval"; "entry"] example_claims "entry");
    [apply example_walk|set_solver|vm_compute; reflexivity].
Defined.

Lemma all_must_pass_correct_witness :
  evaluate_all_must_pass [ContentMatch "rm" Escalate; ContentMatch "ls" Deny] alice example_claims Permit
  = Ok (all_must_pass_spec [ContentMatch "rm" Escalate; ContentMatch "ls" Deny] [true; false] Permit).
Proof. apply (all_must_pass_correct _ alice example_claims Permit [true; false]). vm_compute. reflexivity. Defined.

Lemma any_must_pass_is_best_witness :
  let gates := [ContentMatch "rm" Deny; ContentMatch "rm" Permit] in
  evaluate_any_must_pass gates alice example_claims Deny = Ok Permit ∧
  ∃ ms, matched_decisions gates alice example_claims = Ok ms ∧
    (ms = [] → Permit = Deny) ∧
    (ms ≠ [] → Permit ∈ ms ∧ ∀ d, d ∈ ms → decision_rank d ≤ decision_rank Permit).
Proof.
  intros gates. split; [vm_compute; reflexivity|].
  apply (any_must_pass_is_best gates alice example_claims Deny Permit). vm_compute. reflexivity.
Defined.

Lemma threshold_monotone_witness :
  decision_rank Deny ≤ decision_rank Permit.
Proof.
  apply (threshold_monotone (f64_of_Z 2) "strength" alice (example_claim "alice" (f64_of_Z 3) "rm")
    f64_one (f64_of_Z 3)); vm_compute; reflexivity.
Defined.

Lemma peer_relative_top_witness :
  evaluate_peer_relative alice example_claims "strength" f64_one = Ok true.
Proof.
  apply (peer_relative_top alice example_claims "strength" f64_one f64_one);
    [apply example_valid|vm_compute; reflexivity|unfold example_claims; left
    |vm_compute; reflexivity|vm_compute; reflexivity|].
  intros c [->|[->|[]%elem_of_nil]%elem_of_cons]%elem_of_cons; exists f64_one; vm_compute; auto.
Defined.

Lemma merge_claim_batches_correct_witness :
  ∃ merged, merge_claim_batches "n" [bob] [alice; bob] = Ok merged ∧
  NoDup (gc_claimant_id <$> merged) ∧
  StronglySorted String.le (gc_claimant_id <$> merged) ∧
  (∀ c, c ∈ merged → c ∈ [bob; alice; bob]) ∧
  (∀ c, c ∈ [bob; alice; bob] →
        ∃ c', c' ∈ merged ∧ gc_claimant_id c' = gc_claimant_id c ∧ claim_eqb c' c = true).
Proof.
  eexists. split; [vm_compute; reflexivity|].
  apply (merge_claim_batches_correct "n" [bob] [alice; bob]); [|vm_compute; reflexivity].
  intros c Hc. apply (valid_claims_ok example_claims); [apply example_valid|].
  unfold example_claims. set_solver.
Defined.

Lemma builder_graph_valid_witness :
  ∃ b g, built b ∧ build b = Ok g ∧ validate_governance_graph g = Ok ().
Proof.
  assert (∃ b, built b ∧ is_Some (b_nodes b !! "entry") ∧ ∃ g, build b = Ok g) as (b & Hb & _ & g & Hg).
  { destruct (add_node (mkBuilder ∅ []) entry_node) as [b1|] eqn:H1; [|vm_compute in H1; discriminate].
    exists b1. split; [eapply built_node; [by apply built_new|exact H1]|].
    vm_compute in H1. injection H1 as <-. split; [eexists; vm_compute; reflexivity|].
    eexists. vm_compute. reflexivity. }
  exists b, g. split; [exact Hb|]. split; [exact Hg|].
  apply (builder_graph_valid b g); assumption.
Defined.

(** A single node that escalates everything, to which the probe of the paradox
    suite appends its review. *)
From S2P Require Import GraphParadox.

Definition escalating_graph : GovernanceGraph := mkGraph {["entry" := entry_node]} [].
Definition uneven_claims : list GovernanceClaim :=
  [example_claim "alice" (f64_of_Z 2) "rm"; example_claim "bob" f64_one "ls"].

Lemma compositional_alabama_exact_witness :
  ∃ r v, traverse escalating_graph uneven_claims = Ok r ∧
    compositional_alabama escalating_graph uneven_claims = Ok (Some v) ∧
    ∃ sink percentile, sink ∈ sink_nodes escalating_graph ∧ percentile ∈ REVIEW_PERCENTILES ∧
      reports_denied_claim escalating_graph uneven_claims r sink percentile v.
Proof.
  destruct (traverse escalating_graph uneven_claims) as [r|] eqn:Hr; [|vm_compute in Hr; discriminate].
  destruct (compositional_alabama escalating_graph uneven_claims) as [[v|]|] eqn:Hv;
    [|vm_compute in Hv; discriminate|vm_compute in Hv; discriminate].
  exists r, v. do 2 (split; [reflexivity|]).
  assert (graph_wf escalating_graph) as Hwf by (apply validate_governance_graph_wf; vm_compute; reflexivity).
  pose proof (compositional_alabama_exact escalating_graph uneven_claims r Hwf Hr) as Hx.
  rewrite Hv in Hx. exact Hx.
Defined.

Lemma path_dependence_never_found_witness :
  path_dependence example_graph example_claims = Ok None ∨
  ∃ e, path_dependence example_graph example_claims = Err e ∧ evaluation_error example_graph example_claims e.
Proof. apply (path_dependence_never_found example_graph example_claims); [apply example_wf|apply example_valid]. Defined.

(** A Rust program whose one hook denies and allows by literal. *)
From S2P Require Import Extract CoreGraph RustHookCore.

Definition guard_hook : RustHookCoreHook :=
  mkHook "guard" "PreToolUse" "Input" "HookResult" [Deny; Allow] [] (Some Ask) [] (mkSpan 1 9).

Definition rust_program : list RustHookCoreFile :=
  [mkFile "hooks.rs" (mkAst "v1" "h" [] [guard_hook]
     [mkRegistration "PreToolUse" "guard" Inventory (mkSpan 10 10)])].

Definition hook_claim (id action : string) : GovernanceClaim :=
  mkGovernanceClaim id f64_one None None (Some action) None {["hook_registration" := f64_one]}.

Definition hook_claims : list GovernanceClaim := [hook_claim "alice" "deny"; hook_claim "bob" "allow"].

Lemma rust_graph_decides_witness :
  ∃ result r, build_graph rust_program = Ok result ∧ traverse (cb_graph result) hook_claims = Ok r ∧
    (∀ c, c ∈ hook_claims → final_decisions r !! gc_claimant_id c = Some (literal_decision rust_program c)) ∧
    literal_decision rust_program (hook_claim "alice" "deny") = GraphNode.Deny.
Proof.
  destruct (build_graph rust_program) as [result|] eqn:Hb; [|vm_compute in Hb; discriminate].
  destruct (rust_graph_decides rust_program result hook_claims) as (r & Ht & Hd); [exact Hb| | | |].
  - intros file ->%list_elem_of_singleton. split; [by vm_compute; intros Hin; set_solver|].
    intros hook ->%list_elem_of_singleton. vm_compute. set_solver.
  - vm_compute. reflexivity.
  - intros c [->|[->|[]%elem_of_nil]%elem_of_cons]%elem_of_cons; eexists; vm_compute; reflexivity.
  - exists result, r. split; [reflexivity|]. split; [exact Ht|]. split; [exact Hd|]. vm_compute. reflexivity.
Defined.

(** A Python program of a decision union and a registered callback. *)
From S2P Require Import PythonHookCore.

Definition python_program : list PythonHookCoreFile :=
  [mkFile "hooks.py" (mkAst "v1" "h" [mkUnion "Decision" ["allow"; "deny"; "other"]] [] []
     [mkCallback "guard" [Deny] None ["guard"; "audit"]] [mkRegistration "PreToolUse" "guard"])
     (mkSpans ∅ ∅ ∅ ∅)].

Lemma python_extraction_exact_witness :
  ∃ result, build_graph python_program = Ok result ∧
    cb_graph result = requested_graph (requests python_program) (core_edge_list python_program) ∧
    core_edge_list python_program = [("hooks.py::registration::PreToolUse::guard", "hooks.py::guard")].
Proof.
  assert (NoDup (f_path <$> python_program)) as Hp by apply NoDup_singleton.
  pose proof (python_extraction_exact python_program Hp) as Hx.
  destruct (build_graph python_program) as [result|] eqn:Hb; [|vm_compute in Hb; discriminate].
  exists result. split; [reflexivity|]. split; [apply Hx|]. vm_compute. reflexivity.
Defined.

(** A TypeScript program of two handlers, the registered one calling the other. *)
From S2P Require Import TypeScriptCore.

Definition typescript_program : list TypeScriptApprovalCoreFile :=
  [mkFile "approve.ts" (mkAst "v1" "h" [] [] [mkPolicy "tools" Allowlist ["read"] (mkSpan 1 1)]
     [mkHandler "guard" false [Deny] None ["audit"] [] (mkSpan 2 4);
      mkHandler "audit" false [Allow] None [] [] (mkSpan 5 7)]
     [mkRegistration "exec" "guard" false (mkSpan 8 8); mkRegistration "log" "audit" false (mkSpan 9 9)])].

Lemma typescript_extraction_exact_witness :
  ∃ result, build_graph typescript_program = Ok result ∧
    cb_graph result = requested_graph (requests typescript_program) (core_edge_list typescript_program) ∧
    core_edge_list typescript_program =
      [("approve.ts::registration::exec::guard", "approve.ts::guard");
       ("approve.ts::registration::log::audit", "approve.ts::audit"); ("approve.ts::guard", "approve.ts::audit")].
Proof.
  assert (policies_nonblank typescript_program) as Hp.
  { intros file policy entry ->%list_elem_of_singleton ->%list_elem_of_singleton ->%list_elem_of_singleton.
    vm_compute. reflexivity. }
  pose proof (typescript_extraction_exact typescript_program Hp) as Hx.
  destruct (build_graph typescript_program) as [result|] eqn:Hb; [|vm_compute in Hb; discriminate].
  exists result. split; [reflexivity|]. split; [apply Hx|]. vm_compute. reflexivity.
Defined.

(** Ratios of 64-bit integers: fractions in lowest terms whose parts, and those
    of the sums on the way to them, fit; an operation that leaves the range has
    no result.  That their quotient is a finite float is tested with the range. *)
From Stdlib Require Import QArith Qreduction.
From S2P Require Import ProtocolData ExactSpectral GraphSpectral GraphAudit.
Open Scope nat_scope.

Definition in_i64 (z : Z) : bool := (- 2 ^ 63 <=? z)%Z && (z <? 2 ^ 63)%Z.

Definition fits_ratio (q : Q) : bool :=
  in_i64 (Qnum q) && in_i64 (Z.pos (Qden q)) && f64_is_finite (f64_div (f64_of_Z (Qnum q)) (f64_of_Z (Z.pos (Qden q)))).

Record ratio := mkRatio { fraction : Q; fraction_fits : fits_ratio fraction = true }.

Definition ratio_of (q : Q) : option ratio :=
  let q := Qred q in
  match Bool.bool_dec (fits_ratio q) true with left p => Some (mkRatio q p) | right _ => None end.

Definition ratio_zero : ratio := mkRatio (Qmake 0 1) eq_refl.

(** Over the least common denominator, as the crate computes it. *)
Definition ratio_sum (op : Z → Z → Z) (a b : ratio) : option ratio :=
  let l := Z.lcm (Z.pos (Qden (fraction a))) (Z.pos (Qden (fraction b))) in
  let x := (Qnum (fraction a) * (l / Z.pos (Qden (fraction a))))%Z in
  let y := (Qnum (fraction b) * (l / Z.pos (Qden (fraction b))))%Z in
  if in_i64 l && in_i64 x && in_i64 y && in_i64 (op x y) then ratio_of (Qmake (op x y) (Z.to_pos l)) else None.

#[local] Instance i64_ratios : RationalOps := {|
  Rational := ratio;
  rat_new n d := if (d =? 0)%Z then None else ratio_of (Qmake (Z.sgn d * n) (Z.to_pos (Z.abs d)));
  rat_of_int n := default ratio_zero (ratio_of (Qmake n 1));
  rat_numer r := Qnum (fraction r);
  rat_denom r := Z.pos (Qden (fraction r));
  rat_add := ratio_sum Z.add;
  rat_sub := ratio_sum Z.sub;
  rat_mul a b := ratio_of (Qmult (fraction a) (fraction b));
  rat_div a b := if Qeq_bool (fraction b) 0 then None else ratio_of (Qdiv (fraction a) (fraction b));
  rat_neg a := ratio_of (Qopp (fraction a));
  rat_eqb a b := Qeq_bool (fraction a) (fraction b);
  rat_ltb a b := negb (Qle_bool (fraction b) (fraction a));
  rat_approximate_float x := if f64_eqb x (f64_lit 1 10) then ratio_of (Qmake 1 10) else None;
|}.

Lemma i64_ratios_finite r : f64_is_finite (ratio_to_f64 r) = true.
Proof. destruct r as [q Hq]. exact (proj2 (proj1 (andb_true_iff _ _) Hq)). Qed.

#[local] Instance i64_ratios_order : RationalOrder i64_ratios.
Proof.
  assert (∀ a b : ratio, rat_ltb a b = false ↔ Qle (fraction b) (fraction a)) as Hle.
  { intros a b. cbn. rewrite negb_false_iff. apply Qle_bool_iff. }
  split.
  - intros a. apply Hle, Qle_refl.
  - intros a b c Hab Hbc. apply not_false_iff_true. rewrite Hle. intros Hca.
    apply not_false_iff_true in Hab. rewrite Hle in Hab. apply not_false_iff_true in Hbc. rewrite Hle in Hbc.
    apply Hbc, Qlt_le_weak. apply (Qle_lt_trans _ (fraction a)); [exact Hca|by apply Qnot_le_lt].
  - intros a b c. rewrite !Hle. intros Hab Hbc. by apply (Qle_trans _ (fraction b)).
  - intros a b. rewrite !Hle. cbn. rewrite Qeq_bool_iff. split.
    + intros Heq. split; rewrite Heq; apply Qle_refl.
    + intros [? ?]. by apply Qle_antisym.
Qed.

(** The greatest integer plus one has no result. *)
Example i64_ratios_overflow : rat_add (rat_of_int (2 ^ 63 - 1)) (rat_of_int 1) = None.
Proof. vm_compute. reflexivity. Qed.

Lemma rg_trajectory_exact_witness :
  ∃ value critical g' signal', rg_trajectory example_graph (probe_signal example_graph) (rat_of_int 1) 5
      = Some (value, critical) ∧ size (nodes g') = 1 ∧ cv g' signal' = Some value.
Proof.
  pose proof (rg_trajectory_exact example_graph (probe_signal example_graph) (rat_of_int 1) 5 i64_ratios_finite) as Hx.
  destruct (rg_trajectory example_graph (probe_signal example_graph) (rat_of_int 1) 5) as [[value critical]|] eqn:Hr;
    [|vm_compute in Hr; discriminate].
  destruct Hx as (g' & signal' & Hn & _ & Hcv & _); [vm_compute; reflexivity|].
  exists value, critical, g', signal'. split; [reflexivity|]. split; [exact Hn|exact Hcv].
Defined.


(** A graph that reads a metric no claim provides. *)
Definition metered_graph : GovernanceGraph :=
  mkGraph {["entry" := Binary "entry" "entry" [ThresholdGate "uptime" f64_one GraphNode.Deny] Permit FirstMatch;
            "review" := Threshold "review" "review" f64_zero "latency"]}
    [mkEdge "entry" "review" PassThrough].

Lemma observed_traces_evaluate_witness :
  let observed := normalize_claims_for_graph metered_graph example_claims ObservedRuntime in
  traverse metered_graph example_claims =
    Err (InvalidGate "uptime" [Txt "claim '"; Txt "alice"; Txt "' does not provide metric '"; Txt "uptime"; Txt "'"]) ∧
  ∃ r, traverse metered_graph observed = Ok r ∧
    ∀ c, c ∈ observed → is_Some (final_decisions r !! gc_claimant_id c).
Proof.
  split; [vm_compute; reflexivity|].
  assert (validate_governance_graph metered_graph = Ok ()) as Hg by (vm_compute; reflexivity).
  apply (observed_traces_evaluate metered_graph example_claims).
  - exact Hg.
  - apply detect_cycles_nil_acyclic; [by apply validate_governance_graph_wf|vm_compute; reflexivity].
  - intros Hemp. apply (f_equal (lookup "entry")) in Hemp. vm_compute in Hemp. discriminate.
  - intros v n Hv. unfold metered_graph in Hv. cbn [nodes] in Hv.
    apply lookup_insert_Some in Hv as [[_ <-]|[_ Hv]]; [done|].
    apply lookup_singleton_Some in Hv as [_ <-]. done.
  - apply example_valid.
Defined.

(** Two runs of the audit: a graph with a cycle, and a graph without one that
    passes every check, so that it is reported to compile and to be measured. *)
Definition open_graph : GovernanceGraph :=
  mkGraph {["entry" := Binary "entry" "entry" [ThresholdGate "strength" f64_zero GraphNode.Escalate] Permit FirstMatch;
            "review" := Threshold "review" "review" f64_zero "strength"]}
    [mkEdge "entry" "review" PassThrough].

Lemma audit_report_exact_witness :
  (∃ r, audit_graph_with_boundary example_cycle example_claims SyntheticStructuralProbe
          BoundaryCausalSafetyAssessment_default = Ok r ∧
    detect_cycles example_cycle = Ok (cf_nodes <$> gr_cycles r) ∧ length (gr_cycles r) = 1) ∧
  ∃ r, audit_graph_with_boundary open_graph example_claims SyntheticStructuralProbe
         BoundaryCausalSafetyAssessment_default = Ok r ∧
    pa_can_extract_compile (gr_protocol_assessment r) = true ∧
    gr_factor_exposure r = mkExposure f64_zero f64_zero f64_zero f64_zero f64_zero ∧
    ∀ u v, is_Some (nodes open_graph !! u) → is_Some (nodes open_graph !! v) → weakly_connected open_graph u v.
Proof.
  split.
  - destruct (audit_graph_with_boundary example_cycle example_claims SyntheticStructuralProbe
         BoundaryCausalSafetyAssessment_default) as [r|e] eqn:Hr; [|vm_compute in Hr; discriminate].
    exists r. split; [reflexivity|].
    destruct (audit_report_exact example_cycle example_claims _ _ r example_cycle_wf example_valid Hr)
      as (Hd & _ & _ & Hc & _).
    split; [exact Hd|].
    assert (detect_cycles example_cycle = Ok [["approval"; "entry"]]) as Hd' by (vm_compute; reflexivity).
    rewrite Hd' in Hd. injection Hd as Hl. apply (f_equal length) in Hl. rewrite length_fmap in Hl. by rewrite <-Hl.
  - assert (match audit_graph_with_boundary open_graph example_claims SyntheticStructuralProbe
              BoundaryCausalSafetyAssessment_default with
            | Ok r => pa_can_extract_compile (gr_protocol_assessment r) && pa_can_measure (gr_protocol_assessment r)
            | Err _ => false end = true) as Hb by (vm_compute; reflexivity).
    destruct (audit_graph_with_boundary open_graph example_claims SyntheticStructuralProbe
         BoundaryCausalSafetyAssessment_default) as [r|e] eqn:Hr; [|discriminate Hb].
    apply andb_true_iff in Hb as [Hcompile Hmeasure]. exists r. split; [reflexivity|].
    destruct (audit_report_exact open_graph example_claims _ _ r
      (validate_governance_graph_wf open_graph ltac:(vm_compute; reflexivity)) example_valid Hr)
      as (_ & _ & _ & Hc & _ & _ & Hm).
    split; [exact Hcompile|]. split; [by apply Hc|]. by apply Hm.
Defined.
