(* ===== verification/ProtocolWitnesses.v ===== *)
(** * Witnesses: the protocol run on a concrete graph

    The example graph is declared, compiled, measured, activated, asked for a
    decision, supervised, and reported drifting, with a concrete hash, hash map
    order and directive parser; the theorems about the protocol are applied to
    the states the run goes through. *)

From S2P Require Import Prelude F64 Errors Core GraphNode Tarjan GraphTraverse TraverseSpec GraphCycle BinaryDiagnostics GraphDiagnostics Observable KernelChecks Synthetic NonVacuity Mechanism Rules RustEq Clock ProtocolData ProtocolState Spectral Compiled LedgerStore Ledger LedgerSpec LedgerVerify LedgerTamper LedgerAudit ProtocolTransitions Supervision ProtocolSafety Witnesses.
From Stdlib Require Import Ascii SpecFloat.
From stdpp Require Import countable options.

#[local] Existing Instance literal_regex.

(** A hash that names the kind of payload and chains the certificates. *)
#[local] Instance example_hash : StableHash := λ payload,
  Some match payload with
       | RulePayload _ _ _ _ => "rule"
       | GraphPayload _ _ => "graph"
       | CertificatePayload c => pc_claimant_id c +:+ "." +:+ default "" (pc_prev_cert_hash c)
       end.

#[local] Instance example_order : HashOrder := {|
  hash_iter V m := map_to_list m;
  hash_iter_perm V m := reflexivity _;
|}.

#[local] Instance example_json : DirectiveJson := λ _, Err [Txt "expected value"].

Definition ok_state (r : PResult ProtocolState) : ProtocolState :=
  match r with Ok s => s | Err _ => Undeclared end.

Definition declared_state : ProtocolState := Eval vm_compute in
  ok_state (declare (Some 0%Z) example_graph []).
Definition compiled_state : ProtocolState := Eval vm_compute in
  ok_state (compile (Some 1%Z) declared_state).
Definition measured_state : ProtocolState := Eval vm_compute in
  ok_state (measure compiled_state [alice]).
Definition example_config : MonitorConfig := mkMonitorConfig 60 120 7.
Definition live_state : ProtocolState := Eval vm_compute in
  ok_state (activate measured_state example_config).
Definition checked_state : ProtocolState := Eval vm_compute in
  ok_state (r ← check_decision (Some 2%Z) live_state bob; Ok r.1).
Definition stopped_state : ProtocolState := Eval vm_compute in
  ok_state (supervise (Some 3%Z) checked_state Stop None).

Lemma declared_reachable : reachable declared_state.
Proof.
  apply (reachable_declare (Some 0%Z) example_graph [] "spectral-governance" CARGO_PKG_VERSION).
  vm_compute. reflexivity.
Qed.

Lemma compiled_reachable : reachable compiled_state.
Proof.
  eapply reachable_step; [apply declared_reachable|]. apply (step_compile (Some 1%Z)).
  vm_compute. reflexivity.
Qed.

Lemma measured_reachable : reachable measured_state.
Proof.
  eapply reachable_step; [apply compiled_reachable|]. apply (step_measure [alice]).
  vm_compute. reflexivity.
Qed.

Lemma live_reachable : reachable live_state.
Proof.
  eapply reachable_step; [apply measured_reachable|]. apply (step_activate example_config).
  vm_compute. reflexivity.
Qed.

Definition example_certificate : PromotionCertificate := Eval vm_compute in
  match ledger_of checked_state with
  | Some l => default (mkPromotionCertificate "" "" Deny false ∅ "" None "") (head (l_certificates l))
  | None => mkPromotionCertificate "" "" Deny false ∅ "" None ""
  end.

Lemma check_decision_run :
  check_decision (Some 2%Z) live_state bob = Ok (checked_state, example_certificate).
Proof. vm_compute. reflexivity. Qed.

Lemma checked_reachable : reachable checked_state.
Proof.
  eapply reachable_step; [apply live_reachable|].
  apply (step_check (Some 2%Z) bob example_certificate), check_decision_run.
Qed.

Lemma stopped_run : supervise (Some 3%Z) checked_state Stop None = Ok stopped_state.
Proof. vm_compute. reflexivity. Qed.

Lemma stopped_reachable : reachable stopped_state.
Proof.
  eapply reachable_step; [apply checked_reachable|].
  apply (step_supervise (Some 3%Z) Stop None), stopped_run.
Qed.

(** A graph whose threshold on the strength can be reached by overstating it. *)
Definition strength_graph : GovernanceGraph :=
  mkGraph {["gate" := Binary "gate" "gate" [ThresholdGate "strength" (f64_of_Z 2) Permit] Deny FirstMatch]} [].

Lemma graph_strategyproofness_correct_witness :
  ∃ v, check_graph_strategyproofness_verdict strength_graph example_claims = Ok v ∧
  v ≠ Strategyproof ∧
  ∃ r, traverse strength_graph example_claims = Ok r ∧
    match v with
    | Strategyproof => ∀ claim factor before after,
        ¬ gains strength_graph example_claims r claim factor before after
    | Manipulable claimant true_strength reported true_alloc manipulated_alloc =>
        ∃ claim factor before after, gains strength_graph example_claims r claim factor before after ∧
          claimant = gc_claimant_id claim ∧ true_strength = gc_strength claim ∧
          reported = f64_mul (gc_strength claim) factor ∧
          true_alloc = f64_of_nat (decision_rank before) ∧
          manipulated_alloc = f64_of_nat (decision_rank after)
    end.
Proof.
  assert (∃ v, check_graph_strategyproofness_verdict strength_graph example_claims = Ok v ∧
            v ≠ Strategyproof) as (v & Hv & Hne).
  { eexists. split; [vm_compute; reflexivity|discriminate]. }
  exists v. split; [exact Hv|]. split; [exact Hne|].
  exact (graph_strategyproofness_correct strength_graph example_claims v Hv).
Defined.

Lemma randomized_interval_in_bounds_witness :
  u64_config example_config ∧
  let '(lo, hi) := interval_bounds example_config in
  (1 ≤ lo ≤ randomized_interval example_config f64_one f64_zero ≤ hi ∧ hi < 2 ^ 64 ∧
   (lo ≠ hi → 0 < hi - lo + 1 < 2 ^ 64))%Z.
Proof.
  assert (u64_config example_config) as Hc by (unfold u64_config; simpl; lia).
  split; [exact Hc|]. exact (randomized_interval_in_bounds example_config f64_one f64_zero Hc).
Defined.

Lemma protocol_ledger_tamper_evident_witness :
  ∃ l, ledger_of checked_state = Some l ∧ l_certificates l = [example_certificate] ∧
  (l_certificates l = l_certificates l ∨
   ∃ c1 c2, c1 ∈ l_certificates l ∧ c2 ∈ l_certificates l ∧ c1 ≠ c2 ∧
     sha256_json (CertificatePayload c1) = sha256_json (CertificatePayload c2)).
Proof.
  eexists. split; [vm_compute; reflexivity|]. split; [vm_compute; reflexivity|].
  apply protocol_ledger_tamper_evident; vm_compute; reflexivity.
Defined.

Lemma reroute_single_entry_witness :
  sound_graph example_graph ∧
  ∃ g', reroute_graph example_graph SupervisoryDirective_default = Ok g' ∧
    (constant_graph g' Deny ∨
     ∃ r, nodes g' !! r = Some (Binary r "supervision-reroute" [] Escalate FirstMatch) ∧
          ∀ v, v ∈ entry_nodes g' ↔ v = r).
Proof.
  assert (sound_graph example_graph) as Hs.
  { split; [apply example_wf|]. split; [apply example_acyclic|apply example_nonempty]. }
  split; [exact Hs|]. eexists. split; [vm_compute; reflexivity|].
  apply (reroute_single_entry example_graph SupervisoryDirective_default);
    [exact Hs|reflexivity|vm_compute; reflexivity].
Defined.

Lemma protocol_no_undeclared_violation_witness :
  ∃ cg d, governed checked_state = Some (cg, d) ∧
  (∀ p, p ∈ sd_property <$> d_sacrifices d ↔
        violated (cg_axiom_verdicts cg) (cg_strategyproofness cg) p) ∧
  verdict_axiom <$> cg_axiom_verdicts cg ≡ₚ REQUIRED_AXIOMS ∧
  d_graph d = cg_graph cg ∧ sound_graph (cg_graph cg).
Proof.
  eexists _, _. split; [reflexivity|].
  apply (protocol_no_undeclared_violation checked_state); [apply checked_reachable|reflexivity].
Defined.

Lemma protocol_steps_follow_diagram_witness :
  (state_name checked_state, state_name stopped_state) ∈ protocol_edges ∧
  validate stopped_state = Ok ().
Proof.
  apply (protocol_steps_follow_diagram checked_state stopped_state).
  apply (step_supervise (Some 3%Z) Stop None), stopped_run.
Defined.

Lemma protocol_ledger_append_only_witness :
  ∃ l, ledger_of checked_state = Some l ∧ validate_ledger l false = Ok () ∧
  ∀ s' l', step checked_state s' → ledger_of s' = Some l' →
    l_certificates l `prefix_of` l_certificates l' ∧ l_drift_alerts l `prefix_of` l_drift_alerts l'.
Proof.
  eexists. split; [reflexivity|].
  apply (protocol_ledger_append_only checked_state); [apply checked_reachable|reflexivity].
Defined.

Definition live_session : MonitorSession := Eval vm_compute in
  match live_state with
  | Live ms _ _ => ms
  | _ => mkMonitorSession (mkCompiledGraph "" "" example_graph [] Strategyproof "" "") [] [] [] 0
           example_config
  end.

Lemma drift_alerts_exact_witness :
  ∃ ev alerts, evaluate_graph (cg_graph (ms_compiled_graph live_session)) example_claims = Ok ev ∧
    detect_drift_alerts live_session example_claims = Ok alerts ∧
    (∀ a, a ∈ alerts → ∃ v, ge_violations ev !! as_str (da_property a) = Some v ∧
       breaches live_session (da_property a) v ∧
       da_declared_bound a = declared_bound live_session (da_property a) ∧
       da_actual_magnitude a = gv_actual_magnitude v) ∧
    (∀ p v, ge_violations ev !! as_str p = Some v → breaches live_session p v →
       ∃ a, a ∈ alerts ∧ da_property a = p).
Proof.
  assert (∃ ev, evaluate_graph (cg_graph (ms_compiled_graph live_session)) example_claims = Ok ev)
    as [ev Hev] by (eexists; vm_compute; reflexivity).
  exists ev. destruct (drift_alerts_exact live_session example_claims ev Hev) as (alerts & H1 & H2).
  exists alerts. split; [exact Hev|]. split; [exact H1|exact H2].
Defined.

Lemma check_decision_records_witness :
  pc_decision example_certificate = Permit ∧
  ∃ ms l d r alerts h ms',
    live_state = Live ms l d ∧
    checked_state = Live ms' (mkLedger (l_certificates l ++ [example_certificate])
                                (l_drift_alerts l ++ alerts) (Some h)) d ∧
    ms_compiled_graph ms' = ms_compiled_graph ms ∧
    bob ∈ ms_representative_claims ms' ∧
    traverse (cg_graph (ms_compiled_graph ms)) (ms_representative_claims ms') = Ok r ∧
    final_decisions r !! gc_claimant_id bob = Some (pc_decision example_certificate) ∧
    pc_claimant_id example_certificate = gc_claimant_id bob ∧
    pc_compiled_rule_hash example_certificate = cg_compiled_rule_hash (ms_compiled_graph ms) ∧
    pc_prev_cert_hash example_certificate = l_head_hash l ∧
    sha256_json (CertificatePayload example_certificate) = Some h ∧
    detect_drift_alerts ms (ms_representative_claims ms') = Ok alerts.
Proof.
  split; [reflexivity|].
  exact (check_decision_records (Some 2%Z) live_state bob checked_state example_certificate
           check_decision_run).
Defined.

Lemma activate_total_witness :
  ∃ ms d, activate measured_state example_config = Ok (Live ms ProtocolLedger_default d) ∧
    ∀ p, p ∈ sc_property <$> ms_sacrifice_certs ms ∨ p ∈ ms_monitored_properties ms.
Proof. apply (activate_total measured_state); [vm_compute; reflexivity|reflexivity]. Defined.

Lemma governing_graph_traversable_witness :
  ∃ g, governing_graph stopped_state = Some g ∧
  ((∃ r, traverse g example_claims = Ok r ∧
      ∀ c, c ∈ example_claims → is_Some (final_decisions r !! gc_claimant_id c)) ∨
   ∃ e, traverse g example_claims = Err e ∧ evaluation_error g example_claims e).
Proof.
  eexists. split; [reflexivity|].
  apply (governing_graph_traversable stopped_state);
    [apply stopped_reachable|reflexivity|apply example_valid].
Defined.

Lemma supervise_constant_witness :
  ∃ g r, governing_graph stopped_state = Some g ∧ traverse g example_claims = Ok r ∧
    ∀ c, c ∈ example_claims → final_decisions r !! gc_claimant_id c = Some Deny.
Proof.
  apply (supervise_constant checked_state (Some 3%Z) Stop None stopped_state example_claims);
    [apply checked_reachable|apply stopped_run|right; right; reflexivity|apply example_valid].
Defined.

Lemma rollback_undoes_every_intervention_witness :
  ∃ iv ms l d, stopped_state = Supervised iv ms l d ∧ iv_postcondition iv = PermanentlyShutdown ∧
  ∃ iv', supervise (Some 4%Z) (Supervised iv ms l d) Rollback None = Ok (Supervised iv' ms l d) ∧
    iv_overlay_graph iv' = d_graph d.
Proof.
  eexists _, _, _, _. split; [reflexivity|]. split; [reflexivity|].
  apply (rollback_undoes_every_intervention _ _ _ _ _ "graph");
    [apply stopped_reachable|reflexivity].
Defined.

(* ------------------------------------------------------------------ *)
(** * Concrete runs of the ledger

    A codec that prints encodings in binary, an environment where nothing
    fails, and a ledger with a recorded certificate: the theorems of the
    ledger applied to them. *)

(* ------------------------------------------------------------------ *)
(** ** A codec *)

Fixpoint bits (p : positive) : string :=
  match p with
  | xH => ""
  | xO p => String "0" (bits p)
  | xI p => String "1" (bits p)
  end.

Fixpoint from_bits (s : string) : positive :=
  match s with
  | EmptyString => xH
  | String c s => if decide (c = "0"%char) then xO (from_bits s) else xI (from_bits s)
  end.

Lemma from_bits_bits p : from_bits (bits p) = p.
Proof. induction p as [p IH|p IH|]; simpl; by rewrite ?IH. Qed.

Global Instance f64_countable : Countable f64.
Proof.
  refine (inj_countable' (λ x, match x with
    | S754_zero s => inl (inl s) | S754_infinity s => inl (inr s)
    | S754_nan => inr (inl ()) | S754_finite s m e => inr (inr (s, m, e)) end)
    (λ x : (bool + bool) + (() + bool * positive * Z), match x with
    | inl (inl s) => S754_zero s | inl (inr s) => S754_infinity s
    | inr (inl _) => S754_nan | inr (inr (s, m, e)) => S754_finite s m e end) _).
  by intros [].
Defined.

Global Instance JsonValue_eq_dec : EqDecision JsonValue.
Proof. solve_decision. Defined.

Global Instance JsonValue_countable : Countable JsonValue.
Proof.
  refine (inj_countable' (λ x, match x with
    | JsonString s => inl (inl s) | JsonBool b => inl (inr b)
    | JsonNumber n => inr (inl n) | JsonNull => inr (inr ()) end)
    (λ x : (string + bool) + (f64 + ()), match x with
    | inl (inl s) => JsonString s | inl (inr b) => JsonBool b
    | inr (inl n) => JsonNumber n | inr (inr _) => JsonNull end) _).
  by intros [].
Defined.

(** A checksum in 64 digits stands for the digest. *)
Fixpoint digits (n : nat) (s : string) : string :=
  match n with
  | O => ""
  | S n => match s with EmptyString => String "0" (digits n "") | String c s => String c (digits n s) end
  end.

Lemma digits_length n s : String.length (digits n s) = n.
Proof. revert s. induction n as [|n IH]; intros s; [done|]. destruct s; simpl; by rewrite IH. Qed.

Fixpoint checksum (acc : N) (s : string) : N :=
  match s with
  | EmptyString => acc
  | String c s => checksum ((acc * 257 + Ascii.N_of_ascii c + 1) mod 2 ^ 127)%N s
  end.

#[export] Instance binary_codec : LedgerCodec := {
  json_object l := String "{" (bits (encode l));
  sha256_hex s := digits 64 (pretty (checksum 7 s));
  verdicts_to_json _ := "[]";
  verdicts_from_json _ := Some [];
  strategyproofness_to_json _ := STRATEGYPROOF_JSON;
  strategyproofness_from_json _ := Some Strategyproof;
  evidence_to_json m := bits (encode m);
  evidence_from_json s := decode (from_bits s);
  monitoring_plan_to_json _ := "[]";
  monitoring_plan_from_json _ := Some [];
  provenance_to_json _ := "{}";
  provenance_from_json _ := None;
}.

#[export] Instance binary_laws : CodecLaws.
Proof.
  split.
  - intros s. apply digits_length.
  - intros l. by eexists.
  - intros l l' _ _ H. injection H as H. apply (f_equal from_bits) in H.
    rewrite !from_bits_bits in H. by apply (inj encode) in H as ->.
Qed.

#[export] Instance binary_digest : DigestLength := codec_digest.

#[export] Instance text_rendering : Rendering := λ _, "text".

(** Nothing fails; the clock stands still; SQLite gives a negative zero back as
    zero. *)
#[export] Instance calm (time : Z) : LedgerEnv := {
  real_column x := match x with S754_zero _ => S754_zero false | x => x end;
  statement_fails _ _ := false;
  create_directory_fails _ := false;
  path_parent _ := None;
  default_ledger_path := Ok "ledger.sqlite3";
  now _ := Some time;
}.

Lemma calm_quiet time : quiet (env := calm time).
Proof. done. Qed.

Definition example_ledger : Ledger := mkLedgerAt "ledger.sqlite3".

Definition example_act : Certificate :=
  mkCertificate "proportional" "v1" "hash" "allocate" "alice" (f64_of_Z 1) {["note" := "fair"]}
    "2024-01-01T00:00:00Z" true.

Definition ledger_with_act : LedgerDb :=
  (record_certificate (env := calm 0) example_ledger example_act empty_ledger).2.

Lemma ledger_with_act_reachable : rtc ledger_step empty_ledger ledger_with_act.
Proof. apply rtc_once. by apply (step_certificate (calm 0)). Qed.

Lemma recorded_certificate_is_audited_first_witness :
  ∃ db' report,
    record_certificate (env := calm 1) example_ledger example_act ledger_with_act = (Ok (), db') ∧
    (audit (env := calm 1) example_ledger (with_limit 2) db').1 = Ok report ∧
    report_certificates report =
      certificate_record example_act :: take 1 (certificates_newest_first (with_limit 2) ledger_with_act).
Proof.
  apply (recorded_certificate_is_audited_first (env := calm 1) example_ledger example_act (with_limit 2)
    ledger_with_act); [|apply calm_quiet|apply ledger_with_act_reachable| |reflexivity..].
  - intros m. simpl. by rewrite from_bits_bits, decode_encode.
  - intros []; vm_compute; repeat constructor.
Defined.

Lemma ledger_append_only_and_verifies_witness :
  (∀ t, table_rows (empty_ledger t) `prefix_of` table_rows (ledger_with_act t)) ∧
  ∀ (env : LedgerEnv) (self : Ledger),
    match (verify_chain self ledger_with_act).1 with
    | Ok r => r = mkVerification true
        ((λ t, valid_table_status t (length (table_rows (ledger_with_act t)))) <$> ledger_tables)
    | Err _ => ¬ quiet
    end.
Proof.
  apply (ledger_append_only_and_verifies empty_ledger ledger_with_act);
    [reflexivity|apply ledger_with_act_reachable].
Defined.

Lemma ledger_with_act_verifies time self : ∃ r d,
  verify_chain (env := calm time) self ledger_with_act = (Ok r, d) ∧ chain_valid r = true.
Proof.
  destruct (ledger_steps_sound _ _ ledger_with_act_reachable empty_ledger_sound) as [Hs _].
  pose proof (sound_verify_chain (env := calm time) self _ Hs) as H.
  destruct (verify_chain self ledger_with_act) as [[r|e] d]; simpl in H; [|destruct H; apply calm_quiet].
  exists r, d. split; [done|by rewrite H].
Qed.

Lemma ledger_heads_commit_to_rows_witness :
  ∃ hd, chain_head (ledger_with_act CertificatesTable) = Some hd ∧
    ∃ d1 d2 : LedgerDb,
    (collision (table_texts "" (table_rows (d1 CertificatesTable))) (table_texts "" (table_rows (d2 CertificatesTable))) ∨
     row_view <$> table_rows (ledger_with_act CertificatesTable) =
     row_view <$> table_rows (ledger_with_act CertificatesTable)).
Proof.
  destruct (ledger_with_act_verifies 0 example_ledger) as (r1 & d1 & H1 & V1).
  destruct (ledger_with_act_verifies 5 (mkLedgerAt "copy.sqlite3")) as (r2 & d2 & H2 & V2).
  eexists. split; [reflexivity|]. exists d1, d2.
  apply (ledger_heads_commit_to_rows (calm 0) (calm 5) example_ledger (mkLedgerAt "copy.sqlite3")
    CertificatesTable _ ledger_with_act d1 ledger_with_act d2 r1 r2 eq_refl eq_refl H1 V1 H2 V2).
Defined.

(** A row rewritten by hand, with its hash blanked and the head removed, is
    re-hashed and anchored afresh by the opening that precedes verification. *)
Definition forged_act : Certificate :=
  mkCertificate "proportional" "v1" "hash" "allocate" "mallory" (f64_of_Z 1) ∅ "2024-01-01T00:00:00Z" true.

Definition forged_ledger : LedgerDb :=
  set_table ledger_with_act CertificatesTable (mkTable [mkRow 1 (certificate_row forged_act) "" ""] None).

Example forged_ledger_accepted :
  (chain_valid <$> (verify_chain (env := calm 9) example_ledger forged_ledger).1) = Ok true.
Proof. vm_compute. reflexivity. Qed.

(** A certificate with the outcome [-0.0] is recorded, but its row is read back
    with [0.0], whose text has another digest: the ledger no longer verifies. *)
Definition zero_act : Certificate :=
  mkCertificate "proportional" "v1" "hash" "allocate" "alice" (S754_zero true) ∅ "2024-01-01T00:00:00Z" true.

Example negative_zero_breaks_chain :
  let recorded := record_certificate (env := calm 0) example_ledger zero_act empty_ledger in
  recorded.1 = Ok () ∧
  (chain_valid <$> (verify_chain (env := calm 1) example_ledger recorded.2).1) = Ok false.
Proof. vm_compute. split; reflexivity. Qed.
