(* ===== verification/CompilerWitnesses.v ===== *)
(** * Concrete runs of the rules and of their axiom checks

    Two claims, an estate of one seat, and the rules of the source applied to
    them. *)

From S2P Require Import Prelude F64 F64Bits Errors Core GraphNode GraphTraverse Observable Mechanism Rules Coalitions RuleDiagnostics PerClaimRules ProtocolData Compiled LedgerStore Ledger LedgerSpec Compiler Sacrifice SacrificeSpec GraphSacrifices Paradox ProtocolWitnesses.
From Stdlib Require Import SpecFloat.
From stdpp Require Import options.

Definition ann : Claim := mkClaim "ann" (f64_of_Z 3) ∅.
Definition ben : Claim := mkClaim "ben" (f64_of_Z 1) ∅.
Definition ann_and_ben : list Claim := [ann; ben].

Definition three_seats : Estate := mkEstate (f64_of_Z 3) "seats".

Lemma ann_and_ben_valid : valid_claims ann_and_ben.
Proof. apply (validate_claims_Ok _ "claims"). vm_compute. reflexivity. Qed.

Lemma evaluate_rule_well_formed_witness :
  ∃ a, evaluate_rule proportional_rule ann_and_ben three_seats "witness" = Ok a ∧
    dom a = list_to_set (claim_id <$> ann_and_ben) ∧
    ∀ id share, a !! id = Some share → f64_is_finite share = true ∧ f64_leb f64_zero share = true.
Proof.
  assert (∃ a, evaluate_rule proportional_rule ann_and_ben three_seats "witness" = Ok a) as [a Ha]
    by (eexists; vm_compute; reflexivity).
  exists a. split; [exact Ha|].
  destruct (evaluate_rule_well_formed _ _ _ _ a Ha) as (_ & Hdom & Hshares & _). split; [exact Hdom|exact Hshares].
Defined.

Lemma divisor_methods_fill_house_witness :
  ∃ seats, highest_averages_allocate ann_and_ben three_seats Jefferson =
      Ok (collect_map (zip (claim_id <$> ann_and_ben) (f64_of_nat <$> seats))) ∧ sum_list seats = 3.
Proof.
  destruct (divisor_methods_fill_house ann_and_ben three_seats Jefferson ann_and_ben_valid ltac:(discriminate))
    as (seats & Hrun & _ & Hsum & _).
  exists seats. split; [exact Hrun|]. rewrite Hsum. vm_compute. reflexivity.
Defined.

Lemma positive_binary_parts_exact_witness :
  ∃ m e, f64_of_Z 3 = S754_finite false m e ∧ binary_parts_of m e (positive_binary_parts (f64_of_Z 3)).
Proof.
  eexists _, _. split; [vm_compute; reflexivity|].
  apply (positive_binary_parts_exact 6755399441055744 (-51)). vm_compute. reflexivity.
Defined.

Lemma proportional_sole_claimant_witness :
  ∃ share, proportional_allocate [mkClaim "ann" (f64_of_Z 3) ∅] three_seats = Ok {["ann" := share]} ∧
    share = estate_total three_seats.
Proof.
  eexists. split; [|vm_compute; reflexivity].
  apply (proportional_sole_claimant "ann" ∅ 6755399441055744 (-51) "seats" 6755399441055744 (-51));
    vm_compute; reflexivity.
Defined.

(** The seats of three claims: one is removed at a time, or two. *)
Lemma consistency_check_exact_witness :
  ∃ v original,
    check_full_consistency jefferson_rule ann_and_ben three_seats FullConsistencyOptions_default = Ok v ∧
    evaluate_rule jefferson_rule ann_and_ben three_seats "consistency baseline" = Ok original.
Proof.
  assert (∃ v, check_full_consistency jefferson_rule ann_and_ben three_seats
    FullConsistencyOptions_default = Ok v) as [v Hv] by (eexists; vm_compute; reflexivity).
  destruct (consistency_check_exact _ _ _ _ v Hv) as (original & Ho & _).
  exists v, original. split; [exact Hv|exact Ho].
Defined.

(** Two claims of strength one and one of a half against an estate of six: the
    composite rule gives nobody a share, so the check finds nothing to reduce
    and admits the rule.  Reduced as the documentation says, by the share of
    the removed "ann", the estate stays six, and the rule moves "ben" from
    nothing to more than five. *)
Definition split_claims : list Claim :=
  [mkClaim "ann" f64_one ∅; mkClaim "ben" f64_one ∅; mkClaim "cat" (f64_lit 1 2) ∅].

Definition six_units : Estate := mkEstate (f64_of_Z 6) "units".

Example documented_reduction_differs :
  match check_full_consistency essay_composite_rule split_claims six_units FullConsistencyOptions_default,
        evaluate_rule essay_composite_rule split_claims six_units "consistency baseline" with
  | Ok (Admissible _ tested), Ok original =>
      tested = 6 ∧ original !! "ben" = Some f64_zero ∧
      match original !! "ann" with
      | Some removed_share =>
          match evaluate_rule essay_composite_rule (reduce_claims split_claims [0])
                  (mkEstate (f64_sub (estate_total six_units) removed_share) "units") "consistency reduction" with
          | Ok reduced => from_option (f64_ltb (f64_of_Z 5)) false (reduced !! "ben") = true
          | Err _ => False
          end
      | None => False
      end
  | _, _ => False
  end.
Proof. vm_compute. repeat split. Qed.

Lemma monotonicity_check_exact_witness :
  ∃ v original,
    check_monotonicity proportional_rule ann_and_ben three_seats [f64_one] false = Ok v ∧
    evaluate_rule proportional_rule ann_and_ben three_seats "monotonicity baseline" = Ok original.
Proof.
  assert (∃ v, check_monotonicity proportional_rule ann_and_ben three_seats [f64_one] false = Ok v)
    as [v Hv] by (eexists; vm_compute; reflexivity).
  destruct (monotonicity_check_exact _ _ _ _ _ v Hv) as (original & Ho & _).
  exists v, original. split; [exact Hv|exact Ho].
Defined.

(* ------------------------------------------------------------------ *)
(** * Concrete compilations

    The proportional rule, the permissions rule and a small graph compiled
    against the ledger of ProtocolWitnesses, and a certificate issued for the
    permissions rule. *)

#[local] Instance literal_regex : RegexEngine := {|
  Regex := string;
  Regex_new p := if is_blank p then None else Some p;
  is_match r s := bool_decide (s = r);
|}.

#[local] Instance fixed_hash : RuleHash := λ _, Ok "hash".

(** A run whose result is known to be there. *)
Definition succeeds {A} (r : LResult A) : bool := match r with Ok _ => true | Err _ => false end.

Lemma run_succeeds {A} (m : LedgerM A) db : succeeds (m db).1 = true → ∃ a d, m db = (Ok a, d).
Proof. destruct (m db) as [[a|e] d]; [eauto|done]. Qed.

Definition small_claims : list Claim :=
  [mkClaim "ann" (f64_of_Z 3) {["capability_match" := f64_one]}; mkClaim "ben" (f64_of_Z 1) ∅].
Definition small_estate : Estate := mkEstate (f64_of_Z 4) "units".
Definition small_family : Family := mkFamily true [f64_lit 1 2] [f64_one] false.

Lemma small_metrics : Forall representable_metrics small_claims.
Proof.
  apply Forall_cons. split.
  - intros name value. cbn [claim_metrics]. rewrite lookup_singleton_Some. by intros [_ <-].
  - apply Forall_cons. split; [|apply Forall_nil; exact I]. intros name value. cbn [claim_metrics]. by rewrite lookup_empty.
Qed.

Lemma compiled_rule_recorded_and_exact_witness :
  ∃ compiled db',
    compile_with_options (env := calm 7) proportional_rule small_claims small_estate
      (default_claimants proportional_rule small_claims) small_family CompileOptions_default ledger_with_act =
      (Ok compiled, db') ∧
    row_recorded CompiledRulesTable (compiled_rule_row compiled) ledger_with_act db'.
Proof.
  destruct (run_succeeds (compile_with_options (env := calm 7) proportional_rule small_claims small_estate
    (default_claimants proportional_rule small_claims) small_family CompileOptions_default) ledger_with_act)
    as (compiled & db' & Hrun); [vm_compute; reflexivity|].
  exists compiled, db'. split; [exact Hrun|].
  destruct (compiled_rule_recorded_and_exact _ _ _ _ _ _ _ _ _ ledger_with_act_reachable Hrun)
    as (_ & _ & _ & _ & Hrow). exact Hrow.
Defined.

Lemma permissions_rule_always_admissible_witness :
  ∃ compiled db',
    compile_with_options (env := calm 7) claude_agent_sdk_permissions_rule small_claims small_estate
      (default_claimants claude_agent_sdk_permissions_rule small_claims) small_family CompileOptions_default
      empty_ledger = (Ok compiled, db') ∧
    CompiledRule_is_admissible compiled = true.
Proof.
  destruct (run_succeeds (compile_with_options (env := calm 7) claude_agent_sdk_permissions_rule small_claims
    small_estate (default_claimants claude_agent_sdk_permissions_rule small_claims) small_family
    CompileOptions_default) empty_ledger) as (compiled & db' & Hrun); [vm_compute; reflexivity|].
  exists compiled, db'. split; [exact Hrun|].
  apply (permissions_rule_always_admissible _ _ _ _ _ _ _ _ small_metrics Hrun).
Defined.

(** The compiled permissions rule, as an admissible record. *)
Definition admissible_permissions : CompiledRule :=
  mkCompiledRule "claude-agent-sdk-permissions" "1.0.0" [Admissible "solidarity" 1] Strategyproof "family" "0".

Definition certification : CertificationContext :=
  mkCertificationContext admissible_permissions claude_agent_sdk_permissions_rule small_claims small_estate.

Lemma certificate_sound_witness :
  ∃ cert db',
    certify (env := calm 7) certification "act" "ben" f64_zero ∅ ledger_with_act = (Ok cert, db') ∧
    row_recorded CertificatesTable (stored_columns (env := calm 7) (certificate_row cert)) ledger_with_act db'.
Proof.
  destruct (run_succeeds (certify (env := calm 7) certification "act" "ben" f64_zero ∅) ledger_with_act)
    as (cert & db' & Hrun); [vm_compute; reflexivity|].
  exists cert, db'. split; [exact Hrun|].
  destruct (certificate_sound _ _ _ _ _ _ _ _ ledger_with_act_reachable Hrun)
    as (_ & _ & _ & _ & _ & _ & _ & _ & _ & Hrow). exact Hrow.
Defined.

Lemma rule_sacrifices_complete_witness :
  ∃ cert db' compiled,
    compile_with_sacrifices (H := SacrificeCompileTarget_Rule (env := calm 7)) proportional_rule small_claims
      small_estate ledger_with_act = (Ok cert, db') ∧
    dc_compiled cert = GovernedRule compiled ∧
    (dc_sacrifices cert = [] ↔ CompiledRule_is_admissible compiled = true).
Proof.
  destruct (run_succeeds (compile_with_sacrifices (H := SacrificeCompileTarget_Rule (env := calm 7))
    proportional_rule small_claims small_estate) ledger_with_act) as (cert & db' & Hrun); [vm_compute; reflexivity|].
  destruct (rule_sacrifices_complete proportional_rule small_claims small_estate ledger_with_act cert db'
    ledger_with_act_reachable Hrun) as (compiled & db1 & ts & Hc & Hadm & _).
  exists cert, db', compiled. split; [exact Hrun|]. split; [exact Hc|exact Hadm].
Defined.

Definition deny_graph : GovernanceGraph :=
  mkGraph {["gate" := Binary "gate" "gate" [] Deny FirstMatch]} [].
Definition deny_claims : list GovernanceClaim :=
  [mkGovernanceClaim "ann" f64_one None None None None ∅].

(** A graph that denies everything is vacuous: the sacrifice is unmonitored. *)
Lemma graph_sacrifices_complete_witness :
  ∃ cert db' compiled,
    compile_with_sacrifices (H := SacrificeCompileTarget_GovernanceGraph (env := calm 7)) deny_graph deny_claims
      small_estate ledger_with_act = (Ok cert, db') ∧
    dc_compiled cert = GovernedGraph compiled ∧
    (dc_sacrifices cert = [] ↔ GraphCompilation_is_admissible compiled = true).
Proof.
  destruct (run_succeeds (compile_with_sacrifices (H := SacrificeCompileTarget_GovernanceGraph (env := calm 7))
    deny_graph deny_claims small_estate) ledger_with_act) as (cert & db' & Hrun); [vm_compute; reflexivity|].
  destruct (graph_sacrifices_complete deny_graph deny_claims small_estate ledger_with_act cert db' Hrun)
    as (compiled & Hc & Hadm & _).
  exists cert, db', compiled. split; [exact Hrun|]. split; [exact Hc|exact Hadm].
Defined.

Example deny_graph_unmonitored :
  ((λ cert, (λ s, (cs_sacrificed_property s, cs_impact_bound s, cs_monitoring_plan s)) <$> dc_sacrifices cert)
     <$> (compile_with_sacrifices (H := SacrificeCompileTarget_GovernanceGraph (env := calm 7)) deny_graph
            deny_claims small_estate empty_ledger).1) =
  Ok [(ProtocolData.NonVacuous, f64_zero, [])].
Proof. vm_compute. reflexivity. Qed.

Lemma paradox_suite_exact_witness :
  ∃ violations db' original entrants,
    run_paradox_suite (env := calm 7) jefferson_rule small_claims small_estate [] empty_ledger = (Ok violations, db') ∧
    evaluate_rule jefferson_rule small_claims small_estate "paradox suite baseline" = Ok original ∧
    entrant_candidates small_claims [] = Ok entrants.
Proof.
  destruct (run_succeeds (run_paradox_suite (env := calm 7) jefferson_rule small_claims small_estate []) empty_ledger)
    as (violations & db' & Hrun); [vm_compute; reflexivity|].
  destruct (paradox_suite_exact _ _ _ _ _ _ _ Hrun) as (original & entrants & Ho & He & _).
  exists violations, db', original, entrants. split; [exact Hrun|]. split; [exact Ho|exact He].
Defined.

(** A claimant called like another's clone makes the whole suite fail. *)
Example clone_name_collision :
  (run_paradox_suite (env := calm 7) proportional_rule
     [mkClaim "ann" f64_one ∅; mkClaim "ann_clone" f64_one ∅] small_estate [] empty_ledger).1 =
  Err (DuplicateClaimantId "ann_clone").
Proof. vm_compute. reflexivity. Qed.
