(* ===== verification/TrajectoryWitnesses.v ===== *)
(** * Witnesses of the trajectory theorems

    A JSON printer and reader, a digest, a serializer and a signature scheme
    that satisfy the laws the theorems assume of these crates, and a small
    trace of three events at which their hypotheses hold. *)

From S2P Require Import Prelude Encoding Trajectory F64 Errors JsonScan JsonScanSpec TraceValidation TraceCanonical TraceValidationSpec TraceBudgetSpec TraceSpec WireJson Replay ReplayAuthority ReplaySpec AuthoritySpec Core GraphNode GraphTraverse PolicyGraph Composition CodexEvent CodexFraming CodexStream CodexStreamSpec CodexMapping CodexMappingSpec CodexReceipt CodexReceiptSpec CodexBundle.
From Stdlib Require Import Ascii.
From stdpp Require Import countable options.

(* ------------------------------------------------------------------ *)
(** ** JSON text: padding, then the bits of the document's code *)

Abbreviation Leaf := ((bool + Z) + string)%type.

(** Documents as labelled trees; floats and broken documents are not coded. *)
Fixpoint tree_of (n : JsonNode) : gen_tree Leaf :=
  match n with
  | JNull => GenNode 0 []
  | JBool b => GenLeaf (inl (inl b))
  | JInteger z => GenLeaf (inl (inr z))
  | JString s => GenLeaf (inr s)
  | JArray items _ => GenNode 1 (tree_of <$> items)
  | JObject entries _ => GenNode 2 ((λ kv, GenNode 3 [GenLeaf (inr kv.1); tree_of kv.2]) <$> entries)
  | JNumber _ | JBroken => GenNode 4 []
  end.

Fixpoint node_of (t : gen_tree Leaf) : JsonNode :=
  match t with
  | GenLeaf (inl (inl b)) => JBool b
  | GenLeaf (inl (inr z)) => JInteger z
  | GenLeaf (inr s) => JString s
  | GenNode 0 _ => JNull
  | GenNode 1 ts => JArray (node_of <$> ts) true
  | GenNode 2 ts =>
      JObject ((λ t, match t with
                     | GenNode _ [GenLeaf (inr k); v] => (k, node_of v)
                     | _ => ("", JBroken)
                     end) <$> ts) RClosed
  | GenNode _ _ => JBroken
  end.

Lemma node_of_tree n : complete n = true → exact n = true → node_of (tree_of n) = n.
Proof.
  induction n as [|b|z|x|s| |items closed IH|entries rest IH] using JsonNode_nested_ind; try done.
  - intros [Hcl Hc]%andb_true_iff He. destruct closed; [|done]. cbn. f_equal.
    rewrite <-list_fmap_compose. rewrite <-(list_fmap_id items) at 2. apply list_fmap_ext.
    intros i n Hn. cbn.
    apply forallb_Forall_true in Hc, He. rewrite Forall_lookup in IH, Hc, He.
    exact (IH i n Hn (Hc i n Hn) (He i n Hn)).
  - intros [[Hr _]%andb_true_iff Hc]%andb_true_iff He. destruct rest; [|done..]. cbn. f_equal.
    rewrite <-list_fmap_compose. rewrite <-(list_fmap_id entries) at 2. apply list_fmap_ext.
    intros i [k n] Hn. cbn. f_equal.
    apply forallb_Forall_true in Hc, He. rewrite Forall_lookup in IH, Hc, He.
    exact (IH i (k, n) Hn (Hc i (k, n) Hn) (He i (k, n) Hn)).
Qed.

Fixpoint bits (p : positive) : string :=
  match p with
  | xH => ""
  | xO p => String "0" (bits p)
  | xI p => String "1" (bits p)
  end.

Fixpoint unbits (s : string) : positive :=
  match s with
  | EmptyString => xH
  | String "1" s => xI (unbits s)
  | String _ s => xO (unbits s)
  end.

Lemma unbits_bits p : unbits (bits p) = p.
Proof. induction p as [p IH|p IH|]; simpl; congruence. Qed.

Fixpoint padding (n : nat) : string := match n with O => "" | S n => String "p" (padding n) end.
Fixpoint unpad (s : string) : string := match s with String "p" s => unpad s | _ => s end.

Lemma unpad_padding n p : unpad (padding n +:+ bits p) = bits p.
Proof. induction n as [|n IH]; [by destruct p|]. cbn [padding]. rewrite string_app_cons. exact IH. Qed.

#[local] Instance toy_text : JsonText := λ n,
  padding (Z.to_nat (string_bytes n)) +:+ bits (encode (tree_of n)).
#[local] Instance toy_stream : JsonStream := λ s,
  match decode (unbits (unpad s)) with
  | Some t => mkDocument (node_of t) true
  | None => mkDocument JBroken false
  end.

Lemma padding_length n : String.length (padding n) = n.
Proof. induction n as [|n IH]; simpl; congruence. Qed.

Lemma bytes_toy n p c : c ∈ bytes_of (padding n +:+ bits p) → c ∈ ["p"; "0"; "1"]%char.
Proof.
  rewrite bytes_of_app, elem_of_app. intros [Hc|Hc].
  - induction n as [|n IH]; [by apply not_elem_of_nil in Hc|].
    change (bytes_of (padding (S n))) with ("p"%char :: bytes_of (padding n)) in Hc. set_solver.
  - induction p as [p IH|p IH|]; [..|by apply not_elem_of_nil in Hc].
    + change (bytes_of (bits p~1)) with ("1"%char :: bytes_of (bits p)) in Hc. set_solver.
    + change (bytes_of (bits p~0)) with ("0"%char :: bytes_of (bits p)) in Hc. set_solver.
Qed.

#[local] Instance toy_laws : JsonLaws.
Proof.
  split.
  - intros n Hc He _. unfold json_stream, toy_stream, json_text, toy_text.
    rewrite unpad_padding, unbits_bits, decode_encode. by rewrite node_of_tree.
  - intros n. unfold json_text, toy_text. split; intros Hc%bytes_toy; by vm_compute in Hc; set_solver.
  - intros n. unfold json_text, toy_text, byte_len. rewrite string_app_length, padding_length.
    pose proof (usage_nonneg n). lia.
Qed.

(* ------------------------------------------------------------------ *)
(** ** A digest and a serializer *)

Definition checksum (s : string) : Z :=
  foldl (λ h c, (h * 257 + Z.of_nat (nat_of_ascii c) + 1) mod 4294967296)%Z 0%Z (bytes_of s).

Definition zeros : string := "00000000000000000000000000000000000000000000000000000000".
#[local] Instance toy_sha : Sha256 := λ s, zeros +:+ put_all hex_pair (bytes_of (be_bytes 4 (checksum s))).

Lemma hex_pairs_lower l : forallb lower_hex (bytes_of (put_all hex_pair l)) = true.
Proof.
  induction l as [|c l IH]; [done|]. rewrite put_all_cons, bytes_of_app, forallb_app, IH, andb_true_r.
  by destruct c as [[] [] [] [] [] [] [] []].
Qed.

#[local] Instance toy_sha_laws : Sha256Laws.
Proof.
  split; intros s; unfold sha256_lower_hex, toy_sha.
  - by rewrite string_app_length, pairs_length, be_bytes_length.
  - change (String.list_ascii_of_string ?t) with (bytes_of t).
    rewrite bytes_of_app, forallb_app, andb_true_iff. split; [done|apply hex_pairs_lower].
Qed.

#[local] Instance toy_serializer : TraceSerializer := λ _, (["{}"], true).

(* ------------------------------------------------------------------ *)
(** ** A trace of three events *)

Definition toy_schema : string := "schema".
Definition toy_record : string := json_text (JObject [] RClosed).
Definition toy_records : list string := [toy_record; toy_record; toy_record].
Definition toy_adapter : ArtifactBindingV0 := mkBinding "adapter" "0" (artifact_digest_v0 "adapter").

(** Everything cites the first byte of the record. *)
Definition toy_cites (index : nat) : EvidenceV0 :=
  CitesRawRange (mkLocator (u64_lit (Z.of_nat index)) (u64_lit 0) (u64_lit 1)
    (source_locator_digest_v0 (String.substring 0 1 toy_record))).

Definition toy_event (index : nat) : AgentActionEventV0 :=
  mkEvent (mkEvidenced (Some ("event:" +:+ show_nat index)) (toy_cites index))
    (mkEvidenced (Some (u64_lit (Z.of_nat index))) (toy_cites index))
    (mkEvidenced (Some ActionRequest) (toy_cites index)) None
    (mkRawRef (u64_lit (Z.of_nat index)) (raw_record_digest_v0 toy_record))
    {["amount" := mkEvidenced (Some (VArray [VInteger "42"; VNull])) (toy_cites index)]}.

Definition toy_trace : TrajectoryTraceV0 :=
  mkTrace (trajectory_schema_binding_v0 toy_schema)
    (mkEvidenced (Some "run") (toy_cites 0)) toy_adapter policy_binding
    (raw_capture_seal_v0 toy_records) [toy_event 0; toy_event 1; toy_event 2].

Definition toy_declarations : TrajectoryValidationContextV0 :=
  mkDeclarations toy_adapter policy_binding (raw_capture_seal_v0 toy_records) ∅.

Example toy_trace_valid : validate_trace toy_schema toy_trace toy_records toy_declarations = Ok ().
Proof. by vm_compute. Qed.

Lemma toy_trace_fits : fits (canonical_bytes toy_trace).
Proof. by vm_compute. Qed.

(** The candidate of the trace. *)
Definition toy_candidate : TrajectoryReplayCandidateV0 :=
  default (mkCandidate "" "" toy_adapter toy_adapter toy_adapter (raw_capture_seal_v0 []) "" (u64_lit 0) "" [] "")
    (trajectory_replay_candidate_v0 toy_trace).

Lemma toy_candidate_replays : trajectory_replay_candidate_v0 toy_trace = Some toy_candidate.
Proof.
  assert (match trajectory_replay_candidate_v0 toy_trace with Some _ => true | None => false end = true) as He
    by (vm_compute; reflexivity).
  unfold toy_candidate. by destruct (trajectory_replay_candidate_v0 toy_trace).
Qed.

Lemma json_scan_exact_witness :
  scan_json_with_limits (json_text (JObject [("key", JArray [JNull] true)] RClosed)) REPLAY_SCAN_LIMITS =
    Ok RootObject ∧
  scan_json_with_limits (json_text (JObject [("key", JNull); ("key", JNull)] RClosed)) REPLAY_SCAN_LIMITS =
    Err InvalidError.
Proof.
  split.
  - apply json_scan_exact. unfold complete_document, document_in_budget, in_budget, room.
    split_and!; vm_compute; first [reflexivity|discriminate].
  - apply json_scan_exact.
    + intros [Hc _]. vm_compute in Hc. discriminate.
    + unfold document_in_budget, in_budget, room. split_and!; vm_compute; first [reflexivity|discriminate].
Defined.

Lemma trajectory_digest_commits_witness : toy_trace = toy_trace ∨ collides [trace_input toy_trace] [trace_input toy_trace].
Proof.
  apply (trajectory_digest_commits toy_schema toy_trace toy_trace toy_records toy_records
    toy_declarations toy_declarations).
  - exact toy_trace_valid.
  - exact toy_trace_valid.
  - exact toy_trace_fits.
  - exact toy_trace_fits.
  - reflexivity.
Defined.

Lemma replay_head_commits_witness : (toy_trace = toy_trace ∧ toy_candidate = toy_candidate) ∨
  collides (replay_inputs toy_trace toy_candidate) (replay_inputs toy_trace toy_candidate).
Proof.
  apply (replay_head_commits toy_schema toy_trace toy_trace toy_records toy_records
    toy_declarations toy_declarations).
  - exact toy_trace_valid.
  - exact toy_trace_valid.
  - exact toy_trace_fits.
  - exact toy_trace_fits.
  - exact toy_candidate_replays.
  - exact toy_candidate_replays.
  - reflexivity.
Defined.

Lemma replay_candidate_roundtrip_witness :
  ∃ c, trajectory_replay_candidate_v0 toy_trace = Some c ∧ well_formed_candidate c ∧
    match candidate_to_json_line c with
    | Ok line => candidate_from_json_slice line = Ok c
    | Err e => e = InputTooLarge ∧
        (MAX_TRAJECTORY_REPLAY_BYTES_V0 ≤ byte_len (json_text (candidate_node c)))%Z
    end ∧
    ∀ line c', candidate_from_json_slice line = Ok c' → well_formed_candidate c'.
Proof. exact (replay_candidate_roundtrip toy_schema toy_trace toy_records toy_declarations toy_trace_valid). Defined.

(* ------------------------------------------------------------------ *)
(** ** Signatures *)

(** A scheme without secrets: a signature is the digest of the message. *)
Definition digest_signatures : Ed25519 := {|
  SigningKey := unit;
  VerifyingKey := unit;
  signing_key_from_bytes _ := ();
  verifying_key _ := ();
  verifying_key_bytes _ := be_bytes 32 0;
  verifying_key_from_bytes _ := Some ();
  sign _ message := sha256_lower_hex message;
  verify_strict _ message signature := String.eqb signature (sha256_lower_hex message);
|}.

Lemma digest_signatures_laws : @Ed25519Laws digest_signatures.
Proof.
  split.
  - intros k m. unfold byte_len. change (sign k m) with (sha256_lower_hex m). by rewrite sha256_length.
  - done.
  - intros k. exact (match k : unit with () => eq_refl end).
  - intros k m. apply String.eqb_refl.
Qed.

Lemma issued_receipt_verifies_witness :
  ∃ c r, trajectory_replay_candidate_v0 toy_trace = Some c ∧
    @issue_trajectory_replay_authority_receipt_v0 _ digest_signatures toy_trace () "issuer" "key" (u64_lit 1)
      = Some (Ok r) ∧
    match receipt_to_json_line r with
    | Ok line =>
        ∃ unverified, receipt_from_json_slice line = Ok unverified ∧
          @verify_replay_authority_receipt_v0 digest_signatures unverified
            (@mkTrustPolicy digest_signatures "issuer" REPLAY_AUTHORITY_ALGORITHM_ED25519_V0 "key" (u64_lit 1) ()) = Ok r
    | Err e => e = AInputTooLarge
    end ∧
    verify_trajectory_replay_v0 toy_trace c r =
      Some (Ok (mkVerified TRAJECTORY_REPLAY_VERIFICATION_FORMAT_V0 TRAJECTORY_REPLAY_VERIFICATION_VERSION_V0 c r)).
Proof.
  apply (@issued_receipt_verifies _ _ digest_signatures _ _ toy_schema _ _ digest_signatures_laws
    toy_trace toy_records toy_declarations () "issuer" "key" (u64_lit 1)).
  - exact toy_trace_valid.
  - vm_compute. reflexivity.
Defined.

(** The authority's only receipt, for the trace, and a scheme in which nothing
    but its message can be signed. *)
Definition toy_unsigned : SignedReplayAuthorityReceiptV0 :=
  mkReceipt TRAJECTORY_REPLAY_AUTHORITY_RECEIPT_FORMAT_V0 TRAJECTORY_REPLAY_AUTHORITY_RECEIPT_VERSION_V0
    "issuer" REPLAY_AUTHORITY_ALGORITHM_ED25519_V0 "key" (u64_lit 1) (from_replay_candidate toy_candidate) "".

Definition one_message : Ed25519 := {|
  SigningKey := unit;
  VerifyingKey := unit;
  signing_key_from_bytes _ := ();
  verifying_key _ := ();
  verifying_key_bytes _ := be_bytes 32 0;
  verifying_key_from_bytes _ := Some ();
  sign _ message := sha256_lower_hex message;
  verify_strict _ message signature :=
    String.eqb message (receipt_message toy_unsigned) && String.eqb signature (sha256_lower_hex message);
|}.

Definition toy_receipt : SignedReplayAuthorityReceiptV0 :=
  mkReceipt TRAJECTORY_REPLAY_AUTHORITY_RECEIPT_FORMAT_V0 TRAJECTORY_REPLAY_AUTHORITY_RECEIPT_VERSION_V0
    "issuer" REPLAY_AUTHORITY_ALGORITHM_ED25519_V0 "key" (u64_lit 1) (from_replay_candidate toy_candidate)
    (encode_prefixed_hex (sha256_lower_hex (receipt_message toy_unsigned))).

Definition toy_unverified : UnverifiedReplayAuthorityReceiptV0 :=
  mkUnverified toy_receipt (sha256_lower_hex (receipt_message toy_unsigned)).

Definition toy_policy : @ReplayAuthorityTrustPolicyV0 one_message :=
  @mkTrustPolicy one_message "issuer" REPLAY_AUTHORITY_ALGORITHM_ED25519_V0 "key" (u64_lit 1) ().

Definition toy_issuance : Issuance := mkIssuance toy_trace "issuer" "key" (u64_lit 1).

Lemma is_ok_exists {E A} (r : Result E A) : is_ok r = true → ∃ a, r = Ok a.
Proof. destruct r as [a|]; [by exists a|done]. Qed.

Lemma toy_line_reads : ∃ line, receipt_from_json_slice line = Ok toy_unverified.
Proof.
  assert (try_into_unverified toy_receipt = Ok toy_unverified) as Hu by (vm_compute; reflexivity).
  assert (is_ok (receipt_to_json_line toy_receipt) = true) as Hl by (vm_compute; reflexivity).
  apply is_ok_exists in Hl as [line Hl]. exists line. by apply (receipt_line_reads_back toy_receipt).
Qed.

Lemma toy_issued : @made_for _ one_message () toy_issuance toy_receipt.
Proof.
  unfold made_for, issue_trajectory_replay_authority_receipt_v0.
  change (iss_trace toy_issuance) with toy_trace. rewrite toy_candidate_replays.
  assert (validate_request (iss_issuer toy_issuance) (iss_key_id toy_issuance) (iss_epoch toy_issuance) = Ok ())
    as -> by (vm_compute; reflexivity).
  reflexivity.
Qed.

Lemma verified_replay_was_issued_witness :
  (∃ i, i ∈ [toy_issuance] ∧ iss_trace i = toy_trace ∧ iss_issuer i = "issuer" ∧
     iss_key_id i = "key" ∧ iss_epoch i = u64_lit 1) ∨
  (∃ i c ci, i ∈ [toy_issuance] ∧ trajectory_replay_candidate_v0 toy_trace = Some c ∧
     trajectory_replay_candidate_v0 (iss_trace i) = Some ci ∧ tc_final_head c = tc_final_head ci ∧
     collides (replay_inputs toy_trace c) (replay_inputs (iss_trace i) ci)).
Proof.
  destruct toy_line_reads as [line Hline].
  apply (@verified_replay_was_issued _ _ one_message _ _ toy_schema [toy_issuance] () toy_policy
    line toy_unverified toy_receipt toy_trace toy_records toy_declarations toy_candidate
    (mkVerified TRAJECTORY_REPLAY_VERIFICATION_FORMAT_V0 TRAJECTORY_REPLAY_VERIFICATION_VERSION_V0
       toy_candidate toy_receipt)).
  - apply Forall_singleton. split; [exact toy_trace_fits|]. exists toy_records, toy_declarations. exact toy_trace_valid.
  - intros message signature [Hm%String.eqb_eq _]%andb_true_iff. exists toy_issuance, toy_receipt.
    split; [by left|]. split; [exact toy_issued|exact Hm].
  - exact Hline.
  - vm_compute. reflexivity.
  - exact toy_trace_valid.
  - exact toy_trace_fits.
  - unfold verify_trajectory_replay_v0. rewrite toy_candidate_replays. cbn [mbind option_bind].
    rewrite !bool_decide_true by reflexivity. reflexivity.
Defined.

(* ------------------------------------------------------------------ *)
(** ** Composition *)

#[local] Instance toy_regex : RegexEngine := {|
  Regex := string;
  Regex_new := Some;
  is_match pattern text := String.eqb pattern text;
|}.

#[local] Instance toy_toml : CompositionToml := λ input,
  if String.eqb input TRAJECTORY_COMPOSITION_POLICY_BYTES_V0 then Some peer_half_envelope else None.

Lemma composition_classifies_witness :
  ∃ result,
    evaluate_replay_bound_composition_v0 toy_trace
      (mkVerified TRAJECTORY_REPLAY_VERIFICATION_FORMAT_V0 TRAJECTORY_REPLAY_VERIFICATION_VERSION_V0
         toy_candidate toy_receipt) TRAJECTORY_COMPOSITION_POLICY_BYTES_V0 = Some (Ok result) ∧
    cr_trajectory_digest result = trajectory_digest toy_trace ∧
    cr_replay_final_head result = tc_final_head toy_candidate ∧
    length (cr_event_receipts result) = 3 ∧
    (∀ i e, tt_events toy_trace !! i = Some e → ∃ receipt, cr_event_receipts result !! i = Some receipt ∧
       permitted_occurrence i e receipt) ∧
    outcome (tt_events toy_trace) (cr_temporal result).
Proof.
  apply (composition_classifies toy_schema toy_trace toy_records toy_declarations toy_candidate).
  - exact toy_trace_valid.
  - exact toy_candidate_replays.
  - reflexivity.
  - reflexivity.
  - vm_compute. reflexivity.
Defined.

(* ------------------------------------------------------------------ *)
(** ** Graph policies *)

Lemma graph_policy_exact_witness :
  declared (pe_graph peer_half_envelope) ∧
  compiles "policy.toml" (pe_graph peer_half_envelope) peer_half_graph ∧
  validate_governance_graph peer_half_graph = Ok ().
Proof.
  destruct (graph_policy_exact "policy.toml" (pe_graph peer_half_envelope) peer_half_graph) as [Hiff Hvalid].
  destruct (proj1 Hiff (try_into_peer_half "policy.toml")) as [Hd Hc].
  split; [exact Hd|]. split; [exact Hc|]. exact (Hvalid (try_into_peer_half "policy.toml")).
Defined.

(* ------------------------------------------------------------------ *)
(** * Witnesses of the Codex theorems

    A run of a thread, a turn and a command, framed, adapted with a fixture
    receipt and committed to, with the toy crates of the trajectory witnesses. *)

#[local] Existing Instance toy_text.
#[local] Existing Instance toy_stream.
#[local] Existing Instance toy_laws.
#[local] Existing Instance toy_sha.
#[local] Existing Instance toy_sha_laws.
#[local] Existing Instance toy_serializer.

#[local] Instance toy_sources : CompiledSources := {|
  ADAPTER_CORE_SOURCES_V0 := [("bundle.rs", "adapter")];
  SANITIZER_ONLY_SOURCES_V0 := [("sanitizer.rs", "sanitizer")];
  CLI_SELECTED_BUILD_CONTRACT_V0 := [];
  FIXTURE_SPEC_SOURCES_V0 := [("source-manifest.json", "fixture")];
  CAPTURE_PRODUCER_SOURCES_V0 := [];
|}.

Definition object (fields : list (string * JsonNode)) : JsonNode := JObject fields RClosed.

Definition command_node (type output status : string) (exit_code : JsonNode) : JsonNode :=
  object [("type", JString type);
    ("item", object [("id", JString "item_0"); ("type", JString "command_execution"); ("command", JString "ls");
       ("aggregated_output", JString output); ("exit_code", exit_code); ("status", JString status)])].

Definition run_nodes : list JsonNode :=
  [object [("type", JString "thread.started"); ("thread_id", JString "00000000-0000-7000-8000-000000000010")];
   object [("type", JString "turn.started")];
   command_node "item.started" "" "in_progress" JNull;
   command_node "item.completed" "out" "completed" (JInteger 0);
   object [("type", JString "turn.failed"); ("error", object [("message", JString "stopped")])]].

Definition run_lines : list string := json_text <$> run_nodes.
Definition run_jsonl : string := put_all lf_line run_lines.

Definition run_capture : FramedCaptureV0 :=
  match parse_owned run_jsonl with Ok capture => capture | Err _ => mkFramed "" [] end.
Definition run_records : list ParsedRecordV0 :=
  match parse_records (record_slices run_capture) with Ok records => records | Err _ => [] end.

Lemma run_framed : parse_owned run_jsonl = Ok run_capture.
Proof. vm_compute. reflexivity. Qed.

Lemma run_legal : legal_run run_jsonl None run_capture run_records.
Proof. split; [exact run_framed|split; [vm_compute; reflexivity|exists TFailed; vm_compute; reflexivity]]. Qed.

Lemma capture_framing_exact_witness :
  well_framed run_jsonl (record_slices run_capture) ∧ fc_bytes run_capture = run_jsonl.
Proof. exact (proj1 (capture_framing_exact run_jsonl) run_capture run_framed). Defined.

Definition run_policy : ArtifactBindingV0 := mkBinding "governance.policy" "1" (artifact_digest_v0 "policy").
Definition run_nonce : NonceMaterialV0 := mkNonce CaptureRandom "0123456789abcdef0123456789abcdef".

Lemma run_policy_valid : valid_binding run_policy.
Proof. split; [|split]; [vm_compute; reflexivity..|apply framed_sha256_valid]. Qed.

Lemma fixture_adapts_witness :
  ∃ receipt trusted mapped run_id,
    synthetic_with_nonce run_jsonl codex_exec_fixture_spec_binding_v0 run_nonce = Ok receipt ∧
    trusted_new (commitment (SyntheticFixture receipt)) run_policy = Ok trusted ∧
    authorize (SyntheticFixture receipt) run_capture trusted = Ok () ∧
    map_records_with_bindings toy_schema run_records (record_slices run_capture) (sy_raw_capture_seal receipt) run_policy
      = Ok mapped ∧
    ev_value (tt_run_id (mp_trace mapped)) = Some run_id ∧
    ((is_ok (adapt_owned toy_schema run_jsonl (SyntheticFixture receipt) trusted) = true ↔
      totals_bounded (use_trace (mp_trace mapped)) ∧ validate_compact_json_size (mp_trace mapped) = Ok ()) ∨
     collides (event_id_inputs run_id (record_slices run_capture)) (event_id_inputs run_id (record_slices run_capture))).
Proof.
  apply (fixture_adapts toy_schema run_jsonl run_capture run_records run_nonce run_policy).
  - exact run_legal.
  - split; [vm_compute; reflexivity|intros _; vm_compute; reflexivity].
  - exact run_policy_valid.
  - vm_compute. reflexivity.
Defined.

(** The receipt, the context and the adaptation of the run. *)
Definition run_receipt : InputAuthorityReceiptV0 :=
  SyntheticFixture
    match synthetic_with_nonce run_jsonl codex_exec_fixture_spec_binding_v0 run_nonce with
    | Ok receipt => receipt
    | Err _ => mkSynthetic "" "" "" pinned (u64_lit 0) "" (u64_lit 0) (raw_capture_seal_v0 []) run_policy CaptureRandom ""
    end.
Definition run_trusted : TrustedAdaptationContextV0 := mkTrusted "" "" (commitment run_receipt) run_policy.

Lemma run_adapts : ∃ adapted, adapt_owned toy_schema run_jsonl run_receipt run_trusted = Ok adapted.
Proof. apply is_ok_exists. vm_compute. reflexivity. Qed.

Lemma adaptation_bound_by_commitment_witness :
  (run_jsonl = run_jsonl ∧ run_receipt = run_receipt) ∨
  collides (adaptation_inputs run_jsonl run_receipt) (adaptation_inputs run_jsonl run_receipt).
Proof.
  destruct run_adapts as [adapted Ha].
  destruct (adaptation_bound_by_commitment toy_schema run_jsonl run_jsonl run_receipt run_receipt run_trusted run_trusted
    adapted adapted) as [(Hj & Hr & _)|Hc]; [exact Ha|exact Ha|vm_compute; reflexivity|vm_compute; reflexivity| | |reflexivity| |].
  - intros t Ht. vm_compute in Ht. discriminate Ht.
  - intros t Ht. vm_compute in Ht. discriminate Ht.
  - left. split; [exact Hj|exact Hr].
  - right. exact Hc.
Defined.
